(* ===== verification/_CoqProject ===== *)
-Q . S2P
Prelude.v
Bytes.v
Wyhash.v
SemverString.v
SemverVersion.v
SemverRange.v
SemverQuery.v
SemverIntersects.v
SemverInc.v
PairingHeap.v
LinearFifo.v
ValkeyProtocol.v
ValkeyScanner.v
ValkeyClient.v
SignalRing.v
UnboundedQueue.v
StableSort.v
IndexSort.v
MultiArraySort.v
DiffHunks.v
DiffElems.v
DiffMyers.v
DiffSearch.v
DiffLines.v
DiffChars.v
Wtf8.v
LineOffsetTable.v
Vlq.v
SourceMapWindow.v
SourceMapBuilder.v
SourceMap.v
SourceMapChunk.v
SourceMapList.v
SourceMapKernel.v
