(* ===== verification/Prelude.v ===== *)
(** * A verification library for soup's data-structure and protocol core

    soup is a JavaScript runtime, package manager, bundler and type checker in Rust, of
    some two million lines in a hundred crates.  Most of them are glue to an engine,
    to C libraries or to the kernel, or compilers over their own syntax trees.  Under
    them lies a core of self-contained crates the others rely on; this library models
    parts of that core in full and proves what makes them correct.  Source paths are
    those of the repository ([src/semver/inc.rs]).

    ** Parts, and how they meet

    - _Hashing_.  Wyhash.v: [Wyhash11] and [Wyhash] final4 (src/wyhash/lib.rs), one-shot,
      streaming and const-fn.  The package manager's lockfiles and the string pools of
      the semver crate key their tables with it.
    - _Semver_ (src/semver).  SemverString.v: eight-byte strings over a shared buffer and
      the two interning writers, which call [Wyhash11.hash].  SemverVersion.v: versions,
      their parser, orders, printers and the passes that copy them between buffers.
      SemverRange.v: comparators and the ranges they desugar to.  SemverQuery.v: range
      queries, their parser and satisfaction.  SemverIntersects.v: whether two queries
      meet, and whether one lies within another.  SemverInc.v: increments.  Each file
      uses the ones before it as the modules of the crate do; the package manager's
      resolver is their client.
    - _Containers_.  PairingHeap.v: the intrusive heap of timers (src/io/heap.rs).
      LinearFifo.v: the ring buffer of task queues (src/collections/linear_fifo.rs).
    - _Sorting_.  StableSort.v is a specification: a stable sort by a total preorder.
      IndexSort.v: the sorts of src/collections/index_sort.rs, which refine it.
      MultiArraySort.v: the stable sort of rows by index (src/collections/multi_array_list.rs).
    - _The Valkey client_.  ValkeyProtocol.v: the reply reader (src/valkey).
      ValkeyScanner.v: the scanner that finds where a reply ends without building it.
      ValkeyClient.v: the connection's buffer, the commands, and [on_data], which puts
      scanner and reader together (src/runtime/valkey_jsc, src/collections/vec_ext.rs).
    - _The text differ_ (src/text_diff/lib.rs), which the runtime and the linter's plugins
      use.  DiffHunks.v: hunks, what makes a list of them an edit script, and the passes
      that trim, join, slide and align them, over any instance of the trait [Elem] that
      keeps [ElemLaws].  DiffElems.v: the three instances.  DiffMyers.v: the search, as a
      state ([Search]) and one step of its work list ([job_step]), with [middle], its
      bidirectional probe of a box.  DiffSearch.v: the proof of the search.  DiffLines.v:
      the interning of lines, which hashes with [Wyhash.hash], and [diff_lines].
      DiffChars.v: [diff], [diff_as_fast_diff] and the semantic passes.
    - _Source maps_ (src/sourcemap, src/base64).  Vlq.v: base64 numbers of variable length.
      SourceMapWindow.v: the bytes of one window of the internal format and the reader of its
      deltas.  SourceMapBuilder.v: the builder that writes windows and the header.
      SourceMap.v: lookup and walks over a finished blob, and the two ways between it and
      the standard mappings text, which read and write the numbers of Vlq.v.
      LineOffsetTable.v: the table that turns byte offsets of a source into lines and columns.
      SourceMapChunk.v (Chunk.rs): the printer's side, which scans the printed text, looks
      locations up in the table and feeds the builder.  SourceMapList.v (Mapping.rs): the list
      of mappings of a standard map, its lookup and sort, and the parser of mappings texts.
    - _Lock-free queues_.  SignalRing.v: the ring of src/threading/signal_ring.rs, with
      the handler that fills it and the drain that empties it
      (src/jsc/PosixSignalHandle.rs).  UnboundedQueue.v: the intrusive queue of
      src/threading/unbounded_queue.rs, through which threads hand tasks to a loop.
    - _Shared_.  This file: byte literals, machine integers, Rust's [Result], slices,
      loops, comparison functions ([CmpLaws], the interface between the orders of the
      semver files and whatever sorts by them).  Bytes.v: the byte-string helpers and
      integer parsers of src/bun_core and src/bun_alloc.  Wtf8.v: encoding and decoding of
      one code point, and the scan for newlines, which the line tables and chunks use.

    ** How code becomes definitions

    A function of the source is a definition of the same name, with its guards and early
    returns in their order.  An operation that can panic (an index out of range, a
    failed assertion, an overflow the source would trap) returns [option], and [None]
    is the panic; errors are values of Rust's [Result] or [Option] as in the source.
    Integers are [Z] with their wrap-around or saturation written out; lengths and
    positions are [nat].  A structure is a record, an enum an inductive type.  State
    that is passed by [&mut] is returned; where pointers alias, the model has a store:
    node addresses in PairingHeap.v, tail indices in SemverQuery.v.  The reader of
    ValkeyProtocol.v runs in a state and error monad, the sorts of IndexSort.v in one
    whose state is the comparison's own; SignalRing.v and UnboundedQueue.v are transition
    functions, a step an atomic operation, from which schedules are built.

    ** What the theorems show

    - _Hashing_: streaming over any chunks, and the const-fn copy, compute the one-shot
      hash, and no read is out of bounds.
    - _Strings_: appending and interning give handles that read their string back, also
      under hash collisions, and keep earlier handles valid; the counting pass reserves
      what the appending pass writes.
    - _Versions_: the order is a total preorder; printing is inverted by the strict
      parser; the parser and [coerce] return on every input; [which_version_is_pinned]
      recognises the pins it documents.
    - _Queries_: the pointer-chain operations refine a list of lists; satisfaction is
      the OR of ANDs with node's prerelease rule; each range operator means what its
      documentation says; the parser is total, and text made from a comparator parses
      to its meaning.
    - _Intersections, subsets, increments_: soundness of [is_subset_of], completeness and
      symmetry of [intersects], and that [inc] returns the least, or a following, version.
      Where the documentation claims more, the files show what fails.
    - _Heap, fifo_: both refine a priority queue and a list for any sequence of
      operations, with the links, order and slots kept well formed.
    - _Sorting_: for a total preorder every sort is the stable sort; for any other
      comparison the merge sorts keep the items, and the first keeps its promise on
      neighbours; permuting in place is permuting.
    - _Valkey_: the reader accepts exactly the grammar [wire] and always returns; the
      scanner agrees with it and does not depend on how bytes arrive; the client handles
      the replies of a stream in order, each once, however the stream is cut.
    - _Text differ_: every diff returns hunks that turn the old text into the new one; those of
      lines start and end where lines do, those of characters cut no character; the search
      ends under any policy; the line table numbers lines alike exactly when they are equal;
      the word-wise searches and the prefix function agree with their plain definitions.
    - _Source maps_: decoding a number inverts encoding it; a flushed window is read back as the
      mappings it was given, whatever its spare bytes held; a finished blob is valid and gives
      back its mappings and marks; lookup is the last mapping at or before a position; the
      standard text of a blob reads back as the same blob; on corrupt bytes that pass the
      validity check nothing panics, and reading any text ends.  The table of a source gives
      every character its line and its column in UTF-16 units; a printed chunk holds the
      mappings the printer asked for, each at the place the text had reached, and covers lines
      from their start ([Printed] is its specification).  The parser of texts ends on any
      bytes, with a place for its error or mappings in range and order; a list parsed from
      a blob's text finds what the blob finds; the vectorised pass changes nothing.  Decoding
      a code point inverts encoding it, lone surrogates included.
    - _Lock-free queues_: under every interleaving the ring is a bounded FIFO queue; no
      accepted signal is stranded when everything is at rest; every schedule comes to
      rest.  The unbounded queue is FIFO in the order of the exchanges, with cuts that
      hide what is behind them until they are linked; no call is stuck, and once the
      pushes have returned a batch takes everything.

    ** Fuel and bounds

    Loops that are not structural recurse on fuel, and a theorem says the fuel given is
    enough, so a result never depends on it: parsers get one more than the length of the
    input ([parse_total], [query_parse_total], [read_value_decodes]: each round takes a
    byte), hashes the length in blocks, the sorts the length (a pass at least doubles the
    width, a search halves its range, a cycle finishes a position), the heap's walk the
    number of nodes.  The differ's search gets two rounds for each element (a round takes
    one from a box or cuts it), its probe of a box as many rounds as its depth, the passes
    over hunks six for each hunk (a weight of untrimmed hunks and gaps falls) and the line
    table its capacity, of which half stays free.  A source-map number has at most five
    bytes (seven base64 digits), a window 64 mappings, the search over windows takes their
    number, and the reader of a mappings text its length; blobs have at most [2 ^ 27] printed
    operations, so that no [u32] position overflows.  The line table is built in a round per byte and
    searched in a round per line, for sources below [i32::MAX] bytes; chunks have at most [2 ^ 25]
    events, four bytes each; the mappings parser takes a byte in each round, and texts have at
    most [i32::MAX] bytes.  Generic loops use [run_loop] below, whose [loops] abstracts the
    fuel away.  Inputs of the semver parser are below 4 GiB, since its positions are
    [u32]; item counts of the sorts fit [u32]; slices have at most [isize::MAX] items;
    replies nest at most 128 deep, as in the source.

    ** What is not modelled

    - Memory orderings: SignalRing.v and UnboundedQueue.v interleave sequentially consistent operations.
    - Allocation failure, except where the source returns it; debug-only checks that
      poison memory; formatters that only serve debug output or colours.
    - Handling of a Valkey reply, promises and reconnection, which run JavaScript: a
      parameter of ValkeyClient.v.  Parsing of floating-point numbers, a C++ routine: a
      parameter of ValkeyProtocol.v.  The standard library's unstable sort.
    - The vectorised pass over mappings texts (src/jsc/bindings/highway_sourcemap.cpp, C++ over the
      vectors of the Highway library): a parameter of SourceMapList.v, with [kernel_ok], what its
      documentation promises, as hypothesis.  The bytes behind the length of a buffer that the
      window writer reserves: a parameter of SourceMapBuilder.v.
    - Chunks whose text has carriage returns are outside the theorem on chunks, since the source
      counts a Windows newline twice ([windows_newline_is_two_lines]); so are marked braces, which
      the builder's theorem covers.  Printing and joining chunks as JSON, ParsedSourceMap and
      the fetching of maps and sources.
    - That the differ's scripts are the shortest: they are not when its work is bounded, and
      its search is only shown to be correct and to end.  Vectors it keeps from call to call to save
      allocations start afresh in the model.
    - The rest of the program.  The type checker, linter, formatter, bundler, CSS and
      JavaScript parsers are compilers whose functions share arenas of syntax trees: none
      can be modelled faithfully before the whole representation is.  The runtime, event
      loops, http, sql and process crates are callbacks from C++ and the kernel.  Of the
      self-contained crates, the bit sets and hive arrays, the thread pool, the tar headers,
      brace expansion and arithmetic of the shell and the glob matcher remain. *)

From Stdlib Require Export ZArith Lia.
From Stdlib Require Import Strings.Byte Strings.Ascii Strings.String.
From stdpp Require Export base option list fin_maps gmap list sorting.

Export String.StringSyntax.
#[export] Set Default Goal Selector "!".
#[global] Open Scope Z_scope.

(** ** Bytes and byte literals

    A [&[u8]] is a list of integers; [is_byte] is the range of [u8]. *)
Abbreviation bytes := (list Z).
Definition is_byte (z : Z) : Prop := 0 <= z < 256.
#[export] Instance is_byte_dec z : Decision (is_byte z).
Proof. unfold is_byte. apply _. Defined.

(** Splits the conjunctions of the statement, not those of its definitions; and
    closed decidable goals, by evaluation. *)
Ltac splits := repeat match goal with |- _ /\ _ => split end.
Ltac decide_now := apply (bool_decide_unpack _); vm_compute; exact I.

Definition u8_of_bytes (l : list Byte.byte) : option Z :=
  match l with [b] => Some (Z.of_N (Byte.to_N b)) | _ => None end.
Definition u8_to_bytes (z : Z) : option (list Byte.byte) := None.

(** ["x"%u8] is the code of the character, as Rust's [b'x']. *)
Declare Scope u8_scope.
Delimit Scope u8_scope with u8.
String Notation Z u8_of_bytes u8_to_bytes : u8_scope.

(** [bstr "abc"] is Rust's [b"abc"]. *)
Definition bstr (s : string) : bytes :=
  (fun a => Z.of_N (Ascii.N_of_ascii a)) <$> String.list_ascii_of_string s.
Arguments bstr s%_string.

(** [matches!(c, a | b | ...)] over a list of alternatives. *)
Definition one_of (cs : bytes) (c : Z) : bool := existsb (Z.eqb c) cs.
Definition in_range (lo hi c : Z) : bool := (lo <=? c) && (c <=? hi).

Definition is_ascii_digit (c : Z) : bool := in_range "0"%u8 "9"%u8 c.
Definition is_ascii_alphabetic (c : Z) : bool :=
  in_range "a"%u8 "z"%u8 c || in_range "A"%u8 "Z"%u8 c.
Definition is_ascii_alphanumeric (c : Z) : bool :=
  is_ascii_alphabetic c || is_ascii_digit c.
(** [u8::is_ascii_whitespace]: space, tab, LF, FF, CR. *)
Definition is_ascii_whitespace (c : Z) : bool := one_of [32; 9; 10; 12; 13] c.
Definition to_ascii_lowercase (c : Z) : Z :=
  if in_range "A"%u8 "Z"%u8 c then c + 32 else c.

(** ** Machine integers *)
Abbreviation u32_max := 4294967295.
Abbreviation u64_max := 18446744073709551615.
Definition wrap32 (z : Z) : Z := z mod 4294967296.
Definition wrap64 (z : Z) : Z := z mod 18446744073709551616.
(** [i32]: the values, a 32-bit word read as one, and the operations that are trapped. *)
Definition is_i32 (z : Z) : Prop := -2147483648 <= z <= 2147483647.
Definition wrap_i32 (z : Z) : Z := (z + 2147483648) mod 4294967296 - 2147483648.
Definition wrap_i64 (z : Z) : Z := (z + 9223372036854775808) mod 18446744073709551616 - 9223372036854775808.
Definition trap_i32 (z : Z) : option Z :=
  if (-2147483648 <=? z) && (z <=? 2147483647) then Some z else None.
Definition is_u32 (z : Z) : Prop := 0 <= z <= u32_max.
Definition is_u64 (z : Z) : Prop := 0 <= z <= u64_max.
(** [!x] on a 64-bit word. *)
Definition not64 (z : Z) : Z := u64_max - z.
(** [x as u32] for an index. *)
Definition as_u32 (n : nat) : nat := Z.to_nat (wrap32 (Z.of_nat n)).

Definition checked_add64 (a b : Z) : option Z :=
  if a + b <=? u64_max then Some (a + b) else None.
Definition saturating_add64 (a b : Z) : Z := Z.min u64_max (a + b).
Definition saturating_mul64 (a b : Z) : Z := Z.min u64_max (a * b).

Lemma as_u32_id n : Z.of_nat n <= u32_max -> as_u32 n = n.
Proof. intros H. unfold as_u32, wrap32. rewrite Z.mod_small by lia. lia. Qed.

Lemma wrap_i32_id z : is_i32 z -> wrap_i32 z = z.
Proof. unfold is_i32, wrap_i32. intros ?. rewrite Z.mod_small by lia. lia. Qed.
Lemma wrap_i32_range z : is_i32 (wrap_i32 z).
Proof. unfold is_i32, wrap_i32. pose proof (Z.mod_pos_bound (z + 2147483648) 4294967296). lia. Qed.
Lemma trap_i32_Some z : is_i32 z -> trap_i32 z = Some z.
Proof. unfold is_i32, trap_i32. intros [? ?]. by rewrite (proj2 (Z.leb_le _ _)), (proj2 (Z.leb_le z _)). Qed.

Lemma wrap64_small z : is_u64 z -> wrap64 z = z.
Proof. unfold is_u64, wrap64. intros ?. apply Z.mod_small. lia. Qed.

Lemma wrap64_range z : is_u64 (wrap64 z).
Proof.
  unfold is_u64, wrap64.
  pose proof (Z.mod_pos_bound z 18446744073709551616). lia.
Qed.

(** ** Rust's [Result] *)
Inductive result (E A : Type) : Type :=
| Ok (a : A)
| Err (e : E).
Arguments Ok {E A} a.
Arguments Err {E A} e.

Definition rbind {E A B} (m : result E A) (k : A -> result E B) : result E B :=
  match m with Ok a => k a | Err e => Err e end.
(** [m.ok()] *)
Definition rok {E A} (m : result E A) : option A :=
  match m with Ok a => Some a | Err _ => None end.

Declare Scope rust_scope.
Delimit Scope rust_scope with rust.
(** [let x = e?;] *)
Notation "'let?' x := e 'in' k" := (rbind e (fun x => k))
  (at level 10, x pattern, e at level 100, k at level 200) : rust_scope.

Lemma rbind_ok {E A B} (m : result E A) (k : A -> result E B) b :
  rbind m k = Ok b <-> exists a, m = Ok a /\ k a = Ok b.
Proof.
  destruct m as [a|e]; simpl; split.
  - eauto.
  - intros (a' & [= ->] & H). done.
  - done.
  - intros (a' & ? & _). done.
Qed.

(** ** Scanning: [while i < s.len() && p(s[i]) { i += 1 }] *)
Fixpoint count_while {A} (p : A -> bool) (l : list A) : nat :=
  match l with
  | [] => 0%nat
  | x :: l => if p x then S (count_while p l) else 0%nat
  end.
Definition skip_while {A} (p : A -> bool) (s : list A) (i : nat) : nat :=
  (i + count_while p (drop i s))%nat.

Section Scan.
Context {A : Type}.
Implicit Types (p : A -> bool) (l : list A).

Lemma count_while_le p l : (count_while p l <= length l)%nat.
Proof. induction l as [|x l IH]; simpl; [lia|]. destruct (p x); simpl; lia. Qed.

Lemma skip_while_ge p l i : (i <= skip_while p l i)%nat.
Proof. unfold skip_while. lia. Qed.

Lemma skip_while_le p l i : (i <= length l)%nat -> (skip_while p l i <= length l)%nat.
Proof.
  intros Hi. unfold skip_while.
  pose proof (count_while_le p (drop i l)) as H. rewrite length_drop in H. lia.
Qed.

Lemma count_while_app p l1 l2 :
  Forall (fun x => p x = true) l1 ->
  count_while p (l1 ++ l2) = (length l1 + count_while p l2)%nat.
Proof. induction 1 as [|x l Hx _ IH]; simpl; [done|]. rewrite Hx, IH. lia. Qed.

Lemma count_while_stop p l :
  (match l with [] => True | x :: _ => p x = false end) -> count_while p l = 0%nat.
Proof. destruct l as [|x l]; simpl; [done|]. by intros ->. Qed.

Lemma count_while_drop p l k : (k <= count_while p l)%nat -> count_while p (drop k l) = (count_while p l - k)%nat.
Proof.
  revert k. induction l as [|x l IH]; intros [|k] Hk; cbn [count_while drop] in *; try done; [lia|].
  destruct (p x); [|lia]. rewrite IH by lia. lia.
Qed.

Lemma take_count_while p l :
  Forall (fun x => p x = true) (take (count_while p l) l).
Proof.
  induction l as [|x l IH]; simpl; [constructor|].
  destruct (p x) eqn:E; simpl; constructor; done.
Qed.

Lemma drop_count_while p l x :
  head (drop (count_while p l) l) = Some x -> p x = false.
Proof.
  induction l as [|y l IH]; simpl; [done|].
  destruct (p y) eqn:E; simpl; [exact IH|]. by intros [= <-].
Qed.

(** Reading a list from the suffix at an index. *)
Lemma lookup_of_drop l i x r : drop i l = x :: r -> l !! i = Some x.
Proof. intros H. rewrite <- (Nat.add_0_r i), <- lookup_drop, H. done. Qed.

Lemma lookup_of_drop_nil l i : drop i l = [] -> l !! i = None.
Proof. intros H. rewrite <- (Nat.add_0_r i), <- lookup_drop, H. done. Qed.

Lemma drop_of_app l i xs r : drop i l = xs ++ r -> drop (i + length xs) l = r.
Proof. intros H. rewrite <- drop_drop, H. apply drop_app_length. Qed.

Lemma drop_of_cons l i x r : drop i l = x :: r -> drop (S i) l = r.
Proof. intros H. rewrite <- Nat.add_1_r. by apply (drop_of_app l i [x]). Qed.

Lemma skip_while_run p l i xs r :
  drop i l = xs ++ r -> Forall (fun x => p x = true) xs ->
  (match r with [] => True | x :: _ => p x = false end) ->
  skip_while p l i = (i + length xs)%nat.
Proof.
  intros Hd Hxs Hr. unfold skip_while. rewrite Hd, count_while_app by done.
  rewrite count_while_stop by done. lia.
Qed.
End Scan.

(** ** Loops

    [loop { ... }] over a state: the body continues with a state ([inl]) or
    leaves the loop with a result ([inr]).  [run_loop] is bounded by fuel; the
    [run_loop_rule] gives termination and the postcondition at once, from an
    invariant and a measure. *)
Fixpoint run_loop {S R} (fuel : nat) (step : S -> S + R) (s : S) : option R :=
  match fuel with
  | O => None
  | Datatypes.S fuel =>
      match step s with
      | inl s => run_loop fuel step s
      | inr r => Some r
      end
  end.

Section Loops.
Context {S R : Type} (step : S -> S + R).

Lemma run_loop_rule (Inv : S -> Prop) (Post : R -> Prop) (measure : S -> nat) fuel s :
  (forall s, Inv s ->
     match step s with
     | inl s' => Inv s' /\ (measure s' < measure s)%nat
     | inr r => Post r
     end) ->
  Inv s -> (measure s < fuel)%nat ->
  exists r, run_loop fuel step s = Some r /\ Post r.
Proof.
  intros Hstep. revert s. induction fuel as [|fuel IH]; intros s Hs Hm; [lia|].
  cbn [run_loop]. specialize (Hstep s Hs). destruct (step s) as [s'|r]; [|eauto].
  destruct Hstep. apply IH; [done|lia].
Qed.

Lemma run_loop_mono fuel fuel' s r :
  (fuel <= fuel')%nat -> run_loop fuel step s = Some r -> run_loop fuel' step s = Some r.
Proof.
  revert fuel' s. induction fuel as [|fuel IH]; intros fuel' s Hle; [done|].
  destruct fuel' as [|fuel']; [lia|]. cbn [run_loop].
  destruct (step s); [apply IH; lia|done].
Qed.

(** [loops s r]: the loop from [s] ends with [r]. *)
Definition loops (s : S) (r : R) : Prop := exists fuel, run_loop fuel step s = Some r.

(** [n] iterations lead from [s] to [s']. *)
Fixpoint iterates (n : nat) (s s' : S) : Prop :=
  match n with
  | O => s = s'
  | Datatypes.S n => exists s1, step s = inl s1 /\ iterates n s1 s'
  end.

Lemma iterates_one s s' : step s = inl s' -> iterates 1 s s'.
Proof. intros H. by exists s'. Qed.
Lemma iterates_app n m s1 s2 s3 : iterates n s1 s2 -> iterates m s2 s3 -> iterates (n + m) s1 s3.
Proof.
  revert s1. induction n as [|n IH]; intros s1; cbn [iterates Nat.add]; [by intros ->|].
  intros (s & Hs & Hn) Hm. exists s. split; [done|]. by apply IH.
Qed.
Lemma iterates_run n fuel s s' r :
  iterates n s s' -> step s' = inr r -> (n < fuel)%nat -> run_loop fuel step s = Some r.
Proof.
  revert fuel s. induction n as [|n IH]; intros [|fuel] s; cbn [iterates run_loop]; try lia.
  - by intros -> ->.
  - intros (s1 & -> & Hn) Hr Hf. apply IH; [done|done|lia].
Qed.

Lemma run_iterates fuel s r :
  run_loop fuel step s = Some r -> exists n s', iterates n s s' /\ step s' = inr r.
Proof.
  revert s. induction fuel as [|fuel IH]; intros s; cbn [run_loop]; [done|].
  destruct (step s) as [s1|r1] eqn:E; [|intros [= ->]; by exists 0%nat, s].
  intros (n & s' & Hn & Hr)%IH. exists (Datatypes.S n), s'. split; [by exists s1|done].
Qed.
Lemma iterates_loops n s s' r : iterates n s s' -> step s' = inr r -> loops s r.
Proof. intros Hn Hr. exists (Datatypes.S n). eapply (iterates_run _ _ _ _ _ Hn Hr). lia. Qed.

Lemma loops_step s s' r : step s = inl s' -> loops s' r -> loops s r.
Proof. intros H [n Hn]. exists (Datatypes.S n). cbn [run_loop]. by rewrite H. Qed.

Lemma loops_stop s r : step s = inr r -> loops s r.
Proof. intros H. exists 1%nat. cbn [run_loop]. by rewrite H. Qed.

Lemma loops_run fuel s r r' : loops s r -> run_loop fuel step s = Some r' -> r' = r.
Proof.
  intros [n Hn] H. apply (run_loop_mono _ (n + fuel)) in Hn; [|lia].
  apply (run_loop_mono _ (n + fuel)) in H; [|lia]. congruence.
Qed.
End Loops.

(** Iterations that keep an invariant, carried over to another body. *)
Lemma iterates_transfer {S R} (step step' : S -> S + R) (Inv : S -> Prop) n s s' :
  (forall s s', Inv s -> step s = inl s' -> Inv s' /\ step' s = inl s') ->
  Inv s -> iterates step n s s' -> iterates step' n s s' /\ Inv s'.
Proof.
  intros Hstep. revert s. induction n as [|n IH]; intros s Hs; cbn [iterates]; [by intros <-|].
  intros (s1 & E & Hn). destruct (Hstep s s1 Hs E) as [Hs1 E']. destruct (IH s1 Hs1 Hn) as [Hn' Hs'].
  split; [by exists s1|done].
Qed.

(** ** Orderings

    Rust's [Ordering] is [comparison].  [CmpLaws compare] says that [compare] is a
    total preorder; the combinators below build the comparison functions of the
    program from smaller ones, and their instances prove the laws once. *)
Class CmpLaws {A} (compare : A -> A -> comparison) : Prop := {
  cmp_flip x y : compare y x = CompOpp (compare x y);
  cmp_le_trans x y z : compare x y <> Gt -> compare y z <> Gt -> compare x z <> Gt;
}.

Section CmpFacts.
Context {A : Type} (compare : A -> A -> comparison) `{!CmpLaws compare}.

Lemma cmp_refl x : compare x x = Eq.
Proof. pose proof (cmp_flip (compare:=compare) x x) as H. by destruct (compare x x). Qed.

Lemma cmp_eq_sym x y : compare x y = Eq -> compare y x = Eq.
Proof. intros H. rewrite (cmp_flip (compare:=compare)), H. done. Qed.

Lemma cmp_lt_gt x y : compare x y = Lt <-> compare y x = Gt.
Proof. rewrite (cmp_flip (compare:=compare) x y). destruct (compare x y); split; done. Qed.

Lemma cmp_lt_le_trans x y z : compare x y = Lt -> compare y z <> Gt -> compare x z = Lt.
Proof.
  intros Hxy Hyz.
  assert (Hxz : compare x z <> Gt) by (apply (cmp_le_trans (compare:=compare) x y z); [by rewrite Hxy | done]).
  destruct (compare x z) eqn:E; [|done|done].
  exfalso. apply (cmp_le_trans (compare:=compare) y z x); [done| |].
  - rewrite (cmp_flip (compare:=compare)), E. done.
  - rewrite (cmp_flip (compare:=compare)), Hxy. done.
Qed.

Lemma cmp_le_lt_trans x y z : compare x y <> Gt -> compare y z = Lt -> compare x z = Lt.
Proof.
  intros Hxy Hyz.
  assert (Hxz : compare x z <> Gt) by (apply (cmp_le_trans (compare:=compare) x y z); [done | by rewrite Hyz]).
  destruct (compare x z) eqn:E; [|done|done].
  exfalso. apply (cmp_le_trans (compare:=compare) z x y); [ |done| ].
  - rewrite (cmp_flip (compare:=compare)), E. done.
  - rewrite (cmp_flip (compare:=compare)), Hyz. done.
Qed.

Lemma cmp_lt_trans a b c : compare b c = Lt -> compare a b = Lt -> compare a c = Lt.
Proof. intros H2 H1. apply (cmp_lt_le_trans a b c); [done | by rewrite H2]. Qed.

Lemma cmp_eq_l x y z : compare x y = Eq -> compare x z = compare y z.
Proof.
  intros H. destruct (compare y z) eqn:E.
  - assert (H1 : compare x z <> Gt) by (apply (cmp_le_trans (compare:=compare) x y z); congruence).
    assert (H2 : compare z x <> Gt).
    { apply (cmp_le_trans (compare:=compare) z y x); rewrite (cmp_flip (compare:=compare)); by rewrite ?E, ?H. }
    rewrite (cmp_flip (compare:=compare)) in H2. by destruct (compare x z).
  - apply (cmp_le_lt_trans x y z); congruence.
  - apply cmp_lt_gt. apply (cmp_lt_le_trans z y x).
    + by apply cmp_lt_gt.
    + rewrite (cmp_flip (compare:=compare)), H. done.
Qed.

Lemma cmp_eq_r x y z : compare x y = Eq -> compare z x = compare z y.
Proof.
  intros H. rewrite (cmp_flip (compare:=compare) x z), (cmp_flip (compare:=compare) y z). f_equal. by apply cmp_eq_l.
Qed.

(** The usual form of transitivity, for each of the three outcomes. *)
Lemma cmp_trans c x y z : compare x y = c -> compare y z = c -> compare x z = c.
Proof.
  destruct c; intros H1 H2.
  - by rewrite (cmp_eq_l x y).
  - by apply (cmp_lt_trans x y z).
  - apply cmp_lt_gt in H1, H2. apply cmp_lt_gt. by apply (cmp_lt_trans z y x).
Qed.

(** The third comparison, as far as the other two decide it: destructing the three
    leaves the possible cases. *)
Definition cmp_consistent (xy yz xz : comparison) : Prop :=
  match xy, yz with
  | Eq, c | c, Eq => xz = c
  | Lt, Lt => xz = Lt
  | Gt, Gt => xz = Gt
  | _, _ => True
  end.
Lemma cmp_cases x y z : cmp_consistent (compare x y) (compare y z) (compare x z).
Proof.
  destruct (compare x y) eqn:E1, (compare y z) eqn:E2; cbn; try done.
  - rewrite (cmp_eq_l x y z); done.
  - rewrite (cmp_eq_l x y z); done.
  - rewrite (cmp_eq_l x y z); done.
  - rewrite <- (cmp_eq_r y z x); done.
  - by apply (cmp_trans Lt x y z).
  - rewrite <- (cmp_eq_r y z x); done.
  - by apply (cmp_trans Gt x y z).
Qed.
End CmpFacts.

(** Compare by a key. *)
Definition cmp_on {A B} (f : A -> B) (compare : B -> B -> comparison) (x y : A) : comparison :=
  compare (f x) (f y).
(** [a.then_with(b)] *)
Definition cmp_then {A} (c1 c2 : A -> A -> comparison) (x y : A) : comparison :=
  match c1 x y with Eq => c2 x y | r => r end.
(** Two classes, the elements of [b] first, each with its own comparison. *)
Definition cmp_split {A} (b : A -> bool) (c1 c2 : A -> A -> comparison) (x y : A) : comparison :=
  match b x, b y with
  | true, true => c1 x y
  | true, false => Lt
  | false, true => Gt
  | false, false => c2 x y
  end.
(** Lexicographic comparison of slices; a proper prefix is less. *)
Fixpoint cmp_list {A} (compare : A -> A -> comparison) (xs ys : list A) : comparison :=
  match xs, ys with
  | [], [] => Eq
  | [], _ :: _ => Lt
  | _ :: _, [] => Gt
  | x :: xs, y :: ys =>
      match compare x y with Eq => cmp_list compare xs ys | r => r end
  end.
(** [false < true] *)
Definition cmp_bool (x y : bool) : comparison :=
  match x, y with false, true => Lt | true, false => Gt | _, _ => Eq end.

#[export] Instance cmp_Z_laws : CmpLaws Z.compare.
Proof.
  split; [intros x y; apply Z.compare_antisym|].
  intros x y z H1 H2. change (x <= z). change (x <= y) in H1. change (y <= z) in H2. lia.
Qed.

#[export] Instance cmp_bool_laws : CmpLaws cmp_bool.
Proof. split; [by intros [] []|]. intros [] [] []; simpl; congruence. Qed.

#[export] Instance cmp_on_laws {A B} (f : A -> B) compare `{!CmpLaws compare} : CmpLaws (cmp_on f compare).
Proof.
  split; unfold cmp_on; [intros x y; apply cmp_flip|].
  intros x y z. apply cmp_le_trans.
Qed.

#[export] Instance cmp_then_laws {A} (c1 c2 : A -> A -> comparison)
  `{!CmpLaws c1, !CmpLaws c2} : CmpLaws (cmp_then c1 c2).
Proof.
  split; unfold cmp_then.
  - intros x y. rewrite (cmp_flip (compare := c1) x y), (cmp_flip (compare := c2) x y).
    by destruct (c1 x y).
  - intros x y z. destruct (c1 x y) eqn:E; intros H1 H2; [| |done].
    + rewrite (cmp_eq_l c1 x y z E). destruct (c1 y z); [|done|done].
      by apply (cmp_le_trans (compare:=c2) x y z).
    + rewrite (cmp_lt_le_trans c1 x y z E); [done|].
      by destruct (c1 y z).
Qed.

#[export] Instance cmp_split_laws {A} (b : A -> bool) (c1 c2 : A -> A -> comparison)
  `{!CmpLaws c1, !CmpLaws c2} : CmpLaws (cmp_split b c1 c2).
Proof.
  split; unfold cmp_split.
  - intros x y. destruct (b x), (b y); (done || apply cmp_flip).
  - intros x y z. destruct (b x), (b y), (b z); (done || apply cmp_le_trans).
Qed.

#[export] Instance cmp_list_laws {A} (compare : A -> A -> comparison) `{!CmpLaws compare} :
  CmpLaws (cmp_list compare).
Proof.
  split.
  - induction x as [|x xs IH]; intros [|y ys]; simpl; try done.
    rewrite (cmp_flip (compare:=compare) x y). destruct (compare x y); simpl; [apply IH|done|done].
  - induction x as [|x xs IH]; intros [|y ys] [|z zs]; simpl; try done.
    destruct (compare x y) eqn:E; intros H1 H2; [| |done].
    + rewrite (cmp_eq_l compare x y z E). destruct (compare y z); [|done|done]. by eapply IH.
    + rewrite (cmp_lt_le_trans compare x y z E); [done|]. by destruct (compare y z).
Qed.

Lemma cmp_laws_ext {A} (c1 c2 : A -> A -> comparison) :
  (forall x y, c1 x y = c2 x y) -> CmpLaws c2 -> CmpLaws c1.
Proof.
  intros He H. split; intros *; rewrite !He; [apply cmp_flip|apply cmp_le_trans].
Qed.

Lemma cmp_list_eq (xs ys : bytes) : cmp_list Z.compare xs ys = Eq <-> xs = ys.
Proof.
  revert ys. induction xs as [|x xs IH]; intros [|y ys]; simpl; try (split; done).
  destruct (Z.compare_spec x y) as [->|H|H].
  - rewrite IH. split; [by intros ->|by intros [= ->]].
  - split; [done|]. intros [= -> _]. lia.
  - split; [done|]. intros [= -> _]. lia.
Qed.

(** ** Little-endian words *)
Fixpoint le_combine (l : bytes) : Z :=
  match l with [] => 0 | b :: l => b + 256 * le_combine l end.
Fixpoint le_split (n : nat) (z : Z) : bytes :=
  match n with O => [] | S n => z mod 256 :: le_split n (z / 256) end.

Lemma length_le_split n z : length (le_split n z) = n.
Proof. revert z. induction n; intros z; simpl; auto. Qed.

Lemma le_combine_split n z : le_combine (le_split n z) = z mod 256 ^ Z.of_nat n.
Proof.
  revert z. induction n as [|n IH]; intros z; [simpl; by rewrite Z.mod_1_r|].
  cbn [le_combine le_split]. rewrite IH, Nat2Z.inj_succ, Z.pow_succ_r by lia.
  rewrite (Z.rem_mul_r z 256 (256 ^ Z.of_nat n)) by lia. done.
Qed.

Lemma le_combine_range l :
  Forall is_byte l -> 0 <= le_combine l < 256 ^ Z.of_nat (length l).
Proof.
  unfold is_byte. induction 1 as [|b l Hb _ IH]; [done|].
  cbn [le_combine length]. rewrite Nat2Z.inj_succ, Z.pow_succ_r by lia. lia.
Qed.

Lemma le_split_combine l : Forall is_byte l -> le_split (length l) (le_combine l) = l.
Proof.
  unfold is_byte. induction 1 as [|b l Hb _ IH]; [done|].
  cbn [le_combine length le_split].
  replace (b + 256 * le_combine l) with (b + le_combine l * 256) by lia.
  rewrite Z.mod_add, Z.div_add, Z.mod_small, Z.div_small, Z.add_0_l by lia.
  by rewrite IH.
Qed.

Lemma le_combine_inj l1 l2 :
  length l1 = length l2 -> Forall is_byte l1 -> Forall is_byte l2 -> le_combine l1 = le_combine l2 -> l1 = l2.
Proof.
  intros Hl H1 H2 E. rewrite <- (le_split_combine l1 H1), <- (le_split_combine l2 H2). by rewrite Hl, E.
Qed.

Lemma le_split_bytes n z : Forall is_byte (le_split n z).
Proof.
  revert z. induction n as [|n IH]; intros z; simpl; constructor; [|done].
  apply Z.mod_pos_bound. lia.
Qed.

Lemma le_combine_app l1 l2 :
  le_combine (l1 ++ l2) = le_combine l1 + 256 ^ Z.of_nat (length l1) * le_combine l2.
Proof.
  induction l1 as [|b l1 IH]; cbn [le_combine app length]; [lia|].
  rewrite IH, Nat2Z.inj_succ, Z.pow_succ_r by lia. lia.
Qed.

(** ** Slices

    Operations that panic in Rust return [None] here. *)

(** [&s[i..j]] *)
Definition slice_range {A} (s : list A) (i j : nat) : option (list A) :=
  if (i <=? j)%nat && (j <=? length s)%nat then Some (take (j - i) (drop i s)) else None.
(** [&s[i..]] *)
Definition slice_from {A} (s : list A) (i : nat) : option (list A) :=
  if (i <=? length s)%nat then Some (drop i s) else None.
(** [dst[at..at + src.len()].copy_from_slice(src)] *)
Definition copy_into {A} (dst : list A) (at_ : nat) (src : list A) : option (list A) :=
  if (at_ + length src <=? length dst)%nat
  then Some (take at_ dst ++ src ++ drop (at_ + length src) dst)
  else None.

(** [s[i] = x] *)
Definition write_at {A} (s : list A) (i : nat) (x : A) : option (list A) :=
  if (i <? length s)%nat then Some (<[i := x]> s) else None.

Section Slices.
Context {A : Type}.
Implicit Types s dst src : list A.

Lemma write_at_Some s i x : (i < length s)%nat -> write_at s i x = Some (<[i := x]> s).
Proof. intros ?. unfold write_at. by rewrite (proj2 (Nat.ltb_lt i (length s))). Qed.

Lemma slice_range_Some s i j :
  (i <= j)%nat -> (j <= length s)%nat ->
  slice_range s i j = Some (take (j - i) (drop i s)).
Proof.
  intros ? ?. unfold slice_range.
  destruct (Nat.leb_spec i j), (Nat.leb_spec j (length s)); simpl; (done || lia).
Qed.

Lemma slice_from_Some s i : (i <= length s)%nat -> slice_from s i = Some (drop i s).
Proof. intros ?. unfold slice_from. destruct (Nat.leb_spec i (length s)); (done || lia). Qed.

Lemma copy_into_Some dst at_ src :
  (at_ + length src <= length dst)%nat ->
  copy_into dst at_ src = Some (take at_ dst ++ src ++ drop (at_ + length src) dst).
Proof.
  intros ?. unfold copy_into.
  destruct (Nat.leb_spec (at_ + length src) (length dst)); (done || lia).
Qed.

Lemma copy_into_length dst at_ src dst' :
  copy_into dst at_ src = Some dst' -> length dst' = length dst.
Proof.
  unfold copy_into. destruct (Nat.leb_spec (at_ + length src) (length dst)); [|done].
  intros [= <-]. rewrite !length_app, length_take, length_drop. lia.
Qed.

Lemma take_take_drop s i j : take i s ++ take j (drop i s) = take (i + j) s.
Proof.
  revert i. induction s as [|x s IH]; intros [|i]; simpl;
    rewrite ?take_nil; try done.
  by rewrite IH.
Qed.
End Slices.

(** ** Bits *)

(** [x.trailing_zeros()] of a word of [bits] bits. *)
Fixpoint trailing_zeros (bits : nat) (z : Z) : nat :=
  match bits with
  | O => O
  | S bits => if Z.odd z then O else S (trailing_zeros bits (z / 2))
  end.

Lemma testbit_split b z i :
  0 <= b < 256 -> 0 <= i ->
  Z.testbit (b + 256 * z) i = if i <? 8 then Z.testbit b i else Z.testbit z (i - 8).
Proof.
  intros Hb Hi. destruct (Z.ltb_spec i 8) as [H|H].
  - rewrite <- (Z.mod_pow2_bits_low _ 8) by lia. change (2 ^ 8) with 256.
    rewrite Z.mul_comm, Z.mod_add, Z.mod_small by lia. done.
  - replace i with (i - 8 + 8) at 1 by lia. rewrite <- Z.div_pow2_bits by lia.
    change (2 ^ 8) with 256. rewrite Z.mul_comm, Z.div_add, Z.div_small by lia. done.
Qed.

Lemma land_range n a b : 0 <= n -> 0 <= a < 2 ^ n -> 0 <= b -> 0 <= Z.land a b < 2 ^ n.
Proof.
  intros Hn Ha Hb. assert (Hl : Z.land a b = Z.land a b mod 2 ^ n).
  { apply Z.bits_inj'. intros i Hi. destruct (Z.lt_ge_cases i n) as [H|H].
    - by rewrite Z.mod_pow2_bits_low.
    - rewrite Z.mod_pow2_bits_high, Z.land_spec by lia.
      rewrite <- (Z.mod_small a (2 ^ n)), Z.mod_pow2_bits_high by lia. done. }
  rewrite Hl. apply Z.mod_pos_bound. lia.
Qed.

(** A bitwise operation works byte by byte. *)
Lemma land_split b1 z1 b2 z2 :
  0 <= b1 < 256 -> 0 <= b2 < 256 ->
  Z.land (b1 + 256 * z1) (b2 + 256 * z2) = Z.land b1 b2 + 256 * Z.land z1 z2.
Proof.
  intros H1 H2. pose proof (land_range 8 b1 b2 ltac:(lia) H1 ltac:(lia)) as Hr.
  change (2 ^ 8) with 256 in Hr.
  apply Z.bits_inj'. intros i Hi. rewrite Z.land_spec, !testbit_split by lia.
  destruct (i <? 8); by rewrite Z.land_spec.
Qed.

(** Bits put above those of a smaller number. *)
Lemma lor_shiftl a b n : 0 <= n -> 0 <= a < 2 ^ n -> Z.lor a (Z.shiftl b n) = a + b * 2 ^ n.
Proof.
  intros Hn Ha. rewrite <- Z.shiftl_mul_pow2 by done. rewrite Z.add_nocarry_lxor, Z.lxor_lor; [done|..];
    apply Z.bits_inj'; intros i Hi; rewrite Z.land_spec, Z.bits_0, Z.shiftl_spec by done;
    (destruct (Z.lt_ge_cases i n) as [H|H]; [by rewrite (Z.testbit_neg_r b) by lia; apply andb_false_r|]);
    rewrite <- (Z.mod_small a (2 ^ n)), Z.mod_pow2_bits_high by lia; done.
Qed.

(** The high bit of a byte. *)
Lemma land_128 b : is_byte b -> Z.land b 128 = if b <? 128 then 0 else 128.
Proof.
  intros Hb. assert (forallb (fun n => Z.land (Z.of_nat n) 128 =?
    (if Z.of_nat n <? 128 then 0 else 128)) (seq 0 256) = true) as H by by vm_compute.
  rewrite forallb_forall in H. unfold is_byte in Hb.
  specialize (H (Z.to_nat b)). rewrite Z2Nat.id in H by lia. apply Z.eqb_eq, H.
  apply in_seq. lia.
Qed.

Lemma Forall_nth_byte (l : bytes) k : Forall is_byte l -> is_byte (nth k l 0).
Proof.
  intros H. destruct (nth_in_or_default k l 0) as [Hin| ->]; [|unfold is_byte; lia].
  by eapply List.Forall_forall in H.
Qed.

Lemma nth_replicate {A} k n (x : A) : nth k (replicate n x) x = x.
Proof. revert k. induction n as [|n IH]; intros [|k]; simpl; auto. Qed.

Lemma nth_le_split k n z : (k < n)%nat -> nth k (le_split n z) 0 = (z / 256 ^ Z.of_nat k) mod 256.
Proof.
  revert k z. induction n as [|n IH]; intros [|k] z Hk; try lia; cbn [le_split nth].
  - by rewrite Z.div_1_r.
  - rewrite IH by lia. rewrite Nat2Z.inj_succ, Z.pow_succ_r by lia.
    by rewrite Z.div_div by lia.
Qed.

Lemma take_le_split k n z : (k <= n)%nat -> take k (le_split n z) = le_split k z.
Proof.
  revert k z. induction n as [|n IH]; intros [|k] z Hk; try done; [lia|].
  cbn [le_split take]. by rewrite IH by lia.
Qed.

Lemma drop_le_split k n z : (k <= n)%nat ->
  drop k (le_split n z) = le_split (n - k) (z / 256 ^ Z.of_nat k).
Proof.
  revert k z. induction n as [|n IH]; intros [|k] z Hk; try done.
  - cbn [drop Nat.sub]. by rewrite Z.div_1_r.
  - cbn [le_split drop Nat.sub]. rewrite IH by lia.
    rewrite Nat2Z.inj_succ, Z.pow_succ_r by lia. by rewrite Z.div_div by lia.
Qed.

(** Setting a bit above a value. *)
Lemma lor_pow2 n a : 0 <= n -> 0 <= a < 2 ^ n -> Z.lor a (2 ^ n) = a + 2 ^ n.
Proof.
  intros Hn Ha. rewrite <- Z.lxor_lor, <- Z.add_nocarry_lxor; [done| |].
  all: apply Z.bits_inj'; intros i Hi; rewrite Z.land_spec, Z.bits_0, Z.pow2_bits_eqb by lia.
  all: destruct (Z.eqb_spec n i) as [<-|]; [|by rewrite andb_false_r].
  all: rewrite <- (Z.mod_small a (2 ^ n)), Z.mod_pow2_bits_high by lia; done.
Qed.

(** ** Neighbours in order *)
Section Neighbours.
Context {A : Type}.

Lemma Sorted_join (R : relation A) l1 l2 :
  Sorted R l1 -> Sorted R l2 ->
  (forall x y, last l1 = Some x -> head l2 = Some y -> R x y) -> Sorted R (l1 ++ l2).
Proof.
  induction 1 as [|x l1 Hs IH Hd]; intros H2 Hj; cbn [app]; [done|].
  constructor.
  - apply IH; [done|]. intros a b Ha Hb. apply Hj; [|done]. by destruct l1.
  - destruct l1 as [|a l1]; cbn [app].
    + destruct l2 as [|b l2]; constructor. by apply Hj.
    + inversion_clear Hd. by constructor.
Qed.

Lemma Sorted_weaken (R R' : relation A) l : (forall x y, R x y -> R' x y) -> Sorted R l -> Sorted R' l.
Proof.
  intros HR. induction 1 as [|x l _ IH Hd]; constructor; [done|]. destruct Hd; constructor; auto.
Qed.

Lemma Sorted_split (R : relation A) l1 l2 :
  Sorted R (l1 ++ l2) ->
  Sorted R l1 /\ Sorted R l2 /\ forall x y, last l1 = Some x -> head l2 = Some y -> R x y.
Proof.
  induction l1 as [|a l1 IH]; cbn [app]; intros Hs; [splits; [constructor|done|done]|].
  inversion_clear Hs as [|? ? Hs' Hd]. destruct (IH Hs') as (H1 & H2 & Hj).
  splits; [|done|].
  - constructor; [done|]. destruct l1; [constructor|]. inversion_clear Hd. by constructor.
  - intros x y Hx Hy. destruct l1 as [|b l1]; [|by apply Hj].
    cbn in Hx, Hd. simplify_eq. destruct l2; simplify_eq/=. by inversion_clear Hd.
Qed.
End Neighbours.
