(* ===== verification/Bytes.v ===== *)
(** * Byte-string primitives

    The helpers of [bun_core] and [bun_alloc] that the semver, hashing and
    protocol components call: [strings::trim]/[split]/[order]
    (src/bun_alloc/lib.rs, src/bun_core/string/immutable.rs) and the integer
    parsers [parse_int]/[parse_unsigned] (src/bun_core/fmt.rs), with the decimal
    printer of [core::fmt] they are inverse to. *)

From S2P Require Import Prelude.

(** ** Searching and trimming *)

(** [index_of] for a one-byte needle. *)
Fixpoint index_of_char (s : bytes) (c : Z) : option nat :=
  match s with
  | [] => None
  | x :: s => if x =? c then Some 0%nat else S <$> index_of_char s c
  end.

(** The first place of [needle], as the scalar search finds it: the vector kernels give
    the same. *)
Fixpoint scalar_memmem (haystack needle : bytes) (places : nat) : option nat :=
  match places with
  | O => None
  | S places =>
      if bool_decide (take (length needle) haystack = needle) then Some 0%nat
      else S <$> scalar_memmem (drop 1 haystack) needle places
  end.
Definition memmem (haystack needle : bytes) : option nat :=
  match needle with
  | [] => Some 0%nat
  | _ => if (length haystack <? length needle)%nat then None
         else scalar_memmem haystack needle (S (length haystack - length needle))
  end.
Definition index_of (self_ str : bytes) : option nat :=
  match self_, str with
  | [], _ | _, [] => None
  | _, [c] => index_of_char self_ c
  | _, _ => if (length self_ <? length str)%nat then None else memmem self_ str
  end.

(** [last_index_of_char]: the scalar search from the end. *)
Definition last_index_of_char (self_ : bytes) (c : Z) : option nat :=
  (fun i => (length self_ - 1 - i)%nat) <$> index_of_char (rev self_) c.
Definition count_char (self_ : bytes) (c : Z) : nat := length (filter (fun b => b = c) self_).

Definition WHITESPACE_CHARS : bytes := [32; 9; 10; 13; 11; 12].

(** The loop of [trim_left]: the index of the first byte not in [chars]. *)
Definition trim_left (s chars : bytes) : bytes :=
  drop (skip_while (one_of chars) s 0) s.

(** The loop of [trim_right]: [end] walks down while [s[end - 1]] is in [chars]. *)
Fixpoint trim_right_end (s chars : bytes) (e : nat) : nat :=
  match e with
  | O => O
  | S e' =>
      match s !! e' with
      | Some c => if one_of chars c then trim_right_end s chars e' else e
      | None => e
      end
  end.
Definition trim_right (s chars : bytes) : bytes :=
  take (trim_right_end s chars (length s)) s.

Definition trim (s chars : bytes) : bytes := trim_right (trim_left s chars) chars.

Definition length_of_leading_whitespace_ascii (s : bytes) : nat :=
  count_while (one_of WHITESPACE_CHARS) s.

(** [strings::order]: [<[u8] as Ord>::cmp]. *)
Definition order (a b : bytes) : comparison := cmp_list Z.compare a b.

(** ** Splitting *)

(** [SplitIterator] for a one-byte delimiter: the buffer and the index of the
    next field, [None] when the iterator is exhausted. *)
Record SplitIterator := { sp_buffer : bytes; sp_index : option nat; sp_delimiter : Z }.

Definition split (s : bytes) (delimiter : Z) : SplitIterator :=
  {| sp_buffer := s; sp_index := Some 0%nat; sp_delimiter := delimiter |}.

Definition split_next (it : SplitIterator) : option bytes * SplitIterator :=
  match sp_index it with
  | None => (None, it)
  | Some start =>
      match index_of_char (drop start (sp_buffer it)) (sp_delimiter it) with
      | Some delim_start =>
          let del := (delim_start + start)%nat in
          (Some (take (del - start) (drop start (sp_buffer it))),
           {| sp_buffer := sp_buffer it; sp_index := Some (del + 1)%nat;
              sp_delimiter := sp_delimiter it |})
      | None =>
          (Some (drop start (sp_buffer it)),
           {| sp_buffer := sp_buffer it; sp_index := None;
              sp_delimiter := sp_delimiter it |})
      end
  end.

(** Draining the iterator; a buffer of [n] bytes has at most [n + 1] fields. *)
Fixpoint split_collect (fuel : nat) (it : SplitIterator) : list bytes :=
  match fuel with
  | O => []
  | S fuel =>
      match split_next it with
      | (Some part, it) => part :: split_collect fuel it
      | (None, _) => []
      end
  end.
Definition split_parts (s : bytes) (delimiter : Z) : list bytes :=
  split_collect (S (S (length s))) (split s delimiter).

(** Reference definition: the fields of [s], by recursion on [s]. *)
Fixpoint fields (s : bytes) (c : Z) : list bytes :=
  match s with
  | [] => [[]]
  | x :: s =>
      if x =? c then [] :: fields s c
      else match fields s c with
           | f :: fs => (x :: f) :: fs
           | [] => [[x]]
           end
  end.

(** [parts.join(c)] *)
Fixpoint join (c : Z) (parts : list bytes) : bytes :=
  match parts with
  | [] => []
  | [p] => p
  | p :: ps => p ++ c :: join c ps
  end.

(** ** Integer parsing *)
Inductive ParseIntError := InvalidCharacter | Overflow.

Definition u128_max : Z := 340282366920938463463374607431768211455.
Definition i128_max : Z := 170141183460469231731687303715884105727.

Definition digit_value (c : Z) : option Z :=
  if in_range "0"%u8 "9"%u8 c then Some (c - "0"%u8)
  else if in_range "a"%u8 "z"%u8 c then Some (c - "a"%u8 + 10)
  else if in_range "A"%u8 "Z"%u8 c then Some (c - "A"%u8 + 10)
  else None.

(** The digit loop of [parse_with_sign]; [acc] is a [u128]. *)
Fixpoint parse_digits (radix : Z) (digits : bytes) (acc : Z) : result ParseIntError Z :=
  match digits with
  | [] => Ok acc
  | c :: digits =>
      if c =? "_"%u8 then parse_digits radix digits acc
      else match digit_value c with
           | None => Err InvalidCharacter
           | Some d =>
               if radix <=? d then Err InvalidCharacter
               else if u128_max <? acc * radix then Err Overflow
               else if u128_max <? acc * radix + d then Err Overflow
               else parse_digits radix digits (acc * radix + d)
           end
  end.

Definition parse_with_sign (digits : bytes) (radix : Z) : result ParseIntError Z :=
  match head digits, last digits with
  | Some first, Some final =>
      if (first =? "_"%u8) || (final =? "_"%u8) then Err InvalidCharacter
      else parse_digits radix digits 0
  | _, _ => Err InvalidCharacter
  end.

Definition auto_radix (digits : bytes) (radix : Z) : bytes * Z :=
  if negb (radix =? 0) then (digits, radix)
  else match digits with
       | z :: k :: rest =>
           if z =? "0"%u8 then
             if one_of (bstr "xX") k then (rest, 16)
             else if one_of (bstr "oO") k then (rest, 8)
             else if one_of (bstr "bB") k then (rest, 2)
             else (digits, 10)
           else (digits, 10)
       | _ => (digits, 10)
       end.

(** The target type of a parse: its least and greatest value. *)
Record IntTy := { int_min : Z; int_max : Z }.
Definition u64_ty : IntTy := {| int_min := 0; int_max := u64_max |}.
Definition u32_ty : IntTy := {| int_min := 0; int_max := u32_max |}.
Definition i64_ty : IntTy :=
  {| int_min := -9223372036854775808; int_max := 9223372036854775807 |}.

(** [T::try_from(v).map_err(|_| Overflow)] *)
Definition int_try_from (T : IntTy) (v : Z) : result ParseIntError Z :=
  if (int_min T <=? v) && (v <=? int_max T) then Ok v else Err Overflow.

Definition parse_int (T : IntTy) (buf : bytes) (radix : Z) : result ParseIntError Z :=
  match buf with
  | [] => Err InvalidCharacter
  | c :: tl =>
      let '(neg, rest) :=
        if c =? "+"%u8 then (false, tl)
        else if c =? "-"%u8 then (true, tl) else (false, buf) in
      let '(digits, radix) := auto_radix rest radix in
      (let? acc := parse_with_sign digits radix in
       if neg : bool then
         if acc =? i128_max + 1 then int_try_from T (- (i128_max + 1))
         else if i128_max <? acc then Err Overflow
         else int_try_from T (- acc)
       else int_try_from T acc)%rust
  end.

Definition parse_unsigned (T : IntTy) (buf : bytes) (radix : Z) : result ParseIntError Z :=
  let '(digits, radix) := auto_radix buf radix in
  (let? acc := parse_with_sign digits radix in int_try_from T acc)%rust.

(** ** Decimal printing: [write!(f, "{}", n)] for an unsigned [n] *)
Fixpoint show_fuel (fuel : nat) (n : Z) (acc : bytes) : bytes :=
  match fuel with
  | O => acc
  | S fuel =>
      let acc := "0"%u8 + n mod 10 :: acc in
      if n <? 10 then acc else show_fuel fuel (n / 10) acc
  end.
(** A [u128] has 39 decimal digits. *)
Definition show (n : Z) : bytes := show_fuel 39 n [].

(** The value of a string of decimal digits. *)
Definition dec_value (ds : bytes) : Z :=
  foldl (fun acc c => acc * 10 + (c - "0"%u8)) 0 ds.

(** ** Facts *)
Definition all_digits (s : bytes) : Prop := Forall (fun c => is_ascii_digit c = true) s.

Lemma is_ascii_digit_iff c : is_ascii_digit c = true <-> 48 <= c <= 57.
Proof. unfold is_ascii_digit, in_range. rewrite andb_true_iff, !Z.leb_le. done. Qed.

Lemma index_of_char_None s c : index_of_char s c = None <-> c ∉ s.
Proof.
  induction s as [|x s IH]; simpl; [split; [intros _; apply not_elem_of_nil|done]|].
  rewrite not_elem_of_cons. destruct (Z.eqb_spec x c) as [->|Hx].
  - split; [done|]. intros [? _]. done.
  - rewrite fmap_None, IH. split; [intros ?; by split|by intros [_ ?]].
Qed.

Lemma index_of_char_Some s c i :
  index_of_char s c = Some i ->
  s = take i s ++ c :: drop (S i) s /\ c ∉ take i s.
Proof.
  revert i. induction s as [|x s IH]; intros i; simpl; [done|].
  destruct (Z.eqb_spec x c) as [->|Hx].
  - intros [= <-]. simpl. split; [by rewrite drop_0|apply not_elem_of_nil].
  - intros (j & Hj & ->)%fmap_Some. destruct (IH j Hj) as [H1 H2]. simpl.
    split; [by f_equal|]. rewrite not_elem_of_cons. by split.
Qed.

Lemma scalar_memmem_Some haystack needle places i :
  scalar_memmem haystack needle places = Some i ->
  (i < places)%nat /\ take (length needle) (drop i haystack) = needle.
Proof.
  revert haystack i. induction places as [|places IH]; intros haystack i; cbn [scalar_memmem]; [done|].
  case_bool_decide as Hn; [intros [= <-]; split; [lia|done]|].
  intros (j & Hj & ->)%fmap_Some. apply IH in Hj as [? Hj]. split; [lia|]. by rewrite drop_drop in Hj.
Qed.

Lemma index_of_Some self_ str i :
  index_of self_ str = Some i ->
  (i + length str <= length self_)%nat /\ take (length str) (drop i self_) = str.
Proof.
  unfold index_of. destruct self_ as [|x self_]; [done|]. destruct str as [|y [|z str]]; [done| |].
  - intros Hi. pose proof (index_of_char_Some _ _ _ Hi) as [E _].
    assert (length (take i (x :: self_)) = i) as Hl.
    { apply length_take_le. destruct (decide (i <= length (x :: self_))%nat); [done|].
      rewrite take_ge in E by lia. apply (f_equal length) in E. rewrite length_app in E. cbn [length] in E. lia. }
    pose proof (f_equal length E) as El. rewrite length_app, Hl in El. cbn [length] in El |- *. split; [lia|].
    rewrite E, <- Hl at 1. by rewrite drop_app_length.
  - destruct (Nat.ltb_spec (length (x :: self_)) (length (y :: z :: str))) as [|Hle]; [done|].
    unfold memmem. rewrite (proj2 (Nat.ltb_ge _ _)) by done. intros [? ?]%scalar_memmem_Some. split; [lia|done].
Qed.

(** Nothing to trim. *)
Lemma trim_right_id s chars :
  Forall (fun c => one_of chars c = false) s -> trim_right s chars = s.
Proof.
  intros H. unfold trim_right. replace (trim_right_end s chars (length s)) with (length s).
  { apply firstn_all. }
  destruct (length s) as [|n] eqn:E; [done|]. cbn [trim_right_end].
  destruct (s !! n) as [c|] eqn:Hc; [|done].
  rewrite Forall_forall in H. rewrite H; [done|]. by eapply list_elem_of_lookup_2.
Qed.

Lemma skip_while_none (p : Z -> bool) s :
  Forall (fun c => p c = false) s -> skip_while p s 0 = 0%nat.
Proof.
  intros H. apply (skip_while_run p s 0 [] s); [by rewrite drop_0|done|].
  by destruct H.
Qed.

Lemma trim_id s chars : Forall (fun c => one_of chars c = false) s -> trim s chars = s.
Proof.
  intros H. unfold trim, trim_left. rewrite skip_while_none, drop_0 by done.
  by apply trim_right_id.
Qed.

Lemma fields_ne s c : fields s c <> [].
Proof.
  destruct s as [|x s]; simpl; [done|]. destruct (x =? c); [done|].
  by destruct (fields s c).
Qed.

Lemma fields_no_sep s c : c ∉ s -> fields s c = [s].
Proof.
  induction s as [|x s IH]; simpl; [done|]. rewrite not_elem_of_cons. intros [Hx Hs].
  destruct (Z.eqb_spec x c); [congruence|]. by rewrite IH.
Qed.

Lemma fields_app s1 s2 c : c ∉ s1 -> fields (s1 ++ c :: s2) c = s1 :: fields s2 c.
Proof.
  induction s1 as [|x s1 IH]; simpl; [by rewrite Z.eqb_refl|].
  rewrite not_elem_of_cons. intros [Hx Hs].
  destruct (Z.eqb_spec x c); [congruence|]. by rewrite IH.
Qed.

Lemma fields_join c parts :
  parts <> [] -> Forall (fun p => c ∉ p) parts -> fields (join c parts) c = parts.
Proof.
  intros Hne Hall. induction Hall as [|p ps Hp Hps IH]; [done|].
  destruct ps as [|q ps]; [by apply fields_no_sep|].
  change (join c (p :: q :: ps)) with (p ++ c :: join c (q :: ps)).
  rewrite fields_app by done. by rewrite IH.
Qed.

Lemma join_fields c s : join c (fields s c) = s.
Proof.
  induction s as [|x s IH]; simpl; [done|].
  destruct (Z.eqb_spec x c) as [->|Hx].
  - pose proof (fields_ne s c) as Hne. destruct (fields s c) as [|f fs] eqn:E; [done|].
    change (join c ([] :: f :: fs)) with (c :: join c (f :: fs)). by rewrite IH.
  - destruct (fields s c) as [|f fs] eqn:E; [by simpl in IH; subst|].
    destruct fs; simpl in *; by rewrite IH.
Qed.

Lemma split_collect_exhausted fuel s c :
  split_collect fuel {| sp_buffer := s; sp_index := None; sp_delimiter := c |} = [].
Proof. by destruct fuel. Qed.

(** A property of the bytes passes to the fields and back. *)
Lemma fields_forall (P : Z -> Prop) s c : Forall P s -> Forall (Forall P) (fields s c).
Proof.
  induction 1 as [|x s Hx Hs IH]; simpl; [by repeat constructor|].
  destruct (x =? c); [by constructor|].
  destruct (fields s c) as [|f fs]; [by repeat constructor|].
  apply Forall_cons in IH as [Hf Hfs]. by repeat constructor.
Qed.

Lemma fields_sep_free s c : Forall (fun p => c ∉ p) (fields s c).
Proof.
  induction s as [|x s IH]; simpl; [constructor; [by apply not_elem_of_nil|done]|].
  destruct (Z.eqb_spec x c) as [_|Hx]; [constructor; [by apply not_elem_of_nil|done]|].
  destruct (fields s c) as [|f fs]; [constructor; [|done]; by apply not_elem_of_cons; split; [|apply not_elem_of_nil]|].
  apply Forall_cons in IH as [Hf Hfs]. constructor; [|done]. by apply not_elem_of_cons.
Qed.

Lemma join_forall (P : Z -> Prop) c parts : P c -> Forall (Forall P) parts -> Forall P (join c parts).
Proof.
  intros Hc. induction 1 as [|p ps Hp Hps IH]; [done|]. destruct ps as [|q ps]; [done|].
  change (join c (p :: q :: ps)) with (p ++ c :: join c (q :: ps)). apply Forall_app.
  split; [done|]. by constructor.
Qed.

(** The iterator enumerates the fields: from index [start], with enough fuel. *)
Lemma split_collect_fields fuel s c start :
  (length s - start + 2 <= fuel)%nat -> (start <= length s)%nat ->
  split_collect fuel {| sp_buffer := s; sp_index := Some start; sp_delimiter := c |}
  = fields (drop start s) c.
Proof.
  revert start. induction fuel as [|fuel IH]; intros start Hf Hs; [lia|].
  cbn [split_collect]. unfold split_next; cbn [sp_index sp_buffer sp_delimiter].
  destruct (index_of_char (drop start s) c) as [k|] eqn:E.
  - destruct (index_of_char_Some _ _ _ E) as [H1 H2].
    pose proof (f_equal length H1) as Hl.
    rewrite length_app, length_take in Hl; cbn [length] in Hl.
    rewrite !length_drop in Hl.
    replace (k + start - start)%nat with k by lia.
    rewrite IH by lia.
    rewrite H1 at 2. rewrite fields_app by done. f_equal. f_equal.
    rewrite drop_drop. f_equal. lia.
  - apply index_of_char_None in E. rewrite fields_no_sep by done.
    by rewrite split_collect_exhausted.
Qed.

Lemma split_parts_fields s c : split_parts s c = fields s c.
Proof.
  unfold split_parts, split. rewrite split_collect_fields by lia. by rewrite drop_0.
Qed.

(** The fields an iterator has left. *)
Definition sp_fields (it : SplitIterator) : list bytes :=
  match sp_index it with
  | None => []
  | Some start => fields (drop start (sp_buffer it)) (sp_delimiter it)
  end.
Definition sp_ok (it : SplitIterator) : Prop :=
  match sp_index it with None => True | Some start => (start <= length (sp_buffer it))%nat end.

Lemma split_next_fields it :
  sp_ok it ->
  match sp_fields it with
  | [] => split_next it = (None, it)
  | f :: fs => exists it', split_next it = (Some f, it') /\ sp_ok it' /\ sp_fields it' = fs
  end.
Proof.
  destruct it as [s [start|] c]; unfold sp_ok, sp_fields, split_next;
    cbn [sp_index sp_buffer sp_delimiter]; [|done].
  intros Hs. destruct (index_of_char (drop start s) c) as [k|] eqn:E.
  - destruct (index_of_char_Some _ _ _ E) as [H1 H2].
    pose proof (f_equal length H1) as Hl.
    rewrite length_app, length_take in Hl; cbn [length] in Hl. rewrite !length_drop in Hl.
    assert (fields (drop start s) c
            = take k (drop start s) :: fields (drop (S k) (drop start s)) c) as ->.
    { rewrite H1 at 1. by apply fields_app. }
    replace (k + start - start)%nat with k by lia.
    eexists. split; [done|]. cbn [sp_index sp_buffer sp_delimiter]. split; [lia|].
    rewrite drop_drop. do 2 f_equal. lia.
  - apply index_of_char_None in E. rewrite fields_no_sep by done. by eexists.
Qed.

Lemma length_fields s c : (length (fields s c) <= S (length s))%nat.
Proof.
  induction s as [|x s IH]; cbn [fields]; [done|].
  destruct (x =? c); cbn [length]; [lia|]. destruct (fields s c); cbn [length] in *; lia.
Qed.

Lemma dec_value_app ds c : dec_value (ds ++ [c]) = dec_value ds * 10 + (c - 48).
Proof. unfold dec_value. by rewrite foldl_app. Qed.

Lemma digit_value_digit c : is_ascii_digit c = true -> digit_value c = Some (c - 48).
Proof. unfold is_ascii_digit, digit_value. by intros ->. Qed.

Lemma foldl_digits_ge ds acc :
  all_digits ds -> 0 <= acc ->
  acc <= foldl (fun acc c => acc * 10 + (c - 48)) acc ds.
Proof.
  intros H. revert acc. induction H as [|c ds Hc _ IH]; intros acc Ha; simpl; [lia|].
  apply is_ascii_digit_iff in Hc. etransitivity; [|apply IH; lia]. lia.
Qed.

Lemma parse_digits_decimal ds acc :
  all_digits ds -> 0 <= acc <= u128_max ->
  parse_digits 10 ds acc =
    (let v := foldl (fun acc c => acc * 10 + (c - 48)) acc ds in
     if v <=? u128_max then Ok v else Err Overflow).
Proof.
  intros H. revert acc. induction H as [|c ds Hc Hds IH]; intros acc Ha; cbn [parse_digits foldl].
  { destruct (Z.leb_spec acc u128_max); [done|lia]. }
  pose proof Hc as Hr. apply is_ascii_digit_iff in Hr.
  destruct (Z.eqb_spec c 95); [lia|].
  rewrite digit_value_digit by done.
  destruct (Z.leb_spec 10 (c - 48)); [lia|].
  pose proof (foldl_digits_ge ds (acc * 10 + (c - 48)) Hds) as Hge.
  destruct (Z.ltb_spec u128_max (acc * 10)); cbv zeta.
  { destruct (Z.leb_spec (foldl (fun acc c => acc * 10 + (c - 48)) (acc * 10 + (c - 48)) ds) u128_max);
      [lia|done]. }
  destruct (Z.ltb_spec u128_max (acc * 10 + (c - 48))).
  { destruct (Z.leb_spec (foldl (fun acc c => acc * 10 + (c - 48)) (acc * 10 + (c - 48)) ds) u128_max);
      [lia|done]. }
  rewrite IH by lia. done.
Qed.

Lemma all_digits_ends ds :
  ds <> [] -> all_digits ds ->
  exists a b, head ds = Some a /\ last ds = Some b /\ 48 <= a <= 57 /\ 48 <= b <= 57.
Proof.
  intros Hne H. destruct ds as [|a ds]; [done|]. unfold all_digits in H.
  destruct (last (a :: ds)) as [b|] eqn:E; [|by apply last_None in E].
  rewrite Forall_forall in H. exists a, b.
  split; [done|]. split; [done|]. split; apply is_ascii_digit_iff, H; [left|].
  apply last_Some in E as [l ->]. set_solver.
Qed.

(** On a non-empty digit string the parser is the numeric value, bounded by the
    target type. *)
Lemma parse_unsigned_digits T ds :
  ds <> [] -> all_digits ds -> int_min T <= 0 -> int_max T <= u128_max ->
  parse_unsigned T ds 10 =
    if dec_value ds <=? int_max T then Ok (dec_value ds) else Err Overflow.
Proof.
  intros Hne Hd Hmin Hmax. unfold parse_unsigned, parse_with_sign. simpl.
  destruct (all_digits_ends ds Hne Hd) as (a & b & -> & -> & Ha & Hb).
  destruct (Z.eqb_spec a 95), (Z.eqb_spec b 95); try lia. cbn [orb].
  rewrite parse_digits_decimal by (done || (unfold u128_max; lia)).
  pose proof (foldl_digits_ge ds 0 Hd ltac:(lia)) as Hge. cbv zeta.
  fold (dec_value ds) in *. unfold int_try_from.
  destruct (Z.leb_spec (dec_value ds) u128_max) as [Hu|Hu]; cbn [rbind].
  - destruct (Z.leb_spec (int_min T) (dec_value ds)); [done|lia].
  - destruct (Z.leb_spec (dec_value ds) (int_max T)); [lia|done].
Qed.

Lemma dec_value_nonneg ds : all_digits ds -> 0 <= dec_value ds.
Proof. intros H. by apply (foldl_digits_ge ds 0). Qed.

(** *** The printer *)
Lemma show_fuel_spec fuel n acc :
  0 <= n < 10 ^ Z.of_nat fuel -> fuel <> O ->
  exists ds, show_fuel fuel n acc = ds ++ acc /\ ds <> [] /\ all_digits ds
    /\ dec_value ds = n /\ (head ds = Some 48 -> n = 0).
Proof.
  revert n acc. induction fuel as [|fuel IH]; intros n acc Hn Hf; [done|].
  cbn [show_fuel]. rewrite Nat2Z.inj_succ, Z.pow_succ_r in Hn by lia.
  pose proof (Z.mod_pos_bound n 10).
  assert (Hd : is_ascii_digit (48 + n mod 10) = true) by (apply is_ascii_digit_iff; lia).
  destruct (Z.ltb_spec n 10) as [Hlt|Hge].
  - exists [48 + n mod 10]. rewrite Z.mod_small in * by lia.
    split_and!; [done|done|by constructor| |].
    + unfold dec_value; simpl; lia.
    + simpl. intros [= ?]. lia.
  - destruct fuel as [|fuel]; [simpl in Hn; lia|].
    destruct (IH (n / 10) (48 + n mod 10 :: acc)) as (ds & -> & Hne & Hds & Hv & Hh);
      [split; [apply Z.div_pos; lia|apply Z.div_lt_upper_bound; lia]|done|].
    exists (ds ++ [48 + n mod 10]). split_and!.
    + by rewrite <- app_assoc.
    + by destruct ds.
    + apply Forall_app. by split; [|constructor].
    + rewrite dec_value_app, Hv. pose proof (Z.div_mod n 10). lia.
    + destruct ds as [|d ds]; [done|]. simpl in *. intros [= ->].
      assert (n / 10 = 0) by auto. pose proof (Z.div_mod n 10). lia.
Qed.

Lemma show_spec n :
  0 <= n <= u128_max ->
  show n <> [] /\ all_digits (show n) /\ dec_value (show n) = n
  /\ (head (show n) = Some 48 -> n = 0).
Proof.
  intros Hn. unfold show.
  destruct (show_fuel_spec 39 n []) as (ds & -> & H); [|done|by rewrite app_nil_r].
  unfold u128_max in Hn. simpl. lia.
Qed.

Lemma parse_unsigned_show T n :
  int_min T <= 0 -> int_max T <= u128_max -> 0 <= n <= int_max T ->
  parse_unsigned T (show n) 10 = Ok n.
Proof.
  intros ? ? Hn. destruct (show_spec n) as (Hne & Hd & Hv & _); [lia|].
  rewrite parse_unsigned_digits by done. rewrite Hv.
  destruct (Z.leb_spec n (int_max T)); [done|lia].
Qed.

Lemma show_length n : (length (show n) <= 39)%nat.
Proof.
  unfold show. enough (forall fuel n acc, (length (show_fuel fuel n acc) <= fuel + length acc)%nat) as H.
  { specialize (H 39%nat n []). cbn [length] in H. lia. }
  intros fuel. induction fuel as [|fuel IH]; intros m acc; cbn [show_fuel]; [done|].
  destruct (m <? 10); cbn [length]; [lia|]. specialize (IH (m / 10) (48 + m mod 10 :: acc)). cbn [length] in IH. lia.
Qed.

(** Proofs use the printer through [show_spec]. *)
#[global] Opaque show.
