(* ===== verification/Wyhash.v ===== *)
(** * Wyhash (src/wyhash/lib.rs)

    The two hash functions of the program: [Wyhash11] (32-byte rounds, used for
    lockfile and semver string hashes) and [Wyhash] (the final4 variant, 48-byte
    rounds), each with its streaming and its one-shot entry points.  Words are
    [Z] values below [2^64].  Every read is checked: [None] is an out-of-bounds
    read, which the code performs with [read_unaligned] and no check. *)

From S2P Require Import Prelude Bytes.

Definition read_le (n : nat) (data : bytes) : option Z :=
  if (n <=? length data)%nat then Some (le_combine (take n data)) else None.

Definition lxor3 (a b c : Z) : Z := Z.lxor (Z.lxor a b) c.

(** [x as u64] and [x >> 64] of a [u128] product. *)
Definition lo64 (x : Z) : Z := wrap64 x.
Definition hi64 (x : Z) : Z := Z.shiftr x 64.

(** Rounds over consecutive blocks, the shape of every absorbing loop. *)
Section Absorb.
Context {St : Type} (block : nat) (round : St -> bytes -> option St).

Fixpoint absorb (n : nat) (st : St) (l : bytes) : option St :=
  match n with
  | O => Some st
  | S n => st ← round st (take block l); absorb n st (drop block l)
  end.

Lemma absorb_add n m st l :
  absorb (n + m) st l = (st' ← absorb n st l; absorb m st' (drop (n * block) l)).
Proof.
  revert st l. induction n as [|n IH]; intros st l; simpl; [by rewrite drop_0|].
  destruct (round st (take block l)) as [st'|]; simpl; [|done].
  rewrite IH. destruct (absorb n st' (drop block l)); simpl; [|done].
  by rewrite drop_drop.
Qed.

Lemma absorb_app n st l1 l2 :
  (n * block <= length l1)%nat -> absorb n st (l1 ++ l2) = absorb n st l1.
Proof.
  revert st l1. induction n as [|n IH]; intros st l1 Hl; [done|].
  cbn [absorb]. rewrite take_app_le by lia.
  destruct (round st (take block l1)) as [st'|]; simpl; [|done].
  rewrite drop_app_le by lia. apply IH. rewrite length_drop. lia.
Qed.
End Absorb.

Module Wyhash11.
Definition P0 : Z := 0xa0761d6478bd642f.
Definition P1 : Z := 0xe7037ed1a0b428db.
Definition P2 : Z := 0x8ebc6af09c88c6e3.
Definition P3 : Z := 0x589965cc75374cc3.
Definition P4 : Z := 0x1d8e4e27c47d124f.

Definition read_bytes (n : nat) (data : bytes) : option Z := read_le n data.

Definition read_8bytes_swapped (data : bytes) : option Z :=
  a ← read_bytes 4 data;
  b ← read_bytes 4 (drop 4 data);
  Some (Z.lor (wrap64 (Z.shiftl a 32)) b).

Definition mum (a b : Z) : Z :=
  let r := a * b in lo64 (Z.lxor (Z.shiftr r 64) r).

Definition mix0 (a b seed : Z) : Z := mum (lxor3 a seed P0) (lxor3 b seed P1).
Definition mix1 (a b seed : Z) : Z := mum (lxor3 a seed P2) (lxor3 b seed P3).

(** [(x << s) | y] on words. *)
Definition shl_or (x : Z) (s : Z) (y : Z) : Z := Z.lor (wrap64 (Z.shiftl x s)) y.

(** The read of the last [1..8] bytes of a key, by their number:
    [rd k d] is what the arm for [k] trailing bytes reads from [d]. *)
Definition rd1 (d : bytes) : option Z := read_bytes 1 d.
Definition rd2 (d : bytes) : option Z := read_bytes 2 d.
Definition rd3 (d : bytes) : option Z :=
  x ← read_bytes 2 d; y ← read_bytes 1 (drop 2 d); Some (shl_or x 8 y).
Definition rd4 (d : bytes) : option Z := read_bytes 4 d.
Definition rd5 (d : bytes) : option Z :=
  x ← read_bytes 4 d; y ← read_bytes 1 (drop 4 d); Some (shl_or x 8 y).
Definition rd6 (d : bytes) : option Z :=
  x ← read_bytes 4 d; y ← read_bytes 2 (drop 4 d); Some (shl_or x 16 y).
Definition rd7 (d : bytes) : option Z :=
  x ← read_bytes 4 d; y ← read_bytes 2 (drop 4 d); z ← read_bytes 1 (drop 6 d);
  Some (Z.lor (shl_or x 24 (wrap64 (Z.shiftl y 8))) z).
Definition rd8 (d : bytes) : option Z := read_8bytes_swapped d.

Definition final_long (seed : Z) (key : bytes) : option Z :=
  k0 ← read_8bytes_swapped key;
  k8 ← read_8bytes_swapped (drop 8 key);
  let head := mix0 k0 k8 seed in
  let k16 := drop 16 key in
  let k24 := drop 24 key in
  tail ← match length key with
    | 17 => x ← rd1 k16; Some (mix1 x P4 seed)
    | 18 => x ← rd2 k16; Some (mix1 x P4 seed)
    | 19 => x ← rd3 k16; Some (mix1 x P4 seed)
    | 20 => x ← rd4 k16; Some (mix1 x P4 seed)
    | 21 => x ← rd5 k16; Some (mix1 x P4 seed)
    | 22 => x ← rd6 k16; Some (mix1 x P4 seed)
    | 23 => x ← rd7 k16; Some (mix1 x P4 seed)
    | 24 => x ← rd8 k16; Some (mix1 x P4 seed)
    | 25 => x ← rd8 k16; y ← rd1 k24; Some (mix1 x y seed)
    | 26 => x ← rd8 k16; y ← rd2 k24; Some (mix1 x y seed)
    | 27 => x ← rd8 k16; y ← rd3 k24; Some (mix1 x y seed)
    | 28 => x ← rd8 k16; y ← rd4 k24; Some (mix1 x y seed)
    | 29 => x ← rd8 k16; y ← rd5 k24; Some (mix1 x y seed)
    | 30 => x ← rd8 k16; y ← rd6 k24; Some (mix1 x y seed)
    | 31 => x ← rd8 k16; y ← rd7 k24; Some (mix1 x y seed)
    | _ => None
    end%nat;
  Some (Z.lxor head tail).

(** [WyhashStateless] *)
Record Stateless := { seed : Z; msg_len : nat }.

Definition init_stateless (s : Z) : Stateless := {| seed := s; msg_len := 0 |}.

Definition round_seed (s : Z) (b : bytes) : option Z :=
  a0 ← read_bytes 8 b; a1 ← read_bytes 8 (drop 8 b);
  a2 ← read_bytes 8 (drop 16 b); a3 ← read_bytes 8 (drop 24 b);
  Some (Z.lxor (mix0 a0 a1 s) (mix1 a2 a3 s)).

Definition round (st : Stateless) (b : bytes) : option Stateless :=
  s ← round_seed (seed st) b; Some {| seed := s; msg_len := msg_len st |}.

(** [while off < b.len() { self.round(&b[off..off + 32]); off += 32 }] *)
Fixpoint update_loop (fuel : nat) (st : Stateless) (b : bytes) (off : nat) : option Stateless :=
  match fuel with
  | O => None
  | S fuel =>
      if (off <? length b)%nat then
        blk ← slice_range b off (off + 32);
        st ← round st blk;
        update_loop fuel st b (off + 32)
      else Some st
  end.

Definition update_stateless (st : Stateless) (b : bytes) : option Stateless :=
  st ← update_loop (S (length b)) st b 0;
  Some {| seed := seed st; msg_len := msg_len st + length b |}.

Definition final_stateless (st : Stateless) (b : bytes) : option Z :=
  let sd := seed st in
  s' ← match length b with
    | 0 => Some sd
    | 1 => x ← rd1 b; Some (mix0 x P4 sd)
    | 2 => x ← rd2 b; Some (mix0 x P4 sd)
    | 3 => x ← rd3 b; Some (mix0 x P4 sd)
    | 4 => x ← rd4 b; Some (mix0 x P4 sd)
    | 5 => x ← rd5 b; Some (mix0 x P4 sd)
    | 6 => x ← rd6 b; Some (mix0 x P4 sd)
    | 7 => x ← rd7 b; Some (mix0 x P4 sd)
    | 8 => x ← rd8 b; Some (mix0 x P4 sd)
    | 9 => x ← rd8 b; y ← rd1 (drop 8 b); Some (mix0 x y sd)
    | 10 => x ← rd8 b; y ← rd2 (drop 8 b); Some (mix0 x y sd)
    | 11 => x ← rd8 b; y ← rd3 (drop 8 b); Some (mix0 x y sd)
    | 12 => x ← rd8 b; y ← rd4 (drop 8 b); Some (mix0 x y sd)
    | 13 => x ← rd8 b; y ← rd5 (drop 8 b); Some (mix0 x y sd)
    | 14 => x ← rd8 b; y ← rd6 (drop 8 b); Some (mix0 x y sd)
    | 15 => x ← rd8 b; y ← rd7 (drop 8 b); Some (mix0 x y sd)
    | 16 => x ← rd8 b; y ← rd8 (drop 8 b); Some (mix0 x y sd)
    | _ => final_long sd b
    end%nat;
  Some (mum (Z.lxor s' (Z.of_nat (msg_len st + length b))) P4).

Definition hash (sd : Z) (input : bytes) : option Z :=
  let aligned_len := (length input - length input mod 32)%nat in
  head ← slice_range input 0 aligned_len;
  c ← update_stateless (init_stateless sd) head;
  tail ← slice_from input aligned_len;
  final_stateless c tail.

(** [Wyhash11]: the streaming state. *)
Record Stream := { state : Stateless; buf : bytes; buf_len : nat }.

Definition init (sd : Z) : Stream :=
  {| state := init_stateless sd; buf := replicate 32 0; buf_len := 0 |}.

Definition update (self : Stream) (b : bytes) : option Stream :=
  '(off, self) ←
    (if negb (buf_len self =? 0)%nat && (32 <=? buf_len self + length b)%nat then
       let off := (32 - buf_len self)%nat in
       src ← slice_range b 0 off;
       buf' ← copy_into (buf self) (buf_len self) src;
       st ← update_stateless (state self) buf';
       Some (off, {| state := st; buf := buf'; buf_len := 0 |})
     else Some (0%nat, self));
  let remain_len := (length b - off)%nat in
  let aligned_len := (remain_len - remain_len mod 32)%nat in
  mid ← slice_range b off (off + aligned_len);
  st ← update_stateless (state self) mid;
  tail ← slice_from b (off + aligned_len);
  buf' ← copy_into (buf self) (buf_len self) tail;
  Some {| state := st; buf := buf'; buf_len := buf_len self + length tail |}.

Definition final_ (self : Stream) : option Z :=
  rem_key ← slice_range (buf self) 0 (buf_len self);
  final_stateless (state self) rem_key.

Fixpoint update_all (self : Stream) (chunks : list bytes) : option Stream :=
  match chunks with
  | [] => Some self
  | b :: chunks => self ← update self b; update_all self chunks
  end.
End Wyhash11.

Module Final4.
Definition S0 : Z := 0xa0761d6478bd642f.
Definition S1 : Z := 0xe7037ed1a0b428db.
Definition S2 : Z := 0x8ebc6af09c88c6e3.
Definition S3 : Z := 0x589965cc75374cc3.

(** The three lanes [state: [u64; 3]]. *)
Record Lanes := { l0 : Z; l1 : Z; l2 : Z }.

Record t := {
  a : Z; b : Z; state : Lanes; total_len : nat; buf : bytes; buf_len : nat
}.

(** [mum_]: low and high word of the 128-bit product. *)
Definition mum_ (x y : Z) : Z * Z := let p := x * y in (lo64 p, hi64 p).
Definition mix (x y : Z) : Z := let '(lo, hi) := mum_ x y in Z.lxor lo hi.

Definition read4 (data : bytes) : option Z := read_le 4 data.
Definition read8 (data : bytes) : option Z := read_le 8 data.

Definition init (seed : Z) : t :=
  let s0 := Z.lxor seed (mix (Z.lxor seed S0) S1) in
  {| a := 0; b := 0; state := {| l0 := s0; l1 := s0; l2 := s0 |}; total_len := 0;
     buf := replicate 48 0; buf_len := 0 |}.

Definition round (st : Lanes) (input : bytes) : option Lanes :=
  a0 ← read8 input; b0 ← read8 (drop 8 input);
  a1 ← read8 (drop 16 input); b1 ← read8 (drop 24 input);
  a2 ← read8 (drop 32 input); b2 ← read8 (drop 40 input);
  Some {| l0 := mix (Z.lxor a0 S1) (Z.lxor b0 (l0 st));
          l1 := mix (Z.lxor a1 S2) (Z.lxor b1 (l1 st));
          l2 := mix (Z.lxor a2 S3) (Z.lxor b2 (l2 st)) |}.

(** [while i + 48 < input.len() { round(&input[i..i + 48]); i += 48 }] *)
Fixpoint round_loop (fuel : nat) (st : Lanes) (input : bytes) (i : nat) : option (Lanes * nat) :=
  match fuel with
  | O => None
  | S fuel =>
      if (i + 48 <? length input)%nat then
        blk ← slice_range input i (i + 48);
        st ← round st blk;
        round_loop fuel st input (i + 48)
      else Some (st, i)
  end.

Definition update (self : t) (input : bytes) : option t :=
  let total := (total_len self + length input)%nat in
  if (length input <=? 48 - buf_len self)%nat then
    buf' ← copy_into (buf self) (buf_len self) input;
    Some {| a := a self; b := b self; state := state self; total_len := total;
            buf := buf'; buf_len := buf_len self + length input |}
  else
    '(i, st, buf0) ←
      (if (0 <? buf_len self)%nat then
         let i := (48 - buf_len self)%nat in
         src ← slice_range input 0 i;
         buf' ← copy_into (buf self) (buf_len self) src;
         st ← round (state self) buf';
         Some (i, st, buf')
       else Some (0%nat, state self, buf self));
    '(st, i) ← round_loop (S (length input)) st input i;
    remaining ← slice_from input i;
    buf1 ←
      (if (length remaining <? 16)%nat && (48 <=? i)%nat then
         let rem := (16 - length remaining)%nat in
         src ← slice_range input (i - rem) i;
         copy_into buf0 (48 - rem) src
       else Some buf0);
    buf2 ← copy_into buf1 0 remaining;
    Some {| a := a self; b := b self; state := st; total_len := total;
            buf := buf2; buf_len := length remaining |}.

Definition small_key (input : bytes) : option (Z * Z) :=
  let n := length input in
  if (4 <=? n)%nat then
    let e := (n - 4)%nat in
    let quarter := (n / 8 * 4)%nat in
    x0 ← read4 input; x1 ← read4 (drop quarter input);
    y0 ← read4 (drop e input); y1 ← read4 (drop (e - quarter) input);
    Some (Z.lor (Z.shiftl x0 32) x1, Z.lor (Z.shiftl y0 32) y1)
  else if (0 <? n)%nat then
    c0 ← input !! 0%nat; cm ← input !! (n / 2)%nat; cl ← input !! (n - 1)%nat;
    Some (Z.lor (Z.lor (Z.shiftl c0 16) (Z.shiftl cm 8)) cl, 0)
  else Some (0, 0).

Definition final0 (st : Lanes) : Lanes :=
  {| l0 := Z.lxor (l0 st) (Z.lxor (l1 st) (l2 st)); l1 := l1 st; l2 := l2 st |}.

(** The loop of [final1] over [input = &input_lb[start_pos..]]. *)
Fixpoint final1_loop (fuel : nat) (st : Lanes) (input : bytes) (i : nat) : option Lanes :=
  match fuel with
  | O => None
  | S fuel =>
      if (i + 16 <? length input)%nat then
        x ← read8 (drop i input); y ← read8 (drop (i + 8) input);
        final1_loop fuel
          {| l0 := mix (Z.lxor x S1) (Z.lxor y (l0 st)); l1 := l1 st; l2 := l2 st |}
          input (i + 16)
      else Some st
  end.

Definition final1 (st : Lanes) (input_lb : bytes) (start_pos : nat)
  : option (Lanes * (Z * Z)) :=
  input ← slice_from input_lb start_pos;
  st ← final1_loop (S (length input)) st input 0;
  a ← read8 (drop (length input_lb - 16) input_lb);
  b ← read8 (drop (length input_lb - 8) input_lb);
  Some (st, (a, b)).

Definition final2 (st : Lanes) (ab : Z * Z) (total : nat) : Z :=
  let '(a', b') := mum_ (Z.lxor ab.1 S1) (Z.lxor ab.2 (l0 st)) in
  mix (lxor3 a' S0 (Z.of_nat total)) (Z.lxor b' S1).

Definition final_ (self : t) : option Z :=
  input ← slice_range (buf self) 0 (buf_len self);
  '(st, ab) ←
    (if (total_len self <=? 16)%nat then
       ab ← small_key input; Some (state self, ab)
     else
       '(inp, offset) ←
         (if (buf_len self <? 16)%nat then
            let rem := (16 - buf_len self)%nat in
            tl ← slice_range (buf self) (48 - rem) 48;
            scratch ← copy_into (replicate 16 0) 0 tl;
            hd ← slice_range (buf self) 0 (buf_len self);
            scratch ← copy_into scratch rem hd;
            Some (scratch, rem)
          else Some (input, 0%nat));
       final1 (final0 (state self)) inp offset);
  Some (final2 st ab (total_len self)).

Definition hash (seed : Z) (input : bytes) : option Z :=
  let this := init seed in
  '(st, ab) ←
    (if (length input <=? 16)%nat then
       ab ← small_key input; Some (state this, ab)
     else
       '(st, i) ←
         (if (48 <=? length input)%nat then
            '(st, i) ← round_loop (S (length input)) (state this) input 0;
            Some (final0 st, i)
          else Some (state this, 0%nat));
       final1 st input i);
  Some (final2 st ab (length input)).

Fixpoint update_all (self : t) (chunks : list bytes) : option t :=
  match chunks with
  | [] => Some self
  | c :: chunks => self ← update self c; update_all self chunks
  end.
End Final4.

(** [auto_hash]'s [OneShotHasher] and the wrappers. *)
Definition hash (bs : bytes) : option Z := Final4.hash 0 bs.
Definition hash_with_seed (seed : Z) (bs : bytes) : option Z := Final4.hash seed bs.
Definition hash32 (bs : bytes) : option Z := wrap32 <$> hash bs.

(** The streaming loop of [hash_ascii_lowercase]: lower-cased chunks of at most
    48 bytes. *)
Fixpoint lowercase_loop (fuel : nat) (h : Final4.t) (remain : bytes) : option Final4.t :=
  match fuel with
  | O => None
  | S fuel =>
      match remain with
      | [] => Some h
      | _ =>
          let n := Nat.min (length remain) 48 in
          h ← Final4.update h (to_ascii_lowercase <$> take n remain);
          lowercase_loop fuel h (drop n remain)
      end
  end.

Definition hash_ascii_lowercase (seed : Z) (bs : bytes) : option Z :=
  if (length bs <=? 48)%nat then Final4.hash seed (to_ascii_lowercase <$> bs)
  else h ← lowercase_loop (S (length bs)) (Final4.init seed) bs; Final4.final_ h.

(** [hash_const]: the compile-time re-implementation, which indexes the input
    instead of slicing it. *)
Module Const.
Definition read4 (d : bytes) (o : nat) : option Z :=
  b0 ← d !! o; b1 ← d !! (o + 1)%nat; b2 ← d !! (o + 2)%nat; b3 ← d !! (o + 3)%nat;
  Some (le_combine [b0; b1; b2; b3]).
Definition read8 (d : bytes) (o : nat) : option Z :=
  b0 ← d !! o; b1 ← d !! (o + 1)%nat; b2 ← d !! (o + 2)%nat; b3 ← d !! (o + 3)%nat;
  b4 ← d !! (o + 4)%nat; b5 ← d !! (o + 5)%nat; b6 ← d !! (o + 6)%nat;
  b7 ← d !! (o + 7)%nat;
  Some (le_combine [b0; b1; b2; b3; b4; b5; b6; b7]).

Definition mix (x y : Z) : Z := let p := x * y in Z.lxor (lo64 p) (hi64 p).

Fixpoint rounds (fuel : nat) (st : Final4.Lanes) (input : bytes) (i : nat)
  : option (Final4.Lanes * nat) :=
  match fuel with
  | O => None
  | S fuel =>
      if (i + 48 <? length input)%nat then
        a0 ← read8 input i; b0 ← read8 input (i + 8);
        a1 ← read8 input (i + 16); b1 ← read8 input (i + 24);
        a2 ← read8 input (i + 32); b2 ← read8 input (i + 40);
        rounds fuel
          {| Final4.l0 := mix (Z.lxor a0 Final4.S1) (Z.lxor b0 (Final4.l0 st));
             Final4.l1 := mix (Z.lxor a1 Final4.S2) (Z.lxor b1 (Final4.l1 st));
             Final4.l2 := mix (Z.lxor a2 Final4.S3) (Z.lxor b2 (Final4.l2 st)) |}
          input (i + 48)
      else Some (st, i)
  end.

Fixpoint tail_loop (fuel : nat) (st : Final4.Lanes) (input : bytes) (j : nat)
  : option Final4.Lanes :=
  match fuel with
  | O => None
  | S fuel =>
      if (j + 16 <? length input)%nat then
        x ← read8 input j; y ← read8 input (j + 8);
        tail_loop fuel
          {| Final4.l0 := mix (Z.lxor x Final4.S1) (Z.lxor y (Final4.l0 st));
             Final4.l1 := Final4.l1 st; Final4.l2 := Final4.l2 st |}
          input (j + 16)
      else Some st
  end.

Definition hash_const (seed : Z) (input : bytes) : option Z :=
  let s0 := Z.lxor seed (mix (Z.lxor seed Final4.S0) Final4.S1) in
  let state := {| Final4.l0 := s0; Final4.l1 := s0; Final4.l2 := s0 |} in
  let len := length input in
  '(st, (a, b)) ←
    (if (len <=? 16)%nat then
       ab ← (if (4 <=? len)%nat then
               let e := (len - 4)%nat in
               let quarter := (len / 8 * 4)%nat in
               x0 ← read4 input 0; x1 ← read4 input quarter;
               y0 ← read4 input e; y1 ← read4 input (e - quarter);
               Some (Z.lor (Z.shiftl x0 32) x1, Z.lor (Z.shiftl y0 32) y1)
             else if (0 <? len)%nat then
               c0 ← input !! 0%nat; cm ← input !! (len / 2)%nat; cl ← input !! (len - 1)%nat;
               Some (Z.lor (Z.lor (Z.shiftl c0 16) (Z.shiftl cm 8)) cl, 0)
             else Some (0, 0));
       Some (state, ab)
     else
       '(st, i) ←
         (if (48 <=? len)%nat then
            '(st, i) ← rounds (S len) state input 0;
            Some ({| Final4.l0 := Z.lxor (Final4.l0 st) (Z.lxor (Final4.l1 st) (Final4.l2 st));
                     Final4.l1 := Final4.l1 st; Final4.l2 := Final4.l2 st |}, i)
          else Some (state, 0%nat));
       st ← tail_loop (S len) st input i;
       a ← read8 input (len - 16);
       b ← read8 input (len - 8);
       Some (st, (a, b)));
  let x := Z.lxor a Final4.S1 * Z.lxor b (Final4.l0 st) in
  Some (mix (lxor3 (lo64 x) Final4.S0 (Z.of_nat len)) (Z.lxor (hi64 x) Final4.S1)).
End Const.

(** [hash_int] for [u32] (hash-prospector). *)
Definition hash_int (input : Z) : Z :=
  let x := input in
  let x := wrap32 (Z.lxor x (Z.shiftr x 17) * 0xed5ad4bb) in
  let x := wrap32 (Z.lxor x (Z.shiftr x 11) * 0xac4c1b51) in
  let x := wrap32 (Z.lxor x (Z.shiftr x 15) * 0x31848bab) in
  Z.lxor x (Z.shiftr x 14).

(** ** Facts *)
Lemma read_le_Some n data :
  (n <= length data)%nat -> read_le n data = Some (le_combine (take n data)).
Proof. intros ?. unfold read_le. destruct (Nat.leb_spec n (length data)); (done || lia). Qed.

(** Resolve every read of a goal whose bounds [lia] can see. *)
Ltac reads :=
  repeat (rewrite read_le_Some by (rewrite ?length_drop; lia); cbn [mbind option_bind]).

Module Wyhash11Facts.
Import Wyhash11.

Lemma round_seed_Some s b : (32 <= length b)%nat -> is_Some (round_seed s b).
Proof. intros Hb. unfold round_seed, read_bytes. reads. eauto. Qed.

Lemma rd_Some k b :
  (k <= length b)%nat ->
  match k with
  | 1 => is_Some (rd1 b) | 2 => is_Some (rd2 b) | 3 => is_Some (rd3 b)
  | 4 => is_Some (rd4 b) | 5 => is_Some (rd5 b) | 6 => is_Some (rd6 b)
  | 7 => is_Some (rd7 b) | 8 => is_Some (rd8 b) | _ => True
  end%nat.
Proof.
  intros Hk. do 9 (try destruct k as [|k]); try exact I.
  all: unfold rd1, rd2, rd3, rd4, rd5, rd6, rd7, rd8, read_8bytes_swapped, read_bytes.
  all: reads; eauto.
Qed.

(** Every read of a remainder shorter than a block is in bounds. *)
Lemma final_stateless_Some st b :
  (length b < 32)%nat -> is_Some (final_stateless st b).
Proof.
  intros Hb. unfold final_stateless, final_long.
  unfold rd1, rd2, rd3, rd4, rd5, rd6, rd7, rd8, read_8bytes_swapped, read_bytes.
  destruct (length b) as [|k] eqn:E; [cbn; eauto|].
  do 31 (destruct k as [|k]; [reads; eauto|]). lia.
Qed.

Lemma round_eq st b :
  round st b = (s ← round_seed (seed st) b; Some {| seed := s; msg_len := msg_len st |}).
Proof. done. Qed.

Lemma absorb_round n st l :
  absorb 32 round n st l =
    (s ← absorb 32 round_seed n (seed st) l; Some {| seed := s; msg_len := msg_len st |}).
Proof.
  revert st l. induction n as [|n IH]; intros [s ml] l; [done|].
  cbn [absorb]. rewrite round_eq. cbn [seed msg_len].
  destruct (round_seed s (take 32 l)) as [s'|]; simpl; [|done].
  by rewrite IH.
Qed.

Lemma update_loop_absorb k fuel st b off :
  (length b = off + 32 * k)%nat -> (k < fuel)%nat ->
  update_loop fuel st b off = absorb 32 round k st (drop off b).
Proof.
  revert fuel st off. induction k as [|k IH]; intros [|fuel] st off Hl Hf; try lia.
  - cbn [update_loop]. destruct (Nat.ltb_spec off (length b)); [lia|done].
  - cbn [update_loop absorb]. destruct (Nat.ltb_spec off (length b)); [|lia].
    rewrite slice_range_Some by lia. replace (off + 32 - off)%nat with 32%nat by lia.
    cbn [mbind option_bind].
    destruct (round st (take 32 (drop off b))) as [st'|]; cbn [mbind option_bind]; [|done].
    rewrite IH by lia. by rewrite drop_drop.
Qed.

(** [Rep sd p st]: [st] has absorbed exactly the whole blocks [p]. *)
Definition Rep (sd : Z) (p : bytes) (st : Stateless) : Prop :=
  (exists k, length p = (32 * k)%nat /\ absorb 32 round_seed k sd p = Some (seed st))
  /\ msg_len st = length p.

Lemma Rep_init sd : Rep sd [] (init_stateless sd).
Proof. split; [by exists 0%nat|done]. Qed.

Lemma Rep_det sd p st1 st2 : Rep sd p st1 -> Rep sd p st2 -> st1 = st2.
Proof.
  intros [(k1 & Hk1 & H1) Hm1] [(k2 & Hk2 & H2) Hm2].
  assert (k1 = k2) as -> by lia. destruct st1, st2; cbn in *. congruence.
Qed.

Lemma Rep_update sd p st b :
  Rep sd p st -> (exists j, length b = (32 * j)%nat) ->
  exists st', update_stateless st b = Some st' /\ Rep sd (p ++ b) st'.
Proof.
  intros [(k & Hk & Hs) Hm] [j Hj]. unfold update_stateless.
  rewrite (update_loop_absorb j) by lia. rewrite drop_0, absorb_round.
  assert (Habs : absorb 32 round_seed (k + j) sd (p ++ b)
                 = absorb 32 round_seed j (seed st) b).
  { rewrite absorb_add, absorb_app, Hs by lia. cbn [mbind option_bind].
    by rewrite drop_app_length' by lia. }
  assert (is_Some (absorb 32 round_seed j (seed st) b)) as [s' Hs'].
  { clear -Hj. revert b Hj. generalize (seed st) as s.
    induction j as [|j IH]; intros s b Hj; cbn [absorb]; [eauto|].
    destruct (round_seed_Some s (take 32 b)) as [s' ->]; [rewrite length_take; lia|].
    apply IH. rewrite length_drop. lia. }
  rewrite Hs'. cbn. eexists; split; [done|]. split; cbn.
  - exists (k + j)%nat. rewrite Habs, length_app. split; [lia|done].
  - rewrite length_app. lia.
Qed.

(** The streaming state after the message [m]. *)
Definition Inv (sd : Z) (m : bytes) (st : Stream) : Prop :=
  exists p r, m = p ++ r /\ Rep sd p (state st) /\ (length r < 32)%nat
    /\ length (buf st) = 32%nat /\ buf_len st = length r
    /\ take (length r) (buf st) = r.

Lemma Inv_init sd : Inv sd [] (init sd).
Proof. exists [], []. split; [done|]. split; [apply Rep_init|]. cbn. split_and!; (done || lia). Qed.

Lemma take_drop_add {A} (l : list A) (i j : nat) :
  take j (drop i l) ++ drop (i + j) l = drop i l.
Proof. rewrite <- drop_drop. apply take_drop. Qed.

(** [update] after the top-up of a partly filled buffer: whole blocks of
    [b[off..]] are absorbed and the remainder is buffered. *)
Definition finish (self : Stream) (b : bytes) (off : nat) : option Stream :=
  let remain_len := (length b - off)%nat in
  let aligned_len := (remain_len - remain_len mod 32)%nat in
  mid ← slice_range b off (off + aligned_len);
  st ← update_stateless (state self) mid;
  tail ← slice_from b (off + aligned_len);
  buf' ← copy_into (buf self) (buf_len self) tail;
  Some {| state := st; buf := buf'; buf_len := buf_len self + length tail |}.

Lemma finish_Inv sd p r st b off :
  Rep sd p (state st) -> length (buf st) = 32%nat -> buf_len st = length r ->
  take (length r) (buf st) = r -> (off <= length b)%nat ->
  r = [] \/ (length r + (length b - off) < 32)%nat ->
  exists st', finish st b off = Some st' /\ Inv sd (p ++ r ++ drop off b) st'.
Proof.
  intros HR Hbl Hn Ht Hoff Hor. unfold finish. cbv zeta.
  set (rem := (length b - off)%nat) in *.
  pose proof (Nat.div_mod_eq rem 32) as Hdm.
  pose proof (Nat.mod_upper_bound rem 32).
  set (al := (rem - rem mod 32)%nat). assert (al <= rem)%nat by lia.
  rewrite slice_range_Some by lia.
  replace (off + al - off)%nat with al by lia. cbn [mbind option_bind].
  destruct (Rep_update sd p (state st) (take al (drop off b)) HR) as (st' & -> & HR').
  { exists (rem / 32)%nat. rewrite length_take, length_drop. lia. }
  cbn [mbind option_bind]. rewrite slice_from_Some by lia. cbn [mbind option_bind].
  assert (Hr' : (length r + length (drop (off + al) b) < 32)%nat).
  { rewrite length_drop. destruct Hor as [->|]; cbn; lia. }
  rewrite copy_into_Some by lia. cbn [mbind option_bind].
  eexists; split; [done|].
  exists (p ++ take al (drop off b)), (r ++ drop (off + al) b). cbn [state buf buf_len].
  rewrite !length_app, length_take, Hbl. split_and!; try lia; try done.
  - rewrite <- (take_drop_add b off al) at 1. destruct Hor as [->|Hlt].
    + cbn. by rewrite <- app_assoc.
    + replace al with 0%nat by lia. cbn. by rewrite app_nil_r.
  - rewrite length_drop in Hr'. rewrite !length_drop. lia.
  - rewrite Hn, Ht, app_assoc.
    rewrite take_app_length' by (rewrite length_app; lia). done.
Qed.

Lemma update_Inv sd m st b :
  Inv sd m st -> exists st', update st b = Some st' /\ Inv sd (m ++ b) st'.
Proof.
  intros (p & r & -> & HR & Hr & Hbl & Hn & Ht).
  change (update st b) with
    ('(off, self) ←
      (if negb (buf_len st =? 0)%nat && (32 <=? buf_len st + length b)%nat then
         let off := (32 - buf_len st)%nat in
         src ← slice_range b 0 off;
         buf' ← copy_into (buf st) (buf_len st) src;
         s ← update_stateless (state st) buf';
         Some (off, {| state := s; buf := buf'; buf_len := 0 |})
       else Some (0%nat, st));
     finish self b off).
  destruct (negb (buf_len st =? 0)%nat && (32 <=? buf_len st + length b)%nat) eqn:E.
  - apply andb_true_iff in E as [_ E%Nat.leb_le]. rewrite Hn in *. cbv zeta.
    rewrite slice_range_Some by lia. rewrite drop_0, Nat.sub_0_r. cbn [mbind option_bind].
    set (off := (32 - length r)%nat). pose proof (firstn_le_length off b).
    assert (Hto : length (take off b) = off) by (rewrite length_take; lia).
    rewrite copy_into_Some by lia. rewrite Ht, drop_ge, app_nil_r by lia.
    cbn [mbind option_bind].
    destruct (Rep_update sd p (state st) (r ++ take off b) HR) as (st' & -> & HR').
    { exists 1%nat. rewrite length_app. lia. }
    cbn [mbind option_bind].
    destruct (finish_Inv sd (p ++ r ++ take off b) []
               {| state := st'; buf := r ++ take off b; buf_len := 0 |} b off)
      as (st2 & -> & HI); cbn; auto; [rewrite length_app; lia|lia|].
    exists st2. split; [done|]. cbn in HI.
    by rewrite <- !app_assoc, take_drop in HI; rewrite <- app_assoc.
  - cbn [mbind option_bind].
    destruct (finish_Inv sd p r st b 0) as (st2 & H & HI); auto; [lia| |].
    + apply andb_false_iff in E as [E|E].
      * left. apply negb_false_iff, Nat.eqb_eq in E. destruct r; [done|]. cbn in *. lia.
      * right. apply Nat.leb_gt in E. lia.
    + rewrite H. exists st2. split; [done|]. rewrite drop_0 in HI. by rewrite <- app_assoc.
Qed.

Lemma update_all_Inv sd chunks m st :
  Inv sd m st -> exists st', update_all st chunks = Some st' /\ Inv sd (m ++ concat chunks) st'.
Proof.
  revert m st. induction chunks as [|b chunks IH]; intros m st HI.
  { exists st. by rewrite app_nil_r. }
  destruct (update_Inv sd m st b HI) as (st1 & H1 & HI1). cbn. rewrite H1. cbn.
  destruct (IH _ _ HI1) as (st2 & H2 & HI2). exists st2. by rewrite <- app_assoc in HI2.
Qed.

Lemma final_Inv sd m st :
  Inv sd m st -> exists h, final_ st = Some h /\ hash sd m = Some h.
Proof.
  intros (p & r & -> & HR & Hr & Hbl & Hn & Ht).
  destruct (final_stateless_Some (state st) r Hr) as [h Hh]. exists h.
  unfold final_. rewrite Hn, slice_range_Some by lia.
  rewrite drop_0, Nat.sub_0_r, Ht. split; [done|].
  destruct HR as [(k & Hk & HR) Hm].
  unfold hash. rewrite length_app.
  assert (((length p + length r) mod 32)%nat = length r) as ->.
  { rewrite Hk, Nat.add_comm, Nat.mul_comm, Nat.Div0.mod_add. by apply Nat.mod_small. }
  rewrite Nat.add_sub, slice_range_Some by (rewrite ?length_app; lia).
  rewrite drop_0, Nat.sub_0_r, take_app_length. cbn [mbind option_bind].
  destruct (Rep_update sd [] (init_stateless sd) p (Rep_init sd)) as (st' & -> & HR');
    [by exists k|].
  cbn [mbind option_bind]. rewrite slice_from_Some by (rewrite length_app; lia).
  rewrite drop_app_length. cbn [mbind option_bind].
  assert (st' = state st) as ->; [|done].
  apply (Rep_det sd p); [done|]. by split; [exists k|].
Qed.
End Wyhash11Facts.

Module Final4Facts.
Import Final4.

Lemma round_Some st b : (48 <= length b)%nat -> is_Some (round st b).
Proof. intros Hb. unfold round, read8. reads. eauto. Qed.

Lemma absorb_Some n st l : (48 * n <= length l)%nat -> is_Some (absorb 48 round n st l).
Proof.
  revert st l. induction n as [|n IH]; intros st l Hl; cbn [absorb]; [eauto|].
  destruct (round_Some st (take 48 l)) as [s' ->]; [rewrite length_take; lia|].
  apply IH. rewrite length_drop. lia.
Qed.

(** The round loop from [i] absorbs every block that is followed by a byte. *)
Lemma round_loop_absorb n fuel st input i :
  (i + 48 * n <= length input)%nat -> (length input <= i + 48 * n + 48)%nat ->
  (n = 0 \/ i + 48 * n < length input)%nat -> (n < fuel)%nat ->
  round_loop fuel st input i =
    (st' ← absorb 48 round n st (drop i input); Some (st', (i + 48 * n)%nat)).
Proof.
  revert fuel st i. induction n as [|n IH]; intros [|fuel] st i H1 H2 H3 Hf; try lia.
  - cbn [round_loop absorb]. destruct (Nat.ltb_spec (i + 48) (length input)); [lia|].
    cbn. by rewrite Nat.add_0_r.
  - cbn [round_loop absorb]. destruct (Nat.ltb_spec (i + 48) (length input)); [|lia].
    rewrite slice_range_Some by lia. replace (i + 48 - i)%nat with 48%nat by lia.
    cbn [mbind option_bind].
    destruct (round st (take 48 (drop i input))) as [st'|]; [|done].
    cbn [mbind option_bind]. rewrite IH by lia. rewrite drop_drop.
    destruct (absorb 48 round n st' (drop (i + 48) input)); [|done]. cbn. f_equal. f_equal. lia.
Qed.

Lemma final1_loop_Some fuel st input i :
  (length input - i < fuel)%nat -> is_Some (final1_loop fuel st input i).
Proof.
  revert st i. induction fuel as [|fuel IH]; intros st i Hf; cbn [final1_loop].
  - lia.
  - destruct (Nat.ltb_spec (i + 16) (length input)); [|eauto].
    unfold read8. reads. apply IH. lia.
Qed.

(** A window of 16 bytes or fewer is not mixed. *)
Lemma final1_loop_short fuel st input :
  (length input <= 16)%nat -> final1_loop (S fuel) st input 0 = Some st.
Proof. intros H. cbn [final1_loop]. destruct (Nat.ltb_spec (0 + 16) (length input)); [lia|done]. Qed.

Definition lanes0 (seed : Z) : Lanes := state (init seed).

(** The streaming state after the message [m = p ++ r]: the whole blocks [p] are
    in the lanes, [r] is buffered, and when [r] is short the end of the buffer
    still holds the last bytes of [p]. *)
Definition Inv (seed : Z) (m : bytes) (h : t) : Prop :=
  exists p r n, m = p ++ r /\ length p = (48 * n)%nat
    /\ absorb 48 round n (lanes0 seed) p = Some (state h)
    /\ (length r <= 48)%nat /\ (n = 0%nat \/ (0 < length r)%nat)
    /\ total_len h = length m /\ length (buf h) = 48%nat /\ buf_len h = length r
    /\ take (length r) (buf h) = r
    /\ (n = 0%nat \/ (16 <= length r)%nat \/
        drop (32 + length r) (buf h) = drop (length p - (16 - length r)) p).

Lemma Inv4_init seed : Inv seed [] (init seed).
Proof. exists [], [], 0%nat. cbn. split_and!; auto; lia. Qed.

(** Blocks absorbed one after the other. *)
Lemma absorb_snoc n k st p q s1 s2 :
  length p = (48 * n)%nat ->
  absorb 48 round n st p = Some s1 -> absorb 48 round k s1 q = Some s2 ->
  absorb 48 round (n + k) st (p ++ q) = Some s2.
Proof.
  intros Hp H1 H2. rewrite absorb_add, absorb_app, H1 by lia. cbn [mbind option_bind].
  by rewrite drop_app_length' by lia.
Qed.

(** [update], small input: it is only buffered. *)
Lemma update_small seed m h c :
  Inv seed m h -> (length c <= 48 - buf_len h)%nat ->
  exists h', update h c = Some h' /\ Inv seed (m ++ c) h'.
Proof.
  intros (p & r & n & -> & Hp & Ha & Hr & Hn & Ht & Hbl & Hb & Htk & Htl) Hc.
  unfold update. destruct (Nat.leb_spec (length c) (48 - buf_len h)); [|lia].
  rewrite Hb in *. rewrite copy_into_Some by lia. cbn [mbind option_bind].
  eexists; split; [done|]. exists p, (r ++ c), n.
  cbn [total_len buf buf_len state].
  rewrite Htk, !length_app, length_drop. split_and!; try done; try lia.
  - by rewrite app_assoc.
  - rewrite length_app in Ht. lia.
  - rewrite app_assoc, take_app_length'; [done|]. rewrite length_app. lia.
  - destruct (decide (n = 0%nat)) as [|Hn0]; [auto|].
    destruct Htl as [?|[?|Htl]]; [auto|right; left; lia|].
    destruct (decide (16 <= length r + length c)%nat) as [|Hlt]; [auto|]. right; right.
    rewrite app_assoc, drop_app_ge by (rewrite length_app; lia).
    rewrite length_app, drop_drop.
    replace (length r + length c + (32 + (length r + length c) - (length r + length c)))%nat
      with (32 + length r + length c)%nat by lia.
    rewrite <- drop_drop, Htl, drop_drop. f_equal. lia.
Qed.

(** The top-up of [update]: a partly filled buffer becomes a whole block.  The
    result is the offset into the input, the lanes and the buffer. *)
Definition top_up (self : t) (input : bytes) : option (nat * Lanes * bytes) :=
  if (0 <? buf_len self)%nat then
    let i := (48 - buf_len self)%nat in
    src ← slice_range input 0 i;
    buf' ← copy_into (buf self) (buf_len self) src;
    st ← round (state self) buf';
    Some (i, st, buf')
  else Some (0%nat, state self, buf self).

Lemma top_up_spec seed m h c :
  Inv seed m h -> (48 - buf_len h < length c)%nat ->
  exists i st buf0 n p, top_up h c = Some (i, st, buf0)
    /\ (i < length c)%nat /\ m ++ take i c = p /\ length p = (48 * n)%nat
    /\ absorb 48 round n (lanes0 seed) p = Some st /\ length buf0 = 48%nat
    /\ (0 < i \/ n = 0 \/ buf_len h = 48)%nat
    /\ (n = 0%nat \/ buf0 = drop (length p - 48) p).
Proof.
  intros (p & r & n & -> & Hp & Ha & Hr & Hn & Ht & Hbl & Hb & Htk & Htl) Hc.
  unfold top_up. rewrite Hb in *. destruct (Nat.ltb_spec 0 (length r)) as [H0|H0].
  - cbv zeta. rewrite slice_range_Some by lia. rewrite drop_0, Nat.sub_0_r.
    cbn [mbind option_bind]. set (i := (48 - length r)%nat).
    assert (Hti : length (take i c) = i) by (rewrite length_take; lia).
    rewrite copy_into_Some by lia. rewrite Htk, drop_ge, app_nil_r by lia.
    cbn [mbind option_bind].
    assert (Hbk : length (r ++ take i c) = 48%nat) by (rewrite length_app; lia).
    destruct (round_Some (state h) (r ++ take i c)) as [s1 Hs1]; [lia|].
    rewrite Hs1. exists i, s1, (r ++ take i c), (n + 1)%nat, (p ++ r ++ take i c).
    split_and!; try lia; try done.
    + by rewrite <- app_assoc.
    + rewrite length_app. lia.
    + eapply absorb_snoc; [done|done|]. cbn. rewrite take_ge by lia. by rewrite Hs1.
    + right. rewrite length_app, Hbk, Nat.add_sub. by rewrite drop_app_length.
  - destruct r as [|]; [|cbn in *; lia]. assert (n = 0%nat) as -> by (cbn in *; lia).
    exists 0%nat, (state h), (buf h), 0%nat, []. cbn in *.
    destruct p as [|]; [|cbn in *; lia]. split_and!; auto; lia.
Qed.

(** [update] after the top-up: blocks of the input, then the remainder. *)
Definition absorb_rest (self : t) (input : bytes) (i : nat) (st : Lanes) (buf0 : bytes)
  : option t :=
  '(st, i) ← round_loop (S (length input)) st input i;
  remaining ← slice_from input i;
  buf1 ←
    (if (length remaining <? 16)%nat && (48 <=? i)%nat then
       let rem := (16 - length remaining)%nat in
       src ← slice_range input (i - rem) i;
       copy_into buf0 (48 - rem) src
     else Some buf0);
  buf2 ← copy_into buf1 0 remaining;
  Some {| a := a self; b := b self; state := st;
          total_len := (total_len self + length input)%nat;
          buf := buf2; buf_len := length remaining |}.

Lemma update_eq self input :
  update self input =
    if (length input <=? 48 - buf_len self)%nat then
      buf' ← copy_into (buf self) (buf_len self) input;
      Some {| a := a self; b := b self; state := state self;
              total_len := (total_len self + length input)%nat;
              buf := buf'; buf_len := buf_len self + length input |}
    else '(i, st, buf0) ← top_up self input; absorb_rest self input i st buf0.
Proof. done. Qed.

(** The last bytes of the absorbed prefix that [update] saves at the end of the
    buffer: either they are already there, or they are in the input. *)
Lemma saved_tail (c buf0 p : bytes) (i rem n : nat) m :
  length buf0 = 48%nat -> (rem <= 16)%nat -> (i <= length c)%nat ->
  p = m ++ take i c -> length p = (48 * n)%nat -> n <> 0%nat ->
  ((i < 48)%nat -> buf0 = drop (length p - 48) p) ->
  exists buf1,
    (if (48 <=? i)%nat then
       src ← slice_range c (i - rem) i; copy_into buf0 (48 - rem) src
     else Some buf0) = Some buf1
    /\ length buf1 = 48%nat /\ drop (48 - rem) buf1 = drop (length p - rem) p.
Proof.
  intros Hb Hr Hi Hp Hl Hn Hsmall. destruct (Nat.leb_spec 48 i) as [H|H].
  - rewrite slice_range_Some by lia. replace (i - (i - rem))%nat with rem by lia.
    cbn [mbind option_bind].
    assert (Hs : length (take rem (drop (i - rem) c)) = rem)
      by (rewrite length_take, length_drop; lia).
    rewrite copy_into_Some by lia. rewrite (drop_ge buf0), app_nil_r by lia.
    eexists; split; [done|].
    rewrite length_app, length_take, Hs. split; [lia|].
    rewrite drop_app_length' by (rewrite length_take; lia).
    assert (Hl' : length p = (length m + i)%nat) by (rewrite Hp, length_app, length_take; lia).
    rewrite Hl', Hp, drop_app_ge by lia.
    replace (length m + i - rem - length m)%nat with (i - rem)%nat by lia.
    rewrite skipn_firstn_comm. f_equal. lia.
  - exists buf0. split; [done|]. split; [done|].
    rewrite Hsmall, drop_drop by done. f_equal. lia.
Qed.

Lemma absorb_rest_Inv seed h m c i st buf0 n p :
  (i < length c)%nat -> m ++ take i c = p -> length p = (48 * n)%nat ->
  absorb 48 round n (lanes0 seed) p = Some st -> length buf0 = 48%nat ->
  (n = 0%nat \/ buf0 = drop (length p - 48) p) ->
  total_len h = length m -> (n = 0%nat -> i = 0%nat) ->
  exists h', absorb_rest h c i st buf0 = Some h' /\ Inv seed (m ++ c) h'.
Proof.
  intros Hi Hm Hp Ha Hb Hbuf Ht Hn0. unfold absorb_rest.
  set (k := ((length c - i - 1) / 48)%nat).
  pose proof (Nat.div_mod_eq (length c - i - 1) 48) as Hdm. fold k in Hdm.
  pose proof (Nat.mod_upper_bound (length c - i - 1) 48).
  rewrite (round_loop_absorb k) by lia.
  destruct (absorb_Some k st (drop i c)) as [st' Hst']; [rewrite length_drop; lia|].
  rewrite Hst'. cbn [mbind option_bind]. rewrite slice_from_Some by lia.
  cbn [mbind option_bind]. set (i' := (i + 48 * k)%nat).
  set (p' := m ++ take i' c).
  assert (Hp' : p' = p ++ take (48 * k) (drop i c)).
  { unfold p', i'. by rewrite <- Hm, <- app_assoc, take_take_drop. }
  assert (Hlp' : length p' = (48 * (n + k))%nat).
  { rewrite Hp', length_app, length_take, length_drop. lia. }
  assert (Ha' : absorb 48 round (n + k) (lanes0 seed) p' = Some st').
  { rewrite Hp'. eapply absorb_snoc; [done|done|].
    rewrite <- Hst'. rewrite <- (take_drop (48 * k) (drop i c)) at 2.
    rewrite absorb_app; [done|]. rewrite length_take, length_drop. lia. }
  assert (Hrem : length (drop i' c) = (length c - i')%nat) by apply length_drop.
  set (remaining := drop i' c) in *.
  assert (exists buf1,
    (if (length remaining <? 16)%nat && (48 <=? i')%nat then
       src ← slice_range c (i' - (16 - length remaining)) i';
       copy_into buf0 (48 - (16 - length remaining)) src
     else Some buf0) = Some buf1 /\ length buf1 = 48%nat
    /\ ((n + k = 0)%nat \/ (16 <= length remaining)%nat \/
        drop (32 + length remaining) buf1 = drop (length p' - (16 - length remaining)) p'))
    as (buf1 & -> & Hb1 & Htail).
  { destruct (Nat.ltb_spec (length remaining) 16) as [Hlt|Hge]; [|exists buf0; auto].
    cbn [andb]. cbv zeta.
    destruct (decide (n + k = 0)%nat) as [H0|H0].
    - exists buf0. destruct (Nat.leb_spec 48 i'); [lia|auto].
    - destruct (saved_tail c buf0 p' i' (16 - length remaining) (n + k) m)
        as (buf1 & H1 & H2 & H3); try done; try lia.
      + intros Hlt'. assert (k = 0%nat) as Hk0 by lia.
        destruct Hbuf as [?|Hbuf]; [lia|]. rewrite Hbuf.
        rewrite Hp', Hk0. cbn. by rewrite app_nil_r.
      + exists buf1. split; [done|]. split; [done|]. right; right.
        rewrite <- H3. f_equal. lia. }
  cbn [mbind option_bind]. rewrite copy_into_Some by lia. cbn [mbind option_bind].
  eexists; split; [done|]. exists p', remaining, (n + k)%nat.
  cbn [total_len buf buf_len state]. rewrite take_0, !app_nil_l, Nat.add_0_l.
  split_and!; try done; try lia.
  - unfold p', remaining. by rewrite <- app_assoc, take_drop.
  - rewrite Ht, length_app. done.
  - rewrite length_app, length_drop. lia.
  - by rewrite take_app_length.
  - destruct Htail as [?|[?|Htail]]; auto.
    destruct (decide (16 <= length remaining)%nat) as [|Hlt]; [auto|]. right; right.
    rewrite drop_app_ge by lia. rewrite drop_drop, <- Htail. f_equal. lia.
Qed.

Lemma update_Inv4 seed m h c :
  Inv seed m h -> exists h', update h c = Some h' /\ Inv seed (m ++ c) h'.
Proof.
  intros HI. destruct (decide (length c <= 48 - buf_len h)%nat) as [Hs|Hs];
    [by apply update_small|].
  rewrite update_eq. destruct (Nat.leb_spec (length c) (48 - buf_len h)); [lia|].
  destruct (top_up_spec seed m h c HI) as (i & st & buf0 & n & p & -> & Hi & Hm & Hp & Ha & Hb & Hor & Hbuf);
    [lia|].
  cbn [mbind option_bind]. eapply absorb_rest_Inv; try done.
  - by destruct HI as (? & ? & ? & ? & ? & ? & ? & ? & ? & ?).
  - intros ->. apply (f_equal length) in Hm. rewrite length_app, length_take in Hm. lia.
Qed.

Lemma update_all_Inv4 seed chunks m h :
  Inv seed m h -> exists h', update_all h chunks = Some h' /\ Inv seed (m ++ concat chunks) h'.
Proof.
  revert m h. induction chunks as [|c chunks IH]; intros m h HI.
  { exists h. by rewrite app_nil_r. }
  destruct (update_Inv4 seed m h c HI) as (h1 & H1 & HI1). cbn. rewrite H1. cbn.
  destruct (IH _ _ HI1) as (h2 & H2 & HI2). exists h2. by rewrite <- app_assoc in HI2.
Qed.

Lemma final0_equal s : l0 s = l1 s -> l1 s = l2 s -> final0 s = s.
Proof.
  destruct s as [x y z]. cbn. intros -> ->. unfold final0; cbn.
  by rewrite Z.lxor_nilpotent, Z.lxor_0_r.
Qed.

Lemma small_key_Some m : (length m <= 16)%nat -> is_Some (small_key m).
Proof.
  intros Hm. unfold small_key, read4.
  pose proof (Nat.div_mod_eq (length m) 8). pose proof (Nat.mod_upper_bound (length m) 8).
  destruct (Nat.leb_spec 4 (length m)).
  - cbv zeta. reads. eauto.
  - destruct (Nat.ltb_spec 0 (length m)); [|eauto].
    pose proof (Nat.div_lt (length m) 2).
    destruct (lookup_lt_is_Some_2 m 0) as [? ->]; [lia|].
    destruct (lookup_lt_is_Some_2 m (length m / 2)) as [? ->]; [lia|].
    destruct (lookup_lt_is_Some_2 m (length m - 1)) as [? ->]; [lia|]. cbn. eauto.
Qed.

(** [final1] reads the last 16 bytes of its window: two windows that end with the
    same 16 bytes and mix the same ones agree. *)
Lemma final1_last st lb1 lb2 o1 o2 :
  (16 <= length lb1)%nat -> (16 <= length lb2)%nat ->
  (o1 <= length lb1)%nat -> (o2 <= length lb2)%nat ->
  drop o1 lb1 = drop o2 lb2 ->
  drop (length lb1 - 16) lb1 = drop (length lb2 - 16) lb2 ->
  final1 st lb1 o1 = final1 st lb2 o2.
Proof.
  intros H1 H2 Ho1 Ho2 Hd Hl. unfold final1.
  rewrite !slice_from_Some by done. cbn [mbind option_bind]. rewrite Hd, Hl.
  replace (length lb1 - 8)%nat with (length lb1 - 16 + 8)%nat by lia.
  replace (length lb2 - 8)%nat with (length lb2 - 16 + 8)%nat by lia.
  rewrite <- !drop_drop. by rewrite Hl.
Qed.

Lemma final1_Some st lb o :
  (16 <= length lb)%nat -> (o <= length lb)%nat -> is_Some (final1 st lb o).
Proof.
  intros H Ho. unfold final1. rewrite slice_from_Some by done. cbn [mbind option_bind].
  destruct (final1_loop_Some (S (length (drop o lb))) st (drop o lb) 0) as [st' ->]; [lia|].
  cbn [mbind option_bind]. unfold read8. reads. eauto.
Qed.

(** The scratch window of [final_]: the last bytes of the blocks, then the
    buffered remainder. *)
Lemma final_window p r bf :
  length bf = 48%nat -> (length r < 16)%nat ->
  drop (32 + length r) bf = drop (length p - (16 - length r)) p ->
  (16 <= length p)%nat ->
  (tl ← slice_range bf (48 - (16 - length r)) 48;
   scratch ← copy_into (replicate 16 0) 0 tl;
   scratch ← copy_into scratch (16 - length r) r;
   Some (scratch, (16 - length r)%nat))
  = Some (drop (length p - (16 - length r)) p ++ r, (16 - length r)%nat).
Proof.
  intros Hb Hr Hd Hp. rewrite slice_range_Some by lia.
  replace (48 - (16 - length r))%nat with (32 + length r)%nat by lia.
  replace (48 - (32 + length r))%nat with (16 - length r)%nat by lia.
  rewrite Hd. cbn [mbind option_bind].
  set (q := drop (length p - (16 - length r)) p).
  assert (Hq : length q = (16 - length r)%nat) by (unfold q; rewrite length_drop; lia).
  rewrite (take_ge q) by lia.
  rewrite copy_into_Some by (rewrite length_replicate; lia).
  cbn [mbind option_bind]. rewrite take_0, app_nil_l, Nat.add_0_l, drop_replicate.
  rewrite copy_into_Some by (rewrite length_app, length_replicate; lia).
  cbn [mbind option_bind]. do 2 f_equal.
  rewrite take_app_length' by lia. f_equal.
  rewrite drop_ge, app_nil_r by (rewrite length_app, length_replicate; lia). done.
Qed.

Lemma final_Inv4 seed m h :
  Inv seed m h -> exists v, final_ h = Some v /\ hash seed m = Some v.
Proof.
  intros (p & r & n & -> & Hp & Ha & Hr & Hn & Ht & Hbl & Hb & Htk & Htl).
  unfold final_, hash. rewrite Hb, Ht. rewrite slice_range_Some by lia.
  rewrite drop_0, Nat.sub_0_r, Htk. cbn [mbind option_bind].
  fold (lanes0 seed).
  destruct (Nat.leb_spec (length (p ++ r)) 16) as [Hs|Hs].
  { rewrite length_app in Hs. assert (n = 0%nat) as -> by lia.
    destruct p; [|cbn in *; lia].
    assert (Hst : state h = lanes0 seed) by (symmetry; by apply (inj Some)).
    rewrite Hst. cbn [app] in *.
    destruct (small_key_Some r) as [ab ->]; [lia|]. cbn. eauto. }
  rewrite length_app in Hs.
  (* the window of [final_] against the window of [hash] *)
  assert (exists win o,
    (if (length r <? 16)%nat then
       tl ← slice_range (buf h) (48 - (16 - length r)) 48;
       scratch ← copy_into (replicate 16 0) 0 tl;
       scratch ← copy_into scratch (16 - length r) r;
       Some (scratch, (16 - length r)%nat)
     else Some (r, 0%nat)) = Some (win, o)
    /\ forall st, final1 st win o = final1 st (p ++ r) (48 * n)) as (win & o & -> & Hwin).
  { destruct (Nat.ltb_spec (length r) 16) as [Hlt|Hge].
    - destruct Htl as [->|[?|Htl]]; [lia|lia|].
      destruct n as [|n']; [lia|].
      rewrite (final_window p) by (done || lia).
      eexists _, _. split; [done|]. intros st.
      apply final1_last; rewrite ?length_app, ?length_drop; try lia.
      + rewrite !drop_app_length' by (rewrite ?length_drop; lia). done.
      + replace (length p - (length p - (16 - length r)) + length r - 16)%nat with 0%nat by lia.
        rewrite drop_0, drop_app_le by lia. do 2 f_equal. lia.
    - eexists _, _. split; [done|]. intros st.
      apply final1_last; rewrite ?length_app, ?drop_0; try lia.
      + by rewrite drop_app_length' by lia.
      + rewrite drop_app_ge by lia. f_equal. lia. }
  cbn [mbind option_bind]. rewrite Hwin.
  destruct (final1_Some (final0 (state h)) (p ++ r) (48 * n)) as [[st ab] Hf];
    [rewrite length_app; lia..|].
  exists (final2 st ab (length (p ++ r))). rewrite Hf. split; [done|].
  rewrite length_app. destruct (Nat.leb_spec 48 (length p + length r)) as [H48|H48].
  - rewrite (round_loop_absorb n) by (rewrite ?length_app; lia).
    rewrite drop_0, absorb_app, Ha by lia. cbn [mbind option_bind]. rewrite Nat.add_0_l, Hf. done.
  - assert (n = 0%nat) as -> by lia.
    assert (Hst : state h = lanes0 seed) by (symmetry; by apply (inj Some)).
    rewrite Hst, final0_equal, Nat.mul_0_r in Hf by done.
    cbn [mbind option_bind]. by rewrite Hf.
Qed.
End Final4Facts.

Module ConstFacts.
Import Const.

Lemma lookup_window (d : bytes) o k : d !! (o + k)%nat = drop o d !! k.
Proof. by rewrite lookup_drop. Qed.

Lemma read8_drop d o : read8 d o = Final4.read8 (drop o d).
Proof.
  unfold read8, Final4.read8. rewrite <- (Nat.add_0_r o) at 1. rewrite !lookup_window.
  destruct (drop o d) as [|x0 [|x1 [|x2 [|x3 [|x4 [|x5 [|x6 [|x7 l]]]]]]]]; done.
Qed.

Lemma read4_drop d o : read4 d o = Final4.read4 (drop o d).
Proof.
  unfold read4, Final4.read4. rewrite <- (Nat.add_0_r o) at 1. rewrite !lookup_window.
  destruct (drop o d) as [|x0 [|x1 [|x2 [|x3 l]]]]; done.
Qed.

Lemma mix_eq x y : mix x y = Final4.mix x y.
Proof. done. Qed.

(** Reading inside a window of the input is reading the input. *)
Lemma read8_window l k :
  (k + 8 <= 48)%nat -> (48 <= length l)%nat ->
  Final4.read8 (drop k (take 48 l)) = Final4.read8 (drop k l).
Proof.
  intros Hk Hl. unfold Final4.read8.
  rewrite !read_le_Some by (rewrite ?length_drop, ?length_take; lia).
  do 2 f_equal. rewrite skipn_firstn_comm, take_take. f_equal. lia.
Qed.

Lemma rounds_eq fuel st input i : rounds fuel st input i = Final4.round_loop fuel st input i.
Proof.
  revert st i. induction fuel as [|fuel IH]; intros st i; [done|].
  cbn [rounds Final4.round_loop].
  destruct (Nat.ltb_spec (i + 48) (length input)) as [H|H]; [|done].
  rewrite slice_range_Some by lia. replace (i + 48 - i)%nat with 48%nat by lia.
  cbn [mbind option_bind]. unfold Final4.round.
  assert (48 <= length (drop i input))%nat by (rewrite length_drop; lia).
  rewrite <- (drop_0 (take 48 (drop i input))) at 1.
  rewrite !read8_window, drop_0 by lia. rewrite !read8_drop, !drop_drop.
  unfold Final4.read8. reads. apply IH.
Qed.

Lemma tail_loop_eq fuel fuel' st input i j :
  (length input < i + j + fuel)%nat -> (length input < i + j + fuel')%nat ->
  (i <= length input)%nat -> (0 < fuel)%nat -> (0 < fuel')%nat ->
  tail_loop fuel st input (i + j) = Final4.final1_loop fuel' st (drop i input) j.
Proof.
  revert fuel st j. induction fuel' as [|fuel' IH]; intros [|fuel] st j H1 H2 Hi Hf Hf'; try lia.
  cbn [tail_loop Final4.final1_loop]. rewrite length_drop.
  destruct (Nat.ltb_spec (i + j + 16) (length input)), (Nat.ltb_spec (j + 16) (length input - i));
    try lia; [|done].
  rewrite !read8_drop, !drop_drop. unfold Final4.read8.
  replace (i + (j + 8))%nat with (i + j + 8)%nat by lia. reads.
  replace (i + j + 16)%nat with (i + (j + 16))%nat by lia. apply IH; lia.
Qed.

Lemma tail_eq st input i :
  (16 <= length input)%nat -> (i <= length input)%nat ->
  (st ← tail_loop (S (length input)) st input i;
   a ← read8 input (length input - 16);
   b ← read8 input (length input - 8);
   Some (st, (a, b))) = Final4.final1 st input i.
Proof.
  intros Hl Hi. unfold Final4.final1. rewrite slice_from_Some by done. cbn [mbind option_bind].
  rewrite <- (Nat.add_0_r i) at 1.
  rewrite (tail_loop_eq _ (S (length (drop i input)))) by (rewrite ?length_drop; lia).
  destruct (Final4.final1_loop _ _ _ _); [|done]. cbn [mbind option_bind].
  by rewrite !read8_drop.
Qed.
End ConstFacts.

(** ** Properties *)

(** Streaming [Wyhash11] is chunk-invariant and memory-safe: from [init], any
    sequence of [update]s succeeds (no read or copy is out of bounds) and
    [final_] is the one-shot [hash] of the concatenated chunks. *)
Theorem wyhash11_stream_eq_hash sd chunks :
  exists st h, Wyhash11.update_all (Wyhash11.init sd) chunks = Some st
    /\ Wyhash11.final_ st = Some h /\ Wyhash11.hash sd (concat chunks) = Some h.
Proof.
  destruct (Wyhash11Facts.update_all_Inv sd chunks [] _ (Wyhash11Facts.Inv_init sd))
    as (st & Hst & HI).
  destruct (Wyhash11Facts.final_Inv _ _ _ HI) as (h & H1 & H2). eauto.
Qed.

Lemma wyhash11_hash_Some sd input : is_Some (Wyhash11.hash sd input).
Proof.
  destruct (Wyhash11Facts.update_all_Inv sd [input] [] _ (Wyhash11Facts.Inv_init sd))
    as (st & _ & HI).
  destruct (Wyhash11Facts.final_Inv _ _ _ HI) as (h & _ & Hh).
  cbn in Hh. rewrite app_nil_r in Hh. eauto.
Qed.

Lemma final4_stream sd chunks :
  exists st h, Final4.update_all (Final4.init sd) chunks = Some st
    /\ Final4.final_ st = Some h /\ Final4.hash sd (concat chunks) = Some h.
Proof.
  destruct (Final4Facts.update_all_Inv4 sd chunks [] _ (Final4Facts.Inv4_init sd))
    as (st & Hst & HI).
  destruct (Final4Facts.final_Inv4 _ _ _ HI) as (h & H1 & H2). eauto.
Qed.

(** C36. The same for [Wyhash] (final4): however a message is cut into [update]
    calls, the streaming digest exists and is the one-shot [Wyhash::hash]. *)
Theorem final4_stream_eq_hash seed chunks :
  exists st h, Final4.update_all (Final4.init seed) chunks = Some st
    /\ Final4.final_ st = Some h /\ Final4.hash seed (concat chunks) = Some h.
Proof. apply final4_stream. Qed.

(** The [const fn] re-implementation [hash_const] agrees with the runtime
    [Wyhash::hash] on every seed and input. *)
Theorem hash_const_eq_hash seed input : Const.hash_const seed input = Final4.hash seed input.
Proof.
  unfold Const.hash_const, Final4.hash. rewrite !ConstFacts.mix_eq. cbv zeta.
  destruct (Nat.leb_spec (length input) 16) as [H|H].
  - unfold Final4.small_key. rewrite !ConstFacts.read4_drop, drop_0. cbv zeta.
    destruct (4 <=? length input)%nat; [|destruct (0 <? length input)%nat].
    + destruct (Final4.read4 input), (Final4.read4 (drop (length input / 8 * 4) input)),
        (Final4.read4 (drop (length input - 4) input)),
        (Final4.read4 (drop (length input - 4 - length input / 8 * 4) input)); done.
    + destruct (input !! 0%nat), (input !! (length input / 2)%nat),
        (input !! (length input - 1)%nat); done.
    + done.
  - destruct (48 <=? length input)%nat.
    + rewrite ConstFacts.rounds_eq. unfold Final4.init; cbn [Final4.state].
      destruct (Final4.round_loop _ _ _ _) as [[st i]|] eqn:E; [|done].
      cbn [mbind option_bind]. unfold Final4.final0.
      rewrite ConstFacts.tail_eq; [|lia|].
      * destruct (Final4.final1 _ _ _) as [[? [? ?]]|]; done.
      * destruct (Nat.le_gt_cases i (length input)) as [|Hi]; [done|exfalso].
        set (k := ((length input - 1) / 48)%nat).
        pose proof (Nat.div_mod_eq (length input - 1) 48). fold k in H0.
        pose proof (Nat.mod_upper_bound (length input - 1) 48).
        rewrite (Final4Facts.round_loop_absorb k) in E by lia.
        destruct (absorb 48 _ _ _ _); [|done]. injection E as _ <-. lia.
    + cbn [mbind option_bind]. rewrite ConstFacts.tail_eq by lia.
      unfold Final4.init; cbn [Final4.state].
      destruct (Final4.final1 _ _ _) as [[? [? ?]]|]; done.
Qed.

(** The lower-casing loop feeds the hasher a chunking of the lower-cased input. *)
Lemma lowercase_loop_chunks fuel remain :
  (length remain < fuel)%nat ->
  exists chunks, concat chunks = to_ascii_lowercase <$> remain
    /\ forall h, lowercase_loop fuel h remain = Final4.update_all h chunks.
Proof.
  revert remain. induction fuel as [|fuel IH]; intros remain Hf; [lia|].
  destruct remain as [|x l]; [by exists []|].
  remember (x :: l) as r eqn:Er. assert (0 < length r)%nat by (subst; cbn; lia).
  set (n := Nat.min (length r) 48).
  assert (Hloop : forall h, lowercase_loop (S fuel) h r =
    (h' ← Final4.update h (to_ascii_lowercase <$> take n r);
     lowercase_loop fuel h' (drop n r))) by (subst; done).
  destruct (IH (drop n r)) as (chunks & Hc & Hl); [rewrite length_drop; lia|].
  exists ((to_ascii_lowercase <$> take n r) :: chunks). split.
  - cbn. by rewrite Hc, <- fmap_app, take_drop.
  - intros h. rewrite Hloop. cbn [Final4.update_all].
    destruct (Final4.update h (to_ascii_lowercase <$> take n r)) as [h'|]; [|done].
    apply Hl.
Qed.

(** [hash_ascii_lowercase] is [Wyhash::hash] of the lower-cased bytes, whichever
    of its two paths runs. *)
Theorem hash_ascii_lowercase_eq seed bs :
  hash_ascii_lowercase seed bs = Final4.hash seed (to_ascii_lowercase <$> bs).
Proof.
  unfold hash_ascii_lowercase. destruct (length bs <=? 48)%nat; [done|].
  destruct (lowercase_loop_chunks (S (length bs)) bs) as (chunks & Hc & Hl); [lia|].
  rewrite Hl. destruct (final4_stream seed chunks) as (st & h & -> & Hf & Hh).
  cbn [mbind option_bind]. by rewrite Hf, <- Hc, Hh.
Qed.
