(* ===== verification/SemverString.v ===== *)
(** * Packed strings (src/semver/lib.rs)

    [String] is eight bytes: a string of at most eight bytes stored inline, or an
    offset and a length into a buffer, told apart by the top bit.  Then
    [ExternalString] (a [String] with its hash), [SlicedString] (a slice that
    remembers its buffer), and the two interning writers, [Buf] and [Builder],
    whose pools map a string's hash to the copy already written. *)

From S2P Require Import Prelude Bytes Wyhash.

(** A [&[u8]]: its offset from the start of the buffer it points into, and its
    contents. *)
Record slice := { s_at : nat; s_bytes : bytes }.

(** [s] lies in [buf], as [is_slice_in_buffer] says of the addresses. *)
Definition slice_in (s : slice) (buf : bytes) : Prop :=
  take (length (s_bytes s)) (drop (s_at s) buf) = s_bytes s
  /\ (s_at s + length (s_bytes s) <= length buf)%nat.

(** [&s[i..j]] as a slice; the callers keep [i <= j <= len]. *)
Definition subslice (s : slice) (i j : nat) : slice :=
  {| s_at := s_at s + i; s_bytes := take (j - i) (drop i (s_bytes s)) |}.

(** ** Pointer *)
Record Pointer := { off : Z; len : Z }.

Definition Pointer_init (buf : bytes) (in_ : slice) : Pointer :=
  {| off := wrap32 (Z.of_nat (s_at in_)); len := wrap32 (Z.of_nat (length (s_bytes in_))) |}.

Definition to_bits (p : Pointer) : Z := le_combine (le_split 4 (off p) ++ le_split 4 (len p)).
Definition from_bits (bits : Z) : Pointer :=
  let b := le_split 8 bits in
  {| off := le_combine (take 4 b); len := le_combine (drop 4 b) |}.

(** ** String *)
Record String := { sbytes : bytes }.

#[export] Instance String_eq_dec : EqDecision String.
Proof. solve_decision. Defined.

Definition MAX_INLINE_LEN : nat := 8.
Definition MAX_ADDRESSABLE_SPACE_MASK : Z := 2 ^ 63 - 1.

Definition EMPTY : String := {| sbytes := replicate 8 0 |}.

(** The packed form of a string in a buffer. *)
Definition pack_pointer (p : Pointer) : String :=
  {| sbytes := le_split 8 (Z.lor (Z.land (to_bits p) MAX_ADDRESSABLE_SPACE_MASK) (2 ^ 63)) |}.

(** The arms [0..=7] (and [8] when it fits) of [init]: the bytes, zero-padded. *)
Definition pad_inline (s : bytes) : String := {| sbytes := s ++ replicate (8 - length s) 0 |}.

Definition can_inline (buf : bytes) : bool :=
  if (length buf <=? 7)%nat then true
  else if (length buf =? 8)%nat then Z.land (nth 7 buf 0) 128 =? 0
  else false.

Definition init (buf : bytes) (in_ : slice) : String :=
  let n := length (s_bytes in_) in
  if (n =? 0)%nat then EMPTY
  else if (n <=? 7)%nat then pad_inline (s_bytes in_)
  else if (n =? MAX_INLINE_LEN)%nat then
    if 128 <=? nth 7 (s_bytes in_) 0 then pack_pointer (Pointer_init buf in_)
    else pad_inline (s_bytes in_)
  else pack_pointer (Pointer_init buf in_).

(** [init_inline]; [None] is [unreachable!()]. *)
Definition init_inline (in_ : bytes) : option String :=
  if (length in_ <=? 8)%nat then Some (pad_inline in_) else None.

(** Appends to the buffer and returns the handle of the copy. *)
Definition init_append (buf : bytes) (in_ : bytes) : String * bytes :=
  let items := buf ++ in_ in
  (pack_pointer (Pointer_init items {| s_at := length items - length in_; s_bytes := in_ |}),
   items).

Definition init_append_if_needed (buf : bytes) (in_ : bytes) : String * bytes :=
  let n := length in_ in
  if (n <=? 7)%nat then (pad_inline in_, buf)
  else if (n =? MAX_INLINE_LEN)%nat then
    if 128 <=? nth 7 in_ 0 then init_append buf in_ else (pad_inline in_, buf)
  else init_append buf in_.

Definition is_inline (s : String) : bool := Z.land (nth 7 (sbytes s) 0) 128 =? 0.

Definition is_empty (s : String) : bool := le_combine (sbytes s) =? 0.

(** The SWAR search for the first zero byte. *)
Definition inline_len (s : String) : nat :=
  let bits := le_combine (sbytes s) in
  let zero_bytes :=
    Z.land (Z.land (wrap64 (bits - 0x0101010101010101)) (not64 bits)) 0x8080808080808080 in
  (trailing_zeros 64 zero_bytes / 8)%nat.

Definition ptr (s : String) : Pointer :=
  from_bits (Z.land (le_combine (sbytes s)) MAX_ADDRESSABLE_SPACE_MASK).

Definition str_len (s : String) : nat :=
  if Z.land (nth 7 (sbytes s) 0) 128 =? 0 then inline_len s else Z.to_nat (len (ptr s)).

Definition is_within (s : String) (buf : bytes) : bool :=
  is_inline s || (off (ptr s) + len (ptr s) <=? Z.of_nat (length buf)).

(** [buf.get(off..off + len)] *)
Definition buf_get (buf : bytes) (p : Pointer) : option bytes :=
  slice_range buf (Z.to_nat (off p)) (Z.to_nat (off p + len p)).

Definition str_slice (s : String) (buf : bytes) : bytes :=
  if Z.land (nth 7 (sbytes s) 0) 128 =? 0 then take (inline_len s) (sbytes s)
  else default [] (buf_get buf (ptr s)).

Definition str_order (s rhs : String) (lhs_buf rhs_buf : bytes) : comparison :=
  order (str_slice s lhs_buf) (str_slice rhs rhs_buf).

Definition eql (s that : String) (this_buf that_buf : bytes) : bool :=
  if is_inline s && is_inline that then le_combine (sbytes s) =? le_combine (sbytes that)
  else if negb (Bool.eqb (is_inline s) (is_inline that)) then false
  else match buf_get this_buf (ptr s), buf_get that_buf (ptr that) with
       | Some a, Some b => bool_decide (a = b)
       | _, _ => false
       end.

(** ** Hashes of strings

    [Wyhash11::hash(0, _)] always returns, as [string_hash_hash] records. *)
Definition string_hash (buf : bytes) : Z := default 0 (Wyhash11.hash 0 buf).

Lemma string_hash_hash buf : Wyhash11.hash 0 buf = Some (string_hash buf).
Proof. unfold string_hash. by destruct (wyhash11_hash_Some 0 buf) as [h ->]. Qed.

(** ** ExternalString and SlicedString *)
Record ExternalString := { value : String; hash : Z }.

Definition ext_init (buf : bytes) (in_ : slice) (h : Z) : ExternalString :=
  {| value := init buf in_; hash := h |}.
Definition ext_slice (s : ExternalString) (buf : bytes) : bytes := str_slice (value s) buf.
Definition ext_is_empty (s : ExternalString) : bool := is_empty (value s).
Definition ext_is_inline (s : ExternalString) : bool := is_inline (value s).
Definition ext_order (s rhs : ExternalString) (lhs_buf rhs_buf : bytes) : comparison :=
  str_order (value s) (value rhs) lhs_buf rhs_buf.
Definition ext_default : ExternalString := {| value := EMPTY; hash := 0 |}.

Record SlicedString := { ss_buf : bytes; ss_slice : slice }.

Definition sub (s : SlicedString) (input : slice) : SlicedString :=
  {| ss_buf := ss_buf s; ss_slice := input |}.
Definition external (s : SlicedString) : ExternalString :=
  ext_init (ss_buf s) (ss_slice s) (string_hash (s_bytes (ss_slice s))).
Definition sliced_value (s : SlicedString) : String := init (ss_buf s) (ss_slice s).
(** [SlicedString::init(text, text)] *)
Definition sliced_init (text : bytes) : SlicedString :=
  {| ss_buf := text; ss_slice := {| s_at := 0; s_bytes := text |} |}.

(** ** The interning buffer *)
Abbreviation StringPool := (gmap Z String).

Record Buf := { buf_bytes : bytes; buf_pool : StringPool }.

Definition buf_append_with_hash (self : Buf) (str : bytes) (h : Z) : option (String * Buf) :=
  if can_inline str then s ← init_inline str; Some (s, self)
  else match buf_pool self !! h with
       | Some v =>
           if bool_decide (str_slice v (buf_bytes self) = str) then Some (v, self)
           else let '(s, bs) := init_append (buf_bytes self) str in
                Some (s, {| buf_bytes := bs; buf_pool := buf_pool self |})
       | None =>
           let '(s, bs) := init_append (buf_bytes self) str in
           Some (s, {| buf_bytes := bs; buf_pool := <[h := s]> (buf_pool self) |})
       end.

Definition buf_append (self : Buf) (str : bytes) : option (String * Buf) :=
  if can_inline str then s ← init_inline str; Some (s, self)
  else buf_append_with_hash self str (string_hash str).

Definition buf_append_external_with_hash (self : Buf) (str : bytes) (h : Z)
  : option (ExternalString * Buf) :=
  '(s, self) ← buf_append_with_hash self str h; Some ({| value := s; hash := h |}, self).

Definition buf_append_external (self : Buf) (str : bytes) : option (ExternalString * Buf) :=
  buf_append_external_with_hash self str (string_hash str).

(** ** Builder

    Two passes: [count] every string, [allocate] once, then [append] them. *)
Class BuilderStringType (T : Type) := {
  from_init : bytes -> slice -> Z -> T;
  from_pooled : String -> Z -> T;
  (** the handle inside, which the laws speak of *)
  handle : T -> String;
  handle_from_init buf s h : handle (from_init buf s h) = init buf s;
  handle_from_pooled s h : handle (from_pooled s h) = s;
}.

#[export] Instance String_builder : BuilderStringType String := {|
  from_init buf s _ := init buf s;
  from_pooled v _ := v;
  handle s := s;
  handle_from_init _ _ _ := eq_refl;
  handle_from_pooled _ _ := eq_refl;
|}.

#[export] Instance ExternalString_builder : BuilderStringType ExternalString := {|
  from_init := ext_init;
  from_pooled v h := {| value := v; hash := h |};
  handle := value;
  handle_from_init _ _ _ := eq_refl;
  handle_from_pooled _ _ := eq_refl;
|}.

Record Builder := {
  b_len : nat; b_cap : nat; b_ptr : option bytes; b_pool : StringPool
}.

Definition builder_default : Builder :=
  {| b_len := 0; b_cap := 0; b_ptr := None; b_pool := ∅ |}.

Definition count_with_hash (self : Builder) (s : bytes) (h : Z) : Builder :=
  if can_inline s then self
  else match b_pool self !! h with
       | Some _ => self
       | None => {| b_len := b_len self; b_cap := b_cap self + length s;
                    b_ptr := b_ptr self; b_pool := b_pool self |}
       end.

Definition count (self : Builder) (s : bytes) : Builder :=
  count_with_hash self s (if can_inline s then u64_max else string_hash s).

Definition allocated_slice (self : Builder) : option bytes :=
  if (0 <? b_cap self)%nat then p ← b_ptr self; slice_range p 0 (b_cap self) else Some [].

Definition allocate (self : Builder) : Builder :=
  {| b_len := b_len self; b_cap := b_cap self;
     b_ptr := Some (replicate (b_cap self) 0); b_pool := b_pool self |}.

(** [dst = &mut ptr[start..cap]; dst[..s.len()].copy_from_slice(s)] *)
Definition builder_write (self : Builder) (s : bytes) : option bytes :=
  p ← b_ptr self;
  dst ← slice_range p (b_len self) (b_cap self);
  dst ← copy_into dst 0 s;
  copy_into p (b_len self) dst.

Definition append_without_pool {T} `{BuilderStringType T} (self : Builder) (s : bytes) (h : Z)
  : option (T * Builder) :=
  if can_inline s then
    a ← allocated_slice self; Some (from_init a {| s_at := 0; s_bytes := s |} h, self)
  else
    let start := b_len self in
    p ← builder_write self s;
    let self := {| b_len := start + length s; b_cap := b_cap self;
                   b_ptr := Some p; b_pool := b_pool self |} in
    allocated ← slice_range p 0 (b_cap self);
    final_slice ← slice_range allocated start (start + length s);
    Some (from_init allocated {| s_at := start; s_bytes := final_slice |} h, self).

Definition append_with_hash {T} `{BuilderStringType T} (self : Builder) (s : bytes) (h : Z)
  : option (T * Builder) :=
  if can_inline s then
    a ← allocated_slice self; Some (from_init a {| s_at := 0; s_bytes := s |} h, self)
  else
    let start := b_len self in
    match b_pool self !! h with
    | Some v =>
        p ← b_ptr self;
        allocated ← slice_range p 0 (b_cap self);
        if bool_decide (str_slice v allocated = s) then Some (from_pooled v h, self)
        else append_without_pool self s h
    | None =>
        p ← builder_write self s;
        allocated ← slice_range p 0 (b_cap self);
        final_slice ← slice_range allocated start (start + length s);
        let v := init allocated {| s_at := start; s_bytes := final_slice |} in
        Some (from_pooled v h,
              {| b_len := start + length s; b_cap := b_cap self; b_ptr := Some p;
                 b_pool := <[h := v]> (b_pool self) |})
    end.

Definition append {T} `{BuilderStringType T} (self : Builder) (s : bytes)
  : option (T * Builder) := append_with_hash self s (string_hash s).

Fixpoint append_all {T} `{BuilderStringType T} (self : Builder) (ss : list bytes)
  : option (list T * Builder) :=
  match ss with
  | [] => Some ([], self)
  | s :: ss =>
      '(v, self) ← append self s;
      '(vs, self) ← append_all self ss;
      Some (v :: vs, self)
  end.

(** ** Facts *)

Definition nonzero (b : Z) : bool := negb (b =? 0).

(** *** The SWAR search *)
Definition ones (n : nat) : Z := le_combine (replicate n 1).
Definition highs (n : nat) : Z := le_combine (replicate n 128).
(** [inline_len]'s word, for [n] bytes instead of eight. *)
Definition zero_word (n : nat) (x : Z) : Z :=
  Z.land (Z.land ((x - ones n) mod 256 ^ Z.of_nat n) (256 ^ Z.of_nat n - 1 - x)) (highs n).

Lemma trailing_zeros_double k z : trailing_zeros (S k) (2 * z) = S (trailing_zeros k z).
Proof.
  cbn [trailing_zeros]. rewrite Z.odd_mul. cbn [Z.odd andb].
  by rewrite Z.mul_comm, Z.div_mul by lia.
Qed.

Lemma trailing_zeros_256 k z : trailing_zeros (8 + k) (256 * z) = (8 + trailing_zeros k z)%nat.
Proof.
  replace (256 * z) with (2 * (2 * (2 * (2 * (2 * (2 * (2 * (2 * z)))))))) by lia.
  cbn [Nat.add]. by rewrite !trailing_zeros_double.
Qed.

Lemma trailing_zeros_128 k w : trailing_zeros (8 + k) (128 + 256 * w) = 7%nat.
Proof.
  replace (128 + 256 * w) with (2 * (2 * (2 * (2 * (2 * (2 * (2 * (2 * w + 1)))))))) by lia.
  cbn [Nat.add]. rewrite !trailing_zeros_double. cbn [trailing_zeros].
  by rewrite Z.odd_add, Z.odd_mul.
Qed.

(** A nonzero byte leaves no bit: [(b - 1) & !b & 0x80 == 0]. *)
Lemma nonzero_byte_mask b : 1 <= b < 256 -> Z.land (Z.land (b - 1) (255 - b)) 128 = 0.
Proof.
  intros Hb. assert (forallb (fun n =>
    Z.land (Z.land (Z.of_nat n - 1) (255 - Z.of_nat n)) 128 =? 0) (seq 1 255) = true) as H
    by by vm_compute.
  rewrite forallb_forall in H. specialize (H (Z.to_nat b)).
  rewrite Z2Nat.id in H by lia. apply Z.eqb_eq, H, in_seq. lia.
Qed.

Lemma zero_word_cons n b l :
  is_byte b ->
  zero_word (S n) (b + 256 * l) =
    if b =? 0 then 128 + 256 * Z.land (Z.land ((l - ones n - 1) mod 256 ^ Z.of_nat n)
                                       (256 ^ Z.of_nat n - 1 - l)) (highs n)
    else 256 * zero_word n l.
Proof.
  unfold is_byte. intros Hb. unfold zero_word.
  assert (ones (S n) = 1 + 256 * ones n) as -> by done.
  assert (highs (S n) = 128 + 256 * highs n) as -> by done.
  rewrite Nat2Z.inj_succ, Z.pow_succ_r by lia.
  set (M := 256 ^ Z.of_nat n). assert (0 < M) by (apply Z.pow_pos_nonneg; lia).
  rewrite Z.rem_mul_r by lia.
  replace (256 * M - 1 - (b + 256 * l)) with ((255 - b) + 256 * (M - 1 - l)) by lia.
  destruct (Z.eqb_spec b 0) as [->|Hnz].
  - replace (0 + 256 * l - (1 + 256 * ones n)) with (255 + (l - ones n - 1) * 256) by lia.
    rewrite Z.mod_add, Z.div_add by lia. change (255 mod 256) with 255. change (255 / 256) with 0.
    rewrite Z.add_0_l, land_split by lia. change (Z.land 255 (255 - 0)) with 255.
    rewrite land_split by lia. done.
  - replace (b + 256 * l - (1 + 256 * ones n)) with ((b - 1) + (l - ones n) * 256) by lia.
    rewrite Z.mod_add, Z.div_add, (Z.mod_small (b - 1)), (Z.div_small (b - 1)) by lia.
    rewrite Z.add_0_l, land_split by lia.
    assert (0 <= Z.land (b - 1) (255 - b) < 256).
    { apply (land_range 8); cbn; lia. }
    rewrite land_split by lia. rewrite nonzero_byte_mask by lia. lia.
Qed.

Lemma trailing_zero_word l :
  Forall is_byte l ->
  (trailing_zeros (8 * length l) (zero_word (length l) (le_combine l)) / 8)%nat
  = count_while nonzero l.
Proof.
  induction 1 as [|b l Hb Hl IH]; [done|].
  cbn [le_combine length count_while]. rewrite zero_word_cons by done. unfold nonzero at 1.
  replace (8 * S (length l))%nat with (8 + 8 * length l)%nat by lia.
  destruct (b =? 0); cbn [negb].
  - by rewrite trailing_zeros_128.
  - rewrite trailing_zeros_256, <- IH.
    replace (8 + trailing_zeros (8 * length l) (zero_word (length l) (le_combine l)))%nat
      with (trailing_zeros (8 * length l) (zero_word (length l) (le_combine l)) + 1 * 8)%nat by lia.
    rewrite Nat.div_add by lia. lia.
Qed.

(** A handle as memory has it: eight bytes. *)
Definition wf (s : String) : Prop := length (sbytes s) = 8%nat /\ Forall is_byte (sbytes s).

#[export] Instance wf_dec s : Decision (wf s).
Proof. unfold wf. apply _. Defined.

Lemma inline_len_count s : wf s -> inline_len s = count_while nonzero (sbytes s).
Proof.
  intros [Hl Hb]. rewrite <- trailing_zero_word by done. rewrite Hl. done.
Qed.

(** *** Packing *)
Definition ptr_ok (p : Pointer) : Prop := is_u32 (off p) /\ 0 <= len p < 2147483648.

Lemma to_bits_eq p : is_u32 (off p) -> is_u32 (len p) -> to_bits p = off p + 4294967296 * len p.
Proof.
  unfold is_u32. intros H1 H2. unfold to_bits.
  rewrite le_combine_app, !le_combine_split, length_le_split.
  change (256 ^ Z.of_nat 4) with 4294967296. by rewrite !Z.mod_small by lia.
Qed.

(** The word of a packed pointer. *)
Lemma pack_word p :
  ptr_ok p -> le_combine (sbytes (pack_pointer p)) = off p + 4294967296 * len p + 2 ^ 63.
Proof.
  intros [H1 H2]. unfold pack_pointer, MAX_ADDRESSABLE_SPACE_MASK. cbn [sbytes].
  rewrite to_bits_eq by (unfold is_u32 in *; lia). unfold is_u32 in *.
  rewrite le_combine_split. change (2 ^ 63 - 1) with (Z.ones 63).
  rewrite Z.land_ones, (Z.mod_small (off p + _)) by lia.
  rewrite lor_pow2 by lia. change (256 ^ Z.of_nat 8) with (2 ^ 64). apply Z.mod_small. lia.
Qed.

Lemma wf_pack p : wf (pack_pointer p).
Proof. split; [apply length_le_split|apply le_split_bytes]. Qed.

Lemma high_bit_word s :
  wf s -> nth 7 (sbytes s) 0 = le_combine (sbytes s) / 2 ^ 56.
Proof.
  intros [Hl Hb]. pose proof (le_combine_range _ Hb) as Hr. rewrite Hl in Hr.
  rewrite <- (le_split_combine _ Hb) at 1. rewrite Hl, nth_le_split by lia. cbn [Z.of_nat].
  rewrite Z.mod_small; [done|].
  split; [apply Z.div_pos; lia|apply Z.div_lt_upper_bound; cbn in *; lia].
Qed.

Lemma is_inline_word s : wf s -> is_inline s = (le_combine (sbytes s) <? 2 ^ 63).
Proof.
  intros Hwf. unfold is_inline. rewrite land_128 by (apply Forall_nth_byte, Hwf).
  rewrite high_bit_word by done.
  pose proof (Z.div_lt_upper_bound (le_combine (sbytes s)) (2 ^ 56) 128).
  pose proof (Z.div_le_lower_bound (le_combine (sbytes s)) (2 ^ 56) 128).
  destruct (Z.ltb_spec (le_combine (sbytes s) / 2 ^ 56) 128), (Z.ltb_spec (le_combine (sbytes s)) (2 ^ 63));
    cbn in *; done || lia.
Qed.

Lemma is_inline_pack p : ptr_ok p -> is_inline (pack_pointer p) = false.
Proof.
  intros Hp. rewrite is_inline_word, pack_word by (done || apply wf_pack).
  destruct Hp. unfold is_u32 in *. apply Z.ltb_ge. lia.
Qed.

Lemma ptr_pack p : ptr_ok p -> ptr (pack_pointer p) = p.
Proof.
  intros Hp. unfold ptr. rewrite pack_word by done. destruct Hp as [H1 H2]. unfold is_u32 in *.
  unfold MAX_ADDRESSABLE_SPACE_MASK. change (2 ^ 63 - 1) with (Z.ones 63).
  rewrite Z.land_ones by lia.
  replace (off p + 4294967296 * len p + 2 ^ 63) with (off p + 4294967296 * len p + 1 * 2 ^ 63) by lia.
  rewrite Z.mod_add, Z.mod_small by lia. unfold from_bits.
  rewrite take_le_split, drop_le_split, !le_combine_split by lia. cbn [Nat.sub Z.of_nat Pos.of_succ_nat Pos.succ].
  change (256 ^ 4) with 4294967296.
  replace (off p + 4294967296 * len p) with (off p + len p * 4294967296) by lia.
  rewrite Z.mod_add, Z.div_add, (Z.div_small (off p)), Z.add_0_l, !Z.mod_small by lia.
  by destruct p.
Qed.

(** *** Inline strings *)
Definition no_nul (s : bytes) : Prop := Forall (fun b => b <> 0) s.

Lemma can_inline_cases s :
  Forall is_byte s ->
  can_inline s = (length s <=? 7)%nat || ((length s =? 8)%nat && (nth 7 s 0 <? 128)).
Proof.
  intros Hs. unfold can_inline. rewrite land_128 by by apply Forall_nth_byte.
  destruct (length s <=? 7)%nat, (length s =? 8)%nat, (nth 7 s 0 <? 128); done.
Qed.

Lemma can_inline_length s : can_inline s = true -> (length s <= 8)%nat.
Proof.
  unfold can_inline. destruct (Nat.leb_spec (length s) 7); [lia|].
  destruct (Nat.eqb_spec (length s) 8); [lia|done].
Qed.

Lemma init_cases buf in_ :
  Forall is_byte (s_bytes in_) ->
  init buf in_ = if can_inline (s_bytes in_) then pad_inline (s_bytes in_)
                 else pack_pointer (Pointer_init buf in_).
Proof.
  intros Hb. rewrite can_inline_cases by done. unfold init, MAX_INLINE_LEN.
  destruct (Nat.eqb_spec (length (s_bytes in_)) 0) as [H0|H0].
  { destruct (s_bytes in_); done. }
  destruct (Nat.leb_spec (length (s_bytes in_)) 7); [done|]. cbn [orb].
  destruct (Nat.eqb_spec (length (s_bytes in_)) 8); [|done]. cbn [andb].
  destruct (Z.leb_spec 128 (nth 7 (s_bytes in_) 0)), (Z.ltb_spec (nth 7 (s_bytes in_) 0) 128);
    done || lia.
Qed.

Lemma init_mk buf a s :
  Forall is_byte s ->
  init buf {| s_at := a; s_bytes := s |} =
    if can_inline s then pad_inline s
    else pack_pointer (Pointer_init buf {| s_at := a; s_bytes := s |}).
Proof. apply (init_cases buf {| s_at := a; s_bytes := s |}). Qed.

Lemma wf_pad s : (length s <= 8)%nat -> Forall is_byte s -> wf (pad_inline s).
Proof.
  intros Hl Hs. split; cbn [pad_inline sbytes].
  - rewrite length_app, length_replicate. lia.
  - apply Forall_app. split; [done|]. apply Forall_replicate. unfold is_byte; lia.
Qed.

Lemma is_inline_pad s : Forall is_byte s -> can_inline s = true -> is_inline (pad_inline s) = true.
Proof.
  intros Hs Hc. pose proof (can_inline_length s Hc) as Hl.
  unfold is_inline, pad_inline. cbn [sbytes].
  destruct (decide (length s <= 7)%nat) as [H|H].
  - rewrite app_nth2, nth_replicate by lia. done.
  - rewrite app_nth1 by lia. unfold can_inline in Hc.
    destruct (Nat.leb_spec (length s) 7); [lia|].
    destruct (length s =? 8)%nat; [done|done].
Qed.

Lemma slice_pad s buf :
  Forall is_byte s -> can_inline s = true -> no_nul s -> str_slice (pad_inline s) buf = s.
Proof.
  intros Hs Hc Hn. pose proof (can_inline_length s Hc) as Hl.
  pose proof (is_inline_pad s Hs Hc) as Hi. unfold str_slice, is_inline in *. rewrite Hi.
  rewrite inline_len_count by by apply wf_pad. cbn [pad_inline sbytes].
  rewrite count_while_app.
  - rewrite count_while_stop, Nat.add_0_r; [by rewrite take_app_length|].
    by destruct (8 - length s)%nat.
  - eapply Forall_impl; [exact Hn|]. intros b Hb. unfold nonzero.
    apply negb_true_iff, Z.eqb_neq, Hb.
Qed.

(** *** Packed strings *)

(** What [init] needs of a slice: it lies in the buffer, its offset and length
    fit the packed form, and an inline string holds no NUL. *)
Definition storable_bytes (s : bytes) : Prop :=
  Forall is_byte s /\ Z.of_nat (length s) < 2147483648 /\ (can_inline s = true -> no_nul s).
Definition storable (buf : bytes) (in_ : slice) : Prop :=
  slice_in in_ buf /\ Z.of_nat (length buf) <= u32_max /\ storable_bytes (s_bytes in_).

#[export] Instance storable_bytes_dec s : Decision (storable_bytes s).
Proof. unfold storable_bytes, no_nul. apply _. Defined.
#[export] Instance storable_dec buf in_ : Decision (storable buf in_).
Proof. unfold storable, slice_in. apply _. Defined.

(** The packed pointer [p] lies in the first [n] bytes of its buffer. *)
Definition within (n : nat) (p : Pointer) : Prop :=
  ptr_ok p /\ off p + len p <= Z.of_nat n.

Lemma Pointer_init_eq buf in_ :
  Z.of_nat (s_at in_) <= u32_max -> Z.of_nat (length (s_bytes in_)) <= u32_max ->
  Pointer_init buf in_
  = {| off := Z.of_nat (s_at in_); len := Z.of_nat (length (s_bytes in_)) |}.
Proof. intros H1 H2. unfold Pointer_init, wrap32. by rewrite !Z.mod_small by lia. Qed.

Lemma buf_get_Some buf at_ n :
  (at_ + n <= length buf)%nat ->
  buf_get buf {| off := Z.of_nat at_; len := Z.of_nat n |} = Some (take n (drop at_ buf)).
Proof.
  intros H. unfold buf_get. cbn [off len]. rewrite slice_range_Some by lia.
  f_equal. f_equal; [lia|]. f_equal. lia.
Qed.

Lemma slice_pack buf p :
  ptr_ok p -> str_slice (pack_pointer p) buf = default [] (buf_get buf p).
Proof.
  intros Hp. pose proof (is_inline_pack p Hp) as Hi. unfold str_slice, is_inline in *.
  by rewrite Hi, ptr_pack.
Qed.

(** A handle reads the same bytes from any buffer that agrees on its range. *)
Lemma slice_pack_agree n buf buf' p :
  within n p -> take n buf = take n buf' -> (n <= length buf)%nat -> (n <= length buf')%nat ->
  str_slice (pack_pointer p) buf = str_slice (pack_pointer p) buf'.
Proof.
  intros [Hp Hw] Ht H1 H2. rewrite !slice_pack by done. destruct Hp as [Ho Hl].
  unfold is_u32 in Ho. unfold buf_get. rewrite !slice_range_Some by lia. cbn [default].
  set (i := Z.to_nat (off p)). set (j := Z.to_nat (off p + len p)).
  assert (Hj : (j <= n)%nat) by (unfold j; lia).
  rewrite !take_drop_commute. replace (i + (j - i))%nat with j by (unfold i, j; lia).
  assert (take j buf = take j buf') as ->; [|done].
  rewrite <- (Nat.min_l j n Hj), <- !take_take. by rewrite Ht.
Qed.

Lemma Pointer_init_ok buf in_ :
  storable buf in_ -> within (length buf) (Pointer_init buf in_).
Proof.
  intros ((_ & Hin) & Hb & (_ & Hl & _)). rewrite Pointer_init_eq by lia.
  unfold within, ptr_ok, is_u32. cbn [off len]. lia.
Qed.

Lemma slice_init_packed buf in_ :
  storable buf in_ -> str_slice (pack_pointer (Pointer_init buf in_)) buf = s_bytes in_.
Proof.
  intros Hs. pose proof (Pointer_init_ok _ _ Hs) as [Hp _]. rewrite slice_pack by done.
  destruct Hs as ((Hin & Hle) & Hb & (_ & Hl & _)).
  rewrite Pointer_init_eq by lia. rewrite buf_get_Some by lia. done.
Qed.

Lemma init_slice_ok buf in_ :
  storable buf in_ -> str_slice (init buf in_) buf = s_bytes in_.
Proof.
  intros Hs. pose proof Hs as (_ & _ & Hby & _ & Hn). rewrite init_cases by done.
  destruct (can_inline (s_bytes in_)) eqn:E; [apply slice_pad; auto|by apply slice_init_packed].
Qed.

Lemma is_empty_slice s buf : wf s -> is_empty s = true -> str_slice s buf = [].
Proof.
  intros Hwf He. unfold is_empty in He. apply Z.eqb_eq in He.
  pose proof (is_inline_word s Hwf) as Hi. rewrite He in Hi.
  unfold str_slice, is_inline, inline_len in *. rewrite Hi, He. done.
Qed.

Lemma wf_init buf in_ : Forall is_byte (s_bytes in_) -> wf (init buf in_).
Proof.
  intros H. rewrite init_cases by done. destruct (can_inline (s_bytes in_)) eqn:E.
  - apply wf_pad; [by apply can_inline_length|done].
  - apply wf_pack.
Qed.

(** Only the empty string has the all-zero handle. *)
Lemma is_empty_init buf in_ :
  storable buf in_ -> is_empty (init buf in_) = (length (s_bytes in_) =? 0)%nat.
Proof.
  intros Hs. pose proof Hs as (_ & _ & Hby & _ & Hn).
  destruct (is_empty (init buf in_)) eqn:E; symmetry.
  - apply Nat.eqb_eq. pose proof (is_empty_slice _ buf (wf_init buf in_ Hby) E) as Hsl.
    rewrite init_cases in Hsl by done. destruct (can_inline (s_bytes in_)) eqn:C.
    + rewrite slice_pad in Hsl by auto. by rewrite Hsl.
    + rewrite slice_init_packed in Hsl by done. by rewrite Hsl.
  - apply Nat.eqb_neq. intros Hl. unfold init in E. rewrite Hl in E. done.
Qed.

Lemma is_inline_init buf in_ :
  storable buf in_ -> is_inline (init buf in_) = can_inline (s_bytes in_).
Proof.
  intros Hs. pose proof Hs as (_ & _ & Hby & _ & Hn). rewrite init_cases by done.
  destruct (can_inline (s_bytes in_)) eqn:E.
  - by rewrite is_inline_pad.
  - apply is_inline_pack. by apply (Pointer_init_ok buf in_).
Qed.

Lemma str_len_init buf in_ :
  storable buf in_ -> str_len (init buf in_) = length (s_bytes in_).
Proof.
  intros Hs. pose proof (is_inline_init buf in_ Hs) as Hi. pose proof (init_slice_ok buf in_ Hs) as Hsl.
  pose proof Hs as ((_ & Hin) & Hb & Hby & Hl & Hn).
  unfold str_len, is_inline, str_slice in *. rewrite Hi in *.
  destruct (can_inline (s_bytes in_)) eqn:C.
  - apply (f_equal length) in Hsl. rewrite length_take in Hsl.
    rewrite inline_len_count in * by by apply wf_init.
    pose proof (count_while_le nonzero (sbytes (init buf in_))). lia.
  - rewrite init_cases, C, ptr_pack by (done || by apply (Pointer_init_ok buf in_)).
    rewrite Pointer_init_eq by lia. cbn [len]. lia.
Qed.

(**  Round trip: the handle [init] builds for a slice of a buffer reads that
    slice's bytes back from the buffer, in both representations, with the length
    [len] reports; it is the all-zero handle exactly for the empty string. *)
Theorem init_slice_roundtrip buf in_ :
  storable buf in_ ->
  str_slice (init buf in_) buf = s_bytes in_
  /\ str_len (init buf in_) = length (s_bytes in_)
  /\ is_empty (init buf in_) = (length (s_bytes in_) =? 0)%nat.
Proof.
  intros Hs. split; [by apply init_slice_ok|]. split; [by apply str_len_init|by apply is_empty_init].
Qed.

Lemma init_slice_roundtrip_witness :
  storable (bstr "xx-prerelease") {| s_at := 2; s_bytes := bstr "-prerelease" |}
  /\ str_slice (init (bstr "xx-prerelease") {| s_at := 2; s_bytes := bstr "-prerelease" |})
       (bstr "xx-prerelease") = bstr "-prerelease"
  /\ str_len (init (bstr "xx-prerelease") {| s_at := 2; s_bytes := bstr "-prerelease" |}) = 11%nat
  /\ is_empty (init (bstr "xx-prerelease") {| s_at := 2; s_bytes := bstr "-prerelease" |}) = false.
Proof.
  assert (H : storable (bstr "xx-prerelease") {| s_at := 2; s_bytes := bstr "-prerelease" |}).
  { decide_now. }
  split; [exact H|exact (init_slice_roundtrip _ _ H)].
Defined.

(** A sub-slice of a slice in the buffer is in the buffer. *)
Lemma slice_in_subslice s buf i j :
  slice_in s buf -> (j <= length (s_bytes s))%nat -> (i <= j)%nat ->
  slice_in (subslice s i j) buf.
Proof.
  intros [Hs Hl] Hj Hi. unfold slice_in, subslice. cbn [s_at s_bytes].
  rewrite length_take_le by (rewrite length_drop; lia). split; [|lia].
  rewrite <- Hs. rewrite <- drop_drop, !take_drop_commute, take_take.
  do 3 f_equal. lia.
Qed.

Lemma eql_pad s1 s2 :
  can_inline s1 = true -> can_inline s2 = true -> storable_bytes s1 -> storable_bytes s2 ->
  (le_combine (sbytes (pad_inline s1)) =? le_combine (sbytes (pad_inline s2)))
  = bool_decide (s1 = s2).
Proof.
  intros C1 C2 (B1 & _ & N1) (B2 & _ & N2).
  destruct (wf_pad s1 (can_inline_length _ C1) B1) as [L1 W1].
  destruct (wf_pad s2 (can_inline_length _ C2) B2) as [L2 W2].
  apply eq_bool_prop_intro. rewrite bool_decide_spec.
  rewrite Is_true_true, Z.eqb_eq. split; [|by intros ->].
  intros H. assert (pad_inline s1 = pad_inline s2) as Hp.
  { unfold pad_inline in *. f_equal. apply le_combine_inj; cbn [sbytes] in *; congruence. }
  rewrite <- (slice_pad s1 []), <- (slice_pad s2 []) by auto. by rewrite Hp.
Qed.

(**  [eql] decides equality of the strings that two handles denote, whichever
    representation each uses and whichever buffers they point into. *)
Theorem eql_decides_equality buf1 in1 buf2 in2 :
  storable buf1 in1 -> storable buf2 in2 ->
  eql (init buf1 in1) (init buf2 in2) buf1 buf2 = bool_decide (s_bytes in1 = s_bytes in2).
Proof.
  intros H1 H2. pose proof (is_inline_init _ _ H1) as I1. pose proof (is_inline_init _ _ H2) as I2.
  pose proof (Pointer_init_ok _ _ H1) as [P1 _]. pose proof (Pointer_init_ok _ _ H2) as [P2 _].
  pose proof (slice_init_packed _ _ H1) as S1. pose proof (slice_init_packed _ _ H2) as S2'.
  pose proof H1 as ((_ & Hin1) & Hb1 & (B1 & Hl1 & _)).
  pose proof H2 as ((_ & Hin2) & Hb2 & (B2 & Hl2 & _)).
  unfold eql. rewrite I1, I2.
  rewrite !init_cases by done. destruct (can_inline (s_bytes in1)) eqn:C1, (can_inline (s_bytes in2)) eqn:C2;
    cbn [andb negb Bool.eqb].
  - by apply eql_pad; [done|done|apply H1|apply H2].
  - rewrite bool_decide_eq_false_2; [done|congruence].
  - rewrite bool_decide_eq_false_2; [done|congruence].
  - rewrite slice_pack in S1, S2' by done. rewrite !ptr_pack by done.
    rewrite (Pointer_init_eq buf1 in1), (Pointer_init_eq buf2 in2) in * by lia.
    rewrite (buf_get_Some buf1) in S1 |- * by lia. rewrite (buf_get_Some buf2) in S2' |- * by lia.
    cbn [from_option] in S1, S2'. unfold id in S1, S2'. by rewrite S1, S2'.
Qed.

Lemma eql_decides_equality_witness :
  let b1 := bstr "xx-prerelease" in let b2 := bstr "-prerelease" in
  eql (init b1 {| s_at := 2; s_bytes := b2 |}) (init b2 {| s_at := 0; s_bytes := b2 |}) b1 b2
  = bool_decide (b2 = b2).
Proof.
  intros b1 b2.
  apply (eql_decides_equality b1 {| s_at := 2; s_bytes := b2 |} b2 {| s_at := 0; s_bytes := b2 |});
    decide_now.
Defined.

(** *** Buf *)

(** Every pooled handle is packed and lies in the first [n] bytes. *)
Definition pool_within (pool : StringPool) (n : nat) : Prop :=
  map_Forall (fun _ v => exists p, v = pack_pointer p /\ within n p) pool.

Lemma within_weaken n m p : (n <= m)%nat -> within n p -> within m p.
Proof. intros H [? ?]. split; [done|lia]. Qed.

Lemma pool_within_weaken pool n m :
  (n <= m)%nat -> pool_within pool n -> pool_within pool m.
Proof.
  intros Hnm H h v Hv. destruct (H h v Hv) as (p & -> & Hp).
  eauto using within_weaken.
Qed.

Lemma pool_within_insert pool n h p :
  pool_within pool n -> within n p -> pool_within (<[h := pack_pointer p]> pool) n.
Proof. intros H Hp. apply map_Forall_insert_2; eauto. Qed.

Definition Buf_inv (b : Buf) : Prop := pool_within (buf_pool b) (length (buf_bytes b)).

(** The string just written at the end of a buffer. *)
Lemma init_append_ok buf s :
  can_inline s = false -> storable_bytes s -> Z.of_nat (length (buf ++ s)) <= u32_max ->
  exists p, init_append buf s = (pack_pointer p, buf ++ s)
    /\ within (length (buf ++ s)) p /\ str_slice (pack_pointer p) (buf ++ s) = s.
Proof.
  intros Hc Hs Hl. unfold init_append.
  assert (Hst : storable (buf ++ s) {| s_at := length (buf ++ s) - length s; s_bytes := s |}).
  { unfold storable, slice_in. cbn [s_at s_bytes].
    rewrite length_app in *. replace (length buf + length s - length s)%nat with (length buf) by lia.
    rewrite drop_app_length. split_and!; [by rewrite firstn_all|lia|lia|done..]. }
  eexists. split; [done|]. split; [by apply Pointer_init_ok|by apply slice_init_packed].
Qed.

(** The effect of an [append] on the buffer it appends to. *)
Definition appends (b b' : Buf) (s : bytes) (v : String) : Prop :=
  Buf_inv b' /\ str_slice v (buf_bytes b') = s /\ (exists tl, buf_bytes b' = buf_bytes b ++ tl).

Lemma init_inline_ok s :
  storable_bytes s -> can_inline s = true ->
  init_inline s = Some (pad_inline s) /\ forall buf, str_slice (pad_inline s) buf = s.
Proof.
  intros (Hb & _ & Hn) Hc. pose proof (can_inline_length s Hc). split.
  - unfold init_inline. destruct (Nat.leb_spec (length s) 8); [done|lia].
  - intros buf. apply slice_pad; auto.
Qed.

(** C37.  Interning: [Buf::append_with_hash] never panics, the handle it returns
    reads back the string, even when the pool holds a different string under the
    same hash, the pool invariant holds again, and the buffer only grows at its
    end, so that every handle given out before still reads the same bytes. *)
Theorem buf_append_with_hash_ok b s h :
  Buf_inv b -> storable_bytes s -> Z.of_nat (length (buf_bytes b ++ s)) <= u32_max ->
  exists v b', buf_append_with_hash b s h = Some (v, b') /\ appends b b' s v
    /\ forall p, within (length (buf_bytes b)) p ->
         str_slice (pack_pointer p) (buf_bytes b') = str_slice (pack_pointer p) (buf_bytes b).
Proof.
  intros Hinv Hs Hl.
  assert (Hkeep : forall tl p, within (length (buf_bytes b)) p ->
    str_slice (pack_pointer p) (buf_bytes b ++ tl) = str_slice (pack_pointer p) (buf_bytes b)).
  { intros tl p Hp. apply (slice_pack_agree (length (buf_bytes b))); [done| |rewrite ?length_app; lia..].
    by rewrite take_app_length, firstn_all. }
  unfold buf_append_with_hash, appends. destruct (can_inline s) eqn:Hc.
  { destruct (init_inline_ok s Hs Hc) as [-> Hsl]. cbn [mbind option_bind].
    eexists _, _. split; [done|]. split_and!; [done|done|exists []; by rewrite app_nil_r|done]. }
  destruct (init_append_ok (buf_bytes b) s Hc Hs Hl) as (p & -> & Hw & Hsl).
  pose proof (pool_within_weaken _ _ (length (buf_bytes b ++ s)) ltac:(apply prefix_length, prefix_app_r; done) Hinv) as Hinv'.
  destruct (buf_pool b !! h) as [v|] eqn:Hv; [destruct (bool_decide_reflect (str_slice v (buf_bytes b) = s))|].
  - eexists _, _. split; [done|]. split_and!; [done|done|exists []; by rewrite app_nil_r|done].
  - eexists _, _. split; [done|]. cbn [buf_bytes]. split_and!; eauto.
  - eexists _, _. split; [done|]. cbn [buf_bytes]. split_and!; eauto.
    by apply pool_within_insert.
Qed.

(** The witness appends a string whose hash the pool already holds for another
    string. *)
Lemma buf_append_with_hash_ok_witness :
  let b := {| buf_bytes := bstr "prerelease.1";
              buf_pool := {[ 7 := pack_pointer {| off := 0; len := 12 |} ]} |} in
  exists v b', buf_append_with_hash b (bstr "prerelease.2") 7 = Some (v, b')
    /\ appends b b' (bstr "prerelease.2") v
    /\ forall p, within (length (buf_bytes b)) p ->
         str_slice (pack_pointer p) (buf_bytes b') = str_slice (pack_pointer p) (buf_bytes b).
Proof.
  intros b. apply (buf_append_with_hash_ok b (bstr "prerelease.2") 7).
  - intros h v. unfold b. cbn [buf_pool]. rewrite lookup_singleton_Some. intros [_ <-].
    eexists. split; [reflexivity|]. unfold within, ptr_ok, is_u32. cbn. lia.
  - decide_now.
  - cbn. lia.
Defined.

Lemma inline_agree v buf buf' : is_inline v = true -> str_slice v buf = str_slice v buf'.
Proof. unfold is_inline, str_slice. by intros ->. Qed.

(** *** Builder *)

(** The bytes a string takes in the builder. *)
Definition need (s : bytes) : nat := if can_inline s then 0 else length s.

(** [b] has room for strings needing [r] more bytes, and its handles lie in what
    is written. *)
Record Builder_inv (b : Builder) (p : bytes) (r : nat) : Prop := {
  bi_ptr : b_ptr b = Some p;
  bi_cap : length p = b_cap b;
  bi_u32 : Z.of_nat (b_cap b) <= u32_max;
  bi_room : (b_len b + r <= b_cap b)%nat;
  bi_pool : pool_within (b_pool b) (b_len b);
}.

(** A handle of the builder: inline, or packed in the bytes written so far. *)
Definition issued (b : Builder) (v : String) : Prop :=
  wf v /\ (is_inline v = true \/ exists p, v = pack_pointer p /\ within (b_len b) p).

Lemma issued_inline b s :
  storable_bytes s -> can_inline s = true -> issued b (pad_inline s).
Proof.
  intros Hs Hc. split; [apply wf_pad; [by apply can_inline_length|apply Hs]|].
  left. apply is_inline_pad; [apply Hs|done].
Qed.

Lemma issued_packed b p : within (b_len b) p -> issued b (pack_pointer p).
Proof. intros Hp. split; [apply wf_pack|]. right. by exists p. Qed.

Lemma builder_count_all ss b :
  b_pool b = ∅ ->
  foldl count b ss = {| b_len := b_len b; b_cap := b_cap b + sum_list (need <$> ss);
                        b_ptr := b_ptr b; b_pool := ∅ |}.
Proof.
  revert b. induction ss as [|s ss IH]; intros b Hb; cbn [foldl].
  - cbn. rewrite Nat.add_0_r. destruct b; cbn in *; by subst.
  - assert (Hc : count b s = {| b_len := b_len b; b_cap := b_cap b + need s;
                                 b_ptr := b_ptr b; b_pool := ∅ |}).
    { unfold count, count_with_hash, need. destruct b; cbn in *; subst.
      destruct (can_inline s); [by rewrite Nat.add_0_r|]. by rewrite lookup_empty. }
    rewrite Hc, IH by done. cbn. f_equal. lia.
Qed.

Lemma allocated_slice_ok b p r :
  Builder_inv b p r -> allocated_slice b = Some p.
Proof.
  intros H. unfold allocated_slice. rewrite (bi_ptr _ _ _ H). pose proof (bi_cap _ _ _ H) as Hc.
  destruct (Nat.ltb_spec 0 (b_cap b)).
  - cbn [mbind option_bind]. rewrite slice_range_Some by lia.
    by rewrite drop_0, Nat.sub_0_r, <- Hc, firstn_all.
  - destruct p; [done|cbn in *; lia].
Qed.

Lemma builder_write_ok b p r s :
  Builder_inv b p r -> (length s <= r)%nat ->
  builder_write b s = Some (take (b_len b) p ++ s ++ drop (b_len b + length s) p).
Proof.
  intros [Hp Hc _ Hr _] Hs. unfold builder_write. rewrite Hp. cbn [mbind option_bind].
  rewrite slice_range_Some by lia. cbn [mbind option_bind].
  rewrite take_ge by (rewrite length_drop; lia).
  rewrite copy_into_Some by (rewrite length_drop; lia). cbn [mbind option_bind].
  rewrite take_0, app_nil_l, Nat.add_0_l, drop_drop.
  rewrite copy_into_Some by (rewrite length_app, length_drop; lia).
  rewrite (drop_ge p (_ + length (_ ++ _))) by (rewrite length_app, length_drop; lia).
  by rewrite app_nil_r.
Qed.

Section BuilderFacts.
Context {T : Type} `{!BuilderStringType T}.

(** The state after writing [s] at the end. *)
Lemma builder_write_state b p r s :
  Builder_inv b p r -> storable_bytes s -> can_inline s = false -> (length s <= r)%nat ->
  exists p', builder_write b s = Some p' /\ length p' = length p
    /\ take (b_len b) p' = take (b_len b) p
    /\ slice_range p' 0 (b_cap b) = Some p'
    /\ slice_range p' (b_len b) (b_len b + length s) = Some s
    /\ storable p' {| s_at := b_len b; s_bytes := s |}.
Proof.
  intros H Hs Hc Hr. eexists. split; [by eapply builder_write_ok|].
  destruct H as [Hp Hcap Hu Hroom Hpool].
  set (p' := take (b_len b) p ++ s ++ drop (b_len b + length s) p).
  assert (Hl : length p' = length p).
  { unfold p'. rewrite !length_app, length_take, length_drop. lia. }
  assert (Hd : take (length s) (drop (b_len b) p') = s).
  { unfold p'. rewrite drop_app_ge by (rewrite length_take; lia).
    rewrite length_take_le, Nat.sub_diag, drop_0 by lia. by rewrite take_app_length. }
  split_and!.
  - done.
  - unfold p'. rewrite take_app_le by (rewrite length_take; lia). by rewrite take_take, Nat.min_id.
  - rewrite slice_range_Some by lia. rewrite drop_0, Nat.sub_0_r, take_ge by lia. done.
  - rewrite slice_range_Some by lia.
    replace (b_len b + length s - b_len b)%nat with (length s) by lia. by rewrite Hd.
  - unfold storable, slice_in. cbn [s_at s_bytes]. split_and!; [done|lia|lia|apply Hs..].
Qed.

Lemma issued_agree b p r b' p' r' v :
  Builder_inv b p r -> Builder_inv b' p' r' -> b_cap b' = b_cap b ->
  take (b_len b) p' = take (b_len b) p -> issued b v -> str_slice v p' = str_slice v p.
Proof.
  intros H H' Hc Ht [_ [Hi|(q & -> & Hq)]].
  - by apply inline_agree.
  - apply (slice_pack_agree (b_len b)); [done..| |].
    + pose proof (bi_cap _ _ _ H'). pose proof (bi_room _ _ _ H). lia.
    + pose proof (bi_cap _ _ _ H). pose proof (bi_room _ _ _ H). lia.
Qed.

(** One append: the handle reads the string, the room left shrinks by what the
    string needs, and the bytes written before stay. *)
Lemma builder_append_ok b p r s h :
  Builder_inv b p (need s + r) -> storable_bytes s ->
  exists (v : T) b' p', append_with_hash b s h = Some (v, b') /\ Builder_inv b' p' r
    /\ b_cap b' = b_cap b /\ (b_len b <= b_len b')%nat /\ take (b_len b) p' = take (b_len b) p
    /\ issued b' (handle v) /\ str_slice (handle v) p' = s.
Proof.
  intros H Hs. unfold append_with_hash, need in *.
  destruct (can_inline s) eqn:Hc.
  { rewrite (allocated_slice_ok _ _ _ H). cbn [mbind option_bind].
    eexists _, _, p. split; [done|]. rewrite handle_from_init, init_mk, Hc by apply Hs.
    split_and!; [done|done|done|done|by apply issued_inline|]. cbn [s_bytes].
    by apply (proj2 (init_inline_ok s Hs Hc)). }
  destruct (builder_write_state b p _ s H Hs Hc ltac:(lia)) as (p' & Hw & Hl & Ht & Hall & Hfin & Hst).
  pose proof (Pointer_init_ok _ _ Hst) as [Hpo Hpw]. pose proof (slice_init_packed _ _ Hst) as Hsl.
  assert (Hwith : within (b_len b + length s) (Pointer_init p' {| s_at := b_len b; s_bytes := s |})).
  { split; [done|]. destruct Hst as ((_ & Hin) & Hu & _). cbn [s_at s_bytes] in Hin.
    rewrite Pointer_init_eq by (cbn [s_at s_bytes]; lia). cbn [off len s_at s_bytes]. lia. }
  assert (Hpool' : pool_within (b_pool b) (b_len b + length s)).
  { eapply pool_within_weaken; [|apply (bi_pool _ _ _ H)]. lia. }
  pose proof (bi_room _ _ _ H). pose proof (bi_u32 _ _ _ H). pose proof (bi_cap _ _ _ H).
  assert (Hfresh : exists (v : T) b', append_without_pool b s h = Some (v, b')
     /\ Builder_inv b' p' r /\ b_cap b' = b_cap b /\ (b_len b <= b_len b')%nat
     /\ issued b' (handle v) /\ str_slice (handle v) p' = s).
  { unfold append_without_pool. rewrite Hc, Hw. cbn [mbind option_bind b_cap].
    rewrite Hall. cbn [mbind option_bind]. rewrite Hfin. cbn [mbind option_bind].
    eexists _, _. split; [done|]. rewrite handle_from_init, init_mk, Hc by apply Hs.
    cbn [b_cap b_len]. split_and!; [|done|lia|by apply issued_packed|done].
    split; cbn [b_ptr b_cap b_len b_pool]; (done || lia). }
  destruct (b_pool b !! h) as [v|] eqn:Hh.
  - rewrite (bi_ptr _ _ _ H). cbn [mbind option_bind].
    rewrite slice_range_Some by lia. cbn [mbind option_bind].
    rewrite drop_0, Nat.sub_0_r, take_ge by lia.
    destruct (bool_decide_reflect (str_slice v p = s)).
    + eexists _, _, p. split; [done|]. rewrite handle_from_pooled. split_and!; try done.
      * destruct H; split; (done || lia).
      * destruct (bi_pool _ _ _ H h v Hh) as (q & -> & Hq). by apply issued_packed.
    + destruct Hfresh as (w & b' & -> & ? & ? & ? & ? & ?). exists w, b', p'. split_and!; done.
  - rewrite Hw. cbn [mbind option_bind]. rewrite Hall. cbn [mbind option_bind].
    rewrite Hfin. cbn [mbind option_bind]. eexists _, _, p'. split; [done|].
    rewrite handle_from_pooled, init_mk, Hc by apply Hs. cbn [b_cap b_len].
    split_and!; [|done|lia|done|by apply issued_packed|done].
    split; cbn [b_ptr b_cap b_len b_pool]; [done|lia|lia|lia|].
    by apply pool_within_insert.
Qed.

Lemma builder_append_all_ok ss b p r :
  Builder_inv b p (sum_list (need <$> ss) + r) -> Forall storable_bytes ss ->
  exists (vs : list T) b' p', append_all b ss = Some (vs, b') /\ Builder_inv b' p' r
    /\ b_cap b' = b_cap b /\ (b_len b <= b_len b')%nat /\ take (b_len b) p' = take (b_len b) p
    /\ Forall2 (fun v s => str_slice (handle v) p' = s) vs ss.
Proof.
  revert b p. induction ss as [|s ss IH]; intros b p H Hss; cbn [append_all].
  { exists [], b, p. split_and!; (done || constructor). }
  apply Forall_cons in Hss as [Hs Hss]. cbn [fmap list_fmap sum_list sum_list_with foldr] in H.
  rewrite <- Nat.add_assoc in H. unfold append.
  destruct (builder_append_ok b p _ s (string_hash s) H Hs)
    as (v & b1 & p1 & -> & H1 & Hc1 & Hl1 & Ht1 & Hi1 & Hsl1). cbn [mbind option_bind].
  destruct (IH b1 p1 H1 Hss) as (vs & b2 & p2 & -> & H2 & Hc2 & Hl2 & Ht2 & Hall).
  cbn [mbind option_bind]. exists (v :: vs), b2, p2. split_and!; [done|done|congruence|lia| |].
  - rewrite <- (Nat.min_l (b_len b) (b_len b1)), <- !take_take, Ht2 by lia.
    by rewrite !take_take, Nat.min_l.
  - constructor; [|done]. rewrite <- Hsl1. by eapply issued_agree; eauto; congruence.
Qed.
End BuilderFacts.

(** The two-pass protocol of [Builder]: after counting a list of strings with
    a fresh builder and allocating once, appending any selection of them (in any
    order, with the duplicates that were counted) never overruns the allocation,
    and every handle reads its string back from the final buffer. *)
Theorem builder_two_pass {T} `{!BuilderStringType T} ss ss' :
  ss' ⊆+ ss -> Forall storable_bytes ss -> Z.of_nat (sum_list (need <$> ss)) <= u32_max ->
  exists (vs : list T) b a,
    append_all (allocate (foldl count builder_default ss)) ss' = Some (vs, b)
    /\ allocated_slice b = Some a
    /\ Forall2 (fun v s => str_slice (handle v) a = s) vs ss'.
Proof.
  intros Hsub Hss Hu. destruct (submseteq_Permutation _ _ Hsub) as [rest Hperm].
  rewrite builder_count_all by done. cbn [builder_default b_len b_cap b_ptr b_pool].
  rewrite Nat.add_0_l. set (n := sum_list (need <$> ss)).
  assert (Hn : n = (sum_list (need <$> ss') + sum_list (need <$> rest))%nat).
  { unfold n. rewrite Hperm, fmap_app. apply sum_list_with_app. }
  destruct (builder_append_all_ok (T:=T) ss'
    (allocate {| b_len := 0; b_cap := n; b_ptr := None; b_pool := ∅ |}) (replicate n 0)
    (sum_list (need <$> rest))) as (vs & b & p & -> & H & _ & _ & _ & Hall).
  - split; cbn; [done|by rewrite length_replicate|done|lia|by apply map_Forall_empty].
  - rewrite Hperm in Hss. by apply Forall_app in Hss as [? _].
  - exists vs, b, p. split_and!; [done|by eapply allocated_slice_ok|done].
Qed.

Lemma builder_two_pass_witness :
  let ss := [bstr "prerelease.1"; bstr "beta"; bstr "prerelease.1"] in
  let ss' := [bstr "prerelease.1"; bstr "prerelease.1"] in
  exists (vs : list ExternalString) b a,
    append_all (allocate (foldl count builder_default ss)) ss' = Some (vs, b)
    /\ allocated_slice b = Some a
    /\ Forall2 (fun v s => str_slice (handle v) a = s) vs ss'.
Proof.
  intros ss ss'. apply (builder_two_pass (T:=ExternalString) ss ss').
  - decide_now.
  - decide_now.
  - vm_compute. done.
Defined.
