(* ===== verification/SemverVersion.v ===== *)
(** * Versions (src/semver/Version.rs)

    [Version] and its [Tag] (prerelease and build strings), the parser with its
    partial results, the orders, the printers, [coerce] and
    [which_version_is_pinned].  The integer parameter of [VersionType] is the
    [IntTy] argument [T] of the operations that depend on it; the padding bytes
    of the struct are constant and left out.  Loops run with fuel that the
    totality theorem shows to be enough. *)

From S2P Require Import Prelude Bytes Wyhash SemverString.

(** ** Data *)

(** [query::token::Wildcard] *)
Inductive Wildcard := WNone | WMajor | WMinor | WPatch.
#[export] Instance Wildcard_eq_dec : EqDecision Wildcard.
Proof. solve_decision. Defined.

Record Tag := { pre : ExternalString; build : ExternalString }.
Record Version := { major : Z; minor : Z; patch : Z; tag : Tag }.
Record Partial := {
  pmajor : option Z; pminor : option Z; ppatch : option Z; ptag : Tag
}.

Definition Tag_default : Tag := {| pre := ext_default; build := ext_default |}.
Definition Version_default : Version :=
  {| major := 0; minor := 0; patch := 0; tag := Tag_default |}.
Definition Partial_default : Partial :=
  {| pmajor := None; pminor := None; ppatch := None; ptag := Tag_default |}.

(** [Tag::ZERO_PRE]: the tag [-0]. *)
Definition ZERO_PRE : Tag :=
  {| pre := {| value := {| sbytes := ["0"%u8; 0; 0; 0; 0; 0; 0; 0] |};
               hash := 0xb8f8325b21a8a1e5 |};
     build := {| value := EMPTY; hash := 0 |} |}.

Record ParseResult := {
  wildcard : Wildcard; valid : bool; overflow : bool; version : Partial; pr_len : nat
}.
Definition ParseResult_default : ParseResult :=
  {| wildcard := WNone; valid := true; overflow := false;
     version := Partial_default; pr_len := 0 |}.

Record TagResult := { tr_tag : Tag; tr_len : nat }.

(** [VersionInt::parse_ascii] *)
Definition parse_ascii (T : IntTy) (s : bytes) : option Z := rok (parse_unsigned T s 10).

(** [VersionType<u32>::migrate]: the numbers are widened, the tag is kept. *)
Definition migrate (v : Version) : Version :=
  {| major := major v; minor := minor v; patch := patch v;
     tag := {| pre := pre (tag v); build := build (tag v) |} |}.

Definition is_zero (v : Version) : bool :=
  (patch v =? 0) && (minor v =? 0) && (major v =? 0).

Definition pmin (p : Partial) : Version :=
  {| major := default 0 (pmajor p); minor := default 0 (pminor p);
     patch := default 0 (ppatch p); tag := ptag p |}.
Definition pmax (T : IntTy) (p : Partial) : Version :=
  {| major := default (int_max T) (pmajor p); minor := default (int_max T) (pminor p);
     patch := default (int_max T) (ppatch p); tag := ptag p |}.

Definition has_pre (t : Tag) : bool := negb (ext_is_empty (pre t)).
Definition has_build (t : Tag) : bool := negb (ext_is_empty (build t)).
Definition tag_eql (t rhs : Tag) : bool := hash (pre t) =? hash (pre rhs).
Definition version_eql (v rhs : Version) : bool :=
  (major v =? major rhs) && (minor v =? minor rhs) && (patch v =? patch rhs)
  && tag_eql (tag rhs) (tag v).

(** ** Orders *)

(** The loop of [order_pre] over the two split iterators. *)
Fixpoint order_pre_loop (fuel : nat) (lhs_itr rhs_itr : SplitIterator) : comparison :=
  match fuel with
  | O => Eq
  | S fuel =>
      let '(lhs_part, lhs_itr) := split_next lhs_itr in
      let '(rhs_part, rhs_itr) := split_next rhs_itr in
      match lhs_part, rhs_part with
      | None, None => Eq
      | _, None => Gt
      | None, _ => Lt
      | Some lhs_part, Some rhs_part =>
          match parse_ascii u64_ty lhs_part, parse_ascii u64_ty rhs_part with
          | Some _, None => Lt
          | None, Some _ => Gt
          | None, None =>
              match order lhs_part rhs_part with
              | Eq => order_pre_loop fuel lhs_itr rhs_itr
              | not_equal => not_equal
              end
          | Some l, Some r =>
              match l ?= r with
              | Eq => order_pre_loop fuel lhs_itr rhs_itr
              | not_equal => not_equal
              end
          end
      end
  end.

(** A prerelease of [n] bytes has at most [n + 1] parts. *)
Definition order_pre (t rhs : Tag) (lhs_buf rhs_buf : bytes) : comparison :=
  let lhs_str := ext_slice (pre t) lhs_buf in
  let rhs_str := ext_slice (pre rhs) rhs_buf in
  order_pre_loop (S (S (length lhs_str)))
    (split lhs_str "."%u8) (split rhs_str "."%u8).

Definition tag_order (t rhs : Tag) (lhs_buf rhs_buf : bytes) : comparison :=
  if negb (ext_is_empty (pre t)) && negb (ext_is_empty (pre rhs))
  then order_pre t rhs lhs_buf rhs_buf
  else match ext_order (pre t) (pre rhs) lhs_buf rhs_buf with
       | Eq => ext_order (build t) (build rhs) lhs_buf rhs_buf
       | pre_order => pre_order
       end.

Definition tag_order_without_build (t rhs : Tag) (lhs_buf rhs_buf : bytes) : comparison :=
  if negb (ext_is_empty (pre t)) && negb (ext_is_empty (pre rhs))
  then order_pre t rhs lhs_buf rhs_buf
  else ext_order (pre t) (pre rhs) lhs_buf rhs_buf.

Definition order_without_tag (lhs rhs : Version) : comparison :=
  if major lhs <? major rhs then Lt
  else if major rhs <? major lhs then Gt
  else if minor lhs <? minor rhs then Lt
  else if minor rhs <? minor lhs then Gt
  else if patch lhs <? patch rhs then Lt
  else if patch rhs <? patch lhs then Gt
  else if has_pre (tag lhs) then (if negb (has_pre (tag rhs)) then Lt else Eq)
  else if has_pre (tag rhs) then Gt else Eq.

Definition version_order (v rhs : Version) (lhs_buf rhs_buf : bytes) : comparison :=
  match order_without_tag v rhs with
  | Eq => tag_order (tag v) (tag rhs) lhs_buf rhs_buf
  | c => c
  end.

Definition order_without_build (v rhs : Version) (lhs_buf rhs_buf : bytes) : comparison :=
  match order_without_tag v rhs with
  | Eq => tag_order_without_build (tag v) (tag rhs) lhs_buf rhs_buf
  | c => c
  end.

Inductive ChangedVersion := CMajor | CMinor | CPatch | CPre | CBuild | CNone.

Definition is_equal (c : comparison) : bool := match c with Eq => true | _ => false end.

Definition which_version_is_different (left right : Version) (left_buf right_buf : bytes)
  : option ChangedVersion :=
  if negb (major left =? major right) then Some CMajor
  else if negb (minor left =? minor right) then Some CMinor
  else if negb (patch left =? patch right) then Some CPatch
  else if negb (Bool.eqb (has_pre (tag left)) (has_pre (tag right))) then Some CPre
  else if negb (has_pre (tag left)) && negb (has_pre (tag right)) then None
  else if negb (is_equal (order_pre (tag left) (tag right) left_buf right_buf)) then Some CPre
  else if negb (Bool.eqb (has_build (tag left)) (has_build (tag right))) then Some CBuild
  else if negb (has_build (tag left)) && negb (has_build (tag right)) then None
  else if negb (is_equal (ext_order (build (tag left)) (build (tag right)) left_buf right_buf))
  then Some CBuild else None.

(** ** Printing *)
Definition version_fmt (v : Version) (input : bytes) : bytes :=
  show (major v) ++ "."%u8 :: show (minor v) ++ "."%u8 :: show (patch v)
  ++ (if has_pre (tag v) then "-"%u8 :: ext_slice (pre (tag v)) input else [])
  ++ (if has_build (tag v) then "+"%u8 :: ext_slice (build (tag v)) input else []).

(** ** Copying tags between buffers *)

(** The closure [copy] of [clone_into]. *)
Definition tag_copy (slice_ : bytes) (s : ExternalString) (buf : bytes) (offset : nat)
  : option (String * bytes * nat) :=
  if ext_is_inline s then Some (value s, buf, offset)
  else
    let bs := ext_slice s slice_ in
    let start := offset in
    let offset := (start + length bs)%nat in
    buf ← copy_into buf start bs;
    w ← slice_range buf start offset;
    Some (init buf {| s_at := start; s_bytes := w |}, buf, offset).

Definition tag_clone_into (t : Tag) (slice_ buf : bytes) (offset : nat)
  : option (Tag * bytes * nat) :=
  '(p, buf, offset) ← tag_copy slice_ (pre t) buf offset;
  '(b, buf, offset) ← tag_copy slice_ (build t) buf offset;
  Some ({| pre := {| value := p; hash := hash (pre t) |};
           build := {| value := b; hash := hash (build t) |} |}, buf, offset).

Definition version_clone_into (v : Version) (slice_ buf : bytes) (offset : nat)
  : option (Version * bytes * nat) :=
  '(t, buf, offset) ← tag_clone_into (tag v) slice_ buf offset;
  Some ({| major := major v; minor := minor v; patch := patch v; tag := t |}, buf, offset).

Definition version_count (v : Version) (buf : bytes) (builder : Builder) : Builder :=
  let builder :=
    if has_pre (tag v) && negb (ext_is_inline (pre (tag v)))
    then count builder (ext_slice (pre (tag v)) buf) else builder in
  if has_build (tag v) && negb (ext_is_inline (build (tag v)))
  then count builder (ext_slice (build (tag v)) buf) else builder.

Definition version_append (v : Version) (buf : bytes) (builder : Builder)
  : option (Version * Builder) :=
  '(p, builder) ←
    (if has_pre (tag v) && negb (ext_is_inline (pre (tag v)))
     then append (T:=ExternalString) builder (ext_slice (pre (tag v)) buf)
     else Some (pre (tag v), builder));
  '(b, builder) ←
    (if has_build (tag v) && negb (ext_is_inline (build (tag v)))
     then append (T:=ExternalString) builder (ext_slice (build (tag v)) buf)
     else Some (build (tag v), builder));
  Some ({| major := major v; minor := minor v; patch := patch v;
           tag := {| pre := p; build := b |} |}, builder).

(** ** Parsing tags *)

(** The counting loop of [parse_with_pre_count]; the counters are [u32]. *)
Fixpoint tag_counts (input : bytes) (build_count pre_count : Z) : Z * Z :=
  match input with
  | [] => (build_count, pre_count)
  | c :: input =>
      if c =? " "%u8 then (build_count, pre_count)
      else if c =? "+"%u8 then tag_counts input (wrap32 (build_count + 1)) pre_count
      else if c =? "-"%u8 then tag_counts input build_count (wrap32 (pre_count + 1))
      else tag_counts input build_count pre_count
  end.

Inductive TagState := SNone | SPre | SBuild.
Definition is_SNone (s : TagState) : bool := match s with SNone => true | _ => false end.
Definition is_SPre (s : TagState) : bool := match s with SPre => true | _ => false end.
Definition is_SBuild (s : TagState) : bool := match s with SBuild => true | _ => false end.

Definition set_pre (t : Tag) (s : ExternalString) : Tag := {| pre := s; build := build t |}.
Definition set_build (t : Tag) (s : ExternalString) : Tag := {| pre := pre t; build := s |}.

(** [sliced_string.sub(&input[i..j]).external()] *)
Definition external_sub (ss : SlicedString) (i j : nat) : ExternalString :=
  external (sub ss (subslice (ss_slice ss) i j)).

Definition is_tag_char (c : Z) : bool :=
  in_range "a"%u8 "z"%u8 c || in_range "A"%u8 "Z"%u8 c || in_range "0"%u8 "9"%u8 c
  || (c =? "."%u8).

(** The scanning loop: [rest] is [input[i..]]. *)
Fixpoint tag_loop (ss : SlicedString) (initial_pre_count : Z) (rest : bytes) (i : nat)
    (state : TagState) (start : nat) (t : Tag) : TagState * nat * nat * Tag :=
  match rest with
  | [] => (state, start, i, t)
  | c :: rest =>
      if c =? "+"%u8 then
        let t := if is_SPre state || (is_SNone state && (0 <? initial_pre_count))
                 then set_pre t (external_sub ss start i) else t in
        if negb (is_SBuild state)
        then tag_loop ss initial_pre_count rest (S i) SBuild (S i) t
        else tag_loop ss initial_pre_count rest (S i) state start t
      else if c =? "-"%u8 then
        if is_SNone state then tag_loop ss initial_pre_count rest (S i) SPre (S i) t
        else tag_loop ss initial_pre_count rest (S i) state start t
      else if is_tag_char c then tag_loop ss initial_pre_count rest (S i) state start t
      else match state with
           | SNone => (SNone, start, i, t)
           | SPre => (SNone, start, i, set_pre t (external_sub ss start i))
           | SBuild => (SNone, start, i, set_build t (external_sub ss start i))
           end
  end.

Definition tag_parse_with_pre_count (ss : SlicedString) (initial_pre_count : Z) : TagResult :=
  let input := s_bytes (ss_slice ss) in
  let '(build_count, pre_count) := tag_counts input 0 initial_pre_count in
  if (build_count =? 0) && (pre_count =? 0) then {| tr_tag := Tag_default; tr_len := 0 |}
  else
    let '(state, start, i, t) := tag_loop ss initial_pre_count input 0 SNone 0 Tag_default in
    let '(state, start) :=
      if is_SNone state && (0 <? initial_pre_count) then (SPre, 0%nat) else (state, start) in
    let t := match state with
             | SNone => t
             | SPre => set_pre t (external_sub ss start i)
             | SBuild => set_build t (external_sub ss start i)
             end in
    {| tr_tag := t; tr_len := as_u32 i |}.

Definition tag_parse (ss : SlicedString) : TagResult := tag_parse_with_pre_count ss 0.

(** ** Parsing versions

    [last_char_i] and [is_done] are left out: nothing reads the first, and the
    second is set exactly where the loop is left. *)
Record ParseState := { ps_i : nat; ps_part : nat; ps_res : ParseResult }.

Definition set_valid (r : ParseResult) (b : bool) : ParseResult :=
  {| wildcard := wildcard r; valid := b; overflow := overflow r;
     version := version r; pr_len := pr_len r |}.
Definition set_wildcard (r : ParseResult) (w : Wildcard) : ParseResult :=
  {| wildcard := w; valid := valid r; overflow := overflow r;
     version := version r; pr_len := pr_len r |}.
Definition set_overflow (r : ParseResult) : ParseResult :=
  {| wildcard := wildcard r; valid := valid r; overflow := true;
     version := version r; pr_len := pr_len r |}.
Definition set_version (r : ParseResult) (v : Partial) : ParseResult :=
  {| wildcard := wildcard r; valid := valid r; overflow := overflow r;
     version := v; pr_len := pr_len r |}.
Definition set_len (r : ParseResult) (n : nat) : ParseResult :=
  {| wildcard := wildcard r; valid := valid r; overflow := overflow r;
     version := version r; pr_len := n |}.
Definition set_ptag (p : Partial) (t : Tag) : Partial :=
  {| pmajor := pmajor p; pminor := pminor p; ppatch := ppatch p; ptag := t |}.
Definition set_part (p : Partial) (part_i : nat) (number : option Z) : Partial :=
  match part_i with
  | 0%nat => {| pmajor := number; pminor := pminor p; ppatch := ppatch p; ptag := ptag p |}
  | 1%nat => {| pmajor := pmajor p; pminor := number; ppatch := ppatch p; ptag := ptag p |}
  | _ => {| pmajor := pmajor p; pminor := pminor p; ppatch := number; ptag := ptag p |}
  end.

(** [input[i]] when [i < input.len() && p(input[i])] *)
Definition char_at (p : Z -> bool) (input : bytes) (i : nat) : bool :=
  match input !! i with Some c => p c | None => false end.

Definition leave (s : ParseState) : ParseState + ParseState := inr s.
Definition goto (i part_i : nat) (r : ParseResult) : ParseState :=
  {| ps_i := i; ps_part := part_i; ps_res := r |}.

Definition is_WNone (w : Wildcard) : bool := match w with WNone => true | _ => false end.

Definition skip_dot (input : bytes) (i : nat) (p : bool) : nat :=
  if char_at (fun c => (c =? "."%u8) && p) input i then S i else i.

(** The tail [&input[i..]] handed to the tag parser. *)
Definition tail_from (ss : SlicedString) (i : nat) : SlicedString :=
  sub ss (subslice (ss_slice ss) i (length (s_bytes (ss_slice ss)))).

Section Parse.
Context (T : IntTy).

Definition parse_version_number (input : bytes) : option Z := parse_ascii T input.

(** One arm of the match on [input[i]]. *)
Definition parse_digits_arm (input : bytes) (s : ParseState) : ParseState + ParseState :=
  let r := ps_res s in
  let i := skip_while is_ascii_digit input (S (ps_i s)) in
  if (ps_part s <? 3)%nat then
    let number := parse_version_number (take (i - ps_i s) (drop (ps_i s) input)) in
    let r' := match number with None => set_valid r false | Some _ => r end in
    if negb (bool_decide (is_Some number)) && is_WNone (wildcard r)
    then leave (goto i (ps_part s) (set_overflow r'))
    else
      let part_i := S (ps_part s) in
      let r' := set_version r' (set_part (version r') (ps_part s) number) in
      inl (goto (skip_dot input i (negb (part_i =? 3)%nat)) part_i r')
  else inl (goto (skip_dot input i (negb (ps_part s =? 3)%nat)) (ps_part s) r).

Definition parse_tag_arm (ss : SlicedString) (c : Z) (s : ParseState)
  : ParseState + ParseState :=
  let r := ps_res s in
  let fewest_parts := if c =? "+"%u8 then 1%nat else 2%nat in
  if (ps_part s <? fewest_parts)%nat && is_WNone (wildcard r)
  then leave (goto (ps_i s) (ps_part s) (set_valid r false))
  else
    let tag_result := tag_parse (tail_from ss (ps_i s)) in
    leave (goto (ps_i s + tr_len tag_result) (ps_part s)
             (set_version r (set_ptag (version r) (tr_tag tag_result)))).

Definition parse_wildcard_arm (input : bytes) (s : ParseState) : ParseState + ParseState :=
  let r := if (0 <? ps_i s)%nat && char_at is_ascii_digit input (ps_i s - 1)
           then set_valid (ps_res s) false else ps_res s in
  let i := skip_while (one_of (bstr "x*X")) input (S (ps_i s)) in
  let i := skip_dot input i true in
  let '(r, part_i) :=
    if is_WNone (wildcard r) then
      match ps_part s with
      | 0%nat => (set_wildcard r WMajor, 1%nat)
      | 1%nat => (set_wildcard r WMinor, 2%nat)
      | 2%nat => (set_wildcard r WPatch, 3%nat)
      | p => (r, p)
      end
    else (r, ps_part s) in
  inl (goto i part_i r).

Definition parse_other_arm (ss : SlicedString) (c : Z) (s : ParseState)
  : ParseState + ParseState :=
  let r := ps_res s in
  if is_WNone (wildcard r) && (2 <=? ps_part s)%nat && is_ascii_alphabetic c then
    let tag_result := tag_parse_with_pre_count (tail_from ss (ps_i s)) 1 in
    leave (goto (ps_i s + tr_len tag_result) (ps_part s)
             (set_version r (set_ptag (version r) (tr_tag tag_result))))
  else leave (goto (ps_i s) (ps_part s) (set_valid r false)).

Definition parse_step (ss : SlicedString) (s : ParseState) : ParseState + ParseState :=
  let input := s_bytes (ss_slice ss) in
  match input !! ps_i s with
  | None => leave s
  | Some c =>
      if c =? " "%u8 then leave s
      else if one_of (bstr "|^#&%!") c
      then leave (goto (ps_i s - 1) (ps_part s) (ps_res s))
      else if in_range "0"%u8 "9"%u8 c then parse_digits_arm input s
      else if c =? "."%u8 then leave (goto (ps_i s) (ps_part s) (set_valid (ps_res s) false))
      else if one_of (bstr "-+") c then parse_tag_arm ss c s
      else if one_of (bstr "x*X") c then parse_wildcard_arm input s
      else parse_other_arm ss c s
  end.

(** After the loop: the wildcard of the missing parts, then
    [u32::try_from(i).expect("int cast")]. *)
Definition parse_finish (s : ParseState) : option ParseResult :=
  let r := ps_res s in
  let r :=
    if is_WNone (wildcard r) then
      match ps_part s with
      | 0%nat => set_wildcard (set_valid r false) WMajor
      | 1%nat => set_wildcard r WMinor
      | 2%nat => set_wildcard r WPatch
      | _ => r
      end
    else r in
  if Z.of_nat (ps_i s) <=? u32_max then Some (set_len r (ps_i s)) else None.

Definition parse_prefix (c : Z) : bool := one_of (WHITESPACE_CHARS ++ bstr "v=") c.

Definition parse (ss : SlicedString) : option ParseResult :=
  let input := s_bytes (ss_slice ss) in
  let result := ParseResult_default in
  if (length input =? 0)%nat then Some (set_valid result false)
  else
    let i := skip_while parse_prefix input 0 in
    if (i =? length input)%nat then
      (if Z.of_nat i <=? u32_max
       then Some (set_len (set_wildcard (set_valid result false) WMajor) i) else None)
    else
      s ← run_loop (S (length input)) (parse_step ss) (goto i 0 result);
      parse_finish s.

Definition parse_utf8 (slice_ : bytes) : option ParseResult := parse (sliced_init slice_).

(** [strings::trim] as a sub-slice. *)
Definition trim_slice (s : slice) : slice :=
  let at_ := skip_while (one_of WHITESPACE_CHARS) (s_bytes s) 0 in
  {| s_at := s_at s + at_; s_bytes := trim (s_bytes s) WHITESPACE_CHARS |}.

Definition parse_exact (ss : SlicedString) : option (option Version) :=
  let trimmed := trim_slice (ss_slice ss) in
  parsed ← parse (sub ss trimmed);
  Some (if valid parsed && is_WNone (wildcard parsed)
           && (pr_len parsed =? length (s_bytes trimmed))%nat
        then Some (pmin (version parsed)) else None).
End Parse.

(** ** coerce *)
Definition LONGEST : nat := 16.
Definition MAX_SAFE_INTEGER : Z := 2 ^ 53 - 1.

Definition digits (text : bytes) : nat := count_while is_ascii_digit text.

Definition coerce_part (text : bytes) : option (bytes * bytes) :=
  match text with
  | c :: text =>
      if c =? "."%u8 then
        let length := digits text in
        if (1 <=? length)%nat && (length <=? LONGEST)%nat
        then Some (take length text, drop length text) else None
      else None
  | [] => None
  end.

Definition coerce_number (ds : bytes) : option Z :=
  match ds with
  | d :: _ :: _ =>
      if d =? "0"%u8 then None
      else n ← parse_ascii u64_ty ds; if n <=? MAX_SAFE_INTEGER then Some n else None
  | _ => n ← parse_ascii u64_ty ds; if n <=? MAX_SAFE_INTEGER then Some n else None
  end.

Definition coerce_step (rest : bytes) : bytes + option Version :=
  let start := count_while (fun c => negb (is_ascii_digit c)) rest in
  let from := drop start rest in
  let n := digits from in
  let major := take n from in
  let after := drop n from in
  if (length major =? 0)%nat then inr None
  else if (LONGEST <? length major)%nat then inl after
  else
    let minor := coerce_part after in
    let patch := it ← minor; coerce_part it.2 in
    inr (
      major ← coerce_number major;
      minor ← match minor with None => Some 0 | Some it => coerce_number it.1 end;
      patch ← match patch with None => Some 0 | Some it => coerce_number it.1 end;
      Some {| major := major; minor := minor; patch := patch; tag := Tag_default |}).

Definition coerce (text : bytes) : option Version :=
  default None (run_loop (S (length text)) coerce_step text).

(** ** which_version_is_pinned *)
Inductive PinnedVersion := PinMajor | PinMinor | PinPatch.
#[export] Instance PinnedVersion_eq_dec : EqDecision PinnedVersion.
Proof. solve_decision. Defined.

(** [matches!(c, b'-' | b'+' | b'.' | letters | digits)] *)
Definition valid_pre_or_build_tag_character (c : Z) : bool :=
  one_of (bstr "-+.") c || in_range "A"%u8 "Z"%u8 c || in_range "a"%u8 "z"%u8 c
  || in_range "0"%u8 "9"%u8 c.

(** The labelled block ['pinned]: the kind of pin and where the number starts, or
    [None] for the early [return PinnedVersion::Major]s. *)
Definition pinned_prefix (version : bytes) : option (PinnedVersion * nat) :=
  let j := skip_while (one_of (WHITESPACE_CHARS ++ bstr "v=")) version 0 in
  match version !! j with
  | None => None
  | Some c =>
      if one_of (bstr "~^") c then
        let k := skip_while (one_of WHITESPACE_CHARS) version (S j) in
        if (k <? length version)%nat
        then Some (if c =? "~"%u8 then PinMinor else PinMajor, k) else None
      else if in_range "0"%u8 "9"%u8 c then Some (PinPatch, j)
      else None
  end.

(** One core number: at least one digit at [i]; then where the run ends and the
    byte there, or [inl] when the input ends. *)
Definition pinned_number (version : bytes) (i : nat) : option (unit + nat * Z) :=
  if char_at is_ascii_digit version i then
    let i := skip_while is_ascii_digit version i in
    match version !! i with
    | None => Some (inl ())
    | Some d => Some (inr (i, d))
    end
  else None.

Definition pinned_or (pinned missing : PinnedVersion) : PinnedVersion :=
  if bool_decide (pinned = PinPatch) then missing else pinned.

(** What may follow the patch number. *)
Definition pinned_tag (version : bytes) (i : nat) (d : Z) (pinned : PinnedVersion)
  : PinnedVersion :=
  if negb (valid_pre_or_build_tag_character d) || is_ascii_whitespace d then PinMajor
  else
    let i := skip_while
      (fun d => valid_pre_or_build_tag_character d && negb (is_ascii_whitespace d))
      version (S i) in
    if (length version <=? i)%nat then pinned else PinMajor.

Definition which_version_is_pinned (input : bytes) : PinnedVersion :=
  let version := trim input WHITESPACE_CHARS in
  match pinned_prefix version with
  | None => PinMajor
  | Some (pinned, i) =>
      match pinned_number version i with
      | None => PinMajor
      | Some (inl _) => pinned_or pinned PinMajor
      | Some (inr (i, d)) =>
          if negb (d =? "."%u8) then PinMajor
          else match pinned_number version (S i) with
               | None => PinMajor
               | Some (inl _) => pinned_or pinned PinMinor
               | Some (inr (i, d)) =>
                   if negb (d =? "."%u8) then PinMajor
                   else match pinned_number version (S i) with
                        | None => PinMajor
                        | Some (inl _) => pinned
                        | Some (inr (i, d)) => pinned_tag version i d pinned
                        end
               end
      end
  end.

Definition is_tagged_version_only (input : bytes) : bool :=
  let version := trim input WHITESPACE_CHARS in
  match version with
  | [] => false
  | c :: rest => is_ascii_alphabetic c && forallb is_ascii_alphanumeric rest
  end.


(** ** Facts: orders *)

(** Semver precedence of two identifiers of a prerelease: numeric ones first, by
    value, then the others, bytewise. *)
Definition is_numeric (part : bytes) : bool := bool_decide (is_Some (parse_ascii u64_ty part)).
Definition cmp_ident : bytes -> bytes -> comparison :=
  cmp_split is_numeric (cmp_on (fun p => default 0 (parse_ascii u64_ty p)) Z.compare) order.

(** ... and of two prereleases: identifier by identifier, a prefix being less. *)
Definition cmp_prerelease : bytes -> bytes -> comparison :=
  cmp_on (fun s => fields s "."%u8) (cmp_list cmp_ident).

#[export] Instance order_laws : CmpLaws order.
Proof. unfold order. apply _. Qed.
#[export] Instance cmp_ident_laws : CmpLaws cmp_ident.
Proof. unfold cmp_ident. apply _. Qed.
#[export] Instance cmp_prerelease_laws : CmpLaws cmp_prerelease.
Proof. unfold cmp_prerelease. apply _. Qed.

Lemma cmp_ident_eq f1 f2 :
  cmp_ident f1 f2 =
  match parse_ascii u64_ty f1, parse_ascii u64_ty f2 with
  | Some l, Some r => l ?= r
  | Some _, None => Lt
  | None, Some _ => Gt
  | None, None => order f1 f2
  end.
Proof.
  unfold cmp_ident, cmp_split, cmp_on, is_numeric.
  by destruct (parse_ascii u64_ty f1), (parse_ascii u64_ty f2).
Qed.

Lemma order_pre_loop_fields fuel it1 it2 :
  sp_ok it1 -> sp_ok it2 -> (length (sp_fields it1) < fuel)%nat ->
  order_pre_loop fuel it1 it2 = cmp_list cmp_ident (sp_fields it1) (sp_fields it2).
Proof.
  revert it1 it2. induction fuel as [|fuel IH]; intros it1 it2 H1 H2 Hf; [lia|].
  cbn [order_pre_loop]. pose proof (split_next_fields it1 H1) as N1.
  pose proof (split_next_fields it2 H2) as N2.
  destruct (sp_fields it1) as [|f1 fs1], (sp_fields it2) as [|f2 fs2].
  - by rewrite N1, N2.
  - destruct N2 as (it2' & -> & _ & _). by rewrite N1.
  - destruct N1 as (it1' & -> & _ & _). by rewrite N2.
  - destruct N1 as (it1' & -> & O1 & E1), N2 as (it2' & -> & O2 & E2). cbn [cmp_list].
    cbn [length] in Hf. rewrite (IH it1' it2'), E1, E2 by (done || rewrite E1; lia).
    rewrite cmp_ident_eq. by destruct (parse_ascii u64_ty f1), (parse_ascii u64_ty f2).
Qed.

Lemma order_pre_prerelease t rhs b1 b2 :
  order_pre t rhs b1 b2 = cmp_prerelease (ext_slice (pre t) b1) (ext_slice (pre rhs) b2).
Proof.
  unfold order_pre, cmp_prerelease, cmp_on. rewrite order_pre_loop_fields.
  - unfold sp_fields, split. cbn [sp_index sp_buffer sp_delimiter]. by rewrite !drop_0.
  - unfold sp_ok, split. cbn. lia.
  - unfold sp_ok, split. cbn. lia.
  - unfold sp_fields, split. cbn [sp_index sp_buffer sp_delimiter]. rewrite drop_0.
    pose proof (length_fields (ext_slice (pre t) b1) "."%u8). lia.
Qed.

(** A version with the buffer its strings live in. *)
Abbreviation located := (Version * bytes)%type.
Definition lpre (x : located) : bytes := ext_slice (pre (tag x.1)) x.2.
Definition lbuild (x : located) : bytes := ext_slice (build (tag x.1)) x.2.
Definition lhas_pre (x : located) : bool := has_pre (tag x.1).

(** Semver precedence: the numbers, then prereleases before the release, then the
    prerelease identifiers; [cmp_release] compares two releases. *)
Definition cmp_precedence (cmp_release : located -> located -> comparison)
  : located -> located -> comparison :=
  cmp_then (cmp_on (fun x => major x.1) Z.compare)
  (cmp_then (cmp_on (fun x => minor x.1) Z.compare)
  (cmp_then (cmp_on (fun x => patch x.1) Z.compare)
  (cmp_split lhas_pre (cmp_on lpre cmp_prerelease)
     (cmp_then (cmp_on lpre order) cmp_release)))).

Lemma ltb_compare a b : (a <? b) = match a ?= b with Lt => true | _ => false end.
Proof. done. Qed.

Lemma version_order_cases cmp_tag v w :
  match order_without_tag v w with Eq => cmp_tag | c => c end =
  match major v ?= major w with
  | Eq => match minor v ?= minor w with
          | Eq => match patch v ?= patch w with
                  | Eq => match has_pre (tag v), has_pre (tag w) with
                          | true, false => Lt | false, true => Gt | _, _ => cmp_tag end
                  | c => c end
          | c => c end
  | c => c end.
Proof.
  unfold order_without_tag. rewrite !ltb_compare.
  rewrite (Z.compare_antisym (major v) (major w)), (Z.compare_antisym (minor v) (minor w)),
    (Z.compare_antisym (patch v) (patch w)).
  destruct (major v ?= major w), (minor v ?= minor w), (patch v ?= patch w);
    cbn [CompOpp]; try done; by destruct (has_pre (tag v)), (has_pre (tag w)).
Qed.

Lemma version_order_precedence v w b1 b2 :
  version_order v w b1 b2 = cmp_precedence (cmp_on lbuild order) (v, b1) (w, b2).
Proof.
  unfold version_order, cmp_precedence, cmp_then, cmp_on, cmp_split, lhas_pre. cbn [fst snd].
  rewrite version_order_cases. unfold tag_order. rewrite order_pre_prerelease.
  destruct (major v ?= major w), (minor v ?= minor w), (patch v ?= patch w); try done.
  unfold has_pre, lpre, lbuild. cbn [fst snd].
  by destruct (ext_is_empty (pre (tag v))), (ext_is_empty (pre (tag w))).
Qed.

Lemma order_without_build_precedence v w b1 b2 :
  order_without_build v w b1 b2 = cmp_precedence (fun _ _ => Eq) (v, b1) (w, b2).
Proof.
  unfold order_without_build, cmp_precedence, cmp_then, cmp_on, cmp_split, lhas_pre. cbn [fst snd].
  rewrite version_order_cases. unfold tag_order_without_build. rewrite order_pre_prerelease.
  destruct (major v ?= major w), (minor v ?= minor w), (patch v ?= patch w); try done.
  unfold has_pre, lpre. cbn [fst snd].
  destruct (ext_is_empty (pre (tag v))), (ext_is_empty (pre (tag w))); try done.
  unfold ext_order, str_order, ext_slice. cbn. by destruct (order _ _).
Qed.

#[export] Instance cmp_const_laws {A} : CmpLaws (fun _ _ : A => Eq).
Proof. by split. Qed.
#[export] Instance cmp_precedence_laws c `{!CmpLaws c} : CmpLaws (cmp_precedence c).
Proof. unfold cmp_precedence. apply _. Qed.

(** The laws the range code sorts and compares with. *)
Lemma order_without_build_laws :
  CmpLaws (fun x y : located => order_without_build x.1 y.1 x.2 y.2).
Proof.
  apply (cmp_laws_ext _ (cmp_precedence (fun _ _ => Eq))); [|apply _].
  intros [] []. apply order_without_build_precedence.
Qed.

(** [Version::order] is a total preorder on versions, wherever their tags are
    stored: reversing the arguments reverses the result and "not greater" is
    transitive, through the identifier loop over the two split iterators. *)
Theorem version_order_laws :
  CmpLaws (fun x y : located => version_order x.1 y.1 x.2 y.2).
Proof.
  apply (cmp_laws_ext _ (cmp_precedence (cmp_on lbuild order))); [|apply _].
  intros [] []. apply version_order_precedence.
Qed.

(** The two comparisons of a number: equal, or both sides are decided. *)
Ltac Z_case a b :=
  destruct (Z.compare_spec a b), (Z.eqb_spec a b); try lia; cbn [negb];
  [|split; [discriminate|by intros [? _]]..].

(** The handles of a tag as memory has them. *)
Definition wf_tag (t : Tag) : Prop := wf (value (pre t)) /\ wf (value (build t)).

#[export] Instance wf_tag_dec t : Decision (wf_tag t).
Proof. unfold wf_tag. apply _. Defined.

Lemma no_pre_slice t buf : wf_tag t -> has_pre t = false -> ext_slice (pre t) buf = [].
Proof.
  intros [Hwf _] H. apply is_empty_slice; [done|]. unfold has_pre in H.
  by apply negb_false_iff in H.
Qed.

Lemma no_build_slice t buf : wf_tag t -> has_build t = false -> ext_slice (build t) buf = [].
Proof.
  intros [_ Hwf] H. apply is_empty_slice; [done|]. unfold has_build in H.
  by apply negb_false_iff in H.
Qed.

(** [which_version_is_different] finds no difference exactly when the
    versions are equal in [order_without_build] and, for prereleases, have the
    same build metadata; between releases, build metadata is never reported. *)
Theorem which_version_is_different_None v w b1 b2 :
  wf_tag (tag v) -> wf_tag (tag w) ->
  which_version_is_different v w b1 b2 = None <->
  order_without_build v w b1 b2 = Eq
  /\ (has_pre (tag v) = true ->
      has_build (tag v) = has_build (tag w)
      /\ (has_build (tag v) = true -> lbuild (v, b1) = lbuild (w, b2))).
Proof.
  intros Wv Ww. rewrite order_without_build_precedence. unfold which_version_is_different.
  unfold cmp_precedence, cmp_then, cmp_on, cmp_split, lhas_pre. cbn [fst snd].
  rewrite order_pre_prerelease.
  Z_case (major v) (major w). Z_case (minor v) (minor w). Z_case (patch v) (patch w).
  unfold lpre, lbuild, ext_order, str_order. cbn [fst snd negb].
  fold (ext_slice (build (tag v)) b1) (ext_slice (build (tag w)) b2).
  destruct (has_pre (tag v)) eqn:Pv, (has_pre (tag w)) eqn:Pw; cbn [Bool.eqb negb andb]; try (by intuition discriminate).
  - destruct (cmp_prerelease _ _); cbn [is_equal negb]; [|by intuition discriminate..].
    pose proof (cmp_list_eq (ext_slice (build (tag v)) b1) (ext_slice (build (tag w)) b2)) as Hl.
    change (cmp_list Z.compare) with order in Hl.
    destruct (has_build (tag v)), (has_build (tag w)); cbn [Bool.eqb negb andb];
      try (by intuition discriminate).
    destruct (order _ _); cbn [is_equal negb]; intuition (try discriminate; auto).
  - rewrite !no_pre_slice by done. done.
Qed.

Lemma which_version_is_different_None_witness :
  let v := {| major := 1; minor := 2; patch := 3; tag := ZERO_PRE |} in
  which_version_is_different v v [] [] = None <->
  order_without_build v v [] [] = Eq
  /\ (has_pre (tag v) = true ->
      has_build (tag v) = has_build (tag v)
      /\ (has_build (tag v) = true -> lbuild (v, []) = lbuild (v, []))).
Proof. intros v. apply (which_version_is_different_None v v [] []); decide_now. Defined.

(** ** Facts: the parser *)

(** The two instances of [VersionInt]. *)
Class VersionInt (T : IntTy) : Prop := {
  vi_min : int_min T = 0;
  vi_max : 0 <= int_max T <= u64_max;
}.
#[export] Instance VersionInt_u64 : VersionInt u64_ty.
Proof. split; cbn; lia. Qed.
#[export] Instance VersionInt_u32 : VersionInt u32_ty.
Proof. split; cbn; lia. Qed.

Lemma parse_ascii_range T `{!VersionInt T} s n : parse_ascii T s = Some n -> 0 <= n <= int_max T.
Proof.
  unfold parse_ascii, parse_unsigned. destruct (auto_radix s 10) as [ds radix].
  destruct (parse_with_sign ds radix) as [acc|e]; [|done]. cbn [rbind]. unfold int_try_from.
  rewrite vi_min. destruct (Z.leb_spec 0 acc), (Z.leb_spec acc (int_max T)); cbn [andb rok];
    (done || intros [= <-]; lia).
Qed.

Lemma char_at_lt p input i : char_at p input i = true -> (i < length input)%nat.
Proof. unfold char_at. destruct (input !! i) eqn:E; [|done]. intros _. by apply lookup_lt_Some in E. Qed.

Lemma skip_dot_range input i p :
  (i <= length input)%nat -> (i <= skip_dot input i p <= length input)%nat.
Proof.
  intros H. unfold skip_dot. destruct (char_at _ input i) eqn:E; [|lia].
  apply char_at_lt in E. lia.
Qed.

Lemma tag_loop_le ss n rest i st start t st' start' i' t' :
  tag_loop ss n rest i st start t = (st', start', i', t') -> (i <= i' <= i + length rest)%nat.
Proof.
  revert i st start t. induction rest as [|c rest IH]; intros i st start t; cbn [tag_loop length].
  { intros [= _ _ <- _]. lia. }
  destruct (c =? "+"%u8).
  { destruct (negb (is_SBuild st)); intros H%IH; lia. }
  destruct (c =? "-"%u8).
  { destruct (is_SNone st); intros H%IH; lia. }
  destruct (is_tag_char c); [intros H%IH; lia|].
  destruct st; intros [= _ _ <- _]; lia.
Qed.

Lemma tag_parse_len_le ss n :
  (tr_len (tag_parse_with_pre_count ss n) <= length (s_bytes (ss_slice ss)))%nat.
Proof.
  unfold tag_parse_with_pre_count. destruct (tag_counts _ 0 n) as [bc pc].
  destruct ((bc =? 0) && (pc =? 0)); cbn [tr_len]; [lia|].
  destruct (tag_loop ss n _ 0 SNone 0 Tag_default) as [[[st start] i] t] eqn:E.
  apply tag_loop_le in E.
  assert (as_u32 i <= i)%nat.
  { unfold as_u32, wrap32. pose proof (Z.mod_le (Z.of_nat i) 4294967296 ltac:(lia) ltac:(lia)). lia. }
  destruct (is_SNone st && (0 <? n)); destruct st; cbn [tr_len]; lia.
Qed.

(** What every run of the parser keeps: the position stays in the input and the
    numbers fit [T]. *)
Definition num_ok (T : IntTy) (n : option Z) : Prop :=
  match n with Some n => 0 <= n <= int_max T | None => True end.
Definition partial_ok (T : IntTy) (p : Partial) : Prop :=
  num_ok T (pmajor p) /\ num_ok T (pminor p) /\ num_ok T (ppatch p).

#[export] Instance num_ok_dec T n : Decision (num_ok T n).
Proof. destruct n; cbn; apply _. Defined.
#[export] Instance partial_ok_dec T p : Decision (partial_ok T p).
Proof. unfold partial_ok. apply _. Defined.

Definition parse_inv (T : IntTy) (input : bytes) (s : ParseState) : Prop :=
  (ps_i s <= length input)%nat /\ (ps_part s <= 3)%nat /\ partial_ok T (version (ps_res s)).

Section ParseFacts.
Context (T : IntTy) `{!VersionInt T} (ss : SlicedString).
Local Abbreviation input := (s_bytes (ss_slice ss)).

Definition step_ok (s : ParseState) (out : ParseState + ParseState) : Prop :=
  match out with
  | inl s' => parse_inv T input s' /\ (length input - ps_i s' < length input - ps_i s)%nat
  | inr s' => parse_inv T input s'
  end.

Lemma parse_inv_goto i p r :
  (i <= length input)%nat -> (p <= 3)%nat -> partial_ok T (version r) ->
  parse_inv T input (goto i p r).
Proof. by split. Qed.

Lemma set_part_ok p i n : partial_ok T p -> num_ok T n -> partial_ok T (set_part p i n).
Proof. intros (H1 & H2 & H3) Hn. destruct i as [|[|i]]; by split_and!. Qed.

Lemma parse_digits_arm_ok s :
  parse_inv T input s -> (ps_i s < length input)%nat -> step_ok s (parse_digits_arm T input s).
Proof.
  intros (Hi & Hp & Hv) Hlt. unfold parse_digits_arm.
  set (j := skip_while is_ascii_digit input (S (ps_i s))).
  assert (Hj : (ps_i s < j <= length input)%nat).
  { pose proof (skip_while_le is_ascii_digit input (S (ps_i s)) ltac:(lia)).
    pose proof (skip_while_ge is_ascii_digit input (S (ps_i s))). unfold j. lia. }
  assert (Hnum : num_ok T (parse_version_number T (take (j - ps_i s) (drop (ps_i s) input)))).
  { destruct (parse_version_number _ _) eqn:E; [|done]. by eapply parse_ascii_range. }
  destruct (Nat.ltb_spec (ps_part s) 3).
  - destruct (negb _ && is_WNone _); cbn [step_ok leave].
    + apply parse_inv_goto; [lia|lia|]. by destruct (parse_version_number _ _).
    + pose proof (skip_dot_range input j (negb (S (ps_part s) =? 3)%nat) ltac:(lia)).
      split; [|cbn [goto ps_i]; lia]. apply parse_inv_goto; [lia|lia|].
      unfold set_version. cbn [version]. apply set_part_ok; [|done].
      by destruct (parse_version_number _ _).
  - pose proof (skip_dot_range input j (negb (ps_part s =? 3)%nat) ltac:(lia)).
    split; [apply parse_inv_goto; [lia|lia|done]|cbn [goto ps_i]; lia].
Qed.

Lemma parse_wildcard_arm_ok s :
  parse_inv T input s -> (ps_i s < length input)%nat -> step_ok s (parse_wildcard_arm input s).
Proof.
  intros (Hi & Hp & Hv) Hlt. unfold parse_wildcard_arm.
  set (r := if _ : bool then set_valid (ps_res s) false else ps_res s).
  assert (Hr : partial_ok T (version r)) by (unfold r; by destruct (_ && _)).
  set (j := skip_while (one_of (bstr "x*X")) input (S (ps_i s))).
  assert (Hj : (ps_i s < j <= length input)%nat).
  { pose proof (skip_while_le (one_of (bstr "x*X")) input (S (ps_i s)) ltac:(lia)).
    pose proof (skip_while_ge (one_of (bstr "x*X")) input (S (ps_i s))). unfold j. lia. }
  pose proof (skip_dot_range input j true ltac:(lia)).
  destruct (is_WNone (wildcard r)); [destruct (ps_part s) as [|[|[|p]]] eqn:E|];
    (split; [apply parse_inv_goto; [lia|lia|done]|cbn [goto ps_i]; lia]).
Qed.

Lemma tail_from_length i : length (s_bytes (ss_slice (tail_from ss i))) = (length input - i)%nat.
Proof.
  unfold tail_from, sub, subslice. cbn [ss_slice s_bytes].
  rewrite take_ge by (rewrite length_drop; lia). apply length_drop.
Qed.

Lemma parse_step_ok s : parse_inv T input s -> step_ok s (parse_step T ss s).
Proof.
  intros Hinv. pose proof Hinv as (Hi & Hp & Hv). unfold parse_step.
  destruct (input !! ps_i s) as [c|] eqn:Ec; [|done]. apply lookup_lt_Some in Ec.
  assert (Htag : forall n, (ps_i s + tr_len (tag_parse_with_pre_count (tail_from ss (ps_i s)) n)
                            <= length input)%nat).
  { intros n. pose proof (tag_parse_len_le (tail_from ss (ps_i s)) n) as H.
    rewrite tail_from_length in H. lia. }
  repeat case_match; try done.
  - apply parse_inv_goto; [lia|done|done].
  - by apply parse_digits_arm_ok.
  - unfold parse_tag_arm, tag_parse. case_match; [done|].
    apply parse_inv_goto; [apply Htag|done|done].
  - by apply parse_wildcard_arm_ok.
  - unfold parse_other_arm. case_match; [|done].
    apply parse_inv_goto; [apply Htag|done|done].
Qed.

Lemma parse_loop_ok s :
  parse_inv T input s ->
  exists s', run_loop (S (length input)) (parse_step T ss) s = Some s' /\ parse_inv T input s'.
Proof.
  intros Hs. apply (run_loop_rule _ (parse_inv T input) _ (fun s => length input - ps_i s)%nat);
    [|done|lia].
  intros s' Hs'. apply parse_step_ok in Hs'. unfold step_ok in Hs'.
  by destruct (parse_step T ss s').
Qed.

Lemma parse_ok :
  Z.of_nat (length input) <= u32_max ->
  exists r, parse T ss = Some r /\ (pr_len r <= length input)%nat /\ partial_ok T (version r).
Proof.
  intros Hu. unfold parse. destruct (Nat.eqb_spec (length input) 0).
  { eexists. split; [done|]. cbn. split; [lia|done]. }
  pose proof (skip_while_le parse_prefix input 0 ltac:(lia)) as Hsk.
  destruct (Nat.eqb_spec (skip_while parse_prefix input 0) (length input)) as [He|].
  { rewrite He. destruct (Z.leb_spec (Z.of_nat (length input)) u32_max); [|lia].
    eexists. split; [done|]. cbn. split; [lia|done]. }
  destruct (parse_loop_ok (goto (skip_while parse_prefix input 0) 0 ParseResult_default))
    as (s & -> & Hi & Hp & Hv).
  { split; cbn; [done|]. split; [lia|done]. }
  cbn [mbind option_bind]. unfold parse_finish.
  destruct (Z.leb_spec (Z.of_nat (ps_i s)) u32_max); [|lia].
  eexists. split; [done|]. cbn [set_len pr_len version]. split; [done|].
  repeat case_match; done.
Qed.
End ParseFacts.

(**  [Version::parse] returns on every input below 4 GiB, without panicking:
    the loop ends, the length it reports lies in the input, and every number it
    returns fits the integer type. *)
Theorem parse_total T `{!VersionInt T} ss :
  Z.of_nat (length (s_bytes (ss_slice ss))) <= u32_max ->
  exists r, parse T ss = Some r /\ (pr_len r <= length (s_bytes (ss_slice ss)))%nat
    /\ partial_ok T (version r).
Proof. apply (parse_ok T ss). Qed.

Lemma parse_total_witness :
  let ss := sliced_init (bstr "1.x.99999999999999999999-a") in
  exists r, parse u64_ty ss = Some r /\ (pr_len r <= length (s_bytes (ss_slice ss)))%nat
    /\ partial_ok u64_ty (version r).
Proof. intros ss. apply (parse_total u64_ty ss). vm_compute. discriminate. Defined.

(** ** Facts: printing and parsing back *)
Definition pre_char (c : Z) : bool := is_tag_char c || (c =? "-"%u8).
Definition build_char (c : Z) : bool := pre_char c || (c =? "+"%u8).

Lemma tag_loop_pre ss n xs rest i start t :
  Forall (fun c => pre_char c = true) xs ->
  tag_loop ss n (xs ++ rest) i SPre start t = tag_loop ss n rest (i + length xs) SPre start t.
Proof.
  intros H. revert i. induction H as [|c xs Hc _ IH]; intros i; cbn [app tag_loop length].
  { by rewrite Nat.add_0_r. }
  rewrite IH, Nat.add_succ_comm. unfold pre_char in Hc.
  destruct (Z.eqb_spec c "+"%u8) as [->|]; [done|].
  destruct (c =? "-"%u8); [done|]. rewrite orb_false_r in Hc. by rewrite Hc.
Qed.

Lemma tag_loop_build ss n xs rest i start t :
  Forall (fun c => build_char c = true) xs ->
  tag_loop ss n (xs ++ rest) i SBuild start t = tag_loop ss n rest (i + length xs) SBuild start t.
Proof.
  intros H. revert i. induction H as [|c xs Hc _ IH]; intros i; cbn [app tag_loop length].
  { by rewrite Nat.add_0_r. }
  rewrite !IH, Nat.add_succ_comm. unfold build_char, pre_char in Hc.
  destruct (c =? "+"%u8); [done|]. destruct (c =? "-"%u8); [done|].
  rewrite !orb_false_r in Hc. by rewrite Hc.
Qed.

Lemma tag_counts_ge input b p :
  0 <= b -> 0 <= p -> b + p + Z.of_nat (length input) <= u32_max ->
  b <= (tag_counts input b p).1 /\ p <= (tag_counts input b p).2.
Proof.
  revert b p. induction input as [|c input IH]; intros b p Hb Hp Hl; cbn [tag_counts]; [done|].
  cbn [length] in Hl. unfold wrap32. rewrite !Z.mod_small by lia.
  destruct (c =? " "%u8); [done|].
  destruct (c =? "+"%u8); [specialize (IH (b + 1) p); lia|].
  destruct (c =? "-"%u8); [specialize (IH b (p + 1)); lia|]. specialize (IH b p). lia.
Qed.

(** The text of a tag. *)
Definition tag_text (pre_ build_ : option bytes) : bytes :=
  match pre_ with Some s => "-"%u8 :: s | None => [] end
  ++ match build_ with Some s => "+"%u8 :: s | None => [] end.

Definition tag_of (ss : SlicedString) (pre_ build_ : option bytes) : Tag :=
  let k := match pre_ with Some s => S (length s) | None => 0%nat end in
  {| pre := match pre_ with Some s => external_sub ss 1 k | None => ext_default end;
     build := match build_ with
              | Some s => external_sub ss (S k) (S k + length s) | None => ext_default end |}.

Definition chars_ok (p : Z -> bool) (s : option bytes) : Prop :=
  match s with Some s => Forall (fun c => p c = true) s | None => True end.

#[export] Instance chars_ok_dec p s : Decision (chars_ok p s).
Proof. destruct s; cbn; apply _. Defined.

Lemma tag_counts_text pre_ build_ :
  Z.of_nat (length (tag_text pre_ build_)) <= u32_max -> tag_text pre_ build_ <> [] ->
  (((tag_counts (tag_text pre_ build_) 0 0).1 =? 0)
   && ((tag_counts (tag_text pre_ build_) 0 0).2 =? 0)) = false.
Proof.
  unfold tag_text. destruct pre_ as [s|]; [|destruct build_ as [s|]; [|done]];
    cbn [app length]; intros Hl _.
  - set (rest := s ++ _) in *. cbn [tag_counts]. change (wrap32 (0 + 1)) with 1. cbn [Z.eqb].
    destruct (tag_counts_ge rest 0 1 ltac:(lia) ltac:(lia) ltac:(lia)).
    apply andb_false_intro2, Z.eqb_neq. cbn. lia.
  - cbn [tag_counts]. change (wrap32 (0 + 1)) with 1. cbn [Z.eqb].
    destruct (tag_counts_ge s 1 0 ltac:(lia) ltac:(lia) ltac:(lia)).
    apply andb_false_intro1, Z.eqb_neq. cbn. lia.
Qed.

Lemma tag_parse_text ss pre_ build_ :
  s_bytes (ss_slice ss) = tag_text pre_ build_ -> tag_text pre_ build_ <> [] ->
  Z.of_nat (length (tag_text pre_ build_)) <= u32_max ->
  chars_ok pre_char pre_ -> chars_ok build_char build_ ->
  tag_parse ss = {| tr_tag := tag_of ss pre_ build_; tr_len := length (tag_text pre_ build_) |}.
Proof.
  intros Hs Hne Hl Hp Hb. unfold tag_parse, tag_parse_with_pre_count. rewrite Hs.
  pose proof (tag_counts_text pre_ build_ Hl Hne) as Hc.
  destruct (tag_counts _ 0 0) as [bc pc]. cbn [fst snd] in Hc. rewrite Hc.
  assert (Hend : as_u32 (length (tag_text pre_ build_)) = length (tag_text pre_ build_))
    by by apply as_u32_id.
  unfold tag_text in *. destruct pre_ as [s|], build_ as [b|]; cbn [app chars_ok] in *; [..|done].
  - cbn [tag_loop is_SNone]. cbn. rewrite tag_loop_pre by done. cbn [tag_loop is_SPre].
    rewrite <- (app_nil_r b) at 1. cbn. rewrite tag_loop_build by done. cbn.
    f_equal. etransitivity; [|exact Hend]. f_equal. cbn. rewrite length_app. cbn. lia.
  - rewrite app_nil_r in *. rewrite <- (app_nil_r s) at 1. cbn. rewrite tag_loop_pre by done. cbn.
    f_equal. exact Hend.
  - rewrite <- (app_nil_r b) at 1. cbn. rewrite tag_loop_build by done. cbn. f_equal. exact Hend.
Qed.

Definition not_digit_head (s : bytes) : Prop :=
  match s with [] => True | c :: _ => is_ascii_digit c = false end.

Section RoundTrip.
Context (T : IntTy) `{!VersionInt T} (ss : SlicedString).
Local Abbreviation input := (s_bytes (ss_slice ss)).

Lemma parse_ascii_digits ds :
  ds <> [] -> all_digits ds -> dec_value ds <= int_max T -> parse_ascii T ds = Some (dec_value ds).
Proof.
  intros Hne Hd Hm. pose proof (vi_max (T:=T)). unfold parse_ascii.
  rewrite parse_unsigned_digits by (done || rewrite ?vi_min; unfold u128_max; lia).
  destruct (Z.leb_spec (dec_value ds) (int_max T)); [done|lia].
Qed.

(** A core number. *)
Lemma parse_number_step s ds rest :
  drop (ps_i s) input = ds ++ rest -> ds <> [] -> all_digits ds -> not_digit_head rest ->
  dec_value ds <= int_max T -> (ps_part s < 3)%nat ->
  parse_step T ss s =
    inl (goto (skip_dot input (ps_i s + length ds) (negb (S (ps_part s) =? 3)%nat))
           (S (ps_part s))
           (set_version (ps_res s)
              (set_part (version (ps_res s)) (ps_part s) (Some (dec_value ds))))).
Proof.
  intros Hdrop Hne Hd Hr Hv Hp. destruct ds as [|d ds]; [done|].
  unfold parse_step. rewrite (lookup_of_drop _ _ d (ds ++ rest)) by done.
  pose proof (Forall_inv Hd) as Hdig. apply is_ascii_digit_iff in Hdig as Hrange.
  destruct (Z.eqb_spec d " "%u8) as [->|]; [lia|].
  assert (one_of (bstr "|^#&%!") d = false) as ->.
  { unfold one_of. cbn. rewrite !orb_false_iff. repeat split; try apply Z.eqb_neq; lia. }
  unfold is_ascii_digit in Hdig. rewrite Hdig. unfold parse_digits_arm.
  rewrite (skip_while_run _ input (S (ps_i s)) ds rest);
    [|by apply (drop_of_cons _ _ d)|by apply Forall_inv_tail in Hd|done].
  destruct (Nat.ltb_spec (ps_part s) 3); [|lia].
  replace (S (ps_i s) + length ds)%nat with (ps_i s + length (d :: ds))%nat by (cbn [length]; lia).
  replace (ps_i s + length (d :: ds) - ps_i s)%nat with (length (d :: ds)) by lia.
  rewrite Hdrop, take_app_length. unfold parse_version_number.
  rewrite parse_ascii_digits by done. done.
Qed.

Lemma skip_dot_at i rest p :
  drop i input = "."%u8 :: rest -> p = true -> skip_dot input i p = S i.
Proof. intros H ->. unfold skip_dot, char_at. by rewrite (lookup_of_drop _ _ _ _ H). Qed.

Lemma skip_dot_not i : skip_dot input i false = i.
Proof. unfold skip_dot, char_at. destruct (input !! i); [|done]. by rewrite andb_false_r. Qed.

(** After the three numbers: the end of the input, or a tag that takes the rest. *)
Lemma parse_tail_step i r pre_ build_ :
  drop i input = tag_text pre_ build_ -> Z.of_nat (length (tag_text pre_ build_)) <= u32_max ->
  chars_ok pre_char pre_ -> chars_ok build_char build_ ->
  loops (parse_step T ss) (goto i 3 r)
    (goto (i + length (tag_text pre_ build_)) 3
       (if bool_decide (tag_text pre_ build_ = []) then r
        else set_version r (set_ptag (version r) (tag_of (tail_from ss i) pre_ build_)))).
Proof.
  intros Hd Hl Hp Hb. apply loops_stop. unfold parse_step. cbn [goto ps_i ps_part ps_res].
  destruct (bool_decide_reflect (tag_text pre_ build_ = [])) as [He|Hne].
  { rewrite He in Hd |- *. rewrite lookup_of_drop_nil by done. cbn [length].
    by rewrite Nat.add_0_r. }
  assert (Htp : tag_parse (tail_from ss i)
    = {| tr_tag := tag_of (tail_from ss i) pre_ build_; tr_len := length (tag_text pre_ build_) |}).
  { apply tag_parse_text; try done. unfold tail_from, sub, subslice. cbn [ss_slice s_bytes].
    rewrite take_ge by (rewrite length_drop; lia). done. }
  assert (exists c, head (tag_text pre_ build_) = Some c /\ (c = 45 \/ c = 43)) as (c & Hc & Hcc).
  { unfold tag_text in *. destruct pre_; [eauto|]. destruct build_; [eauto|done]. }
  destruct (tag_text pre_ build_) as [|c' rest] eqn:Et; [done|]. injection Hc as ->.
  rewrite (lookup_of_drop _ _ _ _ Hd).
  destruct Hcc as [->| ->]; cbn; by rewrite Htp.
Qed.
End RoundTrip.

(** The strings of a version as [fmt] prints them. *)
Definition opt_pre (v : Version) (buf : bytes) : option bytes :=
  if has_pre (tag v) then Some (ext_slice (pre (tag v)) buf) else None.
Definition opt_build (v : Version) (buf : bytes) : option bytes :=
  if has_build (tag v) then Some (ext_slice (build (tag v)) buf) else None.

Definition nonempty (s : option bytes) : Prop := s <> Some [].

(** A version with valid semver identifiers, of a printable size. *)
Definition printable (T : IntTy) (v : Version) (buf : bytes) : Prop :=
  (0 <= major v <= int_max T /\ 0 <= minor v <= int_max T /\ 0 <= patch v <= int_max T)
  /\ (chars_ok pre_char (opt_pre v buf) /\ nonempty (opt_pre v buf))
  /\ (chars_ok build_char (opt_build v buf) /\ nonempty (opt_build v buf))
  /\ Z.of_nat (length (version_fmt v buf)) < 2147483648.

#[export] Instance printable_dec T v buf : Decision (printable T v buf).
Proof. unfold printable, nonempty. apply _. Defined.

Lemma version_fmt_text v buf :
  version_fmt v buf = show (major v) ++ "."%u8 :: show (minor v) ++ "."%u8 :: show (patch v)
                      ++ tag_text (opt_pre v buf) (opt_build v buf).
Proof.
  unfold version_fmt, tag_text, opt_pre, opt_build.
  by destruct (has_pre (tag v)), (has_build (tag v)).
Qed.

(** The partial result of a full version. *)
Definition full (v : Version) (t : Tag) : Partial :=
  {| pmajor := Some (major v); pminor := Some (minor v); ppatch := Some (patch v); ptag := t |}.

Lemma not_digit_tag pre_ build_ : not_digit_head (tag_text pre_ build_).
Proof. unfold tag_text. destruct pre_; [done|]. by destruct build_. Qed.

(** The position of the tag in the text of [v]. *)
Definition core_len (v : Version) : nat :=
  (length (show (major v)) + 1 + length (show (minor v)) + 1 + length (show (patch v)))%nat.

Definition parsed_tag (ss : SlicedString) (v : Version) (buf : bytes) : Tag :=
  tag_of (tail_from ss (core_len v)) (opt_pre v buf) (opt_build v buf).

(** A digit string of a core number. *)
Definition core_num (T : IntTy) (ds : bytes) : Prop :=
  ds <> [] /\ all_digits ds /\ dec_value ds <= int_max T.

(** The loop on the text of a version: three numbers, then the tag. *)
Lemma parse_loops_core T `{!VersionInt T} ss d1 d2 d3 tt r :
  core_num T d1 -> core_num T d2 -> core_num T d3 -> not_digit_head tt ->
  s_bytes (ss_slice ss) = d1 ++ "."%u8 :: d2 ++ "."%u8 :: d3 ++ tt ->
  loops (parse_step T ss)
    (goto (length d1 + 1 + length d2 + 1 + length d3) 3
       (set_version ParseResult_default
          {| pmajor := Some (dec_value d1); pminor := Some (dec_value d2);
             ppatch := Some (dec_value d3); ptag := Tag_default |})) r ->
  loops (parse_step T ss) (goto 0 0 ParseResult_default) r.
Proof.
  intros (N1 & A1 & V1) (N2 & A2 & V2) (N3 & A3 & V3) Htt Hs Hend.
  assert (D0 : drop 0 (s_bytes (ss_slice ss)) = d1 ++ "."%u8 :: d2 ++ "."%u8 :: d3 ++ tt)
    by by rewrite drop_0.
  pose proof (drop_of_app _ 0 _ _ D0) as D1. pose proof (drop_of_cons _ _ _ _ D1) as D2.
  pose proof (drop_of_app _ _ _ _ D2) as D3. pose proof (drop_of_cons _ _ _ _ D3) as D4.
  eapply loops_step; [by eapply (parse_number_step T ss (goto _ _ _)); [exact D0|..|cbn; lia]|].
  cbn [goto ps_i ps_part ps_res Nat.eqb negb]. rewrite (skip_dot_at ss _ _ _ D1) by done.
  eapply loops_step; [by eapply (parse_number_step T ss (goto _ _ _)); [exact D2|..|cbn; lia]|].
  cbn [goto ps_i ps_part ps_res Nat.eqb negb]. rewrite (skip_dot_at ss _ _ _ D3) by done.
  eapply loops_step; [by eapply (parse_number_step T ss (goto _ _ _)); [exact D4|..|cbn; lia]|].
  cbn [goto ps_i ps_part ps_res Nat.eqb negb]. rewrite skip_dot_not.
  replace (S (S (0 + length d1) + length d2) + length d3)%nat
    with (length d1 + 1 + length d2 + 1 + length d3)%nat by lia.
  exact Hend.
Qed.

Lemma core_num_show T `{!VersionInt T} n : 0 <= n <= int_max T -> core_num T (show n).
Proof.
  intros Hn. pose proof (vi_max (T:=T)).
  destruct (show_spec n) as (? & ? & Hv & _); [unfold u128_max; lia|].
  split; [done|]. split; [done|]. rewrite Hv. lia.
Qed.

Lemma dec_value_show T `{!VersionInt T} n : 0 <= n <= int_max T -> dec_value (show n) = n.
Proof.
  intros Hn. pose proof (vi_max (T:=T)).
  by destruct (show_spec n) as (? & ? & Hv & _); [unfold u128_max; lia|].
Qed.

Lemma version_fmt_drop v buf :
  drop (core_len v) (version_fmt v buf) = tag_text (opt_pre v buf) (opt_build v buf).
Proof.
  rewrite version_fmt_text.
  assert (show (major v) ++ "."%u8 :: show (minor v) ++ "."%u8 :: show (patch v)
          ++ tag_text (opt_pre v buf) (opt_build v buf)
          = (show (major v) ++ ["."%u8] ++ show (minor v) ++ ["."%u8] ++ show (patch v))
            ++ tag_text (opt_pre v buf) (opt_build v buf)) as ->.
  { by rewrite <- !app_assoc. }
  rewrite drop_app_ge by (rewrite !length_app; unfold core_len; cbn [length]; lia).
  replace (core_len v - _)%nat with 0%nat; [apply drop_0|].
  rewrite !length_app. unfold core_len. cbn [length]. lia.
Qed.

Lemma core_len_le v buf : (core_len v <= length (version_fmt v buf))%nat.
Proof.
  rewrite version_fmt_text, !length_app. cbn [length]. rewrite !length_app. cbn [length].
  rewrite length_app. unfold core_len. lia.
Qed.

Lemma show_head n : 0 <= n <= u128_max -> exists c ds, show n = c :: ds /\ 48 <= c <= 57.
Proof.
  intros Hn. destruct (show_spec n Hn) as (Hne & Hd & _ & _).
  destruct (show n) as [|c ds]; [done|]. exists c, ds. split; [done|].
  apply Forall_inv in Hd. by apply is_ascii_digit_iff.
Qed.

Lemma parse_fmt T `{!VersionInt T} v buf at_ text :
  printable T v buf ->
  let ss := {| ss_buf := text; ss_slice := {| s_at := at_; s_bytes := version_fmt v buf |} |} in
  parse T ss = Some {| wildcard := WNone; valid := true; overflow := false;
                       version := full v (parsed_tag ss v buf);
                       pr_len := length (version_fmt v buf) |}.
Proof.
  intros ((HM & Hm & Hp) & (Hpre & _) & (Hbuild & _) & Hlen) ss. pose proof (vi_max (T:=T)) as Hmax.
  assert (Hs : s_bytes (ss_slice ss) = version_fmt v buf) by done.
  destruct (show_head (major v)) as (c & ds & Hc & Hrange); [unfold u128_max; lia|].
  assert (Hcons : exists tl, version_fmt v buf = c :: tl).
  { rewrite version_fmt_text, Hc. by eexists. }
  destruct Hcons as [tl Htl].
  pose proof (f_equal length (version_fmt_drop v buf)) as Htlen. rewrite length_drop in Htlen.
  assert (Hcore : (core_len v <= length (version_fmt v buf))%nat).
  { apply core_len_le. }
  unfold parse. rewrite Hs.
  destruct (Nat.eqb_spec (length (version_fmt v buf)) 0) as [H0|_]; [by rewrite Htl in H0|].
  rewrite (skip_while_run parse_prefix (version_fmt v buf) 0 [] (version_fmt v buf)); [|done|done|].
  2:{ rewrite Htl. unfold parse_prefix, one_of. cbn. rewrite !orb_false_iff.
      repeat split; try apply Z.eqb_neq; lia. }
  cbn [length Nat.add]. destruct (Nat.eqb_spec 0 (length (version_fmt v buf))) as [H0|_].
  { rewrite Htl in H0. done. }
  destruct (parse_loop_ok T ss (goto 0 0 ParseResult_default)) as (s' & Hrun & _).
  { apply parse_inv_goto; [lia|lia|done]. }
  rewrite Hs in Hrun. rewrite Hrun. cbn [mbind option_bind].
  eapply loops_run in Hrun.
  2:{ eapply (parse_loops_core T ss (show (major v)) (show (minor v)) (show (patch v)));
        [by apply core_num_show..|apply not_digit_tag|by rewrite Hs; apply version_fmt_text|].
      apply parse_tail_step; [by rewrite Hs; apply version_fmt_drop|lia|done|done]. }
  rewrite Hrun, !(dec_value_show T) by done. unfold parse_finish. cbn [goto ps_i ps_part ps_res].
  rewrite <- Htlen. replace (core_len v + _)%nat with (length (version_fmt v buf)) by lia.
  destruct (Z.leb_spec (Z.of_nat (length (version_fmt v buf))) u32_max); [|lia].
  f_equal. unfold parsed_tag, tag_of.
  destruct (bool_decide_reflect (tag_text (opt_pre v buf) (opt_build v buf) = [])) as [He|]; [|done].
  destruct (opt_pre v buf); [done|]. destruct (opt_build v buf); [done|]. done.
Qed.

(** *** Reading the parsed tag back *)
Lemma external_sub_ok ss i j :
  slice_in (ss_slice ss) (ss_buf ss) -> Z.of_nat (length (ss_buf ss)) <= u32_max ->
  (i <= j)%nat -> (j <= length (s_bytes (ss_slice ss)))%nat ->
  storable_bytes (take (j - i) (drop i (s_bytes (ss_slice ss)))) ->
  ext_slice (external_sub ss i j) (ss_buf ss) = take (j - i) (drop i (s_bytes (ss_slice ss)))
  /\ ext_is_empty (external_sub ss i j) = (i =? j)%nat
  /\ wf (value (external_sub ss i j)).
Proof.
  intros Hin Hu Hij Hj Hs.
  assert (Hst : storable (ss_buf ss) (subslice (ss_slice ss) i j)).
  { split; [by apply slice_in_subslice|]. split; done. }
  split; [by apply (init_slice_ok _ _ Hst)|]. split; [|apply wf_init, Hs].
  unfold ext_is_empty, external_sub, external, sub, ext_init. cbn [value ss_buf ss_slice].
  rewrite is_empty_init by done. unfold subslice. cbn [s_bytes].
  rewrite length_take_le by (rewrite length_drop; lia).
  destruct (Nat.eqb_spec i j), (Nat.eqb_spec (j - i) 0); done || lia.
Qed.

Lemma tag_char_bytes (p : Z -> bool) s :
  (forall c, p c = true -> build_char c = true) -> Forall (fun c => p c = true) s ->
  Z.of_nat (length s) < 2147483648 -> storable_bytes s.
Proof.
  intros Hp H Hl. assert (Hr : Forall (fun c => 43 <= c < 128) s).
  { eapply Forall_impl; [exact H|]. intros c Hc%Hp. clear -Hc.
    unfold build_char, pre_char, is_tag_char, in_range in Hc.
    rewrite !orb_true_iff, !andb_true_iff, !Z.leb_le, !Z.eqb_eq in Hc. lia. }
  split; [|split; [done|intros _]]; (eapply Forall_impl; [exact Hr|]); unfold is_byte; cbn; lia.
Qed.

(** A field of a parsed tag: the bytes [s] at [k] of the tag's text. *)
Lemma external_text ss xs s rest (p : Z -> bool) :
  slice_in (ss_slice ss) (ss_buf ss) -> Z.of_nat (length (ss_buf ss)) < 2147483648 ->
  s_bytes (ss_slice ss) = xs ++ s ++ rest -> s <> [] ->
  (forall c, p c = true -> build_char c = true) -> Forall (fun c => p c = true) s ->
  let e := external_sub ss (length xs) (length xs + length s) in
  ext_slice e (ss_buf ss) = s /\ ext_is_empty e = false /\ wf (value e).
Proof.
  intros Hin Hu Hs Hne Hp Hc e.
  assert (Hsub : take (length xs + length s - length xs) (drop (length xs) (s_bytes (ss_slice ss))) = s).
  { rewrite Hs, drop_app_length. replace (_ + _ - _)%nat with (length s) by lia.
    apply take_app_length. }
  pose proof (f_equal length Hs) as Hlen. rewrite !length_app in Hlen.
  assert (Hle : (length (s_bytes (ss_slice ss)) <= length (ss_buf ss))%nat).
  { destruct Hin as [_ Hin]. lia. }
  destruct (external_sub_ok ss (length xs) (length xs + length s)) as (H1 & H2 & H3);
    [done|lia|lia|lia| |].
  { rewrite Hsub. apply (tag_char_bytes p); [done|done|lia]. }
  unfold e. rewrite H1, H2, Hsub. split; [done|]. split; [|done].
  apply Nat.eqb_neq. destruct s; [done|cbn [length]; lia].
Qed.

Definition tag_pre (t : Tag) (buf : bytes) : option bytes :=
  if has_pre t then Some (ext_slice (pre t) buf) else None.
Definition tag_build (t : Tag) (buf : bytes) : option bytes :=
  if has_build t then Some (ext_slice (build t) buf) else None.

Lemma tag_of_ok ss pre_ build_ :
  slice_in (ss_slice ss) (ss_buf ss) -> Z.of_nat (length (ss_buf ss)) < 2147483648 ->
  s_bytes (ss_slice ss) = tag_text pre_ build_ ->
  chars_ok pre_char pre_ -> nonempty pre_ -> chars_ok build_char build_ -> nonempty build_ ->
  tag_pre (tag_of ss pre_ build_) (ss_buf ss) = pre_
  /\ tag_build (tag_of ss pre_ build_) (ss_buf ss) = build_
  /\ wf_tag (tag_of ss pre_ build_).
Proof.
  intros Hin Hu Hs Hp Hpne Hb Hbne. set (t := tag_of ss pre_ build_).
  assert (Hd : wf (value ext_default)) by decide_now.
  assert (HP : tag_pre t (ss_buf ss) = pre_ /\ wf (value (pre t)));
    [|assert (HB : tag_build t (ss_buf ss) = build_ /\ wf (value (build t)));
      [|by destruct HP, HB]].
  all: unfold t, tag_pre, tag_build, has_pre, has_build, tag_of; cbn [pre build];
    unfold tag_text in Hs.
  - destruct pre_ as [s|]; [|done]. cbn [app] in Hs.
    destruct (external_text ss ["-"%u8] s _ pre_char Hin Hu Hs) as (H1 & H2 & H3);
      [by intros ->|by unfold build_char; intros c ->|done|].
    cbn [length Nat.add] in *. by rewrite H1, H2.
  - destruct build_ as [s|]; [|done].
    set (xs := match pre_ with Some s => "-"%u8 :: s | None => [] end) in Hs.
    assert (Hs' : s_bytes (ss_slice ss) = (xs ++ ["+"%u8]) ++ s ++ []).
    { rewrite Hs, <- app_assoc, app_nil_r. done. }
    destruct (external_text ss (xs ++ ["+"%u8]) s [] build_char Hin Hu Hs') as (H1 & H2 & H3);
      [by intros ->|done|done|].
    assert (Hk : length (xs ++ ["+"%u8])
      = S (match pre_ with Some s => S (length s) | None => 0%nat end)).
    { rewrite length_app. unfold xs. destruct pre_; cbn [length]; lia. }
    rewrite Hk in *. by rewrite H1, H2.
Qed.

(** [v'], stored in [buf'], is [v] stored in [buf]. *)
Definition same_version (v : Version) (buf : bytes) (v' : Version) (buf' : bytes) : Prop :=
  major v' = major v /\ minor v' = minor v /\ patch v' = patch v
  /\ opt_pre v' buf' = opt_pre v buf /\ opt_build v' buf' = opt_build v buf.

Lemma parsed_tag_ok T v buf text at_ :
  printable T v buf -> Z.of_nat (length text) < 2147483648 ->
  let ss := {| ss_buf := text; ss_slice := {| s_at := at_; s_bytes := version_fmt v buf |} |} in
  slice_in (ss_slice ss) text ->
  same_version v buf (pmin (full v (parsed_tag ss v buf))) text
  /\ wf_tag (parsed_tag ss v buf).
Proof.
  intros (_ & (Hpre & Hpne) & (Hbuild & Hbne) & Hlen) Hu ss Hin.
  pose proof (version_fmt_drop v buf) as Hdrop.
  assert (Hcore : (core_len v <= length (version_fmt v buf))%nat) by apply core_len_le.
  destruct (tag_of_ok (tail_from ss (core_len v)) (opt_pre v buf) (opt_build v buf))
    as (H1 & H2 & H3); [| |by unfold tail_from, sub, subslice; cbn [ss_slice s_bytes ss];
                           rewrite take_ge by (rewrite length_drop; lia)|done..|].
  - apply slice_in_subslice; [done|cbn [ss ss_slice s_bytes]; lia|cbn [ss ss_slice s_bytes]; lia].
  - done.
  - split; [|done]. split_and!; [done|done|done|exact H1|exact H2].
Qed.

(** The text of a version is made of visible characters. *)
Definition visible (c : Z) : Prop := 43 <= c < 128.

Lemma visible_build_char c : build_char c = true -> visible c.
Proof.
  unfold build_char, pre_char, is_tag_char, in_range, visible.
  rewrite !orb_true_iff, !andb_true_iff, !Z.leb_le, !Z.eqb_eq. lia.
Qed.

Lemma visible_show n : 0 <= n <= u128_max -> Forall visible (show n).
Proof.
  intros Hn. destruct (show_spec n Hn) as (_ & Hd & _). eapply Forall_impl; [exact Hd|].
  intros c Hc%is_ascii_digit_iff. unfold visible. lia.
Qed.

Lemma visible_tag_text pre_ build_ :
  chars_ok pre_char pre_ -> chars_ok build_char build_ -> Forall visible (tag_text pre_ build_).
Proof.
  intros Hp Hb. unfold tag_text. apply Forall_app. split.
  - destruct pre_ as [s|]; constructor; [by unfold visible|].
    eapply Forall_impl; [exact Hp|]. intros c Hc. apply visible_build_char.
    unfold build_char. by rewrite Hc.
  - destruct build_ as [s|]; constructor; [by unfold visible|].
    eapply Forall_impl; [exact Hb|]. apply visible_build_char.
Qed.

Lemma visible_fmt T `{!VersionInt T} v buf : printable T v buf -> Forall visible (version_fmt v buf).
Proof.
  intros ((HM & Hm & Hp) & (Hpre & _) & (Hbuild & _) & _). pose proof (vi_max (T:=T)).
  assert (visible "."%u8) by done. rewrite version_fmt_text.
  assert (Hshow : forall n, 0 <= n <= int_max T -> Forall visible (show n)).
  { intros n Hn. apply visible_show. unfold u128_max. lia. }
  pose proof (visible_tag_text _ _ Hpre Hbuild) as Htag.
  generalize dependent (tag_text (opt_pre v buf) (opt_build v buf)). intros tt Htt.
  repeat first [apply Forall_app_2|apply Forall_cons_2]; auto.
Qed.

Lemma visible_not_whitespace s :
  Forall visible s -> Forall (fun c => one_of WHITESPACE_CHARS c = false) s.
Proof.
  intros H. eapply Forall_impl; [exact H|]. unfold visible. intros c Hc. unfold one_of. cbn.
  rewrite !orb_false_iff, !Z.eqb_neq. lia.
Qed.

(** The parse of a printed version. *)
Lemma parse_exact_printed T `{!VersionInt T} v buf :
  printable T v buf ->
  exists v', parse_exact T (sliced_init (version_fmt v buf)) = Some (Some v')
    /\ same_version v buf v' (version_fmt v buf) /\ wf_tag (tag v').
Proof.
  intros H. pose proof (visible_not_whitespace _ (visible_fmt T v buf H)) as Hws.
  pose proof H as (_ & _ & _ & Hlen).
  destruct (parsed_tag_ok T v buf (version_fmt v buf) 0 H ltac:(lia)) as [Hsame Hwf].
  { split; cbn [s_bytes s_at ss_slice]; [|lia]. by rewrite drop_0, firstn_all. }
  eexists. split; [|by split]. unfold parse_exact, trim_slice, sliced_init, sub.
  cbn [ss_slice ss_buf s_bytes s_at]. rewrite skip_while_none, trim_id by done.
  rewrite (parse_fmt T) by done. cbn [mbind option_bind valid wildcard pr_len is_WNone andb].
  by rewrite Nat.eqb_refl.
Qed.

(** C3.  Round trip of a version: the text [fmt] prints, given back to
    [parse_exact], is accepted as exactly one complete version, with the same
    numbers and the same prerelease and build strings (now slices of the new text).
    It covers both integer widths and every mix of inline and pooled tags. *)
Theorem parse_exact_fmt T `{!VersionInt T} v buf :
  printable T v buf ->
  exists v', parse_exact T (sliced_init (version_fmt v buf)) = Some (Some v')
    /\ same_version v buf v' (version_fmt v buf).
Proof.
  intros (v' & Hv & Hs & _)%(parse_exact_printed T). by exists v'.
Qed.

Lemma parse_exact_fmt_witness :
  let buf := bstr "-canary.2024-x+linux.x64+b" in
  let v := {| major := 1; minor := 22; patch := 333;
              tag := {| pre := ext_init buf {| s_at := 1; s_bytes := bstr "canary.2024-x" |} 0;
                        build := ext_init buf {| s_at := 15; s_bytes := bstr "linux.x64+b" |} 0 |} |} in
  exists v', parse_exact u64_ty (sliced_init (version_fmt v buf)) = Some (Some v')
    /\ same_version v buf v' (version_fmt v buf).
Proof.
  intros buf v. apply (parse_exact_fmt u64_ty v buf).
  decide_now.
Defined.

(** ** Facts: which_version_is_pinned *)
Lemma char_at_cons p s i c r : drop i s = c :: r -> char_at p s i = p c.
Proof. intros H. unfold char_at. by rewrite (lookup_of_drop _ _ _ _ H). Qed.

Lemma pinned_number_run version i ds rest :
  drop i version = ds ++ rest -> ds <> [] -> all_digits ds -> not_digit_head rest ->
  pinned_number version i =
    Some (match rest with [] => inl () | d :: _ => inr ((i + length ds)%nat, d) end).
Proof.
  intros Hd Hne Hds Hr. unfold pinned_number. destruct ds as [|c ds]; [done|].
  rewrite (char_at_cons _ _ _ _ _ Hd). rewrite (Forall_inv Hds).
  rewrite (skip_while_run _ version i (c :: ds) rest) by done.
  apply drop_of_app in Hd. destruct rest as [|d rest].
  - by rewrite lookup_of_drop_nil.
  - by rewrite (lookup_of_drop _ _ d rest).
Qed.

Lemma valid_build_char c :
  build_char c = true -> valid_pre_or_build_tag_character c && negb (is_ascii_whitespace c) = true.
Proof.
  intros H. apply visible_build_char in H as Hv. unfold visible in Hv.
  apply andb_true_iff. split.
  - unfold valid_pre_or_build_tag_character, one_of. cbn.
    unfold build_char, pre_char, is_tag_char in H. rewrite !orb_true_iff in *. tauto.
  - unfold is_ascii_whitespace, one_of. cbn.
    rewrite negb_true_iff, !orb_false_iff, !Z.eqb_neq. lia.
Qed.

Lemma tag_text_build_chars pre_ build_ :
  chars_ok pre_char pre_ -> chars_ok build_char build_ ->
  Forall (fun c => build_char c = true) (tag_text pre_ build_).
Proof.
  intros Hp Hb. unfold tag_text. apply Forall_app. split.
  - destruct pre_ as [s|]; constructor; [done|]. eapply Forall_impl; [exact Hp|].
    intros c Hc. unfold build_char. by rewrite Hc.
  - destruct build_ as [s|]; by constructor.
Qed.

Lemma pinned_tag_run version i d r pinned :
  drop i version = d :: r -> Forall (fun c => build_char c = true) (d :: r) ->
  pinned_tag version i d pinned = pinned.
Proof.
  intros Hd Hc. apply Forall_cons in Hc as [Hdc Hr]. unfold pinned_tag.
  pose proof (valid_build_char d Hdc) as [-> Hw]%andb_true_iff.
  apply negb_true_iff in Hw. rewrite Hw. cbn [negb orb].
  rewrite (skip_while_run _ version (S i) r []);
    [|rewrite app_nil_r; by apply (drop_of_cons _ _ d)| |done].
  - apply (f_equal length) in Hd. rewrite length_drop in Hd. cbn [length] in Hd.
    destruct (Nat.leb_spec (length version) (S i + length r)); [done|lia].
  - eapply Forall_impl; [exact Hr|]. apply valid_build_char.
Qed.

(** The operator before a version and the pin it stands for. *)
Definition pin_op (p : PinnedVersion) : bytes :=
  match p with PinMajor => ["^"%u8] | PinMinor => ["~"%u8] | PinPatch => [] end.

(** The three core numbers and the tag, from the index of the first digit. *)
Lemma pinned_core p version i d1 d2 d3 tt :
  drop i version = d1 ++ "."%u8 :: d2 ++ "."%u8 :: d3 ++ tt ->
  d1 <> [] -> d2 <> [] -> d3 <> [] -> all_digits d1 -> all_digits d2 -> all_digits d3 ->
  not_digit_head tt -> Forall (fun c => build_char c = true) tt ->
  pinned_prefix (trim version WHITESPACE_CHARS) = Some (p, i) ->
  trim version WHITESPACE_CHARS = version ->
  which_version_is_pinned version = p.
Proof.
  intros D0 N1 N2 N3 A1 A2 A3 Htt Hb Hpre Htrim.
  pose proof (drop_of_app _ _ _ _ D0) as D1. pose proof (drop_of_cons _ _ _ _ D1) as D2.
  pose proof (drop_of_app _ _ _ _ D2) as D3. pose proof (drop_of_cons _ _ _ _ D3) as D4.
  pose proof (drop_of_app _ _ _ _ D4) as D5.
  unfold which_version_is_pinned. rewrite Hpre, Htrim.
  rewrite (pinned_number_run _ _ d1 _ D0) by done. cbn [Z.eqb negb Pos.eqb].
  rewrite (pinned_number_run _ _ d2 _ D2) by done. cbn [Z.eqb negb Pos.eqb].
  rewrite (pinned_number_run _ _ d3 _ D4) by done.
  destruct tt as [|d tt]; [done|]. by apply (pinned_tag_run _ _ _ tt).
Qed.

(** [which_version_is_pinned] recognises how a dependency is pinned: the text
    of a complete version is pinned exactly, after [~] to its minor version and
    after [^] to its major version. *)
Theorem which_version_is_pinned_fmt T `{!VersionInt T} v buf p :
  printable T v buf -> which_version_is_pinned (pin_op p ++ version_fmt v buf) = p.
Proof.
  intros H. pose proof H as ((HM & Hm & Hp) & (Hpre & _) & (Hbuild & _) & _).
  pose proof (visible_fmt T v buf H) as Hvis.
  destruct (core_num_show T _ HM) as (N1 & A1 & _). destruct (core_num_show T _ Hm) as (N2 & A2 & _).
  destruct (core_num_show T _ Hp) as (N3 & A3 & _).
  assert (Hops : Forall visible (pin_op p ++ version_fmt v buf)).
  { apply Forall_app. split; [|done]. destruct p; repeat constructor; unfold visible; lia. }
  pose proof (trim_id _ _ (visible_not_whitespace _ Hops)) as Htrim.
  apply (pinned_core p _ (length (pin_op p)) (show (major v)) (show (minor v)) (show (patch v))
           (tag_text (opt_pre v buf) (opt_build v buf)));
    [|exact N1|exact N2|exact N3|exact A1|exact A2|exact A3| | | |exact Htrim].
  - rewrite drop_app_length. apply version_fmt_text.
  - apply not_digit_tag.
  - by apply tag_text_build_chars.
  - rewrite Htrim, version_fmt_text. pose proof (vi_max (T:=T)).
    destruct (show_head (major v)) as (c & ds & -> & Hr); [unfold u128_max; lia|].
    pose proof (proj2 (is_ascii_digit_iff c) Hr) as Hc.
    assert (Hws : one_of WHITESPACE_CHARS c = false).
    { unfold one_of. cbn. rewrite !orb_false_iff, !Z.eqb_neq. lia. }
    assert (Hvs : one_of (WHITESPACE_CHARS ++ bstr "v=") c = false).
    { unfold one_of. cbn. rewrite !orb_false_iff, !Z.eqb_neq. lia. }
    assert (Hop : one_of (bstr "~^") c = false).
    { unfold one_of. cbn. rewrite !orb_false_iff, !Z.eqb_neq. lia. }
    unfold pinned_prefix, skip_while. destruct p; cbn [pin_op app drop count_while].
    1,2: replace (one_of (WHITESPACE_CHARS ++ bstr "v=") _) with false by done;
      cbn [Nat.add lookup list_lookup drop]; cbn [count_while]; rewrite Hws; done.
    rewrite Hvs. cbn [Nat.add lookup list_lookup]. rewrite Hop.
    unfold is_ascii_digit in Hc. by rewrite Hc.
Qed.

Lemma which_version_is_pinned_fmt_witness :
  let v := {| major := 1; minor := 2; patch := 3; tag := ZERO_PRE |} in
  which_version_is_pinned (pin_op PinMinor ++ version_fmt v []) = PinMinor.
Proof. intros v. apply (which_version_is_pinned_fmt u64_ty v [] PinMinor). decide_now. Defined.

(** ** Facts: coerce *)
Definition no_digits (s : bytes) : Prop := Forall (fun c => is_ascii_digit c = false) s.

(** [skips text rest]: what precedes [rest] in [text] holds no number of at most
    sixteen digits. *)
Inductive skips : bytes -> bytes -> Prop :=
| skips_here q rest : no_digits q -> skips (q ++ rest) rest
| skips_long q ds text rest :
    no_digits q -> all_digits ds -> (LONGEST < length ds)%nat -> not_digit_head text ->
    skips text rest -> skips (q ++ ds ++ text) rest.

Lemma digits_run ds rest :
  all_digits ds -> not_digit_head rest -> digits (ds ++ rest) = length ds.
Proof.
  intros Hd Hr. unfold digits. rewrite count_while_app, count_while_stop by done. lia.
Qed.

Lemma coerce_scan q ds after :
  no_digits q -> all_digits ds -> ds <> [] -> not_digit_head after ->
  count_while (fun c => negb (is_ascii_digit c)) (q ++ ds ++ after) = length q.
Proof.
  intros Hq Hd Hne Ha. rewrite count_while_app, count_while_stop; [lia| |].
  - destruct ds as [|d ds]; [done|]. cbn [app]. by rewrite (Forall_inv Hd).
  - eapply Forall_impl; [exact Hq|]. by intros c ->.
Qed.

Lemma coerce_step_run q ds after :
  no_digits q -> all_digits ds -> ds <> [] -> not_digit_head after ->
  coerce_step (q ++ ds ++ after) =
    if (LONGEST <? length ds)%nat then inl after
    else inr (
      major ← coerce_number ds;
      minor ← match coerce_part after with None => Some 0 | Some it => coerce_number it.1 end;
      patch ← match (it ← coerce_part after; coerce_part it.2) with
              | None => Some 0 | Some it => coerce_number it.1 end;
      Some {| major := major; minor := minor; patch := patch; tag := Tag_default |}).
Proof.
  intros Hq Hd Hne Ha. unfold coerce_step.
  rewrite coerce_scan, drop_app_length, digits_run, take_app_length, drop_app_length by done.
  destruct ds; [done|]. done.
Qed.

Lemma digits_value_ge ds :
  all_digits ds -> ds <> [] -> head ds <> Some 48 -> 10 ^ (Z.of_nat (length ds) - 1) <= dec_value ds.
Proof.
  intros H Hne Hh. induction ds as [|c ds IH] using rev_ind; [done|].
  rewrite dec_value_app, length_app. cbn [length].
  apply Forall_app in H as [Hds Hc%Forall_inv%is_ascii_digit_iff].
  destruct ds as [|d ds].
  - cbn in Hh |- *. destruct (decide (c = 48)) as [->|]; [done|]. unfold dec_value; cbn. lia.
  - specialize (IH Hds ltac:(done) Hh). cbn [length] in *.
    replace (Z.of_nat (S (length ds) + 1) - 1) with (Z.succ (Z.of_nat (S (length ds)) - 1)) by lia.
    rewrite Z.pow_succ_r by lia. lia.
Qed.

(** The numbers [coerce] accepts. *)
Definition safe (n : Z) : Prop := 0 <= n <= MAX_SAFE_INTEGER.

Lemma safe_u128 n : safe n -> 0 <= n <= u128_max.
Proof. unfold safe, MAX_SAFE_INTEGER, u128_max. lia. Qed.

Lemma show_zero : show 0 = [48].
Proof. vm_compute. reflexivity. Qed.

Lemma show_length_safe n : safe n -> (1 <= length (show n) <= LONGEST)%nat.
Proof.
  intros Hn. destruct (show_spec n (safe_u128 n Hn)) as (Hne & Hd & Hv & H0).
  split; [destruct (show n); [done|cbn [length]; lia]|].
  destruct (decide (head (show n) = Some 48)) as [Hh|Hh].
  { rewrite (H0 Hh), show_zero. cbn. unfold LONGEST. lia. }
  pose proof (digits_value_ge _ Hd Hne Hh) as Hge. rewrite Hv in Hge.
  destruct (Nat.le_gt_cases (length (show n)) LONGEST) as [|Hgt]; [done|]. exfalso.
  unfold LONGEST in Hgt. pose proof (Z.pow_le_mono_r 10 16 (Z.of_nat (length (show n)) - 1)).
  unfold safe, MAX_SAFE_INTEGER in Hn. lia.
Qed.

Lemma coerce_number_show n : safe n -> coerce_number (show n) = Some n.
Proof.
  intros Hn. pose proof (safe_u128 n Hn) as Hu. destruct (show_spec n Hu) as (Hne & Hd & Hv & H0).
  assert (Hp : parse_ascii u64_ty (show n) = Some n).
  { unfold parse_ascii. rewrite parse_unsigned_show; [done|cbn; lia|cbn; unfold u128_max; lia|].
    unfold safe, MAX_SAFE_INTEGER in Hn. cbn. lia. }
  assert (Hle : (n <=? MAX_SAFE_INTEGER) = true) by (apply Z.leb_le, Hn).
  unfold coerce_number. destruct (show n) as [|d [|d2 ds]] eqn:E; rewrite Hp; cbn [mbind option_bind];
    rewrite Hle; try done.
  destruct (Z.eqb_spec d "0"%u8) as [->|]; [|done].
  specialize (H0 eq_refl). subst n. by rewrite show_zero in E.
Qed.

Lemma coerce_part_show n rest :
  safe n -> not_digit_head rest -> coerce_part ("."%u8 :: show n ++ rest) = Some (show n, rest).
Proof.
  intros Hn Hr. destruct (show_spec n (safe_u128 n Hn)) as (_ & Hd & _ & _).
  pose proof (show_length_safe n Hn) as Hl. unfold coerce_part. cbn [Z.eqb Pos.eqb].
  rewrite digits_run by done.
  destruct (Nat.leb_spec 1 (length (show n))), (Nat.leb_spec (length (show n)) LONGEST); try lia.
  cbn [andb]. by rewrite take_app_length, drop_app_length.
Qed.

Lemma coerce_step_version q a b c rest :
  no_digits q -> safe a -> safe b -> safe c -> not_digit_head rest ->
  coerce_step (q ++ show a ++ "."%u8 :: show b ++ "."%u8 :: show c ++ rest)
  = inr (Some {| major := a; minor := b; patch := c; tag := Tag_default |}).
Proof.
  intros Hq Ha Hb Hc Hr. destruct (show_spec a (safe_u128 a Ha)) as (Hne & Hd & _ & _).
  rewrite coerce_step_run by done. pose proof (show_length_safe a Ha) as Hl.
  destruct (Nat.ltb_spec LONGEST (length (show a))); [lia|].
  rewrite coerce_part_show by done. cbn [mbind option_bind fst snd].
  rewrite coerce_part_show by done. cbn [mbind option_bind fst snd].
  rewrite !coerce_number_show by done. done.
Qed.

(** The loop runs once per number it skips. *)
Lemma skips_loops text v rest a b c :
  skips text (v ++ rest) -> v = show a ++ "."%u8 :: show b ++ "."%u8 :: show c ->
  safe a -> safe b -> safe c -> not_digit_head rest ->
  loops coerce_step text (Some {| major := a; minor := b; patch := c; tag := Tag_default |}).
Proof.
  intros Hs -> Ha Hb Hc Hr. remember (_ ++ rest) as goal eqn:Eg.
  induction Hs as [q goal Hq|q ds text goal Hq Hd Hl Ht _ IH]; subst goal.
  - apply loops_stop. rewrite <- !app_assoc. cbn [app]. rewrite <- !app_assoc. cbn [app].
    by apply coerce_step_version.
  - eapply loops_step; [|by apply IH].
    rewrite coerce_step_run; [|done|done|intros ->; cbn in Hl; lia|done].
    destruct (Nat.ltb_spec LONGEST (length ds)); [done|lia].
Qed.

Lemma coerce_step_shorter rest :
  match coerce_step rest with inl r => (length r < length rest)%nat | inr _ => True end.
Proof.
  unfold coerce_step. set (from := drop _ rest).
  assert (Hf : (length from <= length rest)%nat) by (unfold from; rewrite length_drop; lia).
  pose proof (count_while_le is_ascii_digit from). unfold digits.
  rewrite length_take. destruct (Nat.eqb_spec (count_while is_ascii_digit from `min` length from) 0); [done|].
  destruct (LONGEST <? _)%nat; [|done]. rewrite length_drop. lia.
Qed.

Lemma coerce_run text : exists r, run_loop (S (length text)) coerce_step text = Some r.
Proof.
  destruct (run_loop_rule coerce_step (fun _ => True) (fun _ => True) length (S (length text)) text)
    as (r & Hr & _); [|done|lia|eauto].
  intros s _. pose proof (coerce_step_shorter s). by destruct (coerce_step s).
Qed.

(** [coerce] finds the first version in a text: whatever precedes it, so long
    as it holds no number of at most sixteen digits, and whatever follows it, the
    three numbers (each at most [MAX_SAFE_INTEGER]) are returned with no tag. *)
Theorem coerce_finds_version text a b c rest :
  skips text ((show a ++ "."%u8 :: show b ++ "."%u8 :: show c) ++ rest) ->
  safe a -> safe b -> safe c -> not_digit_head rest ->
  coerce text = Some {| major := a; minor := b; patch := c; tag := Tag_default |}.
Proof.
  intros Hs Ha Hb Hc Hr. pose proof (skips_loops _ _ _ _ _ _ Hs eq_refl Ha Hb Hc Hr) as Hl.
  destruct (coerce_run text) as [r Hrun]. unfold coerce. rewrite Hrun.
  by apply (loops_run _ _ _ _ _ Hl) in Hrun as ->.
Qed.

Lemma coerce_finds_version_witness :
  coerce (bstr "build 20240101000000000 of v3.22.111-rc")
  = Some {| major := 3; minor := 22; patch := 111; tag := Tag_default |}.
Proof.
  apply (coerce_finds_version _ 3 22 111 (bstr "-rc")); [|unfold safe, MAX_SAFE_INTEGER; lia..|done].
  apply (skips_long (bstr "build ") (bstr "20240101000000000") (bstr " of v3.22.111-rc"));
    [repeat constructor|repeat constructor|cbn; unfold LONGEST; lia|done|].
  apply (skips_here (bstr " of v")). repeat constructor.
Defined.

(** ** Facts: copying versions *)

(** A tag string, absent when empty. *)
Definition field_opt (e : ExternalString) (buf : bytes) : option bytes :=
  if negb (ext_is_empty e) then Some (ext_slice e buf) else None.

(** A tag string that can be copied: a handle from memory whose bytes can be stored
    again, and which is not a packed empty string. *)
Definition copyable (e : ExternalString) (buf : bytes) : Prop :=
  wf (value e) /\ storable_bytes (ext_slice e buf)
  /\ (ext_is_inline e = false -> ext_slice e buf <> []).
#[export] Instance copyable_dec e buf : Decision (copyable e buf).
Proof. unfold copyable. apply _. Defined.

Lemma empty_is_inline s : wf s -> is_empty s = true -> is_inline s = true.
Proof.
  intros Hwf He. apply Z.eqb_eq in He. rewrite is_inline_word, He by done. done.
Qed.

Lemma nonempty_slice_not_empty s buf : wf s -> str_slice s buf <> [] -> is_empty s = false.
Proof.
  intros Hwf Hne. destruct (is_empty s) eqn:E; [|done]. by rewrite is_empty_slice in Hne.
Qed.

(** The copy [e'] of [e] holds the same string. *)
Lemma field_opt_copy e buf e' buf' :
  wf (value e) -> wf (value e') -> ext_is_inline e = false -> ext_slice e buf <> [] ->
  ext_slice e' buf' = ext_slice e buf -> field_opt e' buf' = field_opt e buf.
Proof.
  intros Hw Hw' Hi Hne Hs. unfold field_opt, ext_is_empty.
  rewrite (nonempty_slice_not_empty (value e) buf), (nonempty_slice_not_empty (value e') buf'), Hs;
    [done|done|by fold (ext_slice e' buf'); rewrite Hs|done|done].
Qed.

(** *** clone_into *)
Definition copy_need (e : ExternalString) (buf : bytes) : nat :=
  if ext_is_inline e then 0 else length (ext_slice e buf).

(** [v] is a handle into the first [n] bytes: it reads the same in any buffer of
    that length which agrees there. *)
Definition stable (v : String) (n : nat) (buf : bytes) : Prop :=
  forall buf', length buf' = length buf -> take n buf' = take n buf ->
    str_slice v buf' = str_slice v buf.

Lemma copy_into_parts (buf : bytes) start src :
  (start + length src <= length buf)%nat ->
  exists buf', copy_into buf start src = Some buf' /\ length buf' = length buf
    /\ take start buf' = take start buf
    /\ take (length src) (drop start buf') = src
    /\ drop (start + length src) buf' = drop (start + length src) buf.
Proof.
  intros H. rewrite copy_into_Some by done. eexists. split; [done|].
  rewrite !length_app, length_take, length_drop.
  split; [lia|]. split; [|split].
  - rewrite take_app_le by (rewrite length_take; lia). rewrite take_take. f_equal. lia.
  - rewrite drop_app_ge by (rewrite length_take; lia). rewrite length_take_le by lia.
    rewrite Nat.sub_diag, drop_0. apply take_app_length.
  - rewrite drop_app_ge by (rewrite length_take; lia). rewrite length_take_le by lia.
    replace (start + length src - start)%nat with (length src) by lia. apply drop_app_length.
Qed.

Lemma tag_copy_ok slice_ e buf offset :
  copyable e slice_ -> (offset + copy_need e slice_ <= length buf)%nat ->
  Z.of_nat (length buf) <= u32_max ->
  exists v buf', tag_copy slice_ e buf offset = Some (v, buf', offset + copy_need e slice_)%nat
    /\ length buf' = length buf /\ take offset buf' = take offset buf
    /\ drop (offset + copy_need e slice_) buf' = drop (offset + copy_need e slice_) buf
    /\ wf v /\ stable v (offset + copy_need e slice_) buf'
    /\ forall h, field_opt {| value := v; hash := h |} buf' = field_opt e slice_.
Proof.
  intros (Hwf & Hs & Hne) Hroom Hu. unfold tag_copy, copy_need in *.
  destruct (ext_is_inline e) eqn:Hi.
  { rewrite Nat.add_0_r. eexists _, buf. split; [done|]. splits; try done.
    - intros buf' _ _. by apply inline_agree.
    - intros h. unfold field_opt, ext_is_empty, ext_slice. cbn [value].
      by rewrite (inline_agree (value e) buf slice_). }
  destruct (copy_into_parts buf offset (ext_slice e slice_) Hroom)
    as (buf' & -> & Hl & Ht & Hmid & Hd). cbn [mbind option_bind].
  rewrite slice_range_Some by lia. cbn [mbind option_bind].
  replace (offset + length (ext_slice e slice_) - offset)%nat
    with (length (ext_slice e slice_)) by lia. rewrite Hmid.
  set (s := {| s_at := offset; s_bytes := ext_slice e slice_ |}).
  assert (Hst : storable buf' s).
  { split; [|split; [lia|done]]. split; [exact Hmid|cbn; lia]. }
  pose proof (wf_init buf' s (proj1 Hs)) as Hwf'. pose proof (init_slice_ok _ _ Hst) as Hsl.
  eexists _, buf'. split; [done|]. splits; try done.
  - intros buf2 Hl2 Ht2. rewrite init_cases in * by apply Hs.
    destruct (can_inline (s_bytes s)) eqn:Hc.
    { apply inline_agree, is_inline_pad; [apply Hs|done]. }
    apply (slice_pack_agree (offset + length (ext_slice e slice_))); [|done|lia|lia].
    destruct (Pointer_init_ok _ _ Hst) as [Hp _]. split; [done|].
    rewrite Pointer_init_eq by (unfold s; cbn [s_at s_bytes]; lia). cbn. lia.
  - intros h. apply field_opt_copy; auto.
Qed.

(**  [Version::clone_into] copies both tag strings into the buffer at [offset]:
    with room for the strings it copies, nothing panics, the offset moves past
    them, the bytes before and after are untouched, and the copy is the same
    version, hashes included. *)
Theorem version_clone_into_ok v slice_ buf offset :
  let n := (copy_need (pre (tag v)) slice_ + copy_need (build (tag v)) slice_)%nat in
  copyable (pre (tag v)) slice_ -> copyable (build (tag v)) slice_ ->
  (offset + n <= length buf)%nat -> Z.of_nat (length buf) <= u32_max ->
  exists v' buf', version_clone_into v slice_ buf offset = Some (v', buf', offset + n)%nat
    /\ same_version v slice_ v' buf' /\ version_eql v v' = true
    /\ length buf' = length buf /\ take offset buf' = take offset buf
    /\ drop (offset + n) buf' = drop (offset + n) buf.
Proof.
  intros n Hp Hb Hroom Hu. unfold version_clone_into, tag_clone_into.
  destruct (tag_copy_ok slice_ (pre (tag v)) buf offset Hp ltac:(lia) Hu)
    as (vp & buf1 & -> & Hl1 & Ht1 & Hd1 & Hw1 & Hst1 & Hf1). cbn [mbind option_bind].
  destruct (tag_copy_ok slice_ (build (tag v)) buf1 (offset + copy_need (pre (tag v)) slice_) Hb
              ltac:(lia) ltac:(lia))
    as (vb & buf2 & -> & Hl2 & Ht2 & Hd2 & Hw2 & Hst2 & Hf2). cbn [mbind option_bind].
  eexists _, buf2. split; [by rewrite <- Nat.add_assoc|]. unfold same_version. splits.
  - done.
  - done.
  - done.
  - transitivity (field_opt (pre (tag v)) slice_); [|done]. rewrite <- (Hf1 (hash (pre (tag v)))).
    unfold opt_pre, has_pre, field_opt, ext_is_empty, ext_slice. cbn [tag pre value].
    by rewrite (Hst1 buf2 Hl2 Ht2).
  - transitivity (field_opt (build (tag v)) slice_); [|done].
    by rewrite <- (Hf2 (hash (build (tag v)))).
  - unfold version_eql, tag_eql. cbn. by rewrite !Z.eqb_refl.
  - lia.
  - rewrite <- (Nat.min_l offset (offset + copy_need (pre (tag v)) slice_)), <- !take_take, Ht2 by lia.
    rewrite !take_take, Nat.min_l by lia. done.
  - unfold n. by rewrite Nat.add_assoc, Hd2, <- drop_drop, Hd1, drop_drop.
Qed.

Lemma version_clone_into_ok_witness :
  let src := bstr "xprerelease-1" in
  let v := {| major := 1; minor := 2; patch := 3;
              tag := {| pre := ext_init src {| s_at := 1; s_bytes := bstr "prerelease-1" |} 42;
                        build := ext_default |} |} in
  let buf := replicate 16 7 in
  exists v' buf', version_clone_into v src buf 3 = Some (v', buf', 3 + 12)%nat
    /\ same_version v src v' buf' /\ version_eql v v' = true
    /\ length buf' = length buf /\ take 3 buf' = take 3 buf
    /\ drop (3 + 12) buf' = drop (3 + 12) buf.
Proof.
  intros src v buf. apply (version_clone_into_ok v src buf 3);
    [decide_now|decide_now|vm_compute; lia|vm_compute; discriminate].
Defined.

(** *** count and append *)
Definition field_need (e : ExternalString) (buf : bytes) : nat :=
  if negb (ext_is_empty e) && negb (ext_is_inline e) then need (ext_slice e buf) else 0.
Definition version_need (v : Version) (buf : bytes) : nat :=
  (field_need (pre (tag v)) buf + field_need (build (tag v)) buf)%nat.

Definition append_field (e : ExternalString) (buf : bytes) (builder : Builder)
  : option (ExternalString * Builder) :=
  if negb (ext_is_empty e) && negb (ext_is_inline e)
  then append (T:=ExternalString) builder (ext_slice e buf) else Some (e, builder).

(** The state before and after an append to a builder. *)
Definition builder_step (b : Builder) (p : bytes) (b' : Builder) (p' : bytes) : Prop :=
  b_cap b' = b_cap b /\ (b_len b <= b_len b')%nat /\ take (b_len b) p' = take (b_len b) p.

Lemma builder_step_trans b p b1 p1 b2 p2 :
  builder_step b p b1 p1 -> builder_step b1 p1 b2 p2 -> builder_step b p b2 p2.
Proof.
  intros (C1 & L1 & T1) (C2 & L2 & T2). split; [congruence|]. split; [lia|].
  rewrite <- (Nat.min_l (b_len b) (b_len b1)), <- !take_take, T2, !take_take, Nat.min_l by lia.
  done.
Qed.

Lemma append_field_ok b p r e buf :
  Builder_inv b p (field_need e buf + r) -> copyable e buf ->
  exists e' b' p', append_field e buf b = Some (e', b') /\ Builder_inv b' p' r
    /\ builder_step b p b' p' /\ issued b' (value e') /\ field_opt e' p' = field_opt e buf.
Proof.
  intros H (Hwf & Hs & Hne). unfold append_field, field_need in *.
  destruct (ext_is_inline e) eqn:Hi.
  { rewrite andb_false_r in *. exists e, b, p. splits; [done|done| | |].
    - split; [done|]. split; [lia|done].
    - split; [done|]. by left.
    - unfold field_opt, ext_slice. by rewrite (inline_agree (value e) p buf). }
  assert (He : ext_is_empty e = false) by (apply (nonempty_slice_not_empty _ buf); auto).
  rewrite He in *. cbn [negb andb] in *. unfold append.
  destruct (builder_append_ok (T:=ExternalString) b p r (ext_slice e buf)
              (string_hash (ext_slice e buf)) H Hs)
    as (e' & b' & p' & Ha & Hinv & Hc & Hl & Ht & Hiss & Hsl).
  exists e', b', p'. splits; [done|done|by split|done|]. cbn [handle ExternalString_builder] in *.
  apply field_opt_copy; auto. apply Hiss.
Qed.

Lemma issued_mono b b' v : (b_len b <= b_len b')%nat -> issued b v -> issued b' v.
Proof.
  intros Hl [Hw [Hi|(q & -> & Hq)]]; (split; [done|]); [by left|].
  right. exists q. split; [done|]. by eapply within_weaken.
Qed.

Lemma field_opt_step b p r b' p' r' e :
  Builder_inv b p r -> Builder_inv b' p' r' -> builder_step b p b' p' -> issued b (value e) ->
  field_opt e p' = field_opt e p.
Proof.
  intros H H' (Hc & _ & Ht) Hi. unfold field_opt, ext_slice.
  by rewrite (issued_agree b p r b' p' r').
Qed.

Lemma version_append_ok b p r v buf :
  Builder_inv b p (version_need v buf + r) ->
  copyable (pre (tag v)) buf -> copyable (build (tag v)) buf ->
  exists v' b' p', version_append v buf b = Some (v', b') /\ Builder_inv b' p' r
    /\ builder_step b p b' p'
    /\ (issued b' (value (pre (tag v'))) /\ issued b' (value (build (tag v'))))
    /\ same_version v buf v' p'.
Proof.
  intros H Hp Hb. unfold version_need in H. rewrite <- Nat.add_assoc in H.
  destruct (append_field_ok b p _ _ buf H Hp) as (ep & b1 & p1 & E1 & H1 & S1 & I1 & F1).
  destruct (append_field_ok b1 p1 _ _ buf H1 Hb) as (eb & b2 & p2 & E2 & H2 & S2' & I2 & F2).
  eexists _, b2, p2. split.
  { unfold version_append, append_field, has_pre, has_build in *. rewrite E1.
    cbn [mbind option_bind]. rewrite E2. done. }
  split; [done|]. split; [by eapply builder_step_trans|]. cbn [tag pre build]. split.
  - split; [|done]. eapply issued_mono; [|done]. apply S2'.
  - unfold same_version. splits; [done|done|done| |exact F2].
    etransitivity; [|exact F1]. apply (field_opt_step b1 p1 _ b2 p2 _ ep H1 H2 S2' I1).
Qed.

Fixpoint version_append_all (vs : list Version) (buf : bytes) (builder : Builder)
  : option (list Version * Builder) :=
  match vs with
  | [] => Some ([], builder)
  | v :: vs =>
      '(v, builder) ← version_append v buf builder;
      '(vs, builder) ← version_append_all vs buf builder;
      Some (v :: vs, builder)
  end.

Lemma version_append_all_ok vs buf b p r :
  Builder_inv b p (sum_list ((fun v => version_need v buf) <$> vs) + r) ->
  Forall (fun v => copyable (pre (tag v)) buf /\ copyable (build (tag v)) buf) vs ->
  exists vs' b' p', version_append_all vs buf b = Some (vs', b') /\ Builder_inv b' p' r
    /\ builder_step b p b' p' /\ Forall2 (fun v v' => same_version v buf v' p') vs vs'.
Proof.
  revert b p. induction vs as [|v vs IH]; intros b p H Hvs; cbn [version_append_all].
  { exists [], b, p. splits; [done|done| |constructor]. split; [done|]. split; [lia|done]. }
  apply Forall_cons in Hvs as [[Hp Hb] Hvs]. cbn [fmap list_fmap sum_list sum_list_with foldr] in H.
  rewrite <- Nat.add_assoc in H.
  destruct (version_append_ok b p _ v buf H Hp Hb)
    as (v' & b1 & p1 & -> & H1 & St1 & (Ip & Ib) & Hsame). cbn [mbind option_bind].
  destruct (IH b1 p1 H1 Hvs) as (vs' & b2 & p2 & -> & H2 & St2 & Hall). cbn [mbind option_bind].
  exists (v' :: vs'), b2, p2. splits; [done|done|by eapply builder_step_trans|].
  constructor; [|done]. destruct Hsame as (? & ? & ? & Hop & Hob). unfold same_version.
  splits; [done|done|done| |].
  - etransitivity; [|exact Hop]. by apply (field_opt_step b1 p1 _ b2 p2 _ _ H1 H2 St2).
  - etransitivity; [|exact Hob]. by apply (field_opt_step b1 p1 _ b2 p2 _ _ H1 H2 St2).
Qed.

Lemma version_count_all vs buf b :
  b_pool b = ∅ ->
  foldl (fun b v => version_count v buf b) b vs
  = {| b_len := b_len b;
       b_cap := b_cap b + sum_list ((fun v => version_need v buf) <$> vs);
       b_ptr := b_ptr b; b_pool := ∅ |}.
Proof.
  assert (Hone : forall s b (c : bool), b_pool b = ∅ ->
    (if c then count b s else b)
    = {| b_len := b_len b; b_cap := b_cap b + (if c then need s else 0);
         b_ptr := b_ptr b; b_pool := ∅ |}).
  { intros s b' c Hb. destruct c.
    - pose proof (builder_count_all [s] b' Hb) as H. cbn [foldl] in H. rewrite H. cbn.
      by rewrite Nat.add_0_r.
    - destruct b'; cbn in *; subst. by rewrite Nat.add_0_r. }
  revert b. induction vs as [|v vs IH]; intros b Hb; cbn [foldl].
  - cbn. rewrite Nat.add_0_r. destruct b; cbn in *; by subst.
  - unfold version_count, has_pre, has_build.
    rewrite (Hone _ b) by done. rewrite (Hone _ {| b_len := _ |}) by done.
    rewrite IH by done. cbn [b_len b_cap b_ptr b_pool].
    f_equal. cbn. unfold version_need, field_need. lia.
Qed.

(**  [Version::count] and [Version::append] agree: counting a list of versions
    with a fresh builder, allocating, and appending them again in order never
    overruns the allocation and yields the same versions, whose strings live in
    the builder's buffer. *)
Theorem version_count_append_ok vs buf :
  Forall (fun v => copyable (pre (tag v)) buf /\ copyable (build (tag v)) buf) vs ->
  Z.of_nat (sum_list ((fun v => version_need v buf) <$> vs)) <= u32_max ->
  exists vs' b a,
    version_append_all vs buf
      (allocate (foldl (fun b v => version_count v buf b) builder_default vs)) = Some (vs', b)
    /\ allocated_slice b = Some a
    /\ Forall2 (fun v v' => same_version v buf v' a) vs vs'.
Proof.
  intros Hvs Hu. rewrite version_count_all by done.
  cbn [builder_default b_len b_cap b_ptr b_pool]. rewrite Nat.add_0_l.
  set (n := sum_list _) in *.
  destruct (version_append_all_ok vs buf
    (allocate {| b_len := 0; b_cap := n; b_ptr := None; b_pool := ∅ |}) (replicate n 0) 0)
    as (vs' & b & p & -> & H & _ & Hall).
  - split; cbn; [done|by rewrite length_replicate|done|lia|by apply map_Forall_empty].
  - done.
  - exists vs', b, p. splits; [done|by eapply allocated_slice_ok|done].
Qed.

Lemma version_count_append_ok_witness :
  let buf := bstr "prerelease-1+linux.x64" in
  let v := {| major := 1; minor := 2; patch := 3;
              tag := {| pre := ext_init buf {| s_at := 0; s_bytes := bstr "prerelease-1" |} 1;
                        build := ext_init buf {| s_at := 13; s_bytes := bstr "linux.x64" |} 2 |} |} in
  let w := {| major := 4; minor := 5; patch := 6; tag := ZERO_PRE |} in
  exists vs' b a,
    version_append_all [v; w; v] buf
      (allocate (foldl (fun b v => version_count v buf b) builder_default [v; w; v])) = Some (vs', b)
    /\ allocated_slice b = Some a
    /\ Forall2 (fun v v' => same_version v buf v' a) [v; w; v] vs'.
Proof.
  intros buf v w. apply (version_count_append_ok [v; w; v] buf); [decide_now|vm_compute; discriminate].
Defined.

(** ** Constants and corner cases *)

(** [ZERO_PRE] is the tag parsed from [-0], hash included. *)
Lemma ZERO_PRE_parsed :
  tag_parse (sliced_init (bstr "-0")) = {| tr_tag := ZERO_PRE; tr_len := 2 |}.
Proof. vm_compute. reflexivity. Qed.

(** A tag written without [-] is read differently when a byte that ends the token
    follows it: the prerelease then swallows the build metadata (and its own
    part before a [-]), although the build is still returned. *)
Definition tag_strings (text : bytes) : option (option bytes * option bytes) :=
  (fun r => (tag_pre (ptag (version r)) text, tag_build (ptag (version r)) text))
  <$> parse_utf8 u64_ty text.

Lemma unqualified_tag_depends_on_what_follows :
  tag_strings (bstr "1.0.0rc+build") = Some (Some (bstr "rc"), Some (bstr "build"))
  /\ tag_strings (bstr "1.0.0rc+build ") = Some (Some (bstr "rc+build"), Some (bstr "build"))
  /\ tag_strings (bstr "1.0.0rc-x") = Some (Some (bstr "x"), None)
  /\ tag_strings (bstr "1.0.0rc-x ") = Some (Some (bstr "rc-x"), None).
Proof. vm_compute. splits; reflexivity. Qed.
