(* ===== verification/SemverRange.v ===== *)
(** * Comparators and ranges (src/semver/SemverRange.rs)

    A [Comparator] is an operator and a version; a [Range] is one or two of them.
    The bounds a desugared range ends at ([lt_next_major] and its siblings) saturate
    at the ceiling of the 64-bit numbers. *)

From S2P Require Import Prelude Bytes SemverString SemverVersion.

Inductive Op := OpUnset | OpEql | OpLt | OpLte | OpGt | OpGte.
#[export] Instance Op_eq_dec : EqDecision Op.
Proof. solve_decision. Defined.

Record Comparator := { op : Op; cversion : Version }.
Record Range := { left : Comparator; right : Comparator }.

Definition Comparator_default : Comparator := {| op := OpUnset; cversion := Version_default |}.
Definition Range_default : Range := {| left := Comparator_default; right := Comparator_default |}.

(** [Version { major, minor, patch, tag, ..Default::default() }] *)
Definition mk_version (M m p : Z) (t : Tag) : Version :=
  {| major := M; minor := m; patch := p; tag := t |}.
Definition cmp_of (o : Op) (v : Version) : Comparator := {| op := o; cversion := v |}.
(** [Range { left, ..Default::default() }] *)
Definition range_left (l : Comparator) : Range := {| left := l; right := Comparator_default |}.

(** ** Bounds *)
Definition null_set : Comparator := cmp_of OpLt (mk_version 0 0 0 ZERO_PRE).

Definition lt_next_major (major : Z) : Comparator :=
  match checked_add64 major 1 with
  | Some m => cmp_of OpLt (mk_version m 0 0 ZERO_PRE)
  | None => cmp_of OpLte (mk_version u64_max u64_max u64_max Tag_default)
  end.

Definition lt_next_minor (major minor : Z) : Comparator :=
  match checked_add64 minor 1 with
  | Some m => cmp_of OpLt (mk_version major m 0 ZERO_PRE)
  | None => cmp_of OpLte (mk_version major u64_max u64_max Tag_default)
  end.

Definition lt_next_patch (major minor patch : Z) : Comparator :=
  match checked_add64 patch 1 with
  | Some p => cmp_of OpLt (mk_version major minor p ZERO_PRE)
  | None => cmp_of OpLte (mk_version major minor u64_max Tag_default)
  end.

Definition gte_next_major (major : Z) (t : Tag) : Comparator :=
  match checked_add64 major 1 with
  | Some m => cmp_of OpGte (mk_version m 0 0 t)
  | None => null_set
  end.

Definition gte_next_minor (major minor : Z) (t : Tag) : Comparator :=
  match checked_add64 minor 1 with
  | Some m => cmp_of OpGte (mk_version major m 0 t)
  | None => gte_next_major major t
  end.

(** ** Satisfaction *)
Definition comparator_eql (c rhs : Comparator) : bool :=
  bool_decide (op c = op rhs) && version_eql (cversion c) (cversion rhs).

Definition comparator_satisfies (c : Comparator) (version : Version)
    (comparator_buf version_buf : bytes) : bool :=
  match order_without_build version (cversion c) version_buf comparator_buf with
  | Eq => match op c with OpLte | OpGte | OpEql => true | _ => false end
  | Gt => match op c with OpGt | OpGte => true | _ => false end
  | Lt => match op c with
          | OpGte => is_zero (cversion c) && negb (has_pre (tag (cversion c)))
          | OpLt | OpLte => true
          | _ => false
          end
  end.

Definition has_left (r : Range) : bool := negb (bool_decide (op (left r) = OpUnset)).
Definition has_right (r : Range) : bool := negb (bool_decide (op (right r) = OpUnset)).

Definition range_eql (r rhs : Range) : bool :=
  comparator_eql (left r) (left rhs) && comparator_eql (right r) (right rhs).

Definition range_satisfies (r : Range) (version : Version) (range_buf version_buf : bytes) : bool :=
  if negb (has_left r) then true
  else if negb (comparator_satisfies (left r) version range_buf version_buf) then false
  else if has_right r && negb (comparator_satisfies (right r) version range_buf version_buf)
  then false
  else true.

(** The prerelease names the same [major.minor.patch]. *)
Definition pre_matches (c : Comparator) (version : Version) : bool :=
  has_pre (tag (cversion c)) && (patch version =? patch (cversion c))
  && (minor version =? minor (cversion c)) && (major version =? major (cversion c)).

(** [satisfies_pre]: the result and the new value of [*pre_matched]. *)
Definition range_satisfies_pre (r : Range) (version : Version) (range_buf version_buf : bytes)
    (pre_matched : bool) : bool * bool :=
  if negb (has_left r) then (true, pre_matched)
  else
    let pre_matched := pre_matched || pre_matches (left r) version
                       || (has_right r && pre_matches (right r) version) in
    if negb (comparator_satisfies (left r) version range_buf version_buf) then (false, pre_matched)
    else if has_right r && negb (comparator_satisfies (right r) version range_buf version_buf)
    then (false, pre_matched)
    else (true, pre_matched).

Definition init_wildcard (version : Version) (w : Wildcard) (floor : Tag) : Range :=
  match w with
  | WNone => range_left (cmp_of OpEql version)
  | WMajor => range_left (cmp_of OpGte (mk_version 0 0 0 floor))
  | WMinor => {| left := lt_next_major (major version);
                 right := cmp_of OpGte (mk_version (major version) 0 0 floor) |}
  | WPatch => {| left := lt_next_minor (major version) (minor version);
                 right := cmp_of OpGte (mk_version (major version) (minor version) 0 floor) |}
  end.

(** ** Printing *)
Definition op_text (o : Op) : bytes :=
  match o with
  | OpUnset => []
  | OpEql => bstr "=="
  | OpLt => bstr "<"
  | OpLte => bstr "<="
  | OpGt => bstr ">"
  | OpGte => bstr ">="
  end.

Definition comparator_fmt (c : Comparator) (buf : bytes) : bytes :=
  if bool_decide (op c = OpUnset) then [] else op_text (op c) ++ version_fmt (cversion c) buf.

Definition range_fmt (r : Range) (buf : bytes) : bytes :=
  if bool_decide (op (left r) = OpUnset) && bool_decide (op (right r) = OpUnset) then []
  else if bool_decide (op (right r) = OpUnset) then comparator_fmt (left r) buf
  else comparator_fmt (left r) buf ++ " "%u8 :: comparator_fmt (right r) buf.

(** ** Facts *)

(** The numbers of a version. *)
Definition nums_ok (v : Version) : Prop :=
  is_u64 (major v) /\ is_u64 (minor v) /\ is_u64 (patch v).
Definition is_release (v : Version) : Prop := has_pre (tag v) = false.
#[export] Instance nums_ok_dec v : Decision (nums_ok v).
Proof. unfold nums_ok, is_u64. apply _. Defined.
#[export] Instance is_release_dec v : Decision (is_release v).
Proof. unfold is_release. apply _. Defined.

Lemma checked_add64_cases a :
  is_u64 a -> (checked_add64 a 1 = Some (a + 1) /\ a < u64_max)
              \/ (checked_add64 a 1 = None /\ a = u64_max).
Proof.
  unfold is_u64, checked_add64. intros H. destruct (Z.leb_spec (a + 1) u64_max); [left|right];
    (split; [done|lia]).
Qed.

(** Lexicographic comparison of the numbers. *)
Definition cmp_nums (v w : Version) : comparison :=
  cmp_then (cmp_on major Z.compare)
    (cmp_then (cmp_on minor Z.compare) (cmp_on patch Z.compare)) v w.

(** The comparison by numbers first, then by the prerelease flag. *)
Lemma order_nums v w b1 b2 :
  order_without_build v w b1 b2 =
    match cmp_nums v w with
    | Eq => match has_pre (tag v), has_pre (tag w) with
            | true, false => Lt
            | false, true => Gt
            | true, true => cmp_prerelease (lpre (v, b1)) (lpre (w, b2))
            | false, false => order (lpre (v, b1)) (lpre (w, b2))
            end
    | c => c
    end.
Proof.
  rewrite order_without_build_precedence.
  unfold cmp_precedence, cmp_nums, cmp_then, cmp_on, cmp_split, lhas_pre. cbn [fst snd].
  destruct (major v ?= major w), (minor v ?= minor w), (patch v ?= patch w); try done.
  destruct (has_pre (tag v)), (has_pre (tag w)); try done. by destruct (order _ _).
Qed.

(** Against a release, only the numbers matter, and a prerelease bound on the same
    numbers lies below. *)
Lemma order_release v w b1 b2 :
  is_release v -> wf_tag (tag v) -> wf_tag (tag w) ->
  order_without_build v w b1 b2 =
    match cmp_nums v w with Eq => if has_pre (tag w) then Gt else Eq | c => c end.
Proof.
  unfold is_release. intros Hv Wv Ww. rewrite order_nums, Hv.
  destruct (cmp_nums v w), (has_pre (tag w)) eqn:Hw; try done.
  unfold lpre. cbn [fst snd]. by rewrite !no_pre_slice.
Qed.

Create HintDb semver.

Lemma wf_ZERO_PRE : wf_tag ZERO_PRE.
Proof. decide_now. Qed.
Lemma wf_Tag_default : wf_tag Tag_default.
Proof. decide_now. Qed.
#[export] Hint Resolve wf_ZERO_PRE wf_Tag_default : semver.

Definition nums_eq (v w : Version) : Prop :=
  major v = major w /\ minor v = minor w /\ patch v = patch w.
Definition nums_lt (v w : Version) : Prop :=
  major v < major w
  \/ (major v = major w /\ (minor v < minor w \/ (minor v = minor w /\ patch v < patch w))).

Lemma cmp_nums_spec v w : CompareSpec (nums_eq v w) (nums_lt v w) (nums_lt w v) (cmp_nums v w).
Proof.
  unfold cmp_nums, cmp_then, cmp_on, nums_eq, nums_lt.
  destruct (Z.compare_spec (major v) (major w)), (Z.compare_spec (minor v) (minor w)),
    (Z.compare_spec (patch v) (patch w)); constructor; lia.
Qed.

(** What a comparator asks of a release. *)
Definition release_spec (c : Comparator) (v : Version) : Prop :=
  let w := cversion c in
  match op c with
  | OpUnset => False
  | OpEql => nums_eq v w /\ is_release w
  | OpLt => nums_lt v w
  | OpLte => nums_lt v w \/ (nums_eq v w /\ is_release w)
  | OpGt => nums_lt w v \/ (nums_eq v w /\ ~ is_release w)
  | OpGte => nums_lt w v \/ nums_eq v w
  end.

Lemma nums_lt_irrefl v w : nums_lt v w -> nums_eq v w -> False.
Proof. unfold nums_lt, nums_eq. lia. Qed.
Lemma nums_lt_asym v w : nums_lt v w -> nums_lt w v -> False.
Proof. unfold nums_lt. lia. Qed.

Lemma is_zero_nums v w : nums_ok w -> is_zero v = true -> ~ nums_lt w v.
Proof.
  unfold is_zero, nums_ok, is_u64, nums_lt. rewrite !andb_true_iff, !Z.eqb_eq. lia.
Qed.

Lemma satisfies_release c v cb vb :
  is_release v -> nums_ok v -> wf_tag (tag v) -> wf_tag (tag (cversion c)) ->
  comparator_satisfies c v cb vb = true <-> release_spec c v.
Proof.
  intros Hv Hok Wv Wc. unfold comparator_satisfies. rewrite order_release by done.
  unfold release_spec, is_release. pose proof (is_zero_nums (cversion c) v Hok) as Hz.
  destruct (cmp_nums_spec v (cversion c)) as [H|H|H];
    pose proof (nums_lt_irrefl v (cversion c)); pose proof (nums_lt_irrefl (cversion c) v);
    pose proof (nums_lt_asym v (cversion c)); unfold nums_eq in *.
  - destruct (has_pre (tag (cversion c))), (op c); intuition (try discriminate; try lia).
  - destruct (op c); try (intuition (try discriminate; try lia); fail).
    destruct (is_zero (cversion c)); intuition (try discriminate; try lia).
  - destruct (op c); intuition (try discriminate; try lia).
Qed.

(** The proof steps for a bound on a release: both sides become inequalities. *)
Ltac release_bound :=
  rewrite satisfies_release by (done || auto with semver);
  unfold release_spec, cmp_of, mk_version, nums_lt, nums_eq, is_release; cbn [op cversion major minor patch tag].

Definition floor_ok (t : Tag) : Prop := t = Tag_default \/ t = ZERO_PRE.
Lemma wf_floor t : floor_ok t -> wf_tag t.
Proof. intros [-> | ->]; auto with semver. Qed.
#[export] Hint Resolve wf_floor : semver.

Section Bounds.
Context (v : Version) (cb vb : bytes).
Context (Hv : is_release v) (Hok : nums_ok v) (Hwf : wf_tag (tag v)).

Lemma has_pre_ZERO_PRE : has_pre ZERO_PRE = true.
Proof. done. Qed.

Lemma null_set_sat : comparator_satisfies null_set v cb vb = true <-> False.
Proof. destruct Hok as (H1 & H2 & H3). unfold is_u64 in *. unfold null_set. release_bound. lia. Qed.

Lemma lt_next_major_sat M :
  is_u64 M -> comparator_satisfies (lt_next_major M) v cb vb = true <-> major v <= M.
Proof.
  intros HM. destruct Hok as (H1 & H2 & H3). unfold is_u64 in *. unfold lt_next_major.
  destruct (checked_add64_cases M HM) as [[-> ?]|[-> ->]]; release_bound;
    [lia|]. change (has_pre Tag_default) with false. lia.
Qed.

Lemma lt_next_minor_sat M m :
  is_u64 M -> is_u64 m ->
  comparator_satisfies (lt_next_minor M m) v cb vb = true
  <-> major v < M \/ (major v = M /\ minor v <= m).
Proof.
  intros HM Hm. destruct Hok as (H1 & H2 & H3). unfold is_u64 in *. unfold lt_next_minor.
  destruct (checked_add64_cases m Hm) as [[-> ?]|[-> ->]]; release_bound;
    [lia|]. change (has_pre Tag_default) with false. lia.
Qed.

Lemma lt_next_patch_sat M m p :
  is_u64 M -> is_u64 m -> is_u64 p ->
  comparator_satisfies (lt_next_patch M m p) v cb vb = true
  <-> major v < M \/ (major v = M /\ (minor v < m \/ (minor v = m /\ patch v <= p))).
Proof.
  intros HM Hm Hp. destruct Hok as (H1 & H2 & H3). unfold is_u64 in *. unfold lt_next_patch.
  destruct (checked_add64_cases p Hp) as [[-> ?]|[-> ->]]; release_bound;
    [lia|]. change (has_pre Tag_default) with false. lia.
Qed.

Lemma gte_next_major_sat M t :
  is_u64 M -> floor_ok t -> comparator_satisfies (gte_next_major M t) v cb vb = true <-> M < major v.
Proof.
  intros HM Ht. destruct Hok as (H1 & H2 & H3). unfold is_u64 in *. unfold gte_next_major.
  destruct (checked_add64_cases M HM) as [[-> ?]|[-> ->]]; [release_bound; lia|].
  rewrite null_set_sat. lia.
Qed.

Lemma gte_next_minor_sat M m t :
  is_u64 M -> is_u64 m -> floor_ok t ->
  comparator_satisfies (gte_next_minor M m t) v cb vb = true
  <-> M < major v \/ (major v = M /\ m < minor v).
Proof.
  intros HM Hm Ht. destruct Hok as (H1 & H2 & H3). unfold is_u64 in *. unfold gte_next_minor.
  destruct (checked_add64_cases m Hm) as [[-> ?]|[-> ->]]; [release_bound; lia|].
  rewrite gte_next_major_sat by done. lia.
Qed.
End Bounds.

(** C40.  The derived bounds at every 64-bit number, the ceiling included: a release
    satisfies [lt_next_major M] exactly when its major number is at most [M], and so
    on for the minor and patch bounds; [gte_next_*] are strictly above, and match
    nothing when no number is. *)
Theorem derived_bounds v cb vb M m p t :
  is_release v -> nums_ok v -> wf_tag (tag v) ->
  is_u64 M -> is_u64 m -> is_u64 p -> floor_ok t ->
  (comparator_satisfies (lt_next_major M) v cb vb = true <-> major v <= M)
  /\ (comparator_satisfies (lt_next_minor M m) v cb vb = true
      <-> major v < M \/ (major v = M /\ minor v <= m))
  /\ (comparator_satisfies (lt_next_patch M m p) v cb vb = true
      <-> major v < M \/ (major v = M /\ (minor v < m \/ (minor v = m /\ patch v <= p))))
  /\ (comparator_satisfies (gte_next_major M t) v cb vb = true <-> M < major v)
  /\ (comparator_satisfies (gte_next_minor M m t) v cb vb = true
      <-> M < major v \/ (major v = M /\ m < minor v)).
Proof.
  intros. splits; [by apply lt_next_major_sat|by apply lt_next_minor_sat|by apply lt_next_patch_sat
                  |by apply gte_next_major_sat|by apply gte_next_minor_sat].
Qed.

Lemma derived_bounds_witness :
  let v := mk_version u64_max u64_max 7 Tag_default in
  (comparator_satisfies (lt_next_major u64_max) v [] [] = true <-> major v <= u64_max)
  /\ (comparator_satisfies (lt_next_minor u64_max u64_max) v [] [] = true
      <-> major v < u64_max \/ (major v = u64_max /\ minor v <= u64_max))
  /\ (comparator_satisfies (lt_next_patch u64_max u64_max 7) v [] [] = true
      <-> major v < u64_max
          \/ (major v = u64_max /\ (minor v < u64_max \/ (minor v = u64_max /\ patch v <= 7))))
  /\ (comparator_satisfies (gte_next_major u64_max ZERO_PRE) v [] [] = true <-> u64_max < major v)
  /\ (comparator_satisfies (gte_next_minor u64_max u64_max ZERO_PRE) v [] [] = true
      <-> u64_max < major v \/ (major v = u64_max /\ u64_max < minor v)).
Proof.
  intros v. apply (derived_bounds v [] [] u64_max u64_max 7 ZERO_PRE);
    [decide_now|decide_now|decide_now|unfold is_u64; lia..|by right].
Defined.
