(* ===== verification/SemverQuery.v ===== *)
(** * Range queries (src/semver/SemverQuery.rs)

    A [Query] is an AND chain of ranges, a [List] node of a [Group] holds one
    alternative, and a [Group] is the OR of its alternatives.  The boxed [next]
    chains are lists; the raw [tail] pointers into them are indices, and the
    operations write through the index as the code writes through the pointer.
    Then the desugaring of a token ([to_range]) and the range parser. *)

From S2P Require Import Prelude Bytes SemverString SemverVersion SemverRange.

(** ** Data *)
Record Query := { q_range : Range; q_next : list Range }.
(** A [List] node; its [tail] points at the [k]-th node of [head.next]. *)
Record ListNode := { l_head : Query; l_tail : option nat }.

Abbreviation FlagsBitSet := Z.
Record Group := {
  g_head : ListNode; g_next : list ListNode; g_tail : option nat; g_flags : FlagsBitSet
}.

Definition FLAG_PRE : Z := 1.
Definition FLAG_BUILD : Z := 0.
Definition FLAG_SKIPPED : Z := 2.
(** [IntegerBitSet::set] and [is_set] *)
Definition set_flag (f : FlagsBitSet) (i : Z) : FlagsBitSet := Z.lor f (Z.shiftl 1 i).
Definition is_set (f : FlagsBitSet) (i : Z) : bool := Z.testbit f i.

Definition Query_default : Query := {| q_range := Range_default; q_next := [] |}.
Definition List_default : ListNode := {| l_head := Query_default; l_tail := None |}.
Definition Group_default : Group :=
  {| g_head := List_default; g_next := []; g_tail := None; g_flags := 0 |}.

(** ** Query *)
Definition query_chain (q : Query) : list Range := q_range q :: q_next q.

Definition exact_version (q : Query) : option Version :=
  if bool_decide (q_next q = []) && bool_decide (op (left (q_range q)) = OpEql)
     && negb (has_right (q_range q))
  then Some (cversion (left (q_range q))) else None.

Fixpoint chain_eql (c rhs : list Range) : bool :=
  match c, rhs with
  | [], [] => true
  | r :: c, r' :: rhs => range_eql r r' && chain_eql c rhs
  | _, _ => false
  end.
Definition query_eql (q rhs : Query) : bool := chain_eql (query_chain q) (query_chain rhs).

Fixpoint chain_satisfies (c : list Range) (v : Version) (query_buf version_buf : bytes) : bool :=
  match c with
  | [] => true
  | r :: c =>
      if negb (range_satisfies r v query_buf version_buf) then false
      else chain_satisfies c v query_buf version_buf
  end.
Definition query_satisfies (q : Query) := chain_satisfies (query_chain q).

(** The loop of [Query::satisfies_pre] threads [*pre_matched]. *)
Fixpoint chain_satisfies_pre (c : list Range) (v : Version) (query_buf version_buf : bytes)
    (pre_matched : bool) : bool * bool :=
  match c with
  | [] => (true, pre_matched)
  | r :: c =>
      let '(ok, pre_matched) := range_satisfies_pre r v query_buf version_buf pre_matched in
      if negb ok then (false, pre_matched)
      else chain_satisfies_pre c v query_buf version_buf pre_matched
  end.
Definition query_satisfies_pre (q : Query) := chain_satisfies_pre (query_chain q).

Definition query_fmt (q : Query) (buf : bytes) : bytes :=
  match q_next q with
  | r :: _ =>
      if has_left r || has_right r
      then range_fmt (q_range q) buf ++ bstr " && " ++ range_fmt r buf
      else range_fmt (q_range q) buf
  | [] => range_fmt (q_range q) buf
  end.

(** ** List *)
Fixpoint list_satisfies (l : list ListNode) (v : Version) (list_buf version_buf : bytes) : bool :=
  match l with
  | [] => false
  | n :: l =>
      if query_satisfies (l_head n) v list_buf version_buf then true
      else list_satisfies l v list_buf version_buf
  end.

Fixpoint list_satisfies_pre (l : list ListNode) (v : Version) (list_buf version_buf : bytes)
  : bool :=
  match l with
  | [] => false
  | n :: l =>
      let '(ok, pre_matched) := query_satisfies_pre (l_head n) v list_buf version_buf false in
      if ok && pre_matched then true else list_satisfies_pre l v list_buf version_buf
  end.

Fixpoint list_eql (l rhs : list ListNode) : bool :=
  match l, rhs with
  | [], [] => true
  | n :: l, n' :: rhs => query_eql (l_head n) (l_head n') && list_eql l rhs
  | _, _ => false
  end.

(** [node.next.insert(Box::new(x))] on the [k]-th node: what followed is dropped. *)
Definition insert_after {A} (l : list A) (k : nat) (x : A) : list A := take (S k) l ++ [x].

Definition list_and_range (l : ListNode) (range : Range) : ListNode :=
  let q := l_head l in
  if negb (has_left (q_range q)) && negb (has_right (q_range q))
  then {| l_head := {| q_range := range; q_next := q_next q |}; l_tail := l_tail l |}
  else match l_tail l with
       | Some k => {| l_head := {| q_range := q_range q; q_next := insert_after (q_next q) k range |};
                      l_tail := Some (S k) |}
       | None => {| l_head := {| q_range := q_range q; q_next := [range] |}; l_tail := Some 0%nat |}
       end.

Fixpoint list_fmt (n : ListNode) (l : list ListNode) (buf : bytes) : bytes :=
  match l with
  | [] => query_fmt (l_head n) buf
  | n' :: l => query_fmt (l_head n) buf ++ bstr " || " ++ list_fmt n' l buf
  end.

(** ** Group *)
Definition group_lists (g : Group) : list ListNode := g_head g :: g_next g.

Definition from_comparator (l : Comparator) : Group :=
  {| g_head := {| l_head := {| q_range := range_left l; q_next := [] |}; l_tail := None |};
     g_next := []; g_tail := None; g_flags := 0 |}.
Definition group_from (v : Version) : Group := from_comparator (cmp_of OpEql v).
Definition group_null_set : Group := from_comparator null_set.

Definition get_exact_version (g : Group) : option Version :=
  match g_next g with _ :: _ => None | [] => exact_version (l_head (g_head g)) end.

Definition is_exact (g : Group) : bool :=
  bool_decide (length (g_next g) = 0%nat) && bool_decide (length (q_next (l_head (g_head g))) = 0%nat)
  && negb (has_right (q_range (l_head (g_head g))))
  && bool_decide (op (left (q_range (l_head (g_head g)))) = OpEql).

Definition is_star (g : Group) : bool :=
  let r := q_range (l_head (g_head g)) in
  bool_decide (op (right r) = OpUnset) && bool_decide (op (left r) = OpGte)
  && bool_decide (length (g_next g) = 0%nat)
  && bool_decide (length (q_next (l_head (g_head g))) = 0%nat)
  && is_zero (cversion (left r)) && negb (is_set (g_flags g) FLAG_BUILD).

Definition group_eql (g rhs : Group) : bool := list_eql (group_lists g) (group_lists rhs).

Definition group_and_range (g : Group) (range : Range) : Group :=
  match g_tail g with
  | Some k => {| g_head := g_head g;
                 g_next := alter (fun l => list_and_range l range) k (g_next g);
                 g_tail := g_tail g; g_flags := g_flags g |}
  | None => {| g_head := list_and_range (g_head g) range; g_next := g_next g;
               g_tail := g_tail g; g_flags := g_flags g |}
  end.

Definition or_node (range : Range) : ListNode :=
  {| l_head := {| q_range := range; q_next := [] |}; l_tail := None |}.

Definition is_None {A} (o : option A) : bool := match o with None => true | Some _ => false end.

Definition group_or_range (g : Group) (range : Range) : Group :=
  if is_None (g_tail g) && is_None (l_tail (g_head g))
     && negb (has_left (q_range (l_head (g_head g))))
  then {| g_head := {| l_head := {| q_range := range; q_next := q_next (l_head (g_head g)) |};
                       l_tail := l_tail (g_head g) |};
          g_next := g_next g; g_tail := g_tail g; g_flags := g_flags g |}
  else match g_tail g with
       | Some k => {| g_head := g_head g; g_next := insert_after (g_next g) k (or_node range);
                      g_tail := Some (S k); g_flags := g_flags g |}
       | None => {| g_head := g_head g; g_next := [or_node range];
                    g_tail := Some 0%nat; g_flags := g_flags g |}
       end.

Definition group_satisfies (g : Group) (v : Version) (group_buf version_buf : bytes) : bool :=
  if has_pre (tag v) then list_satisfies_pre (group_lists g) v group_buf version_buf
  else list_satisfies (group_lists g) v group_buf version_buf.

Definition group_is_empty (g : Group) : bool :=
  bool_decide (length (g_next g) = 0%nat) && bool_decide (length (q_next (l_head (g_head g))) = 0%nat)
  && negb (has_left (q_range (l_head (g_head g)))).

Definition has_skipped (g : Group) : bool := is_set (g_flags g) FLAG_SKIPPED.

Definition satisfies_including_prerelease (g : Group) (v : Version)
    (group_buf version_buf : bytes) : bool :=
  list_satisfies (group_lists g) v group_buf version_buf.

(** [GroupFormatter]: [list.fmt] prints the node and everything after it. *)
Fixpoint group_fmt_lists (n : ListNode) (l : list ListNode) (buf : bytes) : bytes :=
  match l with
  | [] => list_fmt n [] buf
  | n' :: l' => list_fmt n l buf ++ bstr " && " ++ group_fmt_lists n' l' buf
  end.

Definition group_fmt (g : Group) (buf : bytes) : bytes :=
  if is_None (g_tail g) && is_None (l_tail (g_head g))
     && negb (has_left (q_range (l_head (g_head g)))) then []
  else if is_None (g_tail g) && is_None (l_tail (g_head g))
  then list_fmt (g_head g) (g_next g) buf
  else group_fmt_lists (g_head g) (g_next g) buf.

(** ** Tokens *)
Inductive TokenTag := TkNone | TkGt | TkGte | TkLt | TkLte | TkVersion | TkTilda | TkCaret.
#[export] Instance TokenTag_eq_dec : EqDecision TokenTag.
Proof. solve_decision. Defined.
Record Token := { tk_tag : TokenTag; tk_wildcard : Wildcard }.
Definition Token_default : Token := {| tk_tag := TkNone; tk_wildcard := WNone |}.

Definition set_pre_of (t floor : Tag) : Tag := {| pre := pre floor; build := build t |}.

Definition caret_range (parsed : ParseResult) (floor : Tag) : Range :=
  let v := version parsed in
  match pmajor v with
  | None => if valid parsed then init_wildcard (pmin v) WMajor floor else Range_default
  | Some major =>
      match pminor v with
      | Some minor =>
          match ppatch v with
          | Some patch =>
              if major =? 0 then
                let t := if negb (has_pre (ptag v)) then set_pre_of (ptag v) floor else ptag v in
                {| left := cmp_of OpGte (mk_version major minor patch t);
                   right := if minor =? 0 then lt_next_patch 0 0 patch else lt_next_minor 0 minor |}
              else
                {| left := cmp_of OpGte (mk_version major minor patch (ptag v));
                   right := lt_next_major major |}
          | None =>
              {| left := cmp_of OpGte (mk_version major minor 0 floor);
                 right := if major =? 0 then lt_next_minor 0 minor else lt_next_major major |}
          end
      | None => {| left := cmp_of OpGte (mk_version major 0 0 floor); right := lt_next_major major |}
      end
  end.

Definition tilda_range (parsed : ParseResult) (floor : Tag) : Range :=
  let v := version parsed in
  match pmajor v with
  | None => if valid parsed then init_wildcard (pmin v) WMajor floor else Range_default
  | Some major =>
      match pminor v with
      | Some minor =>
          {| left := cmp_of OpGte
               (match ppatch v with
                | Some patch => mk_version major minor patch (ptag v)
                | None => mk_version major minor 0 Tag_default
                end);
             right := lt_next_minor major minor |}
      | None => {| left := cmp_of OpGte (mk_version major 0 0 Tag_default);
                   right := lt_next_major major |}
      end
  end.

(** node-semver's [replaceXRange], for the operators [o]. *)
Definition x_range (o : Op) (w : Wildcard) (parsed : ParseResult) (floor : Tag) : Range :=
  let v := version parsed in
  let major := default 0 (pmajor v) in
  let minor := default 0 (pminor v) in
  let first_of_partial t := cmp_of o (mk_version major minor 0 t) in
  match w with
  | WNone => range_left (cmp_of o (pmin v))
  | WMajor =>
      match o with
      | OpGt | OpLt => if valid parsed then range_left null_set
                       else init_wildcard (pmin v) WMajor floor
      | _ => init_wildcard (pmin v) WMajor floor
      end
  | WMinor =>
      range_left match o with
      | OpGte => first_of_partial floor
      | OpLt => first_of_partial ZERO_PRE
      | OpGt => gte_next_major major floor
      | _ => lt_next_major major
      end
  | WPatch =>
      range_left match o with
      | OpGte => first_of_partial floor
      | OpLt => first_of_partial ZERO_PRE
      | OpGt => gte_next_minor major minor floor
      | _ => lt_next_minor major minor
      end
  end.

(** [to_range]; [None] is [unreachable!()]. *)
Definition to_range (t : Token) (parsed : ParseResult) (floor : Tag) : option Range :=
  match tk_tag t with
  | TkCaret => Some (caret_range parsed floor)
  | TkTilda => Some (tilda_range parsed floor)
  | TkNone => None
  | TkVersion =>
      Some (match tk_wildcard t with
            | WNone => range_left (cmp_of OpEql (pmin (version parsed)))
            | w => init_wildcard (pmin (version parsed)) w floor
            end)
  | TkGt => Some (x_range OpGt (tk_wildcard t) parsed floor)
  | TkGte => Some (x_range OpGte (tk_wildcard t) parsed floor)
  | TkLt => Some (x_range OpLt (tk_wildcard t) parsed floor)
  | TkLte => Some (x_range OpLte (tk_wildcard t) parsed floor)
  end.

(** [Range::caret] *)
Definition caret (v : Version) : option Range :=
  to_range {| tk_tag := TkCaret; tk_wildcard := WNone |}
    {| wildcard := WNone; valid := true; overflow := false;
       version := {| pmajor := Some (major v); pminor := Some (minor v);
                     ppatch := Some (patch v); ptag := tag v |};
       pr_len := 0 |} Tag_default.

(** ** The range parser *)
Record QueryState := {
  q_i : nat; q_list : Group; q_token : Token; q_is_or : bool; q_after_comparator : bool
}.

Definition set_flags (g : Group) (f : FlagsBitSet) : Group :=
  {| g_head := g_head g; g_next := g_next g; g_tail := g_tail g; g_flags := f |}.
Definition flag_if (b : bool) (i : Z) (g : Group) : Group :=
  if b then set_flags g (set_flag (g_flags g) i) else g.

Definition is_space (c : Z) : bool := c =? " "%u8.
Definition is_hyphen (c : Z) : bool := c =? "-"%u8.
(** [while i < input.len() && input[i] == b' ' { i += 1 }] *)
Definition skip_spaces (input : bytes) (i : nat) : nat := skip_while is_space input i.
Definition is_version_start (c : Z) : bool := in_range "0"%u8 "9"%u8 c || one_of (bstr "Xx*") c.

(** The block ['possibly_hyphenate]: where the second version starts. *)
Definition possibly_hyphenate (input : bytes) (i : nat) : option nat :=
  let skip_ws i := (i + length_of_leading_whitespace_ascii (drop i input))%nat in
  let at_end i := (i =? length input)%nat in
  let i := skip_ws i in
  if negb (char_at is_hyphen input i) then None
  else
    let i := skip_ws (S i) in
    if at_end i then None
    else
      let i := if char_at (one_of (bstr "v=")) input i then S i else i in
      if at_end i then None
      else
        let i := skip_ws i in
        if at_end i then None
        else if char_at is_version_start input i then Some i else None.

(** The flags that a parsed version sets. *)
Definition version_flags (r : ParseResult) (g : Group) : Group :=
  let v := pmin (version r) in
  flag_if (has_pre (tag v)) FLAG_PRE
    (flag_if (has_build (tag v)) FLAG_BUILD (flag_if (negb (valid r)) FLAG_SKIPPED g)).

(** The upper bound of [a - b]. *)
Definition hyphen_right (second : ParseResult) (floor : Tag) : Comparator :=
  let v := pmin (version second) in
  match wildcard second with
  | WMajor => Comparator_default
  | WMinor => lt_next_major (major v)
  | WPatch => lt_next_minor (major v) (minor v)
  | WNone => if has_pre floor && negb (has_pre (tag v))
             then lt_next_patch (major v) (minor v) (patch v)
             else cmp_of OpLte v
  end.

Definition hyphen_range (first second : ParseResult) (floor : Tag) : Range :=
  let v := pmin (version first) in
  let t := if negb (has_pre (tag v)) then set_pre_of (tag v) floor else tag v in
  {| left := cmp_of OpGte (mk_version (major v) (minor v) (patch v) t);
     right := hyphen_right second floor |}.

Section ParseWith.
Context (input : slice) (sliced : SlicedString) (floor : Tag).
Local Abbreviation text := (s_bytes input).

(** [Version::parse(sliced.sub(&input[i..]))]; [None] panics. *)
Definition parse_at (i : nat) : option ParseResult :=
  if (i <=? length text)%nat then parse u64_ty (sub sliced (subslice input i (length text)))
  else None.

(** The match on [input[i]]: the state, [skip_round] and [no_operator]. *)
Definition query_lead (c : Z) (s : QueryState) : QueryState * bool * bool :=
  let go i tag :=
    {| q_i := i; q_list := q_list s;
       q_token := {| tk_tag := tag; tk_wildcard := tk_wildcard (q_token s) |};
       q_is_or := q_is_or s; q_after_comparator := q_after_comparator s |} in
  let i := q_i s in
  if one_of (bstr "><") c then
    let i := skip_spaces text (S i) in
    let or_equal := char_at (fun c => c =? "="%u8) text i in
    let i := if or_equal then S i else i in
    let tag := if c =? ">"%u8 then (if or_equal then TkGte else TkGt)
               else (if or_equal then TkLte else TkLt) in
    (go (skip_spaces text i) tag, false, false)
  else if one_of (bstr "=v") c then (go (skip_spaces text (S i)) TkVersion, false, true)
  else if c =? "~"%u8 then
    let i := S i in
    let i := if char_at (fun c => c =? ">"%u8) text i then S i else i in
    (go (skip_spaces text i) TkTilda, false, false)
  else if c =? "^"%u8 then (go (skip_spaces text (S i)) TkCaret, false, false)
  else if is_version_start c then (go i TkVersion, false, true)
  else if c =? "|"%u8 then
    let i := skip_while (fun c => c =? "|"%u8) text (S i) in
    let s' := go (skip_spaces text i) TkNone in
    ({| q_i := q_i s'; q_list := q_list s'; q_token := q_token s'; q_is_or := true;
        q_after_comparator := q_after_comparator s' |}, true, false)
  else if is_hyphen c then (go (skip_spaces text (S i)) (tk_tag (q_token s)), false, false)
  else if is_space c then (go (skip_spaces text (S i)) (tk_tag (q_token s)), true, false)
  else
    let i := skip_while (fun c => negb (is_space c) && negb (c =? "|"%u8)) text (S i) in
    ({| q_i := i; q_list := set_flags (q_list s) (set_flag (g_flags (q_list s)) FLAG_SKIPPED);
        q_token := {| tk_tag := TkNone; tk_wildcard := tk_wildcard (q_token s) |};
        q_is_or := q_is_or s; q_after_comparator := false |}, true, false).

(** Adds the range and starts the next token. *)
Definition query_emit (s : QueryState) (range : Range) (i : nat) (is_or valid_ : bool)
    (rollback : nat) (g : Group) : QueryState :=
  {| q_i := i;
     q_list := if is_or then group_or_range g range else group_and_range g range;
     q_token := {| tk_tag := tk_tag (q_token s); tk_wildcard := WNone |};
     q_is_or := false;
     q_after_comparator := valid_ && char_at is_space text rollback |}.

(** The part under [if !skip_round]. *)
Definition query_round (no_operator : bool) (s : QueryState)
  : QueryState + option Group :=
  match parse_at (q_i s) with
  | None => inr None
  | Some pr =>
      if overflow pr then inr (Some group_null_set)
      else
        let g := version_flags pr (q_list s) in
        let rollback := (q_i s + pr_len pr)%nat in
        let maybe_hyphenate := char_at (one_of (bstr " -")) text rollback in
        let hyphenate := if maybe_hyphenate then possibly_hyphenate text rollback else None in
        let valid_ := valid pr && is_None hyphenate in
        let is_or :=
          if no_operator && negb (q_after_comparator s && valid_) then true else q_is_or s in
        match hyphenate with
        | Some i =>
            match parse_at i with
            | None => inr None
            | Some second =>
                if overflow second then inr (Some group_null_set)
                else
                  let g := version_flags second g in
                  inl (query_emit s (hyphen_range pr second floor) (i + (pr_len second + 1))
                         is_or valid_ rollback g)
            end
        | None =>
            let i := S rollback in
            match to_range {| tk_tag := tk_tag (q_token s); tk_wildcard := wildcard pr |} pr floor with
            | None =>
                inl {| q_i := i; q_list := flag_if true FLAG_SKIPPED g;
                       q_token := {| tk_tag := tk_tag (q_token s); tk_wildcard := WNone |};
                       q_is_or := is_or; q_after_comparator := q_after_comparator s |}
            | Some range => inl (query_emit s range i is_or valid_ rollback g)
            end
        end
  end.

Definition query_step (s : QueryState) : QueryState + option Group :=
  match text !! q_i s with
  | None => inr (Some (q_list s))
  | Some c =>
      let '(s, skip_round, no_operator) := query_lead c s in
      if skip_round then inl s else query_round no_operator s
  end.

Definition query_init : QueryState :=
  {| q_i := 0; q_list := Group_default; q_token := Token_default;
     q_is_or := false; q_after_comparator := false |}.

Definition parse_with : option Group :=
  g ← run_loop (S (length text)) query_step query_init; g.
End ParseWith.

Definition query_parse (input : slice) (sliced : SlicedString) : option Group :=
  parse_with input sliced Tag_default.
Definition parse_including_prerelease (input : slice) (sliced : SlicedString) : option Group :=
  parse_with input sliced ZERO_PRE.


(** ** Abstract view: an OR of ANDs *)
Definition alternatives (g : Group) : list (list Range) :=
  (fun n => query_chain (l_head n)) <$> group_lists g.

(** The tail pointer of a chain: its last node, or none when the chain is empty. *)
Definition tail_of {A} (l : list A) : option nat :=
  match l with [] => None | _ :: _ => Some (length l - 1)%nat end.

Definition node_inv (n : ListNode) : Prop := l_tail n = tail_of (q_next (l_head n)).
Definition group_inv (g : Group) : Prop :=
  Forall node_inv (group_lists g) /\ g_tail g = tail_of (g_next g).

(** A range nothing was read into. *)
Definition vacant (r : Range) : bool := negb (has_left r) && negb (has_right r).

(** Adding a range to an alternative, and to the last one of several. *)
Definition and_alternative (c : list Range) (r : Range) : list Range :=
  match c with
  | r0 :: c' => if vacant r0 then r :: c' else c ++ [r]
  | [] => [r]
  end.
Fixpoint and_last (cs : list (list Range)) (r : Range) : list (list Range) :=
  match cs with
  | [] => []
  | [c] => [and_alternative c r]
  | c :: cs => c :: and_last cs r
  end.
(** Adding an alternative: the only range of an empty group is replaced. *)
Definition or_alternative (cs : list (list Range)) (r : Range) : list (list Range) :=
  match cs with
  | [[r0]] => if negb (has_left r0) then [[r]] else cs ++ [[r]]
  | _ => cs ++ [[r]]
  end.

Lemma tail_of_app {A} (l : list A) x : tail_of (l ++ [x]) = Some (length l).
Proof.
  unfold tail_of. destruct (l ++ [x]) eqn:E; [by destruct l|]. rewrite <- E, length_app. cbn.
  f_equal. lia.
Qed.

Lemma insert_after_tail {A} (l : list A) k x : tail_of l = Some k -> insert_after l k x = l ++ [x].
Proof.
  unfold tail_of, insert_after. destruct l as [|y l]; [done|]. intros [= <-].
  rewrite take_ge; [done|]. cbn [length]. lia.
Qed.

Lemma tail_of_None {A} (l : list A) : tail_of l = None -> l = [].
Proof. by destruct l. Qed.
Lemma tail_of_Some {A} (l : list A) k : tail_of l = Some k -> l <> [] /\ S k = length l.
Proof. destruct l; [done|]. intros [= <-]. split; [done|]. cbn [length]. lia. Qed.

Lemma list_and_range_ok n r :
  node_inv n ->
  node_inv (list_and_range n r)
  /\ query_chain (l_head (list_and_range n r)) = and_alternative (query_chain (l_head n)) r.
Proof.
  intros Hn. unfold list_and_range, and_alternative, query_chain, vacant. cbn [q_range q_next].
  destruct (negb (has_left (q_range (l_head n))) && negb (has_right (q_range (l_head n)))).
  { done. }
  unfold node_inv in *. destruct (l_tail n) as [k|] eqn:Et; cbn [l_head l_tail q_next q_range].
  - rewrite insert_after_tail by done. rewrite tail_of_app.
    symmetry in Hn. apply tail_of_Some in Hn as [_ Hk]. by rewrite Hk.
  - symmetry in Hn. apply tail_of_None in Hn. by rewrite Hn.
Qed.

Lemma alter_last (l : list ListNode) k f :
  tail_of l = Some k -> exists l' n, l = l' ++ [n] /\ alter f k l = l' ++ [f n].
Proof.
  intros H. apply tail_of_Some in H as [Hne Hk]. destruct (exists_last Hne) as (l' & n & ->).
  rewrite length_app in Hk. cbn in Hk. replace k with (length l') by lia.
  exists l', n. split; [done|]. rewrite list.alter_app_r_alt by lia. by rewrite Nat.sub_diag.
Qed.

Lemma and_last_app cs c r : and_last (cs ++ [c]) r = cs ++ [and_alternative c r].
Proof.
  induction cs as [|c' cs IH]; [done|]. cbn [app and_last]. rewrite IH.
  by destruct cs.
Qed.

Lemma group_and_range_ok g r :
  group_inv g ->
  group_inv (group_and_range g r)
  /\ alternatives (group_and_range g r) = and_last (alternatives g) r.
Proof.
  intros [Hn Ht]. unfold group_and_range, alternatives, group_lists in *.
  apply Forall_cons in Hn as [Hh Hn]. destruct (g_tail g) as [k|] eqn:E; cbn [g_head g_next].
  - destruct (alter_last (g_next g) k (fun l => list_and_range l r)) as (l' & n & Hl & Ha); [done|].
    rewrite Ha, Hl in *. apply Forall_app in Hn as [Hl' Hn%Forall_inv].
    destruct (list_and_range_ok n r Hn) as [Hn' Hc]. split.
    + split; cbn [g_tail g_next g_head].
      * constructor; [done|]. apply Forall_app. split; [done|]. by constructor.
      * rewrite Ht. by rewrite !tail_of_app.
    + rewrite !fmap_cons, !fmap_app. cbn [fmap list_fmap]. rewrite Hc.
      symmetry. apply (and_last_app (_ :: _)).
  - symmetry in Ht. apply tail_of_None in Ht. destruct (list_and_range_ok (g_head g) r Hh) as [Hh' Hc].
    split.
    + split; cbn [g_head g_next g_tail]; [by constructor|]. by rewrite Ht.
    + rewrite Ht. cbn. by rewrite Hc.
Qed.

Lemma group_or_range_ok g r :
  group_inv g ->
  group_inv (group_or_range g r)
  /\ alternatives (group_or_range g r) = or_alternative (alternatives g) r.
Proof.
  intros [Hn Ht]. unfold group_or_range, alternatives, group_lists in *.
  pose proof Hn as [Hh Hnx]%Forall_cons.
  assert (Hnode : node_inv (or_node r)) by done.
  destruct (g_tail g) as [k|] eqn:E; cbn [is_None andb g_head g_next].
  { rewrite insert_after_tail by done. split.
    - split; cbn [g_tail g_next g_head].
      + constructor; [done|]. apply Forall_app. split; [done|]. by constructor.
      + rewrite tail_of_app. symmetry in Ht. apply tail_of_Some in Ht as [_ Hk]. by rewrite Hk.
    - symmetry in Ht. apply tail_of_Some in Ht as [Hne _].
      rewrite !fmap_cons, !fmap_app. cbn [fmap list_fmap].
      destruct (g_next g) as [|n l]; [done|].
      cbn. by destruct (q_next (l_head (g_head g))). }
  symmetry in Ht. apply tail_of_None in Ht. unfold node_inv in Hh.
  destruct (l_tail (g_head g)) as [k|] eqn:E2; cbn [is_None andb g_head g_next].
  { rewrite Ht. split; [split; cbn; [constructor; [apply (Forall_inv Hn)|by constructor]|done]|].
    symmetry in Hh. apply tail_of_Some in Hh as [Hne _].
    cbn. by destruct (q_next (l_head (g_head g))). }
  symmetry in Hh. apply tail_of_None in Hh. rewrite Ht. cbn [group_lists g_next fmap list_fmap].
  unfold query_chain. rewrite Hh. cbn.
  destruct (negb (has_left (q_range (l_head (g_head g))))); cbn; rewrite ?Ht, ?Hh; (split; [|done]).
  - split; cbn; rewrite ?Ht; [|done]. constructor; [|done]. done.
  - split; cbn; [constructor; [apply (Forall_inv Hn)|by constructor]|done].
Qed.

(** C4.  Refinement of the range lists: writing through the raw [tail] pointers,
    [or_range] and [and_range] add an alternative and extend the last one, exactly
    as the operations on a list of lists do, and the pointers again point at the
    last nodes. *)
Theorem group_ops_refine g r :
  group_inv g ->
  (group_inv (group_and_range g r)
   /\ alternatives (group_and_range g r) = and_last (alternatives g) r)
  /\ (group_inv (group_or_range g r)
      /\ alternatives (group_or_range g r) = or_alternative (alternatives g) r).
Proof. intros H. split; [by apply group_and_range_ok|by apply group_or_range_ok]. Qed.

Lemma group_ops_refine_witness :
  let r := range_left null_set in
  let g := group_or_range (group_and_range (group_and_range Group_default r) r) r in
  (group_inv (group_and_range g r)
   /\ alternatives (group_and_range g r) = and_last (alternatives g) r)
  /\ (group_inv (group_or_range g r)
      /\ alternatives (group_or_range g r) = or_alternative (alternatives g) r).
Proof.
  intros r g. apply (group_ops_refine g r). split; [|reflexivity]. repeat constructor.
Defined.

(** ** Satisfaction *)

(** The prerelease is named by a comparator of the range. *)
Definition range_names_pre (r : Range) (v : Version) : bool :=
  has_left r && (pre_matches (left r) v || (has_right r && pre_matches (right r) v)).

Lemma range_satisfies_pre_spec r v gb vb pm :
  (range_satisfies_pre r v gb vb pm).1 = range_satisfies r v gb vb
  /\ (range_satisfies r v gb vb = true ->
      (range_satisfies_pre r v gb vb pm).2 = pm || range_names_pre r v).
Proof.
  unfold range_satisfies_pre, range_satisfies, range_names_pre.
  destruct (has_left r); cbn [negb andb]; [|split; [done|by rewrite orb_false_r]].
  destruct (comparator_satisfies (left r) v gb vb); cbn [negb]; [|done].
  destruct (has_right r && negb (comparator_satisfies (right r) v gb vb)); cbn [fst snd]; [done|].
  by rewrite orb_assoc.
Qed.

Lemma chain_satisfies_forallb c v gb vb :
  chain_satisfies c v gb vb = forallb (fun r => range_satisfies r v gb vb) c.
Proof.
  induction c as [|r c IH]; cbn [chain_satisfies forallb]; [done|].
  destruct (range_satisfies r v gb vb); [exact IH|done].
Qed.

Lemma chain_satisfies_pre_spec c v gb vb pm :
  (let '(ok, m) := chain_satisfies_pre c v gb vb pm in ok && m)
  = forallb (fun r => range_satisfies r v gb vb) c
    && (pm || existsb (fun r => range_names_pre r v) c).
Proof.
  revert pm. induction c as [|r c IH]; intros pm; cbn [chain_satisfies_pre forallb existsb].
  { by rewrite orb_false_r. }
  destruct (range_satisfies_pre_spec r v gb vb pm) as [H1 H2].
  destruct (range_satisfies_pre r v gb vb pm) as [ok pm']. cbn [fst snd] in *. subst ok.
  destruct (range_satisfies r v gb vb); cbn [negb andb]; [|done].
  rewrite IH, H2 by done. by rewrite orb_assoc.
Qed.

(** C5.  Satisfaction is the OR of the ANDs: a version satisfies a group when it
    satisfies every range of some alternative and, if it is a prerelease, one of
    that alternative's comparators names the same [major.minor.patch] with a
    prerelease of its own; the [pre_matched] flag threaded through the loops with
    their early exits computes just that. *)
Theorem group_satisfies_spec g v gb vb :
  group_satisfies g v gb vb =
  existsb (fun c => forallb (fun r => range_satisfies r v gb vb) c
                    && (negb (has_pre (tag v)) || existsb (fun r => range_names_pre r v) c))
          (alternatives g).
Proof.
  unfold group_satisfies, alternatives. destruct (has_pre (tag v)); cbn [negb orb];
    induction (group_lists g) as [|n l IH];
    cbn [list_satisfies_pre list_satisfies existsb fmap list_fmap]; try done.
  - unfold query_satisfies_pre.
    pose proof (chain_satisfies_pre_spec (query_chain (l_head n)) v gb vb false) as H.
    destruct (chain_satisfies_pre _ v gb vb false) as [ok m]. cbn [orb] in H.
    rewrite H, IH. by destruct (_ && _).
  - unfold query_satisfies. rewrite chain_satisfies_forallb, IH, andb_true_r.
    by destruct (forallb _ _).
Qed.

(** ** The parser is total *)

(** The numbers of every comparator are 64-bit, and a right comparator comes with a
    left one. *)
Definition range_ok (r : Range) : Prop :=
  nums_ok (cversion (left r)) /\ nums_ok (cversion (right r))
  /\ (has_left r = false -> has_right r = false).
Definition group_ok (g : Group) : Prop :=
  group_inv g /\ Forall (Forall range_ok) (alternatives g).

#[export] Instance range_ok_dec r : Decision (range_ok r).
Proof. unfold range_ok. apply _. Defined.
#[export] Instance group_ok_dec g : Decision (group_ok g).
Proof. unfold group_ok, group_inv, node_inv. apply _. Defined.

Lemma nums_ok_mk M m p t : is_u64 M -> is_u64 m -> is_u64 p -> nums_ok (mk_version M m p t).
Proof. unfold nums_ok. by splits. Qed.

Lemma is_u64_consts : is_u64 0 /\ is_u64 u64_max.
Proof. unfold is_u64. lia. Qed.

Section RangeOk.
Ltac bound_ok H := destruct (checked_add64_cases _ H) as [[-> ?]|[-> ?]];
  unfold is_u64 in *; repeat split; cbn; lia.

Lemma nums_null_set : nums_ok (cversion null_set).
Proof. unfold nums_ok, is_u64. cbn. lia. Qed.

Lemma nums_lt_next_major M : is_u64 M -> nums_ok (cversion (lt_next_major M)).
Proof. intros H. unfold lt_next_major. bound_ok H. Qed.
Lemma nums_lt_next_minor M m : is_u64 M -> is_u64 m -> nums_ok (cversion (lt_next_minor M m)).
Proof. intros H' H. unfold lt_next_minor. bound_ok H. Qed.
Lemma nums_lt_next_patch M m p :
  is_u64 M -> is_u64 m -> is_u64 p -> nums_ok (cversion (lt_next_patch M m p)).
Proof. intros H' H'' H. unfold lt_next_patch. bound_ok H. Qed.
Lemma nums_gte_next_major M t : is_u64 M -> nums_ok (cversion (gte_next_major M t)).
Proof. intros H. unfold gte_next_major. bound_ok H. Qed.
Lemma nums_gte_next_minor M m t : is_u64 M -> is_u64 m -> nums_ok (cversion (gte_next_minor M m t)).
Proof.
  intros HM H. unfold gte_next_minor.
  destruct (checked_add64_cases m H) as [[-> ?]|[-> ?]]; [|by apply nums_gte_next_major].
  unfold is_u64 in *; repeat split; cbn; lia.
Qed.
End RangeOk.
#[export] Hint Resolve nums_null_set nums_lt_next_major nums_lt_next_minor nums_lt_next_patch
  nums_gte_next_major nums_gte_next_minor nums_ok_mk : semver.

Lemma num_ok_default n : num_ok u64_ty n -> is_u64 (default 0 n).
Proof. unfold is_u64. destruct n; cbn; lia. Qed.

Lemma nums_pmin p : partial_ok u64_ty p -> nums_ok (pmin p).
Proof. intros (H1 & H2 & H3). unfold nums_ok. splits; cbn; by apply num_ok_default. Qed.

Lemma nums_default : nums_ok (cversion Comparator_default).
Proof. unfold nums_ok, is_u64. cbn. lia. Qed.
#[export] Hint Resolve nums_pmin nums_default : semver.

Lemma range_ok_left c : nums_ok (cversion c) -> range_ok (range_left c).
Proof. intros H. unfold range_ok. splits; [done|apply nums_default|done]. Qed.

(** A left bound that [checked_add] computes is set in both cases. *)
Lemma has_left_op r : op (left r) <> OpUnset -> has_left r = false -> has_right r = false.
Proof. intros H. unfold has_left. by rewrite bool_decide_eq_false_2. Qed.
Lemma lt_next_major_op M : op (lt_next_major M) <> OpUnset.
Proof. unfold lt_next_major. by destruct (checked_add64 M 1). Qed.
Lemma lt_next_minor_op M m : op (lt_next_minor M m) <> OpUnset.
Proof. unfold lt_next_minor. by destruct (checked_add64 m 1). Qed.
#[export] Hint Resolve has_left_op lt_next_major_op lt_next_minor_op : semver.
Ltac range_ok_parts :=
  unfold range_ok; splits; cbn [left right cmp_of cversion]; auto with semver;
  try (apply has_left_op; cbn; auto with semver; discriminate).

Lemma init_wildcard_ok v w floor : nums_ok v -> range_ok (init_wildcard v w floor).
Proof.
  intros (H1 & H2 & H3). pose proof (proj1 is_u64_consts).
  destruct w; cbn [init_wildcard];
    [by apply range_ok_left|apply range_ok_left; by unfold nums_ok|range_ok_parts..];
    by unfold nums_ok.
Qed.

Lemma to_range_ok t pr floor r :
  partial_ok u64_ty (version pr) -> to_range t pr floor = Some r -> range_ok r.
Proof.
  intros Hp. pose proof (nums_pmin _ Hp) as Hmin. pose proof Hp as (H1 & H2 & H3).
  pose proof (num_ok_default _ H1) as D1. pose proof (num_ok_default _ H2) as D2.
  pose proof (proj1 is_u64_consts) as D0.
  assert (Hx : forall o w, range_ok (x_range o w pr floor)).
  { intros o w. unfold x_range.
    destruct w; try (destruct o; try destruct (valid pr));
      first [by apply init_wildcard_ok|apply range_ok_left; cbn [cmp_of cversion]; auto with semver]. }
  assert (Hd : range_ok Range_default) by (unfold range_ok; splits; [apply nums_default..|done]).
  assert (Hw : forall w, range_ok (init_wildcard (pmin (version pr)) w floor))
    by (intros w; by apply init_wildcard_ok).
  unfold to_range. destruct (tk_tag t); intros [= <-]; try apply Hx.
  - destruct (tk_wildcard t);
      [by apply range_ok_left|exact (Hw WMajor)|exact (Hw WMinor)|exact (Hw WPatch)].
  - unfold tilda_range. destruct (pmajor (version pr)) as [M|];
      [|destruct (valid pr); [exact (Hw WMajor)|done]].
    destruct (pminor (version pr)) as [m|], (ppatch (version pr)) as [p|]; cbn in D1, D2;
      range_ok_parts.
  - unfold caret_range. destruct (pmajor (version pr)) as [M|];
      [|destruct (valid pr); [exact (Hw WMajor)|done]].
    destruct (pminor (version pr)) as [m|], (ppatch (version pr)) as [p|]; cbn in D1, D2;
      try destruct (M =? 0); try destruct (m =? 0);
      range_ok_parts.
Qed.

Lemma hyphen_range_ok first second floor :
  partial_ok u64_ty (version first) -> partial_ok u64_ty (version second) ->
  range_ok (hyphen_range first second floor).
Proof.
  intros H1%nums_pmin H2%nums_pmin. pose proof H1 as (A1 & A2 & A3). pose proof H2 as (B1 & B2 & B3).
  unfold hyphen_range. range_ok_parts. unfold hyphen_right. destruct (wildcard second); auto with semver.
  case_match; auto with semver.
Qed.

Lemma and_last_forall (P : Range -> Prop) cs r :
  Forall (Forall P) cs -> P r -> Forall (Forall P) (and_last cs r).
Proof.
  intros H Hr. induction H as [|c cs Hc Hcs IH]; cbn [and_last]; [done|].
  destruct cs as [|c' cs]; [|by constructor].
  constructor; [|done]. unfold and_alternative. destruct c as [|r0 c]; [by constructor|].
  apply Forall_cons in Hc as [Hr0 Hc]. case_match; [by constructor|].
  constructor; [done|]. apply Forall_app. split; [done|]. by constructor.
Qed.

Lemma or_alternative_forall (P : Range -> Prop) cs r :
  Forall (Forall P) cs -> P r -> Forall (Forall P) (or_alternative cs r).
Proof.
  intros H Hr. assert (Happ : Forall (Forall P) (cs ++ [[r]])).
  { apply Forall_app. split; [done|]. by repeat constructor. }
  unfold or_alternative. repeat case_match; try done. by repeat constructor.
Qed.

Lemma group_add_ok g r (is_or : bool) :
  group_ok g -> range_ok r -> group_ok (if is_or then group_or_range g r else group_and_range g r).
Proof.
  intros [Hi Ha] Hr. destruct is_or.
  - destruct (group_or_range_ok g r Hi) as [Hi' Heq]. split; [done|]. rewrite Heq.
    by apply or_alternative_forall.
  - destruct (group_and_range_ok g r Hi) as [Hi' Heq]. split; [done|]. rewrite Heq.
    by apply and_last_forall.
Qed.

Lemma flag_if_ok b i g : group_ok g -> group_ok (flag_if b i g).
Proof. by destruct b. Qed.
Lemma version_flags_ok pr g : group_ok g -> group_ok (version_flags pr g).
Proof. intros H. unfold version_flags. by repeat apply flag_if_ok. Qed.

Lemma group_null_set_ok : group_ok group_null_set.
Proof.
  split; [split; [by repeat constructor|done]|]. apply Forall_singleton, Forall_singleton.
  apply range_ok_left, nums_null_set.
Qed.
Lemma group_default_ok : group_ok Group_default.
Proof.
  split; [split; [by repeat constructor|done]|]. apply Forall_singleton, Forall_singleton.
  unfold range_ok. splits; [apply nums_default..|done].
Qed.

Lemma ws_le s i : (i <= length s)%nat ->
  (i <= i + length_of_leading_whitespace_ascii (drop i s) <= length s)%nat.
Proof.
  intros H. pose proof (count_while_le (one_of WHITESPACE_CHARS) (drop i s)) as Hc.
  rewrite length_drop in Hc. unfold length_of_leading_whitespace_ascii. lia.
Qed.

Lemma possibly_hyphenate_range s i j :
  (i <= length s)%nat -> possibly_hyphenate s i = Some j -> (i < j < length s)%nat.
Proof.
  intros Hi. unfold possibly_hyphenate. pose proof (ws_le s i Hi) as H1.
  set (i1 := (i + _)%nat) in *. destruct (char_at is_hyphen s i1) eqn:E; [|done]. cbn [negb].
  apply char_at_lt in E. pose proof (ws_le s (S i1) ltac:(lia)) as H2.
  set (i2 := (S i1 + _)%nat) in *. destruct (Nat.eqb_spec i2 (length s)); [done|].
  set (i3 := if char_at (one_of (bstr "v=")) s i2 then S i2 else i2).
  assert (H3 : (i2 <= i3 <= length s)%nat).
  { unfold i3. destruct (char_at _ s i2) eqn:E3; [apply char_at_lt in E3|]; lia. }
  destruct (Nat.eqb_spec i3 (length s)); [done|]. pose proof (ws_le s i3 ltac:(lia)) as H4.
  set (i4 := (i3 + _)%nat) in *. destruct (Nat.eqb_spec i4 (length s)); [done|].
  destruct (char_at is_version_start s i4); [|done]. intros [= <-]. lia.
Qed.

Section ParseTotal.
Context (input : slice) (sliced : SlicedString) (floor : Tag).
Local Abbreviation text := (s_bytes input).
Context (Hlen : Z.of_nat (length text) <= u32_max).

Lemma parse_at_ok i :
  (i <= length text)%nat ->
  exists pr, parse_at input sliced i = Some pr /\ (i + pr_len pr <= length text)%nat
    /\ partial_ok u64_ty (version pr).
Proof.
  intros Hi. unfold parse_at. destruct (Nat.leb_spec i (length text)); [|lia].
  assert (Hl : length (s_bytes (subslice input i (length text))) = (length text - i)%nat).
  { unfold subslice. cbn [s_bytes]. rewrite take_ge by (rewrite length_drop; lia).
    apply length_drop. }
  destruct (parse_ok u64_ty (sub sliced (subslice input i (length text)))) as (pr & Hpr & Hle & Hok).
  { cbn [sub ss_slice]. rewrite Hl. lia. }
  exists pr. split; [done|]. cbn [sub ss_slice] in Hle. rewrite Hl in Hle. split; [lia|done].
Qed.

(** The position is in the text, or one past its end; the group is well formed. *)
Definition query_inv (s : QueryState) : Prop := group_ok (q_list s).

Lemma skip_range p i : (i <= length text)%nat -> (i <= skip_while p text i <= length text)%nat.
Proof.
  intros H. pose proof (skip_while_le p text i H). pose proof (skip_while_ge p text i). lia.
Qed.

Lemma query_lead_ok c s s' skip no_op :
  query_inv s -> (q_i s < length text)%nat -> query_lead input c s = (s', skip, no_op) ->
  query_inv s' /\ (q_i s <= q_i s' <= length text)%nat /\ (skip = true -> (q_i s < q_i s')%nat).
Proof.
  intros Hinv Hi. unfold query_lead.
  assert (Hsk : forall p i, (i <= length text)%nat -> (i <= skip_while p text i <= length text)%nat)
    by apply skip_range.
  assert (Hch : forall p i, (i <= length text)%nat ->
    (i <= (if char_at p text i then S i else i) <= length text)%nat).
  { intros p i H. destruct (char_at p text i) eqn:E; [apply char_at_lt in E|]; lia. }
  unfold skip_spaces.
  repeat match goal with |- (if ?b then _ else _) = _ -> _ => destruct b end;
    intros [= <- <- <-]; cbn [q_i q_list]; (split; [exact Hinv|]).
  - pose proof (Hsk is_space (S (q_i s)) ltac:(lia)) as A1.
    pose proof (Hch (fun c => c =? "="%u8) _ (proj2 A1)) as A2.
    pose proof (Hsk is_space _ (proj2 A2)). split; [lia|done].
  - pose proof (Hsk is_space (S (q_i s)) ltac:(lia)). split; [lia|done].
  - pose proof (Hch (fun c => c =? ">"%u8) (S (q_i s)) ltac:(lia)) as A2.
    pose proof (Hsk is_space _ (proj2 A2)). split; [lia|done].
  - pose proof (Hsk is_space (S (q_i s)) ltac:(lia)). split; [lia|done].
  - split; [lia|done].
  - pose proof (Hsk (fun c => c =? "|"%u8) (S (q_i s)) ltac:(lia)) as A1.
    pose proof (Hsk is_space _ (proj2 A1)). split; lia.
  - pose proof (Hsk is_space (S (q_i s)) ltac:(lia)). split; [lia|done].
  - pose proof (Hsk is_space (S (q_i s)) ltac:(lia)). split; lia.
  - pose proof (Hsk (fun c => negb (is_space c) && negb (c =? "|"%u8)) (S (q_i s)) ltac:(lia)).
    split; lia.
Qed.

Lemma query_round_ok no_op s :
  query_inv s -> (q_i s <= length text)%nat ->
  match query_round input sliced floor no_op s with
  | inl s' => query_inv s' /\ (q_i s < q_i s')%nat
  | inr r => exists g, r = Some g /\ group_ok g
  end.
Proof.
  intros Hinv Hi. unfold query_round.
  destruct (parse_at_ok (q_i s) Hi) as (pr & -> & Hl & Hp).
  destruct (overflow pr); [by eauto using group_null_set_ok|].
  pose proof (version_flags_ok pr (q_list s) Hinv) as Hg.
  set (hy := if char_at _ text _ then _ else None).
  assert (Hhy : forall j, hy = Some j -> (q_i s + pr_len pr < j < length text)%nat).
  { intros j. unfold hy. case_match; [|done]. by apply possibly_hyphenate_range. }
  destruct hy as [j|].
  - specialize (Hhy j eq_refl). destruct (parse_at_ok j ltac:(lia)) as (pr2 & -> & Hl2 & Hp2).
    destruct (overflow pr2); [by eauto using group_null_set_ok|].
    split; [|cbn [query_emit q_i]; lia].
    apply group_add_ok; [by apply version_flags_ok|by apply hyphen_range_ok].
  - destruct (to_range _ pr floor) as [r|] eqn:Er; (split; [|cbn [query_emit q_i]; lia]).
    + apply group_add_ok; [done|]. by eapply to_range_ok.
    + by apply flag_if_ok.
Qed.

Lemma parse_with_ok : exists g, parse_with input sliced floor = Some g /\ group_ok g.
Proof.
  unfold parse_with.
  destruct (run_loop_rule (query_step input sliced floor) query_inv
    (fun r => exists g, r = Some g /\ group_ok g) (fun s => length text - q_i s)%nat
    (S (length text)) query_init) as (r & -> & g & -> & Hg).
  - intros s Hs. unfold query_step. destruct (text !! q_i s) as [c|] eqn:E; [|by eauto].
    apply lookup_lt_Some in E.
    destruct (query_lead input c s) as [[s' skip] no_op] eqn:El.
    destruct (query_lead_ok _ _ _ _ _ Hs E El) as (Hs' & Hr & Hskip).
    destruct skip; [split; [done|]; specialize (Hskip eq_refl); lia|].
    pose proof (query_round_ok no_op s' Hs' (proj2 Hr)) as H.
    destruct (query_round _ _ _ no_op s'); [|done]. destruct H. split; [done|lia].
  - apply group_default_ok.
  - cbn [query_init q_i]. lia.
  - by eexists.
Qed.
End ParseTotal.

(** C2.  The range parser is total: on every input below 4 GiB it ends, without
    panicking or reaching the [unreachable!]s, with a group whose tail pointers are
    right and whose comparators hold 64-bit numbers, whatever the floor. *)
Theorem query_parse_total input sliced floor :
  Z.of_nat (length (s_bytes input)) <= u32_max ->
  exists g, parse_with input sliced floor = Some g /\ group_ok g.
Proof. apply parse_with_ok. Qed.

Lemma query_parse_total_witness :
  let t := bstr ">= 1.x - || ~> =v3 -- <18446744073709551615 boop" in
  exists g, parse_with {| s_at := 0; s_bytes := t |} (sliced_init t) ZERO_PRE = Some g /\ group_ok g.
Proof. intros t. apply (query_parse_total {| s_at := 0; s_bytes := t |}). vm_compute. discriminate. Defined.

(** ** What the desugared ranges mean for a release *)

Definition nums_le (v w : Version) : Prop := nums_lt v w \/ nums_eq v w.

(** A parse result with 64-bit numbers and well-formed handles. *)
Definition parsed_ok (pr : ParseResult) : Prop :=
  partial_ok u64_ty (version pr) /\ wf_tag (ptag (version pr)).

#[export] Instance parsed_ok_dec pr : Decision (parsed_ok pr).
Proof. unfold parsed_ok. apply _. Defined.

(** The numbers that [^p] fixes: up to the first non-zero one, or as many as are
    written. *)
Definition caret_fixes (p : Partial) (v : Version) : Prop :=
  match pmajor p with
  | None => True
  | Some M =>
      major v = M /\
      (M = 0 -> match pminor p with
                | None => True
                | Some m =>
                    minor v = m /\
                    (m = 0 -> match ppatch p with None => True | Some q => patch v = q end)
                end)
  end.

(** The numbers that [~p] fixes. *)
Definition tilda_fixes (p : Partial) (v : Version) : Prop :=
  match pmajor p with
  | None => True
  | Some M => major v = M /\ match pminor p with None => True | Some m => minor v = m end
  end.

(** Comparison on the numbers before the wildcard. *)
Definition cmp_prefix (w : Wildcard) (v b : Version) : comparison :=
  match w with
  | WMajor => Eq
  | WMinor => major v ?= major b
  | WPatch => cmp_then (cmp_on major Z.compare) (cmp_on minor Z.compare) v b
  | WNone => cmp_nums v b
  end.

Definition op_holds (o : Op) (c : comparison) : bool :=
  match o, c with
  | OpEql, Eq | OpLt, Lt | OpGt, Gt => true
  | OpLte, (Lt | Eq) | OpGte, (Gt | Eq) => true
  | _, _ => false
  end.

(** The wildcard of a partial version. *)
Definition partial_wildcard (p : Partial) : Wildcard :=
  match pmajor p, pminor p, ppatch p with
  | None, _, _ => WMajor
  | _, None, _ => WMinor
  | _, _, None => WPatch
  | _, _, _ => WNone
  end.

Section Release.
Context (v : Version) (rb vb : bytes).
Context (Hv : is_release v) (Hok : nums_ok v) (Hwf : wf_tag (tag v)).

Lemma range_satisfies_both r :
  op (left r) <> OpUnset -> op (right r) <> OpUnset ->
  range_satisfies r v rb vb = true
  <-> comparator_satisfies (left r) v rb vb = true /\ comparator_satisfies (right r) v rb vb = true.
Proof.
  intros Hl Hr. unfold range_satisfies, has_left, has_right.
  rewrite !bool_decide_eq_false_2 by done. cbn [negb andb].
  destruct (comparator_satisfies (left r) v rb vb), (comparator_satisfies (right r) v rb vb);
    cbn; intuition discriminate.
Qed.

Lemma range_satisfies_left c :
  op c <> OpUnset ->
  range_satisfies (range_left c) v rb vb = comparator_satisfies c v rb vb.
Proof.
  intros Hl. unfold range_satisfies, has_left, has_right. cbn [left right range_left].
  rewrite bool_decide_eq_false_2 by done. cbn. by destruct (comparator_satisfies _ _ _ _).
Qed.

Lemma gte_sat b :
  wf_tag (tag b) -> comparator_satisfies (cmp_of OpGte b) v rb vb = true <-> nums_le b v.
Proof.
  intros Hb. rewrite satisfies_release by done. unfold release_spec, nums_le, nums_eq. cbn. intuition.
Qed.

Lemma lt_next_patch_op M m p : op (lt_next_patch M m p) <> OpUnset.
Proof. unfold lt_next_patch. by case_match. Qed.
Lemma gte_next_major_op M t : op (gte_next_major M t) <> OpUnset.
Proof. unfold gte_next_major. by case_match. Qed.
Lemma gte_next_minor_op M m t : op (gte_next_minor M m t) <> OpUnset.
Proof. unfold gte_next_minor. case_match; [done|apply gte_next_major_op]. Qed.
Local Hint Resolve lt_next_major_op lt_next_minor_op lt_next_patch_op
  gte_next_major_op gte_next_minor_op : core.

Lemma wf_set_pre_of t floor : wf_tag t -> floor_ok floor -> wf_tag (set_pre_of t floor).
Proof. intros [_ H] Hf. apply wf_floor in Hf as [Hf _]. by split. Qed.

(** The goal after [range_satisfies_both]: bounds become inequalities. *)
Ltac range_bound :=
  rewrite range_satisfies_both; [|cbn; discriminate|cbn; auto]; cbn [left right];
  rewrite gte_sat; cbn [mk_version pmin tag]; [|auto using wf_set_pre_of with semver];
  rewrite ?lt_next_major_sat, ?lt_next_minor_sat, ?lt_next_patch_sat;
  [|solve [auto; unfold is_u64; cbn in *; lia]..];
  unfold nums_le, nums_lt, nums_eq; cbn [mk_version pmin major minor patch from_option].

Lemma caret_range_sat pr floor M :
  parsed_ok pr -> floor_ok floor -> pmajor (version pr) = Some M ->
  (pminor (version pr) = None -> ppatch (version pr) = None) ->
  range_satisfies (caret_range pr floor) v rb vb = true
  <-> nums_le (pmin (version pr)) v /\ caret_fixes (version pr) v.
Proof.
  intros [(H1 & H2 & H3) Ht] Hf HM Hmono. destruct Hok as (O1 & O2 & O3). unfold is_u64 in *.
  unfold caret_range, caret_fixes, pmin. rewrite HM in *. cbn [num_ok] in *.
  destruct (pminor (version pr)) as [m|], (ppatch (version pr)) as [q|];
    cbn [num_ok] in *; try (specialize (Hmono eq_refl); discriminate);
    try (destruct (Z.eqb_spec M 0)); try (destruct (Z.eqb_spec m 0)); subst.
  all: try (destruct (has_pre (ptag (version pr))); cbn [negb]).
  all: range_bound; cbn in *; unfold is_u64; try lia.
Qed.

Lemma tilda_range_sat pr floor M :
  parsed_ok pr -> pmajor (version pr) = Some M ->
  (pminor (version pr) = None -> ppatch (version pr) = None) ->
  range_satisfies (tilda_range pr floor) v rb vb = true
  <-> nums_le (pmin (version pr)) v /\ tilda_fixes (version pr) v.
Proof.
  intros [(H1 & H2 & H3) Ht] HM Hmono. destruct Hok as (O1 & O2 & O3). unfold is_u64 in *.
  unfold tilda_range, tilda_fixes, pmin. rewrite HM in *. cbn [num_ok] in *.
  destruct (pminor (version pr)) as [m|], (ppatch (version pr)) as [q|];
    cbn [num_ok] in *; try (specialize (Hmono eq_refl); discriminate).
  all: range_bound; cbn in *; unfold is_u64; lia.
Qed.

(** An operator before a partial version compares the numbers before the wildcard. *)
Lemma x_range_sat o pr floor :
  o = OpGt \/ o = OpGte \/ o = OpLt \/ o = OpLte ->
  parsed_ok pr -> floor_ok floor ->
  partial_wildcard (version pr) = WMinor \/ partial_wildcard (version pr) = WPatch ->
  range_satisfies (x_range o (partial_wildcard (version pr)) pr floor) v rb vb
  = op_holds o (cmp_prefix (partial_wildcard (version pr)) v (pmin (version pr))).
Proof.
  intros Ho [(H1 & H2 & H3) Ht] Hf Hw. destruct Hok as (O1 & O2 & O3). unfold is_u64 in *.
  unfold partial_wildcard in *.
  destruct (pmajor (version pr)) as [M|] eqn:EM; [|destruct Hw; done].
  destruct (pminor (version pr)) as [m|] eqn:Em;
    [destruct (ppatch (version pr)) as [q|]; [destruct Hw; done|]|].
  all: unfold x_range, cmp_prefix, cmp_then, cmp_on, pmin; rewrite EM, Em;
    cbn [from_option major minor num_ok] in *; unfold id.
  all: apply eq_bool_prop_intro; rewrite !Is_true_true.
  all: destruct Ho as [-> |[-> |[-> | ->]]]; rewrite range_satisfies_left by (cbn; auto).
  all: rewrite ?lt_next_major_sat, ?lt_next_minor_sat, ?gte_next_major_sat, ?gte_next_minor_sat
    by (auto; unfold is_u64; cbn in *; lia).
  all: try (release_bound; change (has_pre ZERO_PRE) with true).
  all: destruct (Z.compare_spec (major v) M); cbn [op_holds]; try (intuition (discriminate || lia)).
  all: try (destruct (Z.compare_spec (minor v) m); cbn [op_holds]; intuition (discriminate || lia)).
Qed.

(** A bare partial version, or one behind [=], fixes the numbers before the wildcard. *)
Lemma init_wildcard_sat b w floor :
  nums_ok b -> wf_tag (tag b) -> floor_ok floor -> w <> WNone ->
  range_satisfies (init_wildcard b w floor) v rb vb = op_holds OpEql (cmp_prefix w v b).
Proof.
  intros (B1 & B2 & B3) Hb Hf Hw. destruct Hok as (O1 & O2 & O3).
  apply eq_bool_prop_intro; rewrite !Is_true_true. unfold is_u64 in *.
  destruct w; [done|..]; cbn [init_wildcard cmp_prefix].
  - rewrite range_satisfies_left by done. rewrite gte_sat by (cbn; auto with semver).
    unfold nums_le, nums_lt, nums_eq. cbn. intuition lia.
  - rewrite range_satisfies_both; [|cbn; auto|cbn; discriminate]. cbn [left right].
    rewrite gte_sat by (cbn; auto with semver).
    rewrite lt_next_major_sat by (auto; unfold is_u64; lia).
    unfold nums_le, nums_lt, nums_eq. cbn [mk_version major minor patch].
    destruct (Z.compare_spec (major v) (major b)); cbn [op_holds]; intuition (discriminate || lia).
  - rewrite range_satisfies_both; [|cbn; auto|cbn; discriminate]. cbn [left right].
    rewrite gte_sat by (cbn; auto with semver).
    rewrite lt_next_minor_sat by (auto; unfold is_u64; lia).
    unfold nums_le, nums_lt, nums_eq, cmp_then, cmp_on. cbn [mk_version major minor patch].
    destruct (Z.compare_spec (major v) (major b)), (Z.compare_spec (minor v) (minor b));
      cbn [op_holds]; intuition (discriminate || lia).
Qed.

(** [a - b]: from [a], through every version that the written numbers of [b] admit. *)
Lemma hyphen_range_sat first second floor :
  parsed_ok first -> parsed_ok second -> floor_ok floor ->
  range_satisfies (hyphen_range first second floor) v rb vb = true
  <-> nums_le (pmin (version first)) v
      /\ match cmp_prefix (wildcard second) v (pmin (version second)) with
         | Lt => True
         | Eq => wildcard second = WNone -> is_release (pmin (version second))
         | Gt => False
         end.
Proof.
  intros [H1 Ht1] [H2 Ht2] Hf. pose proof (nums_pmin _ H2) as (B1 & B2 & B3).
  set (b := pmin (version second)) in *. set (a := pmin (version first)) in *.
  assert (Hleft : forall t, wf_tag t ->
    comparator_satisfies (cmp_of OpGte (mk_version (major a) (minor a) (patch a) t)) v rb vb = true
    <-> nums_le a v) by (intros t Hwt; by rewrite gte_sat).
  unfold hyphen_range. fold a. set (t := if _ : bool then _ else _).
  assert (Hwt : wf_tag t).
  { unfold t. case_match; [by apply wf_set_pre_of|done]. }
  unfold hyphen_right. fold b. clearbody t. unfold is_u64 in *. destruct Hok as (O1 & O2 & O3).
  unfold is_u64 in *.
  destruct (wildcard second); cbn [cmp_prefix].
  - case_match eqn:Hc.
    + apply andb_true_iff in Hc as [_ Hb%negb_true_iff].
      rewrite range_satisfies_both by (cbn; auto). cbn [left right]. rewrite Hleft by done.
      rewrite lt_next_patch_sat by (auto; unfold is_u64; lia).
      destruct (cmp_nums_spec v b); unfold nums_lt, nums_eq, is_release in *; intuition lia.
    + rewrite range_satisfies_both by (cbn; auto). cbn [left right]. rewrite Hleft by done.
      rewrite satisfies_release by done. unfold release_spec. cbn [cmp_of op cversion].
      pose proof (nums_lt_irrefl v b). pose proof (nums_lt_asym v b).
      pose proof (nums_lt_irrefl b v). unfold nums_eq in *.
      destruct (cmp_nums_spec v b); unfold nums_eq in *; intuition.
  - unfold range_satisfies, has_left, has_right. cbn [left right op cmp_of Comparator_default].
    rewrite bool_decide_eq_false_2, bool_decide_eq_true_2 by done. cbn [negb andb].
    rewrite <- (Hleft t Hwt). destruct (comparator_satisfies _ v rb vb); cbn; intuition discriminate.
  - rewrite range_satisfies_both by (cbn; auto). cbn [left right]. rewrite Hleft by done.
    rewrite lt_next_major_sat by (auto; unfold is_u64; lia).
    destruct (Z.compare_spec (major v) (major b)); intuition (discriminate || lia).
  - rewrite range_satisfies_both by (cbn; auto). cbn [left right]. rewrite Hleft by done.
    rewrite lt_next_minor_sat by (auto; unfold is_u64; lia). unfold cmp_then, cmp_on.
    destruct (Z.compare_spec (major v) (major b)), (Z.compare_spec (minor v) (minor b));
      intuition (discriminate || lia).
Qed.
End Release.

(** The caret: a release satisfies [^p] exactly when it is at least [p] and has
    the same numbers up to the first non-zero one (or up to the last one written).
    It holds for partial and prerelease [p] and at the ceiling of the integers. *)
Theorem caret_range_spec v rb vb pr floor M :
  is_release v -> nums_ok v -> wf_tag (tag v) ->
  parsed_ok pr -> floor_ok floor -> pmajor (version pr) = Some M ->
  (pminor (version pr) = None -> ppatch (version pr) = None) ->
  range_satisfies (caret_range pr floor) v rb vb = true
  <-> nums_le (pmin (version pr)) v /\ caret_fixes (version pr) v.
Proof. intros. by apply caret_range_sat with M. Qed.

(** Inputs of the witnesses: [0.2.5], and the partial version [0.2]. *)
Definition ex_release : Version := mk_version 0 2 5 Tag_default.
Definition ex_partial : ParseResult :=
  {| wildcard := WPatch; valid := true; overflow := false;
     version := {| pmajor := Some 0; pminor := Some 2; ppatch := None; ptag := Tag_default |};
     pr_len := 3 |}.

Lemma caret_range_spec_witness :
  range_satisfies (caret_range ex_partial ZERO_PRE) ex_release [] [] = true
  <-> nums_le (pmin (version ex_partial)) ex_release /\ caret_fixes (version ex_partial) ex_release.
Proof.
  apply (caret_range_spec ex_release [] [] ex_partial ZERO_PRE 0);
    [decide_now|decide_now|decide_now|decide_now|by right|done|done].
Defined.

(**  The tilde: a release satisfies [~p] exactly when it is at least [p] and has
    the same major and, if written, minor number. *)
Theorem tilda_range_spec v rb vb pr floor M :
  is_release v -> nums_ok v -> wf_tag (tag v) ->
  parsed_ok pr -> pmajor (version pr) = Some M ->
  (pminor (version pr) = None -> ppatch (version pr) = None) ->
  range_satisfies (tilda_range pr floor) v rb vb = true
  <-> nums_le (pmin (version pr)) v /\ tilda_fixes (version pr) v.
Proof. intros. by apply tilda_range_sat with M. Qed.

Lemma tilda_range_spec_witness :
  range_satisfies (tilda_range ex_partial ZERO_PRE) ex_release [] [] = true
  <-> nums_le (pmin (version ex_partial)) ex_release /\ tilda_fixes (version ex_partial) ex_release.
Proof.
  apply (tilda_range_spec ex_release [] [] ex_partial ZERO_PRE 0);
    [decide_now|decide_now|decide_now|decide_now|done|done].
Defined.

(**  Comparators and partial versions: [>], [>=], [<] and [<=] before [1], [1.x],
    [1.2] or [1.2.x] compare the numbers before the wildcard ([>1] starts at [2.0.0],
    [<=1.2] includes every [1.2.z]), also where the next number would overflow; and a
    bare partial version admits the releases with those numbers. *)
Theorem partial_range_spec v rb vb pr floor :
  is_release v -> nums_ok v -> wf_tag (tag v) ->
  parsed_ok pr -> floor_ok floor ->
  let w := partial_wildcard (version pr) in
  w = WMinor \/ w = WPatch ->
  (forall o, o = OpGt \/ o = OpGte \/ o = OpLt \/ o = OpLte ->
     range_satisfies (x_range o w pr floor) v rb vb
     = op_holds o (cmp_prefix w v (pmin (version pr))))
  /\ range_satisfies (init_wildcard (pmin (version pr)) w floor) v rb vb
     = op_holds OpEql (cmp_prefix w v (pmin (version pr))).
Proof.
  intros Hv Hok Hwf Hpr Hf w Hw. split; [intros o Ho; by apply x_range_sat|].
  apply init_wildcard_sat; try done.
  - by apply nums_pmin, Hpr.
  - apply Hpr.
  - by destruct Hw as [-> | ->].
Qed.

Lemma partial_range_spec_witness :
  let w := partial_wildcard (version ex_partial) in
  (forall o, o = OpGt \/ o = OpGte \/ o = OpLt \/ o = OpLte ->
     range_satisfies (x_range o w ex_partial ZERO_PRE) ex_release [] []
     = op_holds o (cmp_prefix w ex_release (pmin (version ex_partial))))
  /\ range_satisfies (init_wildcard (pmin (version ex_partial)) w ZERO_PRE) ex_release [] []
     = op_holds OpEql (cmp_prefix w ex_release (pmin (version ex_partial))).
Proof.
  apply (partial_range_spec ex_release [] [] ex_partial ZERO_PRE);
    [decide_now|decide_now|decide_now|decide_now|by right|by right].
Defined.

(**  A hyphen range [a - b] admits the releases from [a] through every version
    that the written numbers of [b] admit. *)
Theorem hyphen_range_spec v rb vb first second floor :
  is_release v -> nums_ok v -> wf_tag (tag v) ->
  parsed_ok first -> parsed_ok second -> floor_ok floor ->
  range_satisfies (hyphen_range first second floor) v rb vb = true
  <-> nums_le (pmin (version first)) v
      /\ match cmp_prefix (wildcard second) v (pmin (version second)) with
         | Lt => True
         | Eq => wildcard second = WNone -> is_release (pmin (version second))
         | Gt => False
         end.
Proof. intros. by apply hyphen_range_sat. Qed.

Lemma hyphen_range_spec_witness :
  range_satisfies (hyphen_range ex_partial ex_partial Tag_default) ex_release [] [] = true
  <-> nums_le (pmin (version ex_partial)) ex_release
      /\ match cmp_prefix (wildcard ex_partial) ex_release (pmin (version ex_partial)) with
         | Lt => True
         | Eq => wildcard ex_partial = WNone -> is_release (pmin (version ex_partial))
         | Gt => False
         end.
Proof.
  apply (hyphen_range_spec ex_release [] [] ex_partial ex_partial Tag_default);
    [decide_now|decide_now|decide_now|decide_now|decide_now|by left].
Defined.

(** ** Parsing a printed comparator *)
Definition op_prefix (t : TokenTag) : bytes :=
  match t with
  | TkNone | TkVersion => []
  | TkGt => [">"%u8]
  | TkGte => [">"%u8; "="%u8]
  | TkLt => ["<"%u8]
  | TkLte => ["<"%u8; "="%u8]
  | TkTilda => ["~"%u8]
  | TkCaret => ["^"%u8]
  end.

(** [s] starts with a digit. *)
Definition digit_first (s : bytes) : Prop := exists c tl, s = c :: tl /\ 48 <= c <= 57.

Lemma digit_not_space c : 48 <= c <= 57 -> is_space c = false.
Proof. intros H. unfold is_space. apply Z.eqb_neq. lia. Qed.

Lemma skip_spaces_digit text i s :
  drop i text = s -> digit_first s -> skip_spaces text i = i.
Proof.
  intros Hd (c & tl & -> & Hc). unfold skip_spaces.
  rewrite (skip_while_run _ text i [] (c :: tl)); [cbn; lia|done|done|]. by apply digit_not_space.
Qed.

Lemma char_at_digit text i s d :
  drop i text = s -> digit_first s -> ~ 48 <= d <= 57 ->
  char_at (fun c => c =? d) text i = false.
Proof.
  intros Hd (c & tl & -> & Hc) Hn. rewrite (char_at_cons _ _ _ _ _ Hd).
  apply Z.eqb_neq. lia.
Qed.

Lemma query_lead_op input t s :
  s_bytes input = op_prefix t ++ s -> t <> TkNone -> digit_first s ->
  exists c, s_bytes input !! 0%nat = Some c /\
  query_lead input c query_init =
    ({| q_i := length (op_prefix t); q_list := Group_default;
        q_token := {| tk_tag := t; tk_wildcard := WNone |};
        q_is_or := false; q_after_comparator := false |},
     false, bool_decide (t = TkVersion)).
Proof.
  intros Ht Hn Hs.
  assert (Hd : drop (length (op_prefix t)) (s_bytes input) = s) by (by rewrite Ht, drop_app_length).
  pose proof (skip_spaces_digit _ _ _ Hd Hs) as Hsk.
  assert (H61 : char_at (fun c => c =? 61) (s_bytes input) (length (op_prefix t)) = false)
    by (apply (char_at_digit _ _ s); [done|done|lia]).
  assert (H62 : char_at (fun c => c =? 62) (s_bytes input) (length (op_prefix t)) = false)
    by (apply (char_at_digit _ _ s); [done|done|lia]).
  destruct t; try done; cbn [op_prefix length app] in *.
  5:{ destruct Hs as (c & tl & -> & Hc). exists c. split; [by rewrite Ht|].
      unfold query_lead. cbn [query_init q_i q_list q_token q_is_or q_after_comparator].
      assert (one_of (bstr "><") c = false /\ one_of (bstr "=v") c = false) as [-> ->].
      { unfold one_of. cbn. rewrite !orb_false_iff, !Z.eqb_neq. lia. }
      destruct (Z.eqb_spec c "~"%u8), (Z.eqb_spec c "^"%u8); try lia.
      assert (is_version_start c = true) as ->; [|done].
      unfold is_version_start, in_range. apply orb_true_iff. left.
      apply andb_true_iff. rewrite !Z.leb_le. lia. }
  all: eexists; split; [by rewrite Ht|].
  all: unfold query_lead; cbn [query_init q_i q_list q_token q_is_or q_after_comparator].
  1,3: change (one_of (bstr "><") _) with true; cbn iota; by rewrite Hsk, H61, Hsk.
  1,2: change (one_of (bstr "><") _) with true; cbn iota;
    assert (skip_spaces (s_bytes input) 1 = 1%nat) as -> by by rewrite Ht.
  1,2: assert (char_at (fun c => c =? "="%u8) (s_bytes input) 1 = true) as -> by by rewrite Ht.
  1,2: by rewrite Hsk.
  - cbn -[skip_spaces char_at]. by rewrite H62, Hsk.
  - cbn -[skip_spaces char_at]. by rewrite Hsk.
Qed.


Lemma digit_first_fmt T `{!VersionInt T} v buf : printable T v buf -> digit_first (version_fmt v buf).
Proof.
  intros ((HM & _) & _). pose proof (vi_max (T:=T)).
  destruct (show_head (major v)) as (c & ds & Hc & Hr); [unfold u128_max; lia|].
  rewrite version_fmt_text, Hc. by exists c; eexists.
Qed.

(** The parse result of the text of [v] at an offset of [text]. *)
Definition parsed_of (v : Version) (buf text : bytes) (pr : ParseResult) : Prop :=
  exists t, pr = {| wildcard := WNone; valid := true; overflow := false;
                    version := full v t; pr_len := length (version_fmt v buf) |}
    /\ wf_tag t /\ same_version v buf (pmin (full v t)) text.

Lemma parse_at_fmt xs v buf :
  let text := xs ++ version_fmt v buf in
  printable u64_ty v buf -> Z.of_nat (length text) < 2147483648 ->
  exists pr, parse_at {| s_at := 0; s_bytes := text |} (sliced_init text) (length xs) = Some pr
    /\ parsed_of v buf text pr.
Proof.
  intros text Hv Hl.
  assert (Hd : drop (length xs) text = version_fmt v buf) by apply drop_app_length.
  assert (Hlen : length text = (length xs + length (version_fmt v buf))%nat) by apply length_app.
  unfold parse_at. cbn [s_bytes]. destruct (Nat.leb_spec (length xs) (length text)); [|lia].
  unfold sub, subslice. cbn [sliced_init ss_buf s_at s_bytes].
  rewrite Hd, take_ge by lia. rewrite (parse_fmt u64_ty) by done.
  eexists. split; [done|]. eexists. split; [done|].
  apply and_comm. apply (parsed_tag_ok u64_ty); [done|lia|].
  unfold slice_in. cbn [ss_slice s_bytes s_at]. rewrite Nat.add_0_l, Hd, firstn_all. split; [done|lia].
Qed.

Lemma parsed_of_ok v buf text pr :
  printable u64_ty v buf -> parsed_of v buf text pr -> parsed_ok pr.
Proof.
  intros ((H1 & H2 & H3) & _) (t & -> & Hwf & _). split; [|done].
  by split_and!.
Qed.

Lemma to_range_some t pr floor :
  t <> TkNone -> exists r, to_range {| tk_tag := t; tk_wildcard := wildcard pr |} pr floor = Some r.
Proof. intros H. destruct t; [done|..]; by eexists. Qed.

Lemma add_to_default r (is_or : bool) g :
  alternatives g = [[Range_default]] -> group_inv g ->
  alternatives (if is_or then group_or_range g r else group_and_range g r) = [[r]].
Proof.
  intros Ha Hg. destruct is_or.
  - destruct (group_or_range_ok g r Hg) as [_ ->]. by rewrite Ha.
  - destruct (group_and_range_ok g r Hg) as [_ ->]. by rewrite Ha.
Qed.

(** One printed comparator parses to the one range it desugars to. *)
Lemma parse_op_ok t v buf floor :
  let text := op_prefix t ++ version_fmt v buf in
  printable u64_ty v buf -> t <> TkNone -> Z.of_nat (length text) < 2147483648 ->
  exists pr g r, parse_with {| s_at := 0; s_bytes := text |} (sliced_init text) floor = Some g
    /\ parsed_of v buf text pr
    /\ to_range {| tk_tag := t; tk_wildcard := WNone |} pr floor = Some r
    /\ alternatives g = [[r]].
Proof.
  intros text Hv Ht Hl. set (input := {| s_at := 0; s_bytes := text |}).
  destruct (query_lead_op input t (version_fmt v buf) eq_refl Ht (digit_first_fmt u64_ty v buf Hv))
    as (c & Hc & Hlead).
  destruct (parse_at_fmt (op_prefix t) v buf Hv Hl) as (pr & Hpr & Hof).
  pose proof Hof as (tg & Epr & _).
  destruct (to_range_some t pr floor Ht) as [r Hr].
  set (g0 := version_flags pr Group_default).
  set (is_or := if bool_decide (t = TkVersion) && negb (false && (valid pr && true)) then true else false).
  exists pr, (if is_or then group_or_range g0 r else group_and_range g0 r), r.
  assert (Hlen : length text = (length (op_prefix t) + pr_len pr)%nat).
  { rewrite Epr. apply length_app. }
  split; [|split; [done|split]].
  - unfold parse_with. fold input. cbn [run_loop].
    unfold query_step at 1. cbn [query_init q_i]. fold query_init. rewrite Hc, Hlead.
    unfold query_round at 1. cbn [q_i]. fold text in Hpr. fold input in Hpr. rewrite Hpr.
    assert (overflow pr = false) as -> by by rewrite Epr.
    assert (char_at (one_of (bstr " -")) (s_bytes input) (length (op_prefix t) + pr_len pr) = false)
      as ->.
    { unfold char_at. cbn [input s_bytes]. rewrite <- Hlen, lookup_ge_None_2; done. }
    cbn [q_token tk_tag]. rewrite Hr. cbn [q_i query_emit].
    assert (Hpos : exists n, length (s_bytes input) = S n).
    { destruct (s_bytes input) eqn:E; [done|]. by eexists. }
    destruct Hpos as [n Hn]. rewrite Hn. cbn [run_loop]. unfold query_step. cbn [query_emit q_i].
    rewrite lookup_ge_None_2 by (cbn [input s_bytes]; lia). done.
  - assert (wildcard pr = WNone) as Hw by by rewrite Epr.
    by rewrite Hw in Hr.
  - apply add_to_default; [|apply version_flags_ok, group_default_ok].
    unfold g0, version_flags, flag_if. by repeat case_match.
Qed.

(** What each operator before a complete version asks of a release. *)
Definition op_means (t : TokenTag) (v w : Version) : Prop :=
  match t with
  | TkNone => False
  | TkVersion => nums_eq w v /\ is_release v
  | TkGt => nums_lt v w \/ (nums_eq w v /\ ~ is_release v)
  | TkGte => nums_lt v w \/ nums_eq w v
  | TkLt => nums_lt w v
  | TkLte => nums_lt w v \/ (nums_eq w v /\ is_release v)
  | TkTilda => nums_le v w /\ major w = major v /\ minor w = minor v
  | TkCaret => nums_le v w /\ major w = major v
               /\ (major v = 0 -> minor w = minor v /\ (minor v = 0 -> patch w = patch v))
  end.

Lemma opt_pre_release v b v' b' : opt_pre v' b' = opt_pre v b -> is_release v' <-> is_release v.
Proof.
  unfold opt_pre, is_release. by destruct (has_pre (tag v')), (has_pre (tag v)).
Qed.

Lemma single_satisfies g r w gb wb :
  alternatives g = [[r]] -> is_release w ->
  group_satisfies g w gb wb = range_satisfies r w gb wb.
Proof.
  intros Ha Hw. assert (H : list_satisfies (group_lists g) w gb wb = range_satisfies r w gb wb).
  { unfold alternatives in Ha. destruct (group_lists g) as [|n [|n' l]]; try done.
    cbn in Ha. injection Ha as Hq Hn. cbn. unfold query_satisfies, query_chain. rewrite Hq, Hn. cbn.
    by destruct (range_satisfies r w gb wb). }
  unfold group_satisfies. by rewrite Hw.
Qed.

(** C1.  End to end: printing a comparator ([^], [~], [>], [>=], [<], [<=] or nothing
    before a complete version) and parsing the text as a range yields a group that a
    release satisfies exactly when it meets the comparator's meaning. *)
Theorem query_parse_comparator t v buf floor w wb :
  let text := op_prefix t ++ version_fmt v buf in
  printable u64_ty v buf -> t <> TkNone -> Z.of_nat (length text) < 2147483648 ->
  floor_ok floor -> is_release w -> nums_ok w -> wf_tag (tag w) ->
  exists g, parse_with {| s_at := 0; s_bytes := text |} (sliced_init text) floor = Some g
    /\ (group_satisfies g w text wb = true <-> op_means t v w).
Proof.
  intros text Hv Ht Hl Hf Hw Hok Hwf.
  destruct (parse_op_ok t v buf floor Hv Ht Hl) as (pr & g & r & Hparse & Hof & Hr & Ha).
  fold text in Hparse, Hof. exists g. split; [done|]. rewrite (single_satisfies g r) by done.
  pose proof (parsed_of_ok v buf text pr Hv Hof) as Hpok.
  destruct Hof as (tg & -> & Hwt & (_ & _ & _ & Hpre & _)).
  apply opt_pre_release in Hpre. unfold is_release in Hpre. cbn in Hpre.
  assert (Hcmp : forall o, o <> OpUnset ->
    range_satisfies (range_left (cmp_of o (pmin (full v tg)))) w text wb = true
    <-> release_spec (cmp_of o (pmin (full v tg))) w).
  { intros o Ho. rewrite range_satisfies_left by done. by apply satisfies_release. }
  destruct t; try done; cbn [to_range tk_tag tk_wildcard x_range version] in Hr; injection Hr as <-;
    try (rewrite Hcmp by done; unfold release_spec, is_release in *; cbn; unfold nums_lt, nums_eq; cbn;
         intuition; fail).
  - rewrite (tilda_range_sat w text wb Hw Hok Hwf _ floor (major v)) by done. done.
  - rewrite (caret_range_sat w text wb Hw Hok Hwf _ floor (major v)) by done. done.
Qed.

Lemma query_parse_comparator_witness :
  let v := {| major := 0; minor := 2; patch := 3; tag := Tag_default |} in
  let w := {| major := 0; minor := 2; patch := 9; tag := Tag_default |} in
  let text := op_prefix TkCaret ++ version_fmt v [] in
  exists g, parse_with {| s_at := 0; s_bytes := text |} (sliced_init text) Tag_default = Some g
    /\ (group_satisfies g w text [] = true <-> op_means TkCaret v w).
Proof.
  intros v w text. apply (query_parse_comparator TkCaret v [] Tag_default w []);
    [decide_now|done|vm_compute; done|by left|done|unfold nums_ok, is_u64; cbn; lia|decide_now].
Defined.
