(* ===== verification/SemverIntersects.v ===== *)
(** * Intersections and subsets of groups (src/semver/intersects.rs)

    An AND chain is narrowed to an [Interval]; two groups intersect when the
    intervals of two alternatives do, and one is a subset of the other when the
    interval of each of its alternatives lies within one of the other's.  The
    meaning of an interval is [contains]; the theorems relate the answers to the
    versions that satisfy the groups. *)

From S2P Require Import Prelude Bytes SemverString SemverVersion SemverRange SemverQuery.

(** ** Data *)
Record Bound := { b_version : Version; b_buf : bytes; b_inclusive : bool }.
Record Interval := { lower : option Bound; upper : option Bound }.
Definition Interval_default : Interval := {| lower := None; upper := None |}.

Definition is_last_patch (v : Version) : bool :=
  (patch v =? u64_max) && negb (has_pre (tag v)).

Definition after_last_patch (v : Version) : option Version :=
  match checked_add64 (minor v) 1 with
  | Some m => Some (mk_version (major v) m 0 Tag_default)
  | None => M ← checked_add64 (major v) 1; Some (mk_version M 0 0 Tag_default)
  end.

(** ** Narrowing *)
Definition raise (i : Interval) (b : Bound) : Interval :=
  let replace :=
    match lower i with
    | None => true
    | Some cur =>
        match order_without_build (b_version b) (b_version cur) (b_buf b) (b_buf cur) with
        | Gt => true
        | Eq => negb (b_inclusive b)
        | Lt => false
        end
    end in
  if replace then {| lower := Some b; upper := upper i |} else i.

Definition cap (i : Interval) (b : Bound) : Interval :=
  let replace :=
    match upper i with
    | None => true
    | Some cur =>
        match order_without_build (b_version b) (b_version cur) (b_buf b) (b_buf cur) with
        | Lt => true
        | Eq => negb (b_inclusive b)
        | Gt => false
        end
    end in
  if replace then {| lower := lower i; upper := Some b |} else i.

Definition narrow (i : Interval) (c : Comparator) (buf : bytes) : Interval :=
  let bound inclusive :=
    {| b_version := cversion c; b_buf := buf; b_inclusive := inclusive |} in
  match op c with
  | OpUnset => i
  | OpEql => cap (raise i (bound true)) (bound true)
  | OpGt => raise i (bound false)
  | OpGte => raise i (bound true)
  | OpLt => cap i (bound false)
  | OpLte => cap i (bound true)
  end.

Fixpoint and_chain (i : Interval) (c : list Range) (buf : bytes) : Interval :=
  match c with
  | [] => i
  | r :: c => and_chain (narrow (narrow i (left r) buf) (right r) buf) c buf
  end.
Definition and_query (i : Interval) (q : Query) (buf : bytes) : Interval :=
  and_chain i (query_chain q) buf.

(** The lowest version, where a missing lower bound starts. *)
Definition lowest_bound : Bound :=
  {| b_version := cversion null_set; b_buf := []; b_inclusive := true |}.

Definition is_non_empty (i : Interval) : bool :=
  match upper i with
  | None => true
  | Some u =>
      let l := default lowest_bound (lower i) in
      match order_without_build (b_version l) (b_version u) (b_buf l) (b_buf u) with
      | Lt => true
      | Eq => b_inclusive l && b_inclusive u
      | Gt => false
      end
  end.

(** ** Canonical bounds *)
Definition same_nums (v w : Version) : bool :=
  (major v =? major w) && (minor v =? minor w) && (patch v =? patch w).

Definition opt_is {A} (p : A -> bool) (o : option A) : bool :=
  match o with Some a => p a | None => false end.

(** The four steps of [canonical]: the next version after a last patch as a lower
    bound, [>=0.0.0] dropped, the next version as an upper bound, and its
    prereleases excluded. *)
Definition past_last_patch (b : Bound) : Bound :=
  if negb (b_inclusive b) && is_last_patch (b_version b) then
    match after_last_patch (b_version b) with
    | Some next => {| b_version := next; b_buf := b_buf b; b_inclusive := true |}
    | None => b
    end
  else b.

Definition is_zero_bound (b : Bound) : bool :=
  b_inclusive b && is_zero (b_version b) && negb (has_pre (tag (b_version b))).

Definition canonical_lower (l : option Bound) : option Bound :=
  b ← l;
  let b := past_last_patch b in
  if is_zero_bound b then None else Some b.

Definition before_next_patch (b : Bound) : option Bound :=
  if b_inclusive b && is_last_patch (b_version b)
  then (fun v => {| b_version := v; b_buf := b_buf b; b_inclusive := false |})
       <$> after_last_patch (b_version b)
  else Some b.

Definition with_tag (v : Version) (t : Tag) : Version :=
  mk_version (major v) (minor v) (patch v) t.

Definition below_prereleases (l : option Bound) (b : Bound) : Bound :=
  if negb (b_inclusive b) && negb (has_pre (tag (b_version b)))
     && negb (opt_is (fun it => has_pre (tag (b_version it))
                                && same_nums (b_version it) (b_version b)) l)
  then {| b_version := with_tag (b_version b) ZERO_PRE; b_buf := b_buf b;
          b_inclusive := b_inclusive b |}
  else b.

Definition canonical_upper (l u : option Bound) : option Bound :=
  b ← u;
  b ← before_next_patch b;
  Some (below_prereleases l b).

Definition canonical (i : Interval) : Interval :=
  let l := canonical_lower (lower i) in
  {| lower := l; upper := canonical_upper l (upper i) |}.

(** ** Inclusion of intervals *)
Definition is_within (i other : Interval) : bool :=
  let lower_ok :=
    match lower i, lower other with
    | _, None => true
    | None, Some _ => false
    | Some a, Some b =>
        match order_without_build (b_version a) (b_version b) (b_buf a) (b_buf b) with
        | Gt => true
        | Eq => b_inclusive b || negb (b_inclusive a)
        | Lt => false
        end
    end in
  let upper_ok :=
    match upper i, upper other with
    | _, None => true
    | None, Some _ => false
    | Some a, Some b =>
        match order_without_build (b_version a) (b_version b) (b_buf a) (b_buf b) with
        | Lt => true
        | Eq => b_inclusive b || negb (b_inclusive a)
        | Gt => false
        end
    end in
  lower_ok && upper_ok.

(** The closure [is_prerelease_of_it]. *)
Definition is_prerelease_of_it (bound : Bound) (c : Comparator) : bool :=
  negb (bool_decide (op c = OpUnset)) && has_pre (tag (cversion c))
  && same_nums (cversion c) (b_version bound).

Definition names_prerelease (bound : Bound) (q : Query) : bool :=
  existsb (fun r => is_prerelease_of_it bound (left r) || is_prerelease_of_it bound (right r))
          (query_chain q).

Definition prereleases_can_satisfy (i : Interval) (q : Query) : bool :=
  let lower_ := filter (fun it => has_pre (tag (b_version it)) = true) (option_list (lower i)) in
  let upper_ := filter (fun it => has_pre (tag (b_version it))
                  && (b_inclusive it
                      || negb (bool_decide (ext_slice (pre (tag (b_version it))) (b_buf it)
                                            = bstr "0"))) = true) (option_list (upper i)) in
  forallb (fun bound => names_prerelease bound q) (lower_ ++ upper_).

(** ** Groups *)

(** [Query::is_star] *)
Definition query_is_star (q : Query) : bool :=
  let range := q_range q in
  bool_decide (q_next q = []) && bool_decide (op (left range) = OpGte)
  && is_zero (cversion (left range)) && negb (has_pre (tag (cversion (left range))))
  && negb (has_right range).

(** [Group::alternatives] yields the queries; [alternatives g] are their chains. *)
Definition group_queries (g : Group) : list Query := l_head <$> group_lists g.

Definition admits (g : Group) (self_buf : bytes) (version : Version) (version_buf : bytes) : bool :=
  group_satisfies g version self_buf version_buf
  || (has_pre (tag version) && existsb query_is_star (group_queries g)).

Definition admits_an_exact_version_of (g : Group) (self_buf : bytes) (other : Group)
    (other_buf : bytes) : bool :=
  existsb (fun version => admits g self_buf version other_buf)
          (omap exact_version (group_queries other)).

Definition is_range_query (q : Query) : bool := is_None (exact_version q).

Definition intersects (g : Group) (self_buf : bytes) (other : Group) (other_buf : bytes) : bool :=
  if admits_an_exact_version_of g self_buf other other_buf
     || admits_an_exact_version_of other other_buf g self_buf
  then true
  else
    existsb (fun a =>
      let base := and_query Interval_default a self_buf in
      if negb (is_non_empty base) then false
      else existsb (fun b => is_non_empty (and_query base b other_buf))
                   (filter (fun q => is_range_query q = true) (group_queries other)))
      (filter (fun q => is_range_query q = true) (group_queries g)).

Definition is_satisfied_by_a_bound_of (g : Group) (self_buf : bytes) (other : Group)
    (other_buf : bytes) : bool :=
  existsb (fun comparator =>
    let version := cversion comparator in
    let version := if bool_decide (op comparator = OpLt) && tag_eql (tag version) ZERO_PRE
                   then with_tag version Tag_default else version in
    group_satisfies g version self_buf other_buf)
    (mjoin ((fun r => [left r; right r]) <$> mjoin (query_chain <$> group_queries other))).

Definition is_subset_of (g : Group) (self_buf : bytes) (other : Group) (other_buf : bytes) : bool :=
  forallb (fun a =>
    let sub := canonical (and_query Interval_default a self_buf) in
    if negb (is_non_empty sub) then true
    else existsb (fun b =>
           is_within sub (canonical (and_query Interval_default b other_buf))
           && prereleases_can_satisfy sub b) (group_queries other))
    (group_queries g).

(** ** Meaning *)

(** Versions where they are stored, and their order. *)
Definition vcmp (x y : located) : comparison := order_without_build x.1 y.1 x.2 y.2.
#[export] Instance vcmp_laws : CmpLaws vcmp.
Proof. exact order_without_build_laws. Qed.
Definition bl (b : Bound) : located := (b_version b, b_buf b).

Definition above (x : located) (b : Bound) : bool :=
  match vcmp x (bl b) with Gt => true | Eq => b_inclusive b | Lt => false end.
Definition below (x : located) (b : Bound) : bool :=
  match vcmp x (bl b) with Lt => true | Eq => b_inclusive b | Gt => false end.
Definition above_opt (x : located) (o : option Bound) : bool :=
  match o with None => true | Some b => above x b end.
Definition below_opt (x : located) (o : option Bound) : bool :=
  match o with None => true | Some b => below x b end.
(** The version lies between the bounds. *)
Definition contains (i : Interval) (x : located) : bool :=
  above_opt x (lower i) && below_opt x (upper i).

(** What a comparator asks, without the special rule of [>=0.0.0]. *)
Definition bound_of (c : Comparator) (buf : bytes) (inclusive : bool) : Bound :=
  {| b_version := cversion c; b_buf := buf; b_inclusive := inclusive |}.
Definition plain (c : Comparator) (buf : bytes) (x : located) : bool :=
  match op c with
  | OpUnset => true
  | OpEql => above x (bound_of c buf true) && below x (bound_of c buf true)
  | OpGt => above x (bound_of c buf false)
  | OpGte => above x (bound_of c buf true)
  | OpLt => below x (bound_of c buf false)
  | OpLte => below x (bound_of c buf true)
  end.
Definition range_plain (r : Range) (buf : bytes) (x : located) : bool :=
  plain (left r) buf x && plain (right r) buf x.

(** Destructs the comparisons among three located versions. *)
Ltac vcmp3 x y z :=
  let H := fresh in
  pose proof (cmp_cases vcmp x y z) as H;
  destruct (vcmp x y) eqn:?, (vcmp y z) eqn:?, (vcmp x z) eqn:?; cbn in H; try discriminate H; clear H.

Lemma vcmp_bounds x y : order_without_build (b_version x) (b_version y) (b_buf x) (b_buf y)
  = vcmp (bl x) (bl y).
Proof. done. Qed.

(** Rewrites with the comparisons and the inclusive flags already decided. *)
Ltac use_cases :=
  repeat match goal with
  | H : vcmp _ _ = _ |- _ => rewrite H; clear H
  | H : b_inclusive _ = _ |- _ => rewrite H; clear H
  end.

Lemma raise_above x i b : above_opt x (lower (raise i b)) = above_opt x (lower i) && above x b.
Proof.
  unfold raise. destruct (lower i) as [cur|] eqn:E; cbn; [|done].
  rewrite vcmp_bounds. unfold above. vcmp3 x (bl b) (bl cur); destruct (b_inclusive b) eqn:?;
    cbn; rewrite ?E; cbn; unfold above; use_cases; by destruct (b_inclusive cur).
Qed.

Lemma cap_below x i b : below_opt x (upper (cap i b)) = below_opt x (upper i) && below x b.
Proof.
  unfold cap. destruct (upper i) as [cur|] eqn:E; cbn; [|done].
  rewrite vcmp_bounds. unfold below. vcmp3 x (bl b) (bl cur); destruct (b_inclusive b) eqn:?;
    cbn; rewrite ?E; cbn; unfold below; use_cases; by destruct (b_inclusive cur).
Qed.

Lemma raise_upper i b : upper (raise i b) = upper i.
Proof. unfold raise. by destruct (match lower i with None => _ | Some _ => _ end). Qed.
Lemma cap_lower i b : lower (cap i b) = lower i.
Proof. unfold cap. by destruct (match upper i with None => _ | Some _ => _ end). Qed.

Lemma raise_contains x i b : contains (raise i b) x = contains i x && above x b.
Proof. unfold contains. rewrite raise_above, raise_upper. by destruct (above_opt _ _), (above x b), (below_opt _ _). Qed.
Lemma cap_contains x i b : contains (cap i b) x = contains i x && below x b.
Proof. unfold contains. rewrite cap_below, cap_lower. by destruct (above_opt _ _), (below x b), (below_opt _ _). Qed.

Lemma narrow_contains x i c buf : contains (narrow i c buf) x = contains i x && plain c buf x.
Proof.
  unfold narrow, plain. destruct (op c); rewrite ?cap_contains, ?raise_contains, ?andb_true_r; try done.
  by rewrite andb_assoc.
Qed.

Lemma and_chain_contains x i c buf :
  contains (and_chain i c buf) x = contains i x && forallb (fun r => range_plain r buf x) c.
Proof.
  revert i. induction c as [|r c IH]; intros i; cbn [and_chain forallb]; [by rewrite andb_true_r|].
  rewrite IH, !narrow_contains. unfold range_plain. by rewrite !andb_assoc.
Qed.

(** ** Comparators and intervals *)

(** Not a prerelease of [0.0.0], which only [>=0.0.0] admits below [0.0.0]. *)
Definition above_zero (v : Version) : Prop := is_zero v && has_pre (tag v) = false.

Lemma not_below_zero v w b1 b2 :
  nums_ok v -> above_zero v -> is_zero w && negb (has_pre (tag w)) = true ->
  wf_tag (tag w) -> vcmp (v, b1) (w, b2) <> Lt.
Proof.
  unfold above_zero, is_zero, nums_ok, is_u64, vcmp. cbn [fst snd].
  rewrite !andb_true_iff, !Z.eqb_eq, negb_true_iff, order_nums. intros Hv Ha [[[Hp Hm] HM] Hw] Wf.
  destruct (cmp_nums_spec v w) as [H|H|H]; unfold nums_eq, nums_lt in H; [|lia|done].
  rewrite Hw. destruct (has_pre (tag v)).
  - rewrite andb_true_r, !andb_false_iff, !Z.eqb_neq in Ha. lia.
  - unfold lpre. cbn [fst snd]. rewrite (no_pre_slice _ b2) by done.
    unfold order. by destruct (ext_slice _ _).
Qed.

Lemma plain_satisfies c buf v vb :
  op c <> OpUnset -> nums_ok v -> above_zero v -> wf_tag (tag (cversion c)) ->
  comparator_satisfies c v buf vb = plain c buf (v, vb).
Proof.
  intros Ho Hn Hz Hw. pose proof (not_below_zero v (cversion c) vb buf Hn Hz) as Hb.
  unfold comparator_satisfies, plain, above, below, vcmp, bound_of, bl in *. cbn in *.
  destruct (order_without_build v (cversion c) vb buf), (op c); try done.
  destruct (is_zero (cversion c) && negb (has_pre (tag (cversion c)))); [|done].
  by destruct (Hb eq_refl Hw).
Qed.

Definition range_wf (r : Range) : Prop :=
  wf_tag (tag (cversion (left r))) /\ wf_tag (tag (cversion (right r))).
#[export] Instance range_wf_dec r : Decision (range_wf r).
Proof. unfold range_wf. apply _. Defined.

Lemma range_plain_satisfies r buf v vb :
  range_ok r -> range_wf r -> nums_ok v -> above_zero v ->
  range_satisfies r v buf vb = range_plain r buf (v, vb).
Proof.
  intros (_ & _ & Hs) [Wl Wr] Hn Hz. unfold range_satisfies, range_plain.
  unfold has_left, has_right in *.
  destruct (decide (op (left r) = OpUnset)) as [Hl|Hl].
  - rewrite bool_decide_eq_true_2 in * by done. cbn in *.
    specialize (Hs eq_refl). apply negb_false_iff, bool_decide_eq_true in Hs.
    unfold plain. by rewrite Hl, Hs.
  - rewrite (bool_decide_eq_false_2 (op (left r) = _)) by done. cbn.
    rewrite plain_satisfies by done. destruct (plain (left r) _ _); cbn; [|done].
    destruct (decide (op (right r) = OpUnset)) as [Hr|Hr].
    + rewrite bool_decide_eq_true_2 by done. unfold plain. by rewrite Hr.
    + rewrite bool_decide_eq_false_2 by done. cbn. rewrite plain_satisfies by done.
      by destruct (plain _ _ _).
Qed.

(** ** Non-empty intervals *)

Lemma cmp_prerelease_zero s : cmp_prerelease (bstr "0") s <> Gt.
Proof.
  unfold cmp_prerelease, cmp_on. change (fields (bstr "0") "."%u8) with [bstr "0"].
  pose proof (cmp_ident_eq (bstr "0")) as H. change (parse_ascii u64_ty (bstr "0")) with (Some 0) in H.
  destruct (fields s "."%u8) as [|f fs] eqn:E; [by apply fields_ne in E|].
  cbn [cmp_list]. rewrite H. destruct (parse_ascii u64_ty f) as [n|] eqn:Ep; [|done].
  apply (parse_ascii_range u64_ty) in Ep. destruct (Z.compare_spec 0 n); [by destruct fs|done|lia].
Qed.

(** [M.m.p-0] is the least version with its numbers, below everything not below them. *)
Lemma zero_pre_least w v b1 b2 :
  ~ nums_lt v w -> vcmp (with_tag w ZERO_PRE, b1) (v, b2) <> Gt.
Proof.
  intros Hlt. unfold vcmp. cbn [fst snd]. rewrite order_nums.
  destruct (cmp_nums_spec (with_tag w ZERO_PRE) v) as [H|H|H]; [|done|by destruct Hlt].
  change (has_pre (tag (with_tag w ZERO_PRE))) with true. destruct (has_pre (tag v)); [|done].
  apply cmp_prerelease_zero.
Qed.

Lemma lowest_least v vb : nums_ok v -> vcmp (bl lowest_bound) (v, vb) <> Gt.
Proof.
  intros (H1 & H2 & H3). apply (zero_pre_least (cversion null_set)).
  unfold nums_lt, is_u64 in *. cbn. lia.
Qed.

Lemma contains_is_non_empty i v vb :
  nums_ok v -> contains i (v, vb) = true -> is_non_empty i = true.
Proof.
  intros Hn. unfold contains, is_non_empty. rewrite andb_true_iff. intros [Ha Hb].
  destruct (upper i) as [u|]; [|done]. cbn in Hb. unfold below in Hb. rewrite vcmp_bounds.
  pose proof (lowest_least v vb Hn) as Hl.
  destruct (lower i) as [l|]; cbn [default above_opt] in *; unfold above, id in *.
  - rewrite (cmp_flip (compare:=vcmp) (bl l)) in Ha.
    vcmp3 (bl l) (v, vb) (bl u); cbn in Ha; try done; by rewrite Ha, Hb.
  - change (b_inclusive lowest_bound) with true. vcmp3 (bl lowest_bound) (v, vb) (bl u); done.
Qed.

(** ** Equal versions satisfy the same groups *)

Lemma vcmp_eq_nums v w b1 b2 : vcmp (v, b1) (w, b2) = Eq -> nums_eq v w /\ has_pre (tag v) = has_pre (tag w).
Proof.
  unfold vcmp. cbn [fst snd]. rewrite order_nums.
  destruct (cmp_nums_spec v w); [|done|done]. by destruct (has_pre (tag v)), (has_pre (tag w)).
Qed.

Lemma comparator_satisfies_eq c v w gb vb wb :
  vcmp (v, vb) (w, wb) = Eq -> comparator_satisfies c v gb vb = comparator_satisfies c w gb wb.
Proof.
  intros H. unfold comparator_satisfies. pose proof (cmp_eq_l vcmp _ _ (cversion c, gb) H) as E.
  unfold vcmp in E. cbn [fst snd] in E. by rewrite E.
Qed.

Lemma range_satisfies_eq r v w gb vb wb :
  vcmp (v, vb) (w, wb) = Eq ->
  range_satisfies r v gb vb = range_satisfies r w gb wb
  /\ range_names_pre r v = range_names_pre r w.
Proof.
  intros H. unfold range_satisfies, range_names_pre, pre_matches.
  rewrite !(comparator_satisfies_eq _ v w gb vb wb) by done.
  apply vcmp_eq_nums in H as [(-> & -> & ->) _]. done.
Qed.

Lemma group_satisfies_eq g v w gb vb wb :
  vcmp (v, vb) (w, wb) = Eq -> group_satisfies g v gb vb = group_satisfies g w gb wb.
Proof.
  intros H. rewrite !group_satisfies_spec. pose proof (vcmp_eq_nums _ _ _ _ H) as [_ ->].
  induction (alternatives g) as [|c cs IH]; cbn [existsb]; [done|]. rewrite IH. clear IH. f_equal.
  assert (Hs : forallb (fun r => range_satisfies r v gb vb) c = forallb (fun r => range_satisfies r w gb wb) c
               /\ existsb (fun r => range_names_pre r v) c = existsb (fun r => range_names_pre r w) c).
  { induction c as [|r c [IH1 IH2]]; [done|]. cbn [forallb existsb]. rewrite IH1, IH2.
    destruct (range_satisfies_eq r v w gb vb wb H) as [-> ->]. done. }
  by destruct Hs as [-> ->].
Qed.

(** ** Intersections *)

Definition query_admits (q : Query) (v : Version) (buf vb : bytes) : bool :=
  forallb (fun r => range_satisfies r v buf vb) (query_chain q)
  && (negb (has_pre (tag v)) || existsb (fun r => range_names_pre r v) (query_chain q)).

Lemma group_satisfies_query g v buf vb :
  group_satisfies g v buf vb = true
  <-> exists q, q ∈ group_queries g /\ query_admits q v buf vb = true.
Proof.
  rewrite group_satisfies_spec. unfold group_queries, alternatives, query_admits.
  rewrite existsb_exists. setoid_rewrite list_elem_of_In.
  split.
  - intros (c & Hc & H). apply list_elem_of_In, list_elem_of_fmap in Hc as (n & -> & Hn).
    exists (l_head n). split; [|done]. apply list_elem_of_In, list_elem_of_fmap. by exists n.
  - intros (q & Hq & H). exists (query_chain q). split; [|done].
    apply list_elem_of_In, list_elem_of_fmap in Hq as (n & -> & Hn).
    apply list_elem_of_In, list_elem_of_fmap. by exists n.
Qed.

Lemma exact_version_satisfies q w v buf vb :
  exact_version q = Some w -> query_admits q v buf vb = true -> vcmp (v, vb) (w, buf) = Eq.
Proof.
  unfold exact_version, query_admits, query_chain. intros Hw.
  destruct (bool_decide (q_next q = [])) eqn:Hn; [|done]. apply bool_decide_eq_true in Hn. rewrite Hn in *.
  destruct (bool_decide (op (left (q_range q)) = OpEql)) eqn:Ho; [|done].
  destruct (has_right (q_range q)) eqn:Hr; [done|]. injection Hw as <-.
  cbn [forallb]. rewrite !andb_true_iff. intros [[Hs _] _].
  apply bool_decide_eq_true in Ho. unfold range_satisfies, comparator_satisfies, has_left in Hs.
  rewrite Ho, Hr in Hs. cbn in Hs. unfold vcmp. cbn [fst snd].
  by destruct (order_without_build v _ vb buf).
Qed.

Lemma exact_admits g gb other ob q w v vb :
  q ∈ group_queries other -> exact_version q = Some w -> query_admits q v ob vb = true ->
  group_satisfies g v gb vb = true -> admits_an_exact_version_of g gb other ob = true.
Proof.
  intros Hq Hw Ha Hg. unfold admits_an_exact_version_of. apply existsb_exists. exists w. split.
  - apply list_elem_of_In, list_elem_of_omap. by exists q.
  - unfold admits. rewrite <- (group_satisfies_eq g v w gb vb ob), Hg; [done|].
    by eapply exact_version_satisfies.
Qed.

Definition query_wf (q : Query) : Prop := Forall range_wf (query_chain q).
Definition group_wf (g : Group) : Prop := Forall query_wf (group_queries g).
#[export] Instance group_wf_dec g : Decision (group_wf g).
Proof. unfold group_wf, query_wf. apply _. Defined.

Lemma group_ok_query g q : group_ok g -> q ∈ group_queries g -> Forall range_ok (query_chain q).
Proof.
  intros [_ Ha] Hq. rewrite Forall_forall in Ha. apply Ha. unfold alternatives, group_queries in *.
  apply list_elem_of_fmap in Hq as (n & -> & Hn). apply list_elem_of_fmap. by exists n.
Qed.

Lemma query_admits_plain q v buf vb :
  Forall range_ok (query_chain q) -> query_wf q -> nums_ok v -> above_zero v ->
  forallb (fun r => range_satisfies r v buf vb) (query_chain q)
  = forallb (fun r => range_plain r buf (v, vb)) (query_chain q).
Proof.
  unfold query_wf. intros Hok Hwf Hn Hz. induction Hok as [|r c Hr Hc IH]; [done|].
  apply Forall_cons in Hwf as [Hw1 Hw2]. cbn [forallb]. by rewrite IH, range_plain_satisfies.
Qed.

Lemma admits_contains g q v buf vb i :
  group_ok g -> group_wf g -> q ∈ group_queries g -> nums_ok v -> above_zero v ->
  query_admits q v buf vb = true -> contains i (v, vb) = true ->
  contains (and_query i q buf) (v, vb) = true.
Proof.
  intros Hok Hwf Hq Hn Hz Ha Hi. unfold and_query. rewrite and_chain_contains, Hi.
  unfold group_wf in Hwf. rewrite Forall_forall in Hwf.
  rewrite <- query_admits_plain by (by eauto using group_ok_query).
  unfold query_admits in Ha. by apply andb_true_iff in Ha as [-> _].
Qed.

(**  Completeness of [intersects]: when some version satisfies both groups, they
    intersect.  The version may be a prerelease, but not one of [0.0.0], which
    [>=0.0.0] admits outside its bound. *)
Theorem intersects_complete g gb h hb v vb :
  group_ok g -> group_ok h -> group_wf g -> group_wf h -> nums_ok v -> above_zero v ->
  group_satisfies g v gb vb = true -> group_satisfies h v hb vb = true ->
  intersects g gb h hb = true.
Proof.
  intros Hg Hh Wg Wh Hn Hz Sg Sh. unfold intersects.
  pose proof Sg as (a & Ha & Qa)%group_satisfies_query.
  pose proof Sh as (b & Hb & Qb)%group_satisfies_query.
  destruct (exact_version b) as [w|] eqn:Eb; [by erewrite exact_admits|].
  destruct (exact_version a) as [w|] eqn:Ea;
    [by erewrite (exact_admits h), orb_true_r|].
  destruct (_ || _); [done|].
  assert (Hrange : forall q l, exact_version q = None -> q ∈ l ->
    In q (filter (fun q => is_range_query q = true) l)).
  { intros q l He Hl. apply list_elem_of_In, list_elem_of_filter. split; [|done].
    unfold is_range_query. by rewrite He. }
  apply existsb_exists. exists a. split; [by apply Hrange|].
  pose proof (admits_contains g a v gb vb Interval_default Hg Wg Ha Hn Hz Qa eq_refl) as Ca.
  rewrite (contains_is_non_empty _ v vb) by done. cbn [negb].
  apply existsb_exists. exists b. split; [by apply Hrange|].
  apply (contains_is_non_empty _ v vb); [done|]. by apply (admits_contains h).
Qed.

(** The group a text parses to. *)
Definition group_of (text : bytes) : Group :=
  default Group_default
    (query_parse {| s_at := 0; s_bytes := text |} (sliced_init text)).
#[export] Instance above_zero_dec v : Decision (above_zero v).
Proof. unfold above_zero. apply _. Defined.

Lemma intersects_complete_witness :
  let g := bstr "^1.2 || 3.0.0" in
  let h := bstr ">=1.4.0 <1.9.0" in
  let v := mk_version 1 5 0 Tag_default in
  intersects (group_of g) g (group_of h) h = true.
Proof.
  intros g h v. apply (intersects_complete (group_of g) g (group_of h) h v []);
    [decide_now..|vm_compute; reflexivity|vm_compute; reflexivity].
Defined.

(** ** What [intersects] compares

    The bounds of two chains are jointly satisfiable when each lower one, the lowest
    version included, is compatible with each upper one. *)
Definition compat (l u : Bound) : bool :=
  match vcmp (bl l) (bl u) with Lt => true | Eq => b_inclusive l && b_inclusive u | Gt => false end.

Definition lower_bounds (buf : bytes) (c : Comparator) : list Bound :=
  match op c with
  | OpEql | OpGte => [bound_of c buf true]
  | OpGt => [bound_of c buf false]
  | _ => []
  end.
Definition upper_bounds (buf : bytes) (c : Comparator) : list Bound :=
  match op c with
  | OpEql | OpLte => [bound_of c buf true]
  | OpLt => [bound_of c buf false]
  | _ => []
  end.
Definition lowers (buf : bytes) (q : list Range) : list Bound :=
  mjoin ((fun r => lower_bounds buf (left r) ++ lower_bounds buf (right r)) <$> q).
Definition uppers (buf : bytes) (q : list Range) : list Bound :=
  mjoin ((fun r => upper_bounds buf (left r) ++ upper_bounds buf (right r)) <$> q).
Definition compatible (L U : list Bound) : bool :=
  forallb (fun u => forallb (fun l => compat l u) (lowest_bound :: L)) U.

(** The interval keeps the tightest of the bounds [L] and [U]. *)
Definition tight_low (i : Interval) (L : list Bound) : Prop :=
  forall u, compat (default lowest_bound (lower i)) u
            = forallb (fun l => compat l u) (lowest_bound :: L).
Definition tight_up (i : Interval) (U : list Bound) : Prop :=
  forall l, (match upper i with None => true | Some u => compat l u end) = forallb (compat l) U.

Lemma compat_lowest b u : nums_ok (b_version b) -> compat b u = true -> compat lowest_bound u = true.
Proof.
  intros Hn. pose proof (lowest_least (b_version b) (b_buf b) Hn) as Hl.
  change (b_version b, b_buf b) with (bl b) in Hl. unfold compat. change (b_inclusive lowest_bound) with true.
  vcmp3 (bl lowest_bound) (bl b) (bl u); try done; by intros [_ ->]%andb_true_iff.
Qed.

Lemma raise_tight i L b :
  nums_ok (b_version b) -> tight_low i L -> tight_low (raise i b) (L ++ [b]).
Proof.
  intros Hn Hi u. rewrite app_comm_cons, forallb_app, <- Hi. cbn [forallb]. rewrite andb_true_r.
  unfold raise. destruct (lower i) as [cur|] eqn:E; cbn [default lower]; unfold id.
  - rewrite vcmp_bounds. unfold compat. vcmp3 (bl b) (bl cur) (bl u);
      destruct (b_inclusive b) eqn:?; cbn; rewrite ?E; cbn [default]; unfold id; use_cases;
      by destruct (b_inclusive cur), (b_inclusive u).
  - destruct (compat b u) eqn:Hc; [|by rewrite andb_false_r]. by rewrite (compat_lowest b).
Qed.

Lemma cap_tight i U b : tight_up i U -> tight_up (cap i b) (U ++ [b]).
Proof.
  intros Hi l. rewrite forallb_app, <- Hi. cbn [forallb]. rewrite andb_true_r.
  unfold cap. destruct (upper i) as [cur|] eqn:E; cbn [upper]; [|done].
  rewrite vcmp_bounds. unfold compat. vcmp3 (bl l) (bl b) (bl cur);
    destruct (b_inclusive b) eqn:?; cbn; rewrite ?E; use_cases;
    by destruct (b_inclusive cur), (b_inclusive l).
Qed.

(** Lifts an invariant over the two updates to the whole chain. *)
Section ChainInvariant.
Context (Inv : Interval -> list Bound -> list Bound -> Prop).
Context (Hraise : forall i L U b, nums_ok (b_version b) -> Inv i L U -> Inv (raise i b) (L ++ [b]) U).
Context (Hcap : forall i L U b, Inv i L U -> Inv (cap i b) L (U ++ [b])).

Lemma narrow_inv i L U c buf :
  nums_ok (cversion c) -> Inv i L U ->
  Inv (narrow i c buf) (L ++ lower_bounds buf c) (U ++ upper_bounds buf c).
Proof using Hraise Hcap.
  intros Hn H. unfold narrow, lower_bounds, upper_bounds.
  destruct (op c); rewrite ?app_nil_r; [done|apply Hcap| | | |];
    first [by apply Hraise|by apply Hcap].
Qed.

Lemma chain_inv i L U q buf :
  Forall range_ok q -> Inv i L U ->
  Inv (and_chain i q buf) (L ++ lowers buf q) (U ++ uppers buf q).
Proof using Hraise Hcap.
  unfold lowers, uppers. intros Hq. revert i L U.
  induction Hq as [|r q (Hl & Hr & _) Hq IH]; intros i L U H.
  - cbn. by rewrite !app_nil_r.
  - cbn [and_chain fmap list_fmap mjoin list_join]. rewrite !app_assoc. apply IH.
    by do 2 (apply narrow_inv; [done|]).
Qed.
End ChainInvariant.

Definition tight (i : Interval) (L U : list Bound) : Prop := tight_low i L /\ tight_up i U.

Lemma tight_raise i L U b : nums_ok (b_version b) -> tight i L U -> tight (raise i b) (L ++ [b]) U.
Proof. intros Hn [H1 H2]. split; [by apply raise_tight|]. unfold tight_up. by rewrite raise_upper. Qed.
Lemma tight_cap i L U b : tight i L U -> tight (cap i b) L (U ++ [b]).
Proof. intros [H1 H2]. split; [|by apply cap_tight]. unfold tight_low. by rewrite cap_lower. Qed.
Lemma tight_chain i L U q buf :
  Forall range_ok q -> tight i L U ->
  tight (and_chain i q buf) (L ++ lowers buf q) (U ++ uppers buf q).
Proof. apply (chain_inv tight tight_raise tight_cap). Qed.

Lemma tight_non_empty i L U : tight i L U -> is_non_empty i = compatible L U.
Proof.
  intros [H1 H2]. unfold is_non_empty, compatible.
  transitivity (match upper i with None => true | Some u => compat (default lowest_bound (lower i)) u end);
    [done|].
  rewrite H2. clear H2. induction U as [|u U IH]; cbn [forallb]; [done|].
  rewrite IH. f_equal. apply H1.
Qed.

Lemma compatible_spec L U :
  compatible L U = true <-> forall l u, l = lowest_bound \/ In l L -> In u U -> compat l u = true.
Proof.
  unfold compatible. rewrite forallb_forall. setoid_rewrite forallb_forall. cbn [In].
  split; [intros H l u [->|Hl] Hu|intros H u Hu l [<-|Hl]]; auto.
Qed.

Lemma compatible_comm L1 L2 U1 U2 : compatible (L1 ++ L2) (U1 ++ U2) = compatible (L2 ++ L1) (U2 ++ U1).
Proof.
  apply eq_true_iff_eq. rewrite !compatible_spec.
  split; intros H l u Hl Hu; apply H; rewrite in_app_iff in *; tauto.
Qed.

(** Restricting a compatible set of bounds keeps it compatible. *)
Lemma compatible_app_l L1 L2 U1 U2 : compatible (L1 ++ L2) (U1 ++ U2) = true -> compatible L1 U1 = true.
Proof.
  rewrite !compatible_spec. intros H l u Hl Hu. apply H; rewrite in_app_iff; tauto.
Qed.

Lemma tight_default : tight Interval_default [] [].
Proof. split; intros x; cbn; [by rewrite andb_true_r|done]. Qed.

Lemma pair_non_empty a b ab bb :
  Forall range_ok a -> Forall range_ok b ->
  is_non_empty (and_chain (and_chain Interval_default a ab) b bb)
  = compatible (lowers ab a ++ lowers bb b) (uppers ab a ++ uppers bb b).
Proof.
  intros Ha Hb. apply tight_non_empty, tight_chain; [done|].
  by apply (tight_chain _ [] [] a ab Ha), tight_default.
Qed.

Lemma single_non_empty a ab :
  Forall range_ok a ->
  is_non_empty (and_chain Interval_default a ab) = compatible (lowers ab a) (uppers ab a).
Proof. intros Ha. apply tight_non_empty. by apply (tight_chain _ [] [] a ab Ha), tight_default. Qed.

(** Two range alternatives whose bounds are compatible. *)
Definition ranges_meet (g : Group) (gb : bytes) (h : Group) (hb : bytes) : Prop :=
  exists a b, a ∈ group_queries g /\ b ∈ group_queries h
    /\ exact_version a = None /\ exact_version b = None
    /\ compatible (lowers gb (query_chain a) ++ lowers hb (query_chain b))
                  (uppers gb (query_chain a) ++ uppers hb (query_chain b)) = true.

Lemma is_range_query_None q : is_range_query q = true <-> exact_version q = None.
Proof. unfold is_range_query. by destruct (exact_version q). Qed.

Lemma intersects_meet g gb h hb :
  group_ok g -> group_ok h ->
  intersects g gb h hb = true
  <-> admits_an_exact_version_of g gb h hb = true
      \/ admits_an_exact_version_of h hb g gb = true \/ ranges_meet g gb h hb.
Proof.
  intros Hg Hh. unfold intersects.
  destruct (admits_an_exact_version_of g gb h hb); cbn [orb]; [by intuition|].
  destruct (admits_an_exact_version_of h hb g gb); [by intuition|].
  transitivity (ranges_meet g gb h hb); [|by intuition discriminate].
  unfold ranges_meet. rewrite existsb_exists. setoid_rewrite list_elem_of_In.
  setoid_rewrite <- is_range_query_None.
  split.
  - intros (a & [Ra Ha]%list_elem_of_In%list_elem_of_filter & H). exists a.
    destruct (is_non_empty (and_query Interval_default a gb)); [cbn [negb] in H|done].
    apply existsb_exists in H as (b & [Rb Hb]%list_elem_of_In%list_elem_of_filter & H). exists b.
    rewrite <- pair_non_empty by (eauto using group_ok_query). by rewrite <- !list_elem_of_In.
  - intros (a & b & Ha & Hb & Ra & Rb & H). rewrite <- list_elem_of_In in Ha, Hb. exists a. split.
    + apply list_elem_of_In, list_elem_of_filter. done.
    + unfold and_query. rewrite single_non_empty by (eauto using group_ok_query).
      rewrite (compatible_app_l _ _ _ _ H). cbn [negb]. apply existsb_exists. exists b.
      rewrite pair_non_empty by (eauto using group_ok_query). split; [|done].
      apply list_elem_of_In, list_elem_of_filter. done.
Qed.

(** [intersects] does not depend on the order of its arguments, although it
    looks for exact versions first, skips the alternatives of the first group that
    are empty on their own and narrows one side's interval by the other's. *)
Theorem intersects_symmetric g gb h hb :
  group_ok g -> group_ok h -> intersects g gb h hb = intersects h hb g gb.
Proof.
  intros Hg Hh. apply eq_true_iff_eq. rewrite !intersects_meet by done.
  assert (Hm : ranges_meet g gb h hb <-> ranges_meet h hb g gb).
  { unfold ranges_meet. split; intros (a & b & Ha & Hb & Ra & Rb & H); exists b, a;
      rewrite compatible_comm; done. }
  rewrite Hm. tauto.
Qed.

Lemma intersects_symmetric_witness :
  let g := bstr "^1.2 || <0.3.0" in
  let h := bstr ">=1.4.0 <1.9.0" in
  intersects (group_of g) g (group_of h) h = intersects (group_of h) h (group_of g) g.
Proof. intros g h. apply (intersects_symmetric (group_of g) g (group_of h) h); decide_now. Defined.

(** ** Canonical bounds *)

Lemma vcmp_release v w vb wb :
  is_release w -> wf_tag (tag v) -> wf_tag (tag w) ->
  vcmp (v, vb) (w, wb)
  = match cmp_nums v w with Eq => if has_pre (tag v) then Lt else Eq | c => c end.
Proof.
  unfold is_release, vcmp. cbn [fst snd]. intros Hw Wv Ww. rewrite order_nums, Hw.
  destruct (cmp_nums v w), (has_pre (tag v)) eqn:Hv; try done.
  unfold lpre. cbn [fst snd]. by rewrite !no_pre_slice.
Qed.

Definition bound_wf (b : Bound) : Prop := nums_ok (b_version b) /\ wf_tag (tag (b_version b)).

Lemma after_last_patch_ok w :
  nums_ok w -> patch w = u64_max ->
  match after_last_patch w with
  | Some n => is_release n /\ wf_tag (tag n) /\ nums_ok n
              /\ forall v, nums_ok v -> nums_lt v n <-> nums_lt v w \/ nums_eq v w
  | None => forall v, nums_ok v -> nums_lt v w \/ nums_eq v w
  end.
Proof.
  unfold nums_ok, is_u64, after_last_patch. intros (H1 & H2 & H3) Hp.
  destruct (checked_add64_cases (minor w) H2) as [[-> ?]|[-> ?]].
  - splits; [done|apply wf_Tag_default|try (cbn; lia)..]. intros v ?. unfold nums_lt, nums_eq. cbn. lia.
  - destruct (checked_add64_cases (major w) H1) as [[-> ?]|[-> ?]]; cbn [mbind option_bind].
    + splits; [done|apply wf_Tag_default|try (cbn; lia)..]. intros v ?. unfold nums_lt, nums_eq. cbn. lia.
    + intros v ?. unfold nums_lt, nums_eq. lia.
Qed.

Section Canonical.
Context (v : Version) (vb : bytes) (Hn : nums_ok v) (Hwf : wf_tag (tag v)).
Local Abbreviation x := (v, vb).

(** Away from the ceiling of the patch number, or for a release. *)
Definition steady (b : Bound) : Prop := is_release v \/ is_last_patch (b_version b) = false.

Lemma past_last_patch_above b :
  bound_wf b -> steady b -> above x (past_last_patch b) = above x b.
Proof.
  unfold steady, past_last_patch. intros [Hb Wb] [Hr|Hl]; [|by rewrite Hl, andb_false_r].
  destruct (b_inclusive b) eqn:Ei; cbn [negb andb]; [done|].
  destruct (is_last_patch (b_version b)) eqn:El; [|done].
  unfold is_last_patch in El. apply andb_true_iff in El as [Hp%Z.eqb_eq Hpre%negb_true_iff].
  pose proof (after_last_patch_ok (b_version b) Hb Hp) as Ha.
  destruct (after_last_patch (b_version b)) as [n|]; [|done]. destruct Ha as (Rn & Wn & _ & Hlt).
  unfold above, bl. cbn [b_version b_buf b_inclusive]. rewrite !vcmp_release, Ei, Hr by done.
  specialize (Hlt v Hn). pose proof (nums_lt_asym v (b_version b)). pose proof (nums_lt_irrefl v (b_version b)).
  destruct (cmp_nums_spec v n), (cmp_nums_spec v (b_version b)); try done; exfalso;
    unfold nums_lt, nums_eq in *; lia.
Qed.

Lemma zero_bound_above b :
  bound_wf b -> above_zero v -> is_zero_bound b = true -> above x b = true.
Proof.
  unfold is_zero_bound. intros [Hb Wb] Hz. rewrite <- andb_assoc, andb_true_iff. intros [Hi Hb0].
  pose proof (not_below_zero v (b_version b) vb (b_buf b) Hn Hz Hb0 Wb) as H.
  unfold above. change (b_version b, b_buf b) with (bl b) in H. rewrite Hi. by destruct (vcmp _ _).
Qed.

Lemma past_last_patch_wf b : bound_wf b -> bound_wf (past_last_patch b).
Proof.
  unfold past_last_patch. intros [Hb Wb]. destruct (negb _ && is_last_patch _) eqn:E; [|done].
  apply andb_true_iff in E as [_ [Hp%Z.eqb_eq _]%andb_true_iff].
  pose proof (after_last_patch_ok (b_version b) Hb Hp) as Ha.
  destruct (after_last_patch _); [|done]. by destruct Ha as (_ & ? & ? & _).
Qed.

Lemma canonical_lower_above l :
  (forall b, l = Some b -> bound_wf b /\ steady b) -> above_zero v ->
  above_opt x (canonical_lower l) = above_opt x l.
Proof.
  intros H Hz. destruct l as [b|]; [|done]. destruct (H b eq_refl) as [Hb Hs].
  unfold canonical_lower. cbn [mbind option_bind above_opt].
  rewrite <- past_last_patch_above by done.
  destruct (is_zero_bound (past_last_patch b)) eqn:E; [|done]. cbn. symmetry.
  apply zero_bound_above; [by apply past_last_patch_wf|done|done].
Qed.

Lemma before_next_patch_below b :
  bound_wf b -> steady b ->
  below_opt x (before_next_patch b) = below x b
  /\ (forall b', before_next_patch b = Some b' -> bound_wf b').
Proof.
  unfold steady, before_next_patch. intros [Hb Wb] [Hr|Hl];
    [|rewrite Hl, andb_false_r; split; [done|by intros b' [= <-]]].
  destruct (b_inclusive b) eqn:Ei; cbn [negb andb]; [|split; [done|by intros b' [= <-]]].
  destruct (is_last_patch (b_version b)) eqn:El; [|split; [done|by intros b' [= <-]]].
  unfold is_last_patch in El. apply andb_true_iff in El as [Hp%Z.eqb_eq Hpre%negb_true_iff].
  pose proof (after_last_patch_ok (b_version b) Hb Hp) as Ha.
  unfold below, bl. rewrite vcmp_release, Ei, Hr by done.
  pose proof (nums_lt_asym v (b_version b)). pose proof (nums_lt_irrefl v (b_version b)).
  destruct (after_last_patch (b_version b)) as [n|]; cbn.
  - destruct Ha as (Rn & Wn & Nn & Hlt). split; [|by intros b' [= <-]].
    unfold below, bl. cbn [b_version b_buf b_inclusive]. rewrite vcmp_release, Hr by done.
    specialize (Hlt v Hn).
    destruct (cmp_nums_spec v n), (cmp_nums_spec v (b_version b)); try done; exfalso;
      unfold nums_lt, nums_eq in *; lia.
  - split; [|done]. destruct (Ha v Hn) as [|]; destruct (cmp_nums_spec v (b_version b)); try done;
      exfalso; unfold nums_lt, nums_eq in *; lia.
Qed.

Lemma below_prereleases_below l b :
  bound_wf b ->
  (below x (below_prereleases l b) = true -> below x b = true)
  /\ (below x b = true ->
      (has_pre (tag v) = true -> nums_eq v (b_version b) -> has_pre (tag (b_version b)) = false ->
       opt_is (fun it => has_pre (tag (b_version it)) && same_nums (b_version it) (b_version b)) l = true) ->
      below x (below_prereleases l b) = true).
Proof.
  unfold below_prereleases. intros [Hb Wb].
  destruct (b_inclusive b) eqn:Ei; cbn [negb andb]; [done|].
  destruct (has_pre (tag (b_version b))) eqn:Ep; cbn [negb andb]; [done|].
  destruct (opt_is _ l); cbn [negb]; [done|].
  unfold below, bl. cbn [b_version b_buf b_inclusive]. rewrite (vcmp_release v (b_version b) vb (b_buf b)) by done.
  unfold vcmp. cbn [fst snd]. rewrite order_nums, ?Ei.
  change (cmp_nums v (with_tag (b_version b) ZERO_PRE)) with (cmp_nums v (b_version b)).
  change (has_pre (tag (with_tag _ _))) with true.
  destruct (cmp_nums_spec v (b_version b)) as [H|H|H], (has_pre (tag v)); try by split.
  split; [done|]. intros _ Hc. by specialize (Hc eq_refl H eq_refl).
Qed.

Lemma canonical_contains i :
  (forall b, lower i = Some b -> bound_wf b /\ steady b) ->
  (forall b, upper i = Some b -> bound_wf b /\ steady b) ->
  above_zero v ->
  (contains (canonical i) x = true -> contains i x = true)
  /\ (contains i x = true ->
      (forall u, upper i = Some u ->
       has_pre (tag v) = true -> nums_eq v (b_version u) -> has_pre (tag (b_version u)) = false ->
       opt_is (fun it => has_pre (tag (b_version it)) && same_nums (b_version it) (b_version u))
              (canonical_lower (lower i)) = true) ->
      contains (canonical i) x = true).
Proof.
  intros Hl Hu Hz. unfold contains, canonical. cbn [lower upper].
  rewrite canonical_lower_above by done. destruct (above_opt x (lower i)); cbn [andb]; [|done].
  destruct (upper i) as [u|]; [|done]. destruct (Hu u eq_refl) as [Wu Su]. clear Hu.
  unfold canonical_upper. cbn [mbind option_bind below_opt].
  pose proof (before_next_patch_below u Wu Su) as [Hb Wb].
  assert (Hsame : has_pre (tag v) = true -> before_next_patch u = Some u).
  { intros Hp. destruct Su as [Hr|Hp']; [by unfold is_release in Hr; congruence|].
    unfold before_next_patch. by rewrite Hp', andb_false_r. }
  destruct (before_next_patch u) as [b|]; cbn [below_opt mbind option_bind] in *; rewrite <- Hb; [|done].
  destruct (below_prereleases_below (canonical_lower (lower i)) b (Wb b eq_refl)) as [Hback Hfwd].
  split; [done|]. intros Hx Hc. apply Hfwd; [done|]. intros Hp. injection (Hsame Hp) as ->.
  by apply (Hc u).
Qed.
End Canonical.

(** ** Which bounds an interval keeps *)

(** The bounds come from the comparators, and none of them is tighter. *)
Record kept (i : Interval) (L U : list Bound) : Prop := {
  kept_lower b : lower i = Some b -> b ∈ L;
  kept_upper b : upper i = Some b -> b ∈ U;
  kept_above b : b ∈ L -> exists l, lower i = Some l /\ vcmp (bl b) (bl l) <> Gt;
  kept_below b : b ∈ U -> exists u, upper i = Some u /\ vcmp (bl u) (bl b) <> Gt;
}.

Lemma vcmp_le_refl y : vcmp y y <> Gt.
Proof. by rewrite cmp_refl by apply _. Qed.

Lemma raise_cases i b :
  (lower (raise i b) = Some b /\ forall cur, lower i = Some cur -> vcmp (bl cur) (bl b) <> Gt)
  \/ (lower (raise i b) = lower i /\ exists cur, lower i = Some cur /\ vcmp (bl b) (bl cur) <> Gt).
Proof.
  unfold raise. destruct (lower i) as [cur|] eqn:E; [|by left].
  rewrite vcmp_bounds. pose proof (cmp_flip (compare:=vcmp) (bl b) (bl cur)) as Hf.
  destruct (vcmp (bl b) (bl cur)) eqn:Hc; cbn in Hf.
  - destruct (b_inclusive b); [right|left]; cbn; rewrite ?E.
    + split; [done|]. exists cur. by rewrite Hc.
    + split; [done|]. intros ? [= <-]. by rewrite Hf.
  - right. rewrite E. split; [done|]. exists cur. by rewrite Hc.
  - left. split; [done|]. intros ? [= <-]. by rewrite Hf.
Qed.

Lemma cap_cases i b :
  (upper (cap i b) = Some b /\ forall cur, upper i = Some cur -> vcmp (bl b) (bl cur) <> Gt)
  \/ (upper (cap i b) = upper i /\ exists cur, upper i = Some cur /\ vcmp (bl cur) (bl b) <> Gt).
Proof.
  unfold cap. destruct (upper i) as [cur|] eqn:E; [|by left].
  rewrite vcmp_bounds. pose proof (cmp_flip (compare:=vcmp) (bl b) (bl cur)) as Hf.
  destruct (vcmp (bl b) (bl cur)) eqn:Hc; cbn in Hf.
  - destruct (b_inclusive b); [right|left]; cbn; rewrite ?E.
    + split; [done|]. exists cur. by rewrite Hf.
    + split; [done|]. intros ? [= <-]. by rewrite Hc.
  - left. split; [done|]. intros ? [= <-]. by rewrite Hc.
  - right. rewrite E. split; [done|]. exists cur. by rewrite Hf.
Qed.

Lemma kept_raise i L U b : nums_ok (b_version b) -> kept i L U -> kept (raise i b) (L ++ [b]) U.
Proof.
  intros _ [H1 H2 H3 H4]. destruct (raise_cases i b) as [[E Hc]|[E (cur & Ec & Hc)]].
  - split; rewrite ?raise_upper; [|done| |done]; rewrite E.
    + intros ? [= <-]. apply elem_of_app. right. by apply list_elem_of_singleton.
    + intros b' [Hb' | ->%list_elem_of_singleton]%elem_of_app.
      * destruct (H3 b' Hb') as (l & El & Hl). exists b. split; [done|].
        apply (cmp_le_trans (compare:=vcmp) _ (bl l)); [done|by apply Hc].
      * exists b. split; [done|apply vcmp_le_refl].
  - split; rewrite ?raise_upper; [|done| |done]; rewrite E.
    + intros b' Hb'. apply elem_of_app. left. by apply H1.
    + intros b' [Hb' | ->%list_elem_of_singleton]%elem_of_app; [by apply H3|]. by exists cur.
Qed.

Lemma kept_cap i L U b : kept i L U -> kept (cap i b) L (U ++ [b]).
Proof.
  intros [H1 H2 H3 H4]. destruct (cap_cases i b) as [[E Hc]|[E (cur & Ec & Hc)]].
  - split; rewrite ?cap_lower; [done| |done|]; rewrite E.
    + intros ? [= <-]. apply elem_of_app. right. by apply list_elem_of_singleton.
    + intros b' [Hb' | ->%list_elem_of_singleton]%elem_of_app.
      * destruct (H4 b' Hb') as (u & Eu & Hu). exists b. split; [done|].
        apply (cmp_le_trans (compare:=vcmp) _ (bl u)); [by apply Hc|done].
      * exists b. split; [done|apply vcmp_le_refl].
  - split; rewrite ?cap_lower; [done| |done|]; rewrite E.
    + intros b' Hb'. apply elem_of_app. left. by apply H2.
    + intros b' [Hb' | ->%list_elem_of_singleton]%elem_of_app; [by apply H4|]. by exists cur.
Qed.

Lemma kept_query q buf :
  Forall range_ok (query_chain q) ->
  kept (and_query Interval_default q buf) (lowers buf (query_chain q)) (uppers buf (query_chain q)).
Proof.
  intros Hq. apply (chain_inv kept kept_raise kept_cap _ [] [] _ buf Hq).
  split; intros b; try discriminate; by intros ?%not_elem_of_nil.
Qed.

(** ** Subsets *)

Definition comparators (q : list Range) : list Comparator :=
  mjoin ((fun r => [left r; right r]) <$> q).

Lemma elem_of_comparators c q : c ∈ comparators q <-> exists r, r ∈ q /\ (c = left r \/ c = right r).
Proof.
  unfold comparators. rewrite list_elem_of_join. setoid_rewrite list_elem_of_fmap. split.
  - intros (l & Hc & (r & -> & Hr)). exists r. split; [done|].
    rewrite !elem_of_cons, elem_of_nil in Hc. tauto.
  - intros (r & Hr & Hc). exists [left r; right r]. rewrite !elem_of_cons. split; [tauto|].
    by exists r.
Qed.

Definition bounds_of (f : bytes -> Comparator -> list Bound) (buf : bytes) (q : list Range) : list Bound :=
  mjoin ((fun r => f buf (left r) ++ f buf (right r)) <$> q).

Lemma elem_of_bounds f buf q b : b ∈ bounds_of f buf q <-> exists c, c ∈ comparators q /\ b ∈ f buf c.
Proof.
  unfold bounds_of. rewrite list_elem_of_join. setoid_rewrite list_elem_of_fmap.
  setoid_rewrite elem_of_comparators. split.
  - intros (l & Hb & (r & -> & Hr)). apply elem_of_app in Hb as [Hb|Hb]; [exists (left r)|exists (right r)];
      (split; [|done]); exists r; auto.
  - intros (c & (r & Hr & Hc) & Hb). eexists. split; [|by exists r].
    apply elem_of_app. destruct Hc as [-> | ->]; auto.
Qed.

Lemma lower_bounds_from buf c b : b ∈ lower_bounds buf c -> b_version b = cversion c /\ b_buf b = buf.
Proof.
  unfold lower_bounds.
  destruct (op c); (by intros ?%not_elem_of_nil) || by intros ->%list_elem_of_singleton.
Qed.
Lemma upper_bounds_from buf c b : b ∈ upper_bounds buf c -> b_version b = cversion c /\ b_buf b = buf.
Proof.
  unfold upper_bounds.
  destruct (op c); (by intros ?%not_elem_of_nil) || by intros ->%list_elem_of_singleton.
Qed.

Lemma pre_between (a y z : located) :
  vcmp a y <> Gt -> vcmp y z <> Gt -> nums_eq a.1 z.1 -> has_pre (tag z.1) = true ->
  nums_eq y.1 z.1 /\ has_pre (tag y.1) = true.
Proof.
  unfold vcmp. rewrite !order_nums. intros H1 H2 Hn Hz. rewrite Hz in H2.
  destruct (cmp_nums_spec a.1 y.1), (cmp_nums_spec y.1 z.1), (has_pre (tag y.1)); try done;
    unfold nums_lt, nums_eq in *; lia.
Qed.

Section Squeeze.
Context (q : Query) (buf : bytes) (v : Version) (vb : bytes).
Context (Hq : Forall range_ok (query_chain q)) (Hp : has_pre (tag v) = true).
Local Abbreviation i := (and_query Interval_default q buf).
Context (Hi : contains i (v, vb) = true).

Definition pre_bound_of (b : Bound) : Prop := nums_eq (b_version b) v /\ has_pre (tag (b_version b)) = true.

(** A comparator that names the prerelease makes one of the kept bounds name it. *)
Lemma squeeze c :
  c ∈ comparators (query_chain q) -> op c <> OpUnset -> nums_eq (cversion c) v ->
  has_pre (tag (cversion c)) = true ->
  (exists l, lower i = Some l /\ pre_bound_of l) \/ (exists u, upper i = Some u /\ pre_bound_of u).
Proof using Hq Hp Hi.
  intros Hc Ho Hn Hpre. destruct (kept_query q buf Hq) as [_ _ Hl Hu].
  unfold contains in Hi. apply andb_true_iff in Hi as [Ha Hb].
  assert (Hlow : forall b, b ∈ lower_bounds buf c -> exists l, lower i = Some l /\ pre_bound_of l).
  { intros b Hbl. destruct (Hl b) as (l & El & Hle); [by apply (elem_of_bounds lower_bounds); eauto|].
    apply lower_bounds_from in Hbl as [Ev _]. exists l. split; [done|]. rewrite El in Ha. cbn in Ha.
    apply (pre_between (bl b) (bl l) (v, vb)); [done| |by cbn; rewrite Ev|done].
    unfold above in Ha. rewrite (cmp_flip (compare:=vcmp) (v, vb)). by destruct (vcmp (v, vb) _). }
  assert (Hup : forall b, b ∈ upper_bounds buf c -> exists u, upper i = Some u /\ pre_bound_of u).
  { intros b Hbl. destruct (Hu b) as (u & Eu & Hle); [by apply (elem_of_bounds upper_bounds); eauto|].
    apply upper_bounds_from in Hbl as [Ev _]. exists u. split; [done|]. rewrite Eu in Hb. cbn in Hb.
    destruct (pre_between (v, vb) (bl u) (bl b)) as [Hn' Hp']; [|done|by cbn; rewrite Ev; unfold nums_eq in *; lia|by cbn; rewrite Ev|].
    - unfold below in Hb. by destruct (vcmp (v, vb) _).
    - split; [|done]. cbn in Hn'. rewrite Ev in Hn'. unfold nums_eq in *. lia. }
  unfold lower_bounds, upper_bounds in *.
  destruct (op c); [done|left|right|right|left|left];
    first [eapply Hlow|eapply Hup]; by apply list_elem_of_singleton.
Qed.
End Squeeze.

Lemma within_contains i other x :
  is_within i other = true -> contains i x = true -> contains other x = true.
Proof.
  unfold is_within, contains. rewrite !andb_true_iff. intros [Hl Hu] [Ha Hb]. split.
  - destruct (lower other) as [b|]; [|done]. destruct (lower i) as [a|]; [|done]. cbn in *.
    rewrite vcmp_bounds in Hl. unfold above in *. vcmp3 x (bl a) (bl b); try done.
    rewrite Ha in Hl. by destruct (b_inclusive b).
  - destruct (upper other) as [b|]; [|done]. destruct (upper i) as [a|]; [|done]. cbn in *.
    rewrite vcmp_bounds in Hu. unfold below in *. vcmp3 x (bl a) (bl b); try done.
    rewrite Hb in Hu. by destruct (b_inclusive b).
Qed.

Lemma canonical_lower_pre l : has_pre (tag (b_version l)) = true -> canonical_lower (Some l) = Some l.
Proof.
  intros Hp. unfold canonical_lower, past_last_patch, is_zero_bound, is_last_patch.
  cbn [mbind option_bind]. by rewrite Hp, !andb_false_r, Hp, andb_false_r.
Qed.
Lemma canonical_upper_pre l u :
  has_pre (tag (b_version u)) = true -> canonical_upper l (Some u) = Some u.
Proof.
  intros Hp. unfold canonical_upper, before_next_patch, is_last_patch, below_prereleases.
  cbn [mbind option_bind]. rewrite Hp, !andb_false_r. cbn [mbind option_bind].
  by rewrite Hp, !andb_false_r.
Qed.

Lemma same_nums_eq v w : same_nums v w = true <-> nums_eq v w.
Proof. unfold same_nums, nums_eq. rewrite !andb_true_iff, !Z.eqb_eq. tauto. Qed.

Lemma names_prerelease_pre bound q v :
  Forall range_ok (query_chain q) -> pre_bound_of v bound -> names_prerelease bound q = true ->
  existsb (fun r => range_names_pre r v) (query_chain q) = true.
Proof.
  intros Hq [Hn _]. unfold names_prerelease. rewrite !existsb_exists. intros (r & Hr & H).
  exists r. split; [done|]. rewrite Forall_forall in Hq.
  destruct (Hq r) as (_ & _ & Hs); [by apply list_elem_of_In|].
  assert (Hc : forall c, is_prerelease_of_it bound c = true -> op c <> OpUnset /\ pre_matches c v = true).
  { unfold is_prerelease_of_it, pre_matches. intros c.
    rewrite !andb_true_iff, negb_true_iff, bool_decide_eq_false, same_nums_eq, !Z.eqb_eq.
    unfold nums_eq in *. intuition congruence. }
  unfold range_names_pre, has_left, has_right in *.
  apply orb_true_iff in H as [[Ho Hm]%Hc | [Ho Hm]%Hc].
  - by rewrite bool_decide_eq_false_2, Hm.
  - rewrite (bool_decide_eq_false_2 (op (right r) = _)) in * by done. cbn in Hs |- *. rewrite Hm, orb_true_r.
    destruct (bool_decide (op (left r) = OpUnset)); [|done]. by specialize (Hs eq_refl).
Qed.

Lemma range_names_comparator r v :
  range_names_pre r v = true ->
  exists c, (c = left r \/ c = right r) /\ op c <> OpUnset /\ nums_eq (cversion c) v
            /\ has_pre (tag (cversion c)) = true.
Proof.
  assert (Hm : forall c, pre_matches c v = true -> nums_eq (cversion c) v /\ has_pre (tag (cversion c)) = true).
  { unfold pre_matches, nums_eq. intros c. rewrite !andb_true_iff, !Z.eqb_eq. intuition congruence. }
  unfold range_names_pre, has_left, has_right.
  rewrite andb_true_iff, orb_true_iff, andb_true_iff, !negb_true_iff, !bool_decide_eq_false.
  intros [Hl [[H1 H2]%Hm | [Hr [H1 H2]%Hm]]]; [exists (left r)|exists (right r)]; auto.
Qed.

(** No comparator is at the last patch number, which [canonical] rounds up. *)
Definition off_ceiling (g : Group) : bool :=
  forallb (fun q => forallb (fun c => negb (is_last_patch (cversion c))) (comparators (query_chain q)))
          (group_queries g).

Section Subset.
Context (v : Version) (vb : bytes) (Hn : nums_ok v) (Hwf : wf_tag (tag v)) (Hz : above_zero v).

Lemma query_bounds_ok g buf q b :
  group_ok g -> group_wf g -> (is_release v \/ off_ceiling g = true) -> q ∈ group_queries g ->
  b ∈ lowers buf (query_chain q) \/ b ∈ uppers buf (query_chain q) ->
  bound_wf b /\ steady v b.
Proof.
  intros Hok Hw Hs Hq Hb.
  assert (Hc : exists c, c ∈ comparators (query_chain q) /\ b_version b = cversion c).
  { destruct Hb as [Hb|Hb]; [apply (elem_of_bounds lower_bounds) in Hb|apply (elem_of_bounds upper_bounds) in Hb];
      destruct Hb as (c & Hc & Hb); exists c; (split; [done|]);
      [by apply lower_bounds_from in Hb as []|by apply upper_bounds_from in Hb as []]. }
  destruct Hc as (c & Hc & Ev). unfold bound_wf, steady. rewrite Ev.
  pose proof Hc as (r & Hr & Hcr)%elem_of_comparators.
  pose proof (group_ok_query g q Hok Hq) as Ho. rewrite Forall_forall in Ho.
  destruct (Ho r Hr) as (Nl & Nr & _). unfold group_wf, query_wf in Hw. rewrite Forall_forall in Hw.
  specialize (Hw q Hq). rewrite Forall_forall in Hw. destruct (Hw r Hr) as [Wl Wr].
  splits; [by destruct Hcr as [-> | ->]..|]. destruct Hs as [Hs|Hs]; [by left|right].
  unfold off_ceiling in Hs. rewrite forallb_forall in Hs. setoid_rewrite forallb_forall in Hs.
  apply negb_true_iff, (Hs q); by apply list_elem_of_In.
Qed.

Lemma canonical_query g buf q :
  group_ok g -> group_wf g -> (is_release v \/ off_ceiling g = true) -> q ∈ group_queries g ->
  let i := and_query Interval_default q buf in
  (contains (canonical i) (v, vb) = true -> contains i (v, vb) = true)
  /\ (query_admits q v buf vb = true -> contains (canonical i) (v, vb) = true).
Proof using Hn Hwf Hz.
  intros Hok Hw Hs Hq i. pose proof (group_ok_query g q Hok Hq) as Ho.
  destruct (kept_query q buf Ho) as [Kl Ku _ _].
  destruct (canonical_contains v vb Hn Hwf i) as [Hback Hfwd]; [| |done|].
  { intros b Hb. apply (query_bounds_ok g buf q b); auto. }
  { intros b Hb. apply (query_bounds_ok g buf q b); auto. }
  split; [done|]. intros Ha.
  assert (Hi : contains i (v, vb) = true) by (by apply (admits_contains g)).
  apply Hfwd; [done|]. intros u Eu Hp Hnu Hpu.
  unfold query_admits in Ha. rewrite Hp in Ha. cbn [negb orb] in Ha.
  apply andb_true_iff in Ha as [_ (r & Hr%list_elem_of_In & (c & Hc & Hop & Hcn & Hcp)%range_names_comparator)%existsb_exists].
  destruct (squeeze q buf v vb Ho Hp Hi c) as [(l & El & Hl & Hlp)|(u' & Eu' & Hu' & Hup)];
    [by apply elem_of_comparators; exists r|done..| |].
  - fold i in El. rewrite El, canonical_lower_pre by done. cbn. rewrite Hlp. apply same_nums_eq.
    unfold nums_eq in *. lia.
  - fold i in Eu'. congruence.
Qed.

Lemma lower_pre_bound l : pre_bound_of v l -> forall i, lower i = Some l -> lower (canonical i) = Some l.
Proof. intros [_ Hp] i El. unfold canonical. cbn [lower]. by rewrite El, canonical_lower_pre. Qed.
Lemma upper_pre_bound u : pre_bound_of v u -> forall i, upper i = Some u -> upper (canonical i) = Some u.
Proof. intros [_ Hp] i Eu. unfold canonical. cbn [upper]. by rewrite Eu, canonical_upper_pre. Qed.

(** No prerelease is below [M.m.p-0], so an upper bound that admits one counts. *)
Lemma below_zero_pre u :
  has_pre (tag v) = true -> pre_bound_of v u -> below (v, vb) u = true ->
  b_inclusive u || negb (bool_decide (ext_slice (pre (tag (b_version u))) (b_buf u) = bstr "0")) = true.
Proof.
  intros Hp [Hu Hup] Hb. destruct (b_inclusive u) eqn:Ei; [done|]. cbn [orb].
  apply negb_true_iff, bool_decide_eq_false. intros E.
  unfold below, vcmp, bl in Hb. cbn [fst snd] in Hb. rewrite order_nums, Hp, Hup in Hb.
  destruct (cmp_nums_spec v (b_version u)) as [H|H|H]; [|unfold nums_lt, nums_eq in *; lia..].
  unfold lpre in Hb. cbn [fst snd] in Hb. rewrite E in Hb.
  rewrite (cmp_flip (compare:=cmp_prerelease) (bstr "0")) in Hb.
  pose proof (cmp_prerelease_zero (ext_slice (pre (tag v)) vb)). destruct (cmp_prerelease _ _); cbn in Hb; congruence.
Qed.
End Subset.

(** The comparator of the alternative that names the prerelease gives [sub] a bound
    that [prereleases_can_satisfy] looks up in the other alternative. *)
Lemma prereleases_named g gb q other v vb :
  nums_ok v -> above_zero v ->
  group_ok g -> group_wf g -> q ∈ group_queries g -> Forall range_ok (query_chain other) ->
  has_pre (tag v) = true -> query_admits q v gb vb = true ->
  prereleases_can_satisfy (canonical (and_query Interval_default q gb)) other = true ->
  existsb (fun r => range_names_pre r v) (query_chain other) = true.
Proof.
  intros Hn Hz Hg Wg Hq Ho Hp Ha Hc.
  pose proof (admits_contains g q v gb vb Interval_default Hg Wg Hq Hn Hz Ha eq_refl) as Hi.
  unfold query_admits in Ha. rewrite Hp in Ha. cbn [negb orb] in Ha.
  apply andb_true_iff in Ha as [_ (r & Hr%list_elem_of_In & (c & Hcr & Hop & Hcn & Hcp)%range_names_comparator)%existsb_exists].
  unfold prereleases_can_satisfy in Hc. rewrite forallb_app, andb_true_iff, !forallb_forall in Hc.
  destruct Hc as [Hl Hu].
  destruct (squeeze q gb v vb (group_ok_query g q Hg Hq) Hp Hi c) as [(b & Eb & Hb)|(b & Eb & Hb)];
    [by apply elem_of_comparators; exists r|done..| |]; apply (names_prerelease_pre b); try done.
  - apply Hl. rewrite (lower_pre_bound v b Hb _ Eb). apply list_elem_of_In, list_elem_of_filter.
    split; [apply Hb|by apply list_elem_of_singleton].
  - apply Hu. rewrite (upper_pre_bound v b Hb _ Eb). apply list_elem_of_In, list_elem_of_filter.
    split; [|by apply list_elem_of_singleton].
    rewrite (proj2 Hb). apply (below_zero_pre v vb); [done|done|].
    apply andb_true_iff in Hi as [_ Hi]. by rewrite Eb in Hi.
Qed.

(** C38.  Soundness of [is_subset_of]: a version that satisfies the subset satisfies
    the other group, when the version is not a prerelease of [0.0.0] and either it is a
    release or no comparator of either group is at the last patch number, where it
    fails ([subset_at_the_ceiling]). *)
Theorem is_subset_of_sound g gb h hb v vb :
  group_ok g -> group_ok h -> group_wf g -> group_wf h ->
  nums_ok v -> wf_tag (tag v) -> above_zero v ->
  is_release v \/ (off_ceiling g = true /\ off_ceiling h = true) ->
  is_subset_of g gb h hb = true ->
  group_satisfies g v gb vb = true -> group_satisfies h v hb vb = true.
Proof.
  intros Hg Hh Wg Wh Hn Hwf Hz Hs Hsub (a & Ha & Qa)%group_satisfies_query.
  assert (Sg : is_release v \/ off_ceiling g = true) by tauto.
  assert (Sh : is_release v \/ off_ceiling h = true) by tauto.
  unfold is_subset_of in Hsub. rewrite forallb_forall in Hsub.
  specialize (Hsub a ltac:(by apply list_elem_of_In)).
  destruct (canonical_query v vb Hn Hwf Hz g gb a Hg Wg Sg Ha) as [_ Ca]. specialize (Ca Qa).
  rewrite (contains_is_non_empty _ v vb) in Hsub by done. cbn [negb] in Hsub.
  apply existsb_exists in Hsub as (b & Hb%list_elem_of_In & [Hw Hp]%andb_true_iff).
  apply group_satisfies_query. exists b. split; [done|]. unfold query_admits. apply andb_true_iff.
  pose proof (group_ok_query h b Hh Hb) as Ho. split.
  - destruct (canonical_query v vb Hn Hwf Hz h hb b Hh Wh Sh Hb) as [Cb _].
    unfold group_wf in Wh. rewrite Forall_forall in Wh.
    rewrite (query_admits_plain b v hb vb Ho) by auto.
    specialize (Cb (within_contains _ _ _ Hw Ca)). unfold and_query in Cb.
    by rewrite and_chain_contains in Cb.
  - destruct (has_pre (tag v)) eqn:Hpre; [|done]. cbn [negb orb].
    by apply (prereleases_named g gb a b v vb).
Qed.

Lemma is_subset_of_sound_witness :
  let g := bstr ">=1.2.3-alpha <1.2.3-rc || ^1.4.0" in
  let h := bstr "<0.5.0 || >=1.2.3-alpha <2.0.0" in
  let v := mk_version 1 2 3 {| pre := {| value := init (bstr "beta") {| s_at := 0; s_bytes := bstr "beta" |};
                                         hash := 0 |}; build := ext_default |} in
  group_satisfies (group_of h) v h [] = true.
Proof.
  intros g h v. apply (is_subset_of_sound (group_of g) g (group_of h) h v []);
    [decide_now..|right; split; vm_compute; reflexivity|vm_compute; reflexivity|vm_compute; reflexivity].
Defined.

(** ** Where the answers are not exact *)

Definition version_of (text : bytes) : Version :=
  match parse u64_ty (sliced_init text) with
  | Some r => pmin (SemverVersion.version r)
  | None => Version_default
  end.
Definition satisfied_by (range text : bytes) : bool :=
  group_satisfies (group_of range) (version_of text) range text.

(** A prerelease of [0.0.0] satisfies both groups, which do not intersect. *)
Lemma intersects_misses_zero_prereleases :
  let g := bstr ">=0.0.0 <0.0.0-c" in
  let h := bstr "<0.0.0-c" in
  satisfied_by g (bstr "0.0.0-a") = true /\ satisfied_by h (bstr "0.0.0-a") = true
  /\ intersects (group_of g) g (group_of h) h = false.
Proof. vm_compute. done. Qed.

(** Rounding past the last patch number drops the prereleases in between. *)
Lemma subset_at_the_ceiling :
  let g := bstr ">1.18446744073709551615.18446744073709551615 <2.0.0-b" in
  let h := bstr "5.0.0" in
  is_subset_of (group_of g) g (group_of h) h = true
  /\ satisfied_by g (bstr "2.0.0-a") = true /\ satisfied_by h (bstr "2.0.0-a") = false.
Proof. vm_compute. done. Qed.

(** The cases the source tests [is_subset_of] with. *)
Definition subset_cases : list (bytes * bytes * bool) := [
  (bstr ">=16.0.0", bstr ">=16.0.1", false); (bstr ">16.0.0", bstr ">=16.0.0", true);
  (bstr "16.3.1", bstr "^16.4.0", false); (bstr "^16", bstr "^16.0.0", true);
  (bstr "^18 || ^20 || ^21", bstr "^18.0.0 || ^20.0.0 || >=22.0.0", false);
  (bstr ">=1", bstr "1 || >=2", false); (bstr "<17.0.0", bstr "<=16", true);
  (bstr ">=2.0.0-a <2.0.0", bstr ">=2.0.0-a <2.0.0-0", false); (bstr ">16 <17.0.0", bstr "1.0.0", true);
  (bstr "", bstr "*", true); (bstr "<5", bstr ">=0.0.0 <6", true); (bstr "16 - 18", bstr ">=16 <19", true);
  (bstr ">=20.19.0 <21.0.0", bstr "^20.10.0", true); (bstr ">=22.0.0-rc.1", bstr ">=20.0.0", false);
  (bstr ">=1.0.0 <2.0.0-rc", bstr "^1.0.0", false); (bstr "1.2.3-beta", bstr ">=1.2.3-alpha <2.0.0", true)].
Lemma subset_cases_hold :
  forallb (fun '(g, h, expected) =>
    Bool.eqb (is_subset_of (group_of g) g (group_of h) h) expected) subset_cases = true.
Proof. vm_compute. reflexivity. Qed.
