(* ===== verification/SemverInc.v ===== *)
(** * Increments (src/semver/inc.rs)

    [inc] bumps one part of a version and prints the result.  A prerelease is a list
    of identifiers, numbers kept as numbers.  The theorems say that the printed text
    is a version, that it follows the one it was made from, and when there is none. *)

From S2P Require Import Prelude Bytes SemverString SemverVersion SemverRange.

(** ** Data *)
Inductive Release :=
  | RelMajor | RelMinor | RelPatch | Premajor | Preminor | Prepatch | Prerelease | RelRelease.
#[export] Instance Release_eq_dec : EqDecision Release.
Proof. solve_decision. Defined.

Definition ALL : list Release :=
  [RelMajor; RelMinor; RelPatch; Premajor; Preminor; Prepatch; Prerelease; RelRelease].

Definition as_str (r : Release) : bytes :=
  match r with
  | RelMajor => bstr "major"
  | RelMinor => bstr "minor"
  | RelPatch => bstr "patch"
  | Premajor => bstr "premajor"
  | Preminor => bstr "preminor"
  | Prepatch => bstr "prepatch"
  | Prerelease => bstr "prerelease"
  | RelRelease => bstr "release"
  end.

Definition from_bytes (name : bytes) : option Release :=
  find (fun release => bool_decide (as_str release = name)) ALL.

Definition is_pre (r : Release) : bool :=
  match r with Premajor | Preminor | Prepatch | Prerelease => true | _ => false end.

Inductive IdentifierBase := BaseZero | BaseOne | BaseNone.
#[export] Instance IdentifierBase_eq_dec : EqDecision IdentifierBase.
Proof. solve_decision. Defined.

Inductive Identifier := Number (n : Z) | Text (t : bytes).

Definition MAX_SAFE : Z := Z.shiftl 1 53 - 1.

(** ** Identifiers *)

(** [is_numeric] of inc.rs *)
Definition all_numeric (part : bytes) : bool :=
  negb (bool_decide (part = [])) && forallb is_ascii_digit part.

Definition identifier_parse (text : bytes) : Identifier :=
  if all_numeric text then
    match parse_ascii u64_ty text with
    | Some number => if number <=? MAX_SAFE then Number number else Text text
    | None => Text text
    end
  else Text text.

Definition identifier_equals (i : Identifier) (text : bytes) : bool :=
  match i with
  | Number number =>
      all_numeric text
      && match parse_ascii u64_ty text with Some other => other =? number | None => false end
  | Text own => bool_decide (own = text)
  end.

Definition write_to (i : Identifier) : bytes :=
  match i with Number number => show number | Text text => text end.

Definition is_ascii_alphanumeric (c : Z) : bool :=
  in_range "a"%u8 "z"%u8 c || in_range "A"%u8 "Z"%u8 c || in_range "0"%u8 "9"%u8 c.

Definition is_valid_identifier (identifier : bytes) : bool :=
  negb (bool_decide (identifier = []))
  && forallb (fun part =>
       negb (bool_decide (part = []))
       && forallb (fun c => is_ascii_alphanumeric c || (c =? "-"%u8)) part
       && negb (all_numeric part && (1 <? length part)%nat
                && char_at (fun c => c =? "0"%u8) part 0))
       (split_parts identifier "."%u8).

Fixpoint write_joined (parts : list Identifier) : bytes :=
  match parts with
  | [] => []
  | [part] => write_to part
  | part :: parts => write_to part ++ "."%u8 :: write_joined parts
  end.

(** ** bump_prerelease *)

(** [pre.iter_mut().rev().find_map(..)]: the last number and where it is. *)
Fixpoint last_number (pre : list Identifier) : option (nat * Z) :=
  match pre with
  | [] => None
  | part :: pre =>
      match last_number pre with
      | Some (k, n) => Some (S k, n)
      | None => match part with Number n => Some (0%nat, n) | Text _ => None end
      end
  end.

Definition is_base_none (b : IdentifierBase) : bool := bool_decide (b = BaseNone).
Definition base_number (b : IdentifierBase) : Z := match b with BaseOne => 1 | _ => 0 end.

(** The number counted up, or started. *)
Definition bump_number (pre : list Identifier) (identifier : option bytes) (base : IdentifierBase)
  : option (list Identifier) :=
  match pre with
  | [] => Some [Number (base_number base)]
  | _ =>
      match last_number pre with
      | Some (k, number) =>
          number ← checked_add64 number 1;
          Some (<[k := Number number]> pre)
      | None =>
          if is_base_none base
             && match identifier with
                | Some identifier => bool_decide (write_joined pre = identifier)
                | None => false
                end
          then None
          else Some (pre ++ [Number (base_number base)])
      end
  end.

Definition has_number (pre : list Identifier) : bool :=
  match pre !! 1%nat with
  | Some (Number _) => true
  | Some (Text text) => all_numeric text
  | None => false
  end.

(** [pre[0].equals(identifier)]; indexing an empty list panics, [false] here, and
    [bump_number] never gives one. *)
Definition same_identifier (pre : list Identifier) (identifier : bytes) : bool :=
  match pre with i :: _ => identifier_equals i identifier | [] => false end.

Definition bump_prerelease (pre : list Identifier) (identifier : option bytes)
    (base : IdentifierBase) : option (list Identifier) :=
  pre ← bump_number pre identifier base;
  Some match identifier with
       | Some identifier =>
           if negb (same_identifier pre identifier) || negb (has_number pre)
           then Text identifier
                :: (if is_base_none base then [] else [Number (base_number base)])
           else pre
       | None => pre
       end.

(** ** inc *)

Definition pre_of (version : Version) (buf : bytes) : list Identifier :=
  let pre_tag := ext_slice (pre (tag version)) buf in
  if bool_decide (pre_tag = []) then []
  else identifier_parse <$> split_parts pre_tag "."%u8.

Definition no_pre (pre : list Identifier) : bool := bool_decide (length pre = 0%nat).

(** The match on [release]: the numbers and the prerelease. *)
Definition inc_parts (major minor patch : Z) (pre : list Identifier) (release : Release)
    (identifier : option bytes) (base : IdentifierBase)
  : option (Z * Z * Z * list Identifier) :=
  match release with
  | RelMajor =>
      major ← (if negb (minor =? 0) || negb (patch =? 0) || no_pre pre
               then checked_add64 major 1 else Some major);
      Some (major, 0, 0, [])
  | RelMinor =>
      minor ← (if negb (patch =? 0) || no_pre pre then checked_add64 minor 1 else Some minor);
      Some (major, minor, 0, [])
  | RelPatch =>
      patch ← (if no_pre pre then checked_add64 patch 1 else Some patch);
      Some (major, minor, patch, [])
  | Premajor =>
      major ← checked_add64 major 1;
      pre ← bump_prerelease [] identifier base;
      Some (major, 0, 0, pre)
  | Preminor =>
      minor ← checked_add64 minor 1;
      pre ← bump_prerelease [] identifier base;
      Some (major, minor, 0, pre)
  | Prepatch =>
      patch ← checked_add64 patch 1;
      pre ← bump_prerelease [] identifier base;
      Some (major, minor, patch, pre)
  | Prerelease =>
      patch ← (if no_pre pre then checked_add64 patch 1 else Some patch);
      pre ← bump_prerelease pre identifier base;
      Some (major, minor, patch, pre)
  | RelRelease => if no_pre pre then None else Some (major, minor, patch, [])
  end.

Definition print_parts (major minor patch : Z) (pre : list Identifier) : bytes :=
  show major ++ "."%u8 :: show minor ++ "."%u8 :: show patch
  ++ (if no_pre pre then [] else "-"%u8 :: write_joined pre).

Definition nonempty_identifier (identifier : option bytes) : option bytes :=
  i ← identifier; if bool_decide (i = []) then None else Some i.

Definition identifier_refused (identifier : option bytes) (base : IdentifierBase) : bool :=
  match identifier with
  | Some identifier => negb (is_valid_identifier identifier)
  | None => is_base_none base
  end.

Definition inc (version : Version) (buf : bytes) (release : Release) (identifier : option bytes)
    (base : IdentifierBase) : option bytes :=
  let identifier := nonempty_identifier identifier in
  if is_pre release && identifier_refused identifier base then None
  else
    '(major, minor, patch, pre) ←
       inc_parts (major version) (minor version) (patch version) (pre_of version buf)
         release identifier base;
    Some (print_parts major minor patch pre).

(** ** The printed text is a version *)

Definition ident_ok (i : Identifier) : Prop :=
  match i with
  | Number n => 0 <= n <= MAX_SAFE + 1
  | Text t => Forall (fun c => pre_char c = true) t
  end.
(** Some identifier prints to something. *)
Definition solid (pre : list Identifier) : Prop := Exists (fun i => write_to i <> []) pre.

Lemma write_joined_cons i pre :
  write_joined (i :: pre)
  = write_to i ++ match pre with [] => [] | _ => "."%u8 :: write_joined pre end.
Proof. destruct pre; cbn; [by rewrite app_nil_r|done]. Qed.

Lemma show_pre_char n : 0 <= n <= MAX_SAFE + 1 -> Forall (fun c => pre_char c = true) (show n).
Proof.
  intros Hn. destruct (show_spec n) as (_ & Hd & _); [change MAX_SAFE with 9007199254740991 in Hn; unfold u128_max; lia|].
  eapply Forall_impl; [exact Hd|]. intros c Hc. cbn in *. unfold is_ascii_digit in Hc.
  unfold pre_char, is_tag_char. by rewrite Hc, !orb_true_r.
Qed.

Lemma write_to_pre_char i : ident_ok i -> Forall (fun c => pre_char c = true) (write_to i).
Proof. destruct i; [apply show_pre_char|done]. Qed.

Lemma write_joined_pre_char pre :
  Forall ident_ok pre -> Forall (fun c => pre_char c = true) (write_joined pre).
Proof.
  induction 1 as [|i pre Hi Hpre IH]; [done|]. rewrite write_joined_cons. apply Forall_app.
  split; [by apply write_to_pre_char|]. destruct pre; [done|]. by constructor.
Qed.

Lemma write_joined_solid pre : solid pre -> write_joined pre <> [].
Proof.
  induction pre as [|i pre IH]; intros H; inversion H; subst; rewrite write_joined_cons;
    [by destruct (write_to i)|]. destruct pre; [by inversion H1|]. by destruct (write_to i).
Qed.

Lemma pre_char_range c : pre_char c = true -> 32 < c < 128.
Proof.
  unfold pre_char, is_tag_char, in_range. rewrite !orb_true_iff, !andb_true_iff, !Z.leb_le, !Z.eqb_eq.
  cbn. lia.
Qed.

Lemma pre_text_storable s :
  Forall (fun c => pre_char c = true) s -> Z.of_nat (length s) < 2147483648 ->
  storable s {| s_at := 0; s_bytes := s |}.
Proof.
  intros Hs Hl. assert (Hr : Forall (fun c => 32 < c < 128) s).
  { eapply Forall_impl; [exact Hs|]. apply pre_char_range. }
  unfold storable, storable_bytes. cbn [s_bytes]. splits; [|lia| |done|intros _].
  - split; cbn [s_bytes s_at]; [|lia]. by rewrite drop_0, firstn_all.
  - eapply Forall_impl; [exact Hr|]. unfold is_byte. cbn. lia.
  - unfold no_nul. eapply Forall_impl; [exact Hr|]. cbn. lia.
Qed.

(** The version a printed result denotes, with its prerelease [s] as buffer. *)
Definition printed (M m p : Z) (s : bytes) : Version :=
  mk_version M m p {| pre := ext_init s {| s_at := 0; s_bytes := s |} 0; build := ext_default |}.

Lemma print_parts_parse M m p pre :
  is_u64 M -> is_u64 m -> is_u64 p -> Forall ident_ok pre -> (pre <> [] -> solid pre) ->
  Z.of_nat (length (print_parts M m p pre)) < 2147483648 ->
  exists v', parse_exact u64_ty (sliced_init (print_parts M m p pre)) = Some (Some v')
    /\ nums_eq v' (printed M m p [])
    /\ opt_pre v' (print_parts M m p pre)
       = (if no_pre pre then None else Some (write_joined pre))
    /\ wf_tag (tag v').
Proof.
  intros HM Hm Hp Hpre Hsol Hlen. set (s := write_joined pre).
  assert (Hchars : Forall (fun c => pre_char c = true) s) by by apply write_joined_pre_char.
  assert (Hs : no_pre pre = true \/ no_pre pre = false /\ s <> []).
  { unfold no_pre. destruct pre; [by left|right]. split; [done|]. by apply write_joined_solid, Hsol. }
  assert (Hslen : no_pre pre = false -> Z.of_nat (length s) < 2147483648).
  { intros E. unfold print_parts in Hlen. rewrite E, !length_app in Hlen. cbn [length] in Hlen.
    rewrite !length_app in Hlen. cbn [length] in Hlen. rewrite !length_app in Hlen.
    cbn [length] in Hlen. subst s. lia. }
  set (v := printed M m p (if no_pre pre then [] else s)).
  set (buf := if no_pre pre then [] else s).
  assert (Hst : storable buf {| s_at := 0; s_bytes := buf |}).
  { unfold buf. destruct Hs as [E|[E _]]; rewrite E; apply pre_text_storable;
      [done|cbn; lia|done|by apply Hslen]. }
  assert (Hbuf : ext_slice (SemverVersion.pre (tag v)) buf = buf) by apply (init_slice_ok buf _ Hst).
  assert (Hhas : has_pre (tag v) = negb (no_pre pre)).
  { unfold has_pre, ext_is_empty, v, printed. cbn [tag mk_version SemverVersion.pre ext_init value]. fold buf.
    rewrite is_empty_init by done. cbn [s_bytes]. unfold buf.
    destruct Hs as [E|[E Hne]]; rewrite E; [done|]. by destruct s. }
  assert (Hopt : opt_pre v buf = if no_pre pre then None else Some s).
  { unfold opt_pre. rewrite Hhas, Hbuf. unfold buf. by destruct (no_pre pre). }
  assert (Hfmt : version_fmt v buf = print_parts M m p pre).
  { rewrite version_fmt_text, Hopt. unfold print_parts, tag_text.
    change (opt_build v buf) with (@None bytes). destruct (no_pre pre); [done|]. by rewrite app_nil_r. }
  destruct (parse_exact_printed u64_ty v buf) as (v' & Hv & (E1 & E2 & E3 & E4 & _) & Hwf).
  { unfold printable. rewrite Hopt, Hfmt. change (opt_build v buf) with (@None bytes).
    unfold is_u64 in *. splits; try done; try (cbn; lia).
    - destruct (no_pre pre); [done|exact Hchars].
    - destruct Hs as [E|[E Hne]]; rewrite E; unfold nonempty; [done|congruence]. }
  rewrite Hfmt in *. exists v'. splits; [done| |by rewrite E4|done].
  unfold nums_eq. by rewrite E1, E2, E3.
Qed.

(** ** Identifiers *)

(** Parsed from a tag: printable, and a number that can be counted up. *)
Definition ident_parsed (i : Identifier) : Prop :=
  match i with
  | Number n => 0 <= n <= MAX_SAFE
  | Text t => Forall (fun c => pre_char c = true) t
  end.

Lemma ident_parsed_ok i : ident_parsed i -> ident_ok i.
Proof. destruct i; cbn [ident_parsed ident_ok]; [lia|done]. Qed.

Lemma identifier_parse_parsed t :
  Forall (fun c => pre_char c = true) t -> ident_parsed (identifier_parse t).
Proof.
  intros Ht. unfold identifier_parse. destruct (all_numeric t); [|done].
  destruct (parse_ascii u64_ty t) as [n|] eqn:E; [|done].
  apply (parse_ascii_range u64_ty) in E. destruct (Z.leb_spec n MAX_SAFE); cbn [ident_parsed]; [lia|done].
Qed.

Lemma show_ident n : is_u64 n -> parse_ascii u64_ty (show n) = Some n.
Proof.
  intros Hn. unfold is_u64 in Hn. unfold parse_ascii.
  by rewrite parse_unsigned_show by (cbn; unfold u128_max; lia).
Qed.

(** Reading an identifier keeps its place in the order. *)
Lemma identifier_parse_order t : cmp_ident (write_to (identifier_parse t)) t = Eq.
Proof.
  unfold identifier_parse. destruct (all_numeric t); [|by apply cmp_refl, _].
  destruct (parse_ascii u64_ty t) as [n|] eqn:E; [|by apply cmp_refl, _].
  pose proof (parse_ascii_range u64_ty _ _ E) as Hr.
  destruct (Z.leb_spec n MAX_SAFE); [|by apply cmp_refl, _]. cbn [write_to].
  rewrite cmp_ident_eq, show_ident, E by (unfold is_u64; cbn in Hr; lia). apply Z.compare_refl.
Qed.

Definition dotless (s : bytes) : Prop := "."%u8 ∉ s.

Lemma show_dotless n : is_u64 n -> dotless (show n).
Proof.
  intros Hn. unfold is_u64 in Hn. destruct (show_spec n) as (_ & Hd & _); [unfold u128_max; lia|].
  unfold dotless. intros H. unfold all_digits in Hd. rewrite Forall_forall in Hd. by specialize (Hd _ H).
Qed.

Lemma write_joined_join pre : write_joined pre = join "."%u8 (write_to <$> pre).
Proof.
  induction pre as [|i pre IH]; [done|]. rewrite write_joined_cons, IH.
  destruct pre; cbn; [by rewrite app_nil_r|done].
Qed.

Lemma valid_identifier_ok s :
  is_valid_identifier s = true -> s <> [] /\ Forall (fun c => pre_char c = true) s.
Proof.
  unfold is_valid_identifier. rewrite andb_true_iff, negb_true_iff, bool_decide_eq_false, split_parts_fields.
  intros [Hne Hv]. split; [done|]. rewrite <- (join_fields "."%u8 s). apply join_forall; [done|].
  rewrite forallb_forall in Hv. apply Forall_forall. intros part Hp%list_elem_of_In%Hv.
  rewrite !andb_true_iff, forallb_forall in Hp. destruct Hp as [[_ Hc] _]. apply Forall_forall.
  intros c Hin%list_elem_of_In%Hc. unfold pre_char, is_tag_char. unfold is_ascii_alphanumeric in Hin.
  rewrite !orb_true_iff in *. tauto.
Qed.

Lemma pre_of_parsed v buf :
  printable u64_ty v buf -> wf_tag (tag v) ->
  Forall ident_parsed (pre_of v buf)
  /\ no_pre (pre_of v buf) = negb (has_pre (tag v))
  /\ (has_pre (tag v) = true ->
      pre_of v buf = identifier_parse <$> fields (ext_slice (pre (tag v)) buf) "."%u8).
Proof.
  unfold printable, opt_pre, pre_of. intros (_ & [Hc Hne] & _ & _) Hwf.
  destruct (has_pre (tag v)) eqn:Hp; cbn [chars_ok negb] in *.
  - rewrite bool_decide_eq_false_2 by (unfold nonempty in Hne; congruence).
    rewrite split_parts_fields. splits; [| |done].
    + apply Forall_fmap. eapply Forall_impl; [by apply fields_forall|].
      intros t Ht. by apply identifier_parse_parsed.
    + unfold no_pre. rewrite length_fmap. pose proof (fields_ne (ext_slice (pre (tag v)) buf) "."%u8).
      by destruct (fields _ _).
  - rewrite no_pre_slice by done. rewrite bool_decide_eq_true_2 by done. done.
Qed.

(** ** Counting up *)

Lemma last_number_lookup pre k n : last_number pre = Some (k, n) -> pre !! k = Some (Number n).
Proof.
  revert k. induction pre as [|i pre IH]; intros k; cbn [last_number]; [done|].
  destruct (last_number pre) as [[k' n']|].
  - intros [= <- ->]. by apply IH.
  - destruct i; [|done]. by intros [= <- ->].
Qed.

Lemma cmp_bumped t n :
  identifier_parse t = Number n -> cmp_ident (show (n + 1)) t = Gt.
Proof.
  unfold identifier_parse. destruct (all_numeric t); [|done].
  destruct (parse_ascii u64_ty t) as [n'|] eqn:E; [|done].
  pose proof (parse_ascii_range u64_ty _ _ E) as Hr. change MAX_SAFE with 9007199254740991.
  destruct (Z.leb_spec n' 9007199254740991); [|done]. intros [= ->].
  rewrite cmp_ident_eq, show_ident, E by (unfold is_u64; cbn in Hr; lia).
  apply Z.compare_gt_iff. lia.
Qed.

Lemma bumped_gt fs k n :
  last_number (identifier_parse <$> fs) = Some (k, n) ->
  cmp_list cmp_ident (write_to <$> <[k := Number (n + 1)]> (identifier_parse <$> fs)) fs = Gt.
Proof.
  revert k. induction fs as [|t fs IH]; intros k; rewrite ?fmap_cons; cbn [last_number]; [done|].
  destruct (last_number (identifier_parse <$> fs)) as [[k' n']|] eqn:E.
  - intros [= <- ->]. cbn. rewrite identifier_parse_order. by apply IH.
  - destruct (identifier_parse t) as [m|] eqn:Et; [|done]. intros [= <- ->]. cbn [list_insert fmap list_fmap cmp_list insert write_to].
    by rewrite (cmp_bumped t).
Qed.

Lemma pushed_gt fs i : cmp_list cmp_ident (write_to <$> (identifier_parse <$> fs) ++ [i]) fs = Gt.
Proof. induction fs as [|t fs IH]; [done|]. cbn. by rewrite identifier_parse_order. Qed.

Lemma solid_number pre n : 0 <= n <= MAX_SAFE + 1 -> Number n ∈ pre -> solid pre.
Proof.
  intros Hn H. apply Exists_exists. exists (Number n). split; [done|].
  destruct (show_spec n) as (Hne & _); [|done]. change MAX_SAFE with 9007199254740991 in Hn.
  unfold u128_max. lia.
Qed.

Lemma base_number_ok base : 0 <= base_number base <= MAX_SAFE + 1.
Proof. change MAX_SAFE with 9007199254740991. destruct base; cbn; lia. Qed.

Lemma checked_next n n' : 0 <= n <= MAX_SAFE -> checked_add64 n 1 = Some n' -> n' = n + 1 /\ 0 <= n' <= MAX_SAFE + 1.
Proof.
  change MAX_SAFE with 9007199254740991. intros Hn.
  destruct (checked_add64_cases n) as [[-> _]|[-> _]]; [unfold is_u64; lia|intros [= <-]; lia|done].
Qed.

Lemma bump_number_ok pre identifier base pre' :
  Forall ident_parsed pre -> bump_number pre identifier base = Some pre' ->
  Forall ident_ok pre' /\ solid pre'.
Proof.
  intros Hpre. pose proof (base_number_ok base) as Hb.
  assert (Hok : Forall ident_ok pre) by (eapply Forall_impl; [exact Hpre|apply ident_parsed_ok]).
  unfold bump_number. destruct pre as [|i0 pre0] eqn:Epre.
  { intros [= <-]. split; [by constructor|]. by apply (solid_number _ (base_number base)), list_elem_of_singleton. }
  rewrite <- Epre in *. clear Epre. destruct (last_number pre) as [[k n]|] eqn:El.
  - apply last_number_lookup in El. rewrite Forall_lookup in Hpre. pose proof (Hpre _ _ El) as Hn.
    destruct (checked_add64 n 1) as [n'|] eqn:Ec; [|done]. cbn [mbind option_bind]. intros [= <-].
    apply checked_next in Ec as [-> Hn']; [|done]. split; [by apply Forall_insert|].
    apply (solid_number _ (n + 1)); [done|]. apply list_elem_of_lookup. exists k.
    apply list_lookup_insert_eq. by eapply lookup_lt_Some.
  - destruct (_ && _); [done|]. intros [= <-]. split; [apply Forall_app; split; [done|by constructor]|].
    apply (solid_number _ (base_number base)); [done|]. apply elem_of_app. right. by apply list_elem_of_singleton.
Qed.

Lemma bump_prerelease_ok pre identifier base pre' :
  Forall ident_parsed pre -> (forall s, identifier = Some s -> is_valid_identifier s = true) ->
  bump_prerelease pre identifier base = Some pre' ->
  Forall ident_ok pre' /\ solid pre'.
Proof.
  intros Hpre Hid. unfold bump_prerelease.
  destruct (bump_number pre identifier base) as [pre1|] eqn:E; [|done]. cbn [mbind option_bind].
  destruct (bump_number_ok pre identifier base pre1 Hpre E) as [H1 H2].
  destruct identifier as [s|]; [|by intros [= <-]].
  destruct (valid_identifier_ok s (Hid s eq_refl)) as [Hne Hs].
  destruct (_ || _); intros [= <-]; [|done]. split.
  - constructor; [done|]. destruct (is_base_none base); [done|]. constructor; [apply base_number_ok|done].
  - by apply Exists_cons_hd.
Qed.

Lemma checked_add64_u64 a b : is_u64 a -> checked_add64 a 1 = Some b -> is_u64 b /\ b = a + 1.
Proof.
  intros Ha. destruct (checked_add64_cases a Ha) as [[-> H]|[-> _]]; [intros [= <-]|done].
  unfold is_u64 in *. lia.
Qed.

(** Takes the match on the release apart: the increments that succeed and the tests. *)
Ltac inc_cases :=
  cbn [inc_parts mbind option_bind];
  repeat match goal with
  | |- context [checked_add64 ?n 1] =>
      let E := fresh "E" in destruct (checked_add64 n 1) eqn:E; cbn [mbind option_bind];
      [apply checked_add64_u64 in E as [? ->]; [|done]|]
  | |- context [bump_prerelease ?q ?i ?b] =>
      let E := fresh "B" in destruct (bump_prerelease q i b) eqn:E; cbn [mbind option_bind]
  | |- context [if ?b then _ else _] => let E := fresh "T" in destruct b eqn:E; cbn [mbind option_bind]
  | |- Some _ = Some _ -> _ => intros [= <- <- <- <-]
  | |- None = Some _ -> _ => discriminate
  end.

(** The numbers and the prerelease [inc] prints. *)
Lemma inc_parts_ok v pre release identifier base M m p pre' :
  nums_ok v -> Forall ident_parsed pre -> (is_pre release = true ->
    forall s, identifier = Some s -> is_valid_identifier s = true) ->
  inc_parts (major v) (minor v) (patch v) pre release identifier base = Some (M, m, p, pre') ->
  (is_u64 M /\ is_u64 m /\ is_u64 p) /\ Forall ident_ok pre' /\ (pre' <> [] -> solid pre').
Proof.
  intros (H1 & H2 & H3) Hpre Hid.
  assert (H0 : is_u64 0) by (unfold is_u64; lia).
  assert (Hbump : forall q q', is_pre release = true -> Forall ident_parsed q ->
    bump_prerelease q identifier base = Some q' -> Forall ident_ok q' /\ (q' <> [] -> solid q')).
  { intros q q' Hr Hq Hb. destruct (bump_prerelease_ok q identifier base q' Hq (Hid Hr) Hb). by split. }
  destruct release; inc_cases; splits; auto; try (intros; done).
  all: by eapply (Hbump _ _ eq_refl); [|eassumption].
Qed.

Lemma inc_parts_after v pre release identifier base M m p pre' :
  nums_ok v -> inc_parts (major v) (minor v) (patch v) pre release identifier base = Some (M, m, p, pre') ->
  nums_lt v (printed M m p [])
  \/ (nums_eq v (printed M m p []) /\ no_pre pre = false
      /\ (pre' = [] \/ (release = Prerelease /\ bump_prerelease pre identifier base = Some pre'))).
Proof.
  intros (H1 & H2 & H3). unfold nums_lt, nums_eq, printed. cbn [major minor patch mk_version].
  destruct release; inc_cases;
    repeat match goal with
    | H : (_ || _) = true |- _ => apply orb_true_iff in H as [H|H]
    | H : (_ || _) = false |- _ => apply orb_false_iff in H as [H ?]
    | H : negb (_ =? _) = _ |- _ =>
        first [apply negb_true_iff, Z.eqb_neq in H|apply negb_false_iff, Z.eqb_eq in H]
    end; try (left; lia); right; splits; auto; lia.
Qed.

(** [bump_prerelease] without an identifier counts up. *)
Lemma bump_prerelease_gt old base pre' :
  old <> [] -> Forall (fun c => pre_char c = true) old ->
  bump_prerelease (identifier_parse <$> fields old "."%u8) None base = Some pre' ->
  cmp_prerelease (write_joined pre') old = Gt.
Proof.
  intros Hne Hchars. set (fs := fields old "."%u8).
  assert (Hfs : fs <> []) by apply fields_ne.
  assert (Hdot : Forall (fun i => dotless (write_to i)) (identifier_parse <$> fs)).
  { apply Forall_fmap. eapply Forall_impl; [apply fields_sep_free|]. intros t Ht. unfold compose, identifier_parse.
    destruct (all_numeric t); [|done]. destruct (parse_ascii u64_ty t) as [n|] eqn:E; [|done].
    apply (parse_ascii_range u64_ty) in E. destruct (n <=? MAX_SAFE); [|done].
    apply show_dotless. unfold is_u64. cbn in E. lia. }
  assert (Hjoin : forall q, q <> [] -> Forall (fun i => dotless (write_to i)) q ->
    cmp_prerelease (write_joined q) old = cmp_list cmp_ident (write_to <$> q) fs).
  { intros q Hq Hd. unfold cmp_prerelease, cmp_on. rewrite write_joined_join, fields_join; [done| |].
    - by destruct q.
    - by apply Forall_fmap. }
  assert (Hb : dotless (show (base_number base))) by (apply show_dotless; unfold is_u64; destruct base; cbn; lia).
  unfold bump_prerelease, bump_number. destruct (identifier_parse <$> fs) as [|i0 q0] eqn:Eq.
  { by destruct fs. }
  rewrite <- Eq in *. destruct (last_number (identifier_parse <$> fs)) as [[k n]|] eqn:El.
  - destruct (checked_add64 n 1) as [n'|] eqn:Ec; [|done]. cbn [mbind option_bind]. intros [= <-].
    assert (Hn : 0 <= n <= MAX_SAFE).
    { apply last_number_lookup in El. rewrite list_lookup_fmap in El.
      destruct (fs !! k) as [t|] eqn:Et; [|done]. injection El as El.
      pose proof (fields_forall (fun c => pre_char c = true) old "."%u8 Hchars) as Hp.
      rewrite Forall_lookup in Hp. pose proof (identifier_parse_parsed t (Hp _ _ Et)) as H. by rewrite El in H. }
    apply checked_next in Ec as [-> Hn']; [|done]. rewrite Hjoin; [by apply bumped_gt| |].
    + intros E%(f_equal length). rewrite length_insert, Eq in E. done.
    + apply Forall_insert; [done|]. apply show_dotless.
      change MAX_SAFE with 9007199254740991 in Hn'. unfold is_u64. lia.
  - rewrite andb_false_r. intros [= <-]. rewrite Hjoin; [apply pushed_gt| |].
    + by destruct (identifier_parse <$> fs).
    + apply Forall_app. split; [done|by constructor].
Qed.

Lemma refused_valid release identifier base s :
  is_pre release && identifier_refused identifier base = false -> is_pre release = true ->
  identifier = Some s -> is_valid_identifier s = true.
Proof. intros H Hp Hi. rewrite Hp, Hi in H. by apply negb_false_iff in H. Qed.

(** The identifier counts the prerelease [old] itself: it is the first part of [old],
    not a number, and the part after it is a number or missing. *)
Definition counts_tag (old identifier : bytes) : bool :=
  match fields old "."%u8 with
  | first :: rest =>
      bool_decide (first = identifier) && negb (all_numeric identifier)
      && match rest with [] => true | t :: _ => all_numeric t end
  | [] => false
  end.

(** The tag an identifier starts anew. *)
Definition fresh_tag (identifier : bytes) (base : IdentifierBase) : bytes :=
  write_joined (Text identifier :: (if is_base_none base then [] else [Number (base_number base)])).

Lemma bump_number_identifier pre identifier base pre' :
  bump_number pre identifier base = Some pre' -> bump_number pre None base = Some pre'.
Proof.
  unfold bump_number. destruct pre; [done|]. destruct (last_number _) as [[k n]|]; [done|].
  rewrite andb_false_r. by destruct (_ && _).
Qed.

(** A tag the identifier counts keeps its parts. *)
Lemma counts_tag_kept old s base pre' :
  counts_tag old s = true ->
  bump_number (identifier_parse <$> fields old "."%u8) (Some s) base = Some pre' ->
  same_identifier pre' s = true /\ has_number pre' = true.
Proof.
  unfold counts_tag. destruct (fields old "."%u8) as [|f rest]; [done|].
  rewrite !andb_true_iff, bool_decide_eq_true, negb_true_iff. intros [[-> Hs] Hrest].
  assert (Hself : identifier_equals (Text s) s = true) by by apply bool_decide_eq_true.
  assert (Hnum : forall t, all_numeric t = true ->
    match identifier_parse t with Number _ => true | Text text => all_numeric text end = true).
  { intros t Ht. unfold identifier_parse. rewrite Ht. destruct (parse_ascii u64_ty t); [|done].
    by destruct (_ <=? _). }
  cbn [fmap list_fmap]. unfold identifier_parse at 1. rewrite Hs.
  unfold bump_number, has_number. cbn [last_number].
  destruct (last_number (identifier_parse <$> rest)) as [[k n]|] eqn:El.
  - destruct (checked_add64 n 1); [|done]. intros [= <-]. split; [done|].
    destruct rest as [|t rest]; [done|]. destruct k; cbn; auto.
  - destruct (_ && _); [done|]. intros [= <-]. split; [done|].
    destruct rest as [|t rest]; cbn; auto.
Qed.

(** The tag [bump_prerelease] gives is counted up, or started anew. *)
Lemma bump_prerelease_cases old identifier base pre' :
  old <> [] -> Forall (fun c => pre_char c = true) old ->
  bump_prerelease (identifier_parse <$> fields old "."%u8) identifier base = Some pre' ->
  cmp_prerelease (write_joined pre') old = Gt
  \/ exists s, identifier = Some s /\ counts_tag old s = false /\ write_joined pre' = fresh_tag s base.
Proof.
  intros Hne Hold. unfold bump_prerelease.
  destruct (bump_number _ _ _) as [c|] eqn:Ec; [|done]. cbn [mbind option_bind]. intros [= <-].
  assert (Hgt : cmp_prerelease (write_joined c) old = Gt).
  { apply bump_prerelease_gt with base; [done..|]. unfold bump_prerelease.
    by rewrite (bump_number_identifier _ _ _ _ Ec). }
  destruct identifier as [s|]; [|by left].
  destruct (negb (same_identifier c s) || negb (has_number c)) eqn:E; [right|by left].
  exists s. splits; [done| |done]. apply not_true_is_false. intros Ht.
  destruct (counts_tag_kept _ _ _ _ Ht Ec) as [H1 H2]. by rewrite H1, H2 in E.
Qed.

(** C39.  [inc] gives a text that parses as one complete version without build
    metadata.  It follows the version it was made from, with one exception: the
    release type is [prerelease], an identifier is given, and the version's
    prerelease is not one the identifier counts (the identifier alone, or the
    identifier and then a number).  The tag is then the identifier's fresh one on
    the same numbers, before or after the old tag as their texts compare. *)
Theorem inc_follows v buf release identifier base out :
  printable u64_ty v buf -> wf_tag (tag v) -> Z.of_nat (length out) < 2147483648 ->
  inc v buf release identifier base = Some out ->
  exists v', parse_exact u64_ty (sliced_init out) = Some (Some v')
    /\ (order_without_build v' v out buf = Gt
        \/ (release = Prerelease /\ nums_eq v' v
            /\ exists old s, opt_pre v buf = Some old /\ nonempty_identifier identifier = Some s
               /\ counts_tag old s = false /\ opt_pre v' out = Some (fresh_tag s base))).
Proof.
  intros Hpr Hwf Hlen. destruct (pre_of_parsed v buf Hpr Hwf) as (Hpre & Hno & Hfs).
  pose proof Hpr as (Hn & [Hch Hne] & _). unfold inc.
  set (id := nonempty_identifier identifier).
  destruct (is_pre release && identifier_refused id base) eqn:Hr; [done|].
  destruct (inc_parts _ _ _ _ _ _ _) as [[[[M m] p] pre']|] eqn:E; [|done]. intros [= <-].
  assert (Hnums : nums_ok v) by exact Hn.
  destruct (inc_parts_ok v (pre_of v buf) release id base M m p pre' Hnums Hpre) as ((HM & Hm & Hp) & Hok & Hsol);
    [by intros; eapply refused_valid|done|].
  destruct (print_parts_parse M m p pre' HM Hm Hp Hok Hsol Hlen) as (v' & Hv & Hnv & Hop & Hwf').
  exists v'. split; [done|]. rewrite order_nums.
  assert (Hhp : has_pre (tag v') = negb (no_pre pre')).
  { unfold opt_pre in Hop. destruct (has_pre (tag v')), (no_pre pre'); done. }
  unfold nums_eq, printed in Hnv. cbn [major minor patch mk_version] in Hnv.
  destruct (inc_parts_after _ _ _ _ _ _ _ _ _ Hnums E) as [H|(H & Hnp & Hc)];
    unfold nums_lt, nums_eq, printed in H; cbn [major minor patch mk_version] in H.
  { left. destruct (cmp_nums_spec v' v) as [H'|H'|H']; unfold nums_eq, nums_lt in H'; [lia|lia|done]. }
  rewrite Hno in Hnp. apply negb_false_iff in Hnp. rewrite Hnp, Hhp.
  destruct (cmp_nums_spec v' v) as [H'|H'|H']; unfold nums_eq, nums_lt in H'; [|lia|lia].
  destruct Hc as [->|[-> Hb]]; [by left|]. rewrite Hfs in Hb by done.
  destruct (no_pre pre') eqn:Hnp'; cbn [negb]; [by left|].
  unfold opt_pre in Hch, Hne. rewrite Hnp in Hch, Hne.
  destruct (bump_prerelease_cases (ext_slice (pre (tag v)) buf) id base pre') as [Hgt|(s & Hs & Hct & Hw)];
    [unfold nonempty in Hne; congruence|done|done|left|right].
  - unfold opt_pre in Hop. rewrite Hhp in Hop. injection Hop as Hop.
    unfold lpre. cbn [fst snd]. by rewrite Hop.
  - splits; [done|done|]. eexists _, s. unfold opt_pre at 1. rewrite Hnp.
    splits; [done..|]. by rewrite Hop, Hw.
Qed.

(** 1.2.3-beta.9 counts up to beta.10, and [beta] counts it as well. *)
Lemma inc_follows_witness :
  let v := mk_version 1 2 3 {| pre := ext_init (bstr "beta.9") {| s_at := 0; s_bytes := bstr "beta.9" |} 0;
                               build := ext_default |} in
  exists v', parse_exact u64_ty (sliced_init (bstr "1.2.3-beta.10")) = Some (Some v')
    /\ (order_without_build v' v (bstr "1.2.3-beta.10") (bstr "beta.9") = Gt
        \/ (Prerelease = Prerelease /\ nums_eq v' v
            /\ exists old s, opt_pre v (bstr "beta.9") = Some old
               /\ nonempty_identifier (Some (bstr "beta")) = Some s
               /\ counts_tag old s = false
               /\ opt_pre v' (bstr "1.2.3-beta.10") = Some (fresh_tag s BaseZero))).
Proof.
  intros v. apply (inc_follows v (bstr "beta.9") Prerelease (Some (bstr "beta")) BaseZero (bstr "1.2.3-beta.10"));
    [decide_now|decide_now|done|vm_compute; reflexivity].
Defined.

(** ** The next release *)

(** The versions a release type steps through. *)
Definition in_steps (release : Release) (v : Version) : Prop :=
  match release with
  | RelMajor => minor v = 0 /\ patch v = 0
  | RelMinor => patch v = 0
  | _ => True
  end.

(**  [major], [minor] and [patch] step to the least release of their kind above
    the version: nothing is skipped, and a prerelease of that release steps to it. *)
Theorem inc_least v buf release identifier base out :
  printable u64_ty v buf -> wf_tag (tag v) -> Z.of_nat (length out) < 2147483648 ->
  release = RelMajor \/ release = RelMinor \/ release = RelPatch ->
  inc v buf release identifier base = Some out ->
  exists v', parse_exact u64_ty (sliced_init out) = Some (Some v')
    /\ is_release v' /\ in_steps release v'
    /\ forall u ub, is_release u -> wf_tag (tag u) -> in_steps release u -> nums_ok u ->
         order_without_build u v ub buf = Gt -> order_without_build u v' ub out <> Lt.
Proof.
  intros Hpr Hwf Hlen Hrel. destruct (pre_of_parsed v buf Hpr Hwf) as (Hpre & Hno & _).
  assert (Hnums : nums_ok v) by apply Hpr. pose proof Hnums as (G1 & G2 & G3). unfold inc.
  replace (is_pre release) with false by by destruct Hrel as [->|[->| ->]].
  destruct (inc_parts _ _ _ _ _ _ _) as [[[[M m] p] pre']|] eqn:E; [|done]. intros [= <-].
  destruct (inc_parts_ok v (pre_of v buf) release (nonempty_identifier identifier) base M m p pre' Hnums Hpre) as ((HM & Hm & Hp) & Hok & Hsol);
    [by destruct Hrel as [->|[->| ->]]|done|].
  destruct (print_parts_parse M m p pre' HM Hm Hp Hok Hsol Hlen) as (v' & Hv & Hnv & Hop & Hwf').
  exists v'. split; [done|].
  assert (Hrelease : is_release v').
  { unfold is_release. unfold opt_pre in Hop.
    assert (pre' = []) as -> by (revert E; destruct Hrel as [->|[->| ->]]; by inc_cases).
    by destruct (has_pre (tag v')). }
  split; [done|]. unfold nums_eq, printed in Hnv. cbn [major minor patch mk_version] in Hnv.
  destruct Hnv as (N1 & N2 & N3).
  split; [unfold in_steps; rewrite N2, N3; revert E; destruct Hrel as [->|[->| ->]]; by inc_cases|].
  intros u ub Hu Wu Su (U1 & U2 & U3). rewrite !order_release by done.
  unfold is_release in Hrelease. rewrite Hrelease.
  destruct (cmp_nums_spec u v') as [H|H|H]; [done| |done]. intros Hgt. exfalso.
  assert (Habove : nums_lt v u \/ (nums_eq u v /\ no_pre (pre_of v buf) = false)).
  { rewrite Hno. destruct (cmp_nums_spec u v); [right|done|by left]. by destruct (has_pre (tag v)). }
  clear Hgt. unfold nums_lt, nums_eq in *. rewrite N1, N2, N3 in H. unfold is_u64 in *.
  revert E Su Habove.
  destruct Hrel as [->|[->| ->]]; unfold in_steps; inc_cases;
    repeat match goal with
    | H : (_ || _) = true |- _ => apply orb_true_iff in H as [H|H]
    | H : (_ || _) = false |- _ => apply orb_false_iff in H as [H ?]
    | H : negb (_ =? _) = _ |- _ =>
        first [apply negb_true_iff, Z.eqb_neq in H|apply negb_false_iff, Z.eqb_eq in H]
    end; intros ? [?|[? ?]]; try congruence; lia.
Qed.

Lemma inc_least_witness :
  let v := mk_version 1 2 0 {| pre := ext_init (bstr "rc.1") {| s_at := 0; s_bytes := bstr "rc.1" |} 0;
                               build := ext_default |} in
  exists v', parse_exact u64_ty (sliced_init (bstr "1.2.0")) = Some (Some v')
    /\ is_release v' /\ in_steps RelMinor v'
    /\ forall u ub, is_release u -> wf_tag (tag u) -> in_steps RelMinor u -> nums_ok u ->
         order_without_build u v ub (bstr "rc.1") = Gt ->
         order_without_build u v' ub (bstr "1.2.0") <> Lt.
Proof.
  intros v. apply (inc_least v (bstr "rc.1") RelMinor None BaseZero (bstr "1.2.0"));
    [decide_now|decide_now|done|auto|vm_compute; reflexivity].
Defined.

(** ** When there is no increment *)

(** The number a release type counts up. *)
Definition counted (release : Release) (v : Version) : option Z :=
  let released := negb (has_pre (tag v)) in
  match release with
  | RelMajor => if negb (minor v =? 0) || negb (patch v =? 0) || released then Some (major v) else None
  | RelMinor => if negb (patch v =? 0) || released then Some (minor v) else None
  | RelPatch | Prerelease => if released then Some (patch v) else None
  | Premajor => Some (major v)
  | Preminor => Some (minor v)
  | Prepatch => Some (patch v)
  | RelRelease => None
  end.

Lemma joined_texts fs :
  last_number (identifier_parse <$> fs) = None -> write_to <$> (identifier_parse <$> fs) = fs.
Proof.
  induction fs as [|t fs IH]; [done|]. rewrite !fmap_cons. cbn [last_number].
  destruct (last_number (identifier_parse <$> fs)) as [[]|]; [done|].
  destruct (identifier_parse t) as [n|t'] eqn:E; [done|]. intros _. rewrite IH by done. f_equal.
  revert E. unfold identifier_parse. destruct (all_numeric t); [|by intros [= <-]].
  destruct (parse_ascii u64_ty t); [|by intros [= <-]]. case_match; [done|by intros [= <-]].
Qed.

Lemma bump_prerelease_None pre identifier base :
  Forall ident_parsed pre ->
  bump_prerelease pre identifier base = None
  <-> pre <> [] /\ last_number pre = None /\ base = BaseNone /\ identifier = Some (write_joined pre).
Proof.
  intros Hpre. unfold bump_prerelease.
  transitivity (bump_number pre identifier base = None).
  { by destruct (bump_number pre identifier base). }
  unfold bump_number. destruct pre as [|i0 q0] eqn:Eq; [split; [done|by intros [? _]]|].
  rewrite <- Eq in *. assert (pre <> []) by (by rewrite Eq). clear Eq.
  destruct (last_number pre) as [[k n]|] eqn:El.
  - apply last_number_lookup in El. rewrite Forall_lookup in Hpre. pose proof (Hpre _ _ El) as Hn.
    cbn [ident_parsed] in Hn. change MAX_SAFE with 9007199254740991 in Hn.
    destruct (checked_add64_cases n) as [[-> _]|[_ ?]]; [unfold is_u64; lia|cbn; intuition congruence|lia].
  - unfold is_base_none. destruct (decide (base = BaseNone)) as [->|Hb].
    + rewrite bool_decide_eq_true_2 by done. destruct identifier as [s|]; cbn [andb]; [|intuition congruence].
      destruct (bool_decide_reflect (write_joined pre = s)); intuition congruence.
    + rewrite bool_decide_eq_false_2 by done. cbn [andb]. intuition congruence.
Qed.

Lemma checked_None n : is_u64 n -> checked_add64 n 1 = None <-> n = u64_max.
Proof. intros Hn. destruct (checked_add64_cases n Hn) as [[-> ?]|[-> ?]]; split; try done; lia. Qed.

Lemma counting_None {A} (b : bool) n (f : Z -> A) :
  is_u64 n ->
  (x ← (if b then checked_add64 n 1 else Some n); Some (f x)) = None
  <-> (if b then Some n else None) = Some u64_max.
Proof.
  intros Hn. destruct b; [|done]. rewrite (inj_iff Some), <- checked_None by done.
  by destruct (checked_add64 n 1).
Qed.

Lemma counting_bump_None {A B} (b : bool) n (o : option A) (f : Z -> A -> B) :
  is_u64 n ->
  (x ← (if b then checked_add64 n 1 else Some n); y ← o; Some (f x y)) = None
  <-> (if b then Some n else None) = Some u64_max \/ o = None.
Proof.
  intros Hn. destruct b; [rewrite (inj_iff Some), <- checked_None by done; destruct (checked_add64 n 1)|];
    destruct o; cbn; intuition congruence.
Qed.

Lemma fresh_bump identifier base : bump_prerelease [] identifier base <> None.
Proof. by unfold bump_prerelease. Qed.

Lemma inc_parts_None v buf release identifier base :
  printable u64_ty v buf -> wf_tag (tag v) ->
  inc_parts (major v) (minor v) (patch v) (pre_of v buf) release identifier base = None
  <-> counted release v = Some u64_max
      \/ (release = RelRelease /\ has_pre (tag v) = false)
      \/ (release = Prerelease /\ has_pre (tag v) = true /\ base = BaseNone
          /\ last_number (pre_of v buf) = None
          /\ identifier = Some (ext_slice (pre (tag v)) buf)).
Proof.
  intros Hpr Hwf. destruct (pre_of_parsed v buf Hpr Hwf) as (Hpre & Hno & Hfs).
  assert (Hnums : nums_ok v) by apply Hpr. destruct Hnums as (G1 & G2 & G3).
  pose proof (fresh_bump identifier base) as Hf.
  unfold counted. destruct release; cbn [inc_parts]; rewrite ?Hno.
  1-3: rewrite counting_None by done; intuition discriminate.
  1-3: rewrite (counting_bump_None true) by done; intuition discriminate.
  - rewrite counting_bump_None, bump_prerelease_None by done.
    destruct (has_pre (tag v)) eqn:Hp; cbn [negb] in *.
    + assert (Hne : pre_of v buf <> []) by (intros E; by rewrite E in Hno).
      split.
      * intros [?|(_ & Hl & -> & ->)]; [done|right; right]. splits; try done. f_equal.
        rewrite Hfs in Hl |- * by done. by rewrite write_joined_join, joined_texts, join_fields.
      * intros [?|[[? ?]|(_ & _ & -> & Hl & ->)]]; [done..|right]. splits; try done. f_equal.
        rewrite Hfs in Hl |- * by done. by rewrite write_joined_join, joined_texts, join_fields.
    + assert (pre_of v buf = []) as -> by (by destruct (pre_of v buf)). intuition congruence.
  - destruct (has_pre (tag v)); cbn; intuition congruence.
Qed.

(** [inc] fails exactly when a pre-release identifier is refused, the number it
    would count up is at the ceiling, [release] is asked of a release, or [prerelease]
    has nowhere to go: no number in the tag, none wanted, and the identifier is the
    tag itself.  The number of a prerelease never overflows. *)
Theorem inc_None v buf release identifier base :
  printable u64_ty v buf -> wf_tag (tag v) ->
  inc v buf release identifier base = None
  <-> (is_pre release = true /\ identifier_refused (nonempty_identifier identifier) base = true)
      \/ counted release v = Some u64_max
      \/ (release = RelRelease /\ has_pre (tag v) = false)
      \/ (release = Prerelease /\ has_pre (tag v) = true /\ base = BaseNone
          /\ last_number (pre_of v buf) = None
          /\ nonempty_identifier identifier = Some (ext_slice (pre (tag v)) buf)).
Proof.
  intros Hpr Hwf. rewrite <- inc_parts_None by done. unfold inc.
  rewrite <- andb_true_iff. destruct (_ && _); [by intuition|].
  destruct (inc_parts _ _ _ _ _ _ _) as [[[[? ?] ?] ?]|]; cbn; intuition discriminate.
Qed.

Lemma inc_None_witness :
  let v := mk_version 1 2 u64_max Tag_default in
  inc v [] Prepatch (Some (bstr "a..b")) BaseZero = None
  <-> (is_pre Prepatch = true /\ identifier_refused (nonempty_identifier (Some (bstr "a..b"))) BaseZero = true)
      \/ counted Prepatch v = Some u64_max
      \/ (Prepatch = RelRelease /\ has_pre (tag v) = false)
      \/ (Prepatch = Prerelease /\ has_pre (tag v) = true /\ BaseZero = BaseNone
          /\ last_number (pre_of v []) = None
          /\ nonempty_identifier (Some (bstr "a..b")) = Some (ext_slice (pre (tag v)) [])).
Proof. intros v. apply (inc_None v [] Prepatch (Some (bstr "a..b")) BaseZero); decide_now. Defined.
