(* ===== verification/PairingHeap.v ===== *)
(** * The intrusive pairing heap (src/io/heap.rs)

    The nodes are addresses in a store that holds each node's [IntrusiveField]; a
    pointer is an optional address, and an access through a null or unmapped one is
    [None].  [less] is the caller's [HeapContext::less].  The pointer code is shown
    to implement operations on forests, and those to implement a priority queue:
    [insert] adds a node, [delete_min] and [remove] take one out, the order is kept,
    and the walk visits every node once. *)

From S2P Require Import Prelude.

Abbreviation addr := positive.
Abbreviation ptr := (option positive).

Record IntrusiveField := { child : ptr; prev : ptr; next : ptr }.
Definition IntrusiveField_default : IntrusiveField :=
  {| child := None; prev := None; next := None |}.
Abbreviation Store := (gmap addr IntrusiveField).

(** [p.heap().child = c] and its siblings *)
Definition set_child (s : Store) (p : addr) (c : ptr) : option Store :=
  f ← s !! p; Some (<[p := {| child := c; prev := prev f; next := next f |}]> s).
Definition set_prev (s : Store) (p : addr) (c : ptr) : option Store :=
  f ← s !! p; Some (<[p := {| child := child f; prev := c; next := next f |}]> s).
Definition set_next (s : Store) (p : addr) (c : ptr) : option Store :=
  f ← s !! p; Some (<[p := {| child := child f; prev := prev f; next := c |}]> s).

Section Heap.
Context (less : addr -> addr -> bool).

Definition meld (s : Store) (a b : addr) : option (Store * addr) :=
  if less a b then
    s ← set_prev s b (Some a);
    fb ← s !! b;
    s ← (match next fb with
         | Some b_next =>
             s ← set_next s a (Some b_next);
             s ← set_prev s b_next (Some a);
             set_next s b None
         | None => Some s
         end);
    fa ← s !! a;
    s ← (match child fa with
         | Some a_child =>
             s ← set_next s b (Some a_child);
             set_prev s a_child (Some b)
         | None => Some s
         end);
    s ← set_child s a (Some b);
    Some (s, a)
  else
    fa ← s !! a;
    s ← set_prev s b (prev fa);
    s ← set_prev s a (Some b);
    fb ← s !! b;
    s ← (match child fb with
         | Some b_child =>
             s ← set_next s a (Some b_child);
             set_prev s b_child (Some a)
         | None => Some s
         end);
    s ← set_child s b (Some a);
    Some (s, b).

(** The block ['root] of [combine_siblings]: merge pairs right. *)
Fixpoint merge_right (fuel : nat) (s : Store) (a : addr) : option (Store * addr) :=
  match fuel with
  | O => None
  | S fuel =>
      fa ← s !! a;
      match next fa with
      | None => Some (s, a)
      | Some b =>
          s ← set_next s a None;
          '(s, b) ← meld s a b;
          fb ← s !! b;
          match next fb with
          | None => Some (s, b)
          | Some next_a => merge_right fuel s next_a
          end
      end
  end.

(** The second loop: merge pairs left. *)
Fixpoint merge_left (fuel : nat) (s : Store) (root : addr) : option (Store * addr) :=
  match fuel with
  | O => None
  | S fuel =>
      fr ← s !! root;
      match prev fr with
      | None => Some (s, root)
      | Some b =>
          s ← set_next s b None;
          '(s, root) ← meld s b root;
          merge_left fuel s root
      end
  end.

(** Each round of the loops takes a node of the store. *)
Definition combine_siblings (s : Store) (left : addr) : option (Store * addr) :=
  s ← set_prev s left None;
  '(s, root) ← merge_right (S (size s)) s left;
  merge_left (S (size s)) s root.

(** The heap is its [root]; the operations thread it with the store. *)
Definition insert (s : Store) (root : ptr) (v : addr) : option (Store * ptr) :=
  match root with
  | Some r => '(s, w) ← meld s v r; Some (s, Some w)
  | None => Some (s, Some v)
  end.

Definition delete_min (s : Store) (root : ptr) : option (Store * ptr * ptr) :=
  match root with
  | None => Some (s, None, None)
  | Some r =>
      f ← s !! r;
      '(s, root) ← (match child f with
                    | Some c => '(s, x) ← combine_siblings s c; Some (s, Some x)
                    | None => Some (s, None)
                    end);
      _ ← s !! r;
      Some (<[r := IntrusiveField_default]> s, root, Some r)
  end.

(** The part of [remove] that unlinks [v] from its neighbours. *)
Definition detach (s : Store) (v pv : addr) : option Store :=
  f ← s !! v;
  s ← (match next f with Some v_next => set_prev s v_next (Some pv) | None => Some s end);
  fp ← s !! pv;
  s ← (if bool_decide (child fp = Some v) then set_child s pv (next f) else set_next s pv (next f));
  s ← set_prev s v None;
  set_next s v None.

Definition remove (s : Store) (root : ptr) (v : addr) : option (Store * ptr) :=
  f ← s !! v;
  match prev f with
  | None => '(s, root, _) ← delete_min s root; Some (s, root)
  | Some pv =>
      s ← detach s v pv;
      fv ← s !! v;
      match child fv with
      | None => Some (s, root)
      | Some c =>
          s ← set_child s v None;
          '(s, x) ← combine_siblings s c;
          r ← root;
          '(s, w) ← meld s x r;
          Some (s, Some w)
      end
  end.

Definition peek (root : ptr) : ptr := root.

(** ** for_each

    The labels of the walk: at [f(node)], at the test of [next], and in the climb to
    the parent with [prev] read. *)
Inductive Walk := Visit (node : addr) | TryNext (node : addr) | Climb (node : addr) (p : ptr).

Definition walk_step (s : Store) (st : Walk * list addr) : (Walk * list addr) + option (list addr) :=
  let '(w, seen) := st in
  match w with
  | Visit node =>
      match s !! node with
      | None => inr None
      | Some f =>
          let seen := seen ++ [node] in
          match child f with
          | Some c => inl (Visit c, seen)
          | None => inl (TryNext node, seen)
          end
      end
  | TryNext node =>
      match s !! node with
      | None => inr None
      | Some f =>
          match next f with
          | Some n => inl (Visit n, seen)
          | None => inl (Climb node (prev f), seen)
          end
      end
  | Climb node None => inr (Some seen)
  | Climb node (Some p) =>
      match s !! p with
      | None => inr None
      | Some f => if negb (bool_decide (child f = Some node)) then inl (Climb p (prev f), seen)
                  else inl (TryNext p, seen)
      end
  end.

(** The nodes [f] is called on, in order: three rounds per node at most. *)
Definition for_each (s : Store) (root : ptr) : option (list addr) :=
  match root with
  | None => Some []
  | Some r => mjoin (run_loop (S (3 * size s)) (walk_step s) (Visit r, []))
  end.

Definition count (s : Store) (root : ptr) : option nat := length <$> for_each s root.

Definition find_max (s : Store) (root : ptr) : option ptr :=
  nodes ← for_each s root;
  match root with
  | None => Some None
  | Some r => Some (Some (foldl (fun m node => if less m node then node else m) r nodes))
  end.
End Heap.

(** ** Forests

    A node with its children, and its siblings: what the links out of a pointer
    describe. *)
Inductive forest := Leaf | Tree (p : addr) (children siblings : forest).

Definition hd (f : forest) : ptr := match f with Leaf => None | Tree p _ _ => Some p end.

Fixpoint nodes (f : forest) : list addr :=
  match f with Leaf => [] | Tree p cs sib => p :: nodes cs ++ nodes sib end.

(** The store holds the forest [f] whose first node has the previous pointer [q]. *)
Fixpoint holds (s : Store) (q : ptr) (f : forest) : Prop :=
  match f with
  | Leaf => True
  | Tree p cs sib =>
      s !! p = Some {| child := hd cs; prev := q; next := hd sib |}
      /\ holds s (Some p) cs /\ holds s (Some p) sib
  end.

Lemma holds_frame s s' q f :
  holds s q f -> (forall p, p ∈ nodes f -> s' !! p = s !! p) -> holds s' q f.
Proof.
  revert q. induction f as [|p cs IHc sib IHs]; intros q; [done|]. cbn [holds nodes].
  intros (Hp & Hc & Hs) He. splits.
  - rewrite He; [done|]. by left.
  - apply IHc; [done|]. intros x Hx. apply He. right. apply elem_of_app. by left.
  - apply IHs; [done|]. intros x Hx. apply He. right. apply elem_of_app. by right.
Qed.

Lemma hd_nodes f x : hd f = Some x -> x ∈ nodes f.
Proof. destruct f; cbn; [done|]. intros [= ->]. by left. Qed.

(** Permutations by counting: every list is a sum of its elements. *)
Definition occ (x : addr) (l : list addr) : nat := count_occ Pos.eq_dec l x.
Lemma occ_app x l k : occ x (l ++ k) = (occ x l + occ x k)%nat.
Proof. apply count_occ_app. Qed.
Lemma occ_cons x y l : occ x (y :: l) = (occ x [y] + occ x l)%nat.
Proof. apply (count_occ_app Pos.eq_dec [y] l). Qed.
Lemma occ_perm l k : l ≡ₚ k <-> forall x, occ x l = occ x k.
Proof. apply Permutation_count_occ. Qed.

Ltac perm :=
  repeat match goal with H : _ ≡ₚ _ |- _ => rewrite occ_perm in H end;
  apply occ_perm; let x := fresh "x" in intros x;
  repeat match goal with H : forall x, occ x _ = occ x _ |- _ => specialize (H x) end;
  repeat match goal with
  | |- context [occ ?x (?l ++ ?k)] => rewrite (occ_app x l k)
  | H : context [occ ?x (?l ++ ?k)] |- _ => rewrite (occ_app x l k) in H
  | |- context [occ ?x (?y :: ?a :: ?l)] => rewrite (occ_cons x y (a :: l))
  | H : context [occ ?x (?y :: ?a :: ?l)] |- _ => rewrite (occ_cons x y (a :: l)) in H
  | |- context [occ ?x (?y :: ?l ++ ?k)] => rewrite (occ_cons x y (l ++ k))
  | H : context [occ ?x (?y :: ?l ++ ?k)] |- _ => rewrite (occ_cons x y (l ++ k)) in H
  | |- context [occ ?x (?y :: nodes ?f)] => rewrite (occ_cons x y (nodes f))
  | H : context [occ ?x (?y :: nodes ?f)] |- _ => rewrite (occ_cons x y (nodes f)) in H
  end; try lia.

(** [p] is not one of the nodes of [f], and two forests share none. *)
Definition apart (f g : list addr) : Prop := forall x, x ∈ f -> x ∈ g -> False.

Lemma NoDup_apart (l k : list addr) : NoDup (l ++ k) <-> NoDup l /\ apart l k /\ NoDup k.
Proof. rewrite NoDup_app. unfold apart. split; intros (? & H & ?); splits; try done; intros x; apply H. Qed.
Lemma NoDup_apart_cons a (l : list addr) : NoDup (a :: l) <-> a ∉ l /\ NoDup l.
Proof. apply NoDup_cons. Qed.

(** Two stores agree outside a list of addresses. *)
Definition same_but (l : list addr) (s s' : Store) : Prop := forall x, x ∉ l -> s' !! x = s !! x.

Lemma same_but_trans l s1 s2 s3 : same_but l s1 s2 -> same_but l s2 s3 -> same_but l s1 s3.
Proof. intros H1 H2 x Hx. by rewrite H2, H1. Qed.
Lemma same_but_mono l l' s s' : (forall x, x ∈ l -> x ∈ l') -> same_but l s s' -> same_but l' s s'.
Proof. intros Hl H x Hx. apply H. auto. Qed.
#[export] Instance same_but_perm : Proper (Permutation ==> eq ==> eq ==> iff) same_but.
Proof. intros l l' Hl s ? <- s' ? <-. unfold same_but. by setoid_rewrite Hl. Qed.
Lemma same_but_insert p f s : same_but [p] s (<[p := f]> s).
Proof. intros x Hx. rewrite lookup_insert_ne; [done|]. intros ->. by apply Hx, list_elem_of_singleton. Qed.
Lemma holds_same l s s' q f : same_but l s s' -> holds s q f -> apart (nodes f) l -> holds s' q f.
Proof. intros Hs Hf Ha. apply (holds_frame s); [done|]. intros p Hp. apply Hs. intros Hl. by apply (Ha p). Qed.

Section Meld.
Context (less : addr -> addr -> bool).

Lemma set_child_Some s p c f :
  s !! p = Some f -> set_child s p c = Some (<[p := {| child := c; prev := prev f; next := next f |}]> s).
Proof. unfold set_child. by intros ->. Qed.
Lemma set_prev_Some s p c f :
  s !! p = Some f -> set_prev s p c = Some (<[p := {| child := child f; prev := c; next := next f |}]> s).
Proof. unfold set_prev. by intros ->. Qed.
Lemma set_next_Some s p c f :
  s !! p = Some f -> set_next s p c = Some (<[p := {| child := child f; prev := prev f; next := c |}]> s).
Proof. unfold set_next. by intros ->. Qed.

Lemma same_but_singleton p (s s' : Store) : same_but [p] s s' -> forall x, x <> p -> s' !! x = s !! x.
Proof. intros H x Hx. apply H. by intros ->%list_elem_of_singleton. Qed.

(** Making [f] the siblings that follow [b]: the statement the code repeats. *)
Lemma adopt_ok s b r q f :
  s !! b = Some r -> next r = None -> holds s q f -> NoDup (b :: nodes f) ->
  exists s', (match hd f with
              | Some y => s ← set_next s b (Some y); set_prev s y (Some b)
              | None => Some s
              end) = Some s'
    /\ s' !! b = Some {| child := child r; prev := prev r; next := hd f |}
    /\ holds s' (Some b) f /\ same_but (b :: nodes f) s s'.
Proof.
  intros Hb Hn Hf [Hbf Hnd]%NoDup_cons. destruct f as [|y cs sib]; cbn [hd].
  { exists s. splits; try done. rewrite Hb. destruct r; cbn in *. by rewrite Hn. }
  cbn [nodes holds] in *. destruct Hf as (Hy & Hc & Hs). apply NoDup_cons in Hnd as [Hycs Hnd].
  rewrite not_elem_of_cons in Hbf. destruct Hbf as [Hby Hbf].
  rewrite (set_next_Some _ _ _ _ Hb). cbn [mbind option_bind].
  erewrite set_prev_Some by (rewrite lookup_insert_ne by done; exact Hy). eexists. split; [reflexivity|].
  rewrite not_elem_of_app in Hycs, Hbf. cbn [child prev next]. splits.
  - rewrite lookup_insert_ne by done. by rewrite lookup_insert_eq.
  - by rewrite lookup_insert_eq.
  - apply (holds_frame s); [done|]. intros x Hx. rewrite !lookup_insert_ne; [done|..]; intros ->; tauto.
  - apply (holds_frame s); [done|]. intros x Hx. rewrite !lookup_insert_ne; [done|..]; intros ->; tauto.
  - intros x Hx. rewrite !not_elem_of_cons in Hx. rewrite !lookup_insert_ne; [done|..]; intros ->; tauto.
Qed.

(** The pointer operations on forests: what [meld] makes of two nodes. *)
Definition melded (a : addr) (CA : forest) (b : addr) (CB : forest) : addr * forest :=
  if less a b then (a, Tree b CB CA) else (b, Tree a CA CB).

(** The links of three forests and two nodes apart from each other. *)
Ltac nodups :=
  repeat match goal with
  | H : NoDup (_ :: _) |- _ => apply NoDup_cons in H as [? H]
  | H : NoDup (_ ++ _) |- _ => apply NoDup_apart in H as (? & ? & H)
  | H : _ ∉ _ :: _ |- _ => apply not_elem_of_cons in H as [? H]
  | H : _ ∉ _ ++ _ |- _ => apply not_elem_of_app in H as [? H]
  | H : apart _ _ |- _ =>
      unfold apart in H; repeat setoid_rewrite elem_of_app in H;
      repeat setoid_rewrite elem_of_cons in H; repeat setoid_rewrite elem_of_app in H
  end.
Ltac disjoint :=
  unfold apart; intros;
  repeat match goal with
  | H : _ ∈ _ :: _ |- _ => apply elem_of_cons in H as [-> | H]
  | H : _ ∈ [] |- _ => by apply not_elem_of_nil in H
  | H : _ ∈ _ ++ _ |- _ => apply elem_of_app in H as [H|H]
  | |- _ ∉ _ => intros ?
  end; try congruence; try (by eauto 7).

(** Follows a forest or a node from store to store, and chains the updates. *)
Ltac carry :=
  first
    [ assumption
    | match goal with
      | F : same_but ?l ?s ?s' |- holds ?s' _ _ => apply (holds_same l s); [exact F|carry|disjoint]
      | F : same_but ?l ?s ?s' |- ?s' !! _ = _ => rewrite F by disjoint; carry
      end ].
Ltac chain s0 :=
  lazymatch goal with
  | |- same_but _ s0 s0 => done
  | F : same_but ?l ?s ?s' |- same_but _ s0 ?s' =>
      apply (same_but_trans _ _ s); [chain s0|apply (same_but_mono l); [clear; set_solver|exact F]]
  end.

(** [a] takes over the siblings of [b]. *)
Lemma inherit_ok s a ra b rb q f :
  s !! a = Some ra -> next ra = None -> s !! b = Some rb -> next rb = hd f ->
  holds s q f -> NoDup (a :: b :: nodes f) ->
  exists s', (match hd f with
              | Some y => s ← set_next s a (Some y); s ← set_prev s y (Some a); set_next s b None
              | None => Some s
              end) = Some s'
    /\ s' !! a = Some {| child := child ra; prev := prev ra; next := hd f |}
    /\ s' !! b = Some {| child := child rb; prev := prev rb; next := None |}
    /\ holds s' (Some a) f /\ same_but (a :: b :: nodes f) s s'.
Proof.
  intros Ha Hna Hb Hnb Hf Hnd.
  destruct (adopt_ok s a ra q f Ha Hna Hf) as (s1 & E & Ha1 & Hf1 & F1); [nodups; constructor; [disjoint|done]|].
  nodups. assert (Hb1 : s1 !! b = Some rb) by (rewrite F1; [done|disjoint]).
  destruct (hd f) as [y|] eqn:Ey.
  - destruct (set_next s a (Some y)) as [s2|]; [|done]. cbn [mbind option_bind] in *. rewrite E. cbn [mbind option_bind].
    rewrite (set_next_Some _ _ _ _ Hb1). eexists. splits; [done| |by rewrite lookup_insert_eq| |].
    + by rewrite lookup_insert_ne.
    + apply (holds_same [b] s1); [apply same_but_insert|done|disjoint].
    + apply (same_but_trans _ _ s1); [|eapply same_but_mono; [|apply same_but_insert]; disjoint; set_solver].
      eapply same_but_mono; [|exact F1]. set_solver.
  - injection E as <-. exists s. splits; try done. rewrite Hb. destruct rb; cbn in *. by rewrite Hnb.
Qed.

Lemma meld_ok s pa pb a CA b CB SB :
  holds s pa (Tree a CA Leaf) -> holds s pb (Tree b CB SB) ->
  NoDup (a :: b :: nodes CA ++ nodes CB ++ nodes SB) ->
  let '(w, CW) := melded a CA b CB in
  exists s', meld less s a b = Some (s', w) /\ holds s' pa (Tree w CW SB)
    /\ same_but (a :: b :: nodes CA ++ nodes CB ++ nodes SB) s s'.
Proof.
  intros (Ha & Hca & _) (Hb & Hcb & Hsb) Hnd. nodups. cbn [hd] in *. unfold melded, meld.
  destruct (less a b).
  - rewrite (set_prev_Some _ _ _ _ Hb). cbn [mbind option_bind child prev next].
    rewrite lookup_insert_eq. cbn [mbind option_bind child prev next].
    set (s1 := <[b := _]> s).
    assert (F1 : same_but [b] s s1) by apply same_but_insert.
    assert (Ha1 : s1 !! a = Some {| child := hd CA; prev := pa; next := None |}) by carry.
    assert (Hb1 : s1 !! b = Some {| child := hd CB; prev := Some a; next := hd SB |})
      by apply lookup_insert_eq.
    destruct (inherit_ok s1 a _ b _ (Some b) SB Ha1 eq_refl Hb1 eq_refl)
      as (s2 & -> & Ha2 & Hb2 & Hsb2 & F2); [carry|repeat (constructor; [disjoint|]); done|].
    cbn [mbind option_bind child prev next] in *. rewrite Ha2. cbn [mbind option_bind child].
    destruct (adopt_ok s2 b _ (Some a) CA Hb2 eq_refl) as (s3 & -> & Hb3 & Hca3 & F3);
      [carry|constructor; [disjoint|done]|].
    cbn [mbind option_bind child prev next] in *.
    assert (Ha3 : s3 !! a = Some {| child := hd CA; prev := pa; next := hd SB |}) by carry.
    rewrite (set_child_Some _ _ _ _ Ha3). cbn [mbind option_bind child prev next].
    set (s4 := <[a := _]> s3). assert (F4 : same_but [a] s3 s4) by apply same_but_insert.
    exists s4. split; [done|]. cbn [holds hd].
    splits; [apply lookup_insert_eq|carry..|chain s].
  - rewrite Ha. cbn [mbind option_bind child prev next].
    rewrite (set_prev_Some _ _ _ _ Hb). cbn [mbind option_bind child prev next].
    set (s1 := <[b := _]> s). assert (F1 : same_but [b] s s1) by apply same_but_insert.
    assert (Ha1 : s1 !! a = Some {| child := hd CA; prev := pa; next := None |}) by carry.
    rewrite (set_prev_Some _ _ _ _ Ha1). cbn [mbind option_bind child prev next].
    set (s2 := <[a := _]> s1). assert (F2 : same_but [a] s1 s2) by apply same_but_insert.
    assert (Hb1 : s1 !! b = Some {| child := hd CB; prev := pa; next := hd SB |}) by apply lookup_insert_eq.
    assert (Hb2 : s2 !! b = Some {| child := hd CB; prev := pa; next := hd SB |}) by carry.
    assert (Ha2 : s2 !! a = Some {| child := hd CA; prev := Some b; next := None |}) by apply lookup_insert_eq.
    rewrite Hb2. cbn [mbind option_bind child prev next].
    destruct (adopt_ok s2 a _ (Some b) CB Ha2 eq_refl) as (s3 & -> & Ha3 & Hcb3 & F3);
      [carry|constructor; [disjoint|done]|].
    cbn [mbind option_bind child prev next] in *.
    assert (Hb3 : s3 !! b = Some {| child := hd CB; prev := pa; next := hd SB |}) by carry.
    rewrite (set_child_Some _ _ _ _ Hb3). cbn [mbind option_bind child prev next].
    set (s4 := <[b := _]> s3). assert (F4 : same_but [b] s3 s4) by apply same_but_insert.
    exists s4. split; [done|]. cbn [holds hd].
    splits; [apply lookup_insert_eq|carry..|chain s].
Qed.

(** ** combine_siblings *)

(** Pairs of siblings from the left, the last one alone when they are odd. *)
Fixpoint pair_up (f : forest) : list (addr * forest) :=
  match f with
  | Leaf => []
  | Tree a CA Leaf => [(a, CA)]
  | Tree a CA (Tree b CB SB) => melded a CA b CB :: pair_up SB
  end.
Definition meld_left (root : addr * forest) (stack : list (addr * forest)) : addr * forest :=
  foldl (fun r t => melded t.1 t.2 r.1 r.2) root stack.
(** The winners from the last to the first, melded in that order. *)
Definition combined (f : forest) : option (addr * forest) :=
  match reverse (pair_up f) with [] => None | root :: stack => Some (meld_left root stack) end.

Definition tree_nodes (st : list (addr * forest)) : list addr :=
  mjoin ((fun t => t.1 :: nodes t.2) <$> st).

(** The winners so far, linked back by their [prev]; their [next] is stale. *)
Fixpoint stacked (s : Store) (top : ptr) (st : list (addr * forest)) : Prop :=
  match st with
  | [] => top = None
  | (w, CW) :: st =>
      top = Some w
      /\ exists q nx, s !! w = Some {| child := hd CW; prev := q; next := nx |}
         /\ holds s (Some w) CW /\ stacked s q st
  end.

Lemma stacked_same l s s' top st :
  same_but l s s' -> stacked s top st -> apart (tree_nodes st) l -> stacked s' top st.
Proof.
  intros Hs. revert top. induction st as [|[w CW] st IH]; intros top; [done|].
  cbn [stacked tree_nodes fmap list_fmap mjoin list_join fst snd].
  intros (-> & q & nx & Hw & Hc & Hst) Ha. split; [done|]. exists q, nx. splits.
  - rewrite Hs; [done|]. intros Hl. apply (Ha w); [by left|done].
  - apply (holds_same l s); [done|done|]. intros x Hx Hl. apply (Ha x); [|done].
    right. apply elem_of_app. by left.
  - apply IH; [done|]. intros x Hx Hl. apply (Ha x); [|done]. right. apply elem_of_app. by right.
Qed.

Lemma melded_nodes a CA b CB w CW :
  melded a CA b CB = (w, CW) -> w :: nodes CW ≡ₚ a :: b :: nodes CA ++ nodes CB.
Proof.
  unfold melded. destruct (less a b); intros [= <- <-]; cbn [nodes]; [|rewrite perm_swap; done].
  by rewrite (comm (++) (nodes CB)).
Qed.

Lemma pair_up_nodes f : tree_nodes (pair_up f) ≡ₚ nodes f.
Proof.
  revert f. fix IH 1. intros [|a CA [|b CB SB]]; [done| |].
  - unfold tree_nodes. cbn. by rewrite !app_nil_r.
  - cbn [pair_up]. destruct (melded a CA b CB) as [w CW] eqn:E.
    unfold tree_nodes in *. cbn [fmap list_fmap mjoin list_join fst snd]. rewrite IH.
    apply melded_nodes in E. cbn [nodes]. rewrite app_comm_cons, E. cbn.
    constructor. rewrite <- (assoc (++)). apply Permutation_middle.
Qed.

Lemma NoDup_of_perm (l k : list addr) : l ≡ₚ k -> NoDup k -> NoDup l.
Proof. by intros ->. Qed.

Lemma merge_right_ok fuel s top st a CA SA :
  holds s top (Tree a CA SA) -> stacked s top st ->
  NoDup (nodes (Tree a CA SA) ++ tree_nodes st) -> (length (nodes (Tree a CA SA)) < fuel)%nat ->
  exists s' root CR top' st', merge_right less fuel s a = Some (s', root)
    /\ (root, CR) :: st' = reverse (pair_up (Tree a CA SA)) ++ st
    /\ holds s' top' (Tree root CR Leaf) /\ stacked s' top' st'
    /\ same_but (nodes (Tree a CA SA)) s s'.
Proof.
  revert s top st a CA SA. induction fuel as [|fuel IH]; intros s top st a CA SA Hf Hst Hnd Hfuel; [lia|].
  pose proof Hf as (Ha & Hca & Hsa). cbn [merge_right]. rewrite Ha. cbn [mbind option_bind next].
  destruct SA as [|b CB SB]; cbn [hd].
  { exists s, a, CA, top, st. splits; try done. }
  pose proof Hsa as (Hb & Hcb & Hsb).
  rewrite (set_next_Some _ _ _ _ Ha). cbn [mbind option_bind child prev next].
  set (s1 := <[a := _]> s). assert (F1 : same_but [a] s s1) by apply same_but_insert.
  set (k := tree_nodes st) in *. cbn [nodes] in Hnd, Hfuel |- *.
  assert (Hnd1 : NoDup ((a :: b :: nodes CA ++ nodes CB ++ nodes SB) ++ k)).
  { refine (NoDup_of_perm _ _ _ Hnd). apply Permutation_app; [|done]. constructor. apply Permutation_middle. }
  pose proof Hnd1 as (Hnd2 & Hk & _)%NoDup_apart.
  pose proof (meld_ok s1 top (Some a) a CA b CB SB) as Hm. cbn [pair_up].
  destruct (melded a CA b CB) as [w CW] eqn:Ew. pose proof (melded_nodes _ _ _ _ _ _ Ew) as Hperm.
  pose proof (conj Hnd1 (conj Hnd2 Hk)) as Hsave. nodups.
  destruct Hm as (s2 & Em & Hw & F2); [|cbn [holds]; splits; carry|apply Hsave|].
  { cbn [holds hd]. splits; [apply lookup_insert_eq|carry|done]. }
  rewrite Em. cbn [mbind option_bind]. pose proof Hw as (Hw2 & Hcw & Hsb2). rewrite Hw2. cbn [mbind option_bind next].
  assert (Hst2 : stacked s2 top st).
  { apply (stacked_same (a :: b :: nodes CA ++ nodes CB ++ nodes SB) s1); [done| |intros x Hx Hx2; by apply (proj2 (proj2 Hsave) x)].
    apply (stacked_same [a] s); [done|done|]. intros x Hx Hx2. apply (proj2 (proj2 Hsave) x); [|done].
    apply list_elem_of_singleton in Hx2 as ->. by left. }
  destruct SB as [|c CC SC]; cbn [hd].
  { exists s2, w, CW, top, st. splits; [done|done|done|done|]. chain s. }
  destruct (IH s2 (Some w) ((w, CW) :: st) c CC SC) as (s3 & root & CR & top' & st' & E3 & Eq3 & Hr & Hst3 & F3).
  - done.
  - cbn [stacked]. split; [done|]. by exists top, (Some c).
  - refine (NoDup_of_perm _ _ _ (proj1 Hsave)). unfold tree_nodes. cbn [fmap list_fmap mjoin list_join fst snd].
    rewrite (comm (++)). change (mjoin _) with k. rewrite app_comm_cons, Hperm. cbn [app].
    do 2 constructor. rewrite <- !(assoc (++)). do 2 f_equiv. apply (comm (++)).
  - cbn [nodes length] in *. rewrite !length_app in *. cbn [length] in *. rewrite !length_app in *. 
    cbn [length] in *. rewrite !length_app in *. lia.
  - exists s3, root, CR, top', st'. splits; [done| |done|done|].
    + rewrite Eq3, reverse_cons, <- (assoc (++)). done.
    + cbn [nodes] in *. chain s.
Qed.

Lemma merge_left_ok fuel s top st root CR :
  holds s top (Tree root CR Leaf) -> stacked s top st ->
  NoDup (root :: nodes CR ++ tree_nodes st) -> (length st < fuel)%nat ->
  exists s', merge_left less fuel s root = Some (s', (meld_left (root, CR) st).1)
    /\ holds s' None (Tree (meld_left (root, CR) st).1 (meld_left (root, CR) st).2 Leaf)
    /\ same_but (root :: nodes CR ++ tree_nodes st) s s'.
Proof.
  revert fuel s top root CR. induction st as [|[b CB] st IH]; intros fuel s top root CR Hr Hst Hnd Hfuel;
    (destruct fuel as [|fuel]; [cbn in Hfuel; lia|]); cbn [merge_left length] in *;
    pose proof Hr as (Hr1 & Hr2 & _); rewrite Hr1; cbn [mbind option_bind prev]; cbn [stacked] in Hst.
  { rewrite Hst in *. by exists s. }
  destruct Hst as (-> & q & nx & Hb & Hcb & Hst).
  set (k := tree_nodes st). change (tree_nodes ((b, CB) :: st)) with ((b :: nodes CB) ++ k) in *.
  rewrite (set_next_Some _ _ _ _ Hb). cbn [mbind option_bind child prev next].
  set (s1 := <[b := _]> s). assert (F1 : same_but [b] s s1) by apply same_but_insert.
  pose proof (meld_ok s1 q (Some b) b CB root CR Leaf) as Hm. unfold meld_left. cbn [foldl fst snd].
  destruct (melded b CB root CR) as [w CW] eqn:Ew. pose proof (melded_nodes _ _ _ _ _ _ Ew) as Hperm.
  cbn [nodes] in Hm. rewrite app_nil_r in Hm.
  assert (Hnd1 : NoDup ((b :: root :: nodes CB ++ nodes CR) ++ k)).
  { refine (NoDup_of_perm _ _ _ Hnd). cbn [app]. rewrite perm_swap. constructor.
    rewrite <- (assoc (++)), (comm (++) (nodes CB)), <- (assoc (++)). rewrite Permutation_middle.
    f_equiv. cbn. f_equiv. apply (comm (++)). }
  pose proof Hnd1 as (Hnd2 & Hk & _)%NoDup_apart. pose proof (conj Hnd1 (conj Hnd2 Hk)) as Hsave. nodups.
  destruct Hm as (s2 & Em & Hw & F2); [| |apply Hsave|].
  { cbn [holds hd]. splits; [apply lookup_insert_eq|carry|done]. }
  { cbn [holds hd]. splits; [carry|carry|done]. }
  rewrite Em. cbn [mbind option_bind].
  destruct (IH fuel s2 q w CW) as (s3 & E3 & Hw3 & F3); [done| | |lia|].
  - apply (stacked_same (b :: root :: nodes CB ++ nodes CR) s1); [done| |intros x Hx Hx2; by apply (proj2 (proj2 Hsave) x)].
    apply (stacked_same [b] s); [done|done|]. intros x Hx Hx2. apply (proj2 (proj2 Hsave) x); [|done].
    apply list_elem_of_singleton in Hx2 as ->. by left.
  - refine (NoDup_of_perm _ _ _ (proj1 Hsave)). rewrite app_comm_cons, Hperm. done.
  - exists s3. splits; [done|done|]. apply (same_but_trans _ _ s2).
    + apply (same_but_trans _ _ s1); [eapply same_but_mono; [|exact F1]|eapply same_but_mono; [|exact F2]];
        clear; set_solver.
    + eapply same_but_mono; [|exact F3]. intros x. rewrite app_comm_cons, Hperm. clear. set_solver.
Qed.

Lemma set_prev_ok s q q' p cs sib :
  holds s q (Tree p cs sib) -> NoDup (nodes (Tree p cs sib)) ->
  exists s', set_prev s p q' = Some s' /\ holds s' q' (Tree p cs sib) /\ same_but [p] s s'.
Proof.
  intros (Hp & Hc & Hs) Hnd. rewrite (set_prev_Some _ _ _ _ Hp). cbn [child prev next nodes] in *.
  set (s1 := <[p := _]> s). assert (F1 : same_but [p] s s1) by apply same_but_insert.
  exists s1. split; [done|]. split; [|done]. nodups. cbn [holds]. splits; [apply lookup_insert_eq|carry..].
Qed.

(** The nodes are mapped, and so at most as many as the store. *)
Lemma size_bound (s : Store) l : (forall x, x ∈ l -> is_Some (s !! x)) -> NoDup l -> (length l <= size s)%nat.
Proof.
  intros Hl Hnd. rewrite <- (size_list_to_set (C:=gset addr) l) by done.
  rewrite <- size_dom. apply subseteq_size. intros x Hx%elem_of_list_to_set. apply elem_of_dom. auto.
Qed.

Lemma holds_mapped s q f x : holds s q f -> x ∈ nodes f -> is_Some (s !! x).
Proof.
  revert q. induction f as [|p cs IHc sib IHs]; intros q; cbn [holds nodes].
  { by intros _ ?%not_elem_of_nil. }
  intros (Hp & Hc & Hs) [->|[Hx|Hx]%elem_of_app]%elem_of_cons; eauto.
Qed.

Lemma stacked_mapped s top st x : stacked s top st -> x ∈ tree_nodes st -> is_Some (s !! x).
Proof.
  revert top. induction st as [|[w CW] st IH]; intros top; [by intros _ ?%not_elem_of_nil|].
  change (tree_nodes ((w, CW) :: st)) with ((w :: nodes CW) ++ tree_nodes st). cbn [stacked].
  intros (-> & q & nx & Hw & Hc & Hst) [[->|Hx]%elem_of_cons|Hx]%elem_of_app;
    [by eexists|by eapply holds_mapped|by eapply IH].
Qed.

Lemma meld_left_nodes root CR st w CW :
  meld_left (root, CR) st = (w, CW) -> w :: nodes CW ≡ₚ root :: nodes CR ++ tree_nodes st.
Proof.
  unfold meld_left. revert root CR. induction st as [|[b CB] st IH]; intros root CR; cbn [foldl fst snd].
  { intros [= -> ->]. by rewrite app_nil_r. }
  destruct (melded b CB root CR) as [w' CW'] eqn:Ew. intros ->%IH. apply melded_nodes in Ew.
  change (tree_nodes ((b, CB) :: st)) with ((b :: nodes CB) ++ tree_nodes st).
  rewrite app_comm_cons, Ew. cbn [app]. rewrite perm_swap. constructor.
  rewrite (comm (++) (nodes CB)), <- (assoc (++)). apply Permutation_middle.
Qed.

Lemma tree_nodes_length st : (length st <= length (tree_nodes st))%nat.
Proof.
  induction st as [|[w CW] st IH]; [done|].
  change (tree_nodes ((w, CW) :: st)) with ((w :: nodes CW) ++ tree_nodes st). rewrite length_app. cbn. lia.
Qed.

Lemma combine_siblings_ok s q a CA SA :
  holds s q (Tree a CA SA) -> NoDup (nodes (Tree a CA SA)) ->
  exists s' w CW, combine_siblings less s a = Some (s', w) /\ combined (Tree a CA SA) = Some (w, CW)
    /\ holds s' None (Tree w CW Leaf) /\ w :: nodes CW ≡ₚ nodes (Tree a CA SA)
    /\ same_but (nodes (Tree a CA SA)) s s'.
Proof.
  intros Hf Hnd. unfold combine_siblings.
  destruct (set_prev_ok s q None a CA SA Hf Hnd) as (s1 & -> & Hf1 & F1). cbn [mbind option_bind].
  pose proof (size_bound s1 _ (fun x => holds_mapped s1 _ _ x Hf1) Hnd) as Hsize1.
  destruct (merge_right_ok (S (size s1)) s1 None [] a CA SA Hf1 eq_refl) as (s2 & root & CR & top & st & E & Eq & Hr & Hst & F2);
    [by rewrite app_nil_r|lia|].
  rewrite E. cbn [mbind option_bind]. rewrite app_nil_r in Eq. unfold combined. rewrite <- Eq.
  assert (Hperm : root :: nodes CR ++ tree_nodes st ≡ₚ nodes (Tree a CA SA)).
  { rewrite <- (pair_up_nodes (Tree a CA SA)). change (tree_nodes ((root, CR) :: st) ≡ₚ tree_nodes (pair_up (Tree a CA SA))).
    rewrite Eq. unfold tree_nodes. by rewrite fmap_reverse, reverse_Permutation. }
  assert (Hnd2 : NoDup (root :: nodes CR ++ tree_nodes st)) by by rewrite Hperm.
  assert (Hsize2 : (length (tree_nodes st) <= size s2)%nat).
  { apply size_bound; [intros x; by apply (stacked_mapped _ top)|]. nodups. done. }
  pose proof (tree_nodes_length st) as Hlen.
  destruct (merge_left_ok (S (size s2)) s2 top st root CR Hr Hst Hnd2) as (s3 & -> & Hw & F3); [lia|].
  destruct (meld_left (root, CR) st) as [w CW] eqn:Em. cbn [fst snd] in *.
  exists s3, w, CW. splits; [done|done|done| |].
  - rewrite (meld_left_nodes _ _ _ _ _ Em). done.
  - rewrite Hperm in F3. chain s.
Qed.

(** ** Unlinking a node *)

(** The forest without [v] and what is below it, and what is below it. *)
Fixpoint take_out (v : addr) (f : forest) : forest :=
  match f with
  | Leaf => Leaf
  | Tree p cs sib => if decide (p = v) then sib else Tree p (take_out v cs) (take_out v sib)
  end.
Fixpoint children_of (v : addr) (f : forest) : forest :=
  match f with
  | Leaf => Leaf
  | Tree p cs sib =>
      if decide (p = v) then cs
      else if decide (v ∈ nodes cs) then children_of v cs else children_of v sib
  end.

Lemma take_out_id v f : v ∉ nodes f -> take_out v f = f.
Proof.
  induction f as [|p cs IHc sib IHs]; [done|]. cbn [nodes take_out].
  rewrite not_elem_of_cons, not_elem_of_app. intros (Hp & Hc & Hs).
  rewrite decide_False by congruence. by rewrite IHc, IHs.
Qed.

Lemma take_out_nodes v f :
  v ∈ nodes f -> NoDup (nodes f) -> nodes f ≡ₚ v :: nodes (children_of v f) ++ nodes (take_out v f).
Proof.
  induction f as [|p cs IHc sib IHs]; cbn [nodes take_out children_of]; [by intros ?%not_elem_of_nil|].
  intros Hv Hnd. pose proof Hnd as [Hp (Hcs & Hd & Hsib)%NoDup_apart]%NoDup_cons.
  destruct (decide (p = v)) as [->|Hpv]; [done|].
  apply elem_of_cons in Hv as [->|Hv]; [done|]. cbn [nodes].
  destruct (decide (v ∈ nodes cs)) as [Hc|Hc].
  - rewrite (take_out_id v sib) by (intros Hs; by apply (Hd v)). specialize (IHc Hc Hcs). perm.
  - apply elem_of_app in Hv as [?|Hv]; [done|]. rewrite (take_out_id v cs) by done.
    specialize (IHs Hv Hsib). perm.
Qed.

Lemma reprev_ok s q q' f :
  holds s q f -> NoDup (nodes f) ->
  exists s', (match hd f with Some y => set_prev s y q' | None => Some s end) = Some s'
    /\ holds s' q' f /\ same_but (nodes f) s s'.
Proof.
  intros Hf Hnd. destruct f as [|y cs sib]; [by exists s|].
  destruct (set_prev_ok s q q' y cs sib Hf Hnd) as (s' & E & Hh & F). exists s'. splits; [done|done|].
  eapply same_but_mono; [|exact F]. cbn [nodes]. clear. set_solver.
Qed.

Lemma detach_base s v p cv sv rp :
  s !! v = Some {| child := hd cv; prev := Some p; next := hd sv |} ->
  holds s (Some v) cv -> holds s (Some v) sv -> s !! p = Some rp ->
  NoDup (p :: v :: nodes cv ++ nodes sv) ->
  exists s', detach s v p = Some s'
    /\ s' !! p = Some (if bool_decide (child rp = Some v)
                       then {| child := hd sv; prev := prev rp; next := next rp |}
                       else {| child := child rp; prev := prev rp; next := hd sv |})
    /\ holds s' (Some p) sv
    /\ holds s' None (Tree v cv Leaf) /\ same_but (p :: v :: nodes sv) s s'.
Proof.
  intros Hv Hcv Hsv Hp Hnd. unfold detach. rewrite Hv. cbn [mbind option_bind next].
  nodups. destruct (reprev_ok s (Some v) (Some p) sv Hsv) as (s1 & -> & Hsv1 & F1); [done|].
  cbn [mbind option_bind]. assert (Hp1 : s1 !! p = Some rp) by carry. rewrite Hp1. cbn [mbind option_bind].
  set (rp' := if bool_decide (child rp = Some v)
              then {| child := hd sv; prev := prev rp; next := next rp |}
              else {| child := child rp; prev := prev rp; next := hd sv |}).
  assert (Hset : (if bool_decide (child rp = Some v) then set_child s1 p (hd sv) else set_next s1 p (hd sv))
                 = Some (<[p := rp']> s1)).
  { unfold rp'. case_bool_decide; [by rewrite (set_child_Some _ _ _ _ Hp1)|by rewrite (set_next_Some _ _ _ _ Hp1)]. }
  rewrite Hset. cbn [mbind option_bind].
  set (s2 := <[p := rp']> s1). assert (F2 : same_but [p] s1 s2) by apply same_but_insert.
  assert (Hv2 : s2 !! v = Some {| child := hd cv; prev := Some p; next := hd sv |}) by carry.
  rewrite (set_prev_Some _ _ _ _ Hv2). cbn [mbind option_bind child prev next].
  set (s3 := <[v := _]> s2). assert (F3 : same_but [v] s2 s3) by apply same_but_insert.
  erewrite (set_next_Some s3) by apply lookup_insert_eq. cbn [child prev next].
  set (s4 := <[v := _]> s3). assert (F4 : same_but [v] s3 s4) by apply same_but_insert.
  assert (Hp2 : s2 !! p = Some rp') by apply lookup_insert_eq.
  exists s4. split; [done|]. cbn [holds hd].
  splits; [carry|carry|apply lookup_insert_eq|carry|done|chain s].
Qed.

Lemma children_of_in v f x : v ∈ nodes f -> NoDup (nodes f) -> x ∈ nodes (children_of v f) -> x ∈ nodes f.
Proof. intros Hv Hnd Hx. rewrite (take_out_nodes v f Hv Hnd). right. apply elem_of_app. by left. Qed.

(** Detaching [v], which is not the first node, gives the forest without it and [v]
    as a tree of its own. *)
Definition detached (s : Store) (q : ptr) (v : addr) (f : forest) : Prop :=
  exists pv s', prev <$> s !! v = Some (Some pv) /\ detach s v pv = Some s'
    /\ holds s' q (take_out v f) /\ holds s' None (Tree v (children_of v f) Leaf)
    /\ same_but (nodes f) s s'.

Lemma detached_child s q v p cv sv sib :
  holds s q (Tree p (Tree v cv sv) sib) -> NoDup (nodes (Tree p (Tree v cv sv) sib)) ->
  detached s q v (Tree p (Tree v cv sv) sib).
Proof.
  intros (Hp & (Hv & Hcv & Hsv) & Hsib) Hnd. cbn [nodes hd app] in *.
  destruct (detach_base s v p cv sv _ Hv Hcv Hsv Hp) as (s' & E & Hp' & Hsv' & Hv' & F).
  { apply (NoDup_apart ((p :: v :: nodes cv ++ nodes sv)) (nodes sib)). refine (NoDup_of_perm _ _ _ Hnd). perm. }
  nodups. exists p, s'. cbn [take_out children_of].
  rewrite !(decide_False (P := p = v)) by done. rewrite !(decide_True (P := v = v)) by done.
  rewrite (decide_True (P := v ∈ nodes (Tree v cv sv))) by by left.
  rewrite (take_out_id v sib) by done. cbn [child prev next] in Hp'. rewrite bool_decide_eq_true_2 in Hp' by done.
  splits; [by rewrite Hv|done| |done|].
  - cbn [holds]. splits; [done|done|carry].
  - eapply same_but_mono; [|exact F]. clear. set_solver.
Qed.

Lemma detached_sibling s q v p cs cv sv :
  holds s q (Tree p cs (Tree v cv sv)) -> NoDup (nodes (Tree p cs (Tree v cv sv))) ->
  detached s q v (Tree p cs (Tree v cv sv)).
Proof.
  intros (Hp & Hcs & (Hv & Hcv & Hsv)) Hnd. cbn [nodes hd] in *.
  destruct (detach_base s v p cv sv _ Hv Hcv Hsv Hp) as (s' & E & Hp' & Hsv' & Hv' & F).
  { apply (NoDup_apart (p :: v :: nodes cv ++ nodes sv) (nodes cs)). refine (NoDup_of_perm _ _ _ Hnd). perm. }
  nodups. exists p, s'. cbn [take_out children_of].
  assert (Hvcs : v ∉ nodes cs) by disjoint.
  rewrite !(decide_False (P := p = v)) by done. rewrite !(decide_True (P := v = v)) by done.
  rewrite (decide_False (P := v ∈ nodes cs)) by done.
  rewrite (take_out_id v cs) by done. cbn [child prev next] in Hp'.
  rewrite bool_decide_eq_false_2 in Hp' by (intros Hh; by apply Hvcs, hd_nodes).
  splits; [by rewrite Hv|done| |done|].
  - cbn [holds]. splits; [done|carry|done].
  - eapply same_but_mono; [|exact F]. clear. set_solver.
Qed.

Lemma detached_in_children s q v p cs sib :
  holds s q (Tree p cs sib) -> NoDup (nodes (Tree p cs sib)) -> v ∈ nodes cs -> hd cs <> Some v ->
  detached s (Some p) v cs -> detached s q v (Tree p cs sib).
Proof.
  intros (Hp & Hcs & Hsib) Hnd Hv Hhd (pv & s' & Epv & E & Hcs' & Hv' & F). exists pv, s'.
  cbn [nodes] in Hnd. pose proof Hnd as [Hpn (Hnc & Hd & Hns)%NoDup_apart]%NoDup_cons.
  apply not_elem_of_app in Hpn as [Hpc Hps].
  assert (Hvp : p <> v) by congruence. cbn [take_out children_of].
  rewrite !(decide_False (P := p = v)) by done. rewrite (decide_True (P := v ∈ nodes cs)) by done.
  rewrite (take_out_id v sib) by (intros Hs; by apply (Hd v)).
  splits; [done|done| |done|].
  - cbn [holds]. splits; [|done|].
    + rewrite F, Hp by done. do 2 f_equal. destruct cs as [|c cc cs]; [done|]. cbn [take_out].
      by rewrite decide_False by (cbn in Hhd; congruence).
    + apply (holds_same (nodes cs) s); [done|done|]. intros x Hx Hx2. by apply (Hd x).
  - eapply same_but_mono; [|exact F]. clear. set_solver.
Qed.

Lemma detached_in_siblings s q v p cs sib :
  holds s q (Tree p cs sib) -> NoDup (nodes (Tree p cs sib)) -> v ∈ nodes sib -> hd sib <> Some v ->
  detached s (Some p) v sib -> detached s q v (Tree p cs sib).
Proof.
  intros (Hp & Hcs & Hsib) Hnd Hv Hhd (pv & s' & Epv & E & Hsib' & Hv' & F). exists pv, s'.
  cbn [nodes] in Hnd. pose proof Hnd as [Hpn (Hnc & Hd & Hns)%NoDup_apart]%NoDup_cons.
  apply not_elem_of_app in Hpn as [Hpc Hps].
  assert (Hvp : p <> v) by congruence. assert (Hvc : v ∉ nodes cs) by (intros Hc; by apply (Hd v)).
  cbn [take_out children_of].
  rewrite !(decide_False (P := p = v)) by done. rewrite (decide_False (P := v ∈ nodes cs)) by done.
  rewrite (take_out_id v cs) by done.
  splits; [done|done| |done|].
  - cbn [holds]. splits; [| |done].
    + rewrite F, Hp by done. do 2 f_equal. destruct sib as [|c cc sib]; [done|]. cbn [take_out].
      by rewrite decide_False by (cbn in Hhd; congruence).
    + apply (holds_same (nodes sib) s); [done|done|]. intros x Hx Hx2. by apply (Hd x).
  - eapply same_but_mono; [|exact F]. clear. set_solver.
Qed.

Lemma detach_ok v f : forall s q,
  holds s q f -> NoDup (nodes f) -> v ∈ nodes f -> hd f <> Some v -> detached s q v f.
Proof.
  induction f as [|p cs IHc sib IHs]; intros s q Hf Hnd Hv Hhd; [by apply not_elem_of_nil in Hv|].
  pose proof Hf as (_ & Hcs & Hsib). cbn [nodes hd] in Hv, Hhd.
  apply elem_of_cons in Hv as [->|Hv]; [done|].
  pose proof Hnd as [_ (Hnc & _ & Hns)%NoDup_apart]%NoDup_cons.
  apply elem_of_app in Hv as [Hv|Hv].
  - destruct (decide (hd cs = Some v)) as [Hh|Hh].
    + destruct cs as [|v' cv sv]; [done|]. injection Hh as ->. by apply detached_child.
    + apply detached_in_children; try done. by apply IHc.
  - destruct (decide (hd sib = Some v)) as [Hh|Hh].
    + destruct sib as [|v' cv sv]; [done|]. injection Hh as ->. by apply detached_sibling.
    + apply detached_in_siblings; try done. by apply IHs.
Qed.

(** ** The heap *)

(** A heap is empty, or a root and the forest below it. *)
Abbreviation heap := (option (addr * forest)).
Definition elems (h : heap) : list addr := match h with None => [] | Some (r, C) => r :: nodes C end.
Definition owns (s : Store) (root : ptr) (h : heap) : Prop :=
  match h with
  | None => root = None
  | Some (r, C) => root = Some r /\ holds s None (Tree r C Leaf) /\ NoDup (r :: nodes C)
  end.

(** No node is less than the one above it. *)
Fixpoint ordered (p : addr) (f : forest) : Prop :=
  match f with
  | Leaf => True
  | Tree c cs sib => less c p = false /\ ordered c cs /\ ordered p sib
  end.
(** The same without a node above. *)
Fixpoint roots_ordered (f : forest) : Prop :=
  match f with Leaf => True | Tree c cs sib => ordered c cs /\ roots_ordered sib end.
Definition heap_ordered (h : heap) : Prop :=
  match h with None => True | Some (r, C) => ordered r C end.

Lemma ordered_roots p f : ordered p f -> roots_ordered f.
Proof. induction f as [|c cs _ sib IH]; cbn; [done|]. intros (_ & ? & ?). auto. Qed.

Lemma take_out_ordered v p f : ordered p f -> ordered p (take_out v f).
Proof.
  revert p. induction f as [|c cs IHc sib IHs]; intros p; [done|]. cbn [ordered take_out].
  intros (H1 & H2 & H3). destruct (decide (c = v)); [done|]. cbn [ordered]. auto.
Qed.
Lemma children_of_ordered v p f : ordered p f -> roots_ordered (children_of v f).
Proof.
  revert p. induction f as [|c cs IHc sib IHs]; intros p; [done|]. cbn [ordered children_of].
  intros (H1 & H2 & H3). destruct (decide (c = v)); [by eapply ordered_roots|].
  destruct (decide (v ∈ nodes cs)); eauto.
Qed.

(** ** The operations on heaps *)

Lemma insert_ok s root h v :
  owns s root h -> s !! v = Some IntrusiveField_default -> v ∉ elems h ->
  exists s' root' h', insert less s root v = Some (s', root') /\ owns s' root' h'
    /\ h' = Some (match h with None => (v, Leaf) | Some (r, C) => melded v Leaf r C end)
    /\ same_but (v :: elems h) s s'.
Proof.
  intros Ho Hv Hve. unfold insert. destruct h as [[r C]|]; cbn [owns elems] in *.
  - destruct Ho as (-> & Hr & Hnd).
    pose proof (meld_ok s None None v Leaf r C Leaf) as Hm. cbn [nodes app] in Hm. rewrite app_nil_r in Hm.
    destruct (melded v Leaf r C) as [w CW] eqn:Ew. pose proof (melded_nodes _ _ _ _ _ _ Ew) as Hp.
    destruct Hm as (s' & Em & Hw & F); [by cbn|done|by constructor|].
    rewrite Em. cbn [mbind option_bind]. eexists s', _, (Some (w, CW)). splits; [done| |done|done].
    cbn [owns]. splits; [done|done|]. rewrite Hp. cbn. by constructor.
  - subst root. exists s, (Some v), (Some (v, Leaf)). splits; [done| |done|done].
    cbn [owns]. splits; [done|done|]. constructor; [|constructor]. by apply not_elem_of_nil.
Qed.

Definition pop (h : heap) : heap := match h with None => None | Some (_, C) => combined C end.

Lemma combined_ok s q C :
  holds s q C -> NoDup (nodes C) ->
  exists s' h', (match hd C with
                 | Some c => '(s, x) ← combine_siblings less s c; Some (s, Some x)
                 | None => Some (s, None)
                 end) = Some (s', fst <$> h')
    /\ h' = combined C /\ owns s' (fst <$> h') h' /\ elems h' ≡ₚ nodes C /\ same_but (nodes C) s s'.
Proof.
  intros Hc Hnd. destruct C as [|c cc sc]; cbn [hd]; [by exists s, None|].
  destruct (combine_siblings_ok s q c cc sc Hc Hnd) as (s' & w & CW & -> & Ec & Hw & Hp & F).
  exists s', (Some (w, CW)). cbn [mbind option_bind fmap option_fmap option_map fst elems owns].
  splits; try done. by rewrite Hp.
Qed.

Lemma delete_min_ok s root h :
  owns s root h ->
  exists s' root', delete_min less s root = Some (s', root', root) /\ owns s' root' (pop h)
    /\ same_but (elems h) s s'
    /\ match h with
       | None => True
       | Some (r, C) => elems (pop h) ≡ₚ nodes C /\ s' !! r = Some IntrusiveField_default
       end.
Proof.
  destruct h as [[r C]|]; cbn [owns elems pop delete_min]; [|intros ->; by exists s, None].
  intros (-> & (Hr & Hc & _) & [Hrn Hnd]%NoDup_cons). cbn [delete_min]. rewrite Hr. cbn [mbind option_bind child].
  destruct (combined_ok s _ C Hc Hnd) as (s1 & h' & E & Eh & Ho & Hp & F).
  rewrite E. cbn [mbind option_bind]. rewrite (F r Hrn), Hr. cbn [mbind option_bind]. rewrite <- Eh.
  eexists _, _. splits; [done| | |done|apply lookup_insert_eq].
  - destruct h' as [[w CW]|]; cbn [owns fmap option_fmap option_map fst] in *; [|done].
    destruct Ho as (_ & Hw & Hnw). splits; [done| |done].
    apply (holds_same [r] s1); [apply same_but_insert|done|]. intros x Hx ->%list_elem_of_singleton.
    cbn [nodes] in Hx. rewrite app_nil_r in Hx. apply Hrn. by rewrite <- Hp.
  - apply (same_but_trans _ _ s1); [eapply same_but_mono; [|exact F]|eapply same_but_mono; [|apply same_but_insert]];
      clear; set_solver.
Qed.

(** The heap without [v]: its children combined are melded with the root. *)
Definition removed (v : addr) (h : heap) : heap :=
  match h with
  | None => None
  | Some (r, C) =>
      if decide (r = v) then combined C
      else Some match combined (children_of v C) with
                | None => (r, take_out v C)
                | Some (x, CX) => melded x CX r (take_out v C)
                end
  end.

Lemma remove_combine s r v c cc sc T :
  holds s None (Tree r T Leaf) -> holds s None (Tree v (Tree c cc sc) Leaf) ->
  NoDup (v :: r :: nodes (Tree c cc sc) ++ nodes T) ->
  exists s' w CW,
    (s ← set_child s v None;
     '(s, x) ← combine_siblings less s c;
     '(s, w) ← meld less s x r;
     Some (s, Some w)) = Some (s', Some w)
    /\ (w, CW) = match combined (Tree c cc sc) with None => (r, T) | Some (x, CX) => melded x CX r T end
    /\ owns s' (Some w) (Some (w, CW)) /\ w :: nodes CW ≡ₚ r :: nodes (Tree c cc sc) ++ nodes T
    /\ s' !! v = Some IntrusiveField_default
    /\ same_but (v :: r :: nodes (Tree c cc sc) ++ nodes T) s s'.
Proof.
  intros Hr (Hv & Hcv & _) Hnd. rewrite (set_child_Some _ _ _ _ Hv). cbn [mbind option_bind child prev next].
  set (cv := Tree c cc sc) in *. set (s1 := <[v := _]> s).
  assert (F1 : same_but [v] s s1) by apply same_but_insert.
  assert (Hv1 : s1 !! v = Some IntrusiveField_default) by apply lookup_insert_eq.
  assert (Hsave : True -> NoDup (r :: nodes cv ++ nodes T)) by (intros _; by apply NoDup_cons in Hnd as [_ ?]).
  nodups.
  destruct (combine_siblings_ok s1 (Some v) c cc sc) as (s2 & x & CX & E2 & Ec & Hx & Hpx & F2);
    [apply (holds_same [v] s); [done|done|disjoint]|done|].
  fold cv in Hpx, F2, Ec. rewrite E2, Ec. cbn [mbind option_bind].
  assert (Hr2 : holds s2 None (Tree r T Leaf)).
  { apply (holds_same (nodes cv) s1); [done| |]; [apply (holds_same [v] s); [done|done|]|];
      cbn [nodes]; rewrite app_nil_r; disjoint. }
  pose proof (meld_ok s2 None None x CX r T Leaf Hx Hr2) as Hm.
  destruct (melded x CX r T) as [w CW] eqn:Ew. pose proof (melded_nodes _ _ _ _ _ _ Ew) as Hpw.
  cbn [nodes] in Hm. rewrite app_nil_r in Hm.
  assert (Hpm : x :: r :: nodes CX ++ nodes T ≡ₚ r :: nodes cv ++ nodes T) by perm.
  rewrite Hpm in Hm. destruct Hm as (s3 & -> & Hw & F3); [by apply Hsave|].
  rewrite Hpm in F3. cbn [mbind option_bind]. exists s3, w, CW. rewrite Hpm in Hpw. splits; [done|done| |done| |].
  - cbn [owns]. splits; [done|done|]. rewrite Hpw. by apply Hsave.
  - rewrite F3 by disjoint.
    rewrite F2 by done. done.
  - apply (same_but_trans _ _ s2).
    + apply (same_but_trans _ _ s1); [apply (same_but_mono [v])|apply (same_but_mono (nodes cv))]; try done;
        clear; set_solver.
    + eapply same_but_mono; [|exact F3]. clear. set_solver.
Qed.

Lemma remove_inner s r C v :
  owns s (Some r) (Some (r, C)) -> v ∈ nodes C ->
  exists s' w CW, remove less s (Some r) v = Some (s', Some w)
    /\ Some (w, CW) = removed v (Some (r, C)) /\ owns s' (Some w) (Some (w, CW))
    /\ r :: nodes C ≡ₚ v :: w :: nodes CW /\ s' !! v = Some IntrusiveField_default
    /\ same_but (r :: nodes C) s s'.
Proof.
  cbn [owns]. intros (_ & Hr & Hnd) Hv. assert (Hrv : r <> v) by (intros ->; by apply NoDup_cons in Hnd as []).
  assert (Hnd' : NoDup (nodes (Tree r C Leaf))) by (cbn [nodes]; by rewrite app_nil_r).
  destruct (detach_ok v (Tree r C Leaf) s None Hr Hnd') as (pv & s1 & Epv & E & Hr1 & Hv1 & F1);
    [cbn [nodes]; rewrite app_nil_r; by right|cbn; congruence|].
  cbn [nodes] in F1. rewrite app_nil_r in F1. cbn [take_out children_of] in *.
  rewrite !(decide_False (P := r = v)) in * by done. rewrite (decide_True (P := v ∈ nodes C)) in * by done.
  unfold remove, removed. rewrite (decide_False (P := r = v)) by done.
  destruct (s !! v) as [fv|] eqn:Ev; [|done]. cbn in Epv. injection Epv as Epv. cbn [mbind option_bind].
  rewrite Epv, E. cbn [mbind option_bind]. pose proof Hv1 as (Hv1' & Hcv & _). rewrite Hv1'.
  cbn [mbind option_bind child].
  pose proof Hnd as [_ HndC]%NoDup_cons. pose proof (take_out_nodes v C Hv HndC) as Hperm.
  assert (Hp2 : r :: nodes C ≡ₚ v :: r :: nodes (children_of v C) ++ nodes (take_out v C)) by perm.
  assert (Hnd2 : NoDup (v :: r :: nodes (children_of v C) ++ nodes (take_out v C))) by by rewrite <- Hp2.
  destruct (children_of v C) as [|c cc sc]; cbn [hd].
  - exists s1, r, (take_out v C). cbn [nodes app owns] in *. apply NoDup_cons in Hnd2 as [_ ?]. by splits.
  - destruct (remove_combine s1 r v c cc sc (take_out v C) Hr1 Hv1 Hnd2) as (s2 & w & CW & E2 & Ew & Ho & Hpw & Hv2 & F2).
    exists s2, w, CW. cbn [mbind option_bind] in E2 |- *. rewrite E2. splits; [done|by rewrite Ew|apply Ho..| |done|].
    + by rewrite Hp2, Hpw.
    + apply (same_but_trans _ _ s1); [done|]. by rewrite Hp2.
Qed.

Lemma remove_ok s root h v :
  owns s root h -> v ∈ elems h ->
  exists s' root', remove less s root v = Some (s', root') /\ owns s' root' (removed v h)
    /\ elems h ≡ₚ v :: elems (removed v h) /\ s' !! v = Some IntrusiveField_default
    /\ same_but (elems h) s s'.
Proof.
  destruct h as [[r C]|]; cbn [elems]; [|by intros _ ?%not_elem_of_nil]. intros Ho Hv.
  destruct (decide (r = v)) as [->|Hrv].
  - destruct (delete_min_ok s root (Some (v, C)) Ho) as (s' & root' & E & Ho' & F & Hp & Hv').
    destruct Ho as (-> & (Hr & _) & _). unfold remove. rewrite Hr. cbn [mbind option_bind prev].
    rewrite E. cbn [mbind option_bind]. exists s', root'. cbn [removed pop] in *.
    rewrite decide_True by done. splits; [done|done| |done|done]. by rewrite Hp.
  - apply elem_of_cons in Hv as [->|Hv]; [done|].
    assert (root = Some r) as -> by apply Ho.
    destruct (remove_inner s r C v Ho Hv) as (s' & w & CW & E & <- & Ho' & Hp & Hv' & F).
    by exists s', (Some w).
Qed.
End Meld.

(** ** The walk *)

Section Walk.
Context (s : Store).

Lemma walk_forest f : forall q seen p,
  holds s q f -> NoDup (nodes f) -> hd f = Some p ->
  exists n, (S n <= 3 * length (nodes f))%nat
    /\ iterates (walk_step s) n (Visit p, seen) (Climb p q, seen ++ nodes f).
Proof.
  induction f as [|p cs IHc sib IHs]; intros q seen p0 Hf Hnd Hp0; [done|]. injection Hp0 as <-.
  pose proof Hf as (Hp & Hcs & Hsib). cbn [nodes] in Hnd.
  apply NoDup_cons in Hnd as [Hpn (Hnc & Hd & Hns)%NoDup_apart].
  assert (Hdown : exists n, (n <= S (3 * length (nodes cs)))%nat
    /\ iterates (walk_step s) n (Visit p, seen) (TryNext p, seen ++ p :: nodes cs)).
  { destruct cs as [|c cc sc].
    - exists 1%nat. split; [cbn; lia|]. apply iterates_one. unfold walk_step. by rewrite Hp.
    - destruct (IHc (Some p) (seen ++ [p]) c Hcs Hnc eq_refl) as (n & Hn & Hit).
      exists (1 + (n + 1))%nat. split; [lia|]. eapply iterates_app; [apply iterates_one|eapply iterates_app; [exact Hit|]].
      + unfold walk_step. by rewrite Hp.
      + rewrite <- (assoc (++)). apply iterates_one. unfold walk_step. rewrite Hp. cbn [child hd].
        by rewrite bool_decide_eq_true_2. }
  destruct Hdown as (n1 & Hn1 & Hit1). cbn [nodes]. destruct sib as [|b cb sb].
  - exists (n1 + 1)%nat. cbn [length nodes]. rewrite app_nil_r. split; [lia|].
    eapply iterates_app; [exact Hit1|]. apply iterates_one. unfold walk_step. by rewrite Hp.
  - destruct (IHs (Some p) (seen ++ p :: nodes cs) b Hsib Hns eq_refl) as (n2 & Hn2 & Hit2).
    exists (n1 + (1 + (n2 + 1)))%nat. cbn [length]. rewrite length_app. split; [lia|].
    eapply iterates_app; [exact Hit1|]. eapply iterates_app; [apply iterates_one|eapply iterates_app; [exact Hit2|]].
    + unfold walk_step. by rewrite Hp.
    + rewrite <- (assoc (++)). apply iterates_one. unfold walk_step. rewrite Hp. cbn [child hd prev].
      rewrite bool_decide_eq_false_2; [done|]. intros Hc%hd_nodes. apply (Hd b); [done|by left].
Qed.

Lemma for_each_ok root h : owns s root h -> for_each s root = Some (elems h).
Proof.
  destruct h as [[r C]|]; cbn [owns elems for_each]; [|by intros ->].
  intros (-> & Hr & Hnd). cbn [for_each].
  assert (Hnd' : NoDup (nodes (Tree r C Leaf))) by (cbn [nodes]; by rewrite app_nil_r).
  destruct (walk_forest (Tree r C Leaf) None [] r Hr Hnd' eq_refl) as (n & Hn & Hit).
  pose proof (size_bound s _ (fun x => holds_mapped s _ _ x Hr) Hnd') as Hsize.
  rewrite (iterates_run _ n _ _ _ (Some (nodes (Tree r C Leaf))) Hit); [|done|lia].
  cbn. by rewrite app_nil_r.
Qed.
End Walk.

(** ** A priority queue *)

(** What the callers' [less] has to be: a strict weak order. *)
Class StrictWeakOrder (less : addr -> addr -> bool) : Prop := {
  less_asym a b : less a b = true -> less b a = false;
  less_trans a b c : less b a = false -> less c b = false -> less c a = false;
}.

Section Queue.
Context (less : addr -> addr -> bool) `{!StrictWeakOrder less}.

Lemma ordered_min p f x : ordered less p f -> x ∈ nodes f -> less x p = false.
Proof.
  revert p. induction f as [|c cs IHc sib IHs]; intros p; cbn [ordered nodes]; [by intros _ ?%not_elem_of_nil|].
  intros (H1 & H2 & H3) [->|[Hx|Hx]%elem_of_app]%elem_of_cons; [done| |by apply IHs].
  apply (less_trans p c x); [done|]. by apply IHc.
Qed.

Lemma melded_ordered a CA b CB :
  ordered less a CA -> ordered less b CB ->
  ordered less (melded less a CA b CB).1 (melded less a CA b CB).2.
Proof.
  intros Ha Hb. unfold melded. destruct (less a b) eqn:E; cbn [fst snd ordered]; splits; try done.
  by apply less_asym.
Qed.

Definition tree_ordered (t : addr * forest) : Prop := ordered less t.1 t.2.

Lemma pair_up_ordered f : roots_ordered less f -> Forall tree_ordered (pair_up less f).
Proof.
  revert f. fix IH 1. intros [|a CA [|b CB SB]]; cbn [roots_ordered pair_up]; [done|by intros []; constructor|].
  intros (Ha & Hb & HS). constructor; [by apply melded_ordered|by apply IH].
Qed.

Lemma meld_left_ordered root stack :
  tree_ordered root -> Forall tree_ordered stack -> tree_ordered (meld_left less root stack).
Proof.
  intros Hr Hs. revert root Hr. unfold meld_left.
  induction Hs as [|t st Ht Hs IH]; intros root Hr; cbn [foldl]; [done|].
  apply IH. by apply melded_ordered.
Qed.

Lemma combined_ordered f : roots_ordered less f -> heap_ordered less (combined less f).
Proof.
  intros Hf%pair_up_ordered. unfold combined. rewrite <- (reverse_involutive (pair_up less f)) in Hf.
  destruct (reverse (pair_up less f)) as [|root st]; [done|].
  apply Forall_reverse, Forall_cons in Hf as [Hr Hs]. pose proof (meld_left_ordered root st Hr Hs) as H.
  unfold heap_ordered. by destruct (meld_left less root st).
Qed.

Lemma pop_ordered h : heap_ordered less h -> heap_ordered less (pop less h).
Proof. destruct h as [[r C]|]; [|done]. intros H. apply combined_ordered. by eapply ordered_roots. Qed.

Lemma removed_ordered v h : heap_ordered less h -> heap_ordered less (removed less v h).
Proof.
  destruct h as [[r C]|]; cbn [heap_ordered removed]; [|done]. intros H.
  destruct (decide (r = v)); [apply combined_ordered; by eapply ordered_roots|].
  pose proof (combined_ordered _ (children_of_ordered less v r C H)) as Hc.
  pose proof (take_out_ordered less v r C H) as Ht.
  destruct (combined less (children_of v C)) as [[x CX]|]; cbn [heap_ordered] in *; [|done].
  pose proof (melded_ordered x CX r _ Hc Ht). by destruct (melded _ _ _ _ _).
Qed.

Lemma owns_root s root h : owns s root h -> root = fst <$> h.
Proof. destruct h as [[r C]|]; [by intros [-> _]|done]. Qed.

(**  [insert] links the node into the heap: every node that was there and the new
    one is in it once, no other node of the store changes, and the order is kept. *)
Theorem heap_insert s root h v :
  owns s root h -> heap_ordered less h -> s !! v = Some IntrusiveField_default -> v ∉ elems h ->
  exists s' root' h', insert less s root v = Some (s', root') /\ owns s' root' h'
    /\ elems h' ≡ₚ v :: elems h /\ heap_ordered less h' /\ same_but (v :: elems h) s s'.
Proof.
  intros Ho Hord Hv Hve. destruct (insert_ok less s root h v Ho Hv Hve) as (s' & root' & h' & E & Ho' & -> & F).
  eexists s', root', _. split; [done|]. split; [done|]. destruct h as [[r C]|].
  - pose proof (melded_nodes less v Leaf r C) as Hp.
    pose proof (melded_ordered v Leaf r C I Hord) as Hm.
    destruct (melded less v Leaf r C) as [w CW]. specialize (Hp _ _ eq_refl). by splits.
  - by splits.
Qed.

(** [delete_min] takes out a node that no other is less than, leaves exactly the
    others in order, and resets the links of the node; on an empty heap it returns
    null and changes nothing. *)
Theorem heap_delete_min s root h :
  owns s root h -> heap_ordered less h ->
  exists s' root' h', delete_min less s root = Some (s', root', root) /\ owns s' root' h'
    /\ heap_ordered less h' /\ same_but (elems h) s s'
    /\ match root with
       | None => h = None /\ h' = None
       | Some r => elems h ≡ₚ r :: elems h' /\ s' !! r = Some IntrusiveField_default
                   /\ forall x, x ∈ elems h -> less x r = false
       end.
Proof.
  intros Ho Hord. destruct (delete_min_ok less s root h Ho) as (s' & root' & E & Ho' & F & Hr).
  eexists s', root', _. splits; [done|done|by apply pop_ordered|done|].
  rewrite (owns_root _ _ _ Ho). destruct h as [[r C]|]; cbn [fmap option_fmap option_map fst] in *; [|done].
  destruct Hr as [Hp Hr]. splits; [by cbn [elems]; rewrite Hp|done|].
  intros x [->|Hx]%elem_of_cons; [|by eapply ordered_min].
  destruct (less r r) eqn:E2; [|done]. by rewrite <- (less_asym _ _ E2), E2.
Qed.

(** C34.  [remove] takes any node out of the heap, wherever it is linked, leaves
    exactly the others in order, and resets the links of the node. *)
Theorem heap_remove s root h v :
  owns s root h -> heap_ordered less h -> v ∈ elems h ->
  exists s' root' h', remove less s root v = Some (s', root') /\ owns s' root' h'
    /\ elems h ≡ₚ v :: elems h' /\ heap_ordered less h'
    /\ s' !! v = Some IntrusiveField_default /\ same_but (elems h) s s'.
Proof.
  intros Ho Hord Hv. destruct (remove_ok less s root h v Ho Hv) as (s' & root' & E & Ho' & Hp & Hv' & F).
  eexists s', root', _. splits; [done|done|done|by apply removed_ordered|done|done].
Qed.

Lemma foldl_max l : forall m, (let r := foldl (fun m node => if less m node then node else m) m l in
  r ∈ m :: l /\ less r m = false /\ forall x, x ∈ l -> less r x = false).
Proof.
  assert (Hirr : forall x, less x x = false).
  { intros x. destruct (less x x) eqn:E; [|done]. by rewrite <- (less_asym _ _ E), E. }
  induction l as [|y l IH]; intros m; cbn [foldl].
  { splits; [by left|done|]. by intros x ?%not_elem_of_nil. }
  set (m' := if less m y then y else m).
  assert (Hm : less m' m = false /\ less m' y = false /\ (m' = m \/ m' = y)).
  { unfold m'. destruct (less m y) eqn:E; [|by auto]. splits; [by apply less_asym|apply Hirr|by right]. }
  destruct Hm as (Hm1 & Hm2 & Hm3). destruct (IH m') as (Hin & Hr & Hx). splits.
  - apply elem_of_cons in Hin as [->|Hin]; [destruct Hm3 as [->| ->]; [by left|by right; left]|by right; right].
  - by apply (less_trans m m').
  - intros x [->|Hx']%elem_of_cons; [by apply (less_trans y m')|by apply Hx].
Qed.

(**  The walk of [for_each] ends, with every node of the heap visited exactly
    once: [count] is their number, and [find_max] gives one that is less than none. *)
Theorem heap_walk s root h :
  owns s root h ->
  for_each s root = Some (elems h) /\ NoDup (elems h) /\ count s root = Some (length (elems h))
  /\ exists m, find_max less s root = Some m
     /\ match m with
        | None => h = None
        | Some m => m ∈ elems h /\ forall x, x ∈ elems h -> less m x = false
        end.
Proof.
  intros Ho. unfold count, find_max. rewrite (for_each_ok s root h Ho).
  split; [done|]. split; [destruct h as [[r C]|]; [apply Ho|constructor]|]. split; [done|].
  cbn [mbind option_bind]. rewrite (owns_root _ _ _ Ho).
  destruct h as [[r C]|]; cbn [fmap option_fmap option_map fst]; eexists; (split; [done|]); [|done].
  destruct (foldl_max (elems (Some (r, C))) r) as (Hin & Hr & Hx). split; [|done].
  cbn [elems] in *. apply elem_of_cons in Hin as [->|Hin]; [by left|done].
Qed.
End Queue.

(** ** An example: addresses ordered as numbers. *)
#[export] Instance ltb_order : StrictWeakOrder Pos.ltb.
Proof. split; intros *; rewrite ?Pos.ltb_lt, ?Pos.ltb_ge; lia. Qed.

(** [1] above [4] and [2], and [3] below [2]; [5] is not in the heap. *)
Definition example_heap : option (addr * forest) := Some (1%positive, Tree 4 Leaf (Tree 2 (Tree 3 Leaf Leaf) Leaf)).
Definition example_store : Store := list_to_map [
  (1%positive, {| child := Some 4%positive; prev := None; next := None |});
  (4%positive, {| child := None; prev := Some 1%positive; next := Some 2%positive |});
  (2%positive, {| child := Some 3%positive; prev := Some 4%positive; next := None |});
  (3%positive, {| child := None; prev := Some 2%positive; next := None |});
  (5%positive, IntrusiveField_default)].

Lemma example_owned :
  owns example_store (Some 1%positive) example_heap /\ heap_ordered Pos.ltb example_heap.
Proof. cbn [example_heap owns]. splits; try (vm_compute; by splits); decide_now. Qed.

Lemma heap_insert_witness :
  exists s' root' h', insert Pos.ltb example_store (Some 1%positive) 5%positive = Some (s', root')
    /\ owns s' root' h' /\ elems h' ≡ₚ 5%positive :: elems example_heap
    /\ heap_ordered Pos.ltb h' /\ same_but (5%positive :: elems example_heap) example_store s'.
Proof.
  apply (heap_insert Pos.ltb example_store (Some 1%positive) example_heap 5%positive);
    [apply example_owned|apply example_owned|reflexivity|decide_now].
Defined.

Lemma heap_delete_min_witness :
  exists s' root' h', delete_min Pos.ltb example_store (Some 1%positive) = Some (s', root', Some 1%positive)
    /\ owns s' root' h' /\ heap_ordered Pos.ltb h' /\ same_but (elems example_heap) example_store s'
    /\ (elems example_heap ≡ₚ 1%positive :: elems h' /\ s' !! 1%positive = Some IntrusiveField_default
        /\ forall x, x ∈ elems example_heap -> (x <? 1)%positive = false).
Proof.
  apply (heap_delete_min Pos.ltb example_store (Some 1%positive) example_heap); apply example_owned.
Defined.

Lemma heap_remove_witness :
  exists s' root' h', remove Pos.ltb example_store (Some 1%positive) 2%positive = Some (s', root')
    /\ owns s' root' h' /\ elems example_heap ≡ₚ 2%positive :: elems h'
    /\ heap_ordered Pos.ltb h' /\ s' !! 2%positive = Some IntrusiveField_default
    /\ same_but (elems example_heap) example_store s'.
Proof.
  apply (heap_remove Pos.ltb example_store (Some 1%positive) example_heap 2%positive);
    [apply example_owned|apply example_owned|decide_now].
Defined.

Lemma heap_walk_witness :
  for_each example_store (Some 1%positive) = Some (elems example_heap) /\ NoDup (elems example_heap)
  /\ count example_store (Some 1%positive) = Some (length (elems example_heap))
  /\ exists m, find_max Pos.ltb example_store (Some 1%positive) = Some m
     /\ match m with
        | None => example_heap = None
        | Some m => m ∈ elems example_heap /\ forall x, x ∈ elems example_heap -> (m <? x)%positive = false
        end.
Proof. apply (heap_walk Pos.ltb). apply example_owned. Defined.
