(* ===== verification/LinearFifo.v ===== *)
(** * The ring buffer of collections/linear_fifo.rs

    [LinearFifo<T, B>] keeps [count] items in a buffer from position [head] on, and
    wraps at its end.  A slot of the buffer is a [MaybeUninit<T>], so [option T] here:
    the theorem that the fifo is a queue shows too that no operation hands out a slot
    that was never written.  The storage ([LinearFifoBuffer]) is its two constants: the
    inline [StaticBuffer] of [N] slots does not grow, the boxed [DynamicBuffer] grows
    to powers of two.

    An index out of range is [None], and so is a remainder by the length of an empty
    buffer.  Slices have at most [isize::MAX] items, so no sum of two positions
    wraps.  A failed debug assertion is [None] too; the poisoning of the debug build is
    left out, and the subtraction [buf_len() - 1] of the masks is that of the release
    build (a debug build panics on [unget(&[])] before anything is allocated). *)

From S2P Require Import Prelude.

#[local] Open Scope nat_scope.

(** The constants of a [LinearFifoBuffer]. *)
Class Buffer := { POWERS_OF_TWO : bool; DYNAMIC : bool }.

(** [size.is_power_of_two()] *)
Definition is_power_of_two (n : nat) : bool := (2 ^ Z.log2 (Z.of_nat n) =? Z.of_nat n)%Z.

Definition StaticBuffer (N : nat) : Buffer := {| POWERS_OF_TWO := is_power_of_two N; DYNAMIC := false |}.
Definition DynamicBuffer : Buffer := {| POWERS_OF_TWO := true; DYNAMIC := true |}.

Inductive AllocErrorT := AllocError.

(** [size.checked_next_power_of_two()] *)
Definition checked_next_power_of_two (size : nat) : option nat :=
  let p := (2 ^ Z.log2_up (Z.of_nat size))%Z in
  if (p <=? u64_max)%Z then Some (Z.to_nat p) else None.

Record LinearFifo (T : Type) := { buf : list (option T); head : nat; count : nat }.
Arguments buf {T} _.
Arguments head {T} _.
Arguments count {T} _.
Arguments Build_LinearFifo {T} _ _ _.

Section Fifo.
Context {T : Type} `{B : Buffer}.
Implicit Types (self : LinearFifo T) (src : list T).

(** [i & (buf_len - 1)] or [i % buf_len] *)
Definition wrap_index (i buf_len : nat) : option nat :=
  if POWERS_OF_TWO then Some (Z.to_nat (Z.land (Z.of_nat i) (wrap64 (Z.of_nat buf_len - 1))))
  else if (buf_len =? 0) then None else Some (i mod buf_len).

Definition init_static (N : nat) : LinearFifo T := Build_LinearFifo (replicate N None) 0 0.
Definition init_dynamic : LinearFifo T := Build_LinearFifo [] 0 0.

Definition buf_len self : nat := length (buf self).
Definition capacity self : nat := length (buf self).
Definition readable_length self : nat := count self.
Definition writable_length self : nat := buf_len self - count self.

Definition reset_head_if_empty self : LinearFifo T :=
  if count self =? 0 then Build_LinearFifo (buf self) 0 (count self) else self.

Definition realign self : option (LinearFifo T) :=
  if count self <=? buf_len self - head self then
    moved ← slice_range (buf self) (head self) (head self + count self);
    b ← copy_into (buf self) 0 moved;
    Some (Build_LinearFifo b 0 (count self))
  else
    back ← slice_from (buf self) (head self);
    front ← slice_range (buf self) 0 (head self);
    Some (Build_LinearFifo (back ++ front) 0 (count self)).

(** An [AllocError] leaves the buffer realigned. *)
Definition ensure_total_capacity self (size : nat) : option (LinearFifo T * result AllocErrorT unit) :=
  if size <=? buf_len self then Some (self, Ok tt)
  else if DYNAMIC then
    self ← realign self;
    match (if POWERS_OF_TWO then checked_next_power_of_two size else Some size) with
    | None => Some (self, Err AllocError)
    | Some new_size =>
        let new := replicate new_size None in
        b ← (if 0 <? count self then
               old ← slice_range (buf self) 0 (count self);
               copy_into new 0 old
             else Some new);
        Some (Build_LinearFifo b 0 (count self), Ok tt)
    end
  else Some (self, Err AllocError).

Definition ensure_unused_capacity self (size : nat) : option (LinearFifo T * result AllocErrorT unit) :=
  if size <=? writable_length self then Some (self, Ok tt)
  else match checked_add64 (Z.of_nat (count self)) (Z.of_nat size) with
       | None => Some (self, Err AllocError)
       | Some total => ensure_total_capacity self (Z.to_nat total)
       end.

(** The range of the buffer that [readable_slice] and [readable_slice_mut] borrow. *)
Definition readable_range self (offset : nat) : nat * nat :=
  if count self <? offset then (0, 0) else
  let start := head self + offset in
  if buf_len self <=? start
  then (start - buf_len self, start - buf_len self + (count self - offset))
  else (start, Nat.min (head self + count self) (buf_len self)).

Definition readable_slice self (offset : nat) : option (list (option T)) :=
  let '(start, end_) := readable_range self offset in slice_range (buf self) start end_.

(** [slice[at..][..src.len()].copy_from_slice(src)] on a slice that borrows a range. *)
Definition write_range self (range : nat * nat) (src : list T) : option (LinearFifo T) :=
  let '(start, end_) := range in
  _ ← slice_range (buf self) start end_;
  if length src <=? end_ - start then
    b ← copy_into (buf self) start (Some <$> src);
    Some (Build_LinearFifo b (head self) (count self))
  else None.

Definition discard self (n : nat) : option (LinearFifo T) :=
  if n <=? count self then
    h ← wrap_index (head self + n) (buf_len self);
    Some (Build_LinearFifo (buf self) h (count self - n))
  else None.

Definition read_item self : option (LinearFifo T * option (option T)) :=
  if count self =? 0 then Some (self, None) else
  c ← buf self !! head self;
  self ← discard self 1;
  Some (self, Some c).

(** The loop of [read]: [dst_left] is the room that is left, [dst] what was copied. *)
Definition read_step (st : option (LinearFifo T * nat * list (option T))) :
    option (LinearFifo T * nat * list (option T)) + option (LinearFifo T * list (option T)) :=
  match st with
  | None => inr None
  | Some (self, dst_left, dst) =>
      if dst_left =? 0 then inr (Some (self, dst)) else
      match readable_slice self 0 with
      | None => inr None
      | Some [] => inr (Some (self, dst))
      | Some slice =>
          let n := Nat.min (length slice) dst_left in
          inl (self ← discard self n; Some (self, dst_left - n, dst ++ take n slice))
      end
  end.
Definition read self (total : nat) : option (LinearFifo T * list (option T)) :=
  mjoin (run_loop (total + 2) read_step (Some (self, total, []))).

(** The range of the buffer that [writable_slice] borrows. *)
Definition writable_range self (offset : nat) : option (nat * nat) :=
  if buf_len self <? offset then Some (0, 0) else
  let writable := buf_len self - count self in
  let tail := head self + offset + count self in
  if tail <? buf_len self then Some (tail, buf_len self)
  else if offset <=? writable
       then Some (tail - buf_len self, tail - buf_len self + (writable - offset))
       else None.

Definition writable_with_size self (size : nat) : option (LinearFifo T * result AllocErrorT (nat * nat)) :=
  '(self, r) ← ensure_unused_capacity self size;
  match r with
  | Err e => Some (self, Err e)
  | Ok _ =>
      '(start, end_) ← writable_range self 0;
      self ← (if end_ - start <? size then realign self else Some self);
      '(start, end_) ← writable_range self 0;
      if size <=? end_ - start then Some (self, Ok (start, start + size)) else None
  end.

Definition update self (n : nat) : option (LinearFifo T) :=
  if count self + n <=? buf_len self
  then Some (Build_LinearFifo (buf self) (head self) (count self + n)) else None.

Definition write_step (st : option (LinearFifo T * list T)) :
    option (LinearFifo T * list T) + option (LinearFifo T) :=
  match st with
  | None => inr None
  | Some (self, src_left) =>
      if length src_left =? 0 then inr (Some self) else
      inl ('(start, end_) ← writable_range self 0;
           let n := Nat.min (end_ - start) (length src_left) in
           _ ← (if end_ - start =? 0 then None else Some tt);
           self ← write_range self (start, end_) (take n src_left);
           self ← update self n;
           Some (self, drop n src_left))
  end.
Definition write_assume_capacity self src : option (LinearFifo T) :=
  if length src <=? writable_length self
  then mjoin (run_loop (length src + 2) write_step (Some (self, src))) else None.

Definition write_item_assume_capacity self (item : T) : option (LinearFifo T) :=
  tail ← wrap_index (head self + count self) (buf_len self);
  b ← copy_into (buf self) tail [Some item];
  update (Build_LinearFifo b (head self) (count self)) 1.

Definition write_item self (item : T) : option (LinearFifo T * result AllocErrorT unit) :=
  '(self, r) ← ensure_unused_capacity self 1;
  match r with
  | Err e => Some (self, Err e)
  | Ok _ => self ← write_item_assume_capacity self item; Some (self, Ok tt)
  end.

Definition write self src : option (LinearFifo T * result AllocErrorT unit) :=
  '(self, r) ← ensure_unused_capacity self (length src);
  match r with
  | Err e => Some (self, Err e)
  | Ok _ => self ← write_assume_capacity self src; Some (self, Ok tt)
  end.

Definition rewind self (n : nat) : option (LinearFifo T) :=
  if n <=? writable_length self then
    h ← wrap_index (head self + (buf_len self - n)) (buf_len self);
    Some (Build_LinearFifo (buf self) h (count self + n))
  else None.

Definition unget self src : option (LinearFifo T * result AllocErrorT unit) :=
  '(self, r) ← ensure_unused_capacity self (length src);
  match r with
  | Err e => Some (self, Err e)
  | Ok _ =>
      self ← rewind self (length src);
      let '(start, end_) := readable_range self 0 in
      let slice_len := end_ - start in
      self ← write_range self (start, end_) (take (Nat.min slice_len (length src)) src);
      self ← (if slice_len <? length src
              then write_range self (readable_range self slice_len) (drop slice_len src)
              else Some self);
      Some (self, Ok tt)
  end.

Definition peek_item self (offset : nat) : option (option T) :=
  if offset <? count self
  then index ← wrap_index (head self + offset) (buf_len self); buf self !! index else None.

(** A write through [peek_item_mut]. *)
Definition poke_item self (offset : nat) (item : T) : option (LinearFifo T) :=
  if offset <? count self then
    index ← wrap_index (head self + offset) (buf_len self);
    b ← copy_into (buf self) index [Some item];
    Some (Build_LinearFifo b (head self) (count self))
  else None.

(** [shift_down_one(&mut buf[start..end])] *)
Definition shift_down_one (b : list (option T)) (start end_ : nat) : option (list (option T)) :=
  slice ← slice_range b start end_;
  if 1 <? length slice then copy_into b start (drop 1 slice) else Some b.

Definition ordered_remove_item self (offset : nat) : option (LinearFifo T) :=
  if offset =? 0 then discard self 1 else
  if count self <=? offset then None else
  let len := buf_len self in
  b ← (if count self <=? len - head self then
         shift_down_one (buf self) (head self + offset) len
       else
         index ← wrap_index (head self + offset) len;
         let wrap_len := head self + count self - len in
         if index <? head self then shift_down_one (buf self) index wrap_len
         else
           wrap ← buf self !! 0;
           b ← shift_down_one (buf self) index len;
           b ← copy_into b (len - 1) [wrap];
           shift_down_one b 0 wrap_len);
  Some (Build_LinearFifo b (head self) (count self - 1)).

(** [std::io::Write::write] of a byte fifo: a static one takes what fits. *)
Definition io_write self src : option (LinearFifo T * result AllocErrorT nat) :=
  let src := if DYNAMIC then src else take (Nat.min (length src) (writable_length self)) src in
  '(self, r) ← write self src;
  match r with Err e => Some (self, Err e) | Ok _ => Some (self, Ok (length src)) end.
End Fifo.

(** ** Lists by their elements *)
Lemma slice_range_lookup {A} (l : list A) i j s :
  slice_range l i j = Some s ->
  i <= j /\ j <= length l /\ length s = j - i /\ forall k, k < j - i -> s !! k = l !! (i + k).
Proof.
  unfold slice_range. destruct (Nat.leb_spec i j), (Nat.leb_spec j (length l)); [|done..].
  intros [= <-]. rewrite length_take, length_drop. splits; [done|done|lia|].
  intros k Hk. by rewrite lookup_take_lt, lookup_drop.
Qed.
Lemma slice_range_def {A} (l : list A) i j :
  i <= j -> j <= length l -> exists s, slice_range l i j = Some s.
Proof. intros. eexists. by apply slice_range_Some. Qed.

Lemma copy_into_lookup {A} (dst src : list A) at_ :
  at_ + length src <= length dst ->
  exists d, copy_into dst at_ src = Some d /\ length d = length dst
    /\ (forall j, j < at_ -> d !! j = dst !! j)
    /\ (forall j, at_ <= j < at_ + length src -> d !! j = src !! (j - at_))
    /\ (forall j, at_ + length src <= j -> d !! j = dst !! j).
Proof.
  intros H. eexists. split; [by apply copy_into_Some|]. splits; [|intros j Hj..].
  - rewrite !length_app, length_take, length_drop. lia.
  - by rewrite lookup_app_l, lookup_take_lt by (rewrite ?length_take; lia).
  - rewrite lookup_app_r, lookup_app_l by (rewrite ?length_take; lia).
    f_equal. rewrite length_take. lia.
  - rewrite lookup_app_r, lookup_app_r, lookup_drop by (rewrite ?length_take; lia).
    f_equal. rewrite length_take. lia.
Qed.

(** ** The representation

    What is promised of the storage: [limit] bounds the items it can hold. *)
Class BufferLaws (B : Buffer) (limit : Z) := {
  limit_range : (0 <= limit <= 2 ^ 63)%Z;
  limit_dynamic : DYNAMIC = true -> POWERS_OF_TWO = true /\ limit = (2 ^ 63)%Z;
  limit_static : DYNAMIC = false -> (0 < limit)%Z /\ (POWERS_OF_TWO = true -> exists k, limit = (2 ^ Z.of_nat k)%Z);
}.

#[export] Instance dynamic_laws : BufferLaws DynamicBuffer (2 ^ 63).
Proof. by split. Qed.
#[export] Instance static_laws N : 0 < N -> (Z.of_nat N <= 2 ^ 63)%Z -> BufferLaws (StaticBuffer N) (Z.of_nat N).
Proof.
  intros HN H. split; [lia|done|]. intros _. split; [lia|].
  cbn [POWERS_OF_TWO StaticBuffer]. unfold is_power_of_two. intros E%Z.eqb_eq.
  exists (Z.to_nat (Z.log2 (Z.of_nat N))). rewrite Z2Nat.id by apply Z.log2_nonneg. done.
Qed.

Definition slot (len h i : nat) : nat := if h + i <? len then h + i else h + i - len.

Section Representation.
Context {T : Type} {B : Buffer} {limit : Z} {L : BufferLaws B limit}.
Implicit Types (self : LinearFifo T) (q src : list T) (l : list (option T)).

Definition size_ok (len : nat) : Prop :=
  (Z.of_nat len <= limit)%Z /\ (DYNAMIC = false -> Z.of_nat len = limit)
  /\ (POWERS_OF_TWO = true -> len = 0 \/ exists k, Z.of_nat len = (2 ^ Z.of_nat k)%Z).

(** The live slots of the buffer, in order, are [l]. *)
Record live self l : Prop := {
  live_count : count self = length l;
  live_len : length l <= buf_len self;
  live_head : head self < buf_len self \/ (buf_len self = 0 /\ head self = 0);
  live_size : size_ok (buf_len self);
  live_slot : forall i o, l !! i = Some o -> buf self !! slot (buf_len self) (head self) i = Some o;
}.

(** They were all written: the fifo represents the queue [q]. *)
Definition holds self q : Prop := live self (Some <$> q).

Lemma wrap_index_ok self i :
  size_ok (buf_len self) ->
  i < 2 * buf_len self \/ (buf_len self = 0 /\ i = 0) ->
  wrap_index i (buf_len self) = Some (slot (buf_len self) i 0).
Proof.
  intros (Hl & Hs & Hp) Hi. unfold wrap_index, slot. rewrite Nat.add_0_r.
  pose proof limit_range. set (len := buf_len self) in *.
  destruct POWERS_OF_TWO eqn:EP; cycle 1.
  { destruct DYNAMIC eqn:ED; [by destruct (limit_dynamic ED); congruence|].
    destruct (limit_static ED), (Nat.eqb_spec len 0); [lia..|].
    destruct (Nat.ltb_spec i len); [by rewrite Nat.mod_small|].
    f_equal. symmetry. apply (Nat.mod_unique _ _ 1); lia. }
  destruct (Hp eq_refl) as [E|[k E]].
  { rewrite E in *. destruct Hi as [|[_ ->]]; [lia|]. done. }
  rewrite E, wrap64_small by (unfold is_u64; lia).
  rewrite Z.sub_1_r, <- Z.ones_equiv, Z.land_ones by lia. rewrite <- E.
  rewrite <- Nat2Z.inj_mod, Nat2Z.id.
  destruct Hi as [Hi|[]]; [|lia].
  destruct (Nat.ltb_spec i len); [by rewrite Nat.mod_small|].
  f_equal. symmetry. apply (Nat.mod_unique _ _ 1); lia.
Qed.

(** Case analysis on the comparisons that positions in the ring are made of. *)
Ltac ring_cases :=
  repeat match goal with
  | |- context [Nat.ltb ?a ?b] => destruct (Nat.ltb_spec a b)
  | |- context [Nat.leb ?a ?b] => destruct (Nat.leb_spec a b)
  | |- context [Nat.eqb ?a ?b] => destruct (Nat.eqb_spec a b)
  end.

Ltac open_live H :=
  let Hc := fresh "Hcount" in let Hl := fresh "Hlen" in let Hh := fresh "Hhead" in
  let Hz := fresh "Hsize" in
  pose proof (live_count _ _ H) as Hc; pose proof (live_len _ _ H) as Hl;
  pose proof (live_head _ _ H) as Hh; pose proof (live_size _ _ H) as Hz; unfold buf_len in *.

(** The slot of an item, read in the old buffer. *)
Ltac read_slot H Hi :=
  let Hlt := fresh "Hlt" in let Hs := fresh "Hs" in
  pose proof (lookup_lt_Some _ _ _ Hi) as Hlt; pose proof (live_slot _ _ H _ _ Hi) as Hs;
  unfold buf_len, slot in *; revert Hs; ring_cases; try lia; intros Hs.

Lemma realign_ok self l :
  live self l -> exists self', realign self = Some self' /\ live self' l
    /\ head self' = 0 /\ buf_len self' = buf_len self.
Proof.
  intros H. open_live H. unfold realign, buf_len. destruct (Nat.leb_spec (count self) (length (buf self) - head self)).
  - destruct (slice_range_def (buf self) (head self) (head self + count self)) as [m Hm]; [lia..|].
    rewrite Hm. cbn [mbind option_bind].
    apply slice_range_lookup in Hm as (_ & _ & Hm & Hget).
    destruct (copy_into_lookup (buf self) m 0) as (d & -> & Hd & _ & Hmid & _); [lia|].
    cbn [mbind option_bind]. eexists. split; [done|]. splits; [|done..].
    split; cbn [count head buf buf_len]; unfold buf_len; cbn [buf]; rewrite ?Hd; [lia..|done|].
    intros i o Hi. read_slot H Hi. by rewrite Hmid, Nat.sub_0_r, Hget by lia.
  - rewrite slice_from_Some, slice_range_Some by lia. cbn [mbind option_bind]. rewrite Nat.sub_0_r, drop_0.
    eexists. split; [done|]. unfold buf_len; cbn [buf].
    assert (Hd : length (drop (head self) (buf self) ++ take (head self) (buf self)) = length (buf self)).
    { rewrite length_app, length_take, length_drop. lia. }
    splits; [|done..].
    split; cbn [count head]; unfold buf_len; cbn [buf]; rewrite ?Hd; [lia..|done|].
    intros i o Hi. read_slot H Hi.
    + rewrite lookup_app_l, lookup_drop; [done|]. rewrite length_drop. lia.
    + rewrite lookup_app_r; rewrite length_drop; [|lia].
      rewrite lookup_take_lt by lia. rewrite <- Hs. f_equal. lia.
Qed.

(** Room for [total] items is made when that is within the limit, and is refused
    otherwise; the queue stays as it is. *)
Definition ensured l (total : nat) (room : LinearFifo T -> Prop)
    (res : option (LinearFifo T * result AllocErrorT unit)) : Prop :=
  exists self' r, res = Some (self', r) /\ live self' l
    /\ if (Z.of_nat total <=? limit)%Z then r = Ok tt /\ room self' else r = Err AllocError.

Lemma next_power_of_two_ok size :
  (Z.of_nat size <= 2 ^ 63)%Z ->
  exists n k, checked_next_power_of_two size = Some n /\ Z.of_nat n = (2 ^ Z.of_nat k)%Z
    /\ size <= n /\ (Z.of_nat n <= 2 ^ 63)%Z.
Proof.
  intros H. unfold checked_next_power_of_two.
  pose proof (Z.log2_up_nonneg (Z.of_nat size)) as H0.
  assert (Z.log2_up (Z.of_nat size) <= 63)%Z as H63.
  { rewrite <- (Z.log2_up_pow2 63) by lia. by apply Z.log2_up_le_mono. }
  assert (Z.of_nat size <= 2 ^ Z.log2_up (Z.of_nat size))%Z as Hle.
  { destruct (decide (size = 0)) as [->|]; [done|].
    destruct (decide (size = 1)) as [->|]; [done|]. apply Z.log2_up_spec. lia. }
  pose proof (Z.pow_le_mono_r 2 _ _ eq_refl H63) as Hp.
  destruct (Z.leb_spec (2 ^ Z.log2_up (Z.of_nat size)) u64_max); [|lia].
  eexists _, (Z.to_nat (Z.log2_up (Z.of_nat size))). split; [done|].
  rewrite !Z2Nat.id by lia. splits; [done|lia|done].
Qed.

Lemma next_power_of_two_overflow size :
  (2 ^ 63 < Z.of_nat size)%Z -> checked_next_power_of_two size = None.
Proof.
  intros H. unfold checked_next_power_of_two.
  assert (64 <= Z.log2_up (Z.of_nat size))%Z as H64.
  { destruct (Z.le_gt_cases 64 (Z.log2_up (Z.of_nat size))); [done|].
    assert (Z.of_nat size <= 2 ^ 63)%Z; [|lia]. apply Z.log2_up_le_pow2; lia. }
  pose proof (Z.pow_le_mono_r 2 _ _ eq_refl H64) as Hp.
  destruct (Z.leb_spec (2 ^ Z.log2_up (Z.of_nat size)) u64_max); [lia|done].
Qed.

(** Growing moves the items of a realigned fifo to a larger buffer. *)
Lemma regrow_ok self l n :
  live self l -> head self = 0 -> length (buf self) <= n -> size_ok n ->
  exists b, (if 0 <? count self
             then old ← slice_range (buf self) 0 (count self); copy_into (replicate n None) 0 old
             else Some (replicate n None)) = Some b
    /\ length b = n /\ live (Build_LinearFifo b 0 (count self)) l.
Proof.
  intros H H0 Hn Hok. open_live H.
  destruct (slice_range_def (buf self) 0 (count self)) as [old Hold]; [lia..|].
  pose proof (slice_range_lookup _ _ _ _ Hold) as (_ & _ & Hol & Hget).
  destruct (copy_into_lookup (replicate n None) old 0) as (d & Ed & Hd & _ & Hmid & _);
    [rewrite length_replicate; lia|]. rewrite length_replicate in Hd.
  rewrite Hold. cbn [mbind option_bind]. rewrite Ed.
  assert (forall b, length b = n -> (forall i, i < count self -> b !! i = buf self !! i) ->
    length b = n /\ live (Build_LinearFifo b 0 (count self)) l) as Hlive.
  { intros b Hb Heq. split; [done|].
    split; cbn [count head]; unfold buf_len; cbn [buf]; rewrite ?Hb; [lia..|done|].
    intros i o Hi. read_slot H Hi. rewrite Heq by lia. rewrite <- Hs. f_equal. lia. }
  destruct (Nat.ltb_spec 0 (count self)); eexists; (split; [done|]); apply Hlive.
  - done.
  - intros i Hi. by rewrite Hmid, Nat.sub_0_r, Hget by lia.
  - apply length_replicate.
  - lia.
Qed.

Lemma ensure_total_ok self l size :
  live self l -> ensured l size (fun self' => size <= buf_len self') (ensure_total_capacity self size).
Proof.
  intros H. unfold ensure_total_capacity, ensured. pose proof limit_range.
  pose proof (live_size _ _ H) as (Hlim & Hst & Hp).
  destruct (Nat.leb_spec size (buf_len self)).
  { eexists self, _. splits; [done|done|]. by destruct (Z.leb_spec (Z.of_nat size) limit); [|lia]. }
  destruct DYNAMIC eqn:ED; cycle 1.
  { eexists self, _. splits; [done|done|].
    destruct (Z.leb_spec (Z.of_nat size) limit); [specialize (Hst eq_refl); lia|done]. }
  destruct (limit_dynamic ED) as [HP HL]. rewrite HP.
  destruct (realign_ok self l H) as (s1 & -> & Hl1 & Hh1 & Hb1). cbn [mbind option_bind].
  destruct (Z.leb_spec (Z.of_nat size) limit); cycle 1.
  { rewrite next_power_of_two_overflow by lia. by eexists s1, _. }
  destruct (next_power_of_two_ok size) as (n & k & -> & Hn & Hsz & Hmax); [lia|].
  destruct (regrow_ok s1 l n Hl1 Hh1) as (b & -> & Hb & Hlive).
  { unfold buf_len in *. lia. }
  { split; [lia|]. split; [congruence|]. intros _. right. by exists k. }
  cbn [mbind option_bind]. eexists _, _. splits; [done|done|done|]. unfold buf_len; cbn [buf]. lia.
Qed.

Lemma ensure_unused_ok self l size :
  live self l ->
  ensured l (length l + size) (fun self' => size <= writable_length self') (ensure_unused_capacity self size).
Proof.
  intros H. open_live H. pose proof limit_range. destruct Hsize as (Hlim & _).
  unfold ensure_unused_capacity, writable_length, checked_add64, buf_len.
  destruct (Nat.leb_spec size (length (buf self) - count self)).
  { eexists self, _. splits; [done|done|].
    destruct (Z.leb_spec (Z.of_nat (length l + size)) limit); [done|lia]. }
  rewrite <- Nat2Z.inj_add, Hcount.
  destruct (Z.leb_spec (Z.of_nat (length l + size)) u64_max); cycle 1.
  { eexists self, _. splits; [done|done|].
    destruct (Z.leb_spec (Z.of_nat (length l + size)) limit); [lia|done]. }
  rewrite Nat2Z.id. destruct (ensure_total_ok self l (length l + size) H) as (s' & r & E & Hl & Hr).
  eexists s', r. splits; [done|done|]. pose proof (live_count _ _ Hl). unfold buf_len in *.
  destruct (Z.leb_spec (Z.of_nat (length l + size)) limit); [|done].
  destruct Hr as [-> Hr]. split; [done|]. lia.
Qed.

(** ** Reading *)
Lemma readable_slice_ok self l offset :
  live self l -> offset <= length l ->
  exists start n, readable_range self offset = (start, start + n)
    /\ readable_slice self offset = Some (take n (drop offset l))
    /\ n <= length l - offset /\ (offset < length l -> 0 < n)
    /\ start + n <= buf_len self
    /\ (0 < n -> forall i, i < n -> slot (buf_len self) (head self) (offset + i) = start + i).
Proof.
  intros H Ho. open_live H. unfold readable_slice, readable_range, buf_len.
  destruct (Nat.ltb_spec (count self) offset); [lia|].
  assert (forall start n, start + n <= length (buf self) -> n <= length l - offset ->
    (forall i, i < n -> slot (length (buf self)) (head self) (offset + i) = start + i) ->
    slice_range (buf self) start (start + n) = Some (take n (drop offset l))) as Hslice.
  { intros start n Hsn Hn Hslot. rewrite slice_range_Some by lia. f_equal.
    apply list_eq. intros i. destruct (decide (i < n)).
    - rewrite !lookup_take_lt, !lookup_drop by lia.
      destruct (lookup_lt_is_Some_2 l (offset + i)) as [o Hi]; [lia|].
      rewrite Hi. pose proof (live_slot _ _ H _ _ Hi) as Hs. unfold buf_len in Hs. by rewrite Hslot in Hs by lia.
    - rewrite !lookup_take_ge by lia. done. }
  destruct (Nat.leb_spec (length (buf self)) (head self + offset)).
  - exists (head self + offset - length (buf self)), (count self - offset).
    splits; [done| |lia..|]; [apply Hslice; [lia..|]|intros _]; intros i Hi; unfold slot; ring_cases; lia.
  - exists (head self + offset), (Nat.min (count self) (length (buf self) - head self) - offset).
    replace (head self + offset + (Nat.min (count self) (length (buf self) - head self) - offset))
      with (Nat.min (head self + count self) (length (buf self))) by lia.
    splits; [done| |lia..|].
    + replace (Nat.min (head self + count self) (length (buf self))) with
        (head self + offset + (Nat.min (count self) (length (buf self) - head self) - offset)) by lia.
      apply Hslice; [lia..|]. intros i Hi. unfold slot. ring_cases; lia.
    + intros _ i Hi. unfold slot. ring_cases; lia.
Qed.

Lemma discard_ok self l n :
  live self l -> n <= length l -> exists self', discard self n = Some self' /\ live self' (drop n l).
Proof.
  intros H Hn. pose proof (live_size _ _ H). open_live H. unfold discard.
  destruct (Nat.leb_spec n (count self)); [|lia].
  rewrite wrap_index_ok by (first [done | unfold buf_len; lia]). cbn [mbind option_bind].
  eexists. split; [done|]. unfold buf_len.
  split; cbn [count head]; unfold buf_len; cbn [buf]; rewrite ?length_drop; unfold slot; [lia..| |done|].
  - ring_cases; lia.
  - intros i o Hi. rewrite lookup_drop in Hi. read_slot H Hi; rewrite <- Hs; f_equal; lia.
Qed.

Lemma read_item_ok self q :
  holds self q ->
  exists self', read_item self = Some (self', Some <$> q !! 0) /\ holds self' (drop 1 q).
Proof.
  intros H. unfold read_item. pose proof (live_count _ _ H) as Hc. rewrite length_fmap in Hc.
  destruct q as [|x q]; [by rewrite Hc; exists self|]. rewrite Hc. cbn [length Nat.eqb lookup list_lookup].
  pose proof (live_slot _ _ H 0 (Some x) eq_refl) as Hs. open_live H.
  rewrite length_fmap in Hlen. cbn [length] in Hlen.
  assert (slot (length (buf self)) (head self) 0 = head self) as E by (unfold slot; ring_cases; lia).
  rewrite E in Hs.
  rewrite Hs. cbn [mbind option_bind].
  destruct (discard_ok self _ 1 H) as (self' & -> & H'); [cbn; lia|].
  exists self'. split; [done|]. by rewrite <- fmap_drop in H'.
Qed.

Lemma read_ok self q total :
  holds self q ->
  exists self', read self total = Some (self', Some <$> take total q) /\ holds self' (drop total q).
Proof.
  intros H. unfold read.
  edestruct (run_loop_rule (@read_step T B)
    (fun st => exists s k, st = Some (s, total - k, Some <$> take k q) /\ holds s (drop k q) /\ k <= total)
    (fun r => exists s, r = Some (s, Some <$> take total q) /\ holds s (drop total q))
    (fun st => match st with Some (_, room, _) => room | None => 0 end)) as (r & -> & s' & -> & Hs').
  4: { by eexists. }
  - intros st (s & k & -> & Hs & Hk). unfold read_step.
    destruct (Nat.eqb_spec (total - k) 0).
    { exists s. replace total with k by lia. done. }
    destruct (readable_slice_ok s _ 0 Hs) as (start & w & _ & -> & Hn & Hpos & _); [lia|].
    rewrite drop_0, length_fmap, length_drop in *.
    destruct (take w _) as [|o slice] eqn:E.
    + apply (f_equal length) in E. rewrite length_take, length_fmap, length_drop in E. cbn in E.
      exists s. rewrite (take_ge q total), (drop_ge q total) by lia.
      rewrite (take_ge q k), (drop_ge q k) in * by lia. done.
    + rewrite <- E. rewrite length_take, length_fmap, length_drop.
      apply (f_equal length) in E. rewrite length_take, length_fmap, length_drop in E. cbn in E.
      set (m := Nat.min (Nat.min w (length q - k)) (total - k)).
      destruct (discard_ok s _ m Hs) as (s2 & -> & Hs2); [rewrite length_fmap, length_drop; lia|].
      cbn [mbind option_bind]. split; [|lia].
      exists s2, (k + m). split; [|split; [|lia]].
      * rewrite take_take, <- fmap_take, <- fmap_app, Nat.sub_add_distr.
        replace (Nat.min m w) with m by lia. by rewrite take_take_drop.
      * by rewrite <- fmap_drop, drop_drop in Hs2.
  - exists self, 0. rewrite Nat.sub_0_r, drop_0, take_0. splits; [done|done|lia].
  - lia.
Qed.

(** ** Writing *)
Lemma writable_range_ok self l :
  live self l ->
  exists start n, writable_range self 0 = Some (start, start + n)
    /\ n <= buf_len self - length l /\ (length l < buf_len self -> 0 < n) /\ start + n <= buf_len self
    /\ (forall i, i < n -> slot (buf_len self) (head self) (length l + i) = start + i)
    /\ (head self = 0 -> n = buf_len self - length l).
Proof.
  intros H. open_live H. unfold writable_range, slot, buf_len. rewrite Nat.sub_0_r, Nat.add_0_r.
  destruct (Nat.ltb_spec (length (buf self)) 0); [lia|].
  destruct (Nat.ltb_spec (head self + count self) (length (buf self))).
  - exists (head self + count self), (length (buf self) - (head self + count self)).
    splits; [do 2 f_equal; lia|lia..| |lia]. intros i Hi. ring_cases; lia.
  - eexists _, _. splits; [done|lia..| |lia]. intros i Hi. ring_cases; lia.
Qed.

(** A write to the slots from the [o]-th on. *)
Lemma write_range_ok self l start n src o :
  live self l -> start + n <= buf_len self -> length src <= n -> o + length src <= buf_len self ->
  (forall i, i < length src -> slot (buf_len self) (head self) (o + i) = start + i) ->
  exists self', write_range self (start, start + n) src = Some self'
    /\ head self' = head self /\ count self' = count self /\ buf_len self' = buf_len self
    /\ (forall i, i < length src -> buf self' !! slot (buf_len self) (head self) (o + i) = Some (src !! i))
    /\ (forall i, i < buf_len self -> i < o \/ o + length src <= i ->
          buf self' !! slot (buf_len self) (head self) i = buf self !! slot (buf_len self) (head self) i).
Proof.
  intros H Hsn Hsrc Ho Hslot. open_live H. unfold write_range.
  rewrite slice_range_Some by lia. cbn [mbind option_bind].
  destruct (Nat.leb_spec (length src) (start + n - start)); [|lia].
  destruct (copy_into_lookup (buf self) (Some <$> src) start) as (d & -> & Hd & Hlo & Hmid & Hhi);
    rewrite length_fmap in *; [lia|].
  cbn [mbind option_bind]. eexists. split; [done|]. cbn [head count]. unfold buf_len; cbn [buf].
  splits; [done..| |].
  - intros i Hi. rewrite Hslot by done. rewrite Hmid by lia. rewrite list_lookup_fmap.
    replace (start + i - start) with i by lia. destruct (lookup_lt_is_Some_2 src i Hi) as [x ->]. done.
  - intros i Hi Hout. destruct (decide (src = [])) as [->|Hne].
    { cbn [length] in *. destruct (decide (slot (length (buf self)) (head self) i < start)); [by apply Hlo|]. apply Hhi. lia. }
    assert (0 < length src) by (destruct src; cbn; [done|lia]).
    pose proof (Hslot 0 ltac:(lia)) as Hs0. pose proof (Hslot (length src - 1) ltac:(lia)) as Hs1.
    assert (slot (length (buf self)) (head self) i < start
      \/ start + length src <= slot (length (buf self)) (head self) i) as [|]; [|by apply Hlo|by apply Hhi].
    revert Hs0 Hs1. unfold slot. ring_cases; lia.
Qed.

Lemma append_range_ok self l start n src :
  live self l -> writable_range self 0 = Some (start, start + n) -> length src <= n ->
  exists s1 s2, write_range self (start, start + n) src = Some s1 /\ update s1 (length src) = Some s2
    /\ live s2 (l ++ (Some <$> src)) /\ buf_len s2 = buf_len self.
Proof.
  intros H Hw Hn. destruct (writable_range_ok self l H) as (start' & n' & Hw' & Hroom & _ & Hsn & Hslot & _).
  rewrite Hw' in Hw. injection Hw as -> Hn'. assert (n' = n) as -> by lia. open_live H.
  destruct (write_range_ok self l start n src (length l) H) as (s1 & E1 & Hh1 & Hc1 & Hb1 & Hnew & Hold);
    unfold buf_len in *; [lia..|intros i Hi; apply Hslot; lia|].
  exists s1. rewrite E1. unfold update, buf_len. rewrite Hc1, Hb1.
  destruct (Nat.leb_spec (count self + length src) (length (buf self))); [|lia].
  eexists. splits; [done|done| |by unfold buf_len; cbn [buf]].
  split; cbn [count head]; unfold buf_len; cbn [buf]; rewrite ?length_app, ?length_fmap, ?Hb1, ?Hh1; [lia..|done|].
  intros i o [Hi|[Hge Hi]]%lookup_app_Some.
  - pose proof (lookup_lt_Some _ _ _ Hi). rewrite Hold by lia. exact (live_slot _ _ H _ _ Hi).
  - pose proof (lookup_lt_Some _ _ _ Hi) as Hlt. rewrite length_fmap in Hlt.
    replace i with (length l + (i - length l)) by lia. rewrite Hnew by lia.
    rewrite list_lookup_fmap in Hi. destruct (src !! (i - length l)); [by injection Hi as <-|done].
Qed.

Lemma write_assume_capacity_ok self l src :
  live self l -> length src <= writable_length self ->
  exists self', write_assume_capacity self src = Some self' /\ live self' (l ++ (Some <$> src)).
Proof.
  intros H Hroom. unfold write_assume_capacity.
  destruct (Nat.leb_spec (length src) (writable_length self)); [|lia].
  edestruct (run_loop_rule (@write_step T)
    (fun st => exists s k, st = Some (s, drop k src) /\ live s (l ++ (Some <$> take k src))
       /\ length l + length src <= buf_len s /\ k <= length src)
    (fun r => exists s, r = Some s /\ live s (l ++ (Some <$> src)))
    (fun st => match st with Some (_, rest) => length rest | None => 0 end)) as (r & -> & s' & -> & Hs').
  4: { by eexists. }
  - intros st (s & k & -> & Hs & Hlen & Hk). unfold write_step. rewrite !length_drop.
    destruct (Nat.eqb_spec (length src - k) 0).
    { exists s. rewrite take_ge in Hs by lia. done. }
    destruct (writable_range_ok s _ Hs) as (start & w & Hw & Hmax & Hpos & Hsn & _).
    rewrite length_app, length_fmap, length_take in *.
    rewrite Hw. cbn [mbind option_bind].
    replace (start + w - start) with w by lia.
    destruct (Nat.eqb_spec w 0); [lia|]. cbn [mbind option_bind].
    set (m := Nat.min w (length src - k)).
    destruct (append_range_ok s _ start w (take m (drop k src)) Hs Hw) as (s1 & s2 & -> & Hu & Hlive & Hb2).
    { rewrite length_take. lia. }
    cbn [mbind option_bind]. rewrite length_take, length_drop in Hu. replace (Nat.min m (length src - k)) with m in Hu by lia.
    rewrite Hu. cbn [mbind option_bind]. split; [|rewrite !length_drop; lia].
    exists s2, (k + m). rewrite drop_drop. splits; [done| |lia..].
    by rewrite <- app_assoc, <- fmap_app, take_take_drop in Hlive.
  - exists self, 0. rewrite drop_0, take_0, app_nil_r. open_live H. unfold writable_length, buf_len in *. splits; [done|done|lia..].
  - lia.
Qed.

(** An operation that makes room for [total] items and then turns the live slots
    from [l] to [l']. *)
Definition grows {R} (total : nat) l l' (ok : R) (res : option (LinearFifo T * result AllocErrorT R)) : Prop :=
  exists self', if (Z.of_nat total <=? limit)%Z
    then res = Some (self', Ok ok) /\ live self' l'
    else res = Some (self', Err AllocError) /\ live self' l.

Lemma grows_after {R} self l l' size (ok : R) k :
  live self l ->
  (forall s, live s l -> size <= writable_length s -> exists s', k s = Some (s', Ok ok) /\ live s' l') ->
  grows (length l + size) l l' ok
    ('(self, r) ← ensure_unused_capacity self size;
     match r with Err e => Some (self, Err e) | Ok _ => k self end).
Proof.
  intros H Hk. destruct (ensure_unused_ok self l size H) as (s & r & -> & Hs & Hr).
  unfold grows. cbn [mbind option_bind]. destruct (Z.leb_spec (Z.of_nat (length l + size)) limit).
  - destruct Hr as [-> Hroom]. destruct (Hk s Hs Hroom) as (s' & -> & Hs'). by exists s'.
  - subst r. by exists s.
Qed.

Lemma write_ok self l src :
  live self l -> grows (length l + length src) l (l ++ (Some <$> src)) tt (write self src).
Proof.
  intros H. unfold write. eapply (grows_after self l _ _ tt); [done|]. intros s Hs Hroom.
  destruct (write_assume_capacity_ok s l src Hs Hroom) as (s' & -> & Hs'). by exists s'.
Qed.

Lemma write_range_one self start x s1 :
  write_range self (start, start + 1) [x] = Some s1 ->
  copy_into (buf self) start [Some x] = Some (buf s1) /\ s1 = Build_LinearFifo (buf s1) (head self) (count self).
Proof.
  unfold write_range. destruct (slice_range _ _ _); [|done]. cbn [mbind option_bind].
  destruct (_ <=? _); [|done]. cbn [fmap list_fmap].
  destruct (copy_into _ _ _); [|done]. by intros [= <-].
Qed.

Lemma write_range_narrow self start m n src :
  length src <= m -> m <= n -> start + n <= buf_len self ->
  write_range self (start, start + n) src = write_range self (start, start + m) src.
Proof.
  intros Hs Hm Hn. unfold write_range. unfold buf_len in *. rewrite !slice_range_Some by lia.
  cbn [mbind option_bind].
  by destruct (Nat.leb_spec (length src) (start + n - start)), (Nat.leb_spec (length src) (start + m - start)); [|lia..|].
Qed.

(** The position that the mask or the remainder gives, is the slot. *)
Lemma wrap_slot self l i :
  live self l -> i < buf_len self ->
  wrap_index (head self + i) (buf_len self) = Some (slot (buf_len self) (head self) i)
  /\ slot (buf_len self) (head self) i < buf_len self.
Proof.
  intros H Hi. pose proof (live_head _ _ H). rewrite wrap_index_ok by (first [apply H | lia]).
  unfold slot. rewrite Nat.add_0_r. split; [done|]. ring_cases; lia.
Qed.

Lemma write_item_assume_capacity_ok self l x :
  live self l -> 1 <= writable_length self ->
  exists self', write_item_assume_capacity self x = Some self' /\ live self' (l ++ [Some x]).
Proof.
  intros H Hroom. destruct (writable_range_ok self l H) as (start & n & Hw & Hmax & Hpos & Hsn & Hslot & _).
  pose proof (live_count _ _ H) as Hc. unfold writable_length in Hroom.
  destruct (append_range_ok self l start n [x] H Hw) as (s1 & s2 & E1 & E2 & Hs2 & _); [cbn; lia|].
  unfold write_item_assume_capacity. rewrite Hc.
  destruct (wrap_slot self l (length l) H) as [-> _]; [lia|]. cbn [mbind option_bind].
  pose proof (Hslot 0 ltac:(lia)) as E. rewrite !Nat.add_0_r in E. rewrite E.
  rewrite (write_range_narrow _ _ 1) in E1 by (cbn [length]; lia).
  apply write_range_one in E1 as [-> Es]. cbn [mbind option_bind].
  rewrite Hc in Es. rewrite <- Es. exists s2. by split.
Qed.

Lemma write_item_ok self l x :
  live self l -> grows (length l + 1) l (l ++ [Some x]) tt (write_item self x).
Proof.
  intros H. unfold write_item. eapply (grows_after self l _ _ tt); [done|]. intros s Hs Hroom.
  destruct (write_item_assume_capacity_ok s l x Hs Hroom) as (s' & -> & Hs'). by exists s'.
Qed.

Lemma overwrite_ok self l start n src o :
  live self l -> start + n <= buf_len self -> length src <= n -> o + length src <= length l ->
  (forall i, i < length src -> slot (buf_len self) (head self) (o + i) = start + i) ->
  exists self', write_range self (start, start + n) src = Some self'
    /\ live self' (take o l ++ (Some <$> src) ++ drop (o + length src) l)
    /\ head self' = head self /\ buf_len self' = buf_len self.
Proof.
  intros H Hsn Hn Ho Hslot. pose proof (live_size _ _ H) as Hz. open_live H.
  destruct (write_range_ok self l start n src o H) as (s1 & E1 & Hh1 & Hc1 & Hb1 & Hnew & Hold);
    unfold buf_len in *; [lia..|done|].
  exists s1. splits; [done| |done..]. unfold buf_len.
  split; unfold buf_len; rewrite ?length_app, ?length_take, ?length_drop, ?length_fmap, ?Hb1, ?Hh1, ?Hc1; [lia..|done|].
  intros i ox Hi. assert (i < length l) as Hil.
  { apply lookup_lt_Some in Hi. rewrite !length_app, length_take, length_drop, length_fmap in Hi. lia. }
  destruct (decide (i < o)) as [Hio|].
  { rewrite lookup_app_l, lookup_take_lt in Hi by (rewrite ?length_take; lia).
    rewrite Hold by lia. exact (live_slot _ _ H _ _ Hi). }
  rewrite lookup_app_r in Hi by (rewrite length_take; lia). rewrite length_take in Hi.
  replace (i - o `min` length l) with (i - o) in Hi by lia.
  destruct (decide (i - o < length src)).
  - rewrite lookup_app_l, list_lookup_fmap in Hi by (rewrite length_fmap; lia).
    replace i with (o + (i - o)) by lia. rewrite Hnew by lia.
    destruct (src !! (i - o)); [by injection Hi as <-|done].
  - rewrite lookup_app_r, length_fmap, lookup_drop in Hi by (rewrite length_fmap; lia).
    rewrite Hold by lia. apply (live_slot _ _ H). rewrite <- Hi. f_equal. lia.
Qed.

Lemma rewind_ok self l n :
  live self l -> n <= writable_length self ->
  exists self' junk, rewind self n = Some self' /\ live self' (junk ++ l) /\ length junk = n.
Proof.
  intros H Hn. pose proof (live_size _ _ H) as Hz. open_live H. unfold rewind.
  destruct (Nat.leb_spec n (writable_length self)) as [Hroom|]; [|lia]. unfold writable_length, buf_len in Hroom.
  rewrite wrap_index_ok by (first [done | unfold buf_len; lia]). unfold buf_len. cbn [mbind option_bind].
  set (h := slot (length (buf self)) (head self + (length (buf self) - n)) 0).
  assert (h < length (buf self) \/ length (buf self) = 0 /\ h = 0) as Hh by (unfold h, slot; ring_cases; lia).
  exists (Build_LinearFifo (buf self) h (count self + n)),
    ((fun i => default None (buf self !! slot (length (buf self)) h i)) <$> seq 0 n).
  splits; [done| |by rewrite length_fmap, length_seq].
  split; cbn [count head]; unfold buf_len; cbn [buf]; rewrite ?length_app, ?length_fmap, ?length_seq; [lia..|done|].
  intros i o [Hi|[Hge Hi]]%lookup_app_Some.
  - apply list_lookup_fmap_Some in Hi as (k & -> & [-> Hk]%lookup_seq). cbn [Nat.add].
    destruct (lookup_lt_is_Some_2 (buf self) (slot (length (buf self)) h i)) as [x E].
    { unfold slot in *. ring_cases; lia. }
    by rewrite E.
  - rewrite length_fmap, length_seq in *. unfold h in *. read_slot H Hi; rewrite <- Hs; f_equal; lia.
Qed.

(** What does not fit in front of the end of the buffer continues at its start. *)
Lemma readable_rest self l start n :
  live self l -> readable_range self 0 = (start, start + n) -> n < length l ->
  exists start', readable_range self n = (start', start' + (length l - n)).
Proof.
  intros H. open_live H. unfold readable_range, buf_len.
  destruct (Nat.ltb_spec (count self) 0); [lia|]. rewrite Nat.add_0_r.
  destruct (Nat.leb_spec (length (buf self)) (head self)); intros [= <- E] Hn; [lia|].
  destruct (Nat.ltb_spec (count self) n); [lia|].
  destruct (Nat.leb_spec (length (buf self)) (head self + n)); [|lia].
  eexists. by rewrite Hcount.
Qed.

Lemma unget_ok self l src :
  live self l -> grows (length l + length src) l ((Some <$> src) ++ l) tt (unget self src).
Proof.
  intros H. unfold unget. eapply (grows_after self l _ _ tt); [done|]. intros s Hs Hroom.
  destruct (rewind_ok s l (length src) Hs Hroom) as (s1 & junk & -> & H1 & Hj). cbn [mbind option_bind].
  destruct (readable_slice_ok s1 _ 0 H1) as (start & n & E & _ & Hn & Hpos & Hsn & Hslot); [lia|].
  rewrite E. replace (start + n - start) with n by lia. rewrite length_app in *.
  set (m := Nat.min n (length src)).
  destruct (overwrite_ok s1 _ start n (take m src) 0 H1) as (s2 & -> & H2 & Hh2 & Hb2);
    rewrite ?length_take, ?length_app; [lia..|intros i Hi; apply Hslot; lia|].
  cbn [mbind option_bind]. rewrite take_0, length_take in H2. cbn [app Nat.add] in H2.
  destruct (Nat.ltb_spec n (length src)); cycle 1.
  { exists s2. split; [done|]. revert H2. unfold m.
    rewrite take_ge, drop_app_ge by lia. replace (_ - length junk) with 0 by lia. by rewrite drop_0. }
  replace m with n in * by lia. replace (n `min` length src) with n in * by lia.
  assert (readable_range s2 0 = (start, start + n)) as E2.
  { revert E. unfold readable_range. rewrite Hh2, Hb2, (live_count _ _ H2), (live_count _ _ H1).
    rewrite !length_app, length_fmap, length_take, length_drop, length_app.
    by replace (n `min` length src + (length junk + length l - n)) with (length junk + length l) by lia. }
  assert (length ((Some <$> take n src) ++ drop n (junk ++ l)) = length src + length l) as Hlen.
  { rewrite !length_app, length_fmap, length_take, length_drop, length_app. lia. }
  destruct (readable_rest s2 _ start n H2 E2) as (start' & E3); [lia|].
  destruct (readable_slice_ok s2 _ n H2) as (start2 & n2 & E4 & _ & _ & _ & Hsn2 & Hslot2); [lia|].
  rewrite E3 in E4. injection E4 as <- E4. rewrite E3.
  assert (n2 = length src + length l - n) as -> by lia.
  destruct (overwrite_ok s2 _ start' (length src + length l - n) (drop n src) n H2) as (s3 & E5 & H3 & _);
    rewrite ?length_drop; [lia..|intros i Hi; apply Hslot2; lia|].
  rewrite Hlen. rewrite E5. exists s3. split; [done|]. revert H3.
  rewrite take_app_length' by (rewrite length_fmap, length_take; lia).
  rewrite length_drop, drop_app_ge by (rewrite length_fmap, length_take; lia).
  rewrite length_fmap, length_take, drop_drop, drop_app_ge by lia.
  replace (_ - length junk) with 0 by lia. rewrite drop_0.
  by rewrite app_assoc, <- fmap_app, take_drop.
Qed.

Lemma peek_item_ok self l offset o : live self l -> l !! offset = Some o -> peek_item self offset = Some o.
Proof.
  intros H Hi. pose proof (lookup_lt_Some _ _ _ Hi). pose proof (live_len _ _ H). unfold peek_item.
  rewrite (live_count _ _ H). destruct (Nat.ltb_spec offset (length l)); [|lia].
  destruct (wrap_slot self l offset H) as [-> _]; [lia|]. exact (live_slot _ _ H _ _ Hi).
Qed.

Lemma poke_item_ok self l offset x :
  live self l -> offset < length l ->
  exists self', poke_item self offset x = Some self' /\ live self' (<[offset := Some x]> l).
Proof.
  intros H Hi. pose proof (live_len _ _ H). unfold poke_item.
  rewrite (live_count _ _ H). destruct (Nat.ltb_spec offset (length l)); [|lia].
  destruct (wrap_slot self l offset H) as [-> Hb]; [lia|]. cbn [mbind option_bind].
  set (start := slot (buf_len self) (head self) offset) in *.
  destruct (overwrite_ok self l start 1 [x] offset H) as (s1 & E & Hs1 & _); cbn [length] in *; [lia..| |].
  { intros [|i] ?; [|lia]. by rewrite !Nat.add_0_r. }
  apply write_range_one in E as [-> Es]. cbn [mbind option_bind].
  rewrite (live_count _ _ H) in Es. rewrite <- Es. exists s1. split; [done|].
  rewrite insert_take_drop by done. by rewrite Nat.add_1_r in Hs1.
Qed.

Lemma shift_down_one_ok (b : list (option T)) start end_ :
  start < end_ -> end_ <= length b ->
  exists d, shift_down_one b start end_ = Some d /\ length d = length b
    /\ (forall j, j < start \/ end_ - 1 <= j -> d !! j = b !! j)
    /\ (forall j, start <= j < end_ - 1 -> d !! j = b !! S j).
Proof.
  intros Hs He. unfold shift_down_one. destruct (slice_range_def b start end_) as [sl Hsl]; [lia..|].
  rewrite Hsl. cbn [mbind option_bind]. apply slice_range_lookup in Hsl as (_ & _ & Hlen & Hget).
  destruct (Nat.ltb_spec 1 (length sl)); cycle 1.
  { exists b. splits; [done..|]. intros j Hj. lia. }
  destruct (copy_into_lookup b (drop 1 sl) start) as (d & -> & Hd & Hlo & Hmid & Hhi); rewrite length_drop in *; [lia|].
  exists d. splits; [done..| |].
  - intros j [Hj|Hj]; [by apply Hlo|apply Hhi; lia].
  - intros j Hj. rewrite Hmid, lookup_drop, Hget by lia. f_equal. lia.
Qed.

(** One item less: it is enough to say where the others are. *)
Lemma live_remove self l b offset :
  live self l -> offset < length l -> length b = buf_len self ->
  (forall i, i < offset -> b !! slot (buf_len self) (head self) i = buf self !! slot (buf_len self) (head self) i) ->
  (forall i, offset <= i -> S i < length l ->
    b !! slot (buf_len self) (head self) i = buf self !! slot (buf_len self) (head self) (S i)) ->
  live (Build_LinearFifo b (head self) (count self - 1)) (delete offset l).
Proof.
  intros H Ho Hb Hlo Hhi. pose proof (length_delete l offset (lookup_lt_is_Some_2 _ _ Ho)) as Hd. open_live H.
  split; cbn [count head]; unfold buf_len; cbn [buf]; rewrite ?Hb; [lia..|done|].
  intros i o Hi. destruct (decide (i < offset)).
  - rewrite list_lookup_delete_lt in Hi by done. rewrite Hlo by done. exact (live_slot _ _ H _ _ Hi).
  - rewrite list_lookup_delete_ge in Hi by lia. pose proof (lookup_lt_Some _ _ _ Hi).
    rewrite Hhi by lia. exact (live_slot _ _ H _ _ Hi).
Qed.

Lemma ordered_remove_item_ok self l offset :
  live self l -> offset < length l ->
  exists self', ordered_remove_item self offset = Some self' /\ live self' (delete offset l).
Proof.
  intros H Ho. unfold ordered_remove_item. pose proof (live_count _ _ H) as Hc.
  destruct (Nat.eqb_spec offset 0) as [->|Hne].
  { destruct l; [cbn in Ho; lia|]. apply (discard_ok _ _ 1 H). cbn. lia. }
  destruct (Nat.leb_spec (count self) offset); [lia|].
  pose proof (live_len _ _ H) as Hlen. pose proof (live_head _ _ H) as Hhead.
  destruct (Nat.leb_spec (count self) (buf_len self - head self)).
  { destruct (shift_down_one_ok (buf self) (head self + offset) (buf_len self)) as (d & -> & Hd & Hlo & Hhi);
      [unfold buf_len in *; lia..|]. cbn [mbind option_bind]. eexists. split; [done|].
    apply live_remove; [done..| |]; intros i Hi; [|intros Hi']; unfold slot; ring_cases; try lia.
    - apply Hlo. lia.
    - rewrite Hhi by lia. f_equal. lia. }
  destruct (wrap_slot self l offset H) as [-> Hslot]; [lia|]. cbn [mbind option_bind].
  set (index := slot (buf_len self) (head self) offset) in *.
  destruct (Nat.ltb_spec index (head self)) as [Hix|Hix].
  { assert (index = head self + offset - buf_len self /\ buf_len self <= head self + offset) as [Hix' Hwrap]
      by (revert Hix; unfold index, slot; ring_cases; lia). clearbody index.
    destruct (shift_down_one_ok (buf self) index (head self + count self - buf_len self)) as (d & -> & Hd & Hlo & Hhi);
      [unfold buf_len in *; lia..|].
    cbn [mbind option_bind]. eexists. split; [done|].
    apply live_remove; [done..| |]; intros i Hi; [|intros Hi']; unfold slot; ring_cases; try lia;
      first [apply Hlo; lia | rewrite Hhi by lia; f_equal; lia]. }
  destruct (shift_down_one_ok (buf self) index (buf_len self)) as (d1 & E1 & Hd1 & Hlo1 & Hhi1); [unfold buf_len in *; lia..|].
  destruct (lookup_lt_is_Some_2 (buf self) 0) as [wrap Hw]; [unfold buf_len in *; lia|].
  destruct (copy_into_lookup d1 [wrap] (buf_len self - 1)) as (d2 & E2 & Hd2 & Hlo2 & Hmid2 & _);
    cbn [length] in *; [unfold buf_len in *; lia|].
  destruct (shift_down_one_ok d2 0 (head self + count self - buf_len self)) as (d3 & E3 & Hd3 & Hlo3 & Hhi3);
    [unfold buf_len in *; lia..|].
  rewrite Hw. cbn [mbind option_bind]. rewrite E1. cbn [mbind option_bind]. rewrite E2. cbn [mbind option_bind].
  rewrite E3. cbn [mbind option_bind]. eexists. split; [done|].
  assert (index = head self + offset) as Hix' by (revert Hix; unfold index, slot; ring_cases; lia).
  apply live_remove; [done..|unfold buf_len in *; congruence| |].
  - intros i Hi. replace (slot (buf_len self) (head self) i) with (head self + i) by (unfold slot; ring_cases; lia).
    rewrite Hlo3, Hlo2, Hlo1 by lia. done.
  - intros i Hi Hi'. unfold slot. ring_cases; try lia.
    + rewrite Hlo3, Hlo2, Hhi1 by lia. f_equal. lia.
    + rewrite Hlo3, Hmid2 by lia. replace (_ - (buf_len self - 1)) with 0 by lia.
      replace (_ - buf_len self) with 0 by lia. by rewrite Hw.
    + rewrite Hhi3, Hlo2, Hlo1 by lia. f_equal. lia.
Qed.

Lemma reset_head_if_empty_ok self l : live self l -> live (reset_head_if_empty self) l.
Proof.
  intros H. open_live H. unfold reset_head_if_empty. destruct (Nat.eqb_spec (count self) 0); [|done].
  split; cbn [count head]; unfold buf_len; cbn [buf]; [lia..|done|].
  intros i o Hi%lookup_lt_Some. lia.
Qed.

(** A caller of [writable_with_size] that fills part of the slice and calls [update]. *)
Definition fill_writable self (size : nat) (data : list T) : option (LinearFifo T * result AllocErrorT unit) :=
  '(self, r) ← writable_with_size self size;
  match r with
  | Err e => Some (self, Err e)
  | Ok range => self ← write_range self range data; self ← update self (length data); Some (self, Ok tt)
  end.

Lemma fill_writable_ok self l size data :
  live self l -> length data <= size ->
  grows (length l + size) l (l ++ (Some <$> data)) tt (fill_writable self size data).
Proof.
  intros H Hd. unfold fill_writable, writable_with_size.
  destruct (ensure_unused_ok self l size H) as (s & r & -> & Hs & Hr). cbn [mbind option_bind].
  unfold grows. destruct (Z.leb_spec (Z.of_nat (length l + size)) limit); [|subst r; by exists s].
  destruct Hr as [-> Hroom]. unfold writable_length in Hroom.
  destruct (writable_range_ok s l Hs) as (start & n & E & _ & _ & Hsn & _). rewrite E. cbn [mbind option_bind].
  replace (start + n - start) with n by lia.
  assert (exists s1, (if n <? size then realign s else Some s) = Some s1 /\ live s1 l
    /\ exists start n, writable_range s1 0 = Some (start, start + n) /\ size <= n /\ start + n <= buf_len s1)
    as (s1 & -> & Hs1 & start1 & n1 & E1 & Hn1 & Hsn1).
  { destruct (Nat.ltb_spec n size).
    - destruct (realign_ok s l Hs) as (s1 & -> & Hs1 & Hh1 & Hb1). exists s1. splits; [done..|].
      destruct (writable_range_ok s1 l Hs1) as (st & m & Em & _ & _ & Hm & _ & Hfull). exists st, m.
      splits; [done| |done]. rewrite Hfull by done. rewrite Hb1, <- (live_count _ _ Hs). lia.
    - exists s. splits; [done..|]. by exists start, n. }
  cbn [mbind option_bind]. rewrite E1. cbn [mbind option_bind].
  destruct (Nat.leb_spec size (start1 + n1 - start1)); [|lia]. cbn [mbind option_bind].
  destruct (append_range_ok s1 l start1 n1 data Hs1 E1) as (s2 & s3 & E2 & E3 & Hs3 & _); [lia|].
  rewrite (write_range_narrow _ _ size) in E2 by lia. rewrite E2. cbn [mbind option_bind]. rewrite E3.
  by exists s3.
Qed.

Lemma io_write_ok self l src :
  live self l ->
  let src' := if DYNAMIC then src else take (Nat.min (length src) (Z.to_nat limit - length l)) src in
  grows (length l + length src') l (l ++ (Some <$> src')) (length src') (io_write self src).
Proof.
  intros H src'. unfold io_write.
  assert ((if DYNAMIC then src else take (length src `min` writable_length self) src) = src') as ->.
  { unfold src'. pose proof (live_size _ _ H) as (_ & Hst & _). destruct DYNAMIC; [done|].
    unfold writable_length. rewrite (live_count _ _ H). do 2 f_equal. rewrite <- Hst by done. lia. }
  destruct (write_ok self l src' H) as (s & Hs). exists s.
  destruct (_ <=? _)%Z; destruct Hs as [-> Hs]; by split.
Qed.

Lemma live_empty b : size_ok (length b) -> live (Build_LinearFifo b 0 0) [].
Proof.
  intros H. split; cbn [count head length]; unfold buf_len; cbn [buf]; [done|lia|lia|done|].
  intros i o Hi. by rewrite lookup_nil in Hi.
Qed.
End Representation.

(** ** The queue *)
Inductive Op (T : Type) :=
| Write (src : list T) | WriteItem (x : T) | Fill (size : nat) (data : list T) | IoWrite (src : list T)
| Unget (src : list T) | Read (n : nat) | ReadItem | Discard (n : nat) | Remove (offset : nat)
| Peek (offset : nat) | Poke (offset : nat) (x : T) | ResetHead | Reserve (size : nat) | Lengths.
Arguments Write {T} _. Arguments WriteItem {T} _. Arguments Fill {T} _ _. Arguments IoWrite {T} _.
Arguments Unget {T} _. Arguments Read {T} _. Arguments ReadItem {T}. Arguments Discard {T} _.
Arguments Remove {T} _. Arguments Peek {T} _. Arguments Poke {T} _ _. Arguments ResetHead {T}.
Arguments Reserve {T} _. Arguments Lengths {T}.

Inductive Out (A : Type) := Done | Full | Items (l : list A) | Item (x : option A) | Size (n : nat).
Arguments Done {A}. Arguments Full {A}. Arguments Items {A} _. Arguments Item {A} _. Arguments Size {A} _.
Definition out_map {A A'} (f : A -> A') (o : Out A) : Out A' :=
  match o with
  | Done => Done | Full => Full | Items l => Items (f <$> l) | Item x => Item (f <$> x) | Size n => Size n
  end.

Section Run.
Context {S O I : Type} (step : S -> O -> option (S * I)).
Fixpoint run_ops (s : S) (ops : list O) : option (S * list I) :=
  match ops with
  | [] => Some (s, [])
  | op :: ops => '(s, out) ← step s op; '(s, outs) ← run_ops s ops; Some (s, out :: outs)
  end.
End Run.

Section Queue.
Context {T : Type} {B : Buffer}.
Implicit Types (self : LinearFifo T) (q : list T).

Definition outcome {R} (out : R -> Out (option T)) (r : option (LinearFifo T * result AllocErrorT R)) :
    option (LinearFifo T * Out (option T)) :=
  '(self, r) ← r; Some (self, match r with Ok x => out x | Err _ => Full end).

Definition fifo_step self (op : Op T) : option (LinearFifo T * Out (option T)) :=
  match op with
  | Write src => outcome (fun _ => Done) (write self src)
  | WriteItem x => outcome (fun _ => Done) (write_item self x)
  | Fill size data => outcome (fun _ => Done) (fill_writable self size data)
  | IoWrite src => outcome Size (io_write self src)
  | Unget src => outcome (fun _ => Done) (unget self src)
  | Read n => '(self, l) ← read self n; Some (self, Items l)
  | ReadItem => '(self, x) ← read_item self; Some (self, Item x)
  | Discard n => self ← discard self n; Some (self, Done)
  | Remove offset => self ← ordered_remove_item self offset; Some (self, Done)
  | Peek offset => x ← peek_item self offset; Some (self, Item (Some x))
  | Poke offset x => self ← poke_item self offset x; Some (self, Done)
  | ResetHead => Some (reset_head_if_empty self, Done)
  | Reserve size => outcome (fun _ => Done) (ensure_unused_capacity self size)
  | Lengths => Some (self, Size (readable_length self))
  end.

(** The same operations on a list of at most [limit] items; an operation on items that
    are not there is undefined. *)
Definition grow (limit : Z) (total : nat) q q' (out : Out T) : option (list T * Out T) :=
  Some (if (Z.of_nat total <=? limit)%Z then (q', out) else (q, Full)).
Definition queue_step (limit : Z) q (op : Op T) : option (list T * Out T) :=
  match op with
  | Write src => grow limit (length q + length src) q (q ++ src) Done
  | WriteItem x => grow limit (length q + 1) q (q ++ [x]) Done
  | Fill size data => guard (length data <= size);; grow limit (length q + size) q (q ++ data) Done
  | IoWrite src =>
      let src := if DYNAMIC then src else take (Nat.min (length src) (Z.to_nat limit - length q)) src in
      grow limit (length q + length src) q (q ++ src) (Size (length src))
  | Unget src => grow limit (length q + length src) q (src ++ q) Done
  | Read n => Some (drop n q, Items (take n q))
  | ReadItem => Some (drop 1 q, Item (q !! 0))
  | Discard n => guard (n <= length q);; Some (drop n q, Done)
  | Remove offset => guard (offset < length q);; Some (delete offset q, Done)
  | Peek offset => x ← q !! offset; Some (q, Item (Some x))
  | Poke offset x => guard (offset < length q);; Some (<[offset := x]> q, Done)
  | ResetHead => Some (q, Done)
  | Reserve size => grow limit (length q + size) q q Done
  | Lengths => Some (q, Size (length q))
  end.

Context {limit : Z} {L : BufferLaws B limit}.

Lemma grows_outcome {R} q q' total (r : R) (out : R -> Out (option T)) out' res q2 o2 :
  grow limit total q q' out' = Some (q2, o2) -> out_map Some out' = out r ->
  grows (limit := limit) total (Some <$> q) (Some <$> q') r res ->
  exists self', outcome out res = Some (self', out_map Some o2) /\ holds (limit := limit) self' q2.
Proof.
  intros Hg Hout (s & Hs). exists s. unfold grow in Hg.
  destruct (_ <=? _)%Z; injection Hg as <- <-; destruct Hs as [-> Hs]; cbn [outcome mbind option_bind].
  - by rewrite Hout.
  - done.
Qed.

Lemma fifo_step_ok self q op q' out :
  holds (limit := limit) self q -> queue_step limit q op = Some (q', out) ->
  exists self', fifo_step self op = Some (self', out_map Some out) /\ holds (limit := limit) self' q'.
Proof.
  intros H. pose proof (length_fmap Some q) as Hlen.
  destruct op as [src|x|size data|src|src|n| |n|k|k|k x| |size|]; cbn [queue_step fifo_step]; intros E.
  - eapply grows_outcome; [exact E|done|]. rewrite fmap_app, <- Hlen. by apply write_ok.
  - eapply grows_outcome; [exact E|done|]. rewrite fmap_app, <- Hlen. by apply write_item_ok.
  - case_guard; [|done]. eapply grows_outcome; [exact E|done|].
    rewrite fmap_app, <- Hlen. by apply fill_writable_ok.
  - eapply grows_outcome; [exact E|done|]. rewrite fmap_app, <- Hlen. by apply io_write_ok.
  - eapply grows_outcome; [exact E|done|]. rewrite fmap_app, <- Hlen. by apply unget_ok.
  - injection E as <- <-. destruct (read_ok self q n H) as (s & -> & Hs). by exists s.
  - injection E as <- <-. destruct (read_item_ok self q H) as (s & -> & Hs). by exists s.
  - case_guard; [|done]. injection E as <- <-.
    destruct (discard_ok self _ n H) as (s & -> & Hs); [lia|]. exists s. split; [done|].
    unfold holds. by rewrite fmap_drop.
  - case_guard; [|done]. injection E as <- <-.
    destruct (ordered_remove_item_ok self _ k H) as (s & -> & Hs); [lia|]. exists s. split; [done|].
    unfold holds. by rewrite list_fmap_delete.
  - destruct (q !! k) as [x|] eqn:Ex; [|done]. injection E as <- <-.
    rewrite (peek_item_ok self _ k (Some x) H); [by exists self|]. by rewrite list_lookup_fmap, Ex.
  - case_guard; [|done]. injection E as <- <-.
    destruct (poke_item_ok self _ k x H) as (s & -> & Hs); [lia|]. exists s. split; [done|].
    unfold holds. by rewrite list_fmap_insert.
  - injection E as <- <-. eexists. split; [done|]. by apply reset_head_if_empty_ok.
  - eapply grows_outcome; [exact E|done|]. rewrite <- Hlen.
    destruct (ensure_unused_ok self _ size H) as (s & r & -> & Hs & Hr). exists s.
    destruct (_ <=? _)%Z; [destruct Hr as [-> _]|subst r]; by split.
  - injection E as <- <-. eexists. split; [|done]. unfold readable_length. by rewrite (live_count _ _ H), Hlen.
Qed.

Lemma fifo_run_ok ops : forall self q q' outs,
  holds (limit := limit) self q -> run_ops (queue_step limit) q ops = Some (q', outs) ->
  exists self', run_ops fifo_step self ops = Some (self', out_map Some <$> outs) /\ holds (limit := limit) self' q'.
Proof.
  induction ops as [|op ops IH]; intros self q q' outs H; cbn [run_ops].
  { intros [= <- <-]. by exists self. }
  destruct (queue_step limit q op) as [[q1 out]|] eqn:E1; [|done]. cbn [mbind option_bind].
  destruct (run_ops (queue_step limit) q1 ops) as [[q2 outs2]|] eqn:E2; [|done]. intros [= <- <-].
  destruct (fifo_step_ok self q op q1 out H E1) as (s1 & -> & H1). cbn [mbind option_bind].
  destruct (IH s1 q1 q2 outs2 H1 E2) as (s2 & -> & H2). by exists s2.
Qed.
End Queue.

(** C33.  Any sequence of operations on a fifo, static or dynamic, returns what it
    returns on a list of items, for which the static one refuses what does not fit its
    [N] slots and the dynamic one only more than [2^63] items: reads take from the
    front, writes add at the back, [unget] puts back in front, and no slot is read
    that was not written. *)
Theorem fifo_refines_queue {T} (ops : list (Op T)) :
  (forall N q outs, 0 < N -> (Z.of_nat N <= 2 ^ 63)%Z ->
     run_ops (queue_step (B := StaticBuffer N) (Z.of_nat N)) [] ops = Some (q, outs) ->
     exists self, run_ops (fifo_step (B := StaticBuffer N)) (init_static N) ops = Some (self, out_map Some <$> outs)
       /\ holds (B := StaticBuffer N) (limit := Z.of_nat N) self q)
  /\ (forall q outs,
     run_ops (queue_step (B := DynamicBuffer) (2 ^ 63)) [] ops = Some (q, outs) ->
     exists self, run_ops (fifo_step (B := DynamicBuffer)) init_dynamic ops = Some (self, out_map Some <$> outs)
       /\ holds (B := DynamicBuffer) (limit := 2 ^ 63) self q).
Proof.
  split.
  - intros N q outs HN Hmax. pose proof (static_laws N HN Hmax) as L.
    apply fifo_run_ok. apply live_empty. rewrite length_replicate. split; [done|]. split; [done|].
    intros HP. right. by destruct (@limit_static _ _ L eq_refl) as [_ Hk]; apply Hk.
  - intros q outs. apply fifo_run_ok. apply live_empty. by split; [|split; [|left]].
Qed.

Definition example_ops : list (Op Z) :=
  [Write [1; 2]; Write [3; 4]; WriteItem 3; Discard 1; WriteItem 4; Remove 1; Unget [9]; WriteItem 5;
   Peek 0; Poke 1 7; Read 2; Reserve 2; Fill 1 [8]; IoWrite [10; 11; 12]; Lengths; ReadItem; Read 5; ReadItem; ResetHead]%Z.

Lemma fifo_refines_queue_witness :
  exists s1 s2 outs1 outs2,
    run_ops (fifo_step (B := StaticBuffer 3)) (init_static 3) example_ops = Some (s1, out_map Some <$> outs1)
    /\ run_ops (fifo_step (B := DynamicBuffer)) init_dynamic example_ops = Some (s2, out_map Some <$> outs2)
    /\ outs1 !! 1 = Some Full /\ outs2 !! 1 = Some Done.
Proof.
  destruct (fifo_refines_queue example_ops) as [Hs Hd].
  edestruct (Hs 3) as (s1 & E1 & _); [lia|lia|by vm_compute|].
  edestruct Hd as (s2 & E2 & _); [by vm_compute|].
  eexists s1, s2, _, _. splits; [exact E1|exact E2|reflexivity|reflexivity].
Defined.
