(* ===== verification/ValkeyProtocol.v ===== *)
(** * The RESP protocol reader of valkey/valkey_protocol.rs

    [ValkeyReader] reads one reply of a Redis or Valkey server from a buffer.  Its
    methods are in a state and error monad over the reader; the reader of a failed
    read is kept, because the scanner looks at how far it got.  [None] is a loop that
    ran out of fuel: [read_value_total] shows that it never does.

    [f64] and the number parser of WTF ([parse_f64]) are parameters, and so are the
    sizes of the two element types, which only bound preallocations. *)

From S2P Require Import Prelude Bytes.

Inductive RedisError :=
| AuthenticationFailed | ConnectionClosed | InvalidArgument | InvalidArray | InvalidAttribute
| InvalidBigNumber | InvalidBlobError | InvalidBoolean | InvalidBulkString | InvalidCommand
| InvalidDouble | InvalidErrorString | InvalidInteger | InvalidMap | InvalidNull | InvalidPush
| InvalidResponse | InvalidResponseType | InvalidSet | InvalidSimpleString
| InvalidVerbatimString | JSError | OutOfMemory | UnsupportedProtocol | ConnectionTimeout
| IdleTimeout | NestingDepthExceeded | LineTooLong | ServerError.
#[export] Instance RedisError_eq_dec : EqDecision RedisError.
Proof. solve_decision. Defined.

Inductive RESPType :=
| TSimpleString | TError | TInteger | TBulkString | TArray | TNull | TDouble | TBoolean
| TBlobError | TVerbatimString | TMap | TSet | TAttribute | TPush | TBigNumber.
#[export] Instance RESPType_eq_dec : EqDecision RESPType.
Proof. solve_decision. Defined.

(** [ty as u8] *)
Definition type_byte (ty : RESPType) : Z :=
  match ty with
  | TSimpleString => "+"%u8 | TError => "-"%u8 | TInteger => ":"%u8 | TBulkString => "$"%u8
  | TArray => "*"%u8 | TNull => "_"%u8 | TDouble => ","%u8 | TBoolean => "#"%u8
  | TBlobError => "!"%u8 | TVerbatimString => "="%u8 | TMap => "%"%u8 | TSet => "~"%u8
  | TAttribute => "|"%u8 | TPush => ">"%u8 | TBigNumber => "("%u8
  end.
Definition resp_types : list RESPType :=
  [TSimpleString; TError; TInteger; TBulkString; TArray; TNull; TDouble; TBoolean; TBlobError;
   TVerbatimString; TMap; TSet; TAttribute; TPush; TBigNumber].
Definition from_byte (byte : Z) : option RESPType := List.find (fun ty => byte =? type_byte ty) resp_types.

Section Values.
Context {f64 : Type}.
(** A [MapEntry] is a pair; [Push] is its kind and data, [VerbatimString] its format
    and content, [Attribute] its attributes and value. *)
Inductive RESPValue :=
| SimpleString (s : bytes)
| RError (s : bytes)
| Integer (n : Z)
| BulkString (s : option bytes)
| Array (l : list RESPValue)
| Null
| Double (d : f64)
| Boolean (b : bool)
| VerbatimString (format content : bytes)
| Map (entries : list (RESPValue * RESPValue))
| Set_ (l : list RESPValue)
| Attribute (attributes : list (RESPValue * RESPValue)) (value : RESPValue)
| Push (kind : bytes) (data : list RESPValue)
| BigNumber (s : bytes).
End Values.
Arguments RESPValue f64 : clear implicits.

Definition MAX_NESTING_DEPTH : nat := 128.
Definition MAX_BULK_LEN : Z := 512 * 1024 * 1024.
Definition MAX_LINE_LEN : Z := MAX_BULK_LEN.

Record Reader := { buffer : bytes; pos : nat; prealloc_budget : Z; crlf_skip : nat }.

Definition set_pos (r : Reader) (p : nat) : Reader :=
  {| buffer := buffer r; pos := p; prealloc_budget := prealloc_budget r; crlf_skip := crlf_skip r |}.
Definition set_budget (r : Reader) (b : Z) : Reader :=
  {| buffer := buffer r; pos := pos r; prealloc_budget := b; crlf_skip := crlf_skip r |}.
Definition clear_skip (r : Reader) : Reader :=
  {| buffer := buffer r; pos := pos r; prealloc_budget := prealloc_budget r; crlf_skip := 0 |}.

(** ** The monad *)
Definition M (A : Type) : Type := Reader -> option (Reader * result RedisError A).
Definition ok {A} (x : A) : M A := fun r => Some (r, Ok x).
Definition err {A} (e : RedisError) : M A := fun r => Some (r, Err e).
Definition out_of_fuel {A} : M A := fun _ => None.
Definition bind {A C} (m : M A) (k : A -> M C) : M C := fun r =>
  match m r with
  | Some (r, Ok x) => k x r
  | Some (r, Err e) => Some (r, Err e)
  | None => None
  end.
Definition get : M Reader := fun r => Some (r, Ok r).
Definition put (r : Reader) : M unit := fun _ => Some (r, Ok tt).

Declare Scope reader_scope.
Delimit Scope reader_scope with reader.
Notation "x <- m ; k" := (bind m (fun x => k)) (at level 100, m at next level, right associativity) : reader_scope.
Notation "m ;; k" := (bind m (fun _ => k)) (at level 100, right associativity) : reader_scope.
#[local] Open Scope reader_scope.

(** ** Lines *)
Definition init (buffer : bytes) : Reader :=
  {| buffer := buffer; pos := 0; prealloc_budget := Z.of_nat (length buffer); crlf_skip := 0 |}.

Definition read_byte : M Z :=
  r <- get;
  match buffer r !! pos r with
  | None => err InvalidResponse
  | Some byte => put (set_pos r (S (pos r))) ;; ok byte
  end.

(** The first [i] of the next [n] positions with a CR and a LF behind it. *)
Fixpoint find_crlf (n : nat) (l : bytes) (i : nat) : option nat :=
  match n, l with
  | S n, byte :: l =>
      if (byte =? 13) && (match l with c :: _ => c =? 10 | [] => false end) then Some i
      else find_crlf n l (S i)
  | _, _ => None
  end.

(** [buffer.len().min(MAX_LINE_LEN + 1)] *)
Definition line_limit (len : nat) : nat := Z.to_nat (Z.min (Z.of_nat len) (MAX_LINE_LEN + 1)).

Definition read_until_crlf : M bytes :=
  r <- get;
  let buf := drop (pos r) (buffer r) in
  let limit := line_limit (length buf) in
  let start := Nat.min (crlf_skip r) limit in
  put (clear_skip r) ;;
  match find_crlf (limit - start) (drop start buf) start with
  | Some i => put (set_pos (clear_skip r) (pos r + i + 2)) ;; ok (take i buf)
  | None => if MAX_LINE_LEN + 1 <? Z.of_nat (length buf) then err LineTooLong else err InvalidResponse
  end.

Definition read_integer : M Z :=
  str <- read_until_crlf;
  match parse_int i64_ty str 10 with Ok n => ok n | Err _ => err InvalidInteger end.

(** [&self.buffer[self.pos..self.pos + len]] with the position moved behind it. *)
Definition read_slice (len : Z) : M bytes :=
  r <- get;
  if Z.of_nat (length (buffer r)) <? Z.of_nat (pos r) + len then err InvalidResponse
  else put (set_pos r (pos r + Z.to_nat len)) ;; ok (take (Z.to_nat len) (drop (pos r) (buffer r))).

Definition read_boolean : M bool :=
  str <- read_until_crlf;
  match str with
  | [c] => if c =? "t"%u8 then ok true else if c =? "f"%u8 then ok false else err InvalidBoolean
  | _ => err InvalidBoolean
  end.

(** The payload of a [$], [!] or [=] and the CRLF that must follow it. *)
Definition read_blob (len : Z) (invalid : RedisError) : M bytes :=
  str <- read_slice len;
  crlf <- read_until_crlf;
  match crlf with [] => ok str | _ => err invalid end.

Definition read_verbatim_string : M (bytes * bytes) :=
  len <- read_integer;
  if negb ((0 <=? len) && (len <=? MAX_BULK_LEN)) then err InvalidVerbatimString else
  content_with_format <- read_blob len InvalidVerbatimString;
  match content_with_format with
  | a :: b :: c :: d :: content =>
      if d =? ":"%u8 then ok ([a; b; c], content) else err InvalidVerbatimString
  | _ => err InvalidVerbatimString
  end.

(** Reserves room for [len] elements within the budget, and returns for how many. *)
Definition take_prealloc_budget (len element_size : Z) : M Z :=
  r <- get;
  let cap := Z.min len (prealloc_budget r / Z.max element_size 1) in
  put (set_budget r (prealloc_budget r - cap * element_size)) ;; ok cap.

(** [while i < len { vec.push(read()?); i += 1 }]: every element takes a byte, so the
    bytes that are left bound the loop. *)
Fixpoint read_loop {A} (fuel : nat) (read : M A) (left_ : Z) : M (list A) :=
  if left_ <=? 0 then ok [] else
  match fuel with
  | O => out_of_fuel
  | S fuel => x <- read; xs <- read_loop fuel read (left_ - 1); ok (x :: xs)
  end.
Definition read_elements {A} (read : M A) (len element_size : Z) : M (list A) :=
  take_prealloc_budget len element_size ;;
  r <- get;
  read_loop (S (length (buffer r) - pos r)) read len.

Section Parser.
Context {f64 : Type} (parse_f64 : bytes -> option f64) (INFINITY NEG_INFINITY NAN : f64).
Context (size_of_value size_of_entry : Z).

Definition read_double : M f64 :=
  str <- read_until_crlf;
  if bool_decide (str = bstr "inf") then ok INFINITY
  else if bool_decide (str = bstr "-inf") then ok NEG_INFINITY
  else if bool_decide (str = bstr "nan") then ok NAN
  else match parse_f64 str with Some d => ok d | None => err InvalidDouble end.

(** The header of an aggregate: the depth is tested before the length is read. *)
Definition check_depth (depth : nat) : M unit :=
  if (MAX_NESTING_DEPTH <=? depth)%nat then err NestingDepthExceeded else ok tt.

Definition read_entry (read : M (RESPValue f64)) : M (RESPValue f64 * RESPValue f64) :=
  key <- read; value <- read; ok (key, value).

Definition push_kind (v : RESPValue f64) : M bytes :=
  match v with
  | SimpleString s => ok s
  | BulkString (Some s) => ok s
  | _ => err InvalidPush
  end.

Fixpoint read_value_with_depth (fuel depth : nat) : M (RESPValue f64) :=
  match fuel with
  | O => out_of_fuel
  | S fuel =>
      let read := read_value_with_depth fuel (S depth) in
      byte <- read_byte;
      match from_byte byte with
      | None => err InvalidResponseType
      | Some TSimpleString => str <- read_until_crlf; ok (SimpleString str)
      | Some TError => str <- read_until_crlf; ok (RError str)
      | Some TInteger => int <- read_integer; ok (Integer int)
      | Some TBulkString =>
          len <- read_integer;
          if len <? 0 then ok (BulkString None)
          else if MAX_BULK_LEN <? len then err InvalidBulkString
          else str <- read_blob len InvalidBulkString; ok (BulkString (Some str))
      | Some TArray =>
          check_depth depth ;;
          len <- read_integer;
          if len <? 0 then ok Null
          else array <- read_elements read len size_of_value; ok (Array array)
      | Some TNull =>
          str <- read_until_crlf;
          match str with [] => ok Null | _ => err InvalidNull end
      | Some TDouble => d <- read_double; ok (Double d)
      | Some TBoolean => b <- read_boolean; ok (Boolean b)
      | Some TBlobError =>
          len <- read_integer;
          if negb ((0 <=? len) && (len <=? MAX_BULK_LEN)) then err InvalidBlobError
          else str <- read_blob len InvalidBlobError; ok (RError str)
      | Some TVerbatimString =>
          fc <- read_verbatim_string; ok (VerbatimString (fst fc) (snd fc))
      | Some TMap =>
          check_depth depth ;;
          len <- read_integer;
          if len <? 0 then err InvalidMap
          else entries <- read_elements (read_entry read) len size_of_entry; ok (Map entries)
      | Some TSet =>
          check_depth depth ;;
          len <- read_integer;
          if len <? 0 then err InvalidSet
          else set <- read_elements read len size_of_value; ok (Set_ set)
      | Some TAttribute =>
          check_depth depth ;;
          len <- read_integer;
          if len <? 0 then err InvalidAttribute
          else
            attrs <- read_elements (read_entry read) len size_of_entry;
            value <- read; ok (Attribute attrs value)
      | Some TPush =>
          check_depth depth ;;
          len <- read_integer;
          if len <=? 0 then err InvalidPush
          else
            push_type <- read;
            kind <- push_kind push_type;
            data <- read_elements read (len - 1) size_of_value; ok (Push kind data)
      | Some TBigNumber => str <- read_until_crlf; ok (BigNumber str)
      end
  end.

(** Values nest to depth 128, where only leaves are read. *)
Definition read_value : M (RESPValue f64) :=
  r <- get;
  put (set_budget r (Z.of_nat (length (buffer r) - pos r))) ;;
  read_value_with_depth (S (S MAX_NESTING_DEPTH)) 0.
End Parser.

(** ** Pushed messages *)
Inductive SubscriptionPushMessage := Message | Subscribe | Unsubscribe | PatternMessage.
#[export] Instance SubscriptionPushMessage_eq_dec : EqDecision SubscriptionPushMessage.
Proof. solve_decision. Defined.

Definition SUBSCRIPTION_PUSH_MESSAGES (key : bytes) : option SubscriptionPushMessage :=
  if bool_decide (key = bstr "message") then Some Message
  else if bool_decide (key = bstr "subscribe") then Some Subscribe
  else if bool_decide (key = bstr "unsubscribe") then Some Unsubscribe
  else None.

Definition from_bytes (key : bytes) : option SubscriptionPushMessage :=
  match SUBSCRIPTION_PUSH_MESSAGES key with
  | Some kind => Some kind
  | None =>
      match key with
      | c :: base =>
          if one_of (bstr "ps") c then
            match SUBSCRIPTION_PUSH_MESSAGES base with
            | Some Subscribe => Some Subscribe
            | Some Unsubscribe => Some Unsubscribe
            | Some Message => Some PatternMessage
            | _ => None
            end
          else None
      | [] => None
      end
  end.

Definition is_reply_kind (kind : bytes) : bool :=
  match kind with
  | c :: base =>
      one_of (bstr "ps") c
      && match from_bytes base with Some Subscribe | Some Unsubscribe => true | _ => false end
  | [] => false
  end.

(** ** Reading returns

    [returns n m]: [m] ends without a panic, inside the buffer and within the budget,
    and has taken at least [n] bytes when it succeeds. *)
Definition wf (r : Reader) : Prop := (pos r <= length (buffer r))%nat /\ 0 <= prealloc_budget r.
Definition spans (r r' : Reader) : Prop :=
  buffer r' = buffer r /\ (pos r <= pos r' <= length (buffer r))%nat
  /\ 0 <= prealloc_budget r' <= prealloc_budget r.
Definition returns {A} (n : nat) (m : M A) : Prop := forall r, wf r ->
  exists r' x, m r = Some (r', x) /\ spans r r'
    /\ match x with Ok _ => (pos r + n <= pos r')%nat | Err _ => True end.

Lemma spans_wf r r' : spans r r' -> wf r'.
Proof. unfold spans, wf. intros (-> & ? & ?). lia. Qed.
Lemma spans_trans r1 r2 r3 : spans r1 r2 -> spans r2 r3 -> spans r1 r3.
Proof. unfold spans. intros (E1 & ? & ?) (E2 & ? & ?). rewrite E1 in *. splits; (done || lia). Qed.
Lemma spans_refl r : wf r -> spans r r.
Proof. unfold spans, wf. intros. splits; (done || lia). Qed.

Lemma returns_ok {A} (x : A) : returns 0 (ok x).
Proof. intros r H. eexists r, _. splits; [done|by apply spans_refl|cbn; lia]. Qed.
Lemma returns_err {A} n e : returns n (@err A e).
Proof. intros r H. eexists r, _. splits; [done|by apply spans_refl|done]. Qed.
Lemma returns_weaken {A} n n' (m : M A) : returns n m -> (n' <= n)%nat -> returns n' m.
Proof.
  intros H Hn r Hr. destruct (H r Hr) as (r' & x & E & Hs & Hx). exists r', x. splits; [done..|].
  destruct x; [lia|done].
Qed.
Lemma returns_bind {A C} n1 n2 (m : M A) (k : A -> M C) :
  returns n1 m -> (forall x, returns n2 (k x)) -> returns (n1 + n2) (bind m k).
Proof.
  intros Hm Hk r Hr. unfold bind. destruct (Hm r Hr) as (r1 & [x|e] & -> & Hs & Hx).
  - destruct (Hk x r1 (spans_wf _ _ Hs)) as (r2 & y & E & Hs2 & Hy). exists r2, y. splits; [done|by eapply spans_trans|].
    destruct y; [lia|done].
  - exists r1, (Err e). by splits.
Qed.
Lemma returns_bind_0 {A C} n (m : M A) (k : A -> M C) :
  returns n m -> (forall x, returns 0 (k x)) -> returns n (bind m k).
Proof. intros H1 H2. eapply returns_weaken; [by eapply returns_bind|lia]. Qed.

Lemma read_byte_returns : returns 1 read_byte.
Proof.
  intros r [H Hb]. unfold read_byte, bind, get, put, ok, err.
  destruct (buffer r !! pos r) as [c|] eqn:E; eexists _, _; (split; [done|]).
  - apply lookup_lt_Some in E. unfold spans; cbn [buffer pos prealloc_budget set_pos]. splits; (done || lia).
  - split; [by apply spans_refl|done].
Qed.

Lemma find_crlf_Some n l i k :
  find_crlf n l i = Some k -> exists j, k = (i + j)%nat /\ (j < n)%nat /\ (j + 2 <= length l)%nat.
Proof.
  revert l i. induction n as [|n IH]; intros l i; cbn [find_crlf]; [done|].
  destruct l as [|c l]; [done|]. destruct (_ && _) eqn:E.
  - intros [= <-]. exists 0%nat. splits; [lia..|]. destruct l; [by rewrite andb_false_r in E|cbn [length]; lia].
  - intros (j & -> & ? & ?)%IH. exists (S j). splits; [lia..|cbn [length]; lia].
Qed.

Lemma line_limit_le len : (line_limit len <= len)%nat.
Proof. unfold line_limit. lia. Qed.

Lemma read_until_crlf_returns : returns 2 read_until_crlf.
Proof.
  intros r [H Hb]. unfold read_until_crlf, bind, get, put, ok, err.
  set (buf := drop (pos r) (buffer r)). pose proof (length_drop (buffer r) (pos r)) as Hl. fold buf in Hl.
  destruct (find_crlf _ _ _) as [k|] eqn:E.
  - apply find_crlf_Some in E as (j & -> & Hj & Hj2). rewrite length_drop in Hj2.
    pose proof (line_limit_le (length buf)).
    eexists _, _. split; [done|]. unfold spans; cbn [buffer pos prealloc_budget set_pos clear_skip]. splits; (done || lia).
  - assert (spans r (clear_skip r)) by (unfold spans; cbn [buffer pos prealloc_budget clear_skip]; splits; (done || lia)).
    destruct (_ <? _); eexists _, _; by splits.
Qed.

Lemma read_integer_returns : returns 2 read_integer.
Proof.
  apply returns_bind_0; [apply read_until_crlf_returns|]. intros str.
  destruct (parse_int _ _ _); [apply returns_ok|apply returns_err].
Qed.

Lemma read_slice_returns len : returns 0 (read_slice len).
Proof.
  intros r [H Hb]. unfold read_slice, bind, get, put, ok, err.
  destruct (Z.ltb_spec (Z.of_nat (length (buffer r))) (Z.of_nat (pos r) + len)); eexists _, _; (split; [done|]).
  - split; [by apply spans_refl|done].
  - unfold spans; cbn [buffer pos prealloc_budget set_pos]. splits; (done || lia).
Qed.

Lemma take_prealloc_budget_returns len es : 0 <= len -> 0 <= es -> returns 0 (take_prealloc_budget len es).
Proof.
  intros Hlen Hes r [H Hb]. unfold take_prealloc_budget, bind, get, put, ok. eexists _, _. split; [done|].
  unfold spans; cbn [buffer pos prealloc_budget set_budget].
  set (cap := Z.min len (prealloc_budget r / Z.max es 1)).
  assert (0 <= cap) by (unfold cap; pose proof (Z.div_pos (prealloc_budget r) (Z.max es 1)); lia).
  assert (cap * Z.max es 1 <= prealloc_budget r).
  { transitivity (prealloc_budget r / Z.max es 1 * Z.max es 1).
    - apply Z.mul_le_mono_nonneg_r; lia.
    - rewrite Z.mul_comm. apply Z.mul_div_le. lia. }
  splits; [done|lia..| |nia]. assert (cap * es <= cap * Z.max es 1) by (apply Z.mul_le_mono_nonneg_l; lia). lia.
Qed.

Lemma read_loop_returns {A} (read : M A) fuel : returns 1 read ->
  forall len r, wf r -> (length (buffer r) - pos r < fuel)%nat ->
  exists r' x, read_loop fuel read len r = Some (r', x) /\ spans r r'.
Proof.
  intros Hread. induction fuel as [|fuel IH]; intros len r Hr Hf; [lia|]. cbn [read_loop].
  destruct (len <=? 0); [eexists r, _; split; [done|by apply spans_refl]|].
  unfold bind. destruct (Hread r Hr) as (r1 & [x|e] & -> & Hs & Hx); [|by exists r1, (Err e)].
  destruct (IH (len - 1) r1 (spans_wf _ _ Hs)) as (r2 & [xs|e] & -> & Hs2).
  { destruct Hs as (-> & ? & _). lia. }
  - eexists r2, _. split; [done|by eapply spans_trans].
  - eexists r2, _. split; [done|by eapply spans_trans].
Qed.

Lemma read_elements_returns {A} (read : M A) len es :
  returns 1 read -> 0 <= len -> 0 <= es -> returns 0 (read_elements read len es).
Proof.
  intros Hread Hl Hes r Hr. unfold read_elements, bind at 1.
  destruct (take_prealloc_budget_returns len es Hl Hes r Hr) as (r1 & [cap|e] & -> & Hs & _); [|by exists r1, (Err e)].
  unfold bind, get. destruct (read_loop_returns read (S (length (buffer r1) - pos r1)) Hread len r1 (spans_wf _ _ Hs))
    as (r2 & x & -> & Hs2); [lia|].
  exists r2, x. splits; [done|by eapply spans_trans|]. destruct x; [|done].
  pose proof (spans_trans _ _ _ Hs Hs2) as (_ & ? & _). lia.
Qed.

Ltac step_returns :=
  match goal with
  | |- returns _ (ok _) => apply returns_ok
  | |- returns _ (err _) => apply returns_err
  | |- returns _ (bind ?m _) =>
      lazymatch m with check_depth _ => fail | _ => apply returns_bind_0; [|intros ?] end
  | |- returns _ (if ?b then _ else _) => destruct b eqn:?
  | |- returns _ (match ?x with _ => _ end) => destruct x
  | |- returns 0 read_until_crlf => eapply returns_weaken; [apply read_until_crlf_returns|lia]
  | |- returns 0 read_integer => eapply returns_weaken; [apply read_integer_returns|lia]
  | |- returns _ (read_slice _) => apply read_slice_returns
  end.

Lemma read_blob_returns len e : returns 0 (read_blob len e).
Proof. unfold read_blob. repeat step_returns. Qed.
Lemma read_verbatim_string_returns : returns 0 read_verbatim_string.
Proof. unfold read_verbatim_string. repeat step_returns. apply read_blob_returns. Qed.
Lemma read_boolean_returns : returns 0 read_boolean.
Proof. unfold read_boolean. repeat step_returns. Qed.

Section Reading.
Context {f64 : Type} (parse_f64 : bytes -> option f64) (INFINITY NEG_INFINITY NAN : f64).
Context (size_of_value size_of_entry : Z) (Hvalue : 0 <= size_of_value) (Hentry : 0 <= size_of_entry).
#[local] Abbreviation value_at := (read_value_with_depth parse_f64 INFINITY NEG_INFINITY NAN size_of_value size_of_entry).

Lemma read_double_returns : returns 0 (read_double parse_f64 INFINITY NEG_INFINITY NAN).
Proof. unfold read_double. repeat step_returns. Qed.

Lemma check_depth_returns {A} n depth (k : M A) :
  ((depth < MAX_NESTING_DEPTH)%nat -> returns n k) -> returns n (check_depth depth ;; k).
Proof.
  unfold check_depth. intros H. destruct (Nat.leb_spec MAX_NESTING_DEPTH depth).
  - intros r Hr. eexists r, _. splits; [done|by apply spans_refl|done].
  - intros r Hr. by apply H.
Qed.

Lemma read_value_with_depth_returns fuel depth :
  (MAX_NESTING_DEPTH + 2 <= fuel + depth)%nat -> (depth <= MAX_NESTING_DEPTH)%nat ->
  returns 1 (value_at fuel depth).
Proof.
  revert depth. induction fuel as [|fuel IH]; intros depth Hf Hd; [lia|]. cbn [read_value_with_depth].
  assert ((depth < MAX_NESTING_DEPTH)%nat -> returns 1 (value_at fuel (S depth))) as Hr by (intros; apply IH; lia).
  assert ((depth < MAX_NESTING_DEPTH)%nat -> returns 1 (read_entry (value_at fuel (S depth)))) as He.
  { intros H. apply returns_bind_0; [by apply Hr|]. intros k. apply returns_bind_0; [|by intros; apply returns_ok].
    eapply returns_weaken; [by apply Hr|lia]. }
  apply returns_bind_0; [apply read_byte_returns|]. intros byte.
  destruct (from_byte byte) as [[]|]; repeat step_returns;
    first [apply read_blob_returns | apply read_verbatim_string_returns | apply read_boolean_returns
          | apply read_double_returns | idtac].
  all: apply check_depth_returns; intros Hlt; repeat step_returns.
  all: try (apply read_elements_returns; (done || lia || auto)).
  all: try (eapply returns_weaken; [by apply Hr|lia]).
  all: unfold push_kind; repeat step_returns.
Qed.
End Reading.

(** ** More bytes change nothing

    What a read answers on a buffer, it answers on any longer one; only [InvalidResponse]
    can become something else. *)
Definition extends (b : bytes) (r1 r2 : Reader) : Prop :=
  buffer r2 = buffer r1 ++ b /\ pos r2 = pos r1 /\ (pos r1 <= length (buffer r1))%nat
  /\ crlf_skip r1 = 0%nat /\ crlf_skip r2 = 0%nat.
Definition stable {A} (m : M A) : Prop := forall b r1 r2, extends b r1 r2 ->
  match m r1 with
  | Some (r1', Ok x) => exists r2', m r2 = Some (r2', Ok x) /\ extends b r1' r2'
  | Some (r1', Err e) => e = InvalidResponse \/ exists r2', m r2 = Some (r2', Err e)
  | None => True
  end.

Lemma stable_ok {A} (x : A) : stable (ok x).
Proof. intros b r1 r2 H. by exists r2. Qed.
Lemma stable_err {A} e : stable (@err A e).
Proof. intros b r1 r2 H. right. by exists r2. Qed.
Lemma stable_bind {A C} (m : M A) (k : A -> M C) : stable m -> (forall x, stable (k x)) -> stable (bind m k).
Proof.
  intros Hm Hk b r1 r2 H. specialize (Hm b r1 r2 H). unfold bind.
  destruct (m r1) as [[r1' [x|e]]|]; [|destruct Hm as [->|(r2' & ->)]; eauto|done].
  destruct Hm as (r2' & -> & H'). by apply Hk.
Qed.

Lemma find_crlf_app n n' l b i k :
  find_crlf n l i = Some k -> (n <= n')%nat -> find_crlf n' (l ++ b) i = Some k.
Proof.
  revert n' l i. induction n as [|n IH]; intros n' l i; [done|]. destruct l as [|c l]; [done|].
  destruct n' as [|n']; [lia|]. cbn [find_crlf app]. intros H Hn.
  destruct l as [|d l]; cbn [app].
  { rewrite andb_false_r in H. by destruct n. }
  destruct ((c =? 13) && (d =? 10)); [done|]. apply (IH n' (d :: l)); [done|lia].
Qed.
Lemma find_crlf_None_app n l b i :
  find_crlf n l i = None -> (n < length l)%nat -> find_crlf n (l ++ b) i = None.
Proof.
  revert l i. induction n as [|n IH]; intros l i; [done|]. destruct l as [|c l]; [cbn; lia|].
  cbn [find_crlf app length]. intros H Hn. destruct l as [|d l]; cbn [app length] in *; [lia|].
  destruct ((c =? 13) && (d =? 10)); [done|]. apply (IH (d :: l)); [done|cbn [length]; lia].
Qed.

Lemma line_limit_mono m n : (m <= n)%nat -> (line_limit m <= line_limit n)%nat.
Proof. unfold line_limit. lia. Qed.

Lemma read_byte_stable : stable read_byte.
Proof.
  intros b r1 r2 (Hb & Hp & Hl & Hs1 & Hs2). unfold read_byte, bind, get, put, ok, err. rewrite Hb, Hp.
  destruct (buffer r1 !! pos r1) as [c|] eqn:E; [|by left].
  rewrite (lookup_app_l_Some _ _ _ _ E). apply lookup_lt_Some in E.
  eexists. split; [done|]. unfold extends; cbn [buffer pos crlf_skip set_pos]. splits; (done || lia).
Qed.

Lemma read_until_crlf_stable : stable read_until_crlf.
Proof.
  intros b r1 r2 (Hb & Hp & Hl & Hs1 & Hs2). unfold read_until_crlf, bind, get, put, ok, err.
  rewrite Hb, Hp, Hs1, Hs2, drop_app_le, !Nat.min_0_l, !Nat.sub_0_r, !drop_0, length_app by done.
  pose proof (length_drop (buffer r1) (pos r1)) as Hd. set (buf := drop (pos r1) (buffer r1)) in *.
  pose proof (line_limit_mono (length buf) (length buf + length b) ltac:(lia)) as Hm.
  destruct (find_crlf (line_limit (length buf)) buf 0) as [k|] eqn:E.
  - rewrite (find_crlf_app _ _ _ _ _ _ E Hm). apply find_crlf_Some in E as (j & -> & _ & Hj).
    eexists. split; [rewrite take_app_le by lia; done|].
    unfold extends; cbn [buffer pos crlf_skip set_pos clear_skip]. splits; (done || lia).
  - destruct (Z.ltb_spec (MAX_LINE_LEN + 1) (Z.of_nat (length buf))); [|by left]. right.
    replace (line_limit (length buf + length b)) with (line_limit (length buf)) by (unfold line_limit; lia).
    rewrite (find_crlf_None_app _ _ _ _ E) by (unfold line_limit, MAX_LINE_LEN, MAX_BULK_LEN in *; lia).
    destruct (Z.ltb_spec (MAX_LINE_LEN + 1) (Z.of_nat (length buf + length b))); [|lia]. by eexists.
Qed.

Lemma read_slice_stable len : 0 <= len -> stable (read_slice len).
Proof.
  intros Hlen b r1 r2 (Hb & Hp & Hl & Hs1 & Hs2). unfold read_slice, bind, get, put, ok, err.
  rewrite Hb, Hp, length_app. destruct (Z.ltb_spec (Z.of_nat (length (buffer r1))) (Z.of_nat (pos r1) + len)); [by left|].
  destruct (Z.ltb_spec (Z.of_nat (length (buffer r1) + length b)) (Z.of_nat (pos r1) + len)); [lia|].
  eexists. rewrite drop_app_le, take_app_le by (rewrite ?length_drop; lia). split; [done|].
  unfold extends; cbn [buffer pos crlf_skip set_pos]. splits; (done || lia).
Qed.

Lemma read_loop_stable {A} (read : M A) fuel : stable read ->
  forall fuel' len, (fuel <= fuel')%nat -> forall b r1 r2, extends b r1 r2 ->
  match read_loop fuel read len r1 with
  | Some (r1', Ok x) => exists r2', read_loop fuel' read len r2 = Some (r2', Ok x) /\ extends b r1' r2'
  | Some (r1', Err e) => e = InvalidResponse \/ exists r2', read_loop fuel' read len r2 = Some (r2', Err e)
  | None => True
  end.
Proof.
  intros Hread. induction fuel as [|fuel IH]; intros fuel' len Hf b r1 r2 H.
  - cbn [read_loop]. destruct (len <=? 0) eqn:E; [|done]. exists r2. by destruct fuel'; cbn [read_loop]; rewrite E.
  - destruct fuel' as [|fuel']; [lia|]. cbn [read_loop]. destruct (len <=? 0); [by exists r2|].
    unfold bind. specialize (Hread b r1 r2 H).
    destruct (read r1) as [[r1' [x|e]]|]; [|destruct Hread as [->|(r2' & ->)]; eauto|done].
    destruct Hread as (r2' & -> & H'). specialize (IH fuel' (len - 1) ltac:(lia) b r1' r2' H').
    destruct (read_loop fuel read (len - 1) r1') as [[r1'' [xs|e]]|]; [|destruct IH as [->|(r2'' & ->)]; eauto|done].
    destruct IH as (r2'' & -> & H''). by exists r2''.
Qed.

Lemma read_elements_stable {A} (read : M A) len es : stable read -> stable (read_elements read len es).
Proof.
  intros Hread b r1 r2 H. unfold read_elements, take_prealloc_budget, bind, get, put, ok.
  set (r1' := set_budget r1 _). set (r2' := set_budget r2 _).
  assert (extends b r1' r2') as H' by exact H.
  apply read_loop_stable; [done| |done].
  destruct H' as (-> & -> & _). rewrite length_app. lia.
Qed.

Ltac step_stable :=
  match goal with
  | |- stable (ok _) => apply stable_ok
  | |- stable (err _) => apply stable_err
  | |- stable (bind _ _) => apply stable_bind; [|intros ?]
  | |- stable (if ?b then _ else _) => destruct b eqn:?
  | |- stable (match ?x with _ => _ end) => destruct x
  | |- stable read_until_crlf => apply read_until_crlf_stable
  | |- stable read_byte => apply read_byte_stable
  | |- stable (read_elements _ _ _) => apply read_elements_stable
  | |- stable (read_slice _) => apply read_slice_stable
  | |- stable read_integer => unfold read_integer
  | |- stable (read_blob _ _) => unfold read_blob
  | |- stable (check_depth _) => unfold check_depth
  | |- stable (push_kind _) => unfold push_kind
  | |- stable (read_entry _) => unfold read_entry
  end.

Section Stability.
Context {f64 : Type} (parse_f64 : bytes -> option f64) (INFINITY NEG_INFINITY NAN : f64).
Context (size_of_value size_of_entry : Z).

Lemma read_value_with_depth_stable fuel depth :
  stable (read_value_with_depth parse_f64 INFINITY NEG_INFINITY NAN size_of_value size_of_entry fuel depth).
Proof.
  revert depth. induction fuel as [|fuel IH]; intros depth; [by intros b r1 r2 H|]. cbn [read_value_with_depth].
  unfold read_boolean, read_double, read_verbatim_string.
  repeat first [step_stable | apply IH]; lia.
Qed.
End Stability.

(** ** What a read accepts

    [accepts m P]: [m] reads [x] from a buffer that goes on with [s] exactly when [P s x],
    and then takes exactly [s]. *)
Definition ready (r : Reader) : Prop := (pos r <= length (buffer r))%nat /\ crlf_skip r = 0%nat.
Definition took (r : Reader) (s : bytes) (r' : Reader) : Prop :=
  buffer r' = buffer r /\ pos r' = (pos r + length s)%nat /\ ready r'
  /\ drop (pos r) (buffer r) = s ++ drop (pos r') (buffer r').
Definition accepts {A} (m : M A) (P : bytes -> A -> Prop) : Prop := forall r, ready r ->
  (forall s t x, P s x -> drop (pos r) (buffer r) = s ++ t -> exists r', m r = Some (r', Ok x) /\ took r s r')
  /\ (forall r' x, m r = Some (r', Ok x) -> exists s, P s x /\ took r s r').

Lemma took_intro r s t r' :
  ready r -> drop (pos r) (buffer r) = s ++ t ->
  buffer r' = buffer r -> pos r' = (pos r + length s)%nat -> crlf_skip r' = 0%nat -> took r s r'.
Proof.
  intros [Hp Hs] E Hb Hp' Hs'. pose proof (f_equal length E) as Hl. rewrite length_drop, length_app in Hl.
  unfold took, ready. rewrite Hb, Hp'. splits; [done|done|lia|done|].
  rewrite E. f_equal. by rewrite (drop_of_app _ _ _ _ E).
Qed.
Lemma took_trans r1 s r2 t r3 : took r1 s r2 -> took r2 t r3 -> took r1 (s ++ t) r3.
Proof.
  intros (B1 & P1 & R1 & D1) (B2 & P2 & R2 & D2). unfold took. rewrite B2, B1, length_app.
  splits; [done|lia|done|]. rewrite D1, D2, app_assoc. by rewrite B2, B1.
Qed.
Lemma took_nil r : ready r -> took r [] r.
Proof. intros H. unfold took. cbn [length app]. splits; [done|lia|done|done]. Qed.
Lemma took_rest r s t r' : took r s r' -> drop (pos r) (buffer r) = s ++ t -> drop (pos r') (buffer r') = t.
Proof. intros (_ & _ & _ & D) E. rewrite E in D. by apply app_inv_head in D. Qed.

Definition nothing {A} (x : A) : bytes -> A -> Prop := fun s y => s = [] /\ y = x.
Definition then_ {A C} (P : bytes -> A -> Prop) (R : A -> bytes -> C -> Prop) : bytes -> C -> Prop :=
  fun s y => exists x s1 s2, s = s1 ++ s2 /\ P s1 x /\ R x s2 y.

Lemma accepts_ok {A} (x : A) : accepts (ok x) (nothing x).
Proof.
  intros r Hr. split.
  - intros s t y [-> ->] _. exists r. split; [done|by apply took_nil].
  - intros r' y [= <- <-]. exists []. split; [done|by apply took_nil].
Qed.
Lemma accepts_err {A} e : accepts (@err A e) (fun _ _ => False).
Proof. intros r Hr. by split. Qed.
Lemma accepts_bind {A C} (m : M A) (k : A -> M C) P R :
  accepts m P -> (forall x, accepts (k x) (R x)) -> accepts (bind m k) (then_ P R).
Proof.
  intros Hm Hk r Hr. destruct (Hm r Hr) as [Hc Hs]. split.
  - intros s t y (x & s1 & s2 & -> & HP & HR) E. rewrite <- app_assoc in E.
    destruct (Hc s1 _ x HP E) as (r1 & E1 & T1). unfold bind. rewrite E1.
    pose proof T1 as (_ & _ & Hr1 & _). destruct (Hk x r1 Hr1) as [Hc2 _].
    destruct (Hc2 s2 t y HR (took_rest _ _ _ _ T1 E)) as (r2 & E2 & T2).
    exists r2. split; [done|by eapply took_trans].
  - unfold bind. intros r2 y. destruct (m r) as [[r1 [x|e]]|] eqn:E1; [|done..]. intros E2.
    destruct (Hs r1 x eq_refl) as (s1 & HP & T1). pose proof T1 as (_ & _ & Hr1 & _).
    destruct (Hk x r1 Hr1) as [_ Hs2]. destruct (Hs2 r2 y E2) as (s2 & HR & T2).
    exists (s1 ++ s2). split; [by exists x, s1, s2|by eapply took_trans].
Qed.
Lemma accepts_iff {A} (m : M A) P Q : accepts m P -> (forall s x, P s x <-> Q s x) -> accepts m Q.
Proof.
  intros Hm HPQ r Hr. destruct (Hm r Hr) as [Hc Hs]. split.
  - intros s t x HQ. apply Hc. by apply HPQ.
  - intros r' x E. destruct (Hs r' x E) as (s & HP & T). exists s. split; [by apply HPQ|done].
Qed.
Lemma accepts_if {A} (b : bool) (m1 m2 : M A) P1 P2 :
  accepts m1 P1 -> accepts m2 P2 ->
  accepts (if b then m1 else m2) (fun s x => if b then P1 s x else P2 s x).
Proof. by destruct b. Qed.

(** Lines *)
Definition CRLF : bytes := [13; 10].
Fixpoint has_crlf (s : bytes) : bool :=
  match s with
  | c :: s => (c =? 13) && (match s with d :: _ => d =? 10 | [] => false end) || has_crlf s
  | [] => false
  end.
Definition is_line (str : bytes) : Prop := has_crlf str = false /\ Z.of_nat (length str) <= MAX_LINE_LEN.

Lemma find_crlf_line n str t i :
  has_crlf str = false -> (length str < n)%nat -> find_crlf n (str ++ CRLF ++ t) i = Some (i + length str)%nat.
Proof.
  revert n i. induction str as [|c str IH]; intros [|n] i; cbn [length]; try lia.
  - intros _ _. cbn. f_equal. lia.
  - cbn [has_crlf]. intros [H1 H2]%orb_false_iff Hn. cbn [app find_crlf].
    replace (match str ++ CRLF ++ t with d :: _ => d =? 10 | [] => false end)
      with (match str with d :: _ => d =? 10 | [] => false end) by (by destruct str).
    rewrite H1, IH by (done || lia). f_equal. lia.
Qed.
Lemma find_crlf_split n l i k :
  find_crlf n l i = Some k ->
  exists str t, l = str ++ CRLF ++ t /\ has_crlf str = false /\ k = (i + length str)%nat /\ (length str < n)%nat.
Proof.
  revert l i. induction n as [|n IH]; intros l i; [done|]. destruct l as [|c l]; [done|]. cbn [find_crlf].
  destruct ((c =? 13) && _) eqn:E.
  - intros [= <-]. apply andb_true_iff in E as [E1 E2]. destruct l as [|d l]; [done|].
    exists [], l. cbn [app length]. apply Z.eqb_eq in E1, E2. subst. splits; [done|done|lia|lia].
  - intros (str & t & -> & Hs & -> & Hn)%IH. exists (c :: str), t. cbn [app has_crlf length]. splits; [done| |lia|lia].
    rewrite Hs, orb_false_r. destruct str; [by rewrite andb_false_r|exact E].
Qed.

Lemma read_until_crlf_accepts :
  accepts read_until_crlf (fun s str => s = str ++ CRLF /\ is_line str).
Proof.
  intros r Hr. pose proof Hr as [Hp Hs]. unfold read_until_crlf, bind, get, put, ok, err.
  rewrite Hs, Nat.min_0_l, Nat.sub_0_r, drop_0. set (buf := drop (pos r) (buffer r)).
  split.
  - intros s t str [-> [H1 H2]] E. rewrite <- app_assoc in E.
    assert (length str < line_limit (length buf))%nat as Hlim.
    { apply (f_equal length) in E. rewrite !length_app in E. cbn in E. unfold line_limit. lia. }
    pose proof (find_crlf_line (line_limit (length buf)) str t 0 H1 Hlim) as F.
    rewrite <- E in F. rewrite F. cbn [Nat.add].
    eexists. split; [by rewrite E, take_app_length|].
    eapply (took_intro _ _ t); [done|by rewrite <- app_assoc|done| |done].
    cbn [pos set_pos clear_skip]. rewrite length_app. cbn. lia.
  - intros r' x. destruct (find_crlf _ _ _) as [k|] eqn:E; [|by destruct (_ <? _)]. intros [= <- <-].
    apply find_crlf_split in E as (str & t & E & H1 & -> & H2). cbn [Nat.add]. rewrite E, take_app_length.
    exists (str ++ CRLF). split; [split; [done|split; [done|]]|].
    + unfold line_limit in H2. lia.
    + eapply (took_intro _ _ t); [done|by rewrite <- app_assoc|done| |done].
      cbn [pos set_pos clear_skip]. rewrite length_app. cbn. lia.
Qed.

Definition int_line (h : bytes) (n : Z) : Prop :=
  exists str, h = str ++ CRLF /\ is_line str /\ parse_int i64_ty str 10 = Ok n.

Lemma read_integer_accepts : accepts read_integer int_line.
Proof.
  unfold read_integer. eapply accepts_iff.
  { apply accepts_bind; [apply read_until_crlf_accepts|]. intros str.
    instantiate (1 := fun str s n => s = [] /\ parse_int i64_ty str 10 = Ok n). cbn beta.
    destruct (parse_int i64_ty str 10) as [n|e]; (eapply accepts_iff; [apply accepts_ok || apply accepts_err|]);
      intros s x; unfold nothing; naive_solver. }
  intros s n. unfold then_, int_line. split.
  - intros (str & s1 & s2 & -> & [-> Hl] & -> & E). exists str. by rewrite app_nil_r.
  - intros (str & -> & Hl & E). exists str, (str ++ CRLF), []. by rewrite app_nil_r.
Qed.

Lemma read_byte_accepts : accepts read_byte (fun s c => s = [c]).
Proof.
  intros r Hr. unfold read_byte, bind, get, put, ok, err. split.
  - intros s t c -> E. rewrite (lookup_of_drop _ _ _ _ E).
    eexists. split; [done|]. eapply took_intro; [done|done|done| |apply Hr]. cbn. lia.
  - intros r' c. destruct (buffer r !! pos r) as [c'|] eqn:E; [|done]. intros [= <- <-].
    exists [c']. split; [done|].
    eapply (took_intro _ _ (drop (S (pos r)) (buffer r))); [done|by apply drop_S|done| |apply Hr]. cbn. lia.
Qed.

Lemma read_slice_accepts len : 0 <= len -> accepts (read_slice len) (fun s p => s = p /\ Z.of_nat (length p) = len).
Proof.
  intros Hlen r Hr. pose proof Hr as [Hp Hs]. unfold read_slice, bind, get, put, ok, err. split.
  - intros s t p [-> <-] E. pose proof (f_equal length E) as Hl. rewrite length_drop, length_app in Hl.
    destruct (Z.ltb_spec (Z.of_nat (length (buffer r))) (Z.of_nat (pos r) + Z.of_nat (length p))); [lia|].
    rewrite Nat2Z.id. eexists. split; [by rewrite E, take_app_length|]. by eapply took_intro.
  - intros r' p. destruct (Z.ltb_spec (Z.of_nat (length (buffer r))) (Z.of_nat (pos r) + len)); [done|].
    intros [= <- <-]. eexists. split; [split; [done|]|].
    + rewrite length_take, length_drop. lia.
    + eapply took_intro; [done|symmetry; apply take_drop|done| |done]. cbn [pos set_pos].
      rewrite length_take, length_drop. lia.
Qed.

Lemma is_line_nil : is_line [].
Proof. by split. Qed.

Lemma read_blob_accepts len e :
  0 <= len -> accepts (read_blob len e) (fun s p => s = p ++ CRLF /\ Z.of_nat (length p) = len).
Proof.
  intros Hlen. unfold read_blob. eapply accepts_iff.
  { apply accepts_bind; [by apply read_slice_accepts|]. intros str. apply accepts_bind; [apply read_until_crlf_accepts|].
    intros crlf. instantiate (1 := fun crlf s x => crlf = [] /\ s = [] /\ x = str). cbn beta.
    destruct crlf; (eapply accepts_iff; [apply accepts_ok || apply accepts_err|]); intros s x; unfold nothing; naive_solver. }
  intros s p. unfold then_. split.
  - intros (p' & s1 & s2 & -> & [-> Hl] & crlf & s3 & s4 & -> & [-> _] & -> & -> & ->). by rewrite app_nil_r.
  - intros [-> Hl]. exists p, p, CRLF. splits; [done..|]. exists [], CRLF, []. splits; (done || apply is_line_nil).
Qed.

(** The elements of an aggregate, one after the other. *)
Inductive each {A} (P : bytes -> A -> Prop) : bytes -> list A -> Prop :=
| each_nil : each P [] []
| each_cons s x t l : P s x -> each P t l -> each P (s ++ t) (x :: l).

Lemma each_length {A} (P : bytes -> A -> Prop) s l :
  (forall s x, P s x -> s <> []) -> each P s l -> (length l <= length s)%nat.
Proof.
  intros HP. induction 1 as [|s x t l Hx _ IH]; cbn [length]; [lia|]. rewrite length_app.
  specialize (HP s x Hx). destruct s; [done|]. cbn [length]. lia.
Qed.

Lemma read_loop_accepts {A} (read : M A) P : accepts read P -> (forall s x, P s x -> s <> []) ->
  forall fuel len r, 0 <= len -> ready r ->
  (forall s t l, each P s l -> Z.of_nat (length l) = len -> (length s < fuel)%nat ->
     drop (pos r) (buffer r) = s ++ t -> exists r', read_loop fuel read len r = Some (r', Ok l) /\ took r s r')
  /\ (forall r' l, read_loop fuel read len r = Some (r', Ok l) ->
       exists s, each P s l /\ Z.of_nat (length l) = len /\ took r s r').
Proof.
  intros Hread HP. induction fuel as [|fuel IH]; intros len r Hlen Hr.
  - split; [lia|]. cbn [read_loop]. intros r' l. destruct (Z.leb_spec len 0); [|done]. intros [= <- <-].
    exists []. splits; [constructor|cbn; lia|by apply took_nil].
  - cbn [read_loop]. destruct (Z.leb_spec len 0).
    + split.
      * intros s t l Hl Hlen' _ E. destruct Hl; [|cbn [length] in Hlen'; lia]. exists r. split; [done|by apply took_nil].
      * intros r' l [= <- <-]. exists []. splits; [constructor|cbn; lia|by apply took_nil].
    + destruct (Hread r Hr) as [Hc Hs]. split.
      * intros s t l Hl Hlen' Hf E. destruct Hl as [|s1 x s2 l Hx Hl]; [cbn in Hlen'; lia|].
        cbn [length] in Hlen'. rewrite length_app in Hf. rewrite <- app_assoc in E.
        pose proof (HP s1 x Hx) as Hne. destruct (Hc s1 _ x Hx E) as (r1 & E1 & T1). unfold bind. rewrite E1.
        pose proof T1 as (_ & _ & Hr1 & _). destruct (IH (len - 1) r1 ltac:(lia) Hr1) as [Hc2 _].
        destruct (Hc2 s2 t l Hl) as (r2 & E2 & T2); [lia| |by eapply took_rest|].
        { destruct s1; [done|]. cbn [length] in Hf. lia. }
        rewrite E2. exists r2. split; [done|by eapply took_trans].
      * intros r' l. unfold bind. destruct (read r) as [[r1 [x|e]]|] eqn:E1; [|done..].
        destruct (Hs r1 x eq_refl) as (s1 & Hx & T1). pose proof T1 as (_ & _ & Hr1 & _).
        destruct (read_loop fuel read (len - 1) r1) as [[r2 [xs|e]]|] eqn:E2; [|done..]. intros [= <- <-].
        destruct (IH (len - 1) r1 ltac:(lia) Hr1) as [_ Hs2]. destruct (Hs2 r2 xs E2) as (s2 & Hl & Hlen' & T2).
        exists (s1 ++ s2). splits; [by constructor|cbn [length]; lia|by eapply took_trans].
Qed.

Lemma read_elements_accepts {A} (read : M A) P len es :
  accepts read P -> (forall s x, P s x -> s <> []) -> 0 <= len ->
  accepts (read_elements read len es) (fun s l => each P s l /\ Z.of_nat (length l) = len).
Proof.
  intros Hread HP Hlen r Hr. unfold read_elements, take_prealloc_budget, bind, get, put, ok.
  set (r0 := set_budget r _).
  assert (forall s r', took r0 s r' <-> took r s r') as HT by done.
  destruct (read_loop_accepts read P Hread HP (S (length (buffer r0) - pos r0)) len r0 Hlen Hr) as [Hc Hs]. split.
  - intros s t l [Hl Hlen'] E. destruct (Hc s t l Hl Hlen') as (r' & E' & T); [|done|by exists r'].
    apply (f_equal length) in E. rewrite length_drop, length_app in E. cbn [buffer pos r0 set_budget]. lia.
  - intros r' l E. destruct (Hs r' l E) as (s & Hl & Hlen' & T). by exists s.
Qed.

Lemma check_depth_accepts {A} depth (k : M A) P :
  ((depth < MAX_NESTING_DEPTH)%nat -> accepts k P) ->
  accepts (check_depth depth ;; k) (fun s x => (depth < MAX_NESTING_DEPTH)%nat /\ P s x).
Proof.
  intros Hk. unfold check_depth. destruct (Nat.leb_spec MAX_NESTING_DEPTH depth) as [H|H].
  - intros r Hr. split; [intros s t x [? _]; lia|done].
  - intros r Hr. specialize (Hk H r Hr). split; [intros s t x [_ HP]; by apply Hk|].
    intros r' x E. destruct Hk as [_ Hk]. destruct (Hk r' x E) as (s & ? & ?). by exists s.
Qed.

(** ** The wire format *)
Section Grammar.
Context {f64 : Type} (parse_f64 : bytes -> option f64) (INFINITY NEG_INFINITY NAN : f64).

Definition double_of (str : bytes) : option f64 :=
  if bool_decide (str = bstr "inf") then Some INFINITY
  else if bool_decide (str = bstr "-inf") then Some NEG_INFINITY
  else if bool_decide (str = bstr "nan") then Some NAN
  else parse_f64 str.

Definition pair_of {A} (P : bytes -> A -> Prop) (s : bytes) (kv : A * A) : Prop :=
  exists s1 s2, s = s1 ++ s2 /\ P s1 (fst kv) /\ P s2 (snd kv).

Definition kind_of (v : RESPValue f64) : option bytes :=
  match v with SimpleString s => Some s | BulkString s => s | _ => None end.

(** A payload with its length in front and a CRLF behind. *)
Definition blob (s p : bytes) : Prop :=
  exists h, s = h ++ p ++ CRLF /\ int_line h (Z.of_nat (length p)) /\ Z.of_nat (length p) <= MAX_BULK_LEN.

(** [wire d s v]: [s] is an encoding of [v], of which [d] levels may be aggregates. *)
Fixpoint wire (d : nat) (s : bytes) (v : RESPValue f64) : Prop :=
  match v with
  | SimpleString str => s = "+"%u8 :: str ++ CRLF /\ is_line str
  | RError str => (s = "-"%u8 :: str ++ CRLF /\ is_line str) \/ exists t, s = "!"%u8 :: t /\ blob t str
  | Integer n => exists h, s = ":"%u8 :: h /\ int_line h n
  | BulkString None => exists h n, s = "$"%u8 :: h /\ int_line h n /\ n < 0
  | BulkString (Some p) => exists t, s = "$"%u8 :: t /\ blob t p
  | Null => s = "_"%u8 :: CRLF \/ (0 < d)%nat /\ exists h n, s = "*"%u8 :: h /\ int_line h n /\ n < 0
  | Double x => exists str, s = ","%u8 :: str ++ CRLF /\ is_line str /\ double_of str = Some x
  | Boolean b => s = "#"%u8 :: (if b then "t"%u8 else "f"%u8) :: CRLF
  | VerbatimString format content =>
      length format = 3%nat /\ exists t, s = "="%u8 :: t /\ blob t (format ++ ":"%u8 :: content)
  | BigNumber str => s = "("%u8 :: str ++ CRLF /\ is_line str
  | Array l =>
      match d with
      | O => False
      | S d => exists h t, s = "*"%u8 :: h ++ t /\ int_line h (Z.of_nat (length l)) /\ each (wire d) t l
      end
  | Set_ l =>
      match d with
      | O => False
      | S d => exists h t, s = "~"%u8 :: h ++ t /\ int_line h (Z.of_nat (length l)) /\ each (wire d) t l
      end
  | Map entries =>
      match d with
      | O => False
      | S d => exists h t, s = "%"%u8 :: h ++ t /\ int_line h (Z.of_nat (length entries))
                 /\ each (pair_of (wire d)) t entries
      end
  | Attribute attributes value =>
      match d with
      | O => False
      | S d => exists h t u, s = "|"%u8 :: h ++ t ++ u /\ int_line h (Z.of_nat (length attributes))
                 /\ each (pair_of (wire d)) t attributes /\ wire d u value
      end
  | Push kind data =>
      match d with
      | O => False
      | S d => exists h t u ty, s = ">"%u8 :: h ++ t ++ u /\ int_line h (1 + Z.of_nat (length data))
                 /\ wire d t ty /\ kind_of ty = Some kind /\ each (wire d) u data
      end
  end.

Lemma wire_nonempty d s v : wire d s v -> s <> [].
Proof. destruct d, v; cbn [wire]; try done; repeat case_match; naive_solver. Qed.
Lemma pair_of_nonempty {A} (P : bytes -> A -> Prop) s kv :
  (forall s x, P s x -> s <> []) -> pair_of P s kv -> s <> [].
Proof. intros HP (s1 & s2 & -> & H1 & _). specialize (HP _ _ H1). by destruct s1. Qed.

Lemma from_byte_type byte ty : from_byte byte = Some ty <-> byte = type_byte ty.
Proof.
  split.
  - intros H%find_some. destruct H as [_ H%Z.eqb_eq]. done.
  - intros ->. by destruct ty.
Qed.

Context (size_of_value size_of_entry : Z).
#[local] Abbreviation value_at := (read_value_with_depth parse_f64 INFINITY NEG_INFINITY NAN size_of_value size_of_entry).

Lemma read_entry_accepts {read} {P : bytes -> RESPValue f64 -> Prop} :
  accepts read P -> accepts (read_entry read) (pair_of P).
Proof.
  intros H. eapply accepts_iff.
  { apply accepts_bind; [exact H|]. intros k. apply accepts_bind; [exact H|]. intros v. apply accepts_ok. }
  intros s [k v]. unfold then_, nothing, pair_of. cbn [fst snd]. split.
  - intros (k' & s1 & s2 & -> & Hk & v' & s3 & s4 & -> & Hv & -> & [= -> ->]). exists s1, s3. by rewrite app_nil_r.
  - intros (s1 & s2 & -> & Hk & Hv). exists k, s1, s2. splits; [done..|]. exists v, s2, []. by rewrite app_nil_r.
Qed.

Lemma read_double_accepts :
  accepts (read_double parse_f64 INFINITY NEG_INFINITY NAN)
    (fun s x => exists str, s = str ++ CRLF /\ is_line str /\ double_of str = Some x).
Proof.
  eapply accepts_iff.
  { apply accepts_bind; [apply read_until_crlf_accepts|]. intros str.
    instantiate (1 := fun str s x => s = [] /\ double_of str = Some x). cbn beta. unfold double_of.
    repeat case_bool_decide; [| | |destruct (parse_f64 str)];
      (eapply accepts_iff; [apply accepts_ok || apply accepts_err|]); intros s x; unfold nothing; naive_solver. }
  intros s x. unfold then_. split.
  - intros (str & s1 & s2 & -> & [-> Hl] & -> & E). exists str. by rewrite app_nil_r.
  - intros (str & -> & Hl & E). exists str, (str ++ CRLF), []. by rewrite app_nil_r.
Qed.

Lemma read_boolean_accepts :
  accepts read_boolean (fun s b => s = (if b : bool then "t"%u8 else "f"%u8) :: CRLF).
Proof.
  eapply accepts_iff.
  { apply accepts_bind; [apply read_until_crlf_accepts|]. intros str.
    instantiate (1 := fun str s (b : bool) => s = [] /\ str = [if b then "t"%u8 else "f"%u8]). cbn beta.
    destruct str as [|c [|]]; [|destruct (Z.eqb_spec c "t"%u8); [|destruct (Z.eqb_spec c "f"%u8)]|];
      (eapply accepts_iff; [apply accepts_ok || apply accepts_err|]); intros s []; unfold nothing; naive_solver. }
  intros s b. unfold then_. split.
  - intros (str & s1 & s2 & -> & [-> Hl] & -> & ->). by rewrite app_nil_r.
  - intros ->. eexists _, _, []. split; [symmetry; apply app_nil_r|]. split; [|done]. split; [done|].
    split; [by destruct b|done].
Qed.

(** A length, its range check and the payload. *)
Lemma read_sized_accepts e e' :
  accepts (len <- read_integer;
           if negb ((0 <=? len) && (len <=? MAX_BULK_LEN)) then err e else read_blob len e') blob.
Proof.
  eapply accepts_iff.
  { apply accepts_bind; [apply read_integer_accepts|]. intros len.
    instantiate (1 := fun len s p => 0 <= len <= MAX_BULK_LEN /\ s = p ++ CRLF /\ Z.of_nat (length p) = len). cbn beta.
    destruct (Z.leb_spec 0 len), (Z.leb_spec len MAX_BULK_LEN); cbn [andb negb];
      (eapply accepts_iff; [by apply read_blob_accepts || apply accepts_err|]); intros s x; split; try done; lia || naive_solver lia. }
  intros s p. unfold then_, blob. split.
  - intros (len & s1 & s2 & -> & Hh & Hr & -> & <-). exists s1. by splits; [|done|lia].
  - intros (h & -> & Hh & Hl). eexists _, h, (p ++ CRLF). splits; (done || lia).
Qed.

Lemma accepts_ext {A} (m m' : M A) P : (forall r, m r = m' r) -> accepts m P -> accepts m' P.
Proof.
  intros He H r Hr. destruct (H r Hr) as [Hc Hs]. split.
  - intros s t x HP E. rewrite <- He. by eapply Hc.
  - intros r' x. rewrite <- He. apply Hs.
Qed.

(** A read that goes on from what another accepted. *)
Lemma accepts_map {A C} (m : M A) (f : A -> C) P :
  accepts m P -> accepts (x <- m; ok (f x)) (fun s y => exists x, P s x /\ y = f x).
Proof.
  intros H. eapply accepts_iff; [apply accepts_bind; [exact H|intros x; apply accepts_ok]|].
  intros s y. unfold then_, nothing. split.
  - intros (x & s1 & s2 & -> & HP & -> & ->). exists x. by rewrite app_nil_r.
  - intros (x & HP & ->). exists x, s, []. by rewrite app_nil_r.
Qed.

Lemma sized_bind {C} e e' (k : bytes -> M C) r :
  (str <- (len <- read_integer;
           if negb ((0 <=? len) && (len <=? MAX_BULK_LEN)) then err e else read_blob len e'); k str) r =
  (len <- read_integer;
   if negb ((0 <=? len) && (len <=? MAX_BULK_LEN)) then err e else str <- read_blob len e'; k str) r.
Proof.
  unfold bind at 1 2 3. destruct (read_integer r) as [[r1 [len|]]|]; [|done..]. by destruct (negb _).
Qed.

Lemma read_verbatim_string_accepts :
  accepts read_verbatim_string (fun s fc => length (fst fc) = 3%nat /\ blob s (fst fc ++ ":"%u8 :: snd fc)).
Proof.
  unfold read_verbatim_string. eapply accepts_ext; [intros r; apply sized_bind|]. eapply accepts_iff.
  { apply accepts_bind; [apply read_sized_accepts|]. intros p.
    instantiate (1 := fun p s fc => s = [] /\ length (fst fc) = 3%nat /\ p = fst fc ++ ":"%u8 :: snd fc). cbn beta.
    assert (forall (s : bytes) (fc : bytes * bytes),
      match p with a :: b :: c :: d :: content => if d =? ":"%u8 then s = [] /\ fc = ([a; b; c], content) else False
      | _ => False end <-> s = [] /\ length (fst fc) = 3%nat /\ p = fst fc ++ ":"%u8 :: snd fc) as Hp.
    { intros s [f ct]. cbn [fst snd]. split.
      - destruct p as [|a [|b [|c [|d p]]]]; [done..|]. destruct (Z.eqb_spec d ":"%u8); [|done].
        intros [-> [= -> ->]]. by subst d.
      - intros (-> & Hf & ->). destruct f as [|a [|b [|c [|]]]]; try done. }
    eapply accepts_iff; [|apply Hp]. clear Hp.
    destruct p as [|a [|b [|c [|d p]]]]; try apply accepts_err. destruct (d =? ":"%u8); [apply accepts_ok|apply accepts_err]. }
  intros s [f ct]. unfold then_. cbn [fst snd]. split.
  - intros (p & s1 & s2 & -> & Hb & -> & Hl & ->). by rewrite app_nil_r.
  - intros [Hl Hb]. eexists _, s, []. split; [by rewrite app_nil_r|]. by split.
Qed.

(** An encoding that starts with the byte of a type is that of one of its values. *)
Ltac unpack_wire :=
  cbn [wire type_byte]; intros; repeat (done || match goal with
  | H : _ /\ _ |- _ => destruct H | H : exists _, _ |- _ => destruct H | H : _ \/ _ |- _ => destruct H
  | E : _ :: _ = _ :: _ |- _ => first [discriminate E | injection E as E] end).
Ltac wire_cases :=
  match goal with |- wire ?d (_ :: _) ?v -> _ =>
    destruct v as [| | |[]| | | | | | | | | |]; lazymatch d with S _ => idtac | O => idtac | _ => destruct d end end;
  unpack_wire.

Lemma wire_type d c s v : wire d (c :: s) v -> exists ty, c = type_byte ty.
Proof.
  assert (forall ty (t : bytes), c :: s = type_byte ty :: t -> exists ty, c = type_byte ty) as H by (intros ty t [= -> _]; by exists ty).
  destruct v as [| | |[]| | | | | | | | | |], d; unpack_wire; subst;
  first [by exists TSimpleString | by exists TError | by exists TInteger | by exists TBulkString | by exists TArray
    | by exists TNull | by exists TDouble | by exists TBoolean | by exists TBlobError | by exists TVerbatimString
    | by exists TMap | by exists TSet | by exists TAttribute | by exists TPush | by exists TBigNumber].
Qed.

Lemma branch_line ty (c : bytes -> RESPValue f64) d :
  (ty = TSimpleString /\ c = SimpleString) \/ (ty = TError /\ c = RError) \/ (ty = TBigNumber /\ c = BigNumber) ->
  accepts (str <- read_until_crlf; ok (c str)) (fun s v => wire d (type_byte ty :: s) v).
Proof.
  intros Hty. eapply accepts_iff; [apply accepts_map, read_until_crlf_accepts|].
  intros s v. cbn beta. destruct Hty as [[-> ->]|[[-> ->]|[-> ->]]]; split.
  all: try (intros (str & [-> Hl] & ->); destruct d; cbn [wire type_byte]; first [by split | by left]).
  all: wire_cases; subst; by eexists.
Qed.

Lemma branch_integer d :
  accepts (n <- read_integer; ok (@Integer f64 n)) (fun s v => wire d (type_byte TInteger :: s) v).
Proof.
  eapply accepts_iff; [apply accepts_map, read_integer_accepts|]. intros s v. cbn beta. split.
  - intros (n & Hn & ->). destruct d; by exists s.
  - wire_cases; subst; by eexists.
Qed.

Lemma branch_bulk d :
  accepts (len <- read_integer;
           if len <? 0 then ok (@BulkString f64 None)
           else if MAX_BULK_LEN <? len then err InvalidBulkString
           else str <- read_blob len InvalidBulkString; ok (BulkString (Some str)))
    (fun s v => wire d (type_byte TBulkString :: s) v).
Proof.
  eapply accepts_iff.
  { apply accepts_bind; [apply read_integer_accepts|]. intros len.
    instantiate (1 := fun len s v => (len < 0 /\ s = [] /\ v = BulkString None) \/
      (0 <= len <= MAX_BULK_LEN /\ exists p, (s = p ++ CRLF /\ Z.of_nat (length p) = len) /\ v = BulkString (Some p))). cbn beta.
    destruct (Z.ltb_spec len 0); [|destruct (Z.ltb_spec MAX_BULK_LEN len)].
    - eapply accepts_iff; [apply accepts_ok|]. intros s v. unfold nothing. split; [by left|].
      intros [(_ & -> & ->)|[? _]]; [done|lia].
    - eapply accepts_iff; [apply accepts_err|]. intros s v. split; [done|]. intros [[? _]|[? _]]; lia.
    - eapply accepts_iff; [by apply accepts_map, read_blob_accepts|]. intros s v. cbn beta.
      split; [intros (p & Hp & ->); right; split; [lia|by exists p]|]. intros [[? _]|[_ Hp]]; [lia|done]. }
  intros s v. unfold then_. split.
  - intros (len & s1 & s2 & -> & Hh & [(Hl & -> & ->)|(Hl & p & [-> Hp] & ->)]).
    + rewrite app_nil_r. destruct d; cbn [wire]; by exists s1, len.
    + assert (blob (s1 ++ p ++ CRLF) p) as Hb by (exists s1; rewrite Hp; splits; [done|done|lia]).
      destruct d; cbn [wire]; by eexists.
  - wire_cases; subst.
    all: try match goal with H : blob _ _ |- _ => destruct H as (h & -> & Hh & Hl) end.
    all: try (eexists _, h, (_ ++ CRLF); splits; [done|exact Hh|right; split; [lia|by eexists]]).
    all: eexists _, _, []; split; [symmetry; apply app_nil_r|]; split; [done|by left].
Qed.

Lemma branch_blob_error d :
  accepts (len <- read_integer;
           if negb ((0 <=? len) && (len <=? MAX_BULK_LEN)) then err InvalidBlobError
           else str <- read_blob len InvalidBlobError; ok (@RError f64 str))
    (fun s v => wire d (type_byte TBlobError :: s) v).
Proof.
  eapply accepts_ext; [intros r; apply sized_bind|].
  eapply accepts_iff; [apply accepts_map, read_sized_accepts|]. intros s v. cbn beta. split.
  - intros (p & Hp & ->). destruct d; cbn [wire]; right; by exists s.
  - wire_cases; subst; by eexists.
Qed.

Lemma branch_null d :
  accepts (str <- read_until_crlf; match str with [] => ok (@Null f64) | _ => err InvalidNull end)
    (fun s v => wire d (type_byte TNull :: s) v).
Proof.
  eapply accepts_iff.
  { apply accepts_bind; [apply read_until_crlf_accepts|]. intros str.
    instantiate (1 := fun str s v => str = [] /\ s = [] /\ v = Null). cbn beta.
    destruct str; (eapply accepts_iff; [apply accepts_ok || apply accepts_err|]); intros s v; unfold nothing; naive_solver. }
  intros s v. unfold then_. split.
  - intros (str & s1 & s2 & -> & [-> _] & -> & -> & ->). destruct d; by left.
  - wire_cases; subst; exists [], CRLF, []; by splits.
Qed.

Lemma branch_double d :
  accepts (x <- read_double parse_f64 INFINITY NEG_INFINITY NAN; ok (Double x))
    (fun s v => wire d (type_byte TDouble :: s) v).
Proof.
  eapply accepts_iff; [apply accepts_map, read_double_accepts|]. intros s v. cbn beta. split.
  - intros (x & (str & -> & Hl & Hx) & ->). destruct d; by exists str.
  - wire_cases; subst; eexists; (split; [|done]); by eexists.
Qed.

Lemma branch_boolean d :
  accepts (b <- read_boolean; ok (@Boolean f64 b)) (fun s v => wire d (type_byte TBoolean :: s) v).
Proof.
  eapply accepts_iff; [apply accepts_map, read_boolean_accepts|]. intros s v. cbn beta. split.
  - intros (b & -> & ->). by destruct d.
  - wire_cases; subst; eexists; by split.
Qed.

Lemma branch_verbatim d :
  accepts (fc <- read_verbatim_string; ok (@VerbatimString f64 (fst fc) (snd fc)))
    (fun s v => wire d (type_byte TVerbatimString :: s) v).
Proof.
  eapply accepts_iff; [apply (accepts_map _ (fun fc => VerbatimString (fst fc) (snd fc))), read_verbatim_string_accepts|].
  intros s v. cbn beta. split.
  - intros ([f c] & [Hf Hb] & ->). cbn [fst snd] in *. destruct d; (split; [done|by exists s]).
  - wire_cases; subst; eexists (_, _); by splits.
Qed.

(** ** Aggregates *)
Lemma aggregate_accepts {A} (read : M A) P es (c : list A -> RESPValue f64) e :
  accepts read P -> (forall s x, P s x -> s <> []) ->
  accepts (len <- read_integer; if len <? 0 then err e else l <- read_elements read len es; ok (c l))
    (fun s v => exists h t l, s = h ++ t /\ int_line h (Z.of_nat (length l)) /\ each P t l /\ v = c l).
Proof.
  intros Hread HP. eapply accepts_iff.
  { apply accepts_bind; [apply read_integer_accepts|]. intros len.
    instantiate (1 := fun len s v => exists l, (each P s l /\ Z.of_nat (length l) = len) /\ v = c l). cbn beta.
    destruct (Z.ltb_spec len 0); [|by apply accepts_map, read_elements_accepts].
    eapply accepts_iff; [apply accepts_err|]. intros s v. split; [done|]. intros (l & [_ ?] & _). lia. }
  intros s v. unfold then_. split.
  - intros (len & s1 & s2 & -> & Hh & l & [Hl <-] & ->). by exists s1, s2, l.
  - intros (h & t & l & -> & Hh & Hl & ->). eexists _, h, t. splits; [done..|]. by exists l.
Qed.

(** [*-1] is the null array. *)
Lemma branch_array d (read : M (RESPValue f64)) :
  accepts read (wire d) ->
  accepts (len <- read_integer;
           if len <? 0 then ok Null else array <- read_elements read len size_of_value; ok (Array array))
    (fun s v => wire (S d) (type_byte TArray :: s) v).
Proof.
  intros Hread. eapply accepts_iff.
  { apply accepts_bind; [apply read_integer_accepts|]. intros len.
    instantiate (1 := fun len s v => (len < 0 /\ s = [] /\ v = Null)
      \/ exists l, (each (wire d) s l /\ Z.of_nat (length l) = len) /\ v = Array l). cbn beta.
    destruct (Z.ltb_spec len 0).
    - eapply accepts_iff; [apply accepts_ok|]. intros s v. unfold nothing. split; [by left|].
      intros [(_ & -> & ->)|(l & [_ ?] & _)]; [done|lia].
    - eapply accepts_iff; [apply accepts_map, (read_elements_accepts _ _ _ _ Hread); [apply wire_nonempty|done]|].
      intros s v. cbn beta. split; [by right|]. intros [[? _]|Hl]; [lia|done]. }
  intros s v. unfold then_. split.
  - intros (len & s1 & s2 & -> & Hh & [(Hl & -> & ->)|(l & [Hl <-] & ->)]).
    + rewrite app_nil_r. cbn [wire]. right. split; [lia|by exists s1, len].
    + cbn [wire]. by exists s1, s2.
  - wire_cases; subst.
    + eexists _, _, _. splits; [done|done|]. right. by eexists.
    + eexists _, _, []. split; [symmetry; apply app_nil_r|]. split; [done|by left].
Qed.

Lemma branch_set d (read : M (RESPValue f64)) :
  accepts read (wire d) ->
  accepts (len <- read_integer;
           if len <? 0 then err InvalidSet else set <- read_elements read len size_of_value; ok (Set_ set))
    (fun s v => wire (S d) (type_byte TSet :: s) v).
Proof.
  intros Hread. eapply accepts_iff; [apply (aggregate_accepts _ _ _ _ _ Hread), wire_nonempty|]. intros s v. split.
  - intros (h & t & l & -> & Hh & Hl & ->). cbn [wire]. by exists h, t.
  - wire_cases; subst; eexists _, _, _; by splits.
Qed.

Lemma branch_map d (read : M (RESPValue f64)) :
  accepts read (wire d) ->
  accepts (len <- read_integer;
           if len <? 0 then err InvalidMap
           else entries <- read_elements (read_entry read) len size_of_entry; ok (Map entries))
    (fun s v => wire (S d) (type_byte TMap :: s) v).
Proof.
  intros Hread. eapply accepts_iff.
  { apply (aggregate_accepts _ _ _ _ _ (read_entry_accepts Hread)). intros s x. apply pair_of_nonempty, wire_nonempty. }
  intros s v. split.
  - intros (h & t & l & -> & Hh & Hl & ->). cbn [wire]. by exists h, t.
  - wire_cases; subst; eexists _, _, _; by splits.
Qed.

Lemma branch_attribute d (read : M (RESPValue f64)) :
  accepts read (wire d) ->
  accepts (len <- read_integer;
           if len <? 0 then err InvalidAttribute
           else attrs <- read_elements (read_entry read) len size_of_entry;
                value <- read; ok (Attribute attrs value))
    (fun s v => wire (S d) (type_byte TAttribute :: s) v).
Proof.
  intros Hread. eapply accepts_iff.
  { apply accepts_bind; [apply read_integer_accepts|]. intros len.
    instantiate (1 := fun len s v => 0 <= len /\ then_ (fun s l => each (pair_of (wire d)) s l /\ Z.of_nat (length l) = len)
      (fun l s v => exists x, wire d s x /\ v = Attribute l x) s v). cbn beta.
    destruct (Z.ltb_spec len 0).
    - eapply accepts_iff; [apply accepts_err|]. intros s v. split; [done|]. intros [? _]. lia.
    - eapply accepts_iff; [apply accepts_bind|]; [| |intros s v; split; [intros Hx; by split|by intros [_ Hx]]].
      + apply read_elements_accepts; [by apply read_entry_accepts| |done]. intros s x. apply pair_of_nonempty, wire_nonempty.
      + intros l. by apply accepts_map. }
  intros s v. unfold then_. split.
  - intros (len & s1 & s2 & -> & Hh & _ & l & s3 & s4 & -> & [Hl <-] & x & Hx & ->). cbn [wire]. by exists s1, s3, s4.
  - wire_cases; subst. eexists _, _, _. splits; [done|done|lia|]. eexists _, _, _. splits; [done|done|done|]. by eexists.
Qed.

Lemma push_kind_accepts (v : RESPValue f64) : accepts (push_kind v) (fun s kind => s = [] /\ kind_of v = Some kind).
Proof.
  destruct v as [| | |[]| | | | | | | | | |]; cbn [push_kind kind_of];
    (eapply accepts_iff; [apply accepts_ok || apply accepts_err|]); intros t x; unfold nothing; naive_solver.
Qed.

Lemma branch_push d (read : M (RESPValue f64)) :
  accepts read (wire d) ->
  accepts (len <- read_integer;
           if len <=? 0 then err InvalidPush
           else push_type <- read; kind <- push_kind push_type;
                data <- read_elements read (len - 1) size_of_value; ok (Push kind data))
    (fun s v => wire (S d) (type_byte TPush :: s) v).
Proof.
  intros Hread. eapply accepts_iff.
  { apply accepts_bind; [apply read_integer_accepts|]. intros len.
    instantiate (1 := fun len s v => 0 < len /\ then_ (wire d) (fun ty => then_ (fun s kind => s = [] /\ kind_of ty = Some kind)
      (fun kind s v => exists l, (each (wire d) s l /\ Z.of_nat (length l) = len - 1) /\ v = Push kind l)) s v). cbn beta.
    destruct (Z.leb_spec len 0).
    - eapply accepts_iff; [apply accepts_err|]. intros s v. split; [done|]. intros [? _]. lia.
    - eapply accepts_iff; [apply accepts_bind; [exact Hread|]|intros s v; split; [intros Hx; by split|by intros [_ Hx]]].
      intros ty. apply accepts_bind; [apply push_kind_accepts|]. intros kind.
      apply accepts_map, read_elements_accepts; [done|apply wire_nonempty|lia]. }
  intros s v. unfold then_. split.
  - intros (len & s1 & s2 & -> & Hh & Hlen & ty & s3 & s4 & -> & Hty & kind & s5 & s6 & -> & [-> Hk] & l & [Hl El] & ->).
    cbn [wire app]. exists s1, s3, s6, ty. splits; try done. by replace (1 + Z.of_nat (length l)) with len by lia.
  - wire_cases; subst. eexists _, _, _. splits; [done|done|lia|]. eexists _, _, _. splits; [done|done|].
    eexists _, [], _. splits; [done|done|done|]. eexists. split; [split; [done|lia]|done].
Qed.

Theorem read_value_with_depth_accepts fuel depth :
  (MAX_NESTING_DEPTH + 2 <= fuel + depth)%nat -> (depth <= MAX_NESTING_DEPTH)%nat ->
  accepts (value_at fuel depth) (wire (MAX_NESTING_DEPTH - depth)).
Proof.
  revert depth. induction fuel as [|fuel IH]; intros depth Hf Hd; [lia|]. cbn [read_value_with_depth].
  set (d := (MAX_NESTING_DEPTH - depth)%nat).
  eapply accepts_iff with (P := then_ (fun s c => s = [c]) (fun c s v => wire d (c :: s) v)); cycle 1.
  { intros s v. unfold then_. split.
    - by intros (c & s1 & s2 & -> & -> & H).
    - intros H. pose proof (wire_nonempty _ _ _ H). destruct s as [|c s']; [done|]. by exists c, [c], s'. }
  apply accepts_bind; [apply read_byte_accepts|]. intros byte.
  destruct (from_byte byte) as [ty|] eqn:Ety; cycle 1.
  { eapply accepts_iff; [apply accepts_err|]. intros s v. split; [done|]. intros (ty & ->)%wire_type.
    by rewrite (proj2 (from_byte_type _ ty)) in Ety. }
  apply from_byte_type in Ety as ->.
  assert ((depth < MAX_NESTING_DEPTH)%nat -> accepts (value_at fuel (S depth)) (wire (MAX_NESTING_DEPTH - S depth))) as Hread
    by (intros; apply IH; lia).
  assert (forall (m : M (RESPValue f64)) ty,
    match ty with TArray | TSet | TMap | TAttribute | TPush => True | _ => False end ->
    (forall d, accepts (value_at fuel (S depth)) (wire d) -> accepts m (fun s v => wire (S d) (type_byte ty :: s) v)) ->
    accepts (check_depth depth ;; m) (fun s v => wire d (type_byte ty :: s) v)) as Hagg.
  { intros m t Ht Hm. eapply accepts_iff; [apply check_depth_accepts; intros Hlt; by apply Hm, Hread|].
    intros s v. destruct (decide (depth < MAX_NESTING_DEPTH)%nat) as [Hlt|].
    - replace d with (S (MAX_NESTING_DEPTH - S depth)) by lia. naive_solver.
    - split; [naive_solver|]. replace d with 0%nat by lia. destruct t; try done; wire_cases; lia. }
  destruct ty; first [apply branch_line; naive_solver | apply branch_integer | apply branch_bulk | apply branch_null
    | apply branch_double | apply branch_boolean | apply branch_blob_error | apply branch_verbatim
    | apply Hagg; [done|]; intros d' Hd';
      first [by apply branch_array | by apply branch_set | by apply branch_map | by apply branch_attribute | by apply branch_push]].
Qed.
End Grammar.

(** ** The reader *)
Section ReadValue.
Context {f64 : Type} (parse_f64 : bytes -> option f64) (INFINITY NEG_INFINITY NAN : f64).
Context (size_of_value size_of_entry : Z).
#[local] Abbreviation reply := (wire parse_f64 INFINITY NEG_INFINITY NAN MAX_NESTING_DEPTH).
#[local] Abbreviation read_reply := (read_value parse_f64 INFINITY NEG_INFINITY NAN size_of_value size_of_entry).

Lemma read_value_accepts : accepts read_reply reply.
Proof.
  intros r Hr. set (r0 := set_budget r (Z.of_nat (length (buffer r) - pos r))).
  assert (ready r0) as Hr0 by exact Hr.
  destruct (read_value_with_depth_accepts parse_f64 INFINITY NEG_INFINITY NAN size_of_value size_of_entry
    (S (S MAX_NESTING_DEPTH)) 0 ltac:(lia) ltac:(lia) r0 Hr0) as [Hc Hs].
  rewrite Nat.sub_0_r in *. split; [exact Hc|exact Hs].
Qed.

Lemma read_value_stable : stable read_reply.
Proof.
  unfold read_value. intros b r1 r2 H.
  exact (read_value_with_depth_stable _ _ _ _ _ _ _ _ b (set_budget r1 _) (set_budget r2 _) H).
Qed.

Lemma read_value_returns r :
  0 <= size_of_value -> 0 <= size_of_entry -> ready r ->
  exists r' x, read_reply r = Some (r', x) /\ buffer r' = buffer r
    /\ (pos r <= pos r' <= length (buffer r))%nat
    /\ 0 <= prealloc_budget r' <= Z.of_nat (length (buffer r) - pos r).
Proof.
  intros Hv He [Hp _]. set (r0 := set_budget r (Z.of_nat (length (buffer r) - pos r))).
  destruct (read_value_with_depth_returns parse_f64 INFINITY NEG_INFINITY NAN size_of_value size_of_entry Hv He
    (S (S MAX_NESTING_DEPTH)) 0 ltac:(lia) ltac:(lia) r0) as (r' & x & E & (? & ? & ?) & _).
  { split; [exact Hp|cbn; lia]. }
  exists r', x. cbn [buffer pos prealloc_budget r0 set_budget] in *. splits; [exact E|done || lia..].
Qed.

(** C7.  [read_value] always returns, within the buffer and without reserving more than
    the bytes that are left.  It succeeds exactly when what is left starts with an
    encoding of a reply that nests at most 128 levels, returns the reply, and takes
    exactly its encoding; and there is only one reply that the bytes can start with. *)
Theorem read_value_decodes r :
  0 <= size_of_value -> 0 <= size_of_entry -> ready r ->
  exists r' x, read_reply r = Some (r', x) /\ buffer r' = buffer r
    /\ (pos r <= pos r' <= length (buffer r))%nat
    /\ 0 <= prealloc_budget r' <= Z.of_nat (length (buffer r) - pos r)
    /\ match x with
       | Ok v => exists s, reply s v /\ took r s r'
           /\ forall s' t' v', drop (pos r) (buffer r) = s' ++ t' -> reply s' v' -> s' = s /\ v' = v
       | Err _ => forall s t v, drop (pos r) (buffer r) = s ++ t -> ~ reply s v
       end.
Proof.
  intros Hv He Hr. destruct (read_value_returns r Hv He Hr) as (r' & x & E & Hb & Hp & Hbud).
  exists r', x. splits; [done || lia..|]. destruct (read_value_accepts r Hr) as [Hc Hs]. destruct x as [v|e].
  - destruct (Hs r' v E) as (s & Hw & T). exists s. splits; [done..|]. intros s' t' v' E' Hw'.
    destruct (Hc s' t' v' Hw' E') as (r'' & E2 & T2). rewrite E in E2. injection E2 as <- <-. split; [|done].
    destruct T as (_ & P1 & _ & D1), T2 as (_ & P2 & _ & D2). rewrite D1 in D2.
    apply app_inv_tail in D2. done.
  - intros s t v E' Hw. destruct (Hc s t v Hw E') as (r'' & E2 & _). rewrite E in E2. done.
Qed.
End ReadValue.

Lemma read_value_decodes_witness :
  let r := init (bstr "*2" ++ CRLF ++ bstr ":-7" ++ CRLF ++ bstr "%1" ++ CRLF ++ bstr "+k" ++ CRLF
                 ++ bstr "$3" ++ CRLF ++ bstr "abc" ++ CRLF ++ bstr "rest") in
  ready r /\ exists r', read_value (f64 := Z) (fun _ => None) 0 0 0 32 64 r
    = Some (r', Ok (Array [Integer (-7); Map [(SimpleString (bstr "k"), BulkString (Some (bstr "abc")))]]))
    /\ drop (pos r') (buffer r') = bstr "rest".
Proof.
  intros r. assert (ready r) as Hr by (split; [cbn; lia|reflexivity]). split; [exact Hr|].
  destruct (read_value_decodes (f64 := Z) (fun _ => None) 0 0 0 32 64 r ltac:(lia) ltac:(lia) Hr)
    as (r' & x & E & Hb & _ & _ & Hx).
  assert (Some (r', x) = Some (set_pos r 26,
    Ok (Array [Integer (-7); Map [(SimpleString (bstr "k"), BulkString (Some (bstr "abc")))]]))) as E2.
  { rewrite <- E. vm_compute. reflexivity. }
  injection E2 as -> ->. eexists. split; [exact E|reflexivity].
Defined.
