(* ===== verification/ValkeyScanner.v ===== *)
(** * The incremental reply scanner of valkey/valkey_protocol.rs

    [ReplyScanner] looks for the end of the next reply without building it, and goes on
    where it stopped when more bytes arrive.  The stack of unfinished aggregates has the
    innermost first.  The loop takes a byte in every round, so the length of the buffer
    bounds it. *)

From S2P Require Import Prelude Bytes ValkeyProtocol.
#[local] Open Scope reader_scope.

Inductive ScanResult := Complete | NeedMoreData.

Record ReplyScanner := { sc_pos : nat; sc_stack : list Z; sc_crlf_skip : nat }.
Definition reset : ReplyScanner := {| sc_pos := 0; sc_stack := []; sc_crlf_skip := 0 |}.

(** The payload of a blob and its CRLF, which must both be buffered. *)
Definition skip_payload (len : Z) (invalid : RedisError) : M (option Z) :=
  r <- get;
  if Z.of_nat (length (buffer r) - pos r) <? len + 2 then err InvalidResponse
  else
    let end_ := (pos r + Z.to_nat len)%nat in
    if negb (bool_decide (buffer r !! end_ = Some 13)) || negb (bool_decide (buffer r !! S end_ = Some 10))
    then err invalid
    else put (set_pos r (end_ + 2)) ;; ok None.

Definition scan_one (depth : nat) : M (option Z) :=
  type_byte <- read_byte;
  match from_byte type_byte with
  | None => err InvalidResponseType
  | Some ty =>
      match ty with
      | TSimpleString | TError | TInteger | TDouble | TBoolean | TBigNumber =>
          ignored <- read_until_crlf; ok None
      | TNull => str <- read_until_crlf; match str with [] => ok None | _ => err InvalidNull end
      | TBulkString | TBlobError | TVerbatimString =>
          let invalid :=
            match ty with
            | TBlobError => InvalidBlobError
            | TVerbatimString => InvalidVerbatimString
            | _ => InvalidBulkString
            end in
          len <- read_integer;
          if len <? 0 then (if bool_decide (ty = TBulkString) then ok None else err invalid)
          else if MAX_BULK_LEN <? len then err invalid
          else skip_payload len invalid
      | TArray | TSet | TPush =>
          check_depth depth ;;
          len <- read_integer;
          match ty with
          | TArray => if len <? 0 then ok (Some 0) else ok (Some len)
          | TSet => if len <? 0 then err InvalidSet else ok (Some len)
          | _ => if len <=? 0 then err InvalidPush else ok (Some len)
          end
      | TMap =>
          check_depth depth ;;
          len <- read_integer;
          if len <? 0 then err InvalidMap else ok (Some (saturating_mul64 len 2))
      | TAttribute =>
          check_depth depth ;;
          len <- read_integer;
          if len <? 0 then err InvalidAttribute
          else ok (Some (saturating_add64 (saturating_mul64 len 2) 1))
      end
  end.

(** Unwinds every aggregate that a finished element completes. *)
Fixpoint unwind (stack : list Z) : list Z :=
  match stack with
  | [] => []
  | remaining :: stack => if 0 <? remaining - 1 then remaining - 1 :: stack else unwind stack
  end.

Definition finish (p : nat) (stack : list Z) : ReplyScanner + option (ReplyScanner * result RedisError ScanResult) :=
  let s := {| sc_pos := p; sc_stack := unwind stack; sc_crlf_skip := 0 |} in
  match unwind stack with [] => inr (Some (s, Ok Complete)) | _ => inl s end.

Definition reader_at (buf : bytes) (s : ReplyScanner) : Reader :=
  {| buffer := buf; pos := sc_pos s; prealloc_budget := 0; crlf_skip := sc_crlf_skip s |}.

Definition scan_step (buf : bytes) (s : ReplyScanner) :
    ReplyScanner + option (ReplyScanner * result RedisError ScanResult) :=
  match scan_one (length (sc_stack s)) (reader_at buf s) with
  | None => inr None
  | Some (r, Err e) =>
      if bool_decide (e = InvalidResponse) then
        let skip := if (pos r =? sc_pos s + 1)%nat then (length buf - pos r - 1)%nat else 0%nat in
        inr (Some ({| sc_pos := sc_pos s; sc_stack := sc_stack s; sc_crlf_skip := skip |}, Ok NeedMoreData))
      else inr (Some (s, Err e))
  | Some (r, Ok children) =>
      match children with
      | Some n =>
          if 0 <? n then inl {| sc_pos := pos r; sc_stack := n :: sc_stack s; sc_crlf_skip := 0 |}
          else finish (pos r) (sc_stack s)
      | None => finish (pos r) (sc_stack s)
      end
  end.

Definition scan (s : ReplyScanner) (buf : bytes) : option (ReplyScanner * result RedisError ScanResult) :=
  mjoin (run_loop (length buf + 2) (scan_step buf) s).

(** ** One element *)
Lemma skip_payload_returns len e : 0 <= len -> returns 0 (skip_payload len e).
Proof.
  intros Hlen r [H Hb]. unfold skip_payload, bind, get, put, ok, err.
  destruct (Z.ltb_spec (Z.of_nat (length (buffer r) - pos r)) (len + 2)).
  { eexists _, _. splits; [done|by apply spans_refl|done]. }
  destruct (_ || _); eexists _, _; (split; [done|]).
  - split; [by apply spans_refl|done].
  - unfold spans; cbn [buffer pos prealloc_budget set_pos]. splits; (done || lia).
Qed.

Lemma scan_one_returns depth : returns 1 (scan_one depth).
Proof.
  apply returns_bind_0; [apply read_byte_returns|]. intros c.
  destruct (from_byte c) as [[]|]; cbv zeta; repeat step_returns; try (apply skip_payload_returns; lia).
  all: apply check_depth_returns; intros _; repeat step_returns.
Qed.

Lemma skip_payload_stable len e : 0 <= len -> stable (skip_payload len e).
Proof.
  intros Hlen b r1 r2 (Hb & Hp & Hl & Hs1 & Hs2). unfold skip_payload, bind, get, put, ok, err.
  rewrite Hb, Hp, length_app. destruct (Z.ltb_spec (Z.of_nat (length (buffer r1) - pos r1)) (len + 2)); [by left|].
  destruct (Z.ltb_spec (Z.of_nat (length (buffer r1) + length b - pos r1)) (len + 2)); [lia|].
  rewrite !lookup_app_l by lia. destruct (_ || _); [right; by eexists|]. eexists. split; [done|].
  unfold extends; cbn [buffer pos crlf_skip set_pos]. splits; (done || lia).
Qed.

Lemma scan_one_stable depth : stable (scan_one depth).
Proof.
  apply stable_bind; [apply read_byte_stable|]. intros c.
  destruct (from_byte c) as [[]|]; cbv zeta; repeat step_stable; apply skip_payload_stable; lia.
Qed.

(** ** Skipping what was searched *)
Definition view {A} (o : option (Reader * result RedisError A)) : option (nat * result RedisError A) :=
  match o with Some (r, x) => Some (pos r, x) | None => None end.

Definition unskipped (r : Reader) : Reader :=
  {| buffer := buffer r; pos := pos r; prealloc_budget := prealloc_budget r; crlf_skip := 0 |}.

(** No line ends in the first [k] bytes behind [p]. *)
Definition searched (buf : bytes) (p k : nat) : Prop := find_crlf k (drop p buf) 0 = None.

Lemma find_crlf_skip k n l i :
  find_crlf k l i = None -> (k <= n)%nat -> (n <= length l)%nat ->
  find_crlf (n - k) (drop k l) (i + k) = find_crlf n l i.
Proof.
  revert n l i. induction k as [|k IH]; intros n l i Hk Hn Hl.
  { by rewrite Nat.sub_0_r, Nat.add_0_r. }
  destruct n as [|n]; [lia|]. destruct l as [|c l]; [cbn in Hl; lia|]. cbn [find_crlf drop Nat.sub length] in *.
  destruct ((c =? 13) && _); [done|]. rewrite <- (IH n l (S i)) by (done || lia). f_equal. lia.
Qed.
Lemma find_crlf_None_le k n l i : find_crlf n l i = None -> (k <= n)%nat -> find_crlf k l i = None.
Proof.
  revert n l i. induction k as [|k IH]; intros n l i Hn Hk; [done|]. destruct n as [|n]; [lia|].
  destruct l as [|c l]; [done|]. cbn [find_crlf] in *. destruct ((c =? 13) && _); [done|]. apply (IH n); [done|lia].
Qed.

Lemma read_until_crlf_skip r :
  searched (buffer r) (pos r) (crlf_skip r) -> read_until_crlf r = read_until_crlf (unskipped r).
Proof.
  intros H. unfold read_until_crlf, bind, get, put, ok, err. cbn [buffer pos crlf_skip unskipped].
  set (buf := drop (pos r) (buffer r)). rewrite Nat.min_0_l, Nat.sub_0_r, drop_0.
  pose proof (line_limit_le (length buf)).
  pose proof (find_crlf_skip (Nat.min (crlf_skip r) (line_limit (length buf))) (line_limit (length buf)) buf 0) as F.
  rewrite Nat.add_0_l in F. rewrite F; [done| |lia|lia]. eapply find_crlf_None_le; [exact H|lia].
Qed.

Lemma bind_same {A C} (m : M A) (k : A -> M C) r1 r2 : m r1 = m r2 -> bind m k r1 = bind m k r2.
Proof. unfold bind. by intros ->. Qed.
Lemma bind_read_byte {C} (k : Z -> M C) r :
  bind read_byte k r = match buffer r !! pos r with
                       | None => Some (r, Err InvalidResponse)
                       | Some c => k c (set_pos r (S (pos r)))
                       end.
Proof. unfold bind, read_byte, bind, get, put, ok, err. by destruct (buffer r !! pos r). Qed.
Lemma bind_check_depth {C} depth (k : M C) r :
  (check_depth depth ;; k) r = if (MAX_NESTING_DEPTH <=? depth)%nat then Some (r, Err NestingDepthExceeded) else k r.
Proof. unfold bind, check_depth, ok, err. by destruct (_ <=? _)%nat. Qed.

Lemma scan_one_skip depth r :
  searched (buffer r) (S (pos r)) (crlf_skip r) ->
  view (scan_one depth r) = view (scan_one depth (unskipped r)).
Proof.
  intros H. unfold scan_one. rewrite !bind_read_byte. cbn [buffer pos unskipped].
  destruct (buffer r !! pos r) as [c|]; [|done].
  set (r1 := set_pos r (S (pos r))). set (r2 := set_pos (unskipped r) (S (pos r))).
  assert (read_until_crlf r1 = read_until_crlf r2) as E by exact (read_until_crlf_skip r1 H).
  assert (read_integer r1 = read_integer r2) as E' by (by apply bind_same).
  destruct (from_byte c) as [[]|]; rewrite ?bind_check_depth; cbv zeta; try done;
    try (destruct (_ <=? _)%nat; [done|]); f_equal; by apply bind_same.
Qed.

(** ** The loop *)
Definition norm (s : ReplyScanner) : ReplyScanner :=
  {| sc_pos := sc_pos s; sc_stack := sc_stack s; sc_crlf_skip := 0 |}.

(** What a caller uses of a scan: after an error the scanner is not used again. *)
Definition answer (o : option (ReplyScanner * result RedisError ScanResult)) :=
  match o with Some (_, Err e) => Some (reset, Err e) | o => o end.

Lemma reader_at_wf buf s : (sc_pos s <= length buf)%nat -> wf (reader_at buf s).
Proof. by split. Qed.

Lemma scan_one_at buf s :
  (sc_pos s <= length buf)%nat ->
  exists p x, view (scan_one (length (sc_stack s)) (reader_at buf s)) = Some (p, x) /\ (sc_pos s <= p <= length buf)%nat
    /\ match x with Ok _ => (sc_pos s < p)%nat | Err _ => True end.
Proof.
  intros H. destruct (scan_one_returns (length (sc_stack s)) _ (reader_at_wf buf s H)) as (r & x & -> & (_ & Hp & _) & Hx).
  exists (pos r), x. cbn [buffer pos reader_at] in *. splits; [done|lia..|]. destruct x; [lia|done].
Qed.

Lemma finish_pos p st s : finish p st = inl s -> sc_pos s = p /\ sc_crlf_skip s = 0%nat.
Proof. unfold finish. destruct (unwind st); [done|]. by intros [= <-]. Qed.

Lemma scan_step_inl buf s s' :
  (sc_pos s <= length buf)%nat -> scan_step buf s = inl s' ->
  (sc_pos s < sc_pos s' <= length buf)%nat /\ sc_crlf_skip s' = 0%nat.
Proof.
  intros H. destruct (scan_one_at buf s H) as (p & x & E & Hp & Hx). unfold scan_step.
  destruct (scan_one _ _) as [[r y]|]; [|done]. injection E as -> ->. destruct x as [children|e].
  - assert (finish p (sc_stack s) = inl s' -> (sc_pos s < sc_pos s' <= length buf)%nat /\ sc_crlf_skip s' = 0%nat) as Hf.
    { intros [-> ->]%finish_pos. lia. }
    destruct children as [n|]; [|done]. destruct (0 <? n); [|done]. intros [= <-]. cbn. lia.
  - by destruct (bool_decide _).
Qed.

Lemma scan_returns s buf :
  (sc_pos s <= length buf)%nat -> exists s' x, scan s buf = Some (s', x).
Proof.
  intros H. unfold scan.
  edestruct (run_loop_rule (scan_step buf) (fun s => (sc_pos s <= length buf)%nat)
    (fun r => exists s' x, r = Some (s', x)) (fun s => (length buf - sc_pos s)%nat)) as (r & -> & s' & x & ->).
  4: { by exists s', x. }
  - intros s1 Hs1. destruct (scan_step buf s1) as [s2|r] eqn:E.
    + apply scan_step_inl in E; [lia|done].
    + destruct (scan_one_at buf s1 Hs1) as (p & x & Ev & _). unfold scan_step in E.
      destruct (scan_one _ _) as [[r1 y]|]; [|done]. destruct y as [children|e].
      * assert (forall st r, finish (pos r1) st = inr r -> exists s' x, r = Some (s', x)) as Hf.
        { intros st r'. unfold finish. destruct (unwind st); [|done]. intros [= <-]. by eexists _, _. }
        destruct children as [n|]; [|by eapply Hf]. destruct (0 <? n); [done|by eapply Hf].
      * destruct (bool_decide _); injection E as <-; by eexists _, _.
  - exact H.
  - lia.
Qed.

Lemma scan_loops s buf out : (sc_pos s <= length buf)%nat -> loops (scan_step buf) s (Some out) <-> scan s buf = Some out.
Proof.
  intros H. unfold scan. split.
  - intros Hl. destruct (scan_returns s buf H) as (s' & x & E). unfold scan in *.
    destruct (run_loop (length buf + 2) (scan_step buf) s) as [r|] eqn:Er; [|done].
    by rewrite (loops_run _ _ _ _ _ Hl Er).
  - intros E. exists (length buf + 2)%nat. destruct (run_loop _ _ _); [|done]. cbn in E. by rewrite E.
Qed.

(** The state between two elements: what was searched is forgotten. *)
Definition between (buf : bytes) (s : ReplyScanner) : Prop := (sc_pos s <= length buf)%nat /\ sc_crlf_skip s = 0%nat.

Lemma scan_step_extend buf b s :
  between buf s ->
  match scan_step buf s with
  | inr (Some (_, Ok NeedMoreData)) => True
  | o => scan_step (buf ++ b) s = o
  end.
Proof.
  intros [H Hs]. pose proof (scan_one_stable (length (sc_stack s)) b (reader_at buf s) (reader_at (buf ++ b) s)) as Hst.
  destruct (scan_one_at buf s H) as (p & x & Ev & _). unfold scan_step.
  destruct (scan_one _ (reader_at buf s)) as [[r [children|e]]|]; [| |done].
  - destruct Hst as (r2 & -> & _ & -> & _); [by splits|].
    destruct children as [n|]; [destruct (0 <? n); [done|]|]; unfold finish; by destruct (unwind (sc_stack s)).
  - case_bool_decide as He; [done|]. destruct Hst as [?|(r2 & ->)]; [by splits|done|]. by rewrite bool_decide_false.
Qed.

Lemma scan_extend buf b s s' x :
  between buf s -> scan s buf = Some (s', x) -> x <> Ok NeedMoreData -> scan s (buf ++ b) = Some (s', x).
Proof.
  intros Hb H Hx. pose proof Hb as [Hp _]. apply scan_loops in H as [fuel H]; [|done].
  apply run_iterates in H as (n & s0 & Hn & E).
  destruct (iterates_transfer (scan_step buf) (scan_step (buf ++ b)) (between buf) n s s0) as [Hn' Hb0]; [|done..|].
  { intros s1 s2 H1 E1. split; [|pose proof (scan_step_extend buf b s1 H1) as Hx'; by rewrite E1 in Hx'].
    apply scan_step_inl in E1; [|apply H1]. unfold between. lia. }
  apply scan_loops; [rewrite length_app; lia|]. eapply iterates_loops; [exact Hn'|].
  pose proof (scan_step_extend buf b s0 Hb0) as E'. rewrite E in E'. by destruct x as [[]|].
Qed.

(** ** Going on where the scan stopped *)
Lemma scan_step_norm buf s :
  searched buf (S (sc_pos s)) (sc_crlf_skip s) ->
  match scan_step buf s with
  | inr (Some (_, Err e)) => exists s', scan_step buf (norm s) = inr (Some (s', Err e))
  | o => scan_step buf (norm s) = o
  end.
Proof.
  intros H. unfold scan_step. cbn [norm sc_pos sc_stack].
  pose proof (scan_one_skip (length (sc_stack s)) (reader_at buf s) H) as E.
  change (unskipped (reader_at buf s)) with (reader_at buf (norm s)) in E.
  destruct (scan_one _ (reader_at buf s)) as [[r x]|], (scan_one _ (reader_at buf (norm s))) as [[r2 x2]|]; try done.
  injection E as <- <-. destruct x as [children|e].
  - destruct children as [n|]; [destruct (0 <? n); [done|]|]; unfold finish; by destruct (unwind (sc_stack s)).
  - case_bool_decide; [done|]. by eexists.
Qed.

Lemma scan_norm buf s :
  (sc_pos s <= length buf)%nat -> searched buf (S (sc_pos s)) (sc_crlf_skip s) ->
  answer (scan s buf) = answer (scan (norm s) buf).
Proof.
  intros H Hs. pose proof (scan_step_norm buf s Hs) as E. unfold scan. rewrite Nat.add_succ_r. cbn [run_loop].
  destruct (scan_step buf s) as [s'|[[s' [|e]]|]]; [by rewrite E..| |by rewrite E].
  destruct E as (s2 & ->). done.
Qed.

(** [s] may take over from a fresh scan: on [buf] and any longer buffer the answer is
    that of a scan from the start. *)
Definition resumable (s : ReplyScanner) (buf : bytes) : Prop :=
  (sc_pos s <= length buf)%nat /\ forall b, answer (scan s (buf ++ b)) = answer (scan reset (buf ++ b)).

Lemma resumable_reset buf : resumable reset buf.
Proof. split; [cbn; lia|done]. Qed.
Lemma resumable_app s buf b : resumable s buf -> resumable s (buf ++ b).
Proof. intros [H1 H2]. split; [rewrite length_app; lia|]. intros b'. rewrite <- app_assoc. apply H2. Qed.

(** The bytes that are not searched again. *)
Lemma read_until_crlf_searched r r' :
  crlf_skip r = 0%nat -> read_until_crlf r = Some (r', Err InvalidResponse) ->
  pos r' = pos r /\ forall b, searched (buffer r ++ b) (pos r) (length (buffer r) - pos r - 1).
Proof.
  intros Hs. unfold read_until_crlf, bind, get, put, ok, err. rewrite Hs, Nat.min_0_l, Nat.sub_0_r, drop_0.
  pose proof (length_drop (buffer r) (pos r)) as Hl. set (buf := drop (pos r) (buffer r)) in *.
  destruct (find_crlf _ _ _) as [k|] eqn:E; [done|].
  destruct (Z.ltb_spec (MAX_LINE_LEN + 1) (Z.of_nat (length buf))); [done|]. intros [= <-]. split; [done|].
  intros b. unfold searched. destruct (decide (length buf = 0%nat)) as [E0|].
  { rewrite <- Hl, E0. done. }
  rewrite drop_app_le, <- Hl by lia. fold buf.
  apply find_crlf_None_app; [|lia]. eapply find_crlf_None_le; [exact E|]. unfold line_limit. lia.
Qed.

Lemma bind_Err {A C} (m : M A) (k : A -> M C) r r' e :
  bind m k r = Some (r', Err e) ->
  m r = Some (r', Err e) \/ exists r1 x, m r = Some (r1, Ok x) /\ k x r1 = Some (r', Err e).
Proof. unfold bind. destruct (m r) as [[r1 [x|e']]|]; [eauto|intros [= -> ->]; by left|done]. Qed.

Lemma read_integer_Err r r' :
  read_integer r = Some (r', Err InvalidResponse) -> read_until_crlf r = Some (r', Err InvalidResponse).
Proof.
  intros [?|(r1 & str & _ & E)]%bind_Err; [done|]. by destruct (parse_int _ _ _).
Qed.

(** The one place where a scan blocks without having passed a line. *)
Lemma scan_one_searched depth r r' :
  crlf_skip r = 0%nat -> wf r -> scan_one depth r = Some (r', Err InvalidResponse) -> pos r' = (pos r + 1)%nat ->
  forall b, searched (buffer r ++ b) (S (pos r)) (length (buffer r) - pos r' - 1).
Proof.
  intros Hs Hwf H Hp. rewrite Hp. unfold scan_one in H. rewrite bind_read_byte in H.
  destruct (buffer r !! pos r) as [c|] eqn:Ec; [|injection H as <-; lia].
  set (r1 := set_pos r (S (pos r))) in *. replace (pos r + 1)%nat with (pos r1) by (cbn; lia).
  assert (wf r1) as Hwf1. { apply lookup_lt_Some in Ec. destruct Hwf. split; [cbn; lia|done]. }
  enough (read_until_crlf r1 = Some (r', Err InvalidResponse)) as E.
  { by apply read_until_crlf_searched in E as [_ E]. }
  assert (forall (k : Z -> M (option Z)), bind read_integer k r1 = Some (r', Err InvalidResponse) ->
    (forall x, returns 0 (k x)) -> read_until_crlf r1 = Some (r', Err InvalidResponse)) as Hint.
  { intros k [E|(r2 & n & E & Ek)]%bind_Err Hk; [by apply read_integer_Err|].
    destruct (read_integer_returns r1 Hwf1) as (r2' & y & E2 & Hsp & Hy). rewrite E in E2. injection E2 as <- <-.
    destruct (Hk n r2 (spans_wf _ _ Hsp)) as (r3 & z & E3 & (_ & Hp3 & _) & _). rewrite Ek in E3. injection E3 as <- <-.
    cbn [pos r1 set_pos] in *. lia. }
  destruct (from_byte c) as [[]|]; rewrite ?bind_check_depth in H; cbv zeta in H; try done.
  all: try (destruct (_ <=? _)%nat; [done|]).
  all: try (eapply Hint; [exact H|]; intros ?; cbv beta; repeat step_returns; apply skip_payload_returns; lia).
  all: apply bind_Err in H as [?|(r2 & str & _ & E)]; [done|]; first [done | by destruct str].
Qed.

Lemma scan_resumable s buf s' :
  resumable s buf -> scan s buf = Some (s', Ok NeedMoreData) -> resumable s' buf.
Proof.
  intros [_ H] Hs. specialize (H []). rewrite app_nil_r, Hs in H. cbn [answer] in H.
  assert (scan reset buf = Some (s', Ok NeedMoreData)) as E.
  { destruct (scan reset buf) as [[s1 [|e]]|]; [exact (eq_sym H)|done..]. }
  clear H Hs. apply scan_loops in E as [fuel E]; [|cbn; lia]. apply run_iterates in E as (n & s0 & Hn & E).
  assert (forall b, iterates (scan_step (buf ++ b)) n reset s0 /\ between buf s0) as Hit.
  { intros b. apply (iterates_transfer (scan_step buf)); [|split; [cbn; lia|done]|done].
    intros s1 s2 H1 E1. split; [|pose proof (scan_step_extend buf b s1 H1) as Hx; by rewrite E1 in Hx].
    apply scan_step_inl in E1; [|apply H1]. unfold between. lia. }
  destruct (Hit []) as [_ [Hp0 Hs0]].
  assert (norm s' = s0 /\ forall b, searched (buf ++ b) (S (sc_pos s')) (sc_crlf_skip s')) as [Hnorm Hsr].
  { unfold scan_step in E. destruct (scan_one _ _) as [[r [children|e]]|] eqn:E1; [| |done].
    { exfalso. assert (forall p st, finish p st <> inr (Some (s', Ok NeedMoreData))) as Hf.
      { intros p st. unfold finish. by destruct (unwind st). }
      destruct children as [k|]; [destruct (0 <? k); [done|]|]; by eapply Hf. }
    case_bool_decide as He; [subst e|done]. injection E as <-. cbn [sc_pos sc_crlf_skip sc_stack norm].
    split; [destruct s0; cbn in *; by subst|]. intros b.
    destruct (Nat.eqb_spec (pos r) (sc_pos s0 + 1)) as [Hr|]; [|done].
    exact (scan_one_searched _ (reader_at buf s0) _ Hs0 (reader_at_wf _ _ Hp0) E1 Hr b). }
  split; [by rewrite <- Hnorm in Hp0|]. intros b.
  rewrite scan_norm; [|rewrite length_app; rewrite <- Hnorm in Hp0; cbn in Hp0; lia|done]. rewrite Hnorm. f_equal.
  destruct (scan_returns s0 (buf ++ b)) as (s2 & x & E2); [rewrite length_app; lia|]. rewrite E2. symmetry.
  apply scan_loops; [cbn; lia|]. apply scan_loops in E2 as [fuel2 E2]; [|rewrite length_app; lia].
  apply run_iterates in E2 as (n2 & s3 & Hn2 & E3). destruct (Hit b) as [Hb _].
  eapply iterates_loops; [by eapply iterates_app|exact E3].
Qed.

(** A scan over chunks of a stream: after every chunk the scanner goes on in the
    buffer that has grown, until it has an answer. *)
Fixpoint scan_chunks (s : ReplyScanner) (buf : bytes) (chunks : list bytes) :
    option (ReplyScanner * result RedisError ScanResult) :=
  match chunks with
  | [] => scan s buf
  | chunk :: chunks =>
      match scan s buf with
      | Some (s, Ok NeedMoreData) => scan_chunks s (buf ++ chunk) chunks
      | o => o
      end
  end.

(** C8.  Scanning a stream as it arrives, and only going on where the last scan
    stopped, finds what one scan of the whole stream finds: the same end of the reply,
    the same error, or that bytes are missing, however the stream is cut into chunks. *)
Theorem scan_incremental buf chunks :
  answer (scan_chunks reset buf chunks) = answer (scan reset (buf ++ concat chunks)).
Proof.
  enough (forall s, resumable s buf -> answer (scan_chunks s buf chunks) = answer (scan reset (buf ++ concat chunks))) as H
    by apply H, resumable_reset.
  revert buf. induction chunks as [|chunk chunks IH]; intros buf s Hs; cbn [scan_chunks concat].
  { destruct Hs as [_ Hs]. specialize (Hs []). by rewrite app_nil_r in *. }
  destruct (scan_returns s buf) as (s' & x & E); [apply Hs|]. rewrite E.
  assert (x = Ok NeedMoreData \/ x <> Ok NeedMoreData) as [->|Hx] by (destruct x as [[]|]; auto).
  { rewrite (IH (buf ++ chunk) s'); [by rewrite app_assoc|]. by eapply resumable_app, scan_resumable. }
  pose proof Hs as [_ Hr]. specialize (Hr []). rewrite app_nil_r, E in Hr.
  destruct (scan_returns reset buf) as (s2 & x2 & E2); [cbn; lia|]. rewrite E2 in Hr.
  assert (x2 = x) as -> by (destruct x, x2; cbn in Hr; congruence).
  rewrite (scan_extend buf (chunk ++ concat chunks) reset s2 x); [|split; [cbn; lia|done]|done|done].
  destruct x as [[]|]; [exact Hr|done|exact Hr].
Qed.

(** ** The scanner follows the reader *)
Definition completes {A} (m : M A) (s : bytes) (x : A) : Prop := forall r t,
  ready r -> drop (pos r) (buffer r) = s ++ t -> exists r', m r = Some (r', Ok x) /\ took r s r'.

Lemma accepts_completes {A} (m : M A) P s x : accepts m P -> P s x -> completes m s x.
Proof. intros H HP r t Hr E. destruct (H r Hr) as [Hc _]. by eapply Hc. Qed.
Lemma completes_ok {A} (x : A) : completes (ok x) [] x.
Proof. intros r t Hr _. exists r. split; [done|by apply took_nil]. Qed.
Lemma completes_bind {A C} (m : M A) (k : A -> M C) s1 s2 x y :
  completes m s1 x -> completes (k x) s2 y -> completes (bind m k) (s1 ++ s2) y.
Proof.
  intros Hm Hk r t Hr E. rewrite <- app_assoc in E. destruct (Hm r _ Hr E) as (r1 & E1 & T1).
  unfold bind. rewrite E1. pose proof T1 as (_ & _ & Hr1 & _).
  destruct (Hk r1 t Hr1 (took_rest _ _ _ _ T1 E)) as (r2 & E2 & T2). exists r2. split; [done|by eapply took_trans].
Qed.
Lemma completes_last {A C} (m : M A) (k : A -> M C) s x y :
  completes m s x -> k x = ok y -> completes (bind m k) s y.
Proof. intros Hm Hk. rewrite <- (app_nil_r s). eapply completes_bind; [exact Hm|]. rewrite Hk. apply completes_ok. Qed.

Lemma completes_line str : is_line str -> completes read_until_crlf (str ++ CRLF) str.
Proof. intros H. eapply accepts_completes; [apply read_until_crlf_accepts|done]. Qed.
Lemma completes_integer h n : int_line h n -> completes read_integer h n.
Proof. intros H. eapply accepts_completes; [apply read_integer_accepts|done]. Qed.

Lemma completes_type {C} ty s x (k : Z -> M C) :
  completes (k (type_byte ty)) s x -> completes (bind read_byte k) (type_byte ty :: s) x.
Proof. intros H. apply (completes_bind _ _ [_] s (type_byte ty)); [|done]. eapply accepts_completes; [apply read_byte_accepts|done]. Qed.

Lemma completes_payload p e : completes (skip_payload (Z.of_nat (length p)) e) (p ++ CRLF) None.
Proof.
  intros r t Hr E. unfold skip_payload, bind, get, put, ok, err.
  pose proof (f_equal length E) as Hl. rewrite length_drop, !length_app in Hl. cbn [length CRLF] in Hl.
  destruct (Z.ltb_spec (Z.of_nat (length (buffer r) - pos r)) (Z.of_nat (length p) + 2)); [lia|].
  rewrite Nat2Z.id. rewrite <- app_assoc in E. pose proof (drop_of_app _ _ _ _ E) as E2.
  change (CRLF ++ t) with (13 :: 10 :: t) in E2.
  assert (buffer r !! (pos r + length p)%nat = Some 13 /\ buffer r !! S (pos r + length p) = Some 10) as [-> ->].
  { split; [by eapply lookup_of_drop|]. eapply lookup_of_drop, drop_of_cons, E2. }
  cbn [negb orb bool_decide]. rewrite !bool_decide_true by done. cbn [negb orb].
  eexists. split; [done|]. eapply took_intro; [done|by rewrite <- app_assoc|done| |apply Hr].
  cbn [pos set_pos]. rewrite length_app. cbn. lia.
Qed.

Lemma scan_line depth ty str :
  match ty with TSimpleString | TError | TInteger | TDouble | TBoolean | TBigNumber => is_line str
  | TNull => str = [] | _ => False end ->
  completes (scan_one depth) (type_byte ty :: str ++ CRLF) None.
Proof.
  intros H. apply completes_type. rewrite (proj2 (from_byte_type _ ty)) by done.
  destruct ty; try done; (eapply completes_last; [apply completes_line|]); try done; by subst.
Qed.

Lemma scan_blob depth ty s p :
  ty = TBulkString \/ ty = TBlobError \/ ty = TVerbatimString ->
  blob s p -> completes (scan_one depth) (type_byte ty :: s) None.
Proof.
  intros Hty (h & -> & Hh & Hl). apply completes_type. rewrite (proj2 (from_byte_type _ ty)) by done.
  assert (forall e1 (m : M (option Z)) e2, completes (len <- read_integer;
    if len <? 0 then m else if MAX_BULK_LEN <? len then err e1 else skip_payload len e2) (h ++ p ++ CRLF) None) as H.
  { intros e1 m e2. eapply completes_bind; [by apply completes_integer|].
    destruct (Z.ltb_spec (Z.of_nat (length p)) 0); [lia|]. destruct (Z.ltb_spec MAX_BULK_LEN (Z.of_nat (length p))); [lia|].
    apply completes_payload. }
  destruct Hty as [->|[-> | ->]]; apply H.
Qed.

Lemma int_line_range h n : int_line h n -> n <= 9223372036854775807.
Proof.
  intros (str & _ & _ & E). unfold parse_int in E. destruct str as [|c str]; [done|].
  destruct (if c =? "+"%u8 then _ else _) as [neg rest]. destruct (auto_radix rest 10) as [digits radix].
  destruct (parse_with_sign digits radix) as [acc|]; [|done]. cbn [rbind] in E. unfold int_try_from in E.
  repeat case_match; try done; injection E as <-;
    repeat match goal with H : _ && _ = true |- _ => apply andb_true_iff in H as [? ?] end;
    cbn [int_max int_min i64_ty] in *; lia.
Qed.

(** The header of an aggregate, with the number of values that follow it. *)
Definition children (ty : RESPType) (n : Z) : Z :=
  match ty with TMap => 2 * n | TAttribute => 2 * n + 1 | _ => n end.
Lemma scan_header depth ty h n :
  (depth < MAX_NESTING_DEPTH)%nat -> int_line h n ->
  match ty with TArray | TSet | TMap | TAttribute => 0 <= n | TPush => 0 < n | _ => False end ->
  completes (scan_one depth) (type_byte ty :: h) (Some (children ty n)).
Proof.
  intros Hd Hh Hn. pose proof (int_line_range _ _ Hh). apply completes_type. rewrite (proj2 (from_byte_type _ ty)) by done.
  assert (forall (k : Z -> M (option Z)), k n = ok (Some (children ty n)) ->
    completes (check_depth depth ;; n <- read_integer; k n) h (Some (children ty n))) as H0.
  { intros k Hk. apply (completes_bind _ _ [] h tt).
    - unfold check_depth. destruct (Nat.leb_spec MAX_NESTING_DEPTH depth); [lia|apply completes_ok].
    - eapply completes_last; [by apply completes_integer|done]. }
  destruct ty; try done; apply H0; cbn [children]; unfold saturating_add64, saturating_mul64;
    repeat match goal with |- context [?a <? ?b] => destruct (Z.ltb_spec a b); [lia|] end;
    repeat match goal with |- context [?a <=? ?b] => destruct (Z.leb_spec a b); [lia|] end; repeat f_equal; lia.
Qed.
Lemma scan_null_array depth h n :
  (depth < MAX_NESTING_DEPTH)%nat -> int_line h n -> n < 0 ->
  completes (scan_one depth) (type_byte TArray :: h) (Some 0).
Proof.
  intros Hd Hh Hn. apply completes_type. cbn [type_byte]. apply (completes_bind _ _ [] h tt).
  - unfold check_depth. destruct (Nat.leb_spec MAX_NESTING_DEPTH depth); [lia|apply completes_ok].
  - eapply completes_last; [by apply completes_integer|]. by destruct (Z.ltb_spec n 0); [|lia].
Qed.
Lemma scan_null_bulk depth h n :
  int_line h n -> n < 0 -> completes (scan_one depth) (type_byte TBulkString :: h) None.
Proof.
  intros Hh Hn. apply completes_type. cbn [type_byte].
  eapply completes_last; [by apply completes_integer|]. by destruct (Z.ltb_spec n 0); [|lia].
Qed.

Definition at_ (p : nat) (st : list Z) : ReplyScanner := {| sc_pos := p; sc_stack := st; sc_crlf_skip := 0 |}.

Section Agreement.
Context (buf : bytes).

(** The loop goes from one state to another, or to its end. *)
Definition reaches (s s' : ReplyScanner) : Prop := exists n, iterates (scan_step buf) n s s'.
Definition leads (s : ReplyScanner) (x : ReplyScanner + option (ReplyScanner * result RedisError ScanResult)) : Prop :=
  exists s0, reaches s s0 /\ scan_step buf s0 = x.

Lemma reaches_refl s : reaches s s.
Proof. by exists 0%nat. Qed.
Lemma reaches_trans s1 s2 s3 : reaches s1 s2 -> reaches s2 s3 -> reaches s1 s3.
Proof. intros [n Hn] [m Hm]. exists (n + m)%nat. by eapply iterates_app. Qed.
Lemma leads_reaches s s' : leads s (inl s') -> reaches s s'.
Proof. intros (s0 & H & E). eapply reaches_trans; [exact H|]. exists 1%nat. by apply iterates_one. Qed.
Lemma leads_step s x : scan_step buf s = x -> leads s x.
Proof. intros E. exists s. split; [apply reaches_refl|done]. Qed.
Lemma reaches_leads s s' x : reaches s s' -> leads s' x -> leads s x.
Proof. intros H (s0 & H0 & E). exists s0. split; [by eapply reaches_trans|done]. Qed.

Lemma step_completes s x p st t :
  completes (scan_one (length st)) s x -> (p <= length buf)%nat -> drop p buf = s ++ t ->
  scan_step buf (at_ p st) =
    match x with
    | Some n => if 0 <? n then inl (at_ (p + length s) (n :: st)) else finish (p + length s) st
    | None => finish (p + length s) st
    end.
Proof.
  intros H Hp E. unfold scan_step. cbn [at_ sc_stack sc_pos].
  destruct (H (reader_at buf (at_ p st)) t) as (r' & -> & (_ & -> & _)); [by split|done|].
  by destruct x as [n|].
Qed.

(** [E k]: a string that the scanner passes as one element under a stack of [k]. *)
Definition passes (k : nat) (s : bytes) : Prop := forall p st t,
  length st = k -> (p <= length buf)%nat -> drop p buf = s ++ t -> leads (at_ p st) (finish (p + length s) st).
Inductive elements (E : bytes -> Prop) : nat -> bytes -> Prop :=
| elements_nil : elements E 0 []
| elements_cons k s t : E s -> elements E k t -> elements E (S k) (s ++ t).

Lemma elements_app E k1 s1 k2 s2 : elements E k1 s1 -> elements E k2 s2 -> elements E (k1 + k2) (s1 ++ s2).
Proof. induction 1; intros H2; [done|]. rewrite <- app_assoc. constructor; auto. Qed.
Lemma elements_one (E : bytes -> Prop) s : E s -> elements E 1 s.
Proof. intros H. rewrite <- (app_nil_r s). by constructor; [|constructor]. Qed.
Lemma each_elements {A} (P : bytes -> A -> Prop) (E : bytes -> Prop) s l :
  (forall s x, P s x -> E s) -> each P s l -> elements E (length l) s.
Proof. intros HP. induction 1; constructor; eauto. Qed.
Lemma each_pair_elements {A} (P : bytes -> A -> Prop) (E : bytes -> Prop) s l :
  (forall s x, P s x -> E s) -> each (pair_of P) s l -> elements E (2 * length l) s.
Proof.
  intros HP. induction 1 as [|s [k v] t l (s1 & s2 & -> & H1 & H2) _ IH]; [constructor|]. cbn [length fst snd] in *.
  replace (2 * S (length l))%nat with (S (S (2 * length l))) by lia. rewrite <- app_assoc. repeat constructor; eauto.
Qed.

Lemma drop_inside p s t : (p <= length buf)%nat -> drop p buf = s ++ t -> (p + length s <= length buf)%nat.
Proof. intros Hp E. apply (f_equal length) in E. rewrite length_drop, length_app in E. lia. Qed.

Lemma finish_more p n st : (1 < n)%Z -> finish p (n :: st) = inl (at_ p (n - 1 :: st)).
Proof. intros H. unfold finish. cbn [unwind]. by destruct (Z.ltb_spec 0 (n - 1)); [|lia]. Qed.
Lemma finish_last p st : finish p (1 :: st) = finish p st.
Proof. done. Qed.

(** Some of the elements of an unfinished aggregate. *)
Lemma reaches_elements E k s st n p t :
  (forall s, E s -> passes (S (length st)) s) -> elements E k s -> (Z.of_nat k < n)%Z ->
  (p <= length buf)%nat -> drop p buf = s ++ t -> reaches (at_ p (n :: st)) (at_ (p + length s) (n - Z.of_nat k :: st)).
Proof.
  intros HE H. revert n p. induction H as [|k s1 s2 Hs _ IH]; intros n p Hn Hp Ed.
  { rewrite Z.sub_0_r, Nat.add_0_r. apply reaches_refl. }
  rewrite <- app_assoc in Ed.
  pose proof (HE s1 Hs p (n :: st) (s2 ++ t) eq_refl Hp Ed) as Hl. rewrite finish_more in Hl by lia.
  eapply reaches_trans; [by apply leads_reaches|].
  specialize (IH (n - 1) (p + length s1)%nat ltac:(lia)). rewrite length_app, Nat.add_assoc.
  replace (n - Z.of_nat (S k)) with (n - 1 - Z.of_nat k) by lia. apply IH; [by eapply drop_inside|by eapply drop_of_app].
Qed.

Lemma elements_snoc E k s : elements E (S k) s -> exists s1 s2, s = s1 ++ s2 /\ elements E k s1 /\ E s2.
Proof.
  revert s. induction k as [|k IH]; intros s H; inversion H as [|? s1 s2 H1 H2]; subst.
  - inversion H2. subst. exists [], s1. by rewrite app_nil_r; split; [|split; [constructor|]].
  - destruct (IH s2 H2) as (s3 & s4 & -> & H3 & H4). exists (s1 ++ s3), s4. rewrite app_assoc.
    split; [done|]. split; [by constructor|done].
Qed.

(** All of them: the aggregate is finished. *)
Lemma leads_elements E k s st p t :
  (forall s, E s -> passes (S (length st)) s) -> elements E (S k) s ->
  (p <= length buf)%nat -> drop p buf = s ++ t ->
  leads (at_ p (Z.of_nat (S k) :: st)) (finish (p + length s) st).
Proof.
  intros HE (s1 & s2 & -> & H1 & H2)%elements_snoc Hp Ed. rewrite <- app_assoc in Ed.
  eapply reaches_leads; [by apply (reaches_elements E k s1 st _ p (s2 ++ t)); [..|lia| |]|].
  replace (Z.of_nat (S k) - Z.of_nat k) with 1 by lia. rewrite length_app, Nat.add_assoc, <- finish_last.
  apply (HE s2 H2 _ _ t); [done|by eapply drop_inside|by eapply drop_of_app].
Qed.

(** A header and its elements. *)
Lemma passes_aggregate E k ty h s n :
  (k < MAX_NESTING_DEPTH)%nat -> (forall s, E s -> passes (S k) s) -> int_line h n ->
  match ty with TArray | TSet | TMap | TAttribute => 0 <= n | TPush => 0 < n | _ => False end ->
  elements E (Z.to_nat (children ty n)) s -> passes k (type_byte ty :: h ++ s).
Proof.
  intros Hk HE Hh Hn Hs p st t <- Hp Ed. rewrite app_comm_cons, <- app_assoc in Ed.
  pose proof (step_completes _ _ _ _ _ (scan_header (length st) ty h n Hk Hh Hn) Hp Ed) as Hstep. cbv iota beta in Hstep.
  assert (0 <= children ty n) by (destruct ty; cbn [children]; lia).
  rewrite app_comm_cons, length_app, Nat.add_assoc.
  destruct (Z.ltb_spec 0 (children ty n)).
  - eapply reaches_leads; [apply leads_reaches, leads_step, Hstep|].
    destruct (Z.to_nat (children ty n)) as [|j] eqn:Ej; [lia|].
    replace (children ty n) with (Z.of_nat (S j)) by lia.
    eapply leads_elements; [done|done|by eapply drop_inside|by eapply drop_of_app].
  - replace (Z.to_nat (children ty n)) with 0%nat in Hs by lia. inversion Hs. subst. rewrite Nat.add_0_r. by apply leads_step.
Qed.

Lemma passes_completes k s x :
  completes (scan_one k) s x -> match x with Some n => n <= 0 | None => True end -> passes k s.
Proof.
  intros H Hx p st t <- Hp Ed. apply leads_step. rewrite (step_completes _ _ _ _ _ H Hp Ed).
  destruct x as [n|]; [|done]. by destruct (Z.ltb_spec 0 n); [lia|].
Qed.
End Agreement.

Section Reader.
Context {f64 : Type} (parse_f64 : bytes -> option f64) (INFINITY NEG_INFINITY NAN : f64).
Context (size_of_value size_of_entry : Z).
#[local] Abbreviation value_at := (read_value_with_depth parse_f64 INFINITY NEG_INFINITY NAN size_of_value size_of_entry).
#[local] Abbreviation encodes := (wire parse_f64 INFINITY NEG_INFINITY NAN).

Lemma is_line_int h n : int_line h n -> exists str, h = str ++ CRLF /\ is_line str.
Proof. intros (str & -> & H & _). by exists str. Qed.

Lemma passes_scalar buf k s : completes (scan_one k) s None -> passes buf k s.
Proof. intros H. by apply (passes_completes _ _ _ None). Qed.

(** A scalar, or an aggregate without elements. *)
Ltac scan_leaf :=
  repeat match goal with
  | H : _ /\ _ |- _ => destruct H | H : exists _, _ |- _ => destruct H | H : _ \/ _ |- _ => destruct H
  end; subst;
  first
  [ by apply passes_scalar, (scan_line _ TSimpleString)
  | by apply passes_scalar, (scan_line _ TError)
  | by apply passes_scalar, (scan_line _ TDouble)
  | by apply passes_scalar, (scan_line _ TBigNumber)
  | by apply passes_scalar, (scan_line _ TNull [])
  | apply passes_scalar; eapply (scan_blob _ TBlobError); [naive_solver|eassumption]
  | apply passes_scalar; eapply (scan_blob _ TBulkString); [naive_solver|eassumption]
  | apply passes_scalar; eapply (scan_blob _ TVerbatimString); [naive_solver|eassumption]
  | by eapply passes_scalar, scan_null_bulk
  | eapply (passes_completes _ _ _ (Some 0)); [eapply scan_null_array; [lia|eassumption|done]|done]
  | match goal with H : int_line _ _ |- _ => destruct (is_line_int _ _ H) as (? & -> & ?) end;
    by apply passes_scalar, (scan_line _ TInteger)
  | match goal with b : bool |- _ => destruct b end;
    apply passes_scalar, (scan_line _ TBoolean [_]); by split ].

Lemma scan_wire buf d : forall s v k, encodes d s v -> (k + d = MAX_NESTING_DEPTH)%nat -> passes buf k s.
Proof.
  induction d as [|d IH]; intros s v k H Hk.
  { destruct v as [| | |[]| | | | | | | | | |]; cbn [wire] in H; try done; scan_leaf. }
  assert (forall s v, encodes d s v -> passes buf (S k) s) as HE by (intros s' v' H'; eapply IH; [exact H'|lia]).
  assert (forall s, (exists v, encodes d s v) -> passes buf (S k) s) as HE' by (intros s' (v' & H'); eauto).
  destruct v as [| | |[]|l| | | | |entries|l|attributes value|kind data|]; cbn [wire] in H; try scan_leaf.
  - destruct H as (h & t & -> & Hh & Hl).
    eapply (passes_aggregate _ _ k TArray _ _ _ ltac:(lia) HE' Hh); [cbn; lia|]. cbn [children]. rewrite Nat2Z.id.
    eapply each_elements; [|exact Hl]. by eexists.
  - destruct H as (h & t & -> & Hh & Hl).
    eapply (passes_aggregate _ _ k TMap _ _ _ ltac:(lia) HE' Hh); [cbn; lia|]. cbn [children].
    replace (Z.to_nat (2 * Z.of_nat (length entries))) with (2 * length entries)%nat by lia.
    eapply each_pair_elements; [|exact Hl]. by eexists.
  - destruct H as (h & t & -> & Hh & Hl).
    eapply (passes_aggregate _ _ k TSet _ _ _ ltac:(lia) HE' Hh); [cbn; lia|]. cbn [children]. rewrite Nat2Z.id.
    eapply each_elements; [|exact Hl]. by eexists.
  - destruct H as (h & t & u & -> & Hh & Hl & Hv).
    eapply (passes_aggregate _ _ k TAttribute _ _ _ ltac:(lia) HE' Hh); [cbn; lia|]. cbn [children].
    replace (Z.to_nat (2 * Z.of_nat (length attributes) + 1)) with (2 * length attributes + 1)%nat by lia.
    apply elements_app; [|apply elements_one; by eexists]. eapply each_pair_elements; [|exact Hl]. by eexists.
  - destruct H as (h & t & u & ty & -> & Hh & Hty & _ & Hl).
    eapply (passes_aggregate _ _ k TPush _ _ _ ltac:(lia) HE' Hh); [cbn; lia|]. cbn [children].
    replace (Z.to_nat (1 + Z.of_nat (length data))) with (S (length data)) by lia.
    constructor; [by eexists|]. eapply each_elements; [|exact Hl]. by eexists.
Qed.

(** ** Where the reader runs out of bytes, so does the scanner *)
Definition blocks (buf : bytes) (s : ReplyScanner) : Prop :=
  exists s' x, leads buf s (inr (Some (s', x))) /\ x <> Ok Complete.

Lemma blocks_step buf p st r' e :
  scan_one (length st) (reader_at buf (at_ p st)) = Some (r', Err e) -> blocks buf (at_ p st).
Proof.
  intros E. destruct (scan_step buf (at_ p st)) as [s|o] eqn:Es.
  { exfalso. unfold scan_step in Es. cbn [at_ sc_stack] in Es. rewrite E in Es. by destruct (bool_decide _). }
  unfold scan_step in Es. cbn [at_ sc_stack] in Es. rewrite E in Es.
  case_bool_decide; injection Es as <-; (eexists _, _; split; [by apply leads_step; unfold scan_step; cbn [at_ sc_stack]; rewrite E;
    first [rewrite bool_decide_true by done; reflexivity | rewrite bool_decide_false by done; reflexivity]|done]).
Qed.
Lemma reaches_blocks buf s s' : reaches buf s s' -> blocks buf s' -> blocks buf s.
Proof. intros H (s2 & x & Hl & Hx). exists s2, x. split; [by eapply reaches_leads|done]. Qed.

(** Readers that differ in their budget only. *)
Definition same_place (r1 r2 : Reader) : Prop :=
  buffer r2 = buffer r1 /\ pos r2 = pos r1 /\ crlf_skip r1 = 0%nat /\ crlf_skip r2 = 0%nat.
Definition fails_along {A C} (m : M A) (m' : M C) : Prop := forall r1 r2 r1',
  same_place r1 r2 -> m r1 = Some (r1', Err InvalidResponse) -> exists r2' e, m' r2 = Some (r2', Err e).

Lemma read_until_crlf_fails : fails_along read_until_crlf read_until_crlf.
Proof.
  intros r1 r2 r1' (Hb & Hp & Hs1 & Hs2). unfold read_until_crlf, bind, get, put, ok, err.
  rewrite Hb, Hp, Hs1, Hs2. destruct (find_crlf _ _ _); [done|]. destruct (_ <? _); [done|]. intros _. by eexists _, _.
Qed.

(** Two reads that start with the same step. *)
Lemma fails_along_bind {A C D} (m : M A) (k : A -> M C) (k' : A -> M D) :
  fails_along m m ->
  (forall r1 r2 r1' x, same_place r1 r2 -> m r1 = Some (r1', Ok x) -> exists r2', m r2 = Some (r2', Ok x) /\ same_place r1' r2') ->
  (forall x, fails_along (k x) (k' x)) -> fails_along (bind m k) (bind m k').
Proof.
  intros Hm Hok Hk r1 r2 r1' Hs [E|(r & x & E & Ek)]%bind_Err; unfold bind.
  - destruct (Hm _ _ _ Hs E) as (r2' & e & ->). by eexists _, _.
  - destruct (Hok _ _ _ _ Hs E) as (r2' & -> & Hs'). by eapply Hk.
Qed.
Lemma fails_along_ok {A C} (x : A) (m' : M C) : fails_along (ok x) m'.
Proof. by intros r1 r2 r1' _ E. Qed.
Lemma fails_along_err {A C} e (m' : M C) : e <> InvalidResponse -> fails_along (@err A e) m'.
Proof. intros He r1 r2 r1' _ E. by injection E as _ ->. Qed.

Lemma read_until_crlf_same r1 r2 r1' x :
  same_place r1 r2 -> read_until_crlf r1 = Some (r1', Ok x) -> exists r2', read_until_crlf r2 = Some (r2', Ok x) /\ same_place r1' r2'.
Proof.
  intros (Hb & Hp & Hs1 & Hs2). unfold read_until_crlf, bind, get, put, ok, err.
  rewrite Hb, Hp, Hs1, Hs2. destruct (find_crlf _ _ _); [|by destruct (_ <? _)]. intros [= <- <-].
  eexists. split; [done|]. unfold same_place. cbn [buffer pos crlf_skip set_pos clear_skip]. by rewrite Hb.
Qed.
Lemma read_integer_same r1 r2 r1' x :
  same_place r1 r2 -> read_integer r1 = Some (r1', Ok x) -> exists r2', read_integer r2 = Some (r2', Ok x) /\ same_place r1' r2'.
Proof.
  intros Hs. unfold read_integer, bind. destruct (read_until_crlf r1) as [[r [str|]]|] eqn:E; [|done..].
  destruct (read_until_crlf_same _ _ _ _ Hs E) as (r2' & -> & Hs'). unfold ok, err.
  destruct (parse_int _ _ _); [|done]. intros [= <- <-]. by exists r2'.
Qed.
Lemma read_integer_fails : fails_along read_integer read_integer.
Proof.
  apply fails_along_bind; [apply read_until_crlf_fails|apply read_until_crlf_same|].
  intros str. destruct (parse_int _ _ _); [apply fails_along_ok|by apply fails_along_err].
Qed.

Lemma read_blob_fails len e : e <> InvalidResponse -> 0 <= len -> fails_along (read_blob len e) (skip_payload len e).
Proof.
  intros He Hlen r1 r2 r1' (Hb & Hp & Hs1 & Hs2) E. unfold skip_payload, bind, get, put, ok, err. rewrite Hb, Hp.
  destruct (Z.ltb_spec (Z.of_nat (length (buffer r1) - pos r1)) (len + 2)); [by eexists _, _|].
  destruct (_ || _) eqn:Ec; [by eexists _, _|]. exfalso.
  apply orb_false_iff in Ec as [E1 E2]. apply negb_false_iff, bool_decide_eq_true in E1, E2.
  assert (ready r1) as Hr by (split; [lia|done]).
  destruct (read_blob_accepts len e Hlen r1 Hr) as [Hc _].
  destruct (Hc (take (Z.to_nat len) (drop (pos r1) (buffer r1)) ++ CRLF) (drop (pos r1 + Z.to_nat len + 2) (buffer r1))
    (take (Z.to_nat len) (drop (pos r1) (buffer r1)))) as (r3 & E3 & _).
  - split; [done|]. rewrite length_take, length_drop. lia.
  - rewrite <- app_assoc. rewrite <- (take_drop (Z.to_nat len) (drop (pos r1) (buffer r1))) at 1. f_equal.
    rewrite drop_drop. apply drop_S in E1. rewrite E1. cbn [CRLF app]. f_equal. apply drop_S in E2. rewrite E2.
    f_equal. f_equal. lia.
  - by rewrite E in E3.
Qed.

Lemma read_loop_fails {A} (read : M A) P fuel : accepts read P -> forall len r r' e, ready r ->
  read_loop fuel read len r = Some (r', Err e) ->
  exists s l r1 r2, each P s l /\ Z.of_nat (length l) < len /\ took r s r1 /\ read r1 = Some (r2, Err e).
Proof.
  intros Hread. induction fuel as [|fuel IH]; intros len r r' e Hr; cbn [read_loop].
  { by destruct (len <=? 0). }
  destruct (Z.leb_spec len 0); [done|]. intros [E|(r1 & x & E & [E2|(r2 & xs & _ & E2)]%bind_Err)]%bind_Err; [| |done].
  - eexists [], [], r, r'. splits; [constructor|cbn; lia|by apply took_nil|done].
  - destruct (Hread r Hr) as [_ Hs]. destruct (Hs _ _ E) as (s & HP & T). pose proof T as (_ & _ & Hr1 & _).
    destruct (IH _ _ _ _ Hr1 E2) as (t & l & r3 & r4 & Hl & Hlen & T2 & E3).
    eexists (s ++ t), (x :: l), r3, r4. splits; [by constructor|cbn [length]; lia|by eapply took_trans|done].
Qed.
Lemma read_elements_fails {A} (read : M A) P len es r r' e : accepts read P -> ready r ->
  read_elements read len es r = Some (r', Err e) ->
  exists s l r1 r2, each P s l /\ Z.of_nat (length l) < len /\ took r s r1 /\ read r1 = Some (r2, Err e).
Proof.
  intros Hread Hr E. unfold read_elements, take_prealloc_budget, bind, get, put, ok in E.
  by apply (read_loop_fails _ P) in E.
Qed.

Lemma fails_along_then {A C D} (m : M A) (k : A -> M C) (m' : M D) :
  fails_along m m' -> (forall x r r', k x r = Some (r', Err InvalidResponse) -> False) -> fails_along (bind m k) m'.
Proof. intros Hm Hk r1 r2 r1' Hs [E|(r & x & _ & E)]%bind_Err; [by eapply Hm|by apply Hk in E]. Qed.

Lemma line_fails {A C} (k : bytes -> M A) (k' : bytes -> M C) :
  (forall x r r', k x r = Some (r', Err InvalidResponse) -> False) -> fails_along (bind read_until_crlf k) (bind read_until_crlf k').
Proof.
  intros Hk. apply fails_along_bind; [apply read_until_crlf_fails|apply read_until_crlf_same|].
  intros x r1 r2 r1' _ E. by apply Hk in E.
Qed.
Lemma sized_fails {A C} (k : Z -> M A) (k' : Z -> M C) :
  (forall len, fails_along (k len) (k' len)) -> fails_along (bind read_integer k) (bind read_integer k').
Proof. intros Hk. by apply fails_along_bind; [apply read_integer_fails|apply read_integer_same|]. Qed.

Ltac never_fails := intros; unfold ok, err in *; repeat case_match; simplify_eq; done.

(** The types of one element, for which both readers look at the same bytes. *)
Definition is_aggregate (ty : RESPType) : bool :=
  match ty with TArray | TSet | TMap | TAttribute | TPush => true | _ => false end.

Lemma scalar_blocks fuel st ty r r' buf :
  is_aggregate ty = false -> ready r -> buffer r = buf -> buffer r !! pos r = Some (type_byte ty) ->
  value_at (S fuel) (length st) r = Some (r', Err InvalidResponse) -> blocks buf (at_ (pos r) st).
Proof.
  intros Hty [Hp Hs] <- Hc E. cbn [read_value_with_depth] in E. rewrite bind_read_byte, Hc in E.
  rewrite (proj2 (from_byte_type _ ty)) in E by done.
  set (r1 := set_pos r (S (pos r))) in E. set (r2 := set_pos (reader_at (buffer r) (at_ (pos r) st)) (S (pos r))).
  assert (same_place r1 r2) as Hpl by done.
  enough (exists r2' e, scan_one (length st) (reader_at (buffer r) (at_ (pos r) st)) = Some (r2', Err e)) as (r2' & e & E2)
    by by eapply blocks_step.
  unfold scan_one. rewrite bind_read_byte. cbn [buffer pos reader_at at_ sc_pos]. rewrite Hc.
  rewrite (proj2 (from_byte_type _ ty)) by done. fold r2.
  destruct ty; try done; cbv zeta in *;
    match type of E with ?m r1 = _ => match goal with |- exists r e, ?m' r2 = _ =>
      enough (fails_along m m') as HF by exact (HF _ _ _ Hpl E) end end; clear E.
  all: try (apply line_fails; never_fails).
  all: try (apply fails_along_then; [|never_fails]; apply line_fails; never_fails).
  - apply sized_fails. intros len. destruct (Z.ltb_spec len 0); [apply fails_along_ok|].
    destruct (MAX_BULK_LEN <? len); [by apply fails_along_err|].
    apply fails_along_then; [by apply read_blob_fails|never_fails].
  - apply sized_fails. intros len.
    destruct (Z.ltb_spec len 0), (Z.leb_spec 0 len), (Z.ltb_spec MAX_BULK_LEN len), (Z.leb_spec len MAX_BULK_LEN);
      try lia; cbn [andb negb]; try by apply fails_along_err.
    apply fails_along_then; [by apply read_blob_fails|never_fails].
  - apply fails_along_then; [|never_fails]. apply sized_fails. intros len.
    destruct (Z.ltb_spec len 0), (Z.leb_spec 0 len), (Z.ltb_spec MAX_BULK_LEN len), (Z.leb_spec len MAX_BULK_LEN);
      try lia; cbn [andb negb]; try by apply fails_along_err.
    apply fails_along_then; [by apply read_blob_fails|never_fails].
Qed.

#[local] Abbreviation element st := (fun s => exists v, encodes (MAX_NESTING_DEPTH - S (length st)) s v).
#[local] Abbreviation read_at fuel st := (value_at fuel (S (length st))).

(** Where the elements of an aggregate run out: some were read, the next one fails. *)
Definition runs_out (fuel : nat) (st : list Z) (r : Reader) (n : Z) : Prop :=
  exists k s r1 r2, elements (element st) k s /\ (Z.of_nat k < n)%Z /\ took r s r1
    /\ read_at fuel st r1 = Some (r2, Err InvalidResponse).

Lemma runs_out_more fuel st r s r1 k n :
  elements (element st) k s -> took r s r1 -> runs_out fuel st r1 (n - Z.of_nat k) -> runs_out fuel st r n.
Proof.
  intros Hs T (k2 & s2 & r2 & r3 & Hs2 & Hk & T2 & E). eexists (k + k2)%nat, (s ++ s2), r2, r3.
  splits; [by apply elements_app|lia|by eapply took_trans|done].
Qed.
Lemma runs_out_now fuel st r r2 n :
  ready r -> 0 < n -> read_at fuel st r = Some (r2, Err InvalidResponse) -> runs_out fuel st r n.
Proof. intros Hr Hn E. exists 0%nat, [], r, r2. splits; [constructor|lia|by apply took_nil|done]. Qed.

Lemma elements_run_out fuel st len es r r' :
  (MAX_NESTING_DEPTH + 2 <= fuel + S (length st))%nat -> (length st < MAX_NESTING_DEPTH)%nat -> ready r ->
  read_elements (read_at fuel st) len es r = Some (r', Err InvalidResponse) -> runs_out fuel st r len.
Proof.
  intros Hf Hd Hr E.
  eapply read_elements_fails in E as (s & l & r1 & r2 & Hl & Hlen & T & E);
    [|apply read_value_with_depth_accepts; lia|done].
  exists (length l), s, r1, r2. splits; [|done..]. eapply each_elements; [|exact Hl]. by eexists.
Qed.

Lemma entries_run_out fuel st len es r r' :
  (MAX_NESTING_DEPTH + 2 <= fuel + S (length st))%nat -> (length st < MAX_NESTING_DEPTH)%nat -> ready r ->
  read_elements (read_entry (read_at fuel st)) len es r = Some (r', Err InvalidResponse) -> runs_out fuel st r (2 * len).
Proof.
  intros Hf Hd Hr E.
  pose proof (read_value_with_depth_accepts parse_f64 INFINITY NEG_INFINITY NAN size_of_value size_of_entry
    fuel (S (length st)) Hf ltac:(lia)) as Ha.
  apply (read_elements_fails _ _ _ _ _ _ _ (read_entry_accepts Ha) Hr) in E as (s & l & r1 & r2 & Hl & Hlen & T & E).
  pose proof T as (_ & _ & Hr1 & _).
  eapply runs_out_more; [eapply each_pair_elements; [|exact Hl]; by eexists|exact T|].
  unfold read_entry in E. apply bind_Err in E as [E|(r3 & key & Ek & [E|(? & ? & _ & E)]%bind_Err)]; [| |done].
  - eapply runs_out_now; [done|lia|exact E].
  - destruct (Ha r1 Hr1) as [_ Hs]. destruct (Hs _ _ Ek) as (s2 & Hs2 & T2). pose proof T2 as (_ & _ & Hr3 & _).
    eapply runs_out_more; [apply elements_one; by eexists|exact T2|]. eapply runs_out_now; [done|lia|exact E].
Qed.

Lemma aggregate_blocks fuel st ty h n r rh :
  (forall st r r', (MAX_NESTING_DEPTH + 2 <= fuel + length st)%nat -> (length st <= MAX_NESTING_DEPTH)%nat -> ready r ->
     value_at fuel (length st) r = Some (r', Err InvalidResponse) -> blocks (buffer r) (at_ (pos r) st)) ->
  (MAX_NESTING_DEPTH + 2 <= fuel + S (length st))%nat -> (length st < MAX_NESTING_DEPTH)%nat ->
  ready r -> took r (type_byte ty :: h) rh -> int_line h n ->
  match ty with TArray | TSet | TMap | TAttribute => 0 <= n | TPush => 0 < n | _ => False end ->
  runs_out fuel st rh (children ty n) -> blocks (buffer r) (at_ (pos r) st).
Proof.
  intros IH Hf Hd [Hp Hs] T Hh Hn (k & s & r1 & r2 & Hel & Hk & T1 & E).
  pose proof T as (Hb & Hph & [Hrh _] & Ed). pose proof T1 as (Hb1 & Hp1 & Hr1 & Ed1).
  pose proof (step_completes (buffer r) _ _ _ _ _ (scan_header (length st) ty h n Hd Hh Hn) Hp Ed) as Hstep.
  cbv iota beta in Hstep. destruct (Z.ltb_spec 0 (children ty n)); [|lia]. rewrite <- Hph in Hstep.
  eapply reaches_blocks; [apply leads_reaches, leads_step, Hstep|].
  rewrite Hb in *. eapply reaches_blocks.
  { eapply (reaches_elements (buffer r) (element st) k s st _ (pos rh)); [|exact Hel|done|done|exact Ed1].
    intros s' (v & Hv). eapply scan_wire; [exact Hv|lia]. }
  rewrite <- Hp1, <- Hb1. apply (IH (_ :: st) r1 r2); [cbn [length]; lia|cbn [length]; lia|done|exact E].
Qed.

Lemma reader_blocks fuel : forall st r r',
  (MAX_NESTING_DEPTH + 2 <= fuel + length st)%nat -> (length st <= MAX_NESTING_DEPTH)%nat -> ready r ->
  value_at fuel (length st) r = Some (r', Err InvalidResponse) -> blocks (buffer r) (at_ (pos r) st).
Proof.
  induction fuel as [|fuel IH]; intros st r r' Hf Hd Hr E; [done|]. pose proof Hr as [Hp Hs].
  destruct (buffer r !! pos r) as [c|] eqn:Ec; cycle 1.
  { eapply blocks_step. unfold scan_one. rewrite bind_read_byte. cbn [buffer pos reader_at at_ sc_pos]. by rewrite Ec. }
  destruct (from_byte c) as [ty|] eqn:Ety; cycle 1.
  { cbn [read_value_with_depth] in E. by rewrite bind_read_byte, Ec, Ety in E. }
  apply from_byte_type in Ety as ->. destruct (is_aggregate ty) eqn:Hagg; [|by eapply scalar_blocks].
  destruct (read_byte_accepts r Hr) as [Hcb _].
  destruct (Hcb [type_byte ty] (drop (S (pos r)) (buffer r)) _ eq_refl (drop_S _ _ _ Ec)) as (rb & Eb & Tb).
  assert (rb = set_pos r (S (pos r))) as ->.
  { unfold read_byte, bind, get, put, ok in Eb. rewrite Ec in Eb. by injection Eb as <-. }
  set (rb := set_pos r (S (pos r))) in *. pose proof Tb as (_ & _ & Hrb & _).
  destruct (Nat.le_gt_cases MAX_NESTING_DEPTH (length st)) as [Hd'|Hd'].
  { cbn [read_value_with_depth] in E. rewrite bind_read_byte, Ec, (proj2 (from_byte_type _ ty)) in E by done.
    destruct ty; try done; rewrite bind_check_depth in E; by destruct (Nat.leb_spec MAX_NESTING_DEPTH (length st)); [|lia]. }
  pose proof (read_value_with_depth_accepts parse_f64 INFINITY NEG_INFINITY NAN size_of_value size_of_entry
    fuel (S (length st)) ltac:(lia) ltac:(lia)) as Ha.
  assert (exists k, value_at (S fuel) (length st) r = bind read_integer k rb
    /\ forall n rh r2, ready rh -> k n rh = Some (r2, Err InvalidResponse) ->
       match ty with TArray | TSet | TMap | TAttribute => 0 <= n | TPush => 0 < n | _ => False end
       /\ runs_out fuel st rh (children ty n)) as (k & Ek & Hk).
  { cbn [read_value_with_depth]. rewrite bind_read_byte, Ec, (proj2 (from_byte_type _ ty)) by done.
    destruct ty; try done; rewrite bind_check_depth; (destruct (Nat.leb_spec MAX_NESTING_DEPTH (length st)); [lia|]);
      (eexists; split; [reflexivity|]); intros n rh r2 Hrh Ek; cbv beta in Ek; cbn [children].
    - destruct (Z.ltb_spec n 0); [done|]. split; [done|].
      apply bind_Err in Ek as [Ek|(? & ? & _ & Ek)]; [|done]. apply elements_run_out in Ek; [exact Ek|lia|lia|done].
    - destruct (Z.ltb_spec n 0); [done|]. split; [done|].
      apply bind_Err in Ek as [Ek|(? & ? & _ & Ek)]; [|done]. apply entries_run_out in Ek; [exact Ek|lia|lia|done].
    - destruct (Z.ltb_spec n 0); [done|]. split; [done|].
      apply bind_Err in Ek as [Ek|(? & ? & _ & Ek)]; [|done]. apply elements_run_out in Ek; [exact Ek|lia|lia|done].
    - destruct (Z.ltb_spec n 0); [done|]. split; [done|].
      apply bind_Err in Ek as [Ek|(r3 & attrs & Ea & Ek)].
      + apply entries_run_out in Ek as (k & s & r4 & r5 & ? & ? & ? & ?); [|lia|lia|done]. exists k, s, r4, r5. splits; (done || lia).
      + destruct (read_elements_accepts _ _ n size_of_entry (read_entry_accepts Ha)
          (fun s x => pair_of_nonempty _ s x (wire_nonempty _ _ _ _ _)) ltac:(lia) rh Hrh) as [_ Hs'].
        destruct (Hs' _ _ Ea) as (s & [Hl <-] & T). pose proof T as (_ & _ & Hr3 & _).
        eapply runs_out_more; [eapply each_pair_elements; [|exact Hl]; by eexists|exact T|].
        apply bind_Err in Ek as [Ek|(? & ? & _ & Ek)]; [|done]. eapply runs_out_now; [done|lia|exact Ek].
    - destruct (Z.leb_spec n 0); [done|]. split; [done|].
      apply bind_Err in Ek as [Ek|(r3 & v & Ev & Ek)]; [by eapply runs_out_now|].
      destruct (Ha rh Hrh) as [_ Hs']. destruct (Hs' _ _ Ev) as (s & Hv & T). pose proof T as (_ & _ & Hr3 & _).
      apply bind_Err in Ek as [Ek|(r4 & kind & Ekind & Ek)].
      { destruct v as [| | |[]| | | | | | | | | |]; done. }
      assert (r4 = r3) as -> by (destruct v as [| | |[]| | | | | | | | | |]; by injection Ekind as <- _).
      eapply runs_out_more; [apply elements_one; by eexists|exact T|].
      apply bind_Err in Ek as [Ek|(? & ? & _ & Ek)]; [|done]. apply elements_run_out in Ek; [exact Ek|lia|lia|done]. }
  rewrite Ek in E. apply bind_Err in E as [E|(rh & n & En & E)].
  - set (rs := set_pos (reader_at (buffer r) (at_ (pos r) st)) (S (pos r))).
    destruct (read_integer_fails rb rs r') as (r2 & e & E2); [by splits|done|].
    eapply blocks_step. unfold scan_one. rewrite bind_read_byte. cbn [buffer pos reader_at at_ sc_pos]. rewrite Ec.
    rewrite (proj2 (from_byte_type _ ty)) by done. fold rs.
    destruct ty; try done; rewrite bind_check_depth; (destruct (Nat.leb_spec MAX_NESTING_DEPTH (length st)); [lia|]);
      unfold bind; rewrite E2; reflexivity.
  - destruct (read_integer_accepts rb Hrb) as [_ Hsi]. destruct (Hsi _ _ En) as (h & Hh & Th). pose proof Th as (_ & _ & Hrh & _).
    destruct (Hk _ _ _ Hrh E) as [Hn Hro]. eapply aggregate_blocks; [exact IH|lia|done|done| |exact Hh|exact Hn|exact Hro].
    exact (took_trans _ _ _ _ _ Tb Th).
Qed.

Lemma leads_scan buf s out : (sc_pos s <= length buf)%nat -> leads buf s (inr (Some out)) -> scan s buf = Some out.
Proof. intros Hp (s0 & [n Hn] & E). apply scan_loops; [done|]. by eapply iterates_loops. Qed.

#[local] Abbreviation read_reply := (read_value parse_f64 INFINITY NEG_INFINITY NAN size_of_value size_of_entry).

(** What the reader reads, the scanner finds the end of. *)
Lemma scan_reads buf s t v :
  encodes MAX_NESTING_DEPTH s v -> buf = s ++ t -> scan reset buf = Some (at_ (length s) [], Ok Complete).
Proof.
  intros Hw E. apply leads_scan; [cbn; lia|].
  exact (scan_wire buf MAX_NESTING_DEPTH s v 0 Hw eq_refl 0%nat [] t eq_refl (Nat.le_0_l _) E).
Qed.
Lemma scan_blocks buf r' :
  read_reply (init buf) = Some (r', Err InvalidResponse) ->
  exists s x, scan reset buf = Some (s, x) /\ x <> Ok Complete.
Proof.
  intros E. destruct (reader_blocks (S (S MAX_NESTING_DEPTH)) [] (set_budget (init buf) (Z.of_nat (length buf - 0))) r'
    ltac:(cbn; lia) (Nat.le_0_l _) (conj (Nat.le_0_l _) eq_refl) E) as (s & x & Hl & Hx).
  exists s, x. split; [|done]. by apply leads_scan; [cbn; lia|].
Qed.

(** C9.  The scanner and the reader agree.  When the scanner reports a complete reply,
    the reader does not run out of bytes in it; and when the reader can read a reply,
    the scanner reports it complete and has found exactly its end. *)
Theorem scan_agrees buf :
  0 <= size_of_value -> 0 <= size_of_entry ->
  exists s x r y, scan reset buf = Some (s, x) /\ read_reply (init buf) = Some (r, y)
    /\ (x = Ok Complete -> y <> Err InvalidResponse)
    /\ (forall v, y = Ok v -> x = Ok Complete /\ sc_pos s = pos r).
Proof.
  intros Hv He. assert (ready (init buf)) as Hr by (split; [cbn; lia|done]).
  destruct (scan_returns reset buf) as (s & x & Es); [cbn; lia|].
  destruct (read_value_returns parse_f64 INFINITY NEG_INFINITY NAN _ _ _ Hv He Hr) as (r & y & Er & _).
  exists s, x, r, y. splits; [done..| |].
  - intros -> ->. destruct (scan_blocks buf r Er) as (s' & x' & Es' & Hx). rewrite Es in Es'. by injection Es' as _ <-.
  - intros v ->. destruct (read_value_accepts parse_f64 INFINITY NEG_INFINITY NAN size_of_value size_of_entry _ Hr) as [_ Hs].
    destruct (Hs _ _ Er) as (e & Hw & (_ & Hp & _ & E)).
    rewrite (scan_reads buf e (drop (pos r) (buffer r)) v Hw) in Es by exact E. injection Es as <- <-. by split.
Qed.
End Reader.

Lemma scan_agrees_witness :
  let buf := bstr ">2" ++ CRLF ++ bstr "+message" ++ CRLF ++ bstr "*1" ++ CRLF ++ bstr "$2" ++ CRLF ++ bstr "hi" ++ CRLF ++ bstr ":" in
  exists r, scan reset buf = Some (at_ 26 [], Ok Complete)
    /\ read_value (f64 := Z) (fun _ => None) 0 0 0 32 64 (init buf)
       = Some (r, Ok (Push (bstr "message") [Array [BulkString (Some (bstr "hi"))]]))
    /\ pos r = 26%nat.
Proof.
  intros buf. destruct (scan_agrees (f64 := Z) (fun _ => None) 0 0 0 32 64 buf ltac:(lia) ltac:(lia))
    as (s & x & r & y & Es & Er & _ & Hag).
  assert (exists r', Some (r, y) = Some (r', Ok (Push (bstr "message") [Array [BulkString (Some (bstr "hi"))]]))) as [r' E]
    by (rewrite <- Er; eexists; vm_compute; reflexivity).
  injection E as -> ->. destruct (Hag _ eq_refl) as [-> Hp]. exists r'. split; [vm_compute; reflexivity|].
  split; [exact Er|]. rewrite <- Hp.
  assert (sc_pos <$> (fst <$> scan reset buf) = Some 26%nat) as Es2 by (vm_compute; reflexivity).
  rewrite Es in Es2. by injection Es2.
Defined.
