(* ===== verification/ValkeyClient.v ===== *)
(** * How the Valkey client frames its connection

    The read buffer ([OffsetByteList] of collections/vec_ext.rs), the commands the client
    sends (runtime/valkey_jsc/ValkeyCommand.rs), and [on_data] of
    runtime/valkey_jsc/valkey.rs, which turns the chunks a socket delivers into replies:
    with nothing buffered it reads replies from the chunk itself, and otherwise it scans
    the buffer until a reply is complete.

    What the client does with a reply runs JavaScript and is a parameter: [handle], of
    the replies so far, says whether the last one was handled without an exception and
    with the socket unchanged.  [fail] closes the socket, and the close handler clears
    the buffer. *)

From S2P Require Import Prelude Bytes ValkeyProtocol ValkeyScanner.

(** ** OffsetByteList *)
Record OffsetByteList := { ob_head : nat; byte_list : bytes }.
Definition ob_default : OffsetByteList := {| ob_head := 0; byte_list := [] |}.
Definition ob_write (self : OffsetByteList) (bs : bytes) : OffsetByteList :=
  {| ob_head := ob_head self; byte_list := byte_list self ++ bs |}.
Definition remaining (self : OffsetByteList) : bytes := drop (ob_head self) (byte_list self).
Definition ob_len (self : OffsetByteList) : nat := (length (byte_list self) - ob_head self)%nat.
Definition consume (self : OffsetByteList) (n : nat) : OffsetByteList :=
  let head := (ob_head self + n)%nat in
  if (length (byte_list self) <=? head)%nat then ob_default
  else if (length (byte_list self) - head <=? head)%nat
       then {| ob_head := 0; byte_list := drop head (byte_list self) |}
       else {| ob_head := head; byte_list := byte_list self |}.

Definition ob_wf (self : OffsetByteList) : Prop := (ob_head self <= length (byte_list self))%nat.

Lemma ob_write_spec self bs :
  ob_wf self -> ob_wf (ob_write self bs) /\ remaining (ob_write self bs) = remaining self ++ bs.
Proof.
  unfold ob_wf, remaining, ob_write. cbn [ob_head byte_list]. intros H. rewrite length_app.
  split; [lia|]. by rewrite drop_app_le by lia.
Qed.
Lemma consume_spec self n : ob_wf self -> ob_wf (consume self n) /\ remaining (consume self n) = drop n (remaining self).
Proof.
  unfold ob_wf, remaining, consume. intros H. rewrite drop_drop.
  destruct (Nat.leb_spec (length (byte_list self)) (ob_head self + n)); [|destruct (Nat.leb_spec (length (byte_list self) - (ob_head self + n)) (ob_head self + n))];
    cbn [ob_head byte_list]; (split; [cbn; lia|]).
  - by rewrite !drop_ge by (cbn; lia).
  - done.
  - done.
Qed.

(** ** Commands

    The three kinds of arguments are byte strings to the writer. *)
Definition bulk (bs : bytes) : bytes := "$"%u8 :: show (Z.of_nat (length bs)) ++ CRLF ++ bs ++ CRLF.
Definition command_write (command : bytes) (args : list bytes) : bytes :=
  "*"%u8 :: show (1 + Z.of_nat (length args)) ++ CRLF ++ bulk command ++ concat (bulk <$> args).

(** ** The client *)
Section Client.
Context {f64 : Type} (parse_f64 : bytes -> option f64) (INFINITY NEG_INFINITY NAN : f64).
Context (size_of_value size_of_entry : Z) (handle : list (RESPValue f64) -> bool).
#[local] Abbreviation read_reply := (read_value parse_f64 INFINITY NEG_INFINITY NAN size_of_value size_of_entry).

Record Client := {
  read_buffer : OffsetByteList;
  reply_scanner : ReplyScanner;
  failed : option RedisError;
  handled : list (RESPValue f64);
}.
Definition new_client : Client :=
  {| read_buffer := ob_default; reply_scanner := reset; failed := None; handled := [] |}.

Definition on_close (self : Client) : Client :=
  {| read_buffer := ob_default; reply_scanner := reset; failed := failed self; handled := handled self |}.
Definition fail (self : Client) (e : RedisError) : Client :=
  match failed self with
  | Some _ => self
  | None => on_close {| read_buffer := read_buffer self; reply_scanner := reply_scanner self;
                        failed := Some e; handled := handled self |}
  end.

(** A reply is handled; the flag says whether the loop goes on. *)
Definition handle_response (self : Client) (v : RESPValue f64) : Client * bool :=
  let vs := handled self ++ [v] in
  ({| read_buffer := read_buffer self; reply_scanner := reply_scanner self; failed := failed self; handled := vs |},
   handle vs).

Definition with_scanner (self : Client) (s : ReplyScanner) : Client :=
  {| read_buffer := read_buffer self; reply_scanner := s; failed := failed self; handled := handled self |}.
Definition with_buffer (self : Client) (b : OffsetByteList) : Client :=
  {| read_buffer := b; reply_scanner := reply_scanner self; failed := failed self; handled := handled self |}.

(** One round of the loop over the buffer. *)
Definition buffer_step (self : Client) : Client + option Client :=
  let rem := remaining (read_buffer self) in
  match rem with
  | [] => inr (Some self)
  | _ =>
      match scan (reply_scanner self) rem with
      | None => inr None
      | Some (s, Ok NeedMoreData) => inr (Some (with_scanner self s))
      | Some (s, Err e) => inr (Some (fail (with_scanner self s) e))
      | Some (s, Ok Complete) =>
          let self := with_scanner self s in
          match read_reply (init rem) with
          | None => inr None
          | Some (_, Err e) => inr (Some (fail self e))
          | Some (reader, Ok value) =>
              let bytes_consumed := pos reader in
              if (bytes_consumed =? 0)%nat then inr (Some (fail self InvalidResponse))
              else
                let self := with_scanner (with_buffer self (consume (read_buffer self) bytes_consumed)) reset in
                let '(self, goes_on) := handle_response self value in
                if goes_on then inl self else inr (Some self)
          end
      end
  end.

(** One round of the loop over a chunk that nothing was buffered before. *)
Definition chunk_step (st : Client * bytes) : (Client * bytes) + option Client :=
  let '(self, slice) := st in
  match slice with
  | [] => inr (Some self)
  | _ =>
      match read_reply (init slice) with
      | None => inr None
      | Some (_, Err e) =>
          if bool_decide (e = InvalidResponse)
          then inr (Some (with_buffer (with_scanner self reset) (ob_write (read_buffer self) slice)))
          else inr (Some (fail self e))
      | Some (reader, Ok value) =>
          let bytes_consumed := pos reader in
          if (bytes_consumed =? 0)%nat then inr (Some (fail self InvalidResponse))
          else
            let '(self, goes_on) := handle_response self value in
            if goes_on then inl (self, drop bytes_consumed slice) else inr (Some self)
      end
  end.

(** Every round takes a byte from the buffer or the chunk. *)
Definition on_data (self : Client) (data : bytes) : option Client :=
  match remaining (read_buffer self) with
  | [] => mjoin (run_loop (length data + 2) chunk_step (self, data))
  | _ =>
      let self := with_buffer self (ob_write (read_buffer self) data) in
      mjoin (run_loop (ob_len (read_buffer self) + 2) buffer_step self)
  end.

(** The chunks of a connection; a failed client has closed it and gets no more. *)
Fixpoint feed (self : Client) (chunks : list bytes) : option Client :=
  match chunks with
  | [] => Some self
  | data :: chunks =>
      match failed self with
      | Some _ => Some self
      | None => self ← on_data self data; feed self chunks
      end
  end.
End Client.
Arguments Client f64 : clear implicits.

(** ** Commands are read back *)
Lemma parse_int_show n : 0 <= n <= 9223372036854775807 -> parse_int i64_ty (show n) 10 = Ok n.
Proof.
  intros Hn. assert (0 <= n <= u128_max) as Hu by (unfold u128_max; lia).
  destruct (show_spec n Hu) as (Hne & Hd & _ & _). pose proof (parse_unsigned_show i64_ty n) as Hp.
  cbn [int_min int_max i64_ty] in Hp. specialize (Hp ltac:(lia) ltac:(unfold u128_max; lia) Hn).
  destruct (show n) as [|c ds] eqn:E; [done|]. rewrite <- Hp. unfold parse_int, parse_unsigned.
  inversion Hd as [|? ? Hc _]. subst. apply is_ascii_digit_iff in Hc.
  destruct (Z.eqb_spec c "+"%u8); [lia|]. destruct (Z.eqb_spec c "-"%u8); [lia|]. done.
Qed.

Lemma digits_no_crlf ds : all_digits ds -> has_crlf ds = false.
Proof.
  induction 1 as [|c ds Hc _ IH]; [done|]. cbn [has_crlf]. apply is_ascii_digit_iff in Hc.
  destruct (Z.eqb_spec c 13); [lia|done].
Qed.

Lemma int_line_show n : 0 <= n <= 9223372036854775807 -> int_line (show n ++ CRLF) n.
Proof.
  intros Hn. assert (0 <= n <= u128_max) as Hu by (unfold u128_max; lia).
  exists (show n). split; [done|]. split; [|by apply parse_int_show].
  destruct (show_spec n Hu) as (_ & Hd & _). split; [by apply digits_no_crlf|].
  pose proof (show_length n). unfold MAX_LINE_LEN, MAX_BULK_LEN. lia.
Qed.

Section Commands.
Context {f64 : Type} (parse_f64 : bytes -> option f64) (INFINITY NEG_INFINITY NAN : f64).
#[local] Abbreviation reply := (wire parse_f64 INFINITY NEG_INFINITY NAN MAX_NESTING_DEPTH).

Lemma bulk_wire d p :
  Z.of_nat (length p) <= MAX_BULK_LEN -> wire parse_f64 INFINITY NEG_INFINITY NAN d (bulk p) (BulkString (Some p)).
Proof.
  intros Hp. assert (blob (show (Z.of_nat (length p)) ++ CRLF ++ p ++ CRLF) p) as Hb.
  { exists (show (Z.of_nat (length p)) ++ CRLF). rewrite <- app_assoc. splits; [done| |done].
    apply int_line_show. unfold MAX_BULK_LEN in Hp. lia. }
  destruct d; by eexists.
Qed.

(**  A command is written as one reply of the protocol: an array with the command
    and its arguments as bulk strings, of the bytes they are. *)
Theorem command_is_array command args :
  Forall (fun p => Z.of_nat (length p) <= MAX_BULK_LEN) (command :: args) ->
  Z.of_nat (length args) < 9223372036854775807 ->
  reply (command_write command args) (Array (BulkString ∘ Some <$> command :: args)).
Proof.
  intros Hall Hn. enough (forall d, wire parse_f64 INFINITY NEG_INFINITY NAN (S d) (command_write command args)
    (Array (BulkString ∘ Some <$> command :: args))) as H by apply H.
  intros d. cbn [wire]. exists (show (1 + Z.of_nat (length args)) ++ CRLF), (bulk command ++ concat (bulk <$> args)).
  split; [by unfold command_write; rewrite <- app_assoc|]. split.
  { rewrite length_fmap. cbn [length]. replace (Z.of_nat (S (length args))) with (1 + Z.of_nat (length args)) by lia.
    apply int_line_show. lia. }
  change (bulk command ++ concat (bulk <$> args)) with (concat (bulk <$> command :: args)).
  induction Hall as [|p l Hp _ IH]; cbn [fmap list_fmap concat]; [constructor|]. constructor; [by apply bulk_wire|done].
Qed.
End Commands.

(** ** The replies of a stream *)
Section Framing.
Context {f64 : Type} (parse_f64 : bytes -> option f64) (INFINITY NEG_INFINITY NAN : f64).
Context (size_of_value size_of_entry : Z) (handle : list (RESPValue f64) -> bool).
Context (Hvalue : 0 <= size_of_value) (Hentry : 0 <= size_of_entry).
#[local] Abbreviation read_reply := (read_value parse_f64 INFINITY NEG_INFINITY NAN size_of_value size_of_entry).
#[local] Abbreviation reply := (wire parse_f64 INFINITY NEG_INFINITY NAN MAX_NESTING_DEPTH).
#[local] Abbreviation on_data := (on_data parse_f64 INFINITY NEG_INFINITY NAN size_of_value size_of_entry handle).
#[local] Abbreviation feed := (feed parse_f64 INFINITY NEG_INFINITY NAN size_of_value size_of_entry handle).
#[local] Abbreviation buffer_step := (buffer_step parse_f64 INFINITY NEG_INFINITY NAN size_of_value size_of_entry handle).
#[local] Abbreviation chunk_step := (chunk_step parse_f64 INFINITY NEG_INFINITY NAN size_of_value size_of_entry handle).

(** No reply starts here; none ever will. *)
Definition stuck (s : bytes) : Prop := forall p t v, s = p ++ t -> ~ reply p v.
Definition dead (s : bytes) : Prop := forall b, stuck (s ++ b).

(** [s] is the replies [vs], one after the other, and then [rest], where no reply starts. *)
Inductive framed : bytes -> list (RESPValue f64) -> bytes -> Prop :=
| framed_end rest : stuck rest -> framed rest [] rest
| framed_reply p v s vs rest : reply p v -> framed s vs rest -> framed (p ++ s) (v :: vs) rest.

Lemma ready_init s : ready (init s).
Proof. split; [cbn; lia|done]. Qed.

Lemma read_cases s :
  exists r x, read_reply (init s) = Some (r, x)
    /\ match x with
       | Ok v => exists p t, s = p ++ t /\ reply p v /\ pos r = length p /\ (0 < pos r)%nat
       | Err e => stuck s /\ (e <> InvalidResponse -> dead s)
       end.
Proof.
  destruct (read_value_returns parse_f64 INFINITY NEG_INFINITY NAN _ _ _ Hvalue Hentry (ready_init s)) as (r & x & E & _).
  exists r, x. split; [done|].
  pose proof (fun s => read_value_accepts parse_f64 INFINITY NEG_INFINITY NAN size_of_value size_of_entry _ (ready_init s)) as Ha.
  destruct x as [v|e].
  - destruct (Ha s) as [_ Hs]. destruct (Hs _ _ E) as (p & Hp & (_ & Hpos & _ & Ed)). exists p, (drop (pos r) (buffer r)).
    splits; [exact Ed|done|done|]. apply wire_nonempty in Hp. destruct p; [done|]. rewrite Hpos. cbn; lia.
  - split.
    + intros p t v Es Hp. destruct (Ha s) as [Hc _]. destruct (Hc p t v Hp Es) as (r' & E' & _). by rewrite E in E'.
    + intros He b p t v Es Hp.
      pose proof (read_value_stable parse_f64 INFINITY NEG_INFINITY NAN size_of_value size_of_entry b (init s) (init (s ++ b))) as Hst.
      rewrite E in Hst. destruct Hst as [?|(r2 & E2)]; [unfold extends; splits; first [done | apply Nat.le_0_l]|done|].
      destruct (Ha (s ++ b)) as [Hc _]. destruct (Hc p t v Hp Es) as (r' & E' & _). by rewrite E2 in E'.
Qed.

Lemma reply_unique p t v p' t' v' : p ++ t = p' ++ t' -> reply p v -> reply p' v' -> p = p' /\ t = t' /\ v = v'.
Proof.
  intros E Hp Hp'. destruct (read_value_accepts parse_f64 INFINITY NEG_INFINITY NAN size_of_value size_of_entry _
    (ready_init (p ++ t))) as [Hc _].
  destruct (Hc p t v Hp eq_refl) as (r & E1 & (_ & P1 & _)). destruct (Hc p' t' v' Hp' E) as (r' & E2 & (_ & P2 & _)).
  rewrite E1 in E2. injection E2 as <- <-. assert (length p = length p') as Hl by (cbn [pos init] in P1, P2; lia).
  apply app_inj_1 in E as [-> ->]; [|done]. done.
Qed.

Lemma framed_unique s vs rest vs' rest' : framed s vs rest -> framed s vs' rest' -> vs = vs' /\ rest = rest'.
Proof.
  intros H. revert vs' rest'. induction H as [rest Hst|p v s vs rest Hp _ IH]; intros vs' rest' H'.
  - inversion H' as [|p v s vs rest2 Hp _ E]; subst; [done|]. by destruct (Hst p s v).
  - inversion H' as [rest2 Hst E|p2 v2 s2 vs2 rest2 Hp2 H2 E]; subst.
    + by destruct (Hst p s v).
    + destruct (reply_unique _ _ _ _ _ _ E Hp2 Hp) as (-> & -> & ->). by destruct (IH _ _ H2) as [-> ->].
Qed.

(** The state of a client that has taken the bytes [s] of a connection. *)
Definition follows (s : bytes) (c : Client f64) : Prop :=
  exists w rest, s = w ++ rest
    /\ (forall t vs u, framed t vs u -> framed (w ++ t) (handled c ++ vs) u)
    /\ match failed c with
       | Some _ => dead rest
       | None => ob_wf (read_buffer c) /\ rest = remaining (read_buffer c) /\ stuck rest
           /\ (rest <> [] -> resumable (reply_scanner c) rest)
       end.

Lemma framed_one w p v vs :
  (forall t vs' u, framed t vs' u -> framed (w ++ t) (vs ++ vs') u) -> reply p v ->
  forall t vs' u, framed t vs' u -> framed ((w ++ p) ++ t) ((vs ++ [v]) ++ vs') u.
Proof. intros H Hp t vs' u Ht. rewrite <- !app_assoc. apply H. by constructor. Qed.

Lemma stuck_nil : stuck [].
Proof. intros p t v E Hp. apply wire_nonempty in Hp. by destruct p. Qed.

Context (Hhandle : forall vs, handle vs = true).

(** The invariant of both loops: [slice] is what is left to frame. *)
Definition framing (s : bytes) (c : Client f64) (slice : bytes) : Prop :=
  failed c = None /\ ob_wf (read_buffer c)
  /\ exists w, s = w ++ slice /\ forall t vs u, framed t vs u -> framed (w ++ t) (handled c ++ vs) u.

Lemma follows_fail s c slice e : framing s c slice -> dead slice -> follows s (fail c e).
Proof.
  intros (Hf & _ & w & -> & Hw) Hd. exists w, slice. unfold fail. rewrite Hf. by splits.
Qed.

Lemma scan_cases sc u :
  resumable sc u ->
  exists s x, scan sc u = Some (s, x)
    /\ match x with
       | Ok NeedMoreData => resumable s u /\ stuck u
       | Ok Complete => forall r e, read_reply (init u) = Some (r, Err e) -> e <> InvalidResponse
       | Err _ => dead u
       end.
Proof.
  intros Hs. pose proof Hs as [Hp Ha]. specialize (Ha []). rewrite app_nil_r in Ha.
  destruct (scan_returns sc u Hp) as (s & x & E). exists s, x. split; [done|].
  destruct (scan_returns reset u) as (s2 & x2 & E2); [cbn; lia|]. rewrite E, E2 in Ha.
  assert (x2 = x) as -> by (destruct x, x2; cbn in Ha; congruence).
  destruct x as [[]|e].
  - intros r e Er ->. destruct (scan_blocks parse_f64 INFINITY NEG_INFINITY NAN size_of_value size_of_entry u r Er)
      as (s3 & x3 & E3 & Hx3). rewrite E2 in E3. by injection E3 as <- <-.
  - split; [by eapply scan_resumable|]. intros p t v Eu Hv.
    pose proof (scan_reads parse_f64 INFINITY NEG_INFINITY NAN u p t v Hv Eu) as E3. by rewrite E2 in E3.
  - intros b p t v Eu Hv.
    pose proof (scan_reads parse_f64 INFINITY NEG_INFINITY NAN (u ++ b) p t v Hv Eu) as E3.
    rewrite (scan_extend u b reset s2 (Err e)) in E3; [done|split; [cbn; lia|done]|done|done].
Qed.

Lemma buffer_loop s c :
  framing s c (remaining (read_buffer c)) ->
  resumable (reply_scanner c) (remaining (read_buffer c)) ->
  exists c', mjoin (run_loop (ob_len (read_buffer c) + 2) buffer_step c) = Some c' /\ follows s c'.
Proof.
  intros Hc Hs.
  edestruct (run_loop_rule buffer_step
    (fun c => framing s c (remaining (read_buffer c)) /\ resumable (reply_scanner c) (remaining (read_buffer c)))
    (fun r => exists c', r = Some c' /\ follows s c') (fun c => ob_len (read_buffer c))) as (r & E & c' & -> & H').
  4: { exists c'. by rewrite E. }
  - clear c Hc Hs. intros c [Hc Hs]. pose proof Hc as (Hf & Hwf & w & Es & Hw).
    unfold ValkeyClient.buffer_step. destruct (remaining (read_buffer c)) as [|b0 u0] eqn:Eu.
    { eexists. split; [done|]. exists w, []. splits; [done|done|]. rewrite Hf. splits; [done|by symmetry|apply stuck_nil|done]. }
    set (u := b0 :: u0) in *. destruct (scan_cases _ _ Hs) as (sc & x & -> & Hx). destruct x as [[]|e].
    + destruct (read_cases u) as (r & [v|e] & Er & Hr); rewrite Er.
      * destruct Hr as (p & t & Et & Hv & Hpos & Hlt). destruct (Nat.eqb_spec (pos r) 0); [lia|].
        cbn [handle_response read_buffer with_scanner with_buffer handled]. rewrite Hhandle.
        destruct (consume_spec (read_buffer c) (pos r) Hwf) as [Hwf' Hrem].
        rewrite Eu, Et, Hpos, drop_app_length in Hrem. cbn [read_buffer reply_scanner].
        rewrite <- Hpos in Hrem. rewrite Hrem.
        split; [split; [|apply resumable_reset]|].
        -- split; [done|]. split; [done|]. exists (w ++ p). split; [by rewrite Es, Et, app_assoc|]. by apply framed_one.
        -- pose proof (f_equal length Hrem) as Hl. pose proof (f_equal length Eu) as Hl2. rewrite Et in Hl2.
           unfold remaining in Hl, Hl2. rewrite length_drop in Hl, Hl2. rewrite length_app in Hl2. unfold ob_len. lia.
      * eexists. split; [done|]. eapply follows_fail; [exact Hc|]. apply Hr. by eapply Hx.
    + eexists. split; [done|]. destruct Hx as [Hres Hst]. exists w, u. splits; [done|done|].
      cbn [failed with_scanner read_buffer reply_scanner]. rewrite Hf. splits; [done|by symmetry|done|done].
    + eexists. split; [done|]. eapply follows_fail; [exact Hc|done].
  - done.
  - lia.
Qed.

Lemma chunk_loop s c data :
  framing s c data -> remaining (read_buffer c) = [] ->
  exists c', mjoin (run_loop (length data + 2) chunk_step (c, data)) = Some c' /\ follows s c'.
Proof.
  intros Hc Hb.
  edestruct (run_loop_rule chunk_step
    (fun st => framing s (fst st) (snd st) /\ remaining (read_buffer (fst st)) = [])
    (fun r => exists c', r = Some c' /\ follows s c') (fun st => length (snd st))) as (r & E & c' & -> & H').
  4: { exists c'. by rewrite E. }
  - clear c data Hc Hb. intros [c u] [Hc Hb]. cbn [fst snd] in *. pose proof Hc as (Hf & Hwf & w & Es & Hw).
    unfold ValkeyClient.chunk_step. destruct u as [|b0 u0] eqn:Eu.
    { eexists. split; [done|]. exists w, []. splits; [done|done|]. rewrite Hf. splits; [done|by symmetry|apply stuck_nil|done]. }
    rewrite <- Eu in *. clear Eu. destruct (read_cases u) as (r & [v|e] & -> & Hr).
    + destruct Hr as (p & t & Et & Hv & Hpos & Hlt). destruct (Nat.eqb_spec (pos r) 0); [lia|].
      cbn [handle_response handled]. rewrite Hhandle. cbn [fst snd].
      rewrite Et, Hpos, drop_app_length. rewrite length_app.
      split; [split; [|done]|lia].
      split; [done|]. split; [done|]. exists (w ++ p). split; [by rewrite Es, Et, app_assoc|]. by apply framed_one.
    + case_bool_decide as He.
      * eexists. split; [done|]. exists w, u. destruct Hr as [Hst _].
        destruct (ob_write_spec (read_buffer c) u Hwf) as [Hwf' Hrem]. rewrite Hb in Hrem.
        splits; [done|done|]. cbn [failed with_buffer with_scanner read_buffer reply_scanner]. rewrite Hf.
        splits; [done|by symmetry|done|]. intros _. apply resumable_reset.
      * eexists. split; [done|]. eapply follows_fail; [exact Hc|]. by apply Hr.
  - done.
  - cbn [snd]. lia.
Qed.

Lemma on_data_follows s c data :
  follows s c -> failed c = None -> exists c', on_data c data = Some c' /\ follows (s ++ data) c'.
Proof.
  intros (w & rest & Es & Hw & Hc) Hf. rewrite Hf in Hc. destruct Hc as (Hwf & -> & Hst & Hres).
  unfold ValkeyClient.on_data. destruct (remaining (read_buffer c)) as [|b0 u0] eqn:Eu.
  - apply chunk_loop; [|done]. split; [done|]. split; [done|]. exists w. split; [by rewrite Es, app_nil_r|done].
  - destruct (ob_write_spec (read_buffer c) data Hwf) as [Hwf' Hrem]. rewrite Eu in Hrem.
    apply (buffer_loop (s ++ data) (with_buffer c (ob_write (read_buffer c) data)));
      cbn [with_buffer read_buffer reply_scanner]; rewrite Hrem.
    + split; [done|]. split; [done|]. exists w. split; [by rewrite Es, app_assoc|done].
    + by apply resumable_app, Hres.
Qed.

Lemma feed_follows chunks : forall s c, follows s c ->
  exists c', feed c chunks = Some c' /\ follows (s ++ concat chunks) c'.
Proof.
  induction chunks as [|data chunks IH]; intros s c Hc; cbn [ValkeyClient.feed concat].
  { exists c. by rewrite app_nil_r. }
  destruct (failed c) as [e|] eqn:Ef.
  - exists c. split; [done|]. destruct Hc as (w & rest & -> & Hw & Hc). rewrite Ef in Hc.
    exists w, (rest ++ data ++ concat chunks). rewrite Ef. splits; [by rewrite <- app_assoc|done|].
    intros b. rewrite <- app_assoc. apply Hc.
  - destruct (on_data_follows s c data Hc Ef) as (c' & -> & Hc'). cbn [mbind option_bind].
    destruct (IH _ _ Hc') as (c2 & E & H2). exists c2. by rewrite app_assoc.
Qed.

Lemma framed_exists s : exists vs rest, framed s vs rest.
Proof.
  remember (length s) as n eqn:En. revert s En. induction n as [n IH] using lt_wf_ind. intros s ->.
  destruct (read_cases s) as (r & [v|e] & _ & Hr).
  - destruct Hr as (p & t & -> & Hv & Hpos & Hlt). destruct (IH (length t)) with (s := t) as (vs & rest & Hf);
      [rewrite length_app; lia|done|]. exists (v :: vs), rest. by constructor.
  - exists [], s. apply framed_end, Hr.
Qed.

End Framing.

Lemma command_is_array_witness :
  let args := [bstr "key"; [13; 10; 0]] in
  wire (f64 := Z) (fun _ => None) 0 0 0 MAX_NESTING_DEPTH (command_write (bstr "SET") args)
    (Array [BulkString (Some (bstr "SET")); BulkString (Some (bstr "key")); BulkString (Some [13; 10; 0])])
  /\ command_write (bstr "SET") args
     = bstr "*3" ++ CRLF ++ bstr "$3" ++ CRLF ++ bstr "SET" ++ CRLF ++ bstr "$3" ++ CRLF ++ bstr "key" ++ CRLF
       ++ bstr "$3" ++ CRLF ++ [13; 10; 0] ++ CRLF.
Proof.
  intros args. split; [|vm_compute; reflexivity].
  apply (command_is_array (f64 := Z) (fun _ => None) 0 0 0 (bstr "SET") args); [|vm_compute; reflexivity].
  repeat constructor; vm_compute; discriminate.
Defined.

