(* ===== verification/SignalRing.v ===== *)
(** * The signal ring of threading/signal_ring.rs and its client, jsc/PosixSignalHandle.rs

    Signal handlers on any thread push signal numbers into a lock-free ring; the main
    thread drains it into the event loop's tasks.  The code is a sequence of atomic
    operations with local computation between them, so an invocation is a value that
    says which atomic operation comes next, with the locals that are still live, and
    [enqueue_step], [dequeue_step] and [handler_step] run it as far as the operation
    after that.  A [System] holds the ring, every invocation of the handler (one that
    nests in another is one more entry) and the drain of the main thread; an [Action]
    lets one of them perform its next atomic operation, so a list of actions is an
    interleaving.

    The operations are sequentially consistent here: that the orderings the code asks
    for are enough for this is not shown.  [compare_exchange_weak] may fail although the
    values agree: the action says whether it does.  A slot index out of range is a
    panic, and a [None] of the model; the theorems show there is none.

    The main results: the ring is a bounded FIFO queue (a forward simulation, which a
    wrapped or stale pair of indices does not break); no accepted signal is lost when
    everything is at rest; and every schedule comes to rest. *)

From S2P Require Import Prelude.

#[local] Open Scope Z_scope.

Definition wrap16 (z : Z) : Z := z mod 65536.
Definition wrapping_add16 (a b : Z) : Z := wrap16 (a + b).
Definition wrapping_sub16 (a b : Z) : Z := wrap16 (a - b).

(** [head] in the low half, [tail] in the high half. *)
Definition unpack (state : Z) : Z * Z := (wrap16 state, wrap16 (Z.shiftr state 16)).
Definition pack (head tail : Z) : Z := Z.lor (Z.shiftl tail 16) head.

Record SignalRing := { slots : list Z; state : Z }.

(** An invocation of [enqueue], before the operation its constructor names. *)
Inductive Enqueue :=
| EnqueueLoad (signal : Z)
| EnqueueCas (signal state : Z)
| EnqueueStore (signal tail : Z)
| EnqueueReturn (accepted : bool).

(** An invocation of [dequeue]. *)
Inductive Dequeue :=
| DequeueLoad
| DequeueSwap (state : Z)
| DequeueCas (head signal state : Z)
| DequeueReturn (signal : option Z).

(** An invocation of [Bun__onPosixSignal] from its call of [enqueue] on. *)
Inductive Handler :=
| Enqueueing (e : Enqueue)
| Wakeup
| Returned.

(** The main thread: outside [drain], or in the call of [dequeue] that [drain] makes. *)
Inductive Main :=
| Idle
| Draining (d : Dequeue).

Record System := {
  ring : SignalRing;
  handlers : list Handler;
  woken : bool;
  main : Main;
  tasks : list Z
}.

(** What a handler reads besides its argument. *)
Record SignalEnv := {
  WATCH_MODE_KILL_SIGNAL : Z;
  WATCH_SIGINT_LISTENERS : Z;
  main_thread_vm : bool;
  signal_handler : bool
}.
Definition SIGINT_NUMBER : Z := 2.

(** The guards of [Bun__onPosixSignal]; [None] is the exit of the process. *)
Definition on_posix_signal (env : SignalEnv) (number : Z) : option Handler :=
  if (number =? SIGINT_NUMBER) && negb (WATCH_MODE_KILL_SIGNAL env =? 0)
     && (WATCH_SIGINT_LISTENERS env =? 0) then None
  else if negb (main_thread_vm env) then Some Returned
  else if negb (signal_handler env) then Some Returned
  else if in_range 0 255 number && negb (number =? 0) then Some (Enqueueing (EnqueueLoad number))
  else Some Returned.

Section Ring.
Context (CAPACITY : Z).

(** [CAPACITY_IS_VALID] *)
Definition capacity_is_valid : bool :=
  (0 <? CAPACITY) && (2 ^ Z.log2 CAPACITY =? CAPACITY) && (CAPACITY <=? 32768).

Definition new : SignalRing := {| slots := replicate (Z.to_nat CAPACITY) 0; state := 0 |}.
Definition starting_at (index : Z) : SignalRing :=
  {| slots := slots new; state := pack index index |}.

Definition slot_index (index : Z) : nat := Z.to_nat (index mod CAPACITY).
(** [self.slot(index).store(v)] *)
Definition slot_store (self : SignalRing) (index v : Z) : option SignalRing :=
  if decide (slot_index index < length (slots self))%nat
  then Some {| slots := <[slot_index index := v]> (slots self); state := state self |}
  else None.
(** [self.slot(index).swap(v)] *)
Definition slot_swap (self : SignalRing) (index v : Z) : option (SignalRing * Z) :=
  old ← slots self !! slot_index index;
  self ← slot_store self index v;
  Some (self, old).

(** [self.state.compare_exchange_weak(current, new)]: the value found is the error. *)
Definition state_cas (spurious : bool) (self : SignalRing) (current new : Z) :
    SignalRing * result Z unit :=
  if spurious || negb (state self =? current) then (self, Err (state self))
  else ({| slots := slots self; state := new |}, Ok tt).

Definition is_full (state : Z) : bool :=
  let '(head, tail) := unpack state in CAPACITY <=? wrapping_sub16 tail head.

(** The loop of [enqueue] with a state it has just read, up to the exchange. *)
Definition enqueue_loop (signal state : Z) : Enqueue :=
  if is_full state then EnqueueReturn false else EnqueueCas signal state.

Definition enqueue_step (spurious : bool) (self : SignalRing) (e : Enqueue) :
    option (SignalRing * Enqueue) :=
  match e with
  | EnqueueLoad signal => Some (self, enqueue_loop signal (state self))
  | EnqueueCas signal st =>
      let '(head, tail) := unpack st in
      match state_cas spurious self st (pack head (wrapping_add16 tail 1)) with
      | (self, Ok _) => Some (self, EnqueueStore signal tail)
      | (self, Err current) => Some (self, enqueue_loop signal current)
      end
  | EnqueueStore signal tail =>
      self ← slot_store self tail signal;
      Some (self, EnqueueReturn true)
  | EnqueueReturn _ => None
  end.

Definition dequeue_step (spurious : bool) (self : SignalRing) (d : Dequeue) :
    option (SignalRing * Dequeue) :=
  match d with
  | DequeueLoad =>
      let '(head, tail) := unpack (state self) in
      Some (self, if head =? tail then DequeueReturn None else DequeueSwap (state self))
  | DequeueSwap st =>
      let '(head, _) := unpack st in
      '(self, signal) ← slot_swap self head 0;
      Some (self, if signal =? 0 then DequeueReturn None else DequeueCas head signal st)
  | DequeueCas head signal st =>
      let '(_, tail) := unpack st in
      match state_cas spurious self st (pack (wrapping_add16 head 1) tail) with
      | (self, Ok _) => Some (self, DequeueReturn (Some signal))
      | (self, Err current) => Some (self, DequeueCas head signal current)
      end
  | DequeueReturn _ => None
  end.

(** [if handler.enqueue(signal) { wakeup() }] *)
Definition handler_after (e : Enqueue) : Handler :=
  match e with
  | EnqueueReturn true => Wakeup
  | EnqueueReturn false => Returned
  | e => Enqueueing e
  end.

(** The next operation of a handler: the ring, whether it wakes the loop, and the rest. *)
Definition handler_step (spurious : bool) (self : SignalRing) (h : Handler) :
    option (SignalRing * bool * Handler) :=
  match h with
  | Enqueueing e =>
      '(self, e) ← enqueue_step spurious self e;
      Some (self, false, handler_after e)
  | Wakeup => Some (self, true, Returned)
  | Returned => None
  end.

(** [while let Some(signal) = self.ring.dequeue() { event_loop.enqueue_task(..) }] *)
Definition drain_step (spurious : bool) (self : SignalRing) (d : Dequeue) :
    option (SignalRing * Main * list Z) :=
  '(self, d) ← dequeue_step spurious self d;
  Some match d with
       | DequeueReturn (Some signal) => (self, Draining DequeueLoad, [signal])
       | DequeueReturn None => (self, Idle, [])
       | d => (self, Draining d, [])
       end.

(** One step of an interleaving: a signal is delivered on some thread, the main thread
    starts a drain (its loop was woken, or it comes by on its own), handler [i] or the
    drain performs its next atomic operation. *)
Inductive Action :=
| Deliver (env : SignalEnv) (number : Z)
| Tick
| HandlerStep (i : nat) (spurious : bool)
| MainStep (spurious : bool).

Definition perform (a : Action) (s : System) : option System :=
  match a with
  | Deliver env number =>
      h ← on_posix_signal env number;
      Some {| ring := ring s; handlers := handlers s ++ [h]; woken := woken s;
              main := main s; tasks := tasks s |}
  | Tick =>
      match main s with
      | Idle => Some {| ring := ring s; handlers := handlers s; woken := false;
                        main := Draining DequeueLoad; tasks := tasks s |}
      | Draining _ => None
      end
  | HandlerStep i spurious =>
      h ← handlers s !! i;
      '(r, wake, h) ← handler_step spurious (ring s) h;
      Some {| ring := r; handlers := <[i := h]> (handlers s); woken := wake || woken s;
              main := main s; tasks := tasks s |}
  | MainStep spurious =>
      match main s with
      | Idle => None
      | Draining d =>
          '(r, m, new_tasks) ← drain_step spurious (ring s) d;
          Some {| ring := r; handlers := handlers s; woken := woken s;
                  main := m; tasks := tasks s ++ new_tasks |}
      end
  end.

(** What a step does to the queue, read off the states around it. *)
Inductive Event :=
| Accept (i : nat) (signal : Z)
| Publish (i : nat)
| Reject (i : nat)
| Take (signal : Z)
| Empty
| Blocked.

Definition events (a : Action) (s s' : System) : list Event :=
  match a with
  | HandlerStep i _ =>
      match handlers s !! i, handlers s' !! i with
      | Some (Enqueueing (EnqueueCas signal _)), Some (Enqueueing (EnqueueStore _ _)) => [Accept i signal]
      | Some (Enqueueing (EnqueueStore _ _)), Some Wakeup => [Publish i]
      | Some (Enqueueing _), Some Returned => [Reject i]
      | _, _ => []
      end
  | MainStep _ =>
      match main s, main s' with
      | Draining DequeueLoad, Idle => [Empty]
      | Draining (DequeueSwap _), Idle => [Blocked]
      | Draining (DequeueCas _ signal _), Draining DequeueLoad => [Take signal]
      | _, _ => []
      end
  | _ => []
  end.

(** An interleaving, with the events it shows. *)
Fixpoint run (schedule : list Action) (s : System) : option (System * list Event) :=
  match schedule with
  | [] => Some (s, [])
  | a :: schedule =>
      s' ← perform a s;
      '(s'', evs) ← run schedule s';
      Some (s'', events a s s' ++ evs)
  end.

Definition init (index : Z) : System :=
  {| ring := starting_at index; handlers := []; woken := false; main := Idle; tasks := [] |}.

(** ** The contract: a bounded queue

    An entry is claimed by an invocation first and written later. *)
Inductive Entry :=
| Pending (i : nat) (signal : Z)
| Written (signal : Z).
Definition entry_signal (e : Entry) : Z :=
  match e with Pending _ signal | Written signal => signal end.

Inductive queue_step : Event -> list Entry -> list Entry -> Prop :=
| step_accept i signal q : Z.of_nat (length q) < CAPACITY ->
    queue_step (Accept i signal) q (q ++ [Pending i signal])
| step_reject i q : Z.of_nat (length q) = CAPACITY -> queue_step (Reject i) q q
| step_publish i signal k q : q !! k = Some (Pending i signal) ->
    queue_step (Publish i) q (<[k := Written signal]> q)
| step_take signal q : queue_step (Take signal) (Written signal :: q) q
| step_empty : queue_step Empty [] []
| step_blocked i signal q : queue_step Blocked (Pending i signal :: q) (Pending i signal :: q).

Inductive queue_run : list Event -> list Entry -> list Entry -> Prop :=
| run_done q : queue_run [] q q
| run_step e evs q1 q2 q3 : queue_step e q1 q2 -> queue_run evs q2 q3 -> queue_run (e :: evs) q1 q3.

Definition accepted (evs : list Event) : list Z :=
  omap (fun e => match e with Accept _ signal => Some signal | _ => None end) evs.
Definition taken (evs : list Event) : list Z :=
  omap (fun e => match e with Take signal => Some signal | _ => None end) evs.

Lemma queue_run_app evs1 evs2 q1 q2 q3 :
  queue_run evs1 q1 q2 -> queue_run evs2 q2 q3 -> queue_run (evs1 ++ evs2) q1 q3.
Proof. induction 1; cbn [app]; [done|]. eauto using run_step. Qed.

Lemma queue_run_one e q1 q2 : queue_step e q1 q2 -> queue_run [e] q1 q2.
Proof. eauto using run_step, run_done. Qed.

(** What has been accepted is what has been taken, then what is queued. *)
Lemma queue_run_fifo evs q1 q2 :
  queue_run evs q1 q2 -> map entry_signal q1 ++ accepted evs = taken evs ++ map entry_signal q2.
Proof.
  induction 1 as [q|e evs q1 q2 q3 Hstep _ IH]; [by rewrite app_nil_r|].
  destruct Hstep as [i sg q|i q|i sg k q Hk|sg q| |i sg q]; cbn in IH |- *; fold (accepted evs) in *; fold (taken evs) in *; try done.
  - rewrite <- IH, map_app, <- app_assoc. done.
  - rewrite <- IH. f_equal.
    clear -Hk. revert k Hk. induction q as [|e q IH]; intros [|k] Hk; simplify_eq/=; [done|].
    f_equal. by apply IH.
  - by rewrite <- IH.
Qed.

(** ** The indices *)
Lemma pack_value head tail : 0 <= head < 65536 -> pack head tail = tail * 65536 + head.
Proof.
  intros Hh. unfold pack. pose proof (Z.add_lor_land (Z.shiftl tail 16) head) as E.
  rewrite Z.shiftl_mul_pow2 in * by lia.
  enough (Z.land (tail * 2 ^ 16) head = 0) by lia.
  apply Z.bits_inj_0. intros n. rewrite Z.land_spec.
  destruct (Z.lt_ge_cases n 16) as [Hn|Hn].
  - by rewrite Z.mul_pow2_bits_low.
  - rewrite <- (Z.mod_small head (2 ^ 16)) by lia.
    rewrite (Z.mod_pow2_bits_high head 16) by lia. apply andb_false_r.
Qed.

Lemma wrap16_range z : 0 <= wrap16 z < 65536.
Proof. unfold wrap16. apply Z.mod_pos_bound. lia. Qed.

Lemma unpack_pack head tail :
  0 <= head < 65536 -> 0 <= tail < 65536 -> unpack (pack head tail) = (head, tail).
Proof.
  intros Hh Ht. unfold unpack. rewrite pack_value, Z.shiftr_div_pow2 by lia.
  unfold wrap16. f_equal; Z.div_mod_to_equations; lia.
Qed.

Lemma unpack_wrapped a b : unpack (pack (wrap16 a) (wrap16 b)) = (wrap16 a, wrap16 b).
Proof. apply unpack_pack; apply wrap16_range. Qed.

Lemma wrapping_add16_wrap a b : wrapping_add16 (wrap16 a) b = wrap16 (a + b).
Proof. unfold wrapping_add16, wrap16. apply Zplus_mod_idemp_l. Qed.

Lemma wrapping_sub16_wrap a n : 0 <= n < 65536 -> wrapping_sub16 (wrap16 (a + n)) (wrap16 a) = n.
Proof. intros Hn. unfold wrapping_sub16, wrap16. Z.div_mod_to_equations. lia. Qed.

Lemma wrap16_inj a m n :
  0 <= m < 65536 -> 0 <= n < 65536 -> wrap16 (a + m) = wrap16 (a + n) -> m = n.
Proof. unfold wrap16. intros Hm Hn E. Z.div_mod_to_equations. lia. Qed.

Context (HC : capacity_is_valid = true).

Lemma capacity_bounds : 0 < CAPACITY <= 32768.
Proof. unfold capacity_is_valid in HC. lia. Qed.

Lemma capacity_divides : (CAPACITY | 65536).
Proof.
  unfold capacity_is_valid in HC. apply andb_prop in HC as [[H0 Hp]%andb_prop Hmax].
  apply Z.eqb_eq in Hp. rewrite <- Hp. change 65536 with (2 ^ 16).
  assert (Z.log2 CAPACITY <= 15).
  { change 15 with (Z.log2 32768). apply Z.log2_le_mono. lia. }
  pose proof (Z.log2_nonneg CAPACITY).
  exists (2 ^ (16 - Z.log2 CAPACITY)). rewrite <- Z.pow_add_r by lia. f_equal. lia.
Qed.

Lemma slot_index_wrap16 z : slot_index (wrap16 z) = slot_index z.
Proof.
  unfold slot_index, wrap16. pose proof capacity_bounds.
  by rewrite Z.mod_mod_divide by apply capacity_divides.
Qed.

Lemma slot_index_lt z : (slot_index z < Z.to_nat CAPACITY)%nat.
Proof.
  unfold slot_index. pose proof capacity_bounds. pose proof (Z.mod_pos_bound z CAPACITY). lia.
Qed.

Lemma slot_index_inj a m n :
  0 <= m < CAPACITY -> 0 <= n < CAPACITY -> slot_index (a + m) = slot_index (a + n) -> m = n.
Proof.
  intros Hm Hn E. unfold slot_index in E. pose proof capacity_bounds.
  apply Z2Nat.inj in E; [|apply Z.mod_pos_bound; lia..].
  assert (Hd : (m - n) mod CAPACITY = 0).
  { replace (m - n) with (a + m - (a + n)) by lia. rewrite Zminus_mod, E, Z.sub_diag.
    apply Z.mod_0_l. lia. }
  apply Z.mod_divide in Hd as [c Hc]; [|lia].
  assert (c < 1) by nia. assert (-1 < c) by nia. replace c with 0 in Hc by lia. lia.
Qed.

Lemma slot_index_period z : slot_index (z + CAPACITY) = slot_index z.
Proof.
  unfold slot_index. pose proof capacity_bounds.
  rewrite <- (Z.mul_1_l CAPACITY) at 1. by rewrite Z.mod_add by lia.
Qed.

#[local] Opaque unpack pack.

(** ** The simulation relation

    [H] counts the signals taken since the start, unwrapped. *)
Definition is_signal (z : Z) : Prop := 1 <= z <= 255.

(** The locals of a handler that is not between its claim and its store. *)
Definition handler_ok (h : Handler) : Prop :=
  match h with
  | Enqueueing (EnqueueLoad signal) => is_signal signal
  | Enqueueing (EnqueueCas signal st) => is_signal signal /\ is_full st = false
  | Enqueueing (EnqueueStore signal _) => is_signal signal
  | Enqueueing (EnqueueReturn _) => False
  | Wakeup | Returned => True
  end.

Definition is_store (h : Handler) : bool :=
  match h with Enqueueing (EnqueueStore _ _) => true | _ => false end.

(** The drain has emptied the slot of the first entry and not moved [head] yet. *)
Definition holds_first (m : Main) : bool :=
  match m with Draining (DequeueCas _ _ _) => true | _ => false end.

Definition main_ok (H : Z) (q : list Entry) (m : Main) : Prop :=
  match m with
  | Draining (DequeueSwap st) => fst (unpack st) = wrap16 H /\ q <> []
  | Draining (DequeueCas head signal _) => head = wrap16 H /\ exists q', q = Written signal :: q'
  | Draining (DequeueReturn _) => False
  | Idle | Draining DequeueLoad => True
  end.

(** What the slot of position [k] after [H] holds. *)
Definition cell (q : list Entry) (held : bool) (k : nat) : Z :=
  if held && (k =? 0)%nat then 0
  else match q !! k with Some (Written signal) => signal | _ => 0 end.

Definition claims (H : Z) (q : list Entry) (i : nat) (h : Handler) : Prop :=
  match h with
  | Enqueueing (EnqueueStore signal tail) =>
      exists k : nat, q !! k = Some (Pending i signal) /\ tail = wrap16 (H + Z.of_nat k) /\
        forall k' signal', q !! k' = Some (Pending i signal') -> k' = k
  | _ => forall k signal, q !! k <> Some (Pending i signal)
  end.

Record related (H : Z) (q : list Entry) (r : SignalRing) (hs : list Handler) (m : Main) : Prop := {
  r_length : Z.of_nat (length q) <= CAPACITY;
  r_state : state r = pack (wrap16 H) (wrap16 (H + Z.of_nat (length q)));
  r_slots : length (slots r) = Z.to_nat CAPACITY;
  r_cell : forall k : nat, Z.of_nat k < CAPACITY ->
    slots r !! slot_index (H + Z.of_nat k) = Some (cell q (holds_first m) k);
  r_claims : forall i h, hs !! i = Some h -> claims H q i h;
  r_owned : forall i k signal, q !! k = Some (Pending i signal) -> (i < length hs)%nat;
  r_handlers : Forall handler_ok hs;
  r_main : main_ok H q m;
  r_signals : Forall (fun e => is_signal (entry_signal e)) q
}.

Lemma full_state H n :
  0 <= n <= CAPACITY -> is_full (pack (wrap16 H) (wrap16 (H + n))) = (n =? CAPACITY).
Proof.
  intros Hn. pose proof capacity_bounds. unfold is_full.
  rewrite unpack_wrapped, wrapping_sub16_wrap by lia. lia.
Qed.

Lemma full_iff H q r hs m :
  related H q r hs m -> is_full (state r) = (Z.of_nat (length q) =? CAPACITY).
Proof. intros R. rewrite (r_state _ _ _ _ _ R). apply full_state. pose proof (r_length _ _ _ _ _ R). lia. Qed.

Lemma slot_store_ok r z v :
  length (slots r) = Z.to_nat CAPACITY ->
  slot_store r z v = Some {| slots := <[slot_index z := v]> (slots r); state := state r |}.
Proof. intros E. unfold slot_store. pose proof (slot_index_lt z). by rewrite decide_True by lia. Qed.

(** An invocation that neither had a claim nor gets one. *)
Lemma related_handler H q r hs m i h h' :
  related H q r hs m -> hs !! i = Some h -> is_store h = false -> is_store h' = false ->
  handler_ok h' -> related H q r (<[i := h']> hs) m.
Proof.
  intros R Hi Hh Hh' Hok. destruct R. constructor; auto.
  - intros j hj [(-> & <- & _)|(Hij & Hj)]%list_lookup_insert_Some; [|eauto].
    pose proof (r_claims0 _ _ Hi) as C.
    unfold claims in C |- *. destruct h as [[]| |], h' as [[]| |]; try done.
  - intros j k sg Hk. rewrite length_insert. eauto.
  - by apply Forall_insert.
Qed.

Lemma cell_snoc q held k e :
  (k < length q)%nat -> cell (q ++ [e]) held k = cell q held k.
Proof. intros Hk. unfold cell. by rewrite lookup_app_l. Qed.

Lemma cell_beyond q held k : (length q <= k)%nat -> cell q held k = 0.
Proof. intros Hk. unfold cell. rewrite lookup_ge_None_2 by done. by destruct (held && _). Qed.

(** The exchange of [enqueue] succeeds: it claims the slot at the tail. *)
Lemma related_accept H q r hs m i signal st :
  related H q r hs m -> hs !! i = Some (Enqueueing (EnqueueCas signal st)) ->
  Z.of_nat (length q) < CAPACITY ->
  related H (q ++ [Pending i signal])
    {| slots := slots r; state := pack (wrap16 H) (wrap16 (H + Z.of_nat (length q) + 1)) |}
    (<[i := Enqueueing (EnqueueStore signal (wrap16 (H + Z.of_nat (length q))))]> hs) m.
Proof.
  intros R Hi Hroom. destruct R.
  assert (Hok : is_signal signal).
  { pose proof (Forall_lookup_1 _ _ _ _ r_handlers0 Hi) as [Hs _]. done. }
  assert (Hnew : forall j k sg, (q ++ [Pending i signal]) !! k = Some (Pending j sg) ->
    q !! k = Some (Pending j sg) \/ k = length q /\ j = i /\ sg = signal).
  { intros j k sg [?|[? Hk]]%lookup_app_Some; [by left|right].
    apply list_lookup_singleton_Some in Hk as [? [= -> ->]]. split; [lia|done]. }
  constructor; cbn [slots state]; auto.
  - rewrite length_app. cbn. lia.
  - rewrite length_app. cbn [length]. do 2 f_equal. lia.
  - intros k Hk. rewrite r_cell0 by done. f_equal.
    destruct (Nat.lt_total k (length q)) as [Hlt|[->|Hgt]].
    + by rewrite cell_snoc.
    + rewrite cell_beyond by done. unfold cell.
      rewrite list_lookup_middle by done. by destruct (_ && _).
    + rewrite !cell_beyond; [done|rewrite length_app; cbn; lia|lia].
  - intros j h [(-> & <- & _)|(Hij & Hj)]%list_lookup_insert_Some.
    + cbn. exists (length q). splits; [by rewrite list_lookup_middle|done|].
      intros k' sg [Hk'|[-> _]]%Hnew; [|done]. by destruct (r_claims0 _ _ Hi k' sg).
    + pose proof (r_claims0 _ _ Hj) as C. unfold claims in C |- *.
      destruct h as [[]| |]; try (intros k sg [?|(-> & -> & ->)]%Hnew; [by eapply C|done]).
      destruct C as (k & Hk & -> & Huniq). exists k. splits; [by apply lookup_app_l_Some|done|].
      intros k' sg [?|(-> & -> & ->)]%Hnew; [by eapply Huniq|done].
  - intros j k sg [Hk|(-> & -> & ->)]%Hnew; rewrite length_insert; [eauto|].
    by apply lookup_lt_Some in Hi.
  - by apply Forall_insert.
  - destruct m as [|[]]; try done.
    + destruct r_main0 as [? Hq]. split; [done|]. by destruct q.
    + destruct r_main0 as [? [q' ->]]. split; [done|]. by exists (q' ++ [Pending i signal]).
  - apply Forall_app. split; [done|]. by apply Forall_singleton.
Qed.

(** The store of [enqueue] publishes its entry. *)
Lemma related_publish H q r hs m i k signal :
  related H q r hs m -> hs !! i = Some (Enqueueing (EnqueueStore signal (wrap16 (H + Z.of_nat k)))) ->
  q !! k = Some (Pending i signal) ->
  related H (<[k := Written signal]> q)
    {| slots := <[slot_index (H + Z.of_nat k) := signal]> (slots r); state := state r |}
    (<[i := Wakeup]> hs) m.
Proof.
  intros R Hi Hk. destruct R. pose proof (lookup_lt_Some _ _ _ Hk) as Hlt.
  assert (Hfirst : holds_first m = true -> k <> 0%nat).
  { intros Hm ->. destruct m as [|[]]; try done. destruct r_main0 as [_ [q' ->]]. done. }
  assert (Hold : forall j k' sg, <[k := Written signal]> q !! k' = Some (Pending j sg) ->
    k' <> k /\ q !! k' = Some (Pending j sg)).
  { intros j k' sg [(-> & ? & _)|[? ?]]%list_lookup_insert_Some; done. }
  constructor; cbn [slots state]; rewrite ?length_insert; auto.
  - intros k' Hk'. destruct (decide (k' = k)) as [->|Hne].
    + rewrite list_lookup_insert_eq by (rewrite r_slots0; apply slot_index_lt).
      unfold cell. rewrite list_lookup_insert_eq by done.
      destruct (holds_first m) eqn:Em; [|done]. by destruct k; [destruct (Hfirst eq_refl)|].
    + rewrite list_lookup_insert_ne.
      2: { intros E%slot_index_inj; lia. }
      rewrite r_cell0 by done. unfold cell. by rewrite list_lookup_insert_ne.
  - intros j h [(-> & <- & _)|(Hij & Hj)]%list_lookup_insert_Some.
    + cbn. intros k' sg [Hne Hk']%Hold.
      destruct (r_claims0 _ _ Hi) as (k0 & _ & _ & Huniq).
      apply Hne. by rewrite (Huniq _ _ Hk'), (Huniq _ _ Hk).
    + pose proof (r_claims0 _ _ Hj) as C. unfold claims in C |- *.
      destruct h as [[]| |]; try (intros k' sg [_ ?]%Hold; by eapply C).
      destruct C as (k' & Hk' & -> & Huniq). exists k'. splits; [|done|].
      * rewrite list_lookup_insert_ne; [done|]. intros <-. naive_solver.
      * intros k2 sg [_ ?]%Hold. by eapply Huniq.
  - intros j k' sg [_ Hk']%Hold. eauto.
  - by apply Forall_insert.
  - destruct m as [|[]]; try done.
    + destruct r_main0 as [? Hq]. split; [done|]. destruct q; [done|by destruct k].
    + destruct r_main0 as [? [q' ->]]. split; [done|].
      destruct k as [|k]; [done|]. by eexists.
  - apply Forall_insert; [done|]. cbn.
    apply (Forall_lookup_1 _ _ _ _ r_signals0 Hk).
Qed.

Lemma related_main H q r hs m m' :
  related H q r hs m -> holds_first m' = holds_first m -> main_ok H q m' -> related H q r hs m'.
Proof. intros R E Hm. destruct R. constructor; auto. by rewrite E. Qed.

(** The swap of [dequeue] empties the slot of the first entry. *)
Lemma related_swap H q r hs st :
  related H q r hs (Draining (DequeueSwap st)) ->
  exists e q' r', q = e :: q' /\ slot_swap r (fst (unpack st)) 0 = Some (r', cell q false 0) /\
    state r' = state r /\
    match e with
    | Written signal => related H q r' hs (Draining (DequeueCas (fst (unpack st)) signal (state r)))
    | Pending _ _ => related H q r' hs Idle
    end.
Proof.
  intros R. pose proof capacity_bounds as HB. destruct R as [? ? Hsl Hcell ? ? ? [Hst Hq] ?].
  destruct q as [|e q']; [done|].
  assert (Hc : forall k : nat, Z.of_nat k < CAPACITY ->
    <[slot_index H := 0]> (slots r) !! slot_index (H + Z.of_nat k) = Some (cell (e :: q') true k)).
  { intros k Hk. destruct (decide (k = 0%nat)) as [->|Hne].
    - rewrite Z.add_0_r, list_lookup_insert_eq by (rewrite Hsl; apply slot_index_lt). done.
    - rewrite list_lookup_insert_ne.
      2: { rewrite <- (Z.add_0_r H) at 1. intros E%slot_index_inj; lia. }
      rewrite Hcell by done. by destruct k. }
  eexists e, q', _. splits; [done| | |].
  - rewrite Hst. unfold slot_swap. rewrite slot_store_ok by done.
    rewrite slot_index_wrap16. pose proof (Hcell 0%nat) as H0. rewrite Z.add_0_r in H0.
    rewrite H0 by lia. done.
  - done.
  - rewrite Hst. destruct e as [i sg|sg]; constructor; cbn [slots state]; rewrite ?length_insert; auto.
    + intros k Hk. rewrite Hc by done. by destruct k.
    + done.
    + split; [done|]. by eexists.
Qed.

(** The exchange of [dequeue] succeeds: the first entry leaves the queue. *)
Lemma related_take H q r hs head signal st :
  related H q r hs (Draining (DequeueCas head signal st)) ->
  exists q', q = Written signal :: q' /\
    related (H + 1) q' {| slots := slots r;
      state := pack (wrap16 (H + 1)) (wrap16 (H + Z.of_nat (length q))) |} hs (Draining DequeueLoad).
Proof.
  intros R. pose proof capacity_bounds as HB.
  destruct R as [Hlen Hstate Hsl Hcell Hcl Hown Hh [-> [q' ->]] Hsg]. exists q'. split; [done|].
  cbn [length] in *.
  constructor; cbn [slots state]; auto.
  - lia.
  - do 2 f_equal. lia.
  - intros k Hk. destruct (decide (Z.of_nat k + 1 = CAPACITY)) as [Hlast|Hmore].
    + replace (H + 1 + Z.of_nat k) with (H + Z.of_nat 0 + CAPACITY) by lia. rewrite slot_index_period.
      rewrite (Hcell 0%nat) by lia. by rewrite (cell_beyond q') by lia.
    + replace (H + 1 + Z.of_nat k) with (H + Z.of_nat (S k)) by lia. by rewrite Hcell by lia.
  - intros i h Hi. pose proof (Hcl _ _ Hi) as C. unfold claims in C |- *.
    destruct h as [[]| |]; try (intros k sg Hk; by apply (C (S k) sg)).
    destruct C as ([|k] & Hk & -> & Huniq); [done|].
    exists k. splits; [done|f_equal; lia|]. intros k' sg Hk'. specialize (Huniq (S k') sg Hk'). lia.
  - intros i k sg Hk. by apply (Hown i (S k) sg).
  - done.
  - by inversion_clear Hsg.
Qed.

Lemma related_deliver H q r hs m env number h :
  related H q r hs m -> on_posix_signal env number = Some h -> related H q r (hs ++ [h]) m.
Proof.
  intros R Eh. unfold on_posix_signal in Eh.
  assert (Hh : handler_ok h /\ is_store h = false).
  { repeat case_match; simplify_eq/=; try done. unfold is_signal, in_range in *. split; [lia|done]. }
  destruct Hh as [Hok Hns]. destruct R. constructor; auto.
  - intros i h' [Hi|[? Hi]]%lookup_app_Some; [eauto|].
    apply list_lookup_singleton_Some in Hi as [Ei <-].
    assert (forall k sg, q !! k <> Some (Pending i sg)).
    { intros k sg Hk. apply r_owned0 in Hk. lia. }
    unfold claims. by destruct h as [[]| |].
  - intros i k sg Hk. rewrite length_app. apply r_owned0 in Hk. lia.
  - apply Forall_app. split; [done|]. by apply Forall_singleton.
Qed.

Definition related_sys (H : Z) (q : list Entry) (s : System) : Prop :=
  related H q (ring s) (handlers s) (main s).

Lemma state_cas_ok r current new spurious r' :
  state_cas spurious r current new = (r', Ok tt) ->
  state r = current /\ r' = {| slots := slots r; state := new |}.
Proof. unfold state_cas. destruct (spurious || _) eqn:E; intros [= <-]. split; [lia|done]. Qed.

Lemma state_cas_err r current new spurious r' found :
  state_cas spurious r current new = (r', Err found) -> r' = r /\ found = state r.
Proof. unfold state_cas. by destruct (spurious || _); intros [= <- <-]. Qed.

(** A look at the state by [enqueue]. *)
Lemma look_simulated H q s i signal e :
  related_sys H q s -> handlers s !! i = Some (Enqueueing e) ->
  is_store (Enqueueing e) = false -> is_signal signal ->
  let h' := handler_after (enqueue_loop signal (state (ring s))) in
  related H q (ring s) (<[i := h']> (handlers s)) (main s) /\
  (h' = Returned /\ Z.of_nat (length q) = CAPACITY \/
   h' = Enqueueing (EnqueueCas signal (state (ring s)))).
Proof.
  intros R Hi Hs Hsg h'. pose proof (full_iff _ _ _ _ _ R) as Ef.
  assert (Hcases : h' = Returned /\ Z.of_nat (length q) = CAPACITY \/
    h' = Enqueueing (EnqueueCas signal (state (ring s))) /\ is_full (state (ring s)) = false).
  { subst h'. unfold enqueue_loop. destruct (is_full _); [left|by right].
    split; [done|]. lia. }
  split; [|naive_solver].
  eapply related_handler; eauto; by destruct Hcases as [[-> _]|[-> ?]].
Qed.

Lemma handler_simulated H q s i spurious s' :
  related_sys H q s -> perform (HandlerStep i spurious) s = Some s' ->
  exists q', queue_run (events (HandlerStep i spurious) s s') q q' /\ related_sys H q' s'.
Proof.
  intros R Hp. cbn [perform mbind option_bind] in Hp.
  destruct (handlers s !! i) as [h|] eqn:Hi; [|done]. cbn [mbind option_bind] in Hp.
  pose proof (lookup_lt_Some _ _ _ Hi) as Hlt.
  pose proof (Forall_lookup_1 _ _ _ _ (r_handlers _ _ _ _ _ R) Hi) as Hok.
  destruct h as [[signal|signal st|signal tail|]| |]; cbn in Hp; simplify_eq/=.
  - (* load *)
    destruct (look_simulated H q s i signal _ R Hi) as [R' Hh]; [done..|].
    exists q. unfold events. cbn [handlers]. rewrite Hi, list_lookup_insert_eq by done.
    split; [|done].
    destruct Hh as [[-> Hfull]| ->]; [|constructor]. by apply queue_run_one, step_reject.
  - (* exchange *)
    destruct (unpack st) as [head tail] eqn:Eu.
    destruct (state_cas _ _ _ _) as [r' [[]|found]] eqn:Ecas; cbn in Hp; injection Hp as <-.
    + apply state_cas_ok in Ecas as [Est ->]. destruct Hok as [_ Hroom].
      rewrite <- Est, (full_iff _ _ _ _ _ R) in Hroom.
      rewrite <- Est, (r_state _ _ _ _ _ R), unpack_wrapped in Eu. injection Eu as <- <-.
      eexists. unfold events. cbn [handlers]. rewrite Hi, list_lookup_insert_eq by done.
      pose proof (r_length _ _ _ _ _ R).
      split; [apply queue_run_one, step_accept; lia|].
      unfold related_sys. cbn [ring handlers main]. rewrite wrapping_add16_wrap.
      eapply related_accept; [done..|lia].
    + apply state_cas_err in Ecas as [-> ->].
      destruct (look_simulated H q s i signal _ R Hi) as [R' Hh]; [done|apply Hok|].
      exists q. unfold events. cbn [handlers]. rewrite Hi, list_lookup_insert_eq by done.
      split; [|done].
      destruct Hh as [[-> Hfull]| ->]; [|constructor]. by apply queue_run_one, step_reject.
  - (* store *)
    destruct (r_claims _ _ _ _ _ R _ _ Hi) as (k & Hk & -> & _).
    rewrite slot_store_ok in Hp by apply R. simplify_eq/=.
    eexists. unfold events. cbn [handlers]. rewrite Hi, list_lookup_insert_eq by done.
    split; [by eapply queue_run_one, step_publish|].
    unfold related_sys. cbn [ring handlers main]. rewrite slot_index_wrap16.
    by apply related_publish.
  - (* wakeup *)
    exists q. unfold events. cbn [handlers]. rewrite Hi.
    split; [constructor|]. by eapply related_handler.
Qed.

Lemma main_simulated H q s spurious s' :
  related_sys H q s -> perform (MainStep spurious) s = Some s' ->
  exists H' q', queue_run (events (MainStep spurious) s s') q q' /\ related_sys H' q' s'.
Proof.
  intros R Hp. cbn [perform mbind option_bind] in Hp. unfold related_sys in R |- *.
  destruct (main s) as [|d] eqn:Em; [done|]. pose proof (r_main _ _ _ _ _ R) as Hm.
  pose proof (r_state _ _ _ _ _ R) as Est. pose proof (r_length _ _ _ _ _ R) as Hlen.
  unfold events. rewrite Em.
  destruct d as [|st|head signal st|]; cbn in Hp; [| | |done].
  - (* load *)
    rewrite Est, unpack_wrapped in Hp. pose proof capacity_bounds.
    destruct (wrap16 H =? _) eqn:E; simplify_eq/=; exists H, q.
    + assert (length q = 0%nat) as ->%nil_length_inv.
      { apply Z.eqb_eq in E. rewrite <- (Z.add_0_r H) in E at 1. apply wrap16_inj in E; lia. }
      split; [apply queue_run_one, step_empty|]. by eapply related_main.
    + split; [constructor|]. eapply related_main; [done..|].
      rewrite <- Est. cbn. rewrite Est, unpack_wrapped. split; [done|].
      intros ->. rewrite Z.add_0_r in E. lia.
  - (* swap *)
    destruct (related_swap _ _ _ _ _ R) as (e & q' & r' & -> & Esw & Er' & R').
    pose proof (Forall_inv (r_signals _ _ _ _ _ R)) as Hsg.
    destruct (unpack st) as [head tail]. cbn [fst] in Esw, R'. rewrite Esw in Hp. cbn in Hp.
    exists H, (e :: q').
    destruct e as [i sg|sg]; cbn in Hp, Hsg.
    + simplify_eq/=. split; [apply queue_run_one, step_blocked|done].
    + unfold is_signal in Hsg. replace (sg =? 0) with false in Hp by lia. simplify_eq/=.
      split; [constructor|]. eapply related_main; [exact R'|done|].
      exact (r_main _ _ _ _ _ R').
  - (* exchange *)
    destruct (unpack st) as [h tail] eqn:Eu.
    destruct (state_cas _ _ _ _) as [r' [[]|found]] eqn:Ecas; cbn in Hp; injection Hp as <-.
    + apply state_cas_ok in Ecas as [Esr ->].
      destruct (related_take _ _ _ _ _ _ _ R) as (q' & -> & R'). destruct Hm as [-> _].
      rewrite <- Esr, Est, unpack_wrapped in Eu. injection Eu as <- <-.
      exists (H + 1), q'. cbn [main ring handlers]. rewrite wrapping_add16_wrap.
      split; [apply queue_run_one, step_take|done].
    + apply state_cas_err in Ecas as [-> ->]. exists H, q. split; [constructor|].
      by eapply related_main.
Qed.

Lemma perform_simulated H q a s s' :
  related_sys H q s -> perform a s = Some s' ->
  exists H' q', queue_run (events a s s') q q' /\ related_sys H' q' s'.
Proof.
  intros R Hp. destruct a as [env number| |i spurious|spurious].
  - exists H, q. split; [constructor|]. cbn [perform] in Hp.
    destruct (on_posix_signal env number) eqn:Eh; simplify_eq/=. by eapply related_deliver.
  - exists H, q. split; [constructor|]. cbn [perform] in Hp. unfold related_sys in R |- *.
    destruct (main s) eqn:Em; simplify_eq/=. by eapply related_main.
  - exists H. by eapply handler_simulated.
  - by eapply main_simulated.
Qed.

Lemma init_related index : 0 <= index < 65536 -> related_sys index [] (init index).
Proof.
  intros Hi. constructor; cbn; try done.
  - pose proof capacity_bounds. lia.
  - unfold wrap16. by rewrite Z.add_0_r, !Z.mod_small by lia.
  - by rewrite length_replicate.
  - intros k Hk. by apply lookup_replicate_2, slot_index_lt.
Qed.

(** ** The outcomes of a step *)
Lemma handler_step_cases spurious r h r' w h' :
  handler_step spurious r h = Some (r', w, h') ->
  match h with
  | Enqueueing (EnqueueLoad signal) =>
      w = false /\ r' = r /\ (h' = Returned \/ h' = Enqueueing (EnqueueCas signal (state r)))
  | Enqueueing (EnqueueCas signal st) =>
      w = false /\
      ((r' = r /\ (spurious = false -> state r <> st) /\
        (h' = Returned \/ h' = Enqueueing (EnqueueCas signal (state r)))) \/
       (state r = st /\ exists tail, h' = Enqueueing (EnqueueStore signal tail)))
  | Enqueueing (EnqueueStore _ _) => w = false /\ state r' = state r /\ h' = Wakeup
  | Wakeup => w = true /\ r' = r /\ h' = Returned
  | _ => False
  end.
Proof.
  intros Hs.
  assert (Hlook : forall signal, handler_after (enqueue_loop signal (state r)) = Returned \/
    handler_after (enqueue_loop signal (state r)) = Enqueueing (EnqueueCas signal (state r))).
  { intros signal. unfold enqueue_loop. destruct (is_full _); auto. }
  destruct h as [[signal|signal st|signal tail|]| |];
    cbn [handler_step enqueue_step mbind option_bind] in Hs; simplify_eq; auto.
  - destruct (unpack st) as [head tail]. unfold state_cas in Hs.
    destruct (spurious || _) eqn:E; cbn [mbind option_bind] in Hs; simplify_eq; split; auto.
    + left. splits; [done| |done]. intros ->. cbn in E. lia.
    + right. split; [lia|eauto].
  - unfold slot_store in Hs. case_match; [|done]. cbn in Hs. by simplify_eq.
Qed.

Lemma drain_step_cases spurious r d r' m new_tasks :
  drain_step spurious r d = Some (r', m, new_tasks) ->
  match d with
  | DequeueLoad =>
      new_tasks = [] /\ r' = r /\ (m = Idle \/ exists st, m = Draining (DequeueSwap st))
  | DequeueSwap _ =>
      new_tasks = [] /\ state r' = state r /\
      (m = Idle \/ exists head signal st, m = Draining (DequeueCas head signal st))
  | DequeueCas head signal st =>
      new_tasks = [signal] /\ m = Draining DequeueLoad /\ state r = st \/
      new_tasks = [] /\ m = Draining (DequeueCas head signal (state r)) /\ r' = r /\
        (spurious = false -> state r <> st)
  | DequeueReturn _ => False
  end.
Proof.
  intros Hd. unfold drain_step in Hd.
  destruct d as [|st|head signal st|]; cbn [dequeue_step mbind option_bind] in Hd; [| | |done].
  - destruct (unpack (state r)) as [head tail]. cbn [mbind option_bind] in Hd.
    destruct (head =? tail); simplify_eq; eauto.
  - destruct (unpack st) as [head tail]. unfold slot_swap, slot_store in Hd.
    destruct (slots r !! _) as [old|]; [|done]. cbn [mbind option_bind] in Hd.
    case_match; [|done]. cbn [mbind option_bind] in Hd.
    destruct (old =? 0); simplify_eq; eauto 8.
  - destruct (unpack st) as [head' tail]. unfold state_cas in Hd.
    destruct (spurious || _) eqn:E; cbn [mbind option_bind] in Hd; simplify_eq.
    + right. splits; [done..|]. intros ->. cbn in E. lia.
    + left. splits; [done..|lia].
Qed.

(** ** The tasks are what was taken *)
Lemma perform_tasks a s s' :
  perform a s = Some s' -> tasks s' = tasks s ++ taken (events a s s').
Proof.
  intros Hp. destruct a as [env number| |i spurious|spurious]; cbn [perform] in Hp.
  - destruct (on_posix_signal env number); simplify_eq/=. by rewrite app_nil_r.
  - destruct (main s); simplify_eq/=. by rewrite app_nil_r.
  - destruct (handlers s !! i); [|done]. cbn [mbind option_bind] in Hp.
    destruct (handler_step _ _ _) as [[[r w] h']|]; [|done]. cbn in Hp. injection Hp as <-.
    unfold events. cbn [handlers tasks]. repeat case_match; cbn; by rewrite app_nil_r.
  - destruct (main s) as [|d] eqn:Em; [done|]. unfold events. rewrite Em.
    destruct (drain_step _ _ _) as [[[r' m] new_tasks]|] eqn:Ed; [|done].
    apply drain_step_cases in Ed. cbn in Hp. injection Hp as <-. cbn [main tasks].
    destruct d; naive_solver.
Qed.

Lemma run_tasks schedule s s' evs :
  run schedule s = Some (s', evs) -> tasks s' = tasks s ++ taken evs.
Proof.
  revert s evs. induction schedule as [|a schedule IH]; intros s evs Hr.
  { injection Hr as <- <-. cbn. by rewrite app_nil_r. }
  cbn [run mbind option_bind] in Hr.
  destruct (perform a s) as [s1|] eqn:Ep; [|done]. cbn [mbind option_bind] in Hr.
  destruct (run schedule s1) as [[s2 evs']|] eqn:Er; [|done]. cbn in Hr. injection Hr as <- <-.
  unfold taken. rewrite omap_app, app_assoc. fold (taken (events a s s1)) (taken evs').
  rewrite <- (perform_tasks _ _ _ Ep). by apply IH.
Qed.

(** ** Nothing is left unattended *)
Definition in_flight (h : Handler) : Prop := is_store h = true \/ h = Wakeup.

Definition attended (s : System) : Prop :=
  woken s = true \/ main s <> Idle \/ exists i h, handlers s !! i = Some h /\ in_flight h.

Lemma pending_in_flight H q s k i signal :
  related_sys H q s -> q !! k = Some (Pending i signal) -> attended s.
Proof.
  intros R Hk. destruct (lookup_lt_is_Some_2 (handlers s) i) as [h Hi].
  { by eapply r_owned. }
  pose proof (r_claims _ _ _ _ _ R _ _ Hi) as C. do 2 right. exists i, h. split; [done|].
  unfold claims in C. left. destruct h as [[]| |]; try done; by destruct (C k signal).
Qed.

Lemma main_goes_idle H q q' spurious s s' :
  related_sys H q' s' -> perform (MainStep spurious) s = Some s' ->
  queue_run (events (MainStep spurious) s s') q q' -> q' = [] \/ attended s'.
Proof.
  intros R Hp Hq. destruct (main s') as [|d] eqn:Em'; [|right; right; left; by rewrite Em'].
  assert (He : events (MainStep spurious) s s' = [Empty] \/ events (MainStep spurious) s s' = [Blocked]).
  { unfold events. rewrite Em'. cbn [perform] in Hp. destruct (main s) as [|d]; [done|].
    destruct (drain_step _ _ _) as [[[r' m] new_tasks]|] eqn:Ed; [|done].
    apply drain_step_cases in Ed. cbn in Hp. injection Hp as <-. cbn [main] in Em'.
    destruct d; naive_solver. }
  destruct He as [He|He]; rewrite He in Hq; inversion Hq as [|? ? ? ? ? Hs Hn]; subst;
    inversion Hn; subst; inversion Hs; subst; [by left|right].
  by eapply (pending_in_flight _ _ _ 0%nat).
Qed.

Lemma handler_attended H q q' i spurious s s' :
  perform (HandlerStep i spurious) s = Some s' -> related_sys H q s ->
  queue_run (events (HandlerStep i spurious) s s') q q' ->
  q = [] \/ attended s -> q' = [] \/ attended s'.
Proof.
  intros Hp R Hq Ha. cbn [perform] in Hp. destruct (handlers s !! i) as [h|] eqn:Hi; [|done].
  cbn [mbind option_bind] in Hp. pose proof (lookup_lt_Some _ _ _ Hi) as Hlt.
  destruct (handler_step _ _ _) as [[[r w] h']|] eqn:Eh; [|done]. cbn in Hp. injection Hp as <-.
  assert (Hcases : in_flight h' \/ w = true \/
    ~ in_flight h /\ q' = q).
  { unfold events in Hq. cbn [handlers] in Hq. rewrite Hi, list_lookup_insert_eq in Hq by done.
    assert (Hsame : forall e, queue_run e q q' -> e = [] \/ e = [Reject i] -> q' = q).
    { intros e He [->| ->]; inversion He as [|? ? ? ? ? Hs Hn]; subst; [done|].
      inversion Hn; subst. by inversion Hs. }
    apply handler_step_cases in Eh. unfold in_flight.
    destruct h as [[signal|signal st|signal tail|]| |]; try done.
    - destruct Eh as (_ & _ & [->| ->]); do 2 right; (split; [by intros [|]|eauto]).
    - destruct Eh as (_ & [(_ & _ & [->| ->])|(_ & tail & ->)]); [do 2 right..|by left; left];
        (split; [by intros [|]|eauto]).
    - destruct Eh as (_ & _ & ->). left. by right.
    - right. left. apply Eh. }
  destruct Hcases as [Hf|[->|[Hnf ->]]].
  - right. do 2 right. exists i, h'. cbn [handlers]. by rewrite list_lookup_insert_eq.
  - right. by left.
  - destruct Ha as [->|[Hw|[Hm|(j & hj & Hj & Hf)]]]; [by left|right..].
    + left. cbn [woken]. rewrite Hw. apply orb_true_r.
    + right. by left.
    + do 2 right. exists j, hj. cbn [handlers]. rewrite list_lookup_insert_ne; [done|].
      intros <-. naive_solver.
Qed.

Lemma perform_attended H q H' q' a s s' :
  perform a s = Some s' -> related_sys H q s -> related_sys H' q' s' ->
  queue_run (events a s s') q q' -> q = [] \/ attended s -> q' = [] \/ attended s'.
Proof.
  intros Hp R R' Hq Ha. destruct a as [env number| |i spurious|spurious].
  - inversion Hq; subst. destruct Ha as [->|Ha]; [by left|right].
    cbn [perform] in Hp. destruct (on_posix_signal env number); simplify_eq/=.
    destruct Ha as [?|[?|(j & hj & Hj & Hf)]]; [by left|by right; left|do 2 right].
    exists j, hj. split; [|done]. by apply lookup_app_l_Some.
  - right. right. left. cbn [perform] in Hp. by destruct (main s); simplify_eq/=.
  - by eapply handler_attended.
  - by eapply main_goes_idle.
Qed.

Lemma run_attended schedule H q s s' evs :
  related_sys H q s -> q = [] \/ attended s -> run schedule s = Some (s', evs) ->
  exists H' q', queue_run evs q q' /\ related_sys H' q' s' /\ (q' = [] \/ attended s').
Proof.
  revert H q s s' evs. induction schedule as [|a schedule IH]; intros H q s s' evs R Ha Hr.
  { injection Hr as <- <-. exists H, q. splits; [constructor|done..]. }
  cbn [run mbind option_bind] in Hr.
  destruct (perform a s) as [s1|] eqn:Ep; [|done]. cbn [mbind option_bind] in Hr.
  destruct (run schedule s1) as [[s2 evs']|] eqn:Er; [|done]. cbn in Hr. injection Hr as <- <-.
  destruct (perform_simulated _ _ _ _ _ R Ep) as (H1 & q1 & Hq1 & R1).
  pose proof (perform_attended _ _ _ _ _ _ _ Ep R R1 Hq1 Ha) as Ha1.
  destruct (IH _ _ _ _ _ R1 Ha1 Er) as (H2 & q2 & Hq2 & R2 & Ha2).
  exists H2, q2. splits; [by eapply queue_run_app|done..].
Qed.

(** ** Every schedule comes to rest

    A calm step delivers no new signal, lets no exchange fail for no reason, and starts
    a drain only when the loop was woken. *)
Definition calm (a : Action) (s : System) : bool :=
  match a with
  | Deliver _ _ => false
  | Tick => woken s
  | HandlerStep _ spurious | MainStep spurious => negb spurious
  end.
Definition calm_step (s s' : System) : Prop := exists a, calm a s = true /\ perform a s = Some s'.

Definition quiescent (s : System) : Prop :=
  woken s = false /\ main s = Idle /\ Forall (eq Returned) (handlers s).

(** What is left to do, [n] bounding the invocations that an exchange can disturb. *)
Definition main_work (st : Z) (m : Main) : nat :=
  match m with
  | Draining DequeueLoad => 5
  | Draining (DequeueSwap _) => 4
  | Draining (DequeueCas _ _ st') => if st' =? st then 2 else 3
  | _ => 0
  end.
Definition handler_work (n : nat) (st : Z) (h : Handler) : nat :=
  match h with
  | Enqueueing (EnqueueLoad _) => 2 * n + 17
  | Enqueueing (EnqueueCas _ st') => if st' =? st then 2 * n + 15 else 2 * n + 16
  | Enqueueing (EnqueueStore _ _) => 8
  | Wakeup => 7
  | _ => 0
  end.
Definition work (q : list Entry) (s : System) : nat :=
  let n := length (handlers s) in
  (sum_list_with (handler_work n (state (ring s))) (handlers s)
   + main_work (state (ring s)) (main s) + (n + 5) * length q + (if woken s then 6 else 0))%nat.

Lemma sum_list_with_insert {A} (f : A -> nat) l i x y :
  l !! i = Some x -> (sum_list_with f (<[i := y]> l) + f x = sum_list_with f l + f y)%nat.
Proof.
  revert i. induction l as [|z l IH]; intros [|i] Hi; simplify_eq/=; [lia|].
  specialize (IH i Hi). lia.
Qed.

Lemma sum_list_with_le {A} (f g : A -> nat) c l :
  (forall x, f x <= g x + c)%nat -> (sum_list_with f l <= sum_list_with g l + c * length l)%nat.
Proof. intros H. induction l as [|x l IH]; cbn; [lia|]. specialize (H x). lia. Qed.

Lemma handlers_disturbed n st st' hs :
  (sum_list_with (handler_work n st') hs <= sum_list_with (handler_work n st) hs + length hs)%nat.
Proof.
  rewrite <- (Nat.mul_1_l (length hs)). apply sum_list_with_le.
  intros [[]| |]; cbn; repeat case_match; lia.
Qed.

Lemma main_disturbed st st' m : (main_work st' m <= main_work st m + 1)%nat.
Proof. destruct m as [|[]]; cbn; repeat case_match; lia. Qed.

Lemma queue_run_length evs q q' :
  queue_run evs q q' -> (length q + length (accepted evs) = length (taken evs) + length q')%nat.
Proof.
  intros Hq%queue_run_fifo. apply (f_equal length) in Hq. by rewrite !length_app, !length_map in Hq.
Qed.

Lemma handler_work_decreases q q' i s s' :
  perform (HandlerStep i false) s = Some s' ->
  queue_run (events (HandlerStep i false) s s') q q' -> (work q' s' < work q s)%nat.
Proof.
  intros Hp Hq%queue_run_length. cbn [perform] in Hp.
  destruct (handlers s !! i) as [h|] eqn:Hi; [|done].
  cbn [mbind option_bind] in Hp. pose proof (lookup_lt_Some _ _ _ Hi) as Hlt.
  destruct (handler_step _ _ _) as [[[r w] h']|] eqn:Eh; [|done]. cbn in Hp. injection Hp as <-.
  unfold events in Hq. unfold work. cbn [handlers ring woken main] in Hq |- *.
  rewrite Hi, list_lookup_insert_eq in Hq by done. rewrite length_insert.
  set (n := length (handlers s)) in *.
  pose proof (sum_list_with_insert (handler_work n (state r)) _ _ _ h' Hi) as Hsum.
  pose proof (handlers_disturbed n (state (ring s)) (state r) (handlers s)) as Hdis.
  pose proof (main_disturbed (state (ring s)) (state r) (main s)) as Hdm.
  fold n in Hdis.
  apply handler_step_cases in Eh.
  destruct h as [[signal|signal st|signal tail|]| |]; try done.
  - destruct Eh as (-> & -> & [->| ->]); cbn in Hq, Hsum |- *; rewrite ?Z.eqb_refl in Hsum; lia.
  - destruct Eh as (-> & [(-> & Hst & [->| ->])|(Hst & tail & ->)]); cbn in Hq, Hsum |- *.
    + case_match; lia.
    + rewrite Z.eqb_refl in Hsum. replace (st =? state (ring s)) with false in Hsum by (specialize (Hst eq_refl); lia). lia.
    + case_match; lia.
  - destruct Eh as (-> & Hst & ->). rewrite Hst in *. cbn in Hq, Hsum |- *. lia.
  - destruct Eh as (-> & -> & ->). cbn in Hq, Hsum |- *. case_match; lia.
Qed.

Lemma main_work_decreases q q' s s' :
  perform (MainStep false) s = Some s' ->
  queue_run (events (MainStep false) s s') q q' -> (work q' s' < work q s)%nat.
Proof.
  intros Hp Hq%queue_run_length. cbn [perform] in Hp. unfold events in Hq.
  destruct (main s) as [|d] eqn:Em; [done|].
  destruct (drain_step _ _ _) as [[[r m] new_tasks]|] eqn:Ed; [|done].
  cbn in Hp. injection Hp as <-. unfold work. cbn [handlers ring woken main] in Hq |- *. rewrite Em.
  set (n := length (handlers s)) in *.
  pose proof (handlers_disturbed n (state (ring s)) (state r) (handlers s)) as Hdis. fold n in Hdis.
  apply drain_step_cases in Ed. destruct d as [|st|head signal st|]; try done.
  - destruct Ed as (_ & -> & [->|[st ->]]); cbn in Hq |- *; lia.
  - destruct Ed as (_ & -> & [->|(hd & sg & st' & ->)]); cbn in Hq |- *; [lia|case_match; lia].
  - destruct Ed as [(_ & -> & Hst)|(_ & -> & -> & Hst)]; cbn in Hq |- *.
    + rewrite Hst in Hdis |- *. rewrite Z.eqb_refl. replace (length q) with (S (length q')) by lia. lia.
    + rewrite Z.eqb_refl. replace (st =? state (ring s)) with false by (specialize (Hst eq_refl); lia). lia.
Qed.

Lemma calm_work_decreases q q' a s s' :
  calm a s = true -> perform a s = Some s' -> queue_run (events a s s') q q' ->
  (work q' s' < work q s)%nat /\ length (handlers s') = length (handlers s).
Proof.
  intros Hc Hp Hq. destruct a as [env number| |i spurious|spurious]; cbn [calm] in Hc; [done|..].
  - inversion Hq; subst. cbn [perform] in Hp. destruct (main s) eqn:Em; simplify_eq.
    unfold work. cbn [handlers ring main woken]. rewrite Em, Hc. cbn. split; [lia|done].
  - apply negb_true_iff in Hc as ->. split; [by eapply handler_work_decreases|].
    cbn [perform] in Hp. destruct (handlers s !! i); [|done]. cbn [mbind option_bind] in Hp.
    destruct (handler_step _ _ _) as [[[r w] h']|]; [|done]. cbn in Hp. injection Hp as <-.
    apply length_insert.
  - apply negb_true_iff in Hc as ->. split; [by eapply main_work_decreases|].
    cbn [perform] in Hp. destruct (main s); [done|].
    destruct (drain_step _ _ _) as [[[r m] new_tasks]|]; [|done]. cbn in Hp. by injection Hp as <-.
Qed.

Lemma calm_steps_bounded n H q s s' :
  related_sys H q s -> nsteps calm_step n s s' ->
  exists H' q', related_sys H' q' s' /\ (n + work q' s' <= work q s)%nat.
Proof.
  intros R Hn. revert H q R. induction Hn as [s|n s s1 s2 (a & Hc & Hp) _ IH]; intros H q R.
  { exists H, q. split; [done|lia]. }
  destruct (perform_simulated _ _ _ _ _ R Hp) as (H1 & q1 & Hq1 & R1).
  pose proof (calm_work_decreases _ _ _ _ _ Hc Hp Hq1) as [Hw _].
  destruct (IH _ _ R1) as (H2 & q2 & R2 & Hle). exists H2, q2. split; [done|lia].
Qed.

Lemma work_bound H q s :
  related_sys H q s ->
  let n := length (handlers s) in
  (work q s <= n * (2 * n + 17) + (n + 5) * Z.to_nat CAPACITY + 11)%nat.
Proof.
  intros R n. unfold work. fold n. pose proof (r_length _ _ _ _ _ R) as Hlen.
  assert (Hh : (sum_list_with (handler_work n (state (ring s))) (handlers s) <= n * (2 * n + 17))%nat).
  { pose proof (sum_list_with_le (handler_work n (state (ring s))) (fun _ => 0%nat) (2 * n + 17)
      (handlers s)) as Hs.
    assert (E : sum_list_with (fun _ : Handler => 0%nat) (handlers s) = 0%nat).
    { generalize (handlers s). induction l; cbn; auto. }
    rewrite E in Hs. unfold n in *. rewrite (Nat.mul_comm (length _)). apply Hs.
    intros [[]| |]; cbn; repeat case_match; lia. }
  assert (Hm : (main_work (state (ring s)) (main s) <= 5)%nat).
  { destruct (main s) as [|[]]; cbn; repeat case_match; lia. }
  assert (Hq : ((n + 5) * length q <= (n + 5) * Z.to_nat CAPACITY)%nat).
  { apply Nat.mul_le_mono_l. lia. }
  case_match; lia.
Qed.

(** An invocation that has not returned can perform its next operation. *)
Lemma stuck_quiescent H q s :
  related_sys H q s -> (forall s', ~ calm_step s s') -> quiescent s.
Proof.
  intros R Hstuck.
  assert (Hno : forall a, calm a s = true -> perform a s = None).
  { intros a Hc. destruct (perform a s) as [s'|] eqn:E; [|done].
    destruct (Hstuck s'). by exists a. }
  assert (Hmain : main s = Idle).
  { pose proof (Hno (MainStep false) eq_refl) as Hn. cbn [perform] in Hn.
    unfold related_sys in R. destruct (main s) as [|d]; [done|]. exfalso.
    assert (Hd : is_Some (drain_step false (ring s) d)).
    { unfold drain_step. pose proof (r_main _ _ _ _ _ R) as Hm.
      destruct d as [|st|head signal st|]; cbn [dequeue_step]; [..|done].
      - by destruct (unpack _).
      - destruct (related_swap _ _ _ _ _ R) as (e & q' & r' & _ & Esw & _).
        destruct (unpack st). cbn [fst] in Esw. by rewrite Esw.
      - destruct (unpack st). by destruct (state_cas _ _ _ _) as [? []]. }
    destruct Hd as [[[r m] new_tasks] Ed]. by rewrite Ed in Hn. }
  unfold quiescent. splits; [|done|].
  - destruct (woken s) eqn:Ew; [|done]. pose proof (Hno Tick Ew) as Hn.
    cbn [perform] in Hn. by rewrite Hmain in Hn.
  - apply Forall_lookup_2. intros i h Hi.
    pose proof (Hno (HandlerStep i false) eq_refl) as Hn. cbn [perform] in Hn.
    rewrite Hi in Hn. cbn [mbind option_bind] in Hn.
    pose proof (Forall_lookup_1 _ _ _ _ (r_handlers _ _ _ _ _ R) Hi) as Hok.
    destruct h as [[signal|signal st|signal tail|]| |]; cbn [handler_step enqueue_step] in Hn; try done.
    + destruct (unpack st). by destruct (state_cas _ _ _ _) as [? []].
    + by rewrite slot_store_ok in Hn by apply R.
Qed.

(** ** The properties *)
Lemma run_related index schedule s evs :
  0 <= index < 65536 -> run schedule (init index) = Some (s, evs) ->
  exists H q, queue_run evs [] q /\ related_sys H q s /\ (q = [] \/ attended s) /\
    tasks s = taken evs /\ accepted evs = taken evs ++ map entry_signal q.
Proof.
  intros Hi Hr. pose proof (run_tasks _ _ _ _ Hr) as Ht.
  destruct (run_attended _ _ _ _ _ _ (init_related _ Hi) (or_introl eq_refl) Hr)
    as (H & q & Hq & R & Ha).
  exists H, q. splits; try done. exact (queue_run_fifo _ _ _ Hq).
Qed.

(** C17. The ring is a bounded queue under every interleaving, wherever its 16-bit
    indices start: the accepts, stores, rejections and takes that a schedule of handler
    and drain steps shows are those of a FIFO queue of at most [CAPACITY] entries.  So a
    signal is rejected only when [CAPACITY] accepted ones are untaken, the drain ends
    early only behind a claim that is not stored yet, and the tasks are the accepted
    signals in the order of their claims, each once, up to the entries still queued. *)
Theorem ring_refines_queue index schedule s evs :
  0 <= index < 65536 -> run schedule (init index) = Some (s, evs) ->
  exists q, queue_run evs [] q /\ Z.of_nat (length q) <= CAPACITY /\
    tasks s = taken evs /\ accepted evs = taken evs ++ map entry_signal q.
Proof.
  intros Hi Hr. destruct (run_related _ _ _ _ Hi Hr) as (H & q & Hq & R & _ & Ht & Ha).
  exists q. splits; try done. exact (r_length _ _ _ _ _ R).
Qed.

(** C18. No wakeup is lost: when every handler has returned, no wakeup is pending and the
    main thread is outside [drain], every accepted signal is a task of the event loop,
    in the order of acceptance. *)
Theorem rest_delivers_all index schedule s evs :
  0 <= index < 65536 -> run schedule (init index) = Some (s, evs) ->
  quiescent s -> tasks s = accepted evs.
Proof.
  intros Hi Hr (Hw & Hm & Hh). destruct (run_related _ _ _ _ Hi Hr) as (H & q & _ & _ & Hatt & -> & ->).
  destruct Hatt as [->|[Ha|[Ha|(i & h & Hih & Hf)]]]; [by rewrite app_nil_r|congruence..|].
  rewrite Forall_lookup in Hh. rewrite <- (Hh _ _ Hih) in Hf. by destruct Hf.
Qed.

(** C19. Handlers and drain are lock-free and never block or panic: from any state an
    interleaving reaches, a schedule without new signals and spurious failures has a
    bounded length whatever the scheduler does, and it can be continued until every
    handler has returned and the drain is over. *)
Theorem signals_settle index schedule s evs n s' :
  0 <= index < 65536 -> run schedule (init index) = Some (s, evs) -> nsteps calm_step n s s' ->
  let m := length (handlers s) in
  (n <= m * (2 * m + 17) + (m + 5) * Z.to_nat CAPACITY + 11)%nat /\
  ((forall s'', ~ calm_step s' s'') -> quiescent s').
Proof.
  intros Hi Hr Hn m. destruct (run_related _ _ _ _ Hi Hr) as (H & q & _ & R & _).
  destruct (calm_steps_bounded _ _ _ _ _ R Hn) as (H' & q' & R' & Hle).
  pose proof (work_bound _ _ _ R) as Hb. cbv zeta in Hb. split; [unfold m; lia|].
  by apply (stuck_quiescent H' q').
Qed.
End Ring.

(** ** Concrete schedules *)

(** Two handlers race for a slot past the wrap of the indices; the drain meets the claim
    of the first one before its store, and comes back after the wakeup. *)
Definition race_env : SignalEnv :=
  {| WATCH_MODE_KILL_SIGNAL := 0; WATCH_SIGINT_LISTENERS := 0; main_thread_vm := true; signal_handler := true |}.
Definition race : list Action :=
  [Deliver race_env 15; Deliver race_env 2; HandlerStep 0 false; HandlerStep 1 false;
   HandlerStep 1 false; HandlerStep 0 false; HandlerStep 0 true; HandlerStep 0 false;
   HandlerStep 0 false; HandlerStep 0 false;
   Tick; MainStep false; MainStep false; HandlerStep 1 false; HandlerStep 1 false;
   Tick; MainStep false; MainStep false; MainStep false; MainStep false; MainStep false; MainStep false;
   MainStep false].

Example race_runs :
  run 2 race (init 2 65535) = Some
    ({| ring := {| slots := [0; 0]; state := 65537 |}; handlers := [Returned; Returned];
        woken := false; main := Idle; tasks := [2; 15] |},
     [Accept 1 2; Accept 0 15; Publish 0; Blocked; Publish 1; Take 2; Take 15; Empty]).
Proof. vm_compute. reflexivity. Qed.

Lemma ring_refines_queue_witness :
  exists s evs, run 2 race (init 2 65535) = Some (s, evs) /\ tasks s = [2; 15] /\
    exists q, queue_run 2 evs [] q /\ Z.of_nat (length q) <= 2 /\
      tasks s = taken evs /\ accepted evs = taken evs ++ map entry_signal q.
Proof.
  eexists _, _. split; [apply race_runs|]. split; [reflexivity|].
  apply (ring_refines_queue 2 eq_refl 65535 race); [lia|apply race_runs].
Defined.

Lemma rest_delivers_all_witness :
  exists s evs, run 2 race (init 2 65535) = Some (s, evs) /\ quiescent s /\ tasks s = accepted evs.
Proof.
  eexists _, _. split; [apply race_runs|].
  assert (Hq : quiescent {| ring := {| slots := [0; 0]; state := 65537 |};
    handlers := [Returned; Returned]; woken := false; main := Idle; tasks := [2; 15] |}).
  { repeat constructor. }
  split; [exact Hq|]. apply (rest_delivers_all 2 eq_refl 65535 race); [lia|apply race_runs|exact Hq].
Defined.

Lemma signals_settle_witness :
  exists s, run 2 (take 2 race) (init 2 65535) = Some (s, []) /\
    exists s', nsteps (calm_step 2) 1 s s' /\
      let m := length (handlers s) in
      (1 <= m * (2 * m + 17) + (m + 5) * Z.to_nat 2 + 11)%nat /\
      ((forall s'', ~ calm_step 2 s' s'') -> quiescent s').
Proof.
  eexists. split; [vm_compute; reflexivity|]. eexists. split.
  { apply nsteps_once. exists (HandlerStep 0 false). split; vm_compute; reflexivity. }
  eapply (signals_settle 2 eq_refl 65535 (take 2 race)); [lia|vm_compute; reflexivity|].
  apply nsteps_once. exists (HandlerStep 0 false). split; vm_compute; reflexivity.
Defined.

