(* ===== verification/UnboundedQueue.v ===== *)
(** * The unbounded queue of threading/unbounded_queue.rs

    The intrusive queue through which threads hand tasks to an event loop: any number of
    producers push chains of nodes, one consumer pops single nodes or takes all there is.
    A node is an address in a store of links; a node belongs to its pusher until the
    push, to the queue until a [pop] or [pop_batch] returns it, and leaves the store
    then, so that a later access to it would be a [None].

    As in SignalRing.v an invocation is a value that says which atomic operation comes
    next, and a list of actions is an interleaving of sequentially consistent
    operations.  The code keeps the two ends of a pushed chain; a [Push] that is not yet
    in the queue keeps the chain.  The walk along the chain in debug builds is left out.

    A push first exchanges [back] and then links its chain to the node it found there:
    between the two the chain is cut.  The main result is that the queue is FIFO in the
    order of the exchanges all the same: the consumer waits at a cut, or reports the
    queue as empty when the cut is in front of it, but loses nothing and touches no node
    that it does not own. *)

From S2P Require Import Prelude.

#[local] Open Scope nat_scope.

(** The link of each live node, and the two ends. *)
Record Queue := { next : gmap nat (option nat); front : option nat; back : option nat }.

Definition with_next (s : Queue) (n : gmap nat (option nat)) : Queue :=
  {| next := n; front := front s; back := back s |}.
Definition with_front (s : Queue) (p : option nat) : Queue :=
  {| next := next s; front := p; back := back s |}.
Definition with_back (s : Queue) (p : option nat) : Queue :=
  {| next := next s; front := front s; back := p |}.

(** [T::set_next] and [T::atomic_store_next] *)
Definition store_next (s : Queue) (item : nat) (p : option nat) : option Queue :=
  if decide (is_Some (next s !! item)) then Some (with_next s (<[item := p]> (next s))) else None.
(** [T::atomic_load_next] *)
Definition load_next (s : Queue) (item : nat) : option (option nat) := next s !! item.

(** An invocation of [push_batch]. *)
Inductive Push :=
| PushSetNull (items : list nat)
| PushSwap (items : list nat)
| PushLink (first : nat) (old_back : option nat)
| PushReturn.

Definition push_step (s : Queue) (h : Push) : option (Queue * Push) :=
  match h with
  | PushSetNull items =>
      last ← last items;
      s ← store_next s last None;
      Some (s, PushSwap items)
  | PushSwap items =>
      first ← head items;
      last ← last items;
      Some (with_back s (Some last), PushLink first (back s))
  | PushLink first (Some old_back) =>
      s ← store_next s old_back (Some first);
      Some (s, PushReturn)
  | PushLink first None => Some (with_front s (Some first), PushReturn)
  | PushReturn => None
  end.

(** The consumer: an invocation of [pop] or of [pop_batch]. *)
Inductive Consumer :=
| Idle
| PopLoadFront
| PopLoadNext (first : nat)
| PopCasFront (first : nat) (next_ptr : option nat)
| PopCasBack (first : nat)
| PopWait (first : nat)
| PopStoreFront (first new_first : nat)
| BatchSwapFront
| BatchSwapBack (first : nat)
| BatchWalk (first last next_item count : nat).

(** What a call returns. *)
Inductive Outcome :=
| Popped (item : option nat)
| Batch (front : option nat) (count : nat).

(** The next operation of the consumer; a load that finds null in a waiting loop is
    repeated. *)
Definition consumer_step (spurious : bool) (s : Queue) (c : Consumer) :
    option (Queue * (Consumer + Outcome)) :=
  match c with
  | Idle => None
  | PopLoadFront =>
      Some (s, match front s with None => inr (Popped None) | Some first => inl (PopLoadNext first) end)
  | PopLoadNext first =>
      next_ptr ← load_next s first;
      Some (s, inl (PopCasFront first next_ptr))
  | PopCasFront first next_ptr =>
      if spurious || negb (bool_decide (front s = Some first)) then
        Some (s, match front s with None => inr (Popped None) | Some maybe_first => inl (PopLoadNext maybe_first) end)
      else
        Some (with_front s next_ptr,
              match next_ptr with Some _ => inr (Popped (Some first)) | None => inl (PopCasBack first) end)
  | PopCasBack first =>
      last ← back s;
      if last =? first then Some (with_back s None, inr (Popped (Some first)))
      else Some (s, inl (PopWait first))
  | PopWait first =>
      n ← load_next s first;
      Some (s, inl match n with Some new_first => PopStoreFront first new_first | None => PopWait first end)
  | PopStoreFront first new_first => Some (with_front s (Some new_first), inr (Popped (Some first)))
  | BatchSwapFront =>
      Some (with_front s None,
            match front s with None => inr (Batch None 0) | Some first => inl (BatchSwapBack first) end)
  | BatchSwapBack first =>
      last ← back s;
      let s := with_back s None in
      Some (s, if first =? last then inr (Batch (Some first) 1) else inl (BatchWalk first last first 1))
  | BatchWalk first last next_item count =>
      n ← load_next s next_item;
      Some (s, match n with
               | None => inl (BatchWalk first last next_item count)
               | Some n => if n =? last then inr (Batch (Some first) (count + 1))
                           else inl (BatchWalk first last n (count + 1))
               end)
  end.

(** [BatchIterator::next], [count] times: the nodes of a batch. *)
Fixpoint batch_items (s : Queue) (front : option nat) (count : nat) : option (list nat) :=
  match count with
  | O => Some []
  | S count =>
      item ← front;
      n ← load_next s item;
      items ← batch_items s n count;
      Some (item :: items)
  end.

Definition is_empty (s : Queue) : bool := bool_decide (back s = None).

Record System := {
  queue : Queue;
  pushes : list Push;
  consumer : Consumer;
  taken : list nat
}.

(** A caller of [push_batch] links its nodes, and leaves anything in the last link. *)
Fixpoint link_chain (items : list nat) (dangling : option nat) (n : gmap nat (option nat)) : gmap nat (option nat) :=
  match items with
  | [] => n
  | item :: items => <[item := match items with [] => dangling | i :: _ => Some i end]> (link_chain items dangling n)
  end.

Inductive Action :=
| StartPush (items : list nat) (dangling : option nat)
| StartPop
| StartBatch
| PushStep (i : nat)
| ConsumerStep (spurious : bool).

(** The nodes a finished call hands to the consumer, which leave the store. *)
Definition outcome_items (s : Queue) (o : Outcome) : option (list nat) :=
  match o with
  | Popped item => Some (option_list item)
  | Batch front count => batch_items s front count
  end.
Definition release (items : list nat) (s : Queue) : Queue :=
  with_next s (foldr delete (next s) items).

Definition perform (a : Action) (s : System) : option System :=
  match a with
  | StartPush items dangling =>
      if decide (items <> [] /\ NoDup items /\ Forall (fun i => next (queue s) !! i = None) items) then
        Some {| queue := with_next (queue s) (link_chain items dangling (next (queue s)));
                pushes := pushes s ++ [PushSetNull items]; consumer := consumer s; taken := taken s |}
      else None
  | StartPop =>
      match consumer s with
      | Idle => Some {| queue := queue s; pushes := pushes s; consumer := PopLoadFront; taken := taken s |}
      | _ => None
      end
  | StartBatch =>
      match consumer s with
      | Idle => Some {| queue := queue s; pushes := pushes s; consumer := BatchSwapFront; taken := taken s |}
      | _ => None
      end
  | PushStep i =>
      h ← pushes s !! i;
      '(q, h) ← push_step (queue s) h;
      Some {| queue := q; pushes := <[i := h]> (pushes s); consumer := consumer s; taken := taken s |}
  | ConsumerStep spurious =>
      '(q, r) ← consumer_step spurious (queue s) (consumer s);
      match r with
      | inl c => Some {| queue := q; pushes := pushes s; consumer := c; taken := taken s |}
      | inr o =>
          items ← outcome_items q o;
          Some {| queue := release items q; pushes := pushes s; consumer := Idle; taken := taken s ++ items |}
      end
  end.

Definition init : System :=
  {| queue := {| next := ∅; front := None; back := None |}; pushes := []; consumer := Idle; taken := [] |}.

(** ** The contract: a queue with cuts

    An entry whose link is still to be made names the push that makes it. *)
Definition Entry : Type := nat * option nat.

Definition entries (i : nat) (items : list nat) : list Entry :=
  match items with
  | [] => []
  | item :: items => (item, Some i) :: ((fun x => (x, None)) <$> items)
  end.
Definition settle (i : nat) (L : list Entry) : list Entry :=
  (fun '(b, cut) => (b, if decide (cut = Some i) then None else cut)) <$> L.

Inductive Event :=
| Pushed (i : nat) (items : list nat)
| Linked (i : nat)
| Took (items : list nat)
| FoundEmpty.

Inductive entries_step : Event -> list Entry -> list Entry -> Prop :=
| step_pushed i items L : entries_step (Pushed i items) L (L ++ entries i items)
| step_linked i L : entries_step (Linked i) L (settle i L)
| step_took items L : items <> [] -> entries_step (Took items) (((fun x => (x, None)) <$> items) ++ L) L
| step_empty : entries_step FoundEmpty [] []
| step_cut b i L : entries_step FoundEmpty ((b, Some i) :: L) ((b, Some i) :: L).

Inductive entries_run : list Event -> list Entry -> list Entry -> Prop :=
| run_done L : entries_run [] L L
| run_step e evs L1 L2 L3 : entries_step e L1 L2 -> entries_run evs L2 L3 -> entries_run (e :: evs) L1 L3.

(** What a step shows, read off the states around it. *)
Definition events (a : Action) (s s' : System) : list Event :=
  match a with
  | PushStep i =>
      match pushes s !! i with
      | Some (PushSwap items) => [Pushed i items]
      | Some (PushLink _ _) => [Linked i]
      | _ => []
      end
  | ConsumerStep _ =>
      match consumer s' with
      | Idle => match drop (length (taken s)) (taken s') with [] => [FoundEmpty] | items => [Took items] end
      | _ => []
      end
  | _ => []
  end.

Fixpoint run (schedule : list Action) (s : System) : option (System * list Event) :=
  match schedule with
  | [] => Some (s, [])
  | a :: schedule =>
      s' ← perform a s;
      '(s'', evs) ← run schedule s';
      Some (s'', events a s s' ++ evs)
  end.

Definition pushed (evs : list Event) : list nat :=
  evs ≫= fun e => match e with Pushed _ items => items | _ => [] end.

Lemma settle_items i L : (settle i L).*1 = L.*1.
Proof. induction L as [|[b cut] L IH]; [done|]. cbn. by f_equal. Qed.

Lemma entries_items i items : (entries i items).*1 = items.
Proof.
  destruct items as [|x items]; [done|]. cbn. f_equal.
  induction items as [|y items IH]; [done|]. cbn. by f_equal.
Qed.

Lemma plain_items (items : list nat) : ((fun x => (x, None)) <$> items : list Entry).*1 = items.
Proof. induction items as [|y items IH]; [done|]. cbn. by f_equal. Qed.

Lemma entries_run_app evs1 evs2 L1 L2 L3 :
  entries_run evs1 L1 L2 -> entries_run evs2 L2 L3 -> entries_run (evs1 ++ evs2) L1 L3.
Proof. induction 1; cbn [app]; [done|]. eauto using run_step. Qed.

Lemma entries_run_one e L1 L2 : entries_step e L1 L2 -> entries_run [e] L1 L2.
Proof. eauto using run_step, run_done. Qed.

(** ** The relation between store and entries *)
Definition points (s : Queue) (p v : option nat) : Prop :=
  match p with None => front s = v | Some a => next s !! a = Some v end.

(** From the link of [p] on, where [None] is [front], there are the entries [L], and the
    last link is [v]. *)
Fixpoint linked (s : Queue) (ps : list Push) (v p : option nat) (L : list Entry) : Prop :=
  match L with
  | [] => points s p v
  | (b, cut) :: L =>
      match cut with
      | None => points s p (Some b)
      | Some i => points s p None /\ ps !! i = Some (PushLink b p)
      end /\ linked s ps v (Some b) L
  end.

Definition plain (items : list nat) : list Entry := (fun x => (x, None)) <$> items.

(** The nodes of a push that are not in the queue. *)
Definition own (h : Push) : list nat :=
  match h with PushSetNull items | PushSwap items => items | _ => [] end.
Definition live (ps : list Push) (L : list Entry) : list nat := L.*1 ++ concat (own <$> ps).

Definition push_ok (s : Queue) (ps : list Push) (L : list Entry) (i : nat) (h : Push) : Prop :=
  match h with
  | PushSetNull items => exists f r v, items = f :: r /\ linked s ps v (Some f) (plain r)
  | PushSwap items => exists f r, items = f :: r /\ linked s ps None (Some f) (plain r)
  | PushLink b _ => (b, Some i) ∈ L
  | PushReturn => True
  end.

(** The main chain [q] starts at [front], or the consumer holds its first node. *)
Definition main_linked (s : Queue) (ps : list Push) (held : option nat) (q : list Entry) : Prop :=
  match held with
  | None => linked s ps None None q
  | Some first => front s = None /\ exists rest, q = (first, None) :: rest /\ linked s ps None (Some first) rest
  end.

Definition held (c : Consumer) : option nat :=
  match c with
  | PopCasBack first | PopWait first | PopStoreFront first _ | BatchSwapBack first => Some first
  | _ => None
  end.

(** [B] is what [pop_batch] has taken and not returned. *)
Definition consumer_ok (s : Queue) (ps : list Push) (c : Consumer) (B q : list Entry) : Prop :=
  match c with
  | PopLoadNext first => B = [] /\ exists rest, q = (first, None) :: rest
  | PopCasFront first None => B = [] /\ exists rest, q = (first, None) :: rest
  | PopCasFront first (Some n) => B = [] /\ exists rest, q = (first, None) :: (n, None) :: rest
  | PopWait first => B = [] /\ exists b rest, q = (first, None) :: b :: rest
  | PopStoreFront first n => B = [] /\ exists rest, q = (first, None) :: (n, None) :: rest
  | BatchWalk first last_ item count =>
      exists seen rest, B = plain (seen ++ [item]) ++ rest /\ head (seen ++ [item]) = Some first /\
        length seen + 1 = count /\ rest <> [] /\ last B.*1 = Some last_ /\
        linked s ps None (Some first) (drop 1 B)
  | _ => B = []
  end.

Record related (B q : list Entry) (s : Queue) (ps : list Push) (c : Consumer) : Prop := {
  r_back : back s = last q.*1;
  r_main : main_linked s ps (held c) q;
  r_consumer : consumer_ok s ps c B q;
  r_pushes i h : ps !! i = Some h -> push_ok s ps (B ++ q) i h;
  r_nodup : NoDup (live ps (B ++ q));
  r_live a : a ∈ live ps (B ++ q) <-> is_Some (next s !! a)
}.

(** *** Frames *)
Lemma linked_frame s s' ps ps' v p L :
  linked s ps v p L ->
  (forall p' w, p' ∈ p :: (Some <$> L.*1) -> points s p' w -> points s' p' w) ->
  (forall i b p', (b, Some i) ∈ L -> ps !! i = Some (PushLink b p') -> ps' !! i = Some (PushLink b p')) ->
  linked s' ps' v p L.
Proof.
  revert p. induction L as [|[b cut] L IH]; intros p HL Hs Hps; cbn [linked] in *.
  { apply Hs; [left|done]. }
  destruct HL as [Hb HL]. split.
  - destruct cut as [i|]; [|apply Hs; [left|done]].
    destruct Hb as [Hb Hi]. split; [apply Hs; [left|done]|]. apply Hps; [left|done].
  - apply IH; [done| |].
    + intros p' w Hp'. apply Hs. by right.
    + intros i b' p' Hin. apply Hps. by right.
Qed.

Lemma linked_cut s ps v p L b i :
  linked s ps v p L -> (b, Some i) ∈ L ->
  exists p', p' ∈ p :: (Some <$> L.*1) /\ ps !! i = Some (PushLink b p') /\ points s p' None.
Proof.
  revert p. induction L as [|[b' cut] L IH]; intros p HL Hin; [by apply not_elem_of_nil in Hin|].
  cbn [linked] in HL. destruct HL as [Hb HL]. apply elem_of_cons in Hin as [[= -> <-]|Hin].
  - exists p. destruct Hb as [Hb Hi]. splits; [left|done|done].
  - destruct (IH _ HL Hin) as (p' & Hp' & ?). exists p'. split; [|done]. cbn. by right.
Qed.

Lemma linked_app s ps v p L1 L2 :
  linked s ps v p (L1 ++ L2) <->
  match L2 with
  | [] => linked s ps v p L1
  | (b, None) :: L2 => linked s ps (Some b) p L1 /\ linked s ps v (Some b) L2
  | (b, Some i) :: L2 => linked s ps None p L1 /\
      ps !! i = Some (PushLink b (last (option_list p ++ L1.*1))) /\ linked s ps v (Some b) L2
  end.
Proof.
  revert p. induction L1 as [|[b cut] L1 IH]; intros p; cbn [app linked].
  - destruct L2 as [|[b [i|]] L2]; cbn [linked]; [done| |done].
    rewrite app_nil_r. destruct p; cbn; tauto.
  - rewrite IH. destruct L2 as [|[b' [i|]] L2]; [done| |tauto].
    replace (last (option_list (Some b) ++ L1.*1)) with (last (option_list p ++ ((b, cut) :: L1).*1)); [tauto|].
    destruct p; cbn; by destruct (L1.*1).
Qed.

Lemma linked_plain s ps ps' v p items :
  linked s ps v p (plain items) -> linked s ps' v p (plain items).
Proof.
  intros HL. eapply linked_frame; [exact HL|done|].
  intros i b p' (x & E & _)%list_elem_of_fmap. done.
Qed.

(** Setting the link of [p] to [b] makes the link that push [i] owes. *)
Lemma linked_settle s s' ps i b p v p0 L :
  linked s ps v p0 L -> ps !! i = Some (PushLink b p) -> NoDup (p0 :: (Some <$> L.*1)) ->
  (p ∈ p0 :: (Some <$> L.*1) -> (b, Some i) ∈ L) ->
  points s' p (Some b) -> (forall p' w, p' <> p -> points s p' w -> points s' p' w) ->
  linked s' (<[i := PushReturn]> ps) v p0 (settle i L).
Proof.
  intros HL Hi Hnd Hin Hp Hs. revert p0 HL Hnd Hin.
  induction L as [|[b' cut] L IH]; intros p0 HL Hnd Hin; cbn [linked settle fmap list_fmap] in *.
  { apply Hs; [|done]. intros ->. destruct (not_elem_of_nil (b, Some i)). apply Hin. left. }
  destruct HL as [Hb HL]. apply NoDup_cons in Hnd as [Hp0 Hnd].
  assert (p = p0 -> (b, Some i) = (b', cut)) as Hhead.
  { intros ->. destruct (proj1 (elem_of_cons _ _ _) (Hin (list_elem_of_here _ _))) as [E|HinL]; [done|].
    destruct (linked_cut _ _ _ _ _ _ _ HL HinL) as (p' & Hp' & E & _). by simplify_eq. }
  split.
  - destruct cut as [j|]; cbn.
    + destruct Hb as [Hb Hj]. destruct (decide (Some j = Some i)) as [[= ->]|Hne]; [by simplify_eq|].
      split; [apply Hs; [|done]; intros ->; naive_solver|].
      rewrite list_lookup_insert_ne by congruence. done.
    + rewrite decide_False by done. apply Hs; [|done]. intros ->. naive_solver.
  - apply IH; [done|done|]. intros Hp'.
    destruct (proj1 (elem_of_cons _ _ _) (Hin (list_elem_of_further _ _ _ Hp'))) as [E|HinL]; [|done].
    injection E as <- <-. destruct Hb as [_ Hj]. by simplify_eq.
Qed.

(** [linked_settle] for a chain that does not have the link. *)
Lemma settle_id i L : (forall b, (b, Some i) ∉ L) -> settle i L = L.
Proof.
  induction L as [|[b cut] L IH]; intros Hi; [done|]. cbn. f_equal.
  - rewrite decide_False; [done|]. intros ->. apply (Hi b). left.
  - apply IH. intros b' Hb'. apply (Hi b'). by right.
Qed.

Lemma settle_app i L1 L2 : settle i (L1 ++ L2) = settle i L1 ++ settle i L2.
Proof. apply fmap_app. Qed.

Lemma settle_plain i items : settle i (plain items) = plain items.
Proof. apply settle_id. by intros b (x & [=] & _)%list_elem_of_fmap. Qed.

Lemma settle_other i j b L : i <> j -> (b, Some j) ∈ L -> (b, Some j) ∈ settle i L.
Proof.
  intros Hne Hin. apply list_elem_of_fmap. exists (b, Some j). rewrite decide_False by congruence. done.
Qed.

(** *** The nodes of the pushes under way *)
Lemma concat_insert (ps : list Push) i h h' :
  ps !! i = Some h -> own h ++ concat (own <$> <[i := h']> ps) ≡ₚ own h' ++ concat (own <$> ps).
Proof.
  revert i. induction ps as [|h0 ps IH]; intros i Hi; [done|].
  destruct i as [|i]; cbn in Hi |- *; [simplify_eq; solve_Permutation|].
  specialize (IH _ Hi). rewrite (Permutation_app_swap_app (own h)), IH. solve_Permutation.
Qed.

Lemma live_keep ps i h h' L :
  ps !! i = Some h -> own h' = own h -> live (<[i := h']> ps) L ≡ₚ live ps L.
Proof.
  intros Hi Ho. unfold live. apply Permutation_app_head.
  apply (Permutation_app_inv_l (own h)). rewrite (concat_insert _ _ _ h' Hi). by rewrite Ho.
Qed.

Lemma live_move ps i h h' L L' :
  ps !! i = Some h -> own h' = [] -> L'.*1 ≡ₚ L.*1 ++ own h -> live (<[i := h']> ps) L' ≡ₚ live ps L.
Proof.
  intros Hi Ho HL. unfold live. rewrite HL, <- app_assoc, (concat_insert _ _ _ h' Hi), Ho. done.
Qed.

Lemma own_concat (ps : list Push) i h a : ps !! i = Some h -> a ∈ own h -> a ∈ concat (own <$> ps).
Proof.
  intros Hi Ha. apply list_elem_of_In, in_concat. exists (own h).
  split; apply list_elem_of_In; [|done]. apply list_elem_of_fmap. exists h. split; [done|].
  by eapply list_elem_of_lookup_2.
Qed.

Lemma own_fresh ps L i h a : NoDup (live ps L) -> ps !! i = Some h -> a ∈ own h -> a ∉ L.*1.
Proof. intros (_ & Hd & _)%NoDup_app Hi Ha HL. apply (Hd _ HL). by eapply own_concat. Qed.

Lemma own_disjoint ps L i j h h' a :
  NoDup (live ps L) -> ps !! i = Some h -> ps !! j = Some h' -> i <> j -> a ∈ own h -> a ∉ own h'.
Proof.
  intros (_ & _ & Hnd)%NoDup_app Hi Hj Hne Ha Ha'.
  rewrite <- (app_nil_l (concat _)) in Hnd. change [] with (own PushReturn) in Hnd.
  rewrite <- (concat_insert ps i h PushReturn Hi) in Hnd. apply NoDup_app in Hnd as (_ & Hd & _).
  apply (Hd _ Ha). eapply own_concat; [|exact Ha']. by rewrite list_lookup_insert_ne.
Qed.

Lemma push_ok_frame s s' ps ps' L L' j h :
  push_ok s ps L j h ->
  (forall a w, a ∈ own h -> points s (Some a) w -> points s' (Some a) w) ->
  (forall b, (b, Some j) ∈ L -> (b, Some j) ∈ L') ->
  push_ok s' ps' L' j h.
Proof.
  assert (forall f r v, (forall a w, a ∈ f :: r -> points s (Some a) w -> points s' (Some a) w) ->
            linked s ps v (Some f) (plain r) -> linked s' ps' v (Some f) (plain r)) as Hown.
  { intros f r v Hs HL. eapply linked_plain, linked_frame; [exact HL| |done].
    intros p' w Hp'. rewrite plain_items in Hp'. change (Some f :: _) with (Some <$> f :: r) in Hp'.
    apply list_elem_of_fmap in Hp' as (a & -> & Ha). by apply Hs. }
  intros Hh Hs HL. destruct h; cbn in *; [naive_solver..|by apply HL|done].
Qed.

(** *** The steps of a push *)
Lemma points_with_next s n p w :
  (forall a, p = Some a -> n !! a = next s !! a) -> points s p w -> points (with_next s n) p w.
Proof. destruct p as [a|]; cbn; intros Hn; [|done]. by rewrite Hn. Qed.

Lemma main_linked_frame s s' ps ps' hd q :
  main_linked s ps hd q ->
  (forall p w, (forall a, p = Some a -> a ∈ q.*1) -> points s p w -> points s' p w) ->
  (forall i b p, (b, Some i) ∈ q -> ps !! i = Some (PushLink b p) -> ps' !! i = Some (PushLink b p)) ->
  main_linked s' ps' hd q.
Proof.
  assert (forall a (L : list nat) p, p ∈ Some a :: (Some <$> L) -> exists b, p = Some b /\ b ∈ a :: L) as Hin.
  { intros a L p Hp. change (Some a :: _) with (Some <$> a :: L) in Hp.
    apply list_elem_of_fmap in Hp. exact Hp. }
  destruct hd as [first|]; cbn.
  - intros (Hf & rest & -> & HL) Hs Hps. split; [by apply (Hs None)|]. exists rest. split; [done|].
    eapply linked_frame; [exact HL| |].
    + intros p w (b & -> & Hb)%Hin. apply Hs. by intros ? [= <-].
    + intros j b p Hj. apply Hps. by right.
  - intros HL Hs Hps. eapply linked_frame; [exact HL| |done].
    intros p w Hp. apply Hs. intros a ->. apply elem_of_cons in Hp as [?|Hp]; [done|].
    apply list_elem_of_fmap in Hp as (? & [= <-] & ?). done.
Qed.

Lemma consumer_ok_frame s s' ps ps' c B q :
  consumer_ok s ps c B q ->
  (forall a w, a ∈ B.*1 -> points s (Some a) w -> points s' (Some a) w) ->
  (forall i b p, (b, Some i) ∈ B -> ps !! i = Some (PushLink b p) -> ps' !! i = Some (PushLink b p)) ->
  consumer_ok s' ps' c B q.
Proof.
  intros Hc Hs Hps. destruct c; try exact Hc; cbn in *.
  destruct Hc as (seen & rest & HB & Hhd & Hn & Hr & Hl & HL).
  exists seen, rest. splits; [done..|].
  assert (exists t, B = (first, None) :: t) as (t & ->).
  { subst B. destruct seen; cbn in *; simplify_eq; eauto. }
  change (drop 1 _) with t in HL |- *.
  eapply linked_frame; [exact HL| |].
  - intros p w Hp. change (Some first :: _) with (Some <$> ((first, None) :: t).*1) in Hp.
    apply list_elem_of_fmap in Hp as (a & -> & Ha). by apply Hs.
  - intros j b p Hj. apply Hps. by right.
Qed.

(** A step of push [i] that leaves the links of the queue alone. *)
Lemma related_own_step B q s n ps c i h h' :
  related B q s ps c -> ps !! i = Some h -> own h' = own h ->
  (forall b p, h <> PushLink b p) ->
  (forall a, a ∉ own h -> n !! a = next s !! a) ->
  (forall a, is_Some (n !! a) <-> is_Some (next s !! a)) ->
  push_ok (with_next s n) (<[i := h']> ps) (B ++ q) i h' ->
  related B q (with_next s n) (<[i := h']> ps) c.
Proof.
  intros R Hi Ho Hh Hn Hdom Hok. pose proof (r_nodup _ _ _ _ _ R) as Hnd.
  assert (forall a, a ∈ (B ++ q).*1 -> n !! a = next s !! a) as Hq.
  { intros a Ha. apply Hn. intros Ha'. by eapply own_fresh. }
  assert (forall j b p, ps !! j = Some (PushLink b p) -> <[i:=h']> ps !! j = Some (PushLink b p)) as Hps.
  { intros j b p Hj. rewrite list_lookup_insert_ne; [done|]. intros <-. simplify_eq. by eapply Hh. }
  rewrite fmap_app in Hq. split; [apply R|..].
  - eapply main_linked_frame; [apply R| |eauto].
    intros p w Hp. apply points_with_next. intros a ->. apply Hq, elem_of_app; eauto.
  - eapply consumer_ok_frame; [apply R| |eauto].
    intros a w Ha. apply points_with_next. intros ? [= <-]. apply Hq, elem_of_app; eauto.
  - intros j hj Hj. destruct (decide (i = j)) as [<-|Hne].
    { rewrite list_lookup_insert_eq in Hj by (by eapply lookup_lt_Some). by simplify_eq. }
    rewrite list_lookup_insert_ne in Hj by done.
    eapply push_ok_frame; [by apply R| |done].
    intros a w Ha. apply points_with_next. intros ? [= <-]. apply Hn.
    intros Ha'. by eapply (own_disjoint ps (B ++ q) i j).
  - by rewrite (live_keep _ _ _ _ _ Hi Ho).
  - intros a. rewrite (live_keep _ _ _ _ _ Hi Ho), Hdom. apply R.
Qed.

Lemma linked_set_last s ps v v' f r l :
  linked s ps v (Some f) (plain r) -> NoDup (f :: r) -> last (f :: r) = Some l ->
  linked (with_next s (<[l := v']> (next s))) ps v' (Some f) (plain r).
Proof.
  revert f. induction r as [|x r IH]; intros f HL Hnd Hl; cbn in *.
  { simplify_eq. by rewrite lookup_insert_eq. }
  apply NoDup_cons in Hnd as [Hf Hnd]. destruct HL as [Hx HL]. split; [|by apply IH].
  rewrite lookup_insert_ne; [done|]. intros ->. destruct Hf.
  eapply last_Some_elem_of; exact Hl.
Qed.

Lemma push_set_null_related B q s ps c i items :
  related B q s ps c -> ps !! i = Some (PushSetNull items) ->
  exists s', push_step s (PushSetNull items) = Some (s', PushSwap items) /\
    related B q s' (<[i := PushSwap items]> ps) c.
Proof.
  intros R Hi. destruct (r_pushes _ _ _ _ _ R _ _ Hi) as (f & r & v & -> & HL).
  assert (exists l, last (f :: r) = Some l) as (l & Hl).
  { destruct (last (f :: r)) eqn:E; [eauto|]. by apply last_None in E. }
  pose proof (last_Some_elem_of _ _ Hl) as Hin.
  assert (is_Some (next s !! l)) as Hl'.
  { apply R. unfold live. apply elem_of_app; right. by eapply own_concat. }
  unfold push_step. rewrite Hl. cbn [mbind option_bind]. unfold store_next. rewrite decide_True by done.
  eexists. split; [done|]. eapply related_own_step; [done|done|done|done| | |].
  - intros a Ha. apply lookup_insert_ne. by intros ->.
  - intros a. destruct (decide (l = a)) as [<-|Hne]; [rewrite lookup_insert_eq; by split|].
    by rewrite lookup_insert_ne.
  - exists f, r. split; [done|]. eapply linked_plain, linked_set_last; [done| |done].
    pose proof (r_nodup _ _ _ _ _ R) as (_ & _ & Hnd)%NoDup_app.
    rewrite <- (app_nil_l (concat _)) in Hnd. change [] with (own PushReturn) in Hnd.
    rewrite <- (concat_insert ps i _ PushReturn Hi) in Hnd. by apply NoDup_app in Hnd as (? & _ & _).
Qed.

Lemma consumer_ok_push s ps c B q L : consumer_ok s ps c B q -> consumer_ok s ps c B (q ++ L).
Proof.
  destruct c; cbn; try done.
  - intros (-> & rest & ->). eauto.
  - destruct next_ptr; intros (-> & rest & ->); cbn; eauto.
  - intros (-> & b & rest & ->). cbn. eauto.
  - intros (-> & rest & ->). cbn. eauto.
Qed.

Lemma main_linked_push s ps hd q i f r :
  main_linked s ps hd q -> ps !! i = Some (PushLink f (last q.*1)) ->
  linked s ps None (Some f) (plain r) -> main_linked s ps hd (q ++ (f, Some i) :: plain r).
Proof.
  intros Hq Hi Hr. destruct hd as [first|]; cbn in *.
  - destruct Hq as (Hf & rest & -> & HL). split; [done|]. eexists; split; [done|].
    apply linked_app. splits; [done| |done]. by rewrite Hi.
  - apply linked_app. splits; [done| |done]. by rewrite Hi.
Qed.

Lemma push_swap_related B q s ps c i items :
  related B q s ps c -> ps !! i = Some (PushSwap items) ->
  exists s' h', push_step s (PushSwap items) = Some (s', h') /\ h' <> PushReturn /\
    related B (q ++ entries i items) s' (<[i := h']> ps) c.
Proof.
  intros R Hi. destruct (r_pushes _ _ _ _ _ R _ _ Hi) as (f & r & -> & HL).
  assert (exists l, last (f :: r) = Some l) as (l & Hl).
  { destruct (last (f :: r)) eqn:E; [eauto|]. by apply last_None in E. }
  unfold push_step. rewrite Hl. cbn [mbind option_bind head]. do 2 eexists. split; [done|]. split; [done|].
  set (ps' := <[i := _]> ps).
  assert (ps' !! i = Some (PushLink f (back s))) as Hi'
    by (apply list_lookup_insert_eq; by eapply lookup_lt_Some).
  assert (forall j b p, ps !! j = Some (PushLink b p) -> ps' !! j = Some (PushLink b p)) as Hps.
  { intros j b p Hj. unfold ps'. rewrite list_lookup_insert_ne; [done|]. intros <-. simplify_eq. }
  assert (live ps' (B ++ q ++ entries i (f :: r)) ≡ₚ live ps (B ++ q)) as Hlive.
  { apply (live_move _ _ _ _ _ _ Hi); [done|]. by rewrite !fmap_app, entries_items, <- app_assoc. }
  assert (forall p w, points s p w -> points (with_back s (Some l)) p w) as Hs by (by intros []).
  split.
  - by rewrite fmap_app, last_app, entries_items, Hl.
  - apply main_linked_push.
    + eapply main_linked_frame; [apply R|eauto|eauto].
    + by rewrite Hi', (r_back _ _ _ _ _ R).
    + eapply linked_plain, linked_frame; [exact HL|eauto|eauto].
  - eapply consumer_ok_push, consumer_ok_frame; [apply R|eauto|eauto].
  - intros j hj Hj. destruct (decide (i = j)) as [<-|Hne].
    { rewrite Hi' in Hj. simplify_eq. cbn. rewrite !elem_of_app. right; right. left. }
    unfold ps' in Hj. rewrite list_lookup_insert_ne in Hj by done.
    eapply push_ok_frame; [by apply R|eauto|]. intros b. rewrite app_assoc, !elem_of_app. tauto.
  - rewrite Hlive. apply R.
  - intros a. rewrite Hlive. apply R.
Qed.

(** *** Linking *)
Lemma consumer_ok_settle s ps i c B q :
  consumer_ok s ps c B q -> (forall first last_ item count, c <> BatchWalk first last_ item count) ->
  consumer_ok s ps c (settle i B) (settle i q).
Proof.
  intros Hc Hne. destruct c as [| | |? []| | | | | |]; cbn in *; try (by rewrite Hc).
  - destruct Hc as (-> & rest & ->). cbn. eauto.
  - destruct Hc as (-> & rest & ->). cbn. eauto.
  - destruct Hc as (-> & rest & ->). cbn. eauto.
  - destruct Hc as (-> & b & rest & ->). cbn. eauto.
  - destruct Hc as (-> & rest & ->). cbn. eauto.
  - by destruct (Hne _ _ _ _ eq_refl).
Qed.

(** Where the chain of [hd] and [q] has its links. *)
Definition links (hd : option nat) (q : list Entry) : list (option nat) :=
  match hd with None => None :: (Some <$> q.*1) | Some _ => Some <$> q.*1 end.

Lemma main_linked_cut s ps hd q b i :
  main_linked s ps hd q -> (b, Some i) ∈ q ->
  exists p, p ∈ links hd q /\ ps !! i = Some (PushLink b p) /\ points s p None.
Proof.
  destruct hd as [first|]; cbn; [|by apply linked_cut].
  intros (_ & rest & -> & HL) Hin. apply elem_of_cons in Hin as [[=]|Hin]. by eapply linked_cut.
Qed.

Lemma batch_linked s ps c B q :
  consumer_ok s ps c B q -> B <> [] ->
  held c = None /\ exists first t, B = (first, None) :: t /\ linked s ps None (Some first) t.
Proof.
  intros Hc HB.
  destruct c as [| | |? []| | | | | |]; cbn in Hc; [naive_solver..|].
  destruct Hc as (seen & rest & -> & Hhd & _ & _ & _ & HL). split; [done|].
  destruct seen; cbn in Hhd, HL |- *; simplify_eq; eauto.
Qed.

(** The links of the queue and of the batch are apart. *)
Lemma links_disjoint B q s ps c p :
  related B q s ps c -> p ∈ Some <$> B.*1 -> p ∉ links (held c) q.
Proof.
  intros R (a & -> & Ha)%list_elem_of_fmap Hp.
  assert (Some a ∈ (Some <$> q.*1)) as (a' & [= <-] & Ha')%list_elem_of_fmap.
  { destruct (held c); [done|]. apply elem_of_cons in Hp as [Hp|Hp]; [discriminate Hp|exact Hp]. }
  pose proof (r_nodup _ _ _ _ _ R) as (Hnd & _ & _)%NoDup_app.
  rewrite fmap_app in Hnd. apply NoDup_app in Hnd as (_ & Hd & _). by apply (Hd _ Ha).
Qed.

(** The link a push owes is in the batch or in the queue, and null. *)
Lemma push_link_where B q s ps c i b p :
  related B q s ps c -> ps !! i = Some (PushLink b p) ->
  points s p None /\ (p ∈ (Some <$> B.*1) /\ (b, Some i) ∈ B \/ p ∈ links (held c) q /\ (b, Some i) ∈ q).
Proof.
  intros R Hi. pose proof (r_pushes _ _ _ _ _ R _ _ Hi) as Hin. cbn in Hin.
  apply elem_of_app in Hin as [Hin|Hin].
  - destruct (batch_linked _ _ _ _ _ (r_consumer _ _ _ _ _ R)) as (_ & first & t & -> & HL).
    { intros ->. by apply not_elem_of_nil in Hin. }
    apply elem_of_cons in Hin as [[=]|Hin].
    destruct (linked_cut _ _ _ _ _ _ _ HL Hin) as (p' & Hp' & E & Hn). simplify_eq.
    split; [done|]. left. split; [done|by right].
  - destruct (main_linked_cut _ _ _ _ _ _ (r_main _ _ _ _ _ R) Hin) as (p' & Hp' & E & Hn). simplify_eq. eauto.
Qed.

Section link.
Context (s s' : Queue) (ps : list Push) (i b : nat) (p : option nat).
Context (Hi : ps !! i = Some (PushLink b p)) (Hp : points s' p (Some b))
        (Hs : forall p' w, p' <> p -> points s p' w -> points s' p' w).

Lemma main_linked_settle hd q :
  main_linked s ps hd q -> NoDup q.*1 -> (p ∈ links hd q -> (b, Some i) ∈ q) ->
  (is_Some hd -> is_Some p) -> main_linked s' (<[i := PushReturn]> ps) hd (settle i q).
Proof using Hi Hp Hs.
  intros HL Hnd%(NoDup_fmap_2 Some) Hin Hhd. destruct hd as [first|]; cbn in *.
  - destruct HL as (Hf & rest & -> & HL). split.
    { apply (Hs None); [|done]. intros <-. by destruct (Hhd ltac:(eauto)). }
    exists (settle i rest). split; [done|].
    eapply linked_settle; [exact HL|exact Hi|done| |exact Hp|exact Hs].
    intros Hp'. by apply Hin, elem_of_cons in Hp' as [[=]|?].
  - eapply linked_settle; [exact HL|exact Hi| |exact Hin|exact Hp|exact Hs].
    apply NoDup_cons. split; [|done]. by intros (? & [=] & _)%list_elem_of_fmap.
Qed.

Lemma consumer_linked_settle c B q :
  consumer_ok s ps c B q -> NoDup B.*1 -> (p ∈ Some <$> B.*1 -> (b, Some i) ∈ B) ->
  consumer_ok s' (<[i := PushReturn]> ps) c (settle i B) (settle i q).
Proof using Hi Hp Hs.
  intros Hc Hnd%(NoDup_fmap_2 Some) Hin.
  destruct c; try (apply consumer_ok_settle with (i := i) in Hc; [exact Hc|done]).
  assert (B <> []) as HB0 by (destruct Hc as ([] & ? & -> & _); done).
  destruct (batch_linked _ _ _ _ _ Hc HB0) as (_ & first' & t & HB & HL).
  destruct Hc as (seen & rest & HB' & Hhd & Hn & Hr & Hl & _).
  assert (first' = first) as -> by (destruct seen; cbn in Hhd; rewrite HB in HB'; naive_solver).
  exists seen, (settle i rest). splits; [by rewrite HB', settle_app, settle_plain|done|done| | |].
  - by intros ->%fmap_nil_inv.
  - by rewrite settle_items.
  - rewrite HB in Hin, Hnd |- *. eapply linked_settle; [exact HL|exact Hi|exact Hnd| |exact Hp|exact Hs].
    intros Hp'. by apply Hin, elem_of_cons in Hp' as [[=]|?].
Qed.
End link.

Lemma push_link_store s b p :
  (forall a, p = Some a -> is_Some (next s !! a)) ->
  exists s', push_step s (PushLink b p) = Some (s', PushReturn) /\ points s' p (Some b) /\
    (forall p' w, p' <> p -> points s p' w -> points s' p' w) /\ back s' = back s /\
    (forall a, is_Some (next s' !! a) <-> is_Some (next s !! a)).
Proof.
  intros Hp. destruct p as [a|]; cbn.
  - unfold store_next. rewrite decide_True by auto. eexists. split; [done|]. cbn.
    splits; [apply lookup_insert_eq| |done|].
    + intros [a'|] w Hne; cbn; [|done]. by rewrite lookup_insert_ne by congruence.
    + intros a'. destruct (decide (a = a')) as [<-|Hne]; [rewrite lookup_insert_eq; split; eauto|].
      by rewrite lookup_insert_ne.
  - eexists. split; [done|]. cbn. splits; [done| |done|done]. by intros [a'|] w Hne; cbn.
Qed.

Lemma push_link_related B q s ps c i b p :
  related B q s ps c -> ps !! i = Some (PushLink b p) ->
  exists s', push_step s (PushLink b p) = Some (s', PushReturn) /\
    related (settle i B) (settle i q) s' (<[i := PushReturn]> ps) c.
Proof.
  intros R Hi. destruct (push_link_where _ _ _ _ _ _ _ _ R Hi) as (Hn & Hw).
  pose proof (r_nodup _ _ _ _ _ R) as Hnd.
  pose proof Hnd as (HBq & _ & _)%NoDup_app. rewrite fmap_app in HBq.
  apply NoDup_app in HBq as (HB & _ & Hq).
  assert (forall a, p = Some a -> a ∈ (B ++ q).*1) as Hpa.
  { intros a ->. rewrite fmap_app, elem_of_app.
    destruct Hw as [((? & [= <-] & ?)%list_elem_of_fmap & _)|[Hp _]]; [by left|right].
    assert (Some a ∈ (Some <$> q.*1)) as (? & [= <-] & ?)%list_elem_of_fmap; [|done].
    destruct (held c); [done|]. apply elem_of_cons in Hp as [Hp|Hp]; [discriminate Hp|exact Hp]. }
  destruct (push_link_store s b p) as (s' & Hstep & Hp & Hs & Hback & Hdom).
  { intros a ->. by exists None. }
  assert (live (<[i := PushReturn]> ps) (settle i B ++ settle i q) ≡ₚ live ps (B ++ q)) as Hlive.
  { apply (live_move _ _ _ _ _ _ Hi); [done|]. by rewrite !fmap_app, !settle_items, app_nil_r. }
  exists s'. split; [done|]. split.
  - by rewrite Hback, settle_items, (r_back _ _ _ _ _ R).
  - eapply main_linked_settle; [exact Hi|exact Hp|exact Hs|apply R|done| |].
    + intros Hp'. destruct Hw as [[Hp'' _]|[_ ?]]; [|done]. by destruct (links_disjoint _ _ _ _ _ _ R Hp'').
    + intros Hh. destruct Hw as [[(a & -> & _)%list_elem_of_fmap _]|[Hp' _]]; [eauto|].
      destruct (held c); [|by destruct Hh]. apply list_elem_of_fmap in Hp' as (a & -> & _). eauto.
  - eapply consumer_linked_settle; [exact Hi|exact Hp|exact Hs|apply R|done|].
    intros Hp'. destruct Hw as [[_ ?]|[Hp'' _]]; [done|]. by destruct (links_disjoint _ _ _ _ _ _ R Hp').
  - intros j hj Hj. destruct (decide (i = j)) as [<-|Hne].
    { rewrite list_lookup_insert_eq in Hj by (by eapply lookup_lt_Some). by simplify_eq. }
    rewrite list_lookup_insert_ne in Hj by done. rewrite <- settle_app.
    eapply push_ok_frame; [by apply R| |intros b'; by apply settle_other].
    intros a w Ha. apply Hs. intros <-. eapply own_fresh; [exact Hnd|exact Hj|exact Ha|by apply Hpa].
  - rewrite Hlive. apply R.
  - intros a. rewrite Hlive, Hdom. apply R.
Qed.

(** *** The steps of the consumer *)
Lemma related_consumer B q s ps c c' :
  related B q s ps c -> held c' = held c -> consumer_ok s ps c' B q -> related B q s ps c'.
Proof. intros R Hh Hc. split; [apply R|rewrite Hh; apply R|done|apply R..]. Qed.

Lemma delete_all_lookup {A} (items : list nat) (m : gmap nat A) a :
  foldr delete m items !! a = if decide (a ∈ items) then None else m !! a.
Proof.
  induction items as [|x items IH]; cbn [foldr].
  { rewrite decide_False; [done|apply not_elem_of_nil]. }
  destruct (decide (x = a)) as [->|Hne].
  - rewrite lookup_delete_eq, decide_True by left. done.
  - rewrite lookup_delete_ne, IH by done. destruct (decide (a ∈ items)) as [Hin|Hin].
    + rewrite decide_True by (by right). done.
    + rewrite decide_False; [done|]. by intros [->|?]%elem_of_cons.
Qed.

(** The nodes of [items] leave. *)
Lemma related_release B0 q0 items q s s' ps c :
  related B0 q0 s ps c -> B0 ++ q0 = plain items ++ q -> next s' = next s ->
  back s' = last q.*1 -> main_linked s' ps None q ->
  related [] q (release items s') ps Idle.
Proof.
  intros R HL Hns Hb Hm. pose proof (r_nodup _ _ _ _ _ R) as Hnd.
  assert (live ps (plain items ++ q) = items ++ live ps q) as Hlive.
  { unfold live. rewrite fmap_app. unfold plain. by rewrite plain_items, <- app_assoc. }
  rewrite HL, Hlive in Hnd. apply NoDup_app in Hnd as (_ & Hd & Hnd).
  assert (forall a, a ∈ live ps q -> next (release items s') !! a = next s !! a) as Hs.
  { intros a Ha. cbn. rewrite delete_all_lookup, decide_False, Hns; [done|]. intros Hin. by apply (Hd a). }
  assert (forall a w, a ∈ live ps q -> points s (Some a) w -> points (release items s') (Some a) w) as Hp.
  { intros a w Ha. cbn. by rewrite <- (Hs a Ha). }
  split; [done| |done| |done|].
  - eapply main_linked_frame; [exact Hm| |done].
    intros [a|] w Ha; [|done]. change (points s' (Some a) w) with (next s' !! a = Some w).
    rewrite Hns. apply Hp, elem_of_app; eauto.
  - intros j h Hj. eapply push_ok_frame; [by apply R| |].
    + intros a w Ha. apply Hp, elem_of_app. right. by eapply own_concat.
    + intros b. rewrite HL. intros [(x & [=] & _)%list_elem_of_fmap|?]%elem_of_app; done.
  - intros a. cbn. rewrite delete_all_lookup, Hns. pose proof (r_live _ _ _ _ _ R a) as Hl.
    rewrite HL, Hlive, elem_of_app in Hl. destruct (decide (a ∈ items)) as [Hin|Hin].
    + split; [intros Ha; by destruct (Hd a)|by intros []].
    + rewrite <- Hl. naive_solver.
Qed.

Lemma linked_last s ps v p L : linked s ps v p L -> points s (last (option_list p ++ L.*1)) v.
Proof.
  revert p. induction L as [|[b cut] L IH]; intros p HL.
  { rewrite app_nil_r. by destruct p. }
  destruct HL as [_ HL%IH]. replace (last _) with (last (option_list (Some b) ++ L.*1)); [done|].
  destruct p; cbn; by destruct (L.*1).
Qed.

(** The link from an entry to the next one. *)
Lemma linked_next s ps v p x L1 b cut L2 :
  linked s ps v p (L1 ++ (b, cut) :: L2) -> last (option_list p ++ L1.*1) = Some x ->
  next s !! x = Some (match cut with None => Some b | Some _ => None end).
Proof.
  intros HL Hx. apply linked_app in HL. destruct cut as [i|]; destruct HL as [HL _].
  - apply linked_last in HL. by rewrite Hx in HL.
  - apply linked_last in HL. by rewrite Hx in HL.
Qed.

Lemma batch_items_plain s ps v f r :
  linked s ps v (Some f) (plain r) -> batch_items s (Some f) (S (length r)) = Some (f :: r).
Proof.
  revert f. induction r as [|x r IH]; intros f HL; cbn in HL.
  { cbn. unfold load_next. by rewrite HL. }
  destruct HL as [Hf HL]. specialize (IH _ HL). cbn [length].
  change (batch_items s (Some f) (S (S (length r)))) with
    (n ← next s !! f; items ← batch_items s n (S (length r)); Some (f :: items)).
  rewrite Hf. cbn [mbind option_bind]. by rewrite IH.
Qed.

(** What a step of the consumer achieves. *)
Definition consumer_ok_after (B q : list Entry) (ps : list Push) (s' : Queue) (r : Consumer + Outcome) : Prop :=
  match r with
  | inl c' => c' <> Idle /\ exists B' q', B ++ q = B' ++ q' /\ related B' q' s' ps c'
  | inr o => exists items q', outcome_items s' o = Some items /\ B ++ q = plain items ++ q' /\
      related [] q' (release items s') ps Idle /\ (items = [] -> entries_step FoundEmpty q' q')
  end.

Lemma after_popped B q s ps c first rest s' :
  related B q s ps c -> B = [] -> q = (first, None) :: rest -> next s' = next s ->
  back s' = last rest.*1 -> main_linked s' ps None rest ->
  consumer_ok_after B q ps s' (inr (Popped (Some first))).
Proof.
  intros R -> -> Hn Hb Hm. exists [first], rest. splits; [done|done| |done].
  by eapply (related_release _ _ [first]).
Qed.

Lemma after_empty B q s ps c o :
  related B q s ps c -> B = [] -> main_linked s ps None q -> front s = None ->
  outcome_items s o = Some [] -> consumer_ok_after B q ps s (inr o).
Proof.
  intros R -> Hm Hf Ho. exists [], q. splits; [done|done| |].
  - eapply (related_release _ _ []); [exact R|done|done|apply R|done].
  - intros _. destruct q as [|[b [i|]] q]; [constructor..|]. cbn in Hm. destruct Hm. congruence.
Qed.

Lemma front_linked s ps q first :
  main_linked s ps None q -> front s = Some first ->
  exists rest, q = (first, None) :: rest /\ linked s ps None (Some first) rest.
Proof.
  intros Hm Hf. destruct q as [|[b [i|]] q]; cbn in Hm; [congruence|destruct Hm; naive_solver congruence|].
  destruct Hm as [Hb Hm]. replace first with b by congruence. eauto.
Qed.

Definition advances (B q : list Entry) (s : Queue) (ps : list Push) (c : Consumer) : Prop :=
  forall spurious, exists s' r, consumer_step spurious s c = Some (s', r) /\ consumer_ok_after B q ps s' r.

Lemma after_more B q s ps c c' :
  related B q s ps c -> held c' = held c -> c' <> Idle -> consumer_ok s ps c' B q ->
  consumer_ok_after B q ps s (inl c').
Proof. intros R Hh Hc Hok. split; [done|]. exists B, q. split; [done|]. by eapply related_consumer. Qed.

(** Behind a node a chain does not depend on the ends. *)
Lemma linked_ends s s' ps v a L :
  next s' = next s -> linked s ps v (Some a) L -> linked s' ps v (Some a) L.
Proof.
  intros Hn HL. eapply linked_frame; [exact HL| |done].
  intros p w Hp. change (Some a :: _) with (Some <$> a :: L.*1) in Hp.
  apply list_elem_of_fmap in Hp as (x & -> & _). cbn. by rewrite Hn.
Qed.

(** [front] has just been taken. *)
Lemma related_hold q s ps c c' first rest :
  related [] q s ps c -> q = (first, None) :: rest -> linked s ps None (Some first) rest ->
  held c' = Some first -> consumer_ok (with_front s None) ps c' [] q ->
  related [] q (with_front s None) ps c'.
Proof.
  intros R -> Hm Hh Hc. split; [apply R| |done| |apply R..].
  - rewrite Hh. split; [done|]. exists rest. split; [done|]. eapply linked_ends; [|exact Hm]. done.
  - intros j h Hj. eapply push_ok_frame; [by apply R|done|done].
Qed.

(** The end of [pop]: is the node the last one? *)
Lemma pop_back_related q s ps first spurious :
  related [] q s ps (PopCasBack first) ->
  exists s' r, consumer_step spurious s (PopCasBack first) = Some (s', r) /\ consumer_ok_after [] q ps s' r.
Proof.
  intros R. destruct (r_main _ _ _ _ _ R) as (Hf & rest & -> & Hm). pose proof (r_back _ _ _ _ _ R) as Hl.
  assert (exists l, last ((first, None) :: rest).*1 = Some l) as [l E].
  { destruct (last _) eqn:E; [eauto|]. by apply last_None in E. }
  cbn [consumer_step]. rewrite Hl, E. cbn [mbind option_bind].
  destruct (Nat.eqb_spec l first) as [->|Hb]; (do 2 eexists; split; [done|]).
  - pose proof (r_nodup _ _ _ _ _ R) as (Hnd & _ & _)%NoDup_app.
    destruct rest as [|[b cut] rest]; [by eapply after_popped|].
    change (NoDup (first :: ((b, cut) :: rest).*1)) in Hnd. apply NoDup_cons in Hnd as [Hnd _].
    destruct Hnd. by apply last_Some_elem_of.
  - eapply after_more; [exact R|done|done|]. split; [done|]. destruct rest as [|b rest]; [|eauto].
    cbn in E. congruence.
Qed.

Lemma pop_related B q s ps c :
  related B q s ps c ->
  match c with Idle | BatchSwapFront | BatchSwapBack _ | BatchWalk _ _ _ _ => False | _ => True end ->
  advances B q s ps c.
Proof.
  intros R Hpop spurious. pose proof (r_main _ _ _ _ _ R) as Hm. pose proof (r_consumer _ _ _ _ _ R) as Hc.
  destruct c as [| |first|first next_ptr|first|first|first n| | |]; try done; cbn [held] in Hm.
  - cbn in Hc. do 2 eexists. split; [done|]. destruct (front s) as [first|] eqn:Hf.
    + destruct (front_linked _ _ _ _ Hm Hf) as (rest & -> & _). eapply after_more; cbn; eauto.
    + by eapply after_empty.
  - destruct Hc as [-> [rest ->]]. destruct Hm as [Hf Hm]. cbn.
    unfold load_next. destruct rest as [|[b [i|]] rest]; cbn in Hm.
    + rewrite Hm. do 2 eexists. split; [done|]. eapply after_more; cbn; eauto.
    + destruct Hm as [[-> _] _]. do 2 eexists. split; [done|]. eapply after_more; cbn; eauto.
    + destruct Hm as [-> _]. do 2 eexists. split; [done|]. eapply after_more; cbn; eauto.
  - assert (B = [] /\ exists rest, q = (first, None) :: rest) as [-> [rest ->]].
    { destruct next_ptr; cbn in Hc; naive_solver. }
    destruct Hm as [Hf Hm]. cbn in Hf. cbn [consumer_step]. rewrite Hf.
    rewrite bool_decide_eq_true_2 by done. destruct spurious; cbn [orb negb].
    { do 2 eexists. split; [done|]. eapply after_more; cbn; eauto. }
    do 2 eexists. split; [done|]. destruct next_ptr as [n|]; cbn in Hc.
    + destruct Hc as [_ [rest' [= ->]]]. destruct Hm as [_ Hm].
      eapply after_popped; [exact R|done|done|done|apply R|]. split; [done|]. eapply linked_ends; [|exact Hm]. done.
    + split; [done|]. exists [], ((first, None) :: rest). split; [done|]. by eapply related_hold.
  - cbn in Hc. subst B. by apply pop_back_related.
  - destruct Hc as [-> (b & rest & ->)]. destruct Hm as (Hf & rest' & [= <-] & Hm). cbn.
    unfold load_next. destruct b as [b [i|]].
    + destruct Hm as [[-> _] _]. do 2 eexists. split; [done|]. eapply after_more; cbn; eauto.
    + destruct Hm as [-> _]. do 2 eexists. split; [done|]. eapply after_more; cbn; eauto.
  - destruct Hc as [-> (rest & ->)]. destruct Hm as (Hf & rest' & [= <-] & Hm). cbn [consumer_step].
    do 2 eexists. split; [done|]. destruct Hm as [_ Hm].
    eapply after_popped; [exact R|done|done|done|apply R|]. split; [done|]. eapply linked_ends; [|exact Hm]. done.
Qed.

Lemma last_iff_nil (b l : nat) (rest : list Entry) :
  NoDup (b :: rest.*1) -> last (b :: rest.*1) = Some l -> b = l <-> rest = [].
Proof.
  intros [Hb _]%NoDup_cons Hl. split; [|by intros ->; cbn in Hl; simplify_eq].
  intros ->. destruct rest as [|e rest]; [done|]. destruct Hb. by apply last_Some_elem_of.
Qed.

(** [pop_batch] takes the whole chain. *)
Lemma batch_back_related B q s ps first :
  related B q s ps (BatchSwapBack first) -> advances B q s ps (BatchSwapBack first).
Proof.
  intros R spurious. destruct (r_main _ _ _ _ _ R) as (Hf & rest & -> & Hm).
  pose proof (r_consumer _ _ _ _ _ R) as Hc. cbn in Hc. subst B.
  pose proof (r_back _ _ _ _ _ R) as Hl. pose proof (r_nodup _ _ _ _ _ R) as (Hnd & _ & _)%NoDup_app.
  cbn [consumer_step]. destruct rest as [|e rest].
  - cbn in Hl. rewrite Hl. cbn [mbind option_bind]. rewrite Nat.eqb_refl. do 2 eexists. split; [done|].
    cbn in Hm. exists [first], []. splits; [by cbn; unfold load_next; cbn; rewrite Hm|done| |done].
    by eapply (related_release _ _ [first]).
  - assert (exists l, last (e :: rest).*1 = Some l) as [l Hel].
    { destruct (last (e :: rest).*1) eqn:E; [eauto|]. by apply last_None in E. }
    change (back s = last (e :: rest).*1) in Hl. rewrite Hl, Hel. cbn [mbind option_bind].
    change (NoDup (first :: (e :: rest).*1)) in Hnd. apply NoDup_cons in Hnd as [Hfirst _].
    rewrite (proj2 (Nat.eqb_neq first l)) by (intros ->; by apply last_Some_elem_of in Hel).
    do 2 eexists. split; [done|]. split; [done|]. exists ((first, None) :: e :: rest), [].
    split; [by rewrite app_nil_r|]. split; [done|done| | |by rewrite app_nil_r; apply R|].
    + exists [], (e :: rest). splits; [done..| |].
      * done.
      * eapply linked_ends; [|exact Hm]. done.
    + intros j h Hj. rewrite app_nil_r. eapply push_ok_frame; [by apply R|done|done].
    + intros a. rewrite app_nil_r. apply R.
Qed.

Lemma batch_walk_related B q s ps first last_ item count :
  related B q s ps (BatchWalk first last_ item count) -> advances B q s ps (BatchWalk first last_ item count).
Proof.
  intros R spurious. pose proof (r_main _ _ _ _ _ R) as Hm.
  destruct (r_consumer _ _ _ _ _ R) as (seen & rest & -> & Hhd & Hn & Hr & Hl & HL).
  destruct rest as [|[b cut] rest]; [done|]. pose proof (r_nodup _ _ _ _ _ R) as (Hnd & _ & _)%NoDup_app.
  pose proof Hl as Hl0. rewrite fmap_app in Hl. rewrite !fmap_app in Hnd. unfold plain in Hnd, Hl. rewrite plain_items in Hnd, Hl.
  assert (exists t, seen ++ [item] = first :: t) as [t Ht].
  { destruct seen; cbn in Hhd |- *; simplify_eq; eauto. }
  assert (linked s ps None (Some first) (plain t ++ (b, cut) :: rest)) as HL' by (by rewrite Ht in HL).
  assert (next s !! item = Some (match cut with None => Some b | Some _ => None end)) as Hnext.
  { eapply linked_next; [exact HL'|]. unfold plain. rewrite plain_items.
    change (last (first :: t) = Some item). by rewrite <- Ht, last_snoc. }
  cbn [consumer_step]. unfold load_next. rewrite Hnext. cbn [mbind option_bind].
  do 2 eexists. split; [done|]. destruct cut as [i|]; [by eapply after_more; [exact R|done|done|apply R]|].
  assert (last (b :: rest.*1) = Some last_) as Hlb.
  { rewrite last_app in Hl. cbn [fmap list_fmap fst] in Hl. by destruct (last (b :: rest.*1)) eqn:E; [|apply last_None in E]. }
  apply NoDup_app in Hnd as ((_ & _ & Hnd)%NoDup_app & _ & _).
  assert (b = last_ <-> rest = []) as Hend by (by apply last_iff_nil).
  destruct (Nat.eqb_spec b last_) as [Hb|Hb].
  - pose proof (proj1 Hend Hb) as ->. exists (first :: t ++ [b]), q.
    assert (plain (seen ++ [item]) ++ [(b, None)] = plain (first :: t ++ [b])) as HB.
    { rewrite Ht. unfold plain. by rewrite app_comm_cons, fmap_app. }
    pose proof (f_equal (fun L => L ++ q) HB) as HBq.
    assert (linked s ps None (Some first) (plain (t ++ [b]))) as HLt.
    { unfold plain. rewrite fmap_app. exact HL'. }
    splits; [|exact HBq| |done].
    + cbn [outcome_items]. replace (count + 1) with (S (length (t ++ [b]))).
      * eapply batch_items_plain. exact HLt.
      * apply (f_equal length) in Ht. rewrite length_app in *. cbn in *. lia.
    + eapply related_release; [exact R|exact HBq|done|apply R|exact Hm].
  - split; [done|]. eexists _, q. split; [done|]. eapply related_consumer; [exact R|done|].
    exists (seen ++ [item]), rest. splits.
    + unfold plain. by rewrite (fmap_app _ (seen ++ [item])), <- app_assoc.
    + by rewrite Ht.
    + rewrite length_app. cbn. lia.
    + intros ->. by apply Hb, Hend.
    + exact Hl0.
    + exact HL.
Qed.

Lemma batch_related B q s ps c :
  related B q s ps c ->
  match c with BatchSwapFront | BatchSwapBack _ | BatchWalk _ _ _ _ => True | _ => False end ->
  advances B q s ps c.
Proof.
  intros R Hb. destruct c as [| | | | | | | |first|first last_ item count]; try done.
  - intros spurious. pose proof (r_main _ _ _ _ _ R) as Hm. pose proof (r_consumer _ _ _ _ _ R) as Hc.
    cbn in Hc. subst B. do 2 eexists. split; [done|]. destruct (front s) as [first|] eqn:Hf.
    + destruct (front_linked _ _ _ _ Hm Hf) as (rest & -> & HL). split; [done|].
      exists [], ((first, None) :: rest). split; [done|]. by eapply related_hold.
    + assert (with_front s None = s) as -> by (destruct s; cbn in Hf; by subst).
      by eapply after_empty.
  - by apply batch_back_related.
  - by apply batch_walk_related.
Qed.

Lemma consumer_related B q s ps c : related B q s ps c -> c <> Idle -> advances B q s ps c.
Proof. intros R Hc. destruct c; first [done|by apply pop_related|by apply batch_related]. Qed.

(** *** Starting a push *)
Lemma link_chain_other items d n a : a ∉ items -> link_chain items d n !! a = n !! a.
Proof.
  induction items as [|x items IH]; intros Ha; [done|]. apply not_elem_of_cons in Ha as [Ha ?].
  cbn. by rewrite lookup_insert_ne, IH.
Qed.

Lemma link_chain_in items d n a : a ∈ items -> is_Some (link_chain items d n !! a).
Proof.
  induction items as [|x items IH]; intros Ha; [by apply not_elem_of_nil in Ha|]. cbn.
  destruct (decide (x = a)) as [->|Hne]; [rewrite lookup_insert_eq; eauto|].
  rewrite lookup_insert_ne by done. apply IH. by apply elem_of_cons in Ha as [->|].
Qed.

Lemma link_chain_linked s ps f r d n :
  NoDup (f :: r) -> linked (with_next s (link_chain (f :: r) d n)) ps d (Some f) (plain r).
Proof.
  revert f. induction r as [|x r IH]; intros f Hnd.
  { cbn. apply lookup_insert_eq. }
  apply NoDup_cons in Hnd as [Hf Hnd]. split; [apply lookup_insert_eq|].
  eapply linked_frame; [by apply IH| |done].
  intros p w Hp. change (Some x :: _) with (Some <$> x :: (plain r).*1) in Hp.
  apply list_elem_of_fmap in Hp as (a & -> & Ha). unfold plain in Ha. rewrite plain_items in Ha.
  cbn. rewrite (lookup_insert_ne _ f a); [done|]. by intros ->.
Qed.

Lemma start_push_related B q s ps c items d :
  related B q s ps c -> items <> [] -> NoDup items -> Forall (fun i => next s !! i = None) items ->
  related B q (with_next s (link_chain items d (next s))) (ps ++ [PushSetNull items]) c.
Proof.
  intros R Hne Hnd Hfresh. rewrite Forall_forall in Hfresh.
  assert (live (ps ++ [PushSetNull items]) (B ++ q) ≡ₚ items ++ live ps (B ++ q)) as Hlive.
  { unfold live. rewrite (fmap_app own), List.concat_app. cbn. rewrite app_nil_r. solve_Permutation. }
  assert (forall a, a ∈ live ps (B ++ q) -> a ∉ items) as Hd.
  { intros a Ha%(r_live _ _ _ _ _ R) Ha'. rewrite Hfresh in Ha by done. by destruct Ha. }
  assert (forall a w, a ∉ items -> points s (Some a) w ->
            points (with_next s (link_chain items d (next s))) (Some a) w) as Hs.
  { intros a w Ha. cbn. by rewrite link_chain_other. }
  assert (forall p w, (forall a, p = Some a -> a ∈ live ps (B ++ q)) -> points s p w ->
            points (with_next s (link_chain items d (next s))) p w) as Hp.
  { intros [a|] w Ha; [|done]. apply Hs, Hd, Ha. done. }
  assert (forall i b p, ps !! i = Some (PushLink b p) ->
            (ps ++ [PushSetNull items]) !! i = Some (PushLink b p)) as Hps.
  { intros i b p Hi. by apply lookup_app_l_Some. }
  assert (forall a, a ∈ B.*1 \/ a ∈ q.*1 -> a ∈ live ps (B ++ q)) as Hin.
  { intros a Ha. unfold live. rewrite fmap_app, !elem_of_app. tauto. }
  split.
  - apply R.
  - eapply main_linked_frame; [apply R| |eauto]. intros p w Ha. apply Hp. eauto.
  - eapply consumer_ok_frame; [apply R| |eauto]. intros a w Ha. apply Hp. intros ? [= <-]. eauto.
  - intros j h Hj. apply lookup_snoc_Some in Hj as [[_ Hj]|[_ <-]].
    + eapply push_ok_frame; [by apply R| |done]. intros a w Ha. apply Hp. intros ? [= <-].
      apply elem_of_app. right. by eapply own_concat.
    + destruct items as [|f r]; [done|]. exists f, r, d. split; [done|]. by apply link_chain_linked.
  - rewrite Hlive. apply NoDup_app. splits; [done| |apply R]. intros a Ha Ha'. by apply (Hd a).
  - intros a. rewrite Hlive, elem_of_app, (r_live _ _ _ _ _ R). cbn.
    destruct (decide (a ∈ items)) as [Ha|Ha].
    + split; [by intros _; apply link_chain_in|by left].
    + rewrite link_chain_other by done. tauto.
Qed.

(** ** The system *)
Definition took (evs : list Event) : list nat :=
  evs ≫= fun e => match e with Took items => items | _ => [] end.

Definition system_related (B q : list Entry) (s : System) : Prop :=
  related B q (queue s) (pushes s) (consumer s).

Lemma empty_related : system_related [] [] init.
Proof.
  split; cbn; try done; [apply NoDup_nil_2|]. intros a. unfold live. cbn.
  rewrite lookup_empty. split; [by intros ?%not_elem_of_nil|by intros []].
Qed.

(** Every step of a push under way can be taken. *)
Lemma push_related B q s ps c i h :
  related B q s ps c -> ps !! i = Some h -> h <> PushReturn ->
  exists s' h' B' q', push_step s h = Some (s', h') /\ related B' q' s' (<[i := h']> ps) c /\
    entries_run (match h with PushSwap items => [Pushed i items] | PushLink _ _ => [Linked i] | _ => [] end)
      (B ++ q) (B' ++ q').
Proof.
  intros R Hi Hh. destruct h as [items|items|b p|]; [| | |done].
  - destruct (push_set_null_related _ _ _ _ _ _ _ R Hi) as (s' & Hs & R').
    exists s', (PushSwap items), B, q. splits; [done..|constructor].
  - destruct (push_swap_related _ _ _ _ _ _ _ R Hi) as (s' & h' & Hs & _ & R').
    exists s', h', B, (q ++ entries i items). splits; [done..|].
    apply entries_run_one. rewrite app_assoc. constructor.
  - destruct (push_link_related _ _ _ _ _ _ _ _ R Hi) as (s' & Hs & R').
    exists s', PushReturn, (settle i B), (settle i q). splits; [done..|].
    apply entries_run_one. rewrite <- settle_app. constructor.
Qed.

Lemma consumer_performs B q s sp s' :
  system_related B q s -> perform (ConsumerStep sp) s = Some s' ->
  exists B' q', system_related B' q' s' /\
    entries_run (events (ConsumerStep sp) s s') (B ++ q) (B' ++ q') /\
    taken s' = taken s ++ took (events (ConsumerStep sp) s s').
Proof.
  intros R Hp. unfold perform in Hp.
  assert (consumer s <> Idle) as Hidle by (intros E; by rewrite E in Hp).
  destruct (consumer_related _ _ _ _ _ R Hidle sp) as (q' & r & Hs & Hr).
  rewrite Hs in Hp. cbn [mbind option_bind] in Hp. destruct r as [c'|o].
  - injection Hp as <-. destruct Hr as (Hc' & B' & q0 & HL & R'). exists B', q0. split; [exact R'|].
    cbn [events consumer taken]. rewrite HL. destruct c'; try done; (split; [constructor|by rewrite app_nil_r]).
  - destruct Hr as (items & q0 & Ho & HL & R' & He). rewrite Ho in Hp. cbn [mbind option_bind] in Hp.
    injection Hp as <-. exists [], q0. split; [exact R'|]. cbn [events consumer taken].
    rewrite drop_app_length, HL. destruct items as [|x items].
    + split; [by apply entries_run_one, He|done].
    + split; [by apply entries_run_one; constructor|]. unfold took. cbn. by rewrite app_nil_r.
Qed.

Lemma perform_related B q s a s' :
  system_related B q s -> perform a s = Some s' ->
  exists B' q', system_related B' q' s' /\ entries_run (events a s s') (B ++ q) (B' ++ q') /\
    taken s' = taken s ++ took (events a s s').
Proof.
  intros R Hp. destruct a as [items d| | |i|sp]; [| | | |by apply consumer_performs].
  - cbn in Hp. case_decide as Hok; [|done]. injection Hp as <-. exists B, q.
    split; [|split; [constructor|by rewrite app_nil_r]].
    destruct Hok as (? & ? & ?). by apply start_push_related.
  - cbn in Hp. destruct (consumer s) eqn:E; try done. injection Hp as <-. exists B, q.
    split; [|split; [constructor|by rewrite app_nil_r]].
    red in R. rewrite E in R. eapply related_consumer; [exact R|done|apply R].
  - cbn in Hp. destruct (consumer s) eqn:E; try done. injection Hp as <-. exists B, q.
    split; [|split; [constructor|by rewrite app_nil_r]].
    red in R. rewrite E in R. eapply related_consumer; [exact R|done|apply R].
  - cbn in Hp. destruct (pushes s !! i) as [h|] eqn:Hi; [|done]. cbn [mbind option_bind] in Hp.
    assert (h <> PushReturn) as Hh by (by intros ->).
    destruct (push_related _ _ _ _ _ _ _ R Hi Hh) as (q' & h' & B' & q0 & Hs & R' & Hrun).
    rewrite Hs in Hp. cbn [mbind option_bind] in Hp. injection Hp as <-. exists B', q0. split; [exact R'|].
    cbn [events]. rewrite Hi. destruct h; (split; [exact Hrun|by rewrite app_nil_r]).
Qed.

Lemma schedule_related schedule B q s s' evs :
  system_related B q s -> run schedule s = Some (s', evs) ->
  exists B' q', system_related B' q' s' /\ entries_run evs (B ++ q) (B' ++ q') /\
    taken s' = taken s ++ took evs.
Proof.
  revert B q s evs. induction schedule as [|a schedule IH]; intros B q s evs R Hrun.
  { injection Hrun as <- <-. exists B, q. splits; [done|constructor|by rewrite app_nil_r]. }
  cbn [run] in Hrun. destruct (perform a s) as [s1|] eqn:Hp; [|done]. cbn [mbind option_bind] in Hrun.
  destruct (run schedule s1) as [[s2 evs']|] eqn:Hr; [|done]. injection Hrun as <- <-.
  destruct (perform_related _ _ _ _ _ R Hp) as (B1 & q1 & R1 & H1 & T1).
  destruct (IH _ _ _ _ R1 Hr) as (B2 & q2 & R2 & H2 & T2). exists B2, q2.
  splits; [done|by eapply entries_run_app|].
  by rewrite T2, T1, <- app_assoc; unfold took; rewrite bind_app.
Qed.

(** What the contract says of the nodes alone. *)
Lemma entries_run_fifo evs L1 L2 :
  entries_run evs L1 L2 -> L1.*1 ++ pushed evs = took evs ++ L2.*1.
Proof.
  induction 1 as [L|e evs L1 L2 L3 Hs _ IH]; [by rewrite app_nil_r|].
  destruct Hs; cbn; cbn in IH.
  - rewrite fmap_app, entries_items in IH. by rewrite app_assoc.
  - by rewrite settle_items in IH.
  - rewrite fmap_app, plain_items, <- !app_assoc. by f_equal.
  - exact IH.
  - exact IH.
Qed.

Definition returned (s : System) : Prop := Forall (fun h => h = PushReturn) (pushes s).

(** Without pushes under way there are no cuts. *)
Lemma no_cut B q s b i : system_related B q s -> returned s -> (b, Some i) ∉ B ++ q.
Proof.
  intros R Hret Hin.
  assert (exists p, pushes s !! i = Some (PushLink b p)) as [p Hi].
  { apply elem_of_app in Hin as [Hin|Hin].
    - destruct (batch_linked _ _ _ _ _ (r_consumer _ _ _ _ _ R)) as (_ & first & t & -> & HL).
      { intros ->. by apply not_elem_of_nil in Hin. }
      apply elem_of_cons in Hin as [[=]|Hin]. destruct (linked_cut _ _ _ _ _ _ _ HL Hin) as (p & _ & Hi & _). eauto.
    - destruct (main_linked_cut _ _ _ _ _ _ (r_main _ _ _ _ _ R) Hin) as (p & _ & Hi & _). eauto. }
  unfold returned in Hret. rewrite Forall_lookup in Hret. by specialize (Hret _ _ Hi).
Qed.

(** A [pop_batch] that is done after at most [n] steps when no push is under way. *)
Definition batch_left (B q : list Entry) (c : Consumer) (n : nat) : Prop :=
  match c with
  | BatchSwapFront => n = length q + 1
  | BatchSwapBack _ => n = length q
  | BatchWalk _ _ _ count => n + count = length B /\ q = []
  | _ => False
  end.

Definition settles_to (s s' : System) (B q : list Entry) (n : nat) : Prop :=
  pushes s' = pushes s /\
  (consumer s' = Idle /\ back (queue s') = None /\ 0 < n \/
   exists B' q' n', system_related B' q' s' /\ batch_left B' q' (consumer s') n' /\ n' < n).

Lemma last_nil (q : list Entry) : last q.*1 = None -> q = [].
Proof. intros E%last_None. by apply fmap_nil_inv in E. Qed.

(** The next entry of a walk. *)
Lemma walk_next B q s ps first last_ item count :
  related B q s ps (BatchWalk first last_ item count) ->
  exists b cut, (b, cut) ∈ B /\ next s !! item = Some (match cut with None => Some b | Some _ => None end).
Proof.
  intros R. destruct (r_consumer _ _ _ _ _ R) as (seen & rest & -> & Hhd & _ & Hr & _ & HL).
  destruct rest as [|[b cut] rest]; [done|]. exists b, cut.
  split; [apply elem_of_app; right; left|].
  assert (exists t, seen ++ [item] = first :: t) as [t Ht].
  { destruct seen; cbn in Hhd |- *; simplify_eq; eauto. }
  rewrite Ht in HL. eapply (linked_next s ps None (Some first) item (plain t)); [exact HL|].
  unfold plain. rewrite plain_items. change (last (first :: t) = Some item). by rewrite <- Ht, last_snoc.
Qed.

Lemma settles_done q o s s1 B q0 n :
  consumer_ok_after B q0 (pushes s) q (inr o) -> back q = None -> 0 < n ->
  (items ← outcome_items q o; Some {| queue := release items q; pushes := pushes s; consumer := Idle;
                                       taken := taken s ++ items |}) = s1 ->
  exists s', s1 = Some s' /\ settles_to s s' B q0 n.
Proof.
  intros (items & q' & Ho & _) Hb Hn <-. rewrite Ho. eexists. split; [done|]. split; [done|]. by left.
Qed.

Lemma settles_more q c s B q0 n :
  consumer_ok_after B q0 (pushes s) q (inl c) ->
  (forall B' q', B ++ q0 = B' ++ q' -> related B' q' q (pushes s) c -> exists n', batch_left B' q' c n' /\ n' < n) ->
  settles_to s {| queue := q; pushes := pushes s; consumer := c; taken := taken s |} B q0 n.
Proof.
  intros (_ & B' & q' & HL & R) Hn. split; [done|]. right.
  destruct (Hn _ _ HL R) as (n' & Hn' & Hlt). by exists B', q', n'.
Qed.

Lemma batch_left_front B q s n :
  system_related B q s -> returned s -> consumer s = BatchSwapFront -> n = length q + 1 ->
  exists s', perform (ConsumerStep false) s = Some s' /\ settles_to s s' B q n.
Proof.
  intros R Hret Ec ->. pose proof (r_consumer _ _ _ _ _ R) as HB. rewrite Ec in HB. cbn in HB. subst B.
  destruct (consumer_related _ _ _ _ _ R ltac:(by rewrite Ec) false) as (q1 & r & Hs & Hr).
  unfold perform. rewrite Hs. cbn [mbind option_bind]. rewrite Ec in Hs. cbn in Hs. injection Hs as <- <-.
  pose proof (r_main _ _ _ _ _ R) as Hm. rewrite Ec in Hm.
  destruct (front (queue s)) as [first|] eqn:Ef.
  - eexists. split; [done|]. apply settles_more; [done|]. intros B' q' HL R'.
    pose proof (r_consumer _ _ _ _ _ R') as HB'. cbn in HB', HL. subst B'. rewrite HL. exists (length q').
    cbn. split; [done|lia].
  - eapply settles_done; [done| |lia|done]. cbn. rewrite (r_back _ _ _ _ _ R).
    destruct q as [|[b [i|]] q]; [done| |].
    + destruct (no_cut _ _ _ b i R Hret). left.
    + cbn in Hm. destruct Hm. congruence.
Qed.

Lemma batch_left_back B q s n first :
  system_related B q s -> consumer s = BatchSwapBack first -> n = length q ->
  exists s', perform (ConsumerStep false) s = Some s' /\ settles_to s s' B q n.
Proof.
  intros R Ec ->. pose proof (r_consumer _ _ _ _ _ R) as HB. rewrite Ec in HB. cbn in HB. subst B.
  destruct (consumer_related _ _ _ _ _ R ltac:(by rewrite Ec) false) as (q1 & r & Hs & Hr).
  unfold perform. rewrite Hs. cbn [mbind option_bind]. rewrite Ec in Hs. cbn in Hs.
  destruct (back (queue s)) as [l|] eqn:Eb; [|done]. cbn [mbind option_bind] in Hs. injection Hs as <- <-.
  assert (0 < length q) as Hq.
  { pose proof (r_main _ _ _ _ _ R) as Hm. rewrite Ec in Hm. destruct Hm as (_ & rest & -> & _). cbn. lia. }
  destruct (first =? l); [by eapply settles_done|]. eexists. split; [done|].
  apply settles_more; [done|]. intros B' q' HL R'. pose proof (r_back _ _ _ _ _ R') as Hb'.
  symmetry in Hb'. apply last_nil in Hb' as ->. rewrite app_nil_r in HL. cbn in HL. subst B'.
  pose proof (r_consumer _ _ _ _ _ R') as (seen & rest & HB & _). apply (f_equal length) in HB.
  unfold plain in HB. rewrite !length_app, length_fmap, length_app in HB. cbn in HB.
  exists (length q - 1). cbn. split; [split; [lia|done]|lia].
Qed.

Lemma batch_left_walk B q s n first last_ item count :
  system_related B q s -> returned s -> consumer s = BatchWalk first last_ item count ->
  n + count = length B -> q = [] ->
  exists s', perform (ConsumerStep false) s = Some s' /\ settles_to s s' B q n.
Proof.
  intros R Hret Ec Hn ->.
  destruct (consumer_related _ _ _ _ _ R ltac:(by rewrite Ec) false) as (q1 & r & Hs & Hr).
  unfold perform. rewrite Hs. cbn [mbind option_bind]. rewrite Ec in Hs.
  pose proof (r_back _ _ _ _ _ R) as Hb. cbn in Hb.
  destruct (walk_next _ _ _ _ _ _ _ _ ltac:(red in R; rewrite Ec in R; exact R)) as (b & cut & HbB & Hnext).
  destruct cut as [i|]; [by destruct (no_cut _ _ _ b i R Hret); rewrite app_nil_r|].
  cbn in Hs. unfold load_next in Hs. rewrite Hnext in Hs. cbn [mbind option_bind] in Hs. injection Hs as <- <-.
  assert (0 < n) as H0.
  { pose proof (r_consumer _ _ _ _ _ R) as Hc. rewrite Ec in Hc. destruct Hc as (seen & [|e rest] & -> & _ & Hlen & Hne & _); [done|].
    unfold plain in Hn. rewrite !length_app, length_fmap, length_app in Hn. cbn in Hn. lia. }
  destruct (b =? last_); [by eapply settles_done|]. eexists. split; [done|].
  apply settles_more; [done|]. intros B' q' HL R'. pose proof (r_back _ _ _ _ _ R') as Hb'.
  rewrite Hb in Hb'. symmetry in Hb'. apply last_nil in Hb' as ->. rewrite !app_nil_r in HL. subst B'.
  pose proof (r_consumer _ _ _ _ _ R') as (seen & rest & HB & _ & Hlen & Hne & _). apply (f_equal length) in HB.
  unfold plain in HB. rewrite !length_app, length_fmap, length_app in HB. cbn in HB.
  destruct rest; [done|]. cbn in HB. exists (n - 1). cbn. split; [split; [lia|done]|lia].
Qed.

Lemma batch_settles n : forall B q s,
  system_related B q s -> returned s -> batch_left B q (consumer s) n ->
  exists m s' evs, m <= n /\ run (replicate m (ConsumerStep false)) s = Some (s', evs) /\
    consumer s' = Idle /\ back (queue s') = None.
Proof.
  induction n as [n IH] using lt_wf_ind. intros B q s R Hret Hn.
  assert (exists s', perform (ConsumerStep false) s = Some s' /\ settles_to s s' B q n) as (s' & Hp & Hps & Hs).
  { destruct (consumer s) eqn:Ec; try done; cbn in Hn.
    - by eapply batch_left_front.
    - by eapply batch_left_back.
    - destruct Hn. by eapply batch_left_walk. }
  assert (returned s') as Hret' by (unfold returned; by rewrite Hps).
  destruct Hs as [(Hc & Hb & H0)|(B' & q' & n' & R' & Hn' & Hlt)].
  - exists 1, s'. cbn [replicate run]. rewrite Hp. cbn. eexists. splits; [lia|done..].
  - destruct (IH _ Hlt _ _ _ R' Hret' Hn') as (m & s'' & evs & Hm & Hrun & Hc & Hb).
    exists (S m), s''. eexists. splits; [lia| |done..].
    cbn [replicate run]. rewrite Hp. cbn [mbind option_bind]. rewrite Hrun. done.
Qed.

Lemma consumer_pushes m sp s s' evs :
  run (replicate m (ConsumerStep sp)) s = Some (s', evs) -> pushed evs = [].
Proof.
  revert s evs. induction m as [|m IH]; intros s evs Hrun; [by injection Hrun as _ <-|].
  cbn [replicate run] in Hrun. destruct (perform _ s) as [s1|]; [|done]. cbn [mbind option_bind] in Hrun.
  destruct (run _ s1) as [[s2 evs']|] eqn:Hr; [|done]. injection Hrun as -> <-.
  unfold pushed. rewrite bind_app. fold (pushed evs'). rewrite (IH _ _ Hr), app_nil_r.
  cbn [events]. destruct (consumer s1); try done. by destruct (drop _ _).
Qed.

(** C20. [UnboundedQueue] is a FIFO queue for any number of pushes and one consumer, under
    every interleaving: the nodes pushed so far, in the order in which the pushes
    exchange [back], are the nodes the consumer was given followed by the entries of the
    queue; a [pop] or [pop_batch] finds nothing only if there are no entries or the first
    one is not linked yet; and with the consumer idle [is_empty] is exact. *)
Theorem unbounded_queue_refines schedule s evs :
  run schedule init = Some (s, evs) ->
  exists L, entries_run evs [] L /\ pushed evs = taken s ++ L.*1 /\
    (consumer s = Idle -> is_empty (queue s) = true <-> L = []).
Proof.
  intros Hrun. destruct (schedule_related _ _ _ _ _ _ empty_related Hrun) as (B & q & R & HL & HT).
  exists (B ++ q). cbn in HL, HT. split; [done|]. split.
  { apply entries_run_fifo in HL. by rewrite HT. }
  intros Hc. pose proof (r_consumer _ _ _ _ _ R) as HB. rewrite Hc in HB. cbn in HB. subst B.
  unfold is_empty. rewrite bool_decide_eq_true, (r_back _ _ _ _ _ R). cbn.
  split; [by apply last_nil|by intros ->].
Qed.

(** C21. No call is ever stuck, under any interleaving: a push or pop under way can take its
    next step, so none follows a link of a node that a call has handed out, and the
    assertions that [back] is not null while nodes are taken hold. *)
Theorem unbounded_queue_never_stuck schedule s evs :
  run schedule init = Some (s, evs) ->
  (forall i h, pushes s !! i = Some h -> h <> PushReturn -> is_Some (perform (PushStep i) s)) /\
  (forall spurious, consumer s <> Idle -> is_Some (perform (ConsumerStep spurious) s)).
Proof.
  intros Hrun. destruct (schedule_related _ _ _ _ _ _ empty_related Hrun) as (B & q & R & _). split.
  - intros i h Hi Hh. destruct (push_related _ _ _ _ _ _ _ R Hi Hh) as (q' & h' & _ & _ & Hs & _).
    unfold perform. rewrite Hi. cbn [mbind option_bind]. by rewrite Hs.
  - intros sp Hc. destruct (consumer_related _ _ _ _ _ R Hc sp) as (q' & r & Hs & Hr).
    unfold perform. rewrite Hs. cbn [mbind option_bind]. destruct r as [c|o]; [by eexists|].
    destruct Hr as (items & _ & Ho & _). rewrite Ho. by eexists.
Qed.

(** C22. Once every push has returned, a [pop_batch] waits for nothing: it finishes within one
    step more than there are entries, and with it the consumer has been given every node
    ever pushed, in order. *)
Theorem pop_batch_drains schedule s evs :
  run schedule init = Some (s, evs) -> consumer s = Idle ->
  Forall (fun h => h = PushReturn) (pushes s) ->
  exists n s' evs', n <= length (pushed evs) - length (taken s) + 1 /\
    run (StartBatch :: replicate n (ConsumerStep false)) s = Some (s', evs') /\
    consumer s' = Idle /\ taken s' = pushed evs.
Proof.
  intros Hrun Hc Hret. destruct (schedule_related _ _ _ _ _ _ empty_related Hrun) as (B & q & R & HL & HT).
  pose proof (r_consumer _ _ _ _ _ R) as HB. rewrite Hc in HB. cbn in HB. subst B.
  set (s0 := {| queue := queue s; pushes := pushes s; consumer := BatchSwapFront; taken := taken s |}).
  assert (perform StartBatch s = Some s0) as Hp by (unfold perform; by rewrite Hc).
  destruct (perform_related _ _ _ _ _ R Hp) as (B0 & q0 & R0 & H0 & _).
  pose proof (r_consumer _ _ _ _ _ R0) as HB. cbn in HB. subst B0.
  destruct (batch_settles (length q0 + 1) _ _ _ R0 Hret) as (m & s' & evs' & Hm & Hrun' & Hc' & Hb'); [done|].
  destruct (schedule_related _ _ _ _ _ _ R0 Hrun') as (B' & q' & R' & HL' & HT').
  rewrite (r_back _ _ _ _ _ R') in Hb'. apply last_nil in Hb' as ->.
  pose proof (r_consumer _ _ _ _ _ R') as HB. rewrite Hc' in HB. cbn in HB. subst B'.
  assert (q0 = q) as -> by (by inversion H0).
  apply entries_run_fifo in HL, HL'. rewrite (consumer_pushes _ _ _ _ _ Hrun'), !app_nil_r in HL'.
  cbn in HL, HL'. change (taken s0) with (taken s) in HT'. change (taken s = took evs) in HT. unfold Entry in Hm. exists m, s'. eexists. splits; [| |done|by rewrite HT', HL, HT, <- HL'].
  - rewrite HL, HT, length_app, length_fmap. lia.
  - cbn [run]. rewrite Hp. cbn [mbind option_bind]. rewrite Hrun'. done.
Qed.

(** Two producers and the consumer, with a push caught between its exchange and its link:
    the first [pop] finds nothing, for the cut is in front; the chain of two nodes is
    pushed with a stray last link. *)
Definition sample : list Action :=
  [StartPush [1; 2] (Some 9); StartPush [5] None; PushStep 0; PushStep 1; PushStep 0; PushStep 1;
   StartPop; ConsumerStep false; PushStep 1; PushStep 0;
   StartPop; ConsumerStep false; ConsumerStep false; ConsumerStep true; ConsumerStep false; ConsumerStep false].

Lemma unbounded_queue_refines_witness :
  exists s evs, run sample init = Some (s, evs) /\ taken s = [1] /\
    exists L, entries_run evs [] L /\ pushed evs = taken s ++ L.*1 /\
      (consumer s = Idle -> is_empty (queue s) = true <-> L = []).
Proof.
  do 2 eexists. split; [vm_compute; reflexivity|]. split; [reflexivity|].
  eapply (unbounded_queue_refines sample). vm_compute. reflexivity.
Defined.

Lemma unbounded_queue_never_stuck_witness :
  exists s evs, run (take 5 sample) init = Some (s, evs) /\ pushes s !! 0 = Some (PushLink 1 None) /\
    (forall i h, pushes s !! i = Some h -> h <> PushReturn -> is_Some (perform (PushStep i) s)) /\
    (forall spurious, consumer s <> Idle -> is_Some (perform (ConsumerStep spurious) s)).
Proof.
  do 2 eexists. split; [vm_compute; reflexivity|]. split; [reflexivity|].
  eapply (unbounded_queue_never_stuck (take 5 sample)). vm_compute. reflexivity.
Defined.

Lemma pop_batch_drains_witness :
  exists s evs, run sample init = Some (s, evs) /\ consumer s = Idle /\
    exists n s' evs', n <= length (pushed evs) - length (taken s) + 1 /\
      run (StartBatch :: replicate n (ConsumerStep false)) s = Some (s', evs') /\
      consumer s' = Idle /\ taken s' = pushed evs.
Proof.
  do 2 eexists. split; [vm_compute; reflexivity|]. split; [reflexivity|].
  eapply (pop_batch_drains sample); [vm_compute; reflexivity|reflexivity|].
  repeat constructor.
Defined.
