(* ===== verification/StableSort.v ===== *)
(** * The stable sort, as a specification

    What a stable sort by a total preorder returns is determined: the items in order,
    those that compare equal in the order they had ([stable_sorting]).  [stable_sort]
    computes it. *)

From S2P Require Import Prelude.
From stdpp Require Import sorting.

#[export] Instance comparison_eq_dec : EqDecision comparison.
Proof. solve_decision. Defined.

Section Stable.
Context {A : Type} (cmp : A -> A -> comparison).
Implicit Types (x y z : A) (l : list A).

Definition at_most (x y : A) : Prop := cmp x y <> Gt.
(** The items of [l] that compare equal to [x], in their order. *)
Definition ties (x : A) (l : list A) : list A := filter (fun y => cmp x y = Eq) l.

Definition stable_sorting (l l' : list A) : Prop :=
  StronglySorted at_most l' /\ forall x, ties x l' = ties x l.

(** [x], which was in front of [l], goes in front of what is not less than it. *)
Fixpoint insert_first (x : A) (l : list A) : list A :=
  match l with
  | [] => [x]
  | y :: l' => if bool_decide (cmp x y = Gt) then y :: insert_first x l' else x :: l
  end.
Definition stable_sort (l : list A) : list A := foldr insert_first [] l.

Lemma ties_app x l1 l2 : ties x (l1 ++ l2) = ties x l1 ++ ties x l2.
Proof. apply filter_app. Qed.

Lemma ties_fmap {B} (f : B -> A) x (l : list B) :
  ties x (f <$> l) = f <$> filter (fun i => cmp x (f i) = Eq) l.
Proof.
  induction l as [|i l IH]; [done|]. unfold ties in *. rewrite fmap_cons, !filter_cons, IH.
  by case_decide.
Qed.

Lemma insert_first_perm x l : insert_first x l ≡ₚ x :: l.
Proof.
  induction l as [|y l IH]; cbn; [done|]. case_bool_decide; [|done]. rewrite IH. apply Permutation_swap.
Qed.

Lemma stable_sort_perm l : stable_sort l ≡ₚ l.
Proof. induction l as [|x l IH]; cbn; [done|]. by rewrite insert_first_perm, IH. Qed.

Context `{!CmpLaws cmp}.

#[export] Instance at_most_trans : Transitive at_most.
Proof. exact (cmp_le_trans (compare := cmp)). Qed.

Lemma at_most_or_lt x y : at_most x y \/ cmp y x = Lt.
Proof.
  unfold at_most. rewrite (cmp_flip (compare := cmp) x y). destruct (cmp x y); cbn; auto; left; congruence.
Qed.

Lemma eq_lt_absurd x y z : cmp x y = Eq -> cmp x z = Eq -> cmp y z = Eq.
Proof. intros Hy Hz. rewrite <- (cmp_eq_l cmp x y z Hy). done. Qed.

(** Two blocks without ties between them can change places. *)
Lemma ties_swap x l1 l2 :
  (forall a b, a ∈ l1 -> b ∈ l2 -> cmp a b <> Eq) -> ties x (l1 ++ l2) = ties x (l2 ++ l1).
Proof.
  intros Hne. rewrite !ties_app. destruct (ties x l1) as [|a t] eqn:E1; [by rewrite app_nil_r|].
  assert (Ha : a ∈ ties x l1) by (rewrite E1; left).
  apply list_elem_of_filter in Ha as [Hxa Ha].
  assert (E2 : ties x l2 = []).
  { destruct (ties x l2) as [|b t2] eqn:E2; [done|].
    assert (Hb : b ∈ ties x l2) by (rewrite E2; left).
    apply list_elem_of_filter in Hb as [Hxb Hb]. destruct (Hne a b Ha Hb). by eapply eq_lt_absurd. }
  by rewrite E2, app_nil_r.
Qed.

Lemma insert_first_ties x z l : ties z (insert_first x l) = ties z (x :: l).
Proof.
  induction l as [|y l IH]; cbn [insert_first]; [done|]. case_bool_decide as E; [|done].
  change (ties z ([y] ++ insert_first x l) = ties z ([x] ++ [y] ++ l)).
  rewrite app_assoc, (ties_app z ([x] ++ [y])), (ties_swap z [x] [y]), <- ties_app.
  - rewrite <- app_assoc, (ties_app z [y]), IH, <- ties_app. done.
  - intros a b ->%list_elem_of_singleton ->%list_elem_of_singleton. congruence.
Qed.

Lemma insert_first_sorted x l : StronglySorted at_most l -> StronglySorted at_most (insert_first x l).
Proof.
  induction 1 as [|y l Hs IH Hy]; cbn [insert_first]; [by repeat constructor|].
  case_bool_decide as E.
  - constructor; [done|]. rewrite insert_first_perm. constructor; [|done].
    destruct (at_most_or_lt y x) as [|Hl]; [done|]. congruence.
  - constructor; [by constructor|]. constructor; [done|].
    eapply Forall_impl; [done|]. intros z Hz. by trans y.
Qed.

Lemma stable_sort_ok l : stable_sorting l (stable_sort l).
Proof.
  induction l as [|x l [IHs IHt]]; cbn [stable_sort foldr]; [by split; [constructor|]|].
  split; [by apply insert_first_sorted|]. intros z. rewrite insert_first_ties.
  change (ties z ([x] ++ stable_sort l) = ties z ([x] ++ l)). by rewrite !ties_app, IHt.
Qed.

Lemma ties_elem x l : x ∈ l <-> x ∈ ties x l.
Proof. unfold ties. rewrite list_elem_of_filter, (cmp_refl cmp). naive_solver. Qed.

Lemma ties_cons x y l : ties x (y :: l) = (if decide (cmp x y = Eq) then [y] else []) ++ ties x l.
Proof. unfold ties. rewrite filter_cons. by case_decide. Qed.

Lemma sorted_ties_unique l1 l2 :
  StronglySorted at_most l1 -> StronglySorted at_most l2 -> (forall x, ties x l1 = ties x l2) -> l1 = l2.
Proof.
  intros H1. revert l2. induction H1 as [|x l1 Hs1 IH Hx]; intros l2 H2 Ht.
  { destruct l2 as [|y l2]; [done|]. specialize (Ht y).
    assert (Hy : y ∈ ties y (y :: l2)) by (rewrite <- ties_elem; left).
    rewrite <- Ht in Hy. by apply not_elem_of_nil in Hy. }
  assert (Hmem : forall z, z ∈ x :: l1 <-> z ∈ l2).
  { intros z. by rewrite (ties_elem z (x :: l1)), Ht, <- ties_elem. }
  destruct H2 as [|y l2 Hs2 Hy]; [destruct (not_elem_of_nil x); apply Hmem; left|].
  rewrite Forall_forall in Hx, Hy.
  assert (Hxy : at_most x y).
  { assert (y ∈ x :: l1) as [->|Hin]%elem_of_cons by (apply Hmem; left); [|auto].
    unfold at_most. by rewrite (cmp_refl cmp). }
  assert (Hyx : at_most y x).
  { assert (x ∈ y :: l2) as [->|Hin]%elem_of_cons by (apply Hmem; left); [|auto].
    unfold at_most. by rewrite (cmp_refl cmp). }
  assert (E : cmp x y = Eq).
  { unfold at_most in *. rewrite (cmp_flip (compare := cmp) x y) in Hyx. by destruct (cmp x y). }
  pose proof (Ht x) as Hxt. rewrite !ties_cons, (cmp_refl cmp) in Hxt.
  rewrite !decide_True in Hxt by done. injection Hxt as Exy _. subst y. f_equal.
  apply IH; [done|]. intros z. specialize (Ht z). rewrite !ties_cons in Ht.
  by apply app_inv_head in Ht.
Qed.

Lemma stable_sorting_unique l l' : stable_sorting l l' -> l' = stable_sort l.
Proof.
  intros [Hs Ht]. destruct (stable_sort_ok l) as [Hs2 Ht2].
  apply sorted_ties_unique; [done..|]. intros x. by rewrite Ht, Ht2.
Qed.

Lemma stable_sorting_perm l l' : stable_sorting l l' -> l ≡ₚ l'.
Proof. intros ->%stable_sorting_unique. by rewrite stable_sort_perm. Qed.
End Stable.
