(* ===== verification/IndexSort.v ===== *)
(** * The index sorts of collections/index_sort.rs

    Vectors and slices are sorted by sorting an array of [u32] indices and applying it
    as a permutation.  Besides the standard library's sorts there are two merge sorts
    for comparisons that need not be orders: [merge_sort_indices] and Go's stable sort.

    The comparison is an [FnMut]: a step on a state of its own that may panic, in the
    monad [M].  [None] is a panic, or a loop out of fuel.  The standard library's
    [sort_by] is documented for total orders only, where its result is the stable
    sort: [stable_sort] stands for it, and is used for lawful comparisons alone. *)

From S2P Require Import Prelude StableSort.
From stdpp Require Import sorting.

#[local] Open Scope nat_scope.

(** ** A state and failure monad *)
Definition M (St A : Type) : Type := St -> option (A * St).
#[export] Instance M_ret St : MRet (M St) := fun A a s => Some (a, s).
#[export] Instance M_bind St : MBind (M St) := fun A B k m s => '(a, s) ← m s; k a s.
Definition panic {St A} : M St A := fun s => None.
(** An operation that does not compare, and panics on [None]. *)
Definition lift {St A} (o : option A) : M St A := fun s => a ← o; Some (a, s).

(** ** Slices *)
(** [l.rotate_left(k)] and [l.rotate_right(k)] *)
Definition rotate_left {A} (k : nat) (l : list A) : option (list A) :=
  if k <=? length l then Some (drop k l ++ take k l) else None.
Definition rotate_right {A} (k : nat) (l : list A) : option (list A) :=
  if k <=? length l then rotate_left (length l - k) l else None.
(** [f(&mut l[lo..hi])] *)
Definition in_slice {A} (f : list A -> option (list A)) (lo hi : nat) (l : list A) : option (list A) :=
  mid ← slice_range l lo hi;
  mid ← f mid;
  Some (take lo l ++ mid ++ drop hi l).
(** [l[lo..hi].copy_from_slice(src)] *)
Definition copy_from_slice {A} (l : list A) (lo hi : nat) (src : list A) : option (list A) :=
  in_slice (fun mid => if length mid =? length src then Some src else None) lo hi l.
(** [l[i] = x] *)
Definition assign {A} (l : list A) (i : nat) (x : A) : option (list A) :=
  if i <? length l then Some (<[i := x]> l) else None.
(** [l.swap(i, j)] *)
Definition swap {A} (l : list A) (i j : nat) : option (list A) :=
  x ← l !! i; y ← l !! j; Some (<[j := x]> (<[i := y]> l)).

Definition is_less (c : comparison) : bool := match c with Lt => true | _ => false end.

Section Sorts.
Context {St : Type} (compare : Z -> Z -> M St comparison).

(** [for chunk in l.chunks_mut(size) { f(chunk) }] *)
Fixpoint chunks_mut (fuel size : nat) (f : list Z -> M St (list Z)) (l : list Z) : M St (list Z) :=
  match l, fuel with
  | [], _ => mret []
  | _, O => panic
  | _, S fuel =>
      chunk ← f (take size l);
      rest ← chunks_mut fuel size f (drop size l);
      mret (chunk ++ rest)
  end.

(** The inner loop of [insertion_sort]: where [x], the item at the end, goes. *)
Fixpoint insertion_at (run : list Z) (x : Z) (at_ : nat) : M St nat :=
  match at_ with
  | O => mret O
  | S at' =>
      y ← lift (run !! at');
      c ← compare x y;
      if is_less c then insertion_at run x at' else mret at_
  end.
Fixpoint insertion_loop (ends : list nat) (run : list Z) : M St (list Z) :=
  match ends with
  | [] => mret run
  | end_ :: ends =>
      x ← lift (run !! end_);
      at_ ← insertion_at run x end_;
      run ← lift (in_slice (rotate_right 1) at_ (S end_) run);
      insertion_loop ends run
  end.
Definition insertion_sort (run : list Z) : M St (list Z) :=
  insertion_loop (seq 1 (length run - 1)) run.

(** [while width < indices.len() { .. width *= 2 }] *)
Fixpoint doubling (fuel : nat) (pass : nat -> list Z -> M St (list Z)) (width : nat) (indices : list Z) :
    M St (list Z) :=
  if width <? length indices then
    match fuel with
    | O => panic
    | S fuel =>
        indices ← pass width indices;
        doubling fuel pass (width * 2) indices
    end
  else mret indices.

Fixpoint merge_loop (fuel : nat) (left : list Z) (middle : nat) (both : list Z) (from_left from_right to : nat) :
    M St (list Z * nat * nat * nat) :=
  if (from_left <? middle) && (from_right <? length both) then
    match fuel with
    | O => panic
    | S fuel =>
        r ← lift (both !! from_right);
        l ← lift (left !! from_left);
        c ← compare r l;
        if is_less c then
          both ← lift (assign both to r);
          merge_loop fuel left middle both from_left (from_right + 1) (to + 1)
        else
          both ← lift (assign both to l);
          merge_loop fuel left middle both (from_left + 1) from_right (to + 1)
    end
  else mret (both, from_left, from_right, to).

Definition merge (both : list Z) (middle : nat) : M St (list Z) :=
  if length both <=? middle then mret both else
  a ← lift (both !! middle);
  b ← lift (both !! (middle - 1));
  c ← compare a b;
  if negb (is_less c) then mret both else
  left ← lift (slice_range both 0 middle);
  '(both, from_left, from_right, to) ← merge_loop (length both) left middle both 0 middle 0;
  rest ← lift (slice_from left from_left);
  lift (copy_from_slice both to from_right rest).

Definition INSERTION_RUN : nat := 20.
Definition merge_sort (indices : list Z) : M St (list Z) :=
  indices ← chunks_mut (length indices) INSERTION_RUN insertion_sort indices;
  doubling (length indices)
    (fun width => chunks_mut (length indices) (2 * width) (fun both => merge both width))
    INSERTION_RUN indices.

(** [while low < high { at = (low + high) / 2; .. }]; [goes_right] says to set [low]. *)
Fixpoint bisect (fuel : nat) (goes_right : nat -> M St bool) (low high : nat) : M St nat :=
  if low <? high then
    match fuel with
    | O => panic
    | S fuel =>
        let at_ := (low + high) / 2 in
        b ← goes_right at_;
        if b : bool then bisect fuel goes_right (at_ + 1) high else bisect fuel goes_right low at_
    end
  else mret low.

(** The question of a search: [compare(both[i], both[j])]. *)
Definition less_at (both : list Z) (i j : nat) : M St bool :=
  a ← lift (both !! i);
  b ← lift (both !! j);
  c ← compare a b;
  mret (is_less c).

Fixpoint sym_merge (fuel : nat) (both : list Z) (middle : nat) : M St (list Z) :=
  match fuel with
  | O => panic
  | S fuel =>
      let len := length both in
      if middle =? 1 then
        low ← bisect len (fun at_ => less_at both at_ 0) 1 len;
        lift (in_slice (rotate_left 1) 0 low both)
      else if middle + 1 =? len then
        low ← bisect len (fun at_ => b ← less_at both middle at_; mret (negb b)) 0 middle;
        lift (in_slice (rotate_right 1) low len both)
      else
        let half := len / 2 in
        let sum := half + middle in
        let '(start, stop) := if half <? middle then (sum - len, half) else (0, middle) in
        start ← bisect len (fun at_ => b ← less_at both (sum - 1 - at_) at_; mret (negb b)) start stop;
        let end_ := sum - start in
        both ← lift (if (start <? middle) && (middle <? end_)
                     then in_slice (rotate_left (middle - start)) start end_ both else Some both);
        first ← lift (slice_range both 0 half);
        second ← lift (slice_from both half);
        first ← (if (0 <? start) && (start <? half) then sym_merge fuel first start else mret first);
        second ← (if (half <? end_) && (end_ <? len) then sym_merge fuel second (end_ - half) else mret second);
        mret (first ++ second)
  end.

Definition GO_BLOCK : nat := 20.
Definition go_stable_sort (indices : list Z) : M St (list Z) :=
  indices ← chunks_mut (length indices) GO_BLOCK insertion_sort indices;
  doubling (length indices)
    (fun width => chunks_mut (length indices) (2 * width)
      (fun both => if width <? length both then sym_merge (length both) both width else mret both))
    GO_BLOCK indices.

(** [0..len as u32] *)
Definition identity (len : nat) : option (list Z) :=
  if (Z.of_nat len <=? u32_max)%Z then Some (seqZ 0 (Z.of_nat len)) else None.
Definition merge_sorted (len : nat) : M St (list Z) := order ← lift (identity len); merge_sort order.
Definition go_stable_sorted (len : nat) : M St (list Z) := order ← lift (identity len); go_stable_sort order.
End Sorts.

(** [indices.sort_by(..)] of the standard library, on a total order: every stable sort
    is the same function, and this one is by insertion. *)
Definition sort_stable {St} (compare : Z -> Z -> M St comparison) (indices : list Z) : M St (list Z) :=
  insertion_sort compare indices.
Definition sorted {St} (compare : Z -> Z -> M St comparison) (len : nat) : M St (list Z) :=
  order ← lift (identity len); sort_stable compare order.

(** ** Permutations of items *)
Definition DONE : Z := u32_max.

Section Items.
Context {T : Type}.

(** [order.iter().map(|&i| taken[i].take().expect(..))] *)
Fixpoint take_each (taken : list (option T)) (order : list Z) : option (list T) :=
  match order with
  | [] => Some []
  | i :: order =>
      cell ← taken !! Z.to_nat i;
      x ← cell;
      xs ← take_each (<[Z.to_nat i := None]> taken) order;
      Some (x :: xs)
  end.
Definition apply_permutation (items : list T) (order : list Z) : option (list T) :=
  if length items =? length order then take_each (Some <$> items) order else None.

(** One cycle of [apply_permutation_in_place], from [cur] back to [start]. *)
Fixpoint follow_cycle (fuel : nat) (items : list T) (order : list Z) (start cur : nat) :
    option (list T * list Z) :=
  match fuel with
  | O => None
  | S fuel =>
      i ← order !! cur;
      let next := Z.to_nat i in
      order ← assign order cur DONE;
      if next =? start then Some (items, order)
      else items ← swap items cur next; follow_cycle fuel items order start next
  end.
Fixpoint cycles (starts : list nat) (items : list T) (order : list Z) : option (list T * list Z) :=
  match starts with
  | [] => Some (items, order)
  | start :: starts =>
      i ← order !! start;
      if (i =? DONE)%Z then cycles starts items order
      else '(items, order) ← follow_cycle (length items) items order start start;
           cycles starts items order
  end.
Definition apply_permutation_in_place (items : list T) (order : list Z) : option (list T) :=
  if length items =? length order then fst <$> cycles (seq 0 (length items)) items order else None.

(** *** The sorts of vectors and slices *)
Section By.
Context {St : Type}.
Implicit Types cmp : T -> T -> M St comparison.

Definition compare_items cmp (items : list T) (a b : Z) : M St comparison :=
  x ← lift (items !! Z.to_nat a);
  y ← lift (items !! Z.to_nat b);
  cmp x y.

Definition sort_vec_by cmp (items : list T) : M St (list T) :=
  if length items <? 2 then mret items else
  order ← sorted (compare_items cmp items) (length items);
  lift (apply_permutation items order).
Definition sort_slice_by cmp (items : list T) : M St (list T) :=
  if length items <? 2 then mret items else
  order ← sorted (compare_items cmp items) (length items);
  lift (apply_permutation_in_place items order).
Definition merge_sort_slice_by cmp (items : list T) : M St (list T) :=
  if length items <? 2 then mret items else
  order ← merge_sorted (compare_items cmp items) (length items);
  lift (apply_permutation_in_place items order).
Definition go_stable_sort_slice_by cmp (items : list T) : M St (list T) :=
  if length items <? 2 then mret items else
  order ← go_stable_sorted (compare_items cmp items) (length items);
  lift (apply_permutation_in_place items order).

Definition sort_slice_by_key {K} (key : T -> M St K) (cmp : K -> K -> comparison) (items : list T) :
    M St (list T) :=
  sort_slice_by (fun a b => x ← key a; y ← key b; mret (cmp x y)) items.

(** [items.iter().map(key).collect()] *)
Fixpoint map_each {A B} (f : A -> M St B) (l : list A) : M St (list B) :=
  match l with
  | [] => mret []
  | x :: l => y ← f x; ys ← map_each f l; mret (y :: ys)
  end.

(** The loop of [stable_partition], at item [i]. *)
Fixpoint partition_loop (pred : T -> M St bool) (at_ : list nat) (items : list T) (front : nat) :
    M St (list T * nat) :=
  match at_ with
  | [] => mret (items, front)
  | i :: at_ =>
      x ← lift (items !! i);
      b ← pred x;
      if b : bool then
        items ← lift (in_slice (rotate_right 1) front (S i) items);
        partition_loop pred at_ items (S front)
      else partition_loop pred at_ items front
  end.
Definition stable_partition (pred : T -> M St bool) (items : list T) : M St (list T * nat) :=
  partition_loop pred (seq 0 (length items)) items 0.
End By.
End Items.

(** The keys are compared by index, so their sort is one of items of their own. *)
Definition sort_slice_by_cached_key {T K St} (key : T -> M St K) (cmp : K -> K -> comparison)
    (items : list T) : M St (list T) :=
  if length items <? 2 then mret items else
  keys ← map_each key items;
  order ← sorted (compare_items (fun x y => mret (cmp x y)) keys) (length items);
  lift (apply_permutation_in_place items order).
Definition sort_slice {T St} (cmp : T -> T -> comparison) (items : list T) : M St (list T) :=
  sort_slice_by (fun x y => mret (cmp x y)) items.

(** The sorts run: a comparison by the last digit, stable on the others. *)
Example merge_sort_runs :
  merge_sort_slice_by (St := nat) (fun x y n => Some (Z.compare (x mod 10) (y mod 10), S n))
    [25; 31; 14; 21; 9; 15; 4; 0]%Z 0 = Some ([0; 31; 21; 14; 4; 25; 15; 9]%Z, 20).
Proof. vm_compute. reflexivity. Qed.
Example go_sort_runs :
  fst <$> go_stable_sort_slice_by (St := nat) (fun x y n => Some (Z.compare (y / 10) (x / 10), S n))
    (seqZ 0 99) 0 = Some (concat ((fun d => seqZ (10 * d) (if (d =? 9) then 9 else 10)) <$> rev (seqZ 0 10)))%Z.
Proof. vm_compute. reflexivity. Qed.

(** ** Reasoning about a comparing program

    [runs m Q]: from every state, [m] does not panic and its result satisfies [Q]. *)
Definition runs {St A} (m : M St A) (Q : A -> Prop) : Prop :=
  forall s, exists a s', m s = Some (a, s') /\ Q a.

Section Runs.
Context {St : Type}.

Lemma runs_ret {A} (a : A) (Q : A -> Prop) : Q a -> runs (St := St) (mret a) Q.
Proof. intros H s. by exists a, s. Qed.

Lemma runs_bind {A B} (m : M St A) (k : A -> M St B) (P : A -> Prop) (Q : B -> Prop) :
  runs m P -> (forall a, P a -> runs (k a) Q) -> runs (m ≫= k) Q.
Proof.
  intros Hm Hk s. destruct (Hm s) as (a & s1 & E & Ha). destruct (Hk a Ha s1) as (b & s2 & E2 & Hb).
  exists b, s2. split; [|done]. unfold mbind, M_bind. by rewrite E.
Qed.

Lemma runs_lift {A} (o : option A) a (Q : A -> Prop) : o = Some a -> Q a -> runs (St := St) (lift o) Q.
Proof. intros -> H s. by exists a, s. Qed.

Lemma runs_lift_bind {A B} (o : option A) a (k : A -> M St B) (Q : B -> Prop) :
  o = Some a -> runs (k a) Q -> runs (lift o ≫= k) Q.
Proof. intros Ho Hk. eapply runs_bind; [by apply (runs_lift o a (eq a))|by intros ? <-]. Qed.

Lemma runs_weaken {A} (m : M St A) (P Q : A -> Prop) : runs m P -> (forall a, P a -> Q a) -> runs m Q.
Proof. intros Hm H s. destruct (Hm s) as (a & s' & E & Ha). eauto. Qed.
End Runs.

(** *** Slices that do not panic *)
Lemma in_slice_app {A} (f : list A -> option (list A)) l1 l2 l3 l2' lo hi :
  lo = length l1 -> hi = length l1 + length l2 -> f l2 = Some l2' ->
  in_slice f lo hi (l1 ++ l2 ++ l3) = Some (l1 ++ l2' ++ l3).
Proof.
  intros -> -> Hf. unfold in_slice.
  rewrite slice_range_Some by (rewrite ?length_app; lia).
  rewrite drop_app_length. replace (length l1 + length l2 - length l1) with (length l2) by lia.
  rewrite (take_app_length l2). cbn [mbind option_bind]. rewrite Hf. cbn [mbind option_bind].
  rewrite take_app_length. do 3 f_equal.
  rewrite <- drop_drop, !drop_app_length. done.
Qed.

Lemma rotate_right_snoc {A} (l : list A) x : rotate_right 1 (l ++ [x]) = Some (x :: l).
Proof.
  unfold rotate_right, rotate_left. rewrite length_app. cbn [length].
  destruct (Nat.leb_spec 1 (length l + 1)); [|lia].
  destruct (Nat.leb_spec (length l + 1 - 1) (length l + 1)); [|lia].
  replace (length l + 1 - 1) with (length l) by lia. by rewrite drop_app_length, take_app_length.
Qed.

Lemma rotate_left_app {A} (l1 l2 : list A) : rotate_left (length l1) (l1 ++ l2) = Some (l2 ++ l1).
Proof.
  unfold rotate_left. rewrite length_app. destruct (Nat.leb_spec (length l1) (length l1 + length l2)); [|lia].
  by rewrite drop_app_length, take_app_length.
Qed.

Lemma copy_from_slice_app {A} (l1 l2 l3 src : list A) lo hi :
  lo = length l1 -> hi = length l1 + length l2 -> length l2 = length src ->
  copy_from_slice (l1 ++ l2 ++ l3) lo hi src = Some (l1 ++ src ++ l3).
Proof.
  intros -> -> El. unfold copy_from_slice. apply in_slice_app; [done..|]. by rewrite El, Nat.eqb_refl.
Qed.

Lemma assign_app {A} (l1 l2 : list A) x y i :
  i = length l1 -> assign (l1 ++ x :: l2) i y = Some (l1 ++ y :: l2).
Proof.
  intros ->. unfold assign. rewrite length_app. cbn [length].
  destruct (Nat.ltb_spec (length l1) (length l1 + S (length l2))); [|lia].
  by rewrite insert_app_r_alt, Nat.sub_diag by lia.
Qed.

(** ** What the merge sorts do, for whatever the comparison answers

    [possible a b c]: comparing the valid indices [a] and [b] may answer [c]. *)
Section Answers.
Context {St : Type} (compare : Z -> Z -> M St comparison).
Context (valid : Z -> Prop) (possible : Z -> Z -> comparison -> Prop).
Context (Hcompare : forall a b, valid a -> valid b -> runs (compare a b) (possible a b)).

Definition less (x y : Z) : Prop := possible x y Lt.
Definition not_less (x y : Z) : Prop := exists c, c <> Lt /\ possible x y c.

(** [x] goes into the run [l], behind the last item that it is not less than. *)
Definition inserted (x : Z) (l l' : list Z) : Prop :=
  exists l1 l2, l = l1 ++ l2 /\ l' = l1 ++ x :: l2 /\ Forall (less x) l2 /\
    forall y, last l1 = Some y -> not_less x y.

Inductive inserted_all : list Z -> list Z -> Prop :=
| inserted_none : inserted_all [] []
| inserted_snoc l l' x l'' : inserted_all l l' -> inserted x l' l'' -> inserted_all (l ++ [x]) l''.

Inductive merged : list Z -> list Z -> list Z -> Prop :=
| merged_left l : merged l [] l
| merged_right r : merged [] r r
| merged_take_right x l y r m : less y x -> merged (x :: l) r m -> merged (x :: l) (y :: r) (y :: m)
| merged_take_left x l y r m : not_less y x -> merged l (y :: r) m -> merged (x :: l) (y :: r) (x :: m).

(** What [merge] makes of two runs: it looks at the place where they meet first. *)
Definition merge_out (l r m : list Z) : Prop :=
  exists x y, last l = Some x /\ head r = Some y /\
    (not_less y x /\ m = l ++ r \/ less y x /\ merged l r m).

Lemma compare_spec a b {B} (k : comparison -> M St B) R :
  valid a -> valid b ->
  (less a b -> runs (k Lt) R) -> (forall c, is_less c = false -> not_less a b -> runs (k c) R) ->
  runs (compare a b ≫= k) R.
Proof.
  intros Ha Hb Hl Hn. eapply runs_bind; [by apply Hcompare|]. intros c Hc.
  destruct c; [|by apply Hl|]; (apply Hn; [done|]); by eexists; split; [|done].
Qed.

Lemma insertion_at_spec run x at_ :
  valid x -> Forall valid run -> at_ <= length run ->
  runs (insertion_at compare run x at_) (fun k => k <= at_ /\
    Forall (less x) (drop k (take at_ run)) /\ (forall y, last (take k run) = Some y -> not_less x y)).
Proof.
  intros Hx Hv. induction at_ as [|at_ IH]; intros Hle; cbn [insertion_at].
  { apply runs_ret. splits; [done|by rewrite drop_0|done]. }
  destruct (lookup_lt_is_Some_2 run at_) as [y Hy]; [lia|].
  eapply runs_lift_bind; [done|].
  apply (compare_spec x y); [done|by eapply Forall_lookup_1| |].
  - intros Hless. cbn [is_less]. eapply runs_weaken; [apply IH; lia|].
    intros k (Hk & Hf & Hl). splits; [lia| |done].
    rewrite (take_S_r _ _ _ Hy), drop_app_le by (rewrite length_take; lia).
    apply Forall_app. split; [done|]. by apply Forall_singleton.
  - intros c -> Hn. apply runs_ret. splits; [done|rewrite drop_ge; [done|rewrite length_take; lia]|].
    rewrite (take_S_r _ _ _ Hy), last_snoc. by intros ? [= <-].
Qed.

Lemma insertion_step_spec p x q {B} (k : list Z -> M St B) R :
  valid x -> Forall valid p -> Forall valid q ->
  (forall p', inserted x p p' -> runs (k (p' ++ q)) R) ->
  runs (at_ ← insertion_at compare (p ++ x :: q) x (length p);
        run ← lift (in_slice (rotate_right 1) at_ (S (length p)) (p ++ x :: q)); k run) R.
Proof.
  intros Hx Hp Hq Hk. eapply runs_bind.
  { apply insertion_at_spec; [done| |rewrite length_app; lia].
    apply Forall_app. split; [done|]. by constructor. }
  intros at_ (Hle & Hless & Hlast). cbn beta in Hless.
  rewrite take_app_length in Hless. rewrite take_app_le in Hlast by done.
  eapply runs_lift_bind.
  { replace (p ++ x :: q) with (take at_ p ++ (drop at_ p ++ [x]) ++ q).
    2: { rewrite <- app_assoc. cbn [app]. by rewrite app_assoc, take_drop. }
    apply in_slice_app; [rewrite length_take; lia| |apply rotate_right_snoc].
    rewrite length_app, length_take, length_drop. cbn. lia. }
  specialize (Hk (take at_ p ++ x :: drop at_ p)). rewrite <- app_assoc in Hk.
  apply Hk. exists (take at_ p), (drop at_ p). by rewrite take_drop.
Qed.

Lemma inserted_valid x l l' : inserted x l l' -> valid x -> Forall valid l -> Forall valid l'.
Proof.
  intros (l1 & l2 & -> & -> & _) Hx [H1 H2]%Forall_app. apply Forall_app. split; [done|by constructor].
Qed.

Lemma inserted_length x l l' : inserted x l l' -> length l' = S (length l).
Proof. intros (l1 & l2 & -> & -> & _). rewrite !length_app. cbn. lia. Qed.

Lemma insertion_loop_spec p p' q :
  inserted_all p p' -> Forall valid p' -> Forall valid q ->
  runs (insertion_loop compare (seq (length p') (length q)) (p' ++ q)) (inserted_all (p ++ q)).
Proof.
  revert p p'. induction q as [|x q IH]; intros p p' Hp Hv Hq.
  { cbn. rewrite !app_nil_r. by apply runs_ret. }
  inversion_clear Hq as [|? ? Hx Hq'].
  cbn [length seq insertion_loop]. eapply runs_lift_bind; [by apply list_lookup_middle|].
  apply insertion_step_spec; [done..|]. intros p'' Hins.
  rewrite <- (inserted_length _ _ _ Hins).
  replace (p ++ x :: q) with ((p ++ [x]) ++ q) by (by rewrite <- app_assoc).
  apply IH; [by eapply inserted_snoc|by eapply inserted_valid|done].
Qed.

Lemma insertion_sort_spec run :
  Forall valid run -> runs (insertion_sort compare run) (inserted_all run).
Proof.
  intros Hv. unfold insertion_sort. destruct run as [|x run]; [apply runs_ret; constructor|].
  inversion_clear Hv as [|? ? Hx Hv']. cbn [length].
  replace (S (length run) - 1) with (length run) by lia.
  apply (insertion_loop_spec [x] [x] run); [|by constructor|done].
  apply (inserted_snoc [] [] x [x]); [constructor|].
  by exists [], [].
Qed.

(** Between what is merged and what is left of the right run there is room for what is
    left of the left one. *)
Lemma merge_loop_spec fuel done_left l out junk r :
  length junk = length l -> length l + length r <= fuel -> Forall valid l -> Forall valid r ->
  runs (merge_loop compare fuel (done_left ++ l) (length (done_left ++ l)) (out ++ junk ++ r)
          (length done_left) (length out + length junk) (length out))
    (fun '(both, from_left, from_right, to) => exists m rest,
      slice_from (done_left ++ l) from_left = Some rest /\
      copy_from_slice both to from_right rest = Some (out ++ m) /\ merged l r m).
Proof.
  revert done_left l out junk r.
  induction fuel as [|fuel IH]; intros done_left l out junk r Hj Hf Hl Hr;
    cbn [merge_loop]; rewrite !length_app.
  { destruct l, r; cbn in Hf; try lia. destruct junk; [|done]. cbn [length].
    rewrite Nat.add_0_r, Nat.ltb_irrefl. cbn [andb]. apply runs_ret. exists [], [].
    rewrite slice_from_Some, drop_app_length by (rewrite length_app; lia).
    splits; [done| |constructor]. by apply (copy_from_slice_app out []). }
  destruct l as [|x l].
  { destruct junk; [|done]. cbn [length].
    rewrite Nat.add_0_r, Nat.ltb_irrefl. cbn [andb]. apply runs_ret. exists r, [].
    rewrite slice_from_Some, drop_app_length by (rewrite length_app; lia).
    splits; [done| |constructor]. by apply (copy_from_slice_app out []). }
  destruct r as [|y r].
  { cbn [length]. rewrite Nat.add_0_r.
    replace (length out + length junk <? length out + length junk) with false by (symmetry; apply Nat.ltb_irrefl).
    rewrite andb_false_r. apply runs_ret. exists (x :: l), (x :: l).
    rewrite slice_from_Some, drop_app_length by (rewrite length_app; lia).
    splits; [done| |constructor].
    pose proof (copy_from_slice_app out junk [] (x :: l)) as Hc. rewrite !app_nil_r in Hc. rewrite app_nil_r. by apply Hc. }
  destruct junk as [|j junk]; [done|]. cbn [length] in *.
  inversion_clear Hl as [|? ? Hx Hl']. inversion_clear Hr as [|? ? Hy Hr'].
  destruct (Nat.ltb_spec (length done_left) (length done_left + S (length l))); [|lia].
  destruct (Nat.ltb_spec (length out + S (length junk)) (length out + S (length junk) + S (length r))); [|lia].
  replace (length out + (S (length junk) + S (length r))) with (length out + S (length junk) + S (length r)) by lia.
  destruct (Nat.ltb_spec (length out + S (length junk)) (length out + S (length junk) + S (length r))); [|lia].
  cbn [andb].
  eapply runs_lift_bind.
  { rewrite app_assoc. apply list_lookup_middle. rewrite length_app. cbn. lia. }
  eapply runs_lift_bind; [by apply list_lookup_middle|].
  apply (compare_spec y x); [done..| |].
  - intros Hless. cbn [is_less app]. eapply runs_lift_bind; [by apply assign_app|].
    specialize (IH done_left (x :: l) (out ++ [y]) (junk ++ [y]) r).
    rewrite !length_app in IH. cbn [length] in IH.
    replace (length out + S (length junk) + 1) with (length out + 1 + (length junk + 1)) by lia.
    replace (out ++ y :: junk ++ y :: r) with ((out ++ [y]) ++ (junk ++ [y]) ++ r) by (by rewrite <- !app_assoc).
    eapply runs_weaken; [apply IH; [lia|lia|by constructor|done]|].
    intros [[[both fl] fr] to] (m & rest & Hs & Hc & Hm). exists (y :: m), rest.
    rewrite <- (app_assoc out) in Hc. splits; [done..|by constructor].
  - intros c -> Hn. cbn [app]. eapply runs_lift_bind; [by apply assign_app|].
    specialize (IH (done_left ++ [x]) l (out ++ [x]) junk (y :: r)).
    rewrite !length_app in IH. cbn [length] in IH.
    replace (length out + S (length junk)) with (length out + 1 + length junk) by lia.
    replace (length done_left + S (length l)) with (length done_left + 1 + length l) by lia.
    replace (out ++ x :: junk ++ y :: r) with ((out ++ [x]) ++ junk ++ y :: r) by (by rewrite <- !app_assoc).
    replace (done_left ++ x :: l) with ((done_left ++ [x]) ++ l) by (by rewrite <- !app_assoc).
    eapply runs_weaken; [apply IH; [lia|cbn; lia|done|by constructor]|].
    intros [[[both fl] fr] to] (m & rest & Hs & Hcp & Hm). exists (x :: m), rest.
    rewrite <- (app_assoc out) in Hcp. splits; [done..|by constructor].
Qed.

Lemma merge_spec l r :
  l <> [] -> r <> [] -> Forall valid l -> Forall valid r ->
  runs (merge compare (l ++ r) (length l)) (merge_out l r).
Proof.
  intros Hl Hr Hvl Hvr. unfold merge. rewrite length_app.
  destruct r as [|y r]; [done|]. destruct l as [|x l] using rev_ind; [done|]. clear IHl.
  cbn [length]. destruct (Nat.leb_spec (length (l ++ [x]) + S (length r)) (length (l ++ [x]))); [lia|].
  pose proof Hvl as [_ Hx]%Forall_app. apply Forall_inv in Hx.
  pose proof (Forall_inv Hvr) as Hy.
  eapply runs_lift_bind; [by apply list_lookup_middle|].
  eapply runs_lift_bind.
  { rewrite lookup_app_l, length_app by (rewrite length_app; cbn; lia). cbn [length].
    replace (length l + 1 - 1) with (length l) by lia. by apply list_lookup_middle. }
  apply (compare_spec y x); [done..| |].
  - intros Hless. cbn [is_less negb].
    eapply runs_lift_bind.
    { rewrite slice_range_Some by (rewrite ?length_app; cbn; lia).
      rewrite Nat.sub_0_r, drop_0, take_app_length. done. }
    eapply runs_bind.
    { apply (merge_loop_spec _ [] (l ++ [x]) [] (l ++ [x]) (y :: r)); [done|cbn; lia|done..]. }
    intros [[[both fl] fr] to] (m & rest & Hs & Hc & Hm). cbn [app] in *.
    eapply runs_lift_bind; [exact Hs|]. eapply runs_lift; [exact Hc|].
    exists x, y. rewrite last_snoc. auto.
  - intros c -> Hn. apply runs_ret. exists x, y. rewrite last_snoc. auto.
Qed.

(** *** The passes over the chunks

    [Inv c l]: [l] is what the sort has made of the chunk [c].  What holds of a run after
    its insertion sort, and is kept by [f], which merges two chunks, holds of the result. *)
Section Passes.
Context (Inv : list Z -> list Z -> Prop) (f : nat -> list Z -> M St (list Z)).
Context (Inv_perm : forall c l, Inv c l -> c ≡ₚ l).
Context (Inv_run : forall c l, inserted_all c l -> Inv c l).
Context (f_short : forall width both, length both <= width -> runs (f width both) (eq both)).
Context (f_merge : forall c1 c2 l r, Inv c1 l -> Inv c2 r -> c1 <> [] -> c2 <> [] ->
  Forall valid l -> Forall valid r -> runs (f (length l) (l ++ r)) (Inv (c1 ++ c2))).

Inductive chunked (width : nat) : list Z -> list Z -> Prop :=
| chunked_nil : chunked width [] []
| chunked_cons c c' o n : Inv c c' -> c <> [] -> length c <= width -> (o <> [] -> length c = width) ->
    chunked width o n -> chunked width (c ++ o) (c' ++ n).

Lemma chunked_perm width o n : chunked width o n -> o ≡ₚ n.
Proof. induction 1 as [|c c' o n Hc _ _ _ _ IH]; [done|]. by rewrite IH, (Inv_perm _ _ Hc). Qed.

Lemma chunked_nil_r width n : chunked width [] n -> n = [].
Proof. intros H%chunked_perm. by apply Permutation_nil_l in H. Qed.

Lemma chunks_of_runs fuel l :
  Forall valid l -> length l <= fuel ->
  runs (chunks_mut fuel INSERTION_RUN (insertion_sort compare) l) (chunked INSERTION_RUN l).
Proof.
  unfold INSERTION_RUN. revert l. induction fuel as [|fuel IH]; intros l Hv Hf.
  { destruct l; [|cbn in Hf; lia]. apply runs_ret. constructor. }
  destruct l as [|x l]; [apply runs_ret; constructor|]. remember (x :: l) as xl eqn:El.
  cbn [chunks_mut]. rewrite El at 1. rewrite <- (take_drop 20 xl) in Hv.
  apply Forall_app in Hv as [Hv1 Hv2].
  eapply runs_bind; [by apply insertion_sort_spec|]. intros c' Hc'.
  eapply runs_bind; [apply IH; [done|rewrite length_drop; subst; cbn in *; lia]|]. intros n Hn.
  apply runs_ret. rewrite <- (take_drop 20 xl). constructor; [auto|by subst|rewrite length_take; lia| |done].
  intros Hd. rewrite length_take. apply Nat.min_l.
  destruct (Nat.le_gt_cases 20 (length xl)); [done|]. destruct Hd. apply drop_ge. lia.
Qed.

Lemma chunks_pass fuel width o n :
  0 < width -> chunked width o n -> Forall valid o -> length o <= fuel ->
  runs (chunks_mut fuel (2 * width) (f width) n) (chunked (2 * width) o).
Proof.
  intros Hw. revert o n. induction fuel as [|fuel IH]; intros o n Hc Hv Hf.
  { destruct o; [|cbn in Hf; lia]. apply chunked_nil_r in Hc as ->. apply runs_ret. constructor. }
  destruct Hc as [|c c' o n Hinv Hne Hlen Hfull Hc]; [apply runs_ret; constructor|].
  pose proof (Permutation_length (Inv_perm _ _ Hinv)) as Hcl.
  apply Forall_app in Hv as [Hvc Hvo].
  assert (Hc'ne : c' ++ n <> []).
  { destruct c' as [|]; [|done]. by destruct c. }
  destruct (c' ++ n) as [|y yn] eqn:En; [done|]. cbn [chunks_mut]. rewrite <- En. clear Hc'ne.
  rewrite length_app in Hf.
  destruct Hc as [|c2 c2' o n Hinv2 Hne2 Hlen2 Hfull2 Hc].
  - rewrite app_nil_r, take_ge, drop_ge by lia.
    eapply runs_bind; [apply f_short; lia|]. intros ? <-.
    eapply runs_bind; [apply (IH [] []); [constructor|done|cbn; lia]|]. intros n Hn%chunked_nil_r. subst.
    apply runs_ret. rewrite <- (app_nil_r c). rewrite !app_nil_r. rewrite <- (app_nil_r c), <- (app_nil_r c').
    constructor; [done|done|lia|done|constructor].
  - pose proof (Permutation_length (Inv_perm _ _ Hinv2)) as Hcl2.
    assert (Hcw : length c = width). { apply Hfull. by destruct c2. }
    apply Forall_app in Hvo as [Hvc2 Hvo].
    assert (Hsplit : take (2 * width) (c' ++ c2' ++ n) = c' ++ c2' /\ drop (2 * width) (c' ++ c2' ++ n) = n).
    { rewrite app_assoc. destruct o as [|z o].
      - apply chunked_nil_r in Hc as ->. rewrite app_nil_r.
        split; [apply take_ge|apply drop_ge]; rewrite length_app; lia.
      - specialize (Hfull2 ltac:(done)).
        split; [apply take_app_length'|apply drop_app_length']; rewrite length_app; lia. }
    destruct Hsplit as [-> ->]. replace width with (length c') at 1 by lia.
    eapply runs_bind.
    { apply f_merge; [exact Hinv|exact Hinv2|done|done| |].
      - by rewrite <- (Inv_perm _ _ Hinv).
      - by rewrite <- (Inv_perm _ _ Hinv2). }
    intros m Hm. rewrite !length_app in Hf.
    eapply runs_bind; [apply (IH o n); [done|done|]|].
    { destruct c; [done|]. cbn in Hf. lia. }
    intros n' Hn'. apply runs_ret. rewrite app_assoc.
    constructor; [done|by destruct c|rewrite length_app; lia| |done].
    intros Ho. rewrite length_app. rewrite (Hfull2 Ho). lia.
Qed.

Lemma chunked_whole width o n : chunked width o n -> length o <= width -> Inv o n.
Proof.
  intros [|c c' o' n' Hinv Hne _ Hfull Hc] Hlen; [apply Inv_run; constructor|].
  destruct o' as [|z o'].
  { apply chunked_nil_r in Hc as ->. by rewrite !app_nil_r. }
  rewrite length_app, (Hfull ltac:(done)) in Hlen. cbn in Hlen. lia.
Qed.

Lemma doubling_spec len fuel width o n :
  0 < width -> chunked width o n -> Forall valid o -> len = length o -> length o <= width + fuel ->
  runs (doubling fuel (fun width => chunks_mut len (2 * width) (f width)) width n) (Inv o).
Proof.
  intros Hw Hc Hv -> Hf. revert width n Hw Hc Hf.
  induction fuel as [|fuel IH]; intros width n Hw Hc Hf; cbn [doubling];
    rewrite <- (Permutation_length (chunked_perm _ _ _ Hc));
    destruct (Nat.ltb_spec width (length o)).
  - lia.
  - apply runs_ret. by eapply chunked_whole.
  - eapply runs_bind; [by apply chunks_pass|]. intros n' Hn'.
    rewrite (Nat.mul_comm width 2). apply IH; [lia|done|lia].
  - apply runs_ret. by eapply chunked_whole.
Qed.

Lemma passes_spec l :
  Forall valid l ->
  runs (indices ← chunks_mut (length l) INSERTION_RUN (insertion_sort compare) l;
        doubling (length indices) (fun width => chunks_mut (length indices) (2 * width) (f width))
          INSERTION_RUN indices) (Inv l).
Proof.
  intros Hv. eapply runs_bind; [by apply chunks_of_runs|]. intros n Hn.
  pose proof (Permutation_length (chunked_perm _ _ _ Hn)) as Hlen.
  apply doubling_spec; [unfold INSERTION_RUN; lia|done|done|done|lia].
Qed.
End Passes.

(** *** The same items *)
Lemma inserted_all_perm l l' : inserted_all l l' -> l ≡ₚ l'.
Proof.
  induction 1 as [|l l' x l'' _ IH (l1 & l2 & -> & -> & _)]; [done|]. rewrite IH. solve_Permutation.
Qed.

Lemma merged_perm l r m : merged l r m -> l ++ r ≡ₚ m.
Proof.
  induction 1 as [l|r|x l y r m _ _ IH|x l y r m _ _ IH]; rewrite ?app_nil_r; [done..| |].
  - rewrite <- IH. symmetry. apply (Permutation_middle (x :: l)).
  - cbn. by rewrite IH.
Qed.

Lemma merge_out_perm l r m : merge_out l r m -> l ++ r ≡ₚ m.
Proof. intros (x & y & _ & _ & [[_ ->]|[_ Hm]]); [done|by apply merged_perm]. Qed.

(** *** No item less than the one before it *)
Definition ascending : list Z -> Prop := Sorted (fun x y => not_less y x).

Section Opposite.
Context (Hopposite : forall x y, less x y -> not_less y x).

Lemma inserted_ascending x l l' : inserted x l l' -> ascending l -> ascending l'.
Proof.
  intros (l1 & l2 & -> & -> & Hl2 & Hl1) (H1 & H2 & _)%Sorted_split.
  apply Sorted_join; [done| |].
  - constructor; [done|]. destruct l2 as [|y l2]; constructor. apply Hopposite. by inversion Hl2.
  - intros y z Hy [= <-]. by apply Hl1.
Qed.

Lemma inserted_all_ascending l l' : inserted_all l l' -> ascending l'.
Proof. induction 1; [constructor|]. by eapply inserted_ascending. Qed.

Lemma merged_ascending l r m :
  merged l r m -> ascending l -> ascending r ->
  ascending m /\ forall z, HdRel (fun x y => not_less y x) z l -> HdRel (fun x y => not_less y x) z r ->
    HdRel (fun x y => not_less y x) z m.
Proof.
  induction 1 as [l|r|x l y r m Hless Hm IH|x l y r m Hn Hm IH]; intros Hl Hr; [done|done| |].
  - inversion_clear Hr as [|? ? Hr' Hyr]. destruct (IH Hl Hr') as [Has Hd]. split.
    + constructor; [done|]. apply Hd; [|done]. constructor. by apply Hopposite.
    + intros z _ Hz. inversion_clear Hz. by constructor.
  - inversion_clear Hl as [|? ? Hl' Hxl]. destruct (IH Hl' Hr) as [Has Hd]. split.
    + constructor; [done|]. apply Hd; [done|]. by constructor.
    + intros z Hz _. inversion_clear Hz. by constructor.
Qed.

Lemma merge_out_ascending l r m : merge_out l r m -> ascending l -> ascending r -> ascending m.
Proof.
  intros (x & y & Hx & Hy & [[Hn ->]|[_ Hm]]) Hl Hr; [|by eapply merged_ascending].
  apply Sorted_join; [done..|]. intros a b Ha Hb. by simplify_eq.
Qed.
End Opposite.

(** *** What is ascending stays as it is, when the answers do not change *)
Section Decided.
Context (Hdecided : forall x y, less x y -> not_less x y -> False).

Lemma inserted_kept x l l' : inserted x l l' -> ascending (l ++ [x]) -> l' = l ++ [x].
Proof.
  intros (l1 & l2 & -> & -> & Hl2 & _) (_ & _ & Hj)%Sorted_split.
  destruct l2 as [|y l2 _] using rev_ind; [by rewrite app_nil_r|].
  apply Forall_app in Hl2 as [_ Hy%Forall_inv].
  destruct (Hdecided x y Hy). apply Hj; [|done]. by rewrite app_assoc, last_snoc.
Qed.

Lemma inserted_all_kept l l' : inserted_all l l' -> ascending l -> l' = l.
Proof.
  induction 1 as [|l l' x l'' _ IH Hins]; [done|]. intros Has.
  pose proof Has as (Hl & _)%Sorted_split. rewrite (IH Hl) in Hins. by apply inserted_kept.
Qed.

Lemma merge_out_kept l r m : merge_out l r m -> ascending (l ++ r) -> m = l ++ r.
Proof.
  intros (x & y & Hx & Hy & [[_ ->]|[Hless _]]) (_ & _ & Hj)%Sorted_split; [done|].
  destruct (Hdecided y x Hless). by apply Hj.
Qed.
End Decided.

(** *** Go's merge *)
Lemma bisect_spec fuel g low high (Right Left : nat -> Prop) :
  low <= high -> high - low <= fuel ->
  (forall i, low <= i < high -> runs (g i) (fun b : bool => if b then Right i else Left i)) ->
  runs (bisect (St := St) fuel g low high) (fun k => low <= k <= high /\
    (k = low \/ Right (k - 1)) /\ (k = high \/ Left k)).
Proof.
  revert low high. induction fuel as [|fuel IH]; intros low high Hle Hf Hg; cbn [bisect];
    destruct (Nat.ltb_spec low high) as [Hlt|]; [lia|apply runs_ret; lia| |apply runs_ret; lia].
  assert (Hm : low <= (low + high) / 2 < high).
  { split; [apply Nat.div_le_lower_bound; lia|apply Nat.Div0.div_lt_upper_bound; lia]. }
  set (at_ := (low + high) / 2) in *.
  eapply runs_bind; [by apply Hg|]. intros [|] Hb; cbn beta iota in Hb.
  - eapply runs_weaken; [apply IH; [lia|lia|]|].
    + intros i Hi. apply Hg. lia.
    + intros k (Hk & H1 & H2). splits; [lia|lia| |done].
      right. destruct H1 as [->|]; [|done]. by replace (at_ + 1 - 1) with at_ by lia.
  - eapply runs_weaken; [apply IH; [lia|lia|]|].
    + intros i Hi. apply Hg. lia.
    + intros k (Hk & H1 & H2). splits; [lia|lia|done|].
      right. by destruct H2 as [->|].
Qed.

Lemma less_at_spec both i j x y :
  both !! i = Some x -> both !! j = Some y -> Forall valid both ->
  runs (less_at compare both i j) (fun b : bool => if b then less x y else not_less x y).
Proof.
  intros Hi Hj Hv. unfold less_at. eapply runs_lift_bind; [done|]. eapply runs_lift_bind; [done|].
  apply compare_spec; [by eapply Forall_lookup_1..| |].
  - intros Hl. by apply runs_ret.
  - intros c -> Hn. by apply runs_ret.
Qed.

Lemma not_less_at_spec both i j x y :
  both !! i = Some x -> both !! j = Some y -> Forall valid both ->
  runs (b ← less_at compare both i j; mret (negb b)) (fun b : bool => if b then not_less x y else less x y).
Proof.
  intros Hi Hj Hv. eapply runs_bind; [by apply less_at_spec|]. intros [|] Hb; by apply runs_ret.
Qed.

(** How a search cuts two sorted parts, [l1 ++ l2] and [r1 ++ r2]: what is in front of the
    cut in the one is compared with what is behind it in the other. *)
Definition cut (l1 l2 r1 r2 : list Z) : Prop :=
  (forall x y, last l1 = Some x -> head r2 = Some y -> not_less y x) /\
  (forall x y, head l2 = Some x -> last r1 = Some y -> less y x).

(** The result of [sym_merge] on [l ++ r]. *)
Inductive sym_merged : list Z -> list Z -> list Z -> Prop :=
| sym_first x r1 r2 : cut [] [x] r1 r2 -> cut [x] [] [] r2 -> sym_merged [x] (r1 ++ r2) (r1 ++ x :: r2)
| sym_last y l1 l2 : cut l1 l2 [y] [] -> cut l1 [] [] [y] -> sym_merged (l1 ++ l2) [y] (l1 ++ y :: l2)
| sym_cut l1 l2 r1 r2 m1 m2 : cut l1 l2 r1 r2 -> sym_part l1 r1 m1 -> sym_part l2 r2 m2 ->
    sym_merged (l1 ++ l2) (r1 ++ r2) (m1 ++ m2)
with sym_part : list Z -> list Z -> list Z -> Prop :=
| part_empty l r : l = [] \/ r = [] -> sym_part l r (l ++ r)
| part_merged l r m : sym_merged l r m -> sym_part l r m.

Lemma sym_merge_first fuel x r :
  r <> [] -> valid x -> Forall valid r ->
  runs (sym_merge compare (S fuel) (x :: r) 1) (sym_merged [x] r).
Proof.
  intros Hne Hx Hr. cbn [sym_merge]. rewrite Nat.eqb_refl.
  eapply runs_bind.
  { apply (bisect_spec _ _ _ _
      (fun i => exists y, (x :: r) !! i = Some y /\ less y x)
      (fun i => exists y, (x :: r) !! i = Some y /\ not_less y x)); [cbn; lia|cbn; lia|].
    intros i Hi. destruct (lookup_lt_is_Some_2 (x :: r) i) as [y Hy]; [lia|].
    eapply runs_weaken; [apply (less_at_spec _ i 0 y x); [done|done|by constructor]|].
    intros [|] Hb; cbn beta iota in Hb; by exists y. }
  intros k (Hk & H1 & H2). cbn [length] in Hk.
  assert (Hsplit : r = take (k - 1) r ++ drop (k - 1) r) by (by rewrite take_drop).
  assert (Hlen : length (take (k - 1) r) = k - 1) by (rewrite length_take; lia).
  revert Hsplit Hlen H1 H2. generalize (take (k - 1) r) (drop (k - 1) r). intros r1 r2 -> Hlen H1 H2.
  eapply runs_lift.
  { apply (in_slice_app _ [] (x :: r1) r2 (r1 ++ [x])); [done|cbn; lia|].
    apply (rotate_left_app [x] r1). }
  cbn [app]. rewrite <- app_assoc. constructor; split; try done.
  - intros a y [= <-] Hy. destruct H1 as [->|(z & Hz & Hless)].
    { destruct r1; [done|cbn in Hlen; lia]. }
    destruct r1 as [|z' r1 _] using rev_ind; [done|]. rewrite last_snoc in Hy. injection Hy as ->.
    rewrite length_app in Hlen. cbn in Hlen. replace (k - 1) with (S (length r1)) in Hz by lia.
    change (((r1 ++ [y]) ++ r2) !! length r1 = Some z) in Hz.
    rewrite <- app_assoc in Hz. cbn [app] in Hz. rewrite list_lookup_middle in Hz by done. by simplify_eq.
  - intros a y [= <-] Hy. destruct r2 as [|z r2]; [done|]. injection Hy as ->.
    destruct H2 as [->|(z & Hz & Hn)]; [cbn in Hlen; rewrite length_app in Hlen; cbn in Hlen; lia|].
    replace k with (S (length r1)) in Hz by lia. change ((r1 ++ y :: r2) !! length r1 = Some z) in Hz.
    rewrite list_lookup_middle in Hz by done. by simplify_eq.
Qed.

Lemma last_lookup (l : list Z) x : last l = Some x -> l !! (length l - 1) = Some x.
Proof. rewrite last_lookup. by rewrite Nat.sub_1_r. Qed.

Lemma sym_merge_last fuel l y :
  length l <> 1 -> valid y -> Forall valid l ->
  runs (sym_merge compare (S fuel) (l ++ [y]) (length l)) (sym_merged l [y]).
Proof.
  intros Hne Hy Hl. cbn [sym_merge]. rewrite length_app. cbn [length].
  destruct (Nat.eqb_spec (length l) 1); [done|].
  destruct (Nat.eqb_spec (length l + 1) (length l + 1)); [|done].
  eapply runs_bind.
  { apply (bisect_spec _ _ _ _
      (fun i => exists x, l !! i = Some x /\ not_less y x)
      (fun i => exists x, l !! i = Some x /\ less y x)); [lia|lia|].
    intros i Hi. destruct (lookup_lt_is_Some_2 l i) as [x Hx]; [lia|].
    eapply runs_weaken; [apply (not_less_at_spec _ _ i y x)|].
    - by apply list_lookup_middle.
    - by apply lookup_app_l_Some.
    - apply Forall_app. split; [done|by constructor].
    - intros [|] Hb; cbn beta iota in Hb; by exists x. }
  intros k (Hk & H1 & H2).
  assert (Hsplit : l = take k l ++ drop k l) by (by rewrite take_drop).
  assert (Hlen : length (take k l) = k) by (rewrite length_take; lia).
  revert Hsplit Hlen H1 H2. generalize (take k l) (drop k l). intros l1 l2 -> <- H1 H2.
  rewrite length_app in *.
  eapply runs_lift.
  { rewrite <- app_assoc, <- (app_nil_r (l2 ++ [y])).
    apply (in_slice_app _ l1 (l2 ++ [y]) [] (y :: l2)); [done|rewrite length_app; cbn; lia|].
    apply rotate_right_snoc. }
  rewrite app_nil_r. constructor; split; try done.
  - intros x z Hx [= <-]. destruct l2 as [|x' l2]; [done|]. injection Hx as ->.
    destruct H2 as [H2|(z & Hz & Hless)]; [cbn in H2; lia|].
    rewrite list_lookup_middle in Hz by done. by simplify_eq.
  - intros x z Hx [= <-]. apply last_lookup in Hx as Hx'.
    destruct H1 as [H1|(z & Hz & Hn)].
    { destruct l1; [done|cbn in H1; lia]. }
    rewrite lookup_app_l in Hz by (apply lookup_lt_Some in Hx'; lia). by simplify_eq.
Qed.

Lemma slice_range_front {A} (l1 l2 : list A) n : n = length l1 -> slice_range (l1 ++ l2) 0 n = Some l1.
Proof.
  intros ->. rewrite slice_range_Some by (rewrite ?length_app; lia).
  by rewrite Nat.sub_0_r, drop_0, take_app_length.
Qed.

Lemma slice_from_back {A} (l1 l2 : list A) n : n = length l1 -> slice_from (l1 ++ l2) n = Some l2.
Proof. intros ->. rewrite slice_from_Some by (rewrite length_app; lia). by rewrite drop_app_length. Qed.

(** The search of the general case, on [l ++ r]. *)
Lemma sym_search fuel l r (half := (length l + length r) / 2) (sum := half + length l)
    (bounds := if half <? length l then (sum - (length l + length r), half) else (0, length l)) :
  1 < length l -> 1 < length r -> Forall valid (l ++ r) -> length l + length r <= fuel ->
  runs (bisect fuel (fun at_ => b ← less_at compare (l ++ r) (sum - 1 - at_) at_; mret (negb b))
          (fst bounds) (snd bounds))
    (fun start => exists l1 l2 r1 r2, l = l1 ++ l2 /\ r = r1 ++ r2 /\
      start = length l1 /\ length l1 + length r1 = half /\ cut l1 l2 r1 r2).
Proof.
  intros Hl Hr Hv Hf.
  assert (Hhalf : 2 * half <= length l + length r < 2 * half + 2).
  { pose proof (Nat.div_mod_eq (length l + length r) 2).
    pose proof (Nat.mod_upper_bound (length l + length r) 2). unfold half. lia. }
  assert (Hb : fst bounds <= snd bounds /\ snd bounds <= half /\ snd bounds <= length l /\
    sum - (length l + length r) <= fst bounds /\
    (fst bounds = 0 \/ sum - fst bounds = length l + length r) /\
    (snd bounds = half \/ snd bounds = length l)).
  { unfold bounds, sum. destruct (Nat.ltb_spec half (length l)); cbn [fst snd]; lia. }
  destruct Hb as (Hb1 & Hb2 & Hb3 & Hb4 & Hb5 & Hb6). unfold sum in *.
  eapply runs_weaken.
  { apply (bisect_spec _ _ _ _
      (fun i => exists x y, l !! i = Some x /\ r !! (half - 1 - i) = Some y /\ not_less y x)
      (fun i => exists x y, l !! i = Some x /\ r !! (half - 1 - i) = Some y /\ less y x)); [lia|lia|].
    intros i Hi. destruct (lookup_lt_is_Some_2 l i) as [x Hx]; [lia|].
    destruct (lookup_lt_is_Some_2 r (half - 1 - i)) as [y Hy]; [lia|].
    eapply runs_weaken; [apply (not_less_at_spec _ _ i y x)|].
    - rewrite lookup_app_r by lia. rewrite <- Hy. f_equal. lia.
    - by apply lookup_app_l_Some.
    - done.
    - intros [|] Hb; cbn beta iota in Hb; eauto. }
  intros k (Hk & H1 & H2).
  exists (take k l), (drop k l), (take (half - k) r), (drop (half - k) r).
  assert (Hkl : length (take k l) = k) by (rewrite length_take; lia).
  assert (Hkr : length (take (half - k) r) = half - k) by (rewrite length_take; lia).
  splits; [by rewrite take_drop|by rewrite take_drop|done|lia|]. split.
  - intros x y Hx Hy. apply last_lookup in Hx. rewrite Hkl in Hx.
    rewrite head_lookup, lookup_drop, Nat.add_0_r in Hy.
    destruct H1 as [->|(x' & y' & Hx' & Hy' & Hn)].
    + destruct Hb5 as [E|E].
      * rewrite E, take_0 in Hx. done.
      * apply lookup_lt_Some in Hy. lia.
    + apply lookup_lt_Some in Hx as Hlt. rewrite Hkl in Hlt.
      rewrite lookup_take_lt in Hx by lia.
      replace (half - 1 - (k - 1)) with (half - k) in Hy' by lia. by simplify_eq.
  - intros x y Hx Hy. apply last_lookup in Hy. rewrite Hkr in Hy.
    rewrite head_lookup, lookup_drop, Nat.add_0_r in Hx.
    apply lookup_lt_Some in Hy as Hlt. rewrite Hkr in Hlt. rewrite lookup_take_lt in Hy by lia.
    destruct H2 as [->|(x' & y' & Hx' & Hy' & Hless)].
    + apply lookup_lt_Some in Hx. lia.
    + replace (half - 1 - k) with (half - k - 1) in Hy' by lia. by simplify_eq.
Qed.

Lemma sym_merged_perm l r m : sym_merged l r m -> l ++ r ≡ₚ m
with sym_part_perm l r m : sym_part l r m -> l ++ r ≡ₚ m.
Proof.
  - intros [x r1 r2 _ _|y l1 l2 _ _|l1 l2 r1 r2 m1 m2 _ H1 H2].
    + cbn. apply Permutation_middle.
    + rewrite <- app_assoc. apply Permutation_app_head. symmetry. apply Permutation_cons_append.
    + rewrite <- (sym_part_perm _ _ _ H1), <- (sym_part_perm _ _ _ H2). solve_Permutation.
  - intros [? ? _|? ? ? H]; [done|]. by apply sym_merged_perm.
Qed.

Lemma sym_merge_spec fuel l r :
  l <> [] -> r <> [] -> Forall valid l -> Forall valid r -> length l + length r <= fuel ->
  runs (sym_merge compare fuel (l ++ r) (length l)) (sym_merged l r).
Proof.
  revert l r. induction fuel as [|fuel IH]; intros l r Hl Hr Hvl Hvr Hf.
  { destruct l; [done|cbn in Hf; lia]. }
  destruct (decide (length l = 1)) as [E1|Hl1].
  { destruct l as [|x [|]]; [done| |done]. cbn [length app] in *.
    inversion_clear Hvl. by apply sym_merge_first. }
  destruct (decide (length r = 1)) as [E1|Hr1].
  { destruct r as [|y [|]]; [done| |done]. cbn [length] in *.
    inversion_clear Hvr. by apply sym_merge_last. }
  assert (Hl2 : 1 < length l) by (destruct l as [|? [|]]; [done|done|cbn; lia]).
  assert (Hr2 : 1 < length r) by (destruct r as [|? [|]]; [done|done|cbn; lia]).
  cbn [sym_merge]. rewrite length_app.
  destruct (Nat.eqb_spec (length l) 1); [lia|].
  destruct (Nat.eqb_spec (length l + 1) (length l + length r)); [lia|].
  rewrite (surjective_pairing (if _ <? length l then _ else _)).
  eapply runs_bind; [apply sym_search; [lia|lia|by apply Forall_app|lia]|].
  intros start (l1 & l2 & r1 & r2 & -> & -> & -> & Hhalf & Hcut).
  rewrite !length_app in *.
  assert (Hh : 2 * (length l1 + length r1) <= length l1 + length l2 + (length r1 + length r2)
    < 2 * (length l1 + length r1) + 2).
  { rewrite Hhalf. pose proof (Nat.div_mod_eq (length l1 + length l2 + (length r1 + length r2)) 2).
    pose proof (Nat.mod_upper_bound (length l1 + length l2 + (length r1 + length r2)) 2). lia. }
  rewrite <- Hhalf. clear Hhalf.
  apply Forall_app in Hvl as [Hvl1 Hvl2]. apply Forall_app in Hvr as [Hvr1 Hvr2].
  replace (length l1 + length r1 + (length l1 + length l2) - length l1)
    with (length l1 + length l2 + length r1) by lia.
  eapply (runs_lift_bind _ ((l1 ++ r1) ++ l2 ++ r2)).
  { destruct l2 as [|x l2].
    { cbn [length app]. rewrite Nat.add_0_r, Nat.ltb_irrefl. cbn [andb]. by rewrite <- !app_assoc. }
    destruct r1 as [|y r1].
    { cbn [length app]. rewrite !Nat.add_0_r, Nat.ltb_irrefl, andb_false_r. by rewrite <- !app_assoc. }
    cbn [length]. destruct (Nat.ltb_spec (length l1) (length l1 + S (length l2))); [|lia].
    destruct (Nat.ltb_spec (length l1 + S (length l2)) (length l1 + S (length l2) + S (length r1))); [|lia].
    cbn [andb].
    replace ((l1 ++ x :: l2) ++ (y :: r1) ++ r2) with (l1 ++ ((x :: l2) ++ (y :: r1)) ++ r2)
      by (by rewrite <- !app_assoc).
    rewrite <- !(app_assoc l1). rewrite (app_assoc (y :: r1) (x :: l2) r2).
    apply in_slice_app; [done|rewrite length_app; cbn; lia|].
    replace (length l1 + S (length l2) - length l1) with (length (x :: l2)) by (cbn; lia).
    apply rotate_left_app. }
  eapply runs_lift_bind; [apply slice_range_front; by rewrite length_app|].
  eapply runs_lift_bind; [apply slice_from_back; by rewrite length_app|].
  eapply (runs_bind _ _ (sym_part l1 r1)).
  { destruct l1 as [|x1 l1]; [apply runs_ret, part_empty; by left|].
    destruct r1 as [|y1 r1].
    { cbn [length]. rewrite Nat.add_0_r, Nat.ltb_irrefl, andb_false_r. apply runs_ret, part_empty. by right. }
    destruct (Nat.ltb_spec 0 (length (x1 :: l1))); [|cbn in *; lia].
    destruct (Nat.ltb_spec (length (x1 :: l1)) (length (x1 :: l1) + length (y1 :: r1))); [|cbn in *; lia].
    cbn [andb]. eapply runs_weaken; [apply IH; [done..|cbn in *; lia]|]. apply part_merged. }
  intros m1 Hm1.
  eapply (runs_bind _ _ (sym_part l2 r2)).
  { destruct l2 as [|x2 l2].
    { cbn [length]. replace (length l1 + 0 + length r1) with (length l1 + length r1) by lia.
      rewrite Nat.ltb_irrefl. apply runs_ret, part_empty. by left. }
    destruct r2 as [|y2 r2].
    { cbn [length]. replace (length l1 + S (length l2) + (length r1 + 0)) with (length l1 + S (length l2) + length r1) by lia.
      rewrite Nat.ltb_irrefl, andb_false_r. apply runs_ret, part_empty. by right. }
    destruct (Nat.ltb_spec (length l1 + length r1) (length l1 + length (x2 :: l2) + length r1)); [|cbn in *; lia].
    destruct (Nat.ltb_spec (length l1 + length (x2 :: l2) + length r1)
      (length l1 + length (x2 :: l2) + (length r1 + length (y2 :: r2)))); [|cbn in *; lia].
    cbn [andb].
    replace (length l1 + length (x2 :: l2) + length r1 - (length l1 + length r1)) with (length (x2 :: l2)) by lia.
    eapply runs_weaken; [apply IH; [done..|lia]|apply part_merged]. }
  intros m2 Hm2. apply runs_ret. by constructor.
Qed.

(** *** Both sorts, by an invariant of their merges *)
Lemma merge_sort_inv (Inv : list Z -> list Z -> Prop) l :
  (forall c l, Inv c l -> c ≡ₚ l) -> (forall c l, inserted_all c l -> Inv c l) ->
  (forall c1 c2 l r m, Inv c1 l -> Inv c2 r -> merge_out l r m -> Inv (c1 ++ c2) m) ->
  Forall valid l -> runs (merge_sort compare l) (Inv l).
Proof.
  intros Hp Hr Hm Hv.
  apply (passes_spec Inv (fun width both => merge compare both width)); [done|done| | |done].
  - intros width both Hle. unfold merge. destruct (Nat.leb_spec (length both) width); [|lia].
    by apply runs_ret.
  - intros c1 c2 l1 r1 H1 H2 Hn1 Hn2 Hv1 Hv2. eapply runs_weaken; [apply merge_spec; try done|eauto].
    + intros ->. by apply Hp, Permutation_nil_r in H1.
    + intros ->. by apply Hp, Permutation_nil_r in H2.
Qed.

Lemma go_stable_sort_inv (Inv : list Z -> list Z -> Prop) l :
  (forall c l, Inv c l -> c ≡ₚ l) -> (forall c l, inserted_all c l -> Inv c l) ->
  (forall c1 c2 l r m, Inv c1 l -> Inv c2 r -> sym_merged l r m -> Inv (c1 ++ c2) m) ->
  Forall valid l -> runs (go_stable_sort compare l) (Inv l).
Proof.
  intros Hp Hr Hm Hv.
  apply (passes_spec Inv (fun width both =>
    if width <? length both then sym_merge compare (length both) both width else mret both));
    [done|done| | |done].
  - intros width both Hle. destruct (Nat.ltb_spec width (length both)); [lia|]. by apply runs_ret.
  - intros c1 c2 l1 r1 H1 H2 Hn1 Hn2 Hv1 Hv2. rewrite length_app.
    assert (Hr1 : r1 <> []). { intros ->. by apply Hp, Permutation_nil_r in H2. }
    assert (Hl1 : l1 <> []). { intros ->. by apply Hp, Permutation_nil_r in H1. }
    destruct (Nat.ltb_spec (length l1) (length l1 + length r1)).
    2: { destruct r1; [done|cbn in *; lia]. }
    eapply runs_weaken; [by apply sym_merge_spec|eauto].
Qed.

Lemma merge_sort_perm l : Forall valid l -> runs (merge_sort compare l) (Permutation l).
Proof.
  apply merge_sort_inv; [done|apply inserted_all_perm|].
  intros c1 c2 l1 r1 m -> -> ?. by apply merge_out_perm.
Qed.

Lemma go_stable_sort_perm l : Forall valid l -> runs (go_stable_sort compare l) (Permutation l).
Proof.
  apply go_stable_sort_inv; [done|apply inserted_all_perm|].
  intros c1 c2 l1 r1 m -> -> ?. by apply sym_merged_perm.
Qed.

Lemma merge_sort_ascending l :
  (forall x y, less x y -> not_less y x) -> (forall x y, less x y -> not_less x y -> False) ->
  Forall valid l ->
  runs (merge_sort compare l) (fun l' => l ≡ₚ l' /\ ascending l' /\ (ascending l -> l' = l)).
Proof.
  intros Hopp Hdec.
  apply (merge_sort_inv (fun l l' => l ≡ₚ l' /\ ascending l' /\ (ascending l -> l' = l))).
  - by intros c l' [? _].
  - intros c l' Hins. splits; [by apply inserted_all_perm|by eapply inserted_all_ascending|].
    by apply inserted_all_kept.
  - intros c1 c2 l1 r1 m (P1 & A1 & K1) (P2 & A2 & K2) Hm. splits.
    + by rewrite P1, P2, (merge_out_perm _ _ _ Hm).
    + by eapply merge_out_ascending.
    + intros Ha. pose proof Ha as (Ha1 & Ha2 & _)%Sorted_split.
      rewrite (K1 Ha1), (K2 Ha2) in Hm. by apply merge_out_kept.
Qed.
End Answers.

(** ** On a total preorder, both are the stable sort *)
Section Lawful.
Context {St : Type} (cmp : Z -> Z -> comparison) `{!CmpLaws cmp}.
Implicit Types l r m : list Z.

Definition exactly (x y : Z) (c : comparison) : Prop := c = cmp x y.

Lemma exactly_less x y : less exactly x y <-> cmp x y = Lt.
Proof. unfold less, exactly. split; congruence. Qed.
Lemma exactly_not_less x y : not_less exactly x y <-> cmp x y <> Lt.
Proof. unfold not_less, exactly. split; [intros (c & Hc & ->)|]; eauto. Qed.

Lemma exactly_opposite : (forall x y, cmp y x = CompOpp (cmp x y)) ->
  forall x y, less exactly x y -> not_less exactly y x.
Proof. intros Hopp x y. rewrite exactly_less, exactly_not_less, (Hopp x y). by intros ->. Qed.

Lemma exactly_decided x y : less exactly x y -> not_less exactly x y -> False.
Proof. by rewrite exactly_less, exactly_not_less. Qed.

Lemma not_lt_le x y : cmp y x <> Lt <-> at_most cmp x y.
Proof. unfold at_most. rewrite (cmp_flip (compare := cmp) x y). by destruct (cmp x y). Qed.

Lemma ascending_sorted l : ascending exactly l -> StronglySorted (at_most cmp) l.
Proof.
  intros Ha. apply Sorted_StronglySorted; [apply at_most_trans; done|].
  induction Ha as [|x l _ IH Hd]; constructor; [done|].
  destruct Hd as [|y l Hy]; constructor. by apply not_lt_le, exactly_not_less.
Qed.

Lemma sorted_ascending l : StronglySorted (at_most cmp) l -> ascending exactly l.
Proof.
  intros Hs%StronglySorted_Sorted.
  induction Hs as [|x l _ IH Hd]; constructor; [done|].
  destruct Hd as [|y l Hy]; constructor. by apply exactly_not_less, not_lt_le.
Qed.

Lemma lt_le_lt x y z : cmp x y = Lt -> at_most cmp y z -> cmp x z = Lt.
Proof. intros H1 H2. by eapply (cmp_lt_le_trans cmp). Qed.
Lemma le_lt_lt x y z : at_most cmp x y -> cmp y z = Lt -> cmp x z = Lt.
Proof. intros H1 H2. by eapply (cmp_le_lt_trans cmp). Qed.

Lemma inserted_all_stable l l' : inserted_all exactly l l' -> stable_sorting cmp l l'.
Proof.
  intros H. split.
  { apply ascending_sorted. eapply inserted_all_ascending; [|done].
    apply exactly_opposite, cmp_flip. }
  intros z. induction H as [|l l' x l'' _ IH (l1 & l2 & -> & -> & Hl2 & _)]; [done|].
  rewrite (ties_app _ _ l), <- IH. rewrite <- !ties_app, <- app_assoc, !(ties_app _ _ l1).
  f_equal. apply (ties_swap cmp z [x] l2).
  intros a b ->%list_elem_of_singleton Hb. rewrite Forall_forall in Hl2.
  apply Hl2, exactly_less in Hb. congruence.
Qed.

(** Items in front of a sorted run that are less than its head. *)
Lemma ties_front z y l r :
  Forall (fun x => cmp y x = Lt) l -> ties cmp z (l ++ y :: r) = ties cmp z (y :: l ++ r).
Proof.
  intros Hl. change (ties cmp z (l ++ [y] ++ r) = ties cmp z ([y] ++ l ++ r)).
  rewrite !app_assoc, !(ties_app _ _ _ r). f_equal. symmetry.
  apply ties_swap; [done|]. intros a b ->%list_elem_of_singleton Hb.
  rewrite Forall_forall in Hl. rewrite (Hl _ Hb). done.
Qed.

Lemma merged_ties l r m z :
  merged exactly l r m -> StronglySorted (at_most cmp) l -> ties cmp z m = ties cmp z (l ++ r).
Proof.
  induction 1 as [l|r|x l y r m Hless _ IH|x l y r m _ _ IH]; intros Hs; [by rewrite app_nil_r|done| |].
  - rewrite ties_front; [by rewrite !(ties_cons _ _ y), IH|].
    apply exactly_less in Hless. apply StronglySorted_inv in Hs as [_ Hx].
    constructor; [done|]. eapply Forall_impl; [exact Hx|]. intros a Ha. by eapply lt_le_lt.
  - apply StronglySorted_inv in Hs as [Hs _]. cbn [app]. by rewrite !(ties_cons _ _ x), IH.
Qed.

Lemma stable_merge c1 c2 l r m :
  stable_sorting cmp c1 l -> stable_sorting cmp c2 r ->
  StronglySorted (at_most cmp) m -> (forall z, ties cmp z m = ties cmp z (l ++ r)) ->
  stable_sorting cmp (c1 ++ c2) m.
Proof.
  intros [_ H1] [_ H2] Hm Ht. split; [done|]. intros z. by rewrite Ht, !ties_app, H1, H2.
Qed.

Lemma merge_out_stable c1 c2 l r m :
  stable_sorting cmp c1 l -> stable_sorting cmp c2 r -> merge_out exactly l r m ->
  stable_sorting cmp (c1 ++ c2) m.
Proof.
  intros H1 H2 Hm. eapply stable_merge; [exact H1|exact H2| |].
  - apply ascending_sorted. eapply merge_out_ascending; [|exact Hm|apply sorted_ascending, H1|apply sorted_ascending, H2].
    apply exactly_opposite, cmp_flip.
  - intros z. destruct Hm as (x & y & _ & _ & [[_ ->]|[_ Hm]]); [done|].
    apply merged_ties; [done|apply H1].
Qed.

Lemma sorted_last l a : StronglySorted (at_most cmp) l -> a ∈ l -> exists x, last l = Some x /\ at_most cmp a x.
Proof.
  intros Hs Ha. destruct l as [|x l _] using rev_ind; [by apply not_elem_of_nil in Ha|].
  exists x. rewrite last_snoc. split; [done|]. apply elem_of_app in Ha as [Ha| ->%list_elem_of_singleton].
  - apply StronglySorted_app in Hs as (Hs & _ & _). apply Hs; [done|left].
  - unfold at_most. by rewrite (cmp_refl cmp).
Qed.

Lemma sorted_head l b : StronglySorted (at_most cmp) l -> b ∈ l -> exists y, head l = Some y /\ at_most cmp y b.
Proof.
  intros Hs Hb. destruct Hs as [|y l Hs Hy]; [by apply not_elem_of_nil in Hb|].
  exists y. split; [done|]. apply elem_of_cons in Hb as [->|Hb].
  - unfold at_most. by rewrite (cmp_refl cmp).
  - rewrite Forall_forall in Hy. auto.
Qed.

Lemma cut_blocks l1 l2 r1 r2 :
  cut exactly l1 l2 r1 r2 ->
  StronglySorted (at_most cmp) (l1 ++ l2) -> StronglySorted (at_most cmp) (r1 ++ r2) ->
  (forall a b, a ∈ l1 -> b ∈ r2 -> at_most cmp a b) /\ (forall a b, a ∈ r1 -> b ∈ l2 -> cmp a b = Lt).
Proof.
  intros [H1 H2] (_ & Hl1 & Hl2)%StronglySorted_app (_ & Hr1 & Hr2)%StronglySorted_app. split.
  - intros a b Ha Hb. destruct (sorted_last _ _ Hl1 Ha) as (x & Hx & Hax).
    destruct (sorted_head _ _ Hr2 Hb) as (y & Hy & Hyb).
    specialize (H1 x y Hx Hy). apply exactly_not_less, not_lt_le in H1.
    eapply at_most_trans; [done|exact Hax|]. by eapply at_most_trans.
  - intros a b Ha Hb. destruct (sorted_last _ _ Hr1 Ha) as (y & Hy & Hay).
    destruct (sorted_head _ _ Hl2 Hb) as (x & Hx & Hxb).
    specialize (H2 x y Hx Hy). apply exactly_less in H2.
    eapply le_lt_lt; [exact Hay|]. by eapply lt_le_lt.
Qed.

Lemma lt_at_most x y : cmp x y = Lt -> at_most cmp x y.
Proof. unfold at_most. congruence. Qed.

(** Two parts that are each merged, between which the items are in order. *)
Lemma blocks_stable l1 l2 r1 r2 m1 m2 :
  cut exactly l1 l2 r1 r2 ->
  StronglySorted (at_most cmp) (l1 ++ l2) -> StronglySorted (at_most cmp) (r1 ++ r2) ->
  l1 ++ r1 ≡ₚ m1 -> l2 ++ r2 ≡ₚ m2 ->
  StronglySorted (at_most cmp) m1 -> StronglySorted (at_most cmp) m2 ->
  (forall z, ties cmp z m1 = ties cmp z (l1 ++ r1)) -> (forall z, ties cmp z m2 = ties cmp z (l2 ++ r2)) ->
  StronglySorted (at_most cmp) (m1 ++ m2) /\
  forall z, ties cmp z (m1 ++ m2) = ties cmp z ((l1 ++ l2) ++ r1 ++ r2).
Proof.
  intros Hcut Hl Hr P1 P2 S1 S2 T1 T2.
  destruct (cut_blocks _ _ _ _ Hcut Hl Hr) as [Hlr Hrl].
  apply StronglySorted_app in Hl as (Hl & _ & _). apply StronglySorted_app in Hr as (Hr & _ & _).
  split.
  - apply StronglySorted_app. splits; [|done..]. intros a b. rewrite <- P1, <- P2, !elem_of_app.
    intros [Ha|Ha] [Hb|Hb]; auto using lt_at_most.
  - intros z. rewrite !ties_app, T1, T2, !ties_app, <- !app_assoc. f_equal. rewrite !app_assoc. f_equal.
    rewrite <- !ties_app. apply ties_swap; [done|]. intros a b Ha Hb. rewrite (Hrl a b Ha Hb). done.
Qed.

Lemma sym_merged_stable l r m :
  sym_merged exactly l r m -> StronglySorted (at_most cmp) l -> StronglySorted (at_most cmp) r ->
  StronglySorted (at_most cmp) m /\ forall z, ties cmp z m = ties cmp z (l ++ r)
with sym_part_stable l r m :
  sym_part exactly l r m -> StronglySorted (at_most cmp) l -> StronglySorted (at_most cmp) r ->
  StronglySorted (at_most cmp) m /\ forall z, ties cmp z m = ties cmp z (l ++ r).
Proof.
  - intros [x r1 r2 C1 C2|y l1 l2 C1 C2|l1 l2 r1 r2 m1 m2 C H1 H2] Hl Hr.
    + pose proof Hr as (_ & Hr1 & Hr2)%StronglySorted_app.
      apply (blocks_stable [] [x] r1 r2 r1 (x :: r2)); try done.
      constructor; [done|]. apply Forall_forall. intros b Hb.
      destruct (cut_blocks [x] [] [] r2 C2) as [Hle _]; [done|done|]. apply Hle; [left|done].
    + pose proof Hl as (_ & Hl1 & Hl2)%StronglySorted_app.
      replace (l1 ++ y :: l2) with ((l1 ++ [y]) ++ l2) by (by rewrite <- app_assoc).
      apply (blocks_stable l1 l2 [y] [] (l1 ++ [y]) l2); try done.
      * by rewrite app_nil_r.
      * apply StronglySorted_app. splits; [|done|done]. intros a b Ha Hb.
        destruct (cut_blocks l1 [] [] [y] C2) as [Hle _]; [by rewrite app_nil_r|done|]. by apply Hle.
      * by intros z; rewrite app_nil_r.
    + pose proof Hl as (_ & Hl1 & Hl2)%StronglySorted_app.
      pose proof Hr as (_ & Hr1 & Hr2)%StronglySorted_app.
      destruct (sym_part_stable _ _ _ H1 Hl1 Hr1) as [S1 T1].
      destruct (sym_part_stable _ _ _ H2 Hl2 Hr2) as [S2 T2].
      apply (blocks_stable l1 l2 r1 r2); try done; by eapply sym_part_perm.
  - intros [l' r' He|l' r' m' H] Hl Hr; [|by apply sym_merged_stable].
    split; [|done]. destruct He as [->| ->]; [done|by rewrite app_nil_r].
Qed.

Lemma sym_merged_stable_chunks c1 c2 l r m :
  stable_sorting cmp c1 l -> stable_sorting cmp c2 r -> sym_merged exactly l r m ->
  stable_sorting cmp (c1 ++ c2) m.
Proof.
  intros H1 H2 Hm. destruct (sym_merged_stable _ _ _ Hm) as [Hs Ht]; [apply H1|apply H2|].
  by eapply stable_merge.
Qed.

(** *** The three sorts of indices *)
Context (compare : Z -> Z -> M St comparison) (valid : Z -> Prop).
Context (Hcompare : forall a b, valid a -> valid b -> runs (compare a b) (exactly a b)).

Lemma merge_sort_stable l : Forall valid l -> runs (merge_sort compare l) (stable_sorting cmp l).
Proof.
  apply (merge_sort_inv compare valid exactly Hcompare).
  - intros c l'. apply (stable_sorting_perm cmp).
  - apply inserted_all_stable.
  - apply merge_out_stable.
Qed.

Lemma go_stable_sort_stable l : Forall valid l -> runs (go_stable_sort compare l) (stable_sorting cmp l).
Proof.
  apply (go_stable_sort_inv compare valid exactly Hcompare).
  - intros c l'. apply (stable_sorting_perm cmp).
  - apply inserted_all_stable.
  - apply sym_merged_stable_chunks.
Qed.

Lemma sort_stable_stable l : Forall valid l -> runs (sort_stable compare l) (stable_sorting cmp l).
Proof.
  intros Hv. eapply runs_weaken; [by apply (insertion_sort_spec compare valid exactly Hcompare)|].
  apply inserted_all_stable.
Qed.
End Lawful.


(** ** Applying a permutation *)
Section Permute.
Context {T : Type} (items : list T) (ord : list Z) (σ : nat -> nat).
Context (Hlen : length ord = length items) (Hmax : (Z.of_nat (length items) <= u32_max)%Z).
Context (Hσ : forall p, p < length items -> ord !! p = Some (Z.of_nat (σ p)) /\ σ p < length items).
Context (Hinj : forall p q, p < length items -> q < length items -> σ p = σ q -> p = q).
Implicit Types (its : list T) (o : list Z) (p q : nat).

Definition finished o p : Prop := o !! p = Some DONE.

(** Outside the cycle that is followed, each position is finished and has its item, or
    is as it was at the start. *)
Record partial (cur : option nat) its o : Prop := {
  p_items : length its = length items;
  p_order : length o = length items;
  p_done p : finished o p -> its !! p = items !! σ p;
  p_todo p : p < length items -> ~ finished o p -> o !! p = ord !! p /\ (cur <> Some p -> its !! p = items !! p)
}.

(** In the cycle from [start], at [cur]: the item of [start] is there. *)
Record following (start cur : nat) its o : Prop := {
  f_partial : partial (Some cur) its o;
  f_cur : cur < length items /\ ~ finished o cur /\ its !! cur = items !! start;
  f_start : start < length items;
  f_before : cur = start \/ finished o start /\ exists q, q < length items /\ finished o q /\ σ q = cur;
  f_closed p : p < length items -> ~ finished o p -> σ p = start \/ ~ finished o (σ p)
}.

Definition closed o : Prop := forall p, p < length items -> ~ finished o p -> ~ finished o (σ p).

Definition todo o : nat := length (filter (fun z => z <> DONE) o).

Lemma assign_done o p : p < length o -> assign o p DONE = Some (<[p := DONE]> o).
Proof. intros Hp. unfold assign. by destruct (Nat.ltb_spec p (length o)); [|lia]. Qed.

Lemma finished_insert o p q : p < length o -> finished (<[p := DONE]> o) q <-> q = p \/ finished o q.
Proof.
  intros Hp. unfold finished. destruct (decide (q = p)) as [->|Hne].
  - rewrite list_lookup_insert_eq by done. naive_solver.
  - rewrite list_lookup_insert_ne by done. naive_solver.
Qed.

Lemma todo_insert o p : p < length o -> ~ finished o p -> S (todo (<[p := DONE]> o)) = todo o.
Proof.
  unfold todo, finished. revert p. induction o as [|z o IH]; intros [|p] Hp Hd; cbn in Hp; [lia|lia| |].
  - change (<[0 := DONE]> (z :: o)) with (DONE :: o). rewrite !filter_cons.
    rewrite (decide_False (P := DONE <> DONE)) by naive_solver.
    by rewrite decide_True by (intros ->; by apply Hd).
  - change (<[S p := DONE]> (z :: o)) with (z :: <[p := DONE]> o). rewrite !filter_cons.
    specialize (IH p ltac:(lia) Hd). case_decide; cbn [length]; lia.
Qed.

Lemma not_done p i : p < length items -> ord !! p = Some i -> i <> DONE.
Proof. intros Hp Hi. destruct (Hσ p Hp) as [E Hlt]. simplify_eq. unfold DONE. lia. Qed.

Lemma follow_cycle_spec fuel start cur its o :
  following start cur its o -> todo o <= fuel ->
  exists its' o', follow_cycle fuel its o start cur = Some (its', o') /\
    partial None its' o' /\ closed o' /\ finished o' start /\ forall p, finished o p -> finished o' p.
Proof.
  revert cur its o. induction fuel as [|fuel IH]; intros cur its o F Hfuel.
  { destruct (f_cur _ _ _ _ F) as (Hc & Hd & _).
    pose proof (todo_insert o cur) as Ht. rewrite (p_order _ _ _ (f_partial _ _ _ _ F)) in Ht.
    specialize (Ht Hc Hd). lia. }
  destruct F as [P (Hc & Hd & Hit) Hs Hb Hcl]. destruct P as [Pi Po Pd Pt].
  destruct (Pt cur Hc Hd) as [Ho _]. destruct (Hσ cur Hc) as [Eord Hnext].
  cbn [follow_cycle]. rewrite Ho, Eord. cbn [mbind option_bind].
  rewrite Nat2Z.id, assign_done by lia. cbn [mbind option_bind].
  assert (Hfin : forall q, finished (<[cur := DONE]> o) q <-> q = cur \/ finished o q).
  { intros q. apply finished_insert. lia. }
  assert (Hpred : forall p, p < length items -> ~ finished o p -> σ p = cur -> cur = start).
  { intros p Hp Hpd Ep. destruct Hb as [|(_ & q & Hq & Hqd & Eq)]; [done|].
    rewrite <- Eq in Ep. apply Hinj in Ep; [|done..]. by subst. }
  destruct (Nat.eqb_spec (σ cur) start) as [Es|Hne].
  - eexists _, _. splits; [done| | | |].
    + constructor; rewrite ?length_insert; try done.
      * intros p [->|Hp]%Hfin; [by rewrite Hit, Es|by apply Pd].
      * intros p Hp Hn. rewrite Hfin in Hn. destruct (Pt p Hp) as [Ep Eit]; [naive_solver|].
        rewrite list_lookup_insert_ne by naive_solver. split; [done|]. intros _. apply Eit. naive_solver.
    + intros p Hp Hn. rewrite Hfin in Hn |- *. intros [E|E].
      * assert (cur = start) as Ecs by (apply (Hpred p); naive_solver).
        apply Hn. left. apply Hinj; [done|done|]. by rewrite E, Es.
      * destruct (Hcl p Hp) as [E'|E']; [naive_solver| |done].
        apply Hn. left. apply Hinj; [done|done|]. by rewrite E', Es.
    + apply Hfin. destruct Hb as [->|[Hb _]]; [by left|by right].
    + intros p Hp. apply Hfin. by right.
  - assert (Hnd : ~ finished o (σ cur)) by (by destruct (Hcl cur Hc Hd)).
    assert (Hnc : σ cur <> cur) by (intros E; apply Hne; rewrite E; by apply (Hpred cur)).
    destruct (Pt (σ cur) Hnext Hnd) as [_ Eit]. specialize (Eit ltac:(congruence)).
    destruct (lookup_lt_is_Some_2 items (σ cur)) as [x Hx]; [done|].
    destruct (lookup_lt_is_Some_2 items start) as [y Hy]; [done|].
    unfold swap. rewrite Hit, Hy, Eit, Hx. cbn [mbind option_bind].
    edestruct (IH (σ cur) (<[σ cur := y]> (<[cur := x]> its)) (<[cur := DONE]> o)) as (its' & o' & -> & H1 & H2 & H3 & H4).
    + constructor.
      * constructor; rewrite ?length_insert; try done.
        -- intros p Hp%Hfin. destruct (decide (p = cur)) as [->|Hpc].
           { rewrite list_lookup_insert_ne, list_lookup_insert_eq by (done || lia). done. }
           destruct Hp as [|Hp]; [done|]. rewrite !list_lookup_insert_ne; [by apply Pd|done|].
           by intros <-.
        -- intros p Hp Hn. rewrite Hfin in Hn. destruct (Pt p Hp) as [Ep Eip]; [naive_solver|].
           rewrite list_lookup_insert_ne by naive_solver. split; [done|].
           intros Hpn. rewrite !list_lookup_insert_ne by naive_solver. apply Eip. naive_solver.
      * splits; [done|rewrite Hfin; naive_solver|].
        rewrite list_lookup_insert_eq by (rewrite length_insert; lia). done.
      * done.
      * right. split; [|exists cur; by rewrite Hfin; auto].
        apply Hfin. destruct Hb as [->|[Hb _]]; [by left|by right].
      * intros p Hp Hn. rewrite Hfin in Hn |- *.
        destruct (Hcl p Hp) as [E|E]; [naive_solver|by left|].
        destruct (decide (σ p = cur)) as [Epc|Hpc]; [|right; by intros [|]].
        left. rewrite Epc. apply (Hpred p); [done|tauto|done].
    + pose proof (todo_insert o cur) as Ht. rewrite Po in Ht. specialize (Ht Hc Hd). lia.
    + exists its', o'. splits; try done. intros p Hp. apply H4, Hfin. by right.
Qed.

Lemma cycles_spec starts its o :
  partial None its o -> closed o -> Forall (fun p => p < length items) starts ->
  exists its' o', cycles starts its o = Some (its', o') /\ partial None its' o' /\
    (forall p, finished o p -> finished o' p) /\ Forall (finished o') starts.
Proof.
  revert its o. induction starts as [|start starts IH]; intros its o P C Hst.
  { exists its, o. by splits. }
  inversion_clear Hst as [|? ? Hs Hst']. cbn [cycles].
  destruct (lookup_lt_is_Some_2 o start) as [i Hi]; [by rewrite (p_order _ _ _ P)|].
  rewrite Hi. cbn [mbind option_bind]. destruct (Z.eqb_spec i DONE) as [->|Hne].
  - destruct (IH its o P C Hst') as (its' & o' & -> & P' & Hmono & Hf).
    exists its', o'. splits; try done. constructor; [by apply Hmono|done].
  - assert (Hnd : ~ finished o start) by (unfold finished; congruence).
    destruct (follow_cycle_spec (length its) start start its o) as (its1 & o1 & -> & P1 & C1 & Hf1 & Hm1).
    + constructor; [|split; [done|split; [done|]]|done|by left|by right; apply C].
      * destruct P as [Pi Po Pd Pt]. constructor; try done.
        intros p Hp Hpd. destruct (Pt p Hp Hpd) as [? Eit]. split; [done|]. intros _. by apply Eit.
      * destruct P as [Pi Po Pd Pt]. by apply Pt.
    + rewrite (p_items _ _ _ P), <- (p_order _ _ _ P). apply length_filter.
    + cbn [mbind option_bind]. destruct (IH its1 o1 P1 C1 Hst') as (its' & o' & -> & P' & Hmono & Hf).
      exists its', o'. splits; try done; [auto|]. constructor; [by apply Hmono|done].
Qed.

Lemma in_place_spec :
  exists its, apply_permutation_in_place items ord = Some its /\ length its = length items /\
    forall p, p < length items -> its !! p = items !! σ p.
Proof.
  unfold apply_permutation_in_place. rewrite Hlen, Nat.eqb_refl.
  assert (Hnf : forall p, ~ finished ord p).
  { intros p Hp. pose proof (lookup_lt_Some _ _ _ Hp) as Hlt. rewrite Hlen in Hlt.
    by apply (not_done p DONE Hlt Hp). }
  destruct (cycles_spec (seq 0 (length items)) items ord) as (its & o & -> & P & _ & Hf).
  - constructor; try done. intros p Hp. by apply Hnf in Hp.
  - intros p _ _. apply Hnf.
  - apply Forall_forall. intros p Hp%elem_of_seq. lia.
  - exists its. splits; [done|apply P|]. intros p Hp. apply (p_done _ _ _ P).
    rewrite Forall_forall in Hf. apply Hf, elem_of_seq. lia.
Qed.
End Permute.

Lemma take_each_spec {T} (items : list T) taken order :
  NoDup order ->
  Forall (fun i => 0 <= i /\ exists x, taken !! Z.to_nat i = Some (Some x) /\ items !! Z.to_nat i = Some x)%Z order ->
  exists xs, take_each taken order = Some xs /\ length xs = length order /\
    forall p i, order !! p = Some i -> xs !! p = items !! Z.to_nat i.
Proof.
  intros Hnd. revert taken. induction Hnd as [|i order Hi Hnd IH]; intros taken Hall.
  { by exists []. }
  apply Forall_cons in Hall as [(Hi0 & x & Ht & Hx) Hall']. cbn [take_each].
  rewrite Ht. cbn [mbind option_bind].
  destruct (IH (<[Z.to_nat i := None]> taken)) as (xs & -> & Hl & Hlk).
  - rewrite Forall_forall in Hall' |- *. intros j Hj. destruct (Hall' j Hj) as (Hj0 & y & Hy & Hy2).
    split; [done|]. exists y. rewrite list_lookup_insert_ne; [done|].
    intros E%Z2Nat.inj; [|done..]. by subst.
  - cbn [mbind option_bind]. exists (x :: xs). splits; [done|cbn; lia|].
    intros [|p] j Hj; cbn in Hj |- *; [by simplify_eq|by apply Hlk].
Qed.

(** An array of indices that is a permutation of the positions. *)
Definition is_order (len : nat) (order : list Z) : Prop := seqZ 0 (Z.of_nat len) ≡ₚ order.

Section Orders.
Context {T : Type} (items : list T) (order : list Z).
Context (Hmax : (Z.of_nat (length items) <= u32_max)%Z) (Hperm : is_order (length items) order).

Lemma order_elem i : i ∈ order <-> (0 <= i < Z.of_nat (length items))%Z.
Proof. rewrite <- Hperm, elem_of_seqZ. lia. Qed.

Lemma order_length : length order = length items.
Proof. rewrite <- (Permutation_length Hperm), length_seqZ. lia. Qed.

Lemma order_NoDup : NoDup order.
Proof. rewrite <- Hperm. apply NoDup_seqZ. Qed.

Definition target (p : nat) : nat := Z.to_nat (default 0%Z (order !! p)).

Lemma order_target p :
  p < length items -> order !! p = Some (Z.of_nat (target p)) /\ target p < length items.
Proof.
  intros Hp. unfold target. destruct (lookup_lt_is_Some_2 order p) as [i Hi]; [by rewrite order_length|].
  rewrite Hi. cbn. pose proof (proj1 (order_elem i) (list_elem_of_lookup_2 _ _ _ Hi)).
  split; [f_equal; lia|lia].
Qed.

Lemma target_inj p q : p < length items -> q < length items -> target p = target q -> p = q.
Proof.
  intros Hp Hq E. destruct (order_target p Hp) as [Ep _], (order_target q Hq) as [Eq _].
  rewrite E in Ep. exact (NoDup_lookup _ _ _ _ order_NoDup Ep Eq).
Qed.

Lemma apply_permutation_spec :
  exists xs, apply_permutation items order = Some xs /\ apply_permutation_in_place items order = Some xs /\
    length xs = length items /\ forall p i, order !! p = Some i -> xs !! p = items !! Z.to_nat i.
Proof.
  unfold apply_permutation. rewrite order_length, Nat.eqb_refl.
  destruct (take_each_spec items (Some <$> items) order) as (xs & Hxs & Hl & Hlk).
  - apply order_NoDup.
  - apply Forall_forall. intros i Hi%order_elem. split; [lia|].
    destruct (lookup_lt_is_Some_2 items (Z.to_nat i)) as [x Hx]; [lia|].
    exists x. by rewrite list_lookup_fmap, Hx.
  - exists xs. rewrite order_length in Hl. splits; [done| |done|done].
    destruct (in_place_spec items order target order_length Hmax order_target target_inj)
      as (its & -> & Hil & Hit).
    f_equal. apply list_eq_same_length with (length items); [done..|]. intros p x y Hp Hx Hy.
    destruct (order_target p Hp) as [Ep _]. rewrite (Hit p Hp) in Hx. rewrite (Hlk p _ Ep), Nat2Z.id in Hy. congruence.
Qed.
End Orders.

(** ** The sorts of items *)
Section SortItems.
Context {St T : Type} (items : list T) (d : T).
Context (Hmax : (Z.of_nat (length items) <= u32_max)%Z).

(** The item at an index. *)
Definition item_at (i : Z) : T := nth (Z.to_nat i) items d.
Definition position (i : Z) : Prop := (0 <= i < Z.of_nat (length items))%Z.

Lemma item_at_lookup i : position i -> items !! Z.to_nat i = Some (item_at i).
Proof. intros Hi. unfold item_at. unfold position in Hi.
  destruct (nth_lookup_or_length items (Z.to_nat i) d); [done|lia].
Qed.

Lemma items_by_index : item_at <$> seqZ 0 (Z.of_nat (length items)) = items.
Proof.
  apply list_eq_same_length with (length items); [done|by rewrite length_fmap, length_seqZ, Nat2Z.id|].
  intros p x y Hp Hx Hy. rewrite list_lookup_fmap, lookup_seqZ_lt in Hx by lia. cbn in Hx.
  injection Hx as <-. rewrite <- (Nat2Z.id p) in Hy. rewrite item_at_lookup in Hy by (unfold position; lia).
  by injection Hy.
Qed.

Lemma identity_ok : identity (length items) = Some (seqZ 0 (Z.of_nat (length items))).
Proof. unfold identity. destruct (Z.leb_spec (Z.of_nat (length items)) u32_max); [done|lia]. Qed.

Lemma identity_valid : Forall position (seqZ 0 (Z.of_nat (length items))).
Proof. apply Forall_forall. intros i Hi%elem_of_seqZ. unfold position. lia. Qed.

Lemma apply_order order :
  is_order (length items) order ->
  apply_permutation items order = Some (item_at <$> order) /\
  apply_permutation_in_place items order = Some (item_at <$> order).
Proof.
  intros Ho. destruct (apply_permutation_spec items order Hmax Ho) as (xs & -> & -> & Hl & Hlk).
  assert (xs = item_at <$> order) as ->; [|done].
  pose proof (order_length items order Ho) as Hol.
  apply list_eq_same_length with (length items); [by rewrite length_fmap|done|].
  intros p x y Hp Hx Hy. destruct (lookup_lt_is_Some_2 order p) as [i Hi]; [lia|].
  rewrite (Hlk p i Hi) in Hx. rewrite list_lookup_fmap, Hi in Hy. cbn in Hy. injection Hy as <-.
  rewrite item_at_lookup in Hx; [by injection Hx|].
  apply (order_elem items order Ho). by eapply list_elem_of_lookup_2.
Qed.

Lemma order_items order : is_order (length items) order -> items ≡ₚ item_at <$> order.
Proof. intros Ho. rewrite <- items_by_index at 1. by apply fmap_Permutation. Qed.

Lemma item_at_elem i : position i -> item_at i ∈ items.
Proof. intros Hi%item_at_lookup. by eapply list_elem_of_lookup_2. Qed.

Lemma compare_items_runs (cmp : T -> T -> M St comparison) (P : T -> T -> comparison -> Prop) :
  (forall x y, x ∈ items -> y ∈ items -> runs (cmp x y) (P x y)) ->
  forall a b, position a -> position b -> runs (compare_items cmp items a b) (P (item_at a) (item_at b)).
Proof.
  intros Hcmp a b Ha Hb. unfold compare_items.
  eapply runs_lift_bind; [by apply item_at_lookup|]. eapply runs_lift_bind; [by apply item_at_lookup|].
  apply Hcmp; by apply item_at_elem.
Qed.

(** A sort of the indices sorts the items. *)
Lemma slice_by_order (sort : M St (list Z)) (Q : list Z -> Prop) (apply : list T -> list Z -> option (list T)) :
  (forall order, is_order (length items) order -> apply items order = Some (item_at <$> order)) ->
  runs sort Q -> (forall order, Q order -> is_order (length items) order) ->
  runs (order ← sort; lift (apply items order)) (fun l => exists order, Q order /\ l = item_at <$> order).
Proof.
  intros Happly Hs Ho. eapply runs_bind; [exact Hs|]. intros order HQ.
  eapply runs_lift; [by apply Happly, Ho|]. by exists order.
Qed.

Lemma Sorted_items (R : relation T) l :
  Sorted (fun i j => R (item_at i) (item_at j)) l <-> Sorted R (item_at <$> l).
Proof.
  induction l as [|i l IH]; cbn; [split; constructor|]. split; intros H; inversion_clear H as [|? ? Hs Hd];
    (constructor; [by apply IH|]); destruct l; inversion_clear Hd; by constructor.
Qed.

Lemma StronglySorted_items (R : relation T) l :
  StronglySorted (fun i j => R (item_at i) (item_at j)) l -> StronglySorted R (item_at <$> l).
Proof. induction 1 as [|i l Hs IH Hi]; cbn; constructor; [done|]. by apply Forall_fmap. Qed.

(** A stable sort of the indices by the items they stand for is one of the items. *)
Lemma stable_order (ord : T -> T -> comparison) `{!CmpLaws ord} order :
  stable_sorting (cmp_on item_at ord) (seqZ 0 (Z.of_nat (length items))) order ->
  item_at <$> order = stable_sort ord items.
Proof.
  intros [Hs Ht]. apply stable_sorting_unique; [done|]. split; [by apply StronglySorted_items|].
  intros x. rewrite <- items_by_index at 1. rewrite !ties_fmap. f_equal.
  set (P := fun i => ord x (item_at i) = Eq).
  destruct (filter P (seqZ 0 (Z.of_nat (length items))) ++ filter P order) as [|j js] eqn:E.
  { apply app_eq_nil in E as [-> ->]. done. }
  assert (Hj : ord x (item_at j) = Eq).
  { assert (j ∈ filter P (seqZ 0 (Z.of_nat (length items))) ++ filter P order) as Hj by (rewrite E; left).
    apply elem_of_app in Hj as [Hj|Hj]; by apply list_elem_of_filter in Hj as [Hj _]. }
  assert (HP : forall i, P i <-> cmp_on item_at ord j i = Eq).
  { intros i. unfold P, cmp_on. by rewrite (cmp_eq_l ord x (item_at j) (item_at i) Hj). }
  rewrite !(list_filter_iff _ _ _ HP). apply Ht.
Qed.
End SortItems.

(** ** The properties *)
(** A sort by way of [merge_sort] or [go_stable_sort], on at least two items. *)
Lemma sort_slice_runs {St T} (items : list T) (d : T) (sort : list Z -> M St (list Z))
    (apply : list T -> list Z -> option (list T)) (Q : list Z -> list Z -> Prop) (R : list T -> Prop) :
  (Z.of_nat (length items) <= u32_max)%Z ->
  (forall order, is_order (length items) order -> apply items order = Some (item_at items d <$> order)) ->
  (forall l, Forall (position items) l -> runs (sort l) (Q l)) ->
  (forall l l', Q l l' -> l ≡ₚ l') ->
  (forall order, Q (seqZ 0 (Z.of_nat (length items))) order -> R (item_at items d <$> order)) ->
  runs (order ← (order ← lift (identity (length items)); sort order); lift (apply items order)) R.
Proof.
  intros Hmax Happly Hsort Hperm HR. eapply runs_weaken.
  - eapply (slice_by_order items d); [exact Happly| |].
    + eapply runs_lift_bind; [by apply identity_ok|]. by apply Hsort, identity_valid.
    + intros order HQ. exact (Hperm _ _ HQ).
  - intros l (order & HQ & ->). auto.
Qed.

Lemma apply_slice_order {T} (items : list T) d :
  (Z.of_nat (length items) <= u32_max)%Z ->
  forall order, is_order (length items) order ->
  apply_permutation_in_place items order = Some (item_at items d <$> order).
Proof. intros Hmax order Ho. by apply apply_order. Qed.

Lemma apply_vec_order {T} (items : list T) d :
  (Z.of_nat (length items) <= u32_max)%Z ->
  forall order, is_order (length items) order ->
  apply_permutation items order = Some (item_at items d <$> order).
Proof. intros Hmax order Ho. by apply apply_order. Qed.

(** Fewer than two items are left alone. *)
Ltac few items :=
  destruct (Nat.ltb_spec (length items) 2) as [Hfew|Hmany];
  [destruct items as [|? [|]]; cbn in Hfew; [|(apply runs_ret || idtac)|lia]; try apply runs_ret
  |assert (exists d, d ∈ items) as [d _] by (destruct items as [|d]; [cbn in Hmany; lia|exists d; left])].

Section Claims.
Context {St T : Type} (items : list T).
Context (Hmax : (Z.of_nat (length items) <= u32_max)%Z).

(** C24. The merge sorts end with the items they were given, whatever the comparison
    answers and whatever state it keeps: they do not panic, read out of range or loop,
    even if the answers go in a circle or change from call to call. *)
Theorem sorts_keep_items (cmp : T -> T -> M St comparison) :
  (forall x y, x ∈ items -> y ∈ items -> runs (cmp x y) (fun _ => True)) ->
  runs (merge_sort_slice_by cmp items) (Permutation items) /\
  runs (go_stable_sort_slice_by cmp items) (Permutation items).
Proof.
  intros Hcmp. unfold merge_sort_slice_by, go_stable_sort_slice_by.
  split; few items; try done.
  - eapply (sort_slice_runs items d); [done|by apply apply_slice_order| |done|].
    + intros l. apply (merge_sort_perm _ _ (fun _ _ _ => True)).
      by apply (compare_items_runs items d cmp (fun _ _ _ => True)).
    + intros order Ho. by apply order_items.
  - eapply (sort_slice_runs items d); [done|by apply apply_slice_order| |done|].
    + intros l. apply (go_stable_sort_perm _ _ (fun _ _ _ => True)).
      by apply (compare_items_runs items d cmp (fun _ _ _ => True)).
    + intros order Ho. by apply order_items.
Qed.

(** If the comparison need not be transitive, but answers [(b, a)] with the opposite of
    [(a, b)], [merge_sort_slice_by] still leaves no item less than the one before it, and
    what is like that already stays as it is. *)
Theorem merge_sort_neighbors (cmp : T -> T -> M St comparison) (ord : T -> T -> comparison) :
  (forall x y, x ∈ items -> y ∈ items -> runs (cmp x y) (fun c => c = ord x y)) ->
  (forall x y, ord y x = CompOpp (ord x y)) ->
  let ascending := Sorted (fun x y => ord y x <> Lt) in
  runs (merge_sort_slice_by cmp items)
    (fun l => items ≡ₚ l /\ ascending l /\ (ascending items -> l = items)).
Proof.
  intros Hcmp Hopp asc. unfold merge_sort_slice_by. few items.
  - by splits; [|constructor|].
  - by splits; [|repeat constructor|].
  - set (ordI := cmp_on (item_at items d) ord).
    assert (Hasc : forall l, ascending (exactly ordI) l <-> asc (item_at items d <$> l)).
    { intros l. unfold asc. rewrite <- (Sorted_items items d (fun x y => ord y x <> Lt)).
      split; apply Sorted_weaken; intros x y; apply (exactly_not_less ordI y x). }
    eapply (sort_slice_runs items d _ _ (fun l l' => l ≡ₚ l' /\ ascending (exactly ordI) l' /\
      (ascending (exactly ordI) l -> l' = l))); [done|by apply apply_slice_order| | |].
    + intros l. apply (merge_sort_ascending _ _ (exactly ordI)).
      * by apply (compare_items_runs items d cmp (fun x y c => c = ord x y)).
      * apply exactly_opposite. intros x y. apply Hopp.
      * apply exactly_decided.
    + by intros l l' [? _].
    + intros order (Ho & Has & Hkeep). splits; [by apply order_items|by apply Hasc|].
      intros Hs. rewrite Hkeep; [by apply items_by_index|].
      apply Hasc. by rewrite items_by_index.
Qed.

(** C23. For a total preorder all the sorts are the stable sort: the items are in order, and
    those that compare equal keep the order they had. *)
Theorem sorts_are_stable (cmp : T -> T -> M St comparison) (ord : T -> T -> comparison) `{!CmpLaws ord} :
  (forall x y, x ∈ items -> y ∈ items -> runs (cmp x y) (fun c => c = ord x y)) ->
  let sorted_items l := l = stable_sort ord items in
  runs (sort_vec_by cmp items) sorted_items /\
  runs (sort_slice_by cmp items) sorted_items /\
  runs (merge_sort_slice_by cmp items) sorted_items /\
  runs (go_stable_sort_slice_by cmp items) sorted_items /\
  StronglySorted (at_most ord) (stable_sort ord items) /\
  (forall x, ties ord x (stable_sort ord items) = ties ord x items).
Proof.
  intros Hcmp sorted_items. pose proof (stable_sort_ok ord items) as [Hs Ht].
  destruct (Nat.ltb_spec (length items) 2) as [Hfew|Hmany].
  { assert (Hitems : stable_sort ord items = items) by (by destruct items as [|? [|]]; [..|cbn in Hfew; lia]).
    unfold sort_vec_by, sort_slice_by, merge_sort_slice_by, go_stable_sort_slice_by.
    destruct (Nat.ltb_spec (length items) 2); [|lia].
    splits; try done; apply runs_ret; unfold sorted_items; by rewrite Hitems. }
  assert (exists d, d ∈ items) as [d _] by (destruct items as [|d]; [cbn in Hmany; lia|exists d; left]).
  set (ordI := cmp_on (item_at items d) ord).
  pose proof (compare_items_runs items d cmp (fun x y c => c = ord x y) Hcmp) as Hcmp'.
  assert (Hsort : forall sort apply,
    (forall order, is_order (length items) order -> apply items order = Some (item_at items d <$> order)) ->
    (forall l, Forall (position items) l -> runs (sort l) (stable_sorting ordI l)) ->
    runs (St := St) (order ← (order ← lift (identity (length items)); sort order); lift (apply items order))
      sorted_items).
  { intros sort apply Ha Hst. eapply (sort_slice_runs items d); [done|exact Ha|exact Hst| |].
    - intros l l'. apply (stable_sorting_perm ordI).
    - intros order. by apply stable_order. }
  unfold sort_vec_by, sort_slice_by, merge_sort_slice_by, go_stable_sort_slice_by.
  destruct (Nat.ltb_spec (length items) 2); [lia|].
  splits; try done; apply Hsort.
  - by apply apply_vec_order.
  - by apply (sort_stable_stable ordI _ (position items)).
  - by apply apply_slice_order.
  - by apply (sort_stable_stable ordI _ (position items)).
  - by apply apply_slice_order.
  - by apply (merge_sort_stable ordI _ (position items)).
  - by apply apply_slice_order.
  - by apply (go_stable_sort_stable ordI _ (position items)).
Qed.

(** Following the cycles in place does what building a new vector does: with a
    permutation of the positions, no read is out of range, the loop of a cycle ends, and
    the item at [p] becomes the one that was at [order[p]]. *)
Theorem in_place_permutation (order : list Z) :
  seqZ 0 (Z.of_nat (length items)) ≡ₚ order ->
  exists xs, apply_permutation_in_place items order = Some xs /\
    apply_permutation items order = Some xs /\ items ≡ₚ xs /\
    forall p i, order !! p = Some i -> xs !! p = items !! Z.to_nat i.
Proof.
  intros Ho. destruct (apply_permutation_spec items order Hmax Ho) as (xs & Ha & Hi & _ & Hlk).
  exists xs. splits; try done. destruct items as [|d items'] eqn:E.
  { pose proof (order_length [] order Ho) as Hl. destruct order; [|done].
    cbn in Ha. by injection Ha as <-. }
  rewrite <- E in *. destruct (apply_order items d Hmax order Ho) as [Ha' _].
  rewrite Ha in Ha'. injection Ha' as ->. by apply order_items.
Qed.

Lemma partition_loop_spec (pred : T -> M St bool) (p : T -> bool) front behind rest :
  (forall x, x ∈ rest -> runs (pred x) (fun b => b = p x)) ->
  runs (partition_loop pred (seq (length front + length behind) (length rest)) (front ++ behind ++ rest) (length front))
    (fun '(l, n) => l = (front ++ filter (fun x => p x = true) rest) ++ behind ++ filter (fun x => p x = false) rest /\
      n = length front + length (filter (fun x => p x = true) rest)).
Proof.
  revert front behind. induction rest as [|x rest IH]; intros front behind Hp.
  { apply runs_ret. rewrite !filter_nil, !app_nil_r. split; [done|cbn; lia]. }
  cbn [length seq partition_loop]. rewrite !filter_cons.
  eapply runs_lift_bind; [rewrite app_assoc; apply list_lookup_middle; by rewrite length_app|].
  eapply runs_bind; [apply Hp; left|]. intros b Hb. cbn beta in Hb. subst b.
  assert (Hp' : forall y, y ∈ rest -> runs (pred y) (fun b => b = p y)) by (intros y Hy; apply Hp; by right).
  destruct (p x) eqn:Ex; cbn iota.
  - eapply runs_lift_bind.
    { replace (front ++ behind ++ x :: rest) with (front ++ (behind ++ [x]) ++ rest) by (by rewrite <- !app_assoc).
      apply in_slice_app; [done|rewrite length_app; cbn; lia|apply rotate_right_snoc]. }
    specialize (IH (front ++ [x]) behind Hp'). rewrite length_app in IH. cbn [length] in IH.
    replace (S (length front + length behind)) with (length front + 1 + length behind) by lia.
    replace (S (length front)) with (length front + 1) by lia.
    replace (front ++ (x :: behind) ++ rest) with ((front ++ [x]) ++ behind ++ rest) by (by rewrite <- app_assoc).
    eapply runs_weaken; [exact IH|]. intros [l n] [-> ->].
    rewrite decide_True, decide_False by done. rewrite <- !app_assoc. cbn [length]. split; [done|lia].
  - specialize (IH front (behind ++ [x]) Hp'). rewrite length_app in IH. cbn [length] in IH.
    replace (S (length front + length behind)) with (length front + (length behind + 1)) by lia.
    replace (front ++ behind ++ x :: rest) with (front ++ (behind ++ [x]) ++ rest) by (by rewrite <- !app_assoc).
    eapply runs_weaken; [exact IH|]. intros [l n] [-> ->].
    rewrite decide_False, decide_True by done. by rewrite <- !app_assoc.
Qed.

Lemma stable_partition_spec (pred : T -> M St bool) (p : T -> bool) :
  (forall x, x ∈ items -> runs (pred x) (fun b => b = p x)) ->
  runs (stable_partition pred items)
    (fun '(l, n) => l = filter (fun x => p x = true) items ++ filter (fun x => p x = false) items /\
      n = length (filter (fun x => p x = true) items)).
Proof. intros Hp. exact (partition_loop_spec pred p [] [] items Hp). Qed.

Lemma map_each_spec {K} (key : T -> M St K) (k : T -> K) l :
  (forall x, x ∈ l -> runs (key x) (fun y => y = k x)) -> runs (map_each key l) (fun ys => ys = k <$> l).
Proof.
  induction l as [|x l IH]; intros Hk; cbn [map_each]; [by apply runs_ret|].
  eapply runs_bind; [apply Hk; left|]. intros y Hy. cbn beta in Hy. subst y.
  eapply runs_bind; [apply IH; intros y Hy; apply Hk; by right|]. intros ys Hys. cbn beta in Hys. subst ys.
  by apply runs_ret.
Qed.

(** The keys of [sort_slice_by_cached_key] are computed once each, and order the items. *)
Lemma sort_by_cached_key_stable {K} (key : T -> M St K) (k : T -> K) (ord : K -> K -> comparison) `{!CmpLaws ord} :
  (forall x, x ∈ items -> runs (key x) (fun y => y = k x)) ->
  runs (sort_slice_by_cached_key key ord items) (fun l => l = stable_sort (cmp_on k ord) items).
Proof.
  intros Hk. unfold sort_slice_by_cached_key. few items; [done|done|].
  eapply runs_bind; [by apply (map_each_spec key k)|]. intros keys ->.
  set (ordI := cmp_on (item_at items d) (cmp_on k ord)).
  assert (Hcmp : forall a b, position items a -> position items b ->
    runs (compare_items (St := St) (fun x y => mret (ord x y)) (k <$> items) a b) (exactly ordI a b)).
  { intros a b Ha Hb.
    eapply runs_weaken.
    { apply (compare_items_runs (k <$> items) (k d) _ (fun x y c => c = ord x y));
        [intros; by apply runs_ret|unfold position; by rewrite length_fmap..]. }
    intros c ->. unfold exactly, ordI, cmp_on, item_at. f_equal; apply map_nth. }
  eapply (sort_slice_runs items d _ _ (stable_sorting ordI)); [done|by apply apply_slice_order| | |].
  - by apply (sort_stable_stable ordI _ (position items)).
  - intros l l'. apply (stable_sorting_perm ordI).
  - intros order Ho. by apply (stable_order items d (cmp_on k ord)).
Qed.
End Claims.

(** ** Concrete sorts *)

(** Rock, paper, scissors: an answer depends on both items, and there is no order. *)
Definition beats (x y : Z) : comparison :=
  match ((x - y) mod 3)%Z with 0%Z => Eq | 1%Z => Gt | _ => Lt end.
Definition counted {T} (ord : T -> T -> comparison) (x y : T) : M nat comparison := fun n => Some (ord x y, S n).

Lemma counted_runs {T} (ord : T -> T -> comparison) x y (P : comparison -> Prop) :
  P (ord x y) -> runs (counted ord x y) P.
Proof. intros H n. by exists (ord x y), (S n). Qed.

Lemma sorts_keep_items_witness :
  runs (merge_sort_slice_by (counted beats) [0; 1; 2; 0; 2; 1]%Z) (Permutation [0; 1; 2; 0; 2; 1]%Z) /\
  runs (go_stable_sort_slice_by (counted beats) [0; 1; 2; 0; 2; 1]%Z) (Permutation [0; 1; 2; 0; 2; 1]%Z).
Proof.
  apply sorts_keep_items; [by vm_compute|]. intros x y _ _. by apply counted_runs.
Defined.

Lemma merge_sort_neighbors_witness :
  runs (merge_sort_slice_by (counted beats) [0; 1; 2; 0; 2; 1]%Z)
    (fun l => [0; 1; 2; 0; 2; 1]%Z ≡ₚ l /\ Sorted (fun x y => beats y x <> Lt) l /\
      (Sorted (fun x y => beats y x <> Lt) [0; 1; 2; 0; 2; 1]%Z -> l = [0; 1; 2; 0; 2; 1]%Z)).
Proof.
  apply merge_sort_neighbors; [by vm_compute| |].
  - intros x y _ _. by apply counted_runs.
  - intros x y. unfold beats. replace (y - x)%Z with (- (x - y))%Z by lia.
    pose proof (Z.mod_pos_bound (x - y) 3).
    destruct (Z.eq_dec ((x - y) mod 3)%Z 0%Z) as [E|E].
    { by rewrite Z.mod_opp_l_z, E by lia. }
    rewrite Z.mod_opp_l_nz by lia.
    assert (((x - y) mod 3 = 1 \/ (x - y) mod 3 = 2)%Z) as [->| ->] by lia; done.
Defined.

Lemma sorts_are_stable_witness :
  let items := [25; 31; 10; 1; 21; 5]%Z in
  let ord := cmp_on (fun x => x mod 10)%Z Z.compare in
  let sorted_items l := l = stable_sort ord items in
  stable_sort ord items = [10; 31; 1; 21; 25; 5]%Z /\
  runs (sort_vec_by (counted ord) items) sorted_items /\
  runs (sort_slice_by (counted ord) items) sorted_items /\
  runs (merge_sort_slice_by (counted ord) items) sorted_items /\
  runs (go_stable_sort_slice_by (counted ord) items) sorted_items /\
  StronglySorted (at_most ord) (stable_sort ord items) /\
  (forall x, ties ord x (stable_sort ord items) = ties ord x items).
Proof.
  intros items ord sorted_items. split; [by vm_compute|].
  apply (sorts_are_stable items ltac:(by vm_compute) (counted ord) ord).
  intros x y _ _. by apply counted_runs.
Defined.

Lemma in_place_permutation_witness :
  exists xs, apply_permutation_in_place [70; 71; 72; 73]%Z [2; 0; 1; 3]%Z = Some xs /\
    apply_permutation [70; 71; 72; 73]%Z [2; 0; 1; 3]%Z = Some xs /\
    [70; 71; 72; 73]%Z ≡ₚ xs /\
    forall p i, [2; 0; 1; 3]%Z !! p = Some i -> xs !! p = [70; 71; 72; 73]%Z !! Z.to_nat i.
Proof.
  apply in_place_permutation; [by vm_compute|]. apply (bool_decide_unpack _). vm_compute. exact I.
Defined.
