(* ===== verification/MultiArraySort.v ===== *)
(** * Sorting a list of columns (src/collections/multi_array_list.rs)

    A [MultiArrayList] keeps its rows as columns, and sorts them in place by swapping rows;
    the comparison is told two indices and reads the columns itself, as they are then.  Here
    the list is its rows, and the comparison is given the rows with the indices.  The stable
    variant, the one that is used, is an insertion sort; it is proved to be the stable sort. *)

From S2P Require Import Prelude StableSort.

#[local] Open Scope nat_scope.

Section Sort.
Context {T : Type}.

(** [less(i, j)] on the rows as they are; [None] is an index out of range. *)
Context (less : list T -> nat -> nat -> option bool).

Definition swap_rows (rows : list T) (a b : nat) : option (list T) :=
  if a =? b then Some rows
  else x ← rows !! a; y ← rows !! b; Some (<[a := y]> (<[b := x]> rows)).

(** [while j > a && less(j, j - 1)] *)
Fixpoint insert_back (rows : list T) (a j : nat) : option (list T) :=
  match j with
  | S j' =>
      if a <? j then
        is_less ← less rows j j';
        if is_less : bool then rows ← swap_rows rows j j'; insert_back rows a j' else Some rows
      else Some rows
  | O => Some rows
  end.

(** [while i < b], for the [i] that are left. *)
Fixpoint insert_all (rows : list T) (a : nat) (is_ : list nat) : option (list T) :=
  match is_ with
  | [] => Some rows
  | i :: is_ => rows ← insert_back rows a i; insert_all rows a is_
  end.

(** [bun_collections_sort_context] *)
Definition sort_context (rows : list T) (a b : nat) : option (list T) :=
  if b <=? a then Some rows else insert_all rows a (seq (a + 1) (b - a - 1)).

End Sort.

(** A comparison of rows, where a tie goes to the first index. *)
Definition less_by {T} (cmp : T -> T -> comparison) (rows : list T) (i j : nat) : option bool :=
  x ← rows !! i; y ← rows !! j;
  Some match cmp x y with Lt => true | Gt => false | Eq => i <? j end.

(** ** The insertion sort is the stable sort *)
Section Insertion.
Context {T : Type} (cmp : T -> T -> comparison) `{!CmpLaws cmp}.
Implicit Types (l : list T) (x y : T).

Lemma swap_adjacent l1 y x l2 : swap_rows (l1 ++ y :: x :: l2) (S (length l1)) (length l1) = Some (l1 ++ x :: y :: l2).
Proof.
  unfold swap_rows. rewrite (proj2 (Nat.eqb_neq _ _)) by lia.
  rewrite !lookup_app_r, Nat.sub_diag by lia. replace (S (length l1) - length l1) with 1 by lia. cbn.
  rewrite !insert_app_r_alt, Nat.sub_diag by (rewrite ?length_insert, ?length_app; lia).
  replace (S (length l1) - length l1) with 1 by lia. done.
Qed.

Lemma less_adjacent l1 y x l2 :
  less_by cmp (l1 ++ y :: x :: l2) (S (length l1)) (length l1) = Some match cmp x y with Lt => true | _ => false end.
Proof.
  unfold less_by. rewrite !lookup_app_r, Nat.sub_diag by lia. replace (S (length l1) - length l1) with 1 by lia. cbn [lookup list_lookup mbind option_bind].
  rewrite (proj2 (Nat.ltb_ge _ _)) by lia. by destruct (cmp x y).
Qed.

(** Where the row at [length l] goes: behind the rows that are not greater. *)
Lemma insert_back_spec l x suf :
  StronglySorted (at_most cmp) l ->
  exists l1 l2, insert_back (less_by cmp) (l ++ x :: suf) 0 (length l) = Some (l1 ++ x :: l2 ++ suf) /\
    l = l1 ++ l2 /\ Forall (fun y => at_most cmp y x) l1 /\ Forall (fun y => cmp x y = Lt) l2.
Proof.
  revert suf. induction l as [|y l IH] using rev_ind; intros suf Hs; [by exists [], []|].
  assert (Hsl : StronglySorted (at_most cmp) l /\ Forall (fun z => at_most cmp z y) l).
  { clear IH. induction l as [|z l IH]; [split; constructor|]. apply StronglySorted_inv in Hs as [Hs Hz].
    apply Forall_app in Hz as [Hz1 Hz2]. apply Forall_cons in Hz2 as [Hz2 _]. destruct (IH Hs) as [? ?].
    split; constructor; done. }
  destruct Hsl as [Hl Hy]. rewrite <-app_assoc, length_app, Nat.add_1_r. cbn [app length insert_back Nat.ltb Nat.leb].
  rewrite less_adjacent. cbn [mbind option_bind]. destruct (cmp x y) eqn:E.
  - exists (l ++ [y]), []. rewrite app_nil_r, <-app_assoc. splits; [done|done| |constructor].
    apply Forall_app. assert (Hyx : at_most cmp y x) by (unfold at_most; rewrite (cmp_eq_sym cmp x y E); done).
    split; [|by apply Forall_singleton]. eapply Forall_impl; [exact Hy|]. intros z Hz. by trans y.
  - rewrite swap_adjacent. cbn [mbind option_bind]. destruct (IH (y :: suf) Hl) as (l1 & l2 & E1 & -> & H1 & H2).
    exists l1, (l2 ++ [y]). rewrite E1, <-!app_assoc. splits; [done|done|done|]. apply Forall_app. split; [done|by apply Forall_singleton].
  - exists (l ++ [y]), []. rewrite app_nil_r, <-app_assoc. splits; [done|done| |constructor].
    apply Forall_app. assert (Hyx : at_most cmp y x) by (unfold at_most; rewrite (cmp_flip (compare := cmp) x y), E; done).
    split; [|by apply Forall_singleton]. eapply Forall_impl; [exact Hy|]. intros z Hz. by trans y.
Qed.

Lemma insert_keeps_stable L l x l1 l2 :
  stable_sorting cmp L l -> l = l1 ++ l2 -> Forall (fun y => at_most cmp y x) l1 -> Forall (fun y => cmp x y = Lt) l2 ->
  stable_sorting cmp (L ++ [x]) (l1 ++ x :: l2).
Proof.
  intros [Hs Ht] -> H1 H2. split.
  - clear Ht. induction l1 as [|y l1 IH]; cbn in *.
    + constructor; [done|]. eapply Forall_impl; [exact H2|]. intros z Hz. unfold at_most. by rewrite Hz.
    + apply StronglySorted_inv in Hs as [Hs Hy]. apply Forall_cons in H1 as [Hyx H1]. constructor; [by apply IH|].
      apply Forall_app in Hy as [Hy1 Hy2]. apply Forall_app. split; [done|]. by constructor.
  - intros z. change (x :: l2) with ([x] ++ l2). rewrite ties_app, (ties_swap cmp z [x] l2), ties_app, app_assoc, <-(ties_app cmp z l1), Ht, <-ties_app; [done|].
    intros a b ->%list_elem_of_singleton Hb. rewrite Forall_forall in H2. by rewrite H2.
Qed.

Lemma insert_all_spec rest L l :
  stable_sorting cmp L l ->
  exists l', insert_all (less_by cmp) (l ++ rest) 0 (seq (length l) (length rest)) = Some l' /\ stable_sorting cmp (L ++ rest) l'.
Proof.
  revert L l. induction rest as [|x rest IH]; intros L l Hl; cbn [seq insert_all length].
  - exists l. by rewrite !app_nil_r.
  - destruct (insert_back_spec l x rest (proj1 Hl)) as (l1 & l2 & E & Hll & H1 & H2). rewrite E. cbn [mbind option_bind].
    pose proof (insert_keeps_stable L l x l1 l2 Hl Hll H1 H2) as Hl'. destruct (IH (L ++ [x]) (l1 ++ x :: l2) Hl') as (l' & E' & H').
    exists l'. rewrite <-app_assoc in H'. split; [|done]. rewrite <-E'. rewrite <-app_assoc. cbn [app]. f_equal. f_equal.
    rewrite Hll, !length_app. cbn. lia.
Qed.

(** Sorting all rows gives the stable sort, whatever they are. *)
Lemma sort_context_spec l : sort_context (less_by cmp) l 0 (length l) = Some (stable_sort cmp l).
Proof.
  unfold sort_context. destruct l as [|x l]; [done|]. cbn [length]. rewrite (proj2 (Nat.leb_gt _ _)) by lia.
  destruct (insert_all_spec l [x] [x]) as (l' & E & H).
  - split; [by repeat constructor|done].
  - replace (S (length l) - 0 - 1) with (length l) by lia. change (0 + 1) with (length [x]). cbn [app] in E, H.
    rewrite E. f_equal. by apply stable_sorting_unique.
Qed.
End Insertion.
