(* ===== verification/DiffHunks.v ===== *)
(** * Hunks of a diff (text_diff/lib.rs)

    The data of the differ and the passes over a list of hunks: collecting the runs of
    changed elements, trimming and joining, sliding an edit over the text it repeats, and
    widening to whole characters.  [script] says what a list of hunks must be: in order,
    in range, and with equal text between the hunks; [patch] rebuilds the new text from
    the old one and the hunks.  Every pass keeps [script].

    [Elem] is the source's trait and [ElemLaws] what the passes and the search rely on; the
    three instances are in DiffElems.v. *)

From S2P Require Import Prelude Bytes.

#[local] Open Scope nat_scope.

Record Hunk := { a_lo : nat; a_hi : nat; b_lo : nat; b_hi : nat }.

(** A subtraction of [usize]; below zero it panics or wraps, which no theorem allows. *)
Definition usub (x y : nat) : option nat := if y <=? x then Some (x - y) else None.

Definition deleted (h : Hunk) : option nat := usub (a_hi h) (a_lo h).
Definition inserted (h : Hunk) : option nat := usub (b_hi h) (b_lo h).

(** ** Elements *)
Class Elem (T : Type) := {
  elem_eq :: EqDecision T;
  anchored : bool;
  elem_id : T -> option nat;
  is_newline : T -> bool;
  continues_character : T -> bool;
  elem_find : list T -> list T -> Z -> option (option nat * Z);
  common_prefix : list T -> list T -> option nat;
  common_suffix : list T -> list T -> option nat
}.

(** The loops of the trait's own [common_prefix] and [common_suffix]. *)
Fixpoint prefix_loop {T} `{EqDecision T} (a b : list T) : nat :=
  match a, b with
  | x :: a, y :: b => if decide (x = y) then S (prefix_loop a b) else 0
  | _, _ => 0
  end.
Definition suffix_loop {T} `{EqDecision T} (a b : list T) : nat := prefix_loop (rev a) (rev b).

(** ** Runs of changed elements *)
Section Hunks.
Context {T : Type} {E : Elem T}.
Implicit Types a b seq : list T.

Definition proper (h : Hunk) : bool := (a_lo h <? a_hi h) || (b_lo h <? b_hi h).

(** The two ends that [push_trimmed] and [cleanup_merge] take off a hunk. *)
Definition trim_hunk a b (h : Hunk) : option Hunk :=
  del ← slice_range a (a_lo h) (a_hi h);
  ins ← slice_range b (b_lo h) (b_hi h);
  p ← common_prefix del ins;
  let a_lo := a_lo h + p in
  let b_lo := b_lo h + p in
  del ← slice_range a a_lo (a_hi h);
  ins ← slice_range b b_lo (b_hi h);
  s ← common_suffix del ins;
  a_hi ← usub (a_hi h) s;
  b_hi ← usub (b_hi h) s;
  Some {| a_lo := a_lo; a_hi := a_hi; b_lo := b_lo; b_hi := b_hi |}.

Definition push_trimmed a b (h : Hunk) (out : list Hunk) : option (list Hunk) :=
  h ← trim_hunk a b h;
  Some (if proper h then out ++ [h] else out).

(** [while i < n && changed[i] { i += 1; }] *)
Definition run_end (changed : list bool) (i : nat) : nat := skip_while (fun c => c) changed i.

Fixpoint hunks_loop (fuel : nat) a b (changed_a changed_b : list bool) (i j : nat) (out : list Hunk) :
    option (list Hunk) :=
  match fuel with
  | 0 => None
  | S fuel =>
      if (i <? length changed_a) || (j <? length changed_b) then
        if bool_decide (changed_a !! i = Some false) && bool_decide (changed_b !! j = Some false) then
          hunks_loop fuel a b changed_a changed_b (S i) (S j) out
        else
          let i' := run_end changed_a i in
          let j' := run_end changed_b j in
          out ← push_trimmed a b {| a_lo := i; a_hi := i'; b_lo := j; b_hi := j' |} out;
          hunks_loop fuel a b changed_a changed_b i' j' out
      else Some out
  end.

Definition hunks_from_changed a b (changed_a changed_b : list bool) (out : list Hunk) : option (list Hunk) :=
  hunks_loop (S (length changed_a + length changed_b)) a b changed_a changed_b 0 0 out.

(** ** Cleaning up *)

(** [hunks[w - 1].a_hi == h.a_lo && hunks[w - 1].b_hi == h.b_lo] *)
Definition touches (l h : Hunk) : bool := (a_hi l =? a_lo h) && (b_hi l =? b_lo h).
Definition join (l h : Hunk) : Hunk :=
  {| a_lo := a_lo l; a_hi := a_hi h; b_lo := b_lo l; b_hi := b_hi h |}.

(** Puts [h] behind the hunks done, which are in reverse: into the last one if it touches it. *)
Definition push_joined (done : list Hunk) (h : Hunk) : list Hunk :=
  match done with
  | l :: done' => if touches l h then join l h :: done' else h :: done
  | [] => [h]
  end.

(** The hunk by which an edit is slid, and by how much. *)
Definition slide_by (whole_lines : bool) seq (lo hi before after : nat) : option (option Z) :=
  let boundary at_ :=
    if negb whole_lines || (at_ =? lo) || (at_ =? hi) then Some true
    else is_newline <$> (i ← usub at_ 1; seq !! i) in
  edit ← slice_range seq lo hi;
  back ← (if before <=? length edit then
            from ← usub lo before;
            eq ← slice_range seq from lo;
            to ← usub hi before;
            if bool_decide (drop (length edit - before) edit = eq) then boundary to else Some false
          else Some false);
  if (back : bool) then Some (Some (- Z.of_nat before)%Z)
  else
    forth ← (if after <=? length edit then
               eq ← slice_range seq hi (hi + after);
               if bool_decide (take after edit = eq) then boundary (lo + after) else Some false
             else Some false);
    Some (if (forth : bool) then Some (Z.of_nat after) else None).

(** [(v as isize + by) as usize] *)
Definition mv (by_ : Z) (v : nat) : option nat :=
  let v := (Z.of_nat v + by_)%Z in if (0 <=? v)%Z then Some (Z.to_nat v) else None.
Definition mv_hunk (by_ : Z) (h : Hunk) : option Hunk :=
  al ← mv by_ (a_lo h);
  ah ← mv by_ (a_hi h);
  bl ← mv by_ (b_lo h);
  bh ← mv by_ (b_hi h);
  Some {| a_lo := al; a_hi := ah; b_lo := bl; b_hi := bh |}.

(** [slide_single_edits] from the hunk after one that ends at [prev_a]. *)
Fixpoint slide_edits a b (whole_lines : bool) (prev_a : nat) (hunks : list Hunk) : option (list Hunk * bool) :=
  match hunks with
  | [] => Some ([], false)
  | h :: rest =>
      del ← deleted h;
      ins ← inserted h;
      h' ← (if (0 <? del) && (0 <? ins) then Some None
            else
              let next_a := match rest with [] => length a | n :: _ => a_lo n end in
              before ← usub (a_lo h) prev_a;
              after ← usub next_a (a_hi h);
              if (before =? 0) || (after =? 0) then Some None
              else
                by_ ← (if 0 <? del then slide_by whole_lines a (a_lo h) (a_hi h) before after
                       else slide_by whole_lines b (b_lo h) (b_hi h) before after);
                match by_ with
                | None => Some None
                | Some by_ => Some <$> mv_hunk by_ h
                end);
      let moved := match h' with Some h' => h' | None => h end in
      '(rest, changed) ← slide_edits a b whole_lines (a_hi moved) rest;
      Some (moved :: rest, bool_decide (is_Some h') || changed)
  end.
Definition slide_single_edits a b (whole_lines : bool) (hunks : list Hunk) : option (list Hunk * bool) :=
  slide_edits a b whole_lines 0 hunks.

(** One round of [cleanup_merge], up to the slides. *)
Fixpoint merge_hunks a b (done hunks : list Hunk) : option (list Hunk) :=
  match hunks with
  | [] => Some (rev done)
  | h :: hunks =>
      h ← (if (a_lo h <? a_hi h) && (b_lo h <? b_hi h) then
             h ← trim_hunk a b h;
             Some (if (a_lo h =? a_hi h) && (b_lo h =? b_hi h) then None else Some h)
           else Some (Some h));
      merge_hunks a b (match h with Some h => push_joined done h | None => done end) hunks
  end.

Fixpoint merge_rounds (fuel : nat) a b (hunks : list Hunk) : option (list Hunk) :=
  match fuel with
  | 0 => None
  | S fuel =>
      hunks ← merge_hunks a b [] hunks;
      '(hunks, changed) ← slide_single_edits a b false hunks;
      if (changed : bool) then merge_rounds fuel a b hunks else Some hunks
  end.
Definition cleanup_merge (hunks : list Hunk) a b : option (list Hunk) :=
  merge_rounds (6 * length hunks + 2) a b hunks.

(** The rounds of [slide_line_hunks]. *)
Fixpoint slide_rounds (fuel : nat) a b (hunks : list Hunk) : option (list Hunk) :=
  match fuel with
  | 0 => None
  | S fuel =>
      '(hunks, changed) ← slide_single_edits a b true hunks;
      if (changed : bool) then slide_rounds fuel a b (rev (foldl push_joined [] hunks)) else Some hunks
  end.
Definition slide_line_hunks (hunks : list Hunk) a b : option (list Hunk) :=
  slide_rounds (length hunks + 2) a b hunks.

(** ** Whole characters *)
Definition is_cont a (i : nat) : bool :=
  match a !! i with Some x => continues_character x | None => false end.

(** [while h.a_lo > floor && is_cont(a, h.a_lo)] *)
Fixpoint widen_lo a (floor lo blo : nat) : option (nat * nat) :=
  match lo with
  | 0 => Some (0, blo)
  | S lo' =>
      if (floor <? lo) && is_cont a lo then
        blo ← usub blo 1;
        widen_lo a floor lo' blo
      else Some (lo, blo)
  end.
(** [while h.a_hi < ceil && is_cont(a, h.a_hi)]: how far. *)
Fixpoint widen_hi a (ceil hi fuel : nat) : nat :=
  match fuel with
  | 0 => 0
  | S fuel => if (hi <? ceil) && is_cont a hi then S (widen_hi a ceil (S hi) fuel) else 0
  end.

(** The end of the hunk [h], and the hunks after those it runs into. *)
Fixpoint absorb a (h : Hunk) (rest : list Hunk) : Hunk * list Hunk :=
  let ceil := match rest with n :: _ => a_lo n | [] => length a end in
  let k := widen_hi a ceil (a_hi h) (length a) in
  let h := {| a_lo := a_lo h; a_hi := a_hi h + k; b_lo := b_lo h; b_hi := b_hi h + k |} in
  match rest with
  | n :: rest' => if a_hi h =? a_lo n then absorb a (join h n) rest' else (h, rest)
  | [] => (h, [])
  end.

Fixpoint align_hunks (fuel : nat) a (floor : nat) (hunks : list Hunk) : option (list Hunk) :=
  match fuel with
  | 0 => None
  | S fuel =>
      match hunks with
      | [] => Some []
      | h :: rest =>
          '(lo, blo) ← widen_lo a floor (a_lo h) (b_lo h);
          let '(h, rest) := absorb a {| a_lo := lo; a_hi := a_hi h; b_lo := blo; b_hi := b_hi h |} rest in
          hunks ← align_hunks fuel a (a_hi h) rest;
          Some (h :: hunks)
      end
  end.
Definition align_to_characters (hunks : list Hunk) a : option (list Hunk) :=
  align_hunks (S (length hunks)) a 0 hunks.
End Hunks.

(** ** What hunks must be

    [same]: the elements from [i] on are those of [b] from [j] on, [n] of them. *)
Definition same {T} (a b : list T) (i j n : nat) : Prop :=
  i + n <= length a /\ j + n <= length b /\ forall k, k < n -> a !! (i + k) = b !! (j + k).

(** Between the hunks, before the first and after the last, the texts are equal. *)
Fixpoint script {T} (a b : list T) (i j : nat) (hunks : list Hunk) : Prop :=
  match hunks with
  | [] => exists n, length a = i + n /\ length b = j + n /\ same a b i j n
  | h :: hunks =>
      exists n, a_lo h = i + n /\ b_lo h = j + n /\ same a b i j n /\
        a_lo h <= a_hi h /\ b_lo h <= b_hi h /\ script a b (a_hi h) (b_hi h) hunks
  end.

(** The new text: the old one with the text of each hunk put in its place. *)
Fixpoint patch {T} (a b : list T) (i : nat) (hunks : list Hunk) : list T :=
  match hunks with
  | [] => drop i a
  | h :: hunks =>
      take (a_lo h - i) (drop i a) ++ take (b_hi h - b_lo h) (drop (b_lo h) b) ++ patch a b (a_hi h) hunks
  end.

(** From one point to another. *)
Fixpoint segment {T} (a b : list T) (i j : nat) (hunks : list Hunk) (i' j' : nat) : Prop :=
  match hunks with
  | [] => i = i' /\ j = j'
  | h :: hunks =>
      exists n, a_lo h = i + n /\ b_lo h = j + n /\ same a b i j n /\
        a_lo h <= a_hi h /\ b_lo h <= b_hi h /\ segment a b (a_hi h) (b_hi h) hunks i' j'
  end.

Section Script.
Context {T : Type}.
Implicit Types a b : list T.

Lemma same_0 a b i j : i <= length a -> j <= length b -> same a b i j 0.
Proof. intros. split; [lia|]. split; [lia|]. lia. Qed.

Lemma same_app a b i j n m : same a b i j n -> same a b (i + n) (j + n) m -> same a b i j (n + m).
Proof.
  intros (? & ? & H1) (? & ? & H2). split; [lia|]. split; [lia|]. intros k Hk.
  destruct (decide (k < n)) as [|Hn]; [by apply H1|].
  specialize (H2 (k - n) ltac:(lia)).
  replace (i + n + (k - n)) with (i + k) in H2 by lia. by replace (j + n + (k - n)) with (j + k) in H2 by lia.
Qed.

Lemma same_part a b i j n p m : same a b i j n -> p + m <= n -> same a b (i + p) (j + p) m.
Proof.
  intros (? & ? & H1) Hm. split; [lia|]. split; [lia|]. intros k Hk.
  specialize (H1 (p + k) ltac:(lia)). by rewrite !Nat.add_assoc in H1.
Qed.

Lemma same_take a b i j n m : same a b i j n -> m <= n -> same a b i j m.
Proof. intros H Hm. pose proof (same_part _ _ _ _ _ 0 m H ltac:(lia)) as H'. by rewrite !Nat.add_0_r in H'. Qed.

Lemma same_text a b i j n : same a b i j n -> take n (drop i a) = take n (drop j b).
Proof.
  intros (? & ? & H). apply list_eq. intros k. destruct (decide (k < n)) as [Hk|Hk].
  - rewrite !lookup_take_lt, !lookup_drop by done. by apply H.
  - rewrite !lookup_take_ge by lia. done.
Qed.

Lemma text_same a b i j n :
  i + n <= length a -> j + n <= length b -> take n (drop i a) = take n (drop j b) -> same a b i j n.
Proof.
  intros ? ? H. split; [done|]. split; [done|]. intros k Hk.
  pose proof (f_equal (fun l => l !! k) H) as Hl. cbn beta in Hl.
  by rewrite !lookup_take_lt, !lookup_drop in Hl by done.
Qed.

Lemma same_sym a b i j n : same a b i j n -> same b a j i n.
Proof. intros (? & ? & H). split; [done|]. split; [done|]. intros k Hk. symmetry. by apply H. Qed.

Lemma same_trans a b c i j l n : same a b i j n -> same b c j l n -> same a c i l n.
Proof.
  intros (? & ? & H1) (? & ? & H2). split; [done|]. split; [done|]. intros k Hk.
  by rewrite H1, H2.
Qed.

Lemma script_bounds a b i j hs : script a b i j hs -> i <= length a /\ j <= length b.
Proof. destruct hs; [intros (n & ? & ? & (? & ? & _))|intros (n & ? & ? & (? & ? & _) & _)]; lia. Qed.

(** Equal text before a script belongs to it. *)
Lemma script_extend a b i j n hs : same a b i j n -> script a b (i + n) (j + n) hs -> script a b i j hs.
Proof.
  intros Hs. destruct hs as [|h hs]; cbn [script].
  - intros (m & ? & ? & Hm). exists (n + m). split; [lia|]. split; [lia|]. by apply same_app.
  - intros (m & ? & ? & Hm & Hr). exists (n + m). split; [lia|]. split; [lia|].
    split; [by apply same_app|done].
Qed.

Lemma script_app a b i j l1 l2 :
  script a b i j (l1 ++ l2) <-> exists i' j', segment a b i j l1 i' j' /\ script a b i' j' l2.
Proof.
  revert i j. induction l1 as [|h l1 IH]; intros i j; cbn [app segment].
  - split; [intros H; by exists i, j|]. intros (x & y & [Hx Hy] & H). by subst.
  - cbn [script]. setoid_rewrite IH. naive_solver.
Qed.

Lemma segment_app a b i j l1 l2 i' j' :
  segment a b i j (l1 ++ l2) i' j' <-> exists x y, segment a b i j l1 x y /\ segment a b x y l2 i' j'.
Proof.
  revert i j. induction l1 as [|h l1 IH]; intros i j; cbn [app segment].
  - split; [intros H; by exists i, j|]. intros (x & y & [Hx Hy] & H). by subst.
  - setoid_rewrite IH. naive_solver.
Qed.

(** A hunk that replaces nothing by nothing. *)
Lemma script_skip a b i j h hs :
  script a b i j (h :: hs) -> a_lo h = a_hi h -> b_lo h = b_hi h -> script a b i j hs.
Proof.
  intros (n & Ha & Hb & Hs & _ & _ & Hr) Ea Eb. eapply script_extend; [exact Hs|].
  by rewrite <- Ha, <- Hb, Ea, Eb.
Qed.

Lemma script_join a b i j l h hs :
  script a b i j (l :: h :: hs) -> touches l h = true -> script a b i j (join l h :: hs).
Proof.
  intros (n & Ha & Hb & Hs & ? & ? & (m & Ha' & Hb' & Hs' & ? & ? & Hr)) Ht.
  unfold touches in Ht. apply andb_prop in Ht as [?%Nat.eqb_eq ?%Nat.eqb_eq].
  exists n. cbn. split; [done|]. split; [done|]. split; [done|]. split; [lia|]. split; [lia|]. done.
Qed.

(** The other way round. *)
Definition flip (h : Hunk) : Hunk := {| a_lo := b_lo h; a_hi := b_hi h; b_lo := a_lo h; b_hi := a_hi h |}.

Lemma script_flip a b i j hs : script a b i j hs -> script b a j i (flip <$> hs).
Proof.
  revert i j. induction hs as [|h hs IH]; intros i j; cbn.
  - intros (n & ? & ? & Hs). exists n. split; [done|]. split; [done|]. by apply same_sym.
  - intros (n & ? & ? & Hs & ? & ? & Hr). exists n. split; [done|]. split; [done|]. split; [by apply same_sym|].
    split; [done|]. split; [done|]. by apply IH.
Qed.

(** The hunks of a script make the new text of the old one. *)
Lemma patch_script a b i j hs : script a b i j hs -> patch a b i hs = drop j b.
Proof.
  revert i j. induction hs as [|h hs IH]; intros i j; cbn [script patch].
  - intros (n & Ha & Hb & Hs). apply same_text in Hs.
    rewrite !take_ge in Hs by (rewrite length_drop; lia). done.
  - intros (n & Ha & Hb & Hs & ? & ? & Hr). rewrite (IH _ _ Hr). pose proof (script_bounds _ _ _ _ _ Hr).
    replace (a_lo h - i) with n by lia. rewrite (same_text _ _ _ _ _ Hs).
    replace (b_hi h) with (b_hi h - b_lo h + b_lo h) at 2 by lia.
    rewrite Nat.add_comm, <- drop_drop, take_drop.
    rewrite Hb, Nat.add_comm, Nat.add_comm, <- drop_drop, take_drop. done.
Qed.
End Script.

(** ** Common prefixes and suffixes *)
Section Prefixes.
Context {T : Type} `{EqDecision T}.
Implicit Types a b : list T.

Lemma prefix_loop_le a b : prefix_loop a b <= length a /\ prefix_loop a b <= length b.
Proof.
  revert b. induction a as [|x a IH]; intros [|y b]; cbn; try lia.
  destruct (decide (x = y)); [specialize (IH b); lia|lia].
Qed.

Lemma prefix_loop_lookup a b k : k < prefix_loop a b -> a !! k = b !! k.
Proof.
  revert b k. induction a as [|x a IH]; intros [|y b] k; cbn; try lia.
  destruct (decide (x = y)) as [->|]; [|lia]. destruct k as [|k]; [done|]. intros ?. apply (IH b k). lia.
Qed.

Lemma prefix_loop_stop a b :
  prefix_loop a b < length a -> prefix_loop a b < length b ->
  a !! prefix_loop a b <> b !! prefix_loop a b.
Proof.
  revert b. induction a as [|x a IH]; intros [|y b]; cbn; try lia.
  destruct (decide (x = y)) as [->|Hne]; cbn; intros; [apply IH; lia|congruence].
Qed.

Lemma suffix_loop_le a b : suffix_loop a b <= length a /\ suffix_loop a b <= length b.
Proof. unfold suffix_loop. rewrite <- (length_rev a), <- (length_rev b). apply prefix_loop_le. Qed.

Lemma rev_lookup_end a k : k < length a -> rev a !! k = a !! (length a - 1 - k).
Proof.
  intros Hk. rewrite rev_alt. change (rev_append a []) with (reverse a).
  rewrite reverse_lookup by done. f_equal. lia.
Qed.

Lemma suffix_loop_lookup a b k :
  k < suffix_loop a b -> a !! (length a - 1 - k) = b !! (length b - 1 - k).
Proof.
  intros Hk. pose proof (suffix_loop_le a b). rewrite <- !rev_lookup_end by lia.
  by apply prefix_loop_lookup.
Qed.

Lemma suffix_loop_stop a b :
  suffix_loop a b < length a -> suffix_loop a b < length b ->
  a !! (length a - 1 - suffix_loop a b) <> b !! (length b - 1 - suffix_loop a b).
Proof.
  intros ? ?. rewrite <- !rev_lookup_end by lia. apply prefix_loop_stop; by rewrite length_rev.
Qed.

(** Of two pieces of the texts. *)
Lemma length_part a i n : i + n <= length a -> length (take n (drop i a)) = n.
Proof. intros. rewrite length_take, length_drop. lia. Qed.

Lemma lookup_part a i n k : k < n -> take n (drop i a) !! k = a !! (i + k).
Proof. intros. by rewrite lookup_take_lt, lookup_drop. Qed.

Lemma prefix_same a b i j n m p :
  i + n <= length a -> j + m <= length b ->
  p = prefix_loop (take n (drop i a)) (take m (drop j b)) ->
  p <= n /\ p <= m /\ same a b i j p /\ (p < n -> p < m -> a !! (i + p) <> b !! (j + p)).
Proof.
  intros Hi Hj ->. set (p := prefix_loop _ _).
  pose proof (prefix_loop_le (take n (drop i a)) (take m (drop j b))) as [H1 H2]. fold p in H1, H2.
  pose proof (prefix_loop_stop (take n (drop i a)) (take m (drop j b))) as Hst. fold p in Hst.
  rewrite !length_part in * by done. split; [done|]. split; [done|]. split.
  - split; [lia|]. split; [lia|]. intros k Hk. apply prefix_loop_lookup in Hk as Hl.
    by rewrite !lookup_part in Hl by lia.
  - intros Hn Hm. specialize (Hst Hn Hm). by rewrite !lookup_part in Hst.
Qed.

Lemma suffix_same a b i j n m s :
  i + n <= length a -> j + m <= length b ->
  s = suffix_loop (take n (drop i a)) (take m (drop j b)) ->
  s <= n /\ s <= m /\ same a b (i + (n - s)) (j + (m - s)) s /\
    (s < n -> s < m -> a !! (i + (n - 1 - s)) <> b !! (j + (m - 1 - s))).
Proof.
  intros Hi Hj ->. set (s := suffix_loop _ _).
  pose proof (suffix_loop_le (take n (drop i a)) (take m (drop j b))) as [H1 H2]. fold s in H1, H2.
  pose proof (suffix_loop_stop (take n (drop i a)) (take m (drop j b))) as Hst. fold s in Hst.
  rewrite !length_part in * by done. split; [done|]. split; [done|]. split.
  - split; [lia|]. split; [lia|]. intros k Hk.
    pose proof (suffix_loop_lookup (take n (drop i a)) (take m (drop j b)) (s - 1 - k) ltac:(fold s; lia)) as Hl.
    rewrite !length_part, !lookup_part in Hl by lia.
    replace (i + (n - s) + k) with (i + (n - 1 - (s - 1 - k))) by lia.
    by replace (j + (m - s) + k) with (j + (m - 1 - (s - 1 - k))) by lia.
  - intros Hn Hm. specialize (Hst Hn Hm). by rewrite !lookup_part in Hst by lia.
Qed.

(** The common head and the common tail of two texts. *)
Lemma heads_same a b p :
  p = prefix_loop a b ->
  p <= length a /\ p <= length b /\ (forall h, h <= p -> take h a = take h b) /\
    (p = length a -> p = length b -> a = b) /\ (a = b -> p = length a).
Proof.
  intros Hp. destruct (prefix_same a b 0 0 (length a) (length b) p) as (H1 & H2 & Hs & Hst); [done|done| |].
  { by rewrite !drop_0, !firstn_all. }
  split; [done|]. split; [done|]. split; [|split].
  - intros h Hh. pose proof (same_take _ _ _ _ _ _ Hs Hh) as Ht. apply same_text in Ht. by rewrite !drop_0 in Ht.
  - intros Ea Eb. apply same_text in Hs. rewrite !drop_0 in Hs. rewrite Ea in Hs at 1. rewrite Eb in Hs.
    by rewrite !firstn_all in Hs.
  - intros <-. destruct (decide (p = length a)); [done|]. destruct Hst; [lia|lia|done].
Qed.

Lemma tails_same a b head s :
  head <= length a -> head <= length b -> s = suffix_loop (drop head a) (drop head b) ->
  s <= length a - head /\ s <= length b - head /\ drop (length a - s) a = drop (length b - s) b.
Proof.
  intros Ha Hb Hs. destruct (suffix_same a b head head (length a - head) (length b - head) s) as (H1 & H2 & Hss & _); [lia|lia| |].
  { by rewrite !firstn_all2 by (rewrite length_drop; lia). }
  split; [done|]. split; [done|]. apply same_text in Hss.
  replace (length a - s) with (head + (length a - head - s)) by lia.
  replace (length b - s) with (head + (length b - head - s)) by lia.
  rewrite !firstn_all2 in Hss by (rewrite length_drop; lia). exact Hss.
Qed.
End Prefixes.

(** What the passes need of an instance; [elem_ok] is the range of the type. *)
Class ElemLaws (T : Type) `{Elem T} := {
  elem_ok : T -> Prop;
  prefix_law a b : Forall elem_ok a -> Forall elem_ok b -> common_prefix a b = Some (prefix_loop a b);
  suffix_law a b : Forall elem_ok a -> Forall elem_ok b -> common_suffix a b = Some (suffix_loop a b);
  id_law : anchored = true -> exists id : T -> nat,
    (forall t, elem_ok t -> elem_id t = Some (id t)) /\
    forall t u, elem_ok t -> elem_ok u -> id t = id u -> t = u;
  find_law hay needle budget : Forall elem_ok hay -> Forall elem_ok needle ->
    exists r budget', elem_find hay needle budget = Some (r, budget') /\
      forall i, r = Some i -> i + length needle <= length hay /\ take (length needle) (drop i hay) = needle
}.

Lemma usub_Some x y : y <= x -> usub x y = Some (x - y).
Proof. intros ?. unfold usub. by rewrite (proj2 (Nat.leb_le y x)). Qed.

(** ** The passes keep the script *)
Section Passes.
Context {T : Type} `{HE : Elem T, !ElemLaws T}.
Context (a b : list T) (Ha : Forall elem_ok a) (Hb : Forall elem_ok b).

(** Pure, or with different ends. *)
Definition trimmed (h : Hunk) : Prop :=
  a_lo h < a_hi h -> b_lo h < b_hi h ->
  a !! a_lo h <> b !! b_lo h /\ a !! (a_hi h - 1) <> b !! (b_hi h - 1).

Lemma trim_hunk_spec h :
  a_lo h <= a_hi h -> b_lo h <= b_hi h -> a_hi h <= length a -> b_hi h <= length b ->
  exists p s, trim_hunk a b h = Some {| a_lo := a_lo h + p; a_hi := a_hi h - s;
                                        b_lo := b_lo h + p; b_hi := b_hi h - s |} /\
    a_lo h + p + s <= a_hi h /\ b_lo h + p + s <= b_hi h /\
    same a b (a_lo h) (b_lo h) p /\ same a b (a_hi h - s) (b_hi h - s) s /\
    trimmed {| a_lo := a_lo h + p; a_hi := a_hi h - s; b_lo := b_lo h + p; b_hi := b_hi h - s |}.
Proof using Ha Hb.
  intros ? ? ? ?. unfold trim_hunk.
  rewrite !slice_range_Some by done. cbn [mbind option_bind].
  rewrite prefix_law by (by apply Forall_take, Forall_drop). cbn [mbind option_bind].
  set (p := prefix_loop _ _). exists p.
  destruct (prefix_same a b (a_lo h) (b_lo h) (a_hi h - a_lo h) (b_hi h - b_lo h) p) as (Hp1 & Hp2 & Hps & Hpt);
    [lia|lia|done|]. clearbody p.
  rewrite !slice_range_Some by lia. cbn [mbind option_bind].
  rewrite suffix_law by (by apply Forall_take, Forall_drop). cbn [mbind option_bind].
  set (s := suffix_loop _ _). exists s.
  destruct (suffix_same a b (a_lo h + p) (b_lo h + p) (a_hi h - (a_lo h + p)) (b_hi h - (b_lo h + p)) s)
    as (Hs1 & Hs2 & Hss & Hst); [lia|lia|done|]. clearbody s.
  rewrite !usub_Some by lia. split; [done|]. split; [lia|]. split; [lia|]. split; [done|].
  replace (a_hi h - s) with (a_lo h + p + (a_hi h - (a_lo h + p) - s)) by lia.
  replace (b_hi h - s) with (b_lo h + p + (b_hi h - (b_lo h + p) - s)) by lia.
  split; [done|]. intros Hq1 Hq2. cbn in Hq1, Hq2 |- *. split; [apply Hpt; lia|].
  replace (a_lo h + p + (a_hi h - (a_lo h + p) - s) - 1) with (a_lo h + p + (a_hi h - (a_lo h + p) - 1 - s)) by lia.
  replace (b_lo h + p + (b_hi h - (b_lo h + p) - s) - 1) with (b_lo h + p + (b_hi h - (b_lo h + p) - 1 - s)) by lia.
  apply Hst; lia.
Qed.

Lemma trim_hunk_script i j h hs :
  script a b i j (h :: hs) ->
  exists h', trim_hunk a b h = Some h' /\ script a b i j (h' :: hs) /\ trimmed h' /\
    a_lo h <= a_lo h' /\ a_hi h' <= a_hi h.
Proof using Ha Hb.
  intros (n & Hla & Hlb & Hs & ? & ? & Hr). pose proof (script_bounds _ _ _ _ _ Hr) as [? ?].
  destruct (trim_hunk_spec h) as (p & s & Ht & ? & ? & Hp & Hsu & Htr); [done..|].
  eexists. split; [exact Ht|]. split; [|cbn; split; [done|lia]].
  exists (n + p). cbn. rewrite Hla, Hlb in *. split; [lia|]. split; [lia|]. split; [by apply same_app|].
  split; [lia|]. split; [lia|]. eapply script_extend; [exact Hsu|].
  replace (a_hi h - s + s) with (a_hi h) by lia. by replace (b_hi h - s + s) with (b_hi h) by lia.
Qed.
End Passes.

(** ** Marks *)

(** The unchanged elements from [i] and [j] on pair up, and equal ones. *)
Inductive marks {T} (a b : list T) (changed_a changed_b : list bool) : nat -> nat -> Prop :=
| marks_end : marks a b changed_a changed_b (length a) (length b)
| marks_a i j : changed_a !! i = Some true ->
    marks a b changed_a changed_b (S i) j -> marks a b changed_a changed_b i j
| marks_b i j : changed_b !! j = Some true ->
    marks a b changed_a changed_b i (S j) -> marks a b changed_a changed_b i j
| marks_same i j : changed_a !! i = Some false -> changed_b !! j = Some false -> a !! i = b !! j ->
    marks a b changed_a changed_b (S i) (S j) -> marks a b changed_a changed_b i j.

(** No hunk touches the one before it. *)
Definition separated (hunks : list Hunk) : Prop := Sorted (fun l h => touches l h = false) hunks.

Section Marks.
Context {T : Type} `{HE : Elem T, !ElemLaws T}.
Context (a b : list T) (Ha : Forall elem_ok a) (Hb : Forall elem_ok b).
Context (ca cb : list bool) (Hca : length ca = length a) (Hcb : length cb = length b).

Lemma marks_bounds i j : marks a b ca cb i j -> i <= length a /\ j <= length b.
Proof. induction 1; lia. Qed.

Lemma marks_skip_a i j : marks a b ca cb i j -> ca !! i = Some true -> marks a b ca cb (S i) j.
Proof using Hca Hcb.
  induction 1 as [|i j Hi H _|i j Hj H IH|i j Hi Hj _ H _]; intros Ht.
  - apply lookup_lt_Some in Ht. lia.
  - done.
  - apply marks_b; [done|by apply IH].
  - congruence.
Qed.

Lemma marks_skip_b i j : marks a b ca cb i j -> cb !! j = Some true -> marks a b ca cb i (S j).
Proof using Hca Hcb.
  induction 1 as [|i j Hi H IH|i j Hj H _|i j Hi Hj _ H _]; intros Ht.
  - apply lookup_lt_Some in Ht. lia.
  - apply marks_a; [done|by apply IH].
  - done.
  - congruence.
Qed.

Lemma run_end_true (c : list bool) i : c !! i = Some true -> run_end c i = run_end c (S i).
Proof.
  intros Hi. unfold run_end, skip_while. rewrite (drop_S _ _ _ Hi). cbn [count_while]. lia.
Qed.

Lemma run_end_stop (c : list bool) i : c !! i <> Some true -> run_end c i = i.
Proof.
  intros Hi. unfold run_end, skip_while. destruct (drop i c) as [|x r] eqn:E; [cbn; lia|].
  apply lookup_of_drop in E as Ei. destruct x; [done|]. cbn. lia.
Qed.

Lemma marks_run_a i j : marks a b ca cb i j -> i <= run_end ca i /\ marks a b ca cb (run_end ca i) j.
Proof using Hca Hcb.
  remember (length a - i) as n eqn:En. revert i En.
  induction n as [n IH] using lt_wf_ind. intros i -> Hm.
  destruct (decide (ca !! i = Some true)) as [Hi|Hi]; [|by rewrite run_end_stop].
  rewrite run_end_true by done. apply lookup_lt_Some in Hi as Hlt.
  destruct (IH (length a - S i) ltac:(lia) (S i) eq_refl) as [? ?]; [by apply marks_skip_a|]. split; [lia|done].
Qed.

Lemma marks_run_b i j : marks a b ca cb i j -> j <= run_end cb j /\ marks a b ca cb i (run_end cb j).
Proof using Hca Hcb.
  remember (length b - j) as n eqn:En. revert j En.
  induction n as [n IH] using lt_wf_ind. intros j -> Hm.
  destruct (decide (cb !! j = Some true)) as [Hj|Hj]; [|by rewrite run_end_stop].
  rewrite run_end_true by done. apply lookup_lt_Some in Hj as Hlt.
  destruct (IH (length b - S j) ltac:(lia) (S j) eq_refl) as [? ?]; [by apply marks_skip_b|]. split; [lia|done].
Qed.

(** Where no pair starts there is a change. *)
Lemma marks_change i j :
  marks a b ca cb i j -> i < length a \/ j < length b ->
  ~ (ca !! i = Some false /\ cb !! j = Some false) -> ca !! i = Some true \/ cb !! j = Some true.
Proof. destruct 1; intros Hlt Hn; [lia|by left|by right|tauto]. Qed.

(** Behind a run there is a pair, or the end. *)
Lemma run_end_unmarked (c : list bool) i : c !! run_end c i <> Some true.
Proof using Type.
  unfold run_end, skip_while. intros E. rewrite <- lookup_drop in E.
  discriminate (drop_count_while (fun c => c) (drop i c) true). by rewrite head_lookup, lookup_drop, Nat.add_0_r.
Qed.

Lemma marks_after i j hs :
  marks a b ca cb (run_end ca i) (run_end cb j) -> script a b (run_end ca i) (run_end cb j) hs ->
  Forall (fun h => proper h = true) hs ->
  (ca !! run_end ca i = Some false -> cb !! run_end cb j = Some false ->
    forall h, head hs = Some h -> S (run_end ca i) <= a_lo h) ->
  forall h, head hs = Some h -> S (run_end ca i) <= a_lo h.
Proof using Hca Hcb.
  intros Hm Hs Hpr Hnext h Hh. destruct hs as [|h' hs]; [done|]. injection Hh as ->.
  inversion Hm as [E1 E2|? ? Ht _|? ? Ht _|? ? E1 E2 _ _]; subst.
  - destruct Hs as (k & ? & ? & _ & ? & ? & Hr). pose proof (script_bounds _ _ _ _ _ Hr) as [? ?].
    apply Forall_cons in Hpr as [Hp _]. unfold proper in Hp. apply orb_true_iff in Hp. rewrite !Nat.ltb_lt in Hp. lia.
  - by apply run_end_unmarked in Ht.
  - by apply run_end_unmarked in Ht.
  - by apply Hnext.
Qed.

Lemma hunks_loop_spec fuel i j out :
  marks a b ca cb i j -> (length a - i) + (length b - j) < fuel ->
  exists hs, hunks_loop fuel a b ca cb i j out = Some (out ++ hs) /\ script a b i j hs /\
    Forall (fun h => proper h = true) hs /\ separated hs /\
    (ca !! i = Some false -> cb !! j = Some false -> forall h, head hs = Some h -> S i <= a_lo h).
Proof using Ha Hb Hca Hcb.
  revert i j out. induction fuel as [|fuel IH]; intros i j out Hm Hf; [lia|].
  pose proof (marks_bounds _ _ Hm) as [? ?]. cbn [hunks_loop]. rewrite Hca, Hcb.
  destruct ((i <? length a) || (j <? length b)) eqn:Ec.
  2:{ apply orb_false_iff in Ec as [?%Nat.ltb_ge ?%Nat.ltb_ge]. exists []. rewrite app_nil_r.
      split; [done|]. split; [|split; [constructor|split; [constructor|done]]]. exists 0. split; [lia|]. split; [lia|]. by apply same_0. }
  apply orb_true_iff in Ec. rewrite !Nat.ltb_lt in Ec.
  destruct (bool_decide (ca !! i = Some false) && bool_decide (cb !! j = Some false)) eqn:Ep.
  - apply andb_true_iff in Ep as [Hi%bool_decide_eq_true Hj%bool_decide_eq_true].
    inversion Hm as [E1 E2|? ? Ht _|? ? Ht _|? ? _ _ Heq Hm']; subst; try congruence.
    { apply lookup_lt_Some in Hi. lia. }
    apply lookup_lt_Some in Hi as Hil, Hj as Hjl.
    destruct (IH (S i) (S j) out Hm' ltac:(lia)) as (hs & Hl & Hs & Hpr & Hsep & _). exists hs. split; [done|].
    split; [|split; [done|split; [done|]]].
    2: { intros _ _ h Hh. destruct hs as [|h' hs]; [done|]. injection Hh as ->. destruct Hs as (k & ? & _). lia. }
    apply (script_extend _ _ _ _ 1); [|by rewrite !Nat.add_1_r].
    split; [lia|]. split; [lia|]. intros k Hk. replace k with 0 by lia. by rewrite !Nat.add_0_r.
  - assert (ca !! i = Some true \/ cb !! j = Some true) as Hch.
    { apply (marks_change i j Hm Ec). intros [E1 E2]. by rewrite E1, E2 in Ep. }
    destruct (marks_run_a _ _ Hm) as [Hi' Hm1]. destruct (marks_run_b _ _ Hm1) as [Hj' Hm2].
    assert (i < run_end ca i \/ j < run_end cb j) as Hlt.
    { destruct Hch as [Hc|Hc]; [left|right]; rewrite run_end_true by done.
      - destruct (marks_run_a (S i) j) as [? _]; [by apply marks_skip_a|lia].
      - destruct (marks_run_b i (S j)) as [? _]; [by apply marks_skip_b|lia]. }
    pose proof (marks_bounds _ _ Hm2) as [? ?].
    destruct (trim_hunk_spec a b Ha Hb {| a_lo := i; a_hi := run_end ca i; b_lo := j; b_hi := run_end cb j |})
      as (p & s & Ht & ? & ? & Hp & Hsf & _); [done..|]. cbn in *.
    unfold push_trimmed. rewrite Ht. cbn [mbind option_bind].
    set (h := {| a_lo := i + p |}) in *.
    set (out' := if proper h then out ++ [h] else out).
    destruct (IH (run_end ca i) (run_end cb j) out' Hm2 ltac:(lia)) as (hs & Hl & Hs & Hpr & Hsep & Hnext).
    assert (forall h', head hs = Some h' -> S (run_end ca i) <= a_lo h') as Hafter by (by eapply marks_after).
    assert (ca !! i = Some false -> cb !! j = Some false -> False) as Hno by (intros E1 E2; destruct Hch; congruence).
    assert (script a b i j (h :: hs)) as Hsc.
    { exists p. cbn. split; [done|]. split; [done|]. split; [done|]. split; [lia|]. split; [lia|].
      eapply script_extend; [exact Hsf|].
      replace (run_end ca i - s + s) with (run_end ca i) by lia.
      by replace (run_end cb j - s + s) with (run_end cb j) by lia. }
    rewrite Hl. unfold out'. destruct (proper h) eqn:Eh.
    + exists (h :: hs). rewrite <- app_assoc. split; [done|]. split; [done|]. split; [by constructor|].
      split; [|intros E1 E2; by destruct Hno]. constructor; [done|]. destruct hs as [|h' hs]; [constructor|].
      constructor. specialize (Hafter h' eq_refl). unfold touches, h. cbn.
      by rewrite (proj2 (Nat.eqb_neq _ _)) by lia.
    + exists hs. split; [done|]. split; [|split; [done|split; [done|intros E1 E2; by destruct Hno]]]. unfold proper in Eh.
      apply orb_false_iff in Eh as [?%Nat.ltb_ge ?%Nat.ltb_ge].
      eapply script_skip; [exact Hsc|cbn in *; lia..].
Qed.

(** The hunks of marks that pair up are a script. *)
Lemma hunks_from_changed_spec :
  marks a b ca cb 0 0 ->
  exists hs, hunks_from_changed a b ca cb [] = Some hs /\ script a b 0 0 hs /\
    Forall (fun h => proper h = true) hs /\ separated hs.
Proof using Ha Hb Hca Hcb.
  intros Hm. destruct (hunks_loop_spec (S (length ca + length cb)) 0 0 [] Hm) as (hs & Hl & ? & ? & ? & _); [lia|].
  by exists hs.
Qed.
End Marks.

(** ** Joining, sliding, and why the rounds end *)
Section Rounds.
Context {T : Type} `{HE : Elem T, !ElemLaws T}.
Context (a b : list T) (Ha : Forall elem_ok a) (Hb : Forall elem_ok b).

#[local] Instance trimmed_dec h : Decision (trimmed a b h).
Proof. unfold trimmed. apply _. Defined.

Definition apart (x y : nat) : nat := if decide (x = y) then 0 else 1.

(** How many of the equalities around the hunks are not empty. *)
Fixpoint gap_sum (prev : nat) (hunks : list Hunk) : nat :=
  match hunks with [] => 0 | h :: hunks => apart prev (a_lo h) + gap_sum (a_hi h) hunks end.
Fixpoint end_of (prev : nat) (hunks : list Hunk) : nat :=
  match hunks with [] => prev | h :: hunks => end_of (a_hi h) hunks end.
Definition gaps (prev : nat) (hunks : list Hunk) : nat :=
  gap_sum prev hunks + apart (end_of prev hunks) (length a).

(** What the next round can still trim and join. *)
Definition weight1 (h : Hunk) : nat := if decide (trimmed a b h) then 3 else 5.
Definition weight (hunks : list Hunk) : nat := sum_list_with weight1 hunks.

Definition next_lo (hunks : list Hunk) : nat := match hunks with [] => length a | n :: _ => a_lo n end.

Lemma apart_le x y : apart x y <= 1.
Proof. unfold apart. case_decide; lia. Qed.
Lemma apart_refl x : apart x x = 0.
Proof. unfold apart. by rewrite decide_True. Qed.
Lemma apart_ne x y : x <> y -> apart x y = 1.
Proof. intros. unfold apart. by rewrite decide_False. Qed.

Lemma gap_sum_app prev l1 l2 : gap_sum prev (l1 ++ l2) = gap_sum prev l1 + gap_sum (end_of prev l1) l2.
Proof. revert prev. induction l1 as [|h l1 IH]; intros prev; [done|]. cbn. rewrite IH. lia. Qed.

Lemma end_of_app prev l1 l2 : end_of prev (l1 ++ l2) = end_of (end_of prev l1) l2.
Proof. revert prev. induction l1 as [|h l1 IH]; intros prev; [done|]. cbn. apply IH. Qed.

Lemma gaps_app prev l1 l2 : gaps prev (l1 ++ l2) = gap_sum prev l1 + gaps (end_of prev l1) l2.
Proof. unfold gaps. rewrite gap_sum_app, end_of_app. lia. Qed.

Lemma gaps_cons prev h hs : gaps prev (h :: hs) = apart prev (a_lo h) + gaps (a_hi h) hs.
Proof. unfold gaps. cbn. lia. Qed.

Lemma gaps_next prev prev' hs : gaps prev hs + apart prev' (next_lo hs) = gaps prev' hs + apart prev (next_lo hs).
Proof. unfold gaps. destruct hs as [|h hs]; cbn; lia. Qed.

Lemma gaps_le prev hs : gaps prev hs <= S (length hs).
Proof.
  revert prev. induction hs as [|h hs IH]; intros prev; [apply apart_le|].
  rewrite gaps_cons. specialize (IH (a_hi h)). pose proof (apart_le prev (a_lo h)). cbn. lia.
Qed.

Lemma weight1_bounds h : 3 <= weight1 h <= 5.
Proof. unfold weight1. case_decide; lia. Qed.

Lemma weight_app l1 l2 : weight (l1 ++ l2) = weight l1 + weight l2.
Proof. apply sum_list_with_app. Qed.

Lemma weight_cons h hs : weight (h :: hs) = weight1 h + weight hs.
Proof. done. Qed.

Lemma weight_le hs : weight hs <= 5 * length hs.
Proof. induction hs as [|h hs IH]; [done|]. cbn. pose proof (weight1_bounds h). unfold weight in IH. lia. Qed.

(** Trimming again finds nothing. *)
Lemma trim_hunk_again h h' :
  a_lo h <= a_hi h -> b_lo h <= b_hi h -> a_hi h <= length a -> b_hi h <= length b ->
  a_lo h < a_hi h -> b_lo h < b_hi h -> trimmed a b h -> trim_hunk a b h = Some h' -> h' = h.
Proof using Ha Hb.
  intros ? ? ? ? Hla Hlb Ht Htr. destruct (Ht Hla Hlb) as [Hfirst Hlast].
  destruct (trim_hunk_spec a b Ha Hb h) as (p & s & E & ? & ? & (_ & _ & Hp) & (_ & _ & Hs) & _); [done..|].
  rewrite E in Htr. injection Htr as <-.
  assert (p = 0) as ->.
  { destruct p as [|p]; [done|]. specialize (Hp 0 ltac:(lia)). by rewrite !Nat.add_0_r in Hp. }
  assert (s = 0) as ->.
  { destruct s as [|s]; [done|]. specialize (Hs s ltac:(lia)).
    replace (a_hi h - S s + s) with (a_hi h - 1) in Hs by lia.
    by replace (b_hi h - S s + s) with (b_hi h - 1) in Hs by lia. }
  rewrite !Nat.add_0_r, !Nat.sub_0_r. by destruct h.
Qed.

Lemma trimmed_pure h : a_lo h = a_hi h \/ b_lo h = b_hi h -> trimmed a b h.
Proof. intros H ? ?. lia. Qed.

(** *** One round of joining *)
Lemma proper_iff h : proper h = true <-> a_lo h < a_hi h \/ b_lo h < b_hi h.
Proof. unfold proper. by rewrite orb_true_iff, !Nat.ltb_lt. Qed.

Definition all_proper (hs : list Hunk) : Prop := Forall (fun h => proper h = true) hs.

Lemma script_end_of i j l1 l2 : script a b i j (l1 ++ l2) -> exists y, script a b (end_of i l1) y l2.
Proof.
  revert i j. induction l1 as [|h l1 IH]; intros i j; cbn [app end_of]; [eauto|].
  intros (? & _ & _ & _ & _ & _ & Hr). by eapply IH.
Qed.

Lemma push_joined_spec i j done h hs :
  script a b i j (rev done ++ h :: hs) ->
  script a b i j (rev (push_joined done h) ++ hs) /\
  weight (rev (push_joined done h) ++ hs) <= weight (rev done ++ h :: hs) /\
  gaps i (rev (push_joined done h) ++ hs) = gaps i (rev done ++ h :: hs) /\
  (all_proper (rev done ++ h :: hs) -> all_proper (rev (push_joined done h) ++ hs)).
Proof.
  intros Hs. destruct done as [|l done]; [by splits; [| |done|]|]. cbn [push_joined].
  destruct (touches l h) eqn:Ht; [|cbn [rev] in *; rewrite <- !app_assoc in *; by splits; [| |done|]].
  cbn [rev] in *. rewrite <- !app_assoc in *. cbn [app] in *.
  assert (a_hi l = a_lo h /\ b_hi l = b_lo h) as [E1 E2].
  { unfold touches in Ht. by apply andb_prop in Ht as [?%Nat.eqb_eq ?%Nat.eqb_eq]. }
  split; [|split; [|split]].
  - apply script_app in Hs as (x & y & Hl & Hr). apply script_app. exists x, y. split; [done|].
    by apply script_join.
  - rewrite !weight_app, !weight_cons. pose proof (weight1_bounds (join l h)).
    pose proof (weight1_bounds l). pose proof (weight1_bounds h). lia.
  - rewrite !gaps_app, !gaps_cons. cbn. rewrite E1, apart_refl. lia.
  - unfold all_proper. rewrite !Forall_app, !Forall_cons. intros (? & Hl & Hh & ?). split; [done|]. split; [|done].
    apply script_end_of in Hs as (y & n & ? & ? & _ & ? & ? & (m & ? & ? & _ & ? & ? & _)).
    apply proper_iff in Hl. apply proper_iff. cbn. lia.
Qed.

Lemma push_joined_separated done h : separated (rev done) -> separated (rev (push_joined done h)).
Proof.
  intros Hs. destruct done as [|l done]; [repeat constructor|]. cbn [push_joined].
  destruct (touches l h) eqn:Ht; cbn [rev] in *.
  - apply Sorted_split in Hs as (H1 & _ & Hj). apply Sorted_join; [done|repeat constructor|].
    intros x y Hx [= <-]. by apply (Hj x l).
  - apply Sorted_join; [done|repeat constructor|]. intros x y Hx [= <-].
    rewrite last_snoc in Hx. by injection Hx as <-.
Qed.

(** What a pass over the hunks must keep, and may not add to. *)
Record kept (i j : nat) (hs hs' : list Hunk) : Prop := {
  kept_script : script a b i j hs';
  kept_potential : weight hs' + gaps i hs' <= weight hs + gaps i hs;
  kept_proper : all_proper hs -> all_proper hs'
}.

(** Trimming one hunk, away if nothing is left. *)
Lemma trim_kept i j l1 h h' hs :
  script a b i j (l1 ++ h :: hs) -> a_lo h < a_hi h -> b_lo h < b_hi h -> trim_hunk a b h = Some h' ->
  kept i j (l1 ++ h :: hs) (l1 ++ (if (a_lo h' =? a_hi h') && (b_lo h' =? b_hi h') then [] else [h']) ++ hs).
Proof using Ha Hb.
  intros Hs Hla Hlb Htr. apply script_app in Hs as (x & y & Hl & Hr).
  destruct (trim_hunk_script a b Ha Hb _ _ _ _ Hr) as (h0 & E & Hr' & Ht' & _). rewrite Htr in E.
  injection E as <-. pose proof Hr' as (n & _ & _ & _ & Hle1 & Hle2 & _).
  assert (weight1 h' = 3) as Hw' by (unfold weight1; by rewrite decide_True).
  assert (weight1 h = 5 \/ h' = h) as Hw.
  { unfold weight1. case_decide as Ht; [right|by left]. destruct Hr as (? & _ & _ & _ & ? & ? & Hr).
    apply script_bounds in Hr as [? ?]. by eapply trim_hunk_again. }
  set (e := end_of i l1). pose proof (gaps_next e (a_hi h) hs). pose proof (gaps_next (a_hi h') (a_hi h) hs).
  pose proof (apart_le e (a_lo h')). pose proof (apart_le e (next_lo hs)). pose proof (apart_le (a_hi h') (next_lo hs)).
  destruct ((a_lo h' =? a_hi h') && (b_lo h' =? b_hi h')) eqn:Ee; cbn [app]; split.
  - apply script_app. exists x, y. split; [done|]. apply andb_prop in Ee as [?%Nat.eqb_eq ?%Nat.eqb_eq].
    by eapply script_skip.
  - rewrite !weight_app, !weight_cons, !gaps_app, gaps_cons. fold e. pose proof (weight1_bounds h). lia.
  - unfold all_proper. rewrite !Forall_app, Forall_cons. tauto.
  - apply script_app. by exists x, y.
  - destruct Hw as [Hw| ->]; [|done]. rewrite !weight_app, !weight_cons, !gaps_app, !gaps_cons. fold e. lia.
  - unfold all_proper. rewrite !Forall_app, !Forall_cons. intros (? & _ & ?). split; [done|]. split; [|done].
    apply proper_iff. apply andb_false_iff in Ee. rewrite !Nat.eqb_neq in Ee. lia.
Qed.

Lemma kept_trans i j l1 l2 l3 : kept i j l1 l2 -> kept i j l2 l3 -> kept i j l1 l3.
Proof. intros [? ? ?] [? ? ?]. split; [done|lia|auto]. Qed.

Lemma push_kept i j done h hs :
  script a b i j (rev done ++ h :: hs) -> kept i j (rev done ++ h :: hs) (rev (push_joined done h) ++ hs).
Proof. intros Hs. destruct (push_joined_spec _ _ _ _ _ Hs) as (? & ? & ? & ?). split; [done|lia|done]. Qed.

Lemma merge_hunks_spec done hs :
  script a b 0 0 (rev done ++ hs) -> separated (rev done) ->
  exists out, merge_hunks a b done hs = Some out /\ kept 0 0 (rev done ++ hs) out /\ separated out.
Proof using Ha Hb.
  revert done. induction hs as [|h hs IH]; intros done Hs Hsep; cbn [merge_hunks].
  { exists (rev done). rewrite app_nil_r in *. split; [done|]. by split. }
  destruct ((a_lo h <? a_hi h) && (b_lo h <? b_hi h)) eqn:Ep.
  - apply andb_prop in Ep as [?%Nat.ltb_lt ?%Nat.ltb_lt].
    apply script_app in Hs as Hs'. destruct Hs' as (x & y & _ & Hr).
    destruct (trim_hunk_script a b Ha Hb _ _ _ _ Hr) as (h' & E & _). rewrite E. cbn [mbind option_bind].
    pose proof (trim_kept _ _ _ _ _ _ Hs ltac:(done) ltac:(done) E) as Hk.
    destruct ((a_lo h' =? a_hi h') && (b_lo h' =? b_hi h')); cbn [app] in Hk.
    + destruct (IH done (kept_script _ _ _ _ Hk) Hsep) as (out & Ho & Hko & ?). exists out.
      split; [done|]. split; [by eapply kept_trans|done].
    + pose proof (push_kept _ _ _ _ _ (kept_script _ _ _ _ Hk)) as Hk2.
      destruct (IH (push_joined done h') (kept_script _ _ _ _ Hk2) (push_joined_separated _ _ Hsep)) as (out & Ho & Hko & ?).
      exists out. split; [done|]. split; [|done]. eapply kept_trans; [exact Hk|]. by eapply kept_trans.
  - cbn [mbind option_bind]. pose proof (push_kept _ _ _ _ _ Hs) as Hk2.
    destruct (IH (push_joined done h) (kept_script _ _ _ _ Hk2) (push_joined_separated _ _ Hsep)) as (out & Ho & Hko & ?).
    exists out. split; [done|]. split; [by eapply kept_trans|done].
Qed.

(** The joins of [slide_line_hunks]. *)
Lemma join_all_spec done hs :
  script a b 0 0 (rev done ++ hs) -> separated (rev done) ->
  let out := rev (foldl push_joined done hs) in
  script a b 0 0 out /\ gaps 0 out = gaps 0 (rev done ++ hs) /\ separated out /\
  (all_proper (rev done ++ hs) -> all_proper out).
Proof.
  revert done. induction hs as [|h hs IH]; intros done Hs Hsep; cbn [foldl].
  { rewrite app_nil_r in *. by split. }
  destruct (push_joined_spec _ _ _ _ _ Hs) as (Hs' & _ & Hg & Hp).
  destruct (IH _ Hs' (push_joined_separated _ _ Hsep)) as (? & Hg' & ? & ?).
  splits; [done|by rewrite Hg', Hg|done|auto].
Qed.
(** *** Sliding *)

(** [at_] is where a line of [seq] starts, or the end. *)
Definition line_edge (seq : list T) (at_ : nat) : Prop :=
  at_ = 0 \/ at_ = length seq \/ exists x, seq !! (at_ - 1) = Some x /\ is_newline x = true.

Definition slide_ok (whole : bool) (seq : list T) (lo hi before after : nat) (by_ : Z) : Prop :=
  by_ = (- Z.of_nat before)%Z /\ before <= hi - lo /\ same seq seq (hi - before) (lo - before) before /\
    (whole = true -> line_edge seq lo -> line_edge seq hi -> line_edge seq (hi - before)) \/
  by_ = Z.of_nat after /\ after <= hi - lo /\ same seq seq lo hi after /\
    (whole = true -> line_edge seq lo -> line_edge seq hi -> line_edge seq (lo + after)).

Lemma slide_boundary (whole : bool) (seq : list T) lo hi at_ :
  lo <= at_ <= hi -> hi <= length seq ->
  exists r : bool, (if negb whole || (at_ =? lo) || (at_ =? hi) then Some true
          else is_newline <$> (i ← usub at_ 1; seq !! i)) = Some r /\
    (r = true -> whole = true -> line_edge seq lo -> line_edge seq hi -> line_edge seq at_).
Proof.
  intros ? ?. destruct whole; cbn [negb orb]; [|by exists true].
  destruct (Nat.eqb_spec at_ lo) as [->|]; [by exists true|].
  destruct (Nat.eqb_spec at_ hi) as [->|]; [by exists true|]. cbn [orb].
  rewrite usub_Some by lia. cbn [mbind option_bind].
  destruct (lookup_lt_is_Some_2 seq (at_ - 1) ltac:(lia)) as [x Hx]. rewrite Hx. exists (is_newline x).
  split; [done|]. intros ? _ _ _. right; right. eauto.
Qed.

Lemma slide_by_spec whole (seq : list T) lo hi before after :
  lo <= hi -> before <= lo -> hi + after <= length seq ->
  exists r, slide_by whole seq lo hi before after = Some r /\
    forall by_, r = Some by_ -> slide_ok whole seq lo hi before after by_.
Proof.
  intros ? ? ?. unfold slide_by. cbv zeta beta. rewrite (slice_range_Some seq lo hi) by lia. cbn [mbind option_bind].
  rewrite length_part by lia.
  match goal with |- exists r, (back ← ?X; _) = Some r /\ _ =>
    assert (exists back : bool, X = Some back /\
      (back = true -> slide_ok whole seq lo hi before after (- Z.of_nat before))) as (back & E & Hback) end.
  { destruct (Nat.leb_spec before (hi - lo)) as [Hle|]; [|by exists false].
    rewrite !usub_Some by lia. cbn [mbind option_bind]. rewrite (slice_range_Some seq (lo - before) lo) by lia.
    cbn [mbind option_bind]. case_bool_decide as Heq; [|by exists false].
    destruct (slide_boundary whole seq lo hi (hi - before)) as (r & -> & Hr); [lia|lia|].
    exists r. split; [done|]. intros ->. left. split; [done|]. split; [done|]. split; [|by apply Hr].
    rewrite skipn_firstn_comm, drop_drop in Heq.
    replace (hi - lo - (hi - lo - before)) with before in Heq by lia.
    replace (lo + (hi - lo - before)) with (hi - before) in Heq by lia.
    replace (lo - (lo - before)) with before in Heq by lia. by apply text_same; [lia|lia|]. }
  rewrite E. cbn [mbind option_bind]. destruct back; [eexists; split; [done|]; intros ? [= <-]; by apply Hback|].
  match goal with |- exists r, (forth ← ?X; _) = Some r /\ _ =>
    assert (exists forth : bool, X = Some forth /\
      (forth = true -> slide_ok whole seq lo hi before after (Z.of_nat after))) as (forth & E' & Hforth) end.
  { destruct (Nat.leb_spec after (hi - lo)) as [Hle|]; [|by exists false].
    rewrite slice_range_Some by lia. cbn [mbind option_bind].
    case_bool_decide as Heq; [|by exists false].
    destruct (slide_boundary whole seq lo hi (lo + after)) as (r & -> & Hr); [lia|lia|].
    exists r. split; [done|]. intros ->. right. split; [done|]. split; [done|]. split; [|by apply Hr].
    rewrite take_take in Heq. replace (after `min` (hi - lo)) with after in Heq by lia.
    replace (hi + after - hi) with after in Heq by lia. by apply text_same; [lia|lia|]. }
  rewrite E'. cbn [mbind option_bind]. eexists. split; [done|]. destruct forth; [|done].
  intros ? [= <-]. by apply Hforth.
Qed.

Definition shift (by_ : Z) (h : Hunk) : Hunk :=
  {| a_lo := Z.to_nat (Z.of_nat (a_lo h) + by_); a_hi := Z.to_nat (Z.of_nat (a_hi h) + by_);
     b_lo := Z.to_nat (Z.of_nat (b_lo h) + by_); b_hi := Z.to_nat (Z.of_nat (b_hi h) + by_) |}.

Lemma mv_Some by_ v : (0 <= Z.of_nat v + by_)%Z -> mv by_ v = Some (Z.to_nat (Z.of_nat v + by_)).
Proof. intros ?. unfold mv. by rewrite (proj2 (Z.leb_le _ _)). Qed.

Lemma mv_hunk_Some by_ h :
  a_lo h <= a_hi h -> b_lo h <= b_hi h -> (0 <= Z.of_nat (a_lo h) + by_)%Z -> (0 <= Z.of_nat (b_lo h) + by_)%Z ->
  mv_hunk by_ h = Some (shift by_ h).
Proof. intros. unfold mv_hunk. by rewrite !mv_Some by lia. Qed.

(** The equality in front of a script can be given to what precedes it. *)
Lemma script_next i j hs :
  script a b i j hs ->
  exists m, next_lo hs = i + m /\ same a b i j m /\ forall k, k <= m -> script a b (i + k) (j + k) hs.
Proof.
  destruct hs as [|h hs].
  - intros (m & ? & ? & Hm). exists m. split; [done|]. split; [done|]. intros k Hk. exists (m - k).
    split; [lia|]. split; [lia|]. by apply (same_part _ _ _ _ m k (m - k)); [|lia].
  - intros (m & ? & ? & Hm & Hr). exists m. split; [done|]. split; [done|]. intros k Hk. exists (m - k).
    split; [lia|]. split; [lia|]. split; [|done]. by apply (same_part _ _ _ _ m k (m - k)); [|lia].
Qed.

Definition hunk_edges (h : Hunk) : Prop :=
  line_edge a (a_lo h) /\ line_edge a (a_hi h) /\ line_edge b (b_lo h) /\ line_edge b (b_hi h).

(** What a slide of one hunk keeps. *)
Record slid (whole : bool) (i j : nat) (h h' : Hunk) (hs : list Hunk) : Prop := {
  slid_script : script a b i j (h' :: hs);
  slid_weight : weight1 h' = weight1 h;
  slid_gaps : S (gaps i (h' :: hs)) = gaps i (h :: hs);
  slid_proper : proper h' = proper h;
  slid_edges : whole = true -> line_edge a i -> line_edge b j -> Forall hunk_edges (h :: hs) -> hunk_edges h'
}.

Lemma slid_left whole i j h hs n :
  script a b i j (h :: hs) -> a_lo h = a_hi h \/ b_lo h = b_hi h -> a_lo h = i + n -> 0 < n ->
  a_hi h <> next_lo hs ->
  same a b (a_hi h - n) (b_hi h - n) n ->
  (whole = true -> Forall hunk_edges (h :: hs) ->
     line_edge a i -> line_edge b j -> line_edge a (a_hi h - n) /\ line_edge b (b_hi h - n)) ->
  slid whole i j h (shift (- Z.of_nat n) h) hs.
Proof.
  intros (n' & Hla & Hlb & Hs & ? & ? & Hr) Hpure Hn Hpos Hnext Hsame Hed.
  assert (n' = n) as -> by lia.
  assert (shift (- Z.of_nat n) h =
    {| a_lo := i; a_hi := a_hi h - n; b_lo := j; b_hi := b_hi h - n |}) as ->.
  { unfold shift. f_equal; lia. }
  split.
  - exists 0. cbn. split; [lia|]. split; [lia|]. pose proof (script_bounds _ _ _ _ _ Hr).
    split; [apply same_0; lia|]. split; [lia|]. split; [lia|]. eapply script_extend; [exact Hsame|].
    replace (a_hi h - n + n) with (a_hi h) by lia. by replace (b_hi h - n + n) with (b_hi h) by lia.
  - unfold weight1. rewrite !decide_True; [done|by apply trimmed_pure|apply trimmed_pure; cbn; lia].
  - rewrite !gaps_cons. cbn. pose proof (gaps_next (a_hi h) (a_hi h - n) hs) as Hg. rewrite apart_refl.
    rewrite (apart_ne i (a_lo h)) by lia. rewrite (apart_ne (a_hi h)) in Hg by done.
    assert (a_hi h <= next_lo hs) as Hle.
    { destruct (script_next _ _ _ Hr) as (m & -> & _). lia. }
    rewrite (apart_ne (a_hi h - n)) in Hg by lia. lia.
  - apply eq_bool_prop_intro. rewrite !Is_true_true, !proper_iff. cbn. lia.
  - intros Hw Hi Hj Hh. destruct (Hed Hw Hh Hi Hj). by split; [|split; [|split]].
Qed.

Lemma slid_right whole i j h hs m :
  script a b i j (h :: hs) -> a_lo h = a_hi h \/ b_lo h = b_hi h -> i < a_lo h -> 0 < m ->
  next_lo hs = a_hi h + m -> same a b (a_lo h) (b_lo h) m ->
  (whole = true -> Forall hunk_edges (h :: hs) ->
     line_edge a (a_lo h + m) /\ line_edge b (b_lo h + m) /\ line_edge a (a_hi h + m) /\ line_edge b (b_hi h + m)) ->
  slid whole i j h (shift (Z.of_nat m) h) hs.
Proof.
  intros (n & Hla & Hlb & Hs & ? & ? & Hr) Hpure Hn Hpos Hnext Hsame Hed.
  assert (shift (Z.of_nat m) h =
    {| a_lo := a_lo h + m; a_hi := a_hi h + m; b_lo := b_lo h + m; b_hi := b_hi h + m |}) as ->.
  { unfold shift. f_equal; lia. }
  split.
  - exists (n + m). cbn. split; [lia|]. split; [lia|]. rewrite Hla, Hlb in Hsame. split; [by apply same_app|].
    split; [lia|]. split; [lia|]. destruct (script_next _ _ _ Hr) as (m' & Hm' & _ & Hk). apply Hk. lia.
  - unfold weight1. rewrite !decide_True; [done|by apply trimmed_pure|apply trimmed_pure; cbn; lia].
  - rewrite !gaps_cons. cbn. pose proof (gaps_next (a_hi h) (a_hi h + m) hs) as Hg.
    rewrite (apart_ne i (a_lo h)), (apart_ne i (a_lo h + m)) by lia.
    rewrite (apart_ne (a_hi h)), Hnext, apart_refl in Hg by lia. lia.
  - apply eq_bool_prop_intro. rewrite !Is_true_true, !proper_iff. cbn. lia.
  - intros Hw _ _ Hh. destruct (Hed Hw Hh) as (? & ? & ? & ?). by split; [|split; [|split]].
Qed.

Lemma next_edges i j hs :
  script a b i j hs -> Forall hunk_edges hs ->
  exists m, next_lo hs = i + m /\ same a b i j m /\ line_edge a (i + m) /\ line_edge b (j + m).
Proof.
  intros Hs He. destruct hs as [|h hs].
  - destruct Hs as (m & Hm & Hm' & Hs). exists m. split; [done|]. split; [done|].
    split; right; left; lia.
  - destruct Hs as (m & Hm & Hm' & Hs & _). exists m. apply Forall_cons in He as [(He1 & _ & He2 & _) _].
    split; [done|]. split; [done|]. by rewrite <- Hm, <- Hm'.
Qed.

(** The slide that [slide_by] finds is one. *)
Lemma slide_by_slid whole i j h hs before after by_ :
  script a b i j (h :: hs) -> a_lo h = a_hi h \/ b_lo h = b_hi h -> before = a_lo h - i -> 0 < before ->
  next_lo hs = a_hi h + after -> 0 < after ->
  (if a_lo h <? a_hi h then slide_ok whole a (a_lo h) (a_hi h) before after by_
   else slide_ok whole b (b_lo h) (b_hi h) before after by_) ->
  slid whole i j h (shift by_ h) hs.
Proof.
  intros Hs Hpure Hbe Hb0 Hnext Ha0 Hok. pose proof Hs as (n & Hla & Hlb & Hgap & ? & ? & Hr).
  assert (before = n) as -> by lia. destruct (script_next _ _ _ Hr) as (m & Hm & Hafter & _).
  assert (after = m) as -> by lia.
  destruct (Nat.ltb_spec (a_lo h) (a_hi h)) as [Hdel|Hdel]; destruct Hok as [(-> & Hle & Hsame & Hed)|(-> & Hle & Hsame & Hed)].
  - apply (slid_left _ i j); [done|done|done|done|lia| |].
    + replace (b_hi h - n) with (a_lo h - n - i + j) by lia. eapply same_trans; [exact Hsame|].
      replace (a_lo h - n) with i by lia. by replace (i - i + j) with j by lia.
    + intros Hw He Hi Hj. apply Forall_cons in He as [(He1 & He2 & _) _].
      split; [by apply Hed|]. by replace (b_hi h - n) with j by lia.
  - apply (slid_right _ i j); [done|done|lia|done|done| |].
    + eapply same_trans; [exact Hsame|]. by replace (b_lo h) with (b_hi h) by lia.
    + intros Hw He. apply Forall_cons in He as [(He1 & He2 & _) He].
      destruct (next_edges _ _ _ Hr He) as (m' & Hm' & _ & ? & ?). assert (m' = m) as -> by lia.
      replace (b_lo h) with (b_hi h) by lia. split; [by apply Hed|done].
  - apply (slid_left _ i j); [done|done|done|done|lia| |].
    + apply same_sym. replace (a_hi h - n) with i by lia. eapply same_trans; [exact Hsame|].
      replace (b_lo h - n) with j by lia. by apply same_sym.
    + intros Hw He Hi Hj. apply Forall_cons in He as [(_ & _ & He1 & He2) _].
      split; [by replace (a_hi h - n) with i by lia|by apply Hed].
  - apply (slid_right _ i j); [done|done|lia|done|done| |].
    + apply same_sym. eapply same_trans; [exact Hsame|]. apply same_sym. by replace (a_lo h) with (a_hi h) by lia.
    + intros Hw He. apply Forall_cons in He as [(_ & _ & He1 & He2) He].
      destruct (next_edges _ _ _ Hr He) as (m' & Hm' & _ & ? & ?). assert (m' = m) as -> by lia.
      replace (a_lo h) with (a_hi h) by lia. split; [done|]. split; [by apply Hed|done].
Qed.

(** The step of [slide_edits] on one hunk. *)
Lemma slide_head whole i j h hs :
  script a b i j (h :: hs) ->
  exists h', (if (0 <? a_hi h - a_lo h) && (0 <? b_hi h - b_lo h) then Some None
    else before ← usub (a_lo h) i; after ← usub (next_lo hs) (a_hi h);
         if (before =? 0) || (after =? 0) then Some None
         else by_ ← (if 0 <? a_hi h - a_lo h then slide_by whole a (a_lo h) (a_hi h) before after
                     else slide_by whole b (b_lo h) (b_hi h) before after);
              match by_ with None => Some None | Some by_ => Some <$> mv_hunk by_ h end) = Some h' /\
  forall x, h' = Some x -> slid whole i j h x hs.
Proof.
  intros Hs. pose proof Hs as (n & Hla & Hlb & Hgap & ? & ? & Hr).
  destruct ((0 <? a_hi h - a_lo h) && (0 <? b_hi h - b_lo h)) eqn:Epure; [by exists None|].
  destruct (script_next _ _ _ Hr) as (m & Hm & Hafter & _).
  rewrite !usub_Some by lia. cbn [mbind option_bind].
  destruct ((a_lo h - i =? 0) || (next_lo hs - a_hi h =? 0)) eqn:E0; [by exists None|].
  apply orb_false_iff in E0 as [?%Nat.eqb_neq ?%Nat.eqb_neq].
  assert (a_lo h = a_hi h \/ b_lo h = b_hi h) as Hpure.
  { apply andb_false_iff in Epure. rewrite !Nat.ltb_ge in Epure. lia. }
  destruct Hgap as (? & ? & _). destruct Hafter as (? & ? & _).
  assert (exists r, (if 0 <? a_hi h - a_lo h then slide_by whole a (a_lo h) (a_hi h) (a_lo h - i) (next_lo hs - a_hi h)
     else slide_by whole b (b_lo h) (b_hi h) (a_lo h - i) (next_lo hs - a_hi h)) = Some r /\
     forall by_, r = Some by_ ->
       if a_lo h <? a_hi h then slide_ok whole a (a_lo h) (a_hi h) (a_lo h - i) (next_lo hs - a_hi h) by_
       else slide_ok whole b (b_lo h) (b_hi h) (a_lo h - i) (next_lo hs - a_hi h) by_) as (r & -> & Hok).
  { replace (0 <? a_hi h - a_lo h) with (a_lo h <? a_hi h) by (destruct (Nat.ltb_spec (a_lo h) (a_hi h)),
      (Nat.ltb_spec 0 (a_hi h - a_lo h)); done || lia).
    destruct (a_lo h <? a_hi h); apply slide_by_spec; lia. }
  cbn [mbind option_bind]. destruct r as [by_|]; [|by exists None].
  assert (slid whole i j h (shift by_ h) hs) as Hslid.
  { apply (slide_by_slid whole i j h hs (a_lo h - i) (next_lo hs - a_hi h)); [done|done|done|lia|lia|lia|by apply Hok]. }
  rewrite mv_hunk_Some; [| lia|lia|..].
  - exists (Some (shift by_ h)). split; [done|]. by intros x [= <-].
  - specialize (Hok _ eq_refl). destruct (a_lo h <? a_hi h), Hok as [(-> & _)|(-> & _)]; lia.
  - specialize (Hok _ eq_refl). destruct (a_lo h <? a_hi h), Hok as [(-> & _)|(-> & _)]; lia.
Qed.

Lemma slide_edits_spec whole i j hs :
  script a b i j hs ->
  exists hs' ch, slide_edits a b whole i hs = Some (hs', ch) /\ script a b i j hs' /\
    weight hs' = weight hs /\ gaps i hs' + (if ch then 1 else 0) <= gaps i hs /\
    (ch = false -> hs' = hs) /\ (all_proper hs -> all_proper hs') /\ length hs' = length hs /\
    (whole = true -> line_edge a i -> line_edge b j -> Forall hunk_edges hs -> Forall hunk_edges hs').
Proof.
  revert i j. induction hs as [|h hs IH]; intros i j Hs.
  { exists [], false. splits; try done. cbn. lia. }
  pose proof Hs as (n & Hla & Hlb & _ & ? & ? & _).
  destruct (slide_head whole i j h hs Hs) as (h' & Eh & Hslid).
  cbn [slide_edits]. unfold deleted, inserted.
  rewrite (usub_Some (a_hi h) (a_lo h)), (usub_Some (b_hi h) (b_lo h)) by lia. cbn [mbind option_bind].
  change (match hs with [] => length a | n0 :: _ => a_lo n0 end) with (next_lo hs). rewrite Eh. cbn [mbind option_bind].
  set (h1 := match h' with Some h' => h' | None => h end).
  assert (script a b i j (h1 :: hs) /\ weight1 h1 = weight1 h /\ proper h1 = proper h /\
    gaps i (h1 :: hs) + (if bool_decide (is_Some h') then 1 else 0) = gaps i (h :: hs) /\ (h' = None -> h1 = h) /\
    (whole = true -> line_edge a i -> line_edge b j -> Forall hunk_edges (h :: hs) -> hunk_edges h1))
    as (Hs1 & Hw & Hp & Hg & Hid & He).
  { destruct h' as [x|]; cbn in h1; subst h1.
    - destruct (Hslid _ eq_refl). rewrite bool_decide_eq_true_2 by eauto. splits; try done. rewrite Nat.add_1_r. done.
    - rewrite bool_decide_eq_false_2 by (by intros []). rewrite Nat.add_0_r. splits; try done.
      intros _ _ _ Hf. by apply Forall_cons in Hf as [? _]. }
  destruct Hs1 as (n1 & ? & ? & Hg1 & ? & ? & Hr1).
  destruct (IH _ _ Hr1) as (hs' & ch & E & Hs' & Hw' & Hg' & Hid' & Hp' & Hl' & He'). rewrite E. cbn [mbind option_bind].
  do 2 eexists. split; [done|]. split; [exists n1; splits; done|].
  rewrite !weight_cons, Hw, Hw', (gaps_cons i h1 hs'). rewrite (gaps_cons i h1 hs) in Hg. split; [done|]. split.
  { destruct (bool_decide (is_Some h')), ch; cbn [orb]; lia. }
  split. { intros [Hn Hch]%orb_false_iff. rewrite (Hid' Hch), Hid; [done|]. apply bool_decide_eq_false in Hn. by apply eq_None_not_Some. }
  split. { unfold all_proper. rewrite !Forall_cons, Hp. tauto. }
  split; [cbn; lia|]. intros Hwh Hi Hj Hf. specialize (He Hwh Hi Hj Hf). apply Forall_cons in Hf as [_ Hf].
  constructor; [done|]. destruct He as (? & ? & ? & ?). by apply He'.
Qed.

(** *** The rounds end *)
Lemma merge_rounds_spec fuel hs :
  script a b 0 0 hs -> weight hs + gaps 0 hs < fuel ->
  exists hs', merge_rounds fuel a b hs = Some hs' /\ script a b 0 0 hs' /\ separated hs' /\
    (all_proper hs -> all_proper hs').
Proof using Ha Hb.
  revert hs. induction fuel as [|fuel IH]; intros hs Hs Hf; [lia|]. cbn [merge_rounds].
  destruct (merge_hunks_spec [] hs Hs) as (hs1 & E1 & [Hs1 Hpot Hp1] & Hsep1); [constructor|]. change (rev [] ++ hs) with hs in *.
  rewrite E1. cbn [mbind option_bind]. unfold slide_single_edits.
  destruct (slide_edits_spec false _ _ _ Hs1) as (hs2 & ch & E2 & Hs2 & Hw & Hg & Hid & Hp2 & _ & _).
  rewrite E2. cbn [mbind option_bind]. destruct ch.
  - destruct (IH hs2 Hs2 ltac:(lia)) as (hs' & E & ? & ? & Hp'). exists hs'. splits; [done..|]. auto.
  - rewrite (Hid eq_refl) in *. exists hs1. by splits.
Qed.

Lemma cleanup_merge_spec hs :
  script a b 0 0 hs ->
  exists hs', cleanup_merge hs a b = Some hs' /\ script a b 0 0 hs' /\ separated hs' /\
    (all_proper hs -> all_proper hs').
Proof using Ha Hb.
  intros Hs. apply merge_rounds_spec; [done|]. pose proof (weight_le hs). pose proof (gaps_le 0 hs). lia.
Qed.

Lemma join_all_edges done hs :
  Forall hunk_edges (rev done ++ hs) -> Forall hunk_edges (rev (foldl push_joined done hs)).
Proof.
  revert done. induction hs as [|h hs IH]; intros done Hf; cbn [foldl]; [by rewrite app_nil_r in Hf|].
  apply IH. destruct done as [|l done]; [done|]. cbn [push_joined]. destruct (touches l h).
  - cbn [rev] in *. rewrite <- app_assoc in *. apply Forall_app in Hf as [? Hf]. apply Forall_app. split; [done|].
    cbn [app] in *. apply Forall_cons in Hf as [(? & _ & ? & _) Hf]. apply Forall_cons in Hf as [(_ & ? & _ & ?) Hf].
    by constructor.
  - cbn [rev] in *. by rewrite <- app_assoc.
Qed.

Lemma slide_rounds_spec fuel hs :
  script a b 0 0 hs -> gaps 0 hs < fuel -> separated hs ->
  exists hs', slide_rounds fuel a b hs = Some hs' /\ script a b 0 0 hs' /\ separated hs' /\
    (all_proper hs -> all_proper hs') /\ (Forall hunk_edges hs -> Forall hunk_edges hs').
Proof using Ha Hb.
  revert hs. induction fuel as [|fuel IH]; intros hs Hs Hf Hsep; [lia|]. cbn [slide_rounds]. unfold slide_single_edits.
  destruct (slide_edits_spec true _ _ _ Hs) as (hs1 & ch & E1 & Hs1 & Hw & Hg & Hid & Hp1 & _ & He1).
  rewrite E1. cbn [mbind option_bind]. specialize (He1 eq_refl ltac:(by left) ltac:(by left)). destruct ch.
  - destruct (join_all_spec [] hs1 Hs1) as (Hs2 & Hg2 & Hsep2 & Hp2); [constructor|]. cbn [rev app] in *.
    destruct (IH _ Hs2 ltac:(lia) Hsep2) as (hs' & E & ? & ? & ? & He). exists hs'. splits; [done..|auto|].
    intros Hf1. apply He, (join_all_edges []), He1, Hf1.
  - rewrite (Hid eq_refl) in *. exists hs. by splits.
Qed.

Lemma slide_line_hunks_spec hs :
  script a b 0 0 hs -> separated hs ->
  exists hs', slide_line_hunks hs a b = Some hs' /\ script a b 0 0 hs' /\ separated hs' /\
    (all_proper hs -> all_proper hs') /\ (Forall hunk_edges hs -> Forall hunk_edges hs').
Proof using Ha Hb. intros Hs Hsep. apply slide_rounds_spec; [done| |done]. pose proof (gaps_le 0 hs). lia. Qed.

(** *** Whole characters *)
Lemma widen_lo_spec floor lo blo n :
  lo = floor + n -> n <= blo ->
  exists k, k <= n /\ widen_lo a floor lo blo = Some (lo - k, blo - k) /\
    (lo - k = floor \/ is_cont a (lo - k) = false).
Proof.
  revert lo blo. induction n as [|n IH]; intros lo blo -> Hb'.
  - exists 0. rewrite Nat.add_0_r, !Nat.sub_0_r. split; [done|]. split; [|by left].
    destruct floor; [done|]. cbn [widen_lo]. by rewrite Nat.ltb_irrefl.
  - replace (floor + S n) with (S (floor + n)) by lia. cbn [widen_lo].
    rewrite (proj2 (Nat.ltb_lt floor (S (floor + n)))) by lia. cbn [andb].
    destruct (is_cont a (S (floor + n))) eqn:Ec.
    + rewrite usub_Some by lia. cbn [mbind option_bind].
      destruct (IH (floor + n) (blo - 1) eq_refl ltac:(lia)) as (k & ? & E & He). exists (S k).
      split; [lia|]. rewrite E. replace (blo - S k) with (blo - 1 - k) by lia.
      by replace (S (floor + n) - S k) with (floor + n - k) by lia.
    + exists 0. rewrite !Nat.sub_0_r. split; [lia|]. split; [done|by right].
Qed.

Lemma widen_hi_spec ceil hi fuel :
  hi <= ceil -> ceil - hi <= fuel ->
  hi + widen_hi a ceil hi fuel <= ceil /\
  (hi + widen_hi a ceil hi fuel = ceil \/ is_cont a (hi + widen_hi a ceil hi fuel) = false).
Proof.
  revert hi. induction fuel as [|fuel IH]; intros hi Hc Hf; cbn [widen_hi]; [lia|].
  destruct ((hi <? ceil) && is_cont a hi) eqn:Ec.
  - apply andb_prop in Ec as [?%Nat.ltb_lt _]. specialize (IH (S hi) ltac:(lia) ltac:(lia)).
    by rewrite Nat.add_succ_r, <- Nat.add_succ_l.
  - rewrite Nat.add_0_r. split; [done|]. apply andb_false_iff in Ec as [?%Nat.ltb_ge|?]; [left; lia|by right].
Qed.

(** Where a widened hunk ends, in both texts. *)
Lemma end_edge i j hs :
  script a b i j hs -> (i = next_lo hs -> hs = []) -> i = next_lo hs \/ is_cont a i = false ->
  is_cont a i = false /\ is_cont b j = false.
Proof.
  intros Hs Hnil Hc. destruct (script_next _ _ _ Hs) as (m & Hm & (_ & _ & Hsame) & _).
  destruct (decide (m = 0)) as [->|Hm0].
  - assert (hs = []) as -> by (apply Hnil; lia). destruct Hs as (n & ? & ? & _). cbn in Hm. unfold is_cont.
    by rewrite (lookup_ge_None_2 a), (lookup_ge_None_2 b) by lia.
  - destruct Hc as [?|Hc]; [lia|]. split; [done|]. unfold is_cont in *.
    specialize (Hsame 0 ltac:(lia)). rewrite !Nat.add_0_r in Hsame. by rewrite <- Hsame.
Qed.

Lemma absorb_spec i j h hs :
  script a b i j (h :: hs) ->
  exists h' hs', absorb a h hs = (h', hs') /\ script a b i j (h' :: hs') /\ a_lo h' = a_lo h /\
    is_cont a (a_hi h') = false /\ is_cont b (b_hi h') = false /\ length hs' <= length hs /\
    (all_proper (h :: hs) -> all_proper (h' :: hs')).
Proof.
  revert h. induction hs as [|n hs IH]; intros h Hs; cbn [absorb].
  all: pose proof Hs as (n0 & Hla & Hlb & Hg & ? & ? & Hr); pose proof (script_bounds _ _ _ _ _ Hr) as [? ?].
  all: destruct (script_next _ _ _ Hr) as (m & Hm & (? & ? & _) & Hk); cbn [next_lo] in Hm.
  - set (k := widen_hi a (length a) (a_hi h) (length a)).
    destruct (widen_hi_spec (length a) (a_hi h) (length a)) as [Hk1 Hk2]; [lia|lia|]. fold k in Hk1, Hk2.
    do 2 eexists. split; [done|]. split; [|split; [done|apply and_assoc; split; [|split; [done|]]]].
    + exists n0. cbn. splits; [done..|lia|lia|]. apply Hk. lia.
    + apply (end_edge (a_hi h + k) (b_hi h + k) []); [apply Hk; lia|done|done].
    + intros [Hp _]%Forall_cons. constructor; [|done]. apply proper_iff in Hp. apply proper_iff. cbn. lia.
  - set (k := widen_hi a (a_lo n) (a_hi h) (length a)).
    destruct (widen_hi_spec (a_lo n) (a_hi h) (length a)) as [Hk1 Hk2]; [lia|lia|]. fold k in Hk1, Hk2. cbn [a_hi].
    set (h1 := {| a_lo := a_lo h |}).
    assert (script a b i j (h1 :: n :: hs)) as Hs1.
    { exists n0. cbn [a_lo a_hi b_lo b_hi h1]. splits; [done..|lia|lia|]. apply Hk. lia. }
    assert (all_proper (h :: n :: hs) -> all_proper (h1 :: n :: hs)) as Hp1.
    { intros [Hp ?]%Forall_cons. constructor; [|done]. apply proper_iff in Hp. apply proper_iff. cbn. lia. }
    destruct (Nat.eqb_spec (a_hi h + k) (a_lo n)) as [Ek|Ek].
    + assert (touches h1 n = true) as Ht.
      { unfold touches. cbn. destruct Hs1 as (? & _ & _ & _ & _ & _ & (d & Hd1 & Hd2 & _)). cbn in Hd1, Hd2.
        rewrite (proj2 (Nat.eqb_eq _ _) Ek). apply Nat.eqb_eq. lia. }
      destruct (IH (join h1 n)) as (h' & hs' & E & Hs' & Hlo & Hc & Hcb & Hlen & Hp'); [by apply script_join|].
      exists h', hs'. rewrite E. splits; [done..|cbn; lia|]. intros Hp. apply Hp'. apply Hp1 in Hp.
      apply Forall_cons in Hp as [Hph Hp]. apply Forall_cons in Hp as [Hpn Hp]. constructor; [|done].
      apply script_join in Hs1; [|done]. destruct Hs1 as (? & _ & _ & _ & ? & ? & _).
      apply proper_iff in Hph, Hpn. apply proper_iff. unfold touches in Ht.
      apply andb_prop in Ht as [?%Nat.eqb_eq ?%Nat.eqb_eq]. cbn in *. lia.
    + exists h1, (n :: hs). split; [done|]. split; [done|]. split; [done|].
      apply and_assoc. split; [|by split]. by apply (end_edge (a_hi h + k) (b_hi h + k) (n :: hs)); [apply Hk; lia| |].
Qed.

(** Where the hunks may start and end. *)
Definition cut_between (h : Hunk) : Prop :=
  (a_lo h = 0 \/ is_cont a (a_lo h) = false) /\ is_cont a (a_hi h) = false /\ is_cont b (b_hi h) = false.

Lemma align_hunks_spec fuel i j hs :
  script a b i j hs -> length hs < fuel -> i = 0 \/ is_cont a i = false ->
  exists hs', align_hunks fuel a i hs = Some hs' /\ script a b i j hs' /\ Forall cut_between hs' /\
    (all_proper hs -> all_proper hs').
Proof.
  revert i j hs. induction fuel as [|fuel IH]; intros i j hs Hs Hf Hi; [lia|]. cbn [align_hunks].
  destruct hs as [|h hs]; [exists []; by splits|].
  pose proof Hs as (n & Hla & Hlb & Hg & ? & ? & Hr).
  destruct (widen_lo_spec i (a_lo h) (b_lo h) n) as (k & Hk & E & He); [done|lia|]. rewrite E. cbn [mbind option_bind].
  assert (script a b i j ({| a_lo := a_lo h - k; a_hi := a_hi h; b_lo := b_lo h - k; b_hi := b_hi h |} :: hs)) as Hs1.
  { exists (n - k). cbn. splits; [lia|lia| |lia|lia|done]. by apply (same_take _ _ _ _ n); [|lia]. }
  destruct (absorb_spec _ _ _ _ Hs1) as (h' & hs1 & E1 & Hs2 & Hlo & Hc & Hcb & Hlen & Hp). rewrite E1.
  destruct Hs2 as (n2 & ? & ? & Hg2 & ? & ? & Hr2). cbn in Hf.
  destruct (IH _ _ hs1 Hr2 ltac:(lia)) as (hs' & E2 & Hs' & He' & Hp'); [by right|]. rewrite E2. cbn [mbind option_bind].
  eexists. split; [done|]. split; [by exists n2; splits|]. split.
  - constructor; [|done]. split; [|by split]. rewrite Hlo. cbn. destruct He as [->|?]; [done|by right].
  - intros [Hph Hpr]%Forall_cons. apply proper_iff in Hph.
    assert (all_proper (h' :: hs1)) as Hpr'.
    { apply Hp. constructor; [|done]. apply proper_iff. cbn. lia. }
    apply Forall_cons in Hpr' as [? ?]. constructor; [done|by apply Hp'].
Qed.

Lemma align_to_characters_spec hs :
  script a b 0 0 hs ->
  exists hs', align_to_characters hs a = Some hs' /\ script a b 0 0 hs' /\ Forall cut_between hs' /\
    (all_proper hs -> all_proper hs').
Proof. intros Hs. apply align_hunks_spec; [done|lia|by left]. Qed.
End Rounds.

(** ** Characters

    A text is a sequence of characters: an element that continues nothing, and the number
    of continuations that it asks for. *)
Section Characters.
Context {T : Type} `{Elem T} (tail_len : T -> nat).

Inductive characters : list T -> Prop :=
| characters_nil : characters []
| characters_cons x tail rest :
    continues_character x = false -> length tail = tail_len x ->
    Forall (fun y => continues_character y = true) tail -> characters rest ->
    characters (x :: tail ++ rest).

Lemma is_cont_cons (x : T) s i : is_cont (x :: s) (S i) = is_cont s i.
Proof. done. Qed.

Lemma characters_drop s i : characters s -> is_cont s i = false -> characters (drop i s).
Proof.
  intros Hs. revert i. induction Hs as [|x tail rest Hx Hl Ht Hr IH]; intros i Hi; [by rewrite drop_nil; constructor|].
  destruct i as [|i]; [by constructor|]. cbn [drop].
  destruct (decide (i < length tail)) as [Hlt|Hge].
  - rewrite is_cont_cons in Hi. unfold is_cont in Hi. rewrite lookup_app_l in Hi by done.
    destruct (lookup_lt_is_Some_2 tail i Hlt) as [y Hy]. rewrite Hy in Hi.
    rewrite Forall_forall in Ht. apply list_elem_of_lookup_2, Ht in Hy. congruence.
  - rewrite drop_app_ge by lia. apply IH. rewrite is_cont_cons in Hi. unfold is_cont in *.
    by rewrite lookup_app_r in Hi by lia.
Qed.

Lemma characters_head s : characters s -> is_cont s 0 = false.
Proof. by destruct 1. Qed.

Lemma is_cont_drop (s : list T) i k : is_cont (drop i s) k = is_cont s (i + k).
Proof. unfold is_cont. by rewrite lookup_drop. Qed.

(** Equal text between character edges of one text ends at one in the other, too. *)
Lemma characters_same (a b : list T) i j n :
  characters (drop i a) -> characters (drop j b) -> same a b i j n ->
  characters (drop (i + n) a) -> characters (drop (j + n) b).
Proof.
  revert i j. induction n as [n IH] using lt_wf_ind. intros i j Ca Cb Hs Ce.
  destruct n as [|n]; [by rewrite Nat.add_0_r|].
  pose proof Hs as (? & ? & Hl). pose proof (Hl 0 ltac:(lia)) as Hxy. rewrite !Nat.add_0_r in Hxy.
  inversion Ca as [E|x ta ra Hx Hta Hca Hra E]; [apply (f_equal length) in E; rewrite length_drop in E; cbn in E; lia|].
  inversion Cb as [E'|y tb rb Hy Htb Hcb Hrb E']; [apply (f_equal length) in E'; rewrite length_drop in E'; cbn in E'; lia|].
  symmetry in E, E'. apply lookup_of_drop in E as Hxa, E' as Hyb. rewrite Hxa, Hyb in Hxy. injection Hxy as <-.
  assert (S (length ta) <= S n) as Hle.
  { apply Nat.nlt_ge. intros Hlt. pose proof (characters_head _ Ce) as Hh. rewrite is_cont_drop, Nat.add_0_r in Hh.
    assert (a !! (i + S n) = ta !! n) as Ht.
    { rewrite <- lookup_drop, E. change ((ta ++ ra) !! n = ta !! n). by rewrite lookup_app_l by lia. }
    unfold is_cont in Hh. rewrite Ht in Hh. destruct (lookup_lt_is_Some_2 ta n ltac:(lia)) as [z Hz]. rewrite Hz in Hh.
    rewrite Forall_forall in Hca. apply list_elem_of_lookup_2, Hca in Hz. congruence. }
  set (c := S (length ta)) in *.
  assert (drop (i + c) a = ra) as Ea.
  { rewrite <- drop_drop, E. unfold c. cbn. by rewrite drop_app_length. }
  assert (drop (j + c) b = rb) as Eb.
  { rewrite <- drop_drop, E'. unfold c. cbn. rewrite Hta, <- Htb. by rewrite drop_app_length. }
  replace (j + S n) with (j + c + (S n - c)) by lia. replace (i + S n) with (i + c + (S n - c)) in Ce by lia.
  apply (IH (S n - c) ltac:(lia) (i + c)); [by rewrite Ea|by rewrite Eb| |done].
  by apply (same_part _ _ _ _ (S n)); [|lia].
Qed.

(** All four edges are between characters. *)
Definition between_characters (a b : list T) (h : Hunk) : Prop :=
  is_cont a (a_lo h) = false /\ is_cont a (a_hi h) = false /\
  is_cont b (b_lo h) = false /\ is_cont b (b_hi h) = false.

Lemma cut_characters (a b : list T) i j hs :
  characters a -> characters b -> script a b i j hs -> is_cont a i = false -> is_cont b j = false ->
  Forall (cut_between a b) hs -> Forall (between_characters a b) hs.
Proof.
  intros Ca Cb. revert i j. induction hs as [|h hs IH]; intros i j Hs Hi Hj Hc; [done|].
  destruct Hs as (n & Hla & Hlb & Hg & _ & _ & Hr). apply Forall_cons in Hc as [(Hlo & Hhi & Hbhi) Hc].
  assert (is_cont a (a_lo h) = false) as Hlo'.
  { destruct Hlo as [->|?]; [by apply characters_head|done]. }
  constructor; [|by eapply IH]. split; [done|]. split; [done|]. split; [|done].
  rewrite Hlb, <- (Nat.add_0_r (j + n)), <- is_cont_drop. apply characters_head.
  apply (characters_same a b i j n); [by apply characters_drop|by apply characters_drop|done|].
  rewrite <- Hla. by apply characters_drop.
Qed.
End Characters.
