(* ===== verification/DiffElems.v ===== *)
(** * The elements that can be compared (text_diff/lib.rs)

    The three instances of the trait [Elem]: the ids of lines ([u32]), the code units of
    UTF-16 ([u16]) and bytes ([u8]).  Bytes have searches of their own, which compare a
    block of 64 and then a word of 8 at a time and find the place in a word by its zero
    bits; [prefix_law] and [suffix_law] say that they find what the loops of the trait do. *)

From S2P Require Import Prelude Bytes DiffHunks.

#[local] Open Scope nat_scope.

Definition u8 := Z.
Definition u16 := Z.
Definition u32 := Z.
#[global] Typeclasses Opaque u8 u16 u32.
#[export] Instance u8_eq : EqDecision u8 := Z.eq_dec.
#[export] Instance u16_eq : EqDecision u16 := Z.eq_dec.
#[export] Instance u32_eq : EqDecision u32 := Z.eq_dec.

(** ** The trait's own search *)
Section Default.
Context {T : Type} `{EqDecision T}.

Fixpoint find_loop (fuel : nat) (hay : list T) (first : T) (rest : list T) (last_ at_ : nat) (budget : Z) :
    option (option nat * Z) :=
  match fuel with
  | 0 => None
  | S fuel =>
      if (at_ <=? last_) && (0 <? budget)%Z then
        let budget := (budget - 1)%Z in
        x ← hay !! at_;
        if decide (x = first) then
          let same := prefix_loop (drop (S at_) hay) rest in
          let budget := (budget - (Z.of_nat same + 1))%Z in
          if same =? length rest then Some (Some at_, budget)
          else find_loop fuel hay first rest last_ (S at_) budget
        else find_loop fuel hay first rest last_ (S at_) budget
      else Some (None, budget)
  end.

Definition find_default (hay needle : list T) (budget : Z) : option (option nat * Z) :=
  match needle with
  | [] => Some (None, budget)
  | first :: rest =>
      match usub (length hay) (length needle) with
      | None => Some (None, budget)
      | Some last_ => find_loop (S (S last_)) hay first rest last_ 0 budget
      end
  end.
End Default.

#[export] Instance u32_elem : Elem u32 := {|
  elem_eq := u32_eq;
  anchored := true;
  elem_id t := Some (Z.to_nat t);
  is_newline _ := false;
  continues_character _ := false;
  elem_find := find_default;
  common_prefix a b := Some (prefix_loop a b);
  common_suffix a b := Some (suffix_loop a b)
|}.

#[export] Instance u16_elem : Elem u16 := {|
  elem_eq := u16_eq;
  anchored := false;
  elem_id _ := None;
  is_newline _ := false;
  continues_character u := (Z.land u 64512 =? 56320)%Z;
  elem_find := find_default;
  common_prefix a b := Some (prefix_loop a b);
  common_suffix a b := Some (suffix_loop a b)
|}.

(** ** Bytes *)

(** [u64::from_le_bytes(a[i..i + 8].try_into().unwrap())] *)
Definition word_at (a : bytes) (i : nat) : option Z := le_combine <$> slice_range a i (i + 8).

(** [x.leading_zeros()] of a word that is not 0. *)
Definition leading_zeros (bits : nat) (x : Z) : nat := bits - 1 - Z.to_nat (Z.log2 x).

(** [while i + 64 <= n && a[i..i + 64] == b[i..i + 64] { i += 64; }] *)
Fixpoint prefix_blocks (fuel : nat) (a b : bytes) (n i : nat) : option nat :=
  match fuel with
  | 0 => None
  | S fuel =>
      if i + 64 <=? n then
        x ← slice_range a i (i + 64);
        y ← slice_range b i (i + 64);
        if bool_decide (x = y) then prefix_blocks fuel a b n (i + 64) else Some i
      else Some i
  end.
(** The words: where the first differs, or else how far they go. *)
Fixpoint prefix_words (fuel : nat) (a b : bytes) (n i : nat) : option (nat + nat) :=
  match fuel with
  | 0 => None
  | S fuel =>
      if i + 8 <=? n then
        x ← word_at a i;
        y ← word_at b i;
        let x := Z.lxor x y in
        if (x =? 0)%Z then prefix_words fuel a b n (i + 8)
        else Some (inr (i + trailing_zeros 64 x / 8))
      else Some (inl i)
  end.
Definition u8_common_prefix (a b : bytes) : option nat :=
  let n := length a `min` length b in
  let a := take n a in
  let b := take n b in
  i ← prefix_blocks (S n) a b n 0;
  r ← prefix_words (S n) a b n i;
  match r with
  | inr p => Some p
  | inl i => Some (i + prefix_loop (drop i a) (drop i b))
  end.

Fixpoint suffix_blocks (fuel : nat) (a b : bytes) (n i : nat) : option nat :=
  match fuel with
  | 0 => None
  | S fuel =>
      if i + 64 <=? n then
        from ← usub (n - i) 64;
        x ← slice_range a from (n - i);
        y ← slice_range b from (n - i);
        if bool_decide (x = y) then suffix_blocks fuel a b n (i + 64) else Some i
      else Some i
  end.
Fixpoint suffix_words (fuel : nat) (a b : bytes) (n i : nat) : option (nat + nat) :=
  match fuel with
  | 0 => None
  | S fuel =>
      if i + 8 <=? n then
        from ← usub (n - i) 8;
        x ← word_at a from;
        y ← word_at b from;
        let x := Z.lxor x y in
        if (x =? 0)%Z then suffix_words fuel a b n (i + 8)
        else Some (inr (i + leading_zeros 64 x / 8))
      else Some (inl i)
  end.
Definition u8_common_suffix (a b : bytes) : option nat :=
  let n := length a `min` length b in
  let a := drop (length a - n) a in
  let b := drop (length b - n) b in
  i ← suffix_blocks (S n) a b n 0;
  r ← suffix_words (S n) a b n i;
  match r with
  | inr s => Some s
  | inl i => Some (i + suffix_loop (take (n - i) a) (take (n - i) b))
  end.

Definition u8_find (hay needle : bytes) (budget : Z) : option (option nat * Z) :=
  if (budget <=? 0)%Z then Some (None, budget)
  else
    let found := index_of hay needle in
    let used := match found with None => length hay | Some at_ => at_ + length needle end in
    Some (found, (budget - Z.of_nat used)%Z).

#[export] Instance u8_elem : Elem u8 := {|
  elem_eq := u8_eq;
  anchored := false;
  elem_id _ := None;
  is_newline c := (c =? 10)%Z;
  continues_character c := (Z.land c 192 =? 128)%Z;
  elem_find := u8_find;
  common_prefix := u8_common_prefix;
  common_suffix := u8_common_suffix
|}.

(** ** What the searches find *)
Lemma find_loop_spec {T} `{EqDecision T} fuel (hay : list T) first rest last_ at_ budget :
  last_ + S (length rest) = length hay -> last_ + 1 < fuel + at_ -> at_ <= last_ + 1 ->
  exists r budget', find_loop fuel hay first rest last_ at_ budget = Some (r, budget') /\
    forall i, r = Some i -> i <= last_ /\ take (S (length rest)) (drop i hay) = first :: rest.
Proof.
  revert at_ budget. induction fuel as [|fuel IH]; intros at_ budget Hl Hf Hat; [lia|]. cbn [find_loop].
  destruct ((at_ <=? last_) && (0 <? budget)%Z) eqn:E; [|by eexists _, _; split].
  apply andb_prop in E as [?%Nat.leb_le _].
  destruct (lookup_lt_is_Some_2 hay at_ ltac:(lia)) as [x Hx]. rewrite Hx. cbn [mbind option_bind].
  destruct (decide (x = first)) as [->|]; [|by apply IH; lia].
  destruct (Nat.eqb_spec (prefix_loop (drop (S at_) hay) rest) (length rest)) as [Hp|]; [|by apply IH; lia].
  eexists _, _. split; [done|]. intros i [= <-]. split; [done|].
  rewrite (drop_S _ _ _ Hx). cbn [take]. f_equal.
  apply list_eq. intros k. destruct (decide (k < length rest)) as [Hk|Hk].
  - rewrite lookup_take_lt by done. apply prefix_loop_lookup. lia.
  - rewrite lookup_take_ge, lookup_ge_None_2 by lia. done.
Qed.

Lemma find_default_spec {T} `{EqDecision T} (hay needle : list T) budget :
  exists r budget', find_default hay needle budget = Some (r, budget') /\
    forall i, r = Some i -> i + length needle <= length hay /\ take (length needle) (drop i hay) = needle.
Proof.
  destruct needle as [|first rest]; [by eexists _, _; split|]. cbn [find_default]. unfold usub.
  destruct (Nat.leb_spec (length (first :: rest)) (length hay)) as [Hle|]; [|by eexists _, _; split].
  cbn [length] in *.
  destruct (find_loop_spec (S (S (length hay - S (length rest)))) hay first rest (length hay - S (length rest)) 0 budget)
    as (r & budget' & E & Hr); [lia..|].
  exists r, budget'. split; [exact E|]. intros i Hi. destruct (Hr i Hi) as [? ?]. split; [lia|done].
Qed.

#[export] Instance u32_laws : ElemLaws u32.
Proof.
  refine {| elem_ok := fun t : u32 => (0 <= t)%Z |}; [done|done| |intros hay needle budget _ _; apply find_default_spec].
  intros _. exists Z.to_nat. split; [done|]. intros t u Ht Hu. cbn in Ht, Hu. lia.
Defined.
#[export] Instance u16_laws : ElemLaws u16.
Proof.
  refine {| elem_ok := fun _ : u16 => True |}; [done|done|done|]. intros hay needle budget _ _. apply find_default_spec.
Defined.

(** *** Words *)
Lemma lxor_byte b1 b2 : is_byte b1 -> is_byte b2 -> (0 <= Z.lxor b1 b2 < 256)%Z.
Proof.
  unfold is_byte. intros H1 H2. split; [apply Z.lxor_nonneg; lia|].
  destruct (decide (Z.lxor b1 b2 = 0)%Z) as [->|Hne]; [lia|].
  apply Z.log2_lt_pow2 with (b := 8%Z); [pose proof (proj2 (Z.lxor_nonneg b1 b2)); lia|].
  pose proof (Z.log2_lxor b1 b2 ltac:(lia) ltac:(lia)) as Hl.
  assert (forall x, 0 <= x < 256 -> Z.log2 x < 8)%Z as Hx.
  { intros x Hx. destruct (decide (x = 0)%Z) as [->|]; [done|]. apply Z.log2_lt_pow2; lia. }
  pose proof (Hx b1 H1). pose proof (Hx b2 H2). lia.
Qed.

Lemma lxor_split b1 z1 b2 z2 :
  is_byte b1 -> is_byte b2 ->
  Z.lxor (b1 + 256 * z1) (b2 + 256 * z2) = (Z.lxor b1 b2 + 256 * Z.lxor z1 z2)%Z.
Proof.
  intros H1 H2. pose proof (lxor_byte _ _ H1 H2) as Hr. unfold is_byte in *.
  apply Z.bits_inj'. intros i Hi. rewrite Z.lxor_spec, !testbit_split by lia.
  destruct (i <? 8)%Z; by rewrite Z.lxor_spec.
Qed.

Lemma trailing_zeros_shift bits z : trailing_zeros (8 + bits) (256 * z) = 8 + trailing_zeros bits z.
Proof.
  assert (forall n w, trailing_zeros (S n) (2 * w) = S (trailing_zeros n w)) as Hs.
  { intros n w. cbn [trailing_zeros]. rewrite Z.odd_mul. cbn [Z.odd andb].
    by rewrite Z.mul_comm, Z.div_mul by lia. }
  replace (256 * z)%Z with (2 * (2 * (2 * (2 * (2 * (2 * (2 * (2 * z))))))))%Z by lia.
  cbn [Nat.add]. by rewrite !Hs.
Qed.

(** The lowest bit that is set is in the lowest byte that is not 0. *)
Lemma trailing_zeros_low bits (c z : Z) :
  (0 < c < 256)%Z -> trailing_zeros (8 + bits) (c + 256 * z) < 8.
Proof.
  intros Hc.
  assert (forall k n (c z : Z), (0 < c < 2 ^ Z.of_nat k)%Z -> trailing_zeros (k + n) (c + 2 ^ Z.of_nat k * z) < k) as H.
  { clear. induction k as [|k IH]; intros n c z Hc; [cbn in Hc; lia|].
    cbn [Nat.add trailing_zeros]. rewrite Nat2Z.inj_succ, Z.pow_succ_r in * by lia.
    destruct (Z.odd (c + 2 * 2 ^ Z.of_nat k * z)) eqn:Eo; [lia|].
    rewrite <- Z.mul_assoc, Z.odd_add_mul_2 in Eo.
    pose proof (Z.div2_odd c) as Hd. rewrite Eo in Hd. cbn [Z.b2z] in Hd. rewrite Z.add_0_r in Hd.
    rewrite Hd, <- Z.mul_assoc, <- Z.mul_add_distr_l, (Z.mul_comm 2), Z.div_mul by lia.
    specialize (IH n (Z.div2 c) z ltac:(lia)). lia. }
  specialize (H 8 bits c z Hc). exact H.
Qed.

Lemma word_prefix l1 l2 :
  length l1 = length l2 -> Forall is_byte l1 -> Forall is_byte l2 -> l1 <> l2 ->
  trailing_zeros (8 * length l1) (Z.lxor (le_combine l1) (le_combine l2)) / 8 = prefix_loop l1 l2 /\
  prefix_loop l1 l2 < length l1.
Proof.
  revert l2. induction l1 as [|x l1 IH]; intros [|y l2] Hl H1 H2 Hne; try done.
  apply Forall_cons in H1 as [Hx H1], H2 as [Hy H2]. injection Hl as Hl.
  cbn [le_combine length prefix_loop]. rewrite lxor_split by done.
  replace (8 * S (length l1)) with (8 + 8 * length l1) by lia.
  destruct (decide (x = y)) as [->|Hxy].
  - rewrite Z.lxor_nilpotent, Z.add_0_l, trailing_zeros_shift.
    destruct (IH l2 Hl H1 H2 ltac:(congruence)) as [E ?].
    rewrite <- E. split; [|lia]. apply (Nat.div_add_l 1 8). lia.
  - split; [|lia]. apply Nat.div_small, trailing_zeros_low. pose proof (lxor_byte x y Hx Hy).
    destruct (decide (Z.lxor x y = 0)%Z) as [E|]; [by apply Z.lxor_eq in E|lia].
Qed.

Lemma lxor_high (k a1 h1 a2 h2 : Z) :
  (0 <= k)%Z -> (0 <= a1 < 2 ^ k)%Z -> (0 <= a2 < 2 ^ k)%Z ->
  Z.lxor (a1 + 2 ^ k * h1) (a2 + 2 ^ k * h2) = (Z.lxor a1 a2 + 2 ^ k * Z.lxor h1 h2)%Z /\
  (0 <= Z.lxor a1 a2 < 2 ^ k)%Z.
Proof.
  intros Hk H1 H2.
  assert (forall a h i, (0 <= a < 2 ^ k)%Z -> (0 <= i)%Z ->
    Z.testbit (a + 2 ^ k * h) i = if (i <? k)%Z then Z.testbit a i else Z.testbit h (i - k)) as Ht.
  { intros a h i Ha Hi. destruct (Z.ltb_spec i k).
    - rewrite <- (Z.mod_pow2_bits_low _ k) by lia. rewrite Z.mul_comm, Z.mod_add, Z.mod_small by lia. done.
    - replace i with (i - k + k)%Z at 1 by lia. rewrite <- Z.div_pow2_bits by lia.
      rewrite Z.mul_comm, Z.div_add, Z.div_small by lia. done. }
  assert (0 <= Z.lxor a1 a2 < 2 ^ k)%Z as Hr.
  { rewrite <- (Z.mod_small a1 (2 ^ k)), <- (Z.mod_small a2 (2 ^ k)) by done.
    assert (Z.lxor (a1 mod 2 ^ k) (a2 mod 2 ^ k) = Z.lxor a1 a2 mod 2 ^ k)%Z as ->; [|by apply Z.mod_pos_bound; lia].
    apply Z.bits_inj'. intros i Hi. destruct (Z.lt_ge_cases i k).
    - by rewrite Z.lxor_spec, !Z.mod_pow2_bits_low, Z.lxor_spec.
    - by rewrite Z.lxor_spec, !Z.mod_pow2_bits_high by lia. }
  split; [|done]. apply Z.bits_inj'. intros i Hi. rewrite Z.lxor_spec, !Ht by done.
  destruct (i <? k)%Z; by rewrite Z.lxor_spec.
Qed.

Lemma suffix_loop_snoc {T} `{EqDecision T} (l1 l2 : list T) x y :
  suffix_loop (l1 ++ [x]) (l2 ++ [y]) = if decide (x = y) then S (suffix_loop l1 l2) else 0.
Proof. unfold suffix_loop. by rewrite !rev_app_distr. Qed.

Lemma word_suffix l1 l2 :
  length l1 = length l2 -> Forall is_byte l1 -> Forall is_byte l2 -> l1 <> l2 ->
  leading_zeros (8 * length l1) (Z.lxor (le_combine l1) (le_combine l2)) / 8 = suffix_loop l1 l2 /\
  suffix_loop l1 l2 < length l1 /\ (0 < Z.lxor (le_combine l1) (le_combine l2))%Z.
Proof.
  revert l2. induction l1 as [|x l1 IH] using rev_ind; intros l2 Hl H1 H2 Hne.
  { by destruct l2. }
  destruct l2 as [|y l2 _] using rev_ind; [rewrite length_app in Hl; cbn in Hl; lia|].
  rewrite !length_app in Hl. cbn [length] in Hl. assert (length l1 = length l2) as Hl' by lia.
  apply Forall_app in H1 as [H1 [Hx _]%Forall_cons], H2 as [H2 [Hy _]%Forall_cons].
  rewrite suffix_loop_snoc, !le_combine_app, !length_app, Hl'. cbn [length le_combine].
  rewrite !Z.mul_0_r, !Z.add_0_r.
  pose proof (le_combine_range l1 H1) as Hr1. pose proof (le_combine_range l2 H2) as Hr2.
  rewrite Hl' in Hr1. set (k := length l2) in *.
  assert (256 ^ Z.of_nat k = 2 ^ (8 * Z.of_nat k))%Z as Ek by (by rewrite Z.pow_mul_r by lia).
  rewrite Ek in *. destruct (lxor_high (8 * Z.of_nat k) _ x _ y ltac:(lia) Hr1 Hr2) as [-> Hlow].
  destruct (decide (x = y)) as [->|Hxy].
  - rewrite Z.lxor_nilpotent, Z.mul_0_r, Z.add_0_r.
    destruct (IH l2 Hl' H1 H2 ltac:(congruence)) as (E & ? & Hpos). rewrite Hl' in E, H. fold k in E, H.
    assert (Z.log2 (Z.lxor (le_combine l1) (le_combine l2)) < 8 * Z.of_nat k)%Z as Hlog by (apply Z.log2_lt_pow2; [done|apply Hlow]).
    rewrite <- E. split; [|split; [lia|done]]. unfold leading_zeros in *.
    pose proof (Z.log2_nonneg (Z.lxor (le_combine l1) (le_combine l2))).
    rewrite <- (Nat.div_add_l 1 8) by lia. f_equal. lia.
  - assert (0 < Z.lxor x y)%Z as Hxor.
    { pose proof (lxor_byte x y Hx Hy). destruct (decide (Z.lxor x y = 0)%Z) as [E|]; [by apply Z.lxor_eq in E|lia]. }
    assert (2 ^ (8 * Z.of_nat k) <= Z.lxor (le_combine l1) (le_combine l2) + 2 ^ (8 * Z.of_nat k) * Z.lxor x y)%Z as Hbig by nia.
    pose proof (Z.pow_pos_nonneg 2 (8 * Z.of_nat k) ltac:(lia) ltac:(lia)).
    split; [|split; [lia|lia]]. apply Nat.div_small. unfold leading_zeros.
    apply Z.log2_le_mono in Hbig. rewrite Z.log2_pow2 in Hbig by lia. lia.
Qed.

(** *** The searches *)
Lemma prefix_loop_shift {T} `{EqDecision T} (a b : list T) i :
  i <= length a -> i <= length b -> take i a = take i b ->
  prefix_loop a b = i + prefix_loop (drop i a) (drop i b).
Proof.
  revert a b. induction i as [|i IH]; intros a b ? ? Ht; [done|].
  destruct a as [|x a], b as [|y b]; cbn [length] in *; try lia. cbn [take] in Ht. injection Ht as -> Ht.
  cbn [prefix_loop drop]. rewrite decide_True by done. by rewrite (IH a b) by (done || lia).
Qed.

Lemma prefix_loop_take {T} `{EqDecision T} (a b : list T) k :
  prefix_loop (take k a) (take k b) = k `min` prefix_loop a b.
Proof.
  revert a b. induction k as [|k IH]; intros a b; [done|].
  destruct a as [|x a], b as [|y b]; cbn [take prefix_loop]; try lia.
  destruct (decide (x = y)); [rewrite IH; lia|lia].
Qed.

Lemma take_part_eq {T} (a b : list T) i n :
  i + n <= length a -> i + n <= length b ->
  take i a = take i b -> take n (drop i a) = take n (drop i b) -> take (i + n) a = take (i + n) b.
Proof. intros ? ? H1 H2. by rewrite <- !take_take_drop, H1, H2. Qed.

Lemma prefix_blocks_spec fuel a b n i :
  length a = n -> length b = n -> i <= n -> n < fuel + i -> take i a = take i b ->
  exists i', prefix_blocks fuel a b n i = Some i' /\ i' <= n /\ take i' a = take i' b.
Proof.
  revert i. induction fuel as [|fuel IH]; intros i Hla Hlb Hi Hf Ht; [lia|]. cbn [prefix_blocks].
  destruct (Nat.leb_spec (i + 64) n); [|by exists i].
  rewrite !slice_range_Some by lia. cbn [mbind option_bind]. case_bool_decide as Heq; [|by exists i].
  apply IH; [done|done|lia|lia|]. replace (i + 64 - i) with 64 in Heq by lia. apply take_part_eq; [lia|lia|done|done].
Qed.

Lemma word_at_Some a i : i + 8 <= length a -> word_at a i = Some (le_combine (take 8 (drop i a))).
Proof. intros ?. unfold word_at. rewrite slice_range_Some by lia. by replace (i + 8 - i) with 8 by lia. Qed.

Lemma prefix_words_spec fuel a b n i :
  Forall is_byte a -> Forall is_byte b ->
  length a = n -> length b = n -> i <= n -> n < fuel + i -> take i a = take i b ->
  exists r, prefix_words fuel a b n i = Some r /\
    match r with
    | inr p => p = prefix_loop a b
    | inl i' => i' <= n /\ take i' a = take i' b
    end.
Proof.
  intros Ba Bb. revert i. induction fuel as [|fuel IH]; intros i Hla Hlb Hi Hf Ht; [lia|]. cbn [prefix_words].
  destruct (Nat.leb_spec (i + 8) n); [|by exists (inl i)].
  rewrite !word_at_Some by lia. cbn [mbind option_bind].
  set (x := take 8 (drop i a)). set (y := take 8 (drop i b)).
  assert (length x = 8 /\ length y = 8) as [Hx Hy] by (unfold x, y; rewrite !length_part by lia; done).
  assert (Forall is_byte x /\ Forall is_byte y) as [Bx By] by (split; by apply Forall_take, Forall_drop).
  destruct (Z.eqb_spec (Z.lxor (le_combine x) (le_combine y)) 0) as [E|E].
  - apply Z.lxor_eq, le_combine_inj in E; [|congruence|done|done].
    apply IH; [done|done|lia|lia|]. by apply take_part_eq; [lia|lia| |].
  - eexists. split; [done|]. cbn beta iota.
    destruct (word_prefix x y) as [Ep Hlt]; [congruence|done|done|intros Exy; rewrite Exy, Z.lxor_nilpotent in E; done|].
    rewrite Hx in Ep, Hlt. change (8 * 8) with 64 in Ep. rewrite Ep.
    rewrite (prefix_loop_shift a b i) by (done || lia). f_equal.
    unfold x, y in Hlt |- *. rewrite prefix_loop_take in Hlt |- *. lia.
Qed.

Lemma u8_prefix_law (a b : bytes) :
  Forall is_byte a -> Forall is_byte b -> u8_common_prefix a b = Some (prefix_loop a b).
Proof.
  intros Ba Bb. unfold u8_common_prefix. set (n := length a `min` length b).
  assert (prefix_loop (take n a) (take n b) = prefix_loop a b) as <-.
  { rewrite prefix_loop_take. pose proof (prefix_loop_le a b). lia. }
  apply (Forall_take _ n) in Ba, Bb.
  assert (length (take n a) = n /\ length (take n b) = n) as [Hla Hlb] by (rewrite !length_take; lia).
  destruct (prefix_blocks_spec (S n) (take n a) (take n b) n 0) as (i & -> & ? & Ht); [done|done|lia|lia|done|].
  cbn [mbind option_bind].
  destruct (prefix_words_spec (S n) (take n a) (take n b) n i) as (r & -> & Hr); [done|done|done|done|lia|lia|done|].
  cbn [mbind option_bind]. destruct r as [i'|p]; [|by subst]. destruct Hr as [? Ht'].
  f_equal. symmetry. apply prefix_loop_shift; [lia|lia|done].
Qed.

Lemma suffix_loop_shift {T} `{EqDecision T} (a b : list T) n i :
  length a = n -> length b = n -> i <= n -> drop (n - i) a = drop (n - i) b ->
  suffix_loop a b = i + suffix_loop (take (n - i) a) (take (n - i) b).
Proof.
  intros Ha Hb Hi Hd. unfold suffix_loop.
  assert (forall l : list T, length l = n -> rev (take (n - i) l) = drop i (rev l)) as Hr.
  { intros l Hl. rewrite firstn_skipn_rev, Hl, rev_involutive. f_equal. lia. }
  rewrite (Hr a Ha), (Hr b Hb). apply prefix_loop_shift; [by rewrite length_rev, Ha|by rewrite length_rev, Hb|].
  by rewrite !firstn_rev, Ha, Hb, Hd.
Qed.

Lemma suffix_loop_drop {T} `{EqDecision T} (a b : list T) k :
  k <= length a -> k <= length b ->
  suffix_loop (drop (length a - k) a) (drop (length b - k) b) = k `min` suffix_loop a b.
Proof.
  intros Ha Hb. unfold suffix_loop. rewrite <- prefix_loop_take. by rewrite !firstn_rev.
Qed.

Lemma drop_part_eq {T} (a b : list T) i m n :
  m <= i -> i <= n -> length a = n -> length b = n ->
  drop (n - m) a = drop (n - m) b -> take (i - m) (drop (n - i) a) = take (i - m) (drop (n - i) b) ->
  drop (n - i) a = drop (n - i) b.
Proof.
  intros ? ? ? ? H1 H2. rewrite <- (take_drop (i - m) (drop (n - i) a)), <- (take_drop (i - m) (drop (n - i) b)), H2, !drop_drop.
  by replace (n - i + (i - m)) with (n - m) by lia; rewrite H1.
Qed.

Lemma suffix_blocks_spec fuel a b n i :
  length a = n -> length b = n -> i <= n -> n < fuel + i -> drop (n - i) a = drop (n - i) b ->
  exists i', suffix_blocks fuel a b n i = Some i' /\ i' <= n /\ drop (n - i') a = drop (n - i') b.
Proof.
  revert i. induction fuel as [|fuel IH]; intros i Hla Hlb Hi Hf Ht; [lia|]. cbn [suffix_blocks].
  destruct (Nat.leb_spec (i + 64) n); [|by exists i].
  rewrite usub_Some by lia. cbn [mbind option_bind].
  rewrite !slice_range_Some by lia. cbn [mbind option_bind]. case_bool_decide as Heq; [|by exists i].
  apply IH; [done|done|lia|lia|]. apply (drop_part_eq _ _ (i + 64) i); [lia|lia|done|done|done|].
  replace (n - i - (n - i - 64)) with (i + 64 - i) in Heq by lia.
  by replace (n - i - 64) with (n - (i + 64)) in Heq by lia.
Qed.

Lemma suffix_words_spec fuel a b n i :
  Forall is_byte a -> Forall is_byte b ->
  length a = n -> length b = n -> i <= n -> n < fuel + i -> drop (n - i) a = drop (n - i) b ->
  exists r, suffix_words fuel a b n i = Some r /\
    match r with
    | inr s => s = suffix_loop a b
    | inl i' => i' <= n /\ drop (n - i') a = drop (n - i') b
    end.
Proof.
  intros Ba Bb. revert i. induction fuel as [|fuel IH]; intros i Hla Hlb Hi Hf Ht; [lia|]. cbn [suffix_words].
  destruct (Nat.leb_spec (i + 8) n); [|by exists (inl i)].
  rewrite usub_Some by lia. cbn [mbind option_bind]. rewrite !word_at_Some by lia. cbn [mbind option_bind].
  replace (n - i - 8) with (n - (i + 8)) by lia.
  set (x := take 8 (drop (n - (i + 8)) a)). set (y := take 8 (drop (n - (i + 8)) b)).
  assert (length x = 8 /\ length y = 8) as [Hx Hy] by (unfold x, y; rewrite !length_part by lia; done).
  assert (Forall is_byte x /\ Forall is_byte y) as [Bx By] by (split; by apply Forall_take, Forall_drop).
  destruct (Z.eqb_spec (Z.lxor (le_combine x) (le_combine y)) 0) as [E|E].
  - apply Z.lxor_eq, le_combine_inj in E; [|congruence|done|done].
    apply IH; [done|done|lia|lia|]. apply (drop_part_eq _ _ (i + 8) i); [lia|lia|done|done|done|].
    replace (i + 8 - i) with 8 by lia. exact E.
  - eexists. split; [done|]. cbn beta iota.
    destruct (word_suffix x y) as (Ep & Hlt & _); [congruence|done|done|intros Exy; rewrite Exy, Z.lxor_nilpotent in E; done|].
    rewrite Hx in Ep, Hlt. change (8 * 8) with 64 in Ep. rewrite Ep.
    rewrite (suffix_loop_shift a b n i) by (done || lia). f_equal.
    assert (forall l : bytes, length l = n ->
      drop (length (take (n - i) l) - 8) (take (n - i) l) = take 8 (drop (n - (i + 8)) l)) as Hpart.
    { intros l Hl. rewrite length_take, skipn_firstn_comm. replace ((n - i) `min` length l - 8) with (n - (i + 8)) by lia.
      f_equal. lia. }
    pose proof (suffix_loop_drop (take (n - i) a) (take (n - i) b) 8) as Hs.
    rewrite (Hpart a Hla), (Hpart b Hlb) in Hs. fold x y in Hs.
    rewrite Hs in * by (rewrite length_take; lia). lia.
Qed.

Lemma u8_suffix_law (a b : bytes) :
  Forall is_byte a -> Forall is_byte b -> u8_common_suffix a b = Some (suffix_loop a b).
Proof.
  intros Ba Bb. unfold u8_common_suffix. set (n := length a `min` length b).
  assert (suffix_loop (drop (length a - n) a) (drop (length b - n) b) = suffix_loop a b) as <-.
  { rewrite suffix_loop_drop by lia. pose proof (suffix_loop_le a b). lia. }
  apply (Forall_drop _ (length a - n)) in Ba. apply (Forall_drop _ (length b - n)) in Bb.
  set (a' := drop (length a - n) a) in *. set (b' := drop (length b - n) b) in *.
  assert (length a' = n /\ length b' = n) as [Hla Hlb] by (unfold a', b'; rewrite !length_drop; lia).
  destruct (suffix_blocks_spec (S n) a' b' n 0) as (i & -> & ? & Ht); [done|done|lia|lia| |].
  { by rewrite !drop_ge by lia. }
  cbn [mbind option_bind].
  destruct (suffix_words_spec (S n) a' b' n i) as (r & -> & Hr); [done|done|done|done|lia|lia|done|].
  cbn [mbind option_bind]. destruct r as [i'|p]; [|by subst]. destruct Hr as [? Ht'].
  f_equal. symmetry. by apply suffix_loop_shift.
Qed.

#[export] Instance u8_laws : ElemLaws u8.
Proof.
  refine {| elem_ok := is_byte : u8 -> Prop |}; [exact u8_prefix_law|exact u8_suffix_law|done|].
  intros hay needle budget _ _. cbn. unfold u8_find. destruct (budget <=? 0)%Z; [by eexists _, _; split|].
  eexists _, _. split; [done|]. apply index_of_Some.
Defined.

(** ** The bytes' own searches *)

(** Comparing 64 bytes at a time, then 8, and taking the place of the first (or last)
    differing byte from the zero bits of the words' xor finds exactly the common prefix
    (and suffix) that comparing byte by byte does, without reading out of bounds. *)
Theorem u8_words_agree (a b : bytes) (Ha : Forall is_byte a) (Hb : Forall is_byte b) :
  u8_common_prefix a b = Some (prefix_loop a b) /\ u8_common_suffix a b = Some (suffix_loop a b).
Proof. split; [by apply u8_prefix_law|by apply u8_suffix_law]. Qed.

Lemma u8_words_agree_witness :
  let a := bstr "0123456789abcdefghij0123456789abcdefghij0123456789abcdefghij0123456789abcdefghij" in
  let b := bstr "0123456789abcdefghij0123456789abcdefghij0123456789abcdefghij0123456789Abcdefghij" in
  u8_common_prefix a b = Some 70 /\ u8_common_suffix a b = Some 9.
Proof.
  cbv zeta. match goal with |- u8_common_prefix ?a ?b = _ /\ _ => destruct (u8_words_agree a b) as [-> ->] end;
    [decide_now|decide_now|]. split; vm_compute; reflexivity.
Defined.
