(* ===== verification/DiffMyers.v ===== *)
(** * The search for a diff (text_diff/lib.rs)

    Myers' search from both ends ([middle]), the cuts tried when it is given up
    (unique lines in order, halves that match, the points of furthest progress), and the
    loop over the boxes still to be solved ([run]), which marks the elements that are not
    in common.

    Steps and depths are [Z] and positions [nat]; the casts of the source are written
    out.  [middle] computes in [i32]: with the lengths below [MAX_LEN], which
    [Myers::new] asserts, its values stay between [NONE] and twice that, so only the
    casts into [i32] need the width.  Two assertions of debug builds are not modelled:
    that a search of unlimited depth meets, and that it does not meet in a corner of
    the box; the code after them does not rely on either. *)

From S2P Require Import Prelude Bytes DiffHunks.

#[local] Open Scope nat_scope.

Definition MAX_LEN : Z := (2147483647 / 4)%Z.
Definition MIN_PROBE : Z := 64%Z.
Definition ANCHOR_COVERAGE : nat := 4.
Definition NONE : Z := (-1073741824)%Z.

Record Policy := {
  probe : Z;
  exhaustive_max : Z;
  exhaustive_per_elem : Z;
  exhaustive_quota : Z;
  work : Z;
  half_match_steps : Z
}.

Definition exhaustive_depth (p : Policy) (n : Z) : Z :=
  Z.min (Z.min (exhaustive_max p) (Z.sqrt (saturating_mul64 n (exhaustive_per_elem p))))
        (exhaustive_quota p / Z.max n 1).

Inductive Split :=
| Exact (x y : nat)
| Greedy (f r : nat * nat).

(** A box of the two texts that is to be solved. *)
Record Job := { alo : nat; ahi : nat; blo : nat; bhi : nat; job_probe : Z; exhaustive : bool }.

Definition job_new (lo hi : nat * nat) (probe : Z) (exhaustive : bool) : Job :=
  {| alo := lo.1; ahi := hi.1; blo := lo.2; bhi := hi.2; job_probe := probe; exhaustive := exhaustive |}.

(** Scratch of [split_at_anchors]; its counts are 0 between two uses. *)
Record Anchors := { count_a : list nat; count_b : list nat; pos_b : list nat }.
Definition anchors_new (ids : nat) : Anchors :=
  {| count_a := replicate ids 0; count_b := replicate ids 0; pos_b := replicate ids 0 |}.

(** [v[i]] and [v[i] = x] with an index of [i32] that is cast to [usize]. *)
Definition vget (v : list Z) (i : Z) : option Z := if (i <? 0)%Z then None else v !! Z.to_nat i.
Definition vset (v : list Z) (i x : Z) : option (list Z) :=
  if (0 <=? i)%Z && (i <? Z.of_nat (length v))%Z then Some (<[Z.to_nat i := x]> v) else None.

(** [c[lo..hi].fill(true)] *)
Definition fill_true (c : list bool) (lo hi : nat) : option (list bool) :=
  if (lo <=? hi) && (hi <=? length c) then Some (take lo c ++ replicate (hi - lo) true ++ drop hi c) else None.

(** [c[i] = x] *)
Definition set_at {A} (c : list A) (i : nat) (x : A) : option (list A) :=
  if i <? length c then Some (<[i := x]> c) else None.

(** The diagonals of round [d] that lie on the grid. *)
Definition diag_range (d n m : Z) : Z * Z :=
  let lo := (- d)%Z in
  let lo := if (lo <? - m)%Z then (- m + Z.land (d - m) 1)%Z else lo in
  let hi := d in
  let hi := if (n <? hi)%Z then (n - Z.land (d - n) 1)%Z else hi in
  (lo, hi).

Section Middle.
Context {T : Type} {E : Elem T}.
Implicit Types a b : list T.

(** [View::at] and the snake from the position after it, of a slice or of its mirror. *)
Definition view_at (rev : bool) (s : list T) (i : nat) : option T :=
  if rev then i ← usub (length s) (1 + i); s !! i else s !! i.
Definition view_from (rev : bool) (s : list T) (i : nat) : option (list T) :=
  if rev then e ← usub (length s) i; slice_range s 0 e else slice_from s i.
Definition snake (rev : bool) (x y : list T) : option nat :=
  if rev then common_suffix x y else common_prefix x y.

(** The point of diagonal [k] that the round reaches, before the snake. *)
Definition furthest (lo hi lim old : Z) : Z :=
  let x := if (hi <? lo + 1)%Z then (lo + 1)%Z else hi in
  if (lim <? x)%Z then
    let x := if (lo + 1 <? hi)%Z then (lo + 1)%Z else hi in
    if (x <? 0)%Z || (lim <? x)%Z then old else x
  else x.

(** Along the snake that starts at [x] of diagonal [k]. *)
Definition slide_down (rev : bool) a b (x k : Z) : option Z :=
  let y := (x - k)%Z in
  if (x <? Z.of_nat (length a))%Z && (y <? Z.of_nat (length b))%Z then
    if (y <? 0)%Z then None
    else
      let xi := Z.to_nat x in
      let yi := Z.to_nat y in
      ea ← view_at rev a xi;
      eb ← view_at rev b yi;
      if decide (ea = eb) then
        sa ← view_from rev a (xi + 1);
        sb ← view_from rev b (yi + 1);
        s ← snake rev sa sb;
        Some (x + (1 + wrap_i32 (Z.of_nat s)))%Z
      else Some x
  else Some x.

(** The macro [walk]: one phase of a round.  The result is the row and, if the two
    fronts have met, the point and its diagonal. *)
Fixpoint walk (fuel : nat) (rev check : bool) a b (other : list Z) (off clo chi kmax : Z)
    (v : list Z) (k lim lo : Z) : option (list Z * option (Z * Z)) :=
  match fuel with
  | 0 => None
  | S fuel =>
      let n := Z.of_nat (length a) in
      let delta := (n - Z.of_nat (length b))%Z in
      if (k <=? kmax)%Z then
        let i := (k + off)%Z in
        hi ← vget v (i + 1)%Z;
        old ← vget v i;
        let x := furthest lo hi lim old in
        let next v := walk fuel rev check a b other off clo chi kmax v (k + 2)%Z
                        (if (lim + 2 <? n)%Z then (lim + 2)%Z else n) hi in
        if (0 <=? x)%Z then
          x ← slide_down rev a b x k;
          v ← vset v i x;
          if check && (clo <=? k)%Z && (k <=? chi)%Z then
            x2 ← vget other (delta - k + off)%Z;
            if (0 <=? x2)%Z && (n <=? x + x2)%Z then Some (v, Some (x, k)) else next v
          else next v
        else next v
      else Some (v, None)
  end.

Definition walk_round (rev check : bool) a b (v other : list Z) (off d cd : Z) : option (list Z * option (Z * Z)) :=
  let n := Z.of_nat (length a) in
  let m := Z.of_nat (length b) in
  let delta := (n - m)%Z in
  let '(k, kmax) := diag_range d n m in
  let lim := if (n <? m + k)%Z then n else (m + k)%Z in
  lo ← vget v (k + off - 1)%Z;
  walk (length a + length b + 2) rev check a b other off (delta - cd)%Z (delta + cd)%Z kmax v k lim lo.

(** The rounds: the steps they took, and where they ended. *)
Fixpoint rounds (fuel : nat) (front : bool) a b (vf vb : list Z) (off bmax d : Z) :
    option (Z * (list Z * list Z + Z * Z)) :=
  match fuel with
  | 0 => None
  | S fuel =>
      if (d <=? bmax)%Z then
        '(vf, found) ← walk_round false front a b vf vb off d (d - 1);
        match found with
        | Some (x, k) => Some ((d + 1) * (d + 1), inr (x, (x - k)%Z))%Z
        | None =>
            '(vb, found) ← walk_round true (negb front) a b vb vf off d d;
            match found with
            | Some (_, k2) =>
                let k := (Z.of_nat (length a) - Z.of_nat (length b) - k2)%Z in
                x ← vget vf (k + off)%Z;
                Some ((d + 1) * (d + 2), inr (x, (x - k)%Z))%Z
            | None => rounds fuel front a b vf vb off bmax (d + 1)%Z
            end
        end
      else Some ((bmax + 1) * (bmax + 2), inl (vf, vb))%Z
  end.

(** The point of most progress, over the diagonals from [k] on. *)
Fixpoint best_point (fuel : nat) (v : list Z) (off m bmax k : Z) (best : Z * Z * Z) : option (Z * Z) :=
  match fuel with
  | 0 => None
  | S fuel =>
      if (k <=? bmax)%Z then
        x ← vget v (k + off)%Z;
        best_point fuel v off m bmax (k + 1)%Z
          (if (0 <=? x)%Z && (x - k <=? m)%Z && (best.1.1 <? 2 * x - k)%Z then (2 * x - k, x, x - k)%Z else best)
      else Some (best.1.2, best.2)
  end.

(** [p as usize] of a position. *)
Definition as_pos (x : Z) : option nat := if (x <? 0)%Z then None else Some (Z.to_nat x).
Definition point_at (alo blo : nat) (x y : Z) : option (nat * nat) :=
  x ← as_pos x;
  y ← as_pos y;
  Some (alo + x, blo + y).

(** [middle], with the steps it takes off [work_left]. *)
Definition middle a b (alo ahi blo bhi : nat) (depth : Z) : option (Split * Z) :=
  a ← slice_range a alo ahi;
  b ← slice_range b blo bhi;
  let n := wrap_i32 (Z.of_nat (length a)) in
  let m := wrap_i32 (Z.of_nat (length b)) in
  let delta := (n - m)%Z in
  let dmax := ((n + m + 1) / 2)%Z in
  let bmax := Z.min dmax (wrap_i32 depth) in
  let off := (bmax + 1)%Z in
  let size := Z.to_nat (2 * bmax + 3)%Z in
  vf ← vset (replicate size NONE) (off + 1)%Z 0%Z;
  vb ← vset (replicate size NONE) (off + 1)%Z 0%Z;
  '(steps, ended) ← rounds (length a + length b + 3) (Z.odd delta) a b vf vb off bmax 0%Z;
  match ended with
  | inr (x, y) => '(x, y) ← point_at alo blo x y; Some (Exact x y, steps)
  | inl (vf, vb) =>
      '(fx, fy) ← best_point (size + 1) vf off m bmax (- bmax)%Z (-1, 0, 0)%Z;
      '(bx, by_) ← best_point (size + 1) vb off m bmax (- bmax)%Z (-1, 0, 0)%Z;
      f ← point_at alo blo fx fy;
      r ← point_at alo blo (n - bx)%Z (m - by_)%Z;
      Some (Greedy f r, steps)
  end.
End Middle.

(** ** The halves that match *)
Section HalfMatch.
Context {T : Type} {E : Elem T}.
Implicit Types a b long short : list T.

(** A run in both texts: where it starts and ends in each. *)
Definition Run : Type := (nat * nat) * (nat * nat).
Definition run_len (r : Run) : nat := r.1.2 - r.1.1.

Fixpoint half_match_loop (fuel : nat) long short seed (at_ from : nat) (best : Run) (budget : Z) :
    option (Run * Z) :=
  match fuel with
  | 0 => None
  | S fuel =>
      rest ← slice_from short from;
      '(found, budget) ← elem_find rest seed budget;
      match found with
      | None => Some (best, budget)
      | Some found =>
          let found := from + found in
          la ← slice_from long at_;
          sa ← slice_from short found;
          after ← common_prefix la sa;
          lb ← slice_range long 0 at_;
          sb ← slice_range short 0 found;
          before ← common_suffix lb sb;
          let budget := (budget - Z.of_nat (before + after))%Z in
          best ← (if run_len best <? before + after then
                    l ← usub at_ before;
                    s ← usub found before;
                    Some ((l, at_ + after), (s, found + after))
                  else Some best);
          half_match_loop fuel long short seed at_ (found + 1) best budget
      end
  end.

Definition half_match_around long short (at_ : nat) (budget : Z) : option (option Run * Z) :=
  seed ← slice_range long at_ (at_ + length long / 4);
  '(best, budget) ← half_match_loop (S (S (length short))) long short seed at_ 0 ((0, 0), (0, 0)) budget;
  Some (if length long <=? run_len best * 2 then Some best else None, budget).

Definition div_ceil (x y : nat) : nat := (x + (y - 1)) / y.

Definition half_match a b (budget : Z) : option (option Run * Z) :=
  let a_is_longer := length b <? length a in
  let long := if a_is_longer then a else b in
  let short := if a_is_longer then b else a in
  if (length long <? 4) || (length short * 2 <? length long) then Some (None, budget)
  else
    '(second_quarter, budget) ← half_match_around long short (div_ceil (length long) 4) budget;
    '(third_quarter, budget) ← half_match_around long short (div_ceil (length long) 2) budget;
    let found :=
      match second_quarter, third_quarter with
      | Some one, Some other => if run_len one <=? run_len other then Some other else Some one
      | Some one, None => Some one
      | None, other => other
      end in
    Some ((fun r : Run => if a_is_longer then r else (r.2, r.1)) <$> found, budget).
End HalfMatch.

(** ** Unique lines in order *)
Section Anchor.
Context {T : Type} {E : Elem T}.

(** [v[id] += 1] *)
Definition bump (v : list nat) (id : nat) : option (list nat) := n ← v !! id; set_at v id (n + 1).

Fixpoint count_ids (l : list T) (v : list nat) : option (list nat) :=
  match l with
  | [] => Some v
  | t :: l => id ← elem_id t; v ← bump v id; count_ids l v
  end.
Fixpoint count_places (l : list T) (at_ : nat) (v pos : list nat) : option (list nat * list nat) :=
  match l with
  | [] => Some (v, pos)
  | t :: l =>
      id ← elem_id t;
      v ← bump v id;
      pos ← set_at pos id at_;
      count_places l (S at_) v pos
  end.
Fixpoint clear_ids (l : list T) (v : list nat) : option (list nat) :=
  match l with
  | [] => Some v
  | t :: l => id ← elem_id t; v ← set_at v id 0; clear_ids l v
  end.
(** The places of the elements that occur once on each side. *)
Fixpoint unique_pairs (l : list T) (at_ : nat) (an : Anchors) : option (list (nat * nat)) :=
  match l with
  | [] => Some []
  | t :: l =>
      id ← elem_id t;
      ca ← count_a an !! id;
      cb ← count_b an !! id;
      p ← (if (ca =? 1) && (cb =? 1) then j ← pos_b an !! id; Some [(at_, j)] else Some []);
      rest ← unique_pairs l (S at_) an;
      Some (p ++ rest)
  end.

(** The tails of the increasing runs, a predecessor for each pair ([None] is [u32::MAX]). *)
Fixpoint increasing_runs (pairs : list (nat * nat)) (todo : list (nat * nat)) (idx : nat)
    (tails : list nat) (prev : list (option nat)) : option (list nat * list (option nat)) :=
  match todo with
  | [] => Some (tails, prev)
  | (_, j) :: todo =>
      let pos := count_while (fun t => match pairs !! t with Some p => p.2 <? j | None => false end) tails in
      prev ← (if 0 <? pos then i ← usub pos 1; t ← tails !! i; set_at prev idx (Some t) else Some prev);
      tails ← (if pos =? length tails then Some (tails ++ [idx]) else set_at tails pos idx);
      increasing_runs pairs todo (S idx) tails prev
  end.
(** The run that ends at [cur], last to first. *)
Fixpoint thread_back (fuel : nat) (prev : list (option nat)) (cur : option nat) : option (list nat) :=
  match fuel with
  | 0 => None
  | S fuel =>
      match cur with
      | None => Some []
      | Some c => p ← prev !! c; rest ← thread_back fuel prev p; Some (c :: rest)
      end
  end.

(** The boxes between the anchors [run], pushed from the last to the first. *)
Fixpoint push_between (pairs : list (nat * nat)) (run : list nat) (alo ea blo eb : nat) (probe : Z)
    (stack : list Job) : option (list Job) :=
  let push alo ahi blo bhi stack :=
    if (alo <? ahi) || (blo <? bhi) then job_new (alo, blo) (ahi, bhi) probe true :: stack else stack in
  match run with
  | [] => Some (push alo ea blo eb stack)
  | pi :: run =>
      '(i, j) ← pairs !! pi;
      push_between pairs run alo i blo j probe (push (i + 1) ea (j + 1) eb stack)
  end.

(** [split_at_anchors]: the scratch, and the stack if it has cut the box. *)
Definition split_at_anchors (a b : list T) (scratch : option Anchors) (alo ahi blo bhi : nat) (probe : Z)
    (stack : list Job) : option (Anchors * option (list Job)) :=
  an ← (match scratch with
        | Some an => Some an
        | None => ids ← mapM elem_id (a ++ b); Some (anchors_new (1 + foldr Nat.max 0 ids))
        end);
  box_a ← slice_range a alo ahi;
  box_b ← slice_range b blo bhi;
  ca ← count_ids box_a (count_a an);
  '(cb, pos) ← count_places box_b blo (count_b an) (pos_b an);
  pairs ← unique_pairs box_a alo {| count_a := ca; count_b := cb; pos_b := pos |};
  ca ← clear_ids box_a ca;
  cb ← clear_ids box_b cb;
  let an := {| count_a := ca; count_b := cb; pos_b := pos |} in
  na ← usub ahi alo;
  nb ← usub bhi blo;
  let needed := Nat.max (Nat.min na nb / ANCHOR_COVERAGE) 1 in
  if length pairs <? needed then Some (an, None)
  else
    '(tails, prev) ← increasing_runs pairs pairs 0 [] (replicate (length pairs) None);
    if length tails <? needed then Some (an, None)
    else
      cur ← last tails;
      run ← thread_back (S (length pairs)) prev (Some cur);
      stack ← push_between pairs run alo ahi blo bhi probe stack;
      Some (an, Some stack).
End Anchor.

(** ** The boxes *)

(** The state of the search ([Myers]). *)
Record Search := {
  stack : list Job;
  changed_a : list bool;
  changed_b : list bool;
  work_left : Z;
  half_left : Z;
  anchors : option Anchors
}.
Definition with_stack (s : Search) (st : list Job) : Search :=
  {| stack := st; changed_a := changed_a s; changed_b := changed_b s; work_left := work_left s;
     half_left := half_left s; anchors := anchors s |}.
Definition with_changed (s : Search) (ca cb : list bool) : Search :=
  {| stack := stack s; changed_a := ca; changed_b := cb; work_left := work_left s;
     half_left := half_left s; anchors := anchors s |}.
Definition with_work (s : Search) (w : Z) : Search :=
  {| stack := stack s; changed_a := changed_a s; changed_b := changed_b s; work_left := w;
     half_left := half_left s; anchors := anchors s |}.
Definition with_half (s : Search) (h : Z) : Search :=
  {| stack := stack s; changed_a := changed_a s; changed_b := changed_b s; work_left := work_left s;
     half_left := h; anchors := anchors s |}.
Definition with_anchors (s : Search) (an : Anchors) : Search :=
  {| stack := stack s; changed_a := changed_a s; changed_b := changed_b s; work_left := work_left s;
     half_left := half_left s; anchors := Some an |}.

Section Run.
Context {T : Type} {E : Elem T}.
Implicit Types a b : list T.

(** The result of a way to deal with a box: it is done with, or to be tried otherwise. *)
Definition fill_a (s : Search) (lo hi : nat) : option Search :=
  ca ← fill_true (changed_a s) lo hi; Some (with_changed s ca (changed_b s)).
Definition fill_b (s : Search) (lo hi : nat) : option Search :=
  cb ← fill_true (changed_b s) lo hi; Some (with_changed s (changed_a s) cb).
Definition fill_both (s : Search) (alo ahi blo bhi : nat) : option Search :=
  s ← fill_a s alo ahi; fill_b s blo bhi.

(** [iter().position(|&y| y == x)] *)
Fixpoint position (x : T) (l : list T) : option nat :=
  match l with
  | [] => None
  | y :: l => if decide (y = x) then Some 0 else S <$> position x l
  end.

(** [try_exact] *)
Definition try_exact a b (s : Search) (alo ahi blo bhi : nat) (depth probe : Z) (exhaustive : bool) :
    option (Search * option ((nat * nat) * (nat * nat))) :=
  '(split, steps) ← middle a b alo ahi blo bhi depth;
  let s := with_work s (work_left s - steps)%Z in
  match split with
  | Exact x y =>
      if negb (bool_decide ((x, y) = (alo, blo))) && negb (bool_decide ((x, y) = (ahi, bhi))) then
        Some (with_stack s (job_new (x, y) (ahi, bhi) probe exhaustive ::
                            job_new (alo, blo) (x, y) probe exhaustive :: stack s), None)
      else Some (s, Some ((alo, blo), (alo, blo)))
  | Greedy f r => Some (s, Some (f, r))
  end.

(** The cuts at the points of furthest progress. *)
Definition cut_points (alo ahi blo bhi : nat) (f r : nat * nat) : list (nat * nat) :=
  let inside p := negb (bool_decide (p = (alo, blo))) && negb (bool_decide (p = (ahi, bhi))) in
  let cuts := if inside f then [f] else [] in
  if inside r && (bool_decide (cuts = []) ||
      ((f.1 <=? r.1) && (f.2 <=? r.2) && negb (bool_decide (f = r)))) then cuts ++ [r] else cuts.

Fixpoint push_cuts (lo : nat * nat) (cuts : list (nat * nat)) (hi : nat * nat) (probe : Z) (stack : list Job) : list Job :=
  match cuts with
  | [] => job_new lo hi probe false :: stack
  | c :: cuts => push_cuts c cuts hi probe (job_new lo c probe false :: stack)
  end.

Definition greedy_cut (s : Search) (alo ahi blo bhi : nat) (f r : nat * nat) (probe : Z) : option Search :=
  match cut_points alo ahi blo bhi f r with
  | [] => fill_both s alo ahi blo bhi
  | cuts => Some (with_stack s (push_cuts (alo, blo) cuts (ahi, bhi) (Z.max (probe / 2) MIN_PROBE) (stack s)))
  end.

(** fast-diff's shortcuts: the shorter side in the longer one, or halves that match. *)
Definition half_shortcuts a b (p : Policy) (s : Search) (alo ahi blo bhi : nat) (probe : Z) (exhaustive : bool) :
    option (Search + Search) :=
  if (0 <? half_match_steps p)%Z then
    xa ← slice_range a alo ahi;
    xb ← slice_range b blo bhi;
    let halves (s : Search) : option (Search + Search) :=
      '(found, left_) ← half_match xa xb (half_left s);
      let s := with_half s left_ in
      match found with
      | Some (in_a, in_b) =>
          Some (inl (with_stack s
            (job_new (alo + in_a.2, blo + in_b.2) (ahi, bhi) probe exhaustive ::
             job_new (alo, blo) (alo + in_a.1, blo + in_b.1) probe exhaustive :: stack s)))
      | None => Some (inr s)
      end in
    if length xb <? length xa then
      '(found, left_) ← elem_find xa xb (half_left s);
      let s := with_half s left_ in
      match found with
      | Some at_ =>
          s ← fill_a s alo (alo + at_);
          s ← fill_a s (alo + at_ + length xb) ahi;
          Some (inl s)
      | None => halves s
      end
    else
      '(found, left_) ← elem_find xb xa (half_left s);
      let s := with_half s left_ in
      match found with
      | Some at_ =>
          s ← fill_b s blo (blo + at_);
          s ← fill_b s (blo + at_ + length xa) bhi;
          Some (inl s)
      | None => halves s
      end
  else Some (inr s).

(** The search proper, once the shortcuts have failed. *)
Definition search_box a b (p : Policy) (s : Search) (alo ahi blo bhi : nat) (probe : Z) (exhaustive : bool) :
    option Search :=
  '(s, r) ← try_exact a b s alo ahi blo bhi probe probe exhaustive;
  match r with
  | None => Some s
  | Some (f, r) =>
      if (exhaustive : bool) then
        na ← usub ahi alo;
        nb ← usub bhi blo;
        let n := Z.of_nat (na + nb) in
        let depth := Z.min (exhaustive_depth p n) (Z.sqrt (Z.max (work_left s) 0 / 2)) in
        '(s, r) ← (if (probe <? depth)%Z then try_exact a b s alo ahi blo bhi depth probe true
                   else Some (s, Some (f, r)));
        match r with
        | None => Some s
        | Some (f, r) =>
            if anchored (T := T) then
              let s := with_work s (work_left s - n)%Z in
              '(an, st) ← split_at_anchors a b (anchors s) alo ahi blo bhi (DiffMyers.probe p) (stack s);
              let s := with_anchors s an in
              match st with
              | Some st => Some (with_stack s st)
              | None => greedy_cut s alo ahi blo bhi f r probe
              end
            else greedy_cut s alo ahi blo bhi f r probe
        end
      else greedy_cut s alo ahi blo bhi f r probe
  end.

(** A box whose common ends are off. *)
Definition solve_box a b (p : Policy) (s : Search) (alo ahi blo bhi : nat) (probe : Z) (exhaustive : bool) :
    option Search :=
  if alo =? ahi then fill_b s blo bhi
  else if blo =? bhi then fill_a s alo ahi
  else if ahi - alo =? 1 then
    x ← a !! alo;
    s ← fill_b s blo bhi;
    xb ← slice_range b blo bhi;
    match position x xb with
    | Some j => cb ← set_at (changed_b s) (blo + j) false; Some (with_changed s (changed_a s) cb)
    | None => ca ← set_at (changed_a s) alo true; Some (with_changed s ca (changed_b s))
    end
  else if bhi - blo =? 1 then
    y ← b !! blo;
    s ← fill_a s alo ahi;
    xa ← slice_range a alo ahi;
    match position y xa with
    | Some i => ca ← set_at (changed_a s) (alo + i) false; Some (with_changed s ca (changed_b s))
    | None => cb ← set_at (changed_b s) blo true; Some (with_changed s (changed_a s) cb)
    end
  else
    r ← half_shortcuts a b p s alo ahi blo bhi probe exhaustive;
    match r with
    | inl s => Some s
    | inr s =>
        if (work_left s <=? 0)%Z then fill_both s alo ahi blo bhi
        else search_box a b p s alo ahi blo bhi probe exhaustive
    end.

(** One round of [run]: the box [j], which is off the stack. *)
Definition job_step a b (p : Policy) (s : Search) (j : Job) : option Search :=
  xa ← slice_range a (alo j) (ahi j);
  xb ← slice_range b (blo j) (bhi j);
  pre ← common_prefix xa xb;
  let alo := alo j + pre in
  let blo := blo j + pre in
  xa ← slice_range a alo (ahi j);
  xb ← slice_range b blo (bhi j);
  suf ← common_suffix xa xb;
  ahi ← usub (ahi j) suf;
  bhi ← usub (bhi j) suf;
  solve_box a b p s alo ahi blo bhi (job_probe j) (exhaustive j).

Fixpoint run_loop_ (fuel : nat) a b (p : Policy) (s : Search) : option Search :=
  match fuel with
  | 0 => None
  | S fuel =>
      match stack s with
      | [] => Some s
      | j :: st => s ← job_step a b p (with_stack s st) j; run_loop_ fuel a b p s
      end
  end.

Definition HALF_MATCH_FLOOR : Z := 65536%Z.

(** [Myers::new], with its assertion, and [run] over all of both texts: the marks. *)
Definition run a b (p : Policy) (changed_a changed_b : list bool) : option (list bool * list bool) :=
  let n := Z.of_nat (length a + length b) in
  if (MAX_LEN <=? Z.of_nat (length a `max` length b))%Z then None else
  s ← run_loop_ (2 * (length a + length b) + 2) a b p
    {| stack := [job_new (0, 0) (length a, length b) (probe p) true];
       changed_a := changed_a; changed_b := changed_b;
       work_left := wrap_i64 (work p);
       half_left := if (half_match_steps p =? 0)%Z then 0%Z
                    else wrap_i64 (half_match_steps p * n + HALF_MATCH_FLOOR)%Z;
       anchors := None |};
  Some (DiffMyers.changed_a s, DiffMyers.changed_b s).
End Run.

(** A depth that is itself as an [i32]. *)
Definition depth_ok (d : Z) : Prop := (0 <= d < 2147483648)%Z.
Definition policy_ok (p : Policy) : Prop := depth_ok (probe p) /\ (exhaustive_max p < 2147483648)%Z.
(** The texts that [Myers::new] takes. *)
Definition short {T} (l : list T) : Prop := (Z.of_nat (length l) < MAX_LEN)%Z.

Lemma short_i32 {T} (l : list T) n : short l -> n <= length l -> wrap_i32 (Z.of_nat n) = Z.of_nat n.
Proof.
  unfold short. change MAX_LEN with 536870911%Z. intros ? ?. apply wrap_i32_id. unfold is_i32. lia.
Qed.
Lemma depth_i32 d : depth_ok d -> wrap_i32 d = d.
Proof. intros ?. apply wrap_i32_id. unfold is_i32, depth_ok in *. lia. Qed.

(** ** [middle] returns a point of the box *)
Section InBox.
Context {T : Type} `{HE : Elem T, !ElemLaws T}.
Context (a b : list T) (Ha : Forall elem_ok a) (Hb : Forall elem_ok b).
Context (Hsa : short a) (Hsb : short b).

Lemma vget_Some (v : list Z) i : (0 <= i < Z.of_nat (length v))%Z -> exists x, vget v i = Some x.
Proof.
  intros ?. unfold vget. rewrite (proj2 (Z.ltb_ge i 0)) by lia. apply lookup_lt_is_Some. lia.
Qed.

Lemma vget_range (v : list Z) i x : vget v i = Some x -> (0 <= i < Z.of_nat (length v))%Z.
Proof.
  unfold vget. destruct (Z.ltb_spec i 0); [done|]. intros E%lookup_lt_Some. lia.
Qed.

Lemma vset_spec (v : list Z) i x :
  (0 <= i < Z.of_nat (length v))%Z ->
  exists v', vset v i x = Some v' /\ length v' = length v /\ vget v' i = Some x /\
    forall j, j <> i -> vget v' j = vget v j.
Proof.
  intros ?. unfold vset, vget. rewrite (proj2 (Z.leb_le 0 i)), (proj2 (Z.ltb_lt _ _)) by lia. eexists.
  split; [done|]. split; [by rewrite length_insert|]. split.
  - rewrite (proj2 (Z.ltb_ge i 0)) by lia. apply list_lookup_insert_eq. lia.
  - intros j Hj. destruct (Z.ltb_spec j 0); [done|]. apply list_lookup_insert_ne. lia.
Qed.

Lemma vget_replicate size (x : Z) i y : vget (replicate size x) i = Some y -> y = x.
Proof. unfold vget. destruct (i <? 0)%Z; [done|]. by intros [-> _]%lookup_replicate. Qed.

Lemma view_at_Some rev (s : list T) i : i < length s -> exists x, view_at rev s i = Some x.
Proof.
  intros ?. destruct rev; cbn [view_at]; [rewrite usub_Some by lia; cbn [mbind option_bind]|];
    apply lookup_lt_is_Some; lia.
Qed.

Lemma view_from_Some rev (s : list T) i :
  Forall elem_ok s -> i <= length s ->
  exists r, view_from rev s i = Some r /\ length r = length s - i /\ Forall elem_ok r.
Proof.
  intros Hs ?. destruct rev; cbn [view_from].
  - rewrite usub_Some by lia. cbn [mbind option_bind]. rewrite slice_range_Some by lia. eexists.
    split; [done|]. rewrite drop_0. rewrite length_take. split; [lia|by apply Forall_take].
  - rewrite slice_from_Some by lia. eexists. split; [done|]. rewrite length_drop. split; [lia|by apply Forall_drop].
Qed.

Lemma snake_Some rev (x y : list T) :
  Forall elem_ok x -> Forall elem_ok y ->
  exists s, snake rev x y = Some s /\ s <= length x /\ s <= length y.
Proof.
  intros ? ?. destruct rev; cbn [snake].
  - rewrite suffix_law by done. eexists. split; [done|]. apply suffix_loop_le.
  - rewrite prefix_law by done. eexists. split; [done|]. apply prefix_loop_le.
Qed.

#[local] Abbreviation n := (Z.of_nat (length a)).
#[local] Abbreviation m := (Z.of_nat (length b)).

(** A position of the grid on diagonal [k]. *)
Definition cell_in (k x : Z) : Prop := (0 <= x <= n /\ 0 <= x - k <= m)%Z.
Definition cell_ok (k x : Z) : Prop := x = NONE \/ cell_in k x.

Lemma slide_down_spec rev x k :
  cell_in k x -> exists x', slide_down rev a b x k = Some x' /\ (x <= x')%Z /\ cell_in k x'.
Proof using Ha Hb Hsa.
  intros [Hx Hy]. unfold slide_down. destruct (Z.ltb_spec x n), (Z.ltb_spec (x - k) m);
    cbn [andb]; try (eexists; split; [done|]; unfold cell_in; lia).
  rewrite (proj2 (Z.ltb_ge (x - k) 0)) by lia.
  destruct (view_at_Some rev a (Z.to_nat x)) as [ea ->]; [lia|].
  destruct (view_at_Some rev b (Z.to_nat (x - k))) as [eb ->]; [lia|]. cbn [mbind option_bind].
  destruct (decide (ea = eb)); [|eexists; split; [done|]; unfold cell_in; lia].
  destruct (view_from_Some rev a (Z.to_nat x + 1)) as (ra & -> & Hla & ?); [done|lia|].
  destruct (view_from_Some rev b (Z.to_nat (x - k) + 1)) as (rb & -> & Hlb & ?); [done|lia|]. cbn [mbind option_bind].
  destruct (snake_Some rev ra rb) as (s & -> & ? & ?); [done..|]. cbn [mbind option_bind].
  rewrite (short_i32 a) by (done || lia). eexists. split; [done|]. unfold cell_in. lia.
Qed.

Lemma furthest_spec lo hi lim old k :
  cell_ok (k - 1) lo -> cell_ok (k + 1) hi -> cell_ok k old -> lim = Z.min n (m + k)%Z -> (- m <= k <= n)%Z ->
  (0 <= furthest lo hi lim old)%Z -> cell_in k (furthest lo hi lim old).
Proof.
  unfold cell_ok, cell_in, furthest, NONE. intros Hlo Hhi Hold -> Hk.
  destruct (Z.ltb_spec hi (lo + 1)), (Z.ltb_spec (lo + 1) hi); try lia.
  all: destruct (Z.ltb_spec (Z.min n (m + k)) (lo + 1)), (Z.ltb_spec (Z.min n (m + k)) hi); try lia.
  all: destruct (Z.ltb_spec (lo + 1) 0), (Z.ltb_spec hi 0); cbn [orb]; lia.
Qed.

(** The rows of a search of depth [bmax], read by diagonal. *)
Section Rows.
Context (bmax : Z).
#[local] Abbreviation off := (bmax + 1)%Z.

Definition row_size (v : list Z) : Prop := Z.of_nat (length v) = (2 * bmax + 3)%Z.
Definition row_ok (v : list Z) : Prop := forall k x, vget v (k + off)%Z = Some x -> cell_ok k x.

(** The 0 that the rows start with on diagonal 1, where no path can be, until round 1. *)
Definition sentinel (v : list Z) : Prop :=
  vget v (0 + off)%Z = Some 0%Z /\ vget v (2 + off)%Z = Some NONE /\
  forall k x, k <> 1%Z -> vget v (k + off)%Z = Some x -> cell_ok k x.

(** The row before round [d], and on the way through it. *)
Definition row_at (d k : Z) (v : list Z) : Prop :=
  row_size v /\ (row_ok v \/ d = 1%Z /\ sentinel v /\ (k = -1 \/ k = 1)%Z).

Lemma vget_row v k : row_size v -> (- bmax - 1 <= k <= bmax + 1)%Z -> exists x, vget v (k + off)%Z = Some x.
Proof using Type. unfold row_size. intros ? ?. apply vget_Some. lia. Qed.

Lemma row_set v k x :
  row_size v -> (- bmax - 1 <= k <= bmax + 1)%Z ->
  exists v', vset v (k + off) x = Some v' /\ row_size v' /\ vget v' (k + off) = Some x /\
    forall k', k' <> k -> vget v' (k' + off) = vget v (k' + off).
Proof using Type.
  unfold row_size. intros Hl ?. destruct (vset_spec v (k + off) x) as (v' & -> & Hl' & Hx & Ho); [lia|].
  exists v'. split; [done|]. rewrite Hl'. split; [done|]. split; [done|]. intros k' ?. apply Ho. lia.
Qed.

Lemma row_step d k v v' x :
  row_at d k v -> row_size v' -> vget v' (k + off) = Some x -> cell_in k x ->
  (forall k', k' <> k -> vget v' (k' + off) = vget v (k' + off)) -> row_at d (k + 2) v'.
Proof using Type.
  intros [_ Hv] Hs Hx Hc Ho. split; [done|].
  assert (forall k' y, (k' = k -> vget v' (k' + off)%Z = Some y -> cell_ok k' y)) as Hk.
  { intros k' y -> E. rewrite Hx in E. injection E as <-. by right. }
  destruct Hv as [Hv|(-> & (H0 & H2 & Hv) & [-> | ->])].
  - left. intros k' y E. destruct (decide (k' = k)); [by apply Hk|]. rewrite Ho in E by done. by apply Hv.
  - right. split; [done|]. split; [|by right]. split; [|split].
    + by rewrite Ho by lia.
    + by rewrite Ho by lia.
    + intros k' y ? E. destruct (decide (k' = -1)%Z) as [-> |]; [by apply Hk|]. rewrite Ho in E by done. by apply Hv.
  - left. intros k' y E. destruct (decide (k' = 1)%Z) as [-> |]; [by apply Hk|]. rewrite Ho in E by done. by apply Hv.
Qed.

(** What a phase of round [d] finds: a point of this row that has met one of the other. *)
Definition met (v other : list Z) (x k : Z) : Prop :=
  vget v (k + off)%Z = Some x /\ cell_in k x /\
  exists x2, vget other (n - m - k + off)%Z = Some x2 /\ (0 <= x2)%Z /\ (n <= x + x2)%Z.

Context (Hbmax : (0 <= bmax)%Z) (Hna : 0 < length a) (Hnb : 0 < length b).

Lemma furthest_row d k v lo hi old lim :
  row_at d k v -> (k <= d)%Z -> (1 <= d)%Z -> (- m <= k <= n)%Z ->
  vget v (k - 1 + off) = Some lo -> vget v (k + 1 + off) = Some hi -> vget v (k + off) = Some old ->
  lim = Z.min n (m + k)%Z ->
  (0 <= furthest lo hi lim old)%Z -> cell_in k (furthest lo hi lim old).
Proof using Hna Hnb Hbmax.
  intros [_ [Hv|(-> & (H0 & H2 & Hv) & Hk)]] Hkd Hd Hkn Hlo Hhi Hold Hlim; [apply furthest_spec; auto; by apply Hv|].
  destruct Hk as [-> | ->]; [apply furthest_spec; auto; apply Hv; done|].
  replace (1 - 1 + off)%Z with (0 + off)%Z in Hlo by lia. replace (1 + 1 + off)%Z with (2 + off)%Z in Hhi by lia.
  rewrite H0 in Hlo. rewrite H2 in Hhi. injection Hlo as <-. injection Hhi as <-. subst lim.
  assert (furthest 0 NONE (Z.min n (m + 1)) old = 1%Z) as ->; [|unfold cell_in; lia].
  unfold furthest. change (NONE <? 0 + 1)%Z with true. cbv iota.
  by rewrite (proj2 (Z.ltb_ge (Z.min n (m + 1)) (0 + 1))) by lia.
Qed.

Lemma walk_spec fuel rev check other d cd kmax v k lim lo :
  (Z.to_nat (kmax + 2 - k) <= fuel)%nat -> 0 < fuel ->
  (1 <= d <= bmax)%Z -> (cd <= bmax)%Z -> (- d <= k)%Z -> (- m <= k)%Z -> (kmax <= d)%Z -> (kmax <= n)%Z ->
  (d = 1 -> kmax = 1)%Z ->
  row_at d k v -> row_size other -> vget v (k - 1 + off)%Z = Some lo -> lim = Z.min n (m + k)%Z ->
  exists v' r, walk fuel rev check a b other off (n - m - cd) (n - m + cd) kmax v k lim lo = Some (v', r) /\
    row_size v' /\
    match r with
    | None => row_ok v'
    | Some (x, k') => met v' other x k'
    end.
Proof using Ha Hb Hsa Hna Hnb Hbmax.
  revert v k lim lo. induction fuel as [|fuel IH]; [lia|]. intros v k lim lo Hf _ Hd Hcd Hkd Hkm Hmd Hmn H1 Hv Hoth Hlo Hlim.
  cbn [walk]. destruct (Z.leb_spec k kmax) as [Hk|Hk].
  2: { eexists _, _. split; [done|]. split; [apply Hv|]. destruct Hv as [_ [Hv|(-> & _ & Hk1)]]; [done|lia]. }
  pose proof (proj1 Hv) as Hsz.
  destruct (vget_row v (k + 1)) as [hi Hhi]; [done|lia|]. destruct (vget_row v k) as [old Hold]; [done|lia|].
  replace (k + off + 1)%Z with (k + 1 + off)%Z by lia. rewrite Hhi, Hold. cbn [mbind option_bind].
  set (x := furthest lo hi lim old).
  assert (Hlim' : (if (lim + 2 <? n)%Z then (lim + 2)%Z else n) = Z.min n (m + (k + 2))).
  { subst lim. destruct (Z.ltb_spec (Z.min n (m + k) + 2) n); lia. }
  assert (Hlo' : forall v', (forall k', k' <> k -> vget v' (k' + off)%Z = vget v (k' + off)%Z) ->
                   vget v' (k + 2 - 1 + off)%Z = Some hi).
  { intros v' Ho. replace (k + 2 - 1 + off)%Z with (k + 1 + off)%Z by lia. rewrite Ho by lia. done. }
  destruct (Z.leb_spec 0 x) as [Hx|Hx].
  2: { apply IH; auto; try lia.
       destruct Hv as [? [Hv|(-> & (E0 & E2 & Hv) & [-> | ->])]]; [split; auto| |].
       - split; [done|]. right. split; [done|]. split; [by split|by right].
       - exfalso. replace (1 - 1 + off)%Z with (0 + off)%Z in Hlo by lia. replace (1 + 1 + off)%Z with (2 + off)%Z in Hhi by lia.
         rewrite E0 in Hlo. rewrite E2 in Hhi. injection Hlo as <-. injection Hhi as <-.
         unfold x, furthest in Hx. change (NONE <? 0 + 1)%Z with true in Hx. cbv iota in Hx.
         rewrite (proj2 (Z.ltb_ge lim (0 + 1))) in Hx by lia. lia. }
  destruct (slide_down_spec rev x k) as (x' & -> & ? & Hx'); [eapply furthest_row; eauto; lia|].
  cbn [mbind option_bind]. destruct (row_set v k x') as (v' & -> & Hsz' & Hx'' & Ho); [done|lia|]. cbn [mbind option_bind].
  assert (Hnext : exists v'' r, walk fuel rev check a b other off (n - m - cd) (n - m + cd) kmax v' (k + 2)
      (if (lim + 2 <? n)%Z then (lim + 2)%Z else n) hi = Some (v'', r) /\
      row_size v'' /\ match r with None => row_ok v'' | Some (x, k') => met v'' other x k' end).
  { apply IH; auto; try lia. by eapply row_step. }
  destruct (check && (n - m - cd <=? k)%Z && (k <=? n - m + cd)%Z) eqn:Hc; [|done].
  apply andb_true_iff in Hc as [[_ Hc1%Z.leb_le]%andb_true_iff Hc2%Z.leb_le].
  destruct (vget_row other (n - m - k)) as [x2 Hx2]; [done|lia|]. rewrite Hx2. cbn [mbind option_bind].
  destruct ((0 <=? x2)%Z && (n <=? x' + x2)%Z) eqn:Hm; [|done].
  apply andb_true_iff in Hm as [?%Z.leb_le ?%Z.leb_le]. eexists _, _. split; [done|]. split; [done|].
  split; [done|]. split; [done|]. by exists x2.
Qed.

Lemma diag_range_spec d :
  (0 <= d)%Z -> exists k kmax, diag_range d n m = (k, kmax) /\
    (- d <= k)%Z /\ (- m <= k <= 1)%Z /\ (kmax <= d)%Z /\ (kmax <= n)%Z /\
    (d = 0 -> k = 0 /\ kmax = 0)%Z /\ (d = 1 -> k = -1 /\ kmax = 1)%Z.
Proof using Hna Hnb Hbmax.
  intros Hd. unfold diag_range. eexists _, _. split; [done|].
  assert (forall z, (Z.land z 1 = 0 \/ Z.land z 1 = 1)%Z) as Hl.
  { intros z. pose proof (Z.land_ones z 1 ltac:(lia)) as E. change (Z.ones 1) with 1%Z in E. rewrite E.
    change (2 ^ 1)%Z with 2%Z.
    pose proof (Z.mod_pos_bound z 2 ltac:(lia)). lia. }
  destruct (Hl (d - m)%Z), (Hl (d - n)%Z), (Z.ltb_spec (- d) (- m)), (Z.ltb_spec n d); lia.
Qed.

Lemma walk_round_spec rev check v other d cd :
  (1 <= d <= bmax)%Z -> (cd <= bmax)%Z -> row_at d (-1) v -> row_size other ->
  exists v' r, walk_round rev check a b v other off d cd = Some (v', r) /\ row_size v' /\
    match r with None => row_ok v' | Some (x, k) => met v' other x k end.
Proof using Ha Hb Hsa Hna Hnb Hbmax.
  intros Hd Hcd Hv Ho. unfold walk_round.
  destruct (diag_range_spec d) as (k & kmax & -> & ? & ? & ? & ? & _ & H1); [lia|]. pose proof (proj1 Hv) as Hsz.
  destruct (vget_row v (k - 1)) as [lo Hlo]; [done|lia|].
  replace (k + off - 1)%Z with (k - 1 + off)%Z by lia. rewrite Hlo. cbn [mbind option_bind].
  apply (walk_spec _ _ _ _ d); auto; try lia.
  - destruct Hv as [? [Hv|(-> & Hv & _)]]; [split; auto|]. split; [done|]. right. split; [done|]. split; [done|lia].
  - destruct (Z.ltb_spec n (m + k)); lia.
Qed.

(** The rows around round 0, which stays where it is: the ends of the box differ. *)
Definition fresh (z : Z) (v : list Z) : Prop :=
  row_size v /\ vget v (0 + off) = Some z /\ vget v (1 + off) = Some 0%Z /\
  forall k x, k <> 0%Z -> k <> 1%Z -> vget v (k + off) = Some x -> x = NONE.

Lemma fresh_start : exists v, vset (replicate (Z.to_nat (2 * bmax + 3)) NONE) (off + 1) 0 = Some v /\ fresh NONE v.
Proof using Hna Hnb Hbmax.
  destruct (row_set (replicate (Z.to_nat (2 * bmax + 3)) NONE) 1 0) as (v & E & Hs & H1 & Ho);
    [unfold row_size; rewrite length_replicate; lia|lia|].
  exists v. replace (off + 1)%Z with (1 + off)%Z by lia. split; [done|]. split; [done|].
  assert (forall k x, k <> 1%Z -> vget v (k + off) = Some x -> x = NONE) as Hn.
  { intros k x ? E'. rewrite Ho in E' by done. by eapply vget_replicate. }
  split; [|split; [done|]].
  - destruct (vget_row v 0) as [x Hx]; [done|lia|]. rewrite Hx. f_equal. by apply (Hn 0%Z).
  - intros k x _ ? ?. by eapply Hn.
Qed.

Lemma fresh_row v : (1 <= bmax)%Z -> fresh 0 v -> row_at 1 (-1) v.
Proof using Hna Hnb Hbmax.
  intros Hb1 (Hs & H0 & H1 & Hn). split; [done|]. right. split; [done|]. split; [|by left].
  split; [done|]. split.
  - destruct (vget_row v 2) as [x Hx]; [done|lia|]. rewrite Hx. f_equal. by eapply Hn, Hx.
  - intros k x ? E. destruct (decide (k = 0)%Z) as [-> |].
    + right. rewrite H0 in E. injection E as <-. unfold cell_in. lia.
    + left. by eapply Hn.
Qed.

Context (Hhead : a !! 0 <> b !! 0) (Hlast : a !! (length a - 1) <> b !! (length b - 1)).

Lemma round_0 rev check v other cd :
  fresh NONE v -> row_size other ->
  check = false \/ (cd < 0)%Z \/ (cd = 0 /\ exists z, vget other (0 + off) = Some z /\ z <= 0)%Z ->
  exists v', walk_round rev check a b v other off 0 cd = Some (v', None) /\ fresh 0 v'.
Proof using Ha Hb Hsa Hna Hnb Hbmax Hhead Hlast.
  intros (Hs & H0 & H1 & Hn) Ho Hc. unfold walk_round.
  destruct (diag_range_spec 0) as (k & kmax & -> & _ & _ & _ & _ & H & _); [lia|]. destruct H as [-> ->]; [done|].
  destruct (vget_row v (-1)) as [lo Hlo]; [done|lia|].
  assert (lo = NONE) as -> by (by eapply (Hn (-1)%Z); [| |exact Hlo]).
  change (0 + off - 1)%Z with (0 + off + - (1))%Z. replace (0 + off + - (1))%Z with (-1 + off)%Z by lia.
  rewrite Hlo. cbn [mbind option_bind].
  destruct (length a + length b + 2) as [|[|fuel]] eqn:Hf; [lia|lia|]. cbn [walk].
  change (0 <=? 0)%Z with true. cbv iota.
  replace (0 + off + 1)%Z with (1 + off)%Z by lia. rewrite H1, H0. cbn [mbind option_bind].
  set (lim := if (n <? m + 0)%Z then n else (m + 0)%Z).
  assert (furthest NONE 0 lim NONE = 0%Z) as ->.
  { unfold furthest. change (0 <? NONE + 1)%Z with false. cbv iota.
    rewrite (proj2 (Z.ltb_ge lim 0)); [done|]. unfold lim. destruct (Z.ltb_spec n (m + 0)); lia. }
  change (0 <=? 0)%Z with true. cbv iota.
  assert (slide_down rev a b 0 0 = Some 0%Z) as ->.
  { unfold slide_down. rewrite !(proj2 (Z.ltb_lt _ _)) by lia. cbn [andb].
    change (0 - 0 <? 0)%Z with false. cbv iota. change (Z.to_nat (0 - 0)) with 0. change (Z.to_nat 0) with 0.
    destruct (view_at_Some rev a 0) as [ea Hea]; [lia|]. destruct (view_at_Some rev b 0) as [eb Heb]; [lia|].
    rewrite Hea, Heb. cbn [mbind option_bind]. rewrite decide_False; [done|]. intros ->.
    destruct rev; cbn [view_at] in Hea, Heb; [|congruence].
    rewrite usub_Some in Hea, Heb by lia. cbn [mbind option_bind] in Hea, Heb. change (1 + 0) with 1 in Hea, Heb. congruence. }
  cbn [mbind option_bind]. destruct (row_set v 0 0) as (v' & -> & Hs' & H0' & Ho'); [done|lia|]. cbn [mbind option_bind].
  assert (fresh 0 v') as Hv'.
  { split; [done|]. split; [done|]. rewrite Ho' by done. split; [done|]. intros k x ? ? E. rewrite Ho' in E by done.
    by eapply Hn. }
  assert (forall lim lo, walk (S fuel) rev check a b other off (n - m - cd) (n - m + cd) 0 v' (0 + 2) lim lo
                          = Some (v', None)) as Hend by done.
  destruct (check && (n - m - cd <=? 0)%Z && (0 <=? n - m + cd)%Z) eqn:E; [|by eexists].
  apply andb_true_iff in E as [[-> E1%Z.leb_le]%andb_true_iff E2%Z.leb_le].
  destruct Hc as [?|[?|(-> & z & Hz & ?)]]; [done|lia|].
  replace (n - m - 0 + off)%Z with (0 + off)%Z by lia. rewrite Hz. cbn [mbind option_bind].
  rewrite (proj2 (Z.leb_gt n (0 + z))) by lia. rewrite andb_false_r. by eexists.
Qed.

(** ** The rounds *)
Definition cells_ok (v : list Z) : Prop :=
  forall k x, (- bmax <= k <= bmax)%Z -> vget v (k + off) = Some x -> cell_ok k x.
Definition in_grid (p : Z * Z) : Prop := (0 <= p.1 <= n /\ 0 <= p.2 <= m)%Z.
Definition rounds_end (r : list Z * list Z + Z * Z) : Prop :=
  match r with inl (vf, vb) => row_size vf /\ row_size vb /\ cells_ok vf /\ cells_ok vb | inr p => in_grid p end.

Lemma row_at_cells d v : (1 <= d)%Z -> (bmax < d)%Z -> row_at d (-1) v -> cells_ok v.
Proof using Hna Hnb.
  intros ? ? [_ [Hv|(-> & (_ & _ & Hv) & _)]] k x Hk E; [by apply Hv|apply Hv; [lia|done]].
Qed.

Lemma rounds_spec fuel front vf vb d :
  (Z.to_nat (bmax + 2 - d) <= fuel)%nat -> 0 < fuel -> (1 <= d <= bmax + 1)%Z ->
  row_at d (-1) vf -> row_at d (-1) vb ->
  exists steps r, rounds fuel front a b vf vb off bmax d = Some (steps, r) /\ rounds_end r.
Proof using Ha Hb Hsa Hna Hnb Hbmax.
  revert vf vb d. induction fuel as [|fuel IH]; [lia|]. intros vf vb d Hf _ Hd Hvf Hvb. cbn [rounds].
  destruct (Z.leb_spec d bmax) as [Hk|Hk].
  2: { eexists _, _. split; [done|]. split; [apply Hvf|]. split; [apply Hvb|].
       split; eapply row_at_cells; eauto; lia. }
  destruct (walk_round_spec false front vf vb d (d - 1)) as (vf' & r & -> & Hsf & Hr); [lia|lia|done|apply Hvb|].
  cbn [mbind option_bind]. destruct r as [[x k]|].
  { destruct Hr as (_ & Hx & _). eexists _, _. split; [done|]. unfold cell_in in Hx. cbn. unfold in_grid. cbn. lia. }
  destruct (walk_round_spec true (negb front) vb vf' d d) as (vb' & r & -> & Hszb & Hr'); [lia|lia|done|done|].
  cbn [mbind option_bind]. destruct r as [[x2 k2]|].
  { destruct Hr' as (_ & _ & x & Hx & ? & _). rewrite Hx. cbn [mbind option_bind].
    eexists _, _. split; [done|]. apply Hr in Hx as [-> |Hx]; [done|]. unfold cell_in in Hx. cbn. unfold in_grid. cbn. lia. }
  apply IH; [lia|lia|lia| |]; (split; [done|by left]).
Qed.

Lemma rounds_all front vf vb fuel :
  Z.to_nat (bmax + 2) < fuel -> fresh NONE vf -> fresh NONE vb ->
  exists steps r, rounds fuel front a b vf vb off bmax 0 = Some (steps, r) /\ rounds_end r.
Proof using Ha Hb Hsa Hna Hnb Hbmax Hhead Hlast.
  intros Hf Hvf Hvb. destruct fuel as [|fuel]; [lia|]. cbn [rounds]. rewrite (proj2 (Z.leb_le 0 bmax)) by done.
  destruct (round_0 false front vf vb (0 - 1)) as (vf' & -> & Hvf'); [done|apply Hvb|right; left; lia|].
  cbn [mbind option_bind].
  destruct (round_0 true (negb front) vb vf' 0) as (vb' & -> & Hvb'); [done|apply Hvf'| |].
  { right. right. split; [done|]. exists 0%Z. split; [apply Hvf'|done]. }
  cbn [mbind option_bind]. destruct (decide (1 <= bmax)%Z) as [H1|H1].
  { apply rounds_spec; [lia|lia|lia| |]; by apply fresh_row. }
  assert (bmax = 0%Z) as E0 by lia. destruct fuel as [|fuel]; [lia|]. cbn [rounds].
  rewrite (proj2 (Z.leb_gt (0 + 1) bmax)) by lia. eexists _, _. split; [done|].
  assert (forall v, fresh 0 v -> cells_ok v) as Hc.
  { intros v (_ & E & _) k x ? Ex. replace k with 0%Z in * by lia. rewrite E in Ex. injection Ex as <-.
    right. unfold cell_in. lia. }
  split; [apply Hvf'|]. split; [apply Hvb'|]. split; by apply Hc.
Qed.

Lemma best_point_spec fuel v k best :
  (Z.to_nat (bmax + 1 - k) < fuel)%nat -> (- bmax <= k)%Z ->
  row_size v -> cells_ok v -> in_grid (best.1.2, best.2) ->
  exists p, best_point fuel v off m bmax k best = Some p /\ in_grid p.
Proof using Hna Hnb Hbmax.
  revert k best. induction fuel as [|fuel IH]; [lia|]. intros k best Hf Hk Hs Hv Hbest. cbn [best_point].
  destruct (Z.leb_spec k bmax); [|by eexists].
  destruct (vget_row v k) as [x Hx]; [done|lia|]. rewrite Hx. cbn [mbind option_bind].
  apply IH; [lia|lia|done|done|]. destruct (_ && _ && _) eqn:E; [|done].
  apply andb_true_iff in E as [[?%Z.leb_le ?%Z.leb_le]%andb_true_iff _].
  destruct (Hv k x ltac:(lia) Hx) as [-> |Hc]; [done|]. unfold cell_in in Hc. unfold in_grid. cbn. lia.
Qed.
End Rows.
End InBox.

(** A point of the box. *)
Definition in_box (alo ahi blo bhi : nat) (p : nat * nat) : Prop := alo <= p.1 <= ahi /\ blo <= p.2 <= bhi.

Section MiddleSpec.
Context {T : Type} `{HE : Elem T, !ElemLaws T}.
Context (a b : list T) (Ha : Forall elem_ok a) (Hb : Forall elem_ok b).
Context (Hsa : short a) (Hsb : short b).
Context (alo ahi blo bhi : nat) (Hla : alo < ahi <= length a) (Hlb : blo < bhi <= length b).

Lemma point_at_grid x y :
  (0 <= x <= Z.of_nat (ahi - alo))%Z -> (0 <= y <= Z.of_nat (bhi - blo))%Z ->
  exists p, point_at alo blo x y = Some p /\ in_box alo ahi blo bhi p.
Proof using Hla Hlb.
  intros ? ?. unfold point_at, as_pos. rewrite (proj2 (Z.ltb_ge x 0)), (proj2 (Z.ltb_ge y 0)) by lia.
  cbn [mbind option_bind]. eexists. split; [done|]. unfold in_box. cbn. lia.
Qed.

Lemma middle_spec depth :
  a !! alo <> b !! blo -> a !! (ahi - 1) <> b !! (bhi - 1) -> depth_ok depth ->
  exists split steps, middle a b alo ahi blo bhi depth = Some (split, steps) /\
    match split with
    | Exact x y => in_box alo ahi blo bhi (x, y)
    | Greedy f r => in_box alo ahi blo bhi f /\ in_box alo ahi blo bhi r
    end.
Proof using Ha Hb Hsa Hsb Hla Hlb.
  intros Hh Hl Hd. unfold middle. rewrite !slice_range_Some by lia. cbn [mbind option_bind].
  set (xa := take (ahi - alo) (drop alo a)). set (xb := take (bhi - blo) (drop blo b)).
  assert (length xa = ahi - alo) as Ea by (apply length_part; lia).
  assert (length xb = bhi - blo) as Eb by (apply length_part; lia).
  assert (Forall elem_ok xa) by (by apply Forall_take, Forall_drop).
  assert (Forall elem_ok xb) by (by apply Forall_take, Forall_drop).
  assert (xa !! 0 <> xb !! 0). { unfold xa, xb. rewrite !lookup_part, !Nat.add_0_r by lia. done. }
  assert (xa !! (length xa - 1) <> xb !! (length xb - 1)).
  { rewrite Ea, Eb. unfold xa, xb. rewrite !lookup_part by lia.
    replace (alo + (ahi - alo - 1)) with (ahi - 1) by lia. by replace (blo + (bhi - blo - 1)) with (bhi - 1) by lia. }
  assert (short xa) by (unfold short in *; lia).
  assert (short xb) by (unfold short in *; lia).
  rewrite !(short_i32 xa), !(short_i32 xb), depth_i32 by done. destruct Hd as [Hd _].
  set (bmax := Z.min _ depth).
  assert (0 <= bmax <= (Z.of_nat (length xa) + Z.of_nat (length xb) + 1) / 2)%Z as Hb0.
  { unfold bmax. split; [|lia]. apply Z.min_glb; [apply Z.div_pos; lia|done]. }
  assert (2 * bmax <= Z.of_nat (length xa) + Z.of_nat (length xb) + 1)%Z as Hb2.
  { pose proof (Z.mul_div_le (Z.of_nat (length xa) + Z.of_nat (length xb) + 1) 2). lia. }
  clearbody bmax.
  destruct (fresh_start xa xb bmax) as (v0 & -> & Hv0); [lia..|]. cbn [mbind option_bind].
  destruct (rounds_all xa xb ltac:(done) ltac:(done) ltac:(done) bmax ltac:(lia) ltac:(lia) ltac:(lia) ltac:(done) ltac:(done)
    (Z.odd (Z.of_nat (length xa) - Z.of_nat (length xb))) v0 v0 (length xa + length xb + 3))
    as (steps & r & -> & Hr); [lia|done|done|]. cbn [mbind option_bind].
  destruct r as [[vf vb]|[x y]].
  2: { unfold rounds_end, in_grid in Hr. cbn in Hr.
       destruct (point_at_grid x y) as (p & -> & Hp); [lia|lia|]. cbn [mbind option_bind]. destruct p.
       eexists _, _. by split. }
  destruct Hr as (Hszf & Hszb & Hvf & Hvb).
  assert (in_grid xa xb ((-1, 0, 0)%Z.1.2, (-1, 0, 0)%Z.2)) as Hz by (unfold in_grid; cbn; lia).
  destruct (best_point_spec xa xb bmax ltac:(lia) ltac:(lia) ltac:(lia) (Z.to_nat (2 * bmax + 3) + 1) vf
              (- bmax)%Z (-1, 0, 0)%Z) as ([fx fy] & -> & Hf); [lia|lia|done..|]. cbn [mbind option_bind].
  destruct (best_point_spec xa xb bmax ltac:(lia) ltac:(lia) ltac:(lia) (Z.to_nat (2 * bmax + 3) + 1) vb
              (- bmax)%Z (-1, 0, 0)%Z) as ([bx by_] & -> & Hg); [lia|lia|done..|]. cbn [mbind option_bind].
  unfold in_grid in Hf, Hg. cbn in Hf, Hg.
  destruct (point_at_grid fx fy) as (f & -> & ?); [lia|lia|].
  destruct (point_at_grid (Z.of_nat (length xa) - bx) (Z.of_nat (length xb) - by_)) as (r & -> & ?); [lia|lia|].
  cbn [mbind option_bind]. eexists _, _. by split.
Qed.
End MiddleSpec.
