(* ===== verification/DiffSearch.v ===== *)
(** * The search for a diff always ends, in marks that fit (text_diff/lib.rs)

    What the cuts of a box may be, and the loop over the boxes.  [path] says what the marks
    are so far: unchanged elements pair up, and the boxes still to be solved are not marked
    yet.  Every way [run] deals with a box keeps it, and leaves boxes that are smaller, so
    that its fuel is enough; when no box is left, the marks fit the two texts.  None of
    this depends on the limits of the search. *)

From S2P Require Import Prelude Bytes DiffHunks DiffElems DiffMyers.

#[local] Open Scope nat_scope.

(** ** The halves that match *)
Section HalfMatch.
Context {T : Type} `{HE : Elem T, !ElemLaws T}.
Implicit Types a b long short : list T.

(** Equal text at both places. *)
Definition run_ok (long short : list T) (r : Run) : Prop :=
  r.1.1 <= r.1.2 /\ r.2.2 = r.2.1 + run_len r /\ same long short r.1.1 r.2.1 (run_len r).

Lemma half_match_loop_spec fuel long short seed at_ from best budget :
  Forall elem_ok long -> Forall elem_ok short -> Forall elem_ok seed ->
  length short - from < fuel -> from <= length short -> 0 < length seed -> at_ <= length long ->
  run_ok long short best ->
  exists best' budget', half_match_loop fuel long short seed at_ from best budget = Some (best', budget') /\
    run_ok long short best'.
Proof.
  intros Hl Hs Hseed. revert from best budget. induction fuel as [|fuel IH]; [lia|].
  intros from best budget Hf Hfrom Hn Hat Hbest. cbn [half_match_loop].
  rewrite (slice_from_Some short from) by lia. cbn [mbind option_bind].
  destruct (find_law (drop from short) seed budget) as (found & bu & -> & Hfound); [by apply Forall_drop|done|].
  cbn [mbind option_bind]. destruct found as [f|]; [|by eexists _, _].
  destruct (Hfound f eq_refl) as [Hlen _]. rewrite length_drop in Hlen.
  rewrite !slice_from_Some by lia. cbn [mbind option_bind].
  rewrite prefix_law by (by apply Forall_drop). cbn [mbind option_bind].
  set (after := prefix_loop _ _).
  destruct (prefix_same long short at_ (from + f) (length long - at_) (length short - (from + f)) after)
    as (Ha1 & Ha2 & Has & _); [lia|lia| |].
  { unfold after. by rewrite !firstn_all2 by (rewrite length_drop; lia). }
  clearbody after. rewrite !slice_range_Some by lia. cbn [mbind option_bind]. rewrite !drop_0, !Nat.sub_0_r.
  rewrite suffix_law by (by apply Forall_take). cbn [mbind option_bind].
  set (before := suffix_loop _ _).
  destruct (suffix_same long short 0 0 at_ (from + f) before) as (Hb1 & Hb2 & Hbs & _); [lia|lia|by rewrite !drop_0|].
  clearbody before. cbn [Nat.add] in Hbs.
  rewrite !usub_Some by lia. cbn [mbind option_bind].
  destruct (Nat.ltb_spec (run_len best) (before + after)); cbn [mbind option_bind]; apply IH; try lia; [|done].
  unfold run_ok, run_len. cbn. split; [lia|]. split; [lia|].
  replace (at_ + after - (at_ - before)) with (before + after) by lia.
  apply same_app; [done|]. by replace (at_ - before + before) with at_ by lia;
    replace (from + f - before + before) with (from + f) by lia.
Qed.

Lemma half_match_around_spec long short at_ budget :
  Forall elem_ok long -> Forall elem_ok short -> 4 <= length long -> at_ + length long / 4 <= length long ->
  exists r budget', half_match_around long short at_ budget = Some (r, budget') /\
    forall run, r = Some run -> run_ok long short run /\ 0 < run_len run.
Proof.
  intros Hl Hs H4 Hat. unfold half_match_around. pose proof (Nat.div_str_pos (length long) 4 ltac:(lia)).
  rewrite slice_range_Some by lia. cbn [mbind option_bind].
  destruct (half_match_loop_spec (S (S (length short))) long short
    (take (at_ + length long / 4 - at_) (drop at_ long)) at_ 0 ((0, 0), (0, 0)) budget) as (best & bu & -> & Hok);
    try done; [by apply Forall_take, Forall_drop|lia|lia|rewrite length_part; lia|lia|..].
  { unfold run_ok. cbn. split; [done|]. split; [done|]. apply same_0; lia. }
  cbn [mbind option_bind]. eexists _, _. split; [done|]. intros run.
  destruct (Nat.leb_spec (length long) (run_len best * 2)); [|done]. intros [= <-]. split; [done|lia].
Qed.

Lemma half_match_spec a b budget :
  Forall elem_ok a -> Forall elem_ok b ->
  exists r budget', half_match a b budget = Some (r, budget') /\
    forall run, r = Some run -> run_ok a b run /\ 0 < run_len run.
Proof.
  intros Ha Hb. unfold half_match.
  set (longer := length b <? length a). set (long := if longer then a else b). set (short := if longer then b else a).
  destruct (_ || _) eqn:E; [by eexists _, _|]. apply orb_false_iff in E as [H4%Nat.ltb_ge _].
  assert (Forall elem_ok long) by (unfold long; by destruct longer).
  assert (Forall elem_ok short) by (unfold short; by destruct longer).
  pose proof (Nat.div_mod_eq (length long) 4). pose proof (Nat.mod_upper_bound (length long) 4 ltac:(lia)).
  unfold div_ceil.
  pose proof (Nat.div_mod_eq (length long + (4 - 1)) 4). pose proof (Nat.div_mod_eq (length long + (2 - 1)) 2).
  pose proof (Nat.mod_upper_bound (length long + (4 - 1)) 4 ltac:(lia)).
  pose proof (Nat.mod_upper_bound (length long + (2 - 1)) 2 ltac:(lia)).
  destruct (half_match_around_spec long short ((length long + (4 - 1)) / 4) budget) as (r1 & b1 & -> & Hr1); [done|done|lia|lia|].
  cbn [mbind option_bind].
  destruct (half_match_around_spec long short ((length long + (2 - 1)) / 2) b1) as (r2 & b2 & -> & Hr2); [done|done|lia|lia|].
  cbn [mbind option_bind]. eexists _, _. split; [done|].
  set (found := match r1 with Some one => _ | None => r2 end).
  assert (forall run, found = Some run -> run_ok long short run /\ 0 < run_len run) as Hf.
  { unfold found. destruct r1, r2; [case_match| | |]; auto. }
  clearbody found. intros run. destruct found as [r|]; [|done]. intros [= <-].
  destruct (Hf r eq_refl) as [(Hle & Hend & Hsame) Hpos]. unfold long, short in Hsame.
  destruct longer; [done|]. destruct r as [[l h] [l' h']]. unfold run_ok, run_len in *. cbn in *.
  replace (h' - l') with (h - l) by lia. split; [|lia]. split; [lia|]. split; [lia|]. by apply same_sym.
Qed.
End HalfMatch.

(** ** Paths through marked and unsolved boxes *)
Section Path.
Context {T : Type}.
Implicit Types a b : list T.

(** None of the elements from [lo] up to [hi] is marked; and those that are. *)
Definition unmarked (c : list bool) (lo hi : nat) : Prop := forall i, lo <= i < hi -> c !! i = Some false.
Definition marked (c : list bool) (lo hi : nat) : Prop := forall i, lo <= i < hi -> c !! i = Some true.

Inductive path a b (ca cb : list bool) : nat -> nat -> list Job -> nat -> nat -> Prop :=
| path_end i j : path a b ca cb i j [] i j
| path_a i j js i' j' : ca !! i = Some true -> path a b ca cb (S i) j js i' j' -> path a b ca cb i j js i' j'
| path_b i j js i' j' : cb !! j = Some true -> path a b ca cb i (S j) js i' j' -> path a b ca cb i j js i' j'
| path_same i j js i' j' : ca !! i = Some false -> cb !! j = Some false -> a !! i = b !! j ->
    path a b ca cb (S i) (S j) js i' j' -> path a b ca cb i j js i' j'
| path_box q js i' j' : alo q <= ahi q -> blo q <= bhi q -> unmarked ca (alo q) (ahi q) -> unmarked cb (blo q) (bhi q) ->
    path a b ca cb (ahi q) (bhi q) js i' j' -> path a b ca cb (alo q) (blo q) (q :: js) i' j'.

Lemma path_le a b ca cb i j js i' j' : path a b ca cb i j js i' j' -> i <= i' /\ j <= j'.
Proof. induction 1; lia. Qed.

Lemma path_app a b ca cb i j l1 i' j' l2 i'' j'' :
  path a b ca cb i j l1 i' j' -> path a b ca cb i' j' l2 i'' j'' -> path a b ca cb i j (l1 ++ l2) i'' j''.
Proof.
  intros Hp Hq. induction Hp; cbn; eauto using path.
Qed.

Lemma path_split a b ca cb i j l1 q l2 i' j' :
  path a b ca cb i j (l1 ++ q :: l2) i' j' ->
  path a b ca cb i j l1 (alo q) (blo q) /\ path a b ca cb (ahi q) (bhi q) l2 i' j' /\
  alo q <= ahi q /\ blo q <= bhi q /\ unmarked ca (alo q) (ahi q) /\ unmarked cb (blo q) (bhi q).
Proof.
  remember (l1 ++ q :: l2) as js eqn:E. intros Hp. revert l1 E.
  induction Hp as [i j|i j js i' j' ? ? IH|i j js i' j' ? ? IH|i j js i' j' ? ? ? ? IH|q' js i' j' ? ? ? ? Hp IH]; intros l1 E.
  - by destruct l1.
  - destruct (IH l1 E) as [? ?]. split; [by apply path_a|done].
  - destruct (IH l1 E) as [? ?]. split; [by apply path_b|done].
  - destruct (IH l1 E) as [? ?]. split; [by apply path_same|done].
  - destruct l1 as [|q1 l1].
    + injection E as -> ->. split; [apply path_end|]. splits; done.
    + injection E as -> ->. destruct (IH l1 eq_refl) as [? ?]. split; [by apply path_box|done].
Qed.

(** The marks agree on [lo] up to [hi]. *)
Definition agree (lo hi : nat) (c c' : list bool) : Prop := forall i, lo <= i < hi -> c' !! i = c !! i.

Lemma path_agree a b ca cb ca' cb' i j js i' j' :
  path a b ca cb i j js i' j' -> agree i i' ca ca' -> agree j j' cb cb' -> path a b ca' cb' i j js i' j'.
Proof.
  intros Hp. induction Hp as [i j|i j js i' j' Hc Hp IH|i j js i' j' Hc Hp IH|i j js i' j' Hc Hc' E Hp IH|q js i' j' ? ? Hu Hu' Hp IH];
    intros Ha Hb; try (pose proof (path_le _ _ _ _ _ _ _ _ _ Hp) as [? ?]).
  - apply path_end.
  - apply path_a; [rewrite Ha by lia; done|]. apply IH; [intros k ?; apply Ha; lia|done].
  - apply path_b; [rewrite Hb by lia; done|]. apply IH; [done|intros k ?; apply Hb; lia].
  - apply path_same; [rewrite Ha by lia; done|rewrite Hb by lia; done|done|].
    apply IH; [intros k ?; apply Ha; lia|intros k ?; apply Hb; lia].
  - apply path_box; [done|done| | |].
    + intros k ?. rewrite Ha by lia. by apply Hu.
    + intros k ?. rewrite Hb by lia. by apply Hu'.
    + apply IH; [intros k ?; apply Ha; lia|intros k ?; apply Hb; lia].
Qed.

(** What is done to a box does not matter to the rest of the path. *)
Definition outside (lo hi : nat) (c c' : list bool) : Prop :=
  length c' = length c /\ forall i, i < lo \/ hi <= i -> c' !! i = c !! i.

Lemma outside_refl lo hi c : outside lo hi c c.
Proof. by split. Qed.

Lemma outside_trans lo hi c c' c'' : outside lo hi c c' -> outside lo hi c' c'' -> outside lo hi c c''.
Proof. intros [? H1] [? H2]. split; [congruence|]. intros i Hi. by rewrite H2, H1. Qed.

Lemma outside_wider lo hi lo' hi' c c' : outside lo hi c c' -> lo' <= lo -> hi <= hi' -> outside lo' hi' c c'.
Proof. intros [? H1] ? ?. split; [done|]. intros i Hi. apply H1. lia. Qed.

Lemma path_replace a b ca cb ca' cb' i j l1 q l2 js i' j' :
  path a b ca cb i j (l1 ++ q :: l2) i' j' ->
  outside (alo q) (ahi q) ca ca' -> outside (blo q) (bhi q) cb cb' ->
  path a b ca' cb' (alo q) (blo q) js (ahi q) (bhi q) ->
  path a b ca' cb' i j (l1 ++ js ++ l2) i' j'.
Proof.
  intros (H1 & H2 & _)%path_split [_ Ha] [_ Hb] Hq. eapply path_app; [|eapply path_app; [exact Hq|]].
  - eapply path_agree; [exact H1|intros k ?; apply Ha; lia|intros k ?; apply Hb; lia].
  - eapply path_agree; [exact H2|intros k ?; apply Ha; lia|intros k ?; apply Hb; lia].
Qed.

(** *** Ways along a path *)
Lemma path_marked_a a b ca cb i j n : marked ca i (i + n) -> path a b ca cb i j [] (i + n) j.
Proof.
  revert i. induction n as [|n IH]; intros i Hm; [rewrite Nat.add_0_r; apply path_end|].
  apply path_a; [apply Hm; lia|]. replace (i + S n) with (S i + n) by lia. apply IH. intros k ?. apply Hm. lia.
Qed.

Lemma path_marked_b a b ca cb i j n : marked cb j (j + n) -> path a b ca cb i j [] i (j + n).
Proof.
  revert j. induction n as [|n IH]; intros j Hm; [rewrite Nat.add_0_r; apply path_end|].
  apply path_b; [apply Hm; lia|]. replace (j + S n) with (S j + n) by lia. apply IH. intros k ?. apply Hm. lia.
Qed.

Lemma path_run a b ca cb i j n :
  same a b i j n -> unmarked ca i (i + n) -> unmarked cb j (j + n) -> path a b ca cb i j [] (i + n) (j + n).
Proof.
  revert i j. induction n as [|n IH]; intros i j Hs Ha Hb; [rewrite !Nat.add_0_r; apply path_end|].
  apply path_same; [apply Ha; lia|apply Hb; lia| |].
  - destruct Hs as (_ & _ & Hs). specialize (Hs 0 ltac:(lia)). by rewrite !Nat.add_0_r in Hs.
  - replace (i + S n) with (S i + n) by lia. replace (j + S n) with (S j + n) by lia. apply IH.
    + pose proof (same_part a b i j (S n) 1 n Hs ltac:(lia)) as E. by rewrite !Nat.add_1_r in E.
    + intros k ?. apply Ha. lia.
    + intros k ?. apply Hb. lia.
Qed.

Lemma path_marks a b ca cb i j :
  path a b ca cb i j [] (length a) (length b) -> marks a b ca cb i j.
Proof.
  remember [] as js eqn:E. remember (length a) as i' eqn:Ei. remember (length b) as j' eqn:Ej.
  induction 1; subst; [apply marks_end|apply marks_a; auto|apply marks_b; auto|apply marks_same; auto|done].
Qed.
End Path.

(** ** Marking *)
Lemma fill_true_spec c lo hi :
  lo <= hi -> hi <= length c -> exists c', fill_true c lo hi = Some c' /\ outside lo hi c c' /\ marked c' lo hi.
Proof.
  intros ? ?. unfold fill_true. rewrite (proj2 (Nat.leb_le lo hi)), (proj2 (Nat.leb_le hi (length c))) by done.
  eexists. split; [done|]. split; [split|].
  - rewrite !length_app, length_take, length_replicate, length_drop. lia.
  - intros i Hi. rewrite lookup_app. destruct (decide (i < lo)).
    + rewrite lookup_take_lt by lia. destruct (c !! i) eqn:E; [done|]. apply lookup_ge_None in E. lia.
    + rewrite (proj2 (lookup_ge_None (take lo c) i)) by (rewrite length_take; lia).
      rewrite lookup_app, (proj2 (lookup_ge_None (replicate _ _) _)) by (rewrite length_replicate, length_take; lia).
      rewrite lookup_drop, length_replicate, length_take. f_equal. lia.
  - intros i Hi. rewrite lookup_app, (proj2 (lookup_ge_None (take lo c) i)) by (rewrite length_take; lia).
    rewrite lookup_app, lookup_replicate_2; [done|]. rewrite length_take. lia.
Qed.

Lemma set_at_spec {A} (c : list A) i x :
  i < length c -> exists c', set_at c i x = Some c' /\ length c' = length c /\ c' !! i = Some x /\
    forall k, k <> i -> c' !! k = c !! k.
Proof.
  intros ?. unfold set_at. rewrite (proj2 (Nat.ltb_lt i (length c))) by done. eexists. split; [done|].
  split; [by rewrite length_insert|]. split; [by apply list_lookup_insert_eq|]. intros k ?. by apply list_lookup_insert_ne.
Qed.

(** ** Unique elements in order *)
Section Anchor.
Context {T : Type} `{HE : Elem T, !ElemLaws T}.
Context (idf : T -> nat) (Hid : forall t, elem_ok t -> elem_id t = Some (idf t)).
Context (Hinj : forall t u, elem_ok t -> elem_ok u -> idf t = idf u -> t = u).

(** How often an id occurs. *)
Fixpoint occ (k : nat) (l : list T) : nat :=
  match l with [] => 0 | t :: l => (if decide (idf t = k) then 1 else 0) + occ k l end.

Definition fits (l : list T) (v : list nat) : Prop := Forall (fun t => elem_ok t /\ idf t < length v) l.

Lemma fits_length l v v' : fits l v -> length v <= length v' -> fits l v'.
Proof. intros Hf ?. eapply Forall_impl; [exact Hf|]. cbn. intros t [? ?]. split; [done|lia]. Qed.

Lemma bump_spec v id x :
  v !! id = Some x -> exists v', bump v id = Some v' /\ length v' = length v /\ v' !! id = Some (x + 1) /\
    forall k, k <> id -> v' !! k = v !! k.
Proof.
  intros Hx. unfold bump. rewrite Hx. cbn [mbind option_bind]. apply set_at_spec. by eapply lookup_lt_Some.
Qed.

Lemma count_ids_spec l v :
  fits l v -> exists v', count_ids l v = Some v' /\ length v' = length v /\
    forall k x, v !! k = Some x -> v' !! k = Some (x + occ k l).
Proof using Hid.
  revert v. induction l as [|t l IH]; intros v Hl; cbn [count_ids occ].
  - eexists. split; [done|]. split; [done|]. intros k x. by rewrite Nat.add_0_r.
  - apply Forall_cons in Hl as [[Hok Ht] Hl]. rewrite Hid by done. cbn [mbind option_bind].
    destruct (lookup_lt_is_Some_2 v (idf t) Ht) as [x0 Hx0].
    destruct (bump_spec v (idf t) x0 Hx0) as (v1 & -> & Hl1 & Hs1 & Ho1). cbn [mbind option_bind].
    destruct (IH v1) as (v' & -> & Hl' & Hv'); [eapply fits_length; [done|lia]|].
    eexists. split; [done|]. split; [lia|]. intros k x Hx. destruct (decide (idf t = k)) as [<- |].
    + rewrite Hx0 in Hx. injection Hx as <-. rewrite (Hv' _ _ Hs1). f_equal. lia.
    + apply Hv'. by rewrite Ho1 by done.
Qed.

(** Where each id is found last. *)
Definition placed (l : list T) (at_ : nat) (pos pos' : list nat) : Prop :=
  forall k, (occ k l = 0 -> pos' !! k = pos !! k) /\
    (0 < occ k l -> exists i t, l !! i = Some t /\ idf t = k /\ pos' !! k = Some (at_ + i)).

Lemma count_places_spec l at_ v pos :
  fits l v -> fits l pos -> exists v' pos', count_places l at_ v pos = Some (v', pos') /\
    length v' = length v /\ length pos' = length pos /\
    (forall k x, v !! k = Some x -> v' !! k = Some (x + occ k l)) /\ placed l at_ pos pos'.
Proof using Hid.
  revert at_ v pos. induction l as [|t l IH]; intros at_ v pos Hl Hp; cbn [count_places].
  - eexists _, _. split; [done|]. split; [done|]. split; [done|]. split; [intros k x; cbn; by rewrite Nat.add_0_r|].
    intros k. cbn [occ]. split; [done|lia].
  - apply Forall_cons in Hl as [[Hok Ht] Hl]. apply Forall_cons in Hp as [[_ Htp] Hp].
    rewrite Hid by done. cbn [mbind option_bind].
    destruct (lookup_lt_is_Some_2 v (idf t) Ht) as [x0 Hx0].
    destruct (bump_spec v (idf t) x0 Hx0) as (v1 & -> & Hl1 & Hs1 & Ho1). cbn [mbind option_bind].
    destruct (set_at_spec pos (idf t) at_ Htp) as (p1 & -> & Hlp & Hsp & Hop). cbn [mbind option_bind].
    destruct (IH (S at_) v1 p1) as (v' & pos' & -> & Hl' & Hlp' & Hv' & Hpl); [eapply fits_length; [exact Hl|lia]|eapply fits_length; [exact Hp|lia]|].
    eexists _, _. split; [done|]. split; [lia|]. split; [lia|]. split.
    + intros k x Hx. cbn [occ]. destruct (decide (idf t = k)) as [<- |].
      * rewrite Hx0 in Hx. injection Hx as <-. rewrite (Hv' _ _ Hs1). f_equal. lia.
      * apply Hv'. by rewrite Ho1 by done.
    + intros k. destruct (Hpl k) as [Hz Hnz]. cbn [occ]. destruct (decide (idf t = k)) as [<- |]; split.
      * lia.
      * intros _. destruct (decide (occ (idf t) l = 0)).
        -- exists 0, t. split; [done|]. split; [done|]. rewrite Hz, Hsp by done. f_equal. lia.
        -- destruct Hnz as (i & u & ? & ? & Hi); [lia|]. exists (S i), u. split; [done|]. split; [done|].
           rewrite Hi. f_equal. lia.
      * intros Hoc. rewrite Hz by lia. by apply Hop.
      * intros Hoc. destruct Hnz as (i & u & ? & ? & Hi); [lia|]. exists (S i), u. split; [done|]. split; [done|].
        rewrite Hi. f_equal. lia.
Qed.

Lemma clear_ids_spec l v :
  fits l v -> exists v', clear_ids l v = Some v' /\ length v' = length v /\
    forall k, v' !! k = if decide (occ k l = 0) then v !! k else Some 0.
Proof using Hid.
  revert v. induction l as [|t l IH]; intros v Hl; cbn [clear_ids].
  - eexists. split; [done|]. split; [done|]. done.
  - apply Forall_cons in Hl as [[Hok Ht] Hl]. rewrite Hid by done. cbn [mbind option_bind].
    destruct (set_at_spec v (idf t) 0 Ht) as (v1 & -> & Hl1 & Hs1 & Ho1). cbn [mbind option_bind].
    destruct (IH v1) as (v' & -> & Hl' & Hv'); [eapply fits_length; [done|lia]|].
    eexists. split; [done|]. split; [lia|]. intros k. rewrite Hv'. cbn [occ].
    destruct (decide (idf t = k)) as [<- |]; [by case_decide|]. cbn [Nat.add]. case_decide; [by apply Ho1|done].
Qed.

(** Counting and clearing leave the counts at 0. *)
Lemma cleared l v v' v'' :
  Forall (eq 0) v -> length v'' = length v' -> length v' = length v ->
  (forall k x, v !! k = Some x -> v' !! k = Some (x + occ k l)) ->
  (forall k, v'' !! k = if decide (occ k l = 0) then v' !! k else Some 0) -> Forall (eq 0) v''.
Proof.
  intros Hz Hl1 Hl2 H1 H2. apply Forall_lookup. intros k x Hx. rewrite H2 in Hx. case_decide as Hk; [|congruence].
  destruct (v !! k) as [y|] eqn:Ey.
  - pose proof (proj1 (Forall_lookup _ _) Hz k y Ey) as <-. rewrite (H1 _ _ Ey), Hk in Hx. cbn in Hx. congruence.
  - apply lookup_ge_None in Ey. apply lookup_lt_Some in Hx. lia.
Qed.

(** The pairs: in order in the old text, each of them two places of one element. *)
Definition pair_ok (la lb : list T) (alo blo : nat) (p : nat * nat) : Prop :=
  exists i j t, p = (alo + i, blo + j) /\ la !! i = Some t /\ lb !! j = Some t.

Lemma unique_pairs_spec l at_ lb blo an pos :
  Forall elem_ok lb -> placed lb blo pos (pos_b an) ->
  (forall k x, count_b an !! k = Some x -> x = occ k lb) ->
  fits l (count_a an) -> length (count_b an) = length (count_a an) -> length (pos_b an) = length (count_a an) ->
  exists pairs, unique_pairs l at_ an = Some pairs /\
    StronglySorted (fun p q => p.1 < q.1) pairs /\ Forall (pair_ok l lb at_ blo) pairs.
Proof using Hid Hinj.
  intros Hlb Hpl Hcb. revert at_. induction l as [|t l IH]; intros at_ Hl Hn1 Hn2; cbn [unique_pairs].
  - eexists. split; [done|]. split; constructor.
  - apply Forall_cons in Hl as [[Hok Ht] Hl]. rewrite Hid by done. cbn [mbind option_bind].
    destruct (lookup_lt_is_Some_2 (count_a an) (idf t) ltac:(lia)) as [ca ->].
    destruct (lookup_lt_is_Some_2 (count_b an) (idf t) ltac:(lia)) as [cb Hcb1]. rewrite Hcb1.
    destruct (lookup_lt_is_Some_2 (pos_b an) (idf t) ltac:(lia)) as [j Hj]. rewrite Hj. cbn [mbind option_bind].
    destruct (IH (S at_)) as (rest & -> & Hsort & Hall); [done..|].
    assert (Forall (pair_ok (t :: l) lb at_ blo) rest) as Hall'.
    { eapply Forall_impl; [exact Hall|]. intros p (i & j' & u & -> & ? & ?). exists (S i), j', u.
      split; [f_equal; lia|]. done. }
    destruct ((ca =? 1) && (cb =? 1)) eqn:E; cbn [mbind option_bind]; [|by eexists].
    apply andb_true_iff in E as [_ ->%Nat.eqb_eq]. apply Hcb in Hcb1 as Hoc.
    destruct (proj2 (Hpl (idf t)) ltac:(lia)) as (i & u & Hu & Hid' & Hi).
    rewrite Hj in Hi. injection Hi as ->.
    assert (u = t) as -> by (apply Hinj; [eapply Forall_lookup_1; eauto|done|done]).
    eexists. split; [done|]. cbn [app]. split.
    + constructor; [done|]. eapply Forall_impl; [exact Hall|]. intros p (i' & j' & w & -> & _). cbn. lia.
    + constructor; [|done]. exists 0, i, t. split; [f_equal; lia|]. done.
Qed.
End Anchor.

(** What solving a box may still cost: a box of [s] elements is cut at most [s - 1] times. *)
Definition size_cost (s : nat) : nat := if decide (s = 0) then 1 else 2 * s - 1.
Definition job_size (q : Job) : nat := (ahi q - alo q) + (bhi q - blo q).
Definition cost (js : list Job) : nat := sum_list_with (fun q => size_cost (job_size q)) js.

Lemma cost_cons q js : cost (q :: js) = size_cost (job_size q) + cost js.
Proof. done. Qed.

Lemma cost_app l1 l2 : cost (l1 ++ l2) = cost l1 + cost l2.
Proof. apply sum_list_with_app. Qed.

Lemma cost_perm l1 l2 : l1 ≡ₚ l2 -> cost l1 = cost l2.
Proof. intros Hp. unfold cost. by rewrite Hp. Qed.

Lemma size_cost_pos s : 0 < s -> size_cost s = 2 * s - 1.
Proof. intros ?. unfold size_cost. rewrite decide_False; lia. Qed.

Lemma size_cost_mono s s' : s <= s' -> size_cost s <= size_cost s'.
Proof. intros ?. unfold size_cost. repeat case_decide; lia. Qed.

Lemma size_cost_le s : 1 <= size_cost s <= 2 * s + 1.
Proof. unfold size_cost. case_decide; lia. Qed.

Section Threads.
Context {T : Type} `{HE : Elem T, !ElemLaws T}.
Context (a b : list T) (pairs : list (nat * nat)).

(** Each pair has a later place in both texts than the one it is threaded to. *)
Definition threaded (idx : nat) (prev : list (option nat)) : Prop :=
  length prev = length pairs /\
  forall c t, prev !! c = Some (Some t) -> t < c < idx /\
    exists p q, pairs !! t = Some p /\ pairs !! c = Some q /\ p.2 < q.2.

Lemma increasing_runs_spec todo idx tails prev :
  drop idx pairs = todo -> idx + length todo = length pairs ->
  Forall (fun t => t < idx) tails -> threaded idx prev ->
  exists tails' prev', increasing_runs pairs todo idx tails prev = Some (tails', prev') /\
    Forall (fun t => t < length pairs) tails' /\ threaded (length pairs) prev'.
Proof using Type.
  revert idx tails prev. induction todo as [|[i j] todo IH]; intros idx tails prev Hd Hlen Ht Hp; cbn [increasing_runs].
  { cbn in Hlen. rewrite Nat.add_0_r in Hlen. subst idx. by eexists _, _. }
  pose proof (lookup_of_drop _ _ _ _ Hd) as Hidx. apply drop_of_cons in Hd. cbn [length] in Hlen.
  set (p := fun t => match pairs !! t with Some p => p.2 <? j | None => false end).
  set (pos := count_while p tails). pose proof (count_while_le p tails) as Hpos. fold pos in Hpos.
  assert (exists prev', (if 0 <? pos then k ← usub pos 1; t ← tails !! k; set_at prev idx (Some t) else Some prev) = Some prev' /\
            threaded (S idx) prev') as (prev' & -> & Hp').
  { destruct Hp as [Hlp Hp]. destruct (Nat.ltb_spec 0 pos) as [H0|H0].
    2: { eexists. split; [done|]. split; [done|]. intros c t E. destruct (Hp c t E) as [? ?]. split; [lia|done]. }
    rewrite usub_Some by lia. cbn [mbind option_bind].
    destruct (lookup_lt_is_Some_2 tails (pos - 1) ltac:(lia)) as [t Et]. rewrite Et. cbn [mbind option_bind].
    destruct (set_at_spec prev idx (Some t)) as (prev' & -> & Hl' & Hs & Ho); [lia|].
    eexists. split; [done|]. split; [lia|]. intros c t' E. destruct (decide (c = idx)) as [-> |].
    - rewrite Hs in E. injection E as <-. pose proof (Forall_lookup_1 _ _ _ _ Ht Et) as Hlt. cbn in Hlt. split; [lia|].
      destruct (pairs !! t) as [q|] eqn:Eq; [|apply lookup_ge_None in Eq; lia]. exists q, (i, j). split; [done|]. split; [done|].
      assert (take pos tails !! (pos - 1) = Some t) as Etk by (by rewrite lookup_take_lt by lia).
      apply (Forall_lookup_1 _ _ _ _ (take_count_while p tails)) in Etk. unfold p in Etk. rewrite Eq in Etk.
      by apply Nat.ltb_lt in Etk.
    - rewrite Ho in E by done. destruct (Hp c t' E) as [? ?]. split; [lia|done]. }
  cbn [mbind option_bind].
  assert (exists tails', (if pos =? length tails then Some (tails ++ [idx]) else set_at tails pos idx) = Some tails' /\
            Forall (fun t => t < S idx) tails') as (tails' & -> & Ht').
  { assert (Forall (fun t => t < S idx) tails) by (eapply Forall_impl; [exact Ht|]; cbn; lia).
    destruct (Nat.eqb_spec pos (length tails)).
    - eexists. split; [done|]. apply Forall_app. split; [done|]. constructor; [lia|done].
    - destruct (set_at_spec tails pos idx) as (tails' & E & Hl & Hs & Ho); [lia|]. rewrite E. eexists. split; [done|].
      apply Forall_lookup. intros k t Ek. destruct (decide (k = pos)) as [-> |]; [rewrite Hs in Ek; injection Ek as <-; lia|].
      rewrite Ho in Ek by done. eapply Forall_lookup_1 in Ek; [|done]. done. }
  cbn [mbind option_bind]. apply IH; [done|lia|done|done].
Qed.

Lemma StronglySorted_lookup {A} (R : relation A) l i j x y :
  StronglySorted R l -> i < j -> l !! i = Some x -> l !! j = Some y -> R x y.
Proof using Type.
  intros Hs Hij Hx Hy. eapply (StronglySorted_app_1_elem_of R (take j l) (drop j l)); [by rewrite take_drop| |].
  - apply list_elem_of_lookup. exists i. by rewrite lookup_take_lt.
  - apply list_elem_of_lookup. exists 0. by rewrite lookup_drop, Nat.add_0_r.
Qed.

(** A run, last to first, of equal elements of the box. *)
Fixpoint falling (run : list nat) (alo ea blo eb : nat) : Prop :=
  match run with
  | [] => alo <= ea /\ blo <= eb
  | c :: run => exists i j, pairs !! c = Some (i, j) /\ i < ea /\ j < eb /\ same a b i j 1 /\ falling run alo i blo j
  end.

Lemma thread_back_spec prev cur alo ea blo eb :
  threaded (length pairs) prev -> StronglySorted (fun p q => p.1 < q.1) pairs ->
  Forall (fun p => alo <= p.1 /\ blo <= p.2 /\ same a b p.1 p.2 1) pairs ->
  (exists p, pairs !! cur = Some p /\ p.1 < ea /\ p.2 < eb) ->
  forall fuel, S cur < fuel -> exists run, thread_back fuel prev (Some cur) = Some (cur :: run) /\ falling (cur :: run) alo ea blo eb.
Proof using Type.
  intros [Hl Ht] Hsort Hall. revert ea eb. induction cur as [cur IH] using lt_wf_ind.
  intros ea eb (p & Hp & ? & ?) [|fuel] Hf; [lia|]. cbn [thread_back].
  pose proof (lookup_lt_Some _ _ _ Hp) as Hc. destruct (lookup_lt_is_Some_2 prev cur ltac:(lia)) as [c' Ec]. rewrite Ec. cbn [mbind option_bind].
  destruct (Forall_lookup_1 _ _ _ _ Hall Hp) as (? & ? & ?).
  destruct c' as [t|].
  - destruct (Ht _ _ Ec) as [Hlt (q & p' & Hq & Hp' & ?)]. rewrite Hp in Hp'. injection Hp' as <-.
    destruct (IH t ltac:(lia) p.1 p.2) with (fuel := fuel) as (run & -> & Hrun); [|lia|].
    { exists q. split; [done|]. split; [|done].
      exact (StronglySorted_lookup _ _ _ _ _ _ Hsort (proj1 Hlt) Hq Hp). }
    cbn [mbind option_bind]. eexists. split; [done|]. exists p.1, p.2. rewrite Hp. destruct p. by split.
  - destruct fuel as [|fuel]; [lia|]. cbn [thread_back mbind option_bind]. eexists. split; [done|].
    exists p.1, p.2. rewrite Hp. destruct p. cbn. split; [done|]. done.
Qed.

Lemma push_between_spec ca cb run alo ea blo eb probe st :
  falling run alo ea blo eb -> unmarked ca alo ea -> unmarked cb blo eb ->
  exists js st', push_between pairs run alo ea blo eb probe st = Some st' /\ st' ≡ₚ js ++ st /\
    path a b ca cb alo blo js ea eb /\ cost js + 2 * length run <= 2 * ((ea - alo) + (eb - blo)) /\
    Forall (fun q => job_probe q = probe) js /\ alo <= ea /\ blo <= eb.
Proof using Type.
  assert (Hpush : forall alo ea blo eb, alo <= ea -> blo <= eb -> unmarked ca alo ea -> unmarked cb blo eb ->
    exists js, (forall st : list Job, (if (alo <? ea) || (blo <? eb) then job_new (alo, blo) (ea, eb) probe true :: st else st) = js ++ st) /\
      path a b ca cb alo blo js ea eb /\ cost js <= 2 * ((ea - alo) + (eb - blo)) /\
      Forall (fun q => job_probe q = probe) js).
  { clear. intros alo ea blo eb ? ? Ha Hb. destruct ((alo <? ea) || (blo <? eb)) eqn:E.
    - apply orb_true_iff in E. rewrite !Nat.ltb_lt in E. eexists [_]. split; [done|]. split.
      + apply (path_box a b ca cb (job_new (alo, blo) (ea, eb) probe true)); [done..|]. apply path_end.
      + rewrite cost_cons. unfold job_size. cbn. rewrite size_cost_pos by lia. split; [lia|by repeat constructor].
    - apply orb_false_iff in E. rewrite !Nat.ltb_ge in E. exists []. split; [done|].
      replace ea with alo by lia. replace eb with blo by lia. split; [apply path_end|]. split; [cbn; lia|constructor]. }
  revert ea eb st. induction run as [|c run IH]; intros ea eb st Hf Ha Hb; cbn [push_between].
  - destruct Hf as [? ?]. destruct (Hpush alo ea blo eb) as (js & Hjs & Hp & Hc & Hpr); [done..|].
    exists js. eexists. split; [done|]. rewrite Hjs. split; [done|]. split; [done|]. split; [cbn; lia|]. by split.
  - destruct Hf as (i & j & -> & Hi & Hj & Hsame & Hf). cbn [mbind option_bind].
    destruct (IH i j (if (i + 1 <? ea) || (j + 1 <? eb) then job_new (i + 1, j + 1) (ea, eb) probe true :: st else st))
      as (js & st' & -> & Hperm & Hpath & Hcost & Hpr & ? & ?); [done|intros k ?; apply Ha; lia|intros k ?; apply Hb; lia|].
    destruct (Hpush (i + 1) ea (j + 1) eb) as (js2 & Hjs2 & Hp2 & Hc2 & Hpr2);
      [lia|lia|intros k ?; apply Ha; lia|intros k ?; apply Hb; lia|].
    rewrite Hjs2 in Hperm. exists (js ++ js2), st'. split; [done|]. rewrite <- app_assoc. split; [done|]. split.
    + eapply path_app; [exact Hpath|]. eapply (path_app _ _ _ _ _ _ []); [|exact Hp2].
      apply path_run; [done|intros k ?; apply Ha; lia|intros k ?; apply Hb; lia].
    + rewrite cost_app. cbn [length]. split; [lia|]. split; [by apply Forall_app|lia].
Qed.
End Threads.

Section Anchored.
Context {T : Type} `{HE : Elem T, !ElemLaws T}.
Context (a b : list T) (Ha : Forall elem_ok a) (Hb : Forall elem_ok b).

(** The scratch between two uses. *)
Record anchors_ok (an : Anchors) : Prop := {
  ok_ids : Forall (fun t => forall i, elem_id t = Some i -> i < length (count_a an)) (a ++ b);
  ok_count_b : length (count_b an) = length (count_a an);
  ok_pos_b : length (pos_b an) = length (count_a an);
  ok_zero_a : Forall (eq 0) (count_a an);
  ok_zero_b : Forall (eq 0) (count_b an)
}.

Lemma max_elem (l : list nat) x : x ∈ l -> x <= foldr Nat.max 0 l.
Proof. induction 1; cbn; lia. Qed.

Lemma anchors_start (scratch : option Anchors) :
  anchored (T := T) = true -> (forall an, scratch = Some an -> anchors_ok an) ->
  exists an, match scratch with
             | Some an => Some an
             | None => ids ← mapM elem_id (a ++ b); Some (anchors_new (1 + foldr Nat.max 0 ids))
             end = Some an /\ anchors_ok an.
Proof using Ha Hb.
  intros Hanch Hs. destruct scratch as [an|]; [exists an; auto|].
  destruct (id_law Hanch) as (idf & Hid & _).
  assert (mapM elem_id (a ++ b) = Some (idf <$> (a ++ b))) as ->.
  { apply mapM_Some. rewrite Forall2_fmap_r. apply Forall_Forall2_diag.
    eapply Forall_impl; [by apply Forall_app|]. exact Hid. }
  cbn [mbind option_bind]. eexists. split; [done|]. split; cbn; rewrite ?length_replicate; try done.
  - apply Forall_forall. intros t Ht i Hi.
    assert (elem_ok t) as Hok by (eapply Forall_forall in Ht; [exact Ht|by apply Forall_app]).
    rewrite (Hid t Hok) in Hi. injection Hi as <-. apply Nat.lt_succ_r, max_elem. by apply list_elem_of_fmap_2.
  - exact (Forall_replicate (eq 0) (S _) 0 eq_refl).
  - exact (Forall_replicate (eq 0) (S _) 0 eq_refl).
Qed.

Lemma box_fits (idf : T -> nat) (l : list T) lo hi (v : list nat) an :
  (forall t, elem_ok t -> elem_id t = Some (idf t)) -> anchors_ok an -> length v = length (count_a an) ->
  Forall elem_ok l -> (forall t, t ∈ l -> t ∈ a ++ b) -> fits idf (take hi (drop lo l)) v.
Proof using Type.
  intros Hid Han Hv Hl Hin. apply Forall_take, Forall_drop. apply Forall_forall. intros t Ht.
  assert (elem_ok t) as Hok by (by eapply Forall_forall in Ht). split; [done|].
  pose proof (ok_ids _ Han) as Hids. eapply Forall_forall in Hids; [|by apply Hin]. rewrite Hv. by apply Hids, Hid.
Qed.

(** A box that is cut at anchors, or is left alone. *)
Lemma split_at_anchors_spec ca cb scratch alo ahi blo bhi probe st :
  anchored (T := T) = true -> (forall an, scratch = Some an -> anchors_ok an) ->
  alo < ahi <= length a -> blo < bhi <= length b -> unmarked ca alo ahi -> unmarked cb blo bhi ->
  exists an r, split_at_anchors a b scratch alo ahi blo bhi probe st = Some (an, r) /\ anchors_ok an /\
    match r with
    | None => True
    | Some st' => exists js, st' ≡ₚ js ++ st /\ path a b ca cb alo blo js ahi bhi /\
                    cost js < size_cost ((ahi - alo) + (bhi - blo)) /\ Forall (fun q => job_probe q = probe) js
    end.
Proof using Ha Hb.
  intros Hanch Hs Hla Hlb Hua Hub. unfold split_at_anchors.
  destruct (anchors_start scratch Hanch Hs) as (an & -> & Han). cbn [mbind option_bind].
  destruct (id_law Hanch) as (idf & Hid & Hinj). rewrite !slice_range_Some by lia. cbn [mbind option_bind].
  set (xa := take (ahi - alo) (drop alo a)). set (xb := take (bhi - blo) (drop blo b)).
  assert (forall v, length v = length (count_a an) -> fits idf xa v) as Hfa
    by (intros v Hv; eapply box_fits; eauto; intros t ?; apply elem_of_app; auto).
  assert (forall v, length v = length (count_a an) -> fits idf xb v) as Hfb
    by (intros v Hv; eapply box_fits; eauto; intros t ?; apply elem_of_app; auto).
  destruct Han as [Hids Hcb Hpb Hza Hzb].
  destruct (count_ids_spec idf Hid xa (count_a an)) as (va & -> & Hlva & Hva); [by apply Hfa|]. cbn [mbind option_bind].
  destruct (count_places_spec idf Hid xb blo (count_b an) (pos_b an)) as (vb & pos & -> & Hlvb & Hlp & Hvb & Hpl);
    [apply Hfb; lia|apply Hfb; lia|]. cbn [mbind option_bind].
  destruct (unique_pairs_spec idf Hid Hinj xa alo xb blo
    {| count_a := va; count_b := vb; pos_b := pos |} (pos_b an)) as (pairs & -> & Hsort & Hpairs);
    [by apply Forall_take, Forall_drop|done| |apply Hfa; done|cbn; lia|cbn; lia|].
  { cbn. intros k x Hx. destruct (count_b an !! k) as [y|] eqn:Ey.
    - pose proof (proj1 (Forall_lookup _ _) Hzb k y Ey) as <-. rewrite (Hvb _ _ Ey) in Hx. by injection Hx.
    - apply lookup_ge_None in Ey. apply lookup_lt_Some in Hx. lia. }
  cbn [mbind option_bind].
  destruct (clear_ids_spec idf Hid xa va) as (va' & -> & Hlva' & Hva'); [by apply Hfa|]. cbn [mbind option_bind].
  destruct (clear_ids_spec idf Hid xb vb) as (vb' & -> & Hlvb' & Hvb'); [apply Hfb; lia|]. cbn [mbind option_bind].
  rewrite !usub_Some by lia. cbn [mbind option_bind].
  assert (anchors_ok {| count_a := va'; count_b := vb'; pos_b := pos |}) as Han'.
  { split; cbn; [by rewrite Hlva', Hlva|lia|lia| |].
    - eapply (cleared idf xa (count_a an) va); eauto.
    - eapply (cleared idf xb (count_b an) vb); eauto. }
  set (needed := Nat.max _ 1). assert (1 <= needed) by lia. clearbody needed.
  destruct (Nat.ltb_spec (length pairs) needed); [by eexists _, None|].
  destruct (increasing_runs_spec pairs pairs 0 [] (replicate (length pairs) None)) as (tails & prev & -> & Ht & Hth);
    [by rewrite drop_0|lia|by constructor| |].
  { split; [by rewrite length_replicate|]. intros c t Et. by apply lookup_replicate in Et as [? _]. }
  cbn [mbind option_bind]. destruct (Nat.ltb_spec (length tails) needed); [by eexists _, None|].
  destruct (last tails) as [cur|] eqn:Ecur; [|apply last_None in Ecur; subst; cbn in *; lia]. cbn [mbind option_bind].
  assert (cur < length pairs) as Hcur by (rewrite last_lookup in Ecur; by eapply (Forall_lookup_1 _ _ _ _ Ht)).
  assert (Forall (fun p => (alo <= p.1 < ahi /\ blo <= p.2 < bhi) /\ same a b p.1 p.2 1) pairs) as Hin.
  { eapply Forall_impl; [exact Hpairs|]. intros p (i & j & t & -> & Hi & Hj). cbn.
    pose proof (lookup_lt_Some _ _ _ Hi) as Hi'. pose proof (lookup_lt_Some _ _ _ Hj) as Hj'.
    unfold xa in Hi', Hi. unfold xb in Hj', Hj. rewrite length_part in Hi' by lia. rewrite length_part in Hj' by lia.
    split; [lia|]. split; [lia|]. split; [lia|]. intros k Hk. replace k with 0 by lia. rewrite !Nat.add_0_r.
    rewrite lookup_part in Hi, Hj by lia. congruence. }
  destruct (lookup_lt_is_Some_2 pairs cur Hcur) as [p Hp]. destruct (Forall_lookup_1 _ _ _ _ Hin Hp) as [? _].
  destruct (thread_back_spec a b pairs prev cur alo ahi blo bhi) with (fuel := S (length pairs)) as (run & -> & Hrun);
    [done|done| |exists p; split; [done|lia]|lia|].
  { eapply Forall_impl; [exact Hin|]. cbn. intros q [? ?]. split; [lia|]. split; [lia|done]. }
  cbn [mbind option_bind].
  destruct (push_between_spec a b pairs ca cb (cur :: run) alo ahi blo bhi probe st Hrun Hua Hub)
    as (js & st' & -> & Hperm & Hpath & Hcost & Hpr & _). cbn [mbind option_bind].
  eexists _, _. split; [done|]. split; [done|]. exists js. split; [done|]. split; [done|].
  cbn [length] in Hcost. rewrite size_cost_pos by lia. split; [lia|done].
Qed.
End Anchored.

(** ** Every way to deal with a box *)
Section Solve.
Context {T : Type} `{HE : Elem T, !ElemLaws T}.
Context (a b : list T) (Ha : Forall elem_ok a) (Hb : Forall elem_ok b).
Context (Hsa : short a) (Hsb : short b).

Definition probes_ok (js : list Job) : Prop := Forall (fun q => depth_ok (job_probe q)) js.
Definition scratch_ok (s : Search) : Prop := forall an, anchors s = Some an -> anchors_ok a b an.

(** A box between two points, whose elements are not marked, and what solving it does. *)
Record open_box (s : Search) (lo hi : nat * nat) : Prop := {
  open_a : lo.1 <= hi.1; open_b : lo.2 <= hi.2;
  free_a : unmarked (changed_a s) lo.1 hi.1; free_b : unmarked (changed_b s) lo.2 hi.2
}.
Definition size (lo hi : nat * nat) : nat := (hi.1 - lo.1) + (hi.2 - lo.2).
Definition path_of (s : Search) (lo : nat * nat) (js : list Job) (hi : nat * nat) : Prop :=
  path a b (changed_a s) (changed_b s) lo.1 lo.2 js hi.1 hi.2.

(** The boxes are left for later, the rest of the box is marked, and nothing else is. *)
Record leaves (s s' : Search) (lo hi : nat * nat) (js : list Job) : Prop := {
  left_stack : stack s' ≡ₚ js ++ stack s;
  left_path : path_of s' lo js hi;
  left_a : outside lo.1 hi.1 (changed_a s) (changed_a s');
  left_b : outside lo.2 hi.2 (changed_b s) (changed_b s');
  left_scratch : scratch_ok s';
  left_probes : probes_ok js;
  left_cost : cost js < size_cost (size lo hi)
}.
Definition solved (s s' : Search) (lo hi : nat * nat) : Prop := exists js, leaves s s' lo hi js.

Lemma fill_a_spec s lo hi :
  lo <= hi -> hi <= length (changed_a s) ->
  exists ca, fill_a s lo hi = Some (with_changed s ca (changed_b s)) /\ outside lo hi (changed_a s) ca /\ marked ca lo hi.
Proof.
  intros ? ?. unfold fill_a. destruct (fill_true_spec (changed_a s) lo hi) as (ca & -> & ? & ?); [done..|].
  by exists ca.
Qed.
Lemma fill_b_spec s lo hi :
  lo <= hi -> hi <= length (changed_b s) ->
  exists cb, fill_b s lo hi = Some (with_changed s (changed_a s) cb) /\ outside lo hi (changed_b s) cb /\ marked cb lo hi.
Proof.
  intros ? ?. unfold fill_b. destruct (fill_true_spec (changed_b s) lo hi) as (cb & -> & ? & ?); [done..|].
  by exists cb.
Qed.

(** A box that is marked to its end. *)
Lemma leaves_none s ca cb lo hi :
  outside lo.1 hi.1 (changed_a s) ca -> outside lo.2 hi.2 (changed_b s) cb -> scratch_ok s ->
  path a b ca cb lo.1 lo.2 [] hi.1 hi.2 -> solved s (with_changed s ca cb) lo hi.
Proof using Type.
  intros. exists []. split; try done; [constructor|]. cbn. pose proof (size_cost_le (size lo hi)). lia.
Qed.

Lemma path_filled ca cb lo hi :
  lo.1 <= hi.1 -> lo.2 <= hi.2 -> marked ca lo.1 hi.1 -> marked cb lo.2 hi.2 ->
  path a b ca cb lo.1 lo.2 [] hi.1 hi.2.
Proof using Type.
  intros Hl1 Hl2 Hma Hmb. eapply (path_app _ _ _ _ _ _ [] hi.1 lo.2).
  - replace hi.1 with (lo.1 + (hi.1 - lo.1)) by lia. apply path_marked_a.
    by replace (lo.1 + (hi.1 - lo.1)) with hi.1 by lia.
  - replace hi.2 with (lo.2 + (hi.2 - lo.2)) by lia. apply path_marked_b.
    by replace (lo.2 + (hi.2 - lo.2)) with hi.2 by lia.
Qed.

Lemma fill_both_spec s lo hi :
  lo.1 <= hi.1 <= length (changed_a s) -> lo.2 <= hi.2 <= length (changed_b s) -> scratch_ok s ->
  exists s', fill_both s lo.1 hi.1 lo.2 hi.2 = Some s' /\ solved s s' lo hi.
Proof using Type.
  intros ? ? Hs. unfold fill_both. destruct (fill_a_spec s lo.1 hi.1) as (ca & -> & ? & ?); [lia..|].
  cbn [mbind option_bind].
  destruct (fill_b_spec (with_changed s ca (changed_b s)) lo.2 hi.2) as (cb & -> & ? & ?); [cbn; lia..|].
  eexists. split; [done|]. apply (leaves_none s ca cb); [done..|]. apply path_filled; (lia || done).
Qed.

(** *** Boxes that are cut *)
Fixpoint rising (lo : nat * nat) (cuts : list (nat * nat)) (hi : nat * nat) : Prop :=
  match cuts with
  | [] => lo.1 <= hi.1 /\ lo.2 <= hi.2 /\ lo <> hi
  | c :: cuts => lo.1 <= c.1 /\ lo.2 <= c.2 /\ lo <> c /\ rising c cuts hi
  end.

Lemma rising_le lo cuts hi : rising lo cuts hi -> lo.1 <= hi.1 /\ lo.2 <= hi.2.
Proof using Type.
  revert lo. induction cuts as [|c cuts IH]; intros lo; [intros (? & ? & _); done|].
  intros (? & ? & _ & Hr). apply IH in Hr. lia.
Qed.

Lemma rising_size lo hi : lo.1 <= hi.1 -> lo.2 <= hi.2 -> lo <> hi -> 0 < size lo hi.
Proof using Type.
  intros ? ? Hne. unfold size. destruct lo as [x y], hi as [x' y']. cbn in *.
  destruct (decide (x = x')) as [-> |]; [|lia]. destruct (decide (y = y')) as [-> |]; [done|lia].
Qed.

Lemma path_job s lo hi probe ex : open_box s lo hi -> path_of s lo [job_new lo hi probe ex] hi.
Proof using Type.
  intros [? ? ? ?]. apply (path_box a b (changed_a s) (changed_b s) (job_new lo hi probe ex)); [done..|]. apply path_end.
Qed.

Lemma open_part s lo hi lo' hi' :
  open_box s lo hi -> lo.1 <= lo'.1 <= hi'.1 -> lo.2 <= lo'.2 <= hi'.2 -> hi'.1 <= hi.1 -> hi'.2 <= hi.2 ->
  open_box s lo' hi'.
Proof using Type.
  intros [? ? Hu Hv] ? ? ? ?. split; [lia|lia| |]; [intros i ?; apply Hu; lia|intros i ?; apply Hv; lia].
Qed.

Lemma half_probe probe : depth_ok probe -> depth_ok (Z.max (probe / 2) MIN_PROBE).
Proof using Type.
  unfold depth_ok, MIN_PROBE. intros ?. pose proof (Z.div_le_upper_bound probe 2 probe). lia.
Qed.

Lemma push_cuts_spec s lo cuts hi probe st :
  open_box s lo hi -> rising lo cuts hi -> depth_ok probe ->
  exists js, push_cuts lo cuts hi probe st ≡ₚ js ++ st /\ path_of s lo js hi /\ probes_ok js /\
    cost js + S (length cuts) = 2 * size lo hi.
Proof using Type.
  intros Hop Hr Hp. revert lo st Hop Hr. induction cuts as [|c cuts IH]; intros lo st Hop Hr; cbn [push_cuts].
  - destruct Hr as (? & ? & Hne). exists [job_new lo hi probe false]. split; [done|]. split; [by apply path_job|].
    split; [by apply Forall_singleton|]. pose proof (rising_size lo hi). rewrite cost_cons. unfold job_size. cbn.
    fold (size lo hi). rewrite size_cost_pos by auto. specialize (H1 ltac:(done) ltac:(done) Hne). lia.
  - destruct Hr as (? & ? & Hne & Hr). destruct (rising_le _ _ _ Hr) as [? ?].
    pose proof (rising_size lo c ltac:(done) ltac:(done) Hne) as Hpos.
    destruct (IH c (job_new lo c probe false :: st)) as (js & Hperm & Hpath & Hpr & Hcost);
      [eapply open_part; [exact Hop|lia..]|done|].
    exists (job_new lo c probe false :: js). split; [|split; [|split]].
    + rewrite Hperm. by rewrite <- Permutation_middle.
    + eapply (path_app _ _ _ _ _ _ [_]); [|exact Hpath]. apply path_job. eapply open_part; [exact Hop|lia..].
    + by constructor.
    + rewrite cost_cons. unfold job_size. cbn. fold (size lo c). rewrite size_cost_pos by done.
      unfold size in *. cbn. lia.
Qed.

Lemma cut_points_spec lo hi f r :
  lo.1 <= hi.1 -> lo.2 <= hi.2 ->
  in_box lo.1 hi.1 lo.2 hi.2 f -> in_box lo.1 hi.1 lo.2 hi.2 r ->
  cut_points lo.1 hi.1 lo.2 hi.2 f r = [] \/ rising lo (cut_points lo.1 hi.1 lo.2 hi.2 f r) hi.
Proof using Type.
  intros ? ? [Hf1 Hf2] [Hr1 Hr2]. unfold cut_points. rewrite <- !surjective_pairing.
  repeat case_bool_decide; cbn [negb andb orb]; auto; try done;
    try (right; cbn; repeat (split; [first [lia|congruence]|]); congruence).
  all: destruct ((f.1 <=? r.1) && (f.2 <=? r.2)) eqn:E; cbn [andb app];
    [apply andb_true_iff in E; rewrite !Nat.leb_le in E|]; right; cbn; repeat (split; [first [lia|congruence]|]); congruence.
Qed.

Lemma leaves_cuts s lo hi js st :
  open_box s lo hi -> scratch_ok s -> st ≡ₚ js ++ stack s -> path_of s lo js hi -> probes_ok js ->
  cost js < size_cost (size lo hi) -> solved s (with_stack s st) lo hi.
Proof using Type. intros. exists js. split; try done; apply outside_refl. Qed.

Lemma greedy_cut_spec s lo hi f r probe :
  open_box s lo hi -> scratch_ok s -> hi.1 <= length (changed_a s) -> hi.2 <= length (changed_b s) -> depth_ok probe ->
  in_box lo.1 hi.1 lo.2 hi.2 f -> in_box lo.1 hi.1 lo.2 hi.2 r ->
  exists s', greedy_cut s lo.1 hi.1 lo.2 hi.2 f r probe = Some s' /\ solved s s' lo hi.
Proof using Type.
  intros Hop Hs ? ? Hp Hf Hr. unfold greedy_cut. pose proof (open_a _ _ _ Hop). pose proof (open_b _ _ _ Hop).
  destruct (cut_points_spec lo hi f r) as [E|Hrise]; [done..| |].
  { rewrite E. apply fill_both_spec; (lia || done). }
  destruct (cut_points _ _ _ _ f r) as [|c cuts] eqn:E; [apply fill_both_spec; (lia || done)|].
  rewrite <- !surjective_pairing. eexists. split; [done|].
  destruct (push_cuts_spec s lo (c :: cuts) hi (Z.max (probe / 2) MIN_PROBE) (stack s)) as (js & Hperm & Hpath & Hpr & Hcost);
    [done|done|by apply half_probe|].
  eapply leaves_cuts; eauto. cbn [length] in Hcost. rewrite size_cost_pos; lia.
Qed.

(** A box of one element on a side. *)
Lemma position_spec (x : T) l :
  match position x l with Some j => l !! j = Some x | None => True end.
Proof.
  induction l as [|y l IH]; cbn [position]; [done|]. case_decide as E; [by subst|].
  destruct (position x l) as [j|]; [exact IH|done].
Qed.

Lemma leaves_path_same s s' lo hi js ca cb :
  stack s' ≡ₚ js ++ stack s -> changed_a s' = ca -> changed_b s' = cb -> anchors s' = anchors s -> scratch_ok s ->
  path a b ca cb lo.1 lo.2 js hi.1 hi.2 -> outside lo.1 hi.1 (changed_a s) ca -> outside lo.2 hi.2 (changed_b s) cb ->
  probes_ok js -> cost js < size_cost (size lo hi) -> solved s s' lo hi.
Proof using Type.
  intros ? <- <- Han Hs ? ? ? ? ?. exists js. split; try done. intros an. rewrite Han. apply Hs.
Qed.

(** A run of equal elements in a box that is marked around it. *)
Lemma path_around ca cb lo hi i j n :
  lo.1 <= i -> lo.2 <= j -> i + n <= hi.1 -> j + n <= hi.2 -> same a b i j n ->
  marked ca lo.1 i -> marked ca (i + n) hi.1 -> marked cb lo.2 j -> marked cb (j + n) hi.2 ->
  unmarked ca i (i + n) -> unmarked cb j (j + n) -> path a b ca cb lo.1 lo.2 [] hi.1 hi.2.
Proof using Type.
  intros ? ? ? ? Hs M1 M2 M3 M4 U1 U2.
  eapply (path_app _ _ _ _ _ _ [] i j); [by apply (path_filled ca cb lo (i, j))|].
  eapply (path_app _ _ _ _ _ _ [] (i + n) (j + n)); [by apply path_run|].
  by apply (path_filled ca cb (i + n, j + n) hi).
Qed.

Lemma one_a_spec s lo hi :
  open_box s lo hi -> scratch_ok s -> hi.1 <= length a -> hi.2 <= length b ->
  length (changed_a s) = length a -> length (changed_b s) = length b -> hi.1 = S lo.1 ->
  exists s', (x ← a !! lo.1;
              s ← fill_b s lo.2 hi.2;
              xb ← slice_range b lo.2 hi.2;
              match position x xb with
              | Some j => cb ← set_at (changed_b s) (lo.2 + j) false; Some (with_changed s (changed_a s) cb)
              | None => ca ← set_at (changed_a s) lo.1 true; Some (with_changed s ca (changed_b s))
              end) = Some s' /\ solved s s' lo hi.
Proof using Type.
  intros [Hl1 Hl2 Hu1 Hu2] Hs Hla Hlb Hca Hcb Hone.
  destruct (lookup_lt_is_Some_2 a lo.1 ltac:(lia)) as [x Hx]. rewrite Hx. cbn [mbind option_bind].
  destruct (fill_b_spec s lo.2 hi.2) as (cb & -> & Ho & Hm); [lia..|]. cbn [mbind option_bind].
  rewrite slice_range_Some by lia. cbn [mbind option_bind].
  pose proof (position_spec x (take (hi.2 - lo.2) (drop lo.2 b))) as Hp. destruct (position x _) as [j|].
  - pose proof (lookup_lt_Some _ _ _ Hp) as Hj. rewrite length_part in Hj by lia. rewrite lookup_part in Hp by done.
    destruct (set_at_spec cb (lo.2 + j) false) as (cb' & E & Hl & Hset & Hoth); [destruct Ho; lia|].
    cbn [changed_b with_changed changed_a]. rewrite E. cbn [mbind option_bind]. eexists. split; [done|].
    assert (outside lo.2 hi.2 (changed_b s) cb') as Ho'.
    { eapply outside_trans; [exact Ho|]. split; [done|]. intros k ?. apply Hoth. lia. }
    eapply (leaves_none s (changed_a s) cb'); [apply outside_refl|done|done|].
    eapply (path_around _ _ _ _ lo.1 (lo.2 + j) 1); try lia.
    + split; [lia|]. split; [lia|]. intros k ?. replace k with 0 by lia. rewrite !Nat.add_0_r. congruence.
    + intros k ?. lia.
    + intros k ?. lia.
    + intros k ?. rewrite Hoth by lia. apply Hm. lia.
    + intros k ?. rewrite Hoth by lia. apply Hm. lia.
    + intros k ?. apply Hu1. lia.
    + intros k ?. by replace k with (lo.2 + j) by lia.
  - destruct (set_at_spec (changed_a s) lo.1 true) as (ca & E & Hl & Hset & Hoth); [lia|].
    cbn [changed_a with_changed changed_b]. rewrite E. cbn [mbind option_bind]. eexists. split; [done|].
    eapply (leaves_none s ca cb); [split; [done|intros k ?; apply Hoth; lia]|done|done|].
    apply path_filled; try lia; [|done]. intros k ?. by replace k with lo.1 by lia.
Qed.

Lemma one_b_spec s lo hi :
  open_box s lo hi -> scratch_ok s -> hi.1 <= length a -> hi.2 <= length b ->
  length (changed_a s) = length a -> length (changed_b s) = length b -> hi.2 = S lo.2 ->
  exists s', (y ← b !! lo.2;
              s ← fill_a s lo.1 hi.1;
              xa ← slice_range a lo.1 hi.1;
              match position y xa with
              | Some i => ca ← set_at (changed_a s) (lo.1 + i) false; Some (with_changed s ca (changed_b s))
              | None => cb ← set_at (changed_b s) lo.2 true; Some (with_changed s (changed_a s) cb)
              end) = Some s' /\ solved s s' lo hi.
Proof using Type.
  intros [Hl1 Hl2 Hu1 Hu2] Hs Hla Hlb Hca Hcb Hone.
  destruct (lookup_lt_is_Some_2 b lo.2 ltac:(lia)) as [y Hy]. rewrite Hy. cbn [mbind option_bind].
  destruct (fill_a_spec s lo.1 hi.1) as (ca & -> & Ho & Hm); [lia..|]. cbn [mbind option_bind].
  rewrite slice_range_Some by lia. cbn [mbind option_bind].
  pose proof (position_spec y (take (hi.1 - lo.1) (drop lo.1 a))) as Hp. destruct (position y _) as [i|].
  - pose proof (lookup_lt_Some _ _ _ Hp) as Hi. rewrite length_part in Hi by lia. rewrite lookup_part in Hp by done.
    destruct (set_at_spec ca (lo.1 + i) false) as (ca' & E & Hl & Hset & Hoth); [destruct Ho; lia|].
    cbn [changed_a with_changed changed_b]. rewrite E. cbn [mbind option_bind]. eexists. split; [done|].
    assert (outside lo.1 hi.1 (changed_a s) ca') as Ho'.
    { eapply outside_trans; [exact Ho|]. split; [done|]. intros k ?. apply Hoth. lia. }
    eapply (leaves_none s ca' (changed_b s)); [done|apply outside_refl|done|].
    eapply (path_around _ _ _ _ (lo.1 + i) lo.2 1); try lia.
    + split; [lia|]. split; [lia|]. intros k ?. replace k with 0 by lia. rewrite !Nat.add_0_r. congruence.
    + intros k ?. rewrite Hoth by lia. apply Hm. lia.
    + intros k ?. rewrite Hoth by lia. apply Hm. lia.
    + intros k ?. lia.
    + intros k ?. lia.
    + intros k ?. by replace k with (lo.1 + i) by lia.
    + intros k ?. apply Hu2. lia.
  - destruct (set_at_spec (changed_b s) lo.2 true) as (cb & E & Hl & Hset & Hoth); [lia|].
    cbn [changed_b with_changed changed_a]. rewrite E. cbn [mbind option_bind]. eexists. split; [done|].
    eapply (leaves_none s ca cb); [done|split; [done|intros k ?; apply Hoth; lia]|done|].
    apply path_filled; try lia; [done|]. intros k ?. by replace k with lo.2 by lia.
Qed.

(** Only the budgets differ. *)
Definition alike (s s' : Search) : Prop :=
  stack s' = stack s /\ changed_a s' = changed_a s /\ changed_b s' = changed_b s /\ anchors s' = anchors s.

Lemma solved_alike s s' s'' lo hi : alike s s' -> solved s' s'' lo hi -> solved s s'' lo hi.
Proof using Type.
  intros (E1 & E2 & E3 & _) (js & [H1 H2 H3 H4 ? ? ?]). exists js. split; try done; congruence.
Qed.

Lemma open_alike s s' lo hi : alike s s' -> open_box s lo hi -> open_box s' lo hi.
Proof using Type. intros (_ & Ea & Eb & _) [? ? ? ?]. split; rewrite ?Ea, ?Eb; done. Qed.

Lemma scratch_alike s s' : alike s s' -> scratch_ok s -> scratch_ok s'.
Proof using Type. intros (_ & _ & _ & E) Hs an. rewrite E. apply Hs. Qed.

(** Two boxes with equal text between them. *)
Lemma two_boxes s lo hi p q probe ex :
  open_box s lo hi -> scratch_ok s -> depth_ok probe ->
  lo.1 <= p.1 -> lo.2 <= p.2 -> p.1 <= q.1 -> q.1 <= hi.1 -> q.2 = p.2 + (q.1 - p.1) -> q.2 <= hi.2 ->
  same a b p.1 p.2 (q.1 - p.1) -> size_cost (size lo p) + size_cost (size q hi) < size_cost (size lo hi) ->
  solved s (with_stack s (job_new q hi probe ex :: job_new lo p probe ex :: stack s)) lo hi.
Proof using Type.
  intros Hop Hs ? ? ? ? ? Eq ? Hsame Hcost.
  assert (open_box s lo p) as Ho1 by (eapply open_part; [exact Hop|lia..]).
  assert (open_box s p q) as [_ _ Hu1 Hu2] by (eapply open_part; [exact Hop|lia..]).
  assert (open_box s q hi) as Ho2 by (eapply open_part; [exact Hop|lia..]).
  eapply (leaves_cuts _ _ _ [job_new lo p probe ex; job_new q hi probe ex]); [done|done|by apply Permutation_swap| | |].
  - apply (path_app _ _ _ _ _ _ [_] p.1 p.2); [by apply path_job|].
    apply (path_app _ _ _ _ _ _ [] q.1 q.2 [_]); [|by apply path_job].
    pose proof (path_run a b (changed_a s) (changed_b s) p.1 p.2 (q.1 - p.1) Hsame) as Hrun.
    rewrite <- Eq in Hrun. replace (p.1 + (q.1 - p.1)) with q.1 in Hrun by lia. by apply Hrun.
  - by repeat apply Forall_cons_2.
  - rewrite !cost_cons. unfold job_size. cbn. fold (size lo p) (size q hi). lia.
Qed.

Lemma half_box s lo hi in_a in_b probe ex :
  open_box s lo hi -> scratch_ok s -> depth_ok probe -> hi.1 <= length a -> hi.2 <= length b ->
  run_ok (take (hi.1 - lo.1) (drop lo.1 a)) (take (hi.2 - lo.2) (drop lo.2 b)) (in_a, in_b) ->
  0 < run_len (in_a, in_b) ->
  solved s (with_stack s
    (job_new (lo.1 + in_a.2, lo.2 + in_b.2) hi probe ex ::
     job_new lo (lo.1 + in_a.1, lo.2 + in_b.1) probe ex :: stack s)) lo hi.
Proof using Type.
  intros Hop Hs ? ? ? (Hle & Hend & Hsame) Hpos. pose proof (open_a _ _ _ Hop). pose proof (open_b _ _ _ Hop).
  unfold run_len in *. destruct in_a as [l h], in_b as [l' h']. cbn in *.
  destruct Hsame as (Hs1 & Hs2 & Hs3). rewrite length_part in Hs1 by lia. rewrite length_part in Hs2 by lia.
  apply two_boxes; cbn; try lia; try done.
  - replace (lo.1 + h - (lo.1 + l)) with (h - l) by lia. split; [lia|]. split; [lia|]. intros k Hk.
    specialize (Hs3 k Hk). rewrite !lookup_part in Hs3 by lia. by rewrite <- !Nat.add_assoc.
  - unfold size. cbn.
    pose proof (size_cost_le (lo.1 + l - lo.1 + (lo.2 + l' - lo.2))).
    pose proof (size_cost_le (hi.1 - (lo.1 + h) + (hi.2 - (lo.2 + h')))).
    rewrite (size_cost_pos (hi.1 - lo.1 + (hi.2 - lo.2))) by lia. lia.
Qed.

(** The shorter side found in the longer one. *)
Lemma found_same lo hi lo' hi' at_ (long short : list T) :
  lo <= hi -> hi <= length long -> lo' <= hi' -> hi' <= length short -> at_ + (hi' - lo') <= hi - lo ->
  take (length (take (hi' - lo') (drop lo' short))) (drop at_ (take (hi - lo) (drop lo long))) =
    take (hi' - lo') (drop lo' short) ->
  same long short (lo + at_) lo' (hi' - lo').
Proof using Type.
  intros ? ? ? ? ? E. rewrite length_part in E by lia. split; [lia|]. split; [lia|]. intros k Hk.
  pose proof (f_equal (fun l => l !! k) E) as Hl. cbn beta in Hl.
  rewrite !lookup_part in Hl by lia. by rewrite <- Nat.add_assoc.
Qed.

Lemma found_in_a s lo hi at_ :
  open_box s lo hi -> scratch_ok s -> length (changed_a s) = length a -> hi.1 <= length a -> hi.2 <= length b ->
  at_ + (hi.2 - lo.2) <= hi.1 - lo.1 -> same a b (lo.1 + at_) lo.2 (hi.2 - lo.2) ->
  exists s1 s2, fill_a s lo.1 (lo.1 + at_) = Some s1 /\ fill_a s1 (lo.1 + at_ + (hi.2 - lo.2)) hi.1 = Some s2 /\
    solved s s2 lo hi.
Proof using Type.
  intros [Hl1 Hl2 Hu1 Hu2] Hs Hca ? ? Hat Hsame.
  destruct (fill_a_spec s lo.1 (lo.1 + at_)) as (ca & -> & [Hlen Ho] & Hm); [lia..|].
  destruct (fill_a_spec (with_changed s ca (changed_b s)) (lo.1 + at_ + (hi.2 - lo.2)) hi.1) as (ca' & E & [Hlen' Ho'] & Hm');
    [lia|cbn; lia|]. eexists _, _. split; [done|]. split; [exact E|]. cbn in Hlen', Ho' |- *.
  apply (leaves_none s ca' (changed_b s)); [|apply outside_refl|done|].
  { split; [lia|]. intros i Hi. rewrite Ho', Ho by lia. done. }
  eapply (path_around _ _ _ _ (lo.1 + at_) lo.2 (hi.2 - lo.2)); try lia; try done.
  - intros k ?. rewrite Ho' by lia. by apply Hm.
  - intros k ?. lia.
  - intros k ?. lia.
  - intros k ?. rewrite Ho', Ho by lia. apply Hu1. lia.
  - intros k ?. apply Hu2. lia.
Qed.

Lemma found_in_b s lo hi at_ :
  open_box s lo hi -> scratch_ok s -> length (changed_b s) = length b -> hi.1 <= length a -> hi.2 <= length b ->
  at_ + (hi.1 - lo.1) <= hi.2 - lo.2 -> same a b lo.1 (lo.2 + at_) (hi.1 - lo.1) ->
  exists s1 s2, fill_b s lo.2 (lo.2 + at_) = Some s1 /\ fill_b s1 (lo.2 + at_ + (hi.1 - lo.1)) hi.2 = Some s2 /\
    solved s s2 lo hi.
Proof using Type.
  intros [Hl1 Hl2 Hu1 Hu2] Hs Hcb ? ? Hat Hsame.
  destruct (fill_b_spec s lo.2 (lo.2 + at_)) as (cb & -> & [Hlen Ho] & Hm); [lia..|].
  destruct (fill_b_spec (with_changed s (changed_a s) cb) (lo.2 + at_ + (hi.1 - lo.1)) hi.2) as (cb' & E & [Hlen' Ho'] & Hm');
    [lia|cbn; lia|]. eexists _, _. split; [done|]. split; [exact E|]. cbn in Hlen', Ho' |- *.
  apply (leaves_none s (changed_a s) cb'); [apply outside_refl| |done|].
  { split; [lia|]. intros i Hi. rewrite Ho', Ho by lia. done. }
  eapply (path_around _ _ _ _ lo.1 (lo.2 + at_) (hi.1 - lo.1)); try lia; try done.
  - intros k ?. lia.
  - intros k ?. lia.
  - intros k ?. rewrite Ho' by lia. by apply Hm.
  - intros k ?. apply Hu1. lia.
  - intros k ?. rewrite Ho', Ho by lia. apply Hu2. lia.
Qed.

Lemma half_shortcuts_spec p s lo hi probe ex :
  open_box s lo hi -> scratch_ok s -> length (changed_a s) = length a -> length (changed_b s) = length b ->
  hi.1 <= length a -> hi.2 <= length b -> depth_ok probe ->
  exists r, half_shortcuts a b p s lo.1 hi.1 lo.2 hi.2 probe ex = Some r /\
    match r with inl s' => solved s s' lo hi | inr s' => alike s s' end.
Proof using Ha Hb.
  intros Hop Hs Hca Hcb Hla Hlb Hp. unfold half_shortcuts. destruct (0 <? half_match_steps p)%Z; [|by eexists].
  pose proof (open_a _ _ _ Hop). pose proof (open_b _ _ _ Hop).
  rewrite !slice_range_Some by lia. cbn [mbind option_bind].
  set (xa := take (hi.1 - lo.1) (drop lo.1 a)). set (xb := take (hi.2 - lo.2) (drop lo.2 b)).
  assert (Forall elem_ok xa) by (by apply Forall_take, Forall_drop).
  assert (Forall elem_ok xb) by (by apply Forall_take, Forall_drop).
  assert (Hhalf : forall s1, alike s s1 -> exists r,
    ('(found, left_) ← half_match xa xb (half_left s1);
     let s := with_half s1 left_ in
     match found with
     | Some (in_a, in_b) =>
         Some (inl (with_stack s
           (job_new (lo.1 + in_a.2, lo.2 + in_b.2) (hi.1, hi.2) probe ex ::
            job_new (lo.1, lo.2) (lo.1 + in_a.1, lo.2 + in_b.1) probe ex :: stack s)))
     | None => Some (inr s)
     end) = Some r /\ match r with inl s' => solved s s' lo hi | inr s' => alike s s' end).
  { intros s1 Hal. destruct (half_match_spec xa xb (half_left s1)) as (r & bu & -> & Hr); [done..|].
    cbn [mbind option_bind]. destruct r as [[in_a in_b]|]; [|eexists; split; [done|exact Hal]].
    destruct (Hr _ eq_refl) as [Hok Hpos]. eexists. split; [done|].
    assert (alike s (with_half s1 bu)) as Hal' by exact Hal. eapply solved_alike; [exact Hal'|].
    rewrite <- !surjective_pairing.
    apply half_box; [by eapply open_alike|by eapply scratch_alike|done..]. }
  destruct (Nat.ltb_spec (length xb) (length xa)).
  - destruct (find_law xa xb (half_left s)) as (found & bu & -> & Hfound); [done..|]. cbn [mbind option_bind].
    destruct found as [at_|]; [|by apply Hhalf]. destruct (Hfound at_ eq_refl) as [Hat Heq].
    pose proof Hat as Hat'. unfold xa, xb in Hat'. rewrite !length_part in Hat' by lia.
    assert (same a b (lo.1 + at_) lo.2 (hi.2 - lo.2)) as Hsame by (apply (found_same lo.1 hi.1 lo.2 hi.2); (lia || done)).
    assert (alike s (with_half s bu)) as Hal by done.
    destruct (found_in_a (with_half s bu) lo hi at_) as (s1 & s2 & E1 & E2 & Hsol); [by eapply open_alike|by eapply scratch_alike|done..|].
    rewrite E1. cbn [mbind option_bind]. replace (length xb) with (hi.2 - lo.2) by (unfold xb; rewrite length_part; lia).
    rewrite E2. cbn [mbind option_bind]. eexists. split; [done|]. by eapply solved_alike.
  - destruct (find_law xb xa (half_left s)) as (found & bu & -> & Hfound); [done..|]. cbn [mbind option_bind].
    destruct found as [at_|]; [|by apply Hhalf]. destruct (Hfound at_ eq_refl) as [Hat Heq].
    pose proof Hat as Hat'. unfold xa, xb in Hat'. rewrite !length_part in Hat' by lia.
    assert (same b a (lo.2 + at_) lo.1 (hi.1 - lo.1)) as Hsame%same_sym by (apply (found_same lo.2 hi.2 lo.1 hi.1); (lia || done)).
    assert (alike s (with_half s bu)) as Hal by done.
    destruct (found_in_b (with_half s bu) lo hi at_) as (s1 & s2 & E1 & E2 & Hsol); [by eapply open_alike|by eapply scratch_alike|done..|].
    rewrite E1. cbn [mbind option_bind]. replace (length xa) with (hi.1 - lo.1) by (unfold xa; rewrite length_part; lia).
    rewrite E2. cbn [mbind option_bind]. eexists. split; [done|]. by eapply solved_alike.
Qed.

(** The ends of the box differ. *)
Definition ends_differ (lo hi : nat * nat) : Prop :=
  lo.1 < hi.1 -> lo.2 < hi.2 -> a !! lo.1 <> b !! lo.2 /\ a !! (hi.1 - 1) <> b !! (hi.2 - 1).

Lemma alike_work s w : alike s (with_work s w).
Proof using Type. done. Qed.
Hint Resolve alike_work : core.

Lemma try_exact_spec s lo hi depth probe ex :
  open_box s lo hi -> scratch_ok s -> lo.1 < hi.1 <= length a -> lo.2 < hi.2 <= length b -> ends_differ lo hi ->
  depth_ok depth -> depth_ok probe ->
  exists s' r, try_exact a b s lo.1 hi.1 lo.2 hi.2 depth probe ex = Some (s', r) /\
    match r with
    | None => solved s s' lo hi
    | Some (f, r) => alike s s' /\ in_box lo.1 hi.1 lo.2 hi.2 f /\ in_box lo.1 hi.1 lo.2 hi.2 r
    end.
Proof using Ha Hb Hsa Hsb.
  intros Hop Hs Hla Hlb Hends ? ?. unfold try_exact. destruct (Hends ltac:(lia) ltac:(lia)) as [Hh Hl].
  destruct (middle_spec a b Ha Hb Hsa Hsb lo.1 hi.1 lo.2 hi.2 Hla Hlb depth Hh Hl) as (split & steps & -> & Hsp); [done|].
  cbn [mbind option_bind]. set (s1 := with_work s (work_left s - steps)%Z).
  destruct split as [x y|f r]; [|by eexists _, _; split].
  destruct Hsp as [Hx Hy]. cbn in Hx, Hy.
  rewrite <- !surjective_pairing. destruct (_ && _) eqn:E.
  - apply andb_true_iff in E as [E1%negb_true_iff E2%negb_true_iff].
    apply bool_decide_eq_false in E1, E2. eexists _, None. split; [done|].
    eapply solved_alike; [apply (alike_work s (work_left s - steps)%Z)|].
    assert (open_box s lo (x, y)) as [Ho1 Ho1' _ _] by (eapply open_part; [exact Hop|cbn; lia..]).
    pose proof (rising_size lo (x, y) Ho1 Ho1' (not_eq_sym E1)) as Hp1.
    pose proof (rising_size (x, y) hi ltac:(cbn; lia) ltac:(cbn; lia) E2) as Hp2.
    apply (two_boxes s1 lo hi (x, y) (x, y));
      [by apply (open_alike s); [apply alike_work|]|done|done|cbn; lia..| |].
    + cbn. rewrite Nat.sub_diag. apply same_0; lia.
    + rewrite !size_cost_pos by (first [done|unfold size; lia]). unfold size in *. cbn in *. lia.
  - eexists _, _. split; [done|]. split; [done|]. unfold in_box. lia.
Qed.

Lemma search_box_spec p s lo hi probe ex :
  open_box s lo hi -> scratch_ok s -> lo.1 < hi.1 <= length a -> lo.2 < hi.2 <= length b -> ends_differ lo hi ->
  length (changed_a s) = length a -> length (changed_b s) = length b ->
  policy_ok p -> depth_ok probe ->
  exists s', search_box a b p s lo.1 hi.1 lo.2 hi.2 probe ex = Some s' /\ solved s s' lo hi.
Proof using Ha Hb Hsa Hsb.
  intros Hop Hs Hla Hlb Hends Hca Hcb Hpp Hp. unfold search_box.
  destruct (try_exact_spec s lo hi probe probe ex) as (s1 & r1 & -> & Hr1); [done..|]. cbn [mbind option_bind].
  destruct r1 as [[f r]|]; [|by exists s1]. destruct Hr1 as (Hal1 & Hf & Hr).
  assert (Hgreedy : forall s' f r, alike s s' -> in_box lo.1 hi.1 lo.2 hi.2 f -> in_box lo.1 hi.1 lo.2 hi.2 r ->
            exists s'', greedy_cut s' lo.1 hi.1 lo.2 hi.2 f r probe = Some s'' /\ solved s s'' lo hi).
  { intros s' f' r' Hal Hf' Hr'.
    destruct (greedy_cut_spec s' lo hi f' r' probe) as (s'' & -> & Hsol);
      [by eapply open_alike|by eapply scratch_alike| | |done..|].
    - destruct Hal as (_ & -> & _). lia.
    - destruct Hal as (_ & _ & -> & _). lia.
    - exists s''. split; [done|]. by eapply solved_alike. }
  destruct ex; [|by apply Hgreedy]. rewrite !usub_Some by lia. cbn [mbind option_bind].
  set (depth := Z.min _ _).
  assert (exists s2 r2, (if (probe <? depth)%Z then try_exact a b s1 lo.1 hi.1 lo.2 hi.2 depth probe true
                         else Some (s1, Some (f, r))) = Some (s2, r2) /\
            match r2 with
            | None => solved s s2 lo hi
            | Some (f, r) => alike s s2 /\ in_box lo.1 hi.1 lo.2 hi.2 f /\ in_box lo.1 hi.1 lo.2 hi.2 r
            end) as (s2 & r2 & -> & Hr2).
  { destruct (Z.ltb_spec probe depth); [|by eexists _, _; split].
    destruct (try_exact_spec s1 lo hi depth probe true) as (s2 & r2 & -> & Hr2);
      [by eapply open_alike|by eapply scratch_alike|done|done|done| |done|].
    { unfold policy_ok, depth_ok, exhaustive_depth in *. lia. }
    eexists _, _. split; [done|]. destruct r2 as [[f2 r2]|]; [|by eapply solved_alike].
    destruct Hr2 as ((? & ? & ? & ?) & ? & ?). destruct Hal1 as (? & ? & ? & ?). split; [|done].
    repeat split; congruence. }
  cbn [mbind option_bind]. destruct r2 as [[f2 r2]|]; [|by exists s2]. destruct Hr2 as (Hal2 & Hf2 & Hg2).
  destruct (@anchored T HE) eqn:Hanch; [|by apply Hgreedy].
  match goal with |- context [split_at_anchors _ _ (anchors ?s3) _ _ _ _ _ _] => set (s3' := s3) end.
  assert (alike s s3') as Hal3 by exact Hal2. pose proof (open_alike _ _ _ _ Hal3 Hop) as [_ _ Hu1 Hu2].
  destruct (split_at_anchors_spec a b Ha Hb (changed_a s3') (changed_b s3') (anchors s3') lo.1 hi.1 lo.2 hi.2
              (DiffMyers.probe p) (stack s3')) as (an & st & E & Han & Hst);
    [done|by eapply scratch_alike|lia|lia|done|done|].
  rewrite E. cbn [mbind option_bind]. destruct st as [st|].
  - destruct Hst as (js & Hperm & Hpath & Hcost & Hpr). eexists. split; [done|]. eapply solved_alike; [exact Hal3|].
    exists js. split; try done.
    + intros an' [= <-]. done.
    + eapply Forall_impl; [exact Hpr|]. intros q ->. apply Hpp.
  - destruct (greedy_cut_spec (with_anchors s3' an) lo hi f2 r2 probe) as (s4 & -> & Hsol); try done.
    + by destruct (open_alike _ _ _ _ Hal3 Hop).
    + intros an' [= <-]. done.
    + cbn. destruct Hal3 as (_ & Ea & _ & _). cbn in Ea. rewrite Ea. lia.
    + cbn. destruct Hal3 as (_ & _ & Eb & _). cbn in Eb. rewrite Eb. lia.
    + eexists. split; [done|]. eapply solved_alike; [exact Hal3|]. destruct Hsol as (js & [? ? ? ? ? ? ?]). by exists js.
Qed.

(** *** The box of one round *)
Lemma solve_box_spec p s lo hi probe ex :
  open_box s lo hi -> scratch_ok s -> hi.1 <= length a -> hi.2 <= length b -> ends_differ lo hi ->
  length (changed_a s) = length a -> length (changed_b s) = length b ->
  policy_ok p -> depth_ok probe ->
  exists s', solve_box a b p s lo.1 hi.1 lo.2 hi.2 probe ex = Some s' /\ solved s s' lo hi.
Proof using Ha Hb Hsa Hsb.
  intros Hop Hs Hla Hlb Hends Hca Hcb Hpp Hp. pose proof (open_a _ _ _ Hop). pose proof (open_b _ _ _ Hop).
  unfold solve_box. destruct (Nat.eqb_spec lo.1 hi.1) as [Ea|Ea].
  { destruct (fill_b_spec s lo.2 hi.2) as (cb & -> & Ho & Hm); [lia..|]. eexists. split; [done|].
    apply leaves_none; [apply outside_refl|done|done|]. apply path_filled; try done. intros k ?. lia. }
  destruct (Nat.eqb_spec lo.2 hi.2) as [Eb|Eb].
  { destruct (fill_a_spec s lo.1 hi.1) as (ca & -> & Ho & Hm); [lia..|]. eexists. split; [done|].
    apply leaves_none; [done|apply outside_refl|done|]. apply path_filled; try done. intros k ?. lia. }
  destruct (Nat.eqb_spec (hi.1 - lo.1) 1); [apply one_a_spec; (done || lia)|].
  destruct (Nat.eqb_spec (hi.2 - lo.2) 1); [apply one_b_spec; (done || lia)|].
  destruct (half_shortcuts_spec p s lo hi probe ex) as (r & -> & Hr); [done..|]. cbn [mbind option_bind].
  destruct r as [s1|s1]; [by exists s1|].
  assert (open_box s1 lo hi) by (by eapply open_alike). assert (scratch_ok s1) by (by eapply scratch_alike).
  assert (changed_a s1 = changed_a s /\ changed_b s1 = changed_b s) as [Eca Ecb] by (destruct Hr as (_ & ? & ? & _); done).
  destruct (work_left s1 <=? 0)%Z.
  - destruct (fill_both_spec s1 lo hi) as (s2 & -> & Hsol); [rewrite Eca; lia|rewrite Ecb; lia|done|].
    exists s2. split; [done|]. by eapply solved_alike.
  - destruct (search_box_spec p s1 lo hi probe ex) as (s2 & -> & Hsol); try done; try lia; [by rewrite Eca|by rewrite Ecb|].
    exists s2. split; [done|]. by eapply solved_alike.
Qed.

Lemma job_step_spec p s q :
  open_box s (alo q, blo q) (ahi q, bhi q) -> scratch_ok s -> ahi q <= length a -> bhi q <= length b ->
  length (changed_a s) = length a -> length (changed_b s) = length b ->
  policy_ok p -> depth_ok (job_probe q) ->
  exists s', job_step a b p s q = Some s' /\ solved s s' (alo q, blo q) (ahi q, bhi q).
Proof using Ha Hb Hsa Hsb.
  intros Hop Hs Hla Hlb Hca Hcb Hpp Hp. destruct Hop as [Hl1 Hl2 Hu1 Hu2]. cbn in Hl1, Hl2, Hu1, Hu2.
  unfold job_step. rewrite (slice_range_Some a (alo q) (ahi q)), (slice_range_Some b (blo q) (bhi q)) by lia.
  cbn [mbind option_bind]. rewrite prefix_law by (by apply Forall_take, Forall_drop). cbn [mbind option_bind].
  set (pre := prefix_loop _ _).
  destruct (prefix_same a b (alo q) (blo q) (ahi q - alo q) (bhi q - blo q) pre) as (Hp1 & Hp2 & Hps & Hpt);
    [lia|lia|done|]. clearbody pre.
  rewrite !slice_range_Some by lia. cbn [mbind option_bind].
  rewrite suffix_law by (by apply Forall_take, Forall_drop). cbn [mbind option_bind].
  set (suf := suffix_loop _ _).
  destruct (suffix_same a b (alo q + pre) (blo q + pre) (ahi q - (alo q + pre)) (bhi q - (blo q + pre)) suf)
    as (Hs1 & Hs2 & Hss & Hst); [lia|lia|done|]. clearbody suf.
  rewrite !usub_Some by lia. cbn [mbind option_bind].
  set (lo := (alo q + pre, blo q + pre)). set (hi := (ahi q - suf, bhi q - suf)).
  assert (open_box s lo hi) as Hop by (split; cbn; [lia|lia|intros k ?; apply Hu1; lia|intros k ?; apply Hu2; lia]).
  destruct (solve_box_spec p s lo hi (job_probe q) (exhaustive q)) as (s' & E & js & [? Hpath Hoa Hob ? ? ?]);
    try done; cbn; try lia.
  { intros ? ?. cbn in *. split; [apply Hpt; lia|].
    replace (ahi q - suf - 1) with (alo q + pre + (ahi q - (alo q + pre) - 1 - suf)) by lia.
    replace (bhi q - suf - 1) with (blo q + pre + (bhi q - (blo q + pre) - 1 - suf)) by lia. apply Hst; lia. }
  exists s'. split; [exact E|]. exists js. split; try done.
  - unfold path_of. cbn [fst snd].
    assert (unmarked (changed_a s') (alo q) (alo q + pre) /\ unmarked (changed_a s') (ahi q - suf) (ahi q)) as [U1 U2].
    { destruct Hoa as [_ Ho]. cbn in Ho. split; intros k ?; rewrite Ho by lia; apply Hu1; lia. }
    assert (unmarked (changed_b s') (blo q) (blo q + pre) /\ unmarked (changed_b s') (bhi q - suf) (bhi q)) as [U3 U4].
    { destruct Hob as [_ Ho]. cbn in Ho. split; intros k ?; rewrite Ho by lia; apply Hu2; lia. }
    eapply (path_app _ _ _ _ _ _ []); [by apply path_run|].
    rewrite <- (app_nil_r js). eapply (path_app _ _ _ _ _ _ js); [exact Hpath|]. cbn.
    pose proof (path_run a b (changed_a s') (changed_b s') (ahi q - suf) (bhi q - suf) suf) as Hrun.
    replace (ahi q - suf + suf) with (ahi q) in Hrun by lia. replace (bhi q - suf + suf) with (bhi q) in Hrun by lia.
    apply Hrun; [|done|done].
    replace (alo q + pre + (ahi q - (alo q + pre) - suf)) with (ahi q - suf) in Hss by lia.
    by replace (blo q + pre + (bhi q - (blo q + pre) - suf)) with (bhi q - suf) in Hss by lia.
  - eapply outside_wider; [exact Hoa|cbn; lia..].
  - eapply outside_wider; [exact Hob|cbn; lia..].
  - eapply Nat.lt_le_trans; [eassumption|]. apply size_cost_mono. unfold size. cbn. lia.
Qed.

(** *** The loop *)
Record search_ok (s : Search) (boxes : list Job) : Prop := {
  search_stack : stack s ≡ₚ boxes;
  search_path : path a b (changed_a s) (changed_b s) 0 0 boxes (length a) (length b);
  search_a : length (changed_a s) = length a;
  search_b : length (changed_b s) = length b;
  search_scratch : scratch_ok s;
  search_probes : probes_ok (stack s)
}.

Lemma run_loop_spec p fuel s boxes :
  policy_ok p -> search_ok s boxes -> cost (stack s) < fuel ->
  exists s', run_loop_ fuel a b p s = Some s' /\ search_ok s' [].
Proof using Ha Hb Hsa Hsb.
  intros Hpp. revert s boxes. induction fuel as [|fuel IH]; [lia|]. intros s boxes [Hst Hpath Hca Hcb Hs Hpr] Hf.
  cbn [run_loop_]. destruct (stack s) as [|q st] eqn:Estack.
  { apply Permutation_nil_l in Hst as <-. exists s. split; [done|]. split; try done; by rewrite Estack. }
  assert (q ∈ boxes) as (l1 & l2 & ->)%list_elem_of_split by (rewrite <- Hst; constructor).
  rewrite <- Permutation_middle in Hst. apply Permutation_cons_inv in Hst.
  pose proof (path_split _ _ _ _ _ _ _ _ _ _ _ Hpath) as (Hp1 & Hp2 & ? & ? & ? & ?).
  pose proof (path_le _ _ _ _ _ _ _ _ _ Hp2) as [? ?].
  apply Forall_cons in Hpr as [Hq Hpr].
  destruct (job_step_spec p (with_stack s st) q) as (s1 & -> & js & [Hperm Hpath' Hoa Hob Hsc Hpj Hcost]); try done.
  cbn [mbind option_bind]. cbn [stack with_stack] in Hperm.
  apply (IH s1 (l1 ++ js ++ l2)).
  - split.
    + rewrite Hperm, Hst. solve_Permutation.
    + eapply path_replace; eauto.
    + by rewrite (proj1 Hoa).
    + by rewrite (proj1 Hob).
    + done.
    + unfold probes_ok. rewrite Hperm. by apply Forall_app.
  - rewrite (cost_perm _ _ Hperm), cost_app. rewrite cost_cons in Hf. unfold size in Hcost. cbn in Hcost. fold (job_size q) in Hcost. lia.
Qed.

Lemma run_spec p :
  policy_ok p ->
  exists ca cb, run a b p (replicate (length a) false) (replicate (length b) false) = Some (ca, cb) /\
    length ca = length a /\ length cb = length b /\ marks a b ca cb 0 0.
Proof using Ha Hb Hsa Hsb.
  intros Hpp. unfold run. rewrite (proj2 (Z.leb_gt _ _)) by (unfold short in *; lia).
  match goal with |- context [run_loop_ _ _ _ _ ?s] => set (s0 := s) end.
  destruct (run_loop_spec p (2 * (length a + length b) + 2) s0 (stack s0)) as (s' & -> & [_ Hpath Hca Hcb _ _]); [done| | |].
  - split; cbn; try done; rewrite ?length_replicate; try done.
    + apply (path_box a b _ _ (job_new (0, 0) (length a, length b) (probe p) true)); cbn; try lia.
      * intros k ?. apply lookup_replicate_2. lia.
      * intros k ?. apply lookup_replicate_2. lia.
      * apply path_end.
    + constructor; [apply Hpp|constructor].
  - cbn. pose proof (size_cost_le (job_size (job_new (0, 0) (length a, length b) (probe p) true))) as Hc.
    unfold job_size in *. cbn in *. lia.
  - cbn [mbind option_bind]. eexists _, _. split; [done|]. split; [done|]. split; [done|]. by apply path_marks.
Qed.
End Solve.

(** ** The search *)

(** The elements that are not marked. *)
Fixpoint rest_of {T} (s : list T) (changed : list bool) : list T :=
  match s, changed with
  | x :: s, c :: changed => if (c : bool) then rest_of s changed else x :: rest_of s changed
  | _, _ => []
  end.

Lemma rest_step {T} (s : list T) (changed : list bool) i (c : bool) :
  length changed = length s -> changed !! i = Some c ->
  exists x, s !! i = Some x /\
    rest_of (drop i s) (drop i changed) =
      (if c then [] else [x]) ++ rest_of (drop (S i) s) (drop (S i) changed).
Proof.
  intros Hl Hc. destruct (lookup_lt_is_Some_2 s i) as [x Hx]; [rewrite <- Hl; by eapply lookup_lt_Some|].
  exists x. split; [done|]. rewrite (drop_S s x i), (drop_S changed c i) by done. cbn. by destruct c.
Qed.

Lemma marks_rest {T} (a b : list T) ca cb i j :
  length ca = length a -> length cb = length b -> marks a b ca cb i j ->
  rest_of (drop i a) (drop i ca) = rest_of (drop j b) (drop j cb).
Proof.
  intros La Lb. induction 1 as [|i j Hi _ IH|i j Hj _ IH|i j Hi Hj E _ IH].
  - by rewrite !drop_ge by lia.
  - destruct (rest_step a ca i true La Hi) as (x & _ & ->). exact IH.
  - destruct (rest_step b cb j true Lb Hj) as (x & _ & ->). exact IH.
  - destruct (rest_step a ca i false La Hi) as (x & Hx & ->).
    destruct (rest_step b cb j false Lb Hj) as (y & Hy & ->). rewrite IH. congruence.
Qed.

(** C27. For texts of any kind of element, shorter than [MAX_LEN], and any policy whose
    probe and exhaustive limit are values of [i32], the search for a short edit script
    returns (the fuel, two rounds an element, is never used up, and no read, subtraction
    or split is out of range): it marks elements of both texts so that the unmarked
    ones, in order, are the same. *)
Theorem search_ends `{ElemLaws T} (a b : list T) (p : Policy)
    (Ha : Forall elem_ok a) (Hb : Forall elem_ok b) (Hsa : short a) (Hsb : short b) (Hp : policy_ok p) :
  exists ca cb, run a b p (replicate (length a) false) (replicate (length b) false) = Some (ca, cb) /\
    length ca = length a /\ length cb = length b /\ rest_of a ca = rest_of b cb.
Proof.
  destruct (run_spec a b Ha Hb Hsa Hsb p Hp) as (ca & cb & E & La & Lb & Hm). exists ca, cb. splits; [done..|].
  by apply marks_rest in Hm.
Qed.

Definition example_policy : Policy :=
  {| DiffMyers.probe := 64; exhaustive_max := 512; exhaustive_per_elem := 1; exhaustive_quota := 67108864; work := 4096;
     half_match_steps := 0 |}%Z.

Lemma search_ends_witness :
  exists ca cb, run (T := u32) [1; 2; 3; 4; 5]%Z [1; 3; 9; 5]%Z example_policy (replicate 5 false) (replicate 4 false)
      = Some (ca, cb) /\ length ca = 5 /\ length cb = 4 /\
    rest_of [1; 2; 3; 4; 5]%Z ca = rest_of [1; 3; 9; 5]%Z cb.
Proof.
  apply (search_ends (T := u32) [1; 2; 3; 4; 5]%Z [1; 3; 9; 5]%Z example_policy);
    [repeat constructor; discriminate|repeat constructor; discriminate|reflexivity|reflexivity|by repeat split].
Defined.
