(* ===== verification/DiffLines.v ===== *)
(** * The diff of lines (text_diff/lib.rs)

    [diff_lines]: the common head and tail snapped to line boundaries, the lines between
    interned to numbers ([tokenize]), the lines without a counterpart left out of the
    search, and the hunks of lines turned back to bytes.

    The result is proved a script of the two texts, for all texts: with [patch], it
    rebuilds the new text; its hunks are proper, apart, and on line boundaries.  The
    interner is proved to number the lines by their first occurrence, whatever the hash. *)

From S2P Require Import Prelude Bytes Wyhash DiffHunks DiffElems DiffMyers DiffSearch.

#[local] Open Scope nat_scope.

Definition NEWLINE : Z := 10.
Definition EMPTY : Z := u32_max.

(** ** The interner *)
Record Interner := { slots : list (Z * Z); mask : Z; lines : list bytes }.

Definition next_power_of_two (n : nat) : nat := 2 ^ Nat.log2_up n.
Definition with_capacity (n : nat) : Interner :=
  let cap := next_power_of_two (Nat.max (n * 2) 16) in
  {| slots := replicate cap (0, EMPTY)%Z; mask := (Z.of_nat cap - 1)%Z; lines := [] |}.

(** The probe from slot [i] on.  The id is a [u32]. *)
Fixpoint probe_loop (fuel : nat) (t : Interner) (tag : Z) (line : bytes) (i : Z) : option (Interner * Z) :=
  match fuel with
  | 0 => None
  | S fuel =>
      slot ← slots t !! Z.to_nat i;
      if (slot.2 =? EMPTY)%Z then
        let id := wrap32 (Z.of_nat (length (lines t))) in
        Some ({| slots := <[Z.to_nat i := (tag, id)]> (slots t); mask := mask t; lines := lines t ++ [line] |}, id)
      else
        found ← (if (slot.1 =? tag)%Z then l ← lines t !! Z.to_nat slot.2; Some (bool_decide (l = line)) else Some false);
        if (found : bool) then Some (t, slot.2)
        else probe_loop fuel t tag line (Z.land (i + 1) (mask t))
  end.

Definition intern (t : Interner) (line : bytes) : option (Interner * Z) :=
  h ← Wyhash.hash line;
  let tag := wrap32 (Z.shiftr h 32) in
  probe_loop (length (slots t)) t tag line (Z.land h (mask t)).

(** ** Lines of a text *)
Fixpoint line_ends_loop (fuel : nat) (text : bytes) (base at_ : nat) (out : list nat) : option (list nat) :=
  match fuel with
  | 0 => None
  | S fuel =>
      rest ← slice_from text at_;
      match index_of_char rest NEWLINE with
      | Some i => let at_ := at_ + (i + 1) in line_ends_loop fuel text base at_ (out ++ [as_u32 (base + at_)])
      | None => Some out
      end
  end.
Definition line_ends (text : bytes) (base : nat) (out : list nat) : option (list nat) :=
  line_ends_loop (S (length text)) text base 0 out.

(** Pass 2 of [tokenize]: from [start] to each of the offsets. *)
Fixpoint intern_lines (text : bytes) (base start : nat) (offs : list nat) (t : Interner) (ids : list u32) :
    option (Interner * list u32) :=
  match offs with
  | [] => Some (t, ids)
  | e :: offs =>
      end_ ← usub e base;
      line ← slice_range text start end_;
      '(t, id) ← intern t line;
      intern_lines text base end_ offs t (ids ++ [id : u32])
  end.

Definition tokenize (text : bytes) (base : nat) (t : Interner) (ids : list u32) (offs : list nat) :
    option (Interner * list u32 * list nat) :=
  let first := length offs in
  offs ← line_ends text base (offs ++ [as_u32 base]);
  let end_ := as_u32 (base + length text) in
  let offs := if bool_decide (last offs = Some end_) then offs else offs ++ [end_] in
  '(t, ids) ← intern_lines text base 0 (drop (first + 1) offs) t ids;
  Some (t, ids, offs).

(** ** A middle of one line *)
Definition mk_hunk (base : nat) (swapped : bool) (o_lo o_hi m_lo m_hi : nat) : Hunk :=
  if swapped then {| a_lo := base + m_lo; a_hi := base + m_hi; b_lo := base + o_lo; b_hi := base + o_hi |}
  else {| a_lo := base + o_lo; a_hi := base + o_hi; b_lo := base + m_lo; b_hi := base + m_hi |}.

Fixpoint one_vs_loop (fuel : nat) (one many : bytes) (base : nat) (swapped : bool) (start : nat) : option (list Hunk) :=
  match fuel with
  | 0 => None
  | S fuel =>
      if start <? length many then
        rest ← slice_from many start;
        let end_ := match index_of_char rest NEWLINE with Some i => start + i + 1 | None => length many end in
        line ← slice_range many start end_;
        if bool_decide (line = one) then
          Some ((if 0 <? start then [mk_hunk base swapped 0 0 0 start] else []) ++
                (if end_ <? length many then [mk_hunk base swapped (length one) (length one) end_ (length many)] else []))
        else one_vs_loop fuel one many base swapped end_
      else Some [mk_hunk base swapped 0 (length one) 0 (length many)]
  end.
Definition one_vs_lines (one many : bytes) (base : nat) (swapped : bool) : option (list Hunk) :=
  one_vs_loop (S (length many)) one many base swapped 0.

(** The closure [single]. *)
Definition single (m : bytes) : bool :=
  match index_of_char m NEWLINE with None => true | Some i => i + 1 =? length m end.

(** ** Lines that occur on one side only *)

(** [occ[t as usize][side] += 1] *)
Definition bump_occ (second : bool) (occ : list (nat * nat)) (t : u32) : option (list (nat * nat)) :=
  c ← occ !! Z.to_nat t;
  set_at occ (Z.to_nat t) (if second then (c.1, c.2 + 1) else (c.1 + 1, c.2)).
Fixpoint count_occ (second : bool) (ts : list u32) (occ : list (nat * nat)) : option (list (nat * nat)) :=
  match ts with
  | [] => Some occ
  | t :: ts => occ ← bump_occ second occ t; count_occ second ts occ
  end.

(** The lines that survive, with their places; the others are marked. *)
Fixpoint survivors (second : bool) (occ : list (nat * nat)) (ts : list u32) (i : nat) (changed : list bool)
    (r : list u32) (map_ : list nat) : option (list bool * list u32 * list nat) :=
  match ts with
  | [] => Some (changed, r, map_)
  | t :: ts =>
      c ← occ !! Z.to_nat t;
      if (if second then c.1 else c.2) =? 0 then
        changed ← set_at changed i true;
        survivors second occ ts (S i) changed r map_
      else survivors second occ ts (S i) changed (r ++ [t]) (map_ ++ [i])
  end.

Fixpoint write_back (rchanged : list bool) (ri : nat) (map_ : list nat) (changed : list bool) : option (list bool) :=
  match rchanged with
  | [] => Some changed
  | c :: rchanged =>
      changed ← (if (c : bool) then i ← map_ !! ri; set_at changed i true else Some changed);
      write_back rchanged (S ri) map_ changed
  end.

Definition LINES : Policy := {|
  probe := 512;
  exhaustive_max := 4096;
  exhaustive_per_elem := 2048;
  exhaustive_quota := 60000000;
  work := 24000000;
  half_match_steps := 0
|}.
Definition LINE_WORK_PER_TOKEN : Z := 32%Z.

Definition with_work_of (p : Policy) (w : Z) : Policy := {|
  probe := probe p;
  exhaustive_max := exhaustive_max p;
  exhaustive_per_elem := exhaustive_per_elem p;
  exhaustive_quota := exhaustive_quota p;
  work := w;
  half_match_steps := half_match_steps p
|}.

(** The marks of the lines [ta] and [tb], of [uniq] kinds. *)
Definition mark_lines (ta tb : list u32) (uniq : nat) : option (list bool * list bool) :=
  occ ← count_occ false ta (replicate uniq (0, 0));
  occ ← count_occ true tb occ;
  '(changed_a, ra, map_a) ← survivors false occ ta 0 (replicate (length ta) false) [] [];
  '(changed_b, rb, map_b) ← survivors true occ tb 0 (replicate (length tb) false) [] [];
  if negb (bool_decide (ra = [])) && negb (bool_decide (rb = [])) then
    let n := Z.of_nat (length ra + length rb) in
    let policy := with_work_of LINES (work LINES + n * LINE_WORK_PER_TOKEN) in
    '(rchanged_a, rchanged_b) ← run ra rb policy (replicate (length ra) false) (replicate (length rb) false);
    changed_a ← write_back rchanged_a 0 map_a changed_a;
    changed_b ← write_back rchanged_b 0 map_b changed_b;
    Some (changed_a, changed_b)
  else
    changed_a ← fill_true changed_a 0 (length changed_a);
    changed_b ← fill_true changed_b 0 (length changed_b);
    Some (changed_a, changed_b).

(** Hunks of lines, in bytes. *)
Definition hunk_bytes (offs_a offs_b : list nat) (h : Hunk) : option Hunk :=
  al ← offs_a !! a_lo h;
  ah ← offs_a !! a_hi h;
  bl ← offs_b !! b_lo h;
  bh ← offs_b !! b_hi h;
  Some {| a_lo := al; a_hi := ah; b_lo := bl; b_hi := bh |}.

(** The search proper, over the middles [ma] and [mb] that start at [head]. *)
Definition diff_middle (ma mb : bytes) (head : nat) : option (list Hunk) :=
  let est_a := count_char ma NEWLINE + 1 in
  let est_b := count_char mb NEWLINE + 1 in
  '(t, ta, offs_a) ← tokenize ma head (with_capacity (est_a + est_b)) [] [];
  '(t, tb, offs_b) ← tokenize mb head t [] [];
  '(changed_a, changed_b) ← mark_lines ta tb (length (lines t));
  hunks ← hunks_from_changed ta tb changed_a changed_b [];
  mapM (hunk_bytes offs_a offs_b) hunks.

(** The end of the common head, back at a line's start. *)
Definition snap_head (a : bytes) (p : nat) : option nat :=
  at_start ← (if 0 <? p then c ← a !! (p - 1); Some (c =? NEWLINE)%Z else Some false);
  if (at_start : bool) then Some p
  else
    head ← slice_range a 0 p;
    Some (match last_index_of_char head NEWLINE with Some i => i + 1 | None => 0 end).

(** The starts of the common tail, on to a line's start. *)
Definition at_line_start (s : bytes) (at_ head : nat) : option bool :=
  if at_ =? head then Some true else i ← usub at_ 1; c ← s !! i; Some (c =? NEWLINE)%Z.
Definition snap_ends (a b : bytes) (head s : nat) : option (nat * nat) :=
  a_end ← usub (length a) s;
  b_end ← usub (length b) s;
  ok_a ← at_line_start a a_end head;
  ok_b ← at_line_start b b_end head;
  if ok_a && ok_b : bool then Some (a_end, b_end)
  else
    tail ← slice_from a a_end;
    Some (match index_of_char tail NEWLINE with
          | Some i => (a_end + (i + 1), b_end + (i + 1))
          | None => (length a, length b)
          end).

(** The hunks of the middles, before they are slid. *)
Definition middle_hunks (ma mb : bytes) (head a_end b_end : nat) : option (list Hunk) :=
  if (length ma =? 0) || (length mb =? 0) then
    Some [{| a_lo := head; a_hi := a_end; b_lo := head; b_hi := b_end |}]
  else if single ma then one_vs_lines ma mb head false
  else if single mb then one_vs_lines mb ma head true
  else diff_middle ma mb head.

Definition diff_lines (a b : bytes) : option (list Hunk) :=
  p ← common_prefix (T := u8) a b;
  if (p =? length a) && (p =? length b) then Some []
  else if (MAX_LEN <=? Z.of_nat (Nat.max (length a) (length b)))%Z then
    Some [{| a_lo := 0; a_hi := length a; b_lo := 0; b_hi := length b |}]
  else
    head ← snap_head a p;
    ta ← slice_from (A := u8) a head;
    tb ← slice_from (A := u8) b head;
    s ← common_suffix (T := u8) ta tb;
    '(a_end, b_end) ← snap_ends a b head s;
    ma ← slice_range a head a_end;
    mb ← slice_range b head b_end;
    hunks ← middle_hunks ma mb head a_end b_end;
    slide_line_hunks (T := u8) hunks a b.

(** ** The interner numbers lines by their first occurrence *)

(** Without a table: the lines so far, and the number of the next one. *)
Definition number (known : list bytes) (line : bytes) : list bytes * nat :=
  match list_find (eq line) known with
  | Some (i, _) => (known, i)
  | None => (known ++ [line], length known)
  end.
Fixpoint number_all (known : list bytes) (ls : list bytes) : list bytes * list nat :=
  match ls with
  | [] => (known, [])
  | l :: ls =>
      let '(known, i) := number known l in
      let '(known, is_) := number_all known ls in
      (known, i :: is_)
  end.

Lemma filter_all {A} (P : A -> Prop) `{!forall x, Decision (P x)} l : Forall P l -> filter P l = l.
Proof. induction 1 as [|x l Hx _ IH]; [done|]. by rewrite filter_cons_True, IH. Qed.

Lemma filter_insert_new {A} (P : A -> Prop) `{!forall x, Decision (P x)} l i x y :
  l !! i = Some x -> ~ P x -> P y -> length (filter P (<[i := y]> l)) = S (length (filter P l)).
Proof.
  intros Hi Hx Hy. pose proof (lookup_lt_Some _ _ _ Hi). rewrite insert_take_drop by done.
  rewrite <- (take_drop_middle l i x Hi) at 3. rewrite !filter_app, filter_cons_True, filter_cons_False by done.
  rewrite !length_app. cbn. lia.
Qed.

Section Table.
Implicit Types t : Interner.

Definition slot_count t : Z := Z.of_nat (length (slots t)).
Definition tag_of (h : Z) : Z := wrap32 (Z.shiftr h 32).
Definition used (s : Z * Z) : Prop := s.2 <> EMPTY.
#[local] Instance used_dec s : Decision (used s).
Proof. unfold used. apply _. Defined.

(** The slots in the order of the probe for a hash. *)
Definition place t (h : Z) (d : nat) : nat := Z.to_nat ((h + Z.of_nat d) mod slot_count t).

Record table_ok t : Prop := {
  table_size : exists k, slot_count t = (2 ^ k)%Z /\ (0 <= k)%Z;
  table_mask : mask t = (slot_count t - 1)%Z;
  table_lines : NoDup (lines t);
  table_slots : forall p s, slots t !! p = Some s -> used s ->
    exists line h, lines t !! Z.to_nat s.2 = Some line /\ Wyhash.hash line = Some h /\ (0 <= s.2)%Z /\ s.1 = tag_of h;
  (** Up to its slot, no slot on a line's way is free. *)
  table_chain : forall k line h, lines t !! k = Some line -> Wyhash.hash line = Some h ->
    exists d, d < length (slots t) /\ slots t !! place t h d = Some (tag_of h, Z.of_nat k) /\
      forall d', d' < d -> exists s, slots t !! place t h d' = Some s /\ used s;
  table_count : length (filter used (slots t)) = length (lines t)
}.

Lemma hash_Some line : exists h, Wyhash.hash line = Some h.
Proof.
  destruct (final4_stream 0 [line]) as (st & h & _ & _ & E). cbn in E. rewrite app_nil_r in E. by exists h.
Qed.

Lemma slot_count_pos t : table_ok t -> (0 < slot_count t)%Z.
Proof. intros Ht. destruct (table_size _ Ht) as (k & -> & ?). by apply Z.pow_pos_nonneg. Qed.

Lemma mask_mod t z : table_ok t -> Z.land z (mask t) = (z mod slot_count t)%Z.
Proof.
  intros Ht. rewrite (table_mask _ Ht). destruct (table_size _ Ht) as (k & -> & ?).
  rewrite <- Z.land_ones by done. f_equal. rewrite Z.ones_equiv. lia.
Qed.

Lemma place_lt t h d : table_ok t -> place t h d < length (slots t).
Proof.
  intros Ht. pose proof (slot_count_pos _ Ht). unfold place.
  pose proof (Z.mod_pos_bound (h + Z.of_nat d) (slot_count t) ltac:(lia)). unfold slot_count in *. lia.
Qed.

Lemma place_start t h : table_ok t -> Z.land h (mask t) = Z.of_nat (place t h 0).
Proof.
  intros Ht. rewrite mask_mod by done. pose proof (slot_count_pos _ Ht). unfold place. rewrite Z.add_0_r.
  pose proof (Z.mod_pos_bound h (slot_count t) ltac:(lia)). lia.
Qed.

Lemma place_next t h d : table_ok t -> Z.land (Z.of_nat (place t h d) + 1) (mask t) = Z.of_nat (place t h (S d)).
Proof.
  intros Ht. rewrite mask_mod by done. pose proof (slot_count_pos _ Ht). unfold place.
  pose proof (Z.mod_pos_bound (h + Z.of_nat d) (slot_count t) ltac:(lia)).
  pose proof (Z.mod_pos_bound (h + Z.of_nat (S d)) (slot_count t) ltac:(lia)).
  rewrite !Z2Nat.id by lia. rewrite Zplus_mod_idemp_l. f_equal. lia.
Qed.

Lemma place_onto t h p : table_ok t -> p < length (slots t) -> exists d, d < length (slots t) /\ place t h d = p.
Proof.
  intros Ht Hp. pose proof (slot_count_pos _ Ht) as Hc. exists (Z.to_nat ((Z.of_nat p - h) mod slot_count t)).
  pose proof (Z.mod_pos_bound (Z.of_nat p - h) (slot_count t) ltac:(lia)).
  split; [unfold slot_count in *; lia|]. unfold place. rewrite Z2Nat.id by lia. rewrite Zplus_mod_idemp_r.
  replace (h + (Z.of_nat p - h))%Z with (Z.of_nat p) by lia. rewrite Z.mod_small by (unfold slot_count in *; lia). lia.
Qed.

Lemma place_inj t h d d' :
  table_ok t -> d < length (slots t) -> d' < length (slots t) -> place t h d = place t h d' -> d = d'.
Proof.
  intros Ht Hd Hd' E. pose proof (slot_count_pos _ Ht) as Hpos. unfold place in E.
  pose proof (Z.mod_pos_bound (h + Z.of_nat d) (slot_count t) ltac:(lia)).
  pose proof (Z.mod_pos_bound (h + Z.of_nat d') (slot_count t) ltac:(lia)).
  assert ((h + Z.of_nat d) mod slot_count t = (h + Z.of_nat d') mod slot_count t)%Z as E' by lia.
  pose proof (Z.div_mod (h + Z.of_nat d) (slot_count t) ltac:(lia)).
  pose proof (Z.div_mod (h + Z.of_nat d') (slot_count t) ltac:(lia)).
  assert (Z.of_nat d < slot_count t /\ Z.of_nat d' < slot_count t)%Z as [Hc1 Hc2] by (unfold slot_count; lia).
  set (q := ((h + Z.of_nat d) / slot_count t)%Z) in *. set (q' := ((h + Z.of_nat d') / slot_count t)%Z) in *.
  assert (Z.of_nat d - Z.of_nat d' = slot_count t * (q - q'))%Z as Hq by lia.
  assert (q - q' = 0)%Z as Hz; [|rewrite Hz, Z.mul_0_r in Hq; lia]. clearbody q q'. clear - Hq Hpos Hc1 Hc2. nia.
Qed.

Lemma free_slot t h :
  table_ok t -> length (lines t) < length (slots t) ->
  exists d s, d < length (slots t) /\ slots t !! place t h d = Some s /\ ~ used s.
Proof.
  intros Ht Hlt. destruct (decide (Forall used (slots t))) as [Hall|Hn].
  - pose proof (table_count _ Ht) as Hc. rewrite filter_all in Hc by done. lia.
  - apply not_Forall_Exists in Hn; [|apply _]. apply Exists_exists in Hn as (s & (p & Hp)%list_elem_of_lookup & Hs).
    destruct (place_onto t h p Ht) as (d & ? & <-); [by eapply lookup_lt_Some|]. by exists d, s.
Qed.

(** The slot that the probe ends at. *)
Definition with_slot t (p : nat) (s : Z * Z) (line : bytes) : Interner :=
  {| slots := <[p := s]> (slots t); mask := mask t; lines := lines t ++ [line] |}.

Lemma table_ok_insert t line h d s :
  table_ok t -> Wyhash.hash line = Some h -> line ∉ lines t -> (Z.of_nat (length (lines t)) < EMPTY)%Z ->
  d < length (slots t) -> slots t !! place t h d = Some s -> ~ used s ->
  (forall d', d' < d -> exists s, slots t !! place t h d' = Some s /\ used s) ->
  table_ok (with_slot t (place t h d) (tag_of h, Z.of_nat (length (lines t))) line).
Proof.
  intros Ht Hh Hnew Hid Hd Hs Hfree Hway. set (p := place t h d). set (t' := with_slot t p _ line).
  assert (length (slots t') = length (slots t)) as Hlen by apply length_insert.
  assert (slot_count t' = slot_count t) as Hcap by (unfold slot_count; by rewrite Hlen).
  assert (forall h d, place t' h d = place t h d) as Hpl by (intros; unfold place; by rewrite Hcap).
  pose proof (place_lt t h d Ht) as Hp. fold p in Hp.
  assert (used (tag_of h, Z.of_nat (length (lines t)))) as Hu by (unfold used; cbn; lia).
  assert (slots t' !! p = Some (tag_of h, Z.of_nat (length (lines t)))) as Hat by by apply list_lookup_insert_eq.
  assert (forall q, q <> p -> slots t' !! q = slots t !! q) as Hoth by (intros q ?; by apply list_lookup_insert_ne).
  assert (forall q s, slots t !! q = Some s -> used s -> slots t' !! q = Some s) as Hkeep.
  { intros q s' Hq Hus. rewrite Hoth; [done|]. intros ->. unfold p in Hq. rewrite Hs in Hq. injection Hq as ->. done. }
  split.
  - rewrite Hcap. apply (table_size _ Ht).
  - rewrite Hcap. apply (table_mask _ Ht).
  - cbn. apply NoDup_app. split; [apply (table_lines _ Ht)|]. split; [|apply NoDup_singleton].
    intros x Hx ->%list_elem_of_singleton. done.
  - intros q s' Hq Hus. destruct (decide (q = p)) as [-> |].
    + rewrite Hat in Hq. injection Hq as <-. exists line, h. cbn. rewrite Nat2Z.id.
      rewrite lookup_app_r, Nat.sub_diag by lia. split; [done|]. split; [done|]. split; [lia|done].
    + rewrite Hoth in Hq by done. destruct (table_slots _ Ht _ _ Hq Hus) as (l & h' & Hl & ?). exists l, h'.
      split; [|done]. cbn. by apply lookup_app_l_Some.
  - intros k l h' Hk Hh'. rewrite Hlen. cbn in Hk. apply lookup_app_Some in Hk as [Hk|[Hk1 Hk2]].
    + destruct (table_chain _ Ht _ _ _ Hk Hh') as (e & ? & He & Hw). exists e. split; [done|]. rewrite Hpl. split.
      * apply Hkeep; [done|]. unfold used. cbn. apply lookup_lt_Some in Hk. lia.
      * intros e' ?. destruct (Hw e' ltac:(done)) as (s' & ? & ?). exists s'. rewrite Hpl. split; [by apply Hkeep|done].
    + apply list_lookup_singleton_Some in Hk2 as [Hk2 <-]. rewrite Hh in Hh'. injection Hh' as <-.
      exists d. split; [done|]. rewrite Hpl. replace k with (length (lines t)) by lia. split; [done|].
      intros e ?. destruct (Hway e ltac:(done)) as (s' & ? & ?). exists s'. rewrite Hpl. split; [by apply Hkeep|done].
  - cbn. rewrite (filter_insert_new _ _ _ s) by done. rewrite length_app, (table_count _ Ht). cbn. lia.
Qed.

Lemma number_old known line k : NoDup known -> known !! k = Some line -> number known line = (known, k).
Proof.
  intros Hnd Hk. unfold number. destruct (list_find (eq line) known) as [[i l]|] eqn:E.
  - apply list_find_Some in E as (Hi & -> & _). by rewrite (NoDup_lookup _ _ _ _ Hnd Hi Hk).
  - apply list_find_None in E. eapply Forall_lookup_1 in E; [|done]. done.
Qed.

Lemma number_new known line : line ∉ known -> number known line = (known ++ [line], length known).
Proof.
  intros Hn. unfold number. destruct (list_find (eq line) known) as [[i l]|] eqn:E; [|done].
  apply list_find_Some in E as (Hi & -> & _). destruct Hn. by eapply list_elem_of_lookup_2.
Qed.

Lemma probe_loop_spec fuel t line h d :
  table_ok t -> Wyhash.hash line = Some h -> (Z.of_nat (length (lines t)) < EMPTY)%Z ->
  length (lines t) < length (slots t) -> length (slots t) <= fuel + d ->
  (forall d', d' < d -> exists s, slots t !! place t h d' = Some s /\ used s /\ lines t !! Z.to_nat s.2 <> Some line) ->
  exists t' k, probe_loop fuel t (tag_of h) line (Z.of_nat (place t h d)) = Some (t', Z.of_nat k) /\
    table_ok t' /\ length (slots t') = length (slots t) /\ (lines t', k) = number (lines t) line.
Proof.
  intros Ht Hh Hid Hroom. revert d. induction fuel as [|fuel IH]; intros d Hf Hway.
  { exfalso. destruct (free_slot t h Ht Hroom) as (e & s & ? & He & Hfree).
    destruct (Hway e ltac:(lia)) as (s' & He' & ? & _). rewrite He in He'. by injection He' as <-. }
  cbn [probe_loop]. rewrite Nat2Z.id. pose proof (place_lt t h d Ht) as Hp.
  destruct (lookup_lt_is_Some_2 _ _ Hp) as [s Hs]. rewrite Hs. cbn [mbind option_bind].
  destruct (Z.eqb_spec s.2 EMPTY) as [Hempty|Hne].
  - assert (line ∉ lines t) as Hnew.
    { intros (k & Hk)%list_elem_of_lookup. destruct (table_chain _ Ht _ _ _ Hk Hh) as (e & He & Hse & Hw).
      destruct (lt_eq_lt_dec e d) as [[?| ->]|?].
      - destruct (Hway e ltac:(done)) as (s' & He' & _ & Hl). rewrite Hse in He'. injection He' as <-.
        cbn in Hl. by rewrite Nat2Z.id in Hl.
      - rewrite Hs in Hse. injection Hse as ->. cbn in Hempty. apply lookup_lt_Some in Hk. lia.
      - destruct (Hw d ltac:(done)) as (s' & He' & Hus). rewrite Hs in He'. injection He' as <-. done. }
    assert (d < length (slots t)) as Hd.
    { destruct (free_slot t h Ht Hroom) as (e & s' & ? & He & Hfree). destruct (decide (d <= e)); [lia|].
      destruct (Hway e ltac:(lia)) as (s'' & He' & ? & _). rewrite He in He'. by injection He' as <-. }
    rewrite (number_new _ _ Hnew). eexists _, (length (lines t)).
    assert (wrap32 (Z.of_nat (length (lines t))) = Z.of_nat (length (lines t))) as ->
      by (apply Z.mod_small; unfold EMPTY in Hid; lia).
    split; [done|]. split; [|split; [apply length_insert|done]].
    eapply (table_ok_insert t line h d s); try done; [by intros Hu|].
    intros d' ?. destruct (Hway d' ltac:(done)) as (s' & ? & ? & _). by exists s'.
  - destruct (table_slots _ Ht _ _ Hs Hne) as (l & h' & Hl & Hh' & Hpos & Htag).
    assert (exists found, (if (s.1 =? tag_of h)%Z then l ← lines t !! Z.to_nat s.2; Some (bool_decide (l = line)) else Some false)
              = Some found /\ (found = true <-> l = line)) as (found & -> & Hfound).
    { destruct (Z.eqb_spec s.1 (tag_of h)) as [|Hne'].
      - rewrite Hl. cbn [mbind option_bind]. eexists. split; [done|]. apply bool_decide_eq_true.
      - exists false. split; [done|]. split; [done|]. intros ->. congruence. }
    cbn [mbind option_bind]. destruct found.
    + rewrite (number_old _ _ (Z.to_nat s.2) (table_lines _ Ht)) by (by rewrite Hl, (proj1 Hfound eq_refl)).
      exists t, (Z.to_nat s.2). rewrite Z2Nat.id by done. done.
    + rewrite place_next by done. apply IH; [lia|]. intros d' Hd'. destruct (decide (d' = d)) as [-> |]; [|apply Hway; lia].
      exists s. split; [done|]. split; [done|]. rewrite Hl. intros [= ->]. discriminate (proj2 Hfound eq_refl).
Qed.

Lemma intern_spec t line :
  table_ok t -> (Z.of_nat (length (lines t)) < EMPTY)%Z -> length (lines t) < length (slots t) ->
  exists t' k, intern t line = Some (t', Z.of_nat k) /\ table_ok t' /\ length (slots t') = length (slots t) /\
    (lines t', k) = number (lines t) line.
Proof.
  intros Ht Hid Hroom. unfold intern. destruct (hash_Some line) as [h Hh]. rewrite Hh. cbn [mbind option_bind].
  rewrite place_start by done. apply (probe_loop_spec _ _ _ h 0); (done || lia).
Qed.

Lemma next_power_of_two_spec n : 0 < n -> exists k, Z.of_nat (next_power_of_two n) = (2 ^ k)%Z /\ (0 <= k)%Z.
Proof.
  intros ?. unfold next_power_of_two. exists (Z.of_nat (Nat.log2_up n)). split; [|lia]. by rewrite Nat2Z.inj_pow.
Qed.

Lemma with_capacity_ok n : table_ok (with_capacity n) /\ 2 * n <= length (slots (with_capacity n)) /\ lines (with_capacity n) = [].
Proof.
  unfold with_capacity. set (cap := next_power_of_two _). cbn.
  assert (length (replicate cap (0, EMPTY)%Z) = cap) as Hl by apply length_replicate. split; [|split; [|done]].
  - split; cbn.
    + unfold slot_count. cbn. rewrite Hl. apply next_power_of_two_spec. lia.
    + unfold slot_count. cbn. by rewrite Hl.
    + constructor.
    + intros p s [-> _]%lookup_replicate Hu. done.
    + done.
    + clear Hl. induction cap as [|cap IH]; [done|]. cbn [replicate]. by rewrite filter_cons_False by (intros Hu; by apply Hu).
  - rewrite Hl. unfold cap, next_power_of_two. pose proof (Nat.log2_log2_up_spec (Nat.max (n * 2) 16) ltac:(lia)). lia.
Qed.
End Table.

(** ** The lines of a text *)

(** Each line keeps its newline; the last may lack one. *)
Fixpoint split_lines (s : bytes) : list bytes :=
  match s with
  | [] => []
  | x :: s =>
      if (x =? NEWLINE)%Z then [x] :: split_lines s
      else match split_lines s with [] => [[x]] | l :: ls => (x :: l) :: ls end
  end.

(** Where lines end that start at [at_]. *)
Fixpoint ends (at_ : nat) (ls : list bytes) : list nat :=
  match ls with [] => [] | l :: ls => at_ + length l :: ends (at_ + length l) ls end.

Lemma concat_split_lines s : concat (split_lines s) = s.
Proof.
  induction s as [|x s IH]; [done|]. cbn [split_lines]. destruct (x =? NEWLINE)%Z; cbn; [by rewrite IH|].
  destruct (split_lines s) as [|l ls]; cbn in *; [by rewrite <- IH|]. by rewrite <- IH.
Qed.

Lemma split_lines_nonempty s : Forall (fun l => l <> []) (split_lines s).
Proof.
  induction s as [|x s IH]; cbn [split_lines]; [constructor|]. destruct (x =? NEWLINE)%Z; [by constructor|].
  destruct IH; by repeat constructor.
Qed.

Lemma split_lines_app s i :
  index_of_char s NEWLINE = Some i -> split_lines s = take (i + 1) s :: split_lines (drop (i + 1) s).
Proof.
  revert i. induction s as [|x s IH]; intros i; cbn [index_of_char split_lines]; [done|].
  destruct (x =? NEWLINE)%Z; [by intros [= <-]|]. intros (j & Hj & ->)%fmap_Some. by rewrite (IH _ Hj).
Qed.

Lemma split_lines_one s : s <> [] -> index_of_char s NEWLINE = None -> split_lines s = [s].
Proof.
  induction s as [|x s IH]; [done|]. intros _. cbn [index_of_char split_lines].
  destruct (x =? NEWLINE)%Z; [done|]. intros Hn%fmap_None. destruct s as [|y s]; [done|]. by rewrite (IH ltac:(done) Hn).
Qed.

Lemma index_of_char_lt s c i : index_of_char s c = Some i -> i < length s.
Proof.
  revert i. induction s as [|x s IH]; intros i; cbn; [done|]. destruct (x =? c)%Z; [intros [= <-]; lia|].
  intros (j & Hj & ->)%fmap_Some. apply IH in Hj. lia.
Qed.

Lemma split_lines_count s : length (split_lines s) <= count_char s NEWLINE + 1.
Proof.
  unfold count_char. induction s as [|x s IH]; cbn [split_lines]; [cbn; lia|]. rewrite filter_cons.
  destruct (Z.eqb_spec x NEWLINE) as [->|Hne]; [rewrite decide_True by done|rewrite decide_False by done].
  - cbn. lia.
  - destruct (split_lines s); cbn in *; lia.
Qed.

Lemma ends_app at_ l1 l2 : ends at_ (l1 ++ l2) = ends at_ l1 ++ ends (at_ + length (concat l1)) l2.
Proof.
  revert at_. induction l1 as [|l l1 IH]; intros at_; cbn; [by rewrite Nat.add_0_r|]. rewrite IH, length_app.
  by rewrite Nat.add_assoc.
Qed.

Lemma ends_lookup at_ ls k : k < length ls -> ends at_ ls !! k = Some (at_ + length (concat (take (S k) ls))).
Proof.
  revert at_ k. induction ls as [|l ls IH]; intros at_ k Hk; [cbn in Hk; lia|]. destruct k as [|k].
  - cbn. by rewrite app_nil_r.
  - change (ends at_ (l :: ls) !! S k) with (ends (at_ + length l) ls !! k).
    cbn [length] in Hk. rewrite IH by lia.
    change (take (S (S k)) (l :: ls)) with (l :: take (S k) ls). cbn [concat]. rewrite length_app. f_equal. lia.
Qed.

Lemma length_ends at_ ls : length (ends at_ ls) = length ls.
Proof. revert at_. induction ls as [|l ls IH]; intros at_; [done|]. cbn. by rewrite IH. Qed.

(** Where line [k] of a middle that starts at [at_] begins. *)
Definition offset (at_ : nat) (ls : list bytes) (k : nat) : nat := at_ + length (concat (take k ls)).

Lemma offsets_lookup at_ ls k : k <= length ls -> (at_ :: ends at_ ls) !! k = Some (offset at_ ls k).
Proof.
  unfold offset. destruct k as [|k]; [intros _; cbn; by rewrite Nat.add_0_r|]. intros ?.
  change ((at_ :: ends at_ ls) !! S k) with (ends at_ ls !! k). by rewrite ends_lookup.
Qed.

Section Tokens.
Context (text : bytes) (base : nat) (Hbase : (Z.of_nat (base + length text) <= u32_max)%Z).

(** The ends of the lines with a newline, and of the last line if it has none. *)
Lemma line_ends_loop_spec fuel at_ out :
  at_ <= length text -> length text - at_ < fuel -> last out = Some (base + at_) ->
  exists offs, line_ends_loop fuel text base at_ out = Some offs /\
    (if bool_decide (last offs = Some (as_u32 (base + length text))) then offs else offs ++ [as_u32 (base + length text)])
      = out ++ ends (base + at_) (split_lines (drop at_ text)).
Proof using Hbase.
  rewrite as_u32_id by done.
  revert at_ out. induction fuel as [|fuel IH]; [lia|]. intros at_ out Hat Hf Hlast. cbn [line_ends_loop].
  rewrite slice_from_Some by done. cbn [mbind option_bind].
  destruct (index_of_char (drop at_ text) NEWLINE) as [i|] eqn:Ei.
  - pose proof (index_of_char_lt _ _ _ Ei) as Hi. rewrite length_drop in Hi. rewrite as_u32_id by lia.
    destruct (IH (at_ + (i + 1)) (out ++ [base + (at_ + (i + 1))])) as (offs & -> & Hoffs); [lia|lia|by rewrite last_snoc|].
    exists offs. split; [done|]. rewrite Hoffs, (split_lines_app _ _ Ei), <- app_assoc. f_equal. cbn [ends app].
    rewrite length_take, length_drop, drop_drop. rewrite Nat.min_l by lia.
    replace (base + at_ + (i + 1)) with (base + (at_ + (i + 1))) by lia. done.
  - exists out. split; [done|]. rewrite Hlast. case_bool_decide as E.
    + injection E as E. rewrite drop_ge by lia. cbn. by rewrite app_nil_r.
    + rewrite split_lines_one; [|intros Hd; apply (f_equal length) in Hd; rewrite length_drop in Hd; cbn in Hd; apply E; f_equal; lia|done].
      f_equal. cbn. rewrite length_drop. f_equal. lia.
Qed.

Lemma intern_lines_spec start ls t ids :
  start <= length text -> drop start text = concat ls ->
  table_ok t -> length (lines t) + length ls <= length (slots t) -> (Z.of_nat (length (lines t) + length ls) <= EMPTY)%Z ->
  exists t' ks, intern_lines text base start (ends (base + start) ls) t ids = Some (t', ids ++ (Z.of_nat <$> ks : list u32)) /\
    table_ok t' /\ length (slots t') = length (slots t) /\ (lines t', ks) = number_all (lines t) ls.
Proof using Hbase.
  revert start t ids. induction ls as [|l ls IH]; intros start t ids Hst Hd Ht Hroom Hid; cbn [ends intern_lines number_all].
  - exists t, []. rewrite app_nil_r. done.
  - cbn [concat length] in *. assert (length text - start = length l + length (concat ls)) as Hlen.
    { rewrite <- length_drop, Hd, length_app. done. }
    rewrite usub_Some by lia. cbn [mbind option_bind]. rewrite slice_range_Some by lia. cbn [mbind option_bind].
    replace (base + start + length l - base - start) with (length l) by lia. rewrite Hd, take_app_length.
    destruct (intern_spec t l Ht) as (t1 & k & -> & Ht1 & Hs1 & Hn1); [lia|lia|]. cbn [mbind option_bind].
    assert (length (lines t1) <= S (length (lines t))) as Hlt1.
    { unfold number in Hn1. destruct (list_find _ _) as [[i x]|]; injection Hn1 as E _; rewrite E; [lia|].
      rewrite length_app. cbn. lia. }
    replace (base + start + length l - base) with (start + length l) by lia.
    replace (base + start + length l) with (base + (start + length l)) by lia.
    destruct (IH (start + length l) t1 (ids ++ [Z.of_nat k : u32])) as (t' & ks & -> & Ht' & Hs' & Hn'); [lia| |done|lia|lia|].
    { rewrite <- drop_drop, Hd. apply drop_app_length. }
    exists t', (k :: ks). rewrite <- app_assoc. split; [done|]. split; [done|]. split; [lia|].
    rewrite <- Hn1. rewrite <- Hn'. done.
Qed.

Lemma tokenize_spec t :
  table_ok t -> length (lines t) + length (split_lines text) <= length (slots t) ->
  (Z.of_nat (length (lines t) + length (split_lines text)) <= EMPTY)%Z ->
  exists t' ks, tokenize text base t [] [] = Some (t', (Z.of_nat <$> ks : list u32), base :: ends base (split_lines text)) /\
    table_ok t' /\ length (slots t') = length (slots t) /\ (lines t', ks) = number_all (lines t) (split_lines text).
Proof using Hbase.
  intros Ht Hroom Hid. unfold tokenize, line_ends. cbn [app length].
  destruct (line_ends_loop_spec (S (length text)) 0 [as_u32 base]) as (offs & -> & Hoffs); [lia|lia| |].
  { cbn. f_equal. rewrite as_u32_id; lia. }
  cbn [mbind option_bind]. cbn zeta. rewrite Hoffs. rewrite drop_0, Nat.add_0_r, as_u32_id by lia.
  cbn [app Nat.add drop]. pose proof (intern_lines_spec 0 (split_lines text) t []) as Hin.
  rewrite Nat.add_0_r, drop_0, concat_split_lines in Hin.
  destruct Hin as (t' & ks & E & Hin); [lia|done|done|done|done|]. cbn [app] in E.
  change (drop 0 (ends base (split_lines text))) with (ends base (split_lines text)).
  rewrite E. cbn [mbind option_bind]. by exists t', ks.
Qed.
End Tokens.

(** ** Lines left out of the search *)

(** [marks] by the lists. *)
Inductive aligned {T} : list T -> list bool -> list T -> list bool -> Prop :=
| al_nil : aligned [] [] [] []
| al_a x a ca b cb : aligned a ca b cb -> aligned (x :: a) (true :: ca) b cb
| al_b y a ca b cb : aligned a ca b cb -> aligned a ca (y :: b) (true :: cb)
| al_same x a ca b cb : aligned a ca b cb -> aligned (x :: a) (false :: ca) (x :: b) (false :: cb).

Section Aligned.
Context {T : Type}.
Implicit Types a b : list T.

Lemma marks_aligned a b ca cb i j :
  marks a b ca cb i j -> length ca = length a -> length cb = length b ->
  aligned (drop i a) (drop i ca) (drop j b) (drop j cb).
Proof.
  intros Hm Hca Hcb. induction Hm as [|i j Hi _ IH|i j Hj _ IH|i j Hi Hj E _ IH].
  - rewrite !drop_ge by lia. constructor.
  - pose proof (lookup_lt_Some _ _ _ Hi). destruct (lookup_lt_is_Some_2 a i ltac:(lia)) as [x Hx].
    rewrite (drop_S a x i), (drop_S ca true i) by done. by constructor.
  - pose proof (lookup_lt_Some _ _ _ Hj). destruct (lookup_lt_is_Some_2 b j ltac:(lia)) as [y Hy].
    rewrite (drop_S b y j), (drop_S cb true j) by done. by constructor.
  - pose proof (lookup_lt_Some _ _ _ Hi). destruct (lookup_lt_is_Some_2 a i ltac:(lia)) as [x Hx].
    rewrite (drop_S a x i), (drop_S ca false i), (drop_S b x j), (drop_S cb false j) by congruence. by constructor.
Qed.

Lemma aligned_marks a b ca cb : aligned a ca b cb -> forall a0 ca0 b0 cb0,
  length ca0 = length a0 -> length cb0 = length b0 ->
  marks (a0 ++ a) (b0 ++ b) (ca0 ++ ca) (cb0 ++ cb) (length a0) (length b0).
Proof.
  assert (Hmid : forall {A} (l1 : list A) x l2, (l1 ++ x :: l2) !! length l1 = Some x) by (intros; by apply list_lookup_middle).
  induction 1 as [|x a ca b cb _ IH|y a ca b cb _ IH|x a ca b cb _ IH]; intros a0 ca0 b0 cb0 H1 H2.
  - rewrite !app_nil_r. apply marks_end.
  - apply marks_a; [by rewrite <- H1, Hmid|]. specialize (IH (a0 ++ [x]) (ca0 ++ [true]) b0 cb0).
    rewrite !length_app, <- !app_assoc in IH. cbn in IH. rewrite !Nat.add_1_r in IH. apply IH; lia.
  - apply marks_b; [by rewrite <- H2, Hmid|]. specialize (IH a0 ca0 (b0 ++ [y]) (cb0 ++ [true])).
    rewrite !length_app, <- !app_assoc in IH. cbn in IH. rewrite !Nat.add_1_r in IH. apply IH; lia.
  - apply marks_same; [by rewrite <- H1, Hmid|by rewrite <- H2, Hmid|by rewrite !Hmid|].
    specialize (IH (a0 ++ [x]) (ca0 ++ [false]) (b0 ++ [x]) (cb0 ++ [false])).
    rewrite !length_app, <- !app_assoc in IH. cbn in IH. rewrite !Nat.add_1_r in IH. apply IH; lia.
Qed.

(** The marks of the elements kept, with all the others marked. *)
Fixpoint expand (flags rch : list bool) : list bool :=
  match flags with
  | [] => []
  | true :: flags => match rch with c :: rch => c :: expand flags rch | [] => false :: expand flags [] end
  | false :: flags => true :: expand flags rch
  end.

Lemma length_expand flags rch : length (expand flags rch) = length flags.
Proof. revert rch. induction flags as [|[] flags IH]; intros [|c rch]; cbn; by rewrite ?IH. Qed.

Fixpoint kept_by (f : T -> bool) (l : list T) : list T :=
  match l with [] => [] | x :: l => if f x then x :: kept_by f l else kept_by f l end.

Lemma kept_by_short (f : T -> bool) l : short l -> short (kept_by f l).
Proof.
  unfold short. intros ?. assert (length (kept_by f l) <= length l); [|lia].
  clear. induction l as [|x l IH]; cbn [kept_by length]; [lia|]. destruct (f x); cbn [length]; lia.
Qed.

Lemma kept_by_split (f : T -> bool) l : exists pre,
  Forall (fun x => f x = false) pre /\
  match kept_by f l with
  | [] => l = pre
  | x :: r => exists l', l = pre ++ x :: l' /\ f x = true /\ kept_by f l' = r
  end.
Proof.
  induction l as [|x l (pre & Hpre & IH)]; cbn [kept_by]; [by exists []|].
  destruct (f x) eqn:E; [exists []; split; [done|by exists l]|]. exists (x :: pre). split; [by constructor|].
  destruct (kept_by f l) as [|y r]; [by subst|]. destruct IH as (l' & -> & ? & ?). by exists l'.
Qed.

Lemma expand_skip (f : T -> bool) pre l rch :
  Forall (fun x => f x = false) pre -> expand (f <$> (pre ++ l)) rch = replicate (length pre) true ++ expand (f <$> l) rch.
Proof. induction 1 as [|x pre Hx _ IH]; [done|]. cbn. by rewrite Hx, <- IH. Qed.

Lemma aligned_skip_a pre a ca b cb : aligned a ca b cb -> aligned (pre ++ a) (replicate (length pre) true ++ ca) b cb.
Proof. intros Hal. induction pre; cbn; by try constructor. Qed.

Lemma aligned_skip_b pre a ca b cb : aligned a ca b cb -> aligned a ca (pre ++ b) (replicate (length pre) true ++ cb).
Proof. intros Hal. induction pre; cbn; by try constructor. Qed.

Lemma aligned_expand (f g : T -> bool) a b ca cb :
  aligned (kept_by f a) ca (kept_by g b) cb -> aligned a (expand (f <$> a) ca) b (expand (g <$> b) cb).
Proof.
  remember (kept_by f a) as ra eqn:Ea. remember (kept_by g b) as rb eqn:Eb. intros Hal. revert a b Ea Eb.
  induction Hal as [|x ra ca rb cb _ IH|y ra ca rb cb _ IH|x ra ca rb cb _ IH]; intros a b Ea Eb.
  - destruct (kept_by_split f a) as (pa & Hpa & E1), (kept_by_split g b) as (pb & Hpb & E2).
    rewrite <- Ea in E1. rewrite <- Eb in E2. subst a b.
    rewrite <- (app_nil_r pa), <- (app_nil_r pb), !expand_skip by done.
    apply aligned_skip_a, aligned_skip_b. constructor.
  - destruct (kept_by_split f a) as (pa & Hpa & E1). rewrite <- Ea in E1. destruct E1 as (a' & -> & Hx & Ea').
    rewrite expand_skip by done. cbn. rewrite Hx. apply aligned_skip_a. constructor. by apply IH.
  - destruct (kept_by_split g b) as (pb & Hpb & E1). rewrite <- Eb in E1. destruct E1 as (b' & -> & Hy & Eb').
    rewrite expand_skip by done. cbn. rewrite Hy. apply aligned_skip_b. constructor. by apply IH.
  - destruct (kept_by_split f a) as (pa & Hpa & E1). rewrite <- Ea in E1. destruct E1 as (a' & -> & Hx & Ea').
    destruct (kept_by_split g b) as (pb & Hpb & E1). rewrite <- Eb in E1. destruct E1 as (b' & -> & Hy & Eb').
    rewrite !expand_skip by done. cbn. rewrite Hx, Hy. apply aligned_skip_a, aligned_skip_b. constructor. by apply IH.
Qed.
End Aligned.

Section Marks.
Implicit Types ts : list u32.

Lemma bump_occ_spec second occ t :
  Z.to_nat t < length occ -> exists occ', bump_occ second occ t = Some occ' /\ length occ' = length occ.
Proof.
  intros Ht. unfold bump_occ. destruct (lookup_lt_is_Some_2 occ _ Ht) as [c ->]. cbn [mbind option_bind].
  destruct (set_at_spec occ (Z.to_nat t) (if second then (c.1, c.2 + 1) else (c.1 + 1, c.2)) Ht) as (occ' & -> & ? & _).
  by exists occ'.
Qed.

Lemma count_occ_spec second ts occ :
  Forall (fun t => Z.to_nat t < length occ) ts -> exists occ', count_occ second ts occ = Some occ' /\ length occ' = length occ.
Proof.
  revert occ. induction ts as [|t ts IH]; intros occ Hts; cbn [count_occ]; [by exists occ|].
  apply Forall_cons in Hts as [Ht Hts]. destruct (bump_occ_spec second occ t Ht) as (occ1 & -> & Hl). cbn [mbind option_bind].
  rewrite <- Hl in Hts. destruct (IH _ Hts) as (occ' & -> & ?). exists occ'. split; [done|lia].
Qed.

(** Whether a line is kept for the search. *)
Definition survives (second : bool) (occ : list (nat * nat)) (t : u32) : bool :=
  match occ !! Z.to_nat t with Some c => negb ((if second then c.1 else c.2) =? 0) | None => false end.

Fixpoint positions (i : nat) (flags : list bool) : list nat :=
  match flags with [] => [] | f :: flags => (if f then [i] else []) ++ positions (S i) flags end.

Lemma set_at_mid (pre : list bool) x y l : set_at (pre ++ x :: l) (length pre) y = Some (pre ++ y :: l).
Proof.
  unfold set_at. rewrite (proj2 (Nat.ltb_lt _ _)) by (rewrite length_app; cbn; lia).
  f_equal. rewrite insert_app_r_alt, Nat.sub_diag by lia. done.
Qed.

Lemma survivors_spec second occ ts pre r m :
  Forall (fun t => Z.to_nat t < length occ) ts ->
  survivors second occ ts (length pre) (pre ++ replicate (length ts) false) r m =
    Some (pre ++ (negb <$> (survives second occ <$> ts)), r ++ kept_by (survives second occ) ts,
          m ++ positions (length pre) (survives second occ <$> ts)).
Proof.
  revert pre r m. induction ts as [|t ts IH]; intros pre r m Hts; cbn [survivors].
  { cbn. by rewrite !app_nil_r. }
  apply Forall_cons in Hts as [Ht Hts]. destruct (lookup_lt_is_Some_2 occ _ Ht) as [c Hc].
  rewrite Hc. cbn [mbind option_bind]. cbn [fmap list_fmap kept_by positions length replicate].
  assert (survives second occ t = negb ((if second then c.1 else c.2) =? 0)) as Es by (unfold survives; by rewrite Hc).
  rewrite !Es. specialize (IH (pre ++ [negb (survives second occ t)])). rewrite length_app, Nat.add_1_r, Es in IH.
  destruct (_ =? 0) eqn:E; cbn [negb] in IH |- *.
  - rewrite set_at_mid. cbn [mbind option_bind].
    change (pre ++ true :: replicate (length ts) false) with (pre ++ [true] ++ replicate (length ts) false).
    rewrite app_assoc, IH by done. by rewrite <- app_assoc.
  - change (pre ++ false :: replicate (length ts) false) with (pre ++ [false] ++ replicate (length ts) false).
    rewrite app_assoc, IH by done. by rewrite <- !app_assoc.
Qed.

Lemma write_back_spec rch flags mpre pre :
  length rch = length (positions (length pre) flags) ->
  write_back rch (length mpre) (mpre ++ positions (length pre) flags) (pre ++ (negb <$> flags)) =
    Some (pre ++ expand flags rch).
Proof.
  revert rch mpre pre. induction flags as [|f flags IH]; intros rch mpre pre Hl.
  { cbn in Hl. destruct rch; [|done]. cbn. done. }
  cbn [positions fmap list_fmap]. destruct f.
  - cbn [positions app length] in Hl. destruct rch as [|c rch]; [done|]. cbn [write_back app negb].
    rewrite list_lookup_middle by done. injection Hl as Hl.
    assert (exists ch, (if c then i ← Some (length pre); set_at (pre ++ false :: (negb <$> flags)) i true
                        else Some (pre ++ false :: (negb <$> flags))) = Some ch /\ ch = (pre ++ [c]) ++ (negb <$> flags))
      as (ch & -> & ->).
    { rewrite <- app_assoc. destruct c; eexists; (split; [|done]); [|done]. cbn [mbind option_bind]. by rewrite set_at_mid. }
    cbn [mbind option_bind]. specialize (IH rch (mpre ++ [length pre]) (pre ++ [c])).
    rewrite !length_app, <- !app_assoc, !Nat.add_1_r in IH. cbn [app] in IH. rewrite <- app_assoc. cbn [app]. rewrite IH; [|done].
    cbn [expand]. done.
  - cbn [positions app negb] in Hl |- *. specialize (IH rch mpre (pre ++ [true])).
    rewrite length_app, Nat.add_1_r, <- app_assoc in IH. cbn [app] in IH. rewrite IH by done.
    cbn [expand]. by rewrite <- app_assoc.
Qed.

Lemma length_positions (f : u32 -> bool) ts i : length (positions i (f <$> ts)) = length (kept_by f ts).
Proof.
  revert i. induction ts as [|t ts IH]; intros i; [done|]. cbn. destruct (f t); cbn; by rewrite IH.
Qed.

Lemma kept_by_ok (f : u32 -> bool) ts (P : u32 -> Prop) : Forall P ts -> Forall P (kept_by f ts).
Proof. induction 1 as [|t ts Ht _ IH]; cbn; [done|]. destruct (f t); [by constructor|done]. Qed.

(** All of both texts is changed. *)
Lemma marks_all {T} (a b : list T) :
  marks a b (replicate (length a) true) (replicate (length b) true) 0 0.
Proof.
  apply path_marks, (path_filled a b _ _ (0, 0) (length a, length b)); cbn; try lia;
    intros i ?; apply lookup_replicate_2; lia.
Qed.

Lemma fill_all (c : list bool) : fill_true c 0 (length c) = Some (replicate (length c) true).
Proof.
  unfold fill_true. rewrite Nat.leb_refl. cbn. rewrite Nat.sub_0_r, drop_ge by done. by rewrite app_nil_r.
Qed.

Lemma mark_lines_spec (ta tb : list u32) uniq :
  Forall (fun t : u32 => 0 <= t)%Z ta -> Forall (fun t : u32 => 0 <= t)%Z tb ->
  Forall (fun t : u32 => Z.to_nat t < uniq) ta -> Forall (fun t : u32 => Z.to_nat t < uniq) tb ->
  short ta -> short tb ->
  exists ca cb, mark_lines ta tb uniq = Some (ca, cb) /\ length ca = length ta /\ length cb = length tb /\
    marks ta tb ca cb 0 0.
Proof.
  intros Hpa Hpb Ha Hb Hsa Hsb. unfold mark_lines.
  assert (length (replicate uniq (0, 0)) = uniq) as Hu by apply length_replicate.
  destruct (count_occ_spec false ta (replicate uniq (0, 0))) as (occ1 & -> & Hl1); [by rewrite Hu|]. cbn [mbind option_bind].
  destruct (count_occ_spec true tb occ1) as (occ & -> & Hl2); [by rewrite Hl1, Hu|]. cbn [mbind option_bind].
  pose proof (survivors_spec false occ ta [] [] []) as E1. cbn [app length] in E1. rewrite E1 by (by rewrite Hl2, Hl1, Hu).
  cbn [mbind option_bind].
  pose proof (survivors_spec true occ tb [] [] []) as E2. cbn [app length] in E2. rewrite E2 by (by rewrite Hl2, Hl1, Hu).
  cbn [mbind option_bind]. set (f := survives false occ). set (g := survives true occ).
  destruct (negb _ && negb _).
  2: { rewrite !fill_all. cbn [mbind option_bind]. eexists _, _. split; [done|]. rewrite !length_replicate, !length_fmap.
       split; [done|]. split; [done|]. apply marks_all. }
  assert (@Forall u32 elem_ok (kept_by f ta)) as Hfa by exact (kept_by_ok f ta _ Hpa).
  assert (@Forall u32 elem_ok (kept_by g tb)) as Hgb by exact (kept_by_ok g tb _ Hpb).
  destruct (run_spec (kept_by f ta) (kept_by g tb) Hfa Hgb (kept_by_short f ta Hsa) (kept_by_short g tb Hsb)
    (with_work_of LINES (work LINES + Z.of_nat (length (kept_by f ta) + length (kept_by g tb)) * LINE_WORK_PER_TOKEN)))
    as (rca & rcb & -> & Hra & Hrb & Hm); [by repeat split|]. cbn [mbind option_bind].
  pose proof (write_back_spec rca (@fmap list list_fmap u32 bool f ta) [] []) as W1. cbn [app length] in W1.
  rewrite W1 by (by rewrite length_positions). cbn [mbind option_bind].
  pose proof (write_back_spec rcb (@fmap list list_fmap u32 bool g tb) [] []) as W2. cbn [app length] in W2.
  rewrite W2 by (by rewrite length_positions). cbn [mbind option_bind].
  eexists _, _. split; [done|]. rewrite !length_expand, !length_fmap. split; [done|]. split; [done|].
  apply (marks_aligned _ _ _ _ 0 0) in Hm; [|done|done]. rewrite !drop_0 in Hm.
  apply aligned_expand in Hm. by apply (aligned_marks _ _ _ _ Hm [] [] [] []).
Qed.
End Marks.

(** ** From lines to bytes *)
Lemma number_spec known l known' k :
  number known l = (known', k) -> known `prefix_of` known' /\ known' !! k = Some l.
Proof.
  unfold number. destruct (list_find (eq l) known) as [[i x]|] eqn:E; intros [= <- <-].
  - apply list_find_Some in E as (Hi & -> & _). done.
  - split; [by eexists|]. by rewrite lookup_app_r, Nat.sub_diag by lia.
Qed.

Lemma number_all_spec known ls known' ks :
  number_all known ls = (known', ks) ->
  known `prefix_of` known' /\ Forall2 (fun l k => known' !! k = Some l) ls ks.
Proof.
  revert known known' ks. induction ls as [|l ls IH]; intros known known' ks; cbn [number_all]; [intros [= <- <-]; done|].
  destruct (number known l) as [known1 k] eqn:E1. destruct (number_all known1 ls) as [known2 ks2] eqn:E2.
  intros [= <- <-]. apply number_spec in E1 as [P1 Hk]. apply IH in E2 as [P2 Hks].
  split; [by etrans|]. constructor; [by eapply prefix_lookup_Some|done].
Qed.

Lemma number_all_length known ls known' ks :
  number_all known ls = (known', ks) -> length known' <= length known + length ls.
Proof.
  revert known known' ks. induction ls as [|l ls IH]; intros known known' ks; cbn [number_all]; [intros [= <- <-]; cbn; lia|].
  destruct (number known l) as [known1 k] eqn:E1. destruct (number_all known1 ls) as [known2 ks2] eqn:E2.
  intros [= <- <-]. apply IH in E2. cbn [length]. assert (length known1 <= S (length known)); [|lia].
  unfold number in E1. destruct (list_find (eq l) known) as [[i x]|]; injection E1 as <- _; [lia|].
  rewrite length_app. cbn. lia.
Qed.

Lemma length_split_lines s : length (split_lines s) <= length s.
Proof.
  rewrite <- (concat_split_lines s) at 2. induction (split_lines_nonempty s) as [|l ls Hl _ IH]; [done|].
  cbn. rewrite length_app. destruct l; [done|]. cbn. lia.
Qed.

(** Both texts in one table, as [diff_middle] makes it. *)
Lemma tokenize_two (ma mb : bytes) base :
  let n := count_char ma NEWLINE + 1 + (count_char mb NEWLINE + 1) in
  (Z.of_nat (base + length ma) <= u32_max)%Z -> (Z.of_nat (base + length mb) <= u32_max)%Z ->
  (Z.of_nat (length ma + length mb) <= EMPTY)%Z ->
  exists t1 t2 ka kb,
    tokenize ma base (with_capacity n) [] [] = Some (t1, (Z.of_nat <$> ka : list u32), base :: ends base (split_lines ma)) /\
    tokenize mb base t1 [] [] = Some (t2, (Z.of_nat <$> kb : list u32), base :: ends base (split_lines mb)) /\
    NoDup (lines t2) /\
    Forall2 (fun l k => lines t2 !! k = Some l) (split_lines ma) ka /\
    Forall2 (fun l k => lines t2 !! k = Some l) (split_lines mb) kb.
Proof.
  intros n Ba Bb Hsum. pose proof (length_split_lines ma) as La. pose proof (length_split_lines mb) as Lb.
  pose proof (split_lines_count ma) as Ca. pose proof (split_lines_count mb) as Cb.
  destruct (with_capacity_ok n) as (Ht & Hcap & Hl0).
  set (t0 := with_capacity n) in *. clearbody t0. unfold n in Hcap. assert (length (lines t0) = 0) as Hz by by rewrite Hl0.
  destruct (tokenize_spec ma base Ba t0 Ht) as (t1 & ka & E1 & Ht1 & Hc1 & Hn1); [lia|unfold EMPTY in *; lia|].
  rewrite Hl0 in Hn1. symmetry in Hn1. pose proof (number_all_spec _ _ _ _ Hn1) as [_ Hka].
  pose proof (number_all_length _ _ _ _ Hn1) as Hlen1. cbn in Hlen1.
  destruct (tokenize_spec mb base Bb t1 Ht1) as (t2 & kb & E2 & Ht2 & Hc2 & Hn2); [lia|unfold EMPTY in *; lia|].
  symmetry in Hn2. pose proof (number_all_spec _ _ _ _ Hn2) as [Hpref Hkb].
  exists t1, t2, ka, kb. splits; [done|done|apply Ht2| |done].
  eapply Forall2_impl; [exact Hka|]. intros l k Hk. eapply prefix_lookup_Some; [exact Hk|exact Hpref].
Qed.

(** Equal numbers are equal lines. *)
Lemma same_tokens (known la lb : list bytes) (ka kb : list nat) i j n :
  Forall2 (fun l k => known !! k = Some l) la ka -> Forall2 (fun l k => known !! k = Some l) lb kb ->
  same (Z.of_nat <$> ka : list u32) (Z.of_nat <$> kb) i j n -> same la lb i j n.
Proof.
  intros Ha Hb (H1 & H2 & Hs). rewrite length_fmap in H1, H2.
  rewrite <- (Forall2_length _ _ _ Ha) in H1. rewrite <- (Forall2_length _ _ _ Hb) in H2.
  split; [done|]. split; [done|]. intros k Hk. specialize (Hs k Hk). rewrite !list_lookup_fmap in Hs.
  destruct (lookup_lt_is_Some_2 la (i + k) ltac:(lia)) as [l Hl]. destruct (lookup_lt_is_Some_2 lb (j + k) ltac:(lia)) as [l' Hl'].
  destruct (Forall2_lookup_l _ _ _ _ _ Ha Hl) as (x & Hx & Ex). destruct (Forall2_lookup_l _ _ _ _ _ Hb Hl') as (y & Hy & Ey).
  rewrite Hx, Hy in Hs. cbn in Hs. injection Hs as Hxy. assert (x = y) as -> by lia. congruence.
Qed.

Lemma split_lines_end s k l :
  split_lines s !! k = Some l -> S k < length (split_lines s) -> exists l', l = l' ++ [NEWLINE].
Proof.
  revert k l. induction s as [|x s IH]; intros k l; cbn [split_lines]; [done|].
  destruct (Z.eqb_spec x NEWLINE) as [->|Hx].
  - destruct k as [|k]; cbn; [intros [= <-] _; by exists []|]. intros Hk Hlt. apply (IH k); [done|lia].
  - destruct (split_lines s) as [|l0 ls]; [destruct k; cbn; lia|]. destruct k as [|k]; cbn.
    + intros [= <-] Hlt. destruct (IH 0 l0) as [l' ->]; [done|cbn; lia|]. by exists (x :: l').
    + intros Hk Hlt. apply (IH (S k)); done.
Qed.

Section Offsets.
Context (pre suf : bytes) (ls : list bytes) (Hls : Forall (fun l => l <> []) ls).
#[local] Abbreviation text := (pre ++ concat ls ++ suf).
#[local] Abbreviation off := (offset (length pre) ls).

Lemma concat_take_drop k : concat ls = concat (take k ls) ++ concat (drop k ls).
Proof using Type. by rewrite <- concat_app, take_drop. Qed.

Lemma drop_offset k : drop (off k) text = concat (drop k ls) ++ suf.
Proof using Type.
  unfold offset. rewrite <- drop_drop, drop_app_length, (concat_take_drop k), <- app_assoc. apply drop_app_length.
Qed.

Lemma offset_add k n : off (k + n) = off k + length (concat (take n (drop k ls))).
Proof using Type.
  unfold offset. rewrite <- Nat.add_assoc. f_equal. rewrite <- length_app, <- concat_app. f_equal. f_equal.
  by rewrite take_take_drop.
Qed.

Lemma offset_le_text k : off k <= length text.
Proof using Type.
  unfold offset. rewrite (concat_take_drop k), !length_app. lia.
Qed.

Lemma offset_lt k k' : k < k' <= length ls -> off k < off k'.
Proof using Hls.
  intros Hk. replace k' with (k + (k' - k)) by lia. rewrite offset_add.
  destruct (lookup_lt_is_Some_2 ls k ltac:(lia)) as [l Hl]. rewrite (drop_S ls l k) by done.
  destruct (k' - k) as [|n] eqn:E; [lia|]. cbn [take concat]. rewrite length_app.
  pose proof (Forall_lookup_1 _ _ _ _ Hls Hl) as Hne. cbn in Hne. destruct l; [done|cbn; lia].
Qed.

Lemma offset_le k k' : k <= k' <= length ls -> off k <= off k'.
Proof using Hls.
  intros Hk. destruct (decide (k = k')) as [-> |]; [lia|]. pose proof (offset_lt k k'). lia.
Qed.

Lemma offset_inj k k' : k <= length ls -> k' <= length ls -> off k = off k' -> k = k'.
Proof using Hls.
  intros ? ? E. destruct (Nat.lt_trichotomy k k') as [C|[C|C]]; [|done|].
  - pose proof (offset_lt k k'). lia.
  - pose proof (offset_lt k' k). lia.
Qed.

Lemma offset_end : off (length ls) = length pre + length (concat ls).
Proof using Type. unfold offset. by rewrite firstn_all. Qed.
End Offsets.

(** ** The hunks of the middles *)
(** What [diff_lines] makes sure of before it slides the hunks. *)
Record line_hunks (a b : list u8) (hs : list Hunk) : Prop := {
  lines_script : script a b 0 0 hs;
  lines_separated : separated hs;
  lines_proper : all_proper hs;
  lines_edges : Forall (hunk_edges a b) hs
}.

Lemma line_hunks_flip a b hs : line_hunks a b hs -> line_hunks b a (flip <$> hs).
Proof.
  intros [Hs Hsep Hp He]. split; [by apply script_flip| | |].
  - clear - Hsep. induction Hsep as [|h hs _ IH Hhd]; [constructor|]. cbn. constructor; [done|].
    destruct Hhd as [|h' hs Ht]; cbn; constructor. unfold touches in *. cbn. by rewrite andb_comm.
  - clear - Hp. apply Forall_fmap. eapply Forall_impl; [exact Hp|]. intros h. cbn. unfold proper. cbn. by rewrite orb_comm.
  - clear - He. apply Forall_fmap. eapply Forall_impl; [exact He|]. intros h (? & ? & ? & ?). by split_and!.
Qed.

(** [x] ends where a line does, before [rest]. *)
Definition at_edge (x rest : bytes) : Prop := rest = [] \/ x = [] \/ exists p, x = p ++ [NEWLINE].

Lemma at_edge_line x rest : at_edge x rest -> line_edge (x ++ rest : list u8) (length x).
Proof.
  intros [-> | [-> | (p & ->)]]; [right; left; by rewrite app_nil_r|by left|].
  right. right. exists NEWLINE. split; [|done]. rewrite length_app. cbn.
  rewrite Nat.add_sub, <- app_assoc. by apply (list_lookup_middle p _ NEWLINE).
Qed.

(** Two texts with a common head and a common tail, which all start where lines do. *)
Section Frame.
Context (pre ma mb suf : bytes).
Context (Hpre : pre = [] \/ exists p, pre = p ++ [NEWLINE]).
Context (Hma : at_edge (pre ++ ma) suf) (Hmb : at_edge (pre ++ mb) suf).
#[local] Abbreviation a := (pre ++ ma ++ suf : list u8).
#[local] Abbreviation b := (pre ++ mb ++ suf : list u8).
#[local] Abbreviation head := (length pre).

Lemma same_pre : same a b 0 0 head.
Proof using Type.
  apply text_same; [rewrite length_app; lia..|]. rewrite !drop_0, !take_app_length. done.
Qed.

Lemma same_suf : same a b (head + length ma) (head + length mb) (length suf).
Proof using Type.
  apply text_same; [rewrite !length_app; lia..|]. rewrite <- !drop_drop, !drop_app_length. done.
Qed.

(** The edge of lines within the middle. *)
Lemma edge_in (m m1 m2 : bytes) :
  m = m1 ++ m2 -> m1 = [] \/ (exists p, m1 = p ++ [NEWLINE]) \/ m2 = [] -> at_edge (pre ++ m) suf ->
  line_edge (pre ++ m ++ suf : list u8) (head + length m1).
Proof using Hpre.
  intros -> Hm1 Hm. rewrite <- length_app, <- (app_assoc m1), (app_assoc pre). apply at_edge_line.
  destruct Hm1 as [-> |[(p & ->)| ->]].
  - right. rewrite app_nil_r. done.
  - right. right. exists (pre ++ p). by rewrite app_assoc.
  - rewrite app_nil_r in Hm. done.
Qed.

Lemma edge_head (m : bytes) : at_edge (pre ++ m) suf -> line_edge (pre ++ m ++ suf : list u8) head.
Proof using Hpre.
  intros Hm. rewrite <- (Nat.add_0_r head). by apply (edge_in m [] m); [|left|].
Qed.

Lemma edge_end (m : bytes) : at_edge (pre ++ m) suf -> line_edge (pre ++ m ++ suf : list u8) (head + length m).
Proof using Hpre. intros Hm. apply (edge_in m m []); [by rewrite app_nil_r|by right; right|done]. Qed.

Lemma whole_hunks :
  ma <> [] \/ mb <> [] ->
  line_hunks a b [{| a_lo := head; a_hi := head + length ma; b_lo := head; b_hi := head + length mb |}].
Proof using Hpre Hma Hmb.
  intros Hne. split.
  - exists head. cbn. split; [done|]. split; [done|]. split; [apply same_pre|]. split; [lia|]. split; [lia|].
    exists (length suf). rewrite !length_app. split; [lia|]. split; [lia|]. apply same_suf.
  - by repeat constructor.
  - constructor; [|constructor]. apply proper_iff. cbn. destruct ma, mb; cbn; try lia. by destruct Hne.
  - constructor; [|constructor]. split; [by apply edge_head|]. split; [by apply edge_end|].
    split; [by apply edge_head|by apply edge_end].
Qed.

(** One line among many: [ma] is the line, found between [m1] and [m2]. *)
Lemma found_hunks m1 m2 :
  ma <> [] -> mb = m1 ++ ma ++ m2 ->
  m1 = [] \/ (exists p, m1 = p ++ [NEWLINE]) -> (exists p, ma = p ++ [NEWLINE]) \/ m2 = [] ->
  line_hunks a b ((if 0 <? length m1 then [mk_hunk head false 0 0 0 (length m1)] else []) ++
                  (if length m1 + length ma <? length mb then
                     [mk_hunk head false (length ma) (length ma) (length m1 + length ma) (length mb)] else [])).
Proof using Hpre Hma Hmb.
  intros Hne Emb Hm1 Hm2.
  assert (0 < length ma) by (destruct ma; [done|cbn; lia]).
  assert (length mb = length m1 + length ma + length m2) as Hlen by (rewrite Emb, !length_app; lia).
  assert (same a b head (head + length m1) (length ma)) as Hs.
  { apply text_same; [rewrite !length_app; lia..|].
    rewrite <- drop_drop, !drop_app_length, take_app_length, Emb, <- !app_assoc, drop_app_length. by rewrite take_app_length. }
  assert (line_edge b (head + length m1)) as He1.
  { apply (edge_in mb m1 (ma ++ m2)); [done| |done]. destruct Hm1; [by left|by right; left]. }
  assert (line_edge b (head + (length m1 + length ma))) as He2.
  { rewrite <- length_app. apply (edge_in mb (m1 ++ ma) m2); [by rewrite <- app_assoc| |done].
    right. destruct Hm2 as [(p & ->)| ->]; [left; exists (m1 ++ p); by rewrite app_assoc|by right]. }
  pose proof (edge_head ma Hma) as Hha. pose proof (edge_head mb Hmb) as Hhb.
  pose proof (edge_end ma Hma) as Hea. pose proof (edge_end mb Hmb) as Heb.
  set (h1 := mk_hunk head false 0 0 0 (length m1)).
  set (h2 := mk_hunk head false (length ma) (length ma) (length m1 + length ma) (length mb)).
  assert (script a b head (head + length m1) [h2]) as S2.
  { exists (length ma). cbn. split; [done|]. split; [lia|]. split; [done|]. split; [lia|]. split; [lia|].
    exists (length suf). rewrite !length_app. split; [lia|]. split; [lia|]. apply same_suf. }
  set (l2 := if _ <? length mb then [h2] else []).
  assert (script a b head (head + length m1) l2) as S2'.
  { unfold l2. destruct (Nat.ltb_spec (length m1 + length ma) (length mb)); [done|].
    apply (script_skip _ _ _ _ h2); [done|done|cbn; lia]. }
  set (l1 := if 0 <? length m1 then [h1] else []).
  assert (all_proper l1 /\ Forall (hunk_edges a b) l1) as [P1 E1].
  { unfold l1. destruct (Nat.ltb_spec 0 (length m1)); [|split; constructor]. split; (constructor; [|constructor]).
    - apply proper_iff. cbn. lia.
    - unfold hunk_edges. cbn. rewrite !Nat.add_0_r. done. }
  assert (all_proper l2 /\ Forall (hunk_edges a b) l2) as [P2 E2].
  { unfold l2. destruct (Nat.ltb_spec (length m1 + length ma) (length mb)); [|split; constructor]. split; (constructor; [|constructor]).
    - apply proper_iff. cbn. lia.
    - unfold hunk_edges. cbn. done. }
  split; [| |by apply Forall_app|by apply Forall_app].
  - assert (script a b 0 0 (h1 :: l2)) as S1.
    { exists head. cbn. rewrite !Nat.add_0_r. split; [done|]. split; [done|]. split; [apply same_pre|].
      split; [lia|]. split; [lia|]. done. }
    unfold l1. destruct (Nat.ltb_spec 0 (length m1)); [exact S1|]. apply (script_skip _ _ _ _ h1); [done|done|cbn; lia].
  - unfold l1, l2. destruct (_ <? _), (_ <? _); cbn; unfold separated; repeat constructor.
    unfold touches, h1, h2. cbn. by rewrite (proj2 (Nat.eqb_neq _ _)) by lia.
Qed.

Lemma index_of_char_split s i : index_of_char s NEWLINE = Some i -> exists p, take (i + 1) s = p ++ [NEWLINE].
Proof using Type.
  intros E. pose proof (index_of_char_lt _ _ _ E). apply index_of_char_Some in E as [E _]. exists (take i s).
  assert (length (take i s) = i) as Hl by (rewrite length_take; lia). rewrite E at 1.
  rewrite <- Hl at 1. rewrite take_app_add. done.
Qed.

Lemma one_vs_loop_spec fuel start :
  ma <> [] -> start <= length mb -> length mb - start < fuel ->
  (start < length mb -> take start mb = [] \/ exists p, take start mb = p ++ [NEWLINE]) ->
  exists hs, one_vs_loop fuel ma mb head false start = Some hs /\ line_hunks a b hs.
Proof using Hpre Hma Hmb.
  intros Hne. revert start. induction fuel as [|fuel IH]; [lia|]. intros start Hst Hf Hedge. cbn [one_vs_loop].
  destruct (Nat.ltb_spec start (length mb)) as [Hlt|Hge].
  2: { eexists. split; [done|]. unfold mk_hunk. rewrite Nat.add_0_r. apply whole_hunks. by left. }
  rewrite slice_from_Some by lia. cbn [mbind option_bind].
  set (end_ := match index_of_char (drop start mb) NEWLINE with Some i => start + i + 1 | None => length mb end).
  assert (start < end_ <= length mb /\ ((exists p, take (end_ - start) (drop start mb) = p ++ [NEWLINE]) \/ end_ = length mb))
    as [Hend Hnl].
  { unfold end_. destruct (index_of_char (drop start mb) NEWLINE) as [i|] eqn:Ei; [|split; [lia|by right]].
    pose proof (index_of_char_lt _ _ _ Ei) as Hi. rewrite length_drop in Hi. split; [lia|]. left.
    replace (start + i + 1 - start) with (i + 1) by lia. by apply index_of_char_split. }
  rewrite slice_range_Some by lia. cbn [mbind option_bind]. case_bool_decide as Eq.
  - eexists. split; [done|].
    assert (length ma = end_ - start) as Hlma by (rewrite <- Eq, length_part; lia).
    assert (length (take start mb) = start) as Hl1 by (rewrite length_take; lia).
    pose proof (found_hunks (take start mb) (drop end_ mb) Hne) as Hfound. rewrite Hl1, Hlma in Hfound.
    replace (start + (end_ - start)) with end_ in Hfound by lia. rewrite Hlma. apply Hfound; [|by apply Hedge|].
    + rewrite <- (take_drop start mb) at 1. f_equal. rewrite <- (take_drop (end_ - start) (drop start mb)) at 1.
      rewrite Eq, drop_drop. by replace (start + (end_ - start)) with end_ by lia.
    + destruct Hnl as [(p & E)| ->]; [left; exists p; by rewrite <- Eq|right; by rewrite drop_ge].
  - apply IH; [lia|lia|]. intros Hlt'. right. destruct Hnl as [(p & E)|]; [|lia].
    exists (take start mb ++ p). rewrite <- app_assoc, <- E, take_take_drop. f_equal. lia.
Qed.

(** The interned lines. *)
#[local] Abbreviation la := (split_lines ma).
#[local] Abbreviation lb := (split_lines mb).

(** A hunk of lines, in bytes. *)
Definition in_bytes (h : Hunk) : Hunk :=
  {| a_lo := offset head la (a_lo h); a_hi := offset head la (a_hi h);
     b_lo := offset head lb (b_lo h); b_hi := offset head lb (b_hi h) |}.

Lemma same_lines i j n :
  same la lb i j n -> exists w, offset head la (i + n) = offset head la i + w /\
    offset head lb (j + n) = offset head lb j + w /\ same a b (offset head la i) (offset head lb j) w.
Proof using Type.
  intros Hs. pose proof (same_text _ _ _ _ _ Hs) as E. exists (length (concat (take n (drop i la)))).
  split; [apply (offset_add pre)|]. split; [rewrite E; apply (offset_add pre)|].
  pose proof (concat_split_lines ma) as Ca. pose proof (concat_split_lines mb) as Cb.
  pose proof (offset_le_text pre suf la (i + n)) as Ba. pose proof (offset_le_text pre suf lb (j + n)) as Bb.
  pose proof (drop_offset pre suf la i) as Da. pose proof (drop_offset pre suf lb j) as Db.
  rewrite (offset_add pre), Ca in Ba. rewrite (offset_add pre), Cb, <- E in Bb. rewrite Ca in Da. rewrite Cb in Db.
  assert (take (length (concat (take n (drop i la)))) (drop (offset head la i) (pre ++ ma ++ suf)) =
          take (length (concat (take n (drop i la)))) (drop (offset head lb j) (pre ++ mb ++ suf))) as Et.
  { rewrite Da, Db, (concat_take_drop (drop i la) n), (concat_take_drop (drop j lb) n), <- !app_assoc, take_app_length, E.
    by rewrite take_app_length. }
  by apply text_same.
Qed.

Lemma script_bytes i j hs :
  script la lb i j hs -> script a b (offset head la i) (offset head lb j) (in_bytes <$> hs).
Proof using Type.
  revert i j. induction hs as [|h hs IH]; intros i j.
  - intros (n & Ei & Ej & Hs). destruct (same_lines _ _ _ Hs) as (w & Ha & Hb & Hsame).
    rewrite <- Ei in Ha. rewrite <- Ej in Hb. rewrite (offset_end pre), concat_split_lines in Ha, Hb.
    exists (w + length suf). rewrite !length_app. split; [lia|]. split; [lia|]. apply same_app; [done|].
    rewrite <- Ha, <- Hb. apply same_suf.
  - intros (n & Ea & Eb & Hs & Hla & Hlb & Hr). destruct (same_lines _ _ _ Hs) as (w & Ha & Hb & Hsame).
    pose proof (script_bounds _ _ _ _ _ Hr) as [? ?].
    exists w. cbn. rewrite Ea, Eb. split; [done|]. split; [done|]. split; [done|]. rewrite <- Ea, <- Eb.
    split; [apply (offset_le pre la (split_lines_nonempty ma)); lia|].
    split; [apply (offset_le pre lb (split_lines_nonempty mb)); lia|]. by apply IH.
Qed.

Lemma offset_edge (m : bytes) k :
  at_edge (pre ++ m) suf -> k <= length (split_lines m) ->
  line_edge (pre ++ m ++ suf : list u8) (offset head (split_lines m) k).
Proof using Hpre.
  intros Hm Hk. unfold offset. apply (edge_in m (concat (take k (split_lines m))) (concat (drop k (split_lines m)))); [| |done].
  - by rewrite <- concat_app, take_drop, concat_split_lines.
  - destruct k as [|k]; [by left|]. right.
    destruct (decide (S k = length (split_lines m))) as [-> |]; [right; by rewrite drop_ge|]. left.
    destruct (lookup_lt_is_Some_2 (split_lines m) k ltac:(lia)) as [l Hl].
    destruct (split_lines_end m k l Hl ltac:(lia)) as [l' ->]. exists (concat (take k (split_lines m)) ++ l').
    rewrite (take_S_r _ _ _ Hl), concat_app. cbn. by rewrite app_nil_r, app_assoc.
Qed.

Lemma bytes_hunks hs :
  script la lb 0 0 hs -> separated hs -> all_proper hs ->
  mapM (hunk_bytes (head :: ends head la) (head :: ends head lb)) hs = Some (in_bytes <$> hs) /\
    line_hunks a b (in_bytes <$> hs).
Proof using Hpre Hma Hmb.
  intros Hs Hsep Hp.
  assert (Forall (fun h => a_lo h <= a_hi h <= length la /\ b_lo h <= b_hi h <= length lb) hs) as Hbd.
  { clear - Hs. revert Hs. generalize 0 at 1. generalize 0. induction hs as [|h hs IH]; intros j i; [constructor|].
    intros (n & _ & _ & _ & ? & ? & Hr). pose proof (script_bounds _ _ _ _ _ Hr). constructor; [lia|by eapply IH]. }
  split; [|split].
  - apply mapM_Some. rewrite Forall2_fmap_r. apply Forall_Forall2_diag. eapply Forall_impl; [exact Hbd|].
    intros h [? ?]. unfold hunk_bytes. rewrite !offsets_lookup by lia. done.
  - pose proof (script_bytes 0 0 hs Hs) as Hsb. unfold offset in Hsb at 1 2. cbn in Hsb. rewrite !Nat.add_0_r in Hsb.
    eapply script_extend; [apply same_pre|exact Hsb].
  - clear Hs Hp. induction Hsep as [|h hs _ IH Hhd]; [constructor|]. apply Forall_cons in Hbd as [Hh Hbd]. cbn.
    constructor; [by apply IH|]. destruct Hhd as [|h' hs Ht]; cbn; constructor. apply Forall_cons in Hbd as [Hh' _].
    unfold touches in *. cbn. apply andb_false_iff in Ht as [Ht%Nat.eqb_neq|Ht%Nat.eqb_neq]; apply andb_false_iff; [left|right];
      apply Nat.eqb_neq; intros E; apply Ht.
    + apply (offset_inj pre la (split_lines_nonempty ma)); (lia || done).
    + apply (offset_inj pre lb (split_lines_nonempty mb)); (lia || done).
  - apply Forall_fmap, Forall_forall. intros h Hh. cbn. pose proof (proj1 (Forall_forall _ _) Hbd h Hh) as [? ?].
    pose proof (proj1 (Forall_forall _ _) Hp h Hh) as Hph. cbn in Hph. apply proper_iff in Hph. apply proper_iff. cbn.
    destruct Hph; [left; apply (offset_lt pre la (split_lines_nonempty ma)); lia|
                   right; apply (offset_lt pre lb (split_lines_nonempty mb)); lia].
  - apply Forall_fmap. eapply Forall_impl; [exact Hbd|]. intros h [? ?]. cbn.
    split; [apply offset_edge; [done|lia]|]. split; [apply offset_edge; [done|lia]|].
    split; apply offset_edge; (done || lia).
Qed.

Lemma ids_ok (known ls : list bytes) (ks : list nat) :
  Forall2 (fun l k => known !! k = Some l) ls ks ->
  Forall (fun t : u32 => 0 <= t)%Z (Z.of_nat <$> ks) /\
  Forall (fun t : u32 => Z.to_nat t < length known) (Z.of_nat <$> ks).
Proof using Type.
  intros H2. split; apply Forall_fmap, Forall_forall; intros k Hk; cbn; [lia|].
  rewrite Nat2Z.id. apply list_elem_of_lookup in Hk as (i & Hi).
  destruct (Forall2_lookup_r _ _ _ _ _ H2 Hi) as (l & _ & Hl). by eapply lookup_lt_Some.
Qed.

Lemma script_tokens {A B} (a1 b1 : list A) (a2 b2 : list B) i j hs :
  length a1 = length a2 -> length b1 = length b2 ->
  (forall i j n, same a1 b1 i j n -> same a2 b2 i j n) -> script a1 b1 i j hs -> script a2 b2 i j hs.
Proof using Type.
  intros Ha Hb Hs. revert i j. induction hs as [|h hs IH]; intros i j; cbn; rewrite <- ?Ha, <- ?Hb.
  - intros (n & ? & ? & ?). exists n. auto.
  - intros (n & ? & ? & ? & ? & ? & ?). exists n. auto 10.
Qed.

Lemma diff_middle_spec :
  (Z.of_nat (length a) < MAX_LEN)%Z -> (Z.of_nat (length b) < MAX_LEN)%Z ->
  exists hs, diff_middle ma mb head = Some hs /\ line_hunks a b hs.
Proof using Hpre Hma Hmb.
  intros Hla Hlb. unfold MAX_LEN in Hla, Hlb. rewrite !length_app in Hla, Hlb. unfold diff_middle.
  change (2147483647 / 4)%Z with 536870911%Z in Hla, Hlb.
  destruct (tokenize_two ma mb head) as (t1 & t2 & ka & kb & -> & E2 & _ & Hka2 & Hkb); [unfold EMPTY; lia..|].
  cbn [mbind option_bind]. rewrite E2. cbn [mbind option_bind].
  destruct (ids_ok _ _ _ Hka2) as [Pa Ua]. destruct (ids_ok _ _ _ Hkb) as [Pb Ub].
  assert (short (Z.of_nat <$> ka) /\ short (Z.of_nat <$> kb)) as [Sa Sb].
  { unfold short. change MAX_LEN with 536870911%Z. rewrite !length_fmap.
    rewrite <- (Forall2_length _ _ _ Hka2), <- (Forall2_length _ _ _ Hkb).
    pose proof (length_split_lines ma). pose proof (length_split_lines mb). lia. }
  destruct (mark_lines_spec _ _ _ Pa Pb Ua Ub Sa Sb) as (ca & cb & -> & Hca & Hcb & Hm). cbn [mbind option_bind].
  assert (@Forall u32 elem_ok (Z.of_nat <$> ka)) as Hoa by exact Pa.
  assert (@Forall u32 elem_ok (Z.of_nat <$> kb)) as Hob by exact Pb.
  destruct (hunks_from_changed_spec _ _ Hoa Hob ca cb Hca Hcb Hm) as (hs & -> & Hs & Hp & Hsep). cbn [mbind option_bind].
  assert (script la lb 0 0 hs) as Hsl.
  { eapply script_tokens; [| |intros; eapply same_tokens; [exact Hka2|exact Hkb|done]|exact Hs].
    - rewrite length_fmap. by rewrite <- (Forall2_length _ _ _ Hka2).
    - rewrite length_fmap. by rewrite <- (Forall2_length _ _ _ Hkb). }
  destruct (bytes_hunks hs Hsl Hsep Hp) as [E Hgood]. exists (in_bytes <$> hs). by split.
Qed.
End Frame.

Lemma one_vs_loop_flip fuel one many base start :
  one_vs_loop fuel one many base true start = map flip <$> one_vs_loop fuel one many base false start.
Proof.
  revert start. induction fuel as [|fuel IH]; intros start; cbn [one_vs_loop]; [done|].
  destruct (start <? length many); [|done]. destruct (slice_from many start) as [rest|]; [|done]. cbn [mbind option_bind].
  destruct (slice_range many start _) as [line|]; [|done]. cbn [mbind option_bind].
  case_bool_decide; [|apply IH]. cbn. f_equal. rewrite map_app. f_equal; by case_match.
Qed.

(** *** The middles *)
Lemma middle_hunks_spec (pre ma mb suf : bytes) :
  pre = [] \/ (exists p, pre = p ++ [NEWLINE]) -> at_edge (pre ++ ma) suf -> at_edge (pre ++ mb) suf ->
  ma <> [] \/ mb <> [] ->
  (Z.of_nat (length (pre ++ ma ++ suf)) < MAX_LEN)%Z -> (Z.of_nat (length (pre ++ mb ++ suf)) < MAX_LEN)%Z ->
  exists hs, middle_hunks ma mb (length pre) (length pre + length ma) (length pre + length mb) = Some hs /\
    line_hunks (pre ++ ma ++ suf) (pre ++ mb ++ suf) hs.
Proof.
  intros Hpre Hma Hmb Hne Hla Hlb. unfold middle_hunks.
  destruct (_ || _) eqn:E; [eexists; split; [done|by apply whole_hunks]|].
  apply orb_false_iff in E. rewrite !Nat.eqb_neq in E. destruct E as [Ea Eb].
  assert (ma <> []) as Hnea by (by destruct ma). assert (mb <> []) as Hneb by (by destruct mb).
  destruct (single ma).
  { apply one_vs_loop_spec; (done || lia || (rewrite firstn_O; by left)). }
  destruct (single mb).
  { unfold one_vs_lines. rewrite one_vs_loop_flip.
    destruct (one_vs_loop_spec pre mb ma suf Hpre Hmb Hma (S (length ma)) 0) as (hs & -> & Hhs);
      [done|lia|lia|by left|]. eexists. split; [done|]. by apply line_hunks_flip. }
  by apply diff_middle_spec.
Qed.

(** ** Common ends, on line boundaries *)
Lemma last_index_of_char_Some s c i : last_index_of_char s c = Some i -> s !! i = Some c.
Proof.
  unfold last_index_of_char. intros (j & Hj & ->)%fmap_Some. pose proof (index_of_char_lt _ _ _ Hj) as Hlt.
  rewrite length_rev in Hlt. rewrite <- rev_lookup_end by done.
  apply index_of_char_Some in Hj as [E _]. rewrite E.
  rewrite lookup_app_r by (rewrite length_take, length_rev; lia).
  rewrite length_take, length_rev, Nat.min_l by lia. by rewrite Nat.sub_diag.
Qed.

Lemma take_edge (s : bytes) k : 0 < k -> s !! (k - 1) = Some NEWLINE -> exists p, take k s = p ++ [NEWLINE].
Proof.
  intros ? E. exists (take (k - 1) s). replace k with (S (k - 1)) at 1 by lia. by rewrite (take_S_r _ _ _ E).
Qed.

Lemma snap_head_spec a p :
  p <= length a -> exists head, snap_head a p = Some head /\ head <= p /\
    (take head a = [] \/ exists q, take head a = q ++ [NEWLINE]).
Proof.
  intros Hp. unfold snap_head.
  assert (exists r, (if 0 <? p then c ← a !! (p - 1); Some (c =? NEWLINE)%Z else Some false) = Some r /\
            (r = true -> 0 < p /\ a !! (p - 1) = Some NEWLINE)) as (r & -> & Hr).
  { destruct (Nat.ltb_spec 0 p); [|by eexists]. destruct (lookup_lt_is_Some_2 a (p - 1) ltac:(lia)) as [c Hc].
    rewrite Hc. cbn. eexists. split; [done|]. intros ->%Z.eqb_eq. done. }
  cbn [mbind option_bind]. destruct r.
  { destruct Hr as [? Hr]; [done|]. exists p. split; [done|]. split; [done|]. right. by apply take_edge. }
  rewrite slice_range_Some by lia. cbn [mbind option_bind]. rewrite drop_0, Nat.sub_0_r.
  destruct (last_index_of_char (take p a) NEWLINE) as [i|] eqn:Ei; [|exists 0; split; [done|]; split; [lia|by left]].
  apply last_index_of_char_Some in Ei. pose proof (lookup_lt_Some _ _ _ Ei) as Hi. rewrite length_take in Hi.
  rewrite lookup_take_lt in Ei by lia. exists (i + 1). split; [done|]. split; [lia|]. right. apply take_edge; [lia|].
  by replace (i + 1 - 1) with i by lia.
Qed.

Lemma at_line_start_spec s at_ head :
  head <= at_ <= length s -> (take head s = [] \/ exists q, take head s = q ++ [NEWLINE]) ->
  exists r, at_line_start s at_ head = Some r /\ (r = true -> at_edge (take at_ s) (drop at_ s)).
Proof.
  intros Hat Hhead. unfold at_line_start. destruct (Nat.eqb_spec at_ head) as [-> |].
  { eexists. split; [done|]. intros _. by right. }
  rewrite usub_Some by lia. cbn [mbind option_bind]. destruct (lookup_lt_is_Some_2 s (at_ - 1) ltac:(lia)) as [c Hc].
  rewrite Hc. cbn [mbind option_bind]. eexists. split; [done|]. intros ->%Z.eqb_eq. right. right. apply take_edge; [lia|done].
Qed.

Lemma snap_ends_spec a b head s :
  (take head a = [] \/ exists q, take head a = q ++ [NEWLINE]) -> take head a = take head b ->
  s <= length a - head -> s <= length b - head -> head <= length a -> head <= length b ->
  drop (length a - s) a = drop (length b - s) b ->
  exists ae be_, snap_ends a b head s = Some (ae, be_) /\ head <= ae <= length a /\ head <= be_ <= length b /\
    drop ae a = drop be_ b /\ at_edge (take ae a) (drop ae a) /\ at_edge (take be_ b) (drop be_ b).
Proof.
  intros Hhead Hsame Hsa Hsb Hla Hlb Hd. unfold snap_ends. rewrite !usub_Some by lia. cbn [mbind option_bind].
  destruct (at_line_start_spec a (length a - s) head ltac:(lia) Hhead) as (ra & -> & Hra).
  rewrite Hsame in Hhead.
  destruct (at_line_start_spec b (length b - s) head ltac:(lia) Hhead) as (rb & -> & Hrb).
  cbn [mbind option_bind]. destruct (ra && rb) eqn:E.
  { apply andb_true_iff in E as [-> ->]. eexists _, _. split; [done|]. split; [lia|]. split; [lia|]. auto. }
  rewrite slice_from_Some by lia. cbn [mbind option_bind].
  destruct (index_of_char (drop (length a - s) a) NEWLINE) as [i|] eqn:Ei.
  - pose proof (index_of_char_lt _ _ _ Ei) as Hi. rewrite length_drop in Hi.
    apply index_of_char_Some in Ei as [Ei _].
    assert (forall t : bytes, s <= length t -> drop (length t - s) t = drop (length a - s) a ->
              t !! (length t - s + (i + 1) - 1) = Some NEWLINE) as Hnl.
    { intros t Ht Et. replace (length t - s + (i + 1) - 1) with (length t - s + i) by lia. rewrite <- lookup_drop, Et, Ei.
      rewrite lookup_app_r by (rewrite length_take, length_drop; lia).
      rewrite length_take, length_drop, Nat.min_l by lia. by rewrite Nat.sub_diag. }
    eexists _, _. split; [done|]. split; [lia|]. split; [lia|]. split; [by rewrite <- !drop_drop, Hd|].
    split; right; right; (apply take_edge; [lia|]); apply Hnl; (done || lia).
  - eexists _, _. split; [done|]. split; [lia|]. split; [lia|]. rewrite !drop_ge by lia. split; [done|]. split; by left.
Qed.

(** ** [diff_lines] *)
Lemma line_hunks_whole (a b : list u8) :
  0 < length a \/ 0 < length b -> line_hunks a b [{| a_lo := 0; a_hi := length a; b_lo := 0; b_hi := length b |}].
Proof.
  intros Hne. split; [|by repeat constructor| |].
  - exists 0. cbn. split; [done|]. split; [done|]. split; [apply same_0; lia|]. split; [lia|]. split; [lia|].
    exists 0. split; [lia|]. split; [lia|]. by apply same_0.
  - constructor; [|constructor]. by apply proper_iff.
  - constructor; [|constructor]. split; [by left|]. split; [by right; left|]. split; [by left|by right; left].
Qed.

Lemma slice_frame (s : bytes) i j :
  i <= j -> s = take i s ++ take (j - i) (drop i s) ++ drop j s.
Proof.
  intros ?. rewrite <- (take_drop i s) at 1. f_equal. rewrite <- (take_drop (j - i) (drop i s)) at 1. f_equal.
  rewrite drop_drop. f_equal. lia.
Qed.

Lemma diff_lines_spec (a b : bytes) :
  Forall is_byte a -> Forall is_byte b -> exists hs, diff_lines a b = Some hs /\ line_hunks a b hs.
Proof.
  intros Ha Hb. unfold diff_lines. rewrite (prefix_law (T := u8)) by done. cbn [mbind option_bind].
  set (p := prefix_loop (a : list u8) b).
  assert (p <= length a /\ p <= length b /\ (forall h, h <= p -> take h a = take h b) /\
          (p = length a -> p = length b -> a = b) /\ (a = b -> p = length a)) as (Hp1 & Hp2 & Hsame & Heq & Hfull)
    by exact (heads_same (a : list u8) b p eq_refl). clearbody p.
  destruct ((p =? length a) && (p =? length b)) eqn:E.
  { apply andb_true_iff in E as [Ea%Nat.eqb_eq Eb%Nat.eqb_eq]. exists []. split; [done|].
    pose proof (Heq Ea Eb) as <-. split; [|constructor|constructor|constructor]. exists (length a).
    split; [done|]. split; [done|]. split; [done|]. by split. }
  destruct (Z.leb_spec MAX_LEN (Z.of_nat (Nat.max (length a) (length b)))) as [Hbig|Hsmall].
  { unfold MAX_LEN in Hbig. change (2147483647 / 4)%Z with 536870911%Z in Hbig.
    assert (0 < length a \/ 0 < length b) as Hne by lia. eexists. split; [done|]. exact (line_hunks_whole a b Hne). }
  destruct (snap_head_spec a p Hp1) as (head & -> & Hhead & Hedge). cbn [mbind option_bind].
  assert (head <= length a /\ head <= length b) as [Hha Hhb] by lia.
  rewrite (slice_from_Some (A := u8) a head Hha), (slice_from_Some (A := u8) b head Hhb). cbn [mbind option_bind].
  rewrite (suffix_law (T := u8)) by (by apply Forall_drop). cbn [mbind option_bind].
  match goal with |- context [suffix_loop ?x ?y] => set (s := suffix_loop x y) end.
  assert (s <= length a - head /\ s <= length b - head /\ drop (length a - s) a = drop (length b - s) b) as (Hs1 & Hs2 & Hss)
    by exact (tails_same (a : list u8) b head s Hha Hhb eq_refl). clearbody s.
  pose proof (Hsame head Hhead) as Hpre.
  destruct (snap_ends_spec a b head s Hedge Hpre Hs1 Hs2 Hha Hhb Hss) as (ae & be_ & -> & Hae & Hbe & Hsuf & Hea & Heb).
  cbn [mbind option_bind]. rewrite !slice_range_Some by lia. cbn [mbind option_bind].
  set (pre := take head a) in *. set (ma := take (ae - head) (drop head a)). set (mb := take (be_ - head) (drop head b)).
  set (suf := drop ae a) in *.
  assert (a = pre ++ ma ++ suf) as Ea by (apply slice_frame; lia).
  assert (b = pre ++ mb ++ suf) as Eb by (rewrite Hpre, Hsuf; apply slice_frame; lia).
  assert (length pre = head) as Hlp by (unfold pre; rewrite length_take; lia).
  assert (length ma = ae - head) as Hlma by (apply length_part; lia).
  assert (length mb = be_ - head) as Hlmb by (apply length_part; lia).
  assert (take ae a = pre ++ ma) as Eta.
  { unfold pre, ma. rewrite take_take_drop. f_equal. lia. }
  assert (take be_ b = pre ++ mb) as Etb.
  { rewrite Hpre. unfold mb. rewrite take_take_drop. f_equal. lia. }
  rewrite Eta in Hea. rewrite Etb, <- Hsuf in Heb.
  destruct (middle_hunks_spec pre ma mb suf Hedge Hea Heb) as (hs & Hhs & Hgood).
  { destruct (decide (ma = [])) as [E1|]; [|by left]. destruct (decide (mb = [])) as [E2|]; [|by right].
    exfalso. assert (a = b) as Eab by congruence. pose proof (Hfull Eab) as Ep. rewrite <- Eab, Ep, Nat.eqb_refl in E. done. }
  { rewrite <- Ea. lia. }
  { rewrite <- Eb. lia. }
  rewrite Hlp, Hlma, Hlmb in Hhs. replace (head + (ae - head)) with ae in Hhs by lia.
  replace (head + (be_ - head)) with be_ in Hhs by lia. rewrite Hhs. cbn [mbind option_bind].
  rewrite <- Ea, <- Eb in Hgood. destruct Hgood as [Hg1 Hg2 Hg3 Hg4].
  assert (@Forall u8 elem_ok a) as Hoa by exact Ha. assert (@Forall u8 elem_ok b) as Hob by exact Hb.
  destruct (slide_line_hunks_spec (T := u8) a b Hoa Hob hs Hg1 Hg2) as (hs' & -> & ? & ? & ? & ?).
  exists hs'. split; [done|]. split; auto.
Qed.

(** ** What the line diff promises *)

(** C25. The hunks of the line diff turn the old text into the new one, whatever the texts:
    replacing in [a] what each hunk deletes by what it inserts gives [b].  The diff never
    fails; between the hunks the texts are equal, no hunk is empty or touches another,
    and in both texts every hunk starts and ends where a line does, also after the slides
    that move a change to a better place. *)
Theorem diff_lines_rebuilds (a b : bytes) (Ha : Forall is_byte a) (Hb : Forall is_byte b) :
  exists hs, diff_lines a b = Some hs /\ patch a b 0 hs = b /\ script a b 0 0 hs /\
    separated hs /\ all_proper hs /\ Forall (hunk_edges (a : list u8) b) hs.
Proof.
  destruct (diff_lines_spec a b Ha Hb) as (hs & E & [Hs Hsep Hp He]). exists hs. splits; try done.
  by rewrite (patch_script a b 0 0 hs Hs).
Qed.

(** Interning the lines of both texts in one hash table numbers them so that two lines
    have the same number exactly when they are the same bytes, under any collisions of
    the hash or of its 32-bit tag, and the table never overflows; the offsets are where
    the lines end. *)
Theorem tokens_tell_lines (ma mb : bytes) base
    (Ba : (Z.of_nat (base + length ma) <= u32_max)%Z) (Bb : (Z.of_nat (base + length mb) <= u32_max)%Z)
    (Hsum : (Z.of_nat (length ma + length mb) <= EMPTY)%Z) :
  exists t1 t2 ta tb,
    tokenize ma base (with_capacity (count_char ma NEWLINE + 1 + (count_char mb NEWLINE + 1))) [] []
      = Some (t1, ta, base :: ends base (split_lines ma)) /\
    tokenize mb base t1 [] [] = Some (t2, tb, base :: ends base (split_lines mb)) /\
    concat (split_lines ma) = ma /\ concat (split_lines mb) = mb /\
    Forall2 (fun l x => Forall2 (fun l' y => x = y <-> l = l') (split_lines mb) tb) (split_lines ma) ta.
Proof.
  destruct (tokenize_two ma mb base Ba Bb Hsum) as (t1 & t2 & ka & kb & E1 & E2 & Hnd & Hka & Hkb).
  exists t1, t2, (Z.of_nat <$> ka), (Z.of_nat <$> kb). splits; [done|done|apply concat_split_lines|apply concat_split_lines|].
  apply Forall2_fmap_r. eapply Forall2_impl; [exact Hka|]. intros l k Hk. cbn beta.
  apply Forall2_fmap_r. eapply Forall2_impl; [exact Hkb|]. intros l' k' Hk'. cbn beta. split.
  - intros E. assert (k = k') as -> by lia. congruence.
  - intros ->. f_equal. eapply NoDup_lookup; eauto.
Qed.

Definition old_text : bytes := bstr "fn a() {
    x
}

fn b() {
    y
}
".
Definition new_text : bytes := bstr "fn a() {
    x
}

fn c() {
    z
}

fn b() {
    y
}
".

(** The slides show the new function and the empty line after it. *)
Example diff_lines_example :
  diff_lines old_text new_text = Some [{| a_lo := 18; a_hi := 18; b_lo := 18; b_hi := 36 |}].
Proof. vm_compute. reflexivity. Qed.

Lemma diff_lines_rebuilds_witness :
  exists hs, diff_lines old_text new_text = Some hs /\ patch old_text new_text 0 hs = new_text /\
    script old_text new_text 0 0 hs /\
    separated hs /\ all_proper hs /\ Forall (hunk_edges (old_text : list u8) new_text) hs.
Proof. apply (diff_lines_rebuilds old_text new_text); decide_now. Defined.

Lemma tokens_tell_lines_witness :
  exists t1 t2 ta tb,
    tokenize old_text 3 (with_capacity (count_char old_text NEWLINE + 1 + (count_char new_text NEWLINE + 1))) [] []
      = Some (t1, ta, 3 :: ends 3 (split_lines old_text)) /\
    tokenize new_text 3 t1 [] [] = Some (t2, tb, 3 :: ends 3 (split_lines new_text)) /\
    concat (split_lines old_text) = old_text /\ concat (split_lines new_text) = new_text /\
    Forall2 (fun l x => Forall2 (fun l' y => x = y <-> l = l') (split_lines new_text) tb) (split_lines old_text) ta.
Proof. apply (tokens_tell_lines old_text new_text 3); vm_compute; discriminate. Defined.
