(* ===== verification/DiffChars.v ===== *)
(** * The diff of characters (text_diff/lib.rs)

    [CharDiff]: the raw hunks ([whole]), diff-match-patch's semantic cleanup with the
    longest overlap of two edits ([common_overlap]), and the two entry points [diff] and
    [diff_as_fast_diff].

    Both are proved to return a script of the two texts, whatever the texts are; if these
    are made of whole characters, every hunk is, too.  [common_overlap] is proved to find
    what a search of all lengths finds. *)

From S2P Require Import Prelude Bytes DiffHunks DiffElems DiffMyers DiffSearch.

#[local] Open Scope nat_scope.

(** ** Overlaps *)
Definition OVERLAP_MAX : nat := 64 * 1024.

(** [while k > 0 && c != y[k] { k = fail[k - 1] }] *)
Fixpoint fall_back (fuel : nat) (fail : list nat) (y : bytes) (c : Z) (k : nat) : option nat :=
  match fuel with
  | 0 => None
  | S fuel =>
      if 0 <? k then
        d ← y !! k;
        if (c =? d)%Z then Some k else i ← usub k 1; k ← fail !! i; fall_back fuel fail y c k
      else Some k
  end.
(** One step of the automaton. *)
Definition advance (fail : list nat) (y : bytes) (c : Z) (k : nat) : option nat :=
  k ← fall_back (S k) fail y c k;
  d ← y !! k;
  Some (if (c =? d)%Z then k + 1 else k).

(** The failure function of [y], from [i] on. *)
Fixpoint build_fail (fuel : nat) (y : bytes) (i k : nat) (fail : list nat) : option (list nat) :=
  match fuel with
  | 0 => None
  | S fuel =>
      if i <? length y then
        c ← y !! i;
        k ← advance fail y c k;
        fail ← set_at fail i k;
        build_fail fuel y (S i) k fail
      else Some fail
  end.
Fixpoint run_overlap (fail : list nat) (y : bytes) (n : nat) (x : bytes) (k : nat) : option nat :=
  match x with
  | [] => Some k
  | c :: x =>
      k ← advance fail y c k;
      k ← (if k =? n then i ← usub k 1; fail !! i else Some k);
      run_overlap fail y n x k
  end.

(** [(1..n).rev().find(..)], from [k] down. *)
Fixpoint find_overlap (n : nat) (x y : bytes) (k : nat) : nat :=
  match k with
  | 0 => 0
  | S k' => if bool_decide (drop (n - k) x = take k y) then k else find_overlap n x y k'
  end.

Definition common_overlap (x y : bytes) : option nat :=
  let n := Nat.min (Nat.min (length x) (length y)) OVERLAP_MAX in
  if n =? 0 then Some 0
  else
    i ← usub (length x) n;
    x ← slice_from x i;
    y ← slice_range y 0 n;
    if bool_decide (x = y) then Some n
    else if n <=? 16 then Some (find_overlap n x y (n - 1))
    else
      fail ← build_fail n y 1 0 (replicate n 0);
      run_overlap fail y n x 0.

(** ** Scores *)
Definition is_ascii_control (c : Z) : bool := (c <=? 31)%Z || (c =? 127)%Z.
Definition starts_with (s p : bytes) : bool := bool_decide (take (length p) s = p).
Definition ends_with (s p : bytes) : bool := (length p <=? length s) && bool_decide (drop (length s - length p) s = p).

Definition semantic_score (one two : bytes) : nat :=
  match last one, head two with
  | Some char1, Some char2 =>
      let non_alphanumeric1 := negb (is_ascii_alphanumeric char1) in
      let non_alphanumeric2 := negb (is_ascii_alphanumeric char2) in
      let whitespace1 := non_alphanumeric1 && is_ascii_whitespace char1 in
      let whitespace2 := non_alphanumeric2 && is_ascii_whitespace char2 in
      let line_break1 := whitespace1 && is_ascii_control char1 in
      let line_break2 := whitespace2 && is_ascii_control char2 in
      let blank_line1 := line_break1 && (ends_with one [10; 10] || ends_with one [10; 13; 10])%Z in
      let blank_line2 := line_break2 &&
        (starts_with two [10; 10] || starts_with two [13; 10; 10] || starts_with two [10; 13; 10] ||
         starts_with two [13; 10; 13; 10])%Z in
      if blank_line1 || blank_line2 then 5
      else if line_break1 || line_break2 then 4
      else if non_alphanumeric1 && negb whitespace1 && whitespace2 then 3
      else if whitespace1 || whitespace2 then 2
      else if non_alphanumeric1 || non_alphanumeric2 then 1
      else 0
  | _, _ => 6
  end.

Definition is_utf8_cont (s : bytes) (i : nat) : bool :=
  match s !! i with Some c => (Z.land c 192 =? 128)%Z | None => false end.

(** ** [cleanup_semantic] *)
Definition push_nonempty (hunks : list Hunk) (h : Hunk) : list Hunk := if proper h then hunks ++ [h] else hunks.

(** An equality no longer than the edits around it is folded into one edit; the hunks
    done are in reverse. *)
Fixpoint fold_back (done : list Hunk) (cur : Hunk) (changed : bool) : option (list Hunk * Hunk * bool) :=
  match done with
  | [] => Some ([], cur, changed)
  | l :: done' =>
      gap ← usub (a_lo cur) (a_hi l);
      dl ← deleted l; il ← inserted l;
      dc ← deleted cur; ic ← inserted cur;
      if (gap <=? Nat.max dl il) && (gap <=? Nat.max dc ic) then
        fold_back done' {| a_lo := a_lo l; a_hi := a_hi cur; b_lo := b_lo l; b_hi := b_hi cur |} true
      else Some (done, cur, changed)
  end.
Fixpoint fold_noise (done hunks : list Hunk) (changed : bool) : option (list Hunk * bool) :=
  match hunks with
  | [] => Some (rev done, changed)
  | h :: hunks =>
      '(done, cur, changed) ← fold_back done h changed;
      fold_noise (cur :: done) hunks changed
  end.

(** [while shift > 0 && is_cont(lo - shift) { shift -= 1 }] *)
Fixpoint shorten (seq : bytes) (lo shift : nat) : option nat :=
  match shift with
  | 0 => Some 0
  | S shift' =>
      i ← usub lo shift;
      if is_utf8_cont seq i then shorten seq lo shift' else Some shift
  end.

Definition score_at (seq : bytes) (eq1_start lo hi eq2_end : nat) : option nat :=
  e1 ← slice_range seq eq1_start lo;
  e ← slice_range seq lo hi;
  e2 ← slice_range seq hi eq2_end;
  Some (semantic_score e1 e + semantic_score e e2).

(** Character by character right, to the best fit. *)
Fixpoint best_fit (fuel : nat) (seq : bytes) (eq1_start eq2_end lo hi : nat) (best : nat * nat) : option nat :=
  match fuel with
  | 0 => None
  | S fuel =>
      if hi <? eq2_end then
        x ← seq !! lo;
        y ← seq !! hi;
        if (x =? y)%Z then
          let lo := lo + 1 in
          let hi := hi + 1 in
          if is_utf8_cont seq lo then best_fit fuel seq eq1_start eq2_end lo hi best
          else
            score ← score_at seq eq1_start lo hi eq2_end;
            best_fit fuel seq eq1_start eq2_end lo hi (if best.2 <=? score then (lo, score) else best)
        else Some best.1
      else Some best.1
  end.

(** Where the edit [lo..hi] of [seq] is moved to. *)
Definition best_place (seq : bytes) (lo hi before after : nat) : option nat :=
  eq1_start ← usub lo before;
  let eq2_end := hi + after in
  e1 ← slice_range (A := u8) seq eq1_start lo;
  e ← slice_range (A := u8) seq lo hi;
  n ← common_suffix (T := u8) e1 e;
  n ← shorten seq lo n;
  lo ← usub lo n;
  hi ← usub hi n;
  score ← score_at seq eq1_start lo hi eq2_end;
  best_fit (S (eq2_end - hi)) seq eq1_start eq2_end lo hi (lo, score).

(** [hunks[w] = h; w += 1], or [h] joins the hunk before it. *)
Fixpoint lossless (a b : bytes) (done : list Hunk) (h : Hunk) (rest : list Hunk) : option (list Hunk) :=
  let prev_a := match done with [] => 0 | l :: _ => a_hi l end in
  let next_a := match rest with [] => length a | n :: _ => a_lo n end in
  before ← usub (a_lo h) prev_a;
  after ← usub next_a (a_hi h);
  d ← deleted h;
  i ← inserted h;
  if (before =? 0) || (after =? 0) || (0 <? d) && (0 <? i) then
    match rest with [] => Some (rev (h :: done)) | n :: rest => lossless a b (h :: done) n rest end
  else
    let '(seq, lo, hi) := if 0 <? d then (a, a_lo h, a_hi h) else (b, b_lo h, b_hi h) in
    best ← best_place seq lo hi before after;
    h ← mv_hunk (Z.of_nat best - Z.of_nat lo) h;
    match rest with
    | [] => Some (rev (push_joined done h))
    | n :: rest' =>
        if touches h n then
          lossless a b done {| a_lo := a_lo h; a_hi := a_hi n; b_lo := b_lo h; b_hi := b_hi n |} rest'
        else lossless a b (push_joined done h) n rest'
    end.
Definition cleanup_semantic_lossless (hunks : list Hunk) (a b : bytes) : option (list Hunk) :=
  match hunks with [] => Some [] | h :: rest => lossless a b [] h rest end.

(** The overlap of a deletion and an insertion, taken out. *)
Definition extract_overlap (a b : bytes) (out : list Hunk) (h : Hunk) : option (list Hunk) :=
  del ← slice_range a (a_lo h) (a_hi h);
  ins ← slice_range b (b_lo h) (b_hi h);
  if (length del =? 0) || (length ins =? 0) then Some (out ++ [h])
  else
    fwd ← common_overlap del ins;
    rev_ ← common_overlap ins del;
    if rev_ <=? fwd then
      if (0 <? fwd) && ((length del <=? fwd * 2) || (length ins <=? fwd * 2)) then
        e ← usub (a_hi h) fwd;
        let out := push_nonempty out {| a_lo := a_lo h; a_hi := e; b_lo := b_lo h; b_hi := b_lo h |} in
        Some (push_nonempty out {| a_lo := a_hi h; a_hi := a_hi h; b_lo := b_lo h + fwd; b_hi := b_hi h |})
      else Some (out ++ [h])
    else if (length del <=? rev_ * 2) || (length ins <=? rev_ * 2) then
      e ← usub (b_hi h) rev_;
      let out := push_nonempty out {| a_lo := a_lo h; a_hi := a_lo h; b_lo := b_lo h; b_hi := e |} in
      Some (push_nonempty out {| a_lo := a_lo h + rev_; a_hi := a_hi h; b_lo := b_hi h; b_hi := b_hi h |})
    else Some (out ++ [h]).
Fixpoint extract_overlaps (a b : bytes) (out hunks : list Hunk) : option (list Hunk) :=
  match hunks with
  | [] => Some out
  | h :: hunks => out ← extract_overlap a b out h; extract_overlaps a b out hunks
  end.

Definition cleanup_semantic (hunks : list Hunk) (a b : bytes) : option (list Hunk) :=
  '(hunks, changed) ← fold_noise [] hunks false;
  hunks ← (if (changed : bool) then cleanup_merge (T := u8) hunks a b else Some hunks);
  hunks ← cleanup_semantic_lossless hunks a b;
  extract_overlaps a b [] hunks.

(** ** [CharDiff] *)
Definition CHARS : Policy := {|
  probe := 256;
  exhaustive_max := 2048;
  exhaustive_per_elem := 1024;
  exhaustive_quota := 40000000;
  work := 4000000;
  half_match_steps := 0
|}.
Definition CHAR_WORK_PER_BYTE : Z := 2%Z.
Definition AS_FAST_DIFF : Policy := {|
  probe := probe CHARS;
  exhaustive_max := 16 * exhaustive_max CHARS;
  exhaustive_per_elem := 16 * exhaustive_per_elem CHARS;
  exhaustive_quota := 16 * exhaustive_quota CHARS;
  work := 16 * work CHARS;
  half_match_steps := 64
|}%Z.

(** If the shorter text occurs in the longer: whether that is [a], and where. *)
Definition contains (a b : bytes) : option (bool * nat) :=
  if length b <=? length a then (fun i => (true, i)) <$> index_of a b else (fun i => (false, i)) <$> index_of b a.

(** A hunk of the middles, in the whole texts. *)
Definition move_hunk (p : nat) (h : Hunk) : Hunk :=
  {| a_lo := a_lo h + p; a_hi := a_hi h + p; b_lo := b_lo h + p; b_hi := b_hi h + p |}.

Section Search.
Context {T : Type} `{Elem T}.

(** The search of the middles with a policy, from clean marks. *)
Definition search_hunks (policy : Policy) (ma mb : list T) : option (list Hunk) :=
  '(changed_a, changed_b) ← run ma mb policy (replicate (length ma) false) (replicate (length mb) false);
  hunks_from_changed ma mb changed_a changed_b [].

Definition with_work_per (p : Policy) (n : nat) : Policy := {|
  probe := probe p;
  exhaustive_max := exhaustive_max p;
  exhaustive_per_elem := exhaustive_per_elem p;
  exhaustive_quota := exhaustive_quota p;
  work := (work p + Z.of_nat n * CHAR_WORK_PER_BYTE)%Z;
  half_match_steps := half_match_steps p
|}.

Definition too_long (a b : list T) : bool := (MAX_LEN <=? Z.of_nat (Nat.max (length a) (length b)))%Z.

Definition diff_as_fast_diff (a b : list T) : option (list Hunk) :=
  p ← common_prefix a b;
  ta ← slice_from a p;
  tb ← slice_from b p;
  s ← common_suffix ta tb;
  ea ← usub (length a) s;
  eb ← usub (length b) s;
  ma ← slice_range a p ea;
  mb ← slice_range b p eb;
  hunks ← (if too_long a b then
             Some (push_nonempty [] {| a_lo := 0; a_hi := length ma; b_lo := 0; b_hi := length mb |})
           else search_hunks (with_work_per AS_FAST_DIFF (length ma + length mb)) ma mb);
  hunks ← cleanup_merge (map (move_hunk p) hunks) a b;
  align_to_characters hunks a.
End Search.

(** The raw hunks of the middles [ma] and [mb]. *)
Definition whole_middle (a b ma mb : bytes) : option (list Hunk) :=
  let whole := {| a_lo := 0; a_hi := length ma; b_lo := 0; b_hi := length mb |} in
  if (length ma =? 0) || (length mb =? 0) then Some [whole]
  else match contains ma mb with
  | Some (long_is_a, at_) =>
      let '(ga, gb) := if long_is_a : bool then (at_, 0) else (0, at_) in
      let common := Nat.min (length ma) (length mb) in
      let hunks := push_nonempty [] {| a_lo := 0; a_hi := ga; b_lo := 0; b_hi := gb |} in
      Some (push_nonempty hunks {| a_lo := ga + common; a_hi := length ma; b_lo := gb + common; b_hi := length mb |})
  | None =>
      if (length ma =? 1) || (length mb =? 1) || too_long a b then Some [whole]
      else search_hunks (T := u8) (with_work_per CHARS (length ma + length mb)) ma mb
  end.

Definition whole (a b : bytes) : option (list Hunk) :=
  p ← common_prefix (T := u8) a b;
  if (p =? length a) && (p =? length b) then Some []
  else
    ta ← slice_from (A := u8) a p;
    tb ← slice_from (A := u8) b p;
    s ← common_suffix (T := u8) ta tb;
    ea ← usub (length a) s;
    eb ← usub (length b) s;
    ma ← slice_range a p ea;
    mb ← slice_range b p eb;
    hunks ← whole_middle a b ma mb;
    Some (map (move_hunk p) hunks).

Definition finish (hunks : list Hunk) (a b : bytes) : option (list Hunk) :=
  hunks ← cleanup_merge (T := u8) hunks a b;
  hunks ← align_to_characters (T := u8) hunks a;
  hunks ← cleanup_semantic hunks a b;
  align_to_characters (T := u8) hunks a.

Definition diff (a b : bytes) : option (list Hunk) := hunks ← whole a b; finish hunks a b.

(** ** The longest overlap *)
Section Overlap.
Implicit Types t x y : bytes.

(** The first [k] bytes of [y] end [t]. *)
Definition matches y t (k : nat) : Prop := k <= length y /\ k <= length t /\ drop (length t - k) t = take k y.

Lemma matches_0 y t : matches y t 0.
Proof. split; [lia|]. split; [lia|]. by rewrite Nat.sub_0_r, drop_all. Qed.

(** Shorter ones within a longer one. *)
Lemma matches_within y t k k' : matches y t k -> k' <= k -> matches y t k' <-> matches y (take k y) k'.
Proof.
  intros (H1 & H2 & H3) Hk. unfold matches. rewrite length_take_le by done.
  assert (drop (length t - k') t = drop (k - k') (take k y)) as ->.
  { rewrite <- H3, drop_drop. f_equal. lia. }
  split; intros (? & ? & ?); split_and!; (done || lia).
Qed.

Lemma matches_snoc y t c k : matches y (t ++ [c]) (S k) <-> matches y t k /\ y !! k = Some c.
Proof.
  unfold matches. rewrite length_app. cbn [length]. split.
  - intros (H1 & H2 & H3). assert (k < length y) as Hk by lia. destruct (lookup_lt_is_Some_2 y k Hk) as [d Hd].
    rewrite (take_S_r _ _ _ Hd), drop_app_le in H3 by lia. apply app_inj_2 in H3 as [H3 [= <-]]; [|done].
    replace (length t + 1 - S k) with (length t - k) in H3 by lia. split; [|done]. split_and!; (done || lia).
  - intros ((H1 & H2 & H3) & Hc). pose proof (lookup_lt_Some _ _ _ Hc). split; [lia|]. split; [lia|].
    rewrite drop_app_le by lia. replace (length t + 1 - S k) with (length t - k) by lia.
    by rewrite H3, (take_S_r _ _ _ Hc).
Qed.

(** The longest of those below a bound. *)
Definition longest y t (bound k : nat) : Prop :=
  matches y t k /\ k < bound /\ forall k', k' < bound -> matches y t k' -> k' <= k.

(** The failure function, up to [n]. *)
Definition fail_ok y (fail : list nat) (n : nat) : Prop :=
  forall i, i < n -> exists f, fail !! i = Some f /\ longest y (take (S i) y) (S i) f.

Lemma fall_back_spec fuel fail y t c k :
  k < fuel -> k < length y -> fail_ok y fail k -> matches y t k ->
  exists k', fall_back fuel fail y c k = Some k' /\ k' <= k /\ matches y t k' /\ (k' = 0 \/ y !! k' = Some c) /\
    forall k'', k' < k'' -> k'' <= k -> matches y t k'' -> y !! k'' <> Some c.
Proof.
  revert k. induction fuel as [|fuel IH]; [lia|]. intros k Hf Hk Hfail Hm. cbn [fall_back].
  destruct (Nat.ltb_spec 0 k) as [Hpos|H0].
  2: { exists k. split; [done|]. split; [lia|]. split; [done|]. split; [left; lia|]. intros; lia. }
  destruct (lookup_lt_is_Some_2 y k Hk) as [d Hd]. rewrite Hd. cbn [mbind option_bind].
  destruct (Z.eqb_spec c d) as [->|Hne].
  { exists k. split; [done|]. split; [lia|]. split; [done|]. split; [by right|]. intros; lia. }
  rewrite usub_Some by lia. cbn [mbind option_bind].
  destruct (Hfail (k - 1) ltac:(lia)) as (f & -> & Hfm & Hlt & Hmax). cbn [mbind option_bind].
  replace (S (k - 1)) with k in * by lia.
  destruct (IH f) as (k' & -> & Hle & Hm' & Hc & Hno); [lia|lia|intros i ?; apply Hfail; lia| |].
  { by apply (matches_within y t k f Hm ltac:(lia)). }
  exists k'. split; [done|]. split; [lia|]. split; [done|]. split; [done|]. intros k'' H1 H2 Hm''.
  destruct (decide (k'' = k)) as [-> |]; [congruence|]. apply Hno; [done| |done].
  apply Hmax; [lia|]. by apply (matches_within y t k k'' Hm ltac:(lia)).
Qed.

(** One step: from the longest of [t] to that of [t ++ [c]]. *)
Lemma advance_spec fail y t c k bound :
  longest y t bound k -> bound <= length y -> fail_ok y fail k ->
  exists k', advance fail y c k = Some k' /\ longest y (t ++ [c]) (S bound) k'.
Proof.
  intros (Hm & Hk & Hmax) Hb Hfail. unfold advance.
  destruct (fall_back_spec (S k) fail y t c k) as (k1 & -> & Hle & Hm1 & Hc & Hno); [lia|lia|done|done|].
  cbn [mbind option_bind]. destruct (lookup_lt_is_Some_2 y k1 ltac:(lia)) as [d Hd]. rewrite Hd. cbn [mbind option_bind].
  eexists. split; [done|]. destruct (Z.eqb_spec c d) as [->|Hne].
  - rewrite Nat.add_1_r. split; [by apply matches_snoc|]. split; [lia|]. intros k' Hk' Hm'.
    destruct k' as [|k']; [lia|]. apply matches_snoc in Hm' as [Hm' Hc']. destruct (decide (k' <= k1)); [lia|].
    destruct (Hno k' ltac:(lia) (Hmax k' ltac:(lia) Hm') Hm' Hc').
  - destruct Hc as [-> |Hc]; [|congruence]. split; [apply matches_0|]. split; [lia|]. intros k' Hk' Hm'.
    destruct k' as [|k']; [lia|]. apply matches_snoc in Hm' as [Hm' Hc']. destruct (decide (k' = 0)) as [-> |]; [congruence|].
    destruct (Hno k' ltac:(lia) (Hmax k' ltac:(lia) Hm') Hm' Hc').
Qed.

Lemma build_fail_spec fuel y i k fail :
  length y - i < fuel -> 1 <= i <= length y -> length fail = length y -> fail_ok y fail i -> longest y (take i y) i k ->
  exists fail', build_fail fuel y i k fail = Some fail' /\ fail_ok y fail' (length y).
Proof.
  revert i k fail. induction fuel as [|fuel IH]; [lia|]. intros i k fail Hf Hi Hl Hok Hk. cbn [build_fail].
  destruct (Nat.ltb_spec i (length y)) as [Hlt|Hge].
  2: { exists fail. split; [done|]. by replace (length y) with i by lia. }
  destruct (lookup_lt_is_Some_2 y i Hlt) as [c Hc]. rewrite Hc. cbn [mbind option_bind].
  destruct (advance_spec fail y (take i y) c k i Hk ltac:(lia)) as (k' & -> & Hk'); [intros j ?; apply Hok; destruct Hk; lia|].
  rewrite <- (take_S_r _ _ _ Hc) in Hk'. cbn [mbind option_bind].
  destruct (set_at_spec fail i k') as (fail' & -> & Hl' & Hs & Ho); [lia|]. cbn [mbind option_bind].
  apply IH; [lia|lia|lia| |done]. intros j Hj. destruct (decide (j = i)) as [-> |]; [by exists k'|].
  rewrite Ho by done. apply Hok. lia.
Qed.

Lemma run_overlap_spec fail y x t k :
  fail_ok y fail (length y) -> 0 < length y -> longest y t (length y) k ->
  exists k', run_overlap fail y (length y) x k = Some k' /\ longest y (t ++ x) (length y) k'.
Proof.
  intros Hok Hn. revert t k. induction x as [|c x IH]; intros t k Hk; cbn [run_overlap]; [exists k; by rewrite app_nil_r|].
  destruct (advance_spec fail y t c k (length y) Hk ltac:(lia)) as (k1 & -> & Hm1 & Hk1 & Hmax); [intros j ?; apply Hok; destruct Hk; lia|].
  cbn [mbind option_bind].
  assert (exists k2, (if k1 =? length y then i ← usub k1 1; fail !! i else Some k1) = Some k2 /\
            longest y (t ++ [c]) (length y) k2) as (k2 & -> & Hk2).
  { destruct (Nat.eqb_spec k1 (length y)) as [-> |].
    - rewrite usub_Some by lia. cbn [mbind option_bind].
      destruct (Hok (length y - 1) ltac:(lia)) as (f & -> & Hfm & Hlt & Hfmax).
      replace (S (length y - 1)) with (length y) in * by lia. exists f. split; [done|].
      split; [by apply (matches_within y _ (length y) f Hm1 ltac:(lia))|]. split; [done|]. intros k' ? Hm'.
      apply Hfmax; [done|]. by apply (matches_within y _ (length y) k' Hm1 ltac:(lia)).
    - exists k1. split; [done|]. split; [done|]. split; [lia|]. intros k' ? ?. apply Hmax; [lia|done]. }
  cbn [mbind option_bind]. destruct (IH (t ++ [c]) k2 Hk2) as (k' & E & Hk'). exists k'. split; [done|].
  by rewrite <- app_assoc in Hk'.
Qed.

Lemma find_overlap_spec x y k :
  k < length x -> length x = length y -> longest y x (S k) (find_overlap (length x) x y k).
Proof.
  intros Hk Hl. induction k as [|k IH]; cbn [find_overlap].
  - split; [apply matches_0|]. split; [lia|]. intros; lia.
  - case_bool_decide as E.
    + split; [split; [lia|]; split; [lia|done]|]. split; [lia|]. intros; lia.
    + destruct (IH ltac:(lia)) as (Hm & Hlt & Hmax). split; [done|]. split; [lia|]. intros k' Hk' Hm'.
      destruct (decide (k' = S k)) as [-> |]; [by destruct Hm' as (_ & _ & ?)|]. apply Hmax; [lia|done].
Qed.

(** All lengths tried, the longest first. *)
Definition longest_overlap x y : nat := find_overlap (length x) x y (Nat.min (Nat.min (length x) (length y)) OVERLAP_MAX).

(** The suffixes of [x] and prefixes of [y] of no more than [n] bytes. *)
Lemma matches_cut x y n k :
  n <= length x -> n <= length y -> k <= n ->
  matches (take n y) (drop (length x - n) x) k <-> drop (length x - k) x = take k y.
Proof.
  intros ? ? ?. unfold matches. rewrite length_take_le, length_drop by done.
  rewrite take_take, Nat.min_l by done. rewrite drop_drop.
  replace (length x - n + (length x - (length x - n) - k)) with (length x - k) by lia.
  split; [by intros (_ & _ & ?)|]. intros ?. split_and!; (done || lia).
Qed.

Lemma common_overlap_spec x y :
  exists k, common_overlap x y = Some k /\ k <= length x /\ k <= length y /\ k <= OVERLAP_MAX /\
    drop (length x - k) x = take k y /\
    forall k', k' <= length x -> k' <= length y -> k' <= OVERLAP_MAX -> drop (length x - k') x = take k' y -> k' <= k.
Proof.
  unfold common_overlap. set (n := Nat.min (Nat.min (length x) (length y)) OVERLAP_MAX).
  assert (n <= length x /\ n <= length y /\ n <= OVERLAP_MAX) as (Hnx & Hny & Hnm) by (unfold n; lia).
  assert (Hmin : forall k', k' <= length x -> k' <= length y -> k' <= OVERLAP_MAX -> k' <= n) by (unfold n; lia).
  clearbody n. revert Hnm Hmin. generalize OVERLAP_MAX as M. intros M Hnm Hmin.
  enough (exists k, (if n =? 0 then Some 0 else
      i ← usub (length x) n;
      x ← slice_from x i;
      y ← slice_range y 0 n;
      if bool_decide (x = y) then Some n
      else if n <=? 16 then Some (find_overlap n x y (n - 1))
      else
        fail ← build_fail n y 1 0 (replicate n 0);
        run_overlap fail y n x 0) = Some k /\
      longest (take n y) (drop (length x - n) x) (S n) k) as (k & E & Hm & Hk & Hmax).
  { exists k. split; [exact E|]. split; [lia|]. split; [lia|]. split; [lia|].
    split; [apply (matches_cut x y n k); (done || lia)|]. intros k' ? ? ? E'. apply Hmax.
    - specialize (Hmin k'). lia.
    - apply matches_cut; (done || (specialize (Hmin k'); lia)). }
  destruct (Nat.eqb_spec n 0) as [-> |Hn].
  { exists 0. split; [done|]. split; [apply matches_0|]. split; [lia|]. intros; lia. }
  rewrite usub_Some by lia. cbn [mbind option_bind]. rewrite slice_from_Some by lia. cbn [mbind option_bind].
  rewrite slice_range_Some by lia. cbn [mbind option_bind]. rewrite drop_0, Nat.sub_0_r.
  set (x' := drop (length x - n) x). set (y' := take n y).
  assert (length x' = n) as Hx by (unfold x'; rewrite length_drop; lia).
  assert (length y' = n) as Hy by (unfold y'; rewrite length_take; lia). clearbody x' y'.
  case_bool_decide as Exy.
  { exists n. split; [done|]. split; [|split; [lia|intros; lia]]. split; [lia|]. split; [lia|].
    rewrite Hx, Nat.sub_diag, drop_0. by rewrite <- Hy, firstn_all. }
  assert (Hproper : forall k, longest y' x' n k -> longest y' x' (S n) k).
  { intros k (Hm & Hk & Hmax). split; [done|]. split; [lia|]. intros k' Hk' Hm'.
    destruct (decide (k' = n)) as [-> |]; [|apply Hmax; [lia|done]]. destruct Exy. destruct Hm' as (_ & _ & E).
    rewrite Hx, Nat.sub_diag, drop_0 in E. by rewrite <- Hy, firstn_all in E. }
  destruct (Nat.leb_spec n 16).
  - eexists. split; [done|]. apply Hproper. rewrite <- Hx at 2. pose proof (find_overlap_spec x' y' (n - 1)) as Hs.
    replace (S (n - 1)) with n in Hs by lia. apply Hs; lia.
  - destruct (build_fail_spec n y' 1 0 (replicate n 0)) as (fail & -> & Hok); [lia|lia|by rewrite length_replicate| | |].
    + intros i Hi. exists 0. replace i with 0 by lia. split; [apply lookup_replicate_2; lia|].
      split; [apply matches_0|]. split; [lia|]. intros; lia.
    + split; [apply matches_0|]. split; [lia|]. intros; lia.
    + cbn [mbind option_bind]. destruct (run_overlap_spec fail y' x' [] 0 Hok) as (k & E & Hk); [lia| |].
      { split; [apply matches_0|]. split; [lia|]. intros k' _ (_ & ? & _). cbn in *. lia. }
      rewrite Hy in E, Hk. exists k. split; [done|]. by apply Hproper.
Qed.

Lemma longest_overlap_spec x y k :
  k <= length x -> k <= length y -> k <= OVERLAP_MAX -> drop (length x - k) x = take k y ->
  (forall k', k' <= length x -> k' <= length y -> k' <= OVERLAP_MAX -> drop (length x - k') x = take k' y -> k' <= k) ->
  longest_overlap x y = k.
Proof.
  intros ? ? ? E Hmax. unfold longest_overlap. set (n := Nat.min _ OVERLAP_MAX).
  assert (k <= n /\ n <= length x /\ n <= length y /\ n <= OVERLAP_MAX) as (Hk & Hn1 & Hn2 & Hn3) by (unfold n; lia). clearbody n.
  revert Hmax Hn3 H1. generalize OVERLAP_MAX as M. intros M Hmax ? ?. induction n as [|n IH]; cbn [find_overlap]; [lia|].
  case_bool_decide as E'; [specialize (Hmax (S n) ltac:(lia) ltac:(lia) ltac:(lia) E'); lia|]. destruct (decide (k = S n)) as [-> |]; [done|]. apply IH; lia.
Qed.
End Overlap.

(** ** The passes keep the script *)
Section Slides.
Context {T : Type}.
Implicit Types a b seq : list T.

(** Moving a deletion left, and right, over text that it repeats. *)
Lemma deletion_left a b i j h hs n :
  script a b i j (h :: hs) -> b_lo h = b_hi h -> i + n <= a_lo h -> same a a (a_lo h - n) (a_hi h - n) n ->
  script a b i j ({| a_lo := a_lo h - n; a_hi := a_hi h - n; b_lo := b_lo h - n; b_hi := b_hi h - n |} :: hs).
Proof.
  intros (m & Ha & Hb & Hs & ? & ? & Hr) Hpure Hn Hper. exists (m - n). cbn. split; [lia|]. split; [lia|].
  split; [by apply (same_take _ _ _ _ m); [|lia]|]. split; [lia|]. split; [lia|].
  eapply (script_extend _ _ _ _ n).
  - eapply same_trans; [by apply same_sym|].
    replace (a_lo h - n) with (i + (m - n)) by lia. replace (b_hi h - n) with (j + (m - n)) by lia.
    apply (same_part _ _ _ _ m); [done|lia].
  - replace (a_hi h - n + n) with (a_hi h) by lia. by replace (b_hi h - n + n) with (b_hi h) by lia.
Qed.

Lemma deletion_right a b i j h hs n :
  script a b i j (h :: hs) -> b_lo h = b_hi h -> same a a (a_lo h) (a_hi h) n ->
  (exists m, same a b (a_hi h) (b_hi h) m /\ n <= m /\ script a b (a_hi h + n) (b_hi h + n) hs) ->
  script a b i j ({| a_lo := a_lo h + n; a_hi := a_hi h + n; b_lo := b_lo h + n; b_hi := b_hi h + n |} :: hs).
Proof.
  intros (m & Ha & Hb & Hs & ? & ? & _) Hpure Hper (m' & Hs' & Hn & Hr). exists (m + n). cbn. split; [lia|]. split; [lia|].
  split; [|split; [lia|split; [lia|done]]]. apply same_app; [done|]. rewrite <- Ha, <- Hb, Hpure.
  eapply same_trans; [exact Hper|]. by apply (same_take _ _ _ _ m').
Qed.

(** The same of an insertion. *)
Lemma script_unflip a b i j hs : script b a j i (map flip hs) -> script a b i j hs.
Proof.
  intros Hs. apply script_flip in Hs. rewrite <- list_fmap_compose in Hs.
  assert (flip ∘ flip <$> hs = hs) as E; [|by rewrite <- E].
  rewrite <- (list_fmap_id hs) at 2. apply list_fmap_ext. by intros ? [] _.
Qed.

Lemma edit_left (del : bool) a b i j h hs n :
  script a b i j (h :: hs) -> (if del then b_lo h = b_hi h else a_lo h = a_hi h) -> i + n <= a_lo h ->
  (if del then same a a (a_lo h - n) (a_hi h - n) n else same b b (b_lo h - n) (b_hi h - n) n) ->
  script a b i j ({| a_lo := a_lo h - n; a_hi := a_hi h - n; b_lo := b_lo h - n; b_hi := b_hi h - n |} :: hs).
Proof.
  intros Hs Hpure Hn Hper. destruct del; [by apply deletion_left|]. apply script_unflip. cbn.
  pose proof Hs as (m & ? & ? & _). apply script_flip in Hs. cbn in Hs.
  apply (deletion_left b a j i (flip h)); [done|done|cbn; lia|done].
Qed.

Lemma edit_right (del : bool) a b i j h hs n :
  script a b i j (h :: hs) -> (if del then b_lo h = b_hi h else a_lo h = a_hi h) ->
  (if del then same a a (a_lo h) (a_hi h) n else same b b (b_lo h) (b_hi h) n) ->
  (exists m, same a b (a_hi h) (b_hi h) m /\ n <= m /\ script a b (a_hi h + n) (b_hi h + n) hs) ->
  script a b i j ({| a_lo := a_lo h + n; a_hi := a_hi h + n; b_lo := b_lo h + n; b_hi := b_hi h + n |} :: hs).
Proof.
  intros Hs Hpure Hper Hnext. destruct del; [by apply deletion_right|]. apply script_unflip. cbn.
  apply script_flip in Hs. cbn in Hs. apply (deletion_right b a j i (flip h)); [done|done|done|].
  destruct Hnext as (m & Hm & ? & Hr). exists m. split; [by apply same_sym|]. split; [done|]. by apply script_flip in Hr.
Qed.

(** Two hunks as one. *)
Lemma script_fold a b i j l h hs : script a b i j (l :: h :: hs) -> script a b i j (join l h :: hs).
Proof.
  intros (n & Ha & Hb & Hs & ? & ? & (m & ? & ? & _ & ? & ? & Hr)). exists n. cbn. split_and!; (done || lia).
Qed.

Lemma script_mid a b i j l1 hs hs' :
  script a b i j (l1 ++ hs) -> (forall x y, script a b x y hs -> script a b x y hs') -> script a b i j (l1 ++ hs').
Proof. intros (x & y & Hseg & Hs)%script_app Hx. apply script_app. exists x, y. auto. Qed.
End Slides.

Section Semantic.
Context (a b : bytes) (Ha : Forall is_byte a) (Hb : Forall is_byte b).

(** *** Noise *)
Lemma fold_back_script done cur changed hs :
  script a b 0 0 (rev done ++ cur :: hs) -> all_proper (rev done ++ cur :: hs) ->
  exists done' cur' changed', fold_back done cur changed = Some (done', cur', changed') /\
    script a b 0 0 (rev done' ++ cur' :: hs) /\ all_proper (rev done' ++ cur' :: hs).
Proof using Type.
  revert cur changed. induction done as [|l done IH]; intros cur changed Hs Hp; cbn [fold_back]; [by eexists _, _, _|].
  cbn [rev] in Hs, Hp. rewrite <- app_assoc in Hs, Hp. cbn [app] in Hs, Hp.
  pose proof Hs as (x & y & _ & (n & ? & ? & _ & ? & ? & (m & ? & ? & _ & ? & ? & _)))%script_app.
  unfold deleted, inserted. rewrite !usub_Some by lia. cbn [mbind option_bind].
  destruct (_ && _).
  - apply IH.
    + eapply script_mid; [exact Hs|]. intros. by apply (script_fold _ _ _ _ l cur).
    + apply Forall_app in Hp as [Hp1 Hp2]. apply Forall_app. split; [done|].
      apply Forall_cons in Hp2 as [Hl Hp2]. apply Forall_cons in Hp2 as [Hc Hp2]. constructor; [|done].
      apply proper_iff in Hl, Hc. apply proper_iff. cbn. lia.
  - eexists (l :: done), cur, changed. split; [done|]. cbn [rev]. by rewrite <- !app_assoc.
Qed.

Lemma fold_noise_script done hs changed :
  script a b 0 0 (rev done ++ hs) -> all_proper (rev done ++ hs) ->
  exists hs' changed', fold_noise done hs changed = Some (hs', changed') /\ script a b 0 0 hs' /\ all_proper hs'.
Proof using Type.
  revert done changed. induction hs as [|h hs IH]; intros done changed Hs Hp; cbn [fold_noise].
  - rewrite app_nil_r in Hs, Hp. by eexists _, _.
  - destruct (fold_back_script done h changed hs Hs Hp) as (done' & cur & ch & -> & Hs' & Hp'). cbn [mbind option_bind].
    apply IH; cbn [rev]; by rewrite <- app_assoc.
Qed.

(** *** Overlaps *)
Lemma push_nonempty_app out h : push_nonempty out h = out ++ push_nonempty [] h.
Proof using Type. unfold push_nonempty. destruct (proper h); [done|by rewrite app_nil_r]. Qed.

Lemma push_nonempty_script i j h hs :
  script a b i j (h :: hs) -> script a b i j (push_nonempty [] h ++ hs).
Proof using Type.
  intros Hs. unfold push_nonempty. destruct (proper h) eqn:E; [done|]. eapply script_skip; [exact Hs|..];
    destruct Hs as (_ & _ & _ & _ & ? & ? & _); unfold proper in E; apply orb_false_iff in E; rewrite !Nat.ltb_ge in E; lia.
Qed.

Lemma push_nonempty_proper out h : all_proper out -> all_proper (push_nonempty out h).
Proof using Type.
  intros. unfold push_nonempty. destruct (proper h) eqn:E; [|done]. apply Forall_app. split; [done|]. by constructor.
Qed.

(** Two hunks in place of one, where one of them may be empty. *)
Lemma push_two out h h1 h2 hs :
  script a b 0 0 (out ++ h :: hs) -> (forall x y, script a b x y (h :: hs) -> script a b x y (h1 :: h2 :: hs)) ->
  all_proper (out ++ h :: hs) ->
  script a b 0 0 (push_nonempty (push_nonempty out h1) h2 ++ hs) /\ all_proper (push_nonempty (push_nonempty out h1) h2 ++ hs).
Proof using Type.
  intros Hs Hx Hp. apply Forall_app in Hp as [Hp1 Hp2]. apply Forall_cons in Hp2 as [_ Hp2]. split.
  - rewrite push_nonempty_app, (push_nonempty_app out), <- !app_assoc. eapply script_mid; [exact Hs|].
    intros x y Hxy. apply push_nonempty_script. destruct (Hx x y Hxy) as (n & ? & ? & ? & ? & ? & Hr).
    exists n. split_and!; try done. by apply push_nonempty_script.
  - apply Forall_app. split; [|done]. by apply push_nonempty_proper, push_nonempty_proper.
Qed.

Lemma overlap_same (s t : bytes) lo hi lo' hi' f :
  lo <= hi -> hi <= length s -> lo' <= hi' -> hi' <= length t -> f <= hi - lo -> f <= hi' - lo' ->
  drop (hi - lo - f) (take (hi - lo) (drop lo s)) = take f (take (hi' - lo') (drop lo' t)) -> same s t (hi - f) lo' f.
Proof using Type.
  intros ? ? ? ? ? ? E. split; [lia|]. split; [lia|]. intros k Hk.
  pose proof (f_equal (fun l => l !! k) E) as Ek. cbn beta in Ek.
  rewrite lookup_drop, (lookup_take_lt (take (hi' - lo') (drop lo' t))), !lookup_part in Ek by lia.
  rewrite <- Ek. f_equal. lia.
Qed.

Lemma extract_overlap_script out h hs :
  script a b 0 0 (out ++ h :: hs) -> all_proper (out ++ h :: hs) ->
  exists out', extract_overlap a b out h = Some out' /\ script a b 0 0 (out' ++ hs) /\ all_proper (out' ++ hs).
Proof using Type.
  intros Hs Hp. pose proof Hs as (x & y & _ & (n & ? & ? & _ & Hla & Hlb & Hr))%script_app.
  pose proof (script_bounds _ _ _ _ _ Hr) as [? ?]. unfold extract_overlap.
  rewrite !slice_range_Some by lia. cbn [mbind option_bind].
  assert (script a b 0 0 ((out ++ [h]) ++ hs) /\ all_proper ((out ++ [h]) ++ hs)) as Hkeep by by rewrite <- !app_assoc.
  rewrite !length_part by lia. destruct (_ || _); [by eexists|].
  destruct (common_overlap_spec (take (a_hi h - a_lo h) (drop (a_lo h) a)) (take (b_hi h - b_lo h) (drop (b_lo h) b)))
    as (fwd & -> & F1 & F2 & _ & F3 & _). cbn [mbind option_bind].
  destruct (common_overlap_spec (take (b_hi h - b_lo h) (drop (b_lo h) b)) (take (a_hi h - a_lo h) (drop (a_lo h) a)))
    as (rv & -> & R1 & R2 & _ & R3 & _). cbn [mbind option_bind].
  rewrite !length_part in F1, F2, F3, R1, R2, R3 by lia.
  destruct (rv <=? fwd).
  - destruct (_ && _); [|by eexists]. rewrite usub_Some by lia. cbn [mbind option_bind]. eexists. split; [done|].
    apply (push_two out h); [done| |done]. intros x' y' (n' & Ea & Eb & Hn & _ & _ & Hr'). exists n'. cbn.
    split; [done|]. split; [done|]. split; [done|]. split; [lia|]. split; [lia|]. exists fwd. cbn.
    split; [lia|]. split; [lia|]. split; [|split; [lia|split; [lia|done]]].
    by apply (overlap_same a b (a_lo h) (a_hi h) (b_lo h) (b_hi h)).
  - destruct (_ || _); [|by eexists]. rewrite usub_Some by lia. cbn [mbind option_bind]. eexists. split; [done|].
    apply (push_two out h); [done| |done]. intros x' y' (n' & Ea & Eb & Hn & _ & _ & Hr'). exists n'. cbn.
    split; [done|]. split; [done|]. split; [done|]. split; [lia|]. split; [lia|]. exists rv. cbn.
    split; [lia|]. split; [lia|]. split; [|split; [lia|split; [lia|done]]].
    apply same_sym. by apply (overlap_same b a (b_lo h) (b_hi h) (a_lo h) (a_hi h)).
Qed.

Lemma extract_overlaps_script out hs :
  script a b 0 0 (out ++ hs) -> all_proper (out ++ hs) ->
  exists hs', extract_overlaps a b out hs = Some hs' /\ script a b 0 0 hs' /\ all_proper hs'.
Proof using Type.
  revert out. induction hs as [|h hs IH]; intros out Hs Hp; cbn [extract_overlaps].
  - rewrite app_nil_r in Hs, Hp. by exists out.
  - destruct (extract_overlap_script out h hs Hs Hp) as (out' & -> & Hs' & Hp'). cbn [mbind option_bind]. by apply IH.
Qed.

(** *** The best place of an edit *)
Lemma shorten_spec (seq : bytes) lo n : n <= lo -> exists n', shorten seq lo n = Some n' /\ n' <= n.
Proof using Type.
  induction n as [|n IH]; intros Hn; cbn [shorten]; [by exists 0|]. rewrite usub_Some by lia. cbn [mbind option_bind].
  destruct (is_utf8_cont seq (lo - S n)); [|by exists (S n)]. destruct IH as (n' & -> & ?); [lia|]. exists n'. split; [done|lia].
Qed.

Lemma score_at_Some (seq : bytes) eq1 lo hi eq2 :
  eq1 <= lo -> lo <= hi -> hi <= eq2 -> eq2 <= length seq -> exists s, score_at seq eq1 lo hi eq2 = Some s.
Proof using Type.
  intros. unfold score_at. rewrite !slice_range_Some by lia. cbn [mbind option_bind]. by eexists.
Qed.

Lemma best_fit_spec fuel (seq : bytes) eq1 eq2 L H n0 t best :
  eq1 <= L -> L <= H -> H + t <= eq2 -> eq2 <= length seq -> eq2 - (H + t) < fuel ->
  same seq seq L H (Nat.max t n0) -> (exists s, best.1 = L + s /\ s <= t) ->
  exists s, best_fit fuel seq eq1 eq2 (L + t) (H + t) best = Some (L + s) /\ same seq seq L H (Nat.max s n0) /\ H + s <= eq2.
Proof using Type.
  intros H1 H2. revert t best. induction fuel as [|fuel IH]; [lia|]. intros t best Ht H3 Hf Hsame (s & Es & Hs). cbn [best_fit].
  assert (Hdone : exists s, Some best.1 = Some (L + s) /\ same seq seq L H (Nat.max s n0) /\ H + s <= eq2).
  { exists s. rewrite Es. split; [done|]. split; [|lia]. by apply (same_take _ _ _ _ (Nat.max t n0)); [|lia]. }
  destruct (Nat.ltb_spec (H + t) eq2) as [Hlt|]; [|done].
  destruct (lookup_lt_is_Some_2 seq (L + t) ltac:(lia)) as [x Hx]. destruct (lookup_lt_is_Some_2 seq (H + t) ltac:(lia)) as [y Hy].
  rewrite Hx, Hy. cbn [mbind option_bind]. destruct (Z.eqb_spec x y) as [->|]; [|done].
  rewrite <- !Nat.add_assoc, !Nat.add_1_r.
  assert (same seq seq L H (Nat.max (S t) n0)) as Hsame'.
  { destruct (decide (S t <= n0)); [by replace (Nat.max (S t) n0) with (Nat.max t n0) by lia|].
    replace (Nat.max (S t) n0) with (Nat.max t n0 + 1) by lia. apply same_app; [done|].
    replace (Nat.max t n0) with t by lia. split; [lia|]. split; [lia|]. intros k Hk. replace k with 0 by lia.
    rewrite !Nat.add_0_r. congruence. }
  destruct (is_utf8_cont seq (L + S t)).
  - apply IH; [lia|done|lia|done|]. exists s. split; [done|lia].
  - destruct (score_at_Some seq eq1 (L + S t) (H + S t) eq2) as [sc ->]; [lia..|]. cbn [mbind option_bind].
    apply IH; [lia|done|lia|done|]. destruct (best.2 <=? sc); [by exists (S t)|]. exists s. split; [done|lia].
Qed.

Lemma suffix_part {T} `{EqDecision T} (s : list T) from lo hi n :
  from <= lo -> lo <= hi -> hi <= length s ->
  n = suffix_loop (take (lo - from) (drop from s)) (take (hi - lo) (drop lo s)) ->
  n <= lo - from /\ n <= hi - lo /\ same s s (lo - n) (hi - n) n.
Proof using Type.
  intros ? ? ? Hn. destruct (suffix_same s s from lo (lo - from) (hi - lo) n) as (? & ? & Hs & _); [lia|lia|done|].
  split; [done|]. split; [done|]. replace (from + (lo - from - n)) with (lo - n) in Hs by lia.
  by replace (lo + (hi - lo - n)) with (hi - n) in Hs by lia.
Qed.

Definition moved (seq : bytes) (lo hi before after best : nat) : Prop :=
  (exists n, best = lo - n /\ n <= before /\ same seq seq (lo - n) (hi - n) n) \/
  (exists n, best = lo + n /\ n <= after /\ same seq seq lo hi n).

Lemma best_place_spec (seq : bytes) lo hi before after :
  Forall is_byte seq -> lo <= hi -> hi + after <= length seq -> before <= lo ->
  exists best, best_place seq lo hi before after = Some best /\ moved seq lo hi before after best.
Proof using Type.
  intros Hseq Hle Hend Hbef. unfold best_place. rewrite (usub_Some lo before) by done. cbn [mbind option_bind].
  rewrite (slice_range_Some (A := u8) seq (lo - before) lo) by (lia || (change (lo <= length seq); lia)).
  rewrite (slice_range_Some (A := u8) seq lo hi) by (lia || (change (hi <= length seq); lia)). cbn [mbind option_bind].
  rewrite (suffix_law (T := u8)) by (by apply Forall_take, Forall_drop). cbn [mbind option_bind].
  match goal with |- context [suffix_loop ?x ?y] => set (n0 := suffix_loop x y) end.
  assert (n0 <= lo - (lo - before) /\ n0 <= hi - lo /\ same seq seq (lo - n0) (hi - n0) n0) as (Hn0 & Hn1 & Hs0).
  { apply (suffix_part (T := u8) seq (lo - before) lo hi n0); [lia|done|change (hi <= length seq); lia|done]. }
  clearbody n0. destruct (shorten_spec seq lo n0) as (n & -> & Hn); [lia|]. cbn [mbind option_bind].
  rewrite !usub_Some by lia. cbn [mbind option_bind].
  destruct (score_at_Some seq (lo - before) (lo - n) (hi - n) (hi + after)) as [sc ->]; [lia..|]. cbn [mbind option_bind].
  assert (same seq seq (lo - n) (hi - n) n) as Hsn.
  { pose proof (same_part _ _ _ _ _ (n0 - n) n Hs0 ltac:(lia)) as Hp.
    replace (lo - n0 + (n0 - n)) with (lo - n) in Hp by lia. by replace (hi - n0 + (n0 - n)) with (hi - n) in Hp by lia. }
  pose proof (best_fit_spec (S (hi + after - (hi - n))) seq (lo - before) (hi + after) (lo - n) (hi - n) n 0 (lo - n, sc)) as Hfit.
  rewrite !Nat.add_0_r in Hfit. destruct Hfit as (s & -> & Hs & Hse); [lia|lia|lia|lia|lia|done| |].
  { exists 0. cbn. split; lia. }
  exists (lo - n + s). split; [done|]. destruct (decide (s <= n)).
  - left. exists (n - s). split; [lia|]. split; [lia|].
    pose proof (same_part _ _ _ _ _ s (n - s) Hsn ltac:(lia)) as Hp.
    replace (lo - n + s) with (lo - (n - s)) in Hp by lia. by replace (hi - n + s) with (hi - (n - s)) in Hp by lia.
  - right. exists (s - n). split; [lia|]. split; [lia|].
    pose proof (same_part _ _ _ _ _ n (s - n) Hs ltac:(lia)) as Hp.
    replace (lo - n + n) with lo in Hp by lia. by replace (hi - n + n) with hi in Hp by lia.
Qed.

(** *** One hunk slid *)
Lemma slide_best i j h hs best (del := a_lo h <? a_hi h) (seq := if del then a else b) (lo := if del then a_lo h else b_lo h)
    (hi := if del then a_hi h else b_hi h) :
  script a b i j (h :: hs) -> (if del then b_lo h = b_hi h else a_lo h = a_hi h) ->
  moved seq lo hi (a_lo h - i) (next_lo a hs - a_hi h) best ->
  exists h', mv_hunk (Z.of_nat best - Z.of_nat lo) h = Some h' /\ script a b i j (h' :: hs) /\ (proper h = true -> proper h' = true).
Proof using Type.
  intros Hs Hpure Hm. pose proof Hs as (m & Hla & Hlb & Hg & Hla' & Hlb' & Hr). pose proof (script_bounds _ _ _ _ _ Hr) as [? ?].
  assert (Hmv : forall by_, (0 <= Z.of_nat (a_lo h) + by_)%Z -> (0 <= Z.of_nat (b_lo h) + by_)%Z -> mv_hunk by_ h = Some (shift by_ h))
    by (intros; apply mv_hunk_Some; (done || lia)).
  destruct Hm as [(n & -> & Hn & Hper)|(n & -> & Hn & Hper)].
  - assert (Z.of_nat (lo - n) - Z.of_nat lo = - Z.of_nat n)%Z as ->.
    { unfold lo. destruct del; lia. }
    rewrite Hmv by lia. eexists. split; [done|].
    assert (shift (- Z.of_nat n) h = {| a_lo := a_lo h - n; a_hi := a_hi h - n; b_lo := b_lo h - n; b_hi := b_hi h - n |}) as ->
      by (unfold shift; f_equal; lia).
    split; [|rewrite !proper_iff; cbn; lia]. apply (edit_left del); [done|done|lia|].
    unfold seq, lo, hi in Hper. by destruct del.
  - assert (Z.of_nat (lo + n) - Z.of_nat lo = Z.of_nat n)%Z as -> by lia.
    rewrite Hmv by lia. eexists. split; [done|].
    assert (shift (Z.of_nat n) h = {| a_lo := a_lo h + n; a_hi := a_hi h + n; b_lo := b_lo h + n; b_hi := b_hi h + n |}) as ->
      by (unfold shift; f_equal; lia).
    split; [|rewrite !proper_iff; cbn; lia]. apply (edit_right del); [done|done| |].
    + unfold seq, lo, hi in Hper. by destruct del.
    + destruct (script_next a b _ _ _ Hr) as (k & Hk & Hsk & Hrest). exists k. split; [done|]. split; [lia|]. apply Hrest. lia.
Qed.

Definition good (hs : list Hunk) : Prop := script a b 0 0 hs /\ all_proper hs.

Lemma end_of_rev done : end_of 0 (rev done) = match done with [] => 0 | l :: _ => a_hi l end.
Proof using Type. destruct done as [|l done]; [done|]. cbn [rev]. by rewrite end_of_app. Qed.

Definition slides (seq : bytes) (lo hi before after : nat) (done : list Hunk) (h : Hunk) (rest : list Hunk) : Prop :=
  exists best h', best_place seq lo hi before after = Some best /\
    mv_hunk (Z.of_nat best - Z.of_nat lo) h = Some h' /\ good (rev done ++ h' :: rest).

Lemma segment_end (i j x y : nat) l : segment a b i j l x y -> x = end_of i l.
Proof using Type.
  revert i j. induction l as [|h l IH]; intros i j; cbn; [by intros [-> _]|]. intros (k & _ & _ & _ & _ & _ & Hs). by eapply IH.
Qed.

(** What [lossless] computes of one hunk. *)
Lemma lossless_step done h rest :
  good (rev done ++ h :: rest) ->
  exists before after d i,
    usub (a_lo h) (match done with [] => 0 | l :: _ => a_hi l end) = Some before /\
    usub (next_lo a rest) (a_hi h) = Some after /\ deleted h = Some d /\ inserted h = Some i /\
    ((0 <? d) && (0 <? i) = false ->
      if 0 <? d then slides a (a_lo h) (a_hi h) before after done h rest else slides b (b_lo h) (b_hi h) before after done h rest).
Proof using Ha Hb.
  intros [(x & y & Hseg & Hr)%script_app Hp]. pose proof (segment_end _ _ _ _ _ Hseg) as Ex. rewrite end_of_rev in Ex.
  rewrite <- Ex. pose proof Hr as (n & Hla & Hlb & _ & Hha & Hhb & Hrest).
  destruct (script_next a b _ _ _ Hrest) as (m & Hm & Hsm & _). pose proof Hsm as (? & ? & _).
  exists n, m, (a_hi h - a_lo h), (b_hi h - b_lo h). unfold deleted, inserted. rewrite !usub_Some by lia.
  split; [f_equal; lia|]. split; [f_equal; lia|]. split; [done|]. split; [done|]. intros Hc.
  assert (Hgood : forall h', script a b x y (h' :: rest) -> (proper h = true -> proper h' = true) -> good (rev done ++ h' :: rest)).
  { intros h' Hx Hpr. split; [apply script_app; eauto|]. apply Forall_app in Hp as [? Hp2]. apply Forall_app. split; [done|].
    apply Forall_cons in Hp2 as [? ?]. constructor; auto. }
  pose proof (slide_best x y h rest) as Hsl. cbn zeta in Hsl. rewrite Hm in Hsl.
  replace (a_lo h - x) with n in Hsl by lia. replace (a_hi h + m - a_hi h) with m in Hsl by lia.
  destruct (Nat.ltb_spec 0 (a_hi h - a_lo h)) as [Hd|Hd].
  - cbn [andb] in Hc. apply Nat.ltb_ge in Hc. rewrite (proj2 (Nat.ltb_lt (a_lo h) (a_hi h))) in Hsl by lia.
    destruct (best_place_spec a (a_lo h) (a_hi h) n m Ha Hha ltac:(lia) ltac:(lia)) as (best & E & Hmv).
    destruct (Hsl best Hr ltac:(lia) Hmv) as (h' & Emv & Hs' & Hpr). exists best, h'. auto.
  - rewrite (proj2 (Nat.ltb_ge (a_lo h) (a_hi h))) in Hsl by lia.
    destruct (best_place_spec b (b_lo h) (b_hi h) n m Hb Hhb ltac:(lia) ltac:(lia)) as (best & E & Hmv).
    destruct (Hsl best Hr ltac:(lia) Hmv) as (h' & Emv & Hs' & Hpr). exists best, h'. auto.
Qed.

Lemma push_joined_good done h rest : good (rev done ++ h :: rest) -> good (rev (push_joined done h) ++ rest).
Proof using Type.
  intros [Hs Hp]. destruct (push_joined_spec (T := u8) a b 0 0 done h rest Hs) as (Hs' & _ & _ & Hp'). split; auto.
Qed.

Lemma good_join done h n rest :
  good (rev done ++ h :: n :: rest) -> good (rev done ++ join h n :: rest).
Proof using Type.
  intros [Hs Hp]. split; [eapply script_mid; [exact Hs|]; intros; by apply script_fold|].
  pose proof Hs as (x & y & _ & (k & _ & _ & _ & ? & ? & (k' & ? & ? & _ & ? & ? & _)))%script_app.
  apply Forall_app in Hp as [? Hp2]. apply Forall_app. split; [done|]. apply Forall_cons in Hp2 as [Hph Hp2].
  apply Forall_cons in Hp2 as [Hpn Hp2]. constructor; [|done]. apply proper_iff in Hph, Hpn. apply proper_iff. cbn. lia.
Qed.

Lemma lossless_script rest : forall done h,
  good (rev done ++ h :: rest) -> exists hs', lossless a b done h rest = Some hs' /\ good hs'.
Proof using Ha Hb.
  induction rest as [|n rest IH]; intros done h Hg; cbn [lossless];
    destruct (lossless_step done h _ Hg) as (before & after & d & i & E1 & E2 & E3 & E4 & Hslide);
    cbn [next_lo] in E2; rewrite E1, E2, E3, E4; cbn [mbind option_bind];
    (destruct ((before =? 0) || (after =? 0) || (0 <? d) && (0 <? i)) eqn:Ec;
      [|apply orb_false_iff in Ec as [_ Ec]; specialize (Hslide Ec)]).
  - eexists. split; [done|]. exact Hg.
  - destruct (0 <? d); destruct Hslide as (best & h' & -> & Hmv & Hg'); cbn [mbind option_bind]; rewrite Hmv;
      cbn [mbind option_bind]; (eexists; split; [done|]); apply push_joined_good in Hg'; by rewrite app_nil_r in Hg'.
  - apply IH. cbn [rev]. by rewrite <- app_assoc.
  - destruct (0 <? d); destruct Hslide as (best & h' & -> & Hmv & Hg'); cbn [mbind option_bind]; rewrite Hmv;
      cbn [mbind option_bind]; (destruct (touches h' n); apply IH; [by apply good_join in Hg'|by apply push_joined_good in Hg']).
Qed.

Lemma cleanup_semantic_spec hs :
  good hs -> exists hs', cleanup_semantic hs a b = Some hs' /\ good hs'.
Proof using Ha Hb.
  intros [Hs Hp]. unfold cleanup_semantic.
  destruct (fold_noise_script [] hs false Hs Hp) as (hs1 & ch & -> & Hs1 & Hp1). cbn [mbind option_bind].
  assert (exists hs2, (if ch then cleanup_merge (T := u8) hs1 a b else Some hs1) = Some hs2 /\ good hs2) as (hs2 & -> & Hg2).
  { destruct ch; [|by eexists].
    assert (@Forall u8 elem_ok a) as Hoa by exact Ha. assert (@Forall u8 elem_ok b) as Hob by exact Hb.
    destruct (cleanup_merge_spec (T := u8) a b Hoa Hob hs1 Hs1) as (hs2 & -> & ? & _ & ?). exists hs2. split; [done|]. split; auto. }
  cbn [mbind option_bind].
  assert (exists hs3, cleanup_semantic_lossless hs2 a b = Some hs3 /\ good hs3) as (hs3 & -> & [Hs3 Hp3]).
  { unfold cleanup_semantic_lossless. destruct hs2 as [|h rest]; [by eexists|]. by apply (lossless_script rest [] h). }
  cbn [mbind option_bind]. destruct (extract_overlaps_script [] hs3 Hs3 Hp3) as (hs4 & -> & ? & ?). by exists hs4.
Qed.
End Semantic.

(** ** The two diffs *)
Section Frame.
Context {T : Type}.
Context (pre ma mb suf : list T).
#[local] Abbreviation a := (pre ++ ma ++ suf).
#[local] Abbreviation b := (pre ++ mb ++ suf).

Lemma script_framed hs : script ma mb 0 0 hs -> script a b 0 0 (map (move_hunk (length pre)) hs).
Proof using Type.
  intros Hs. assert (Hin : forall i j hs, script ma mb i j hs ->
    script a b (length pre + i) (length pre + j) (map (move_hunk (length pre)) hs)).
  { assert (Hsame : forall i j n, same ma mb i j n -> same a b (length pre + i) (length pre + j) n).
    { intros i j n (H1 & H2 & H3). split; [rewrite !length_app; lia|]. split; [rewrite !length_app; lia|]. intros k Hk.
      rewrite <- !Nat.add_assoc, (lookup_app_r pre (ma ++ suf)), (lookup_app_r pre (mb ++ suf)) by lia. rewrite !Nat.add_sub'.
      rewrite (lookup_app_l ma), (lookup_app_l mb) by lia. by apply H3. }
    intros i j l. revert i j. induction l as [|h l IH]; intros i j.
    - intros (n & E1 & E2 & Hn). exists (n + length suf). rewrite !length_app. split; [lia|]. split; [lia|].
      apply same_app; [by apply Hsame|]. apply text_same; [rewrite !length_app; lia..|].
      rewrite <- !Nat.add_assoc, <- E1, <- E2, <- !drop_drop, !drop_app_length. done.
    - intros (n & E1 & E2 & Hn & ? & ? & Hr). exists n. cbn. split; [lia|]. split; [lia|]. split; [by apply Hsame|].
      split; [lia|]. split; [lia|]. rewrite (Nat.add_comm (a_hi h)), (Nat.add_comm (b_hi h)). by apply IH. }
  eapply script_extend; [|by apply (Hin 0 0)]. rewrite !Nat.add_0_r. apply text_same; [rewrite length_app; lia..|].
  by rewrite !drop_0, !take_app_length.
Qed.
End Frame.

Lemma proper_framed p hs : all_proper hs -> all_proper (map (move_hunk p) hs).
Proof.
  intros Hp. apply Forall_fmap. eapply Forall_impl; [exact Hp|]. intros h Hh. apply proper_iff in Hh. apply proper_iff. cbn. lia.
Qed.

(** The common ends of two texts, and what is between. *)
Lemma common_frame {T} `{EqDecision T} (a b : list T) p s :
  p = prefix_loop a b -> s = suffix_loop (drop p a) (drop p b) ->
  p + s <= length a /\ p + s <= length b /\
  exists pre suf, length pre = p /\ a = pre ++ take (length a - s - p) (drop p a) ++ suf /\
    b = pre ++ take (length b - s - p) (drop p b) ++ suf.
Proof.
  intros Hp Hs. destruct (prefix_same a b 0 0 (length a) (length b) p) as (H1 & H2 & Hsame & _); [done|done| |].
  { by rewrite !drop_0, !firstn_all. }
  destruct (suffix_same a b p p (length a - p) (length b - p) s) as (H3 & H4 & Hss & _); [lia|lia| |].
  { by rewrite !firstn_all2 by (rewrite length_drop; lia). }
  split; [lia|]. split; [lia|]. exists (take p a), (drop (length a - s) a). split; [rewrite length_take; lia|].
  assert (Hfr : forall c : list T, p + s <= length c ->
            c = take p c ++ take (length c - s - p) (drop p c) ++ drop (length c - s) c).
  { intros c Hc. rewrite <- (take_drop p c) at 1. f_equal. rewrite <- (take_drop (length c - s - p) (drop p c)) at 1.
    f_equal. rewrite drop_drop. f_equal. lia. }
  split; [apply Hfr; lia|]. apply same_text in Hsame. rewrite !drop_0 in Hsame. rewrite Hsame.
  assert (drop (length a - s) a = drop (length b - s) b) as ->; [|apply Hfr; lia].
  apply same_text in Hss. replace (length a - s) with (p + (length a - p - s)) by lia.
  replace (length b - s) with (p + (length b - p - s)) by lia.
  by rewrite !firstn_all2 in Hss by (rewrite length_drop; lia).
Qed.

Section Diffs.
Context {T : Type} `{HE : Elem T, !ElemLaws T}.

(** The texts are below the limit, and so are parts of them. *)
Lemma too_long_short {A} (x y mx my : list A) :
  too_long x y = false -> length mx <= length x -> length my <= length y -> short mx /\ short my.
Proof using Type. unfold too_long, short. intros ?%Z.leb_gt ? ?. lia. Qed.

Lemma chars_ok n : policy_ok (with_work_per CHARS n).
Proof using Type. by repeat split. Qed.
Lemma as_fast_diff_ok n : policy_ok (with_work_per AS_FAST_DIFF n).
Proof using Type. by repeat split. Qed.

Lemma search_hunks_spec policy (ma mb : list T) :
  Forall elem_ok ma -> Forall elem_ok mb -> short ma /\ short mb -> policy_ok policy ->
  exists hs, search_hunks policy ma mb = Some hs /\ script ma mb 0 0 hs /\ all_proper hs.
Proof.
  intros Ha Hb [Hsa Hsb] Hp. unfold search_hunks. destruct (run_spec ma mb Ha Hb Hsa Hsb policy Hp) as (ca & cb & -> & Hca & Hcb & Hm).
  cbn [mbind option_bind]. destruct (hunks_from_changed_spec ma mb Ha Hb ca cb Hca Hcb Hm) as (hs & -> & ? & ? & _). by exists hs.
Qed.

Lemma whole_script (ma mb : list T) :
  script ma mb 0 0 [{| a_lo := 0; a_hi := length ma; b_lo := 0; b_hi := length mb |}].
Proof.
  exists 0. cbn. split; [done|]. split; [done|]. split; [apply same_0; lia|]. split; [lia|]. split; [lia|].
  exists 0. split; [lia|]. split; [lia|]. by apply same_0.
Qed.

Lemma push_whole_script (ma mb : list T) h hs :
  script ma mb 0 0 (h :: hs) -> script ma mb 0 0 (push_nonempty [] h ++ hs).
Proof.
  intros Hs. unfold push_nonempty. destruct (proper h) eqn:E; [done|]. eapply script_skip; [exact Hs|..];
    destruct Hs as (_ & _ & _ & _ & ? & ? & _); unfold proper in E; apply orb_false_iff in E; rewrite !Nat.ltb_ge in E; lia.
Qed.

Lemma diff_as_fast_diff_spec (a b : list T) :
  Forall elem_ok a -> Forall elem_ok b ->
  exists hs, diff_as_fast_diff a b = Some hs /\ script a b 0 0 hs /\ all_proper hs /\ Forall (cut_between a b) hs.
Proof.
  intros Ha Hb. unfold diff_as_fast_diff. rewrite prefix_law by done. cbn [mbind option_bind].
  set (p := prefix_loop a b). destruct (prefix_loop_le a b) as [? ?].
  rewrite !slice_from_Some by done. cbn [mbind option_bind]. rewrite suffix_law by (by apply Forall_drop). cbn [mbind option_bind].
  set (s := suffix_loop (drop p a) (drop p b)).
  destruct (common_frame a b p s eq_refl eq_refl) as (H1 & H2 & pre & suf & Hpre & Ea & Eb). clearbody p s.
  rewrite !usub_Some by lia. cbn [mbind option_bind]. rewrite !slice_range_Some by lia. cbn [mbind option_bind].
  set (ma := take (length a - s - p) (drop p a)) in *. set (mb := take (length b - s - p) (drop p b)) in *.
  assert (Forall elem_ok ma) by (by apply Forall_take, Forall_drop). assert (Forall elem_ok mb) by (by apply Forall_take, Forall_drop).
  match goal with |- context [mbind ?k (if too_long a b then ?x else ?y)] =>
    assert (exists hs, (if too_long a b then x else y) = Some hs /\ script ma mb 0 0 hs /\ all_proper hs) as (hs & -> & Hs & Hp) end.
  { destruct (too_long a b) eqn:El.
    2: { apply search_hunks_spec; [done..| |apply as_fast_diff_ok].
         apply (too_long_short a b); [done|unfold ma|unfold mb]; rewrite length_take, length_drop; lia. }
    eexists. split; [done|]. split.
    - rewrite <- (app_nil_r (push_nonempty _ _)). apply push_whole_script, whole_script.
    - apply push_nonempty_proper. constructor. }
  cbn [mbind option_bind]. apply (script_framed pre ma mb suf) in Hs. rewrite Hpre, <- Ea, <- Eb in Hs.
  destruct (cleanup_merge_spec a b Ha Hb _ Hs) as (hs1 & -> & Hs1 & _ & Hp1). cbn [mbind option_bind].
  destruct (align_to_characters_spec a b hs1 Hs1) as (hs2 & -> & ? & ? & Hp2).
  exists hs2. split; [done|]. split; [done|]. split; [|done]. apply Hp2, Hp1, proper_framed, Hp.
Qed.
End Diffs.

Section Bytes.
Context (a b : bytes) (Ha : Forall is_byte a) (Hb : Forall is_byte b).

(** The shorter of the middles, found in the longer. *)
Lemma contains_script (ma mb : bytes) long_is_a at_ :
  contains ma mb = Some (long_is_a, at_) ->
  let ga := if long_is_a then at_ else 0 in
  let gb := if long_is_a then 0 else at_ in
  let common := Nat.min (length ma) (length mb) in
  script ma mb 0 0 [{| a_lo := 0; a_hi := ga; b_lo := 0; b_hi := gb |};
                    {| a_lo := ga + common; a_hi := length ma; b_lo := gb + common; b_hi := length mb |}].
Proof using Type.
  intros Hc ga gb common.
  assert (same ma mb ga gb common /\ ga + common <= length ma /\ gb + common <= length mb) as (Hs & Hea & Heb).
  { unfold contains in Hc. destruct (Nat.leb_spec (length mb) (length ma)) as [Hle|Hle];
      apply fmap_Some in Hc as (i & Hi & [= -> ->]); apply index_of_Some in Hi as [Hlen Heq]; unfold ga, gb, common.
    - rewrite Nat.min_r by done. split; [|lia]. apply text_same; [lia|lia|]. by rewrite drop_0, firstn_all.
    - rewrite Nat.min_l by lia. split; [|lia]. apply text_same; [lia|lia|]. by rewrite drop_0, firstn_all. }
  clearbody ga gb common. exists 0. cbn. split; [done|]. split; [done|]. split; [apply same_0; lia|]. split; [lia|]. split; [lia|].
  exists common. cbn. split; [done|]. split; [done|]. split; [done|]. split; [lia|]. split; [lia|].
  exists 0. split; [lia|]. split; [lia|]. by apply same_0.
Qed.

Lemma whole_middle_spec (ma mb : bytes) :
  Forall is_byte ma -> Forall is_byte mb -> ma <> [] \/ mb <> [] ->
  length ma <= length a -> length mb <= length b ->
  exists hs, whole_middle a b ma mb = Some hs /\ script ma mb 0 0 hs /\ all_proper hs.
Proof using Type.
  intros Hma Hmb Hne Hla Hlb. unfold whole_middle.
  assert (exists hs, Some [{| a_lo := 0; a_hi := length ma; b_lo := 0; b_hi := length mb |}] = Some hs /\
            script ma mb 0 0 hs /\ all_proper hs) as Hwhole.
  { eexists. split; [done|]. split; [apply whole_script|]. constructor; [|constructor]. apply proper_iff. cbn.
    destruct ma, mb; cbn; try lia. by destruct Hne. }
  destruct (_ || _); [exact Hwhole|]. destruct (contains ma mb) as [[long at_]|] eqn:Ec.
  - pose proof (contains_script _ _ _ _ Ec) as Hs. cbn zeta in Hs.
    set (ga := if long then at_ else 0) in *. set (gb := if long then 0 else at_) in *.
    replace (if long then (at_, 0) else (0, at_)) with (ga, gb) by (unfold ga, gb; by destruct long).
    eexists. split; [done|]. split.
    + rewrite push_nonempty_app. apply push_whole_script in Hs. rewrite <- (app_nil_r (_ ++ _)), <- app_assoc.
      eapply script_mid; [exact Hs|]. intros x y Hxy. by apply push_nonempty_script.
    + apply push_nonempty_proper, push_nonempty_proper. constructor.
  - destruct (_ || _) eqn:E; [exact Hwhole|]. apply orb_false_iff in E as [_ El].
    assert (@Forall u8 elem_ok ma) as Hoa by exact Hma. assert (@Forall u8 elem_ok mb) as Hob by exact Hmb.
    exact (search_hunks_spec (T := u8) _ ma mb Hoa Hob (too_long_short a b ma mb El Hla Hlb) (chars_ok _)).
Qed.

Lemma whole_spec : exists hs, whole a b = Some hs /\ good a b hs.
Proof using Ha Hb.
  unfold whole. assert (@Forall u8 elem_ok a) as Hoa by exact Ha. assert (@Forall u8 elem_ok b) as Hob by exact Hb.
  rewrite (prefix_law (T := u8)) by done. cbn [mbind option_bind].
  match goal with |- context [@prefix_loop ?T ?E ?x ?y] => set (p := @prefix_loop T E x y) end.
  assert (p <= length a /\ p <= length b /\ (forall h, h <= p -> take h a = take h b) /\
          (p = length a -> p = length b -> a = b) /\ (a = b -> p = length a)) as (Hp1 & Hp2 & _ & Heq & Hfull)
    by exact (heads_same (a : list u8) b p eq_refl).
  destruct ((p =? length a) && (p =? length b)) eqn:E.
  { apply andb_true_iff in E as [Epa%Nat.eqb_eq Epb%Nat.eqb_eq]. exists []. split; [done|]. split; [|constructor].
    pose proof (Heq Epa Epb) as <-. exists (length a). split; [done|]. split; [done|]. split; [done|]. by split. }
  rewrite (slice_from_Some (A := u8) a p Hp1), (slice_from_Some (A := u8) b p Hp2). cbn [mbind option_bind].
  rewrite (suffix_law (T := u8)) by (by apply Forall_drop). cbn [mbind option_bind].
  match goal with |- context [@suffix_loop ?T ?E ?x ?y] => set (s := @suffix_loop T E x y) end.
  assert (p + s <= length a /\ p + s <= length b /\
    exists pre suf, length pre = p /\ a = pre ++ take (length a - s - p) (drop p a) ++ suf /\
      b = pre ++ take (length b - s - p) (drop p b) ++ suf) as (H1 & H2 & pre & suf & Hpre & Ea & Eb)
    by exact (common_frame (a : list u8) b p s eq_refl eq_refl).
  clearbody p s. rewrite !usub_Some by lia. cbn [mbind option_bind].
  rewrite !slice_range_Some by lia. cbn [mbind option_bind].
  set (ma := take (length a - s - p) (drop p a)) in *. set (mb := take (length b - s - p) (drop p b)) in *.
  destruct (whole_middle_spec ma mb) as (hs & -> & Hs & Hp);
    [by apply Forall_take, Forall_drop..| |unfold ma; rewrite length_take, length_drop; lia|
     unfold mb; rewrite length_take, length_drop; lia|].
  { destruct (decide (ma = [])) as [E1|]; [|by left]. destruct (decide (mb = [])) as [E2|]; [|by right]. exfalso.
    assert (a = b) as Eab by (rewrite E1 in Ea; rewrite E2 in Eb; congruence).
    pose proof (Hfull Eab) as Ep. by rewrite <- Eab, Ep, Nat.eqb_refl in E. }
  cbn [mbind option_bind]. eexists. split; [done|]. apply (script_framed pre ma mb suf) in Hs. rewrite Hpre, <- Ea, <- Eb in Hs.
  split; [done|]. by apply proper_framed.
Qed.

Lemma finish_spec hs :
  good a b hs -> exists hs', finish hs a b = Some hs' /\ good a b hs' /\ Forall (cut_between (a : list u8) b) hs'.
Proof using Ha Hb.
  intros [Hs Hp]. assert (@Forall u8 elem_ok a) as Hoa by exact Ha. assert (@Forall u8 elem_ok b) as Hob by exact Hb.
  unfold finish. destruct (cleanup_merge_spec (T := u8) a b Hoa Hob hs Hs) as (hs1 & -> & Hs1 & _ & Hp1). cbn [mbind option_bind].
  destruct (align_to_characters_spec (T := u8) a b hs1 Hs1) as (hs2 & -> & Hs2 & _ & Hp2). cbn [mbind option_bind].
  destruct (cleanup_semantic_spec a b Ha Hb hs2) as (hs3 & -> & Hs3 & Hp3); [split; auto|]. cbn [mbind option_bind].
  destruct (align_to_characters_spec (T := u8) a b hs3 Hs3) as (hs4 & -> & Hs4 & ? & Hp4). exists hs4.
  split; [done|]. split; [|done]. split; auto.
Qed.

Lemma diff_spec : exists hs, diff a b = Some hs /\ good a b hs /\ Forall (cut_between (a : list u8) b) hs.
Proof using Ha Hb.
  unfold diff. destruct whole_spec as (hs & -> & Hg). cbn [mbind option_bind]. by apply finish_spec.
Qed.
End Bytes.

(** ** What the character diffs promise *)

Lemma cut_whole_characters {T} `{Elem T} (tail_len : T -> nat) (a b : list T) hs :
  script a b 0 0 hs -> Forall (cut_between a b) hs -> characters tail_len a -> characters tail_len b ->
  Forall (between_characters a b) hs.
Proof.
  intros Hs Hc Ca Cb. eapply cut_characters; [exact Ca|exact Cb|exact Hs| | |exact Hc]; by eapply characters_head.
Qed.

(** C26. [diff] always returns hunks that turn the old text into the new one: through the
    quick answers for an empty, huge or contained text, the search and all the clean-up
    passes.  No hunk is empty, between them the texts are equal, and in texts that are
    sequences of whole characters, of whatever lengths, no hunk cuts one. *)
Theorem char_diff_rebuilds (a b : bytes) (Ha : Forall is_byte a) (Hb : Forall is_byte b) :
  exists hs, diff a b = Some hs /\ patch a b 0 hs = b /\ script a b 0 0 hs /\ all_proper hs /\
    forall tail_len : u8 -> nat, characters tail_len a -> characters tail_len b ->
      Forall (between_characters (a : list u8) b) hs.
Proof.
  destruct (diff_spec a b Ha Hb) as (hs & E & [Hs Hp] & Hc). exists hs. splits; try done.
  - by rewrite (patch_script a b 0 0 hs Hs).
  - intros tail_len. by apply cut_whole_characters.
Qed.

(** The same of the diff without the semantic passes, for any kind of element that keeps
    the laws of the trait: UTF-16 code units, where no surrogate pair is cut, as well as bytes. *)
Theorem fast_diff_rebuilds `{ElemLaws T} (a b : list T) (Ha : Forall elem_ok a) (Hb : Forall elem_ok b) :
  exists hs, diff_as_fast_diff a b = Some hs /\ patch a b 0 hs = b /\ script a b 0 0 hs /\ all_proper hs /\
    forall tail_len : T -> nat, characters tail_len a -> characters tail_len b ->
      Forall (between_characters a b) hs.
Proof.
  destruct (diff_as_fast_diff_spec a b Ha Hb) as (hs & E & Hs & Hp & Hc). exists hs. splits; try done.
  - by rewrite (patch_script a b 0 0 hs Hs).
  - intros tail_len. by apply cut_whole_characters.
Qed.

(** C35. Every pass over hunks keeps a well-formed script, hunks in order within both texts,
    equal text between them and none of them empty, and returns: merging leaves no two hunks that
    touch, alignment leaves none that starts or ends within a character, and sliding
    lines keeps hunks apart. *)
Theorem passes_keep_scripts (a b : bytes) hs (Ha : Forall is_byte a) (Hb : Forall is_byte b)
    (Hs : script a b 0 0 hs) (Hp : all_proper hs) :
  (exists hs', cleanup_merge (T := u8) hs a b = Some hs' /\ good a b hs' /\ separated hs') /\
  (exists hs', align_to_characters (T := u8) hs a = Some hs' /\ good a b hs' /\ Forall (cut_between (a : list u8) b) hs') /\
  (exists hs', cleanup_semantic hs a b = Some hs' /\ good a b hs') /\
  (separated hs -> exists hs', slide_line_hunks (T := u8) hs a b = Some hs' /\ good a b hs' /\ separated hs').
Proof.
  assert (@Forall u8 elem_ok a) as Hoa by exact Ha. assert (@Forall u8 elem_ok b) as Hob by exact Hb. splits.
  - destruct (cleanup_merge_spec (T := u8) a b Hoa Hob hs Hs) as (hs' & ? & ? & ? & ?). exists hs'. unfold good. auto 6.
  - destruct (align_to_characters_spec (T := u8) a b hs Hs) as (hs' & ? & ? & ? & ?). exists hs'. unfold good. auto 6.
  - by apply cleanup_semantic_spec.
  - intros Hsep. destruct (slide_line_hunks_spec (T := u8) a b Hoa Hob hs Hs Hsep) as (hs' & ? & ? & ? & ? & _).
    exists hs'. unfold good. auto 6.
Qed.

(** The overlap that the prefix function of Knuth, Morris and Pratt finds is the longest
    suffix of [x], of at most 64 KiB, that [y] starts with: what trying every length would
    find.  Its loops end and its table is never read out of range. *)
Theorem common_overlap_longest (x y : bytes) : common_overlap x y = Some (longest_overlap x y).
Proof.
  destruct (common_overlap_spec x y) as (k & -> & ? & ? & ? & ? & ?). f_equal. symmetry. by apply longest_overlap_spec.
Qed.

(** The same words, once with two accented letters, of two bytes each. *)
Definition accented : bytes := [110; 97; 195; 175; 118; 101; 32; 99; 97; 102; 195; 169]%Z.
Definition plain : bytes := bstr "naive cafe".
Definition utf8_tail (x : u8) : nat := if (x <? 192)%Z then 0 else if (x <? 224)%Z then 1 else if (x <? 240)%Z then 2 else 3.

Lemma accented_characters : characters utf8_tail (accented : list u8).
Proof.
  do 2 (apply (characters_cons _ _ []); [done|done|constructor|]). apply (characters_cons _ _ [175]%Z); [done|done|by repeat constructor|].
  do 6 (apply (characters_cons _ _ []); [done|done|constructor|]). apply (characters_cons _ _ [169]%Z); [done|done|by repeat constructor|].
  constructor.
Qed.
Lemma plain_characters : characters utf8_tail (plain : list u8).
Proof. do 10 (apply (characters_cons _ _ []); [done|done|constructor|]). constructor. Qed.

Example diff_example :
  diff accented plain = Some [{| a_lo := 2; a_hi := 4; b_lo := 2; b_hi := 3 |}; {| a_lo := 10; a_hi := 12; b_lo := 9; b_hi := 10 |}].
Proof. vm_compute. reflexivity. Qed.

Lemma char_diff_rebuilds_witness :
  exists hs, diff accented plain = Some hs /\ patch accented plain 0 hs = plain /\ Forall (between_characters (accented : list u8) plain) hs.
Proof.
  destruct (char_diff_rebuilds accented plain) as (hs & ? & ? & _ & _ & Hc); [decide_now|decide_now|].
  exists hs. split; [assumption|]. split; [assumption|]. exact (Hc utf8_tail accented_characters plain_characters).
Defined.

(** U+1F600 and U+1F601, which share their high surrogate, between two letters. *)
Definition grin : list u16 := [97; 55357; 56832; 98]%Z.
Definition beam : list u16 := [97; 55357; 56833; 98]%Z.

Lemma fast_diff_rebuilds_witness :
  diff_as_fast_diff grin beam = Some [{| a_lo := 1; a_hi := 3; b_lo := 1; b_hi := 3 |}] /\
  exists hs, diff_as_fast_diff grin beam = Some hs /\ patch grin beam 0 hs = beam.
Proof.
  split; [vm_compute; reflexivity|].
  destruct (fast_diff_rebuilds grin beam) as (hs & ? & ? & _); [repeat constructor; discriminate|repeat constructor; discriminate|].
  exists hs. split; assumption.
Defined.

(** Decides [script], on concrete texts. *)
Fixpoint check_script {T} `{EqDecision T} (a b : list T) (i j : nat) (hunks : list Hunk) : bool :=
  let gap n := (i + n <=? length a) && (j + n <=? length b) && bool_decide (take n (drop i a) = take n (drop j b)) in
  match hunks with
  | [] => (i <=? length a) && (length a - i + j =? length b) && gap (length a - i)
  | h :: hunks =>
      (i <=? a_lo h) && (a_lo h - i + j =? b_lo h) && gap (a_lo h - i) &&
      (a_lo h <=? a_hi h) && (b_lo h <=? b_hi h) && check_script a b (a_hi h) (b_hi h) hunks
  end.

Lemma check_script_ok {T} `{EqDecision T} (a b : list T) i j hs : check_script a b i j hs = true -> script a b i j hs.
Proof.
  revert i j. induction hs as [|h hs IH]; intros i j; cbn [check_script script]; rewrite !andb_true_iff, !Nat.leb_le, !Nat.eqb_eq, bool_decide_eq_true.
  - intros [[? ?] [[? ?] ?]]. exists (length a - i). splits; [lia|lia|]. by apply text_same.
  - intros [[[[[? ?] [[? ?] ?]] ?] ?] ?]. exists (a_lo h - i). splits; [lia|lia|by apply text_same|done|done|by apply IH].
Qed.

(** Widening a hunk over the whole equality before it leaves it touching the hunk before:
    the two are not joined, though the comment of [align_to_characters] says so. *)
Example align_leaves_touching :
  align_to_characters (T := u16) [{| a_lo := 0; a_hi := 1; b_lo := 0; b_hi := 1 |}; {| a_lo := 2; a_hi := 3; b_lo := 2; b_hi := 3 |}]
      [120; 55357; 56832]%Z
    = Some [{| a_lo := 0; a_hi := 1; b_lo := 0; b_hi := 1 |}; {| a_lo := 1; a_hi := 3; b_lo := 1; b_hi := 3 |}].
Proof. reflexivity. Qed.

Definition example_hunks : list Hunk :=
  [{| a_lo := 2; a_hi := 3; b_lo := 2; b_hi := 3 |}; {| a_lo := 3; a_hi := 4; b_lo := 3; b_hi := 3 |};
   {| a_lo := 10; a_hi := 12; b_lo := 9; b_hi := 10 |}].

Lemma passes_keep_scripts_witness :
  (exists hs', cleanup_merge (T := u8) example_hunks accented plain = Some hs' /\ good accented plain hs' /\ separated hs') /\
  exists hs', cleanup_semantic example_hunks accented plain = Some hs' /\ good accented plain hs'.
Proof.
  destruct (passes_keep_scripts accented plain example_hunks) as (H1 & _ & H3 & _); [decide_now|decide_now| | |split; assumption].
  - apply check_script_ok. vm_compute. reflexivity.
  - unfold all_proper. decide_now.
Defined.
