(* ===== verification/Wtf8.v ===== *)
(** * WTF-8: UTF-8 that may hold lone surrogates

    The encoder, the decoder that the lexers and the source maps share, and the scan for
    bytes that are not printable ASCII (src/bun_core/lib.rs,
    src/bun_core/string/immutable.rs, src/bun_core/string/immutable/unicode.rs).  The
    decoder inverts the encoder, and takes nothing that the encoder does not write. *)

From S2P Require Import Prelude.

(** ** Encoding *)

(** [encode_wtf8_rune]: the bytes that are written to [out]. *)
Definition encode_wtf8_rune (cp : Z) : bytes :=
  if cp <? 0x80 then [cp mod 256]
  else if cp <? 0x800 then
    [Z.lor 0xC0 (Z.shiftr cp 6 mod 256); Z.lor 0x80 (Z.land cp 0x3F)]
  else if cp <? 0x10000 then
    [Z.lor 0xE0 (Z.shiftr cp 12 mod 256); Z.lor 0x80 (Z.land (Z.shiftr cp 6) 0x3F); Z.lor 0x80 (Z.land cp 0x3F)]
  else
    [Z.lor 0xF0 (Z.shiftr cp 18 mod 256); Z.lor 0x80 (Z.land (Z.shiftr cp 12) 0x3F);
     Z.lor 0x80 (Z.land (Z.shiftr cp 6) 0x3F); Z.lor 0x80 (Z.land cp 0x3F)].

(** [wtf8_sequence]: the same in an array of four, filled up with zeros. *)
Definition wtf8_sequence (code_point : Z) : bytes :=
  if code_point <=? 0x7F then [code_point; 0; 0; 0]
  else if code_point <=? 0x7FF then
    [Z.lor 0xC0 (Z.shiftr code_point 6) mod 256; Z.lor 0x80 (Z.land code_point 0x3F) mod 256; 0; 0]
  else if code_point <=? 0xFFFF then
    [Z.lor 0xE0 (Z.shiftr code_point 12) mod 256; Z.lor 0x80 (Z.land (Z.shiftr code_point 6) 0x3F) mod 256;
     Z.lor 0x80 (Z.land code_point 0x3F) mod 256; 0]
  else
    [Z.lor 0xF0 (Z.shiftr code_point 18) mod 256; Z.lor 0x80 (Z.land (Z.shiftr code_point 12) 0x3F) mod 256;
     Z.lor 0x80 (Z.land (Z.shiftr code_point 6) 0x3F) mod 256; Z.lor 0x80 (Z.land code_point 0x3F) mod 256].

Definition push_codepoint_wtf8 (buf : bytes) (cp : Z) : bytes := buf ++ encode_wtf8_rune cp.

(** ** Decoding *)

(** The width a leading byte declares, and 1 for a byte that cannot lead. *)
Definition wtf8_byte_sequence_length (first_byte : Z) : nat :=
  if in_range 0x00 0x7F first_byte then 1
  else if in_range 0xC0 0xDF first_byte then 2
  else if in_range 0xE0 0xEF first_byte then 3
  else if in_range 0xF0 0xF7 first_byte then 4
  else 1.

(** [p] is an array of four bytes; [zero] stands for what is not well formed. *)
Definition decode_wtf8_rune_t_multibyte (p : bytes) (len : nat) (zero : Z) : Z :=
  let s1 := nth 1 p 0 in
  if negb (Z.land s1 0xC0 =? 0x80) then zero
  else if (len =? 2)%nat then
    let cp := Z.lor (Z.shiftl (Z.land (nth 0 p 0) 0x1F) 6) (Z.land s1 0x3F) in
    if cp <? 0x80 then zero else cp
  else
    let s2 := nth 2 p 0 in
    if negb (Z.land s2 0xC0 =? 0x80) then zero
    else if (len =? 3)%nat then
      let cp := Z.lor (Z.lor (Z.shiftl (Z.land (nth 0 p 0) 0x0F) 12) (Z.shiftl (Z.land s1 0x3F) 6)) (Z.land s2 0x3F) in
      if cp <? 0x800 then zero else cp
    else
      let s3 := nth 3 p 0 in
      if negb (Z.land s3 0xC0 =? 0x80) then zero
      else
        let cp := Z.lor (Z.lor (Z.lor (Z.shiftl (Z.land (nth 0 p 0) 0x07) 18) (Z.shiftl (Z.land s1 0x3F) 12))
                               (Z.shiftl (Z.land s2 0x3F) 6)) (Z.land s3 0x3F) in
        if (cp <? 0x10000) || (0x10FFFF <? cp) then zero else cp.

Definition decode_wtf8_rune_t (p : bytes) (len : nat) (zero : Z) : Z :=
  if (len =? 0)%nat then zero
  else if (len =? 1)%nat then nth 0 p 0
  else decode_wtf8_rune_t_multibyte p len zero.

(** [let mut cp_bytes = [0u8; 4]; cp_bytes[..n].copy_from_slice(&s[..n])] *)
Definition cp_bytes (s : bytes) (n : nat) : bytes := take n s ++ replicate (4 - n) 0.

(** ** Scanning *)

(** The kernel's result: the first byte below 0x20 or above 127, or the length. *)
Definition newline_or_non_ascii (b : Z) : bool := (127 <? b) || (b <? 0x20).
Definition highway_index_of_newline_or_non_ascii (haystack : bytes) : option nat :=
  let result := count_while (fun b => negb (newline_or_non_ascii b)) haystack in
  if (result =? length haystack)%nat then None else Some result.

(** The outer option is the slice from [offset].  Positions are [u32]s in the source, which is the
    same below 4 GiB. *)
Definition index_of_newline_or_non_ascii_check_start (check_start : bool) (slice_ : bytes) (offset : nat) : option (option nat) :=
  remaining ← slice_from slice_ offset;
  match remaining with
  | [] => Some None
  | b :: _ =>
      if check_start && ((127 <? b) || (b <? 0x20) && negb (b =? 0x09)) then Some (Some offset)
      else Some (i ← highway_index_of_newline_or_non_ascii remaining; Some (i + offset)%nat)
  end.
Definition index_of_newline_or_non_ascii (slice_ : bytes) (offset : nat) : option (option nat) :=
  index_of_newline_or_non_ascii_check_start true slice_ offset.

(** ** Facts of the encoding *)

Ltac div_lia := Z.to_euclidean_division_equations; lia.

(** The code points there are; surrogates are among them. *)
Definition is_code_point (cp : Z) : Prop := 0 <= cp <= 0x10FFFF.

Lemma lor_high h a n : 0 <= n -> 0 <= a < 2 ^ n -> Z.lor (h * 2 ^ n) a = h * 2 ^ n + a.
Proof. intros Hn Ha. rewrite Z.lor_comm, <-Z.shiftl_mul_pow2, lor_shiftl, Z.shiftl_mul_pow2; lia. Qed.
Lemma land_63 a : Z.land a 0x3F = a mod 64.
Proof. apply (Z.land_ones a 6). lia. Qed.
Lemma shiftr_div k a : 0 <= k -> Z.shiftr a k = a / 2 ^ k.
Proof. intros. by apply Z.shiftr_div_pow2. Qed.

(** The bytes, by arithmetic. *)
Lemma encode_wtf8_rune_arith cp :
  is_code_point cp ->
  encode_wtf8_rune cp =
    if cp <? 0x80 then [cp]
    else if cp <? 0x800 then [192 + cp / 64; 128 + cp mod 64]
    else if cp <? 0x10000 then [224 + cp / 4096; 128 + cp / 64 mod 64; 128 + cp mod 64]
    else [240 + cp / 262144; 128 + cp / 4096 mod 64; 128 + cp / 64 mod 64; 128 + cp mod 64].
Proof.
  intros Hcp. unfold is_code_point in Hcp. unfold encode_wtf8_rune. rewrite !land_63, !shiftr_div by lia.
  change (2 ^ 6) with 64. change (2 ^ 12) with 4096. change (2 ^ 18) with 262144.
  assert (Hc : forall a, Z.lor 128 (a mod 64) = 128 + a mod 64).
  { intros a. apply (lor_high 2 (a mod 64) 6); [lia|]. apply Z.mod_pos_bound. lia. }
  rewrite !Hc.
  repeat case_match; try lia; f_equal; try (rewrite Z.mod_small; div_lia).
  - rewrite Z.mod_small by div_lia. apply (lor_high 6 (cp / 64) 5); div_lia.
  - rewrite Z.mod_small by div_lia. apply (lor_high 14 (cp / 4096) 4); div_lia.
  - rewrite Z.mod_small by div_lia. apply (lor_high 30 (cp / 262144) 3); div_lia.
Qed.
Lemma byte_cases (P : Z -> bool) :
  forallb P (map Z.of_nat (seq 0 256)) = true -> forall b, is_byte b -> P b = true.
Proof.
  intros H b Hb. rewrite forallb_forall in H. apply H. unfold is_byte in Hb.
  apply in_map_iff. exists (Z.to_nat b). split; [lia|]. apply in_seq. lia.
Qed.

Lemma continues b : is_byte b -> (Z.land b 0xC0 =? 0x80) = in_range 128 191 b.
Proof. intros Hb. apply eqb_true_iff. revert b Hb. apply byte_cases. by vm_compute. Qed.

(** What the decoder reads, by arithmetic. *)
Definition cont (b : Z) : bool := in_range 128 191 b.
Lemma decode_arith b0 b1 b2 b3 len zero :
  is_byte b0 -> is_byte b1 -> is_byte b2 -> is_byte b3 ->
  decode_wtf8_rune_t_multibyte [b0; b1; b2; b3] len zero =
    if negb (cont b1) then zero
    else if (len =? 2)%nat then
      let cp := b0 mod 32 * 64 + b1 mod 64 in if cp <? 128 then zero else cp
    else if negb (cont b2) then zero
    else if (len =? 3)%nat then
      let cp := b0 mod 16 * 4096 + b1 mod 64 * 64 + b2 mod 64 in if cp <? 2048 then zero else cp
    else if negb (cont b3) then zero
    else
      let cp := b0 mod 8 * 262144 + b1 mod 64 * 4096 + b2 mod 64 * 64 + b3 mod 64 in
      if (cp <? 65536) || (1114111 <? cp) then zero else cp.
Proof.
  intros H0 H1 H2 H3. unfold decode_wtf8_rune_t_multibyte. cbn [nth]. rewrite !continues by done.
  rewrite !land_63. change (Z.land b0 31) with (Z.land b0 (Z.ones 5)). change (Z.land b0 15) with (Z.land b0 (Z.ones 4)).
  change (Z.land b0 7) with (Z.land b0 (Z.ones 3)). rewrite !Z.land_ones, !Z.shiftl_mul_pow2 by lia. fold (cont b1) (cont b2) (cont b3).
  assert (M : forall a, 0 <= a mod 64 < 64) by (intros; apply Z.mod_pos_bound; lia).
  pose proof (M b1). pose proof (M b2). pose proof (M b3).
  change (2 ^ 3) with 8. change (2 ^ 4) with 16. change (2 ^ 5) with 32.
  rewrite (lor_high (b0 mod 32) (b1 mod 64) 6) by lia.
  assert (E2 : forall a, Z.lor (a * 2 ^ 12) (b1 mod 64 * 2 ^ 6) = a * 4096 + b1 mod 64 * 64) by (intros; rewrite lor_high; lia).
  rewrite E2.
  assert (E3 : Z.lor (b0 mod 16 * 4096 + b1 mod 64 * 64) (b2 mod 64) = b0 mod 16 * 4096 + b1 mod 64 * 64 + b2 mod 64).
  { replace (b0 mod 16 * 4096 + b1 mod 64 * 64) with ((b0 mod 16 * 64 + b1 mod 64) * 2 ^ 6) by lia. apply lor_high; lia. }
  rewrite E3.
  assert (E4 : Z.lor (b0 mod 8 * 2 ^ 18) (b1 mod 64 * 2 ^ 12) = (b0 mod 8 * 64 + b1 mod 64) * 2 ^ 12) by (rewrite lor_high; lia).
  rewrite E4, (lor_high (b0 mod 8 * 64 + b1 mod 64)) by lia.
  replace ((b0 mod 8 * 64 + b1 mod 64) * 2 ^ 12 + b2 mod 64 * 2 ^ 6)
    with ((b0 mod 8 * 4096 + b1 mod 64 * 64 + b2 mod 64) * 2 ^ 6) by lia.
  rewrite lor_high by lia. 
  replace ((b0 mod 8 * 4096 + b1 mod 64 * 64 + b2 mod 64) * 2 ^ 6 + b3 mod 64)
    with (b0 mod 8 * 262144 + b1 mod 64 * 4096 + b2 mod 64 * 64 + b3 mod 64) by lia.
  reflexivity.
Qed.

(** ** The two are inverse *)
Lemma encode_bytes cp : is_code_point cp -> Forall is_byte (encode_wtf8_rune cp).
Proof.
  intros H. rewrite encode_wtf8_rune_arith by done. unfold is_code_point in H.
  repeat case_match; repeat constructor; div_lia.
Qed.
Lemma encode_length cp : is_code_point cp ->
  length (encode_wtf8_rune cp) = if cp <? 0x80 then 1%nat else if cp <? 0x800 then 2%nat else if cp <? 0x10000 then 3%nat else 4%nat.
Proof. intros H. unfold encode_wtf8_rune. by repeat case_match. Qed.
Lemma encode_length_bounds cp : is_code_point cp -> (1 <= length (encode_wtf8_rune cp) <= 4)%nat.
Proof. intros H. rewrite encode_length by done. repeat case_match; lia. Qed.

Lemma encode_lead cp b rest :
  is_code_point cp -> encode_wtf8_rune cp = b :: rest -> wtf8_byte_sequence_length b = S (length rest).
Proof.
  intros H E. pose proof (f_equal length E) as L. rewrite encode_length in L by done. cbn in L.
  rewrite encode_wtf8_rune_arith in E by done. unfold is_code_point in H. unfold wtf8_byte_sequence_length, in_range.
  repeat case_match; simplify_eq; try lia; exfalso; rewrite ?andb_true_iff, ?andb_false_iff in *; div_lia.
Qed.

Lemma decode_encode cp rest zero :
  is_code_point cp ->
  let e := encode_wtf8_rune cp in
  decode_wtf8_rune_t (cp_bytes (e ++ rest) (length e)) (length e) zero = cp.
Proof.
  intros H e. unfold cp_bytes. rewrite take_app_length.
  assert (R : decode_wtf8_rune_t (e ++ replicate (4 - length e) 0) (length e) zero = cp); [|exact R].
  pose proof (encode_bytes cp H) as HB. fold e in HB. subst e. rewrite encode_wtf8_rune_arith in * by done.
  unfold is_code_point in H. unfold decode_wtf8_rune_t.
  destruct (cp <? 128) eqn:?; [done|]. destruct (cp <? 2048) eqn:?; [|destruct (cp <? 65536) eqn:?];
    cbn [length Nat.eqb Nat.sub replicate app] in *;
    rewrite decode_arith by (rewrite ?Forall_cons in HB; intuition (done || (unfold is_byte; lia)));
    cbn [Nat.eqb]; unfold cont, in_range; repeat case_match;
    rewrite ?negb_true_iff, ?orb_true_iff, ?andb_false_iff in *; div_lia.
Qed.

Lemma encode_decode b0 b1 b2 b3 :
  is_byte b0 -> is_byte b1 -> is_byte b2 -> is_byte b3 ->
  let len := wtf8_byte_sequence_length b0 in
  let cp := decode_wtf8_rune_t [b0; b1; b2; b3] len (-1) in
  b0 < 0x80 \/ (1 < len)%nat -> cp <> -1 ->
  is_code_point cp /\ encode_wtf8_rune cp = take len [b0; b1; b2; b3].
Proof.
  intros H0 H1 H2 H3 len cp Hlead. subst cp len. unfold wtf8_byte_sequence_length, in_range, decode_wtf8_rune_t, is_byte in *.
  repeat match goal with |- context [if ?b then _ else _] => lazymatch b with
    | (_ <=? _) && (_ <=? _) => let E := fresh in destruct b eqn:E; rewrite ?andb_true_iff, ?andb_false_iff in E; cbn [Nat.eqb] in * end end;
    rewrite ?decode_arith by (unfold is_byte; done); cbn [Nat.eqb].
  2-4: unfold cont, in_range; repeat case_match; try done; intros _;
    rewrite ?negb_false_iff, ?orb_false_iff, ?andb_true_iff in *;
    match goal with |- is_code_point ?c /\ _ => assert (Hcp : is_code_point c) by (unfold is_code_point; div_lia); split; [exact Hcp|] end;
    rewrite encode_wtf8_rune_arith by done;
    repeat match goal with |- context [?a <? ?b] => first [rewrite (proj2 (Z.ltb_lt a b)) by div_lia | rewrite (proj2 (Z.ltb_ge a b)) by div_lia] end;
    cbn [take]; repeat f_equal; div_lia.
  - intros _. cbn. assert (is_code_point b0) by (unfold is_code_point; lia). split; [done|].
    rewrite encode_wtf8_rune_arith by done. by rewrite (proj2 (Z.ltb_lt _ _)) by lia.
  - exfalso. lia.
Qed.

Lemma wtf8_sequence_pads cp :
  is_code_point cp -> wtf8_sequence cp = encode_wtf8_rune cp ++ replicate (4 - length (encode_wtf8_rune cp)) 0.
Proof.
  intros H. pose proof (encode_bytes cp H) as HB. rewrite encode_length by done. unfold encode_wtf8_rune, wtf8_sequence in *.
  unfold is_code_point in H. rewrite !shiftr_div in * by lia.
  repeat case_match; try lia; cbn [replicate app Nat.sub] in *; rewrite ?Forall_cons in HB; f_equal;
    repeat match goal with |- _ :: _ = _ :: _ => f_equal end;
    rewrite ?(Z.mod_small (cp / _) 256) in * by div_lia;
    rewrite ?(Z.mod_small cp 256) in * by lia; try done;
    apply Z.mod_small; apply HB.
Qed.

(** Bytes the scan passes over: printable ASCII and DEL. *)
Definition passes (b : Z) : bool := negb (newline_or_non_ascii b).
Lemma passes_iff b : is_byte b -> passes b = true <-> 32 <= b <= 127.
Proof. unfold passes, newline_or_non_ascii, is_byte. lia. Qed.

(** Both variants find the first byte that does not pass. *)
Lemma index_of_newline_or_non_ascii_spec check_start s off :
  (off <= length s)%nat ->
  index_of_newline_or_non_ascii_check_start check_start s off =
    let n := count_while passes (drop off s) in
    Some (if (n =? length (drop off s))%nat then None else Some (n + off)%nat).
Proof.
  intros Hoff. unfold index_of_newline_or_non_ascii_check_start, highway_index_of_newline_or_non_ascii.
  rewrite slice_from_Some by done. cbn [mbind option_bind].
  destruct (drop off s) as [|b r]; [done|]. change (fun b => negb (newline_or_non_ascii b)) with passes.
  destruct check_start; cbn [andb]; [|by destruct (_ =? _)%nat].
  destruct (_ || _) eqn:E; [|by destruct (_ =? _)%nat].
  cbn [count_while]. replace (passes b) with false; [done|]. unfold passes, newline_or_non_ascii. symmetry.
  rewrite negb_false_iff, orb_true_iff in *. rewrite andb_true_iff in E. tauto.
Qed.

(** C32. Decoding inverts encoding, whatever follows, for every code point, lone surrogates
    among them; and what is decoded at a leading byte is what the encoder writes. *)
Theorem wtf8_codec cp b0 b1 b2 b3 rest zero :
  is_code_point cp -> is_byte b0 -> is_byte b1 -> is_byte b2 -> is_byte b3 ->
  let e := encode_wtf8_rune cp in
  let len := wtf8_byte_sequence_length b0 in
  let cp' := decode_wtf8_rune_t [b0; b1; b2; b3] len (-1) in
  decode_wtf8_rune_t (cp_bytes (e ++ rest) (length e)) (length e) zero = cp /\
  (b0 < 0x80 \/ (1 < len)%nat -> cp' <> -1 -> is_code_point cp' /\ encode_wtf8_rune cp' = take len [b0; b1; b2; b3]).
Proof. intros Hcp H0 H1 H2 H3 e len cp'. split; [by apply decode_encode|by apply encode_decode]. Qed.
Lemma wtf8_codec_witness :
  let e := encode_wtf8_rune 0xD83D in
  let len := wtf8_byte_sequence_length 0xF0 in
  let cp' := decode_wtf8_rune_t [0xF0; 0x9F; 0x98; 0x80] len (-1) in
  decode_wtf8_rune_t (cp_bytes (e ++ [0x41]) (length e)) (length e) 0xFFFD = 0xD83D /\
  (0xF0 < 0x80 \/ (1 < len)%nat -> cp' <> -1 -> is_code_point cp' /\ encode_wtf8_rune cp' = take len [0xF0; 0x9F; 0x98; 0x80]).
Proof. apply (wtf8_codec 0xD83D 0xF0 0x9F 0x98 0x80 [0x41] 0xFFFD); split; (lia || by vm_compute). Defined.
