(* ===== verification/LineOffsetTable.v ===== *)
(** * Lines and columns of a source text (src/sourcemap/LineOffsetTable.rs)

    A table has a row for each line: where the line starts, where its first character
    beyond ASCII is, and from there on the column of every byte.  Columns count UTF-16
    code units.  [locate] looks a byte offset up, as [add_source_mapping] does
    (src/sourcemap/Chunk.rs).  For a text that is well formed it is proved to give the
    line and the column at every character and at the end ([position]). *)

From S2P Require Import Prelude Wtf8.

(** ** The table *)
Record LineOffsetTable := {
  columns_for_non_ascii : list Z;
  byte_offset_to_first_non_ascii : Z;
  byte_offset_to_start_of_line : Z
}.

Definition i32_max : Z := 2147483647.

(** [a - b] and [a + b] on [u32], trapped out of range. *)
Definition sub_u32 (a b : Z) : option Z := if b <=? a then Some (a - b) else None.

Definition add_u32 (a b : Z) : option Z := if a + b <=? u32_max then Some (a + b) else None.

(** ** Searching *)

(** [while count > 0]; the result is [original_line]. *)
Fixpoint find_line_loop (fuel : nat) (byte_offsets_to_start_of_line : list Z) (loc_start : Z)
    (original_line count : nat) : option nat :=
  if (0 <? count)%nat then
    match fuel with
    | O => None
    | S fuel =>
        let step := (count / 2)%nat in
        let i := (original_line + step)%nat in
        offset ← byte_offsets_to_start_of_line !! i;
        if offset <=? loc_start then find_line_loop fuel byte_offsets_to_start_of_line loc_start (i + 1) (count - step - 1)
        else find_line_loop fuel byte_offsets_to_start_of_line loc_start original_line step
    end
  else Some original_line.

Definition find_line (byte_offsets_to_start_of_line : list Z) (loc : Z) : option Z :=
  if loc <? 0 then None
  else
    let count := length byte_offsets_to_start_of_line in
    original_line ← find_line_loop count byte_offsets_to_start_of_line loc 0 count;
    line ← trap_i32 (Z.of_nat original_line);
    Some (line - 1).

Definition find_line_with_hint (offsets : list Z) (loc : Z) (hint : Z) : option Z :=
  let loc_start := wrap32 loc in
  let len := length offsets in
  let h := Z.to_nat hint in
  (** [k == len || loc_start < offsets[k]] *)
  let before (k : nat) : option bool :=
    if (k =? len)%nat then Some true else offset ← offsets !! k; Some (loc_start <? offset) in
  let search := find_line offsets loc in
  at_hint ← (if (h <? len)%nat then offset ← offsets !! h; Some (offset <=? loc_start) else Some false);
  if at_hint : bool then
    b1 ← before (h + 1)%nat;
    if b1 : bool then Some (wrap_i32 hint)
    else
      b2 ← before (h + 2)%nat;
      if b2 : bool then trap_i32 (wrap_i32 hint + 1)
      else
        b3 ← before (h + 3)%nat;
        if b3 : bool then trap_i32 (wrap_i32 hint + 2) else search
  else search.

(** ** Building *)

(** The variables of the loop; [remaining] is the text from [at_]. *)
Record Gen := {
  at_ : nat;
  list_ : list LineOffsetTable;
  column : Z;
  first_non_ascii : Z;
  column_byte_offset : Z;
  line_byte_offset : Z;
  columns : list Z
}.

Definition is_newline (c : Z) : bool := one_of [0x0D; 0x0A; 0x2028; 0x2029] c.

(** The end of a round: the match over [c] and the step to the next character. *)
Definition gen_char (remaining : bytes) (c : Z) (cp_len : nat) (g : Gen) : option Gen :=
  let '(Build_Gen at_ list_ column first cbo lbo columns) := g in
  if is_newline c then
    if (c =? 0x0D) && (1 <? length remaining)%nat && bool_decide (remaining !! 1%nat = Some 0x0A) then
      column ← trap_i32 (column + 1);
      Some (Build_Gen (at_ + 1) list_ column first cbo lbo columns)
    else
      Some (Build_Gen (at_ + cp_len)
              (list_ ++ [{| columns_for_non_ascii := columns; byte_offset_to_first_non_ascii := first;
                            byte_offset_to_start_of_line := lbo |}])
              0 i32_max 0 0 [])
  else
    column ← trap_i32 (column + (if 0xFFFF <? c then 1 else 0) + 1);
    Some (Build_Gen (at_ + cp_len) list_ column first cbo lbo columns).

(** The columns of the bytes of a line, from its first character beyond ASCII. *)
Definition gen_columns (offset c : Z) (g : Gen) : option Gen :=
  let '(Build_Gen at_ list_ column first cbo lbo columns) := g in
  let lbo := if column =? 0 then offset else lbo in
  '(cbo, first) ← (if (0x7F <? c) && (first =? i32_max) then cbo ← sub_u32 offset lbo; Some (cbo, cbo)
                   else Some (cbo, first));
  if negb (first =? i32_max) then
    line_bytes_so_far ← sub_u32 offset lbo;
    need ← sub_u32 line_bytes_so_far cbo;
    need ← add_u32 need 1;
    cbo ← add_u32 line_bytes_so_far 1;
    Some (Build_Gen at_ list_ column first cbo lbo (columns ++ replicate (Z.to_nat need) column))
  else Some (Build_Gen at_ list_ column first cbo lbo columns).

(** Printable ASCII is skipped up to the next newline or character beyond ASCII. *)
Definition gen_skip (contents remaining : bytes) (cp_len : nat) (g : Gen) : option Gen :=
  let '(Build_Gen at_ list_ column first cbo lbo columns) := g in
  next ← index_of_newline_or_non_ascii_check_start false remaining cp_len;
  match next with
  | Some j =>
      column ← trap_i32 (column + Z.of_nat j);
      Some (Build_Gen (at_ + j) list_ column first cbo lbo columns)
  | None =>
      column ← trap_i32 (column + Z.of_nat (length remaining));
      Some (Build_Gen (length contents) list_ column first cbo lbo columns)
  end.

(** One round of [while !remaining.is_empty()]. *)
Definition gen_step (contents : bytes) (g : Gen) : option Gen :=
  let remaining := drop (at_ g) contents in
  b0 ← head remaining;
  let len_ := wtf8_byte_sequence_length b0 in
  let cp_len := Nat.min len_ (length remaining) in
  let c := if (len_ =? 1)%nat then b0 else decode_wtf8_rune_t (cp_bytes remaining cp_len) len_ 0 in
  g ← gen_columns (wrap32 (Z.of_nat (at_ g))) c g;
  if (first_non_ascii g =? i32_max) && in_range 14 127 c then gen_skip contents remaining cp_len g
  else gen_char remaining c cp_len g.

Fixpoint gen_loop (fuel : nat) (contents : bytes) (g : Gen) : option Gen :=
  if (at_ g <? length contents)%nat then
    match fuel with
    | O => None
    | S fuel => g ← gen_step contents g; gen_loop fuel contents g
    end
  else Some g.

Definition gen_init : Gen := Build_Gen 0 [] 0 i32_max 0 0 [].

(** After the loop: the last line. *)
Definition gen_last (contents : bytes) (g : Gen) : option (list LineOffsetTable) :=
  let len := wrap32 (Z.of_nat (length contents)) in
  let lbo := if column g =? 0 then len else line_byte_offset g in
  columns ← (match columns g with
             | [] => Some []
             | _ =>
                 line_bytes_so_far ← sub_u32 len lbo;
                 need ← sub_u32 line_bytes_so_far (column_byte_offset g);
                 need ← add_u32 need 1;
                 Some (columns g ++ replicate (Z.to_nat need) (column g))
             end);
  Some (list_ g ++ [{| columns_for_non_ascii := columns; byte_offset_to_first_non_ascii := first_non_ascii g;
                       byte_offset_to_start_of_line := lbo |}]).

Definition generate_in (contents : bytes) : option (list LineOffsetTable) :=
  g ← gen_loop (length contents) contents gen_init; gen_last contents g.

(** ** Looking a location up *)

(** The column of the byte at [original_column] of a line: from the table, behind the first
    character beyond ASCII. *)
Definition column_in (row : LineOffsetTable) (original_column : Z) : option Z :=
  let first := byte_offset_to_first_non_ascii row in
  if wrap_i32 first <=? original_column then
    match columns_for_non_ascii row with
    | [] => Some original_column
    | cols => i ← sub_u32 (wrap32 original_column) first; cols !! Z.to_nat i
    end
  else Some original_column.

(** [add_source_mapping]: the line from the hint, then the column on it. *)
Definition locate (list_ : list LineOffsetTable) (loc hint : Z) : option (Z * Z) :=
  let byte_offsets := map byte_offset_to_start_of_line list_ in
  original_line ← find_line_with_hint byte_offsets loc hint;
  row ← list_ !! Z.to_nat (Z.max original_line 0);
  original_column ← trap_i32 (loc - wrap_i32 (byte_offset_to_start_of_line row));
  original_column ← column_in row original_column;
  Some (original_line, original_column).

(** ** The specification *)

(** The bytes of a text, given by its code points. *)
Definition text (cps : list Z) : bytes := cps ≫= encode_wtf8_rune.

(** UTF-16 code units of a code point. *)
Definition units (c : Z) : Z := if 0xFFFF <? c then 2 else 1.

(** A newline ends its line, but for a carriage return before a line feed. *)
Definition ends_line (c : Z) (rest : list Z) : bool :=
  is_newline c && negb ((c =? 0x0D) && bool_decide (head rest = Some 0x0A)).

Definition advance_pos (p : Z * Z) (c : Z) (rest : list Z) : Z * Z :=
  if ends_line c rest then (fst p + 1, 0) else (fst p, snd p + units c).

(** Line and column of the [k]-th code point, or of the end. *)
Fixpoint position_from (p : Z * Z) (k : nat) (cps : list Z) : Z * Z :=
  match k, cps with
  | S k, c :: rest => position_from (advance_pos p c rest) k rest
  | _, _ => p
  end.
Definition position (cps : list Z) (k : nat) : Z * Z := position_from (0, 0) k cps.
Definition byte_at (cps : list Z) (k : nat) : nat := length (text (take k cps)).

(** ** The search is the last line that does not start behind the offset *)

(** [r] lines start at or before [loc], and they are the first ones. *)
Definition lines_upto (starts : list Z) (loc : Z) (r : nat) : Prop :=
  (r <= length starts)%nat /\ (forall i s, starts !! i = Some s -> s <= loc <-> (i < r)%nat).

Lemma lines_upto_unique starts loc r r' : lines_upto starts loc r -> lines_upto starts loc r' -> r = r'.
Proof.
  intros [H1 H2] [H1' H2']. destruct (Nat.lt_trichotomy r r') as [L|[->|L]]; [exfalso|done|exfalso].
  - destruct (lookup_lt_is_Some_2 starts r) as [s Hs]; [lia|]. pose proof (proj2 (H2' _ _ Hs) L). pose proof (proj1 (H2 _ _ Hs) H). lia.
  - destruct (lookup_lt_is_Some_2 starts r') as [s Hs]; [lia|]. pose proof (proj2 (H2 _ _ Hs) L). pose proof (proj1 (H2' _ _ Hs) H). lia.
Qed.

Section Search.
Context (starts : list Z) (loc : Z).
Context (Hsorted : forall i j a b, (i <= j)%nat -> starts !! i = Some a -> starts !! j = Some b -> a <= b).

Lemma find_line_loop_spec fuel lo count :
  (count <= fuel)%nat -> (lo + count <= length starts)%nat ->
  (forall i s, (i < lo)%nat -> starts !! i = Some s -> s <= loc) ->
  (forall i s, (lo + count <= i)%nat -> starts !! i = Some s -> loc < s) ->
  exists r, find_line_loop fuel starts loc lo count = Some r /\ lines_upto starts loc r.
Proof.
  revert lo count. induction fuel as [|fuel IH]; intros lo count Hf Hl Hlo Hhi; cbn [find_line_loop];
    destruct (0 <? count)%nat eqn:Hc; rewrite ?Nat.ltb_lt, ?Nat.ltb_ge in Hc; try lia.
  1,3: exists lo; split; [done|]; split; [lia|]; intros i s Hs; destruct (Nat.lt_ge_cases i lo) as [L|L];
    [specialize (Hlo i s L Hs)|specialize (Hhi i s ltac:(lia) Hs)]; lia.
  pose proof (Nat.div_lt count 2 ltac:(lia) ltac:(lia)). set (step := (count / 2)%nat) in *. clearbody step.
  destruct (lookup_lt_is_Some_2 starts (lo + step)) as [s Hs]; [lia|]. rewrite Hs. cbn [mbind option_bind].
  destruct (s <=? loc) eqn:E; apply IH; try lia; try done.
  - intros i s' Hi Hs'. pose proof (Hsorted i (lo + step) s' s ltac:(lia) Hs' Hs). lia.
  - intros i s' Hi. apply Hhi. lia.
  - intros i s' Hi Hs'. pose proof (Hsorted (lo + step) i s s' ltac:(lia) Hs Hs'). lia.
Qed.

Lemma find_line_spec r :
  0 <= loc -> Z.of_nat (length starts) <= i32_max -> lines_upto starts loc r -> find_line starts loc = Some (Z.of_nat r - 1).
Proof.
  intros Hloc Hlen Hr. unfold find_line. replace (loc <? 0) with false by lia.
  destruct (find_line_loop_spec (length starts) 0 (length starts)) as (r' & E & Hr'); [lia|lia|lia| |].
  { intros i s Hi Hs. apply lookup_lt_Some in Hs. lia. }
  rewrite E. cbn [mbind option_bind]. rewrite (lines_upto_unique _ _ _ _ Hr Hr') in *.
  destruct Hr'. unfold i32_max in *. rewrite trap_i32_Some by (unfold is_i32; lia). done.
Qed.

Lemma lines_upto_exists : exists r, lines_upto starts loc r.
Proof.
  destruct (find_line_loop_spec (length starts) 0 (length starts)) as (r & _ & ?); [lia|lia|lia| |by exists r].
  intros i s Hi Hs. apply lookup_lt_Some in Hs. lia.
Qed.

(** [r - 1] is the line if it starts at or before [loc] and the next line does not. *)
Lemma lines_upto_intro r s :
  starts !! r = Some s -> s <= loc ->
  (S r = length starts \/ exists s', starts !! S r = Some s' /\ loc < s') -> lines_upto starts loc (S r).
Proof.
  intros Hs Hle Hnext. pose proof (lookup_lt_Some _ _ _ Hs). split; [lia|]. intros i x Hx.
  destruct (Nat.lt_ge_cases i (S r)) as [L|L].
  - pose proof (Hsorted i r x s ltac:(lia) Hx Hs). lia.
  - destruct Hnext as [E|(s' & Hs' & Hlt)].
    + apply lookup_lt_Some in Hx. lia.
    + pose proof (Hsorted (S r) i s' x ltac:(lia) Hs' Hx). lia.
Qed.
End Search.

Definition sorted_starts (starts : list Z) : Prop :=
  forall i j a b, (i <= j)%nat -> starts !! i = Some a -> starts !! j = Some b -> a <= b.

(** What [loc_start < offsets[k]] says, where there is a line [k]. *)
Lemma hint_probe starts loc k : (k <= length starts)%nat ->
  exists b, (if (k =? length starts)%nat then Some true else offset ← starts !! k; Some (loc <? offset)) = Some b /\
    if b then k = length starts \/ exists s, starts !! k = Some s /\ loc < s
    else exists s, starts !! k = Some s /\ s <= loc.
Proof.
  intros Hk. destruct (Nat.eqb_spec k (length starts)); [exists true; auto|].
  destruct (lookup_lt_is_Some_2 starts k) as [s Hs]; [lia|]. rewrite Hs. cbn [mbind option_bind].
  exists (loc <? s). split; [done|]. destruct (loc <? s) eqn:E; [right|]; exists s; split; auto; lia.
Qed.

Lemma hint_correct starts loc hint :
  sorted_starts starts -> 0 <= loc <= i32_max -> Z.of_nat (length starts) <= i32_max -> is_u32 hint ->
  find_line_with_hint starts loc hint = find_line starts loc.
Proof.
  intros Hs Hloc Hlen Hh. unfold find_line_with_hint, i32_max, is_u32 in *. unfold wrap32. rewrite Z.mod_small by lia.
  destruct (Nat.ltb_spec (Z.to_nat hint) (length starts)) as [Hl|]; cbn [mbind option_bind]; [|done].
  assert (Hw : wrap_i32 hint = hint) by (apply wrap_i32_id; unfold is_i32; lia). rewrite Hw.
  set (h := Z.to_nat hint) in *. destruct (lookup_lt_is_Some_2 starts h Hl) as [s Hs0]. rewrite Hs0. cbn [mbind option_bind].
  destruct (s <=? loc) eqn:E0; [|done].
  assert (Found : forall k x, starts !! k = Some x -> x <= loc ->
    (S k = length starts \/ exists s', starts !! S k = Some s' /\ loc < s') -> Some (Z.of_nat k) = find_line starts loc).
  { intros k x Hk Hx Hn. rewrite (find_line_spec starts loc Hs (S k)); [f_equal; lia|lia|unfold i32_max; lia|].
    by apply (lines_upto_intro starts loc Hs k x). }
  destruct (hint_probe starts loc (h + 1)) as (b1 & E1 & H1); [lia|]. rewrite E1. cbn [mbind option_bind].
  destruct b1.
  { rewrite <-(Found h s Hs0); [f_equal; lia|lia|]. by rewrite Nat.add_1_r in H1. }
  destruct H1 as (s1 & Hs1 & L1). pose proof (lookup_lt_Some _ _ _ Hs1).
  destruct (hint_probe starts loc (h + 2)) as (b2 & E2 & H2); [lia|]. rewrite E2. cbn [mbind option_bind].
  destruct b2.
  { rewrite trap_i32_Some by (unfold is_i32; lia). rewrite <-(Found (h + 1)%nat s1 Hs1); [f_equal; lia|lia|].
    by replace (S (h + 1)) with (h + 2)%nat by lia. }
  destruct H2 as (s2 & Hs2 & L2). pose proof (lookup_lt_Some _ _ _ Hs2).
  destruct (hint_probe starts loc (h + 3)) as (b3 & E3 & H3); [lia|]. rewrite E3. cbn [mbind option_bind].
  destruct b3; [|done].
  rewrite trap_i32_Some by (unfold is_i32; lia). rewrite <-(Found (h + 2)%nat s2 Hs2); [f_equal; lia|lia|].
  by replace (S (h + 2)) with (h + 3)%nat by lia.
Qed.

(** ** Positions of a text *)
Lemma text_app l1 l2 : text (l1 ++ l2) = text l1 ++ text l2.
Proof. apply bind_app. Qed.
Lemma text_cons c l : text (c :: l) = encode_wtf8_rune c ++ text l.
Proof. done. Qed.
Lemma text_split cps k : text cps = text (take k cps) ++ text (drop k cps).
Proof. by rewrite <-text_app, take_drop. Qed.
Lemma drop_text cps k : drop (byte_at cps k) (text cps) = text (drop k cps).
Proof. rewrite (text_split cps k). apply drop_app_length. Qed.
Lemma byte_at_end cps : byte_at cps (length cps) = length (text cps).
Proof. unfold byte_at. by rewrite firstn_all. Qed.

Lemma byte_at_S cps k c : cps !! k = Some c -> byte_at cps (S k) = (byte_at cps k + length (encode_wtf8_rune c))%nat.
Proof. intros H. unfold byte_at. rewrite (take_S_r _ _ _ H), text_app, length_app. cbn. by rewrite app_nil_r. Qed.

Lemma position_from_S p k cps c :
  cps !! k = Some c -> position_from p (S k) cps = advance_pos (position_from p k cps) c (drop (S k) cps).
Proof.
  revert p cps. induction k as [|k IH]; intros p [|x cps] H; cbn in H; try done; [by simplify_eq|].
  change (position_from p (S (S k)) (x :: cps)) with (position_from (advance_pos p x cps) (S k) cps).
  rewrite IH by done. done.
Qed.
Lemma position_S cps k c : cps !! k = Some c -> position cps (S k) = advance_pos (position cps k) c (drop (S k) cps).
Proof. apply position_from_S. Qed.

Lemma units_bounds c : is_code_point c -> 1 <= units c <= Z.of_nat (length (encode_wtf8_rune c)).
Proof. intros H. rewrite encode_length by done. unfold units. repeat case_match; lia. Qed.

Section Positions.
Context (cps : list Z) (Hcps : Forall is_code_point cps).
Implicit Types (k j : nat).

Lemma code_point_at k c : cps !! k = Some c -> is_code_point c.
Proof. intros H. by eapply Forall_lookup_1. Qed.

(** One character further: a new line, or the same one and a later column. *)
Lemma position_next k c : cps !! k = Some c ->
  (byte_at cps k < byte_at cps (S k))%nat /\
  ((ends_line c (drop (S k) cps) = true /\ position cps (S k) = (fst (position cps k) + 1, 0)) \/
   (ends_line c (drop (S k) cps) = false /\ position cps (S k) = (fst (position cps k), snd (position cps k) + units c) /\
    units c <= Z.of_nat (byte_at cps (S k)) - Z.of_nat (byte_at cps k))).
Proof.
  intros Hc. pose proof (code_point_at _ _ Hc) as H. pose proof (units_bounds c H). pose proof (encode_length_bounds c H).
  rewrite (byte_at_S _ _ _ Hc). split; [lia|]. rewrite (position_S _ _ _ Hc). unfold advance_pos.
  destruct (ends_line _ _); [by left|right]. splits; [done..|lia].
Qed.

Lemma byte_at_mono j k : (j <= k <= length cps)%nat -> (byte_at cps j <= byte_at cps k)%nat /\ ((j < k)%nat -> (byte_at cps j < byte_at cps k)%nat).
Proof.
  intros [Hjk Hk]. induction Hjk as [|k Hjk IH]; [lia|].
  destruct (lookup_lt_is_Some_2 cps k) as [c Hc]; [lia|]. destruct (position_next _ _ Hc). destruct IH; lia.
Qed.

Lemma position_nonneg k : (k <= length cps)%nat -> 0 <= fst (position cps k) /\ 0 <= snd (position cps k) <= Z.of_nat (byte_at cps k) /\
  fst (position cps k) <= Z.of_nat (byte_at cps k).
Proof.
  induction k as [|k IH]; [cbn; lia|]. intros Hk.
  destruct (lookup_lt_is_Some_2 cps k) as [c Hc]; [lia|]. destruct (position_next _ _ Hc) as [? HH].
  pose proof (units_bounds c (code_point_at _ _ Hc)). destruct HH as [[? ->]|(? & -> & ?)]; cbn [fst snd]; destruct IH as (? & ? & ?); lia.
Qed.

(** Positions grow: first by lines, then by columns. *)
Lemma position_mono j k : (j < k <= length cps)%nat ->
  fst (position cps j) < fst (position cps k) \/
  (fst (position cps j) = fst (position cps k) /\ snd (position cps j) < snd (position cps k)).
Proof.
  intros [Hjk Hk]. induction Hjk as [|k Hjk IH].
  all: destruct (lookup_lt_is_Some_2 cps _ Hk) as [c Hc].
  all: pose proof (units_bounds c (code_point_at _ _ Hc)); destruct (position_next _ _ Hc) as [? [[? E]|(? & E & ?)]]; rewrite E; cbn [fst snd]; try lia.
  all: destruct IH as [|[]]; lia.
Qed.
End Positions.

(** ** Reading a text *)
Lemma encode_ascii c : is_code_point c -> c < 0x80 -> encode_wtf8_rune c = [c].
Proof. intros H Hc. rewrite encode_wtf8_rune_arith by done. by rewrite (proj2 (Z.ltb_lt _ _) Hc). Qed.
Lemma encode_wide c : is_code_point c -> 0x80 <= c ->
  exists b r, encode_wtf8_rune c = b :: r /\ 192 <= b < 256 /\ r <> [].
Proof.
  intros H Hc. rewrite encode_wtf8_rune_arith by done. unfold is_code_point in H.
  repeat case_match; try lia; eexists _, _; (split; [done|split; [div_lia|done]]).
Qed.

Section ReadText.
Context (cps : list Z) (Hcps : Forall is_code_point cps).

(** The character at a boundary is decoded, and its width is the one its leading byte declares. *)
Lemma read_char k c zero : cps !! k = Some c ->
  let remaining := drop (byte_at cps k) (text cps) in
  let n := length (encode_wtf8_rune c) in
  remaining = encode_wtf8_rune c ++ text (drop (S k) cps) /\
  exists b0, head remaining = Some b0 /\ wtf8_byte_sequence_length b0 = n /\ (n = 1%nat -> b0 = c) /\
    Nat.min n (length remaining) = n /\ decode_wtf8_rune_t (cp_bytes remaining n) n zero = c.
Proof.
  intros Hc remaining n. pose proof (code_point_at _ Hcps _ _ Hc) as H.
  assert (E : remaining = encode_wtf8_rune c ++ text (drop (S k) cps)).
  { subst remaining. rewrite drop_text, (drop_S _ _ _ Hc). done. }
  split; [done|]. rewrite E. destruct (encode_wtf8_rune c) as [|b r] eqn:Ee.
  { pose proof (encode_length_bounds c H) as L. rewrite Ee in L. cbn in L. lia. }
  exists b. splits; [done|by rewrite (encode_lead c b r)| | |].
  - intros Hn. subst n. cbn in Hn. destruct r; [|done]. pose proof (encode_length c H) as L. rewrite Ee in L.
    destruct (c <? 128) eqn:Hs; [|by repeat case_match]. rewrite encode_ascii in Ee by (done || lia). by simplify_eq.
  - rewrite length_app. lia.
  - subst n. rewrite <-Ee. by apply decode_encode.
Qed.
End ReadText.

Lemma passes_byte b : 128 <= b -> passes b = false.
Proof. unfold passes, newline_or_non_ascii. lia. Qed.

(** The bytes that are passed over are characters. *)
Lemma count_passes_text cps : Forall is_code_point cps ->
  count_while passes (text cps) = count_while passes cps /\
  (forall n, (n <= count_while passes cps)%nat -> byte_at cps n = n).
Proof.
  induction 1 as [|c cps Hc Hcps [IH1 IH2]]; [split; [done|]; intros n Hn; cbn in Hn; by replace n with 0%nat by lia|].
  rewrite text_cons. cbn [count_while]. destruct (Z.lt_ge_cases c 0x80) as [L|L].
  - rewrite encode_ascii by done. cbn [app count_while]. destruct (passes c); [|split; [done|]; intros n Hn; by replace n with 0%nat by lia].
    split; [by rewrite IH1|]. intros [|n] Hn; [done|]. unfold byte_at. cbn [take]. rewrite text_cons, encode_ascii by done.
    cbn [app length]. f_equal. apply IH2. lia.
  - destruct (encode_wide c Hc L) as (b & r & -> & Hb & _). cbn [app count_while]. rewrite !passes_byte by lia.
    split; [done|]. intros n Hn. by replace n with 0%nat by lia.
Qed.

(** A line feed is a byte of its own. *)
Lemma head_text_lf cps : Forall is_code_point cps -> head (text cps) = Some 0x0A <-> head cps = Some 0x0A.
Proof.
  intros H. destruct cps as [|c cps]; [done|]. apply Forall_cons in H as [H _]. rewrite text_cons. cbn [head].
  destruct (Z.lt_ge_cases c 0x80) as [L|L]; [by rewrite encode_ascii|].
  destruct (encode_wide c H L) as (b & r & -> & Hb & _). cbn [app head]. split; intros [= ->]; lia.
Qed.

(** ** The loop keeps a table of what is behind it *)
#[local] Arguments position : simpl never.
#[local] Arguments byte_at : simpl never.
#[local] Arguments is_newline : simpl never.

Section Build.
Context (cps : list Z) (Hcps : Forall is_code_point cps) (Hsmall : Z.of_nat (length (text cps)) < i32_max).
Implicit Types (g : Gen) (j k s lim : nat).

#[local] Abbreviation pos := (position cps).
#[local] Abbreviation off k := (Z.of_nat (byte_at cps k)).

(** Each row starts its line, and gives the columns of the characters before [lim]. *)
Definition rows_ok (rows : list LineOffsetTable) (k lim : nat) : Prop :=
  (forall i row, rows !! i = Some row ->
     exists s, (s <= k)%nat /\ byte_offset_to_start_of_line row = off s /\ pos s = (Z.of_nat i, 0)) /\
  (forall j, (j < lim)%nat -> exists row, rows !! Z.to_nat (fst (pos j)) = Some row /\
     column_in row (off j - byte_offset_to_start_of_line row) = Some (snd (pos j))).

(** The row of the line the loop is on, which starts at [s]. *)
Definition current_row (g : Gen) (s : nat) : LineOffsetTable := {|
  columns_for_non_ascii := columns g;
  byte_offset_to_first_non_ascii := first_non_ascii g;
  byte_offset_to_start_of_line := off s
|}.

(** Its columns are those of the bytes up to the character before [lim]. *)
Definition columns_ok (g : Gen) (s k lim : nat) : Prop :=
  (first_non_ascii g = i32_max /\ columns g = [] /\ (forall j, (s <= j <= k)%nat -> off j - off s = snd (pos j))) \/
  (exists m, lim = S m /\ (s <= m)%nat /\ 0 <= first_non_ascii g <= off m - off s /\ first_non_ascii g < i32_max /\
    column_byte_offset g = off m - off s + 1 /\ Z.of_nat (length (columns g)) = off m - off s - first_non_ascii g + 1).

Record building (g : Gen) (s k lim : nat) : Prop := {
  b_k : (s <= k <= length cps)%nat;
  b_at : at_ g = byte_at cps k;
  b_position : pos k = (Z.of_nat (length (list_ g)), column g);
  b_start : pos s = (Z.of_nat (length (list_ g)), 0);
  b_line : (if column g =? 0 then Z.of_nat (at_ g) else line_byte_offset g) = off s;
  b_rows : rows_ok (list_ g ++ [current_row g s]) k lim;
  b_columns : columns_ok g s k lim
}.

Lemma off_bound k : (k <= length cps)%nat -> 0 <= off k < i32_max.
Proof.
  intros Hk. pose proof (proj1 (byte_at_mono cps Hcps k (length cps) ltac:(lia))). rewrite byte_at_end in *. lia.
Qed.

Lemma building_init : building gen_init 0 0 0.
Proof.
  split; cbn; [lia|done..| |].
  - split; [|lia]. intros [|i] row E; simplify_eq/=. exists 0%nat. done.
  - left. splits; [done..|]. intros j Hj. by replace j with 0%nat by lia.
Qed.

(** A change of the current row that keeps the columns behind [k]. *)
Lemma rows_extend rows row row' k lim :
  (lim <= S (length cps))%nat ->
  byte_offset_to_start_of_line row' = byte_offset_to_start_of_line row ->
  (forall j, (j < lim)%nat -> fst (pos j) = Z.of_nat (length rows) ->
     column_in row (off j - byte_offset_to_start_of_line row) = Some (snd (pos j)) ->
     column_in row' (off j - byte_offset_to_start_of_line row) = Some (snd (pos j))) ->
  rows_ok (rows ++ [row]) k lim -> rows_ok (rows ++ [row']) k lim.
Proof.
  intros Hlim Hs Hc [H1 H2]. split.
  - intros i r Hi. rewrite lookup_app in Hi. destruct (rows !! i) eqn:E.
    + simplify_eq. apply (H1 i). by apply lookup_app_l_Some.
    + apply list_lookup_singleton_Some in Hi as [Hi <-]. rewrite Hs. apply H1. rewrite lookup_app, E. by apply list_lookup_singleton_Some.
  - intros j Hj. destruct (H2 j Hj) as (r & Hr & Hcol). rewrite lookup_app in Hr. destruct (rows !! _) eqn:E.
    + simplify_eq. exists r. split; [by apply lookup_app_l_Some|done].
    + apply list_lookup_singleton_Some in Hr as [Hr <-]. exists row'. rewrite lookup_app, E, Hs.
      split; [by apply list_lookup_singleton_Some|]. apply Hc; [done| |done].
      apply lookup_ge_None in E. pose proof (position_nonneg cps Hcps j ltac:(lia)). lia.
Qed.

(** One more character: the current row has its column. *)
Lemma rows_cover rows row k lim s :
  rows_ok (rows ++ [row]) k lim -> pos lim = (Z.of_nat (length rows), snd (pos lim)) ->
  byte_offset_to_start_of_line row = off s -> column_in row (off lim - off s) = Some (snd (pos lim)) ->
  rows_ok (rows ++ [row]) k (S lim).
Proof.
  intros [H1 H2] Hp Hs Hc. split; [done|]. intros j Hj. destruct (decide (j = lim)) as [->|]; [|apply H2; lia].
  exists row. rewrite Hs. split; [|done]. rewrite Hp. cbn [fst]. rewrite Nat2Z.id. apply list_lookup_middle. done.
Qed.

Lemma column_in_plain row b :
  is_i32 b -> b < byte_offset_to_first_non_ascii row <= i32_max -> 0 <= b -> column_in row b = Some b.
Proof.
  intros Hb Hf Hb0. unfold column_in. unfold is_i32, i32_max in *. rewrite wrap_i32_id by (unfold is_i32; lia).
  by replace (_ <=? b) with false by lia.
Qed.
Lemma column_in_table row b :
  0 <= byte_offset_to_first_non_ascii row <= b -> b < i32_max -> columns_for_non_ascii row <> [] ->
  column_in row b = columns_for_non_ascii row !! Z.to_nat (b - byte_offset_to_first_non_ascii row).
Proof.
  intros Hf Hb Hne. unfold column_in. unfold i32_max in *. rewrite wrap_i32_id by (unfold is_i32; lia).
  replace (_ <=? b) with true by lia. destruct (columns_for_non_ascii row) eqn:E; [done|].
  unfold wrap32, sub_u32. rewrite Z.mod_small by lia. by replace (_ <=? b) with true by lia.
Qed.

Lemma off_lt j k : (j < k <= length cps)%nat -> off j < off k.
Proof. intros H. pose proof (proj2 (byte_at_mono cps Hcps j k ltac:(lia))). lia. Qed.

Lemma gen_columns_spec g s k c :
  building g s k k -> cps !! k = Some c ->
  exists g', gen_columns (wrap32 (Z.of_nat (at_ g))) c g = Some g' /\
    at_ g' = at_ g /\ list_ g' = list_ g /\ column g' = column g /\ line_byte_offset g' = off s /\
    (first_non_ascii g' = i32_max -> c <= 127) /\ columns_ok g' s k (S k) /\
    rows_ok (list_ g ++ [current_row g' s]) k (S k).
Proof.
  intros [Hk Hat Hp Hs Hl Hr Hc] Hck. pose proof (lookup_lt_Some _ _ _ Hck) as Hkn.
  pose proof (off_bound k ltac:(lia)) as Bk. pose proof (off_bound s ltac:(lia)) as Bs.
  pose proof (proj1 (byte_at_mono cps Hcps s k ltac:(lia))) as Hsk. pose proof (position_nonneg cps Hcps k ltac:(lia)) as (_ & Bc & _).
  rewrite Hp in Bc. cbn [snd] in Bc.
  destruct g as [a rows col first cbo lbo cols]. cbn [at_ list_ column first_non_ascii column_byte_offset line_byte_offset columns] in *.
  unfold gen_columns. unfold wrap32. unfold i32_max in Bk, Bs. rewrite Z.mod_small by lia.
  assert (Hlbo : (if col =? 0 then Z.of_nat a else lbo) = off s) by (destruct (col =? 0); lia). rewrite Hlbo, Hat. clear Hl Hlbo.
  assert (Hcover : forall row, byte_offset_to_start_of_line row = off s -> column_in row (off k - off s) = Some col ->
    rows_ok (rows ++ [row]) k k -> rows_ok (rows ++ [row]) k (S k)).
  { intros row E1 E2 E3. apply (rows_cover rows row k k s); [done| |done|]; rewrite Hp; done. }
  destruct Hc as [(Hf & Hn & Heq)|(m & -> & Hsm & Hf & Hlt & Hcbo & Hlen)]; cbn [first_non_ascii columns column_byte_offset] in *.
  - subst. rewrite Z.eqb_refl, andb_true_r. assert (Ec : off k - off s = col) by (rewrite Heq, Hp by lia; done).
    destruct (Z.ltb_spec 127 c) as [Hw|Hw].
    + unfold sub_u32, add_u32. replace (off s <=? off k) with true by lia. cbn [mbind option_bind].
      replace (off k - off s =? i32_max) with false by (unfold i32_max; lia). cbn [negb].
      replace (off s <=? off k) with true by lia. cbn [mbind option_bind].
      replace (off k - off s <=? off k - off s) with true by lia. cbn [mbind option_bind].
      rewrite Z.sub_diag. replace (off k - off s + 1 <=? u32_max) with true by lia. change (Z.to_nat (0 + 1)) with 1%nat. cbn.
      eexists. splits; try done; cbn.
      { unfold i32_max. lia. }
      { right. exists k. cbn. splits; rewrite ?length_replicate; unfold i32_max; lia. }
      apply Hcover; [done| |].
      { rewrite column_in_table; cbn; [|lia|unfold i32_max; lia|done]. by rewrite Z.sub_diag. }
      revert Hr. apply rows_extend; [lia|done|]. intros j Hj Hfst. cbn [current_row byte_offset_to_start_of_line].
      pose proof (off_lt j k ltac:(lia)).
      intros Hcol. destruct (Z.lt_ge_cases (off j - off s) 0) as [L|L].
      { revert Hcol. unfold column_in. cbn. unfold i32_max. rewrite !wrap_i32_id by (unfold is_i32; lia).
        by rewrite !(proj2 (Z.leb_gt _ _)) by lia. }
      rewrite column_in_plain in Hcol |- *; cbn; unfold is_i32, i32_max; (done || lia).
    + cbn [mbind option_bind negb]. rewrite Z.eqb_refl. cbn [negb]. eexists. splits; try done; cbn.
      { left. done. }
      apply Hcover; [done| |done]. rewrite column_in_plain; cbn; unfold is_i32, i32_max; (congruence || lia).
  - pose proof (off_lt m (S m) ltac:(lia)). unfold i32_max in Hlt.
    replace (first =? i32_max) with false by (unfold i32_max; lia). rewrite andb_false_r. cbn [mbind option_bind].
    replace (first =? i32_max) with false by (unfold i32_max; lia). cbn [negb]. unfold sub_u32, add_u32.
    replace (off s <=? off (S m)) with true by lia. cbn [mbind option_bind].
    replace (cbo <=? _) with true by lia. cbn [mbind option_bind].
    rewrite !(proj2 (Z.leb_le _ u32_max)) by lia. cbn [mbind option_bind].
    eexists. splits; try done; cbn [first_non_ascii].
    { unfold i32_max. lia. }
    { right. exists (S m). cbn. rewrite length_app, length_replicate. splits; unfold i32_max; lia. }
    apply Hcover; [done| |].
    { rewrite column_in_table; cbn.
      - rewrite lookup_app_r, lookup_replicate by lia. split; [done|lia].
      - lia.
      - unfold i32_max. lia.
      - destruct cols; [cbn in Hlen; lia|done]. }
    revert Hr. apply rows_extend; [lia|done|]. intros j Hj Hfst. cbn [current_row byte_offset_to_start_of_line].
    assert (Hb : off j < off (S m)) by (apply off_lt; lia).
    destruct (Z.lt_ge_cases (off j - off s) first) as [L|L].
    + unfold column_in. cbn. rewrite !wrap_i32_id by (unfold is_i32; lia). by rewrite !(proj2 (Z.leb_gt _ _)) by lia.
    + rewrite !column_in_table; cbn; unfold i32_max; try lia; try (destruct cols; [cbn in Hlen; lia|done]).
      intros E. by apply lookup_app_l_Some.
Qed.

Lemma ends_line_ascii c rest : 14 <= c <= 127 -> ends_line c rest = false /\ units c = 1.
Proof.
  intros H. unfold ends_line, is_newline, one_of, units. cbn. split; [|by replace (_ <? c) with false by lia].
  rewrite !(proj2 (Z.eqb_neq c _)) by lia. done.
Qed.

(** Past a character that does not end the line. *)
Lemma same_line g s k c :
  cps !! k = Some c -> (s <= k)%nat -> at_ g = byte_at cps k -> pos k = (Z.of_nat (length (list_ g)), column g) ->
  pos s = (Z.of_nat (length (list_ g)), 0) -> line_byte_offset g = off s ->
  (first_non_ascii g = i32_max -> c <= 127) -> columns_ok g s k (S k) ->
  rows_ok (list_ g ++ [current_row g s]) k (S k) -> ends_line c (drop (S k) cps) = false ->
  let '(Build_Gen at_ rows col first cbo lbo cols) := g in
  is_i32 (col + units c) /\
  building (Build_Gen (at_ + length (encode_wtf8_rune c)) rows (col + units c) first cbo lbo cols) s (S k) (S k).
Proof.
  destruct g as [a rows col first cbo lbo cols]; cbn. intros Hc Hsk Ha Hp Hs Hl Hasc Hcols Hrows Hend.
  pose proof (lookup_lt_Some _ _ _ Hc). destruct (position_next cps Hcps k c Hc) as [Hlt [[E _]|(_ & E & Hu)]]; [congruence|].
  rewrite Hp in E. cbn in E. pose proof (position_nonneg cps Hcps (S k) ltac:(lia)) as (_ & Hb & _). rewrite E in Hb. cbn in Hb.
  pose proof (off_bound (S k) ltac:(lia)) as Ho. unfold i32_max in Ho. pose proof (position_nonneg cps Hcps k ltac:(lia)) as (_ & Hb' & _).
  rewrite Hp in Hb'. cbn in Hb'. pose proof (units_bounds c (code_point_at cps Hcps _ _ Hc)).
  split; [unfold is_i32; lia|]. split; cbn.
  - lia.
  - by rewrite (byte_at_S _ _ _ Hc), Ha.
  - done.
  - done.
  - by replace (col + units c =? 0) with false by lia.
  - destruct Hrows as [H1 H2]. split; [|done]. intros i row Hi. destruct (H1 i row Hi) as (s' & ? & ?). exists s'. split; [lia|done].
  - destruct Hcols as [(? & ? & Heq)|(m & Em & ?)]; cbn in *; [left|right].
    + splits; [done..|]. intros j Hj. destruct (decide (j = S k)) as [->|]; [|apply Heq; lia].
      rewrite E. cbn [snd]. specialize (Heq k ltac:(lia)). rewrite Hp in Heq. cbn in Heq.
      rewrite (byte_at_S _ _ _ Hc). assert (c <= 127) by auto.
      assert (Hcp : is_code_point c) by (eapply code_point_at; done). unfold is_code_point in Hcp.
      rewrite encode_ascii by (done || lia). unfold units. replace (_ <? c) with false by lia. cbn [length]. lia.
    + exists m. by simplify_eq.
Qed.

(** The test for a carriage return before a line feed. *)
Lemma crlf_seen c rest : Forall is_code_point rest -> is_code_point c ->
  let remaining := encode_wtf8_rune c ++ text rest in
  (c =? 0x0D) && (1 <? length remaining)%nat && bool_decide (remaining !! 1%nat = Some 0x0A) =
  (c =? 0x0D) && bool_decide (head rest = Some 0x0A).
Proof.
  intros Hr Hc remaining. subst remaining. destruct (Z.eqb_spec c 0x0D) as [->|]; [|done]. cbn [andb].
  rewrite encode_ascii by (done || lia). cbn [app length lookup list_lookup].
  rewrite <-(bool_decide_ext _ _ (head_text_lf rest Hr)). by destruct (text rest).
Qed.

Lemma gen_char_spec g s k c :
  cps !! k = Some c -> (s <= k)%nat -> at_ g = byte_at cps k -> pos k = (Z.of_nat (length (list_ g)), column g) ->
  pos s = (Z.of_nat (length (list_ g)), 0) -> line_byte_offset g = off s ->
  (first_non_ascii g = i32_max -> c <= 127) -> columns_ok g s k (S k) ->
  rows_ok (list_ g ++ [current_row g s]) k (S k) ->
  exists g' s', gen_char (drop (byte_at cps k) (text cps)) c (length (encode_wtf8_rune c)) g = Some g' /\ building g' s' (S k) (S k).
Proof.
  intros Hc Hsk Ha Hp Hs Hl Hasc Hcols Hrows. pose proof (lookup_lt_Some _ _ _ Hc).
  pose proof (same_line g s k c Hc Hsk Ha Hp Hs Hl Hasc Hcols Hrows) as Hsame.
  destruct (read_char cps Hcps k c 0 Hc) as [-> _]. pose proof (code_point_at cps Hcps _ _ Hc) as Hcp.
  pose proof (crlf_seen c (drop (S k) cps) ltac:(by apply Forall_drop) Hcp) as Hcrlf. cbv zeta in Hcrlf.
  destruct g as [a rows col first cbo lbo cols]; cbn -[Nat.ltb] in *. rewrite Hcrlf. unfold ends_line in *.
  destruct (is_newline c) eqn:Hn; cbn [andb] in *.
  - destruct ((c =? 13) && _) eqn:E; cbn [negb] in *.
    + destruct (Hsame eq_refl) as [Ht Hb]. apply andb_true_iff in E as [E _]. apply Z.eqb_eq in E as ->.
      change (units 13) with 1 in *. rewrite trap_i32_Some by done. cbn [mbind option_bind]. eauto.
    + eexists _, (S k). split; [done|]. destruct (position_next cps Hcps k c Hc) as [Hlt [[_ Ep]|(Hx & _)]].
      2: { unfold ends_line in Hx. rewrite Hn, E in Hx. done. }
      rewrite Hp in Ep. cbn [fst] in Ep. split; cbn.
      * lia.
      * by rewrite (byte_at_S _ _ _ Hc), Ha.
      * rewrite Ep, length_app. cbn. f_equal. lia.
      * rewrite Ep, length_app. cbn. f_equal. lia.
      * by rewrite (byte_at_S _ _ _ Hc), Ha.
      * destruct Hrows as [H1 H2]. unfold current_row in *. cbn in *. subst lbo. split.
        -- intros i row Hi. rewrite lookup_app in Hi. destruct (_ !! i) eqn:Er.
           ++ simplify_eq. destruct (H1 i row Er) as (s' & ? & ?). exists s'. split; [lia|done].
           ++ apply list_lookup_singleton_Some in Hi as [Hi <-]. apply lookup_ge_None in Er. rewrite length_app in *. cbn in *.
              exists (S k). splits; [lia|done|]. rewrite Ep. f_equal. lia.
        -- intros j Hj. destruct (H2 j Hj) as (row & Er & ?). exists row. split; [by apply lookup_app_l_Some|done].
      * left. splits; [done..|]. intros j Hj. replace j with (S k) by lia. rewrite Ep. cbn. lia.
  - destruct (Hsame eq_refl) as [Ht Hb]. unfold units in *. replace (col + (if 65535 <? c then 1 else 0) + 1) with (col + (if 65535 <? c then 2 else 1)).
    2: { by destruct (65535 <? c); lia. }
    rewrite trap_i32_Some by done. cbn [mbind option_bind]. eauto.
Qed.

(** [n] characters of ASCII that end no line, at once. *)
Definition skip_ascii (g : Gen) (n : nat) : Gen :=
  let '(Build_Gen at_ rows col first cbo lbo cols) := g in
  Build_Gen (at_ + n) rows (col + Z.of_nat n) first cbo lbo cols.

Lemma ascii_run g s k n :
  building g s k k -> line_byte_offset g = off s -> first_non_ascii g = i32_max ->
  (forall i, (i < n)%nat -> exists c, cps !! (k + i)%nat = Some c /\ 14 <= c <= 127) ->
  building (skip_ascii g n) s (k + n) (k + n).
Proof.
  intros Hb Hl Hf. induction n as [|n IH]; intros Hn.
  { destruct g. cbn. by rewrite !Nat.add_0_r, Z.add_0_r. }
  destruct IH as [Hk Ha Hp Hs Hlb Hr Hc]; [intros i Hi; apply Hn; lia|].
  destruct (Hn n) as (c & Hck & Hasc); [lia|]. pose proof (lookup_lt_Some _ _ _ Hck).
  destruct (ends_line_ascii c (drop (S (k + n)) cps) Hasc) as [Hend Hu].
  pose proof (same_line (skip_ascii g n) s (k + n) c Hck ltac:(lia) Ha Hp Hs) as Hsame.
  destruct g as [a rows col first cbo lbo cols]. cbn in *. subst first.
  pose proof (off_bound (k + n) ltac:(lia)) as Ho. pose proof (off_bound s ltac:(lia)). unfold i32_max in Ho.
  pose proof (proj1 (byte_at_mono cps Hcps s (k + n) ltac:(lia))).
  destruct Hc as [(_ & Hcn & Heq)|(m & _ & _ & _ & Hlt & _)]; [|cbn in Hlt; lia]. cbn in Hcn. subst cols.
  destruct Hsame as [_ Hb']; try done.
  - intros _. lia.
  - by left.
  - apply (rows_cover rows _ (k + n) (k + n) s); cbn; [done|by rewrite Hp|done|].
    rewrite <-Heq, column_in_plain; cbn; unfold is_i32, i32_max; (done || lia).
  - rewrite Hu, encode_ascii in Hb' by (lia || by eapply code_point_at). cbn [length] in Hb'.
    replace (k + S n)%nat with (S (k + n)) by lia. replace (a + S n)%nat with (a + n + 1)%nat by lia.
    replace (col + Z.of_nat (S n)) with (col + Z.of_nat n + 1) by lia. done.
Qed.

(** The characters that the scan passes over. *)
Lemma passed_over k i :
  (i < count_while passes (drop k cps))%nat -> exists c, cps !! (k + i)%nat = Some c /\ 14 <= c <= 127.
Proof.
  intros Hi. pose proof (count_while_le passes (drop k cps)) as Hn. rewrite length_drop in Hn.
  pose proof (take_count_while passes (drop k cps)) as Hall.
  destruct (lookup_lt_is_Some_2 cps (k + i)) as [x Hx]; [lia|]. exists x. split; [done|].
  assert (Hx' : take (count_while passes (drop k cps)) (drop k cps) !! i = Some x) by (rewrite lookup_take_lt, lookup_drop; done).
  pose proof (Forall_lookup_1 _ _ _ _ Hall Hx') as P. unfold passes, newline_or_non_ascii in P. cbn in P. lia.
Qed.

Lemma gen_skip_spec g s k c :
  building g s k k -> line_byte_offset g = off s -> first_non_ascii g = i32_max -> cps !! k = Some c -> 14 <= c <= 127 ->
  exists g' k', gen_skip (text cps) (drop (byte_at cps k) (text cps)) (length (encode_wtf8_rune c)) g = Some g' /\
    (k < k' <= length cps)%nat /\ building g' s k' k'.
Proof.
  intros Hb Hl Hf Hc Hasc. pose proof (code_point_at cps Hcps _ _ Hc) as Hcp. destruct (read_char cps Hcps k c 0 Hc) as [Hrem _].
  set (n := count_while passes (drop (S k) cps)).
  destruct (count_passes_text (drop (S k) cps) ltac:(by apply Forall_drop)) as [Hcnt Hbytes]. fold n in Hcnt, Hbytes.
  pose proof (count_while_le passes (drop (S k) cps)) as Hn. fold n in Hn. rewrite length_drop in Hn.
  pose proof (lookup_lt_Some _ _ _ Hc).
  assert (Hrun : building (skip_ascii g (S n)) s (k + S n) (k + S n)).
  { apply ascii_run; [done..|]. intros [|i] Hi; [exists c; rewrite Nat.add_0_r; done|].
    replace (k + S i)%nat with (S k + i)%nat by lia. apply passed_over. fold n. lia. }
  assert (H1 : length (encode_wtf8_rune c) = 1%nat) by (rewrite encode_ascii by (done || lia); done).
  assert (Hlr : length (drop (byte_at cps k) (text cps)) = S (length (text (drop (S k) cps)))) by (rewrite Hrem, length_app, H1; lia).
  unfold gen_skip. rewrite H1, index_of_newline_or_non_ascii_spec, Hlr by (rewrite Hlr; lia). rewrite Hrem, <-H1, drop_app_length. cbv zeta.
  rewrite Hcnt, H1. cbn [mbind option_bind].
  destruct Hrun as [r1 r2 r3 r4 r5 r6 r7]. pose proof (position_nonneg cps Hcps (k + S n) ltac:(lia)) as (_ & Hcol & _).
  pose proof (off_bound (k + S n) ltac:(lia)) as Ho. unfold i32_max in Ho. rewrite r3 in Hcol. cbn [snd] in Hcol.
  exists (skip_ascii g (S n)), (k + S n)%nat. destruct g as [a rows col first cbo lbo cols]. cbn -[Nat.eqb] in *.
  pose proof (b_at _ _ _ _ Hb) as Ha. cbn in Ha. subst a. rewrite length_drop in Hlr.
  destruct (Nat.eqb_spec n (length (text (drop (S k) cps)))) as [En|_]; rewrite <-?En, ?Nat.add_1_r;
    (rewrite trap_i32_Some by (unfold is_i32; lia)); cbn [mbind option_bind]; (splits; [|lia..|by split]); do 2 f_equal; lia.
Qed.

Lemma gen_step_spec g s k :
  building g s k k -> (k < length cps)%nat ->
  exists g' s' k', gen_step (text cps) g = Some g' /\ (k < k' <= length cps)%nat /\ building g' s' k' k'.
Proof.
  intros Hb Hk. destruct (lookup_lt_is_Some_2 cps k Hk) as [c Hc].
  destruct (gen_columns_spec g s k c Hb Hc) as (g1 & E1 & Ea & El & Ec & Hl & Hasc & Hcols & Hrows).
  destruct (read_char cps Hcps k c 0 Hc) as (_ & b0 & Hb0 & Hlen & Hone & Hmin & Hdec). cbv zeta in Hmin, Hdec.
  unfold gen_step. destruct Hb as [b1 b2 b3 b4 b5 b6 b7]. rewrite b2 in *. rewrite Hb0. cbn [mbind option_bind].
  rewrite Hlen, Hmin, Hdec.
  replace (if (length (encode_wtf8_rune c) =? 1)%nat then b0 else c) with c
    by (destruct (Nat.eqb_spec (length (encode_wtf8_rune c)) 1); [by rewrite Hone|done]).
  rewrite E1. cbn [mbind option_bind].
  destruct ((first_non_ascii g1 =? i32_max) && in_range 14 127 c) eqn:Hfast.
  - apply andb_true_iff in Hfast as [Hf Hin]. apply Z.eqb_eq in Hf. unfold in_range in Hin.
    destruct (gen_skip_spec g1 s k c) as (g' & k' & E & Hk' & Hb'); [|done..|lia|by exists g', s, k'].
    split; rewrite ?El, ?Ec, ?Ea; try done.
    + by destruct (column g =? 0).
    + destruct Hrows as [H1 H2]. split; [done|]. intros j Hj. apply H2. lia.
    + destruct Hcols as [?|(m & _ & _ & _ & Hlt & _)]; [by left|lia].
  - destruct (gen_char_spec g1 s k c Hc) as (g' & s' & E & Hb'); rewrite ?El, ?Ec; try (done || lia || congruence).
    exists g', s', (S k). split; [done|]. split; [lia|done].
Qed.

Lemma gen_loop_spec fuel g s k :
  building g s k k -> (length cps - k <= fuel)%nat ->
  exists g' s', gen_loop fuel (text cps) g = Some g' /\ building g' s' (length cps) (length cps).
Proof.
  revert g s k. induction fuel as [|fuel IH]; intros g s k Hb Hf; pose proof (b_k _ _ _ _ Hb) as Hk; cbn [gen_loop];
    rewrite (b_at _ _ _ _ Hb); destruct (decide (k = length cps)) as [->|].
  - rewrite byte_at_end, Nat.ltb_irrefl. eauto.
  - lia.
  - rewrite byte_at_end, Nat.ltb_irrefl. eauto.
  - pose proof (off_lt k (length cps) ltac:(lia)). rewrite byte_at_end in *.
    replace (_ <? _)%nat with true by (symmetry; apply Nat.ltb_lt; lia).
    destruct (gen_step_spec g s k Hb ltac:(lia)) as (g' & s' & k' & E & Hk' & Hb'). rewrite E. cbn [mbind option_bind].
    apply (IH g' s' k'); [done|lia].
Qed.

Lemma gen_last_spec g s :
  building g s (length cps) (length cps) ->
  exists rows, gen_last (text cps) g = Some rows /\ rows_ok rows (length cps) (S (length cps)).
Proof.
  intros [Hk Hat Hp Hs Hl Hr Hc]. set (k := length cps) in *. assert (Hend : byte_at cps k = length (text cps)) by apply byte_at_end.
  pose proof (off_bound k ltac:(lia)) as Bk. pose proof (off_bound s ltac:(lia)) as Bs.
  pose proof (proj1 (byte_at_mono cps Hcps s k ltac:(lia))) as Hsk.
  unfold gen_last. rewrite <-Hend. unfold i32_max in Bk, Bs. unfold wrap32. rewrite Z.mod_small by lia. rewrite Hat in Hl. rewrite Hl.
  assert (Hcover : forall row, byte_offset_to_start_of_line row = off s -> column_in row (off k - off s) = Some (column g) ->
    rows_ok (list_ g ++ [row]) k k -> rows_ok (list_ g ++ [row]) k (S k)).
  { intros row E1 E2 E3. apply (rows_cover (list_ g) row k k s); [done| |done|]; rewrite Hp; done. }
  destruct g as [a rows col first cbo lbo cols]. cbn in *.
  destruct Hc as [(Hf & Hn & Heq)|(m & Em & Hsm & Hf & Hlt & Hcbo & Hlen)]; cbn in *.
  - subst first cols. cbn. eexists. split; [done|]. apply Hcover; [done| |done].
    rewrite column_in_plain; cbn; unfold is_i32, i32_max; try lia. by rewrite Heq, Hp by lia.
  - assert (Hne : cols <> []) by (intros ->; cbn in Hlen; lia).
    replace (match cols with [] => Some [] | _ => _ end)
      with (n ← sub_u32 (off k) (off s); need ← sub_u32 n cbo; need ← add_u32 need 1; Some (cols ++ replicate (Z.to_nat need) col))
      by (by destruct cols).
    assert (Hmk : off m < off k) by (apply off_lt; lia). unfold i32_max in Hlt. unfold sub_u32, add_u32.
    rewrite (proj2 (Z.leb_le (off s) _)) by lia. cbn [mbind option_bind]. rewrite (proj2 (Z.leb_le cbo _)) by lia. cbn [mbind option_bind].
    rewrite (proj2 (Z.leb_le _ u32_max)) by lia. cbn [mbind option_bind]. eexists. split; [done|]. apply Hcover; [done| |].
    { rewrite column_in_table; cbn; [|lia|unfold i32_max; lia|by destruct cols].
      rewrite lookup_app_r, lookup_replicate by lia. split; [done|lia]. }
    revert Hr. apply rows_extend; [lia|done|]. intros j Hj Hfst. cbn [current_row byte_offset_to_start_of_line].
    assert (Hb : off j < off k) by (apply off_lt; lia).
    destruct (Z.lt_ge_cases (off j - off s) first) as [L|L].
    + unfold column_in. cbn. rewrite !wrap_i32_id by (unfold is_i32; lia). by rewrite !(proj2 (Z.leb_gt _ _)) by lia.
    + rewrite !column_in_table; cbn; unfold i32_max; try lia; try (by destruct cols).
      intros E. by apply lookup_app_l_Some.
Qed.

Lemma table_generated : exists rows, generate_in (text cps) = Some rows /\ rows_ok rows (length cps) (S (length cps)).
Proof.
  unfold generate_in. assert (Hf : (length cps - 0 <= length (text cps))%nat).
  { rewrite Nat.sub_0_r. clear Hsmall. induction cps as [|c l IH]; [done|]. apply Forall_cons in Hcps as [Hc Hl].
    rewrite text_cons, length_app. cbn [length]. pose proof (encode_length_bounds c Hc). specialize (IH Hl). lia. }
  destruct (gen_loop_spec (length (text cps)) gen_init 0 0 building_init Hf) as (g & s & E & Hb).
  rewrite E. cbn [mbind option_bind]. by apply (gen_last_spec g s).
Qed.

(** ** A complete table finds every position *)
Section Locate.
Context (rows : list LineOffsetTable) (Hrows : rows_ok rows (length cps) (S (length cps))).

Lemma row_start i row : rows !! i = Some row ->
  exists s, (s <= length cps)%nat /\ byte_offset_to_start_of_line row = off s /\ pos s = (Z.of_nat i, 0).
Proof. apply Hrows. Qed.

Lemma line_starts_sorted : sorted_starts (map byte_offset_to_start_of_line rows).
Proof.
  intros i j a b Hij Ha Hb. destruct (decide (i = j)) as [->|]; [simplify_eq; lia|].
  apply list_lookup_fmap_Some in Ha as (ra & -> & Ha). apply list_lookup_fmap_Some in Hb as (rb & -> & Hb).
  destruct (row_start i ra Ha) as (s & Hs1 & -> & Es). destruct (row_start j rb Hb) as (t & Ht1 & -> & Et).
  destruct (decide (s < t)%nat); [pose proof (off_lt s t ltac:(lia)); lia|]. destruct (decide (s = t)) as [->|]; [lia|].
  destruct (position_mono cps Hcps t s ltac:(lia)) as [H|H]; rewrite Es, Et in H; cbn in H; lia.
Qed.

Lemma rows_bound : Z.of_nat (length rows) <= i32_max.
Proof.
  destruct (length rows) as [|n] eqn:E; [done|]. destruct (lookup_lt_is_Some_2 rows n) as [row Hrow]; [lia|].
  destruct (row_start n row Hrow) as (s & Hs & _ & Es). pose proof (position_nonneg cps Hcps s Hs) as (_ & _ & H). rewrite Es in H.
  pose proof (off_bound s Hs). cbn in H. lia.
Qed.

Lemma locate_spec k hint : (k <= length cps)%nat -> is_u32 hint -> locate rows (off k) hint = Some (pos k).
Proof.
  intros Hk Hh. pose proof (off_bound k Hk) as Bk. pose proof rows_bound as Br. destruct (proj2 Hrows k ltac:(lia)) as (row & Hrow & Hcol).
  pose proof (position_nonneg cps Hcps k Hk) as (Hl & _). set (l := Z.to_nat (fst (pos k))) in *.
  assert (Hfst : fst (pos k) = Z.of_nat l) by (unfold l; lia). clearbody l.
  destruct (row_start l row Hrow) as (s & Hs & Es & Ps). pose proof (off_bound s Hs) as Bs. unfold i32_max in *.
  assert (Hsk : off s <= off k).
  { destruct (decide (s <= k)%nat); [pose proof (proj1 (byte_at_mono cps Hcps s k ltac:(lia))); lia|].
    destruct (position_mono cps Hcps k s ltac:(lia)) as [H|H]; rewrite Ps in H; cbn in H; [lia|].
    pose proof (position_nonneg cps Hcps k Hk). lia. }
  assert (Hup : lines_upto (map byte_offset_to_start_of_line rows) (off k) (S l)).
  { apply (lines_upto_intro _ _ line_starts_sorted l (off s)); [by rewrite list_lookup_fmap, Hrow, <-Es|lia|].
    rewrite length_map. destruct (rows !! S l) as [row'|] eqn:En.
    - right. destruct (row_start (S l) row' En) as (t & Ht & Et & Pt). exists (off t).
      split; [by rewrite list_lookup_fmap, En, <-Et|]. apply off_lt. split; [|done].
      destruct (decide (k < t)%nat); [done|]. destruct (decide (k = t)) as [->|]; [rewrite Pt in Hfst; cbn in Hfst; lia|].
      destruct (position_mono cps Hcps t k ltac:(lia)) as [H|H]; rewrite Pt in H; cbn in H; lia.
    - left. apply lookup_ge_None in En. apply lookup_lt_Some in Hrow. lia. }
  unfold locate. rewrite hint_correct by (try apply line_starts_sorted; rewrite ?length_map; unfold i32_max; done || lia).
  rewrite (find_line_spec _ _ line_starts_sorted (S l)) by (rewrite ?length_map; unfold i32_max; done || lia). cbn [mbind option_bind].
  replace (Z.to_nat (Z.max (Z.of_nat (S l) - 1) 0)) with l by lia. rewrite Hrow. cbn [mbind option_bind].
  rewrite Es in *. rewrite wrap_i32_id by (unfold is_i32; lia). rewrite trap_i32_Some by (unfold is_i32; lia). cbn [mbind option_bind].
  rewrite Hcol. cbn [mbind option_bind]. destruct (pos k) as [l' c'] eqn:E. cbn in *. f_equal. f_equal. lia.
Qed.
End Locate.
End Build.

(** C16. For every text, the table is built without a panic, and whatever the hint, the line and
    the column that are looked up at each character and at the end are those of the text: the
    newlines before it and the UTF-16 code units from the start of its line. *)
Theorem table_locates_positions cps :
  Forall is_code_point cps -> Z.of_nat (length (text cps)) < i32_max ->
  exists rows, generate_in (text cps) = Some rows /\
    forall k hint, (k <= length cps)%nat -> is_u32 hint ->
      locate rows (Z.of_nat (byte_at cps k)) hint = Some (position cps k).
Proof.
  intros Hcps Hsmall. destruct (table_generated cps Hcps Hsmall) as (rows & E & Hr). exists rows. split; [done|].
  intros k hint Hk Hh. by apply (locate_spec cps Hcps Hsmall rows Hr).
Qed.

Definition mixed_text : list Z := [97; 0xE9; 98; 0x1F600; 99; 13; 10; 120; 0x2028; 121; 13; 122].

Lemma table_locates_positions_witness :
  exists rows, generate_in (text mixed_text) = Some rows /\
    forall k hint, (k <= length mixed_text)%nat -> is_u32 hint ->
      locate rows (Z.of_nat (byte_at mixed_text k)) hint = Some (position mixed_text k).
Proof.
  apply (table_locates_positions mixed_text); [|by vm_compute].
  repeat constructor; vm_compute; discriminate.
Defined.

(** A sequence that is not well formed is read as code point zero, so that its line counts as one of ASCII. *)
Example invalid_line_is_ascii :
  generate_in [0xC3; 0x41; 0x42] =
    Some [{| columns_for_non_ascii := []; byte_offset_to_first_non_ascii := i32_max; byte_offset_to_start_of_line := 0 |}].
Proof. reflexivity. Qed.
