(* ===== verification/Vlq.v ===== *)
(** * Variable-length quantities (base64/lib.rs, module vlq)

    The numbers of a source map's mappings: a sign bit and then five bits to a base-64
    digit, the lowest first; a digit's sixth bit says that another one follows.  [encode]
    looks small numbers up in a table, [decode] reads at most eight digits.  They are proved
    inverse on every [i32] but the least. *)

From S2P Require Import Prelude.

#[local] Open Scope Z_scope.

Definition VLQ_MAX_IN_BYTES : nat := 7.

Record VLQ := { vlq_bytes : bytes; vlq_len : nat }.
#[export] Instance VLQ_eq : EqDecision VLQ.
Proof. solve_decision. Defined.

Definition vlq_slice (v : VLQ) : bytes := take (vlq_len v) (vlq_bytes v).

Definition BASE64 : bytes := bstr "ABCDEFGHIJKLMNOPQRSTUVWXYZabcdefghijklmnopqrstuvwxyz0123456789+/".
Definition U7_MAX : Z := 127.

(** [while iter < VLQ_MAX_IN_BYTES], from the rounds that are left. *)
Fixpoint encode_loop (rounds : nat) (vlq : Z) (bs : bytes) (len : nat) : option VLQ :=
  match rounds with
  | O => Some {| vlq_bytes := bs; vlq_len := 0 |}
  | S rounds =>
      let digit := Z.land vlq 31 in
      let vlq := Z.shiftr vlq 5 in
      let digit := if vlq =? 0 then digit else Z.lor digit 32 in
      c ← BASE64 !! Z.to_nat digit;
      bs ← write_at bs len c;
      if vlq =? 0 then Some {| vlq_bytes := bs; vlq_len := S len |} else encode_loop rounds vlq bs (S len)
  end.

Definition encode_slow_path (value : Z) : option VLQ :=
  let vlq := if 0 <=? value then wrap32 (Z.shiftl value 1) else Z.lor (wrap32 (Z.shiftl (Z.abs value) 1)) 1 in
  encode_loop VLQ_MAX_IN_BYTES vlq (replicate VLQ_MAX_IN_BYTES 0) 0.

(** Built once, as the source builds it at compile time. *)
Definition VLQ_LOOKUP_TABLE : list (option VLQ) := Eval vm_compute in (encode_slow_path ∘ Z.of_nat) <$> seq 0 256.

Definition encode (value : Z) : option VLQ :=
  if (0 <=? value) && (value <=? 255) then mjoin (VLQ_LOOKUP_TABLE !! Z.to_nat value) else encode_slow_path value.

Record VLQResult := { value : Z; start : nat }.

Fixpoint lut_loop (i : Z) (alphabet : bytes) (lut : bytes) : bytes :=
  match alphabet with
  | [] => lut
  | c :: alphabet => lut_loop (i + 1) alphabet (<[Z.to_nat c := i]> lut)
  end.
Definition BASE64_LUT : bytes := Eval vm_compute in lut_loop 0 BASE64 (replicate 128 U7_MAX).

(** The loop over [encoded_], from its rest at [i]. *)
Fixpoint decode_loop (encoded_ : bytes) (start_ i : nat) (shift vlq : Z) : option VLQResult :=
  match encoded_ with
  | [] => Some {| value := 0; start := start_ |}
  | c :: encoded_ =>
      index ← BASE64_LUT !! Z.to_nat (Z.land c 127);
      let vlq := Z.lor vlq (wrap32 (Z.shiftl (Z.land index 31) (Z.land shift 31))) in
      let shift := shift + 5 in
      if Z.land index 32 =? 0 then
        Some {| value := if Z.land vlq 1 =? 0 then Z.shiftr vlq 1 else - Z.shiftr vlq 1; start := start_ + i + 1 |}
      else decode_loop encoded_ start_ (S i) shift vlq
  end.

Definition decode (encoded : bytes) (start_ : nat) : option VLQResult :=
  rest ← slice_from encoded start_;
  encoded_ ← slice_range rest 0 (Nat.min (length encoded - start_) (VLQ_MAX_IN_BYTES + 1));
  decode_loop encoded_ start_ 0 0 0.

(** ** The digits of a number *)

(** Of a word below [32 ^ fuel]. *)
Fixpoint digits (fuel : nat) (v : Z) : bytes :=
  match fuel with
  | O => []
  | S fuel => if v / 32 =? 0 then [v mod 32] else v mod 32 + 32 :: digits fuel (v / 32)
  end.

(** The sign goes below the magnitude. *)
Definition word_of (z : Z) : Z := if 0 <=? z then 2 * z else 2 * - z + 1.

Definition letter (d : Z) : Z := nth (Z.to_nat d) BASE64 0.

(** What [encode] writes. *)
Definition vlq_text (z : Z) : bytes := letter <$> digits VLQ_MAX_IN_BYTES (word_of z).

Lemma letter_facts d : 0 <= d < 64 ->
  BASE64 !! Z.to_nat d = Some (letter d) /\ BASE64_LUT !! Z.to_nat (Z.land (letter d) 127) = Some d.
Proof.
  assert (forallb (fun n => bool_decide (BASE64 !! n = Some (letter (Z.of_nat n)) /\
    BASE64_LUT !! Z.to_nat (Z.land (letter (Z.of_nat n)) 127) = Some (Z.of_nat n))) (seq 0 64) = true) as H by by vm_compute.
  intros Hd. rewrite forallb_forall in H. specialize (H (Z.to_nat d)). rewrite bool_decide_eq_true, Z2Nat.id in H by lia.
  apply H, in_seq. lia.
Qed.

Lemma digits_range fuel v : 0 <= v -> Forall (fun d => 0 <= d < 64) (digits fuel v).
Proof.
  revert v. induction fuel as [|fuel IH]; intros v Hv; cbn [digits]; [constructor|].
  pose proof (Z.mod_pos_bound v 32). destruct (_ =? 0); constructor; try lia; [constructor|]. apply IH, Z.div_pos; lia.
Qed.

Lemma digits_length fuel v : (length (digits fuel v) <= fuel)%nat.
Proof. revert v. induction fuel as [|fuel IH]; intros v; cbn [digits]; [done|]. destruct (_ =? 0); cbn; [lia|]. specialize (IH (v / 32)). lia. Qed.

(** A digit, and whether another one follows. *)
Definition digit_of (v : Z) : Z := if v / 32 =? 0 then v mod 32 else v mod 32 + 32.

Lemma digit_range v : 0 <= digit_of v < 64.
Proof. unfold digit_of. pose proof (Z.mod_pos_bound v 32). destruct (_ =? 0); lia. Qed.

Lemma digits_cons fuel v : digits (S fuel) v = digit_of v :: (if v / 32 =? 0 then [] else digits fuel (v / 32)).
Proof. unfold digit_of. cbn [digits]. by destruct (_ =? 0). Qed.

Lemma encode_step rounds v bs len :
  (len < length bs)%nat ->
  encode_loop (S rounds) v bs len =
    let bs := <[len := letter (digit_of v)]> bs in
    if v / 32 =? 0 then Some {| vlq_bytes := bs; vlq_len := S len |} else encode_loop rounds (v / 32) bs (S len).
Proof.
  intros Hl. cbn [encode_loop]. change (Z.land v 31) with (Z.land v (Z.ones 5)).
  rewrite Z.land_ones, Z.shiftr_div_pow2 by lia. change (2 ^ 5) with 32.
  assert ((if v / 32 =? 0 then v mod 32 else Z.lor (v mod 32) 32) = digit_of v) as ->.
  { unfold digit_of. destruct (_ =? 0); [done|]. apply (lor_pow2 5); [lia|]. by apply Z.mod_pos_bound. }
  destruct (letter_facts (digit_of v)) as [-> _]; [apply digit_range|]. cbn [mbind option_bind].
  rewrite write_at_Some by done. done.
Qed.

Lemma take_written (bs : bytes) len x :
  (len < length bs)%nat -> take (S len) (<[len := x]> bs) = take len bs ++ [x].
Proof.
  intros ?. rewrite (take_S_r _ _ x) by (by rewrite list_lookup_insert_eq by lia). by rewrite take_insert_ge by lia.
Qed.

Lemma encode_loop_spec fuel v bs len :
  0 <= v < 32 ^ Z.of_nat (S fuel) -> (len + S fuel <= length bs)%nat ->
  exists r, encode_loop (S fuel) v bs len = Some r /\ vlq_len r = (len + length (digits (S fuel) v))%nat /\
    vlq_slice r = take len bs ++ (letter <$> digits (S fuel) v).
Proof.
  revert v bs len. induction fuel as [|fuel IH]; intros v bs len Hv Hl; rewrite encode_step, digits_cons by lia; cbv zeta.
  - rewrite (Z.div_small v 32) by (cbn in Hv; lia). cbn [Z.eqb]. eexists. split; [done|].
    cbn [vlq_len length]. split; [lia|]. unfold vlq_slice. cbn [vlq_len vlq_bytes]. by rewrite take_written by lia.
  - destruct (Z.eqb_spec (v / 32) 0) as [E|E].
    + eexists. split; [done|].
      cbn [vlq_len length]. split; [lia|]. unfold vlq_slice. cbn [vlq_len vlq_bytes]. by rewrite take_written by lia.
    + destruct (IH (v / 32) (<[len := letter (digit_of v)]> bs) (S len)) as (r & Er & Hlen & Hs).
      { split; [apply Z.div_pos; lia|]. apply Z.div_lt_upper_bound; [lia|]. rewrite <- Z.pow_succ_r by lia.
        rewrite <- Nat2Z.inj_succ. lia. }
      { rewrite length_insert. lia. }
      exists r. split; [done|]. cbn [length fmap list_fmap]. rewrite Hlen, Hs. split; [lia|].
      rewrite take_written by lia. by rewrite <- app_assoc.
Qed.

Lemma word_range z : is_i32 z -> 0 <= word_of z < 2 ^ 33.
Proof. unfold is_i32, word_of. intros ?. change (2 ^ 33) with 8589934592. destruct (Z.leb_spec 0 z); lia. Qed.

(** Any number but the least, which has no magnitude in 32 bits. *)
Lemma encode_spec z :
  is_i32 z -> z <> -2147483648 -> exists r, encode z = Some r /\ vlq_slice r = vlq_text z.
Proof.
  intros Hz Hmin.
  assert (exists r, encode_slow_path z = Some r /\ vlq_slice r = vlq_text z) as Hslow.
  { unfold encode_slow_path. unfold is_i32 in Hz.
    assert ((if 0 <=? z then wrap32 (Z.shiftl z 1) else Z.lor (wrap32 (Z.shiftl (Z.abs z) 1)) 1) = word_of z) as ->.
    { assert (forall y, Z.shiftl y 1 = y * 2) as Hd by (intros y; by rewrite Z.shiftl_mul_pow2).
      unfold word_of, wrap32. rewrite !Hd. destruct (Z.leb_spec 0 z); rewrite Z.mod_small by lia; [lia|].
      rewrite <- Hd, Z.lor_comm, lor_shiftl by lia. lia. }
    destruct (encode_loop_spec 6 (word_of z) (replicate VLQ_MAX_IN_BYTES 0) 0) as (r & E & _ & Hs).
    { pose proof (word_range z). split; [unfold word_of; destruct (0 <=? z) eqn:?; lia|].
      change (32 ^ Z.of_nat 7) with 34359738368. unfold word_of. destruct (0 <=? z) eqn:?; lia. }
    { done. }
    exists r. split; [exact E|]. exact Hs. }
  unfold encode. destruct (Z.leb_spec 0 z), (Z.leb_spec z 255); cbn [andb]; [|exact Hslow..].
  enough (VLQ_LOOKUP_TABLE !! Z.to_nat z = Some (encode_slow_path z)) as -> by exact Hslow.
  assert (forallb (fun n => bool_decide (VLQ_LOOKUP_TABLE !! n = Some (encode_slow_path (Z.of_nat n)))) (seq 0 256) = true)
    as H' by by vm_compute.
  rewrite forallb_forall in H'. specialize (H' (Z.to_nat z)). rewrite bool_decide_eq_true, Z2Nat.id in H' by lia.
  apply H', in_seq. lia.
Qed.

(** ** Decoding *)
Lemma digit_bits d : 0 <= d < 64 -> Z.land d 31 = d mod 32 /\ (Z.land d 32 =? 0) = (d <? 32).
Proof.
  assert (forallb (fun n => bool_decide (Z.land (Z.of_nat n) 31 = Z.of_nat n mod 32 /\
    (Z.land (Z.of_nat n) 32 =? 0) = (Z.of_nat n <? 32))) (seq 0 64) = true) as H by by vm_compute.
  intros Hd. rewrite forallb_forall in H. specialize (H (Z.to_nat d)). rewrite bool_decide_eq_true, Z2Nat.id in H by lia.
  apply H, in_seq. lia.
Qed.

Lemma decode_digits fuel v rest start_ i shift acc :
  0 <= v -> 0 <= shift -> 0 <= acc < 2 ^ shift -> shift + 5 * Z.of_nat fuel <= 35 -> v * 2 ^ shift < 2 ^ 32 ->
  v < 32 ^ Z.of_nat fuel -> (0 < fuel)%nat ->
  decode_loop ((letter <$> digits fuel v) ++ rest) start_ i shift acc =
    let w := acc + v * 2 ^ shift in
    Some {| value := if w mod 2 =? 0 then w / 2 else - (w / 2); start := (start_ + i + length (digits fuel v))%nat |}.
Proof.
  revert v i shift acc. induction fuel as [|fuel IH]; intros v i shift acc Hv Hsh Hacc Hfuel Hfit Hlt Hpos; [lia|].
  rewrite digits_cons. cbn [fmap list_fmap app decode_loop]. pose proof (digit_range v) as Hdr.
  destruct (letter_facts (digit_of v) Hdr) as [_ ->].
  cbn [mbind option_bind]. destruct (digit_bits (digit_of v) Hdr) as [-> ->].
  assert (Hm : 0 <= v mod 32 < 32) by (apply Z.mod_pos_bound; lia).
  assert (digit_of v mod 32 = v mod 32) as ->.
  { unfold digit_of. destruct (_ =? 0); [by rewrite Z.mod_small|].
    rewrite <- Z.add_mod_idemp_r, Z.mod_same, Z.add_0_r by lia. by rewrite Z.mod_small. }
  assert (Z.land shift 31 = shift) as -> by (change 31 with (Z.ones 5); rewrite Z.land_ones by lia; apply Z.mod_small; lia).
  assert (Hd : v = 32 * (v / 32) + v mod 32) by (apply Z.div_mod; lia).
  assert (0 <= v / 32) by (apply Z.div_pos; lia).
  assert (0 < 2 ^ shift) by (apply Z.pow_pos_nonneg; lia).
  assert (wrap32 (Z.shiftl (v mod 32) shift) = Z.shiftl (v mod 32) shift) as ->.
  { unfold wrap32. rewrite Z.shiftl_mul_pow2 by lia. apply Z.mod_small. change 4294967296 with (2 ^ 32). nia. }
  rewrite lor_shiftl by lia.
  assert ((digit_of v <? 32) = (v / 32 =? 0)) as ->.
  { unfold digit_of. destruct (v / 32 =? 0); [apply Z.ltb_lt; lia|apply Z.ltb_ge; lia]. }
  destruct (Z.eqb_spec (v / 32) 0) as [E|E].
  - assert (v mod 32 = v) as -> by lia. cbv zeta. change 1 with (Z.ones 1). rewrite Z.land_ones, Z.shiftr_div_pow2 by done.
    change (2 ^ 1) with 2. cbn [length]. do 2 f_equal; lia.
  - destruct fuel as [|fuel]; [cbn in Hlt; rewrite Z.div_small in E by lia; lia|].
    rewrite IH; [|lia|lia| |lia| | |lia].
    + rewrite Z.pow_add_r by lia. change (2 ^ 5) with 32. cbv zeta. cbn [length].
      replace (acc + v mod 32 * 2 ^ shift + v / 32 * (2 ^ shift * 32)) with (acc + v * 2 ^ shift) by nia.
      do 2 f_equal. lia.
    + rewrite Z.pow_add_r by lia. change (2 ^ 5) with 32. nia.
    + rewrite Z.pow_add_r by lia. change (2 ^ 5) with 32. nia.
    + apply Z.div_lt_upper_bound; [lia|]. rewrite <- Z.pow_succ_r by lia. rewrite <- Nat2Z.inj_succ. lia.
Qed.

Lemma vlq_text_length z : (1 <= length (vlq_text z) <= 7)%nat.
Proof.
  unfold vlq_text. rewrite length_fmap. split; [|apply digits_length]. unfold VLQ_MAX_IN_BYTES. rewrite digits_cons. cbn. lia.
Qed.

(** In a longer text, from any place on. *)
Lemma decode_text z before rest :
  is_i32 z -> z <> -2147483648 ->
  decode (before ++ vlq_text z ++ rest) (length before) = Some {| value := z; start := length before + length (vlq_text z) |}.
Proof.
  intros Hz Hmin. pose proof (vlq_text_length z) as Hl. unfold is_i32 in Hz. unfold decode.
  rewrite slice_from_Some by (rewrite length_app; lia). cbn [mbind option_bind]. rewrite drop_app_length.
  rewrite !length_app. replace (length before + (length (vlq_text z) + length rest) - length before)%nat
    with (length (vlq_text z) + length rest)%nat by lia.
  rewrite slice_range_Some by (rewrite ?length_app; lia). cbn [mbind option_bind]. rewrite drop_0, Nat.sub_0_r.
  rewrite take_app_ge by (unfold VLQ_MAX_IN_BYTES; lia). unfold vlq_text at 1.
  assert (0 <= word_of z < 2 ^ 32) by (change (2 ^ 32) with 4294967296; unfold word_of; destruct (0 <=? z) eqn:?; lia).
  rewrite decode_digits; [|lia|lia|by split|done|lia| |unfold VLQ_MAX_IN_BYTES; lia].
  - cbv zeta. rewrite Z.pow_0_r, Z.add_0_l, Z.mul_1_r. unfold vlq_text. rewrite length_fmap.
    do 2 f_equal; [|lia]. unfold word_of. destruct (Z.leb_spec 0 z).
    + rewrite (Z.mul_comm 2 z), Z.mod_mul, Z.div_mul by lia. done.
    + replace (2 * - z + 1) with (1 + - z * 2) by lia. rewrite Z.mod_add, Z.div_add by lia. change (1 mod 2 =? 0) with false. change (1 / 2) with 0. cbv iota. lia.
  - change (32 ^ Z.of_nat VLQ_MAX_IN_BYTES) with 34359738368. change (2 ^ 32) with 4294967296 in *. lia.
Qed.

(** The least [i32] reads back as 0. *)
Example encode_i32_min : vlq_slice <$> encode (-2147483648) = Some (bstr "B").
Proof. reflexivity. Qed.
Example encode_i32_max : vlq_slice <$> encode 2147483647 = Some (bstr "+/////D").
Proof. reflexivity. Qed.

Lemma encode_total z : is_i32 z -> exists v, encode z = Some v.
Proof.
  intros Hz. destruct (decide (z = -2147483648)) as [->|Hne].
  - assert (is_Some (encode (-2147483648))) as [v Hv] by (by vm_compute; eexists). by exists v.
  - destruct (encode_spec z Hz Hne) as (v & Hv & _). by exists v.
Qed.

(** ** Any input *)
Lemma LUT_length : length BASE64_LUT = 128%nat.
Proof. reflexivity. Qed.

(** [decode] fails only where its slice does, and goes forward by at most eight. *)
Lemma decode_total encoded start_ :
  (start_ <= length encoded)%nat ->
  exists r, decode encoded start_ = Some r /\ (start_ <= start r <= length encoded)%nat.
Proof.
  intros Hs. unfold decode. rewrite slice_from_Some by done. cbn [mbind option_bind].
  rewrite slice_range_Some by (rewrite ?length_drop; lia). cbn [mbind option_bind]. rewrite drop_0, Nat.sub_0_r.
  set (enc := take _ _). assert (length enc <= length encoded - start_)%nat as Hlen
    by (unfold enc; rewrite length_take, length_drop; lia).
  clearbody enc. enough (forall vlq shift i, (i + length enc <= length encoded - start_)%nat ->
    exists r, decode_loop enc start_ i shift vlq = Some r /\ (start_ <= start r <= length encoded)%nat) as H by (apply H; lia).
  clear Hlen.
  induction enc as [|c enc IH]; intros vlq shift i Hl; cbn [decode_loop]; [eexists; split; [done|]; cbn; lia|].
  cbn [length] in Hl. destruct (lookup_lt_is_Some_2 BASE64_LUT (Z.to_nat (Z.land c 127))) as [index ->].
  { rewrite LUT_length. change 127 with (Z.ones 7). rewrite Z.land_ones by lia. pose proof (Z.mod_pos_bound c (2 ^ 7) ltac:(lia)).
    change (2 ^ 7) with 128 in *. lia. }
  cbn [mbind option_bind]. destruct (_ =? 0); [eexists; split; [done|]; cbn; lia|]. apply IH. lia.
Qed.

(** Any [i32] but the least is encoded in one to seven digits, and [decode] reads it
    back from any place of a longer text, up to the end of its digits. *)
Theorem vlq_decode_encode z before rest :
  is_i32 z -> z <> -2147483648 ->
  exists v, encode z = Some v /\ (1 <= length (vlq_slice v) <= 7)%nat /\
    decode (before ++ vlq_slice v ++ rest) (length before) = Some {| value := z; start := length before + length (vlq_slice v) |}.
Proof.
  intros Hz Hne. destruct (encode_spec z Hz Hne) as (v & E & Ev). exists v. rewrite Ev. splits; try apply vlq_text_length; [done|]. by apply decode_text.
Qed.
Lemma vlq_decode_encode_witness :
  exists v, encode (-123456) = Some v /\ (1 <= length (vlq_slice v) <= 7)%nat /\
    decode (bstr "AAC," ++ vlq_slice v ++ bstr ";A") 4 = Some {| value := -123456; start := 4 + length (vlq_slice v) |}.
Proof. apply (vlq_decode_encode (-123456) (bstr "AAC,") (bstr ";A")); [unfold is_i32; lia|lia]. Defined.
