(* ===== verification/SourceMapWindow.v ===== *)
(** * The windows of an internal source map (sourcemap/InternalSourceMap.rs)

    A window holds up to 64 mappings as differences, in lanes of varints with masks for the
    common cases.  This file has the varints and the reader of windows ([WindowReader]),
    which must bear any bytes, since blobs are cached on disk; SourceMapBuilder.v has the
    writer.

    [window] is the format: the bytes of a list of differences.  The reader of a window
    gives back the mappings that the differences were taken from; on other bytes it stops
    without reading outside them. *)

From S2P Require Import Prelude.

#[local] Open Scope nat_scope.

Definition SYNC_INTERVAL : nat := 64.
Definition MAX_VARINT_LEN : nat := 5.

(** ** Varints *)

(** [((value << 1) ^ (value >> 31)) as u32] *)
Definition zigzag_encode (value : Z) : Z := wrap32 (Z.lxor (wrap_i32 (Z.shiftl value 1)) (Z.shiftr value 31)).
(** [(value >> 1) as i32 ^ (-((value & 1) as i32))] *)
Definition zigzag_decode (value : Z) : Z := Z.lxor (Z.shiftr value 1) (- Z.land value 1).

(** The bytes at [at_] of the buffer; [i] are written. *)
Fixpoint write_loop (fuel : nat) (buf : bytes) (at_ i : nat) (v : Z) : option (bytes * nat) :=
  match fuel with
  | O => None
  | S fuel =>
      let byte := Z.land v 127 in
      let v := Z.shiftr v 7 in
      let byte := if (v =? 0)%Z then byte else Z.lor byte 128 in
      buf ← write_at buf (at_ + i) byte;
      if (v =? 0)%Z then Some (buf, S i) else write_loop fuel buf at_ (S i) v
  end.
Definition write_varint (buf : bytes) (at_ : nat) (signed : Z) : option (bytes * nat) :=
  write_loop MAX_VARINT_LEN buf at_ 0 (zigzag_encode signed).

(** The loop of [read_varint]: it ends by itself when [shift] passes 28. *)
Fixpoint varint_loop (fuel : nat) (bs : bytes) (i : nat) (shift result : Z) : option (Z * nat) :=
  match fuel with
  | O => None
  | S fuel =>
      if (28 <? shift)%Z then Some (result, i)
      else
        byte ← bs !! i;
        let result := Z.lor result (wrap32 (Z.shiftl (Z.land byte 127) shift)) in
        if (Z.land byte 128 =? 0)%Z then Some (result, S i) else varint_loop fuel bs (S i) (shift + 7) result
  end.

(** The number and the position after it. *)
Definition read_varint (bs : bytes) (pos : nat) : option (Z * nat) :=
  first ← bs !! pos;
  if (first <? 128)%Z then Some (zigzag_decode first, S pos)
  else
    '(result, i) ← varint_loop 5 bs (S pos) 7 (Z.land first 127);
    Some (zigzag_decode result, i).

Definition read_u64_le (bs : bytes) (pos : nat) : option Z :=
  if pos + 8 <=? length bs then Some (le_combine (take 8 (drop pos bs))) else None.
Definition test_bit (mask : Z) (idx : nat) : bool := negb (Z.land (Z.shiftr mask (Z.of_nat idx)) 1 =? 0)%Z.

(** ** The header of a window *)
Definition FLAG_HAS_GEN_LINE_EXCEPTIONS : Z := 4.
Definition FLAG_HAS_SRC_IDX : Z := 8.
Definition COUNT_OFF : nat := 0.
Definition FLAGS_OFF : nat := 1.
Definition GEN_COL_LEN_OFF : nat := 2.
Definition ORIG_LINE_LEN_OFF : nat := 4.
Definition ORIG_COL_LEN_OFF : nat := 6.
Definition GEN_LINE_MASK_OFF : nat := 8.
Definition ORIG_LINE_EQ_MASK_OFF : nat := 16.
Definition ORIG_COL_EQ_MASK_OFF : nat := 24.
Definition GEN_COL_LANE_OFF : nat := 32.

(** A mapping, without the name that is not stored. *)
Record State := {
  generated_line : Z;
  generated_column : Z;
  source_index : Z;
  original_line : Z;
  original_column : Z
}.
#[export] Instance State_eq : EqDecision State.
Proof. solve_decision. Defined.
Definition State_default : State :=
  {| generated_line := 0; generated_column := 0; source_index := 0; original_line := 0; original_column := 0 |}.

Definition less_or_equal (s : State) (line col : Z) : bool :=
  ((generated_line s <? line) || ((generated_line s =? line) && (generated_column s <=? col)))%Z.

(** ** The reader *)
Record WindowReader := {
  reader_bytes : bytes;
  gen_col_pos : nat;
  orig_line_exc_pos : nat;
  orig_col_exc_pos : nat;
  gen_line_exc_pos : nat;
  src_idx_exc_pos : nat;
  gen_line_mask : Z;
  orig_line_eq_mask : Z;
  orig_col_eq_mask : Z;
  src_idx_eq_mask : Z;
  count : nat;
  flags : Z;
  gen_line_exc_next_idx : Z;
  delta_idx : nat
}.

Definition reader_new (bs : bytes) : WindowReader := Build_WindowReader bs 0 0 0 0 0 0 0 0 0 0 0 0 0.

(** Assignments to the fields. *)
Definition with_count (c : nat) (r : WindowReader) : WindowReader :=
  let '(Build_WindowReader bs gc ol oc gl si m1 m2 m3 m4 _ fl nx d) := r in
  Build_WindowReader bs gc ol oc gl si m1 m2 m3 m4 c fl nx d.
Definition with_delta_idx (d : nat) (r : WindowReader) : WindowReader :=
  let '(Build_WindowReader bs gc ol oc gl si m1 m2 m3 m4 c fl nx _) := r in
  Build_WindowReader bs gc ol oc gl si m1 m2 m3 m4 c fl nx d.
Definition with_gen_col_pos (gc : nat) (r : WindowReader) : WindowReader :=
  let '(Build_WindowReader bs _ ol oc gl si m1 m2 m3 m4 c fl nx d) := r in
  Build_WindowReader bs gc ol oc gl si m1 m2 m3 m4 c fl nx d.
Definition with_orig_line_exc_pos (ol : nat) (r : WindowReader) : WindowReader :=
  let '(Build_WindowReader bs gc _ oc gl si m1 m2 m3 m4 c fl nx d) := r in
  Build_WindowReader bs gc ol oc gl si m1 m2 m3 m4 c fl nx d.
Definition with_orig_col_exc_pos (oc : nat) (r : WindowReader) : WindowReader :=
  let '(Build_WindowReader bs gc ol _ gl si m1 m2 m3 m4 c fl nx d) := r in
  Build_WindowReader bs gc ol oc gl si m1 m2 m3 m4 c fl nx d.
Definition with_gen_line_exc_pos (gl : nat) (r : WindowReader) : WindowReader :=
  let '(Build_WindowReader bs gc ol oc _ si m1 m2 m3 m4 c fl nx d) := r in
  Build_WindowReader bs gc ol oc gl si m1 m2 m3 m4 c fl nx d.
Definition with_src_idx_exc_pos (si : nat) (r : WindowReader) : WindowReader :=
  let '(Build_WindowReader bs gc ol oc gl _ m1 m2 m3 m4 c fl nx d) := r in
  Build_WindowReader bs gc ol oc gl si m1 m2 m3 m4 c fl nx d.
Definition with_masks (m1 m2 m3 : Z) (r : WindowReader) : WindowReader :=
  let '(Build_WindowReader bs gc ol oc gl si _ _ _ m4 c fl nx d) := r in
  Build_WindowReader bs gc ol oc gl si m1 m2 m3 m4 c fl nx d.
Definition with_src_idx_eq_mask (m4 : Z) (r : WindowReader) : WindowReader :=
  let '(Build_WindowReader bs gc ol oc gl si m1 m2 m3 _ c fl nx d) := r in
  Build_WindowReader bs gc ol oc gl si m1 m2 m3 m4 c fl nx d.
Definition with_flags (fl : Z) (r : WindowReader) : WindowReader :=
  let '(Build_WindowReader bs gc ol oc gl si m1 m2 m3 m4 c _ nx d) := r in
  Build_WindowReader bs gc ol oc gl si m1 m2 m3 m4 c fl nx d.
Definition with_gen_line_exc_next_idx (nx : Z) (r : WindowReader) : WindowReader :=
  let '(Build_WindowReader bs gc ol oc gl si m1 m2 m3 m4 c fl _ d) := r in
  Build_WindowReader bs gc ol oc gl si m1 m2 m3 m4 c fl nx d.

(** [&mut self] methods that return an [Option]: a failure keeps what was assigned. *)
Definition Reader (A : Type) : Type := WindowReader -> option A * WindowReader.
#[global] Instance M_ret : MRet Reader := fun A x r => (Some x, r).
#[global] Instance M_bind : MBind Reader := fun A B k m r =>
  match m r with (Some x, r) => k x r | (None, r) => (None, r) end.
Definition reader_lift {A} (o : option A) : Reader A := fun r => (o, r).
Definition gets {A} (f : WindowReader -> A) : Reader A := fun r => (Some (f r), r).
Definition modify (f : WindowReader -> WindowReader) : Reader unit := fun r => (Some tt, f r).

(** The pairs of the exceptions, skipped: at most one for each delta. *)
Fixpoint skip_pairs (room : nat) (bs : bytes) (pos : nat) : option nat :=
  b ← bs !! pos;
  if (b =? 255)%Z then Some pos
  else
    match room with
    | O => None
    | S room => '(_, pos) ← read_varint bs (S pos); skip_pairs room bs pos
    end.

Definition parse_flagged_sections (pos : nat) : Reader unit :=
  bs ← gets reader_bytes;
  fl ← gets flags;
  pos ← (if (Z.land fl FLAG_HAS_GEN_LINE_EXCEPTIONS =? 0)%Z then mret pos
         else
           modify (with_gen_line_exc_pos pos);;
           nx ← reader_lift (bs !! pos);
           modify (with_gen_line_exc_next_idx nx);;
           pos ← reader_lift (skip_pairs (SYNC_INTERVAL - 1) bs pos);
           mret (S pos));
  if (Z.land fl FLAG_HAS_SRC_IDX =? 0)%Z then mret tt
  else
    mask ← reader_lift (read_u64_le bs pos);
    modify (with_src_idx_eq_mask mask);;
    modify (with_src_idx_exc_pos (pos + 8)).

Definition parse (start : nat) : Reader unit :=
  bs ← gets reader_bytes;
  modify (with_count 0);;
  modify (with_delta_idx 0);;
  header ← reader_lift (if start + GEN_COL_LANE_OFF <=? length bs then Some (take GEN_COL_LANE_OFF (drop start bs)) else None);
  fixed ← reader_lift (read_u64_le header 0);
  let len_at off := Z.to_nat (Z.land (Z.shiftr fixed (8 * Z.of_nat off)) 65535) in
  let fl := Z.land (Z.shiftr fixed (8 * Z.of_nat FLAGS_OFF)) 255 in
  modify (with_gen_col_pos (start + GEN_COL_LANE_OFF));;
  gc ← gets gen_col_pos;
  modify (with_orig_line_exc_pos (gc + len_at GEN_COL_LEN_OFF));;
  ol ← gets orig_line_exc_pos;
  modify (with_orig_col_exc_pos (ol + len_at ORIG_LINE_LEN_OFF));;
  oc ← gets orig_col_exc_pos;
  m1 ← reader_lift (read_u64_le header GEN_LINE_MASK_OFF);
  m2 ← reader_lift (read_u64_le header ORIG_LINE_EQ_MASK_OFF);
  m3 ← reader_lift (read_u64_le header ORIG_COL_EQ_MASK_OFF);
  modify (with_masks m1 m2 m3);;
  modify (with_flags fl);;
  modify (with_gen_line_exc_next_idx 255);;
  (if (fl =? 0)%Z then mret tt else parse_flagged_sections (oc + len_at ORIG_COL_LEN_OFF));;
  modify (with_count (Nat.min (Z.to_nat (Z.land (Z.shiftr fixed (8 * Z.of_nat COUNT_OFF)) 255)) SYNC_INTERVAL)).

Definition done_ (r : WindowReader) : bool := count r <=? delta_idx r + 1.

(** [read_varint(bytes, &mut self.lane)?] *)
Definition read_lane (get : WindowReader -> nat) (set : nat -> WindowReader -> WindowReader) : Reader Z :=
  bs ← gets reader_bytes;
  pos ← gets get;
  '(v, pos) ← reader_lift (read_varint bs pos);
  modify (set pos);;
  mret v.

(** The exception of a line, if the next difference has one. *)
Definition gen_line_exception (idx : nat) (d_gen_line d_orig_line : Z) : Reader (Z * Z) :=
  bs ← gets reader_bytes;
  nx ← gets gen_line_exc_next_idx;
  if (nx =? Z.of_nat idx)%Z then
    p ← gets gen_line_exc_pos;
    '(d_gen_line, p) ← reader_lift (read_varint bs (S p));
    m2 ← gets orig_line_eq_mask;
    modify (with_gen_line_exc_pos p);;
    nx ← reader_lift (bs !! p);
    modify (with_gen_line_exc_next_idx nx);;
    mret (d_gen_line, if test_bit m2 idx then d_gen_line else d_orig_line)
  else mret (d_gen_line, d_orig_line).

(** The differences of lines, and the source index. *)
Definition next_rare (idx : nat) (d_gen_line d_orig_line : Z) (state : State) : Reader (Z * Z * Z) :=
  '(d_gen_line, d_orig_line) ← gen_line_exception idx d_gen_line d_orig_line;
  fl ← gets flags;
  m4 ← gets src_idx_eq_mask;
  if negb (Z.land fl FLAG_HAS_SRC_IDX =? 0)%Z && negb (test_bit m4 idx) then
    d_src_idx ← read_lane src_idx_exc_pos with_src_idx_exc_pos;
    mret (d_gen_line, d_orig_line, wrap_i32 (source_index state + d_src_idx))
  else mret (d_gen_line, d_orig_line, source_index state).

Definition apply_next (state : State) : Reader State :=
  idx ← gets delta_idx;
  modify (with_delta_idx (S idx));;
  m1 ← gets gen_line_mask;
  let d_gen_line := if test_bit m1 idx then 1%Z else 0%Z in
  d_gen_col ← read_lane gen_col_pos with_gen_col_pos;
  m2 ← gets orig_line_eq_mask;
  d_orig_line ← (if test_bit m2 idx then mret d_gen_line else read_lane orig_line_exc_pos with_orig_line_exc_pos);
  m3 ← gets orig_col_eq_mask;
  d_orig_col ← (if test_bit m3 idx then mret d_gen_col else read_lane orig_col_exc_pos with_orig_col_exc_pos);
  fl ← gets flags;
  '(d_gen_line, d_orig_line, src) ←
    (if (fl =? 0)%Z then mret (d_gen_line, d_orig_line, source_index state)
     else next_rare idx d_gen_line d_orig_line state);
  mret {|
    generated_line := if (d_gen_line =? 0)%Z then generated_line state else wrap_i32 (generated_line state + d_gen_line);
    generated_column := if (d_gen_line =? 0)%Z then wrap_i32 (generated_column state + d_gen_col) else d_gen_col;
    source_index := src;
    original_line := wrap_i32 (original_line state + d_orig_line);
    original_column := wrap_i32 (original_column state + d_orig_col)
  |}.

(** Shifting a mask by 64 is trapped. *)
Definition next (state : State) (r : WindowReader) : option (State * WindowReader) :=
  if delta_idx r <? 64 then
    match apply_next state r with
    | (Some state, r) => Some (state, r)
    | (None, r) => Some (state, with_count 0 r)
    end
  else None.

(** ** The format *)

(** What leads from a mapping to the next. *)
Record Delta := {
  d_gen_line : Z;
  d_gen_col : Z;
  d_orig_line : Z;
  d_orig_col : Z;
  d_src_idx : Z
}.

Definition delta_of (s t : State) : Delta :=
  let d := (generated_line t - generated_line s)%Z in {|
  d_gen_line := d;
  d_gen_col := if (d =? 0)%Z then (generated_column t - generated_column s)%Z else generated_column t;
  d_orig_line := original_line t - original_line s;
  d_orig_col := original_column t - original_column s;
  d_src_idx := source_index t - source_index s
|}.

Definition state_ok (s : State) : Prop :=
  is_i32 (generated_line s) /\ is_i32 (generated_column s) /\ is_i32 (source_index s) /\
  is_i32 (original_line s) /\ is_i32 (original_column s).
Definition delta_ok (d : Delta) : Prop :=
  is_i32 (d_gen_line d) /\ is_i32 (d_gen_col d) /\ is_i32 (d_orig_line d) /\ is_i32 (d_orig_col d) /\ is_i32 (d_src_idx d).

(** The differences along a list of mappings, and that none of them overflows. *)
Fixpoint deltas (s : State) (ms : list State) : list Delta :=
  match ms with [] => [] | t :: ms => delta_of s t :: deltas t ms end.

(** Groups of seven bits, the lowest first. *)
Fixpoint groups (fuel : nat) (v : Z) : bytes :=
  match fuel with
  | O => []
  | S fuel => if (v / 128 =? 0)%Z then [v mod 128]%Z else (v mod 128 + 128)%Z :: groups fuel (v / 128)
  end.
Definition zigzag (z : Z) : Z := (if 0 <=? z then 2 * z else - 2 * z - 1)%Z.
Definition varint (z : Z) : bytes := groups MAX_VARINT_LEN (zigzag z).

(** A bit for each difference, the first lowest. *)
Fixpoint mask (p : Delta -> bool) (ds : list Delta) : Z :=
  match ds with [] => 0%Z | d :: ds => ((if p d then 1 else 0) + 2 * mask p ds)%Z end.

Definition new_line (d : Delta) : bool := (1 <=? d_gen_line d)%Z.
Definition line_eq (d : Delta) : bool := (d_orig_line d =? d_gen_line d)%Z.
Definition col_eq (d : Delta) : bool := (d_orig_col d =? d_gen_col d)%Z.
Definition rare_line (d : Delta) : bool := ((1 <? d_gen_line d) || (d_gen_line d <? 0))%Z.
Definition same_src (d : Delta) : bool := (d_src_idx d =? 0)%Z.

Definition gen_col_lane (ds : list Delta) : bytes := ds ≫= (fun d => varint (d_gen_col d)).
Definition orig_line_lane (ds : list Delta) : bytes := ds ≫= (fun d => if line_eq d then [] else varint (d_orig_line d)).
Definition orig_col_lane (ds : list Delta) : bytes := ds ≫= (fun d => if col_eq d then [] else varint (d_orig_col d)).
Fixpoint gen_line_pairs (k : nat) (ds : list Delta) : bytes :=
  match ds with
  | [] => []
  | d :: ds => (if rare_line d then Z.of_nat k :: varint (d_gen_line d) else []) ++ gen_line_pairs (S k) ds
  end.
Definition src_idx_lane (ds : list Delta) : bytes := ds ≫= (fun d => if same_src d then [] else varint (d_src_idx d)).

Definition has_rare_line (ds : list Delta) : bool := existsb rare_line ds.
Definition has_src_idx (ds : list Delta) : bool := existsb (fun d => negb (same_src d)) ds.
Definition flags_of (ds : list Delta) : Z :=
  Z.lor (if has_rare_line ds then FLAG_HAS_GEN_LINE_EXCEPTIONS else 0) (if has_src_idx ds then FLAG_HAS_SRC_IDX else 0).

Definition header (ds : list Delta) : bytes :=
  [Z.of_nat (S (length ds)); flags_of ds] ++
  le_split 2 (Z.of_nat (length (gen_col_lane ds))) ++ le_split 2 (Z.of_nat (length (orig_line_lane ds))) ++
  le_split 2 (Z.of_nat (length (orig_col_lane ds))) ++
  le_split 8 (mask new_line ds) ++ le_split 8 (mask line_eq ds) ++ le_split 8 (mask col_eq ds).
Definition gen_line_section (ds : list Delta) : bytes := if has_rare_line ds then gen_line_pairs 0 ds ++ [255%Z] else [].
Definition src_idx_section (ds : list Delta) : bytes :=
  if has_src_idx ds then le_split 8 (mask same_src ds) ++ src_idx_lane ds else [].
Definition window (ds : list Delta) : bytes :=
  header ds ++ gen_col_lane ds ++ orig_line_lane ds ++ orig_col_lane ds ++ gen_line_section ds ++ src_idx_section ds.

(** ** What bytes hold *)
Definition holds (bs : bytes) (pos : nat) (l : bytes) : Prop := forall i x, l !! i = Some x -> bs !! (pos + i) = Some x.

Lemma holds_nil bs pos : holds bs pos [].
Proof. by intros i x. Qed.

Lemma holds_cons bs pos x l : holds bs pos (x :: l) <-> bs !! pos = Some x /\ holds bs (S pos) l.
Proof.
  split.
  - intros H. split; [rewrite <- (Nat.add_0_r pos); by apply H|]. intros i y Hi. specialize (H (S i) y Hi).
    by rewrite Nat.add_succ_r in H.
  - intros [Hx H] [|i] y; cbn; [intros [= <-]; by rewrite Nat.add_0_r|]. intros Hi. rewrite Nat.add_succ_r. by apply (H i).
Qed.

Lemma holds_app bs pos l1 l2 : holds bs pos (l1 ++ l2) <-> holds bs pos l1 /\ holds bs (pos + length l1) l2.
Proof.
  revert pos. induction l1 as [|x l1 IH]; intros pos; cbn [app length].
  - rewrite Nat.add_0_r. split; [intros H; by split; [apply holds_nil|]|by intros [_ H]].
  - rewrite !holds_cons, IH. rewrite Nat.add_succ_r. cbn [Nat.add]. tauto.
Qed.

Lemma holds_length bs pos l : holds bs pos l -> l <> [] -> pos + length l <= length bs.
Proof.
  intros H Hl. destruct (lookup_lt_is_Some_2 l (length l - 1)) as [x Hx]; [destruct l; cbn; [done|lia]|].
  apply H, lookup_lt_Some in Hx. destruct l; cbn in *; [done|lia].
Qed.

Lemma holds_take bs pos l : holds bs pos l -> take (length l) (drop pos bs) = l.
Proof.
  revert pos. induction l as [|x l IH]; intros pos; cbn [length take]; [done|]. rewrite holds_cons. intros [Hx H].
  rewrite (drop_S _ _ _ Hx). cbn. f_equal. by apply IH.
Qed.

Lemma holds_drop l pos r : r = drop pos l -> holds l pos r.
Proof. intros -> i x. by rewrite lookup_drop. Qed.

Lemma holds_weaken bs pos l r : holds bs pos l -> holds (bs ++ r) pos l.
Proof. intros H i x Hi. rewrite lookup_app_l; [by apply H|]. eapply lookup_lt_Some, H, Hi. Qed.

(** ** Varints, read *)
Lemma zigzag_encode_eq z : is_i32 z -> zigzag_encode z = zigzag z.
Proof.
  unfold is_i32, zigzag_encode, zigzag, wrap32, wrap_i32. intros Hz. rewrite Z.shiftl_mul_pow2, Z.shiftr_div_pow2 by lia.
  change (2 ^ 1)%Z with 2%Z. change (2 ^ 31)%Z with 2147483648%Z. destruct (Z.leb_spec 0 z) as [H|H].
  - rewrite (Z.div_small z) by lia. rewrite Z.lxor_0_r. Z.div_mod_to_equations. lia.
  - assert (z / 2147483648 = -1)%Z as -> by (Z.div_mod_to_equations; lia). rewrite Z.lxor_m1_r.
    unfold Z.lnot. Z.div_mod_to_equations. lia.
Qed.

Lemma zigzag_range z : is_i32 z -> (0 <= zigzag z < 4294967296)%Z.
Proof. unfold is_i32, zigzag. intros ?. destruct (Z.leb_spec 0 z); lia. Qed.

Lemma land_1 z : Z.land z 1 = (z mod 2)%Z.
Proof. change 1%Z with (Z.ones 1). by rewrite Z.land_ones. Qed.

Lemma zigzag_decode_eq z : zigzag_decode (zigzag z) = z.
Proof.
  unfold zigzag_decode, zigzag. rewrite land_1, Z.shiftr_div_pow2 by lia.
  change (2 ^ 1)%Z with 2%Z. destruct (Z.leb_spec 0 z) as [H|H].
  - rewrite (Z.mul_comm 2 z), Z.mod_mul, Z.div_mul by lia. apply Z.lxor_0_r.
  - assert ((-2 * z - 1) / 2 = - z - 1)%Z as -> by (Z.div_mod_to_equations; lia).
    assert ((-2 * z - 1) mod 2 = 1)%Z as -> by (Z.div_mod_to_equations; lia).
    change (-(1))%Z with (-1)%Z. rewrite Z.lxor_m1_r. unfold Z.lnot. lia.
Qed.

Lemma groups_cons fuel v :
  groups (S fuel) v = (if (v / 128 =? 0)%Z then v mod 128 else v mod 128 + 128)%Z :: (if (v / 128 =? 0)%Z then [] else groups fuel (v / 128)).
Proof. cbn [groups]. by destruct (_ =? 0)%Z. Qed.

Lemma group_byte v :
  let b := (if (v / 128 =? 0)%Z then v mod 128 else v mod 128 + 128)%Z in
  is_byte b /\ Z.land b 127 = (v mod 128)%Z /\ (Z.land b 128 =? 0)%Z = (v / 128 =? 0)%Z /\ (b <? 128)%Z = (v / 128 =? 0)%Z.
Proof.
  intros b. pose proof (Z.mod_pos_bound v 128 ltac:(lia)) as Hm.
  assert (is_byte b) as Hb by (unfold is_byte, b; destruct (_ =? 0)%Z; lia). split; [done|].
  rewrite land_128 by done. change 127%Z with (Z.ones 7). rewrite Z.land_ones by lia. change (2 ^ 7)%Z with 128%Z.
  unfold b. destruct (v / 128 =? 0)%Z.
  - rewrite (proj2 (Z.ltb_lt (v mod 128) 128)) by lia. by rewrite Z.mod_small.
  - rewrite (proj2 (Z.ltb_ge (v mod 128 + 128) 128)) by lia. split; [|done].
    rewrite <- Z.add_mod_idemp_r, Z.mod_same, Z.add_0_r by lia. by rewrite Z.mod_small.
Qed.

Lemma groups_bytes fuel v : Forall is_byte (groups fuel v).
Proof.
  revert v. induction fuel as [|fuel IH]; intros v; [constructor|]. rewrite groups_cons. constructor; [apply group_byte|].
  destruct (_ =? 0)%Z; [constructor|apply IH].
Qed.

Lemma groups_length fuel v : length (groups fuel v) <= fuel.
Proof.
  revert v. induction fuel as [|fuel IH]; intros v; [done|]. rewrite groups_cons. cbn [length].
  destruct (_ =? 0)%Z; cbn; [lia|]. specialize (IH (v / 128)%Z). lia.
Qed.

Lemma varint_length z : 1 <= length (varint z) <= 5.
Proof. unfold varint. split; [|apply groups_length]. unfold MAX_VARINT_LEN. rewrite groups_cons. cbn. lia. Qed.

Lemma varint_bytes z : Forall is_byte (varint z).
Proof. apply groups_bytes. Qed.

Lemma read_loop_groups fuel v bs pos shift acc :
  holds bs pos (groups fuel v) -> 0 < fuel -> (0 <= v < 128 ^ Z.of_nat fuel)%Z ->
  (0 <= shift)%Z -> (0 <= acc < 2 ^ shift)%Z -> (shift + 7 * Z.of_nat fuel <= 35)%Z -> (v * 2 ^ shift < 2 ^ 32)%Z ->
  varint_loop (S fuel) bs pos shift acc = Some ((acc + v * 2 ^ shift)%Z, pos + length (groups fuel v)).
Proof.
  revert v pos shift acc. induction fuel as [|fuel IH]; intros v pos shift acc Hh Hf Hv Hsh Hacc Hfit Hlt; [lia|].
  rewrite groups_cons in Hh |- *. destruct (group_byte v) as (_ & E1 & E2 & _). cbv zeta in E1, E2.
  set (b := (if (v / 128 =? 0)%Z then v mod 128 else v mod 128 + 128)%Z) in *. clearbody b.
  apply holds_cons in Hh as [Hb Hh]. remember (S fuel) as fuel' eqn:Ef. cbn [varint_loop].
  rewrite (proj2 (Z.ltb_ge 28 shift)) by lia. rewrite Hb. cbn [mbind option_bind]. rewrite E1, E2.
  pose proof (Z.mod_pos_bound v 128 ltac:(lia)) as Hm.
  assert (Hd : (v = 128 * (v / 128) + v mod 128)%Z) by (apply Z.div_mod; lia).
  assert (0 <= v / 128)%Z by (apply Z.div_pos; lia).
  assert (0 < 2 ^ shift)%Z by (apply Z.pow_pos_nonneg; lia).
  assert (wrap32 (Z.shiftl (v mod 128) shift) = Z.shiftl (v mod 128) shift) as ->.
  { unfold wrap32. rewrite Z.shiftl_mul_pow2 by lia. apply Z.mod_small. change 4294967296%Z with (2 ^ 32)%Z. nia. }
  rewrite lor_shiftl by lia.
  destruct (Z.eqb_spec (v / 128) 0) as [E|E].
  - assert (v mod 128 = v)%Z as -> by lia. cbn [length]. do 2 f_equal. lia.
  - assert (0 < fuel) as Hf'.
    { destruct fuel as [|fuel]; [|lia]. subst fuel'. cbn in Hv. rewrite Z.div_small in E by lia. done. }
    subst fuel'. rewrite (IH (v / 128)%Z); [| done | lia | | lia | | lia |].
    + rewrite Z.pow_add_r by lia. change (2 ^ 7)%Z with 128%Z. cbn [length].
      replace (acc + v mod 128 * 2 ^ shift + v / 128 * (2 ^ shift * 128))%Z with (acc + v * 2 ^ shift)%Z by nia.
      do 2 f_equal. lia.
    + split; [lia|]. apply Z.div_lt_upper_bound; [lia|]. rewrite <- Z.pow_succ_r by lia. rewrite <- Nat2Z.inj_succ. lia.
    + rewrite Z.pow_add_r by lia. change (2 ^ 7)%Z with 128%Z. nia.
    + rewrite Z.pow_add_r by lia. change (2 ^ 7)%Z with 128%Z. nia.
Qed.

Lemma read_varint_spec bs pos z :
  is_i32 z -> holds bs pos (varint z) -> read_varint bs pos = Some (z, pos + length (varint z)).
Proof.
  intros Hz Hh. unfold varint, MAX_VARINT_LEN in *. pose proof (zigzag_range z Hz) as Hr. set (v := zigzag z) in *.
  assert (zigzag_decode v = z) as Hdec by apply zigzag_decode_eq. clearbody v.
  rewrite groups_cons in Hh |- *. destruct (group_byte v) as (_ & E1 & _ & E3). cbv zeta in E1, E3.
  set (b := (if (v / 128 =? 0)%Z then v mod 128 else v mod 128 + 128)%Z) in *.
  apply holds_cons in Hh as [Hb Hh]. unfold read_varint. rewrite Hb. cbn [mbind option_bind]. rewrite E1, E3.
  assert (Hd : (v = 128 * (v / 128) + v mod 128)%Z) by (apply Z.div_mod; lia).
  pose proof (Z.mod_pos_bound v 128 ltac:(lia)) as Hm. assert (0 <= v / 128)%Z by (apply Z.div_pos; lia).
  unfold b. destruct (Z.eqb_spec (v / 128) 0) as [E|E].
  - assert (v mod 128 = v)%Z as -> by lia. rewrite Hdec. cbn [length]. do 2 f_equal. lia.
  - rewrite (read_loop_groups 4 (v / 128)); [|done|lia| |done|done|done|].
    + cbn [mbind option_bind length]. change (2 ^ 7)%Z with 128%Z.
      replace (v mod 128 + v / 128 * 128)%Z with v by lia. rewrite Hdec. do 2 f_equal. lia.
    + change (128 ^ Z.of_nat 4)%Z with 268435456%Z. lia.
    + change (2 ^ 7)%Z with 128%Z. change (2 ^ 32)%Z with 4294967296%Z. lia.
Qed.

(** ** Masks *)
Lemma test_bit_mask p ds i d : ds !! i = Some d -> test_bit (mask p ds) i = p d.
Proof.
  revert i. induction ds as [|d0 ds IH]; intros i Hi; [done|]. unfold test_bit in *. cbn [mask]. destruct i as [|i].
  - cbn in Hi. injection Hi as ->. rewrite Z.shiftr_0_r, land_1. rewrite Z.mul_comm, Z.mod_add by lia. by destruct (p d).
  - rewrite <- (IH i Hi). do 2 f_equal. rewrite !land_1, !Z.shiftr_div_pow2 by lia.
    rewrite Nat2Z.inj_succ, Z.pow_succ_r, <- Z.div_div by lia. do 2 f_equal.
    rewrite Z.mul_comm, Z.div_add by lia. by destruct (p d0).
Qed.

Lemma mask_range p ds : (0 <= mask p ds < 2 ^ Z.of_nat (length ds))%Z.
Proof.
  induction ds as [|d ds IH]; cbn [mask length]; [done|]. rewrite Nat2Z.inj_succ, Z.pow_succ_r by lia. destruct (p d); lia.
Qed.

Lemma mask_read p ds bs pos :
  length ds <= 64 -> holds bs pos (le_split 8 (mask p ds)) -> read_u64_le bs pos = Some (mask p ds).
Proof.
  intros Hl Hh. pose proof (holds_length _ _ _ Hh ltac:(done)) as Hlen. rewrite length_le_split in Hlen.
  unfold read_u64_le. rewrite (proj2 (Nat.leb_le _ _)) by done. f_equal. pose proof (holds_take _ _ _ Hh) as Ht.
  rewrite length_le_split in Ht. rewrite Ht, le_combine_split. apply Z.mod_small. pose proof (mask_range p ds) as Hm.
  assert (2 ^ Z.of_nat (length ds) <= 2 ^ 64)%Z by (apply Z.pow_le_mono_r; lia). change (256 ^ Z.of_nat 8)%Z with (2 ^ 64)%Z. lia.
Qed.

(** ** Reading a window *)

(** The exceptions from the difference [k] on, with their end. *)
Definition gen_line_rest (k : nat) (ds : list Delta) : bytes := gen_line_pairs k ds ++ [255%Z].

(** [r] is before the differences [ds] of a window that began with [all]. *)
Record reading (all : list Delta) (r : WindowReader) (k : nat) (ds : list Delta) : Prop := {
  reading_ds : ds = drop k all;
  reading_idx : delta_idx r = k;
  reading_count : count r = S (length all);
  reading_gen_col : holds (reader_bytes r) (gen_col_pos r) (gen_col_lane ds);
  reading_orig_line : holds (reader_bytes r) (orig_line_exc_pos r) (orig_line_lane ds);
  reading_orig_col : holds (reader_bytes r) (orig_col_exc_pos r) (orig_col_lane ds);
  reading_m1 : gen_line_mask r = mask new_line all;
  reading_m2 : orig_line_eq_mask r = mask line_eq all;
  reading_m3 : orig_col_eq_mask r = mask col_eq all;
  reading_flags : flags r = flags_of all;
  reading_gen_line : if has_rare_line all then
      holds (reader_bytes r) (gen_line_exc_pos r) (gen_line_rest k ds) /\
      Some (gen_line_exc_next_idx r) = head (gen_line_rest k ds)
    else gen_line_exc_next_idx r = 255%Z;
  reading_src_idx : if has_src_idx all then
      src_idx_eq_mask r = mask same_src all /\ holds (reader_bytes r) (src_idx_exc_pos r) (src_idx_lane ds)
    else True
}.

Definition apply_delta (s : State) (d : Delta) : State := {|
  generated_line := generated_line s + d_gen_line d;
  generated_column := if (d_gen_line d =? 0)%Z then (generated_column s + d_gen_col d)%Z else d_gen_col d;
  source_index := source_index s + d_src_idx d;
  original_line := original_line s + d_orig_line d;
  original_column := original_column s + d_orig_col d
|}.

Lemma apply_delta_of s t : apply_delta s (delta_of s t) = t.
Proof.
  destruct s, t. unfold apply_delta, delta_of. cbn. f_equal; try lia.
  destruct (Z.eqb_spec (generated_line1 - generated_line0) 0); lia.
Qed.

Lemma flags_gen_line ds : (Z.land (flags_of ds) FLAG_HAS_GEN_LINE_EXCEPTIONS =? 0)%Z = negb (has_rare_line ds).
Proof. unfold flags_of. by destruct (has_rare_line ds), (has_src_idx ds). Qed.
Lemma flags_src_idx ds : (Z.land (flags_of ds) FLAG_HAS_SRC_IDX =? 0)%Z = negb (has_src_idx ds).
Proof. unfold flags_of. by destruct (has_rare_line ds), (has_src_idx ds). Qed.
Lemma flags_zero ds : (flags_of ds =? 0)%Z = negb (has_rare_line ds) && negb (has_src_idx ds).
Proof. unfold flags_of. by destruct (has_rare_line ds), (has_src_idx ds). Qed.

Lemma not_rare ds d : has_rare_line ds = false -> d ∈ ds -> rare_line d = false.
Proof.
  unfold has_rare_line. intros H Hd. destruct (rare_line d) eqn:E; [|done]. exfalso. apply not_true_iff_false in H. apply H.
  apply existsb_exists. exists d. by rewrite <- list_elem_of_In.
Qed.
Lemma no_src ds d : has_src_idx ds = false -> d ∈ ds -> same_src d = true.
Proof.
  unfold has_src_idx. intros H Hd. destruct (same_src d) eqn:E; [done|]. exfalso. apply not_true_iff_false in H. apply H.
  apply existsb_exists. exists d. rewrite <- list_elem_of_In, E. done.
Qed.

Lemma pair_head k ds : length ds <= 64 -> exists x, head (gen_line_rest k ds) = Some x /\ (x = 255%Z \/ (Z.of_nat k <= x < Z.of_nat k + Z.of_nat (length ds))%Z).
Proof.
  unfold gen_line_rest. revert k. induction ds as [|d ds IH]; intros k Hl; cbn [gen_line_pairs app head]; [eexists; split; [done|by left]|].
  cbn [length] in *. destruct (rare_line d); cbn [app head]; [eexists; split; [done|]; right; lia|].
  destruct (IH (S k)) as (x & E & Hx); [lia|]. exists x. split; [exact E|]. destruct Hx; [by left|right; lia].
Qed.

Definition run_m {A} (m : Reader A) (r : WindowReader) (x : A) (r' : WindowReader) : Prop := m r = (Some x, r').

Lemma run_bind {A B} (m : Reader A) (k : A -> Reader B) r x r1 y r2 :
  run_m m r x r1 -> run_m (k x) r1 y r2 -> run_m (m ≫= k) r y r2.
Proof. unfold run_m, mbind, M_bind. by intros ->. Qed.
Lemma run_ret {A} (x : A) r : run_m (mret x) r x r.
Proof. done. Qed.
Lemma run_gets {A} (f : WindowReader -> A) r : run_m (gets f) r (f r) r.
Proof. done. Qed.
Lemma run_modify f r : run_m (modify f) r tt (f r).
Proof. done. Qed.
Lemma run_lift {A} (o : option A) x r : o = Some x -> run_m (reader_lift o) r x r.
Proof. by intros ->. Qed.

Lemma run_lane get set r z :
  is_i32 z -> holds (reader_bytes r) (get r) (varint z) ->
  run_m (read_lane get set) r z (set (get r + length (varint z)) r).
Proof.
  intros Hz Hh. unfold read_lane. eapply run_bind; [apply run_gets|]. eapply run_bind; [apply run_gets|].
  eapply run_bind; [apply run_lift, read_varint_spec; [exact Hz|exact Hh]|]. cbv beta iota.
  eapply run_bind; [apply run_modify|]. apply run_ret.
Qed.

(** The two sections that most windows lack. *)
Definition rare_ok (all : list Delta) (r : WindowReader) (k : nat) (ds : list Delta) : Prop :=
  (if has_rare_line all then
      holds (reader_bytes r) (gen_line_exc_pos r) (gen_line_rest k ds) /\
      Some (gen_line_exc_next_idx r) = head (gen_line_rest k ds)
    else gen_line_exc_next_idx r = 255%Z) /\
  (if has_src_idx all then
      src_idx_eq_mask r = mask same_src all /\ holds (reader_bytes r) (src_idx_exc_pos r) (src_idx_lane ds)
    else True).

Definition moved_rare (r r' : WindowReader) : Prop :=
  exists a b c, r' = with_src_idx_exc_pos c (with_gen_line_exc_next_idx b (with_gen_line_exc_pos a r)).

Lemma holds_head bs pos l x : holds bs pos l -> head l = Some x -> bs !! pos = Some x.
Proof. intros H Hl. rewrite <- (Nat.add_0_r pos). apply H. by destruct l. Qed.

Lemma gen_line_exception_spec all r k d ds g0 o0 :
  rare_ok all r k (d :: ds) -> d :: ds = drop k all -> length all <= 63 -> is_i32 (d_gen_line d) ->
  orig_line_eq_mask r = mask line_eq all ->
  (rare_line d = false -> g0 = d_gen_line d) -> (line_eq d = true -> o0 = g0) -> (line_eq d = false -> o0 = d_orig_line d) ->
  exists a b, let r' := with_gen_line_exc_next_idx b (with_gen_line_exc_pos a r) in
    run_m (gen_line_exception k g0 o0) r (d_gen_line d, d_orig_line d) r' /\
    (if has_rare_line all then
      holds (reader_bytes r') (gen_line_exc_pos r') (gen_line_rest (S k) ds) /\
      Some (gen_line_exc_next_idx r') = head (gen_line_rest (S k) ds)
    else gen_line_exc_next_idx r' = 255%Z).
Proof.
  intros [Hl _] Hds Hlen Hi Hm Hg0 Heq Hneq.
  assert (Hk : all !! k = Some d) by (by eapply lookup_of_drop).
  pose proof (lookup_lt_Some _ _ _ Hk) as Hklt.
  assert (Hdl : length (d :: ds) <= 64) by (rewrite Hds, length_drop; lia). cbn [length] in Hdl.
  assert (Hskip : gen_line_exc_next_idx r <> Z.of_nat k -> rare_line d = false ->
    run_m (gen_line_exception k g0 o0) r (d_gen_line d, d_orig_line d) r).
  { intros Hne Hr. unfold gen_line_exception. eapply run_bind; [apply run_gets|]. eapply run_bind; [apply run_gets|].
    rewrite (proj2 (Z.eqb_neq _ _)) by done. rewrite (Hg0 Hr) in *.
    assert (o0 = d_orig_line d) as ->; [|apply run_ret].
    destruct (line_eq d) eqn:E; [|by apply Hneq]. rewrite Heq by done. unfold line_eq in E. lia. }
  assert (Hsame : r = with_gen_line_exc_next_idx (gen_line_exc_next_idx r) (with_gen_line_exc_pos (gen_line_exc_pos r) r))
    by (by destruct r).
  unfold gen_line_rest in Hl. cbn [gen_line_pairs] in Hl.
  destruct (has_rare_line all) eqn:Eall.
  - destruct Hl as [Hh Hhd]. destruct (rare_line d) eqn:Er.
    + cbn [app] in Hh, Hhd. rewrite <- app_assoc in Hh. injection Hhd as Hnx. apply holds_cons in Hh as [_ Hh]. apply holds_app in Hh as [Hv Hh].
      destruct (pair_head (S k) ds) as (x & Hx & _); [lia|].
      exists (S (gen_line_exc_pos r) + length (varint (d_gen_line d))), x. cbv zeta. split.
      * unfold gen_line_exception. eapply run_bind; [apply run_gets|]. eapply run_bind; [apply run_gets|].
        rewrite Hnx, Z.eqb_refl. eapply run_bind; [apply run_gets|].
        eapply run_bind; [apply run_lift, read_varint_spec; [exact Hi|exact Hv]|]. cbv beta iota.
        eapply run_bind; [apply run_gets|]. eapply run_bind; [apply run_modify|].
        eapply run_bind; [apply run_lift; eapply holds_head; [exact Hh|exact Hx]|].
        eapply run_bind; [apply run_modify|]. rewrite Hm, (test_bit_mask _ _ _ _ Hk).
        enough ((if line_eq d then d_gen_line d else o0) = d_orig_line d) as -> by apply run_ret.
        destruct (line_eq d) eqn:E; [unfold line_eq in E; lia|by apply Hneq].
      * destruct r. cbn in *. split; [exact Hh|by rewrite Hx].
    + cbn [app] in Hh, Hhd. destruct (pair_head (S k) ds) as (x & Hx & Hx'); [lia|]. unfold gen_line_rest in Hx.
      rewrite Hx in Hhd. injection Hhd as Hhd. exists (gen_line_exc_pos r), (gen_line_exc_next_idx r). cbv zeta. rewrite <- Hsame. split.
      * apply Hskip; [|done]. rewrite Hhd. lia.
      * split; [exact Hh|]. by rewrite Hhd.
  - exists (gen_line_exc_pos r), (gen_line_exc_next_idx r). cbv zeta. rewrite <- Hsame. split; [|done].
    apply Hskip; [lia|]. eapply not_rare; [exact Eall|]. by eapply list_elem_of_lookup_2.
Qed.

Lemma next_rare_spec all r k d ds g0 o0 s :
  rare_ok all r k (d :: ds) -> d :: ds = drop k all -> length all <= 63 -> is_i32 (d_gen_line d) -> is_i32 (d_src_idx d) ->
  is_i32 (source_index s + d_src_idx d) ->
  orig_line_eq_mask r = mask line_eq all -> flags r = flags_of all ->
  (rare_line d = false -> g0 = d_gen_line d) -> (line_eq d = true -> o0 = g0) -> (line_eq d = false -> o0 = d_orig_line d) ->
  exists r', run_m (next_rare k g0 o0 s) r (d_gen_line d, d_orig_line d, (source_index s + d_src_idx d)%Z) r' /\
    moved_rare r r' /\ rare_ok all r' (S k) ds.
Proof.
  intros Hr Hds Hlen Hi His Hsum Hm Hf Hg0 Heq Hneq.
  assert (Hk : all !! k = Some d) by (by eapply lookup_of_drop).
  destruct (gen_line_exception_spec all r k d ds g0 o0 Hr Hds Hlen Hi Hm Hg0 Heq Hneq) as (a & b & Hrun & Hl). cbv zeta in Hrun, Hl.
  set (r1 := with_gen_line_exc_next_idx b (with_gen_line_exc_pos a r)) in *.
  assert (flags r1 = flags_of all /\ src_idx_eq_mask r1 = src_idx_eq_mask r /\ src_idx_exc_pos r1 = src_idx_exc_pos r /\
    reader_bytes r1 = reader_bytes r) as (Hf1 & Hm4 & Hp & Hb) by (rewrite <- Hf; unfold r1; by destruct r).
  destruct Hr as [_ Hs]. unfold src_idx_lane in Hs. rewrite bind_cons in Hs.
  destruct (has_src_idx all) eqn:Esrc.
  - destruct Hs as [Hmask Hh]. destruct (same_src d) eqn:Ed.
    + exists r1. split; [|split; [|split; [exact Hl|]]].
      * unfold next_rare. eapply run_bind; [exact Hrun|]. cbv beta iota. eapply run_bind; [apply run_gets|].
        eapply run_bind; [apply run_gets|]. rewrite Hf1, flags_src_idx, Esrc, Hm4, Hmask, (test_bit_mask _ _ _ _ Hk), Ed. cbn [negb andb].
        unfold same_src in Ed. assert (d_src_idx d = 0)%Z as -> by lia. rewrite Z.add_0_r. apply run_ret.
      * exists a, b, (src_idx_exc_pos r). unfold r1. by destruct r.
      * rewrite Esrc, Hm4, Hb, Hp. split; [done|exact Hh].
    + apply holds_app in Hh as [Hv Hh]. exists (with_src_idx_exc_pos (src_idx_exc_pos r1 + length (varint (d_src_idx d))) r1).
      split; [|split; [|split]].
      * unfold next_rare. eapply run_bind; [exact Hrun|]. cbv beta iota. eapply run_bind; [apply run_gets|].
        eapply run_bind; [apply run_gets|]. rewrite Hf1, flags_src_idx, Esrc, Hm4, Hmask, (test_bit_mask _ _ _ _ Hk), Ed. cbn [negb andb].
        eapply run_bind; [apply run_lane; [exact His|rewrite Hb, Hp; exact Hv]|]. rewrite wrap_i32_id by done. apply run_ret.
      * unfold moved_rare. eauto.
      * destruct r. exact Hl.
      * rewrite Esrc. destruct r. cbn in *. split; [exact Hmask|exact Hh].
  - exists r1. split; [|split; [|split; [exact Hl|by rewrite Esrc]]].
    + unfold next_rare. eapply run_bind; [exact Hrun|]. cbv beta iota. eapply run_bind; [apply run_gets|].
      eapply run_bind; [apply run_gets|]. rewrite Hf1, flags_src_idx, Esrc. cbn [negb andb].
      pose proof (no_src all d Esrc ltac:(by eapply list_elem_of_lookup_2)) as Ed. unfold same_src in Ed.
      assert (d_src_idx d = 0)%Z as -> by lia. rewrite Z.add_0_r. apply run_ret.
    + exists a, b, (src_idx_exc_pos r). unfold r1. by destruct r.
Qed.

Lemma moved_rare_fields r r' : moved_rare r r' ->
  reader_bytes r' = reader_bytes r /\ gen_col_pos r' = gen_col_pos r /\ orig_line_exc_pos r' = orig_line_exc_pos r /\
  orig_col_exc_pos r' = orig_col_exc_pos r /\ gen_line_mask r' = gen_line_mask r /\ orig_line_eq_mask r' = orig_line_eq_mask r /\
  orig_col_eq_mask r' = orig_col_eq_mask r /\ count r' = count r /\ flags r' = flags r /\ delta_idx r' = delta_idx r.
Proof. intros (a & b & c & ->). by destruct r. Qed.

(** A lane with a number only where the mask has no bit. *)
Definition lane_part (eq : bool) (x : Z) (get : WindowReader -> nat) (set : nat -> WindowReader -> WindowReader) : Reader Z :=
  if eq then mret x else read_lane get set.

Lemma lane_part_spec (eq : bool) x z get set r rest :
  is_i32 z -> (eq = true -> x = z) -> set (get r) r = r ->
  holds (reader_bytes r) (get r) ((if eq then [] else varint z) ++ rest) ->
  exists p, run_m (lane_part eq x get set) r z (set p r) /\ holds (reader_bytes r) p rest.
Proof.
  intros Hz Hx Hset Hh. unfold lane_part. destruct eq.
  - exists (get r). rewrite Hset, <- (Hx eq_refl). by split.
  - apply holds_app in Hh as [Hv Hh]. eexists. split; [by apply run_lane|done].
Qed.

Lemma rare_part_spec all r k d ds g0 o0 s :
  rare_ok all r k (d :: ds) -> d :: ds = drop k all -> length all <= 63 -> delta_ok d ->
  is_i32 (source_index s + d_src_idx d) -> orig_line_eq_mask r = mask line_eq all -> flags r = flags_of all ->
  (rare_line d = false -> g0 = d_gen_line d) -> o0 = (if line_eq d then g0 else d_orig_line d) ->
  exists r', run_m (if (flags r =? 0)%Z then mret (g0, o0, source_index s) else next_rare k g0 o0 s) r
      (d_gen_line d, d_orig_line d, (source_index s + d_src_idx d)%Z) r' /\
    moved_rare r r' /\ rare_ok all r' (S k) ds.
Proof.
  intros Hr Hds Hlen (Hd1 & _ & _ & _ & Hd5) Hsum Hm Hf Hg0 Ho0.
  destruct (flags r =? 0)%Z eqn:Ez; rewrite Hf, flags_zero in Ez.
  - apply andb_true_iff in Ez as [El%negb_true_iff Es%negb_true_iff].
    assert (Hk : d ∈ all) by (eapply list_elem_of_lookup_2, lookup_of_drop; by symmetry).
    pose proof (not_rare all d El Hk) as Hnr. pose proof (no_src all d Es Hk) as Hns. unfold same_src in Hns.
    exists r. split; [|split].
    + assert (d_src_idx d = 0)%Z as -> by lia. rewrite Z.add_0_r. specialize (Hg0 Hnr).
      assert (o0 = d_orig_line d) as ->; [|rewrite Hg0; apply run_ret]. rewrite Ho0, Hg0. unfold line_eq.
      destruct (Z.eqb_spec (d_orig_line d) (d_gen_line d)); lia.
    + exists (gen_line_exc_pos r), (gen_line_exc_next_idx r), (src_idx_exc_pos r). by destruct r.
    + unfold rare_ok in *. rewrite El, Es in *. exact Hr.
  - apply (next_rare_spec all r k d ds); [done..| |]; rewrite Ho0; by intros ->.
Qed.

Lemma apply_next_spec all r k d ds s :
  reading all r k (d :: ds) -> length all <= 63 -> delta_ok d -> state_ok (apply_delta s d) ->
  exists r', run_m (apply_next s) r (apply_delta s d) r' /\ reading all r' (S k) ds.
Proof.
  intros [Hds Hidx Hcount Hgc Hol Hoc Hm1 Hm2 Hm3 Hf Hl Hsrc] Hlen (Hd1 & Hd2 & Hd3 & Hd4 & Hd5) (Hs1 & Hs2 & Hs3 & Hs4 & Hs5).
  assert (Hk : all !! k = Some d) by (by eapply lookup_of_drop).
  assert (Hds' : ds = drop (S k) all) by (symmetry; by eapply drop_of_cons).
  unfold gen_col_lane in Hgc. rewrite bind_cons in Hgc. apply holds_app in Hgc as [Hgv Hgc].
  unfold orig_line_lane in Hol. rewrite bind_cons in Hol. unfold orig_col_lane in Hoc. rewrite bind_cons in Hoc.
  set (g0 := if new_line d then 1%Z else 0%Z).
  set (r1 := with_gen_col_pos (gen_col_pos r + length (varint (d_gen_col d))) (with_delta_idx (S k) r)).
  assert (Hb1 : reader_bytes r1 = reader_bytes r) by (unfold r1; by destruct r).
  set (o0 := if line_eq d then g0 else d_orig_line d).
  assert (exists p2, run_m (lane_part (line_eq d) g0 orig_line_exc_pos with_orig_line_exc_pos) r1 o0 (with_orig_line_exc_pos p2 r1) /\
    holds (reader_bytes r) p2 (orig_line_lane ds)) as (p2 & Hrun2 & Hol2).
  { unfold lane_part, o0. destruct (line_eq d).
    - exists (orig_line_exc_pos r1). split; [unfold r1; by destruct r|]. unfold r1. by destruct r.
    - apply holds_app in Hol as [Hv Hol]. eexists. split; [apply run_lane; [done|]|]; unfold r1; destruct r; done. }
  set (r2 := with_orig_line_exc_pos p2 r1) in *.
  assert (Hb2 : reader_bytes r2 = reader_bytes r) by (unfold r2, r1; by destruct r).
  destruct (lane_part_spec (col_eq d) (d_gen_col d) (d_orig_col d) orig_col_exc_pos with_orig_col_exc_pos r2 (orig_col_lane ds))
    as (p3 & Hrun3 & Hoc3).
  { done. } { unfold col_eq. lia. } { unfold r2, r1. by destruct r. } { unfold r2, r1. destruct r. exact Hoc. }
  set (r3 := with_orig_col_exc_pos p3 r2) in *.
  destruct (rare_part_spec all r3 k d ds g0 o0 s) as (r4 & Hrun4 & Hmv & Hr4); [|done|done|by splits|done| | | |done|].
  { unfold rare_ok, r3, r2, r1. destruct r. cbn in *. by split. }
  { rewrite <- Hm2. unfold r3, r2, r1. by destruct r. }
  { rewrite <- Hf. unfold r3, r2, r1. by destruct r. }
  { unfold g0, rare_line, new_line. intros H. destruct (Z.leb_spec 1 (d_gen_line d)); lia. }
  destruct (moved_rare_fields _ _ Hmv) as (E1 & E2 & E3 & E4 & E5 & E6 & E7 & E8 & E9 & E10).
  exists r4. split.
  - unfold apply_next. eapply run_bind; [apply run_gets|]. rewrite Hidx. eapply run_bind; [apply run_modify|].
    eapply run_bind; [apply run_gets|]. cbv zeta.
    replace (gen_line_mask (with_delta_idx (S k) r)) with (mask new_line all) by (rewrite <- Hm1; by destruct r).
    rewrite (test_bit_mask _ _ _ _ Hk). fold g0.
    eapply run_bind; [apply run_lane; [exact Hd2|]; destruct r; exact Hgv|].
    replace (gen_col_pos (with_delta_idx (S k) r)) with (gen_col_pos r) by (by destruct r). fold r1.
    eapply run_bind; [apply run_gets|]. replace (orig_line_eq_mask r1) with (mask line_eq all) by (rewrite <- Hm2; unfold r1; by destruct r).
    rewrite (test_bit_mask _ _ _ _ Hk). eapply run_bind; [exact Hrun2|]. eapply run_bind; [apply run_gets|].
    replace (orig_col_eq_mask r2) with (mask col_eq all) by (rewrite <- Hm3; unfold r2, r1; by destruct r).
    rewrite (test_bit_mask _ _ _ _ Hk). eapply run_bind; [exact Hrun3|]. fold r3. eapply run_bind; [apply run_gets|].
    eapply run_bind; [exact Hrun4|]. cbv beta iota. cbn [apply_delta generated_line generated_column source_index original_line original_column] in Hs1, Hs2, Hs3, Hs4, Hs5.
    unfold apply_delta. rewrite !(wrap_i32_id (original_line s + _)), !(wrap_i32_id (original_column s + _)), (wrap_i32_id (generated_line s + _)) by done.
    destruct (Z.eqb_spec (d_gen_line d) 0) as [E|E].
    + rewrite wrap_i32_id by done. rewrite E, Z.add_0_r. apply run_ret.
    + apply run_ret.
  - destruct Hr4 as [Hr4 Hr4']. split; [done| | | | | | | | | |exact Hr4|exact Hr4'].
    + rewrite E10. unfold r3, r2, r1. by destruct r.
    + rewrite E8, <- Hcount. unfold r3, r2, r1. by destruct r.
    + rewrite E1, E2. unfold r3, r2, r1. by destruct r.
    + rewrite E1, E3. unfold r3, r2, r1. by destruct r.
    + rewrite E1, E4. unfold r3. rewrite <- Hb2 in *. by destruct r2.
    + rewrite E5, <- Hm1. unfold r3, r2, r1. by destruct r.
    + rewrite E6, <- Hm2. unfold r3, r2, r1. by destruct r.
    + rewrite E7, <- Hm3. unfold r3, r2, r1. by destruct r.
    + rewrite E9, <- Hf. unfold r3, r2, r1. by destruct r.
Qed.

Lemma next_spec all r k d ds s :
  reading all r k (d :: ds) -> length all <= 63 -> delta_ok d -> state_ok (apply_delta s d) ->
  exists r', next s r = Some (apply_delta s d, r') /\ reading all r' (S k) ds.
Proof.
  intros Hr Hlen Hd Hs. destruct (apply_next_spec all r k d ds s Hr Hlen Hd Hs) as (r' & Hrun & Hr'). exists r'. split; [|done].
  unfold next. rewrite (reading_idx _ _ _ _ Hr).
  assert (k < length all) by (eapply lookup_lt_Some, lookup_of_drop; symmetry; apply (reading_ds _ _ _ _ Hr)).
  rewrite (proj2 (Nat.ltb_lt k 64)) by lia. by rewrite Hrun.
Qed.

(** ** The header *)
Lemma le_combine_slice l off n :
  Forall is_byte l -> off + n <= length l ->
  Z.land (Z.shiftr (le_combine l) (8 * Z.of_nat off)) (Z.ones (8 * Z.of_nat n)) = le_combine (take n (drop off l)).
Proof.
  intros Hl Hlen. rewrite Z.land_ones, Z.shiftr_div_pow2 by lia.
  assert (forall m : nat, 2 ^ (8 * Z.of_nat m) = 256 ^ Z.of_nat m)%Z as Hp by (intros m; rewrite Z.pow_mul_r by lia; done).
  rewrite !Hp. rewrite <- (take_drop off l) at 1. rewrite <- (take_drop n (drop off l)) at 1. rewrite !le_combine_app.
  rewrite !length_take_le by (rewrite ?length_drop; lia).
  pose proof (le_combine_range (take off l) (Forall_take _ _ _ Hl)) as H1. rewrite length_take_le in H1 by lia.
  pose proof (le_combine_range (take n (drop off l)) (Forall_take _ _ _ (Forall_drop _ _ _ Hl))) as H2.
  rewrite length_take_le in H2 by (rewrite length_drop; lia).
  rewrite (Z.mul_comm (256 ^ Z.of_nat off)), Z.div_add, (Z.div_small (le_combine (take off l))), Z.add_0_l by lia.
  rewrite (Z.mul_comm (256 ^ Z.of_nat n)), Z.mod_add by lia. by apply Z.mod_small.
Qed.

Lemma header_length ds : length (header ds) = GEN_COL_LANE_OFF.
Proof. unfold header. rewrite !length_app, !length_le_split. done. Qed.

Lemma flags_range ds : (0 <= flags_of ds < 16)%Z.
Proof. unfold flags_of. destruct (has_rare_line ds), (has_src_idx ds); by split. Qed.

Lemma header_bytes ds : length ds <= 63 -> Forall is_byte (header ds).
Proof.
  intros ?. unfold header. rewrite !Forall_app. splits; try apply le_split_bytes.
  pose proof (flags_range ds). repeat constructor; lia.
Qed.

Lemma lane_length (f : Delta -> bytes) (ds : list Delta) : (forall d, length (f d) <= 5) -> length (ds ≫= f) <= 5 * length ds.
Proof.
  intros Hf. induction ds as [|d ds IH]; [done|]. rewrite bind_cons, length_app. cbn [length]. specialize (Hf d). lia.
Qed.

Lemma lanes_length ds :
  length (gen_col_lane ds) <= 5 * length ds /\ length (orig_line_lane ds) <= 5 * length ds /\
  length (orig_col_lane ds) <= 5 * length ds /\ length (src_idx_lane ds) <= 5 * length ds.
Proof.
  splits; apply lane_length; intros d; try (destruct (_ : bool); [cbn; lia|]); apply varint_length.
Qed.

(** The first eight bytes of the header, as [parse] takes them apart. *)
Definition fixed_of (ds : list Delta) : Z := le_combine (take 8 (header ds)).

Lemma fixed_fields ds :
  length ds <= 63 ->
  Z.land (Z.shiftr (fixed_of ds) (8 * Z.of_nat COUNT_OFF)) 255 = Z.of_nat (S (length ds)) /\
  Z.land (Z.shiftr (fixed_of ds) (8 * Z.of_nat FLAGS_OFF)) 255 = flags_of ds /\
  Z.land (Z.shiftr (fixed_of ds) (8 * Z.of_nat GEN_COL_LEN_OFF)) 65535 = Z.of_nat (length (gen_col_lane ds)) /\
  Z.land (Z.shiftr (fixed_of ds) (8 * Z.of_nat ORIG_LINE_LEN_OFF)) 65535 = Z.of_nat (length (orig_line_lane ds)) /\
  Z.land (Z.shiftr (fixed_of ds) (8 * Z.of_nat ORIG_COL_LEN_OFF)) 65535 = Z.of_nat (length (orig_col_lane ds)).
Proof.
  intros Hl. pose proof (header_length ds) as Hh.
  assert (Hb : Forall is_byte (take 8 (header ds))) by by apply Forall_take, header_bytes.
  assert (Hlen : length (take 8 (header ds)) = 8) by (rewrite length_take, Hh; done).
  assert (H1 : forall off, off + 1 <= 8 ->
    Z.land (Z.shiftr (fixed_of ds) (8 * Z.of_nat off)) 255 = le_combine (take 1 (drop off (take 8 (header ds))))).
  { intros off ?. unfold fixed_of. by rewrite <- le_combine_slice by (done || lia). }
  assert (H2 : forall off, off + 2 <= 8 ->
    Z.land (Z.shiftr (fixed_of ds) (8 * Z.of_nat off)) 65535 = le_combine (take 2 (drop off (take 8 (header ds))))).
  { intros off ?. unfold fixed_of. by rewrite <- le_combine_slice by (done || lia). }
  pose proof (lanes_length ds) as (L1 & L2 & L3 & _).
  assert (Hc : forall n, n <= 315 -> le_combine (le_split 2 (Z.of_nat n)) = Z.of_nat n).
  { intros n ?. rewrite le_combine_split. apply Z.mod_small. change (256 ^ Z.of_nat 2)%Z with 65536%Z. lia. }
  rewrite !H1, !H2 by (unfold COUNT_OFF, FLAGS_OFF, GEN_COL_LEN_OFF, ORIG_LINE_LEN_OFF, ORIG_COL_LEN_OFF; lia).
  unfold header, COUNT_OFF, FLAGS_OFF, GEN_COL_LEN_OFF, ORIG_LINE_LEN_OFF, ORIG_COL_LEN_OFF.
  splits; [cbn; lia|cbn; lia|..]; (etrans; [|apply Hc; lia]); reflexivity.
Qed.

Lemma skip_pairs_spec room k ds bs pos :
  length ds <= room -> k + length ds <= 255 -> Forall delta_ok ds -> holds bs pos (gen_line_rest k ds) ->
  skip_pairs room bs pos = Some (pos + length (gen_line_pairs k ds)).
Proof.
  unfold gen_line_rest. revert room k pos. induction ds as [|d ds IH]; intros room k pos Hr Hk Hok Hh; cbn [gen_line_pairs app] in *.
  - apply holds_cons in Hh as [Hx _]. destruct room; cbn [skip_pairs]; rewrite Hx; cbn; f_equal; lia.
  - apply Forall_cons in Hok as [(Hd & _) Hok]. cbn [length] in Hr, Hk. destruct (rare_line d); cbn [app] in *.
    + rewrite <- app_assoc in Hh. apply holds_cons in Hh as [Hx Hh]. apply holds_app in Hh as [Hv Hh].
      destruct room as [|room]; [lia|]. cbn [skip_pairs]. rewrite Hx. cbn [mbind option_bind].
      rewrite (proj2 (Z.eqb_neq _ _)) by lia. rewrite (read_varint_spec _ _ _ Hd Hv). cbn [mbind option_bind].
      rewrite (IH room (S k)); [|lia|lia|done|done]. f_equal. cbn [length]. rewrite length_app. lia.
    + apply IH; [lia|lia|done|done].
Qed.

Definition moved_flagged (r r' : WindowReader) : Prop :=
  exists a b c m, r' = with_src_idx_exc_pos c (with_src_idx_eq_mask m (with_gen_line_exc_next_idx b (with_gen_line_exc_pos a r))).

Lemma flagged_gen_line ds r pos :
  length ds <= 63 -> Forall delta_ok ds -> flags r = flags_of ds -> gen_line_exc_next_idx r = 255%Z ->
  holds (reader_bytes r) pos (gen_line_section ds) ->
  exists a b, let r' := with_gen_line_exc_next_idx b (with_gen_line_exc_pos a r) in
    run_m (if (Z.land (flags r) FLAG_HAS_GEN_LINE_EXCEPTIONS =? 0)%Z then mret pos
         else
           modify (with_gen_line_exc_pos pos);;
           nx ← reader_lift (reader_bytes r !! pos);
           modify (with_gen_line_exc_next_idx nx);;
           pos ← reader_lift (skip_pairs (SYNC_INTERVAL - 1) (reader_bytes r) pos);
           mret (S pos)) r (pos + length (gen_line_section ds)) r' /\
    (if has_rare_line ds then
      holds (reader_bytes r') (gen_line_exc_pos r') (gen_line_rest 0 ds) /\
      Some (gen_line_exc_next_idx r') = head (gen_line_rest 0 ds)
    else gen_line_exc_next_idx r' = 255%Z).
Proof.
  intros Hlen Hok Hf Hnx Hh. unfold gen_line_section in *. rewrite Hf, flags_gen_line. destruct (has_rare_line ds); cbn [negb].
  - fold (gen_line_rest 0 ds) in *. destruct (pair_head 0 ds) as (x & Hx & _); [lia|]. exists pos, x. cbv zeta. split.
    + eapply run_bind; [apply run_modify|]. eapply run_bind; [apply run_lift; eapply holds_head; [exact Hh|exact Hx]|].
      eapply run_bind; [apply run_modify|].
      eapply run_bind; [apply run_lift, (skip_pairs_spec _ 0 ds); [change (SYNC_INTERVAL - 1) with 63; exact Hlen|lia|done|exact Hh]|].
      unfold gen_line_rest. rewrite length_app. cbn [length]. rewrite Nat.add_assoc, Nat.add_1_r. apply run_ret.
    + destruct r. cbn in *. split; [exact Hh|by rewrite Hx].
  - exists (gen_line_exc_pos r), (gen_line_exc_next_idx r). cbv zeta. cbn [length]. rewrite Nat.add_0_r.
    assert (with_gen_line_exc_next_idx (gen_line_exc_next_idx r) (with_gen_line_exc_pos (gen_line_exc_pos r) r) = r) as ->
      by (by destruct r). split; [apply run_ret|done].
Qed.

Lemma parse_flagged_spec ds r pos :
  length ds <= 63 -> Forall delta_ok ds -> flags r = flags_of ds -> gen_line_exc_next_idx r = 255%Z ->
  holds (reader_bytes r) pos (gen_line_section ds ++ src_idx_section ds) ->
  exists r', run_m (parse_flagged_sections pos) r tt r' /\ moved_flagged r r' /\ rare_ok ds r' 0 ds.
Proof.
  intros Hlen Hok Hf Hnx [Hg Hs]%holds_app. destruct (flagged_gen_line ds r pos) as (a & b & Hrun & Hl); [done..|]. cbv zeta in *.
  set (r1 := with_gen_line_exc_next_idx b (with_gen_line_exc_pos a r)) in *.
  unfold parse_flagged_sections, src_idx_section, rare_ok in *. destruct (has_src_idx ds) eqn:Es.
  - apply holds_app in Hs as [Hm Hs]. rewrite length_le_split in Hs.
    eexists. split; [|split; [unfold moved_flagged, r1; eauto|]].
    + eapply run_bind; [apply run_gets|]. eapply run_bind; [apply run_gets|]. eapply run_bind; [exact Hrun|]. cbv beta.
      rewrite Hf, flags_src_idx, Es. cbn [negb]. eapply run_bind; [apply run_lift, (mask_read same_src ds); [lia|exact Hm]|].
      eapply run_bind; [apply run_modify|]. apply run_modify.
    + unfold r1 in *. destruct r. cbn in *. split; [exact Hl|]. by split.
  - exists r1. split; [|split].
    + eapply run_bind; [apply run_gets|]. eapply run_bind; [apply run_gets|]. eapply run_bind; [exact Hrun|]. cbv beta.
      rewrite Hf, flags_src_idx, Es. apply run_ret.
    + exists a, b, (src_idx_exc_pos r), (src_idx_eq_mask r). unfold r1. by destruct r.
    + by split.
Qed.

Lemma holds_slice bs pos l off n : holds bs pos l -> take n (drop off l) = take n (drop off (take (length l) (drop pos bs))).
Proof. intros H. by rewrite (holds_take _ _ _ H). Qed.

Lemma read_header ds off p :
  length ds <= 63 ->
  (exists l r, header ds = l ++ le_split 8 (mask p ds) ++ r /\ length l = off) ->
  read_u64_le (header ds) off = Some (mask p ds).
Proof.
  intros Hl (l & r & -> & <-). apply mask_read; [lia|]. intros i x Hx. rewrite lookup_app_r by lia.
  rewrite Nat.add_comm, Nat.add_sub. by apply lookup_app_l_Some.
Qed.

Lemma header_masks ds : length ds <= 63 ->
  read_u64_le (header ds) GEN_LINE_MASK_OFF = Some (mask new_line ds) /\
  read_u64_le (header ds) ORIG_LINE_EQ_MASK_OFF = Some (mask line_eq ds) /\
  read_u64_le (header ds) ORIG_COL_EQ_MASK_OFF = Some (mask col_eq ds).
Proof.
  intros Hl. set (l := [Z.of_nat (S (length ds)); flags_of ds] ++
    le_split 2 (Z.of_nat (length (gen_col_lane ds))) ++ le_split 2 (Z.of_nat (length (orig_line_lane ds))) ++
    le_split 2 (Z.of_nat (length (orig_col_lane ds)))).
  assert (header ds = l ++ le_split 8 (mask new_line ds) ++ le_split 8 (mask line_eq ds) ++ le_split 8 (mask col_eq ds)) as E
    by (unfold l; by rewrite <- !app_assoc).
  assert (length l = 8) as El by (unfold l; by rewrite !length_app, !length_le_split).
  clearbody l. splits; (apply read_header; [done|]).
  - by eexists l, _.
  - exists (l ++ le_split 8 (mask new_line ds)), (le_split 8 (mask col_eq ds)). rewrite length_app, length_le_split, El.
    by rewrite <- app_assoc.
  - exists (l ++ le_split 8 (mask new_line ds) ++ le_split 8 (mask line_eq ds)), []. rewrite !length_app, !length_le_split, El.
    by rewrite <- !app_assoc, app_nil_r.
Qed.

Lemma parse_spec ds start r :
  length ds <= 63 -> Forall delta_ok ds -> holds (reader_bytes r) start (window ds) ->
  exists r', run_m (parse start) r tt r' /\ reading ds r' 0 ds /\ reader_bytes r' = reader_bytes r.
Proof.
  intros Hlen Hok Hh. unfold window in Hh. pose proof (header_length ds) as Hhl.
  apply holds_app in Hh as [Hhd Hh]. rewrite Hhl in Hh. apply holds_app in Hh as [Hgc Hh]. apply holds_app in Hh as [Hol Hh].
  apply holds_app in Hh as [Hoc Hh].
  assert (Hroom : start + GEN_COL_LANE_OFF <= length (reader_bytes r)).
  { rewrite <- Hhl. apply holds_length; [done|]. intros E. by rewrite E in Hhl. }
  destruct (fixed_fields ds Hlen) as (F1 & F2 & F3 & F4 & F5).
  set (gc := start + GEN_COL_LANE_OFF) in *. set (ol := gc + length (gen_col_lane ds)) in *.
  set (oc := ol + length (orig_line_lane ds)) in *. set (rare := oc + length (orig_col_lane ds)) in *.
  set (r1 := with_gen_line_exc_next_idx 255 (with_flags (flags_of ds) (with_masks (mask new_line ds) (mask line_eq ds) (mask col_eq ds)
    (with_orig_col_exc_pos oc (with_orig_line_exc_pos ol (with_gen_col_pos gc (with_delta_idx 0 (with_count 0 r)))))))).
  assert (Hb1 : reader_bytes r1 = reader_bytes r) by (unfold r1; by destruct r).
  assert (exists r2, run_m (if (flags_of ds =? 0)%Z then mret tt else parse_flagged_sections rare) r1 tt r2 /\
    moved_flagged r1 r2 /\ rare_ok ds r2 0 ds) as (r2 & Hrun & Hmv & Hrare).
  { rewrite flags_zero. destruct (has_rare_line ds) eqn:El, (has_src_idx ds) eqn:Es; cbn [negb andb];
      try (apply parse_flagged_spec; [done|done|unfold r1; by destruct r|unfold r1; by destruct r|rewrite Hb1; exact Hh]).
    exists r1. split; [apply run_ret|]. split.
    - exists (gen_line_exc_pos r1), (gen_line_exc_next_idx r1), (src_idx_exc_pos r1), (src_idx_eq_mask r1). by destruct r1.
    - unfold rare_ok. rewrite El, Es. unfold r1. by destruct r. }
  assert (Htake : take GEN_COL_LANE_OFF (drop start (reader_bytes r)) = header ds).
  { rewrite <- Hhl. by apply holds_take. }
  assert (Hfix : read_u64_le (header ds) 0 = Some (fixed_of ds)) by (unfold read_u64_le; by rewrite Hhl).
  exists (with_count (S (length ds)) r2). split; [|split].
  - unfold parse. eapply run_bind; [apply run_gets|]. eapply run_bind; [apply run_modify|]. eapply run_bind; [apply run_modify|].
    fold gc. rewrite (proj2 (Nat.leb_le _ _)) by exact Hroom.
    eapply run_bind; [apply run_lift; reflexivity|]. rewrite Htake.
    eapply run_bind; [apply run_lift, Hfix|]. cbv zeta.
    rewrite F1, F2, F3, F4, F5, !Nat2Z.id.
    eapply run_bind; [apply run_modify|]. eapply run_bind; [apply run_gets|]. eapply run_bind; [apply run_modify|].
    eapply run_bind; [apply run_gets|]. eapply run_bind; [apply run_modify|]. eapply run_bind; [apply run_gets|].
    destruct (header_masks ds Hlen) as (M1 & M2 & M3).
    eapply run_bind; [apply run_lift, M1|]. eapply run_bind; [apply run_lift, M2|]. eapply run_bind; [apply run_lift, M3|].
    eapply run_bind; [apply run_modify|]. eapply run_bind; [apply run_modify|]. eapply run_bind; [apply run_modify|].
    eapply run_bind; [unfold r1 in Hrun; destruct r; exact Hrun|]. rewrite Nat.min_l by (unfold SYNC_INTERVAL; lia). apply run_modify.
  - destruct Hmv as (a & b & c & m & ->). destruct Hrare as [Hr1 Hr2]. unfold r1 in *. by destruct r.
  - destruct Hmv as (a & b & c & m & ->). unfold r1. by destruct r.
Qed.
