(* ===== verification/SourceMapBuilder.v ===== *)
(** * Building an internal source map (sourcemap/InternalSourceMap.rs, [Builder])

    The builder buffers 64 mappings in five columns and then writes them as a window,
    through raw pointers into the spare capacity of the stream: each lane has a range of
    its own, wide enough for the longest varints, and at the end the lanes are moved
    together.  The bytes that the allocation holds before are a parameter; the window that
    is committed is proved not to depend on them, and to be [window] of the differences.
    [finalize] writes the blob that SourceMap.v reads. *)

From S2P Require Import Prelude SourceMapWindow.

#[local] Open Scope nat_scope.

Definition HEADER_SIZE : nat := 32.
Definition STREAM_TAIL_PAD : nat := 1.

(** [SourceMapState] has the fields of a [State]. *)
Record SyncEntry := { entry_state : State; byte_offset : Z }.
Record ObjectBrace := { brace_generated : Z * Z; brace_original : Z * Z }.
#[export] Instance SyncEntry_eq : EqDecision SyncEntry.
Proof. solve_decision. Defined.
#[export] Instance ObjectBrace_eq : EqDecision ObjectBrace.
Proof. solve_decision. Defined.

(** The bytes of the two structs, which are [repr(C)] and without padding. *)
Definition i32_bytes (z : Z) : bytes := le_split 4 z.
Definition entry_bytes (e : SyncEntry) : bytes :=
  let s := entry_state e in
  i32_bytes (generated_line s) ++ i32_bytes (generated_column s) ++ i32_bytes (byte_offset e) ++
  i32_bytes (original_line s) ++ i32_bytes (original_column s) ++ i32_bytes (source_index s).
Definition brace_bytes (b : ObjectBrace) : bytes :=
  i32_bytes (fst (brace_generated b)) ++ i32_bytes (snd (brace_generated b)) ++
  i32_bytes (fst (brace_original b)) ++ i32_bytes (snd (brace_original b)).

(** The pending mappings, by columns of [SYNC_INTERVAL] numbers. *)
Record PendingLanes := {
  pending_generated_line : list Z;
  pending_generated_column : list Z;
  pending_source_index : list Z;
  pending_original_line : list Z;
  pending_original_column : list Z
}.

Record Builder := {
  builder_line : Z;
  pending_generated_line_delta : Z;
  builder_count : Z;
  pending_n : nat;
  sync_entries : list SyncEntry;
  win_stream : bytes;
  pending : PendingLanes;
  finalized : option bytes;
  object_braces : list ObjectBrace
}.

Definition PendingLanes_default : PendingLanes :=
  let z := replicate SYNC_INTERVAL 0%Z in Build_PendingLanes z z z z z.
Definition builder_init : Builder := Build_Builder 0 0 0 0 [] [] PendingLanes_default None [].

Definition append_line_separator (b : Builder) : option Builder :=
  d ← trap_i32 (pending_generated_line_delta b + 1);
  let '(Build_Builder l _ c n se ws p f ob) := b in
  Some (Build_Builder l d c n se ws p f ob).

Definition mark_object_brace (last : State) (b : Builder) : Builder :=
  let '(Build_Builder l d c n se ws p f ob) := b in
  Build_Builder l d c n se ws p f
    (ob ++ [{| brace_generated := (l, generated_column last); brace_original := (original_line last, original_column last) |}]).

(** ** A window, written *)

(** [buf.add(w)] advanced by what is written there. *)
Definition write_at_cursor (buf : bytes) (w : nat) (z : Z) : option (bytes * nat) :=
  '(buf, n) ← write_varint buf w z; Some (buf, w + n).

(** [*buf.add(at) |= bit] *)
Definition or_at (buf : bytes) (at_ : nat) (bit : Z) : option bytes :=
  x ← buf !! at_; write_at buf at_ (Z.lor x bit).

(** [ptr::copy(buf.add(src), buf.add(dst), len)] *)
Definition ptr_copy (buf : bytes) (src dst len : nat) : option bytes :=
  l ← slice_range buf src (src + len); copy_into buf dst l.

Record Cursors := {
  buf : bytes;
  w_flags : Z;
  w_gen_col : nat;
  w_orig_line : nat;
  w_orig_col : nat;
  w_gen_line : nat;
  w_src_idx : nat
}.

(** [lane[k + 1] - lane[k]] *)
Definition step_of (lane : list Z) (k : nat) : option Z :=
  x ← lane !! k; y ← lane !! (k + 1); trap_i32 (y - x).

(** One round of the loop over the differences. *)
Definition flush_delta (p : PendingLanes) (src_idx_base : nat) (k : nat) (c : Cursors) : option Cursors :=
  let '(Build_Cursors b fl wgc wol woc wgl wsi) := c in
  d_gen_line ← step_of (pending_generated_line p) k;
  d_gen_col ← (if (d_gen_line =? 0)%Z then step_of (pending_generated_column p) k
               else pending_generated_column p !! (k + 1));
  d_orig_line ← step_of (pending_original_line p) k;
  d_orig_col ← step_of (pending_original_column p) k;
  d_src_idx ← step_of (pending_source_index p) k;
  let bit := Z.shiftl 1 (Z.of_nat (Nat.land k 7)) in
  b ← (if (1 <=? d_gen_line)%Z then or_at b (GEN_LINE_MASK_OFF + Nat.shiftr k 3) bit else Some b);
  '(b, wgc) ← write_at_cursor b wgc d_gen_col;
  '(b, wol) ← (if (d_orig_line =? d_gen_line)%Z
               then b ← or_at b (ORIG_LINE_EQ_MASK_OFF + Nat.shiftr k 3) bit; Some (b, wol)
               else write_at_cursor b wol d_orig_line);
  '(b, woc) ← (if (d_orig_col =? d_gen_col)%Z
               then b ← or_at b (ORIG_COL_EQ_MASK_OFF + Nat.shiftr k 3) bit; Some (b, woc)
               else write_at_cursor b woc d_orig_col);
  '(b, fl, wgl) ← (if ((1 <? d_gen_line) || (d_gen_line <? 0))%Z
                   then
                     b ← write_at b wgl (Z.of_nat k mod 256)%Z;
                     '(b, wgl) ← write_at_cursor b (wgl + 1) d_gen_line;
                     Some (b, Z.lor fl FLAG_HAS_GEN_LINE_EXCEPTIONS, wgl)
                   else Some (b, fl, wgl));
  '(b, fl, wsi) ← (if (d_src_idx =? 0)%Z
                   then b ← or_at b (src_idx_base + Nat.shiftr k 3) bit; Some (b, fl, wsi)
                   else '(b, wsi) ← write_at_cursor b wsi d_src_idx; Some (b, Z.lor fl FLAG_HAS_SRC_IDX, wsi));
  Some (Build_Cursors b fl wgc wol woc wgl wsi).

(** [for k in k..k + rounds] *)
Fixpoint flush_loop (p : PendingLanes) (src_idx_base k rounds : nat) (c : Cursors) : option Cursors :=
  match rounds with
  | O => Some c
  | S rounds => c ← flush_delta p src_idx_base k c; flush_loop p src_idx_base (S k) rounds c
  end.

(** The live part of the columns. *)
Definition live_lanes (p : PendingLanes) (n : nat) : option PendingLanes :=
  gl ← slice_range (pending_generated_line p) 0 n;
  gc ← slice_range (pending_generated_column p) 0 n;
  si ← slice_range (pending_source_index p) 0 n;
  ol ← slice_range (pending_original_line p) 0 n;
  oc ← slice_range (pending_original_column p) 0 n;
  Some (Build_PendingLanes gl gc si ol oc).

Definition lanes_head (p : PendingLanes) : option State :=
  gl ← pending_generated_line p !! 0;
  gc ← pending_generated_column p !! 0;
  si ← pending_source_index p !! 0;
  ol ← pending_original_line p !! 0;
  oc ← pending_original_column p !! 0;
  Some (Build_State gl gc si ol oc).

(** A length below [u16::MAX], which is asserted, in native order. *)
Definition write_u16 (b : bytes) (at_ n : nat) : option bytes :=
  if (Z.of_nat n <=? 65535)%Z then copy_into b at_ (le_split 2 (Z.of_nat n)) else None.

(** The window in the spare bytes [b], and its length. *)
Definition write_window (p : PendingLanes) (n : nat) (b : bytes) : option (bytes * nat) :=
  let n_deltas := n - 1 in
  let gen_col_base := GEN_COL_LANE_OFF in
  let orig_line_base := gen_col_base + n_deltas * MAX_VARINT_LEN in
  let orig_col_base := orig_line_base + n_deltas * MAX_VARINT_LEN in
  let gen_line_base := orig_col_base + n_deltas * MAX_VARINT_LEN in
  let src_idx_base := gen_line_base + n_deltas * (1 + MAX_VARINT_LEN) + 1 in
  b ← copy_into b 0 (replicate GEN_COL_LANE_OFF 0%Z);
  b ← write_at b COUNT_OFF (Z.of_nat n);
  b ← copy_into b src_idx_base (replicate 8 0%Z);
  '(Build_Cursors b fl wgc wol woc wgl wsi) ←
    flush_loop p src_idx_base 0 n_deltas
      (Build_Cursors b 0 gen_col_base orig_line_base orig_col_base gen_line_base (src_idx_base + 8));
  '(b, wgl) ← (if (Z.land fl FLAG_HAS_GEN_LINE_EXCEPTIONS =? 0)%Z then Some (b, wgl)
               else b ← write_at b wgl 255%Z; Some (b, wgl + 1));
  b ← write_at b FLAGS_OFF fl;
  let gen_col_len := wgc - gen_col_base in
  let orig_line_len := wol - orig_line_base in
  let orig_col_len := woc - orig_col_base in
  let gen_line_len := wgl - gen_line_base in
  let src_idx_len := if (Z.land fl FLAG_HAS_SRC_IDX =? 0)%Z then 0 else wsi - src_idx_base in
  b ← write_u16 b GEN_COL_LEN_OFF gen_col_len;
  b ← write_u16 b ORIG_LINE_LEN_OFF orig_line_len;
  b ← write_u16 b ORIG_COL_LEN_OFF orig_col_len;
  let w := gen_col_base + gen_col_len in
  b ← ptr_copy b orig_line_base w orig_line_len;
  let w := w + orig_line_len in
  b ← ptr_copy b orig_col_base w orig_col_len;
  let w := w + orig_col_len in
  b ← ptr_copy b gen_line_base w gen_line_len;
  let w := w + gen_line_len in
  b ← ptr_copy b src_idx_base w src_idx_len;
  Some (b, w + src_idx_len).

(** The bytes that are reserved for a window. *)
Definition window_cap (n : nat) : nat :=
  let n_deltas := n - 1 in
  GEN_COL_LANE_OFF + n_deltas * MAX_VARINT_LEN + n_deltas * MAX_VARINT_LEN + n_deltas * MAX_VARINT_LEN +
  n_deltas * (1 + MAX_VARINT_LEN) + 1 + 8 + n_deltas * MAX_VARINT_LEN.

Section Builder.

(** What the bytes hold that [reserve_spare(additional)] makes room for after the bytes of
    a vector: nobody has written them. *)
Variable spare : bytes -> nat -> bytes.

Definition flush_window (b : Builder) : option Builder :=
  let '(Build_Builder l d c n se ws p f ob) := b in
  if n =? 0 then Some b
  else
    lv ← live_lanes p n;
    if (Z.of_nat (length ws) <=? u32_max)%Z then
      first ← lanes_head lv;
      let se := se ++ [{| entry_state := first; byte_offset := wrap32 (Z.of_nat (length ws)) |}] in
      '(buf, w) ← write_window lv n (spare ws (window_cap n));
      w ← slice_range buf 0 w;
      Some (Build_Builder l d c 0 se (ws ++ w) p f ob)
    else None.

(** The unchecked stores of a column. *)
Definition append_mapping (current : State) (b : Builder) : option Builder :=
  let '(Build_Builder l d c n se ws p f ob) := b in
  line ← trap_i32 (l + d);
  gl ← write_at (pending_generated_line p) n line;
  gc ← write_at (pending_generated_column p) n (generated_column current);
  si ← write_at (pending_source_index p) n (source_index current);
  ol ← write_at (pending_original_line p) n (original_line current);
  oc ← write_at (pending_original_column p) n (original_column current);
  if (c + 1 <=? u32_max)%Z then
    let b := Build_Builder line 0 (c + 1) (S n) se ws (Build_PendingLanes gl gc si ol oc) f ob in
    if S n =? SYNC_INTERVAL then flush_window b else Some b
  else None.

(** [u32::try_from(n).expect("int cast").to_ne_bytes()] *)
Definition u32_bytes (n : nat) : option bytes :=
  if (Z.of_nat n <=? u32_max)%Z then Some (le_split 4 (Z.of_nat n)) else None.

Definition finalize (b : Builder) : option Builder :=
  match finalized b with
  | Some _ => Some b
  | None =>
      '(Build_Builder l d c n se ws p f ob) ← flush_window b;
      let sync := se ≫= entry_bytes in
      stream_offset ← u32_bytes (HEADER_SIZE + length sync);
      let object_braces_offset := HEADER_SIZE + length sync + length ws in
      let braces := ob ≫= brace_bytes in
      let total := object_braces_offset + length braces + STREAM_TAIL_PAD in
      n_braces ← u32_bytes (length ob);
      n_sync ← u32_bytes (length se);
      blob ← copy_into (spare [] total) 0 (replicate 20 0%Z);
      blob ← copy_into blob 20 n_braces;
      blob ← copy_into blob 24 n_sync;
      blob ← copy_into blob 28 stream_offset;
      blob ← (if 0 <? length sync then copy_into blob HEADER_SIZE sync else Some blob);
      blob ← copy_into blob (HEADER_SIZE + length sync) ws;
      blob ← copy_into blob object_braces_offset braces;
      blob ← copy_into blob (total - STREAM_TAIL_PAD) (replicate STREAM_TAIL_PAD 0%Z);
      Some (Build_Builder l d c n [] [] p (Some blob) ob)
  end.

Definition finalize_take (b : Builder) : option (bytes * Builder) :=
  '(Build_Builder l d c n se ws p f ob) ← finalize b;
  out ← f;
  Some (out, Build_Builder l d c n se ws p None ob).

End Builder.

(** ** Buffers in regions

    A buffer that begins with regions of given widths, each beginning with known bytes. *)
Fixpoint laid (b : bytes) (lay : list (bytes * nat)) : Prop :=
  match lay with
  | [] => True
  | (l, room) :: lay => take (length l) b = l /\ length l <= room /\ room <= length b /\ laid (drop room b) lay
  end.

Fixpoint base (lay : list (bytes * nat)) (j : nat) : nat :=
  match lay, j with
  | (_, room) :: lay, S j => room + base lay j
  | _, _ => 0
  end.

Definition overwrite (b : bytes) (at_ : nat) (w : bytes) : bytes := take at_ b ++ w ++ drop (at_ + length w) b.

Lemma overwrite_length b at_ w : at_ + length w <= length b -> length (overwrite b at_ w) = length b.
Proof. intros ?. unfold overwrite. rewrite !length_app, length_take, length_drop. lia. Qed.

Lemma overwrite_nil b at_ : overwrite b at_ [] = b.
Proof. unfold overwrite. cbn [length app]. rewrite Nat.add_0_r. apply take_drop. Qed.

Lemma take_overwrite b at_ w n :
  at_ <= n -> at_ + length w <= length b -> take (Nat.max n (at_ + length w)) (overwrite b at_ w) = overwrite (take n b) at_ w.
Proof.
  intros Hn Hl. unfold overwrite. rewrite take_take, Nat.min_l by lia. rewrite take_app, length_take, (Nat.min_l at_) by lia.
  rewrite (take_ge (take at_ b)) by (rewrite length_take; lia). f_equal.
  rewrite take_app. rewrite (take_ge w) by lia. f_equal.
  destruct (decide (n <= at_ + length w)).
  - rewrite Nat.max_r by lia. rewrite (drop_ge (take n b)) by (rewrite length_take; lia).
    replace (at_ + length w - at_ - length w) with 0 by lia. apply take_0.
  - rewrite Nat.max_l by lia. rewrite skipn_firstn_comm. f_equal. lia.
Qed.

Lemma take_overwrite_before b at_ w n : n <= at_ -> at_ <= length b -> take n (overwrite b at_ w) = take n b.
Proof. intros Hn Hl. unfold overwrite. rewrite take_app_le by (rewrite length_take; lia). by rewrite take_take, Nat.min_l by lia. Qed.

Lemma drop_overwrite_after b at_ w n : at_ + length w <= n -> at_ + length w <= length b -> drop n (overwrite b at_ w) = drop n b.
Proof.
  intros Hn Hl. unfold overwrite. rewrite drop_app_ge by (rewrite length_take; lia). rewrite length_take, Nat.min_l by lia.
  rewrite drop_app_ge by lia. rewrite drop_drop. f_equal. lia.
Qed.

Lemma drop_overwrite b at_ w n : n <= at_ -> at_ <= length b -> drop n (overwrite b at_ w) = overwrite (drop n b) (at_ - n) w.
Proof.
  intros Hn Hl. unfold overwrite. rewrite drop_app_le by (rewrite length_take; lia). rewrite skipn_firstn_comm. do 2 f_equal.
  rewrite drop_drop. f_equal. lia.
Qed.

Lemma copy_into_overwrite b at_ w : at_ + length w <= length b -> copy_into b at_ w = Some (overwrite b at_ w).
Proof. apply copy_into_Some. Qed.

Lemma write_at_overwrite b i x : i < length b -> write_at b i x = Some (overwrite b i [x]).
Proof.
  intros Hi. rewrite write_at_Some by done. f_equal. unfold overwrite. cbn [length app]. rewrite Nat.add_1_r.
  by apply insert_take_drop.
Qed.

Lemma laid_room b lay j l room : laid b lay -> lay !! j = Some (l, room) -> base lay j + room <= length b /\ length l <= room.
Proof.
  revert b j. induction lay as [|[l0 r0] lay IH]; intros b j Hl Hj; [done|]. cbn [laid base] in *. destruct Hl as (_ & H0 & Hr & Hl).
  destruct j as [|j]; [by injection Hj as -> ->|]. cbn in Hj. destruct (IH _ _ Hl Hj) as [Hb ?]. rewrite length_drop in Hb. lia.
Qed.

Lemma laid_overwrite b lay j l room off w :
  laid b lay -> lay !! j = Some (l, room) -> off <= length l -> off + length w <= room ->
  laid (overwrite b (base lay j + off) w) (<[j := (overwrite l off w, room)]> lay).
Proof.
  revert b j. induction lay as [|[l0 r0] lay IH]; intros b j Hl Hj Ho Hw; [done|]. cbn [laid base] in *. destruct Hl as (H1 & H0 & Hr & Hl).
  destruct j as [|j].
  - injection Hj as -> ->. cbn [insert list_insert laid Nat.add]. assert (E : length (overwrite l off w) = Nat.max (length l) (off + length w)).
    { unfold overwrite. rewrite !length_app, length_take, length_drop. lia. }
    rewrite E, overwrite_length by lia. splits; [|lia|lia|].
    + rewrite take_overwrite by lia. by rewrite H1.
    + by rewrite drop_overwrite_after by lia.
  - cbn [lookup list_lookup] in Hj. cbn [insert list_insert laid]. destruct (laid_room _ _ _ _ _ Hl Hj) as [Hb ?].
    rewrite length_drop in Hb. rewrite overwrite_length by lia. splits; [|lia|lia|].
    + by rewrite take_overwrite_before by lia.
    + rewrite drop_overwrite by lia. replace (r0 + base lay j + off - r0) with (base lay j + off) by lia. by apply IH.
Qed.

(** Two neighbours as one region, if the first is full. *)
Lemma laid_join b l1 r1 l2 r2 lay :
  length l1 = r1 -> laid b ((l1, r1) :: (l2, r2) :: lay) <-> length l2 <= r2 /\ laid b ((l1 ++ l2, r1 + r2) :: lay).
Proof.
  intros H1. cbn [laid]. rewrite length_app, length_drop, drop_drop. rewrite <- (take_take_drop b (length l1)). rewrite H1.
  split.
  - intros (E1 & _ & Hr1 & E2 & Hl2 & Hr2 & Hl). rewrite E1, E2. splits; [done|done|lia|lia|done].
  - intros (Hl2 & E & _ & Hr & Hl). apply app_inj_1 in E as [E1 E2]; [|rewrite length_take; lia]. splits; try done; lia.
Qed.

Lemma laid_weaken b l k room lay : laid b ((l, room) :: lay) -> laid b ((take k l, room) :: lay).
Proof.
  cbn [laid]. intros (H & Hl & Hr & Hlay). rewrite length_take. splits; [|lia|done|done].
  rewrite <- H at 2. rewrite take_take. done.
Qed.

(** The writes, in the region [j]. *)
Lemma copy_into_laid b lay j l room off at_ w :
  laid b lay -> lay !! j = Some (l, room) -> at_ = base lay j + off -> off <= length l -> off + length w <= room ->
  exists b', copy_into b at_ w = Some b' /\ laid b' (<[j := (overwrite l off w, room)]> lay).
Proof.
  intros Hl Hj -> Ho Hw. destruct (laid_room _ _ _ _ _ Hl Hj) as [Hb ?]. eexists. split; [apply copy_into_overwrite; lia|].
  by apply laid_overwrite.
Qed.

Lemma overwrite_end l w : overwrite l (length l) w = l ++ w.
Proof. unfold overwrite. by rewrite take_ge, drop_ge, app_nil_r by lia. Qed.

Lemma write_at_laid b lay j l room at_ x :
  laid b lay -> lay !! j = Some (l, room) -> at_ = base lay j + length l -> length l + 1 <= room ->
  exists b', write_at b at_ x = Some b' /\ laid b' (<[j := (l ++ [x], room)]> lay).
Proof.
  intros Hl Hj -> Hw. destruct (laid_room _ _ _ _ _ Hl Hj) as [Hb ?].
  eexists. split; [apply write_at_overwrite; lia|]. rewrite <- overwrite_end. apply laid_overwrite; cbn [length]; (done || lia).
Qed.

Lemma overwrite_cons b at_ x w :
  at_ < length b -> overwrite (overwrite b at_ [x]) (S at_) w = overwrite b at_ (x :: w).
Proof.
  unfold overwrite. cbn [length]. revert b. induction at_ as [|at_ IH]; intros [|y b] Hl; cbn in Hl; try lia; [done|].
  specialize (IH b ltac:(lia)). cbn in *. by rewrite IH.
Qed.

Lemma write_loop_spec fuel v b at_ i :
  (0 <= v < 128 ^ Z.of_nat fuel)%Z -> 0 < fuel -> at_ + i + length (groups fuel v) <= length b ->
  write_loop fuel b at_ i v = Some (overwrite b (at_ + i) (groups fuel v), i + length (groups fuel v)).
Proof.
  revert v b i. induction fuel as [|fuel IH]; intros v b i Hv Hf Hl; [lia|]. rewrite groups_cons in Hl |- *. cbn [write_loop].
  change (Z.land v 127) with (Z.land v (Z.ones 7)). rewrite Z.land_ones, Z.shiftr_div_pow2 by lia. change (2 ^ 7)%Z with 128%Z.
  pose proof (Z.mod_pos_bound v 128 ltac:(lia)) as Hm. assert (0 <= v / 128)%Z by (apply Z.div_pos; lia).
  assert ((if (v / 128 =? 0)%Z then v mod 128 else Z.lor (v mod 128) 128) = (if (v / 128 =? 0)%Z then v mod 128 else v mod 128 + 128))%Z as ->.
  { destruct (_ =? 0)%Z; [done|]. by apply (lor_pow2 7). }
  cbn [length] in Hl. rewrite write_at_overwrite by lia. cbn [mbind option_bind]. destruct (Z.eqb_spec (v / 128) 0) as [E|E].
  - cbn [length]. by rewrite Nat.add_1_r.
  - assert (0 < fuel) by (destruct fuel; [cbn in Hv; rewrite Z.div_small in E by lia; done|lia]).
    rewrite IH; [| |done|].
    + cbn [length]. rewrite Nat.add_succ_r, overwrite_cons by lia. do 2 f_equal. lia.
    + split; [lia|]. apply Z.div_lt_upper_bound; [lia|]. rewrite <- Z.pow_succ_r by lia. rewrite <- Nat2Z.inj_succ. lia.
    + rewrite overwrite_length; cbn [length]; lia.
Qed.

Lemma write_at_cursor_laid b lay j l room w z :
  laid b lay -> lay !! j = Some (l, room) -> w = base lay j + length l -> is_i32 z -> length l + 5 <= room ->
  exists b', write_at_cursor b w z = Some (b', base lay j + length (l ++ varint z)) /\
    laid b' (<[j := (l ++ varint z, room)]> lay).
Proof.
  intros Hl Hj -> Hz Hw. destruct (laid_room _ _ _ _ _ Hl Hj) as [Hb ?]. pose proof (varint_length z) as Hv.
  pose proof (zigzag_range z Hz) as Hr.
  unfold write_at_cursor, write_varint. rewrite zigzag_encode_eq by done. unfold varint in *.
  rewrite write_loop_spec; [|change (128 ^ Z.of_nat MAX_VARINT_LEN)%Z with 34359738368%Z; lia|unfold MAX_VARINT_LEN; lia|lia].
  cbn [mbind option_bind]. rewrite Nat.add_0_r. cbn [Nat.add]. eexists. split; [do 2 f_equal; rewrite length_app; lia|].
  rewrite <- overwrite_end. apply laid_overwrite; (done || lia).
Qed.

(** A bit that joins a mask. *)
Lemma le_split_set_bit n k m :
  (0 <= m < 2 ^ Z.of_nat k)%Z -> k < 8 * n ->
  exists x, le_split n m !! Nat.shiftr k 3 = Some x /\
    overwrite (le_split n m) (Nat.shiftr k 3) [Z.lor x (Z.shiftl 1 (Z.of_nat (Nat.land k 7)))] = le_split n (m + 2 ^ Z.of_nat k).
Proof.
  revert k m. induction n as [|n IH]; intros k m Hm Hk; [lia|]. change 7 with (Nat.ones 3). rewrite Nat.land_ones, Nat.shiftr_div_pow2.
  change (2 ^ 3) with 8. cbn [le_split]. destruct (decide (k < 8)) as [H|H].
  - rewrite Nat.div_small, Nat.mod_small by done. exists (m mod 256)%Z. split; [done|]. unfold overwrite. cbn [take length app drop Nat.add].
    assert (2 ^ Z.of_nat k <= 2 ^ 7)%Z as Hp by (apply Z.pow_le_mono_r; lia). change (2 ^ 7)%Z with 128%Z in Hp.
    rewrite Z.shiftl_1_l, (Z.mod_small m) by lia. rewrite lor_pow2 by lia. rewrite Z.mod_small by lia.
    by rewrite !Z.div_small by lia.
  - assert (exists k', k = 1 * 8 + k') as [k' ->] by (exists (k - 8); lia).
    assert (2 ^ Z.of_nat (1 * 8 + k') = 256 * 2 ^ Z.of_nat k')%Z as Hp by (rewrite Nat2Z.inj_add, Z.pow_add_r by lia; done).
    rewrite Hp in *. assert (0 <= m / 256 < 2 ^ Z.of_nat k')%Z as Hm'.
    { split; [apply Z.div_pos; lia|apply Z.div_lt_upper_bound; lia]. }
    destruct (IH k' (m / 256)%Z Hm' ltac:(lia)) as (x & Hx & E). change 7 with (Nat.ones 3) in E.
    rewrite Nat.land_ones, Nat.shiftr_div_pow2 in E. rewrite Nat.shiftr_div_pow2 in Hx. change (2 ^ 3) with 8 in *.
    rewrite Nat.div_add_l by lia. rewrite (Nat.add_comm (1 * 8)), Nat.Div0.mod_add. exists x. split; [exact Hx|].
    unfold overwrite in *. cbn [Nat.add take app drop] in E |- *. rewrite E.
    rewrite (Z.mul_comm 256), Z.mod_add, Z.div_add by lia. done.
Qed.

Lemma mask_snoc p ds d : mask p (ds ++ [d]) = (mask p ds + (if p d then 2 ^ Z.of_nat (length ds) else 0))%Z.
Proof.
  induction ds as [|d0 ds IH]; cbn [app mask length]; [destruct (p d); lia|]. rewrite IH, Nat2Z.inj_succ, Z.pow_succ_r by lia.
  destruct (p d); lia.
Qed.

Lemma or_at_laid b lay j p ds d base_ :
  laid b lay -> lay !! j = Some (le_split 8 (mask p ds), 8) -> base_ = base lay j -> length ds < 64 -> p d = true ->
  exists b', or_at b (base_ + Nat.shiftr (length ds) 3) (Z.shiftl 1 (Z.of_nat (Nat.land (length ds) 7))) = Some b' /\
    laid b' (<[j := (le_split 8 (mask p (ds ++ [d])), 8)]> lay).
Proof.
  intros Hl Hj -> Hk Hp. destruct (laid_room _ _ _ _ _ Hl Hj) as [Hb _].
  destruct (le_split_set_bit 8 (length ds) (mask p ds)) as (x & Hx & E); [apply mask_range|lia|].
  assert (Hi : Nat.shiftr (length ds) 3 < 8) by (apply lookup_lt_Some in Hx; by rewrite length_le_split in Hx).
  pose proof (laid_overwrite _ _ _ _ _ (Nat.shiftr (length ds) 3) [Z.lor x (Z.shiftl 1 (Z.of_nat (Nat.land (length ds) 7)))] Hl Hj) as Hw.
  rewrite length_le_split in Hw. specialize (Hw ltac:(lia) ltac:(cbn [length]; lia)). rewrite E in Hw.
  eexists. rewrite mask_snoc, Hp. split; [|exact Hw]. unfold or_at. rewrite <- write_at_overwrite by lia.
  enough (b !! (base lay j + Nat.shiftr (length ds) 3) = Some x) as -> by done.
  clear -Hl Hj Hx. generalize dependent (le_split 8 (mask p ds)). intros ls Hj Hx. revert b j Hl Hj. induction lay as [|[l0 r0] lay IH]; intros b j Hl Hj; [done|]. cbn [laid base] in *.
  destruct Hl as (H1 & H0 & Hr & Hl). destruct j as [|j].
  - injection Hj as -> ->. rewrite <- H1 in Hx. apply lookup_take_Some in Hx as [Hx _]. exact Hx.
  - rewrite <- Nat.add_assoc, <- lookup_drop. by apply IH.
Qed.

Lemma opt_lane_laid b lay jm j p ds d l room mb w z :
  laid b lay -> lay !! jm = Some (le_split 8 (mask p ds), 8) -> mb = base lay jm ->
  lay !! j = Some (l, room) -> w = base lay j + length l -> is_i32 z -> length l + 5 <= room -> length ds < 64 ->
  exists b',
    (if p d then b ← or_at b (mb + Nat.shiftr (length ds) 3) (Z.shiftl 1 (Z.of_nat (Nat.land (length ds) 7))); Some (b, w)
     else write_at_cursor b w z) = Some (b', base lay j + length (l ++ (if p d then [] else varint z))) /\
    laid b' (<[jm := (le_split 8 (mask p (ds ++ [d])), 8)]> (<[j := (l ++ (if p d then [] else varint z), room)]> lay)).
Proof.
  intros Hl Hm Hmb Hj Hw Hz Hroom Hk. destruct (p d) eqn:Ep.
  - destruct (or_at_laid b lay jm p ds d mb) as (b' & Hb & Hl'); [done..|]. exists b'. rewrite Hb, app_nil_r. cbn [mbind option_bind].
    rewrite Hw, (list_insert_id lay) by done. by split.
  - destruct (write_at_cursor_laid b lay j l room w z) as (b' & Hb & Hl'); [done..|]. exists b'. rewrite Hb. split; [done|].
    rewrite mask_snoc, Ep, Z.add_0_r. destruct (decide (jm = j)) as [->|Hne].
    + assert (room = 8) as -> by congruence. assert (l = le_split 8 (mask p ds)) as -> by congruence. rewrite length_le_split in Hroom. lia.
    + by rewrite list_insert_id by (by rewrite list_lookup_insert_ne).
Qed.

Lemma rare_laid b lay j l room w (k : nat) z fl (rare : bool) :
  laid b lay -> lay !! j = Some (l, room) -> w = base lay j + length l -> is_i32 z -> length l + 6 <= room -> k < 64 ->
  let x := if rare then Z.of_nat k :: varint z else [] in
  exists b',
    (if rare then
       b ← write_at b w (Z.of_nat k mod 256)%Z;
       '(b, w) ← write_at_cursor b (w + 1) z;
       Some (b, Z.lor fl FLAG_HAS_GEN_LINE_EXCEPTIONS, w)
     else Some (b, fl, w)) =
      Some (b', Z.lor fl (if rare then FLAG_HAS_GEN_LINE_EXCEPTIONS else 0), base lay j + length (l ++ x)) /\
    laid b' (<[j := (l ++ x, room)]> lay).
Proof.
  intros Hl Hj Hw Hz Hroom Hk x. unfold x. clear x. destruct rare.
  - rewrite Z.mod_small by lia. destruct (write_at_laid b lay j l room w (Z.of_nat k)) as (b1 & -> & Hl1); [done|done|done|lia|].
    cbn [mbind option_bind]. assert (Hb : base (<[j := (l ++ [Z.of_nat k], room)]> lay) j = base lay j).
    { clear -Hj. revert j Hj. induction lay as [|[l0 r0] lay IH]; intros [|j] Hj; cbn in *; try done. f_equal. by apply IH. }
    destruct (write_at_cursor_laid b1 _ j (l ++ [Z.of_nat k]) room (w + 1) z Hl1) as (b2 & -> & Hl2).
    { apply list_lookup_insert_eq. by eapply lookup_lt_Some. } { rewrite Hb, length_app. cbn. lia. } { done. } { rewrite length_app. cbn. lia. }
    cbn [mbind option_bind]. exists b2. rewrite Hb, <- app_assoc. cbn [app]. split; [done|].
    by rewrite list_insert_insert_eq, <- app_assoc in Hl2.
  - exists b. rewrite Z.lor_0_r, app_nil_r, list_insert_id by done. by rewrite Hw.
Qed.

Lemma src_laid b lay jm j p ds d l room mb w z fl :
  laid b lay -> lay !! jm = Some (le_split 8 (mask p ds), 8) -> mb = base lay jm ->
  lay !! j = Some (l, room) -> w = base lay j + length l -> is_i32 z -> length l + 5 <= room -> length ds < 64 ->
  exists b',
    (if p d then b ← or_at b (mb + Nat.shiftr (length ds) 3) (Z.shiftl 1 (Z.of_nat (Nat.land (length ds) 7))); Some (b, fl, w)
     else '(b, w) ← write_at_cursor b w z; Some (b, Z.lor fl FLAG_HAS_SRC_IDX, w)) =
      Some (b', Z.lor fl (if p d then 0 else FLAG_HAS_SRC_IDX), base lay j + length (l ++ (if p d then [] else varint z))) /\
    laid b' (<[jm := (le_split 8 (mask p (ds ++ [d])), 8)]> (<[j := (l ++ (if p d then [] else varint z), room)]> lay)).
Proof.
  intros Hl Hm Hmb Hj Hw Hz Hroom Hk.
  destruct (opt_lane_laid b lay jm j p ds d l room mb w z) as (b' & E & Hl'); [done..|]. exists b'. split; [|done].
  destruct (p d).
  - destruct (or_at _ _ _); [|done]. cbn [mbind option_bind] in *. injection E as -> Ew. rewrite Z.lor_0_r. by rewrite <- Ew.
  - rewrite E. done.
Qed.

(** ** The regions of a window *)
Definition regions (nd : nat) (hd : bytes) (ds : list Delta) : list (bytes * nat) := [
  (hd, 8); (le_split 8 (mask new_line ds), 8); (le_split 8 (mask line_eq ds), 8); (le_split 8 (mask col_eq ds), 8);
  (gen_col_lane ds, nd * 5); (orig_line_lane ds, nd * 5); (orig_col_lane ds, nd * 5); (gen_line_pairs 0 ds, nd * 6 + 1);
  (le_split 8 (mask same_src ds), 8); (src_idx_lane ds, nd * 5)].

Lemma gen_line_pairs_snoc k ds d :
  gen_line_pairs k (ds ++ [d]) = gen_line_pairs k ds ++ (if rare_line d then Z.of_nat (k + length ds) :: varint (d_gen_line d) else []).
Proof.
  revert k. induction ds as [|d0 ds IH]; intros k; cbn [app gen_line_pairs length]; [by rewrite Nat.add_0_r, app_nil_r|].
  rewrite IH, <- app_assoc. do 3 f_equal. destruct (rare_line d); [|done]. do 2 f_equal. lia.
Qed.

Lemma gen_line_pairs_length k ds : length (gen_line_pairs k ds) <= 6 * length ds.
Proof.
  revert k. induction ds as [|d ds IH]; intros k; cbn [gen_line_pairs length]; [done|]. rewrite length_app. specialize (IH (S k)).
  pose proof (varint_length (d_gen_line d)). destruct (rare_line d); cbn [length]; lia.
Qed.

Lemma flags_of_snoc ds d :
  flags_of (ds ++ [d]) = Z.lor (Z.lor (flags_of ds) (if rare_line d then FLAG_HAS_GEN_LINE_EXCEPTIONS else 0))
    (if same_src d then 0 else FLAG_HAS_SRC_IDX)%Z.
Proof.
  unfold flags_of, has_rare_line, has_src_idx. rewrite !existsb_app. cbn [existsb].
  destruct (existsb _ ds), (existsb _ ds), (rare_line d), (same_src d); done.
Qed.

(** The cursors after the differences [ds], of [nd]. *)
Record flushing (nd : nat) (n : Z) (ds : list Delta) (c : Cursors) : Prop := {
  flushing_laid : laid (buf c) (regions nd [n; 0; 0; 0; 0; 0; 0; 0]%Z ds);
  flushing_flags : w_flags c = flags_of ds;
  flushing_gen_col : w_gen_col c = 32 + length (gen_col_lane ds);
  flushing_orig_line : w_orig_line c = 32 + nd * 5 + length (orig_line_lane ds);
  flushing_orig_col : w_orig_col c = 32 + nd * 5 + nd * 5 + length (orig_col_lane ds);
  flushing_gen_line : w_gen_line c = 32 + nd * 5 + nd * 5 + nd * 5 + length (gen_line_pairs 0 ds);
  flushing_src_idx : w_src_idx c = 32 + nd * 5 + nd * 5 + nd * 5 + nd * 6 + 1 + 8 + length (src_idx_lane ds)
}.

Definition columns (ms : list State) : PendingLanes :=
  Build_PendingLanes (generated_line <$> ms) (generated_column <$> ms) (source_index <$> ms) (original_line <$> ms) (original_column <$> ms).

Lemma step_of_fmap (f : State -> Z) ms k s t :
  ms !! k = Some s -> ms !! (k + 1) = Some t -> is_i32 (f t - f s) -> step_of (f <$> ms) k = Some (f t - f s)%Z.
Proof. intros Hs Ht Hi. unfold step_of. rewrite !list_lookup_fmap, Hs, Ht. cbn. by apply trap_i32_Some. Qed.

Lemma flush_delta_spec nd n ds c ms s t :
  flushing nd n ds c -> length ds < nd -> nd <= 63 -> ms !! length ds = Some s -> ms !! (length ds + 1) = Some t ->
  delta_ok (delta_of s t) ->
  exists c', flush_delta (columns ms) (32 + nd * 5 + nd * 5 + nd * 5 + nd * 6 + 1) (length ds) c = Some c' /\
    flushing nd n (ds ++ [delta_of s t]) c'.
Proof.
  intros [Hl Hf H1 H2 H3 H4 H5] Hk Hnd Hs Ht Hd. destruct c as [b fl wgc wol woc wgl wsi].
  cbn [buf w_flags w_gen_col w_orig_line w_orig_col w_gen_line w_src_idx] in *. subst fl wgc wol woc wgl wsi.
  pose proof (lanes_length ds) as (L1 & L2 & L3 & L4). pose proof (gen_line_pairs_length 0 ds) as L5.
  set (d := delta_of s t) in *. pose proof Hd as (D1 & D2 & D3 & D4 & D5).
  assert (E2 : (if (d_gen_line d =? 0)%Z then step_of (generated_column <$> ms) (length ds) else (generated_column <$> ms) !! (length ds + 1)) =
    Some (d_gen_col d)).
  { cbn [d_gen_line d_gen_col delta_of d] in *. destruct (_ =? 0)%Z; [by apply step_of_fmap|]. by rewrite list_lookup_fmap, Ht. }
  unfold flush_delta. cbn [columns pending_generated_line pending_generated_column pending_source_index pending_original_line pending_original_column].
  rewrite (step_of_fmap generated_line ms _ s t) by done. cbn [mbind option_bind]. fold (d_gen_line d). change (generated_line t - generated_line s)%Z with (d_gen_line d).
  rewrite E2. cbn [mbind option_bind]. rewrite (step_of_fmap original_line ms _ s t) by done. cbn [mbind option_bind].
  rewrite (step_of_fmap original_column ms _ s t) by done. cbn [mbind option_bind].
  rewrite (step_of_fmap source_index ms _ s t) by done. cbn [mbind option_bind]. cbv zeta.
  change (original_line t - original_line s)%Z with (d_orig_line d). change (original_column t - original_column s)%Z with (d_orig_col d).
  change (source_index t - source_index s)%Z with (d_src_idx d). clearbody d. clear E2.
  assert (exists b1, (if (1 <=? d_gen_line d)%Z then or_at b (GEN_LINE_MASK_OFF + Nat.shiftr (length ds) 3)
      (Z.shiftl 1 (Z.of_nat (Nat.land (length ds) 7))) else Some b) = Some b1 /\
    laid b1 (<[1 := (le_split 8 (mask new_line (ds ++ [d])), 8)]> (regions nd [n; 0; 0; 0; 0; 0; 0; 0]%Z ds))) as (b1 & -> & Hl1).
  { change (1 <=? d_gen_line d)%Z with (new_line d). destruct (new_line d) eqn:E; [apply or_at_laid; (done || lia)|]. exists b. split; [done|].
    rewrite mask_snoc, E, Z.add_0_r. exact Hl. }
  cbn [mbind option_bind]. cbn [insert list_insert regions] in Hl1.
  destruct (write_at_cursor_laid b1 _ 4 (gen_col_lane ds) (nd * 5) (32 + length (gen_col_lane ds)) (d_gen_col d) Hl1) as (b2 & -> & Hl2); [done|done|done|lia|].
  cbn [mbind option_bind]. cbn [insert list_insert regions] in Hl2. clear Hl1 Hl.
  destruct (opt_lane_laid b2 _ 2 5 line_eq ds d (orig_line_lane ds) (nd * 5) ORIG_LINE_EQ_MASK_OFF (32 + nd * 5 + length (orig_line_lane ds)) (d_orig_line d) Hl2)
    as (b3 & E3 & Hl3); [done|done|done|cbn [base]; lia|done|lia|lia|].
  change (d_orig_line d =? d_gen_line d)%Z with (line_eq d). rewrite E3. cbn [mbind option_bind]. cbn [insert list_insert regions] in Hl3. clear Hl2 E3.
  destruct (opt_lane_laid b3 _ 3 6 col_eq ds d (orig_col_lane ds) (nd * 5) ORIG_COL_EQ_MASK_OFF (32 + nd * 5 + nd * 5 + length (orig_col_lane ds)) (d_orig_col d) Hl3)
    as (b4 & E4 & Hl4); [done|done|done|cbn [base]; lia|done|lia|lia|].
  change (d_orig_col d =? d_gen_col d)%Z with (col_eq d). rewrite E4. cbn [mbind option_bind]. cbn [insert list_insert regions] in Hl4. clear Hl3 E4.
  destruct (rare_laid b4 _ 7 (gen_line_pairs 0 ds) (nd * 6 + 1) (32 + nd * 5 + nd * 5 + nd * 5 + length (gen_line_pairs 0 ds)) (length ds) (d_gen_line d)
    (flags_of ds) (rare_line d) Hl4) as (b5 & E5 & Hl5); [done|cbn [base]; lia|done|lia|lia|].
  change ((1 <? d_gen_line d) || (d_gen_line d <? 0))%Z with (rare_line d). rewrite E5. cbn [mbind option_bind]. cbn [insert list_insert regions] in Hl5.
  clear Hl4 E5.
  destruct (src_laid b5 _ 8 9 same_src ds d (src_idx_lane ds) (nd * 5) (32 + nd * 5 + nd * 5 + nd * 5 + nd * 6 + 1)
    (32 + nd * 5 + nd * 5 + nd * 5 + nd * 6 + 1 + 8 + length (src_idx_lane ds)) (d_src_idx d)
    (Z.lor (flags_of ds) (if rare_line d then FLAG_HAS_GEN_LINE_EXCEPTIONS else 0)) Hl5)
    as (b6 & E6 & Hl6); [done|cbn [base]; lia|done|cbn [base]; lia|done|lia|lia|].
  change (d_src_idx d =? 0)%Z with (same_src d). rewrite E6. cbn [mbind option_bind]. cbn [insert list_insert regions] in Hl6. clear Hl5 E6.
  eexists. split; [reflexivity|]. split; cbn [buf w_flags w_gen_col w_orig_line w_orig_col w_gen_line w_src_idx base];
    unfold regions, gen_col_lane, orig_line_lane, orig_col_lane, src_idx_lane in *; rewrite ?bind_app, ?gen_line_pairs_snoc, ?flags_of_snoc, ?bind_cons, ?app_nil_r, ?Nat.add_0_l; try lia; try done.
Qed.

Lemma deltas_length s ms : length (deltas s ms) = length ms.
Proof. revert s. induction ms as [|t ms IH]; intros s; cbn; [done|]. by rewrite IH. Qed.

Lemma deltas_lookup m ms k :
  k < length ms -> exists s t, (m :: ms) !! k = Some s /\ (m :: ms) !! (k + 1) = Some t /\ deltas m ms !! k = Some (delta_of s t).
Proof.
  revert m k. induction ms as [|m' ms IH]; intros m k Hk; cbn [length] in Hk; [lia|]. destruct k as [|k].
  - exists m, m'. by cbn.
  - destruct (IH m' k) as (s & t & ? & ? & ?); [lia|]. exists s, t. by cbn.
Qed.

Lemma flush_loop_spec n m ms k rounds c :
  length ms <= 63 -> Forall delta_ok (deltas m ms) -> flushing (length ms) n (take k (deltas m ms)) c -> k + rounds = length ms ->
  let nd := length ms in
  exists c', flush_loop (columns (m :: ms)) (32 + nd * 5 + nd * 5 + nd * 5 + nd * 6 + 1) k rounds c = Some c' /\
    flushing nd n (deltas m ms) c'.
Proof.
  intros Hl Hok Hf Hk. cbv zeta. revert k c Hf Hk. induction rounds as [|rounds IH]; intros k c Hf Hk; cbn [flush_loop].
  - exists c. split; [done|]. rewrite take_ge in Hf; [done|]. rewrite deltas_length. lia.
  - destruct (deltas_lookup m ms k) as (s & t & Hs & Ht & Hd); [lia|].
    assert (Hlen : length (take k (deltas m ms)) = k) by (rewrite length_take, deltas_length; lia).
    destruct (flush_delta_spec (length ms) n (take k (deltas m ms)) c (m :: ms) s t) as (c' & E & Hf'); rewrite ?Hlen; try done; [lia| |].
    { eapply Forall_lookup_1; [exact Hok|exact Hd]. }
    rewrite Hlen in E. rewrite E. cbn [mbind option_bind]. apply IH; [|lia]. by rewrite (take_S_r _ _ _ Hd).
Qed.

(** ** The lanes, moved together

    The first [length acc] bytes are in place, the regions from [b0] on not yet. *)
Definition packed (b : bytes) (acc : bytes) (b0 : nat) (lay : list (bytes * nat)) : Prop :=
  take (length acc) b = acc /\ length acc <= b0 /\ b0 <= length b /\ laid (drop b0 b) lay.

Lemma packed_start b l room lay : laid b ((l, room) :: lay) -> packed b l room lay.
Proof. intros (H & Hl & Hr & Hlay). by split. Qed.

Lemma ptr_copy_packed b acc b0 l room lay n :
  packed b acc b0 ((l, room) :: lay) -> n <= length l ->
  exists b', ptr_copy b b0 (length acc) n = Some b' /\ packed b' (acc ++ take n l) (b0 + room) lay.
Proof.
  intros (Ha & Hle & Hb0 & H & Hl & Hr & Hlay) Hn. rewrite length_drop in Hr. unfold ptr_copy.
  rewrite slice_range_Some by lia. cbn [mbind option_bind]. replace (b0 + n - b0) with n by lia.
  assert (take n (drop b0 b) = take n l) as -> by (rewrite <- H, take_take; f_equal; lia).
  assert (Hlt : length (take n l) = n) by (rewrite length_take; lia).
  rewrite copy_into_overwrite by lia. eexists. split; [done|]. unfold packed. rewrite length_app, overwrite_length, Hlt by lia.
  splits; [|lia|lia|].
  - pose proof (take_overwrite b (length acc) (take n l) (length acc)) as Ht. rewrite Hlt, Nat.max_r in Ht by lia.
    rewrite Ht by lia. rewrite Ha. apply overwrite_end.
  - rewrite drop_overwrite_after by lia. rewrite <- drop_drop. exact Hlay.
Qed.

Lemma packed_take b acc b0 lay : packed b acc b0 lay -> slice_range b 0 (length acc) = Some acc.
Proof. intros (H & Hl & Hb & _). rewrite slice_range_Some by lia. by rewrite drop_0, Nat.sub_0_r, H. Qed.

Lemma terminator_laid b nd hd ds fl wgl :
  laid b (regions nd hd ds) -> length ds <= nd -> fl = flags_of ds ->
  wgl = 32 + nd * 5 + nd * 5 + nd * 5 + length (gen_line_pairs 0 ds) ->
  exists b', (if (Z.land fl FLAG_HAS_GEN_LINE_EXCEPTIONS =? 0)%Z then Some (b, wgl)
       else b ← write_at b wgl 255%Z; Some (b, wgl + 1)) =
    Some (b', 32 + nd * 5 + nd * 5 + nd * 5 + length (gen_line_section ds)) /\
    laid b' (<[7 := (gen_line_section ds, nd * 6 + 1)]> (regions nd hd ds)).
Proof.
  intros Hl Hnd -> ->. rewrite flags_gen_line. unfold gen_line_section. destruct (has_rare_line ds) eqn:E; cbn [negb].
  - pose proof (gen_line_pairs_length 0 ds) as L.
    destruct (write_at_laid b _ 7 (gen_line_pairs 0 ds) (nd * 6 + 1) (32 + nd * 5 + nd * 5 + nd * 5 + length (gen_line_pairs 0 ds)) 255%Z Hl)
      as (b' & -> & Hl'); [done|cbn [base regions]; lia|lia|].
    cbn [mbind option_bind]. exists b'. split; [|exact Hl']. do 2 f_equal. rewrite length_app. cbn. lia.
  - assert (Hn : gen_line_pairs 0 ds = []).
    { clear -E. unfold has_rare_line in E. generalize 0. induction ds as [|d ds IH]; intros k; cbn in *; [done|].
      apply orb_false_iff in E as [-> E]. cbn. by apply IH. }
    exists b. rewrite Hn. split; [done|]. unfold regions in *. rewrite Hn in Hl. exact Hl.
Qed.

Lemma window_init nd n b :
  length b = 32 + nd * 5 + nd * 5 + nd * 5 + nd * 6 + 1 + 8 + nd * 5 ->
  exists b1 b2 b3, copy_into b 0 (replicate GEN_COL_LANE_OFF 0%Z) = Some b1 /\ write_at b1 COUNT_OFF n = Some b2 /\
    copy_into b2 (32 + nd * 5 + nd * 5 + nd * 5 + nd * 6 + 1) (replicate 8 0%Z) = Some b3 /\
    laid b3 (regions nd [n; 0; 0; 0; 0; 0; 0; 0]%Z []).
Proof.
  intros Hl. set (rest := [([], nd * 5); ([], nd * 5); ([], nd * 5); ([], nd * 6 + 1); ([], 8); ([], nd * 5)] : list (bytes * nat)).
  assert (H0 : laid b (([], 32) :: rest)) by (cbn [laid rest length]; rewrite ?length_drop; splits; (done || lia)).
  destruct (copy_into_laid b _ 0 [] 32 0 0 (replicate GEN_COL_LANE_OFF 0%Z) H0) as (b1 & E1 & H1); [done|done|done|done|].
  exists b1. cbn [insert list_insert] in H1.
  pose proof (laid_overwrite b1 _ 0 _ 32 0 [n] H1 eq_refl ltac:(lia) ltac:(cbn; lia)) as H2.
  pose proof (copy_into_length _ _ _ _ E1) as Hl1. cbn [insert list_insert base Nat.add] in H2.
  destruct (copy_into_laid _ _ 5 [] 8 0 (32 + nd * 5 + nd * 5 + nd * 5 + nd * 6 + 1) (replicate 8 0%Z) H2) as (b3 & E3 & H3);
    [done|cbn [base rest]; lia|done|done|].
  eexists _, b3. split; [exact E1|]. split; [apply write_at_overwrite; unfold COUNT_OFF; lia|]. split; [exact E3|].
  cbn [insert list_insert rest] in H3. unfold regions. cbn [mask gen_line_pairs].
  change (overwrite (overwrite [] 0 (replicate GEN_COL_LANE_OFF 0%Z)) 0 [n]) with
    ([n; 0; 0; 0; 0; 0; 0; 0]%Z ++ replicate 8 0%Z ++ replicate 8 0%Z ++ replicate 8 0%Z) in H3.
  change (laid b3 (([n; 0; 0; 0; 0; 0; 0; 0]%Z ++ replicate 8 0%Z ++ replicate 8 0%Z ++ replicate 8 0%Z, 8 + (8 + (8 + 8))) ::
    ([], nd * 5) :: ([], nd * 5) :: ([], nd * 5) :: ([], nd * 6 + 1) :: (replicate 8 0%Z, 8) :: ([], nd * 5) :: [])) in H3.
  apply laid_join; [done|]. split; [done|]. apply laid_join; [done|]. split; [done|]. apply laid_join; [done|]. split; [done|]. exact H3.
Qed.

(** The rest of the header: the flags and the lengths of three lanes. *)
Lemma window_lengths b rest n fl l1 l2 l3 :
  laid b (([n; 0; 0; 0; 0; 0; 0; 0]%Z, 8) :: rest) -> l1 <= 315 -> l2 <= 315 -> l3 <= 315 ->
  exists b1 b2 b3 b4, write_at b FLAGS_OFF fl = Some b1 /\ write_u16 b1 GEN_COL_LEN_OFF l1 = Some b2 /\
    write_u16 b2 ORIG_LINE_LEN_OFF l2 = Some b3 /\ write_u16 b3 ORIG_COL_LEN_OFF l3 = Some b4 /\
    laid b4 (([n; fl] ++ le_split 2 (Z.of_nat l1) ++ le_split 2 (Z.of_nat l2) ++ le_split 2 (Z.of_nat l3), 8) :: rest).
Proof.
  intros H0 Hl1 Hl2 Hl3. destruct (laid_room _ _ 0 _ 8 H0 eq_refl) as [Hb _]. cbn [base] in Hb.
  assert (E1 : write_at b FLAGS_OFF fl = Some (overwrite b FLAGS_OFF [fl])) by (apply write_at_overwrite; unfold FLAGS_OFF; lia).
  pose proof (laid_overwrite b _ 0 _ 8 1 [fl] H0 eq_refl ltac:(cbn; lia) ltac:(cbn; lia)) as H1.
  cbn [insert list_insert base Nat.add] in H1.
  assert (Hw : forall b off l, l <= 315 -> write_u16 b off l = copy_into b off (le_split 2 (Z.of_nat l))).
  { intros b' off l ?. unfold write_u16. by rewrite (proj2 (Z.leb_le _ _)) by lia. }
  destruct (copy_into_laid _ _ 0 _ 8 2 2 (le_split 2 (Z.of_nat l1)) H1 eq_refl) as (b2 & E2 & H2); [done|cbn; lia|cbn; lia|].
  cbn [insert list_insert] in H2.
  destruct (copy_into_laid _ _ 0 _ 8 4 4 (le_split 2 (Z.of_nat l2)) H2 eq_refl) as (b3 & E3 & H3); [done|cbn; lia|cbn; lia|].
  cbn [insert list_insert] in H3.
  destruct (copy_into_laid _ _ 0 _ 8 6 6 (le_split 2 (Z.of_nat l3)) H3 eq_refl) as (b4 & E4 & H4); [done|cbn; lia|cbn; lia|].
  cbn [insert list_insert] in H4. eexists _, b2, b3, b4. rewrite !Hw by done. by splits.
Qed.

Lemma ptr_copy_whole b acc b0 l room lay src dst n :
  packed b acc b0 ((l, room) :: lay) -> src = b0 -> dst = length acc -> n = length l ->
  exists b', ptr_copy b src dst n = Some b' /\ packed b' (acc ++ l) (b0 + room) lay.
Proof.
  intros Hp -> -> ->. destruct (ptr_copy_packed b acc b0 l room lay (length l)) as (b' & E & Hp'); [done|done|].
  rewrite take_ge in Hp' by done. by exists b'.
Qed.

Lemma window_compact b nd ds :
  length ds <= nd ->
  laid b (([Z.of_nat (S (length ds)); flags_of ds] ++ le_split 2 (Z.of_nat (length (gen_col_lane ds))) ++
    le_split 2 (Z.of_nat (length (orig_line_lane ds))) ++ le_split 2 (Z.of_nat (length (orig_col_lane ds))), 8) ::
    <[6 := (gen_line_section ds, nd * 6 + 1)]> (tail (regions nd [] ds))) ->
  let w1 := 32 + length (gen_col_lane ds) in
  let w2 := w1 + length (orig_line_lane ds) in
  let w3 := w2 + length (orig_col_lane ds) in
  let w4 := w3 + length (gen_line_section ds) in
  exists b1 b2 b3 b4,
    ptr_copy b (32 + nd * 5) w1 (length (orig_line_lane ds)) = Some b1 /\
    ptr_copy b1 (32 + nd * 5 + nd * 5) w2 (length (orig_col_lane ds)) = Some b2 /\
    ptr_copy b2 (32 + nd * 5 + nd * 5 + nd * 5) w3 (length (gen_line_section ds)) = Some b3 /\
    ptr_copy b3 (32 + nd * 5 + nd * 5 + nd * 5 + nd * 6 + 1) w4 (length (src_idx_section ds)) = Some b4 /\
    slice_range b4 0 (length (window ds)) = Some (window ds).
Proof.
  intros Hnd Hl. cbv zeta. cbn [insert list_insert tail regions] in Hl.
  apply laid_join in Hl as [_ Hl]; [|done]. apply laid_join in Hl as [_ Hl]; [|done]. apply laid_join in Hl as [_ Hl]; [|done].
  apply laid_join in Hl as [_ Hl]; [|done]. rewrite <- !app_assoc in Hl.
  assert (Hh : forall r, ([Z.of_nat (S (length ds)); flags_of ds] ++ le_split 2 (Z.of_nat (length (gen_col_lane ds))) ++
    le_split 2 (Z.of_nat (length (orig_line_lane ds))) ++ le_split 2 (Z.of_nat (length (orig_col_lane ds))) ++
    le_split 8 (mask new_line ds) ++ le_split 8 (mask line_eq ds) ++ le_split 8 (mask col_eq ds) ++ r) = header ds ++ r).
  { intros r. unfold header. by rewrite <- !app_assoc. }
  rewrite Hh in Hl. clear Hh. apply packed_start in Hl. pose proof (header_length ds) as Hhl. change GEN_COL_LANE_OFF with 32 in Hhl.
  destruct (ptr_copy_whole _ _ _ _ _ _ (32 + nd * 5) (32 + length (gen_col_lane ds)) (length (orig_line_lane ds)) Hl) as (b1 & E1 & P1);
    [lia|rewrite length_app; lia|done|].
  destruct (ptr_copy_whole _ _ _ _ _ _ (32 + nd * 5 + nd * 5) (32 + length (gen_col_lane ds) + length (orig_line_lane ds)) (length (orig_col_lane ds)) P1)
    as (b2 & E2 & P2); [lia|rewrite !length_app; lia|done|].
  destruct (ptr_copy_whole _ _ _ _ _ _ (32 + nd * 5 + nd * 5 + nd * 5)
    (32 + length (gen_col_lane ds) + length (orig_line_lane ds) + length (orig_col_lane ds)) (length (gen_line_section ds)) P2)
    as (b3 & E3 & P3); [lia|rewrite !length_app; lia|done|].
  set (acc := (((header ds ++ gen_col_lane ds) ++ orig_line_lane ds) ++ orig_col_lane ds) ++ gen_line_section ds) in *.
  assert (Hacc : length acc = 32 + length (gen_col_lane ds) + length (orig_line_lane ds) + length (orig_col_lane ds) +
    length (gen_line_section ds)) by (unfold acc; rewrite !length_app; lia).
  assert (exists b4, ptr_copy b3 (32 + nd * 5 + nd * 5 + nd * 5 + nd * 6 + 1) (length acc) (length (src_idx_section ds)) = Some b4 /\
    slice_range b4 0 (length (acc ++ src_idx_section ds)) = Some (acc ++ src_idx_section ds)) as (b4 & E4 & P4).
  { destruct P3 as (P31 & P32 & P33 & P34). apply laid_join in P34 as [_ P34]; [|done]. pose proof (conj P31 (conj P32 (conj P33 P34))) as P3.
    unfold src_idx_section. destruct (has_src_idx ds).
    - destruct (ptr_copy_whole _ _ _ _ _ _ (32 + nd * 5 + nd * 5 + nd * 5 + nd * 6 + 1) (length acc)
        (length (le_split 8 (mask same_src ds) ++ src_idx_lane ds)) P3) as (b4 & E4 & P4); [lia|done|done|].
      exists b4. split; [exact E4|]. by eapply packed_take.
    - destruct (ptr_copy_packed _ _ _ _ _ _ 0 P3) as (b4 & E4 & P4); [lia|]. exists b4. rewrite take_0 in P4.
      replace (32 + nd * 5 + nd * 5 + nd * 5 + nd * 6 + 1) with (8 + (8 + (8 + (8 + nd * 5))) + nd * 5 + nd * 5 + (nd * 6 + 1)) by lia.
      split; [exact E4|]. by eapply packed_take. }
  exists b1, b2, b3, b4. rewrite Hacc in E4. splits; try done.
  replace (window ds) with (acc ++ src_idx_section ds); [exact P4|]. unfold acc, window. by rewrite <- !app_assoc.
Qed.

(** The window that the spare bytes [b] get, whatever they were. *)
Lemma write_window_spec m ms b :
  length ms <= 63 -> Forall delta_ok (deltas m ms) -> length b = window_cap (S (length ms)) ->
  exists b', write_window (columns (m :: ms)) (S (length ms)) b = Some (b', length (window (deltas m ms))) /\
    slice_range b' 0 (length (window (deltas m ms))) = Some (window (deltas m ms)).
Proof.
  intros Hms Hok Hb. set (nd := length ms) in *. unfold window_cap in Hb. cbn [Nat.sub] in Hb. rewrite Nat.sub_0_r in Hb.
  destruct (window_init nd (Z.of_nat (S nd)) b) as (b1 & b2 & b3 & E1 & E2 & E3 & H3).
  { change GEN_COL_LANE_OFF with 32 in Hb. change MAX_VARINT_LEN with 5 in Hb. change (1 + 5) with 6 in Hb. lia. }
  unfold write_window. cbn [Nat.sub]. rewrite Nat.sub_0_r. cbv zeta. change GEN_COL_LANE_OFF with 32 in *. change MAX_VARINT_LEN with 5 in *.
  change (1 + 5) with 6. rewrite E1. cbn [mbind option_bind]. rewrite E2. cbn [mbind option_bind]. rewrite E3. cbn [mbind option_bind].
  set (ds := deltas m ms) in *.
  destruct (flush_loop_spec (Z.of_nat (S nd)) m ms 0 nd (Build_Cursors b3 0 32 (32 + nd * 5) (32 + nd * 5 + nd * 5) (32 + nd * 5 + nd * 5 + nd * 5)
    (32 + nd * 5 + nd * 5 + nd * 5 + nd * 6 + 1 + 8))) as ([b4 fl wgc wol woc wgl wsi] & E4 & [H4 F1 F2 F3 F4 F5 F6]); [done|done| |done|].
  { rewrite take_0. split; cbn; try lia; done. }
  fold nd in E4. rewrite E4. cbn [mbind option_bind]. cbn [buf w_flags w_gen_col w_orig_line w_orig_col w_gen_line w_src_idx] in *.
  fold ds nd in H4, F1, F2, F3, F4, F5, F6. assert (Hnd : length ds = nd) by apply deltas_length.
  destruct (terminator_laid b4 nd _ ds fl wgl H4) as (b5 & E5 & H5); [lia|done|done|]. rewrite E5. cbn [mbind option_bind].
  pose proof (lanes_length ds) as (L1 & L2 & L3 & L4).
  cbn [insert list_insert regions] in H5.
  destruct (window_lengths b5 _ _ fl (length (gen_col_lane ds)) (length (orig_line_lane ds)) (length (orig_col_lane ds)) H5)
    as (c1 & c2 & c3 & c4 & G1 & G2 & G3 & G4 & H6); [lia..|].
  rewrite G1. cbn [mbind option_bind]. rewrite F2, F3, F4, F6. rewrite !(Nat.add_comm _ (length _)), !Nat.add_sub.
  rewrite G2. cbn [mbind option_bind]. rewrite G3. cbn [mbind option_bind]. rewrite G4. cbn [mbind option_bind].
  rewrite <- Hnd, F1 in H6 at 1. destruct (window_compact c4 nd ds) as (d1 & d2 & d3 & d4 & K1 & K2 & K3 & K4 & Hw); [lia|exact H6|].
  rewrite K1. cbn [mbind option_bind]. rewrite K2. cbn [mbind option_bind]. rewrite K3. cbn [mbind option_bind].
  assert ((if (Z.land fl FLAG_HAS_SRC_IDX =? 0)%Z then 0
    else length (src_idx_lane ds) + (32 + nd * 5 + nd * 5 + nd * 5 + nd * 6 + 1 + 8) - (32 + nd * 5 + nd * 5 + nd * 5 + nd * 6 + 1)) =
    length (src_idx_section ds)) as ->.
  { rewrite F1, flags_src_idx. unfold src_idx_section. destruct (has_src_idx ds); cbn [negb]; [|done].
    rewrite length_app, length_le_split. lia. }
  rewrite K4. cbn [mbind option_bind]. exists d4. split; [|exact Hw]. do 2 f_equal. unfold window. rewrite !length_app, header_length.
  change GEN_COL_LANE_OFF with 32. lia.
Qed.

(** ** What a builder has taken

    The windows that are in the stream, and the pending mappings. *)
Definition window_of (w : list State) : bytes :=
  match w with [] => [] | m :: ms => window (deltas m ms) end.
Definition stream_of (wins : list (list State)) : bytes := wins ≫= window_of.
Fixpoint syncs (off : nat) (wins : list (list State)) : list SyncEntry :=
  match wins with
  | [] => []
  | w :: wins =>
      {| entry_state := default State_default (head w); byte_offset := Z.of_nat off |} :: syncs (off + length (window_of w)) wins
  end.

Definition chunk_add (acc : list (list State) * list State) (m : State) : list (list State) * list State :=
  let cur := snd acc ++ [m] in
  if length cur =? SYNC_INTERVAL then (fst acc ++ [cur], []) else (fst acc, cur).
(** The mappings in full windows, and the rest. *)
Definition chunk (ms : list State) : list (list State) * list State := foldl chunk_add ([], []) ms.
Definition windows_of (ms : list State) : list (list State) :=
  let '(wins, cur) := chunk ms in match cur with [] => wins | _ => wins ++ [cur] end.

(** Coordinates are [i32]s that are not negative. *)
Definition nat_i32 (z : Z) : Prop := (0 <= z <= 2147483647)%Z.
Definition position_ok (s : State) : Prop :=
  nat_i32 (generated_line s) /\ nat_i32 (generated_column s) /\ nat_i32 (source_index s) /\
  nat_i32 (original_line s) /\ nat_i32 (original_column s).

Lemma delta_of_ok s t : position_ok s -> position_ok t -> delta_ok (delta_of s t).
Proof.
  unfold position_ok, nat_i32, delta_ok, delta_of, is_i32. cbn. intros ? ?. splits; try lia; destruct (_ =? 0)%Z; lia.
Qed.

Lemma deltas_ok m ms : position_ok m -> Forall position_ok ms -> Forall delta_ok (deltas m ms).
Proof.
  intros Hm Hms. revert m Hm. induction Hms as [|t ms Ht Hms IH]; intros m Hm; cbn; constructor; [by apply delta_of_ok|by apply IH].
Qed.

(** The columns hold [cur]. *)
Record lanes_hold (p : PendingLanes) (cur : list State) : Prop := {
  lanes_gl : length (pending_generated_line p) = 64 /\ take (length cur) (pending_generated_line p) = generated_line <$> cur;
  lanes_gc : length (pending_generated_column p) = 64 /\ take (length cur) (pending_generated_column p) = generated_column <$> cur;
  lanes_si : length (pending_source_index p) = 64 /\ take (length cur) (pending_source_index p) = source_index <$> cur;
  lanes_ol : length (pending_original_line p) = 64 /\ take (length cur) (pending_original_line p) = original_line <$> cur;
  lanes_oc : length (pending_original_column p) = 64 /\ take (length cur) (pending_original_column p) = original_column <$> cur
}.

Lemma live_spec p cur : lanes_hold p cur -> length cur <= 64 -> live_lanes p (length cur) = Some (columns cur).
Proof.
  intros [[L1 E1] [L2 E2] [L3 E3] [L4 E4] [L5 E5]] Hl. unfold live_lanes.
  rewrite !slice_range_Some by lia. cbn [mbind option_bind]. rewrite !drop_0, !Nat.sub_0_r, E1, E2, E3, E4, E5. done.
Qed.

Lemma lane_push {f : State -> Z} lane cur m :
  length lane = 64 /\ take (length cur) lane = f <$> cur -> length cur < 64 ->
  exists lane', write_at lane (length cur) (f m) = Some lane' /\ length lane' = 64 /\
    take (length (cur ++ [m])) lane' = f <$> (cur ++ [m]).
Proof.
  intros [Hl Ht] Hc. rewrite write_at_Some by lia. eexists. split; [done|]. rewrite length_insert. split; [done|].
  rewrite length_app. cbn [length]. rewrite Nat.add_1_r.
  rewrite (take_S_r _ _ (f m)) by (by rewrite list_lookup_insert_eq by lia). rewrite take_insert_ge by lia. by rewrite Ht, fmap_app.
Qed.

(** The room that a window can take. *)
Lemma window_length ds : length (window ds) <= 41 + 26 * length ds.
Proof.
  pose proof (lanes_length ds) as (L1 & L2 & L3 & L4). pose proof (gen_line_pairs_length 0 ds) as L5.
  unfold window, gen_line_section, src_idx_section. rewrite !length_app, header_length. change GEN_COL_LANE_OFF with 32.
  destruct (has_rare_line ds), (has_src_idx ds); rewrite ?length_app, ?length_le_split; cbn [length]; lia.
Qed.

(** What a printer asks of a builder. *)
Inductive PrintOp := Separator | Map (current : State) | Brace (last : State).

Definition at_line (line : Z) (s : State) : State := {|
  generated_line := line;
  generated_column := generated_column s;
  source_index := source_index s;
  original_line := original_line s;
  original_column := original_column s
|}.

(** What it is to have taken: the line of the last mapping, the separators after it, the
    mappings and the marks. *)
Record Taken := {
  taken_line : Z;
  taken_separators : Z;
  taken_maps : list State;
  taken_braces : list ObjectBrace
}.
Definition nothing_taken : Taken := Build_Taken 0 0 [] [].
Definition take_op (t : Taken) (op : PrintOp) : Taken :=
  let '(Build_Taken l d ms bs) := t in
  match op with
  | Separator => Build_Taken l (d + 1) ms bs
  | Map current => Build_Taken (l + d) 0 (ms ++ [at_line (l + d) current]) bs
  | Brace last =>
      Build_Taken l d ms
        (bs ++ [{| brace_generated := (l, generated_column last); brace_original := (original_line last, original_column last) |}])
  end.
Definition taken_by (ops : list PrintOp) : Taken := foldl take_op nothing_taken ops.

Lemma chunk_snoc ms m : chunk (ms ++ [m]) = chunk_add (chunk ms) m.
Proof. unfold chunk. by rewrite foldl_app. Qed.

Lemma chunk_facts ms :
  let '(wins, cur) := chunk ms in
  mjoin wins ++ cur = ms /\ Forall (fun w : list State => length w = 64) wins /\ length cur < 64.
Proof.
  induction ms as [|m ms IH] using rev_ind; [by repeat split; cbn; auto with lia|]. rewrite chunk_snoc.
  destruct (chunk ms) as [wins cur]. destruct IH as (<- & Hw & Hc). unfold chunk_add. cbn [fst snd].
  rewrite length_app. cbn [length]. change SYNC_INTERVAL with 64. destruct (Nat.eqb_spec (length cur + 1) 64) as [E|E].
  - splits; [|apply Forall_app; split; [done|]|cbn; lia].
    + rewrite join_app. cbn. by rewrite !app_nil_r, app_assoc.
    + repeat constructor. rewrite length_app. cbn. lia.
  - splits; [by rewrite app_assoc|done|]. rewrite length_app. cbn. lia.
Qed.

Lemma join_length {A} (l : list (list A)) n : Forall (fun w => length w = n) l -> length (mjoin l) = n * length l.
Proof. induction 1 as [|w l Hw Hl IH]; cbn [length]; [cbn; lia|]. change (mjoin (w :: l)) with (w ++ mjoin l). rewrite length_app, IH. lia. Qed.

Lemma stream_length wins : Forall (fun w : list State => length w <= 64) wins -> length (stream_of wins) <= 1679 * length wins.
Proof.
  unfold stream_of. induction 1 as [|w wins Hw Hwins IH]; [done|]. rewrite bind_cons, length_app. cbn [length].
  enough (length (window_of w) <= 1679) by lia. destruct w as [|m ms]; cbn [window_of length] in *; [lia|].
  pose proof (window_length (deltas m ms)). rewrite deltas_length in *. lia.
Qed.

(** ** The blob *)
Definition blob_of (wins : list (list State)) (braces : list ObjectBrace) : bytes :=
  replicate 20 0%Z ++ le_split 4 (Z.of_nat (length braces)) ++ le_split 4 (Z.of_nat (length wins)) ++
  le_split 4 (Z.of_nat (HEADER_SIZE + 24 * length wins)) ++ (syncs 0 wins ≫= entry_bytes) ++ stream_of wins ++
  (braces ≫= brace_bytes) ++ replicate STREAM_TAIL_PAD 0%Z.

Lemma syncs_length off wins : length (syncs off wins) = length wins.
Proof. revert off. induction wins as [|w wins IH]; intros off; cbn; [done|]. by rewrite IH. Qed.

Lemma bind_length_const {A} (f : A -> bytes) n l : (forall x, length (f x) = n) -> length (l ≫= f) = n * length l.
Proof. intros Hf. induction l as [|x l IH]; [cbn; lia|]. rewrite bind_cons, length_app, Hf, IH. cbn. lia. Qed.

Lemma entry_bytes_length e : length (entry_bytes e) = 24.
Proof. unfold entry_bytes, i32_bytes. by rewrite !length_app, !length_le_split. Qed.
Lemma brace_bytes_length b : length (brace_bytes b) = 16.
Proof. unfold brace_bytes, i32_bytes. by rewrite !length_app, !length_le_split. Qed.

(** Copies one after another, from the start. *)
Lemma copy_next (b acc w : bytes) (at_ : nat) :
  take (length acc) b = acc -> at_ = length acc -> length acc + length w <= length b ->
  exists b', copy_into b at_ w = Some b' /\ take (length (acc ++ w)) b' = acc ++ w /\ length b' = length b.
Proof.
  intros Ha -> Hl. exists (overwrite b (length acc) w). split; [by apply copy_into_overwrite|]. split; [|by apply overwrite_length].
  pose proof (take_overwrite b (length acc) w (length acc)) as H. rewrite Nat.max_r in H by lia.
  rewrite length_app, H, Ha by lia. apply overwrite_end.
Qed.

Section Spec.
Variable spare : bytes -> nat -> bytes.
Hypothesis spare_length : forall ws n, length (spare ws n) = n.

(** The builder after [ms], with the marks [braces]. *)
Record built (b : Builder) (wins : list (list State)) (cur : list State) (braces : list ObjectBrace) : Prop := {
  built_sync : sync_entries b = syncs 0 wins;
  built_stream : win_stream b = stream_of wins;
  built_n : pending_n b = length cur;
  built_lanes : lanes_hold (pending b) cur;
  built_finalized : finalized b = None;
  built_braces : object_braces b = braces
}.

Lemma syncs_snoc off wins w :
  syncs off (wins ++ [w]) =
    syncs off wins ++ [{| entry_state := default State_default (head w); byte_offset := Z.of_nat (off + length (stream_of wins)) |}].
Proof.
  revert off. induction wins as [|w0 wins IH]; intros off; cbn [app syncs]; [by rewrite Nat.add_0_r|]. rewrite IH. cbn [app].
  do 4 f_equal. unfold stream_of. rewrite bind_cons, length_app. lia.
Qed.

(** A flush writes the window of what is pending, whatever the spare bytes are. *)
Lemma flush_window_built b wins cur braces :
  built b wins cur braces -> Forall position_ok cur -> 0 < length cur <= 64 -> (Z.of_nat (length (stream_of wins)) <= u32_max)%Z ->
  exists b', flush_window spare b = Some b' /\ built b' (wins ++ [cur]) [] braces /\
    builder_line b' = builder_line b /\ pending_generated_line_delta b' = pending_generated_line_delta b /\
    builder_count b' = builder_count b.
Proof.
  intros [H1 H2 H3 H4 H5 H6] Hok Hlen Hsize. destruct b as [l d c n se ws p f ob].
  cbn [sync_entries win_stream pending_n pending finalized object_braces] in *. subst. unfold flush_window.
  destruct cur as [|m ms]; [cbn in Hlen; lia|]. cbn [length] in Hlen.
  change (length (m :: ms) =? 0) with false. cbv iota. rewrite (live_spec _ _ H4) by (cbn [length]; lia).
  cbn [mbind option_bind]. rewrite (proj2 (Z.leb_le _ _)) by done.
  assert (lanes_head (columns (m :: ms)) = Some m) as -> by (by destruct m). cbn [mbind option_bind].
  apply Forall_cons in Hok as [Hm Hms]. cbn [length].
  destruct (write_window_spec m ms (spare (stream_of wins) (window_cap (S (length ms))))) as (b' & E & Hw);
    [lia|by apply deltas_ok|apply spare_length|].
  rewrite E. cbn [mbind option_bind]. rewrite Hw. cbn [mbind option_bind].
  eexists. split; [reflexivity|]. split; [|done]. split; cbn; try done.
  - rewrite syncs_snoc. do 2 f_equal. unfold wrap32. f_equal. rewrite Z.mod_small by lia. lia.
  - unfold stream_of. by rewrite bind_app, bind_cons, app_nil_r.
  - destruct H4 as [[] [] [] [] []]. by split.
Qed.

(** ** The operations, one after another *)
Definition run_op (b : Builder) (op : PrintOp) : option Builder :=
  match op with
  | Separator => append_line_separator b
  | Map current => append_mapping spare current b
  | Brace last => Some (mark_object_brace last b)
  end.
Fixpoint run_prints (b : Builder) (ops : list PrintOp) : option Builder :=
  match ops with [] => Some b | op :: ops => b ← run_op b op; run_prints b ops end.

(** The builder has taken [t]. *)
Definition has_taken (b : Builder) (t : Taken) : Prop :=
  built b (fst (chunk (taken_maps t))) (snd (chunk (taken_maps t))) (taken_braces t) /\
  builder_line b = taken_line t /\ pending_generated_line_delta b = taken_separators t /\
  builder_count b = Z.of_nat (length (taken_maps t)).

Lemma has_taken_init : has_taken builder_init nothing_taken.
Proof. by repeat split. Qed.

Lemma chunk_stream_fits ms :
  (Z.of_nat (length ms) <= 2 ^ 27)%Z -> (Z.of_nat (length (stream_of (fst (chunk ms)))) <= u32_max)%Z.
Proof.
  intros Hl. pose proof (chunk_facts ms) as H. destruct (chunk ms) as [wins cur]. destruct H as (E & Hw & _). cbn [fst].
  apply (f_equal length) in E. rewrite length_app, (join_length _ _ Hw) in E.
  pose proof (stream_length wins ltac:(eapply Forall_impl; [exact Hw|]; cbn; lia)). lia.
Qed.

Lemma append_mapping_taken b t current :
  has_taken b t -> Forall position_ok (taken_maps t) -> position_ok (at_line (taken_line t + taken_separators t) current) ->
  (Z.of_nat (length (taken_maps t)) < 2 ^ 27)%Z ->
  exists b', append_mapping spare current b = Some b' /\ has_taken b' (take_op t (Map current)).
Proof.
  intros ([H1 H2 H3 H4 H5 H6] & Hline & Hsep & Hcount) Hok Hm Hlen. destruct t as [tl td ms tb]. cbn [taken_line taken_separators taken_maps taken_braces] in *.
  set (m := at_line (tl + td) current) in *. pose proof (chunk_facts ms) as Hc. pose proof (chunk_stream_fits ms) as Hs.
  destruct (chunk ms) as [wins cur] eqn:Ec. destruct Hc as (E & Hw & Hcur). cbn [fst snd] in *.
  destruct b as [l d c n se ws p f ob]. cbn [sync_entries win_stream pending_n pending finalized object_braces builder_line
    pending_generated_line_delta builder_count] in *. subst l d c n se ws f ob.
  destruct H4 as [L1 L2 L3 L4 L5].
  destruct (lane_push (f := generated_line) _ _ m L1) as (gl & W1 & L1'); [lia|].
  destruct (lane_push (f := generated_column) _ _ m L2) as (gc & W2 & L2'); [lia|].
  destruct (lane_push (f := source_index) _ _ m L3) as (si & W3 & L3'); [lia|].
  destruct (lane_push (f := original_line) _ _ m L4) as (ol & W4 & L4'); [lia|].
  destruct (lane_push (f := original_column) _ _ m L5) as (oc & W5 & L5'); [lia|].
  unfold append_mapping. rewrite trap_i32_Some by (destruct Hm as [Hm _]; cbn in Hm; unfold nat_i32, is_i32 in *; lia).
  cbn [mbind option_bind]. cbn [at_line m generated_line generated_column source_index original_line original_column] in W1, W2, W3, W4, W5.
  rewrite W1, W2, W3, W4, W5. cbn [mbind option_bind]. rewrite (proj2 (Z.leb_le _ _)) by lia. cbv zeta.
  set (b1 := Build_Builder _ _ _ _ _ _ _ _ _).
  assert (Hb1 : built b1 wins (cur ++ [m]) tb).
  { split; cbn [sync_entries win_stream pending_n pending finalized object_braces b1]; try done. rewrite length_app. cbn. lia. }
  assert (Hcm : Forall position_ok (cur ++ [m])).
  { apply Forall_app. split; [|by apply Forall_singleton]. rewrite <- E in Hok. by apply Forall_app in Hok as [_ ?]. }
  unfold has_taken. cbn [take_op taken_maps taken_braces taken_line taken_separators]. rewrite chunk_snoc, Ec. unfold chunk_add. cbn [fst snd].
  fold m. rewrite !length_app. cbn [length]. rewrite !Nat.add_1_r. change SYNC_INTERVAL with 64.
  destruct (Nat.eqb_spec (S (length cur)) 64) as [E64|E64]; cbn [fst snd].
  - destruct (flush_window_built b1 wins (cur ++ [m]) tb Hb1 Hcm) as (b' & Ef & Hb' & P1 & P2 & P3).
    { rewrite length_app. cbn. lia. } { apply Hs. lia. }
    exists b'. rewrite Ef. split; [done|]. split; [done|]. rewrite P1, P2, P3. cbn. splits; (done || lia).
  - exists b1. split; [done|]. split; [done|]. cbn. splits; (done || lia).
Qed.

Definition op_ok (op : PrintOp) : Prop := match op with Map current => position_ok current | _ => True end.

Lemma run_op_taken b t op :
  has_taken b t -> op_ok op -> Forall position_ok (taken_maps t) -> (0 <= taken_line t)%Z -> (0 <= taken_separators t)%Z ->
  (taken_line t + taken_separators t < 2 ^ 27)%Z -> (Z.of_nat (length (taken_maps t)) < 2 ^ 27)%Z ->
  exists b', run_op b op = Some b' /\ has_taken b' (take_op t op) /\ Forall position_ok (taken_maps (take_op t op)).
Proof.
  intros Ht Hop Hok Hl Hs Hls Hlen. destruct op as [|current|last]; cbn [run_op].
  - destruct b as [l d c n se ws p f ob], t as [tl td ms tb]. destruct Ht as ([H1 H2 H3 H4 H5 H6] & E1 & E2 & E3). cbn in E1, E2, E3, H1, H2, H3, H4, H5, H6, Hls, Hs, Hl, Hok. subst.
    unfold append_line_separator. cbn [pending_generated_line_delta].
    rewrite trap_i32_Some by (unfold is_i32; lia). cbn [mbind option_bind]. eexists. split; [reflexivity|]. split; [|done]. split; [by split|by splits].
  - assert (Hm : position_ok (at_line (taken_line t + taken_separators t) current)).
    { destruct Hop as (_ & ? & ? & ? & ?). unfold position_ok, at_line, nat_i32 in *. cbn. splits; (done || lia). }
    destruct (append_mapping_taken b t current Ht Hok Hm Hlen) as (b' & E & Ht'). exists b'. split; [done|]. split; [done|].
    destruct t. cbn in *. apply Forall_app. split; [done|]. by apply Forall_singleton.
  - destruct b as [l d c n se ws p f ob], t as [tl td ms tb]. destruct Ht as ([H1 H2 H3 H4 H5 H6] & E1 & E2 & E3). cbn in *. subst.
    eexists. split; [reflexivity|]. split; [|done]. split; [by split|by splits].
Qed.

Lemma run_ops_taken b t ops :
  has_taken b t -> Forall op_ok ops -> Forall position_ok (taken_maps t) -> (0 <= taken_line t)%Z -> (0 <= taken_separators t)%Z ->
  (taken_line t + taken_separators t + Z.of_nat (length ops) <= 2 ^ 27)%Z ->
  (Z.of_nat (length (taken_maps t)) + Z.of_nat (length ops) <= 2 ^ 27)%Z ->
  exists b', run_prints b ops = Some b' /\ has_taken b' (foldl take_op t ops) /\ Forall position_ok (taken_maps (foldl take_op t ops)).
Proof.
  intros Ht Hops. revert b t Ht. induction Hops as [|op ops Hop Hops IH]; intros b t Ht Hok Hl Hs Hls Hlen; cbn [run_prints foldl].
  - by exists b.
  - cbn [length] in *. destruct (run_op_taken b t op) as (b1 & E & Ht1 & Hok1); [done..|lia|lia|].
    rewrite E. cbn [mbind option_bind]. apply IH; [done|done|..]; destruct t, op; cbn in *; rewrite ?length_app; cbn; lia.
Qed.

(** The windows with the pending one, which [finalize] flushes. *)
Lemma flush_taken b t :
  has_taken b t -> Forall position_ok (taken_maps t) -> (Z.of_nat (length (taken_maps t)) <= 2 ^ 27)%Z ->
  exists b', flush_window spare b = Some b' /\ built b' (windows_of (taken_maps t)) [] (taken_braces t) /\
    builder_count b' = builder_count b.
Proof.
  intros (Hb & _) Hok Hlen. unfold windows_of. pose proof (chunk_facts (taken_maps t)) as Hc. pose proof (chunk_stream_fits _ Hlen) as Hs.
  destruct (chunk (taken_maps t)) as [wins cur]. cbn [fst snd] in *. destruct Hc as (E & Hw & Hcur).
  destruct cur as [|m cur].
  - exists b. split; [|done]. unfold flush_window. destruct b. pose proof (built_n _ _ _ _ Hb) as Hn. cbn in Hn. by rewrite Hn.
  - destruct (flush_window_built b wins (m :: cur) (taken_braces t) Hb) as (b' & Ef & Hb' & _ & _ & Hcount).
    { rewrite <- E in Hok. by apply Forall_app in Hok as [_ ?]. } { cbn [length] in *. lia. } { exact Hs. }
    by exists b'.
Qed.

Lemma windows_facts ms :
  mjoin (windows_of ms) = ms /\ Forall (fun w : list State => 0 < length w <= 64) (windows_of ms) /\ 64 * length (windows_of ms) <= length ms + 63.
Proof.
  unfold windows_of. pose proof (chunk_facts ms) as Hc. destruct (chunk ms) as [wins cur]. destruct Hc as (<- & Hw & Hcur).
  assert (Forall (fun w : list State => 0 < length w <= 64) wins) by (eapply Forall_impl; [exact Hw|]; cbn; lia).
  destruct cur as [|m cur]; rewrite ?length_app, (join_length _ _ Hw).
  - rewrite app_nil_r. splits; (done || lia).
  - splits; [rewrite join_app; cbn; by rewrite app_nil_r|apply Forall_app; split; [done|apply Forall_singleton; cbn [length] in *; lia]|]. cbn. lia.
Qed.

#[local] Ltac fits := repeat match goal with H : length (_ : bytes) = _ |- _ => rewrite H in * end;
  rewrite ?length_app, ?length_le_split, ?length_replicate in *; cbn [length] in *; lia.

Lemma finalize_spec b wins braces :
  finalized b = None ->
  (exists b1, flush_window spare b = Some b1 /\ built b1 wins [] braces /\ builder_count b1 = builder_count b) ->
  (Z.of_nat (HEADER_SIZE + 24 * length wins) <= u32_max)%Z -> (Z.of_nat (length braces) <= u32_max)%Z ->
  exists b', finalize spare b = Some b' /\ finalized b' = Some (blob_of wins braces) /\ builder_count b' = builder_count b.
Proof.
  intros Hf (b1 & Eb & [H1 H2 H3 H4 H5 H6] & Hcount) Hsize Hbr. unfold finalize. rewrite Hf, Eb. cbn [mbind option_bind].
  destruct b1 as [l d c n se ws p f ob]. cbn [sync_entries win_stream pending_n pending finalized object_braces builder_count] in *. subst se ws f ob.
  assert (Hsl : length (syncs 0 wins ≫= entry_bytes) = 24 * length wins).
  { rewrite (bind_length_const _ 24) by apply entry_bytes_length. by rewrite syncs_length. }
  assert (Hbl : length (braces ≫= brace_bytes) = 16 * length braces) by (apply bind_length_const, brace_bytes_length).
  cbv zeta. rewrite Hsl. unfold u32_bytes. rewrite syncs_length, !(proj2 (Z.leb_le _ _)) by lia. cbn [mbind option_bind].
  set (total := HEADER_SIZE + 24 * length wins + length (stream_of wins) + length (braces ≫= brace_bytes) + STREAM_TAIL_PAD).
  assert (Ht : length (spare [] total) = total) by apply spare_length. change HEADER_SIZE with 32 in *. change STREAM_TAIL_PAD with 1 in *.
  assert (Htot : total = 32 + 24 * length wins + length (stream_of wins) + length (braces ≫= brace_bytes) + 1) by done. clearbody total.
  destruct (copy_next (spare [] total) [] (replicate 20 0%Z) 0) as (b1 & E1 & T1 & L1); [done|done|fits|].
  rewrite E1. cbn [mbind option_bind app] in T1 |- *.
  destruct (copy_next b1 _ (le_split 4 (Z.of_nat (length braces))) 20 T1) as (b2 & E2 & T2 & L2); [done|fits|].
  rewrite E2. cbn [mbind option_bind].
  destruct (copy_next b2 _ (le_split 4 (Z.of_nat (length wins))) 24 T2) as (b3 & E3 & T3 & L3); [fits|fits|].
  rewrite E3. cbn [mbind option_bind].
  destruct (copy_next b3 _ (le_split 4 (Z.of_nat (32 + 24 * length wins))) 28 T3) as (b4 & E4 & T4 & L4); [fits|fits|].
  rewrite E4. cbn [mbind option_bind].
  destruct (copy_next b4 _ (syncs 0 wins ≫= entry_bytes) 32 T4) as (b5 & E5 & T5 & L5); [fits|fits|].
  assert ((if 0 <? 24 * length wins then copy_into b4 32 (syncs 0 wins ≫= entry_bytes) else Some b4) = Some b5) as ->.
  { destruct (Nat.ltb_spec 0 (24 * length wins)); [done|]. assert (syncs 0 wins ≫= entry_bytes = []) as Hn by (apply length_zero_iff_nil; lia).
    rewrite Hn, copy_into_overwrite, overwrite_nil in E5 by (cbn [length]; fits). done. }
  cbn [mbind option_bind].
  destruct (copy_next b5 _ (stream_of wins) (32 + 24 * length wins) T5) as (b6 & E6 & T6 & L6); [fits|fits|].
  rewrite E6. cbn [mbind option_bind].
  destruct (copy_next b6 _ (braces ≫= brace_bytes) (32 + 24 * length wins + length (stream_of wins)) T6) as (b7 & E7 & T7 & L7); [fits|fits|].
  rewrite E7. cbn [mbind option_bind].
  destruct (copy_next b7 _ (replicate 1 0%Z) (total - 1) T7) as (b8 & E8 & T8 & L8); [fits|fits|].
  rewrite E8. cbn [mbind option_bind]. eexists. split; [reflexivity|]. cbn [finalized builder_count]. split; [|done].
  f_equal. rewrite take_ge in T8 by fits. rewrite T8. unfold blob_of. by rewrite <- !app_assoc.
Qed.

Lemma taken_sizes t ops :
  length (taken_maps (foldl take_op t ops)) + length (taken_braces (foldl take_op t ops)) <=
    length (taken_maps t) + length (taken_braces t) + length ops.
Proof.
  revert t. induction ops as [|op ops IH]; intros t; cbn [foldl length]; [lia|]. etrans; [apply IH|].
  destruct t, op; cbn; rewrite ?length_app; cbn; lia.
Qed.

Lemma build_spec ops :
  (Z.of_nat (length ops) <= 2 ^ 27)%Z -> Forall op_ok ops ->
  exists b b', run_prints builder_init ops = Some b /\ builder_count b = Z.of_nat (length (taken_maps (taken_by ops))) /\
    finalize_take spare b = Some (blob_of (windows_of (taken_maps (taken_by ops))) (taken_braces (taken_by ops)), b') /\
    Forall position_ok (taken_maps (taken_by ops)).
Proof.
  intros Hl Hok. destruct (run_ops_taken builder_init nothing_taken ops) as (b & E & Ht & Hpos); [apply has_taken_init|done|constructor|done|done|cbn; lia|cbn; lia|].
  fold (taken_by ops) in *. pose proof (taken_sizes nothing_taken ops) as Hs. fold (taken_by ops) in Hs. cbn [nothing_taken taken_maps taken_braces length] in Hs.
  pose proof (windows_facts (taken_maps (taken_by ops))) as (_ & _ & Hw).
  destruct (finalize_spec b (windows_of (taken_maps (taken_by ops))) (taken_braces (taken_by ops))) as (b' & Ef & Hf & _).
  { apply Ht. } { apply flush_taken; [done|done|lia]. } { change HEADER_SIZE with 32. lia. } { lia. }
  destruct b' as [l d c n se ws p f ob]. cbn [finalized] in Hf. exists b, (Build_Builder l d c n se ws p None ob).
  split; [done|]. split; [apply Ht|]. split; [|done]. unfold finalize_take. rewrite Ef. cbn [mbind option_bind]. by rewrite Hf.
Qed.
End Spec.

(** C30. Flushing a builder adds the window of the pending mappings to the stream and its
    first mapping to the sync entries, whatever bytes the spare capacity held: every write
    and copy is within the reserved bytes, and what is committed is the window and nothing
    of the old bytes. *)
Theorem flush_writes_window spare b wins cur braces :
  (forall ws n, length (spare ws n) = n) -> built b wins cur braces -> Forall position_ok cur ->
  0 < length cur <= 64 -> (Z.of_nat (length (stream_of wins)) <= u32_max)%Z ->
  exists b', flush_window spare b = Some b' /\ built b' (wins ++ [cur]) [] braces /\
    win_stream b' = win_stream b ++ window_of cur /\ builder_count b' = builder_count b.
Proof.
  intros Hs Hb Hok Hl Hsize. destruct (flush_window_built spare Hs b wins cur braces Hb Hok Hl Hsize) as (b' & E & Hb' & _ & _ & Hc).
  exists b'. splits; [done|done| |done]. destruct Hb as [_ -> _ _ _ _], Hb' as [_ -> _ _ _ _].
  unfold stream_of. by rewrite bind_app, bind_cons, app_nil_r.
Qed.
Lemma flush_writes_window_witness :
  let cur := [Build_State 0 0 0 0 0; Build_State 0 7 0 0 7; Build_State 3 1 1 2 5] in
  let lane (f : State -> Z) := (f <$> cur) ++ replicate 61 0%Z in
  let b := Build_Builder 3 0 3 3 [] [] (Build_PendingLanes (lane generated_line) (lane generated_column) (lane source_index)
    (lane original_line) (lane original_column)) None [] in
  exists b', flush_window (fun _ n => replicate n 170%Z) b = Some b' /\ built b' [cur] [] [] /\
    win_stream b' = window_of cur /\ builder_count b' = 3%Z.
Proof.
  intros cur lane b. apply (flush_writes_window (fun _ n => replicate n 170%Z) b [] cur []).
  - intros. apply length_replicate.
  - split; try reflexivity. split; by split.
  - repeat constructor; vm_compute; discriminate.
  - cbn. lia.
  - done.
Defined.
