(* ===== verification/SourceMap.v ===== *)
(** * Internal source maps (sourcemap/InternalSourceMap.rs, sourcemap/lib.rs)

    The view of a blob: its header, the binary search for a window, lookup, the walk over all
    mappings, the marked braces, and both directions of the conversion to the standard
    "mappings" string ([append_vlq_to], [from_vlq]).  A blob is read through a raw pointer:
    a read outside it is [None], and is proved not to happen on any bytes that
    [is_valid_blob] accepts.  On the blobs of SourceMapBuilder.v the operations are proved
    to do on the encoded mappings what they should do on the list of them. *)

From S2P Require Import Prelude Vlq SourceMapWindow SourceMapBuilder.

#[local] Open Scope nat_scope.

(** ** The header *)

(** The [n] bytes at [off], as a number in native order. *)
Definition read_ne (blob : bytes) (off n : nat) : option Z :=
  l ← slice_range blob off (off + n); Some (le_combine l).

Definition total_len (blob : bytes) : option nat := Z.to_nat <$> read_ne blob 0 8.
Definition mapping_count (blob : bytes) : option nat := Z.to_nat <$> read_ne blob 8 8.
Definition object_brace_count (blob : bytes) : option nat := Z.to_nat <$> read_ne blob 20 4.
Definition sync_count (blob : bytes) : option nat := Z.to_nat <$> read_ne blob 24 4.
Definition stream_offset (blob : bytes) : option nat := Z.to_nat <$> read_ne blob 28 4.

(** The [i32] at [off] of a struct's bytes. *)
Definition i32_at (l : bytes) (off : nat) : Z := wrap_i32 (le_combine (take 4 (drop off l))).

Definition entry_of (l : bytes) : SyncEntry := {|
  entry_state := {|
    generated_line := i32_at l 0;
    generated_column := i32_at l 4;
    source_index := i32_at l 20;
    original_line := i32_at l 12;
    original_column := i32_at l 16
  |};
  byte_offset := le_combine (take 4 (drop 8 l))
|}.
Definition brace_of (l : bytes) : ObjectBrace :=
  {| brace_generated := (i32_at l 0, i32_at l 4); brace_original := (i32_at l 8, i32_at l 12) |}.

Definition sync_entry (blob : bytes) (index : nat) : option SyncEntry :=
  let off := HEADER_SIZE + index * 24 in
  l ← slice_range blob off (off + 24); Some (entry_of l).

Definition stream (blob : bytes) : option bytes :=
  off ← stream_offset blob;
  total ← total_len blob;
  slice_range blob off total.

(** [as_chunks().0]: what is left over is dropped. *)
Fixpoint as_chunks (fuel n : nat) (l : bytes) : list bytes :=
  match fuel with
  | O => []
  | S fuel => if n <=? length l then take n l :: as_chunks fuel n (drop n l) else []
  end.

Definition braces_bytes (blob : bytes) : option (list bytes) :=
  s ← stream blob;
  n ← object_brace_count blob;
  let len := n * 16 in
  if len + STREAM_TAIL_PAD <=? length s then
    l ← slice_from s (length s - (len + STREAM_TAIL_PAD));
    l ← slice_range l 0 len;
    Some (as_chunks n 16 l)
  else Some [].

Definition is_valid_blob (blob : bytes) : option bool :=
  if length blob <? HEADER_SIZE then Some false
  else
    total ← total_len blob;
    if negb (total =? length blob) then Some false
    else
      sync_n ← sync_count blob;
      stream_off ← stream_offset blob;
      let sync_end := HEADER_SIZE + sync_n * 24 in
      if stream_off <? sync_end then Some false
      else if total <? stream_off then Some false
      else if total <? stream_off + STREAM_TAIL_PAD then Some false
      else Some true.

(** ** Lookup *)
Record Mapping := {
  generated : Z * Z;
  original : Z * Z;
  mapping_source_index : Z;
  name_index : Z
}.
#[export] Instance Mapping_eq : EqDecision Mapping.
Proof. solve_decision. Defined.

Definition to_mapping (s : State) : Mapping := {|
  generated := (generated_line s, generated_column s);
  original := (original_line s, original_column s);
  mapping_source_index := source_index s;
  name_index := -1
|}.

(** [while lo < hi]; the result is [lo]. *)
Fixpoint locate_loop (fuel : nat) (blob : bytes) (line col : Z) (lo hi : nat) : option nat :=
  if lo <? hi then
    match fuel with
    | O => None
    | S fuel =>
        let mid := lo + Nat.div2 (hi - lo) in
        e ← sync_entry blob mid;
        if less_or_equal (entry_state e) line col then locate_loop fuel blob line col (S mid) hi
        else locate_loop fuel blob line col lo mid
    end
  else Some lo.

Definition locate_window (blob : bytes) (line col : Z) : option (option nat) :=
  n_sync ← sync_count blob;
  if n_sync =? 0 then Some None
  else
    lo ← locate_loop n_sync blob line col 0 n_sync;
    if lo =? 0 then Some None
    else if (Z.of_nat (lo - 1) <=? u32_max)%Z then Some (Some (lo - 1)) else None.

(** The state that [se] holds, and the reader, if the window is within the stream. *)
Definition seed_window (blob : bytes) (sync_idx : nat) (r : WindowReader) : option (State * option WindowReader) :=
  se ← sync_entry blob sync_idx;
  Some (entry_state se, match parse (Z.to_nat (byte_offset se)) r with (Some _, r) => Some r | (None, _) => None end).

(** [best] and the reader after the loop. *)
Fixpoint find_in_window (fuel : nat) (line col : Z) (best state : State) (r : WindowReader) : option (State * WindowReader) :=
  if done_ r then Some (best, r)
  else
    match fuel with
    | O => None
    | S fuel =>
        '(nxt, r) ← next state r;
        if less_or_equal nxt line col then find_in_window fuel line col nxt nxt r else Some (best, r)
    end.

Definition find (blob : bytes) (line col : Z) : option (option Mapping) :=
  loc ← locate_window blob line col;
  match loc with
  | None => Some None
  | Some sync_idx =>
      s ← stream blob;
      '(state, r) ← seed_window blob sync_idx (reader_new s);
      match r with
      | None => Some None
      | Some r =>
          '(best, r) ← find_in_window SYNC_INTERVAL line col state state r;
          if (count r =? 0) || negb (generated_line best =? line)%Z then Some None else Some (Some (to_mapping best))
      end
  end.

(** ** All mappings

    The loops of [for_each] and [append_vlq_to]: [each] is called on the states in order,
    and the result says whether the walk went on to the end. *)
Section Walk.
Context {A : Type} (each : A -> State -> option A).

Fixpoint window_loop (fuel : nat) (acc : A) (state : State) (r : WindowReader) : option (A * bool) :=
  if done_ r then Some (acc, true)
  else
    match fuel with
    | O => None
    | S fuel =>
        '(state, r) ← next state r;
        if count r =? 0 then Some (acc, false)
        else acc ← each acc state; window_loop fuel acc state r
    end.

(** [for idx in idx..idx + rounds] *)
Fixpoint walk_loop (blob s : bytes) (idx rounds : nat) (acc : A) : option A :=
  match rounds with
  | O => Some acc
  | S rounds =>
      '(state, r) ← seed_window blob idx (reader_new s);
      match r with
      | None => Some acc
      | Some r =>
          acc ← each acc state;
          '(acc, go_on) ← window_loop SYNC_INTERVAL acc state r;
          if (go_on : bool) then walk_loop blob s (S idx) rounds acc else Some acc
      end
  end.

Definition walk_windows (blob : bytes) (acc : A) : option A :=
  s ← stream blob; n ← sync_count blob; walk_loop blob s 0 n acc.
End Walk.

(** The mappings that [each] is called with. *)
Definition for_each (blob : bytes) : option (list Mapping) :=
  walk_windows (fun acc state => Some (acc ++ [to_mapping state])) blob [].

Definition for_each_object_brace (blob : bytes) : option (list ObjectBrace) :=
  l ← braces_bytes blob; Some (map brace_of l).

(** ** The standard form *)
Definition saturating_sub_i32 (a b : Z) : Z := Z.max (-2147483648) (Z.min 2147483647 (a - b)).

Definition append_mapping_to_buffer (buffer : bytes) (last_byte : Z) (prev cur : State) : option bytes :=
  let needs_comma := negb (last_byte =? 0)%Z && negb (last_byte =? ";"%u8)%Z && negb (last_byte =? 34)%Z in
  v1 ← encode (saturating_sub_i32 (generated_column cur) (generated_column prev));
  v2 ← encode (saturating_sub_i32 (source_index cur) (source_index prev));
  v3 ← encode (saturating_sub_i32 (original_line cur) (original_line prev));
  v4 ← encode (saturating_sub_i32 (original_column cur) (original_column prev));
  Some (buffer ++ (if needs_comma then [","%u8] else []) ++ vlq_slice v1 ++ vlq_slice v2 ++ vlq_slice v3 ++ vlq_slice v4).

(** [out], [prev] and [generated_line] *)
Definition Emitted : Type := bytes * State * Z.

Definition with_column (c : Z) (s : State) : State := {|
  generated_line := generated_line s;
  generated_column := c;
  source_index := source_index s;
  original_line := original_line s;
  original_column := original_column s
|}.

Definition emit_vlq (acc : Emitted) (state : State) : option Emitted :=
  let '(out, prev, line) := acc in
  '(out, prev, line) ← (if (line <? generated_line state)%Z then
      gap ← trap_i32 (generated_line state - line);
      Some (out ++ replicate (Z.to_nat gap) ";"%u8, with_column 0 prev, generated_line state)
    else Some (out, prev, line));
  let last_byte := default 0%Z (last out) in
  out ← append_mapping_to_buffer out last_byte prev state;
  Some (out, state, line).

Definition append_vlq_to (blob out : bytes) : option bytes :=
  '(out, _, _) ← walk_windows emit_vlq blob (out, State_default, 0%Z); Some out.

Inductive FromVlqError := InvalidSourceMap.

(** [?] on a result that a panic can prevent. *)
Definition try_bind {A B} (m : option (result FromVlqError A)) (k : A -> option (result FromVlqError B)) : option (result FromVlqError B) :=
  r ← m; match r with Ok a => k a | Err e => Some (Err e) end.
#[local] Notation "x ←? m ; k" := (try_bind m (fun x => k)) (at level 20, m at level 100, k at level 200, only parsing).
#[local] Notation "' x ←? m ; k" := (try_bind m (fun x => k)) (at level 20, x pattern, m at level 100, k at level 200, only parsing).

(** [checked_add(delta).filter(|v| *v >= 0)] *)
Definition accumulate (absolute delta : Z) : result FromVlqError Z :=
  match trap_i32 (absolute + delta) with
  | Some v => if (0 <=? v)%Z then Ok v else Err InvalidSourceMap
  | None => Err InvalidSourceMap
  end.

(** A number of a segment, and what is left of the string after it. *)
Definition next_number (remain : bytes) : option (result FromVlqError (Z * bytes)) :=
  v ← decode remain 0;
  if start v =? 0 then Some (Err InvalidSourceMap) else remain ← slice_from remain (start v); Some (Ok (value v, remain)).
Definition next_field (absolute : Z) (remain : bytes) : option (result FromVlqError (Z * bytes)) :=
  v ← decode remain 0;
  if start v =? 0 then Some (Err InvalidSourceMap)
  else a ←? Some (accumulate absolute (value v)); remain ← slice_from remain (start v); Some (Ok (a, remain)).

Definition starts_with_byte (c : Z) (l : bytes) : bool := match l with x :: _ => (x =? c)%Z | [] => false end.
Definition skip_comma (remain : bytes) : bytes := if starts_with_byte ","%u8 remain then tail remain else remain.

Section FromVlq.
Variable spare : bytes -> nat -> bytes.

(** [while !remain.is_empty() && remain[0] == b';'] *)
Fixpoint separators (b : Builder) (remain : bytes) : option (Builder * bytes) :=
  match remain with
  | c :: rest => if (c =? ";"%u8)%Z then b ← append_line_separator b; separators b rest else Some (b, remain)
  | [] => Some (b, [])
  end.

(** The string, the builder and the numbers that segments are relative to. *)
Record VlqState := { remain : bytes; builder : Builder; at_ : State }.

(** One round of the loop, after the separators. *)
Definition vlq_segment (st : VlqState) : option (result FromVlqError VlqState) :=
  let '(Build_VlqState rem b s) := st in
  '(gc, rem) ←? next_field (generated_column s) rem;
  if match rem with [] => true | _ => starts_with_byte ","%u8 rem || starts_with_byte ";"%u8 rem end
  then Some (Ok (Build_VlqState (skip_comma rem) b (with_column gc s)))
  else
    '(si, rem) ←? next_field (source_index s) rem;
    '(ol, rem) ←? next_field (original_line s) rem;
    '(oc, rem) ←? next_field (original_column s) rem;
    rem ←? (if match rem with [] => false | _ => negb (starts_with_byte ","%u8 rem) && negb (starts_with_byte ";"%u8 rem) end
            then '(_, rem) ←? next_number rem; Some (Ok rem)
            else Some (Ok rem));
    let s := Build_State 0 gc si ol oc in
    b ← append_mapping spare s b;
    Some (Ok (Build_VlqState (skip_comma rem) b s)).

Fixpoint from_vlq_loop (fuel : nat) (st : VlqState) : option (result FromVlqError Builder) :=
  match remain st with
  | [] => Some (Ok (builder st))
  | c :: _ =>
      match fuel with
      | O => None
      | S fuel =>
          '(rem, b, s) ← (if (c =? ";"%u8)%Z
                          then '(b, rem) ← separators (builder st) (remain st); Some (rem, b, with_column 0 (at_ st))
                          else Some (remain st, builder st, at_ st));
          match rem with
          | [] => Some (Ok b)
          | _ => st ←? vlq_segment (Build_VlqState rem b s); from_vlq_loop fuel st
          end
      end
  end.

(** The blob with the two numbers of its header that [finalize] leaves open. *)
Definition fill_header (blob : bytes) (mapping_count : Z) : option bytes :=
  blob ← copy_into blob 0 (le_split 8 (Z.of_nat (length blob)));
  copy_into blob 8 (le_split 8 mapping_count).

Definition from_vlq (vlq : bytes) : option (result FromVlqError bytes) :=
  b ←? from_vlq_loop (length vlq) (Build_VlqState vlq builder_init State_default);
  b' ← finalize spare b;
  blob ← finalized b';
  blob ← fill_header blob (builder_count b);
  Some (Ok blob).
End FromVlq.

(** ** The blob of a list of mappings *)
Definition file_of (ms : list State) (braces : list ObjectBrace) : bytes :=
  let wins := windows_of ms in
  let rest := replicate 4 0%Z ++ le_split 4 (Z.of_nat (length braces)) ++ le_split 4 (Z.of_nat (length wins)) ++
    le_split 4 (Z.of_nat (HEADER_SIZE + 24 * length wins)) ++ (syncs 0 wins ≫= entry_bytes) ++ stream_of wins ++
    (braces ≫= brace_bytes) ++ replicate STREAM_TAIL_PAD 0%Z in
  le_split 8 (Z.of_nat (16 + length rest)) ++ le_split 8 (Z.of_nat (length ms)) ++ rest.

Definition brace_ok (b : ObjectBrace) : Prop :=
  is_i32 (fst (brace_generated b)) /\ is_i32 (snd (brace_generated b)) /\
  is_i32 (fst (brace_original b)) /\ is_i32 (snd (brace_original b)).

(** What a blob can hold. *)
Record fits (ms : list State) (braces : list ObjectBrace) : Prop := {
  fits_ms : (Z.of_nat (length ms) <= 2 ^ 27)%Z;
  fits_braces : (Z.of_nat (length braces) <= 2 ^ 27)%Z;
  fits_pos : Forall position_ok ms;
  fits_marks : Forall brace_ok braces
}.

Lemma slice_range_app (pre l post : bytes) a b :
  a = length pre -> b = length pre + length l -> slice_range (pre ++ l ++ post) a b = Some l.
Proof.
  intros -> ->. rewrite slice_range_Some by (rewrite ?length_app; lia). f_equal.
  rewrite drop_app_length. replace (length pre + length l - length pre) with (length l) by lia. by rewrite take_app_length.
Qed.

Lemma read_ne_app (pre post : bytes) off n z :
  off = length pre -> (0 <= z < 256 ^ Z.of_nat n)%Z -> read_ne (pre ++ le_split n z ++ post) off n = Some z.
Proof.
  intros -> Hz. unfold read_ne. rewrite slice_range_app by (rewrite ?length_le_split; done). cbn [mbind option_bind].
  by rewrite le_combine_split, Z.mod_small.
Qed.

Lemma fill_header_spec ms braces :
  fill_header (blob_of (windows_of ms) braces) (Z.of_nat (length ms)) = Some (file_of ms braces).
Proof.
  unfold fill_header, blob_of, file_of. set (rest := le_split 4 (Z.of_nat (length braces)) ++ _).
  change (replicate 20 0%Z ++ rest) with (replicate 8 0%Z ++ replicate 8 0%Z ++ replicate 4 0%Z ++ rest).
  assert (Hl : length (replicate 8 0%Z ++ replicate 8 0%Z ++ replicate 4 0%Z ++ rest) = 16 + length (replicate 4 0%Z ++ rest)).
  { rewrite !length_app, !length_replicate. lia. }
  rewrite Hl. clearbody rest. set (N := Z.of_nat (16 + _)). clearbody N.
  rewrite copy_into_Some by (rewrite length_le_split, Hl; lia). rewrite length_le_split. cbn [Nat.add].
  rewrite take_0, app_nil_l, (drop_app_length' (replicate 8 0%Z)) by done. cbn [mbind option_bind].
  rewrite copy_into_Some by (rewrite !length_app, !length_le_split, length_replicate; lia).
  rewrite (take_app_length' (le_split 8 N)) by (by rewrite length_le_split). rewrite !length_le_split. rewrite <- drop_drop.
  rewrite (drop_app_length' (le_split 8 N)) by (by rewrite length_le_split). by rewrite (drop_app_length' (replicate 8 0%Z)) by done.
Qed.

(** ** Reading the structs back *)
Lemma i32_at_bytes l off z : take 4 (drop off l) = i32_bytes z -> is_i32 z -> i32_at l off = z.
Proof.
  intros Hl Hz. unfold i32_at. rewrite Hl. unfold i32_bytes. rewrite le_combine_split. unfold wrap_i32, is_i32 in *.
  change (256 ^ Z.of_nat 4)%Z with 4294967296%Z. Z.div_mod_to_equations. lia.
Qed.

Definition state_i32 (s : State) : Prop :=
  is_i32 (generated_line s) /\ is_i32 (generated_column s) /\ is_i32 (source_index s) /\
  is_i32 (original_line s) /\ is_i32 (original_column s).

Lemma position_i32 s : position_ok s -> state_i32 s.
Proof. unfold position_ok, nat_i32, state_i32, is_i32. intros (? & ? & ? & ? & ?). splits; lia. Qed.

Lemma entry_of_bytes e : state_i32 (entry_state e) -> (0 <= byte_offset e < 2 ^ 32)%Z -> entry_of (entry_bytes e) = e.
Proof.
  intros (H1 & H2 & H3 & H4 & H5) Ho. destruct e as [[gl gc si ol oc] off]. cbn in H1, H2, H3, H4, H5, Ho.
  unfold entry_bytes, entry_of. cbn [entry_state generated_line generated_column source_index original_line original_column byte_offset].
  f_equal; [f_equal; by apply i32_at_bytes|]. change (take 4 (drop 8 _)) with (le_split 4 off).
  rewrite le_combine_split. by apply Z.mod_small.
Qed.

Lemma brace_of_bytes b : brace_ok b -> brace_of (brace_bytes b) = b.
Proof. destruct b as [[a b] [c d]]. intros (? & ? & ? & ?). cbn in *. unfold brace_of. do 2 f_equal; by apply i32_at_bytes. Qed.

(** ** The views of such a blob *)
Lemma slice_bind {A} (f : A -> bytes) n (l : list A) i x pre post :
  (forall y, length (f y) = n) -> l !! i = Some x ->
  slice_range (pre ++ (l ≫= f) ++ post) (length pre + i * n) (length pre + i * n + n) = Some (f x).
Proof.
  intros Hf Hi. assert (Hp : length (pre ++ (take i l ≫= f)) = length pre + i * n).
  { apply lookup_lt_Some in Hi. rewrite length_app, (bind_length_const f n), length_take by done. rewrite Nat.min_l by lia. lia. }
  rewrite <- (take_drop_middle l i x Hi), bind_app, bind_cons. rewrite <- !app_assoc, (app_assoc pre).
  apply slice_range_app; [by rewrite Hp|by rewrite Hp, Hf].
Qed.

Lemma as_chunks_bind {A} (f : A -> bytes) n (l : list A) :
  0 < n -> (forall y, length (f y) = n) -> as_chunks (length l) n (l ≫= f) = f <$> l.
Proof.
  intros Hn Hf. induction l as [|x l IH]; [done|]. cbn [length as_chunks]. rewrite bind_cons.
  rewrite (proj2 (Nat.leb_le _ _)) by (rewrite length_app, Hf; lia).
  rewrite take_app_length', drop_app_length', IH by (by rewrite Hf). done.
Qed.

(** ** Reading a window of a list of mappings *)
Lemma position_state s : position_ok s -> state_ok s.
Proof. apply position_i32. Qed.

Lemma next_reads all r k s t ts :
  reading all r k (deltas s (t :: ts)) -> length all <= 63 -> position_ok s -> position_ok t ->
  exists r', next s r = Some (t, r') /\ reading all r' (S k) (deltas t ts).
Proof.
  intros Hr Hl Hs Ht. cbn [deltas] in Hr. destruct (next_spec all r k (delta_of s t) (deltas t ts) s) as (r' & E & Hr'); [done|done| | |].
  - by apply delta_of_ok.
  - rewrite apply_delta_of. by apply position_state.
  - exists r'. by rewrite apply_delta_of in E.
Qed.

Lemma reading_done all r k ds : reading all r k ds -> done_ r = match ds with [] => true | _ => false end.
Proof.
  intros [Hds Hidx Hcount _ _ _ _ _ _ _ _ _]. unfold done_. rewrite Hidx, Hcount.
  apply (f_equal length) in Hds. rewrite length_drop in Hds. destruct ds as [|d ds]; cbn [length] in Hds.
  - apply Nat.leb_le. lia.
  - apply Nat.leb_gt. lia.
Qed.

(** The calls of [each], until one panics. *)
Fixpoint fold_each {A} (each : A -> State -> option A) (acc : A) (ms : list State) : option A :=
  match ms with [] => Some acc | m :: ms => acc ← each acc m; fold_each each acc ms end.

Lemma fold_each_app {A} (each : A -> State -> option A) acc ms1 ms2 :
  fold_each each acc (ms1 ++ ms2) = acc ← fold_each each acc ms1; fold_each each acc ms2.
Proof. revert acc. induction ms1 as [|m ms1 IH]; intros acc; cbn [app fold_each]; [done|]. destruct (each acc m); [|done]. apply IH. Qed.

Lemma window_loop_reads {A} (each : A -> State -> option A) all fuel acc r k s ts :
  reading all r k (deltas s ts) -> length all <= 63 -> position_ok s -> Forall position_ok ts -> length ts <= fuel ->
  window_loop each fuel acc s r = acc ← fold_each each acc ts; Some (acc, true).
Proof.
  intros Hr Hl Hs Hts Hf. revert k s acc fuel r Hr Hs Hf. induction Hts as [|t ts Ht Hts IH]; intros k s acc fuel r Hr Hs Hf.
  - pose proof (reading_done _ _ _ _ Hr) as Hd. cbn [deltas] in Hd. destruct fuel; cbn [window_loop]; by rewrite Hd.
  - cbn [length] in Hf. destruct fuel as [|fuel]; [lia|]. pose proof (reading_done _ _ _ _ Hr) as Hd. cbn [deltas] in Hd.
    cbn [window_loop]. rewrite Hd. destruct (next_reads _ _ _ _ _ _ Hr Hl Hs Ht) as (r' & -> & Hr'). cbn [mbind option_bind].
    rewrite (reading_count _ _ _ _ Hr'). cbn [Nat.eqb fold_each]. destruct (each acc t); [|done]. cbn [mbind option_bind].
    apply (IH (S k)); [done|done|lia].
Qed.

(** ** Lookup, by definition *)

(** [s] is not after [t]. *)
Definition pos_le (s t : State) : Prop := less_or_equal s (generated_line t) (generated_column t) = true.
(** The last mapping at or before a position, if it is on that line. *)
Definition last_before (ms : list State) (line col : Z) : option State :=
  last (List.filter (fun m => less_or_equal m line col) ms).
Definition find_ref (ms : list State) (line col : Z) : option State :=
  m ← last_before ms line col; if (generated_line m =? line)%Z then Some m else None.

Lemma less_or_equal_spec s line col :
  less_or_equal s line col = true <-> (generated_line s < line \/ generated_line s = line /\ generated_column s <= col)%Z.
Proof. unfold less_or_equal. rewrite orb_true_iff, andb_true_iff. lia. Qed.

Lemma pos_le_before s t line col : pos_le s t -> less_or_equal t line col = true -> less_or_equal s line col = true.
Proof. unfold pos_le. rewrite !less_or_equal_spec. lia. Qed.

Lemma filter_none line col (ms : list State) :
  (forall m, m ∈ ms -> less_or_equal m line col = false) -> List.filter (fun m => less_or_equal m line col) ms = [].
Proof.
  induction ms as [|m ms IH]; intros H; [done|]. cbn [List.filter]. rewrite H by apply list_elem_of_here.
  apply IH. intros m' Hm. by apply H, list_elem_of_further.
Qed.

Lemma find_loop_reads line col all fuel r k s ts :
  reading all r k (deltas s ts) -> length all <= 63 -> position_ok s -> Forall position_ok ts -> StronglySorted pos_le (s :: ts) ->
  less_or_equal s line col = true -> length ts <= fuel ->
  exists b r', find_in_window fuel line col s s r = Some (b, r') /\ count r' <> 0 /\ last_before (s :: ts) line col = Some b.
Proof.
  intros Hr Hl Hs Hts. revert k s fuel r Hr Hs. induction Hts as [|t ts Ht Hts IH]; intros k s fuel r Hr Hs Hsort Hle Hf.
  - exists s, r. pose proof (reading_done _ _ _ _ Hr) as Hd. cbn [deltas] in Hd. split; [destruct fuel; cbn [find_in_window]; by rewrite Hd|].
    split; [rewrite (reading_count _ _ _ _ Hr); lia|]. unfold last_before. cbn [List.filter]. by rewrite Hle.
  - cbn [length] in Hf. destruct fuel as [|fuel]; [lia|]. pose proof (reading_done _ _ _ _ Hr) as Hd. cbn [deltas] in Hd.
    cbn [find_in_window]. rewrite Hd. destruct (next_reads _ _ _ _ _ _ Hr Hl Hs Ht) as (r' & -> & Hr'). cbn [mbind option_bind].
    unfold last_before. cbn [List.filter]. rewrite Hle. apply StronglySorted_inv in Hsort as [Hsort _].
    destruct (less_or_equal t line col) eqn:Et.
    + destruct (IH (S k) t fuel r' Hr' Ht Hsort Et ltac:(lia)) as (b & r'' & E & Hc & Hb). exists b, r''. split; [done|]. split; [done|].
      unfold last_before in Hb. cbn [List.filter] in Hb. rewrite Et in Hb. exact Hb.
    + exists s, r'. split; [done|]. split; [rewrite (reading_count _ _ _ _ Hr'); lia|]. rewrite filter_none; [done|].
      intros m Hm. apply StronglySorted_inv in Hsort as [_ Hall]. rewrite Forall_forall in Hall. specialize (Hall m Hm).
      destruct (less_or_equal m line col) eqn:E; [|done]. by rewrite (pos_le_before _ _ _ _ Hall E) in Et.
Qed.

Section File.
Context (ms : list State) (braces : list ObjectBrace) (Hfits : fits ms braces).
Let wins := windows_of ms.
Let file := file_of ms braces.

Lemma wins_few : 64 * length wins <= length ms + 63 /\ (Z.of_nat (length wins) <= 2 ^ 21 + 1)%Z.
Proof. pose proof (windows_facts ms) as (_ & _ & H). fold wins in H. destruct Hfits. split; [done|]. lia. Qed.

Lemma stream_small : (Z.of_nat (length (stream_of wins)) <= u32_max)%Z.
Proof.
  pose proof (windows_facts ms) as (_ & Hw & _). fold wins in Hw. pose proof wins_few.
  pose proof (stream_length wins ltac:(eapply Forall_impl; [exact Hw|]; cbn; lia)). lia.
Qed.

Lemma file_length :
  length file = 32 + 24 * length wins + length (stream_of wins) + 16 * length braces + 1.
Proof.
  unfold file, file_of. fold wins. rewrite !length_app, !length_le_split, !length_replicate.
  rewrite (bind_length_const entry_bytes 24) by apply entry_bytes_length. rewrite syncs_length.
  rewrite (bind_length_const brace_bytes 16) by apply brace_bytes_length. change STREAM_TAIL_PAD with 1. lia.
Qed.

Lemma file_small : (Z.of_nat (length file) < 2 ^ 40)%Z.
Proof. rewrite file_length. pose proof wins_few. pose proof stream_small. destruct Hfits. lia. Qed.

(** The parts of the blob, flat. *)
Lemma file_eq :
  file = le_split 8 (Z.of_nat (length file)) ++ le_split 8 (Z.of_nat (length ms)) ++ replicate 4 0%Z ++
    le_split 4 (Z.of_nat (length braces)) ++ le_split 4 (Z.of_nat (length wins)) ++
    le_split 4 (Z.of_nat (HEADER_SIZE + 24 * length wins)) ++ (syncs 0 wins ≫= entry_bytes) ++ stream_of wins ++
    (braces ≫= brace_bytes) ++ replicate STREAM_TAIL_PAD 0%Z.
Proof.
  rewrite file_length. unfold file, file_of. cbv zeta. fold wins. f_equal. f_equal. f_equal.
  rewrite !length_app, !length_le_split, !length_replicate. rewrite (bind_length_const entry_bytes 24) by apply entry_bytes_length.
  rewrite syncs_length. rewrite (bind_length_const brace_bytes 16) by apply brace_bytes_length. change STREAM_TAIL_PAD with 1. lia.
Qed.

Lemma read_file off n z pre post :
  file = pre ++ le_split n z ++ post -> length pre = off -> (0 <= z < 256 ^ Z.of_nat n)%Z -> read_ne file off n = Some z.
Proof. intros -> <- Hz. by apply read_ne_app. Qed.

Lemma total_len_file : total_len file = Some (length file).
Proof.
  unfold total_len. rewrite (read_file 0 8 (Z.of_nat (length file)) [] _ file_eq eq_refl).
  - change (Some (Z.to_nat (Z.of_nat (length file))) = Some (length file)). by rewrite Nat2Z.id.
  - change (256 ^ Z.of_nat 8)%Z with (2 ^ 64)%Z. pose proof file_small. lia.
Qed.

Lemma mapping_count_file : mapping_count file = Some (length ms).
Proof.
  unfold mapping_count. rewrite (read_file 8 8 (Z.of_nat (length ms)) _ _ file_eq).
  - change (Some (Z.to_nat (Z.of_nat (length ms))) = Some (length ms)). by rewrite Nat2Z.id.
  - by rewrite length_le_split.
  - change (256 ^ Z.of_nat 8)%Z with (2 ^ 64)%Z. destruct Hfits. lia.
Qed.
(** The bytes of the header before the counts. *)
Let start_bytes : bytes := le_split 8 (Z.of_nat (length file)) ++ le_split 8 (Z.of_nat (length ms)) ++ replicate 4 0%Z.
Let count_bytes : bytes := le_split 4 (Z.of_nat (length braces)) ++ le_split 4 (Z.of_nat (length wins)).
Let offset_bytes : bytes := le_split 4 (Z.of_nat (HEADER_SIZE + 24 * length wins)).
Let data_bytes : bytes := stream_of wins ++ (braces ≫= brace_bytes) ++ replicate STREAM_TAIL_PAD 0%Z.

Lemma file_parts : file = start_bytes ++ count_bytes ++ offset_bytes ++ (syncs 0 wins ≫= entry_bytes) ++ data_bytes.
Proof. rewrite file_eq. unfold start_bytes, count_bytes, offset_bytes, data_bytes. by rewrite <- !app_assoc. Qed.

Lemma start_length : length start_bytes = 20.
Proof. unfold start_bytes. by rewrite !length_app, !length_le_split. Qed.

Lemma read_u32_file off n pre post :
  file = pre ++ le_split 4 (Z.of_nat n) ++ post -> length pre = off -> (Z.of_nat n <= u32_max)%Z ->
  (Z.to_nat <$> read_ne file off 4) = Some n.
Proof.
  intros E Hl Hn. rewrite (read_file off 4 _ _ _ E Hl).
  - change (Some (Z.to_nat (Z.of_nat n)) = Some n). by rewrite Nat2Z.id.
  - change (256 ^ Z.of_nat 4)%Z with 4294967296%Z. lia.
Qed.

Lemma object_brace_count_file : object_brace_count file = Some (length braces).
Proof.
  apply (read_u32_file 20 _ start_bytes (le_split 4 (Z.of_nat (length wins)) ++ offset_bytes ++ (syncs 0 wins ≫= entry_bytes) ++ data_bytes)).
  - rewrite file_parts. unfold count_bytes. by rewrite <- !app_assoc.
  - apply start_length.
  - destruct Hfits. lia.
Qed.

Lemma sync_count_file : sync_count file = Some (length wins).
Proof.
  apply (read_u32_file 24 _ (start_bytes ++ le_split 4 (Z.of_nat (length braces))) (offset_bytes ++ (syncs 0 wins ≫= entry_bytes) ++ data_bytes)).
  - rewrite file_parts. unfold count_bytes. by rewrite <- !app_assoc.
  - rewrite length_app, start_length, length_le_split. done.
  - pose proof wins_few. lia.
Qed.

Lemma stream_offset_file : stream_offset file = Some (HEADER_SIZE + 24 * length wins).
Proof.
  apply (read_u32_file 28 _ (start_bytes ++ count_bytes) ((syncs 0 wins ≫= entry_bytes) ++ data_bytes)).
  - rewrite file_parts. unfold offset_bytes. by rewrite <- !app_assoc.
  - unfold count_bytes. rewrite !length_app, start_length, !length_le_split. done.
  - pose proof wins_few. change HEADER_SIZE with 32. lia.
Qed.

Lemma head_length : length (start_bytes ++ count_bytes ++ offset_bytes) = HEADER_SIZE.
Proof. unfold count_bytes, offset_bytes. rewrite !length_app, start_length, !length_le_split. done. Qed.

Lemma stream_file : stream file = Some data_bytes.
Proof.
  unfold stream. rewrite stream_offset_file, total_len_file. cbn [mbind option_bind].
  assert (Hp : length ((start_bytes ++ count_bytes ++ offset_bytes) ++ (syncs 0 wins ≫= entry_bytes)) = HEADER_SIZE + 24 * length wins).
  { rewrite length_app, head_length, (bind_length_const entry_bytes 24) by apply entry_bytes_length. by rewrite syncs_length. }
  assert (E : file = ((start_bytes ++ count_bytes ++ offset_bytes) ++ (syncs 0 wins ≫= entry_bytes)) ++ data_bytes ++ [])
    by (rewrite file_parts, app_nil_r; by rewrite <- !app_assoc).
  rewrite E at 1. apply slice_range_app; [done|]. rewrite E, app_nil_r, length_app. done.
Qed.

Lemma is_valid_blob_file : is_valid_blob file = Some true.
Proof.
  unfold is_valid_blob. rewrite total_len_file, sync_count_file, stream_offset_file. cbn [mbind option_bind]. cbv zeta.
  rewrite file_length. change HEADER_SIZE with 32. change STREAM_TAIL_PAD with 1. rewrite Nat.eqb_refl. cbn [negb].
  rewrite !(proj2 (Nat.ltb_ge _ _)) by lia. done.
Qed.

Lemma for_each_object_brace_file : for_each_object_brace file = Some braces.
Proof.
  unfold for_each_object_brace, braces_bytes. rewrite stream_file, object_brace_count_file. cbn [mbind option_bind]. cbv zeta.
  assert (Hl : length (braces ≫= brace_bytes) = length braces * 16) by (rewrite (bind_length_const _ 16) by apply brace_bytes_length; lia).
  assert (Hd : length data_bytes = length (stream_of wins) + (length braces * 16 + STREAM_TAIL_PAD)).
  { unfold data_bytes. rewrite !length_app, Hl, length_replicate. lia. }
  rewrite (proj2 (Nat.leb_le _ _)) by lia. rewrite Hd, Nat.add_sub. rewrite slice_from_Some by lia. cbn [mbind option_bind].
  unfold data_bytes. rewrite drop_app_length. rewrite slice_range_Some by (rewrite ?length_app; lia).
  rewrite drop_0, Nat.sub_0_r, take_app_length' by done. cbn [mbind option_bind].
  f_equal. rewrite as_chunks_bind; [|lia|apply brace_bytes_length]. destruct Hfits as [_ _ _ Hm]. clear -Hm. induction Hm as [|b l Hb Hl IH]; [done|].
  cbn [fmap list_fmap map]. by rewrite brace_of_bytes, IH.
Qed.

Lemma syncs_lookup off i w (l : list (list State)) :
  l !! i = Some w -> syncs off l !! i =
    Some {| entry_state := default State_default (head w); byte_offset := Z.of_nat (off + length (stream_of (take i l))) |}.
Proof.
  revert off i. induction l as [|w0 l IH]; intros off [|i] Hi; try done.
  - injection Hi as ->. cbn. by rewrite Nat.add_0_r.
  - cbn [lookup list_lookup syncs take] in *. rewrite IH by done. do 3 f_equal. unfold stream_of. rewrite bind_cons, length_app. lia.
Qed.

Lemma sync_entry_file i w :
  wins !! i = Some w -> sync_entry file i =
    Some {| entry_state := default State_default (head w); byte_offset := Z.of_nat (length (stream_of (take i wins))) |}.
Proof.
  intros Hi. pose proof (syncs_lookup 0 i w wins Hi) as Hs. unfold sync_entry. cbv zeta. rewrite file_parts.
  replace (start_bytes ++ count_bytes ++ offset_bytes ++ (syncs 0 wins ≫= entry_bytes) ++ data_bytes) with
    ((start_bytes ++ count_bytes ++ offset_bytes) ++ (syncs 0 wins ≫= entry_bytes) ++ data_bytes) by (by rewrite <- !app_assoc).
  rewrite <- head_length. rewrite (slice_bind entry_bytes 24 _ _ _ _ _ entry_bytes_length Hs). cbn [mbind option_bind]. f_equal.
  cbn [Nat.add]. apply entry_of_bytes; cbn [entry_state byte_offset].
  - apply position_i32. pose proof (windows_facts ms) as (Hj & Hw & _). fold wins in Hj, Hw.
    rewrite Forall_lookup in Hw. specialize (Hw _ _ Hi). destruct w as [|m w]; [cbn in Hw; lia|]. cbn.
    destruct Hfits as [_ _ Hp _]. rewrite <- Hj in Hp. rewrite <- (take_drop_middle _ _ _ Hi), join_app in Hp. cbn in Hp.
    apply Forall_app in Hp as [_ Hp]. by apply Forall_cons in Hp as [? _].
  - pose proof stream_small as Hs'. assert (length (stream_of (take i wins)) <= length (stream_of wins)); [|lia].
    rewrite <- (take_drop i wins) at 2. unfold stream_of. rewrite bind_app, length_app. lia.
Qed.

(** The bytes of a window, in the stream. *)
Lemma stream_holds i w : wins !! i = Some w -> holds data_bytes (length (stream_of (take i wins))) (window_of w).
Proof.
  intros Hi. unfold data_bytes. apply holds_weaken.
  assert (stream_of wins = stream_of (take i wins) ++ window_of w ++ stream_of (drop (S i) wins)) as ->.
  { rewrite <- (take_drop_middle _ _ _ Hi) at 1. unfold stream_of. by rewrite bind_app, bind_cons. }
  intros k x Hk. rewrite lookup_app_r by lia. replace (_ + k - _) with k by lia. by apply lookup_app_l_Some.
Qed.

Lemma wins_ok i w : wins !! i = Some w -> 0 < length w <= 64 /\ Forall position_ok w.
Proof.
  intros Hi. pose proof (windows_facts ms) as (Hj & Hw & _). fold wins in Hj, Hw. rewrite Forall_lookup in Hw. split; [by eapply Hw|].
  destruct Hfits as [_ _ Hp _]. rewrite <- Hj in Hp. rewrite <- (take_drop_middle _ _ _ Hi), join_app in Hp. cbn in Hp.
  apply Forall_app in Hp as [_ Hp]. by apply Forall_app in Hp as [? _].
Qed.

Lemma seed_window_file i m w :
  wins !! i = Some (m :: w) ->
  exists r, seed_window file i (reader_new data_bytes) = Some (m, Some r) /\ reading (deltas m w) r 0 (deltas m w).
Proof.
  intros Hi. destruct (wins_ok _ _ Hi) as [Hlen Hok]. cbn [length] in Hlen. apply Forall_cons in Hok as [Hm Hw].
  unfold seed_window. rewrite (sync_entry_file _ _ Hi). cbn [mbind option_bind head default entry_state byte_offset]. rewrite Nat2Z.id.
  destruct (parse_spec (deltas m w) (length (stream_of (take i wins))) (reader_new data_bytes)) as (r & E & Hr & _).
  - rewrite deltas_length. lia.
  - by apply deltas_ok.
  - apply (stream_holds _ _ Hi).
  - exists r. unfold run_m in E. by rewrite E.
Qed.

Lemma walk_loop_file {A} (each : A -> State -> option A) idx rounds acc :
  idx + rounds = length wins -> walk_loop each file data_bytes idx rounds acc = fold_each each acc (mjoin (drop idx wins)).
Proof.
  revert idx acc. induction rounds as [|rounds IH]; intros idx acc Hi; cbn [walk_loop].
  - by rewrite drop_ge by lia.
  - destruct (lookup_lt_is_Some_2 wins idx) as [w Hw]; [lia|]. rewrite (drop_S _ _ _ Hw). destruct (wins_ok _ _ Hw) as [Hlen Hok].
    destruct w as [|m w]; [cbn in Hlen; lia|]. destruct (seed_window_file _ _ _ Hw) as (r & -> & Hr). cbn [mbind option_bind].
    change (mjoin ((m :: w) :: drop (S idx) wins)) with ((m :: w) ++ mjoin (drop (S idx) wins)). rewrite fold_each_app.
    cbn [fold_each]. destruct (each acc m) as [acc1|]; [|done]. cbn [mbind option_bind]. apply Forall_cons in Hok as [Hm Hok]. cbn [length] in Hlen.
    rewrite (window_loop_reads each (deltas m w) _ _ _ 0 _ w); [|done|rewrite deltas_length; lia|done|done|unfold SYNC_INTERVAL; lia].
    destruct (fold_each each acc1 w) as [acc2|]; [|done]. cbn [mbind option_bind]. apply IH. lia.
Qed.

(** A walk calls [each] on the mappings in order. *)
Lemma walk_file {A} (each : A -> State -> option A) acc : walk_windows each file acc = fold_each each acc ms.
Proof.
  unfold walk_windows. rewrite stream_file, sync_count_file. cbn [mbind option_bind]. rewrite walk_loop_file by lia.
  rewrite drop_0. pose proof (windows_facts ms) as (Hj & _). fold wins in Hj. by rewrite Hj.
Qed.

Lemma for_each_file : for_each file = Some (map to_mapping ms).
Proof.
  unfold for_each. rewrite walk_file. enough (H : forall acc, fold_each (fun acc s => Some (acc ++ [to_mapping s])) acc ms = Some (acc ++ map to_mapping ms))
    by apply H. clear. induction ms as [|m ms' IH]; intros acc; cbn [fold_each map]; [by rewrite app_nil_r|]. cbn [mbind option_bind].
  by rewrite IH, <- app_assoc.
Qed.

(** ** The search for a window *)
Definition head_before (line col : Z) (w : list State) : bool :=
  match w with m :: _ => less_or_equal m line col | [] => false end.

Context (Hsorted : StronglySorted pos_le ms).

Lemma heads_sorted line col i j wi wj :
  i <= j -> wins !! i = Some wi -> wins !! j = Some wj -> head_before line col wj = true -> head_before line col wi = true.
Proof.
  intros Hij Hi Hj Hle. destruct (decide (i = j)) as [->|Hne]; [by simplify_eq|].
  destruct (wins_ok _ _ Hi) as [Li _], (wins_ok _ _ Hj) as [Lj _]. destruct wi as [|m wi], wj as [|m' wj]; cbn in Li, Lj; try lia.
  cbn [head_before] in *. eapply pos_le_before; [|exact Hle]. pose proof (windows_facts ms) as (E & _). fold wins in E.
  assert (StronglySorted pos_le (mjoin (take j wins) ++ mjoin (drop j wins))) as Hs by (by rewrite <- join_app, take_drop, E).
  eapply StronglySorted_app_1_elem_of; [exact Hs| |].
  - apply list_elem_of_join. exists (m :: wi). split; [apply list_elem_of_here|]. apply (list_elem_of_lookup_2 _ i).
    rewrite lookup_take_lt by lia. exact Hi.
  - rewrite (drop_S _ _ _ Hj). change (mjoin _) with ((m' :: wj) ++ mjoin (drop (S j) wins)). apply elem_of_app. left. apply list_elem_of_here.
Qed.

Lemma locate_loop_file line col fuel lo hi :
  lo <= hi <= length wins -> hi - lo <= fuel ->
  (forall j w, j < lo -> wins !! j = Some w -> head_before line col w = true) ->
  (forall j w, hi <= j -> wins !! j = Some w -> head_before line col w = false) ->
  exists n, locate_loop fuel file line col lo hi = Some n /\ n <= length wins /\
    (forall j w, j < n -> wins !! j = Some w -> head_before line col w = true) /\
    (forall j w, n <= j -> wins !! j = Some w -> head_before line col w = false).
Proof.
  revert lo hi. induction fuel as [|fuel IH]; intros lo hi Hr Hf H1 H2; cbn [locate_loop].
  - rewrite (proj2 (Nat.ltb_ge lo hi)) by lia. exists lo. splits; [done|lia|done|]. intros j w ?. apply H2. lia.
  - destruct (Nat.ltb_spec lo hi) as [Hlt|Hge]; [|exists lo; splits; [done|lia|done|]; intros j w ?; apply H2; lia].
    assert (Hd : Nat.div2 (hi - lo) < hi - lo) by (apply Nat.lt_div2; lia). set (d := Nat.div2 (hi - lo)) in *. clearbody d. set (mid := lo + d).
    destruct (lookup_lt_is_Some_2 wins mid) as [w Hw]; [unfold mid; lia|]. rewrite (sync_entry_file _ _ Hw). cbn [mbind option_bind entry_state].
    destruct (wins_ok _ _ Hw) as [Lw _]. destruct w as [|m w]; [cbn in Lw; lia|].
    change (default State_default (head (m :: w))) with m. destruct (less_or_equal m line col) eqn:E.
    + apply IH; [unfold mid; lia|unfold mid; lia| |done]. intros j w' Hj Hw'. apply (heads_sorted line col j mid w' (m :: w)); (done || lia).
    + apply IH; [unfold mid; lia|unfold mid; lia|done|]. intros j w' Hj Hw'. destruct (head_before line col w') eqn:E'; [|done].
      pose proof (heads_sorted line col mid j (m :: w) w' Hj Hw Hw' E') as Hm. cbn in Hm. congruence.
Qed.

Lemma find_file line col : find file line col = Some (to_mapping <$> find_ref ms line col).
Proof.
  unfold find, locate_window, find_ref. rewrite sync_count_file. cbn [mbind option_bind].
  pose proof (windows_facts ms) as (Hj & _). fold wins in Hj.
  destruct (Nat.eqb_spec (length wins) 0) as [E0|E0].
  { apply length_zero_iff_nil in E0. rewrite E0 in Hj. by rewrite <- Hj. }
  destruct (locate_loop_file line col (length wins) 0 (length wins)) as (n & -> & Hn & H1 & H2); [lia|lia|lia| |].
  { intros j w Hj' Hw. apply lookup_lt_Some in Hw. lia. }
  cbn [mbind option_bind].
  (** the windows from [n] on are after the position *)
  assert (Hafter : forall m, m ∈ mjoin (drop n wins) -> less_or_equal m line col = false).
  { intros m Hm. destruct (drop n wins) as [|w ws] eqn:Ed; [by apply elem_of_nil in Hm|].
    assert (Hw : wins !! n = Some w) by (by eapply lookup_of_drop). destruct (wins_ok _ _ Hw) as [Lw _].
    destruct w as [|m0 w]; [cbn in Lw; lia|]. pose proof (H2 n _ ltac:(lia) Hw) as Hh. cbn in Hh.
    assert (Hs : StronglySorted pos_le (m0 :: w ++ mjoin ws)).
    { apply (StronglySorted_app_1_r _ (mjoin (take n wins))). change (m0 :: w ++ mjoin ws) with (mjoin ((m0 :: w) :: ws)).
      by rewrite <- Ed, <- join_app, take_drop, Hj. }
    change (mjoin ((m0 :: w) :: ws)) with (m0 :: w ++ mjoin ws) in Hm. apply elem_of_cons in Hm as [->|Hm]; [done|].
    apply StronglySorted_inv in Hs as [_ Hall]. rewrite Forall_forall in Hall. specialize (Hall m Hm).
    destruct (less_or_equal m line col) eqn:E; [|done]. by rewrite (pos_le_before _ _ _ _ Hall E) in Hh. }
  assert (Hlast : last_before ms line col = last_before (mjoin (take n wins)) line col).
  { unfold last_before. rewrite <- Hj at 1. rewrite <- (take_drop n wins) at 1. rewrite join_app, List.filter_app, (filter_none _ _ (mjoin (drop n wins)) Hafter).
    by rewrite app_nil_r. }
  rewrite Hlast. destruct (Nat.eqb_spec n 0) as [->|En]; [done|].
  rewrite (proj2 (Z.leb_le _ _)) by (pose proof wins_few; lia). cbn [mbind option_bind].
  destruct (lookup_lt_is_Some_2 wins (n - 1)) as [w Hw]; [lia|]. destruct (wins_ok _ _ Hw) as [Lw Hok].
  destruct w as [|m w]; [cbn in Lw; lia|]. pose proof (H1 (n - 1) _ ltac:(lia) Hw) as Hm. cbn in Hm.
  rewrite stream_file. cbn [mbind option_bind]. destruct (seed_window_file _ _ _ Hw) as (r & -> & Hr). cbn [mbind option_bind].
  cbn [length] in Lw. apply Forall_cons in Hok as [Hpm Hpw].
  assert (Htake : mjoin (take n wins) = mjoin (take (n - 1) wins) ++ m :: w).
  { replace n with (S (n - 1)) by lia. rewrite (take_S_r _ _ _ Hw), join_app. cbn [mjoin list_join]. by rewrite app_nil_r, Nat.sub_succ, Nat.sub_0_r. }
  destruct (find_loop_reads line col (deltas m w) SYNC_INTERVAL r 0 m w) as (b & r' & -> & Hc & Hb);
    [done|rewrite deltas_length; lia|done|done| |done|unfold SYNC_INTERVAL; lia|].
  { apply (StronglySorted_app_1_r _ (mjoin (take (n - 1) wins))), (StronglySorted_app_1_l _ _ (mjoin (drop n wins))).
    by rewrite <- Htake, <- join_app, take_drop, Hj. }
  cbn [mbind option_bind]. rewrite (proj2 (Nat.eqb_neq _ _) Hc). cbn [orb].
  assert (last_before (mjoin (take n wins)) line col = Some b) as ->.
  { rewrite <- Hb, Htake. unfold last_before. rewrite List.filter_app. cbn [List.filter]. rewrite Hm. apply last_app_cons. }
  cbn [mbind option_bind]. by destruct (generated_line b =? line)%Z.
Qed.
End File.

(** ** Any bytes

    What the methods of a reader keep, whether they fail or not. *)
Definition keeps {A X} (f : WindowReader -> X) (m : Reader A) : Prop := forall r, f (snd (m r)) = f r.

Section Keeps.
Context {X : Type} (f : WindowReader -> X).
Lemma keeps_ret {A} (x : A) : keeps f (mret x).
Proof. done. Qed.
Lemma keeps_gets {A} (g : WindowReader -> A) : keeps f (gets g).
Proof. done. Qed.
Lemma keeps_lift {A} (o : option A) : keeps f (reader_lift o).
Proof. done. Qed.
Lemma keeps_modify g : (forall r, f (g r) = f r) -> keeps f (modify g).
Proof. done. Qed.
Lemma keeps_bind {A B} (m : Reader A) (k : A -> Reader B) : keeps f m -> (forall x, keeps f (k x)) -> keeps f (m ≫= k).
Proof.
  intros Hm Hk r. specialize (Hm r). unfold mbind, M_bind. destruct (m r) as [[x|] r1]; [|done]. cbn [snd] in Hm.
  by rewrite (Hk x r1).
Qed.
Lemma keeps_lane get set : (forall p r, f (set p r) = f r) -> keeps f (read_lane get set).
Proof.
  intros Hs. unfold read_lane. apply keeps_bind; [apply keeps_gets|]. intros bs. apply keeps_bind; [apply keeps_gets|]. intros pos.
  apply keeps_bind; [apply keeps_lift|]. intros [v p]. apply keeps_bind; [by apply keeps_modify|]. intros _. apply keeps_ret.
Qed.
End Keeps.

#[local] Ltac keep := repeat first
  [ apply keeps_ret | apply keeps_gets | apply keeps_lift | apply keeps_modify; intros []; done
  | apply keeps_lane; intros ? []; done | apply keeps_bind | progress intros | match goal with |- keeps _ (match ?x with _ => _ end) => destruct x end ].

Definition place (r : WindowReader) : nat * nat := (count r, delta_idx r).

(** What a reader can return. *)
Definition gives {A} (m : Reader A) (P : A -> Prop) : Prop := forall r x, fst (m r) = Some x -> P x.
Lemma returns_value {A} (x : A) (P : A -> Prop) : P x -> gives (mret x) P.
Proof. by intros H r y [= <-]. Qed.
Lemma returns_then {A B} (m : Reader A) (k : A -> Reader B) P : (forall x, gives (k x) P) -> gives (m ≫= k) P.
Proof. intros Hk r y. unfold mbind, M_bind. destruct (m r) as [[x|] r1]; [apply Hk|done]. Qed.

Lemma apply_next_keeps s r : place (snd (apply_next s r)) = (count r, S (delta_idx r)).
Proof.
  set (r1 := with_delta_idx (S (delta_idx r)) r).
  assert (exists k : Reader State, apply_next s r = k r1 /\ keeps place k) as (k & -> & Hk).
  { eexists. split; [unfold apply_next; reflexivity|]. cbv beta zeta. unfold next_rare, gen_line_exception. keep. }
  rewrite (Hk r1). unfold r1. by destruct r.
Qed.

Lemma apply_next_line s r s' :
  fst (apply_next s r) = Some s' -> is_i32 (generated_line s) -> is_i32 (generated_line s').
Proof.
  intros E Hs. revert E. enough (H : gives (apply_next s) (fun s' => is_i32 (generated_line s'))) by apply H.
  unfold apply_next. repeat (apply returns_then; intros ?); cbv zeta. repeat (apply returns_then; intros ?).
  repeat match goal with |- gives (match ?x with _ => _ end) _ => destruct x end.
  apply returns_value. cbn. destruct (_ =? 0)%Z; [done|apply wrap_i32_range].
Qed.

Lemma next_total s r :
  delta_idx r < 64 -> is_i32 (generated_line s) ->
  exists s' r', next s r = Some (s', r') /\ is_i32 (generated_line s') /\ delta_idx r' = S (delta_idx r) /\ count r' <= count r.
Proof.
  intros Hi Hs. pose proof (apply_next_keeps s r) as [= Hc Hd]. pose proof (apply_next_line s r) as Hl. unfold next.
  rewrite (proj2 (Nat.ltb_lt _ _)) by done. destruct (apply_next s r) as [[s'|] r'] eqn:E; cbn [fst snd] in *.
  - exists s', r'. splits; [done|by eapply Hl|done|lia].
  - exists s, (with_count 0 r'). splits; [done|done|by destruct r'|destruct r'; cbn; lia].
Qed.

(** What holds of a reader when a method ends well. *)
Definition finishes {A} (m : Reader A) (Q : WindowReader -> Prop) : Prop := forall r x r', m r = (Some x, r') -> Q r'.
Lemma finishes_bind {A B} (m : Reader A) (k : A -> Reader B) Q : (forall x, finishes (k x) Q) -> finishes (m ≫= k) Q.
Proof. intros Hk r y r'. unfold mbind, M_bind. destruct (m r) as [[x|] r1]; [apply Hk|done]. Qed.
Lemma finishes_modify g (Q : WindowReader -> Prop) : (forall r, Q (g r)) -> finishes (modify g) Q.
Proof. by intros HQ r x r' [= <- <-]. Qed.

Lemma parse_facts start r r' : parse start r = (Some tt, r') -> count r' <= 64 /\ delta_idx r' = 0.
Proof.
  intros E. split.
  - revert E. enough (H : finishes (parse start) (fun r => count r <= 64)) by apply H.
    unfold parse. repeat (apply finishes_bind; intros ?). apply finishes_modify. intros []. cbn -[Nat.min].
    unfold SYNC_INTERVAL. lia.
  - set (r1 := with_delta_idx 0 (with_count 0 r)).
    assert (exists k : Reader unit, parse start r = k r1 /\ keeps delta_idx k) as (k & Ek & Hk).
    { eexists. split; [unfold parse; reflexivity|]. cbv beta zeta. unfold parse_flagged_sections. keep. }
    rewrite Ek in E. specialize (Hk r1). rewrite E in Hk. cbn [snd] in Hk. rewrite Hk. unfold r1. by destruct r.
Qed.

(** *** The loops end *)
Definition room (r : WindowReader) : nat := count r - 1 - delta_idx r.

Lemma find_loop_total fuel line col best s r :
  count r <= 64 -> room r <= fuel -> is_i32 (generated_line s) -> exists b r', find_in_window fuel line col best s r = Some (b, r').
Proof.
  unfold room. revert best s r. induction fuel as [|fuel IH]; intros best s r Hc Hf Hs; cbn [find_in_window].
  - unfold done_. rewrite (proj2 (Nat.leb_le _ _)) by lia. eauto.
  - destruct (done_ r) eqn:Ed; [eauto|]. unfold done_ in Ed. apply Nat.leb_gt in Ed.
    destruct (next_total s r) as (s' & r' & -> & Hs' & Hd & Hc'); [lia|done|]. cbn [mbind option_bind].
    destruct (less_or_equal s' line col); [|eauto]. apply IH; [lia|lia|done].
Qed.

Section Total.
Context {A : Type} (each : A -> State -> option A) (Inv : A -> Prop).
Hypothesis each_total : forall acc s, Inv acc -> is_i32 (generated_line s) -> exists acc', each acc s = Some acc' /\ Inv acc'.

Lemma window_loop_total fuel acc s r :
  Inv acc -> count r <= 64 -> room r <= fuel -> is_i32 (generated_line s) ->
  exists acc' go_on, window_loop each fuel acc s r = Some (acc', go_on) /\ Inv acc'.
Proof.
  unfold room. revert acc s r. induction fuel as [|fuel IH]; intros acc s r Ha Hc Hf Hs; cbn [window_loop].
  - unfold done_. rewrite (proj2 (Nat.leb_le _ _)) by lia. eauto.
  - destruct (done_ r) eqn:Ed; [eauto|]. unfold done_ in Ed. apply Nat.leb_gt in Ed.
    destruct (next_total s r) as (s' & r' & -> & Hs' & Hd & Hc'); [lia|done|]. cbn [mbind option_bind].
    destruct (Nat.eqb_spec (count r') 0); [eauto|]. destruct (each_total acc s' Ha Hs') as (acc' & -> & Ha'). cbn [mbind option_bind].
    apply IH; [done|lia|lia|done].
Qed.

Section Valid.
Context (blob : bytes) (Hbytes : Forall is_byte blob) (Hvalid : is_valid_blob blob = Some true).

Lemma read_ne_total off n : off + n <= length blob -> exists z, read_ne blob off n = Some z /\ (0 <= z < 256 ^ Z.of_nat n)%Z.
Proof.
  intros Hl. unfold read_ne. rewrite slice_range_Some by lia. cbn [mbind option_bind]. eexists. split; [done|].
  pose proof (le_combine_range _ (Forall_take _ (off + n - off) _ (Forall_drop _ off _ Hbytes))) as H.
  rewrite length_take, length_drop in H. replace (Nat.min (off + n - off) (length blob - off)) with n in H by lia. exact H.
Qed.

Lemma valid_facts : exists n off k,
  sync_count blob = Some n /\ stream_offset blob = Some off /\ total_len blob = Some (length blob) /\ object_brace_count blob = Some k /\
  HEADER_SIZE + n * 24 <= off /\ off + 1 <= length blob /\ (Z.of_nat n <= u32_max)%Z.
Proof.
  revert Hvalid. unfold is_valid_blob. destruct (Nat.ltb_spec (length blob) HEADER_SIZE) as [|Hl]; [done|]. change HEADER_SIZE with 32 in *.
  destruct (read_ne_total 0 8) as (t & Et & Ht); [lia|]. destruct (read_ne_total 20 4) as (k & Ek & Hk); [lia|].
  destruct (read_ne_total 24 4) as (n & En & Hn); [lia|]. destruct (read_ne_total 28 4) as (o & Eo & Ho); [lia|].
  unfold sync_count, stream_offset, total_len, object_brace_count. rewrite Et, Ek, En, Eo. cbn [fmap option_fmap option_map mbind option_bind].
  destruct (Nat.eqb_spec (Z.to_nat t) (length blob)) as [E|]; [|done]. cbn [negb]. cbv zeta. rewrite E.
  destruct (Nat.ltb_spec (Z.to_nat o) (32 + Z.to_nat n * 24)); [done|]. destruct (Nat.ltb_spec (length blob) (Z.to_nat o)); [done|].
  change STREAM_TAIL_PAD with 1. destruct (Nat.ltb_spec (length blob) (Z.to_nat o + 1)); [done|]. intros _.
  change (256 ^ Z.of_nat 4)%Z with 4294967296%Z in *.
  exists (Z.to_nat n), (Z.to_nat o), (Z.to_nat k). splits; (done || lia).
Qed.

Lemma sync_entry_total n i : sync_count blob = Some n -> i < n -> exists e, sync_entry blob i = Some e /\ is_i32 (generated_line (entry_state e)).
Proof.
  intros En Hi. destruct valid_facts as (n' & off & k & En' & _ & _ & _ & H1 & H2 & _). rewrite En in En'. injection En' as <-.
  unfold sync_entry. cbv zeta. rewrite slice_range_Some by lia. cbn [mbind option_bind]. eexists. split; [done|]. cbn. apply wrap_i32_range.
Qed.

Lemma stream_total : exists s, stream blob = Some s.
Proof.
  destruct valid_facts as (n & off & k & _ & Eo & Et & _ & _ & H2 & _). unfold stream. rewrite Eo, Et. cbn [mbind option_bind].
  rewrite slice_range_Some by lia. eauto.
Qed.

Lemma locate_loop_total n line col fuel lo hi :
  sync_count blob = Some n -> lo <= hi <= n -> hi - lo <= fuel -> exists k, locate_loop fuel blob line col lo hi = Some k /\ k <= n.
Proof.
  intros En. revert lo hi. induction fuel as [|fuel IH]; intros lo hi Hr Hf; cbn [locate_loop].
  - rewrite (proj2 (Nat.ltb_ge lo hi)) by lia. exists lo. split; [done|lia].
  - destruct (Nat.ltb_spec lo hi); [|exists lo; split; [done|lia]].
    assert (Hd : Nat.div2 (hi - lo) < hi - lo) by (apply Nat.lt_div2; lia). set (d := Nat.div2 (hi - lo)) in *. clearbody d.
    destruct (sync_entry_total n (lo + d) En) as (e & -> & _); [lia|]. cbn [mbind option_bind].
    destruct (less_or_equal _ _ _); apply IH; lia.
Qed.

Lemma seed_window_total n i s :
  sync_count blob = Some n -> i < n ->
  exists st r, seed_window blob i (reader_new s) = Some (st, r) /\ is_i32 (generated_line st) /\
    match r with Some r => count r <= 64 /\ delta_idx r = 0 | None => True end.
Proof.
  intros En Hi. destruct (sync_entry_total n i En Hi) as (e & Ee & He). unfold seed_window. rewrite Ee. cbn [mbind option_bind].
  destruct (parse _ _) as [[[]|] r] eqn:Ep; eexists _, _; (split; [done|]); (split; [done|]); [|done]. by eapply parse_facts.
Qed.

Lemma find_total line col : exists m, find blob line col = Some m.
Proof.
  destruct valid_facts as (n & off & k & En & _ & _ & _ & _ & _ & Hn). unfold find, locate_window. rewrite En. cbn [mbind option_bind].
  destruct (Nat.eqb_spec n 0); [eauto|]. destruct (locate_loop_total n line col n 0 n En) as (lo & -> & Hlo); [lia|lia|]. cbn [mbind option_bind].
  destruct (Nat.eqb_spec lo 0); [eauto|]. rewrite (proj2 (Z.leb_le _ _)) by lia. cbn [mbind option_bind].
  destruct stream_total as [s ->]. cbn [mbind option_bind].
  destruct (seed_window_total n (lo - 1) s En) as (st & r & -> & Hst & Hr); [lia|]. cbn [mbind option_bind]. destruct r as [r|]; [|eauto].
  destruct Hr as [Hc Hd]. destruct (find_loop_total SYNC_INTERVAL line col st st r) as (b & r' & ->); [done|unfold room, SYNC_INTERVAL; lia|done|].
  cbn [mbind option_bind]. destruct (_ || _); eauto.
Qed.

Lemma walk_total acc : Inv acc -> exists acc', walk_windows each blob acc = Some acc' /\ Inv acc'.
Proof.
  intros Ha. destruct valid_facts as (n & off & k & En & _). unfold walk_windows. destruct stream_total as [s ->]. cbn [mbind option_bind]. rewrite En.
  cbn [mbind option_bind].
  enough (H : forall rounds i acc, i + rounds <= n -> Inv acc -> exists acc', walk_loop each blob s i rounds acc = Some acc' /\ Inv acc')
    by (by apply H).
  clear acc Ha. induction rounds as [|rounds IH]; intros i acc Hi Ha; cbn [walk_loop]; [eauto|].
  destruct (seed_window_total n i s En) as (st & r & -> & Hst & Hr); [lia|]. cbn [mbind option_bind]. destruct r as [r|]; [|eauto].
  destruct (each_total acc st Ha Hst) as (acc1 & -> & Ha1). cbn [mbind option_bind]. destruct Hr as [Hc Hd].
  destruct (window_loop_total SYNC_INTERVAL acc1 st r Ha1 Hc) as (acc2 & go_on & -> & Ha2); [unfold room, SYNC_INTERVAL; lia|done|].
  cbn [mbind option_bind]. destruct go_on; [apply IH; [lia|done]|eauto].
Qed.

Lemma braces_total : exists l, for_each_object_brace blob = Some l.
Proof.
  destruct valid_facts as (n & off & k & _ & _ & _ & Ek & _). destruct stream_total as [s Es]. unfold for_each_object_brace, braces_bytes.
  rewrite Es, Ek. cbn [mbind option_bind]. cbv zeta. destruct (Nat.leb_spec (k * 16 + STREAM_TAIL_PAD) (length s)); [|eauto].
  rewrite slice_from_Some by lia. cbn [mbind option_bind]. rewrite slice_range_Some by (rewrite ?length_drop; lia). eauto.
Qed.
End Valid.
End Total.

(** ** The standard form of any blob *)
Lemma saturating_sub_range a b : is_i32 (saturating_sub_i32 a b).
Proof. unfold saturating_sub_i32, is_i32. lia. Qed.

Lemma append_mapping_total out last_byte prev cur : exists out', append_mapping_to_buffer out last_byte prev cur = Some out'.
Proof.
  unfold append_mapping_to_buffer.
  destruct (encode_total _ (saturating_sub_range (generated_column cur) (generated_column prev))) as [v1 ->]. cbn [mbind option_bind].
  destruct (encode_total _ (saturating_sub_range (source_index cur) (source_index prev))) as [v2 ->]. cbn [mbind option_bind].
  destruct (encode_total _ (saturating_sub_range (original_line cur) (original_line prev))) as [v3 ->]. cbn [mbind option_bind].
  destruct (encode_total _ (saturating_sub_range (original_column cur) (original_column prev))) as [v4 ->]. cbn [mbind option_bind]. eauto.
Qed.

(** The line that is written to is never negative. *)
Definition line_ok (acc : Emitted) : Prop := nat_i32 (snd acc).

Lemma emit_vlq_total acc s : line_ok acc -> is_i32 (generated_line s) -> exists acc', emit_vlq acc s = Some acc' /\ line_ok acc'.
Proof.
  destruct acc as [[out prev] line]. unfold line_ok, nat_i32, is_i32. cbn [snd]. intros Hl Hs. unfold emit_vlq.
  destruct (Z.ltb_spec line (generated_line s)) as [Hlt|Hge].
  - rewrite trap_i32_Some by (unfold is_i32; lia). cbn [mbind option_bind].
    destruct (append_mapping_total (out ++ replicate (Z.to_nat (generated_line s - line)) ";"%u8)
      (default 0%Z (last (out ++ replicate (Z.to_nat (generated_line s - line)) ";"%u8))) (with_column 0 prev) s) as [out' ->].
    cbn [mbind option_bind]. eexists. split; [done|]. cbn [snd]. lia.
  - cbn [mbind option_bind]. destruct (append_mapping_total out (default 0%Z (last out)) prev s) as [out' ->].
    cbn [mbind option_bind]. eexists. split; [done|]. cbn [snd]. lia.
Qed.

Lemma append_vlq_total blob out :
  Forall is_byte blob -> is_valid_blob blob = Some true -> exists text, append_vlq_to blob out = Some text.
Proof.
  intros Hb Hv. unfold append_vlq_to.
  destruct (walk_total emit_vlq line_ok emit_vlq_total blob Hb Hv (out, State_default, 0%Z)) as ([[text p] l] & -> & _).
  { unfold line_ok, nat_i32. cbn. lia. }
  cbn [mbind option_bind]. eauto.
Qed.

Lemma for_each_total blob : Forall is_byte blob -> is_valid_blob blob = Some true -> exists l, for_each blob = Some l.
Proof.
  intros Hb Hv. unfold for_each.
  destruct (walk_total (fun acc s => Some (acc ++ [to_mapping s])) (fun _ => True)) with (blob := blob) (acc := [] : list Mapping) as (l & -> & _); eauto.
Qed.

(** ** The standard form of a list of mappings *)
Definition segment_text (prev cur : State) : bytes :=
  vlq_text (generated_column cur - generated_column prev) ++ vlq_text (source_index cur - source_index prev) ++
  vlq_text (original_line cur - original_line prev) ++ vlq_text (original_column cur - original_column prev).
Definition gap_text (line : Z) (m : State) : bytes := replicate (Z.to_nat (generated_line m - line)) ";"%u8.
Definition base_of (line : Z) (prev m : State) : State := if (line <? generated_line m)%Z then with_column 0 prev else prev.
Definition comma_text (m : State) (ms : list State) : bytes :=
  match ms with m' :: _ => if (generated_line m <? generated_line m')%Z then [] else [","%u8] | [] => [] end.
(** From a mapping on, when [prev] was the last one and [line] is its line. *)
Fixpoint text_of (prev : State) (line : Z) (ms : list State) : bytes :=
  match ms with
  | [] => []
  | m :: ms => gap_text line m ++ segment_text (base_of line prev m) m ++ comma_text m ms ++ text_of m (generated_line m) ms
  end.

Definition vlq_char (c : Z) : bool := existsb (Z.eqb c) BASE64.

Lemma vlq_text_chars z : is_i32 z -> Forall (fun c => vlq_char c = true) (vlq_text z).
Proof.
  intros Hz. unfold vlq_text. rewrite Forall_fmap. pose proof (word_range z Hz) as Hw.
  eapply Forall_impl; [apply digits_range; lia|]. intros d Hd. unfold compose, vlq_char. apply existsb_exists. exists (letter d).
  split; [|apply Z.eqb_refl]. rewrite <- list_elem_of_In. eapply list_elem_of_lookup_2, letter_facts, Hd.
Qed.

Lemma vlq_char_facts c : vlq_char c = true -> (c =? 0)%Z = false /\ (c =? ";"%u8)%Z = false /\ (c =? 34)%Z = false /\ (c =? ","%u8)%Z = false.
Proof.
  unfold vlq_char. intros [c' [Hc E]]%existsb_exists. apply Z.eqb_eq in E as <-.
  assert (H : forallb (fun c => negb (c =? 0)%Z && negb (c =? ";"%u8)%Z && negb (c =? 34)%Z && negb (c =? ","%u8)%Z) BASE64 = true) by by vm_compute.
  rewrite forallb_forall in H. specialize (H c Hc). rewrite !andb_true_iff, !negb_true_iff in H. tauto.
Qed.

Lemma position_sub (f : State -> Z) s t : nat_i32 (f s) -> nat_i32 (f t) -> is_i32 (f t - f s) /\ (f t - f s)%Z <> (-2147483648)%Z.
Proof. unfold nat_i32, is_i32. lia. Qed.

Definition needs_comma (out : bytes) : bool :=
  let b := default 0%Z (last out) in negb (b =? 0)%Z && negb (b =? ";"%u8)%Z && negb (b =? 34)%Z.

Lemma append_mapping_spec out prev cur :
  position_ok prev -> position_ok cur ->
  append_mapping_to_buffer out (default 0%Z (last out)) prev cur =
    Some (out ++ (if needs_comma out then [","%u8] else []) ++ segment_text prev cur).
Proof.
  intros (_ & P2 & P3 & P4 & P5) (_ & C2 & C3 & C4 & C5). unfold append_mapping_to_buffer.
  assert (H : forall a b, nat_i32 a -> nat_i32 b -> exists v, encode (saturating_sub_i32 a b) = Some v /\ vlq_slice v = vlq_text (a - b)).
  { intros a b Ha Hb. unfold nat_i32 in *. replace (saturating_sub_i32 a b) with (a - b)%Z by (unfold saturating_sub_i32; lia).
    apply encode_spec; unfold is_i32; lia. }
  destruct (H _ _ C2 P2) as (v1 & -> & S1), (H _ _ C3 P3) as (v2 & -> & S2), (H _ _ C4 P4) as (v3 & -> & S3), (H _ _ C5 P5) as (v4 & -> & S4).
  cbn [mbind option_bind]. by rewrite S1, S2, S3, S4.
Qed.

Lemma vlq_text_end z : is_i32 z -> exists l c, vlq_text z = l ++ [c] /\ vlq_char c = true.
Proof.
  intros Hz. pose proof (vlq_text_chars z Hz) as H. pose proof (vlq_text_length z) as Hl.
  destruct (vlq_text z) as [|c l] using rev_ind; [cbn in Hl; lia|]. apply Forall_app in H as [_ H]. apply Forall_cons in H as [H _]. exists l, c. split; [done|exact H].
Qed.

Lemma vlq_text_start z : is_i32 z -> exists c l, vlq_text z = c :: l /\ vlq_char c = true.
Proof.
  intros Hz. pose proof (vlq_text_chars z Hz) as H. pose proof (vlq_text_length z) as Hl.
  destruct (vlq_text z) as [|c l]; [cbn in Hl; lia|]. apply Forall_cons in H as [H _]. by exists c, l.
Qed.

(** The last byte of a mapping asks for a comma. *)
Lemma needs_comma_segment out prev m : position_ok prev -> position_ok m -> needs_comma (out ++ segment_text prev m) = true.
Proof.
  intros (_ & _ & _ & _ & P) (_ & _ & _ & _ & C). unfold segment_text.
  destruct (vlq_text_end (original_column m - original_column prev)) as (l & c & -> & Hc); [exact (proj1 (position_sub original_column prev m P C))|].
  unfold needs_comma. rewrite !app_assoc, last_snoc. cbn [default]. destruct (vlq_char_facts c Hc) as (E1 & E2 & E3 & _).
  cbn [from_option]. unfold id. by rewrite E1, E2, E3.
Qed.

Lemma needs_comma_gap out n : 0 < n -> needs_comma (out ++ replicate n ";"%u8) = false.
Proof.
  intros Hn. unfold needs_comma. destruct n as [|n]; [lia|]. rewrite replicate_S_end, app_assoc, last_snoc. done.
Qed.

Lemma base_of_ok line prev m : position_ok prev -> position_ok (base_of line prev m).
Proof. unfold base_of. destruct (_ <? _)%Z; [|done]. intros (? & ? & ? & ? & ?). by splits. Qed.

(** Lines that do not go back. *)
Fixpoint lines_up (line : Z) (ms : list State) : Prop :=
  match ms with [] => True | m :: ms => (line <= generated_line m)%Z /\ lines_up (generated_line m) ms end.

Lemma emit_text ms out prev line :
  nat_i32 line -> lines_up line ms -> position_ok prev -> Forall position_ok ms ->
  exists prev' line', fold_each emit_vlq (out, prev, line) ms =
    Some (out ++ (match ms with m :: _ => if (line <? generated_line m)%Z then [] else if needs_comma out then [","%u8] else [] | [] => [] end) ++
      text_of prev line ms, prev', line').
Proof.
  intros Hl Hup Hp Hms. revert out prev line Hl Hup Hp. induction Hms as [|m ms Hm Hms IH]; intros out prev line Hl Hup Hp; cbn [fold_each text_of].
  - exists prev, line. by rewrite !app_nil_r.
  - destruct Hup as [Hle Hup]. pose proof (base_of_ok line prev m Hp) as Hbase.
    assert (Hml : nat_i32 (generated_line m)) by apply Hm.
    set (comma := if (line <? generated_line m)%Z then [] else if needs_comma out then [","%u8] else []).
    assert (E : emit_vlq (out, prev, line) m = Some ((out ++ comma) ++ gap_text line m ++ segment_text (base_of line prev m) m, m, generated_line m)).
    { unfold emit_vlq, comma, gap_text, base_of in *. destruct (Z.ltb_spec line (generated_line m)) as [Hlt|Hge].
      - rewrite trap_i32_Some by (unfold is_i32, nat_i32 in *; lia). cbn [mbind option_bind]. rewrite append_mapping_spec by done.
        rewrite needs_comma_gap by lia. cbn [mbind option_bind app]. by rewrite app_nil_r, <- app_assoc.
      - cbn [mbind option_bind]. rewrite append_mapping_spec by done. cbn [mbind option_bind].
        assert (line = generated_line m) as -> by lia. rewrite Z.sub_diag. cbn [Z.to_nat replicate app]. by rewrite <- app_assoc. }
    rewrite E. cbn [mbind option_bind]. destruct (IH ((out ++ comma) ++ gap_text line m ++ segment_text (base_of line prev m) m) m (generated_line m)) as (p' & l' & ->);
      [done|done|done|]. exists p', l'. do 3 f_equal. rewrite (app_assoc (out ++ comma)), needs_comma_segment by done.
    unfold comma_text. rewrite <- !app_assoc. do 5 f_equal.
Qed.

(** ** Reading the standard form *)
Lemma next_field_text a x rest :
  nat_i32 a -> nat_i32 x -> next_field a (vlq_text (x - a) ++ rest) = Some (Ok (x, rest)).
Proof.
  intros Ha Hx. unfold nat_i32 in *. unfold next_field.
  pose proof (decode_text (x - a) [] rest ltac:(unfold is_i32; lia) ltac:(lia)) as E. cbn [app length Nat.add] in E. rewrite E.
  cbn [mbind option_bind start value]. pose proof (vlq_text_length (x - a)) as Hl.
  rewrite (proj2 (Nat.eqb_neq _ _)) by lia. unfold accumulate. replace (a + (x - a))%Z with x by lia.
  rewrite trap_i32_Some by (unfold is_i32; lia). rewrite (proj2 (Z.leb_le _ _)) by lia. cbn [try_bind mbind option_bind].
  rewrite slice_from_Some by (rewrite length_app; lia). cbn [mbind option_bind]. by rewrite drop_app_length.
Qed.

(** What can follow a segment. *)
Definition ends (rest : bytes) : bool :=
  match rest with [] => true | _ => starts_with_byte ","%u8 rest || starts_with_byte ";"%u8 rest end.

Lemma ends_vlq z rest : is_i32 z -> ends (vlq_text z ++ rest) = false.
Proof.
  intros Hz. destruct (vlq_text_start z Hz) as (c & l & -> & Hc). destruct (vlq_char_facts c Hc) as (_ & E2 & _ & E4).
  cbn [app ends starts_with_byte]. by rewrite E2, E4.
Qed.

Lemma text_of_starts prev line m ms :
  position_ok prev -> position_ok m -> (line <= generated_line m)%Z ->
  exists c l, text_of prev line (m :: ms) = c :: l /\ ((c =? ";"%u8)%Z = (line <? generated_line m)%Z).
Proof.
  intros Hp Hm Hle. cbn [text_of]. unfold gap_text. destruct (Z.ltb_spec line (generated_line m)) as [Hlt|Hge].
  - destruct (Z.to_nat (generated_line m - line)) as [|n] eqn:En; [lia|]. cbn [replicate app]. eexists _, _. split; [done|done].
  - assert (generated_line m - line = 0)%Z as -> by lia. cbn [Z.to_nat replicate app].
    pose proof (base_of_ok line prev m Hp) as (_ & B & _). destruct Hm as (_ & C & _).
    unfold segment_text. destruct (vlq_text_start (generated_column m - generated_column (base_of line prev m))) as (c & l & -> & Hc);
      [exact (proj1 (position_sub generated_column _ m B C))|].
    cbn [app]. eexists _, _. split; [done|]. apply vlq_char_facts, Hc.
Qed.

Lemma comma_ends m ms :
  position_ok m -> Forall position_ok ms -> lines_up (generated_line m) ms ->
  let rest := comma_text m ms ++ text_of m (generated_line m) ms in
  ends rest = true /\ skip_comma rest = text_of m (generated_line m) ms.
Proof.
  intros Hm Hms Hup. cbv zeta. destruct ms as [|m' ms]; [done|]. cbn [lines_up] in Hup. destruct Hup as [Hle _].
  apply Forall_cons in Hms as [Hm' _]. unfold comma_text.
  destruct (Z.ltb_spec (generated_line m) (generated_line m')) as [Hlt|Hge]; [|done].
  destruct (text_of_starts m (generated_line m) m' ms Hm Hm' Hle) as (c & l & -> & Hc). rewrite (proj2 (Z.ltb_lt _ _) Hlt) in Hc.
  cbn [app]. unfold ends, skip_comma, starts_with_byte. rewrite Hc, orb_true_r. apply Z.eqb_eq in Hc as ->. done.
Qed.

Section Parse.
Variable spare : bytes -> nat -> bytes.
Hypothesis spare_length : forall ws n, length (spare ws n) = n.

(** The numbers that a segment is relative to are those of [prev]. *)
Definition same_base (s prev : State) : Prop :=
  generated_column s = generated_column prev /\ source_index s = source_index prev /\
  original_line s = original_line prev /\ original_column s = original_column prev.

Lemma segment_spec b t s prev m rest :
  same_base s prev -> position_ok prev -> position_ok m -> ends rest = true ->
  has_taken b t -> (taken_line t + taken_separators t = generated_line m)%Z ->
  Forall position_ok (taken_maps t) -> (Z.of_nat (length (taken_maps t)) < 2 ^ 27)%Z ->
  exists b' s', vlq_segment spare (Build_VlqState (segment_text prev m ++ rest) b s) = Some (Ok (Build_VlqState (skip_comma rest) b' s')) /\
    has_taken b' (take_op t (Map m)) /\ same_base s' m.
Proof.
  intros (E1 & E2 & E3 & E4) (_ & P2 & P3 & P4 & P5) Hm Hr Ht Hline Hok Hlen. pose proof Hm as (C1 & C2 & C3 & C4 & C5).
  unfold vlq_segment, segment_text. rewrite <- !app_assoc, E1, next_field_text by done. cbn [try_bind mbind option_bind].
  assert (He : forall rem : bytes, match rem with [] => true | _ => starts_with_byte ","%u8 rem || starts_with_byte ";"%u8 rem end = ends rem) by done.
  rewrite He, ends_vlq by exact (proj1 (position_sub source_index prev m P3 C3)).
  rewrite E2, next_field_text by done. cbn [try_bind mbind option_bind].
  rewrite E3, next_field_text by done. cbn [try_bind mbind option_bind].
  rewrite E4, next_field_text by done. cbn [try_bind mbind option_bind].
  assert (match rest with [] => false | _ => negb (starts_with_byte ","%u8 rest) && negb (starts_with_byte ";"%u8 rest) end = false) as ->.
  { unfold ends in Hr. destruct rest; [done|]. apply orb_true_iff in Hr as [-> | ->]; [done|apply andb_false_r]. }
  cbn [try_bind mbind option_bind].
  set (s' := Build_State 0 (generated_column m) (source_index m) (original_line m) (original_column m)).
  assert (Hat : at_line (taken_line t + taken_separators t) s' = m) by (rewrite Hline; by destruct m).
  destruct (append_mapping_taken spare spare_length b t s' Ht Hok) as (b' & E & Ht'); [by rewrite Hat|done|].
  exists b', s'. rewrite E. cbn [mbind option_bind]. split; [done|]. split; [|done].
  destruct t as [tl td tm tb]. cbn [take_op taken_line taken_separators] in *. rewrite Hat in Ht'.
  assert (at_line (tl + td) m = m) as ->; [|done]. rewrite Hline. by destruct m.
Qed.

Lemma separators_spec n b t rest :
  has_taken b t -> (0 <= taken_separators t)%Z -> (taken_separators t + Z.of_nat n <= 2147483647)%Z ->
  match rest with c :: _ => (c =? ";"%u8)%Z = false | [] => True end ->
  exists b', separators b (replicate n ";"%u8 ++ rest) = Some (b', rest) /\
    has_taken b' (Build_Taken (taken_line t) (taken_separators t + Z.of_nat n) (taken_maps t) (taken_braces t)).
Proof.
  revert b t. induction n as [|n IH]; intros b t Ht Hs Hn Hr.
  - exists b. split; [|destruct t; cbn; by rewrite Z.add_0_r]. cbn [replicate app]. destruct rest as [|c rest]; [done|]. cbn [separators]. by rewrite Hr.
  - cbn [replicate app separators]. change (";"%u8 =? ";"%u8)%Z with true. cbv iota.
    destruct b as [l d c k se ws p f ob], t as [tl td tm tb]. destruct Ht as ([H1 H2 H3 H4 H5 H6] & B1 & B2 & B3).
    cbn [taken_line taken_separators taken_maps taken_braces builder_line pending_generated_line_delta builder_count
      sync_entries win_stream pending_n pending finalized object_braces] in *. subst l d c.
    unfold append_line_separator. cbn [pending_generated_line_delta].
    rewrite trap_i32_Some by (unfold is_i32; lia). cbn [mbind option_bind].
    destruct (IH (Build_Builder tl (td + 1) (Z.of_nat (length tm)) k se ws p f ob) (Build_Taken tl (td + 1) tm tb)) as (b' & E & Ht').
    + split; [by split|by splits].
    + cbn. lia.
    + cbn. lia.
    + done.
    + exists b'. split; [exact E|]. cbn [taken_line taken_separators taken_maps taken_braces] in Ht'.
      by replace (td + Z.of_nat (S n))%Z with (td + 1 + Z.of_nat n)%Z by lia.
Qed.

Lemma from_vlq_loop_text ms b t s prev fuel :
  has_taken b t -> same_base s prev -> position_ok prev -> (0 <= taken_line t)%Z -> (0 <= taken_separators t)%Z ->
  lines_up (taken_line t + taken_separators t) ms -> Forall position_ok ms -> Forall position_ok (taken_maps t) ->
  (Z.of_nat (length (taken_maps t)) + Z.of_nat (length ms) <= 2 ^ 27)%Z -> length ms <= fuel ->
  exists b' t', from_vlq_loop spare fuel (Build_VlqState (text_of prev (taken_line t + taken_separators t) ms) b s) = Some (Ok b') /\
    has_taken b' t' /\ taken_maps t' = taken_maps t ++ ms /\ taken_braces t' = taken_braces t.
Proof.
  intros Ht Hs Hp Htl Htd Hup Hms. revert b t s prev fuel Ht Hs Hp Htl Htd Hup.
  induction Hms as [|m ms Hm Hms IH]; intros b t s prev fuel Ht Hs Hp Htl Htd Hup Hok Hlen Hfuel.
  - exists b, t. split; [by destruct fuel|]. by rewrite app_nil_r.
  - cbn [length] in *. destruct fuel as [|fuel]; [lia|]. destruct Hup as [Hle Hup].
    set (line := (taken_line t + taken_separators t)%Z) in *. pose proof (base_of_ok line prev m Hp) as Hbase.
    set (rest := comma_text m ms ++ text_of m (generated_line m) ms). destruct (comma_ends m ms Hm Hms Hup) as [Hends Hskip]. fold rest in Hends, Hskip.
    assert (Hbody : text_of prev line (m :: ms) = gap_text line m ++ segment_text (base_of line prev m) m ++ rest) by done.
    destruct (text_of_starts prev line m ms Hp Hm Hle) as (c & l & Hc & Hgap).
    remember (text_of prev line (m :: ms)) as txt eqn:Etxt. clear Etxt.
    (** the separators, if any *)
    assert (exists b1 s1, (if (c =? ";"%u8)%Z then '(b, rem) ← separators b txt; Some (rem, b, with_column 0 s)
        else Some (txt, b, s)) = Some (segment_text (base_of line prev m) m ++ rest, b1, s1) /\
      has_taken b1 (Build_Taken (taken_line t) (taken_separators t + (generated_line m - line)) (taken_maps t) (taken_braces t)) /\
      same_base s1 (base_of line prev m)) as (b1 & s1 & E1 & Ht1 & Hs1).
    { rewrite Hgap. unfold base_of in *. destruct (Z.ltb_spec line (generated_line m)) as [Hlt|Hge].
      - rewrite Hbody. unfold gap_text. destruct (separators_spec (Z.to_nat (generated_line m - line)) b t
          (segment_text (with_column 0 prev) m ++ rest) Ht Htd) as (b1 & E1 & Ht1).
        + destruct Hm as [Hm _]. unfold nat_i32 in Hm. unfold line in *. lia.
        + unfold segment_text. rewrite <- !app_assoc.
          destruct (vlq_text_start (generated_column m - generated_column (with_column 0 prev))) as (c' & l' & -> & Hc').
          { destruct Hm as (_ & Hm & _). cbn. unfold nat_i32, is_i32 in *. lia. }
          cbn [app]. apply vlq_char_facts, Hc'.
        + rewrite E1. cbn [mbind option_bind]. exists b1, (with_column 0 s). split; [done|]. rewrite Z2Nat.id in Ht1 by lia. split; [exact Ht1|].
          destruct Hs as (_ & ? & ? & ?). by splits.
      - assert (generated_line m - line = 0)%Z as E0 by lia. exists b, s. rewrite Hbody. unfold gap_text. rewrite E0, Z.add_0_r. split; [done|].
        split; [by destruct t|done]. }
    cbn [from_vlq_loop remain builder at_]. destruct txt as [|c0 l0]; [done|]. injection Hc as -> ->. rewrite E1. cbn [mbind option_bind].
    assert (Hcons : exists c' l', segment_text (base_of line prev m) m ++ rest = c' :: l').
    { unfold segment_text. pose proof (vlq_text_length (generated_column m - generated_column (base_of line prev m))).
      destruct (vlq_text _) as [|c' l']; [cbn in *; lia|]. cbn [app]. eauto. }
    assert (Hne : forall (B : Type) (x y : B), match segment_text (base_of line prev m) m ++ rest with [] => x | _ :: _ => y end = y)
      by (intros; destruct Hcons as (c' & l' & ->); done).
    rewrite Hne.
    set (t1 := Build_Taken _ _ _ _) in Ht1.
    assert (Hl1 : (taken_line t1 + taken_separators t1 = generated_line m)%Z) by (unfold t1, line; cbn; lia).
    destruct (segment_spec b1 t1 s1 (base_of line prev m) m rest) as (b2 & s2 & E2 & Ht2 & Hs2); try done; [cbn; lia|].
    rewrite E2. cbn [try_bind mbind option_bind]. rewrite Hskip.
    assert (Hat : at_line (generated_line m) m = m) by by destruct m.
    destruct (IH b2 (take_op t1 (Map m)) s2 m fuel) as (b' & t' & E & Ht' & Hmaps & Hbr).
    + exact Ht2.
    + exact Hs2.
    + exact Hm.
    + cbn in Hl1 |- *. rewrite Hl1. apply Hm.
    + done.
    + cbn in Hl1 |- *. by rewrite Hl1, Z.add_0_r.
    + cbn in Hl1 |- *. rewrite Hl1, Hat. apply Forall_app. split; [done|]. by apply Forall_singleton.
    + cbn. rewrite length_app. cbn. lia.
    + lia.
    + cbn in Hl1, E, Hmaps, Hbr. rewrite Hl1, Z.add_0_r in E. rewrite Hl1, Hat, <- app_assoc in Hmaps. exists b', t'. by splits.
Qed.

Lemma text_length prev line ms : length ms <= length (text_of prev line ms).
Proof.
  revert prev line. induction ms as [|m ms IH]; intros prev line; cbn [text_of length]; [done|]. rewrite !length_app.
  unfold segment_text. rewrite !length_app. pose proof (vlq_text_length (generated_column m - generated_column (base_of line prev m))).
  specialize (IH m (generated_line m)). lia.
Qed.

(** What [from_vlq] makes of a builder. *)
Lemma finish_vlq b t :
  has_taken b t -> taken_braces t = [] -> Forall position_ok (taken_maps t) -> (Z.of_nat (length (taken_maps t)) <= 2 ^ 27)%Z ->
  (b' ← finalize spare b; blob ← finalized b'; blob ← fill_header blob (builder_count b); Some (Ok blob : result FromVlqError bytes)) =
    Some (Ok (file_of (taken_maps t) [])).
Proof.
  intros Ht Hbr Hok Hlen. pose proof (windows_facts (taken_maps t)) as (_ & _ & Hw).
  destruct (finalize_spec spare spare_length b (windows_of (taken_maps t)) []) as (b' & -> & Hf & _).
  - apply Ht.
  - rewrite <- Hbr. by apply flush_taken.
  - change HEADER_SIZE with 32. lia.
  - done.
  - cbn [mbind option_bind]. rewrite Hf. cbn [mbind option_bind]. destruct Ht as (_ & _ & _ & ->). by rewrite fill_header_spec.
Qed.

Lemma from_vlq_text ms :
  Forall position_ok ms -> lines_up 0 ms -> (Z.of_nat (length ms) <= 2 ^ 27)%Z ->
  from_vlq spare (text_of State_default 0 ms) = Some (Ok (file_of ms [])).
Proof.
  intros Hok Hup Hlen. unfold from_vlq.
  destruct (from_vlq_loop_text ms builder_init nothing_taken State_default State_default (length (text_of State_default 0 ms)))
    as (b' & t' & E & Ht & Hmaps & Hbr); [apply has_taken_init|done| |done|done|done|done|constructor|done|apply text_length|].
  { unfold position_ok, nat_i32. cbn. lia. }
  change (taken_line nothing_taken + taken_separators nothing_taken)%Z with 0%Z in E. rewrite E. cbn [try_bind mbind option_bind].
  change (taken_maps nothing_taken ++ ms) with ms in Hmaps. rewrite <- Hmaps in *. by apply finish_vlq.
Qed.

(** ** Any string *)
Definition base_ok (s : State) : Prop :=
  nat_i32 (generated_column s) /\ nat_i32 (source_index s) /\ nat_i32 (original_line s) /\ nat_i32 (original_column s).

(** What is left can still be taken. *)
Record parsing (st : VlqState) (t : Taken) : Prop := {
  parsing_taken : has_taken (builder st) t;
  parsing_base : base_ok (at_ st);
  parsing_maps : Forall position_ok (taken_maps t);
  parsing_line : (0 <= taken_line t)%Z;
  parsing_separators : (0 <= taken_separators t)%Z;
  parsing_lines : (taken_line t + taken_separators t + Z.of_nat (length (remain st)) <= 2 ^ 27)%Z;
  parsing_room : (Z.of_nat (length (taken_maps t)) + Z.of_nat (length (remain st)) <= 2 ^ 27)%Z;
  parsing_braces : taken_braces t = []
}.

Lemma next_field_total a rem :
  nat_i32 a ->
  next_field a rem = Some (Err InvalidSourceMap) \/
  exists x rem', next_field a rem = Some (Ok (x, rem')) /\ nat_i32 x /\ length rem' < length rem.
Proof.
  intros Ha. unfold next_field. destruct (decode_total rem 0) as (v & -> & Hv); [lia|]. cbn [mbind option_bind].
  destruct (Nat.eqb_spec (start v) 0); [by left|]. unfold accumulate, trap_i32. destruct (_ && _) eqn:E; [|by left].
  destruct (Z.leb_spec 0 (a + value v)); [|by left]. right. cbn [try_bind mbind option_bind]. rewrite slice_from_Some by lia.
  cbn [mbind option_bind]. eexists _, _. split; [done|]. split; [unfold nat_i32; lia|]. rewrite length_drop. lia.
Qed.

Lemma next_number_total rem :
  next_number rem = Some (Err InvalidSourceMap) \/ exists x rem', next_number rem = Some (Ok (x, rem')) /\ length rem' < length rem.
Proof.
  unfold next_number. destruct (decode_total rem 0) as (v & -> & Hv); [lia|]. cbn [mbind option_bind].
  destruct (Nat.eqb_spec (start v) 0); [by left|]. right. rewrite slice_from_Some by lia. cbn [mbind option_bind].
  eexists _, _. split; [done|]. rewrite length_drop. lia.
Qed.

Lemma skip_comma_length rem : length (skip_comma rem) <= length rem.
Proof. unfold skip_comma. destruct (starts_with_byte _ _); [|done]. destruct rem; cbn; lia. Qed.

Lemma segment_total st t :
  parsing st t -> remain st <> [] ->
  vlq_segment spare st = Some (Err InvalidSourceMap) \/
  exists st' t', vlq_segment spare st = Some (Ok st') /\ parsing st' t' /\ length (remain st') < length (remain st).
Proof.
  intros [Ht (B1 & B2 & B3 & B4) Hok Hl Hs Hls Hroom Hbr] Hne. destruct st as [rem b s]. cbn [remain builder at_] in *. unfold vlq_segment.
  destruct (next_field_total (generated_column s) rem B1) as [->|(gc & r1 & -> & Hgc & L1)]; [by left|]. cbn [try_bind mbind option_bind].
  pose proof (skip_comma_length r1). destruct (match r1 with [] => true | _ => _ end).
  { right. eexists _, t. split; [done|]. split; [|cbn; lia]. split; cbn [remain builder at_]; try done; lia. }
  destruct (next_field_total (source_index s) r1 B2) as [->|(si & r2 & -> & Hsi & L2)]; [by left|]. cbn [try_bind mbind option_bind].
  destruct (next_field_total (original_line s) r2 B3) as [->|(ol & r3 & -> & Hol & L3)]; [by left|]. cbn [try_bind mbind option_bind].
  destruct (next_field_total (original_column s) r3 B4) as [->|(oc & r4 & -> & Hoc & L4)]; [by left|]. cbn [try_bind mbind option_bind].
  assert (Hnamed : (if match r4 with [] => false | _ => negb (starts_with_byte ","%u8 r4) && negb (starts_with_byte ";"%u8 r4) end
      then try_bind (next_number r4) (fun '(_, rem) => Some (Ok rem)) else Some (Ok r4)) = Some (Err InvalidSourceMap) \/
    exists r5, (if match r4 with [] => false | _ => negb (starts_with_byte ","%u8 r4) && negb (starts_with_byte ";"%u8 r4) end
      then try_bind (next_number r4) (fun '(_, rem) => Some (Ok rem)) else Some (Ok r4)) = Some (Ok r5) /\ length r5 <= length r4).
  { destruct (match r4 with [] => false | _ => _ end); [|right; by exists r4].
    destruct (next_number_total r4) as [->|(x & r5 & -> & L5)]; [by left|]. right. exists r5. split; [done|lia]. }
  destruct Hnamed as [->|(r5 & -> & L5)]; [by left|]. cbn [try_bind mbind option_bind]. right.
  set (s' := Build_State 0 gc si ol oc).
  assert (Hm : position_ok (at_line (taken_line t + taken_separators t) s')).
  { unfold position_ok, at_line, s', nat_i32 in *. cbn. splits; lia. }
  destruct (append_mapping_taken spare spare_length b t s' Ht Hok Hm) as (b' & -> & Ht'); [lia|]. cbn [mbind option_bind].
  pose proof (skip_comma_length r5). exists (Build_VlqState (skip_comma r5) b' s'), (take_op t (Map s')).
  split; [done|]. split; [|cbn; lia].
  destruct t as [tl td tm tb]. cbn [taken_line taken_separators taken_maps taken_braces take_op] in *.
  split; cbn [remain builder at_ taken_line taken_separators taken_maps taken_braces take_op]; try done.
  - apply Forall_app. split; [done|]. by apply Forall_singleton.
  - lia.
  - lia.
  - rewrite length_app. cbn [length]. lia.
Qed.

Lemma separators_split (l : bytes) :
  exists n rest, l = replicate n ";"%u8 ++ rest /\ match rest with c :: _ => (c =? ";"%u8)%Z = false | [] => True end.
Proof.
  induction l as [|c l IH]; [by exists 0, []|]. destruct (c =? ";"%u8)%Z eqn:E; [|by exists 0, (c :: l)].
  destruct IH as (n & rest & -> & Hr). exists (S n), rest. split; [|done]. cbn. f_equal. by apply Z.eqb_eq.
Qed.

Lemma separators_total st t :
  parsing st t -> exists b' rest t', separators (builder st) (remain st) = Some (b', rest) /\
    parsing (Build_VlqState rest b' (with_column 0 (at_ st))) t' /\ length rest <= length (remain st).
Proof.
  intros [Ht (B1 & B2 & B3 & B4) Hok Hl Hs Hls Hroom Hbr]. destruct (separators_split (remain st)) as (n & rest & E & Hr).
  assert (Hlen : length (remain st) = n + length rest) by (rewrite E, length_app, length_replicate; done).
  destruct (separators_spec n (builder st) t rest Ht Hs) as (b' & Eb & Ht'); [lia|done|].
  exists b', rest. eexists. rewrite E. split; [exact Eb|]. split; [|rewrite <- E; lia].
  split; cbn [remain builder at_ taken_line taken_separators taken_maps taken_braces]; [exact Ht'|..]; try done; try lia.
  all: unfold base_ok, with_column, nat_i32 in *; cbn; lia.
Qed.

Lemma from_vlq_loop_total fuel st t :
  parsing st t -> length (remain st) <= fuel ->
  from_vlq_loop spare fuel st = Some (Err InvalidSourceMap) \/
  exists b' t', from_vlq_loop spare fuel st = Some (Ok b') /\ has_taken b' t' /\ taken_braces t' = [] /\
    Forall position_ok (taken_maps t') /\ (Z.of_nat (length (taken_maps t')) <= 2 ^ 27)%Z.
Proof.
  revert st t. induction fuel as [|fuel IH]; intros st t Hp Hf.
  - right. exists (builder st), t. pose proof Hp as []. destruct (remain st) eqn:E; [|cbn in Hf; lia]. cbn [from_vlq_loop]. rewrite E.
    cbn [length] in *. splits; (done || lia).
  - cbn [from_vlq_loop]. destruct (remain st) as [|c l] eqn:E.
    { right. exists (builder st), t. destruct Hp. rewrite E in *. cbn [length] in *. splits; (done || lia). }
    assert (exists b1 rest s1 t1, (if (c =? ";"%u8)%Z then '(b, rem) ← separators (builder st) (c :: l); Some (rem, b, with_column 0 (at_ st))
        else Some (c :: l, builder st, at_ st)) = Some (rest, b1, s1) /\
      parsing (Build_VlqState rest b1 s1) t1 /\ length rest <= length (c :: l)) as (b1 & rest & s1 & t1 & -> & Hp1 & Hl1).
    { destruct (c =? ";"%u8)%Z.
      - destruct (separators_total st t Hp) as (b1 & rest & t1 & Es & Hp1 & Hl1). rewrite E in Es, Hl1. rewrite Es. cbn [mbind option_bind]. eauto 10.
      - exists (builder st), (c :: l), (at_ st), t. split; [done|]. split; [|done]. rewrite <- E. by destruct st. }
    cbn [mbind option_bind]. destruct rest as [|c' rest'] eqn:Er.
    { right. exists b1, t1. destruct Hp1. cbn [remain builder length] in *. splits; (done || lia). }
    rewrite <- Er in *. assert (Hne : remain (Build_VlqState rest b1 s1) <> []) by (cbn; by rewrite Er).
    destruct (segment_total _ _ Hp1 Hne) as [->|(st' & t' & -> & Hp' & Hl')]; [by left|]. cbn [try_bind mbind option_bind].
    apply (IH st' t' Hp'). cbn [remain] in Hl'. lia.
Qed.

Lemma from_vlq_total vlq :
  (Z.of_nat (length vlq) <= 2 ^ 27)%Z ->
  from_vlq spare vlq = Some (Err InvalidSourceMap) \/
  exists ms, from_vlq spare vlq = Some (Ok (file_of ms [])) /\ fits ms [].
Proof.
  intros Hl. unfold from_vlq. set (st := Build_VlqState vlq builder_init State_default).
  assert (Hp : parsing st nothing_taken).
  { split; cbn [st remain builder at_ nothing_taken taken_line taken_separators taken_maps taken_braces length]; try done; try lia. }
  destruct (from_vlq_loop_total (length vlq) st nothing_taken Hp) as [->|(b & t & -> & Ht & Hbr & Hok & Hlen)]; [done|by left|].
  right. exists (taken_maps t). cbn [try_bind mbind option_bind]. split; [by apply finish_vlq|]. split; (done || constructor).
Qed.
End Parse.

(** ** What the blobs promise *)

(** A printed chunk with an internal map: the operations of the printer, and then the blob
    with its header filled in. *)
Definition generate (spare : bytes -> nat -> bytes) (ops : list PrintOp) : option bytes :=
  b ← run_prints spare builder_init ops;
  '(blob, _) ← finalize_take spare b;
  fill_header blob (builder_count b).

Section Generate.
Context (spare : bytes -> nat -> bytes) (spare_length : forall ws n, length (spare ws n) = n).

(** The marks are [i32]s too: a brace is marked with the numbers of a mapping. *)
Definition printed_ok (op : PrintOp) : Prop :=
  match op with Map current => position_ok current | Brace last => position_ok last | Separator => True end.

Lemma printed_op_ok op : printed_ok op -> op_ok op.
Proof. by destruct op. Qed.

Lemma taken_lines_up t ops :
  Forall printed_ok ops -> (0 <= taken_line t)%Z -> (0 <= taken_separators t)%Z ->
  (taken_line t + taken_separators t + Z.of_nat (length ops) <= 2 ^ 27)%Z -> Forall brace_ok (taken_braces t) ->
  Forall brace_ok (taken_braces (foldl take_op t ops)) /\
  exists ms, taken_maps (foldl take_op t ops) = taken_maps t ++ ms /\ lines_up (taken_line t + taken_separators t) ms.
Proof.
  intros Hops. revert t. induction Hops as [|op ops Hop Hops IH]; intros t Hl Hs Hb Hbr; cbn [foldl].
  - split; [done|]. exists []. by rewrite app_nil_r.
  - cbn [length] in Hb. destruct t as [tl td tm tb]. cbn [taken_line taken_separators taken_maps taken_braces] in *.
    destruct op as [|current|last]; cbn [take_op].
    + destruct (IH (Build_Taken tl (td + 1) tm tb)) as (H & ms & E & Hup); cbn; [lia|lia|lia|done|]. split; [done|].
      exists ms. split; [done|]. clear -Hup. destruct ms as [|m ms]; [done|]. cbn in *. split; [lia|tauto].
    + destruct (IH (Build_Taken (tl + td) 0 (tm ++ [at_line (tl + td) current]) tb)) as (H & ms & E & Hup); cbn; [lia|lia|lia|done|].
      split; [done|]. exists (at_line (tl + td) current :: ms). cbn [taken_maps taken_line taken_separators] in *. rewrite E, <- app_assoc.
      split; [done|]. cbn. split; [lia|]. by rewrite Z.add_0_r in Hup.
    + set (mark := {| brace_generated := _; brace_original := _ |}).
      destruct (IH (Build_Taken tl td tm (tb ++ [mark]))) as (H & ms & E & Hup); cbn [taken_line taken_separators taken_maps taken_braces] in *; [lia|lia|lia| |].
      { apply Forall_app. split; [done|]. apply Forall_singleton. destruct Hop as (_ & ? & _ & ? & ?).
        unfold brace_ok, mark, nat_i32, is_i32 in *. cbn. lia. }
      split; [done|]. by exists ms.
Qed.

Lemma generate_spec ops :
  (Z.of_nat (length ops) <= 2 ^ 27)%Z -> Forall printed_ok ops ->
  let t := taken_by ops in
  generate spare ops = Some (file_of (taken_maps t) (taken_braces t)) /\ fits (taken_maps t) (taken_braces t) /\ lines_up 0 (taken_maps t).
Proof.
  intros Hl Hops. cbv zeta. destruct (build_spec spare spare_length ops Hl) as (b & b' & E & Hc & Ef & Hpos).
  { eapply Forall_impl; [exact Hops|]. apply printed_op_ok. }
  destruct (taken_lines_up nothing_taken ops Hops) as (Hbr & ms & Hms & Hup); [done|done|cbn; lia|constructor|]. fold (taken_by ops) in *.
  pose proof (taken_sizes nothing_taken ops) as Hs. fold (taken_by ops) in Hs. cbn [nothing_taken taken_maps taken_braces length app] in Hs, Hms.
  split; [|split].
  - unfold generate. rewrite E. cbn [mbind option_bind]. rewrite Ef. cbn [mbind option_bind]. by rewrite Hc, fill_header_spec.
  - split; (done || lia).
  - by rewrite Hms.
Qed.

Lemma generate_reads_back ops :
  (Z.of_nat (length ops) <= 2 ^ 27)%Z -> Forall printed_ok ops ->
  exists blob, generate spare ops = Some blob /\ is_valid_blob blob = Some true /\
    mapping_count blob = Some (length (taken_maps (taken_by ops))) /\
    for_each blob = Some (map to_mapping (taken_maps (taken_by ops))) /\
    for_each_object_brace blob = Some (taken_braces (taken_by ops)).
Proof.
  intros Hl Hops. destruct (generate_spec ops Hl Hops) as (E & Hf & _). eexists. split; [exact E|].
  splits; [by apply is_valid_blob_file|by apply mapping_count_file|by apply for_each_file|by apply for_each_object_brace_file].
Qed.

Lemma generate_vlq ops :
  (Z.of_nat (length ops) <= 2 ^ 27)%Z -> Forall printed_ok ops -> taken_braces (taken_by ops) = [] ->
  exists blob text, generate spare ops = Some blob /\ append_vlq_to blob [] = Some text /\ from_vlq spare text = Some (Ok blob).
Proof.
  intros Hl Hops Hbr. destruct (generate_spec ops Hl Hops) as (E & Hf & Hup). eexists _, _. split; [exact E|].
  unfold append_vlq_to. rewrite walk_file by done. destruct Hf as [F1 _ F3 _].
  destruct (emit_text (taken_maps (taken_by ops)) [] State_default 0%Z) as (p & l & Et); [unfold nat_i32; lia|done| |done|].
  { unfold position_ok, nat_i32. cbn. lia. }
  rewrite Et. cbn [mbind option_bind]. split; [reflexivity|]. rewrite Hbr. cbn [app].
  assert ((match taken_maps (taken_by ops) with [] => [] | m :: _ => if (0 <? generated_line m)%Z then [] else if needs_comma [] then [","%u8] else [] end) = []) as ->.
  { destruct (taken_maps (taken_by ops)); [done|]. by destruct (_ <? _)%Z. }
  cbn [app]. by apply from_vlq_text.
Qed.
End Generate.

(** Spare bytes for the witnesses, and a printed chunk. *)
Definition stale : bytes -> nat -> bytes := fun _ n => replicate n 170%Z.
Lemma stale_length ws n : length (stale ws n) = n.
Proof. apply length_replicate. Qed.
Definition sample_ops : list PrintOp := [
  Map (Build_State 0 0 0 0 0); Map (Build_State 0 4 0 0 4); Separator; Separator; Map (Build_State 0 2 1 5 0);
  Map (Build_State 0 9 1 5 300); Separator; Map (Build_State 0 0 0 7 1)].
Definition marked_ops : list PrintOp := sample_ops ++ [Brace (Build_State 0 0 0 7 1)].
Lemma marked_ops_ok : Forall printed_ok marked_ops.
Proof. repeat constructor; vm_compute; discriminate. Qed.
Lemma sample_ops_ok : Forall printed_ok sample_ops.
Proof. repeat constructor; vm_compute; discriminate. Qed.

(** C10. A blob that was built from up to [2 ^ 27] mappings, separators and marks is valid,
    and reading it gives back the mappings, in order, on the lines that the separators put
    them on, and the marked braces. *)
Theorem blob_reads_back spare ops :
  (forall ws n, length (spare ws n) = n) -> (Z.of_nat (length ops) <= 2 ^ 27)%Z -> Forall printed_ok ops ->
  exists blob, generate spare ops = Some blob /\ is_valid_blob blob = Some true /\
    mapping_count blob = Some (length (taken_maps (taken_by ops))) /\
    for_each blob = Some (map to_mapping (taken_maps (taken_by ops))) /\
    for_each_object_brace blob = Some (taken_braces (taken_by ops)).
Proof. intros Hs Hl Hops. by apply generate_reads_back. Qed.
Lemma blob_reads_back_witness :
  exists blob, generate stale marked_ops = Some blob /\ is_valid_blob blob = Some true /\ mapping_count blob = Some 5 /\
    for_each blob = Some (map to_mapping (taken_maps (taken_by marked_ops))) /\
    for_each_object_brace blob = Some (taken_braces (taken_by marked_ops)).
Proof. apply (blob_reads_back stale marked_ops); [exact stale_length|done|exact marked_ops_ok]. Defined.

(** C11. Lookup in a blob whose mappings are in generated order, by binary search over the
    windows and then difference by difference, gives the last mapping at or before the
    position, if it is on the same line, and nothing otherwise. *)
Theorem find_is_last_before spare ops line col :
  (forall ws n, length (spare ws n) = n) -> (Z.of_nat (length ops) <= 2 ^ 27)%Z -> Forall printed_ok ops ->
  StronglySorted pos_le (taken_maps (taken_by ops)) ->
  exists blob, generate spare ops = Some blob /\
    find blob line col = Some (to_mapping <$> find_ref (taken_maps (taken_by ops)) line col).
Proof.
  intros Hs Hl Hops Hsort. destruct (generate_spec spare Hs ops Hl Hops) as (E & Hf & _). eexists. split; [exact E|]. by apply find_file.
Qed.
Lemma find_is_last_before_witness :
  exists blob, generate stale sample_ops = Some blob /\
    find blob 2 8 = Some (Some (to_mapping (Build_State 2 2 1 5 0))).
Proof.
  apply (find_is_last_before stale sample_ops 2 8); [exact stale_length|done|exact sample_ops_ok|].
  repeat constructor; vm_compute; reflexivity.
Defined.

(** C12. On any bytes that [is_valid_blob] accepts, corrupt ones included, lookup and both
    walks end, read inside the blob, and neither overflow nor panic. *)
Theorem valid_blob_safe blob :
  Forall is_byte blob -> is_valid_blob blob = Some true ->
  (forall line col, exists m, find blob line col = Some m) /\ (exists ms, for_each blob = Some ms) /\
  (exists bs, for_each_object_brace blob = Some bs) /\ (forall out, exists text, append_vlq_to blob out = Some text).
Proof.
  intros Hb Hv. splits.
  - intros line col. by apply find_total.
  - by apply for_each_total.
  - by apply braces_total.
  - intros out. by apply append_vlq_total.
Qed.
Lemma valid_blob_safe_witness :
  let blob := le_split 8 89 ++ replicate 16 0%Z ++ le_split 4 1 ++ le_split 4 56 ++ replicate 24 255%Z ++ replicate 33 255%Z in
  (forall line col, exists m, find blob line col = Some m) /\ (exists ms, for_each blob = Some ms) /\
  (exists bs, for_each_object_brace blob = Some bs) /\ (forall out, exists text, append_vlq_to blob out = Some text).
Proof.
  intros blob. apply (valid_blob_safe blob); [|reflexivity]. apply (bool_decide_unpack _). by vm_compute.
Defined.

(** C28. A blob without marks that is written as a standard mappings string and read back by
    [from_vlq] is the same blob, byte for byte. *)
Theorem vlq_text_round_trip spare ops :
  (forall ws n, length (spare ws n) = n) -> (Z.of_nat (length ops) <= 2 ^ 27)%Z -> Forall printed_ok ops ->
  taken_braces (taken_by ops) = [] ->
  exists blob text, generate spare ops = Some blob /\ append_vlq_to blob [] = Some text /\ from_vlq spare text = Some (Ok blob).
Proof. intros Hs Hl Hops Hbr. by apply generate_vlq. Qed.
Lemma vlq_text_round_trip_witness :
  exists blob text, generate stale sample_ops = Some blob /\ append_vlq_to blob [] = Some text /\ from_vlq stale text = Some (Ok blob).
Proof. apply (vlq_text_round_trip stale sample_ops); [exact stale_length|done|exact sample_ops_ok|reflexivity]. Defined.

(** C29. [from_vlq] ends on any string of up to [2 ^ 27] bytes without a panic: it refuses it,
    or gives a valid blob of mappings whose coordinates are not negative. *)
Theorem from_vlq_ends spare vlq :
  (forall ws n, length (spare ws n) = n) -> (Z.of_nat (length vlq) <= 2 ^ 27)%Z ->
  from_vlq spare vlq = Some (Err InvalidSourceMap) \/
  exists blob ms, from_vlq spare vlq = Some (Ok blob) /\ is_valid_blob blob = Some true /\
    for_each blob = Some (map to_mapping ms) /\ Forall position_ok ms.
Proof.
  intros Hs Hl. destruct (from_vlq_total spare Hs vlq Hl) as [?|(ms & E & Hf)]; [by left|]. right. eexists _, ms. split; [exact E|].
  splits; [by apply is_valid_blob_file|by apply for_each_file|apply Hf].
Qed.
Lemma from_vlq_ends_witness :
  from_vlq stale (bstr "AAAA,DAAA") = Some (Err InvalidSourceMap) \/
  exists blob ms, from_vlq stale (bstr "AAAA,DAAA") = Some (Ok blob) /\ is_valid_blob blob = Some true /\
    for_each blob = Some (map to_mapping ms) /\ Forall position_ok ms.
Proof. apply (from_vlq_ends stale (bstr "AAAA,DAAA")); [exact stale_length|done]. Defined.
