(* ===== verification/SourceMapChunk.v ===== *)
(** * Mapping a printed chunk (src/sourcemap/Chunk.rs)

    The printer asks for a mapping when it prints something that has a location in the
    source.  The chunk builder looks the location up (LineOffsetTable.v), scans what was
    printed since the last mapping for its line and column, and appends the mapping to a
    mappings string or to the builder of an internal map (SourceMapBuilder.v).  It works on
    the bytes, in windows, and skips ASCII; [print_char] and [request] say character by
    character what it does. *)

From S2P Require Import Prelude Wtf8 LineOffsetTable SourceMapWindow SourceMapBuilder SourceMap.

(** ** The two formats *)

(** [VLQSourceMap]: a mappings string in [data], or a builder. *)
Record VLQSourceMap := {
  data : bytes;
  internal : option Builder;
  ctx_count : Z;
  ctx_offset : nat
}.

Definition ctx_default : VLQSourceMap := Build_VLQSourceMap [] None 0 0.
Definition ctx_init (prepend_count : bool) : VLQSourceMap :=
  if prepend_count then Build_VLQSourceMap [] (Some builder_init) 0 0 else ctx_default.

Section Ctx.
(** What the spare capacity of the builder's stream holds. *)
Context (spare : bytes -> nat -> bytes).

Definition ctx_append_line_separator (s : VLQSourceMap) : option VLQSourceMap :=
  let '(Build_VLQSourceMap data internal count offset) := s in
  match internal with
  | Some b => b ← append_line_separator b; Some (Build_VLQSourceMap data (Some b) count offset)
  | None => Some (Build_VLQSourceMap (data ++ [";"%u8]) None count offset)
  end.

Definition ctx_append (current_state prev_state : State) (s : VLQSourceMap) : option VLQSourceMap :=
  let '(Build_VLQSourceMap data internal count offset) := s in
  match internal with
  | Some b => b ← append_mapping spare current_state b; Some (Build_VLQSourceMap data (Some b) (count + 1) offset)
  | None =>
      let last_byte := if (offset <? length data)%nat then default 0 (last data) else 0 in
      data ← append_mapping_to_buffer data last_byte prev_state current_state;
      Some (Build_VLQSourceMap data None (count + 1) offset)
  end.

Definition ctx_should_ignore (s : VLQSourceMap) : bool := ctx_count s =? 0.

(** [get_buffer]: the buffer is [data] afterwards. *)
Definition ctx_get_buffer (s : VLQSourceMap) : option VLQSourceMap :=
  let '(Build_VLQSourceMap data internal count offset) := s in
  match internal with
  | Some b => '(data, _) ← finalize_take spare b; Some (Build_VLQSourceMap data None count offset)
  | None => Some s
  end.

Definition ctx_take_buffer (s : VLQSourceMap) : option (bytes * VLQSourceMap) :=
  s ← ctx_get_buffer s;
  Some (data s, Build_VLQSourceMap [] (internal s) (ctx_count s) (ctx_offset s)).

(** ** The builder of a chunk *)

Inductive LineOffsetTables :=
  | NoTables
  | Borrowed (list_ : list LineOffsetTable)
  | Deferred (contents : bytes) (approximate_line_count : Z)
  | Owned (list_ : list LineOffsetTable).

Definition tables_len (t : LineOffsetTables) : nat :=
  match t with Borrowed l | Owned l => length l | NoTables | Deferred _ _ => 0 end.
Definition tables_columns (t : LineOffsetTables) : list Z * list Z :=
  match t with
  | Borrowed l | Owned l => (map byte_offset_to_start_of_line l, map byte_offset_to_first_non_ascii l)
  | NoTables | Deferred _ _ => ([], [])
  end.
Definition tables_columns_for_non_ascii (t : LineOffsetTables) (line : nat) : option (list Z) :=
  match t with
  | Borrowed l | Owned l => columns_for_non_ascii <$> l !! line
  | NoTables | Deferred _ _ => Some []
  end.

Record NewBuilder := {
  source_map : VLQSourceMap;
  line_offset_tables : LineOffsetTables;
  prev_state : State;
  last_generated_update : nat;
  gen_column : Z;
  prev_loc : Z;
  has_prev_state : bool;
  byte_offset_list : list Z;
  first_non_ascii_list : list Z;
  line_starts_with_mapping : bool;
  cover_lines_without_mappings : bool;
  prepend_count : bool
}.

(** What scanning and appending change: the rest of the builder is kept. *)
Definition with_scan (b : NewBuilder) (sm : VLQSourceMap) (ps : State) (lgu : nat) (gc : Z) (hp ls : bool) : NewBuilder :=
  let '(Build_NewBuilder _ t _ _ _ pl _ bo fn _ cl pc) := b in
  Build_NewBuilder sm t ps lgu gc pl hp bo fn ls cl pc.

Definition with_generated_column (b : NewBuilder) (gc : Z) : NewBuilder :=
  with_scan b (source_map b) (prev_state b) (last_generated_update b) gc (has_prev_state b) (line_starts_with_mapping b).

Definition append_mapping_without_remapping (current_state : State) (b : NewBuilder) : option NewBuilder :=
  sm ← ctx_append current_state (prev_state b) (source_map b);
  Some (with_scan b sm current_state (last_generated_update b) (gen_column b) true (line_starts_with_mapping b)).

Definition chunk_mark_object_brace (b : NewBuilder) : NewBuilder :=
  let '(Build_VLQSourceMap data internal count offset) := source_map b in
  match internal with
  | Some i =>
      with_scan b (Build_VLQSourceMap data (Some (mark_object_brace (prev_state b) i)) count offset) (prev_state b)
        (last_generated_update b) (gen_column b) (has_prev_state b) (line_starts_with_mapping b)
  | None => b
  end.

(** The previous mapping again, at the start of the line. *)
Definition start_of_line (s : State) : State := {|
  generated_line := generated_line s;
  generated_column := 0;
  source_index := source_index s;
  original_line := original_line s;
  original_column := original_column s
|}.

(** ** Scanning what was printed *)

Definition UNICODE_REPLACEMENT : Z := 0xFFFD.

Definition needs_mapping_now (b : NewBuilder) : bool :=
  cover_lines_without_mappings b && negb (line_starts_with_mapping b) && has_prev_state b.

(** A newline: the arm of the match. *)
Definition scan_newline (needs_mapping : bool) (b : NewBuilder) : option NewBuilder :=
  b ← (if needs_mapping then append_mapping_without_remapping (start_of_line (prev_state b)) b else Some b);
  let ps := prev_state b in
  line ← trap_i32 (generated_line ps + 1);
  let ps := Build_State line 0 (source_index ps) (original_line ps) (original_column ps) in
  sm ← ctx_append_line_separator (source_map b);
  Some (with_scan b sm ps (last_generated_update b) 0 (has_prev_state b) false).

(** One round of [while i < n]: the builder, [i] and [needs_mapping], and whether to go on. *)
Definition scan_rune (output slice : bytes) (b : NewBuilder) (i : nat) (needs_mapping : bool)
    : option (NewBuilder * nat * bool * bool) :=
  first ← slice !! i;
  let len := wtf8_byte_sequence_length first in
  let take_ := Nat.min len (length slice - i) in
  let c := decode_wtf8_rune_t (cp_bytes (drop i slice) take_) len UNICODE_REPLACEMENT in
  let i := (i + len)%nat in
  if in_range 14 127 c then
    next ← index_of_newline_or_non_ascii slice i;
    match next with
    | Some j =>
        gc ← trap_i32 (gen_column b + Z.of_nat (j - i + 1));
        Some (with_generated_column b gc, j, needs_mapping, true)
    | None =>
        remaining ← slice_from slice i;
        gc ← trap_i32 (gen_column b + Z.of_nat (length remaining) + 1);
        Some (with_generated_column b gc, i, needs_mapping, false)
    end
  else if is_newline c then
    let newline_check := (last_generated_update b + i + 1)%nat in
    if (c =? 0x0D) && (newline_check <? length output)%nat && bool_decide (output !! newline_check = Some 0x0A)
    then Some (b, i, needs_mapping, true)
    else
      b ← scan_newline needs_mapping b;
      Some (b, i, needs_mapping_now b, true)
  else
    gc ← trap_i32 (gen_column b + (if 0xFFFF <? c then 1 else 0) + 1);
    Some (with_generated_column b gc, i, needs_mapping, true).

Fixpoint scan_loop (fuel : nat) (output slice : bytes) (b : NewBuilder) (i : nat) (needs_mapping : bool) : option NewBuilder :=
  if (i <? length slice)%nat then
    match fuel with
    | O => None
    | S fuel =>
        '(b, i, needs_mapping, more) ← scan_rune output slice b i needs_mapping;
        if more : bool then scan_loop fuel output slice b i needs_mapping else Some b
    end
  else Some b.

Definition with_last_update (b : NewBuilder) (n : nat) : NewBuilder :=
  with_scan b (source_map b) (prev_state b) n (gen_column b) (has_prev_state b) (line_starts_with_mapping b).

Definition update_generated_line_and_column_slow (output : bytes) (b : NewBuilder) : option NewBuilder :=
  slice ← slice_from output (last_generated_update b);
  b ← scan_loop (length slice) output slice b 0 (needs_mapping_now b);
  Some (with_last_update b (as_u32 (length output))).

Definition update_generated_line_and_column (output : bytes) (b : NewBuilder) : option NewBuilder :=
  slice ← slice_from output (last_generated_update b);
  pure_ascii ←
    (if (length slice <? 16)%nat then Some (negb (existsb (fun b => (127 <? b) || (b <? 0x20)) slice))
     else next ← index_of_newline_or_non_ascii slice 0; Some (bool_decide (next = None)));
  if pure_ascii : bool then
    gc ← trap_i32 (gen_column b + Z.of_nat (length slice));
    Some (with_last_update (with_generated_column b gc) (as_u32 (length output)))
  else update_generated_line_and_column_slow output b.

(** ** A mapping *)

(** The cached columns are fetched when their number is not that of the lines. *)
Definition cached_columns (b : NewBuilder) : list Z * list Z :=
  if (length (byte_offset_list b) =? tables_len (line_offset_tables b))%nat
  then (byte_offset_list b, first_non_ascii_list b)
  else tables_columns (line_offset_tables b).

(** Line and column of [loc] in the source. *)
Definition original_position (tables : LineOffsetTables) (byte_offsets firsts : list Z) (loc hint : Z) : option (Z * Z) :=
  original_line ← find_line_with_hint byte_offsets loc hint;
  let idx := Z.to_nat (Z.max original_line 0) in
  start ← byte_offsets !! idx;
  original_column ← trap_i32 (loc - wrap_i32 start);
  first ← firsts !! idx;
  original_column ←
    (if wrap_i32 first <=? original_column then
       cols ← tables_columns_for_non_ascii tables idx;
       match cols with
       | [] => Some original_column
       | _ => i ← sub_u32 (wrap32 original_column) first; cols !! Z.to_nat i
       end
     else Some original_column);
  Some (original_line, original_column).

Definition add_source_mapping (loc : Z) (output : bytes) (b : NewBuilder) : option NewBuilder :=
  if (prev_loc b =? loc) || (loc =? -1) then Some b
  else
    let '(Build_NewBuilder sm tables ps lgu gc _ hp bo fn ls cl pc) := b in
    tables ← (match tables with
              | Deferred contents _ => l ← generate_in contents; Some (Owned l)
              | _ => Some tables
              end);
    let b := Build_NewBuilder sm tables ps lgu gc loc hp bo fn ls cl pc in
    if (tables_len tables =? 0)%nat then Some b
    else
      let '(bo, fn) := cached_columns b in
      let b := Build_NewBuilder sm tables ps lgu gc loc hp bo fn ls cl pc in
      '(line, col) ← original_position tables bo fn loc (wrap32 (original_line ps));
      b ← update_generated_line_and_column output b;
      b ← (if cover_lines_without_mappings b && negb (line_starts_with_mapping b) && (0 <? gen_column b) && has_prev_state b
           then append_mapping_without_remapping (start_of_line (prev_state b)) b
           else Some b);
      let ps := prev_state b in
      b ← append_mapping_without_remapping
            (Build_State (generated_line ps) (Z.max (gen_column b) 0) (source_index ps) (Z.max line 0) (Z.max col 0)) b;
      Some (with_scan b (source_map b) (prev_state b) (last_generated_update b) (gen_column b) (has_prev_state b) true).

(** ** The chunk *)
Record Chunk := {
  buffer : bytes;
  end_state : State;
  final_generated_column : Z;
  should_ignore : bool
}.

Definition with_source_map (b : NewBuilder) (sm : VLQSourceMap) : NewBuilder :=
  with_scan b sm (prev_state b) (last_generated_update b) (gen_column b) (has_prev_state b) (line_starts_with_mapping b).

Definition generate_chunk (output : bytes) (b : NewBuilder) : option (Chunk * NewBuilder) :=
  b ← update_generated_line_and_column output b;
  sm ← (if prepend_count b then
          let count := ctx_count (source_map b) in
          '(Build_VLQSourceMap data internal n offset) ← ctx_get_buffer (source_map b);
          data ← fill_header data count;
          Some (Build_VLQSourceMap data internal n offset)
        else ctx_get_buffer (source_map b));
  '(buffer, sm) ← ctx_take_buffer sm;
  Some ({| buffer := buffer; end_state := prev_state b; final_generated_column := gen_column b;
           should_ignore := ctx_should_ignore sm |}, with_source_map b sm).

(** [get_source_map_builder] (src/js_printer/lib.rs), when it is lazy: the table comes from the
    bundler, or from the text of the source at the first mapping. *)
Definition lazy_builder (tables : LineOffsetTables) : NewBuilder :=
  Build_NewBuilder (ctx_init true) tables State_default 0 0 (-1) false [] [] false true true.
End Ctx.

(** ** The specification: one character, or one mapping, at a time *)

(** Where the printer is, the last mapping, whether the line has one at its start, the last
    location asked for, and what the builder of the map has been given. *)
Record Printed := {
  p_line : Z;
  p_col : Z;
  p_last : State;
  p_has : bool;
  p_starts : bool;
  p_loc : Z;
  p_ops : list PrintOp
}.
Definition nothing_printed : Printed := Build_Printed 0 0 State_default false false (-1) [].

Definition emit (s : State) (p : Printed) : Printed :=
  Build_Printed (p_line p) (p_col p) s true (p_starts p) (p_loc p) (p_ops p ++ [Map s]).
(** A line that has text without a mapping before it starts with the previous mapping. *)
Definition cover_line (p : Printed) : Printed :=
  emit (Build_State (p_line p) 0 0 (original_line (p_last p)) (original_column (p_last p))) p.

Definition print_char (p : Printed) (c : Z) : Printed :=
  if is_newline c then
    let p := if negb (p_starts p) && p_has p then cover_line p else p in
    Build_Printed (p_line p + 1) 0 (p_last p) (p_has p) false (p_loc p) (p_ops p ++ [Separator])
  else Build_Printed (p_line p) (p_col p + units c) (p_last p) (p_has p) (p_starts p) (p_loc p) (p_ops p).

Definition request (loc : Z) (original : Z * Z) (p : Printed) : Printed :=
  if p_loc p =? loc then p
  else
    let p := if negb (p_starts p) && (0 <? p_col p) && p_has p then cover_line p else p in
    let p := emit (Build_State (p_line p) (p_col p) 0 (fst original) (snd original)) p in
    Build_Printed (p_line p) (p_col p) (p_last p) (p_has p) true loc (p_ops p).

(** What the printer does: it prints a character, or maps the [j]-th character of the source. *)
Inductive PrintEvent := Char (c : Z) | Request (j : nat).

Definition print_event (src : list Z) (p : Printed) (e : PrintEvent) : Printed :=
  match e with
  | Char c => print_char p c
  | Request j => request (Z.of_nat (byte_at src j)) (position src j) p
  end.
Definition printed (src : list Z) (evs : list PrintEvent) : Printed := foldl (print_event src) nothing_printed evs.

Definition maps_of (ops : list PrintOp) : list State := omap (fun op => match op with Map s => Some s | _ => None end) ops.
Definition chars_of (evs : list PrintEvent) : list Z := omap (fun e => match e with Char c => Some c | _ => None end) evs.

(** The same with the builder, which is given all that is printed so far. *)
Section Run.
Context (spare : bytes -> nat -> bytes) (src : list Z).

Fixpoint run_events (b : NewBuilder) (out : list Z) (evs : list PrintEvent) : option (NewBuilder * list Z) :=
  match evs with
  | [] => Some (b, out)
  | Char c :: evs => run_events b (out ++ [c]) evs
  | Request j :: evs =>
      b ← add_source_mapping spare (Z.of_nat (byte_at src j)) (text out) b;
      run_events b out evs
  end.
Definition print_chunk (tables : LineOffsetTables) (evs : list PrintEvent) : option Chunk :=
  '(b, out) ← run_events (lazy_builder tables) [] evs;
  '(chunk, _) ← generate_chunk spare (text out) b;
  Some chunk.
End Run.

(** ** The operations *)
Lemma run_prints_app spare b ops1 ops2 :
  run_prints spare b (ops1 ++ ops2) = (b' ← run_prints spare b ops1; run_prints spare b' ops2).
Proof.
  revert b. induction ops1 as [|op ops1 IH]; intros b; [done|]. cbn [app run_prints].
  destruct (run_op spare b op); [apply IH|done].
Qed.

Section Simulation.
Context (spare : bytes -> nat -> bytes) (spare_length : forall ws n, length (spare ws n) = n).

(** One more operation never fails, as long as there are not too many. *)
Lemma run_prints_snoc ops op i :
  run_prints spare builder_init ops = Some i -> Forall op_ok ops -> op_ok op -> Z.of_nat (length ops) < 2 ^ 27 ->
  exists i', run_op spare i op = Some i' /\ run_prints spare builder_init (ops ++ [op]) = Some i'.
Proof.
  intros E Hops Hop Hl.
  destruct (run_ops_taken spare spare_length builder_init nothing_taken (ops ++ [op])) as (i' & E' & _).
  - apply has_taken_init.
  - apply Forall_app. split; [done|by apply Forall_singleton].
  - constructor.
  - done.
  - done.
  - rewrite length_app. cbn. lia.
  - rewrite length_app. cbn. lia.
  - exists i'. split; [|done]. rewrite run_prints_app, E in E'. cbn [mbind option_bind run_prints] in E'.
    destruct (run_op spare i op); done.
Qed.

Definition map_count (ops : list PrintOp) : Z := Z.of_nat (length (maps_of ops)).

(** The bounds that [n] events keep. *)
Record within (p : Printed) (n : Z) : Prop := {
  w_line : 0 <= p_line p <= n;
  w_col : 0 <= p_col p <= 2 * n;
  w_last : position_ok (p_last p);
  w_ops : Forall op_ok (p_ops p);
  w_count : Z.of_nat (length (p_ops p)) <= 2 * n;
  w_taken : taken_line (taken_by (p_ops p)) + taken_separators (taken_by (p_ops p)) = p_line p;
  w_maps : taken_maps (taken_by (p_ops p)) = maps_of (p_ops p);
  w_braces : taken_braces (taken_by (p_ops p)) = []
}.

Lemma taken_snoc ops op : taken_by (ops ++ [op]) = take_op (taken_by ops) op.
Proof. unfold taken_by. by rewrite foldl_app. Qed.
Lemma maps_of_snoc ops op : maps_of (ops ++ [op]) = maps_of ops ++ match op with Map s => [s] | _ => [] end.
Proof. unfold maps_of. rewrite omap_app. by destruct op. Qed.

(** Emitting a mapping on the current line. *)
Lemma within_emit s p n m :
  within p n -> n <= m -> position_ok s -> generated_line s = p_line p -> Z.of_nat (length (p_ops p)) + 1 <= 2 * m ->
  within (emit s p) m.
Proof.
  intros [H1 H2 H3 H4 H5 H6 H7 H8] Hnm Hs Hl Hc. split; cbn; try lia; try done.
  - apply Forall_app. split; [done|by apply Forall_singleton].
  - rewrite length_app. cbn. lia.
  - rewrite taken_snoc. destruct (taken_by (p_ops p)). cbn in *. lia.
  - rewrite taken_snoc, maps_of_snoc. destruct (taken_by (p_ops p)). cbn in *. rewrite H7, H6, <-Hl. f_equal. f_equal. by destruct s.
  - rewrite taken_snoc. destruct (taken_by (p_ops p)). done.
Qed.
Lemma within_mono p n m : within p n -> n <= m -> within p m.
Proof. intros [] H. split; try done; lia. Qed.

Lemma cover_position_ok p n : within p n -> n <= 2 ^ 26 ->
  position_ok (Build_State (p_line p) 0 0 (original_line (p_last p)) (original_column (p_last p))).
Proof. intros [H1 _ (_ & _ & _ & H3 & H4) _ _ _ _ _] Hn. unfold position_ok, nat_i32 in *. cbn. splits; lia. Qed.

Lemma within_separator p n :
  0 <= p_line p < n -> 0 <= 2 * n -> position_ok (p_last p) -> Forall op_ok (p_ops p) -> Z.of_nat (length (p_ops p)) < 2 * n ->
  taken_line (taken_by (p_ops p)) + taken_separators (taken_by (p_ops p)) = p_line p ->
  taken_maps (taken_by (p_ops p)) = maps_of (p_ops p) -> taken_braces (taken_by (p_ops p)) = [] ->
  within (Build_Printed (p_line p + 1) 0 (p_last p) (p_has p) false (p_loc p) (p_ops p ++ [Separator])) n.
Proof.
  intros H1 Hn H3 H4 H5 H6 H7 H8. split; cbn; try lia; try done.
  - apply Forall_app. split; [done|by apply Forall_singleton].
  - rewrite length_app. cbn. lia.
  - rewrite taken_snoc. destruct (taken_by (p_ops p)). cbn in *. lia.
  - rewrite taken_snoc, maps_of_snoc, app_nil_r. by destruct (taken_by (p_ops p)).
  - rewrite taken_snoc. by destruct (taken_by (p_ops p)).
Qed.

Lemma units_range c : 1 <= units c <= 2.
Proof. unfold units. destruct (_ <? _); lia. Qed.

Lemma within_char p n c : within p n -> n + 1 <= 2 ^ 26 -> within (print_char p c) (n + 1).
Proof.
  intros H Hn. unfold print_char. destruct (is_newline c).
  - destruct (negb (p_starts p) && p_has p).
    + pose proof (cover_position_ok p n H ltac:(lia)) as Hp. pose proof H as [H1 H2 H3 H4 H5 H6 H7 H8].
      destruct (within_emit _ p n (n + 1) H ltac:(lia) Hp eq_refl ltac:(lia)) as [E1 E2 E3 E4 E5 E6 E7 E8].
      apply within_separator; try done; cbn in *; rewrite ?length_app in *; cbn in *; lia.
    + destruct H as [H1 H2 H3 H4 H5 H6 H7 H8]. apply within_separator; try done; lia.
  - pose proof (units_range c). destruct H as [H1 H2 H3 H4 H5 H6 H7 H8]. split; cbn; try done; lia.
Qed.

Lemma within_chars l p n : within p n -> n + Z.of_nat (length l) <= 2 ^ 26 -> within (foldl print_char p l) (n + Z.of_nat (length l)).
Proof.
  revert p n. induction l as [|c l IH]; intros p n H Hn; cbn [foldl length]; [by rewrite Z.add_0_r|].
  cbn [length] in Hn. replace (n + Z.of_nat (S (length l))) with (n + 1 + Z.of_nat (length l)) by lia.
  apply IH; [|lia]. apply within_char; [done|lia].
Qed.

Lemma within_request p n loc original :
  within p n -> n + 1 <= 2 ^ 26 -> nat_i32 (fst original) -> nat_i32 (snd original) -> within (request loc original p) (n + 1).
Proof.
  intros H Hn Ho1 Ho2. unfold request. destruct (p_loc p =? loc); [apply (within_mono p n); [done|lia]|].
  set (p' := if negb (p_starts p) && (0 <? p_col p) && p_has p then cover_line p else p).
  assert (H' : within p' (n + 1) /\ p_line p' = p_line p /\ Z.of_nat (length (p_ops p')) <= 2 * n + 1).
  { subst p'. destruct (_ && _).
    - pose proof (cover_position_ok p n H ltac:(lia)) as Hp. splits; [|done|].
      + apply (within_emit _ p n); try done; destruct H; lia.
      + cbn. rewrite length_app. cbn. destruct H. lia.
    - splits; [apply (within_mono p n); [done|lia]|done|]. destruct H. lia. }
  clearbody p'. destruct H' as (H' & Hl & Hc).
  assert (Hs : position_ok (Build_State (p_line p') (p_col p') 0 (fst original) (snd original))).
  { destruct H' as [H1 H2 _ _ _ _ _ _]. unfold position_ok, nat_i32 in *. cbn. splits; lia. }
  pose proof (within_emit _ p' (n + 1) (n + 1) H' ltac:(lia) Hs eq_refl ltac:(lia)) as [E1 E2 E3 E4 E5 E6 E7 E8].
  split; try done; cbn in *; lia.
Qed.

(** ** The builder does what the specification says *)

(** What scanning leaves alone. *)
Definition rest (b : NewBuilder) : LineOffsetTables * Z * list Z * list Z * nat :=
  (line_offset_tables b, prev_loc b, byte_offset_list b, first_non_ascii_list b, last_generated_update b).

Record scanned (b : NewBuilder) (p : Printed) : Prop := {
  sc_internal : exists i, source_map b = Build_VLQSourceMap [] (Some i) (map_count (p_ops p)) 0 /\
    run_prints spare builder_init (p_ops p) = Some i;
  sc_prev : exists col, prev_state b = Build_State (p_line p) col 0 (original_line (p_last p)) (original_column (p_last p));
  sc_col : gen_column b = p_col p;
  sc_has : has_prev_state b = p_has p;
  sc_starts : line_starts_with_mapping b = p_starts p;
  sc_cover : cover_lines_without_mappings b = true;
  sc_prepend : prepend_count b = true
}.

Lemma scanned_emit b p n s :
  scanned b p -> within p n -> n <= 2 ^ 25 -> position_ok s -> generated_line s = p_line p -> source_index s = 0 ->
  exists b', append_mapping_without_remapping spare s b = Some b' /\ scanned b' (emit s p) /\ rest b' = rest b.
Proof.
  intros [(i & Es & Ei) Hp Hc Hh Hst Hcov Hpre] [W1 W2 W3 W4 W5 W6 W7 W8] Hn Hs Hl Hsrc.
  destruct (run_prints_snoc (p_ops p) (Map s) i Ei W4 Hs ltac:(lia)) as (i' & E & E').
  unfold append_mapping_without_remapping, ctx_append. rewrite Es. cbn [run_op] in E. rewrite E. cbn [mbind option_bind].
  destruct b. cbn in *. eexists. split; [done|]. split; [|done]. split; cbn; try done.
  - exists i'. split; [|done]. unfold map_count. rewrite maps_of_snoc, length_app. cbn. do 2 f_equal. lia.
  - exists (generated_column s). rewrite <-Hl, <-Hsrc. by destruct s.
Qed.

Lemma scanned_newline b p n c :
  scanned b p -> within p n -> n + 1 <= 2 ^ 25 -> is_newline c = true ->
  exists b', scan_newline spare (needs_mapping_now b) b = Some b' /\ scanned b' (print_char p c) /\ rest b' = rest b.
Proof.
  intros Hb Hw Hn Hc. unfold print_char. rewrite Hc. unfold scan_newline.
  assert (Hneed : needs_mapping_now b = negb (p_starts p) && p_has p).
  { destruct Hb as [_ _ _ H1 H2 H3 _]. unfold needs_mapping_now. by rewrite H1, H2, H3. }
  rewrite Hneed. set (need := negb (p_starts p) && p_has p). set (p' := if need then cover_line p else p).
  assert (H' : exists b', (if need then append_mapping_without_remapping spare (start_of_line (prev_state b)) b else Some b) = Some b' /\
    scanned b' p' /\ rest b' = rest b /\ within p' (n + 1) /\ p_line p' = p_line p).
  { subst p'. destruct need.
    - destruct (sc_prev _ _ Hb) as [col Ep]. pose proof (cover_position_ok p n Hw ltac:(lia)) as Hok.
      destruct (scanned_emit b p n _ Hb Hw ltac:(lia) Hok eq_refl eq_refl) as (b' & E & ? & ?).
      exists b'. rewrite Ep. splits; try done. apply (within_emit _ p n); try done; destruct Hw; lia.
    - exists b. splits; try done. by apply (within_mono p n); [|lia]. }
  clearbody p'. destruct H' as (b' & E & Hb' & Hr & Hw' & Hl). rewrite E. cbn [mbind option_bind]. clear E.
  destruct Hb' as [(i & Es & Ei) [col Ep] H3 H4 H5 H6 H7], Hw' as [W1 W2 W3 W4 W5 W6 W7 W8].
  rewrite Ep. cbn [generated_line source_index original_line original_column].
  rewrite trap_i32_Some by (unfold is_i32; destruct Hw; lia). cbn [mbind option_bind].
  destruct (run_prints_snoc (p_ops p') Separator i Ei W4 I ltac:(lia)) as (i' & E1 & E2). cbn [run_op] in E1.
  rewrite Es. cbn [ctx_append_line_separator]. rewrite E1. cbn [mbind option_bind]. eexists. split; [done|].
  rewrite <-Hr. destruct b'. cbn in *. split; [|done]. split; cbn; try done.
  - exists i'. split; [|done]. unfold map_count. by rewrite maps_of_snoc, app_nil_r.
  - eauto.
Qed.

(** Characters of one unit that are no newlines only move the column. *)
Definition move (p : Printed) (col : Z) : Printed :=
  Build_Printed (p_line p) col (p_last p) (p_has p) (p_starts p) (p_loc p) (p_ops p).

Lemma print_ascii p c : 14 <= c <= 127 -> print_char p c = move p (p_col p + 1).
Proof.
  intros H. unfold print_char, is_newline, one_of, units. cbn. rewrite !(proj2 (Z.eqb_neq c _)) by lia. cbn.
  by replace (65535 <? c) with false by lia.
Qed.
Lemma print_plain l p : Forall (fun c => 14 <= c <= 127) l -> foldl print_char p l = move p (p_col p + Z.of_nat (length l)).
Proof.
  intros H. revert p. induction H as [|c l Hc Hl IH]; intros p; cbn [foldl length]; [rewrite Z.add_0_r; by destruct p|].
  rewrite print_ascii, IH by done. unfold move. cbn. f_equal. lia.
Qed.
Lemma scanned_move b p gc : scanned b p -> scanned (with_generated_column b gc) (move p gc) /\ rest (with_generated_column b gc) = rest b.
Proof. intros [H1 H2 H3 H4 H5 H6 H7]. destruct b. cbn in *. split; [split|]; cbn; done. Qed.
Lemma needs_same b gc : needs_mapping_now (with_generated_column b gc) = needs_mapping_now b.
Proof. by destruct b. Qed.

(** The text that is scanned: no carriage return is printed. *)
Section Scan.
Context (l : list Z) (Hl : Forall is_code_point l) (Hcr : Forall (fun c => c <> 0x0D) l) (output : bytes).

(** The characters from the [k]-th to the [k']-th. *)
Definition between (k k' : nat) : list Z := take (k' - k) (drop k l).
Lemma between_all k : between k (length l) = drop k l.
Proof. unfold between. apply take_ge. rewrite length_drop. lia. Qed.
Lemma between_one k c : l !! k = Some c -> between k (S k) = [c].
Proof. intros H. unfold between. replace (S k - k)%nat with 1%nat by lia. by rewrite (drop_S _ _ _ H). Qed.
Lemma between_length k k' : (k <= k' <= length l)%nat -> length (between k k') = (k' - k)%nat.
Proof. intros H. unfold between. rewrite length_take, length_drop. lia. Qed.
Lemma between_app k k' : (k <= k' <= length l)%nat -> between k k' ++ drop k' l = drop k l.
Proof.
  intros H. unfold between. rewrite <-(take_drop (k' - k) (drop k l)) at 2. f_equal. rewrite drop_drop. f_equal. lia.
Qed.

Lemma scanned_between b p n k k' :
  scanned b p -> within p n -> n + Z.of_nat (length l - k) <= 2 ^ 25 -> (k <= k' <= length l)%nat ->
  within (foldl print_char p (between k k')) (n + Z.of_nat (k' - k)).
Proof.
  intros Hb Hw Hn Hk. rewrite <-(between_length k k' Hk). apply within_chars; [done|]. rewrite between_length by done. lia.
Qed.

(** The run of ASCII that the step looks ahead for. *)
Lemma ascii_ahead k c : l !! k = Some c -> 14 <= c <= 127 ->
  let n := count_while passes (drop (S k) l) in
  (k + S n <= length l)%nat /\ Forall (fun c => 14 <= c <= 127) (between k (k + S n)) /\
  byte_at l (S k) = (byte_at l k + 1)%nat /\ count_while passes (text (drop (S k) l)) = n /\
  byte_at l (k + S n) = (byte_at l (S k) + n)%nat /\
  (n = length (text (drop (S k) l)) -> (k + S n)%nat = length l).
Proof.
  intros Hc Hasc n. pose proof (lookup_lt_Some _ _ _ Hc). pose proof (code_point_at l Hl _ _ Hc) as Hcp.
  destruct (count_passes_text (drop (S k) l) ltac:(by apply Forall_drop)) as [Hcnt Hbytes]. fold n in Hcnt, Hbytes.
  pose proof (count_while_le passes (drop (S k) l)) as Hn. fold n in Hn. rewrite length_drop in Hn.
  assert (Hb : byte_at l (k + S n) = (byte_at l (S k) + n)%nat).
  { rewrite <-(Hbytes n) at 2 by lia. unfold byte_at. replace (k + S n)%nat with (S k + n)%nat by lia.
    rewrite <-length_app, <-text_app. f_equal. f_equal. rewrite <-(take_drop (S k) (take (S k + n) l)).
    rewrite take_take, skipn_firstn_comm. f_equal; f_equal; lia. }
  splits; try done; try lia.
  - apply Forall_lookup. intros i x Hx. unfold between in Hx. apply lookup_take_Some in Hx as [Hx Hi]. rewrite lookup_drop in Hx.
    destruct i as [|i]; [rewrite Nat.add_0_r in Hx; simplify_eq; done|].
    destruct (passed_over l (S k) i) as (y & Hy & ?); [fold n; lia|]. replace (k + S i)%nat with (S k + i)%nat in Hx by lia. by simplify_eq.
  - rewrite (byte_at_S _ _ _ Hc), encode_ascii by (done || lia). done.
  - intros E. destruct (decide (k + S n = length l)%nat); [done|].
    pose proof (proj2 (byte_at_mono l Hl (k + S n) (length l) ltac:(lia)) ltac:(lia)) as L. rewrite byte_at_end, (text_split l (S k)), length_app in L.
    change (length (text (take (S k) l))) with (byte_at l (S k)) in L. lia.
Qed.

(** A round of the scan is some characters, up to the [k']-th. *)
Definition scans_to (b : NewBuilder) (p : Printed) (k : nat) (r : NewBuilder * nat * bool * bool) : Prop :=
  let '(b', i', needs', more) := r in
  exists k', (k < k' <= length l)%nat /\ scanned b' (foldl print_char p (between k k')) /\ rest b' = rest b /\
    (if more : bool then i' = byte_at l k' /\ needs' = needs_mapping_now b' else k' = length l).

Lemma scan_step_spec b p n k c :
  scanned b p -> within p n -> l !! k = Some c -> n + Z.of_nat (length l - k) <= 2 ^ 25 ->
  exists r, scan_rune spare output (text l) b (byte_at l k) (needs_mapping_now b) = Some r /\ scans_to b p k r.
Proof.
  intros Hb Hw Hc Hn. pose proof (lookup_lt_Some _ _ _ Hc). pose proof (code_point_at l Hl _ _ Hc) as Hcp.
  destruct (read_char l Hl k c UNICODE_REPLACEMENT Hc) as (_ & b0 & Hb0 & Hlen & _ & Hmin & Hdec). cbv zeta in Hmin, Hdec.
  unfold scan_rune.
  assert (Hfirst : text l !! byte_at l k = Some b0).
  { rewrite <-(Nat.add_0_r (byte_at l k)), <-lookup_drop. by destruct (drop (byte_at l k) (text l)). }
  rewrite Hfirst. cbn [mbind option_bind]. rewrite Hlen. rewrite <-length_drop, Hmin, Hdec, <-(byte_at_S _ _ _ Hc).
  assert (Hcol : forall k', (k < k' <= length l)%nat -> is_i32 (p_col (foldl print_char p (between k k')))).
  { intros k' Hk'. pose proof (w_col _ _ (scanned_between b p n k k' Hb Hw Hn ltac:(lia))). unfold is_i32. lia. }
  destruct (in_range 14 127 c) eqn:Hin; [|destruct (is_newline c) eqn:Hnl].
  - assert (Hasc : 14 <= c <= 127) by (unfold in_range in Hin; lia).
    destruct (ascii_ahead k c Hc Hasc) as (Hk' & Hplain & Hone & Hcnt & Hat & Hend).
    set (m := count_while passes (drop (S k) l)) in *. pose proof (Hcol (k + S m)%nat ltac:(lia)) as Hi32.
    pose proof (print_plain _ p Hplain) as Hprint. rewrite between_length in Hprint by lia. rewrite Hprint in Hi32. cbn in Hi32.
    replace (k + S m - k)%nat with (S m) in * by lia. rewrite <-(sc_col _ _ Hb) in *.
    assert (Hle : (byte_at l (S k) <= length (text l))%nat).
    { rewrite (text_split l (S k)), length_app. change (length (text (take (S k) l))) with (byte_at l (S k)). lia. }
    unfold index_of_newline_or_non_ascii. rewrite index_of_newline_or_non_ascii_spec, drop_text by done. cbv zeta. rewrite Hcnt.
    destruct (Nat.eqb_spec m (length (text (drop (S k) l)))) as [Eall|Eall]; cbn [mbind option_bind].
    + rewrite slice_from_Some by done. cbn [mbind option_bind]. rewrite drop_text, <-Eall.
      replace (gen_column b + Z.of_nat m + 1) with (gen_column b + Z.of_nat (S m)) by lia.
      rewrite trap_i32_Some by done. cbn [mbind option_bind]. eexists. split; [done|]. exists (k + S m)%nat. rewrite Hprint.
      destruct (scanned_move b p (gen_column b + Z.of_nat (S m)) Hb). splits; (done || lia || by apply Hend).
    + replace (m + byte_at l (S k) - byte_at l (S k) + 1)%nat with (S m) by lia.
      rewrite trap_i32_Some by done. cbn [mbind option_bind]. eexists. split; [done|]. exists (k + S m)%nat. rewrite Hprint.
      destruct (scanned_move b p (gen_column b + Z.of_nat (S m)) Hb). rewrite needs_same. splits; (done || lia).
  - assert (Hne : c <> 0x0D) by (eapply (Forall_lookup_1 _ _ _ _ Hcr); done).
    rewrite (proj2 (Z.eqb_neq _ _) Hne). cbn [andb].
    destruct (scanned_newline b p n c Hb Hw ltac:(lia) Hnl) as (b' & E & Hb' & Hr). rewrite E. cbn [mbind option_bind].
    eexists. split; [done|]. exists (S k). rewrite (between_one _ _ Hc). cbn [foldl]. splits; (done || lia).
  - pose proof (Hcol (S k) ltac:(lia)) as Hi32. rewrite (between_one _ _ Hc) in Hi32. cbn [foldl] in Hi32.
    assert (Hpc : print_char p c = move p (p_col p + units c)) by (unfold print_char; by rewrite Hnl).
    rewrite Hpc in Hi32. cbn in Hi32. rewrite (sc_col _ _ Hb).
    replace (p_col p + (if 65535 <? c then 1 else 0) + 1) with (p_col p + units c) by (unfold units; destruct (65535 <? c); lia).
    rewrite trap_i32_Some by done. cbn [mbind option_bind]. eexists. split; [done|]. exists (S k).
    rewrite (between_one _ _ Hc). cbn [foldl]. rewrite Hpc. destruct (scanned_move b p (p_col p + units c) Hb). rewrite needs_same. splits; (done || lia).
Qed.

Lemma scan_loop_spec fuel b p n k :
  scanned b p -> within p n -> (k <= length l)%nat -> n + Z.of_nat (length l - k) <= 2 ^ 25 -> (length l - k <= fuel)%nat ->
  exists b', scan_loop spare fuel output (text l) b (byte_at l k) (needs_mapping_now b) = Some b' /\
    scanned b' (foldl print_char p (drop k l)) /\ rest b' = rest b.
Proof.
  revert b p n k. induction fuel as [|fuel IH]; intros b p n k Hb Hw Hk Hn Hf; cbn [scan_loop];
    destruct (decide (k = length l)) as [->|Hne].
  1,3: rewrite byte_at_end, Nat.ltb_irrefl, drop_all; by exists b.
  - lia.
  - pose proof (proj2 (byte_at_mono l Hl k (length l) ltac:(lia)) ltac:(lia)) as L. rewrite byte_at_end in L.
    rewrite (proj2 (Nat.ltb_lt _ _) L). destruct (lookup_lt_is_Some_2 l k) as [c Hc]; [lia|].
    destruct (scan_step_spec b p n k c Hb Hw Hc Hn) as ([[[b' i'] needs'] more] & E & k' & Hk' & Hb' & Hr & Hmore).
    rewrite E. cbn [mbind option_bind]. rewrite <-(between_app k k'), foldl_app by lia. destruct more.
    + destruct Hmore as [-> ->]. pose proof (scanned_between b p n k k' Hb Hw Hn ltac:(lia)) as Hw'.
      destruct (IH b' _ _ k' Hb' Hw') as (b'' & E' & ? & Hr'); [lia..|]. exists b''. rewrite Hr'. done.
    + subst k'. rewrite drop_all. by exists b'.
Qed.
End Scan.

(** What only [add_source_mapping] changes. *)
Definition kept (b : NewBuilder) : LineOffsetTables * Z * list Z * list Z :=
  (line_offset_tables b, prev_loc b, byte_offset_list b, first_non_ascii_list b).
Lemma rest_kept b b' : rest b' = rest b -> kept b' = kept b /\ last_generated_update b' = last_generated_update b.
Proof. unfold rest, kept. intros [= -> -> -> -> ->]. done. Qed.

Lemma scanned_update b p m : scanned b p -> scanned (with_last_update b m) p /\ kept (with_last_update b m) = kept b /\
  last_generated_update (with_last_update b m) = m.
Proof. intros [H1 H2 H3 H4 H5 H6 H7]. destruct b. cbn in *. splits; [split|done..]; done. Qed.

(** The fast path is taken on ASCII without newlines only. *)
Lemma all_pass s : Forall (fun b => passes b = true) s <-> count_while passes s = length s.
Proof.
  split.
  - intros H. rewrite <-(app_nil_r s) at 1. rewrite count_while_app by done. cbn. lia.
  - intros H. pose proof (take_count_while passes s) as Ht. rewrite H, firstn_all in Ht. done.
Qed.
Lemma fast_path s :
  (if (length s <? 16)%nat then Some (negb (existsb (fun b => (127 <? b) || (b <? 0x20)) s))
   else next ← index_of_newline_or_non_ascii s 0; Some (bool_decide (next = None))) = Some (bool_decide (Forall (fun b => passes b = true) s)).
Proof.
  destruct (length s <? 16)%nat; [f_equal|].
  - induction s as [|b s IH]; [done|]. cbn [existsb]. rewrite negb_orb, IH. change (negb ((127 <? b) || (b <? 32))) with (passes b).
    destruct (passes b) eqn:E; cbn [andb].
    + apply bool_decide_ext. rewrite Forall_cons. tauto.
    + symmetry. apply bool_decide_eq_false. rewrite Forall_cons. intros [? _]. congruence.
  - unfold index_of_newline_or_non_ascii. rewrite index_of_newline_or_non_ascii_spec, drop_0 by lia. cbn [mbind option_bind]. f_equal.
    apply bool_decide_ext. rewrite all_pass. cbv zeta. destruct (Nat.eqb_spec (count_while passes s) (length s)); done.
Qed.

Lemma text_length_le l : Forall is_code_point l -> (length l <= length (text l) <= 4 * length l)%nat.
Proof.
  induction 1 as [|c l Hc Hl IH]; [done|]. rewrite text_cons, length_app. pose proof (encode_length_bounds c Hc). cbn [length]. lia.
Qed.

Lemma update_spec b p n seen l :
  scanned b p -> within p n -> last_generated_update b = length (text seen) -> Forall is_code_point (seen ++ l) ->
  Forall (fun c => c <> 0x0D) l -> n + Z.of_nat (length l) <= 2 ^ 25 -> Z.of_nat (length (seen ++ l)) <= 2 ^ 25 ->
  exists b', update_generated_line_and_column spare (text (seen ++ l)) b = Some b' /\ scanned b' (foldl print_char p l) /\
    kept b' = kept b /\ last_generated_update b' = length (text (seen ++ l)).
Proof.
  intros Hb Hw Hlast Hcp Hcr Hn Hlen. pose proof (text_length_le _ Hcp) as Htl. apply Forall_app in Hcp as [_ Hl].
  assert (Hlgu : as_u32 (length (text (seen ++ l))) = length (text (seen ++ l))) by (apply as_u32_id; lia).
  assert (Hslice : slice_from (text (seen ++ l)) (last_generated_update b) = Some (text l)).
  { rewrite Hlast, text_app, slice_from_Some by (rewrite length_app; lia). by rewrite drop_app_length. }
  unfold update_generated_line_and_column. rewrite Hslice. cbn [mbind option_bind]. rewrite fast_path, Hlgu.
  cbn [mbind option_bind].
  destruct (bool_decide_reflect (Forall (fun b => passes b = true) (text l))) as [Hall|_].
  - rewrite all_pass in Hall. destruct (count_passes_text l Hl) as [Hcnt _]. pose proof (count_while_le passes l).
    pose proof (text_length_le l Hl). assert (Hpl : count_while passes l = length l) by lia. assert (Hlt : length (text l) = length l) by lia.
    assert (Hplain : Forall (fun c => 14 <= c <= 127) l).
    { apply all_pass in Hpl. eapply Forall_impl; [exact Hpl|]. intros x. unfold passes, newline_or_non_ascii. cbn. lia. }
    pose proof (w_col _ _ (within_chars l p n Hw ltac:(lia))) as Hcol. rewrite (print_plain l p Hplain) in *. cbn [p_col move] in Hcol.
    rewrite Hlt, (sc_col _ _ Hb). rewrite trap_i32_Some by (unfold is_i32; lia). cbn [mbind option_bind].
    destruct (scanned_move b p (p_col p + Z.of_nat (length l)) Hb) as [Hs Hr].
    destruct (scanned_update _ _ (length (text (seen ++ l))) Hs) as (? & Hk & ?). destruct (rest_kept _ _ Hr) as [Hk' _].
    eexists. splits; [done|done|by rewrite Hk, Hk'|done].
  - unfold update_generated_line_and_column_slow. rewrite Hslice. cbn [mbind option_bind].
    destruct (scan_loop_spec l Hl Hcr (text (seen ++ l)) (length (text l)) b p n 0 Hb Hw) as (b' & E & Hs & Hr);
      [lia|lia|pose proof (text_length_le l Hl); lia|].
    change (byte_at l 0) with 0%nat in E. rewrite E. cbn [mbind option_bind]. rewrite drop_0 in Hs. rewrite Hlgu.
    destruct (scanned_update _ _ (length (text (seen ++ l))) Hs) as (? & Hk & ?). destruct (rest_kept _ _ Hr) as [Hk' _].
    eexists. splits; [done|done|by rewrite Hk, Hk'|done].
Qed.

(** ** Asking for a mapping *)
Section Source.
Context (src : list Z) (Hsrc : Forall is_code_point src) (Hsmall : Z.of_nat (length (text src)) < i32_max).
Context (rows : list LineOffsetTable) (Hgen : generate_in (text src) = Some rows)
  (Hrows : rows_ok src rows (length src) (S (length src))).

(** The table, or the text it is made of. *)
Definition tables_ok (t : LineOffsetTables) : Prop :=
  t = Borrowed rows \/ t = Owned rows \/ exists n, t = Deferred (text src) n.

(** Between the calls: [seen] is the part of the output that was scanned. *)
Record ready (b : NewBuilder) (p : Printed) (seen : list Z) : Prop := {
  rd_scanned : scanned b p;
  rd_tables : tables_ok (line_offset_tables b);
  rd_loc : prev_loc b = p_loc p;
  rd_cache : length (byte_offset_list b) = length rows ->
    byte_offset_list b = map byte_offset_to_start_of_line rows /\ first_non_ascii_list b = map byte_offset_to_first_non_ascii rows;
  rd_update : last_generated_update b = length (text seen)
}.

Lemma original_position_spec t loc hint :
  t = Borrowed rows \/ t = Owned rows ->
  original_position t (map byte_offset_to_start_of_line rows) (map byte_offset_to_first_non_ascii rows) loc hint = locate rows loc hint.
Proof.
  intros Ht. unfold original_position, locate. destruct (find_line_with_hint _ _ _) as [line|]; [|done]. cbn [mbind option_bind].
  rewrite !list_lookup_fmap.
  assert (Hc : tables_columns_for_non_ascii t (Z.to_nat (Z.max line 0)) = columns_for_non_ascii <$> rows !! Z.to_nat (Z.max line 0)) by (by destruct Ht; subst t).
  rewrite Hc. destruct (rows !! _) as [row|]; [|done]. cbn [fmap option_fmap option_map mbind option_bind].
  destruct (trap_i32 _) as [col|]; [|done]. cbn [mbind option_bind]. unfold column_in. by destruct (_ <=? col), (columns_for_non_ascii row).
Qed.

Lemma chars_loc l p : p_loc (foldl print_char p l) = p_loc p.
Proof.
  revert p. induction l as [|c l IH]; intros p; [done|]. cbn [foldl]. rewrite IH. unfold print_char, cover_line, emit.
  by repeat case_match.
Qed.

Lemma rows_nonempty : (length rows =? 0)%nat = false.
Proof. destruct (proj2 Hrows 0%nat ltac:(lia)) as (row & Hr & _). apply lookup_lt_Some in Hr. apply Nat.eqb_neq. lia. Qed.

(** Scanning up to here, and then one or two mappings. *)
Lemma scanned_request b p n loc original :
  scanned b p -> within p n -> n + 1 <= 2 ^ 25 -> nat_i32 (fst original) -> nat_i32 (snd original) -> (p_loc p =? loc) = false ->
  exists b1 b2, (if cover_lines_without_mappings b && negb (line_starts_with_mapping b) && (0 <? gen_column b) && has_prev_state b
     then append_mapping_without_remapping spare (start_of_line (prev_state b)) b else Some b) = Some b1 /\
    append_mapping_without_remapping spare (Build_State (generated_line (prev_state b1)) (Z.max (gen_column b1) 0)
      (source_index (prev_state b1)) (Z.max (fst original) 0) (Z.max (snd original) 0)) b1 = Some b2 /\
    scanned (with_scan b2 (source_map b2) (prev_state b2) (last_generated_update b2) (gen_column b2) (has_prev_state b2) true)
      (request loc original p) /\ rest b2 = rest b.
Proof.
  intros Hb Hw Hn Ho1 Ho2 Hloc. unfold request. rewrite Hloc.
  replace (_ && _ && _ && _) with (negb (p_starts p) && (0 <? p_col p) && p_has p) by (by destruct Hb as [_ _ -> -> -> -> _]).
  set (need := negb (p_starts p) && (0 <? p_col p) && p_has p). set (p' := if need then cover_line p else p).
  assert (H' : exists b1, (if need then append_mapping_without_remapping spare (start_of_line (prev_state b)) b else Some b) = Some b1 /\
    scanned b1 p' /\ rest b1 = rest b /\ within p' (n + 1) /\ Z.of_nat (length (p_ops p')) <= 2 * n + 1).
  { subst p'. destruct need.
    - destruct (sc_prev _ _ Hb) as [col Ep]. pose proof (cover_position_ok p n Hw ltac:(lia)) as Hok.
      destruct (scanned_emit b p n _ Hb Hw ltac:(lia) Hok eq_refl eq_refl) as (b' & E & ? & ?).
      exists b'. rewrite Ep. splits; try done; [apply (within_emit _ p n); try done; destruct Hw; lia|].
      cbn. rewrite length_app. cbn. destruct Hw. lia.
    - exists b. splits; try done; [by apply (within_mono p n); [|lia]|destruct Hw; lia]. }
  clearbody p'. destruct H' as (b1 & E & Hb1 & Hr & Hw' & Hc). destruct (sc_prev _ _ Hb1) as [col Ep].
  assert (Hs : position_ok (Build_State (p_line p') (p_col p') 0 (fst original) (snd original))).
  { destruct Hw' as [H1 H2 _ _ _ _ _ _]. unfold position_ok, nat_i32 in *. cbn. splits; lia. }
  destruct (scanned_emit b1 p' (n + 1) _ Hb1 Hw' ltac:(lia) Hs eq_refl eq_refl) as (b2 & E2 & Hb2 & Hr2).
  exists b1, b2. rewrite Ep. cbn [generated_line source_index]. unfold nat_i32 in *.
  rewrite (sc_col _ _ Hb1), !Z.max_l by (destruct Hw'; lia). splits; [done|done| |congruence].
  destruct Hb2 as [H1 H2 H3 H4 H5 H6 H7]. destruct b2. cbn in *. by split.
Qed.

(** What a request leaves: the table is there, and the columns of it are cached. *)
Lemma ready_start b p seen loc :
  ready b p seen -> loc <> p_loc p -> 0 <= loc ->
  exists t bo fn, (t = Borrowed rows \/ t = Owned rows) /\ bo = map byte_offset_to_start_of_line rows /\ fn = map byte_offset_to_first_non_ascii rows /\
    forall output, add_source_mapping spare loc output b =
      let b := Build_NewBuilder (source_map b) t (prev_state b) (last_generated_update b) (gen_column b) loc (has_prev_state b) bo fn
                 (line_starts_with_mapping b) (cover_lines_without_mappings b) (prepend_count b) in
      '(line, col) ← locate rows loc (wrap32 (original_line (prev_state b)));
      b ← update_generated_line_and_column spare output b;
      b ← (if cover_lines_without_mappings b && negb (line_starts_with_mapping b) && (0 <? gen_column b) && has_prev_state b
           then append_mapping_without_remapping spare (start_of_line (prev_state b)) b else Some b);
      b ← append_mapping_without_remapping spare (Build_State (generated_line (prev_state b)) (Z.max (gen_column b) 0)
            (source_index (prev_state b)) (Z.max line 0) (Z.max col 0)) b;
      Some (with_scan b (source_map b) (prev_state b) (last_generated_update b) (gen_column b) (has_prev_state b) true).
Proof.
  intros [Hs Ht Hl Hc Hu] Hne Hpos. destruct b as [sm t ps lgu gc pl hp bo fn ls cl pc]. cbn in *.
  set (t' := match t with Deferred _ _ => Owned rows | _ => t end).
  exists t', (map byte_offset_to_start_of_line rows), (map byte_offset_to_first_non_ascii rows).
  assert (Ht' : t' = Borrowed rows \/ t' = Owned rows) by (destruct Ht as [->|[->|[m ->]]]; cbn; auto).
  splits; [done|done|done|]. intros output. unfold add_source_mapping. cbn [prev_loc].
  rewrite Hl, (proj2 (Z.eqb_neq _ _)) by done. rewrite (proj2 (Z.eqb_neq loc (-1))) by lia. cbn [orb].
  replace (match t with Deferred contents _ => l ← generate_in contents; Some (Owned l) | _ => Some t end) with (Some t')
    by (destruct Ht as [->|[->|[m ->]]]; cbn [t']; [done|done|by rewrite Hgen]).
  cbn [mbind option_bind]. assert (Hlen : tables_len t' = length rows) by (destruct Ht' as [->| ->]; done).
  rewrite Hlen, rows_nonempty.
  replace (cached_columns _) with (map byte_offset_to_start_of_line rows, map byte_offset_to_first_non_ascii rows).
  2: { unfold cached_columns. cbn. rewrite Hlen. destruct (Nat.eqb_spec (length bo) (length rows)) as [E|_].
       - destruct (Hc E) as [-> ->]. done.
       - destruct Ht' as [->| ->]; done. }
  rewrite original_position_spec by done. reflexivity.
Qed.

Lemma add_source_mapping_spec b p n seen l j :
  ready b p seen -> within p n -> n + Z.of_nat (length l) + 1 <= 2 ^ 25 -> (j <= length src)%nat ->
  Forall is_code_point (seen ++ l) -> Forall (fun c => c <> 0x0D) l -> Z.of_nat (length (seen ++ l)) <= 2 ^ 25 ->
  let loc := Z.of_nat (byte_at src j) in
  exists b', add_source_mapping spare loc (text (seen ++ l)) b = Some b' /\
    if p_loc p =? loc then b' = b
    else ready b' (request loc (position src j) (foldl print_char p l)) (seen ++ l) /\
      within (request loc (position src j) (foldl print_char p l)) (n + Z.of_nat (length l) + 1).
Proof.
  intros Hb Hw Hn Hj Hcp Hcr Hlen loc. destruct (Z.eqb_spec (p_loc p) loc) as [E|Hne].
  { exists b. split; [|done]. unfold add_source_mapping. by rewrite (rd_loc _ _ _ Hb), E, Z.eqb_refl. }
  destruct (ready_start b p seen loc Hb ltac:(done) ltac:(lia)) as (t & bo & fn & Ht & Hbo & Hfn & ->). cbv zeta.
  set (b0 := Build_NewBuilder _ _ _ _ _ _ _ _ _ _ _ _).
  assert (Hb0 : scanned b0 p) by (destruct Hb as [[H1 H2 H3 H4 H5 H6 H7] _ _ _ _]; by split).
  assert (Hh : is_u32 (wrap32 (original_line (prev_state b0)))) by (unfold is_u32, wrap32; pose proof (Z.mod_pos_bound (original_line (prev_state b0)) 4294967296 ltac:(lia)); lia).
  pose proof (locate_spec src Hsrc Hsmall rows Hrows j _ Hj Hh) as Eloc. fold loc in Eloc. rewrite Eloc. clear Eloc Hh.
  destruct (position src j) as [line col] eqn:Epos. cbn [mbind option_bind].
  destruct (update_spec b0 p n seen l Hb0 Hw (rd_update _ _ _ Hb) Hcp Hcr ltac:(lia) Hlen) as (b1 & E1 & Hb1 & Hk1 & Hu1).
  rewrite E1. cbn [mbind option_bind].
  pose proof (within_chars l p n Hw ltac:(lia)) as Hw1. pose proof (position_nonneg src Hsrc j Hj) as Hpos. rewrite Epos in Hpos. cbn [fst snd] in Hpos.
  pose proof (off_bound src Hsrc Hsmall j Hj) as Hoff. unfold i32_max in Hoff.
  assert (Hnl : nat_i32 line /\ nat_i32 col) by (unfold nat_i32; lia). destruct Hnl as [Hnl Hnc].
  assert (Hloc : (p_loc (foldl print_char p l) =? loc) = false) by (rewrite chars_loc; by apply Z.eqb_neq).
  destruct (scanned_request b1 _ _ loc (line, col) Hb1 Hw1 ltac:(lia) Hnl Hnc Hloc) as (b2 & b3 & E2 & E3 & Hb3 & Hr3).
  cbn [fst snd] in E3. rewrite E2. cbn [mbind option_bind]. rewrite E3. cbn [mbind option_bind]. eexists. split; [done|].
  destruct (rest_kept _ _ Hr3) as [Hk3 Hu3]. rewrite Hk1 in Hk3. split; [|apply within_request; [done|lia|done..]].
  destruct b3 as [sm3 t3 ps3 lgu3 gc3 pl3 hp3 bo3 fn3 ls3 cl3 pc3]. unfold kept in Hk3. cbn in Hk3, Hb3, Hu3 |- *. injection Hk3 as -> -> -> ->.
  split; cbn; [done| | |done|congruence].
  - destruct Ht as [->| ->]; [by left|right; by left].
  - unfold request. by rewrite Hloc.
Qed.

(** ** A whole chunk *)
Definition event_ok (e : PrintEvent) : Prop :=
  match e with Char c => is_code_point c /\ c <> 0x0D | Request j => (j <= length src)%nat end.

Lemma run_events_spec evs b p n seen l :
  ready b p seen -> within p n -> n + Z.of_nat (length l) + Z.of_nat (length evs) <= 2 ^ 25 ->
  Z.of_nat (length (seen ++ l)) + Z.of_nat (length evs) <= 2 ^ 25 ->
  Forall is_code_point (seen ++ l) -> Forall (fun c => c <> 0x0D) l -> Forall event_ok evs ->
  exists b' p' n' seen' l', run_events spare src b (seen ++ l) evs = Some (b', seen' ++ l') /\
    ready b' p' seen' /\ within p' n' /\ n' + Z.of_nat (length l') <= n + Z.of_nat (length l) + Z.of_nat (length evs) /\
    foldl (print_event src) (foldl print_char p l) evs = foldl print_char p' l' /\
    Forall is_code_point (seen' ++ l') /\ Forall (fun c => c <> 0x0D) l' /\
    Z.of_nat (length (seen' ++ l')) <= 2 ^ 25.
Proof.
  intros Hb Hw Hn Hlen Hcp Hcr Hevs. revert b p n seen l Hb Hw Hn Hlen Hcp Hcr.
  induction Hevs as [|e evs He Hevs IH]; intros b p n seen l Hb Hw Hn Hlen Hcp Hcr; cbn [run_events foldl length] in *.
  { exists b, p, n, seen, l. splits; (done || lia). }
  destruct e as [c|j]; cbn [event_ok print_event] in *.
  - destruct He as [Hc Hne]. rewrite <-app_assoc. replace (print_char (foldl print_char p l) c) with (foldl print_char p (l ++ [c])) by (by rewrite foldl_app).
    destruct (IH b p n seen (l ++ [c])) as (b' & p' & n' & seen' & l' & H); try done.
    + rewrite length_app. cbn. lia.
    + rewrite app_assoc, length_app. cbn. lia.
    + rewrite app_assoc. apply Forall_app. split; [done|by apply Forall_singleton].
    + apply Forall_app. split; [done|by apply Forall_singleton].
    + exists b', p', n', seen', l'. rewrite length_app in H. cbn in H. destruct H as (? & ? & ? & ? & ? & ? & ? & ?). splits; (done || lia).
  - destruct (add_source_mapping_spec b p n seen l j Hb Hw ltac:(lia) He Hcp Hcr ltac:(lia)) as (b1 & E & H1). cbv zeta in E, H1.
    rewrite E. cbn [mbind option_bind]. destruct (Z.eqb_spec (p_loc p) (Z.of_nat (byte_at src j))) as [Eq|Hne].
    + subst b1. destruct (IH b p n seen l Hb Hw) as (b' & p' & n' & seen' & l' & H); [lia..|done|done|].
      assert (Hr : request (Z.of_nat (byte_at src j)) (position src j) (foldl print_char p l) = foldl print_char p l).
      { unfold request. by rewrite chars_loc, Eq, Z.eqb_refl. }
      rewrite Hr. exists b', p', n', seen', l'. destruct H as (? & ? & ? & ? & ? & ? & ? & ?). splits; (done || lia).
    + destruct H1 as [Hb1 Hw1]. destruct (IH b1 _ _ (seen ++ l) [] Hb1 Hw1) as (b' & p' & n' & seen' & l' & H).
      * cbn. lia.
      * rewrite app_nil_r. lia.
      * by rewrite app_nil_r.
      * constructor.
      * rewrite app_nil_r in H. exists b', p', n', seen', l'. cbn in H. destruct H as (? & ? & ? & ? & ? & ? & ? & ?). splits; (done || lia).
Qed.

Lemma chunk_ready tables : tables_ok tables -> ready (lazy_builder tables) nothing_printed [].
Proof.
  intros Ht. split; [|done|done| |done].
  - split; try done; [by exists builder_init|by exists 0].
  - cbn. intros E. pose proof rows_nonempty as Hn. rewrite <-E in Hn. done.
Qed.

Lemma within_init : within nothing_printed 0.
Proof.
  assert (position_ok State_default) by (unfold position_ok, nat_i32; cbn; lia).
  split; cbn; first [done | lia | constructor].
Qed.

Lemma print_chunk_spec tables evs :
  tables_ok tables -> Forall event_ok evs -> Z.of_nat (length evs) <= 2 ^ 25 ->
  let p := printed src evs in
  within p (2 ^ 25) /\
  exists chunk, print_chunk spare src tables evs = Some chunk /\ generate spare (p_ops p) = Some (buffer chunk) /\
    final_generated_column chunk = p_col p /\ generated_line (end_state chunk) = p_line p /\ should_ignore chunk = (map_count (p_ops p) =? 0).
Proof.
  intros Ht Hevs Hlen. cbv zeta.
  destruct (run_events_spec evs (lazy_builder tables) nothing_printed 0 [] []) as (b & p & n & seen & l & E & Hb & Hw & Hn & Hp & Hcp & Hcr & Hout);
    [by apply chunk_ready|apply within_init|cbn; lia|cbn; lia|constructor|constructor|done|].
  cbn [app] in E. cbn [foldl] in Hp. change (foldl (print_event src) nothing_printed evs) with (printed src evs) in Hp. cbn [length] in Hn.
  assert (Hwp : within (printed src evs) (2 ^ 25)).
  { rewrite Hp. apply (within_mono _ (n + Z.of_nat (length l))); [|lia]. apply within_chars; [done|lia]. }
  split; [done|]. unfold print_chunk. rewrite E. cbn [mbind option_bind]. unfold generate_chunk.
  destruct (update_spec b p n seen l (rd_scanned _ _ _ Hb) Hw (rd_update _ _ _ Hb) Hcp Hcr) as (b1 & E1 & Hb1 & _); [lia|done|].
  rewrite E1. cbn [mbind option_bind]. rewrite <-Hp in Hb1. destruct Hb1 as [(i & Es & Ei) Hps Hcol _ _ _ Hpre]. rewrite Hpre, Es.
  destruct Hwp as [W1 W2 W3 W4 W5 W6 W7 W8].
  destruct (build_spec spare spare_length (p_ops (printed src evs)) ltac:(lia) W4) as (i' & i2 & Ei' & Hc & Ef & Hpos).
  rewrite Ei in Ei'. injection Ei' as <-. cbn [ctx_get_buffer ctx_count mbind option_bind]. rewrite Ef. cbn [mbind option_bind].
  unfold generate. rewrite Ei. cbn [mbind option_bind]. rewrite Ef. cbn [mbind option_bind]. rewrite Hc, W7.
  fold (map_count (p_ops (printed src evs))). unfold map_count. rewrite <-W7, fill_header_spec. cbn [mbind option_bind ctx_take_buffer ctx_get_buffer data].
  eexists. split; [done|]. cbn. destruct Hps as [col ->]. splits; [done|done|done|]. unfold ctx_should_ignore. cbn. by rewrite W7.
Qed.
End Source.
End Simulation.

(** ** What the specification says *)

(** Without carriage returns a position needs no look ahead. *)
Lemma position_from_foldl p l : Forall (fun c => c <> 0x0D) l ->
  position_from p (length l) l = foldl (fun q c => if is_newline c then (fst q + 1, 0) else (fst q, snd q + units c)) p l.
Proof.
  intros H. revert p. induction H as [|c l Hc Hl IH]; intros p; [done|]. cbn [length position_from foldl]. rewrite IH. f_equal.
  unfold advance_pos, ends_line. rewrite (proj2 (Z.eqb_neq _ _) Hc). cbn. by rewrite andb_true_r.
Qed.

Lemma chars_of_app evs1 evs2 : chars_of (evs1 ++ evs2) = chars_of evs1 ++ chars_of evs2.
Proof. apply omap_app. Qed.

#[local] Arguments is_newline : simpl never.
Section Meaning.
Context (src : list Z).

Lemma printed_snoc evs e : printed src (evs ++ [e]) = print_event src (printed src evs) e.
Proof. unfold printed. by rewrite foldl_app. Qed.

(** The printer is where the characters end. *)
Lemma printed_position evs : Forall (fun c => c <> 0x0D) (chars_of evs) ->
  (p_line (printed src evs), p_col (printed src evs)) = position (chars_of evs) (length (chars_of evs)).
Proof.
  unfold position. intros H. rewrite position_from_foldl by done. clear H. induction evs as [|e evs IH] using rev_ind; [done|].
  rewrite printed_snoc, chars_of_app, foldl_app, <-IH. destruct e as [c|j]; cbn.
  - unfold print_char, cover_line, emit. by repeat case_match.
  - unfold request, cover_line, emit. by repeat case_match.
Qed.

(** Operations are only added. *)
Lemma printed_grows evs1 evs2 : exists more, p_ops (printed src (evs1 ++ evs2)) = p_ops (printed src evs1) ++ more.
Proof.
  induction evs2 as [|e evs2 [more IH]] using rev_ind; [exists []; by rewrite !app_nil_r|].
  rewrite app_assoc, printed_snoc.
  assert (H : forall p, exists m, p_ops (print_event src p e) = p_ops p ++ m).
  { intros p. destruct e; cbn; unfold print_char, request, cover_line, emit; repeat case_match; cbn; rewrite <-?app_assoc;
      first [by eexists | exists []; by rewrite app_nil_r]. }
  destruct (H (printed src (evs1 ++ evs2))) as [m ->]. rewrite IH, <-app_assoc. by eexists.
Qed.

(** What is asked for is mapped, unless it is what was asked for just before. *)
Lemma request_maps evs1 j evs2 : Forall (fun c => c <> 0x0D) (chars_of evs1) ->
  p_loc (printed src evs1) <> Z.of_nat (byte_at src j) ->
  let g := position (chars_of evs1) (length (chars_of evs1)) in
  let o := position src j in
  Build_State (fst g) (snd g) 0 (fst o) (snd o) ∈ maps_of (p_ops (printed src (evs1 ++ Request j :: evs2))).
Proof.
  intros Hcr Hne g o. destruct (printed_grows (evs1 ++ [Request j]) evs2) as [more E]. rewrite <-app_assoc in E. cbn [app] in E.
  rewrite E, printed_snoc. unfold maps_of at 1. rewrite omap_app. apply elem_of_app. left. fold (maps_of (p_ops (print_event src (printed src evs1) (Request j)))).
  cbn [print_event]. unfold request. rewrite (proj2 (Z.eqb_neq _ _) Hne). subst g. rewrite <-printed_position by done.
  cbn [p_ops emit]. rewrite maps_of_snoc. apply elem_of_app. right. cbn [fst snd]. apply list_elem_of_singleton.
  by destruct (_ && _).
Qed.

(** Mappings are in order, and a line that does not start with one has none. *)
Record in_order (p : Printed) : Prop := {
  io_sorted : StronglySorted pos_le (maps_of (p_ops p));
  io_before : Forall (fun m => generated_line m < p_line p \/
    (p_starts p = true /\ generated_line m = p_line p /\ generated_column m <= p_col p)) (maps_of (p_ops p));
  io_col : 0 <= p_col p
}.

Lemma StronglySorted_snoc ms m :
  StronglySorted pos_le ms -> Forall (fun x => pos_le x m) ms -> StronglySorted pos_le (ms ++ [m]).
Proof.
  intros Hs Hm. induction Hs as [|x ms Hs IH Hx]; cbn; [repeat constructor|]. apply Forall_cons in Hm as [Hxm Hm].
  constructor; [by apply IH|]. apply Forall_app. split; [done|by apply Forall_singleton].
Qed.

Lemma in_order_emit p s starts :
  in_order p -> generated_line s = p_line p -> generated_column s <= p_col p -> (p_starts p = true -> generated_column s = p_col p) ->
  0 <= generated_column s ->
  in_order (Build_Printed (p_line p) (p_col p) s true true starts (p_ops p ++ [Map s])).
Proof.
  intros [H1 H2 H3] Hl Hc Hst Hpos. split; cbn; rewrite ?maps_of_snoc; [| |done].
  - apply StronglySorted_snoc; [done|]. eapply Forall_impl; [exact H2|]. cbn. intros x Hx. unfold pos_le. rewrite less_or_equal_spec.
    destruct Hx as [?|(E & ? & ?)]; [lia|]. specialize (Hst E). lia.
  - apply Forall_app. split; [|apply Forall_singleton; lia]. eapply Forall_impl; [exact H2|]. cbn. intros x [?|(? & ? & ?)]; [by left|by right].
Qed.

Lemma cover_starts p : in_order p -> p_starts p = false ->
  in_order (Build_Printed (p_line p) (p_col p) (p_last (cover_line p)) true true (p_loc p) (p_ops (cover_line p))).
Proof.
  intros H Hs. apply in_order_emit; cbn; [done|done|apply H|congruence|done].
Qed.

Lemma in_order_line p last has loc : in_order p ->
  in_order (Build_Printed (p_line p + 1) 0 last has false loc (p_ops p ++ [Separator])).
Proof.
  intros [H1 H2 H3]. split; cbn; rewrite ?maps_of_snoc, ?app_nil_r; [done| |done].
  eapply Forall_impl; [exact H2|]. cbn. intros x Hx. left. lia.
Qed.

Lemma in_order_event p e : in_order p -> in_order (print_event src p e).
Proof.
  intros H. destruct e as [c|j]; cbn [print_event].
  - unfold print_char. destruct (is_newline c).
    + destruct (negb (p_starts p) && p_has p) eqn:E; [|by apply in_order_line].
      apply andb_true_iff in E as [E _]. apply negb_true_iff in E. exact (in_order_line _ _ _ _ (cover_starts p H E)).
    + pose proof (units_range c). destruct H as [H1 H2 H3]. split; cbn; [done| |lia].
      eapply Forall_impl; [exact H2|]. cbn. intros x [?|(? & ? & ?)]; [by left|right; splits; (done || lia)].
  - unfold request. destruct (p_loc p =? _); [done|]. destruct (negb (p_starts p) && (0 <? p_col p) && p_has p) eqn:E.
    + apply andb_true_iff in E as [E _]. apply andb_true_iff in E as [E _]. apply negb_true_iff in E.
      pose proof (cover_starts p H E) as Hc. apply (in_order_emit _ _ (Z.of_nat (byte_at src j)) Hc); cbn; (done || lia || apply H).
    + apply (in_order_emit p _ (Z.of_nat (byte_at src j)) H); cbn; (done || lia || apply H).
Qed.

Lemma printed_in_order evs : in_order (printed src evs).
Proof.
  induction evs as [|e evs IH] using rev_ind; [split; [constructor|constructor|done]|].
  rewrite printed_snoc. by apply in_order_event.
Qed.
End Meaning.

(** Without marks the operations are separators and mappings. *)
Lemma no_braces ops : taken_braces (taken_by ops) = [] -> Forall op_ok ops -> Forall printed_ok ops.
Proof.
  induction ops as [|op ops IH] using rev_ind; [done|]. rewrite taken_snoc, !Forall_app, !Forall_singleton. intros Hb [Hops Hop].
  assert (H : taken_braces (taken_by ops) = [] /\ printed_ok op) by (by destruct (taken_by ops) as [? ? ? []], op).
  split; [apply IH; [apply H|done]|apply H].
Qed.

(** The table of a source, given or made from the text at the first mapping. *)
Definition tables_of (src : list Z) (tables : LineOffsetTables) : Prop :=
  (exists n, tables = Deferred (text src) n) \/ (exists rows, generate_in (text src) = Some rows /\ tables = Borrowed rows).

(** C15. A chunk that is printed in any order of characters (no carriage returns) and requests
    for mappings, scanned window by window, gives a valid internal map.  It holds, in order of
    the output, what the character by character specification emits; each request is there
    with its line and column in the output and those in the source, unless it repeats the
    location before it; lookup in it is the last of these mappings at or before a position;
    and the chunk ends at the line and column where the text ends. *)
Theorem chunk_maps_requests spare src tables evs :
  (forall ws n, length (spare ws n) = n) -> Forall is_code_point src -> Z.of_nat (length (text src)) < i32_max ->
  tables_of src tables -> Forall (event_ok src) evs -> Z.of_nat (length evs) <= 2 ^ 25 ->
  let ms := maps_of (p_ops (printed src evs)) in
  exists chunk, print_chunk spare src tables evs = Some chunk /\ is_valid_blob (buffer chunk) = Some true /\
    for_each (buffer chunk) = Some (map to_mapping ms) /\
    (forall line col, find (buffer chunk) line col = Some (to_mapping <$> find_ref ms line col)) /\
    (generated_line (end_state chunk), final_generated_column chunk) = position (chars_of evs) (length (chars_of evs)) /\
    (forall evs1 j evs2, evs = evs1 ++ Request j :: evs2 -> p_loc (printed src evs1) <> Z.of_nat (byte_at src j) ->
       let g := position (chars_of evs1) (length (chars_of evs1)) in
       let o := position src j in
       Build_State (fst g) (snd g) 0 (fst o) (snd o) ∈ ms).
Proof.
  intros Hspare Hsrc Hsmall Htab Hevs Hlen ms. destruct (table_generated src Hsrc Hsmall) as (rows & Hgen & Hrows).
  assert (Ht : tables_ok src rows tables).
  { destruct Htab as [[n ->]|(rows' & E & ->)]; [right; right; by exists n|left; congruence]. }
  destruct (print_chunk_spec spare Hspare src Hsrc Hsmall rows Hgen Hrows tables evs Ht Hevs Hlen) as (Hw & chunk & E & Eb & Hcol & Hline & _).
  assert (Hcr : forall evs, Forall (event_ok src) evs -> Forall (fun c => c <> 0x0D) (chars_of evs)).
  { clear. intros evs. induction 1 as [|[c|j] evs He _ IH]; [constructor|constructor; [apply He|exact IH]|exact IH]. }
  destruct Hw as [_ _ _ W4 W5 _ W7 W8]. fold ms in W7. pose proof (no_braces _ W8 W4) as Hops.
  destruct (generate_reads_back spare Hspare (p_ops (printed src evs)) ltac:(lia) Hops) as (blob & Eg & Hv & _ & Hf & _).
  rewrite Eb in Eg. injection Eg as <-. rewrite W7 in Hf. exists chunk. splits; [done|done|done| | |].
  - intros line col. destruct (generate_spec spare Hspare (p_ops (printed src evs)) ltac:(lia) Hops) as (Eg & Hfits & _).
    rewrite Eb in Eg. injection Eg as ->. rewrite W8, W7 in *. apply find_file; [done..|]. apply printed_in_order.
  - rewrite Hline, Hcol. by apply printed_position, Hcr.
  - intros evs1 j evs2 -> Hne. apply request_maps; [|done]. apply Forall_app in Hevs as [Hevs _]. by apply Hcr.
Qed.

Definition sample_source : list Z := [97; 0xE9; 98; 10; 0x1F600; 99].
Definition sample_events : list PrintEvent :=
  [Request 0; Char 120; Char 0x1F600; Request 2; Char 10; Char 121; Char 10; Char 32; Request 5; Request 5; Char 122].

Lemma chunk_maps_requests_witness :
  let ms := maps_of (p_ops (printed sample_source sample_events)) in
  exists chunk, print_chunk stale sample_source (Deferred (text sample_source) 2) sample_events = Some chunk /\
    is_valid_blob (buffer chunk) = Some true /\ for_each (buffer chunk) = Some (map to_mapping ms) /\
    (forall line col, find (buffer chunk) line col = Some (to_mapping <$> find_ref ms line col)) /\
    (generated_line (end_state chunk), final_generated_column chunk) = position (chars_of sample_events) (length (chars_of sample_events)) /\
    (forall evs1 j evs2, sample_events = evs1 ++ Request j :: evs2 -> p_loc (printed sample_source evs1) <> Z.of_nat (byte_at sample_source j) ->
       let g := position (chars_of evs1) (length (chars_of evs1)) in
       let o := position sample_source j in
       Build_State (fst g) (snd g) 0 (fst o) (snd o) ∈ ms).
Proof.
  apply (chunk_maps_requests stale sample_source (Deferred (text sample_source) 2) sample_events).
  - exact stale_length.
  - repeat constructor; vm_compute; discriminate.
  - reflexivity.
  - left. by exists 2.
  - unfold sample_events. repeat (apply Forall_cons; split; [vm_compute; repeat split; (discriminate || lia)|]). constructor.
  - vm_compute. discriminate.
Defined.

(** The test for a line feed looks one byte too far, so a Windows newline counts as two. *)
Example windows_newline_is_two_lines :
  (b ← update_generated_line_and_column stale (bstr "a" ++ [0x0D; 0x0A] ++ bstr "b") (lazy_builder NoTables);
   Some (generated_line (prev_state b), gen_column b)) = Some (2, 1) /\
  position [97; 0x0D; 0x0A; 98] 4 = (1, 1).
Proof. by vm_compute. Qed.
