(* ===== verification/SourceMapList.v ===== *)
(** * Lists of mappings and the parser of mappings strings (src/sourcemap/Mapping.rs)

    [List] holds the mappings of a standard source map, with or without names, and looks
    positions up by binary search.  [parse] reads a mappings string into it: a loop over
    segments, before which a vectorised pass may take a prefix of the string.  Both are
    compared with the internal map of SourceMap.v. *)

From S2P Require Import Prelude StableSort MultiArraySort SemverString Vlq SourceMapWindow SourceMapBuilder SourceMap.

(** ** The list *)

(** [LineColumnOffset] is a pair of a line and a column. *)
Record MappingWithoutName := {
  generated_ : Z * Z;
  original_ : Z * Z;
  source_index_ : Z
}.

Definition to_named (m : MappingWithoutName) : Mapping := {|
  generated := generated_ m;
  original := original_ m;
  mapping_source_index := source_index_ m;
  name_index := -1
|}.

Inductive ListValue :=
  | WithoutNames (list_ : list MappingWithoutName)
  | WithNames (list_ : list Mapping).

Record MappingList := {
  impl : ListValue;
  names : list SemverString.String;
  names_buffer : bytes
}.

Definition list_default : MappingList := Build_MappingList (WithoutNames []) [] [].
Definition with_impl (l : MappingList) (v : ListValue) : MappingList := Build_MappingList v (names l) (names_buffer l).

Definition list_len (l : MappingList) : nat := match impl l with WithoutNames l => length l | WithNames l => length l end.

Definition ensure_with_names (l : MappingList) : MappingList :=
  match impl l with
  | WithNames _ => l
  | WithoutNames without_names => with_impl l (WithNames (map to_named without_names))
  end.

Definition list_append (m : Mapping) (l : MappingList) : MappingList :=
  match impl l with
  | WithoutNames ms =>
      with_impl l (WithoutNames (ms ++ [{| generated_ := generated m; original_ := original m; source_index_ := mapping_source_index m |}]))
  | WithNames ms => with_impl l (WithNames (ms ++ [m]))
  end.

Definition list_generated (l : MappingList) : list (Z * Z) :=
  match impl l with WithoutNames l => map generated_ l | WithNames l => map generated l end.
Definition list_original (l : MappingList) : list (Z * Z) :=
  match impl l with WithoutNames l => map original_ l | WithNames l => map original l end.
Definition list_source_index (l : MappingList) : list Z :=
  match impl l with WithoutNames l => map source_index_ l | WithNames l => map mapping_source_index l end.

(** [while count > 0]; the result is [index]. *)
Fixpoint find_index_loop (fuel : nat) (offsets : list (Z * Z)) (line column : Z) (index count : nat) : option nat :=
  if (0 <? count)%nat then
    match fuel with
    | O => None
    | S fuel =>
        let step := (count / 2)%nat in
        let i := (index + step)%nat in
        mapping ← offsets !! i;
        if (fst mapping <? line) || ((fst mapping =? line) && (snd mapping <=? column))
        then find_index_loop fuel offsets line column (i + 1) (count - (step + 1))
        else find_index_loop fuel offsets line column index step
    end
  else Some index.

Definition find_index_from_generated (offsets : list (Z * Z)) (line column : Z) : option (option nat) :=
  index ← find_index_loop (length offsets) offsets line column 0 (length offsets);
  if (0 <? index)%nat then
    mapping ← offsets !! (index - 1)%nat;
    Some (if fst mapping =? line then Some (index - 1)%nat else None)
  else Some None.

Definition list_find (l : MappingList) (line column : Z) : option (option Mapping) :=
  match impl l with
  | WithoutNames ms =>
      i ← find_index_from_generated (map generated_ ms) line column;
      match i with Some i => m ← ms !! i; Some (Some (to_named m)) | None => Some None end
  | WithNames ms =>
      i ← find_index_from_generated (map generated ms) line column;
      match i with Some i => m ← ms !! i; Some (Some m) | None => Some None end
  end.

(** [SortContext::less_than], on the column of generated positions. *)
Definition cmp_position : Z * Z -> Z * Z -> comparison := cmp_then (cmp_on fst Z.compare) (cmp_on snd Z.compare).
Definition less_than {A} (gen : A -> Z * Z) (rows : list A) (a_index b_index : nat) : option bool :=
  a ← gen <$> rows !! a_index; b ← gen <$> rows !! b_index;
  Some (if negb (fst a =? fst b) then fst a <? fst b
        else if negb (snd a =? snd b) then snd a <? snd b
        else (a_index <? b_index)%nat).
Definition list_sort (l : MappingList) : option MappingList :=
  match impl l with
  | WithoutNames ms => ms ← sort_context (less_than generated_) ms 0 (length ms); Some (with_impl l (WithoutNames ms))
  | WithNames ms => ms ← sort_context (less_than generated) ms 0 (length ms); Some (with_impl l (WithNames ms))
  end.

Definition get_name (l : MappingList) (index : Z) : option bytes :=
  if index <? 0 then None
  else
    let i := Z.to_nat index in
    if (length (names l) <=? i)%nat then None
    else match impl l with
         | WithNames _ => (fun s => str_slice s (names_buffer l)) <$> names l !! i
         | WithoutNames _ => None
         end.

(** ** The parser *)
Inductive MappingsError :=
  | MissingGeneratedColumnValue | InvalidGeneratedColumnValue | InvalidSourceIndexDelta | InvalidSourceIndexValue
  | MissingOriginalLine | InvalidOriginalLineValue | MissingOriginalColumnValue | InvalidOriginalColumnValue
  | InvalidNameIndexDelta.
Record ParseFail := { fail_loc : Z; fail_err : MappingsError }.

Record ParseOptions := { allow_names : bool; opt_sort : bool }.

(** The variables of the loop. *)
Record Parsing := {
  mapping : MappingList;
  gen_at : Z * Z;
  orig_at : Z * Z;
  name_at : Z;
  source_at : Z;
  needs_sort : bool;
  has_names : bool;
  remaining : bytes
}.

Definition HALF_USIZE : nat := 4.
Definition SEMICOLON_RUN : bytes := replicate HALF_USIZE ";"%u8.

(** Reading numbers fails with an error, at a place of the string, or panics. *)
Definition try {A B} (m : option (result ParseFail A)) (k : A -> option (result ParseFail B)) : option (result ParseFail B) :=
  r ← m; match r with Ok a => k a | Err e => Some (Err e) end.
#[local] Notation "x ←! m ; k" := (try m (fun x => k)) (at level 20, m at level 100, k at level 200, only parsing).
#[local] Notation "' x ←! m ; k" := (try m (fun x => k)) (at level 20, x pattern, m at level 100, k at level 200, only parsing).

Section Parser.
Context (all : bytes) (sources_count : Z) (options : ParseOptions).

(** [i32::try_from(bytes.len() - remain.len()).unwrap_or(i32::MAX)] *)
Definition fail_at {A} (e : MappingsError) (remain : bytes) : option (result ParseFail A) :=
  Some (Err {| fail_loc := Z.min 2147483647 (Z.of_nat (length all - length remain)); fail_err := e |}).

(** [while remain.starts_with(&SEMICOLON_RUN)] and then [while remain[0] == b';'] *)
Fixpoint semicolon_runs (fuel : nat) (lines : Z) (remain : bytes) : option (Z * bytes) :=
  if bool_decide (take HALF_USIZE remain = SEMICOLON_RUN) then
    match fuel with
    | O => None
    | S fuel => lines ← trap_i32 (lines + Z.of_nat HALF_USIZE); semicolon_runs fuel lines (drop HALF_USIZE remain)
    end
  else Some (lines, remain).
Fixpoint semicolons (lines : Z) (remain : bytes) : option (Z * bytes) :=
  match remain with
  | c :: rest => if c =? ";"%u8 then lines ← trap_i32 (lines + 1); semicolons lines rest else Some (lines, remain)
  | [] => Some (lines, [])
  end.

(** A number of a segment that must be there; the string behind it. *)
Definition read_delta (missing : MappingsError) (remain : bytes) : option (result ParseFail (Z * bytes)) :=
  delta ← decode remain 0;
  if (start delta =? 0)%nat then fail_at missing remain
  else rest ← slice_from remain (start delta); Some (Ok (value delta, rest)).

(** The same, added to what it is relative to; a sum below zero is an error at the number. *)
Definition read_position (missing invalid : MappingsError) (absolute : Z) (remain : bytes) : option (result ParseFail (Z * Z * bytes)) :=
  '(delta, rest) ←! read_delta missing remain;
  let v := wrap_i32 (absolute + delta) in
  if v <? 0 then fail_at invalid remain else Some (Ok (v, delta, rest)).

Definition skip_one_comma (remain : bytes) : bytes := if starts_with_byte ","%u8 remain then tail remain else remain.

(** The fifth number of a segment. *)
Definition read_name (st : Parsing) : option (result ParseFail Parsing) :=
  let '(Build_Parsing l g o n s ns hn remain) := st in
  match remain with
  | [] => Some (Ok st)
  | c :: rest =>
      if c =? ","%u8 then Some (Ok (Build_Parsing l g o n s ns hn rest))
      else if c =? ";"%u8 then Some (Ok st)
      else
        '(delta, remain) ←! read_delta InvalidNameIndexDelta remain;
        let '(l, n, hn) :=
          if allow_names options
          then (if negb hn then ensure_with_names l else l, wrap_i32 (n + delta), true)
          else (l, n, hn) in
        Some (Ok (Build_Parsing l g o n s ns hn (skip_one_comma remain)))
  end.

(** The rest of a segment, behind its generated column: four numbers, or five. *)
Definition read_original (st : Parsing) : option (result ParseFail Parsing) :=
  let '(Build_Parsing l g o n s ns hn remain) := st in
  '(delta, rest) ←! read_delta InvalidSourceIndexDelta remain;
  let s := wrap_i32 (s + delta) in
  if (s <? 0) || (sources_count <=? s) then fail_at InvalidSourceIndexValue remain
  else
    '(line, _, rest) ←! read_position MissingOriginalLine InvalidOriginalLineValue (fst o) rest;
    '(column, _, rest) ←! read_position MissingOriginalColumnValue InvalidOriginalColumnValue (snd o) rest;
    st ←! read_name (Build_Parsing l g (line, column) n s ns hn rest);
    let m := {| generated := gen_at st; original := orig_at st; mapping_source_index := source_at st;
                name_index := if has_names st then name_at st else -1 |} in
    Some (Ok (Build_Parsing (list_append m (mapping st)) (gen_at st) (orig_at st) (name_at st) (source_at st)
                (needs_sort st) (has_names st) (remaining st))).

(** A round after the semicolons: a segment. *)
Definition read_segment (st : Parsing) : option (result ParseFail Parsing) :=
  let '(Build_Parsing l g o n s ns hn remain) := st in
  '(column, delta, remain) ←! read_position MissingGeneratedColumnValue InvalidGeneratedColumnValue (snd g) remain;
  let st := Build_Parsing l (fst g, column) o n s (ns || (delta <? 0)) hn remain in
  match remain with
  | [] => Some (Ok st)
  | c :: rest =>
      if c =? ","%u8 then Some (Ok (Build_Parsing l (fst g, column) o n s (ns || (delta <? 0)) hn rest))
      else if c =? ";"%u8 then Some (Ok st)
      else read_original st
  end.

(** A round of the loop: the semicolons, then a segment unless they end the string. *)
Definition parse_round (st : Parsing) : option (result ParseFail Parsing) :=
  let '(Build_Parsing l g o n s ns hn remain) := st in
  '(g, remain) ←
    (if starts_with_byte ";"%u8 remain then
       '(lines, remain) ← semicolon_runs (length remain) (fst g) remain;
       '(lines, remain) ← semicolons lines remain;
       Some ((lines, 0), remain)
     else Some (g, remain));
  let st := Build_Parsing l g o n s ns hn remain in
  match remain with [] => Some (Ok st) | _ => read_segment st end.

(** [while remain.len() > 0]; where the source breaks out of the loop nothing remains. *)
Fixpoint parse_loop (fuel : nat) (st : Parsing) : option (result ParseFail Parsing) :=
  match remaining st with
  | [] => Some (Ok st)
  | _ =>
      match fuel with
      | O => None
      | S fuel => st ←! parse_round st; parse_loop fuel st
      end
  end.

Definition finish_list (st : Parsing) : option (result ParseFail MappingList) :=
  if needs_sort st && opt_sort options then l ← list_sort (mapping st); Some (Ok l) else Some (Ok (mapping st)).

Definition parse_init : Parsing := Build_Parsing list_default (0, 0) (0, 0) 0 0 false false all.

(** What the vectorised pass leaves: the rows of a prefix, where to go on, and the numbers there. *)
Record KernelOut := {
  k_rows : list Mapping;
  k_resume : nat;
  k_gen : Z * Z;
  k_orig : Z * Z;
  k_source : Z;
  k_name : Z;
  k_needs_sort : bool;
  k_has_names : bool
}.

(** [highway_parse_mappings] is given the string, whether there is a column for names, the room
    for rows and the number of sources. *)
Context (highway_parse_mappings : bytes -> bool -> nat -> Z -> option KernelOut).

(** The commas and semicolons of a string. *)
Definition is_delim (c : Z) : bool := (c =? ","%u8) || (c =? ";"%u8).
Definition count_mapping_delims (s : bytes) : nat := length (List.filter is_delim s).

Definition without_name (m : Mapping) : MappingWithoutName :=
  {| generated_ := generated m; original_ := original m; source_index_ := mapping_source_index m |}.

Definition parse_simd : option Parsing :=
  let seg_bound := (count_mapping_delims all + 1)%nat in
  let l := if allow_names options then ensure_with_names list_default else list_default in
  out ← highway_parse_mappings all (allow_names options) seg_bound sources_count;
  let l := with_impl l (match impl l with
                        | WithoutNames ms => WithoutNames (ms ++ map without_name (k_rows out))
                        | WithNames ms => WithNames (ms ++ k_rows out)
                        end) in
  remain ← slice_from all (k_resume out);
  Some (Build_Parsing l (k_gen out) (k_orig out) (if allow_names options then k_name out else 0) (k_source out) (k_needs_sort out)
    (allow_names options && k_has_names out) remain).

Definition SIMD_THRESHOLD : nat := 128.

(** [simd_disabled] is the feature flag. *)
Definition parse (simd_disabled : bool) : option (result ParseFail MappingList) :=
  st ← (if (SIMD_THRESHOLD <=? length all)%nat && negb simd_disabled then parse_simd else Some parse_init);
  st ←! parse_loop (length all) st;
  finish_list st.
End Parser.

(** ** Lookup *)

(** The mappings, with the index -1 for names that were not kept. *)
Definition mappings_of (l : MappingList) : list Mapping :=
  match impl l with WithoutNames ms => map to_named ms | WithNames ms => ms end.

Definition position_le (a b : Z * Z) : Prop := cmp_position a b <> Gt.
Definition in_generated_order (ms : list Mapping) : Prop := StronglySorted (fun a b => position_le (generated a) (generated b)) ms.
Definition mapping_before (line column : Z) (m : Mapping) : bool :=
  (fst (generated m) <? line) || ((fst (generated m) =? line) && (snd (generated m) <=? column)).
(** The last mapping at or before a position, if it is on that line. *)
Definition list_find_ref (ms : list Mapping) (line column : Z) : option Mapping :=
  m ← last (List.filter (mapping_before line column) ms); if fst (generated m) =? line then Some m else None.

Lemma position_le_iff a b : position_le a b <-> fst a < fst b \/ (fst a = fst b /\ snd a <= snd b).
Proof.
  unfold position_le, cmp_position, cmp_then, cmp_on. destruct (Z.compare_spec (fst a) (fst b)); [|split; [by left|done]|].
  - rewrite Z.compare_gt_iff. lia.
  - split; [done|lia].
Qed.

Section Find.
Context (ms : list Mapping) (Hs : in_generated_order ms) (line column : Z).

Lemma before_mono i j a b : (i <= j)%nat -> ms !! i = Some a -> ms !! j = Some b ->
  mapping_before line column b = true -> mapping_before line column a = true.
Proof.
  intros Hij Ha Hb. destruct (decide (i = j)) as [->|]; [by simplify_eq|].
  assert (H : position_le (generated a) (generated b)).
  { revert Hs. unfold in_generated_order. rewrite <-(take_drop_middle ms j b Hb). intros H.
    rewrite <-(take_drop i (take j ms)), <-app_assoc in H.
    assert (Hd : drop i (take j ms) = a :: drop (S i) (take j ms)) by (apply drop_S; rewrite lookup_take_lt by lia; done).
    rewrite Hd in H. clear -H. induction (take i (take j ms)) as [|x l IH]; cbn in H; apply StronglySorted_inv in H as [H Hx]; [|by apply IH].
    rewrite Forall_forall in Hx. apply Hx. apply elem_of_app. right. left. }
  rewrite position_le_iff in H. unfold mapping_before. lia.
Qed.

Lemma find_index_loop_spec fuel lo count :
  (count <= fuel)%nat -> (lo + count <= length ms)%nat ->
  (forall i m, (i < lo)%nat -> ms !! i = Some m -> mapping_before line column m = true) ->
  (forall i m, (lo + count <= i)%nat -> ms !! i = Some m -> mapping_before line column m = false) ->
  exists r, find_index_loop fuel (map generated ms) line column lo count = Some r /\ (r <= length ms)%nat /\
    (forall i m, ms !! i = Some m -> mapping_before line column m = (i <? r)%nat).
Proof.
  revert lo count. induction fuel as [|fuel IH]; intros lo count Hf Hl Hlo Hhi; cbn [find_index_loop];
    destruct (0 <? count)%nat eqn:Hc; rewrite ?Nat.ltb_lt, ?Nat.ltb_ge in Hc; try lia.
  1,3: exists lo; split; [done|]; split; [lia|]; intros i m Hm; destruct (Nat.ltb_spec i lo); [by apply (Hlo i)|apply (Hhi i); [lia|done]].
  pose proof (Nat.div_lt count 2 ltac:(lia) ltac:(lia)). set (step := (count / 2)%nat) in *. clearbody step.
  destruct (lookup_lt_is_Some_2 ms (lo + step)) as [m Hm]; [lia|]. rewrite list_lookup_fmap, Hm. cbn [fmap option_fmap option_map mbind option_bind].
  change ((fst (generated m) <? line) || ((fst (generated m) =? line) && (snd (generated m) <=? column))) with (mapping_before line column m).
  destruct (mapping_before line column m) eqn:E; apply IH; try lia; try done.
  - intros i m' Hi Hm'. by apply (before_mono i (lo + step) m' m ltac:(lia)).
  - intros i m'. intros Hi. apply Hhi. lia.
  - intros i m' Hi Hm'. destruct (mapping_before line column m') eqn:E'; [|done]. by rewrite (before_mono (lo + step) i m m' ltac:(lia) Hm Hm' E') in E.
Qed.

Lemma filter_prefix (f : Mapping -> bool) (l : list Mapping) r :
  (forall i m, l !! i = Some m -> f m = (i <? r)%nat) -> List.filter f l = take r l.
Proof.
  revert r. induction l as [|x l IH]; intros r H; [by rewrite take_nil|]. cbn [List.filter]. rewrite (H 0%nat x eq_refl).
  destruct r as [|r]; cbn.
  - rewrite (IH 0%nat); [done|]. intros i m Hm. by apply (H (S i)).
  - f_equal. apply IH. intros i m Hm. by rewrite (H (S i) m Hm).
Qed.

Lemma find_index_spec :
  exists r, find_index_from_generated (map generated ms) line column = Some r /\
    match r with Some i => exists m, ms !! i = Some m /\ list_find_ref ms line column = Some m | None => list_find_ref ms line column = None end.
Proof.
  unfold find_index_from_generated. rewrite length_map.
  destruct (find_index_loop_spec (length ms) 0 (length ms)) as (r & E & Hr & Hb); [lia|lia|lia| |].
  { intros i m Hi Hm. apply lookup_lt_Some in Hm. lia. }
  rewrite E. cbn [mbind option_bind]. unfold list_find_ref. rewrite (filter_prefix _ _ r Hb).
  destruct r as [|r]; cbn [Nat.ltb Nat.leb].
  - exists None. by rewrite take_0.
  - destruct (lookup_lt_is_Some_2 ms r) as [m Hm]; [lia|]. replace (S r - 1)%nat with r by lia.
    rewrite list_lookup_fmap, Hm. cbn [fmap option_fmap option_map mbind option_bind]. rewrite (take_S_r _ _ _ Hm), last_snoc. cbn [mbind option_bind].
    eexists. split; [done|]. destruct (fst (generated m) =? line); [by exists m|done].
Qed.
End Find.

(** Lookup in either kind of list is the last mapping before. *)
Lemma list_find_spec l line column : in_generated_order (mappings_of l) ->
  list_find l line column = Some (list_find_ref (mappings_of l) line column).
Proof.
  intros Hs. destruct (find_index_spec (mappings_of l) Hs line column) as (r & E & Hr). unfold list_find, mappings_of in *.
  destruct (impl l) as [ms|ms].
  - rewrite map_map in E. change (map (fun x => generated (to_named x)) ms) with (map generated_ ms) in E. rewrite E. cbn [mbind option_bind].
    destruct r as [i|]; [|by rewrite Hr]. destruct Hr as (m & Hm & ->). apply list_lookup_fmap_Some in Hm as (x & -> & ->). done.
  - rewrite E. cbn [mbind option_bind]. destruct r as [i|]; [|by rewrite Hr]. by destruct Hr as (m & -> & ->).
Qed.

(** ** Sorting *)
#[export] Instance cmp_position_laws : CmpLaws cmp_position.
Proof. unfold cmp_position. apply _. Qed.

Lemma less_than_by {A} (gen : A -> Z * Z) rows i j : less_than gen rows i j = less_by (cmp_on gen cmp_position) rows i j.
Proof.
  unfold less_than, less_by. destruct (rows !! i) as [a|]; [|done]. destruct (rows !! j) as [b|]; [|done].
  cbn. f_equal. unfold cmp_on, cmp_position, cmp_then, cmp_on.
  destruct (Z.compare_spec (fst (gen a)) (fst (gen b))) as [E|L|L].
  - rewrite (proj2 (Z.eqb_eq _ _) E). cbn. destruct (Z.compare_spec (snd (gen a)) (snd (gen b))) as [E'|L'|L'].
    + by rewrite (proj2 (Z.eqb_eq _ _) E').
    + rewrite (proj2 (Z.eqb_neq _ _)) by lia. apply Z.ltb_lt. lia.
    + rewrite (proj2 (Z.eqb_neq _ _)) by lia. apply Z.ltb_ge. lia.
  - rewrite (proj2 (Z.eqb_neq _ _)) by lia. apply Z.ltb_lt. lia.
  - rewrite (proj2 (Z.eqb_neq _ _)) by lia. apply Z.ltb_ge. lia.
Qed.

Lemma insert_back_ext {A} (f g : list A -> nat -> nat -> option bool) rows a j :
  (forall rows i j, f rows i j = g rows i j) -> insert_back f rows a j = insert_back g rows a j.
Proof.
  intros H. revert rows. induction j as [|j IH]; intros rows; cbn [insert_back]; [done|]. destruct (a <? S j)%nat; [|done]. rewrite H.
  destruct (g rows (S j) j) as [[]|]; [|done|done]. cbn [mbind option_bind]. destruct (swap_rows rows (S j) j); [apply IH|done].
Qed.
Lemma sort_context_ext {A} (f g : list A -> nat -> nat -> option bool) rows a b :
  (forall rows i j, f rows i j = g rows i j) -> sort_context f rows a b = sort_context g rows a b.
Proof.
  intros H. unfold sort_context. destruct (b <=? a)%nat; [done|]. generalize (seq (a + 1) (b - a - 1)) as is_. intros is_. revert rows.
  induction is_ as [|i is_ IH]; intros rows; cbn [insert_all]; [done|]. rewrite (insert_back_ext f g) by done.
  destruct (insert_back g rows a i); [apply IH|done].
Qed.

Lemma stable_sort_map {A B} (f : A -> B) (cmp : B -> B -> comparison) l :
  stable_sort cmp (map f l) = map f (stable_sort (cmp_on f cmp) l).
Proof.
  induction l as [|x l IH]; [done|]. cbn [map stable_sort foldr]. fold (stable_sort cmp (map f l)). rewrite IH. fold (stable_sort (cmp_on f cmp) l).
  generalize (stable_sort (cmp_on f cmp) l) as l'. intros l'. induction l' as [|y l' IH']; [done|]. cbn [map insert_first].
  unfold cmp_on at 2. destruct (bool_decide _); cbn [map]; [by rewrite IH'|done].
Qed.

Definition cmp_generated : Mapping -> Mapping -> comparison := cmp_on generated cmp_position.

(** [sort] is the stable sort by generated position. *)
Lemma list_sort_spec l :
  exists l', list_sort l = Some l' /\ mappings_of l' = stable_sort cmp_generated (mappings_of l).
Proof.
  unfold list_sort, mappings_of. destruct (impl l) as [ms|ms].
  - rewrite (sort_context_ext _ (less_by (cmp_on generated_ cmp_position))) by apply less_than_by. rewrite (sort_context_spec (cmp_on generated_ cmp_position)).
    cbn [mbind option_bind]. eexists. split; [done|]. cbn. by rewrite stable_sort_map.
  - rewrite (sort_context_ext _ (less_by (cmp_on generated cmp_position))) by apply less_than_by. rewrite (sort_context_spec (cmp_on generated cmp_position)).
    cbn [mbind option_bind]. eexists. split; [done|]. done.
Qed.

Lemma list_sort_sorted l : in_generated_order (stable_sort cmp_generated l).
Proof. exact (proj1 (stable_sort_ok cmp_generated l)). Qed.

(** ** Any string *)

Lemma lor_word a b : 0 <= a < 2 ^ 32 -> 0 <= b < 4294967296 -> 0 <= Z.lor a b < 2 ^ 32.
Proof.
  change 4294967296 with (2 ^ 32). intros Ha Hb. assert (H0 : 0 <= Z.lor a b) by (apply Z.lor_nonneg; lia). split; [done|].
  destruct (Z.eq_dec (Z.lor a b) 0) as [->|]; [lia|]. apply Z.log2_lt_pow2; [lia|]. rewrite Z.log2_lor by lia.
  assert (H : forall x, 0 <= x < 2 ^ 32 -> Z.log2 x < 32).
  { intros x Hx. destruct (Z.eq_dec x 0) as [->|]; [done|]. apply Z.log2_lt_pow2; lia. }
  apply Z.max_lub_lt; by apply H.
Qed.

Lemma decode_range encoded start_ r : decode encoded start_ = Some r -> is_i32 (value r).
Proof.
  unfold decode. destruct (slice_from encoded start_) as [rest|]; [|done]. cbn [mbind option_bind].
  destruct (slice_range rest 0 _) as [enc|]; [|done]. cbn [mbind option_bind].
  enough (forall vlq shift i, 0 <= vlq < 2 ^ 32 -> decode_loop enc start_ i shift vlq = Some r -> is_i32 (value r)) as H
    by (intros E; by apply (H 0 0 0%nat)).
  induction enc as [|c enc IH]; intros vlq shift i Hv E; cbn [decode_loop] in E; [simplify_eq; unfold is_i32; cbn; lia|].
  destruct (BASE64_LUT !! _) as [index|]; [|done]. cbn [mbind option_bind] in E.
  set (vlq' := Z.lor vlq _) in E. assert (Hv' : 0 <= vlq' < 2 ^ 32) by (apply lor_word; [done|apply Z.mod_pos_bound; lia]).
  clearbody vlq'. destruct (_ =? 0); [|by apply (IH vlq' (shift + 5) (S i))]. simplify_eq. cbn. change (2 ^ 32) with 4294967296 in Hv'.
  rewrite Z.shiftr_div_pow2 by lia. change (2 ^ 1) with 2. pose proof (Z.div_pos vlq' 2 ltac:(lia) ltac:(lia)). pose proof (Z.div_lt_upper_bound vlq' 2 2147483648 ltac:(lia) ltac:(lia)).
  unfold is_i32. destruct (_ =? 0); lia.
Qed.

(** Semicolons, four at a time or one at a time, are counted. *)
Definition is_semicolon (c : Z) : bool := c =? ";"%u8.

Lemma semicolons_spec lines s :
  0 <= lines -> lines + Z.of_nat (count_while is_semicolon s) <= 2147483647 ->
  semicolons lines s = Some (lines + Z.of_nat (count_while is_semicolon s), drop (count_while is_semicolon s) s).
Proof.
  revert lines. induction s as [|c s IH]; intros lines H0 H; cbn [semicolons count_while] in *; [by rewrite Z.add_0_r|].
  change (is_semicolon c) with (c =? ";"%u8) in *. destruct (c =? _); [|by rewrite Z.add_0_r].
  rewrite trap_i32_Some by (unfold is_i32; lia). cbn [mbind option_bind]. rewrite IH by lia. cbn [drop]. do 2 f_equal. lia.
Qed.

Lemma semicolon_runs_spec fuel lines s :
  (length s <= fuel)%nat -> 0 <= lines -> lines + Z.of_nat (count_while is_semicolon s) <= 2147483647 ->
  exists k, (k <= count_while is_semicolon s)%nat /\ semicolon_runs fuel lines s = Some (lines + Z.of_nat k, drop k s) /\
    count_while is_semicolon (drop k s) = (count_while is_semicolon s - k)%nat.
Proof.
  revert lines s. induction fuel as [|fuel IH]; intros lines s Hf H0 H; cbn [semicolon_runs].
  - destruct s; [|cbn in Hf; lia]. rewrite bool_decide_false by done. exists 0%nat. rewrite Z.add_0_r. done.
  - case_bool_decide as E; [|exists 0%nat; rewrite Z.add_0_r, drop_0, Nat.sub_0_r; splits; (done || lia)].
    destruct s as [|c1 [|c2 [|c3 [|c4 s]]]]; try done. cbn in E. injection E as -> -> -> ->. cbn [length] in *.
    change (count_while is_semicolon (_ :: _ :: _ :: _ :: s)) with (4 + count_while is_semicolon s)%nat in *.
    rewrite trap_i32_Some by (unfold is_i32, HALF_USIZE; lia). cbn [mbind option_bind]. change (drop HALF_USIZE _) with s.
    destruct (IH (lines + Z.of_nat HALF_USIZE) s) as (k & Hk & E & Hc); [lia|unfold HALF_USIZE; lia|unfold HALF_USIZE; lia|].
    exists (4 + k)%nat. splits; [lia| |cbn [Nat.add drop]; rewrite Hc; lia]. rewrite E. cbn [Nat.add drop]. unfold HALF_USIZE. do 2 f_equal. lia.
Qed.

(** Both together. *)
Lemma count_semicolons lines s :
  0 <= lines -> lines + Z.of_nat (count_while is_semicolon s) <= 2147483647 ->
  ('(lines, remain) ← semicolon_runs (length s) lines s; '(lines, remain) ← semicolons lines remain; Some ((lines, 0), remain)) =
    Some ((lines + Z.of_nat (count_while is_semicolon s), 0), drop (count_while is_semicolon s) s).
Proof.
  intros H0 H. destruct (semicolon_runs_spec (length s) lines s) as (k & Hk & -> & Hc); [done..|]. cbn [mbind option_bind].
  rewrite semicolons_spec by lia. cbn [mbind option_bind]. rewrite Hc, drop_drop. f_equal. f_equal; f_equal; lia.
Qed.

(** What the loop keeps. *)
Section Any.
Context (all : bytes) (sources_count : Z) (options : ParseOptions) (Hlen : Z.of_nat (length all) <= 2147483647).

Definition mapping_in (m : Mapping) : Prop :=
  nat_i32 (fst (generated m)) /\ nat_i32 (snd (generated m)) /\ nat_i32 (fst (original m)) /\ nat_i32 (snd (original m)) /\
  0 <= mapping_source_index m < sources_count.

Record parsing_ok (st : Parsing) : Prop := {
  ps_line : 0 <= fst (gen_at st) /\ fst (gen_at st) + Z.of_nat (length (remaining st)) <= Z.of_nat (length all);
  ps_column : nat_i32 (snd (gen_at st));
  ps_orig : nat_i32 (fst (orig_at st)) /\ nat_i32 (snd (orig_at st));
  ps_mappings : Forall mapping_in (mappings_of (mapping st));
  ps_order : needs_sort st = false ->
    in_generated_order (mappings_of (mapping st)) /\ Forall (fun m => position_le (generated m) (gen_at st)) (mappings_of (mapping st))
}.

(** A step fails at a place of the string, or goes forward. *)
Definition forward {A} (rem_of : A -> bytes) (n : nat) (P : A -> Prop) (r : option (result ParseFail A)) : Prop :=
  match r with
  | None => False
  | Some (Err e) => 0 <= fail_loc e <= Z.of_nat (length all)
  | Some (Ok a) => (length (rem_of a) <= n)%nat /\ P a
  end.

Lemma forward_try {A B} (ra : A -> bytes) (rb : B -> bytes) n m P Q r (k : A -> option (result ParseFail B)) :
  forward ra n P r -> (forall a, (length (ra a) <= n)%nat -> P a -> forward rb m Q (k a)) -> forward rb m Q (try r k).
Proof. unfold forward, try. destruct r as [[a|e]|]; cbn [mbind option_bind]; [|done..]. intros [? ?] Hk. by apply Hk. Qed.

Lemma fail_forward {A} (ra : A -> bytes) n (P : A -> Prop) e rem :
  forward ra n P (fail_at all e rem).
Proof. unfold forward, fail_at. cbn. lia. Qed.

Lemma read_delta_forward missing rem :
  forward snd (length rem - 1) (fun r => is_i32 (fst r)) (read_delta all missing rem).
Proof.
  unfold read_delta. destruct (decode_total rem 0) as (r & E & Hr); [lia|]. rewrite E. cbn [mbind option_bind].
  destruct (Nat.eqb_spec (start r) 0); [by apply fail_forward|]. rewrite slice_from_Some by lia. cbn [mbind option_bind forward fst snd].
  rewrite length_drop. split; [lia|by apply decode_range in E].
Qed.

Lemma read_position_forward missing invalid a rem :
  nat_i32 a ->
  forward snd (length rem - 1) (fun r => nat_i32 (fst (fst r)) /\ (0 <= snd (fst r) -> a <= fst (fst r)))
    (read_position all missing invalid a rem).
Proof.
  intros Ha. unfold read_position. eapply forward_try; [apply read_delta_forward|]. intros [delta rest] Hl Hd. cbn [fst snd] in *.
  destruct (Z.ltb_spec (wrap_i32 (a + delta)) 0) as [|Hpos]; [by apply fail_forward|]. cbn [forward fst snd].
  pose proof (wrap_i32_range (a + delta)) as Hr. unfold nat_i32, is_i32 in *. splits; [done|lia..|]. intros Hd0.
  destruct (Z.le_gt_cases (a + delta) 2147483647) as [Hs|Hs].
  - rewrite wrap_i32_id in * by (unfold is_i32; lia). lia.
  - unfold wrap_i32 in Hpos. exfalso. rewrite (Z.mod_eq (a + delta + 2147483648) 4294967296) in Hpos by lia.
    assert ((a + delta + 2147483648) / 4294967296 = 1) as E by (symmetry; apply (Z.div_unique _ _ _ (a + delta + 2147483648 - 4294967296)); lia).
    lia.
Qed.

Lemma starts_with_tail c rem : (length (if starts_with_byte c rem then tail rem else rem) <= length rem)%nat.
Proof. destruct rem; cbn; [lia|]. destruct (_ =? _); cbn; lia. Qed.

Lemma mappings_of_named l : mappings_of (ensure_with_names l) = mappings_of l.
Proof. unfold ensure_with_names, mappings_of. by destruct (impl l) eqn:E; cbn; rewrite ?E. Qed.
Lemma mappings_of_append m l : exists n, mappings_of (list_append m l) =
  mappings_of l ++ [{| generated := generated m; original := original m; mapping_source_index := mapping_source_index m; name_index := n |}].
Proof.
  unfold list_append, mappings_of. destruct (impl l); cbn.
  - exists (-1). by rewrite map_app.
  - exists (name_index m). by destruct m.
Qed.

(** The name changes no number but its own. *)
Lemma read_name_forward st :
  forward remaining (length (remaining st)) (fun st' => mappings_of (mapping st') = mappings_of (mapping st) /\ gen_at st' = gen_at st /\
    orig_at st' = orig_at st /\ source_at st' = source_at st /\ needs_sort st' = needs_sort st) (read_name all options st).
Proof.
  destruct st as [l g o n s ns hn rem]. unfold read_name. cbn. destruct rem as [|c rest]; [cbn; splits; (done || lia)|].
  destruct (c =? _); [cbn; splits; (done || lia)|]. destruct (c =? _); [cbn; splits; (done || lia)|].
  eapply forward_try; [apply read_delta_forward|]. intros [delta rem'] Hl _. cbn [fst snd length] in *.
  pose proof (starts_with_tail ","%u8 rem'). unfold skip_one_comma.
  destruct (allow_names options); cbn; splits; try done; try lia. destruct (negb hn); [apply mappings_of_named|done].
Qed.

Lemma sorted_snoc (ms : list Mapping) m :
  in_generated_order ms -> Forall (fun x => position_le (generated x) (generated m)) ms -> in_generated_order (ms ++ [m]).
Proof.
  intros Hs Hm. induction Hs as [|x ms Hs IH Hx]; cbn; [repeat constructor|]. apply Forall_cons in Hm as [Hxm Hm].
  constructor; [by apply IH|]. apply Forall_app. split; [done|by apply Forall_singleton].
Qed.

Lemma parsing_ok_append st st' m rem :
  parsing_ok st -> mappings_of (mapping st') = mappings_of (mapping st) -> gen_at st' = gen_at st -> needs_sort st' = needs_sort st ->
  nat_i32 (fst (orig_at st')) -> nat_i32 (snd (orig_at st')) -> 0 <= source_at st' < sources_count ->
  generated m = gen_at st' -> original m = orig_at st' -> mapping_source_index m = source_at st' ->
  (length rem <= length (remaining st))%nat ->
  parsing_ok (Build_Parsing (list_append m (mapping st')) (gen_at st') (orig_at st') (name_at st') (source_at st')
                (needs_sort st') (has_names st') rem).
Proof.
  intros [P1 P2 P3 P4 P5] Em Eg En Ho1 Ho2 Hs Mg Mo Ms Hr.
  destruct (mappings_of_append m (mapping st')) as [n E].
  split; cbn; rewrite ?Eg, ?En; [lia|done|done| |].
  - rewrite E, Em. apply Forall_app. split; [done|]. apply Forall_singleton. unfold mapping_in. cbn. rewrite Mg, Mo, Ms, Eg.
    unfold nat_i32 in *. splits; (done || lia).
  - intros Hn. destruct (P5 Hn) as [Hord Hle]. rewrite E, Em. split.
    + apply sorted_snoc; [done|]. cbn. by rewrite Mg, Eg.
    + apply Forall_app. split; [done|]. apply Forall_singleton. cbn. rewrite Mg, Eg. apply position_le_iff. lia.
Qed.

Lemma read_original_forward st :
  parsing_ok st -> forward remaining (length (remaining st) - 1) parsing_ok (read_original all sources_count options st).
Proof.
  intros Hst. pose proof Hst as [P1 P2 [P3 P3'] P4 P5]. destruct st as [l g o n s ns hn rem]. cbn in *. unfold read_original.
  eapply forward_try; [apply read_delta_forward|]. intros [delta rest] Hl _. cbn [fst snd] in *. cbv zeta.
  destruct (Z.ltb_spec (wrap_i32 (s + delta)) 0) as [|Hs0]; [by apply fail_forward|].
  destruct (Z.leb_spec sources_count (wrap_i32 (s + delta))) as [|Hs1]; [by apply fail_forward|]. cbn [orb].
  eapply forward_try; [by apply read_position_forward|]. intros [[line d1] rest1] Hl1 [Hline _]. cbn [fst snd] in *.
  eapply forward_try; [by apply read_position_forward|]. intros [[column d2] rest2] Hl2 [Hcol _]. cbn [fst snd] in *.
  eapply forward_try; [exact (read_name_forward (Build_Parsing l g (line, column) n (wrap_i32 (s + delta)) ns hn rest2))|]. intros st' Hl3 (Em & Eg & Eo & Es & En). cbn [mapping gen_at orig_at source_at needs_sort remaining forward] in *.
  split; [lia|]. apply (parsing_ok_append (Build_Parsing l g o n s ns hn rem)); cbn; rewrite ?Eo, ?Es; try done; lia.
Qed.

(** The column that a segment starts with. *)
Lemma parsing_ok_column st column delta rem :
  parsing_ok st -> nat_i32 column -> (0 <= delta -> snd (gen_at st) <= column) -> (length rem <= length (remaining st))%nat ->
  parsing_ok (Build_Parsing (mapping st) (fst (gen_at st), column) (orig_at st) (name_at st) (source_at st)
                (needs_sort st || (delta <? 0)) (has_names st) rem).
Proof.
  intros [P1 P2 P3 P4 P5] Hc Hd Hr. split; cbn; [lia|done|done|done|]. intros [Hn Hdelta]%orb_false_iff. destruct (P5 Hn) as [Hord Hle].
  split; [done|]. eapply Forall_impl; [exact Hle|]. cbn. intros m. rewrite !position_le_iff. cbn. lia.
Qed.

Lemma read_segment_forward st :
  parsing_ok st -> forward remaining (length (remaining st) - 1) parsing_ok (read_segment all sources_count options st).
Proof.
  intros Hst. unfold read_segment. destruct st as [l g o n s ns hn rem]. eapply forward_try; [apply read_position_forward, Hst|].
  intros [[column delta] rem'] Hl [Hc Hd]. cbn [fst snd] in *.
  assert (Hok : forall r, (length r <= length rem)%nat -> parsing_ok (Build_Parsing l (fst g, column) o n s (ns || (delta <? 0)) hn r)).
  { intros r Hr. by apply (parsing_ok_column (Build_Parsing l g o n s ns hn rem)). }
  cbn [remaining] in *. destruct rem' as [|c rest]; [cbn; split; [lia|]; apply Hok; cbn; lia|]. cbn [length] in *.
  destruct (c =? _); [cbn; split; [lia|]; apply Hok; lia|]. destruct (c =? _); [cbn; split; [lia|]; apply Hok; cbn; lia|].
  assert (H := read_original_forward (Build_Parsing l (fst g, column) o n s (ns || (delta <? 0)) hn (c :: rest)) ltac:(apply Hok; cbn; lia)).
  revert H. unfold forward. destruct (read_original _ _ _ _) as [[a|e]|]; [|done..]. cbn. intros [? ?]. split; [lia|done].
Qed.

(** New lines: positions behind those before. *)
Lemma parsing_ok_lines st lines rem :
  parsing_ok st -> fst (gen_at st) < lines -> lines + Z.of_nat (length rem) <= Z.of_nat (length all) ->
  parsing_ok (Build_Parsing (mapping st) (lines, 0) (orig_at st) (name_at st) (source_at st) (needs_sort st) (has_names st) rem).
Proof.
  intros [P1 P2 P3 P4 P5] Hl Hr. split; cbn; [lia|unfold nat_i32; lia|done|done|]. intros Hn. destruct (P5 Hn) as [Hord Hle].
  split; [done|]. eapply Forall_impl; [exact Hle|]. cbn. intros m. rewrite !position_le_iff. cbn. lia.
Qed.

Lemma parse_round_forward st :
  parsing_ok st -> remaining st <> [] -> forward remaining (length (remaining st) - 1) parsing_ok (parse_round all sources_count options st).
Proof.
  intros Hst Hne. pose proof Hst as [P1 _ _ _ _]. destruct st as [l g o n s ns hn rem]. cbn in P1, Hne. unfold parse_round. cbn [remaining].
  destruct (starts_with_byte _ rem) eqn:Hc.
  - destruct rem as [|c rest]; [done|]. cbn in Hc. apply Z.eqb_eq in Hc as ->. set (s0 := ";"%u8 :: rest) in *.
    pose proof (count_while_le is_semicolon s0) as Hle. rewrite count_semicolons by lia. cbn [mbind option_bind].
    assert (Hpos : (1 <= count_while is_semicolon s0)%nat) by (unfold s0; cbn; lia). set (n0 := count_while is_semicolon s0) in *.
    assert (Hok : parsing_ok (Build_Parsing l (fst g + Z.of_nat n0, 0) o n s ns hn (drop n0 s0))).
    { apply (parsing_ok_lines (Build_Parsing l g o n s ns hn s0)); [done|cbn; lia|]. rewrite length_drop. clearbody n0. lia. }
    assert (Hd : (length (drop n0 s0) <= length s0 - 1)%nat) by (rewrite length_drop; lia).
    destruct (drop n0 s0) as [|c' r'] eqn:Ed; [cbn; split; [lia|done]|].
    pose proof (read_segment_forward _ Hok) as H. revert H. unfold forward. destruct (read_segment _ _ _ _) as [[a|e]|]; [|done..].
    cbn [remaining] in *. intros [? ?]. split; [lia|done].
  - cbn [mbind option_bind]. destruct rem; [done|]. by apply read_segment_forward.
Qed.

Lemma parse_loop_forward fuel st :
  parsing_ok st -> (length (remaining st) <= fuel)%nat ->
  forward remaining 0 parsing_ok (parse_loop all sources_count options fuel st).
Proof.
  revert st. induction fuel as [|fuel IH]; intros st Hst Hf; cbn [parse_loop]; destruct (remaining st) as [|c r] eqn:E.
  1,3: cbn; by rewrite E.
  - cbn in Hf. lia.
  - eapply forward_try; [apply parse_round_forward; [done|congruence]|]. intros st' Hl Hst'. apply IH; [done|]. rewrite E in Hl. cbn in *. lia.
Qed.

Lemma parsing_ok_init : parsing_ok (parse_init all).
Proof.
  split; cbn; [lia|unfold nat_i32; lia|unfold nat_i32; lia|constructor|]. intros _. split; constructor.
Qed.
End Any.

(** ** The vectorised pass changes nothing *)
#[local] Arguments read_name : simpl never.
#[local] Arguments read_original : simpl never.
#[local] Arguments read_segment : simpl never.

(** [n] rounds, none of them on an empty rest. *)
Fixpoint parse_rounds (all : bytes) (sources_count : Z) (options : ParseOptions) (n : nat) (st : Parsing) : option (result ParseFail Parsing) :=
  match n with
  | O => Some (Ok st)
  | S n =>
      match remaining st with
      | [] => None
      | _ => st ←! parse_round all sources_count options st; parse_rounds all sources_count options n st
      end
  end.

(** The loop's state once [k] of the semicolons in front are read. *)
Definition past_semicolons (k : nat) (st : Parsing) : Parsing :=
  Build_Parsing (mapping st) (if (k =? 0)%nat then gen_at st else (fst (gen_at st) + Z.of_nat k, 0)) (orig_at st) (name_at st) (source_at st)
    (needs_sort st) (has_names st) (drop k (remaining st)).

(** The loop reaches a state: after some rounds, and some of the semicolons of the next. *)
Definition reached (all : bytes) (sources_count : Z) (options : ParseOptions) (st : Parsing) : Prop :=
  exists n st0 k, parse_rounds all sources_count options n (parse_init all) = Some (Ok st0) /\
    (k <= count_while is_semicolon (remaining st0))%nat /\ st = past_semicolons k st0.

(** What a pass leaves is a state of the loop: its rows are the mappings there, with the numbers
    and the rest of the string. *)
Record leaves_off (all : bytes) (options : ParseOptions) (st : Parsing) (out : KernelOut) : Prop := {
  lo_remaining : remaining st = drop (k_resume out) all;
  lo_gen : gen_at st = k_gen out;
  lo_orig : orig_at st = k_orig out;
  lo_source : source_at st = k_source out;
  lo_sort : needs_sort st = k_needs_sort out;
  lo_names : allow_names options = true -> name_at st = k_name out /\ has_names st = k_has_names out;
  lo_rows : mappings_of (mapping st) = (if allow_names options then k_rows out else map (to_named ∘ without_name) (k_rows out))
}.

(** The contract of the pass (highway/lib.rs, [parse_mappings]): it ends inside the string and
    the room for rows, where the loop would come to as well, in front of a segment or behind
    semicolons.  SourceMapKernel.v proves it of the pass of highway_sourcemap.cpp. *)
Definition kernel_ok (kernel : bytes -> bool -> nat -> Z -> option KernelOut) : Prop :=
  forall all sources_count options room,
    Forall is_byte all -> Z.of_nat (length all) <= 2147483647 -> 0 <= sources_count <= 2147483647 ->
    exists out st, kernel all (allow_names options) room sources_count = Some out /\
      (k_resume out <= length all)%nat /\ (length (k_rows out) <= room)%nat /\
      reached all sources_count options st /\ leaves_off all options st out.

Section Same.
Context (all : bytes) (sources_count : Z) (options : ParseOptions).

Definition named (l : MappingList) : Prop := exists ms, impl l = WithNames ms.
(** The same mappings, in a list that has a column for names or has not. *)
Record same (st st' : Parsing) : Prop := {
  sm_mappings : mappings_of (mapping st) = mappings_of (mapping st');
  sm_gen : gen_at st = gen_at st';
  sm_orig : orig_at st = orig_at st';
  sm_name : name_at st = name_at st';
  sm_source : source_at st = source_at st';
  sm_sort : needs_sort st = needs_sort st';
  sm_has : has_names st = has_names st';
  sm_remaining : remaining st = remaining st';
  sm_named : has_names st = true -> named (mapping st) /\ named (mapping st');
  sm_allowed : allow_names options = false -> has_names st = false /\ name_at st = 0 /\ Forall (fun m => name_index m = -1) (mappings_of (mapping st))
}.

Definition agree {A} (R : A -> A -> Prop) (r r' : option (result ParseFail A)) : Prop :=
  match r, r' with
  | None, None => True
  | Some (Err e), Some (Err e') => e = e'
  | Some (Ok a), Some (Ok a') => R a a'
  | _, _ => False
  end.
Lemma agree_try {A B} (R : A -> A -> Prop) (Q : B -> B -> Prop) r r' (k k' : A -> option (result ParseFail B)) :
  agree R r r' -> (forall a a', R a a' -> agree Q (k a) (k' a')) -> agree Q (try r k) (try r' k').
Proof. unfold agree at 1, try. destruct r as [[a|e]|], r' as [[a'|e']|]; cbn [mbind option_bind]; try done; auto. Qed.
Lemma agree_refl {A} (r : option (result ParseFail A)) : agree eq r r.
Proof. by destruct r as [[]|]. Qed.
Lemma agree_fail {A} (R : A -> A -> Prop) e rem : agree R (fail_at all e rem) (fail_at all e rem).
Proof. done. Qed.

Lemma named_append m l : named l -> named (list_append m l) /\ mappings_of (list_append m l) = mappings_of l ++ [m].
Proof. intros [ms E]. unfold list_append, mappings_of. rewrite E. split; [by exists (ms ++ [m])|done]. Qed.
Lemma unnamed_append m l : name_index m = -1 -> mappings_of (list_append m l) = mappings_of l ++ [m].
Proof.
  intros Hm. destruct (mappings_of_append m l) as [n E]. unfold list_append, mappings_of in *. destruct (impl l); cbn; [|done].
  rewrite map_app. cbn. unfold to_named. cbn. by destruct m; cbn in *; subst.
Qed.
Lemma named_ensure l : named (ensure_with_names l).
Proof. unfold ensure_with_names, named. destruct (impl l) eqn:E; [by eexists|by rewrite E; eexists]. Qed.

Lemma read_name_same st st' : same st st' -> agree same (read_name all options st) (read_name all options st').
Proof.
  intros H. pose proof H as [E1 E2 E3 E4 E5 E6 E7 E8 E9 E10]. destruct st as [l g o n s ns hn rem], st' as [l' g' o' n' s' ns' hn' rem']. cbn in *. subst.
  unfold read_name. destruct rem' as [|c rest]; [done|]. destruct (c =? _); [by split|]. destruct (c =? _); [done|].
  eapply agree_try; [apply agree_refl|]. intros [delta rem] _ <-. destruct (allow_names options) eqn:Ha; cbn.
  - split; cbn; try done.
    + destruct hn'; cbn; [done|by rewrite !mappings_of_named].
    + intros _. destruct hn'; cbn; [by apply E9|split; apply named_ensure].
    + congruence.
  - split; cbn; try done. rewrite Ha. done.
Qed.

Lemma read_original_same st st' : same st st' -> agree same (read_original all sources_count options st) (read_original all sources_count options st').
Proof.
  intros H. pose proof H as [E1 E2 E3 E4 E5 E6 E7 E8 E9 E10]. destruct st as [l g o n s ns hn rem], st' as [l' g' o' n' s' ns' hn' rem']. cbn in *. subst.
  unfold read_original. eapply agree_try; [apply agree_refl|]. intros [delta rest] _ <-. cbv zeta. destruct (_ || _); [apply agree_fail|].
  eapply agree_try; [apply agree_refl|]. intros [[line d1] rest1] _ <-. eapply agree_try; [apply agree_refl|]. intros [[column d2] rest2] _ <-.
  refine (agree_try same same _ _ _ _ (read_name_same _ _ _) _); [by split|]. clear. intros st st' [E1 E2 E3 E4 E5 E6 E7 E8 E9 E10].
  destruct st as [l g o n s ns hn rem], st' as [l' g' o' n' s' ns' hn' rem']. cbn in *. subst.
  split; cbn; try done.
  - destruct hn'; [destruct (E9 eq_refl) as [H1 H2]; by rewrite (proj2 (named_append _ l H1)), (proj2 (named_append _ l' H2)), E1|].
    by rewrite !unnamed_append, E1.
  - intros ->. destruct (E9 eq_refl). split; by apply named_append.
  - intros Ha. destruct (E10 Ha) as (-> & -> & Hall). splits; [done|done|]. rewrite unnamed_append by done.
    apply Forall_app. split; [done|by apply Forall_singleton].
Qed.

Lemma parse_round_same st st' : same st st' -> agree same (parse_round all sources_count options st) (parse_round all sources_count options st').
Proof.
  intros H. pose proof H as [E1 E2 E3 E4 E5 E6 E7 E8 E9 E10]. destruct st as [l g o n s ns hn rem], st' as [l' g' o' n' s' ns' hn' rem']. cbn in *. subst.
  unfold parse_round.
  assert (Hseg : forall g rem, agree same (read_segment all sources_count options (Build_Parsing l g o' n' s' ns' hn' rem))
    (read_segment all sources_count options (Build_Parsing l' g o' n' s' ns' hn' rem))).
  { intros g rem. unfold read_segment. eapply agree_try; [apply agree_refl|]. intros [[column delta] rem1] _ <-. cbv zeta.
    destruct rem1 as [|c rest]; [by split|]. destruct (c =? _); [by split|]. destruct (c =? _); [by split|]. apply read_original_same. by split. }
  set (m := if starts_with_byte _ rem' then _ else _). destruct m as [[g rem]|]; [|done]. cbn [mbind option_bind].
  destruct rem; [by split|apply Hseg].
Qed.

Lemma parse_loop_same fuel st st' : same st st' ->
  agree same (parse_loop all sources_count options fuel st) (parse_loop all sources_count options fuel st').
Proof.
  revert st st'. induction fuel as [|fuel IH]; intros st st' H; cbn [parse_loop]; rewrite (sm_remaining _ _ H); destruct (remaining st'); try done.
  eapply agree_try; [by apply parse_round_same|]. exact IH.
Qed.

Lemma parse_rounds_same n st : same st st -> agree same (parse_rounds all sources_count options n st) (parse_rounds all sources_count options n st).
Proof.
  revert st. induction n as [|n IH]; intros st H; cbn [parse_rounds]; [done|]. destruct (remaining st); [done|].
  pose proof (parse_round_same st st H) as Hr. destruct (parse_round _ _ _ st) as [[a|e]|]; cbn in *; [by apply IH|done|done].
Qed.

(** More fuel does not matter. *)
Lemma parse_loop_mono fuel fuel' st r :
  parse_loop all sources_count options fuel st = Some r -> (fuel <= fuel')%nat -> parse_loop all sources_count options fuel' st = Some r.
Proof.
  revert fuel' st. induction fuel as [|fuel IH]; intros fuel' st E Hf; cbn [parse_loop] in E.
  - destruct (remaining st) eqn:Er; [|done]. destruct fuel'; cbn [parse_loop]; by rewrite Er.
  - destruct fuel' as [|fuel']; [lia|]. cbn [parse_loop]. destruct (remaining st); [done|]. unfold try in *.
    destruct (parse_round _ _ _ st) as [[a|e]|]; cbn [mbind option_bind] in *; [apply IH; [done|lia]|done|done].
Qed.

Lemma parse_rounds_loop n fuel st st1 :
  parse_rounds all sources_count options n st = Some (Ok st1) ->
  parse_loop all sources_count options (n + fuel) st = parse_loop all sources_count options fuel st1.
Proof.
  revert st. induction n as [|n IH]; intros st E; cbn [parse_rounds] in E; [by simplify_eq|]. cbn [Nat.add parse_loop].
  destruct (remaining st); [done|]. unfold try in *. destruct (parse_round _ _ _ st) as [[a|e]|]; cbn [mbind option_bind] in *; [by apply IH|done|done].
Qed.
End Same.

Lemma parse_rounds_forward all sources_count options n st st' :
  Z.of_nat (length all) <= 2147483647 -> parsing_ok all sources_count st ->
  parse_rounds all sources_count options n st = Some (Ok st') ->
  parsing_ok all sources_count st' /\ (n + length (remaining st') <= length (remaining st))%nat.
Proof.
  intros Hlen. revert st. induction n as [|n IH]; intros st Hst E; cbn [parse_rounds] in E; [simplify_eq; split; [done|lia]|].
  destruct (remaining st) as [|c r] eqn:Er; [done|].
  pose proof (parse_round_forward all sources_count options Hlen st Hst ltac:(congruence)) as H. unfold try in E.
  destruct (parse_round _ _ _ st) as [[a|e]|]; cbn [mbind option_bind forward] in *; [|done..]. destruct H as [Hl Ha].
  destruct (IH a Ha E) as [? ?]. split; [done|]. rewrite Er in Hl. cbn in *. lia.
Qed.

(** The round takes the rest of the semicolons. *)
Lemma parse_round_past all sources_count options k st :
  0 <= fst (gen_at st) -> fst (gen_at st) + Z.of_nat (length (remaining st)) <= 2147483647 -> (k <= count_while is_semicolon (remaining st))%nat ->
  parse_round all sources_count options st = parse_round all sources_count options (past_semicolons k st).
Proof.
  destruct st as [l g o n s ns hn rem]. cbn [gen_at remaining past_semicolons]. intros H0 Hb Hk. destruct k as [|k]; [done|].
  unfold past_semicolons. cbn [gen_at mapping orig_at name_at source_at needs_sort has_names remaining Nat.eqb].
  pose proof (count_while_le is_semicolon rem) as Hc. unfold parse_round.
  assert (Hs : starts_with_byte ";"%u8 rem = true).
  { destruct rem as [|c rem]; cbn [count_while] in Hk; [lia|]. unfold is_semicolon in Hk at 1. cbn. by destruct (c =? ";"%u8); [|lia]. }
  rewrite Hs, count_semicolons by lia. cbn [mbind option_bind].
  assert (Hrest : count_while is_semicolon (drop (S k) rem) = (count_while is_semicolon rem - S k)%nat) by by apply count_while_drop.
  destruct (starts_with_byte ";"%u8 (drop (S k) rem)) eqn:Hd.
  - rewrite count_semicolons; cbn [fst]; rewrite ?Hrest; [|lia..]. cbn [mbind option_bind]. rewrite drop_drop.
    replace (S k + (count_while is_semicolon rem - S k))%nat with (count_while is_semicolon rem) by lia.
    by replace (fst g + Z.of_nat (S k) + Z.of_nat (count_while is_semicolon rem - S k)) with (fst g + Z.of_nat (count_while is_semicolon rem)) by lia.
  - assert (E : count_while is_semicolon (drop (S k) rem) = 0%nat).
    { destruct (drop (S k) rem) as [|c rest]; [done|]. cbn in Hd. cbn [count_while]. unfold is_semicolon at 1. by rewrite Hd. }
    replace (count_while is_semicolon rem) with (S k) by lia. done.
Qed.

Lemma parse_loop_past all sources_count options fuel k st :
  0 <= fst (gen_at st) -> fst (gen_at st) + Z.of_nat (length (remaining st)) <= 2147483647 -> (k <= count_while is_semicolon (remaining st))%nat ->
  (length (remaining st) <= fuel)%nat ->
  parse_loop all sources_count options fuel st = parse_loop all sources_count options fuel (past_semicolons k st).
Proof.
  intros H0 Hb Hk Hf. pose proof (parse_round_past all sources_count options k st H0 Hb Hk) as E. destruct k as [|k]; [by destruct st|].
  destruct (remaining st) as [|c rest] eqn:Er; [cbn in Hk; lia|]. rewrite <-Er in *. destruct fuel as [|fuel]; [rewrite Er in Hf; cbn in Hf; lia|].
  cbn [parse_loop]. rewrite Er at 1. rewrite E.
  destruct (remaining (past_semicolons (S k) st)) as [|c' rest'] eqn:Ep; [|done].
  unfold parse_round. cbn [past_semicolons] in *. unfold past_semicolons in *. cbn [remaining] in Ep. rewrite Ep. cbn [starts_with_byte mbind option_bind try].
  by destruct fuel.
Qed.

(** From a state the loop reaches on, it goes on as from the start. *)
Lemma reached_loop all sources_count options st :
  Z.of_nat (length all) <= 2147483647 -> reached all sources_count options st ->
  same options st st /\
  parse_loop all sources_count options (length all) (parse_init all) = parse_loop all sources_count options (length all) st.
Proof.
  intros Hlen (n & st0 & k & E & Hk & ->).
  assert (Hinit : same options (parse_init all) (parse_init all)) by (by split).
  pose proof (parse_rounds_same all sources_count options n _ Hinit) as Hst. rewrite E in Hst. cbn in Hst.
  split; [by destruct Hst; split|].
  destruct (parse_rounds_forward all sources_count options n _ st0 Hlen (parsing_ok_init all sources_count) E) as [Hok Hrem].
  cbn [parse_init remaining] in Hrem. pose proof Hok as [P1 _ _ _ _].
  rewrite <-parse_loop_past by (done || lia).
  pose proof (parse_loop_forward all sources_count options Hlen (length (remaining st0)) st0 Hok ltac:(lia)) as Hfwd.
  replace (length all) with (n + (length all - n))%nat at 1 by lia. rewrite (parse_rounds_loop _ _ _ n _ _ st0 E).
  destruct (parse_loop _ _ _ (length (remaining st0)) st0) as [r|] eqn:El; [|done].
  by rewrite !(parse_loop_mono _ _ _ _ _ _ _ El) by lia.
Qed.

(** Whether the pass runs or not. *)
Lemma parse_same all sources_count options kernel disabled :
  kernel_ok kernel -> Forall is_byte all -> Z.of_nat (length all) <= 2147483647 -> 0 <= sources_count <= 2147483647 ->
  agree (fun l l' => mappings_of l = mappings_of l') (parse all sources_count options kernel disabled) (parse all sources_count options kernel true).
Proof.
  intros Hk Hbytes Hlen Hsc. unfold parse. rewrite andb_false_r. cbn [mbind option_bind].
  assert (Hfin : forall st st', same options st st' ->
    agree (fun l l' => mappings_of l = mappings_of l') (finish_list options st) (finish_list options st')).
  { intros st st' [E1 _ _ _ _ E6 _ _ _ _]. unfold finish_list. rewrite E6. destruct (needs_sort st' && opt_sort options); [|done].
    destruct (list_sort_spec (mapping st)) as (l & -> & El), (list_sort_spec (mapping st')) as (l' & -> & El'). cbn. by rewrite El, El', E1. }
  assert (Hinit : same options (parse_init all) (parse_init all)) by (by split).
  destruct (_ && negb disabled); [|exact (agree_try _ _ _ _ _ _ (parse_loop_same all sources_count options _ _ _ Hinit) Hfin)].
  destruct (Hk all sources_count options (count_mapping_delims all + 1)%nat Hbytes Hlen Hsc) as (out & st & Eout & Hres & _ & Hreach & [Er Eg Eo Es En Ea Em]).
  destruct (reached_loop all sources_count options st Hlen Hreach) as [Hst ->].
  unfold parse_simd. rewrite Eout. cbn [mbind option_bind]. rewrite slice_from_Some by done. cbn [mbind option_bind].
  match goal with |- agree _ (try (parse_loop _ _ _ _ ?s) _) _ => set (st' := s) end.
  assert (Hsame : same options st' st).
  { destruct Hst as [_ _ _ _ _ _ _ _ S9 S10]. unfold st'. destruct (allow_names options) eqn:Ha.
    - destruct (Ea eq_refl) as [En1 En2]. split; cbn; rewrite ?Eg, ?Eo, ?Es, ?En, ?Er, ?Em, ?En1, ?En2; try done; [|congruence].
      intros H. split; [by eexists|]. apply S9. by rewrite En2.
    - destruct (S10 eq_refl) as (En1 & En2 & En3). split; cbn; rewrite ?Eg, ?Eo, ?Es, ?En, ?Er, ?Em, ?En1, ?En2; try done; [by rewrite map_map|].
      intros _. splits; [done|done|]. rewrite Em in En3. unfold mappings_of. cbn. rewrite map_map. exact En3. }
  exact (agree_try _ _ _ _ _ _ (parse_loop_same all sources_count options _ _ _ Hsame) Hfin).
Qed.

(** ** The internal map, read back as a list *)
Section Text.
Context (all : bytes) (sources_count : Z) (options : ParseOptions).

Lemma read_delta_text missing z rest :
  is_i32 z -> z <> -2147483648 -> read_delta all missing (vlq_text z ++ rest) = Some (Ok (z, rest)).
Proof.
  intros Hz Hm. unfold read_delta. pose proof (decode_text z [] rest Hz Hm) as E. cbn [app length Nat.add] in E. rewrite E.
  cbn [mbind option_bind start value]. pose proof (vlq_text_length z). rewrite (proj2 (Nat.eqb_neq _ _)) by lia.
  rewrite slice_from_Some by (rewrite length_app; lia). cbn [mbind option_bind]. by rewrite drop_app_length.
Qed.

Lemma read_position_text missing invalid a x rest :
  nat_i32 a -> nat_i32 x -> read_position all missing invalid a (vlq_text (x - a) ++ rest) = Some (Ok (x, x - a, rest)).
Proof.
  intros Ha Hx. unfold nat_i32 in *. unfold read_position. rewrite read_delta_text by (unfold is_i32; lia). cbn [try mbind option_bind].
  replace (a + (x - a)) with x by lia. rewrite wrap_i32_id by (unfold is_i32; lia). by rewrite (proj2 (Z.ltb_ge _ _)) by lia.
Qed.

Lemma read_name_ends l g o s ns rest :
  ends rest = true -> read_name all options (Build_Parsing l g o 0 s ns false rest) = Some (Ok (Build_Parsing l g o 0 s ns false (skip_comma rest))).
Proof.
  unfold ends, skip_comma, read_name. destruct rest as [|c rest]; [done|]. cbn [starts_with_byte tail].
  destruct (c =? ","%u8); [done|]. intros H. cbn in H. by rewrite H.
Qed.

(** A segment in the standard form. *)
Lemma read_segment_text l line prev m rest :
  position_ok prev -> position_ok m -> source_index m < sources_count -> generated_column prev <= generated_column m -> ends rest = true ->
  read_segment all sources_count options
    (Build_Parsing l (line, generated_column prev) (original_line prev, original_column prev) 0 (source_index prev) false false
       (segment_text prev m ++ rest)) =
  Some (Ok (Build_Parsing
    (list_append {| generated := (line, generated_column m); original := (original_line m, original_column m);
                    mapping_source_index := source_index m; name_index := -1 |} l)
    (line, generated_column m) (original_line m, original_column m) 0 (source_index m) false false (skip_comma rest))).
Proof.
  intros (P1 & P2 & P3 & P4 & P5) (M1 & M2 & M3 & M4 & M5) Hsrc Hcol He. unfold segment_text. rewrite <-!app_assoc.
  unfold read_segment. cbn [fst snd]. rewrite read_position_text by done. cbn [try mbind option_bind].
  rewrite (proj2 (Z.ltb_ge (generated_column m - generated_column prev) 0)) by lia. cbn [orb].
  assert (Hz : is_i32 (source_index m - source_index prev) /\ source_index m - source_index prev <> -2147483648)
    by (unfold nat_i32, is_i32 in *; lia).
  destruct (vlq_text_start _ (proj1 Hz)) as (c & txt & Ec & Hc). apply vlq_char_facts in Hc as (_ & Hsemi & _ & Hcomma).
  rewrite Ec at 1. cbn [app]. rewrite Hcomma, Hsemi.
  unfold read_original. cbn [fst snd].
  rewrite read_delta_text by apply Hz. cbn [try mbind option_bind].
  replace (source_index prev + (source_index m - source_index prev)) with (source_index m) by lia.
  unfold nat_i32 in *. rewrite wrap_i32_id by (unfold is_i32; lia).
  rewrite (proj2 (Z.ltb_ge (source_index m) 0)), (proj2 (Z.leb_gt sources_count _)) by lia. cbn [orb].
  rewrite !read_position_text by done. cbn [try mbind option_bind]. rewrite read_position_text by done. cbn [try mbind option_bind].
  rewrite read_name_ends by done. done.
Qed.

Lemma count_semicolons_gap n rest :
  count_while is_semicolon rest = 0%nat -> count_while is_semicolon (replicate n ";"%u8 ++ rest) = n.
Proof. intros H. induction n as [|n IH]; [done|]. cbn [replicate app count_while]. change (is_semicolon ";"%u8) with true. cbn [Nat.add]. by rewrite IH. Qed.

Lemma segment_text_starts prev m rest : position_ok prev -> position_ok m ->
  exists c l, segment_text prev m ++ rest = c :: l /\ is_semicolon c = false.
Proof.
  intros (_ & P & _) (_ & M & _). unfold segment_text.
  destruct (vlq_text_start (generated_column m - generated_column prev)) as (c & l & -> & Hc); [unfold nat_i32, is_i32 in *; lia|].
  cbn [app]. eexists _, _. split; [done|]. apply vlq_char_facts, Hc.
Qed.

(** Columns that do not go back on a line. *)
Fixpoint columns_up (prev : State) (line : Z) (ms : list State) : Prop :=
  match ms with
  | [] => True
  | m :: ms => generated_column (base_of line prev m) <= generated_column m /\ columns_up m (generated_line m) ms
  end.

Lemma parse_round_text l line prev m ms :
  nat_i32 line -> position_ok prev -> position_ok m -> Forall position_ok ms -> line <= generated_line m -> lines_up (generated_line m) ms ->
  source_index m < sources_count -> generated_column (base_of line prev m) <= generated_column m ->
  parse_round all sources_count options
    (Build_Parsing l (line, generated_column prev) (original_line prev, original_column prev) 0 (source_index prev) false false
       (text_of prev line (m :: ms))) =
  Some (Ok (Build_Parsing (list_append (to_mapping m) l) (generated_line m, generated_column m) (original_line m, original_column m) 0
    (source_index m) false false (text_of m (generated_line m) ms))).
Proof.
  intros Hline Hp Hm Hms Hle Hup Hsrc Hcol. pose proof (base_of_ok line prev m Hp) as Hbase.
  destruct (comma_ends m ms Hm Hms Hup) as [Hends Hskip]. cbn [text_of].
  set (rest := comma_text m ms ++ text_of m (generated_line m) ms) in *.
  destruct (segment_text_starts (base_of line prev m) m rest Hbase Hm) as (c & txt & Ec & Hc).
  pose proof (read_segment_text l (generated_line m) (base_of line prev m) m rest Hbase Hm Hsrc Hcol Hends) as Hseg.
  rewrite Hskip in Hseg. change (list_append _ l) with (list_append (to_mapping m) l) in Hseg.
  unfold parse_round, gap_text, base_of in *. destruct (Z.ltb_spec line (generated_line m)) as [Hlt|Hge].
  - cbn [generated_column original_line original_column source_index with_column] in Hseg.
    destruct (Z.to_nat (generated_line m - line)) as [|n] eqn:En; [lia|]. cbn [replicate app starts_with_byte].
    change (";"%u8 :: replicate n ";"%u8 ++ segment_text (with_column 0 prev) m ++ rest) with (replicate (S n) ";"%u8 ++ segment_text (with_column 0 prev) m ++ rest).
    assert (Hn : count_while is_semicolon (replicate (S n) ";"%u8 ++ segment_text (with_column 0 prev) m ++ rest) = S n)
      by (apply count_semicolons_gap; rewrite Ec; cbn; by rewrite Hc).
    destruct Hm as [Hml _]. unfold nat_i32 in *. cbn [Z.eqb Pos.eqb]. cbn [fst]. rewrite count_semicolons by (rewrite ?Hn; lia). rewrite Hn.
    cbn [mbind option_bind]. rewrite drop_app_length' by (by rewrite length_replicate).
    replace (line + Z.of_nat (S n)) with (generated_line m) by lia. rewrite Ec in *. exact Hseg.
  - assert (line = generated_line m) as -> by lia. rewrite Z.sub_diag. change (Z.to_nat 0) with 0%nat. cbn [replicate app]. rewrite Ec in *. cbn [starts_with_byte].
    change (c =? ";"%u8) with (is_semicolon c). rewrite Hc. cbn [mbind option_bind]. exact Hseg.
Qed.

Lemma parse_loop_text ms l line prev fuel :
  nat_i32 line -> position_ok prev -> Forall position_ok ms -> lines_up line ms -> columns_up prev line ms ->
  Forall (fun m => source_index m < sources_count) ms -> (length ms <= fuel)%nat -> (exists rows, impl l = WithoutNames rows) ->
  exists st, parse_loop all sources_count options fuel
      (Build_Parsing l (line, generated_column prev) (original_line prev, original_column prev) 0 (source_index prev) false false (text_of prev line ms)) =
    Some (Ok st) /\ needs_sort st = false /\ mappings_of (mapping st) = mappings_of l ++ map to_mapping ms.
Proof.
  intros Hline Hp Hms. revert l line prev fuel Hline Hp. induction Hms as [|m ms Hm Hms IH]; intros l line prev fuel Hline Hp Hup Hcol Hsrc Hf [rows Hl].
  - eexists. split; [by destruct fuel|]. split; [done|]. by rewrite app_nil_r.
  - cbn [length] in Hf. destruct fuel as [|fuel]; [lia|]. destruct Hup as [Hle Hup], Hcol as [Hc Hcol]. apply Forall_cons in Hsrc as [Hs Hsrc].
    destruct (text_of_starts prev line m ms Hp Hm Hle) as (c & txt & Ec & _).
    pose proof (parse_round_text l line prev m ms Hline Hp Hm Hms Hle Hup Hs Hc) as E. rewrite Ec in *. cbn [parse_loop remaining]. rewrite E.
    cbn [try mbind option_bind]. destruct (IH (list_append (to_mapping m) l) (generated_line m) m fuel) as (st & -> & Hn & Hst); try done; [apply Hm|lia| |].
    { unfold list_append. rewrite Hl. by eexists. }
    exists st. splits; [done|done|]. rewrite Hst. unfold list_append, mappings_of. rewrite Hl. cbn [impl with_impl]. by rewrite map_app, <-app_assoc.
Qed.
End Text.

(** What [parse] gives for any bytes. *)
Definition parsed_well (all : bytes) (sources_count : Z) (options : ParseOptions) (r : option (result ParseFail MappingList)) : Prop :=
  match r with
  | None => False
  | Some (Err e) => 0 <= fail_loc e <= Z.of_nat (length all)
  | Some (Ok l) =>
      Forall (mapping_in sources_count) (mappings_of l) /\
      (opt_sort options = true -> in_generated_order (mappings_of l) /\
         forall line column, list_find l line column = Some (list_find_ref (mappings_of l) line column))
  end.

Lemma parse_scalar_well all sources_count options kernel :
  Z.of_nat (length all) <= 2147483647 -> parsed_well all sources_count options (parse all sources_count options kernel true).
Proof.
  intros Hlen. unfold parse. rewrite andb_false_r.
  pose proof (parse_loop_forward all sources_count options Hlen (length all) _ (parsing_ok_init all sources_count) ltac:(done)) as H.
  cbn [mbind option_bind]. destruct (parse_loop _ _ _ _ _) as [[st|e]|]; cbn [forward try mbind option_bind] in *; [|done..]. destruct H as [_ [_ _ _ Hin Hord]].
  assert (Hl : forall l, Forall (mapping_in sources_count) (mappings_of l) -> (opt_sort options = true -> in_generated_order (mappings_of l)) ->
    parsed_well all sources_count options (Some (Ok l))).
  { intros l H1 H2. split; [done|]. intros Ho. split; [by apply H2|]. intros. by apply list_find_spec, H2. }
  unfold finish_list. destruct (needs_sort st) eqn:En, (opt_sort options) eqn:Eo; cbn [andb].
  - destruct (list_sort_spec (mapping st)) as (l & -> & El). cbn [mbind option_bind]. apply Hl; rewrite El; [by rewrite stable_sort_perm|].
    intros _. apply list_sort_sorted.
  - by apply Hl.
  - apply Hl; [done|]. intros _. by apply Hord.
  - apply Hl; [done|]. intros _. by apply Hord.
Qed.

(** A list of states in generated order, as mappings. *)
Lemma pos_le_position s t : pos_le s t <-> position_le (generated (to_mapping s)) (generated (to_mapping t)).
Proof. unfold pos_le. rewrite less_or_equal_spec, position_le_iff. cbn. lia. Qed.

Lemma states_in_order ms : StronglySorted pos_le ms -> in_generated_order (map to_mapping ms).
Proof.
  induction 1 as [|m ms _ IH Hm]; cbn [map]; constructor; [done|]. apply Forall_map. eapply Forall_impl; [exact Hm|]. intros t. apply pos_le_position.
Qed.

Lemma list_find_ref_states ms line column :
  list_find_ref (map to_mapping ms) line column = to_mapping <$> find_ref ms line column.
Proof.
  unfold list_find_ref, find_ref, last_before.
  assert (E : List.filter (mapping_before line column) (map to_mapping ms) = map to_mapping (List.filter (fun m => less_or_equal m line column) ms)).
  { induction ms as [|m ms IH]; [done|]. cbn [map List.filter]. rewrite IH. by change (mapping_before line column (to_mapping m)) with (less_or_equal m line column); destruct (less_or_equal m line column). }
  rewrite E. change (map to_mapping) with (@fmap list _ _ _ to_mapping). rewrite fmap_last.
  destruct (last _) as [m|]; [|done]. cbn. by destruct (_ =? _).
Qed.

Lemma columns_up_sorted prev line ms :
  Forall position_ok ms -> line = generated_line prev -> StronglySorted pos_le (prev :: ms) -> columns_up prev line ms.
Proof.
  revert prev line. induction ms as [|m ms IH]; intros prev line Hms -> Hs; [done|]. cbn [columns_up].
  apply Forall_cons in Hms as [(_ & Hc & _) Hms]. apply StronglySorted_inv in Hs as [Hs Hp]. apply Forall_cons in Hp as [Hpm _].
  unfold pos_le in Hpm. rewrite less_or_equal_spec in Hpm. unfold nat_i32 in Hc. split; [|by apply IH].
  unfold base_of. destruct (Z.ltb_spec (generated_line prev) (generated_line m)); cbn; lia.
Qed.

(** The text is bytes. *)
Lemma text_bytes prev line ms : Forall is_byte (text_of prev line ms).
Proof.
  assert (Hvlq : forall z, Forall is_byte (vlq_text z)).
  { intros z. unfold vlq_text. apply Forall_fmap, Forall_forall. intros d _. unfold compose, letter.
    assert (H : forallb (fun c => bool_decide (is_byte c)) BASE64 = true) by by vm_compute.
    destruct (nth_in_or_default (Z.to_nat d) BASE64 0) as [Hin| ->]; [|by unfold is_byte].
    rewrite forallb_forall in H. apply H, bool_decide_eq_true in Hin. done. }
  revert prev line. induction ms as [|m ms IH]; intros prev line; cbn [text_of]; [constructor|].
  unfold segment_text. rewrite !Forall_app. splits; auto.
  - apply Forall_replicate. done.
  - destruct ms as [|m' ms]; cbn [comma_text]; [constructor|]. destruct (_ <? _); by repeat constructor.
Qed.

(** The list that is read back from the text of a blob. *)
Section ReadBack.
Context (spare : bytes -> nat -> bytes) (spare_length : forall ws n, length (spare ws n) = n).
Context (ops : list PrintOp) (Hops_len : Z.of_nat (length ops) <= 2 ^ 27) (Hops : Forall printed_ok ops).
Context (Hsorted : StronglySorted pos_le (taken_maps (taken_by ops))).
Context (sources_count : Z) (Hsources : Forall (fun m => source_index m < sources_count) (taken_maps (taken_by ops))).

Lemma read_back_scalar options kernel :
  exists blob text l, generate spare ops = Some blob /\ append_vlq_to blob [] = Some text /\
    (forall line column, find blob line column = Some (to_mapping <$> find_ref (taken_maps (taken_by ops)) line column)) /\
    parse text sources_count options kernel true = Some (Ok l) /\ mappings_of l = map to_mapping (taken_maps (taken_by ops)) /\
    Forall is_byte text.
Proof.
  set (ms := taken_maps (taken_by ops)) in *. destruct (generate_spec spare spare_length ops Hops_len Hops) as (E & Hf & Hup). fold ms in E, Hf, Hup.
  pose proof Hf as [F1 _ F3 _].
  assert (Hdef : position_ok State_default) by (unfold position_ok, nat_i32; cbn; lia).
  destruct (emit_text ms [] State_default 0) as (p & l & Et); [unfold nat_i32; lia|done..|].
  assert (Hempty : (match ms with [] => [] | m :: _ => if 0 <? generated_line m then [] else if needs_comma [] then [","%u8] else [] end) = []).
  { destruct ms as [|m ms']; [done|]. by destruct (0 <? generated_line m). }
  rewrite Hempty in Et. cbn [app] in Et.
  destruct (parse_loop_text (text_of State_default 0 ms) sources_count options ms list_default 0 State_default (length (text_of State_default 0 ms)))
    as (st & Ep & Hn & Em); try done; [|apply text_length|by eexists|].
  { apply columns_up_sorted; [done|done|]. constructor; [done|]. eapply Forall_impl; [exact F3|]. intros m (L & C & _). unfold nat_i32 in *.
    unfold pos_le. rewrite less_or_equal_spec. cbn. lia. }
  eexists _, _, (mapping st). split; [exact E|]. splits.
  - unfold append_vlq_to. rewrite walk_file by done. rewrite Et. reflexivity.
  - intros line column. by apply find_file.
  - unfold parse. rewrite andb_false_r. cbn [mbind option_bind]. unfold parse_init.
    cbn [State_default generated_column original_line original_column source_index] in Ep. rewrite Ep. cbn [try mbind option_bind].
    unfold finish_list. by rewrite Hn.
  - exact Em.
  - apply text_bytes.
Qed.
End ReadBack.

(** The same with a pass that keeps its contract. *)
Lemma read_back_pass spare ops sources_count options kernel simd_disabled :
  (forall ws n, length (spare ws n) = n) -> kernel_ok kernel -> 0 <= sources_count <= 2147483647 ->
  Z.of_nat (length ops) <= 2 ^ 27 -> Forall printed_ok ops -> StronglySorted pos_le (taken_maps (taken_by ops)) ->
  Forall (fun m => source_index m < sources_count) (taken_maps (taken_by ops)) ->
  exists blob text, generate spare ops = Some blob /\ append_vlq_to blob [] = Some text /\
    (Z.of_nat (length text) <= 2147483647 ->
     exists l, parse text sources_count options kernel simd_disabled = Some (Ok l) /\
       mappings_of l = map to_mapping (taken_maps (taken_by ops)) /\
       forall line column, list_find l line column = find blob line column).
Proof.
  intros Hs Hk Hcount Hl Hops Hsort Hsrc.
  destruct (read_back_scalar spare Hs ops Hl Hops Hsort sources_count Hsrc options kernel) as (blob & text & l & E & Et & Ef & Ep & Em & Hb).
  exists blob, text. splits; [done|done|]. intros Hlen. pose proof (parse_same text sources_count options kernel simd_disabled Hk Hb Hlen Hcount) as H.
  rewrite Ep in H. destruct (parse text _ _ _ simd_disabled) as [[l'|e]|]; [|done..]. exists l'. split; [done|]. cbn in H. rewrite <-H in Em.
  split; [done|]. intros line column. rewrite Ef, list_find_spec, Em, list_find_ref_states; [done|]. rewrite Em. by apply states_in_order.
Qed.

(** [parse] with a pass that keeps its contract. *)
Lemma parse_pass_well all sources_count options kernel simd_disabled :
  kernel_ok kernel -> Forall is_byte all -> Z.of_nat (length all) <= 2147483647 -> 0 <= sources_count <= 2147483647 ->
  parsed_well all sources_count options (parse all sources_count options kernel simd_disabled).
Proof.
  intros Hk Hb Hlen Hcount. pose proof (parse_same all sources_count options kernel simd_disabled Hk Hb Hlen Hcount) as H.
  pose proof (parse_scalar_well all sources_count options kernel Hlen) as Hw.
  destruct (parse all _ _ _ simd_disabled) as [[l|e]|], (parse all _ _ _ true) as [[l'|e']|]; cbn [agree parsed_well] in *; try done; [|by subst].
  rewrite H. destruct Hw as [Hin Hord]. split; [done|]. intros Ho. destruct (Hord Ho) as [Hs _]. split; [done|].
  intros line column. rewrite <-H. apply list_find_spec. by rewrite H.
Qed.
