(* ===== verification/SourceMapKernel.v ===== *)
(** * The vectorised pass over mappings strings (src/jsc/bindings/highway_sourcemap.cpp)

    The pass takes a block of as many bytes as a vector has lanes, classifies them all at
    once into base-64 digits and bitmaps, and decodes the segments that lie in the block:
    all at once if they are uniform, as columns if they have four short numbers each, and
    one by one otherwise.  It stops in front of whatever the loop of Mapping.rs has to
    see.  It is proved to keep the contract [kernel_ok] that the parser relies on.

    A vector is the list of its lanes, a bitmap a 64-bit word, a pointer into the output
    the rows written so far.  The counters of blocks, which only a log line reads, are
    left out.  [N] is the number of lanes: 16, 32 or 64; nothing depends on more than that
    it is between 16 and 64.  [None] is a loop that runs out of fuel. *)

From S2P Require Import Prelude SemverString Vlq SourceMapWindow SourceMapBuilder SourceMap SourceMapList.

#[local] Open Scope Z_scope.

(** ** Tables and scalar helpers *)
Definition kLutLo : list Z :=
  [0x15; 0x11; 0x11; 0x11; 0x11; 0x11; 0x11; 0x11; 0x11; 0x11; 0x13; 0x1A; 0x1B; 0x1B; 0x1B; 0x1A].
Definition kLutHi : list Z :=
  [0x10; 0x10; 0x01; 0x02; 0x04; 0x08; 0x04; 0x08; 0x10; 0x10; 0x10; 0x10; 0x10; 0x10; 0x10; 0x10].
Definition kLutRoll : list Z :=
  [0x00; 0x10; 0x13; 0x04; 0xBF; 0xBF; 0xB9; 0xB9; 0x00; 0x00; 0x00; 0x00; 0x00; 0x00; 0x00; 0x00].

(** A lane of [u8], and of [i8] and [i16], after an operation that may leave the width. *)
Definition lane_u8 (z : Z) : Z := z mod 256.
Definition lane_i8 (z : Z) : Z := (z + 128) mod 256 - 128.
Definition lane_i16 (z : Z) : Z := (z + 32768) mod 65536 - 32768.

Definition WrapAdd (a b : Z) : Z := wrap_i32 (a + b).
Definition WrapSub (a b : Z) : Z := wrap_i32 (a - b).

Definition SignMag (v : Z) : Z :=
  let s := - Z.land v 1 in
  let mag := Z.shiftr v 1 in
  Z.lxor mag s - s.

(** The value of the number that starts at [p], and where it ends. *)
Fixpoint decode_vlq_loop (fuel : nat) (sextets : list Z) (cont : Z) (p end_ : nat) (vlq shift : Z) : option (Z * nat) :=
  match fuel with
  | O => None
  | S fuel =>
      let s := nth p sextets 0 in
      let vlq := Z.lor vlq (wrap32 (Z.shiftl (Z.land s 31) (Z.land shift 31))) in
      let more := Z.testbit cont (Z.of_nat p) in
      let p := S p in
      if negb more || (end_ <=? p)%nat then Some (SignMag vlq, p)
      else decode_vlq_loop fuel sextets cont p end_ vlq (shift + 5)
  end.
Definition DecodeVlqSextets (sextets : list Z) (cont : Z) (p end_ : nat) : option (Z * nat) :=
  decode_vlq_loop (S (end_ - p)) sextets cont p end_ 0 0.

(** ** The shuffle table *)
Definition kShufBad : Z := 0xFE.

(** The loop over the fields [k], of which [n] are left. *)
Fixpoint shuf_pairs (n : nat) (cont pos : Z) : list Z :=
  match n with
  | O => []
  | S n =>
      if Z.land (Z.shiftr cont pos) 1 =? 1
      then pos :: pos + 1 :: shuf_pairs n cont (pos + 2)
      else pos :: 0x80 :: shuf_pairs n cont (pos + 1)
  end.
Definition MakeShufEntry (cont : Z) : list Z :=
  if negb (Z.land cont (Z.shiftr cont 1) =? 0) then replicate 15 0x80 ++ [kShufBad]
  else shuf_pairs 5 cont 0 ++ replicate 5 0x80 ++ [0].
Definition kShufTable : list (list Z) := Eval vm_compute in map (fun c => MakeShufEntry (Z.of_nat c)) (seq 0 256).
Definition shuf_entry (c : Z) : list Z := nth (Z.to_nat c) kShufTable [].

(** ** Words of bits *)
(** [ToBits]: lane [i] is bit [i]. *)
Fixpoint ToBits (m : list bool) : Z :=
  match m with [] => 0 | b :: m => Z.b2z b + 2 * ToBits m end.
Definition MaskBelow (k : nat) : Z := if (64 <=? k)%nat then u64_max else Z.shiftl 1 (Z.of_nat k) - 1.
(** [Num0BitsBelowLS1Bit_Nonzero64] and [PopCount], over the bits that are left. *)
Fixpoint low_zeros (bits : nat) (w : Z) : nat :=
  match bits with O => 0 | S bits => if Z.odd w then 0 else S (low_zeros bits (Z.shiftr w 1)) end.
Definition Num0BitsBelowLS1Bit_Nonzero64 (w : Z) : nat := low_zeros 64 w.
Fixpoint pop_bits (bits : nat) (w : Z) : nat :=
  match bits with O => 0 | S bits => (if Z.odd w then 1 else 0) + pop_bits bits (Z.shiftr w 1) end.
Definition PopCount (w : Z) : nat := pop_bits 64 w.

(** ** Classifying a block *)
(** [TableLookupBytes], of an index below 16. *)
Definition lookup16 (table : list Z) (i : Z) : Z := nth (Z.to_nat i) table 0.

(** One lane of [ClassifyBlock]. *)
Definition not_b64 (b : Z) : bool :=
  let hi := Z.land (Z.shiftr b 4) 0x0F in
  let lo := Z.land b 0x0F in
  negb (Z.land (lookup16 kLutLo lo) (lookup16 kLutHi hi) =? 0).
Definition lane_sextet (b : Z) : Z :=
  let hi := Z.land (Z.shiftr b 4) 0x0F in
  let roll_idx := lane_u8 (hi + (if b =? "/"%u8 then 0xFF else 0)) in
  if not_b64 b then 0xFF else lane_u8 (b + lookup16 kLutRoll roll_idx).
Definition lane_semi (b : Z) : bool := b =? ";"%u8.
Definition lane_delim (b : Z) : bool := (b =? ","%u8) || lane_semi b.
Definition lane_invalid (b : Z) : bool := negb (lane_delim b) && not_b64 b.
Definition lane_cont (b : Z) : bool := negb (not_b64 b) && negb (Z.land (lane_sextet b) 0x20 =? 0).

(** The digits and the bitmaps of a block; behind the digits the array has zeros. *)
Record Block := { sextets : list Z; delim_bits : Z; semi_bits : Z; cont_bits : Z; invalid_bits : Z }.
Definition ClassifyBlock (bytes : list Z) : Block := {|
  sextets := map lane_sextet bytes ++ replicate (80 - length bytes) 0;
  delim_bits := ToBits (map lane_delim bytes);
  semi_bits := ToBits (map lane_semi bytes);
  cont_bits := ToBits (map lane_cont bytes);
  invalid_bits := ToBits (map lane_invalid bytes)
|}.

(** One lane of [SignMagI8]. *)
Definition SignMagI8 (sx : Z) : Z :=
  let s := lane_i8 (0 - Z.land sx 1) in
  let mag := lane_i8 (Z.shiftr sx 1) in
  lane_i8 (Z.lxor mag s - s).

(** A lane of [ShuffleDecodeI16], of the two bytes gathered in it. *)
Definition decode_i16 (b0 b1 : Z) : Z :=
  let gathered := b0 + 256 * b1 in
  let lo5 := Z.land gathered 0x001F in
  let hi5 := Z.shiftr (Z.land gathered 0x1F00) 3 in
  let raw := Z.lor lo5 hi5 in
  let sgn := lane_i16 (0 - Z.land raw 1) in
  let mag := lane_i16 (Z.shiftr raw 1) in
  lane_i16 (Z.lxor mag sgn - sgn).
(** [TableLookupBytesOr0] *)
Definition lookup_or0 (v_in : list Z) (i : Z) : Z := if 0x80 <=? i then 0 else nth (Z.to_nat i) v_in 0.
Fixpoint gather (v_in shuf : list Z) : list Z :=
  match shuf with i0 :: i1 :: shuf => decode_i16 (lookup_or0 v_in i0) (lookup_or0 v_in i1) :: gather v_in shuf | _ => [] end.
Definition ShuffleDecodeI16 (sextets_p : list Z) (seg_cont : Z) : list Z :=
  gather (take 16 sextets_p) (shuf_entry seg_cont).

(** ** Sums of a column *)
Definition Add : list Z -> list Z -> list Z := zip_with WrapAdd.
Definition SlideUpLanes (v : list Z) (s : nat) : list Z := replicate s 0 ++ take (length v - s) v.
Fixpoint prefix_loop_i32 (fuel : nat) (v : list Z) (s : nat) : option (list Z) :=
  if (s <? length v)%nat then
    match fuel with
    | O => None
    | S fuel => prefix_loop_i32 fuel (Add v (SlideUpLanes v s)) (2 * s)
    end
  else Some v.
Definition PrefixSumI32 (v : list Z) : option (list Z) :=
  prefix_loop_i32 (length v) (Add v (SlideUpLanes v 1)) 2.

(** ** The pass *)
(** The local variables: the numbers so far and the rows written. *)
Record Acc := {
  gen_line : Z;
  gen_col : Z;
  orig_line : Z;
  orig_col : Z;
  src_idx : Z;
  name_idx : Z;
  acc_needs_sort : bool;
  acc_has_names : bool;
  out_rows : list Mapping
}.
Record Deltas := { d_gen : Z; d_src : Z; d_ol : Z; d_oc : Z; d_name : Z }.

Section Pass.
(** The number of lanes, whether there is a column for names, the room for rows, and the
    number of sources. *)
Context (N : nat) (names : bool) (cap : nat) (sources_count : Z).

(** The row with the numbers so far. *)
Definition row_of (a : Acc) : Mapping := {|
  generated := (gen_line a, gen_col a);
  original := (orig_line a, orig_col a);
  mapping_source_index := src_idx a;
  name_index := if names && acc_has_names a then name_idx a else -1
|}.
Definition push_row (a : Acc) : Acc := {|
  gen_line := gen_line a; gen_col := gen_col a; orig_line := orig_line a; orig_col := orig_col a; src_idx := src_idx a;
  name_idx := name_idx a; acc_needs_sort := acc_needs_sort a; acc_has_names := acc_has_names a;
  out_rows := out_rows a ++ [row_of a]
|}.
Definition with_gen_col (a : Acc) (c : Z) : Acc := {|
  gen_line := gen_line a; gen_col := c; orig_line := orig_line a; orig_col := orig_col a; src_idx := src_idx a;
  name_idx := name_idx a; acc_needs_sort := acc_needs_sort a; acc_has_names := acc_has_names a; out_rows := out_rows a
|}.
Definition with_original (a : Acc) (s l c : Z) : Acc := {|
  gen_line := gen_line a; gen_col := gen_col a; orig_line := l; orig_col := c; src_idx := s;
  name_idx := name_idx a; acc_needs_sort := acc_needs_sort a; acc_has_names := acc_has_names a; out_rows := out_rows a
|}.
Definition with_name (a : Acc) (n : Z) : Acc := {|
  gen_line := gen_line a; gen_col := gen_col a; orig_line := orig_line a; orig_col := orig_col a; src_idx := src_idx a;
  name_idx := n; acc_needs_sort := acc_needs_sort a; acc_has_names := true; out_rows := out_rows a
|}.
Definition sort_if (b : bool) (a : Acc) : Acc := {|
  gen_line := gen_line a; gen_col := gen_col a; orig_line := orig_line a; orig_col := orig_col a; src_idx := src_idx a;
  name_idx := name_idx a; acc_needs_sort := acc_needs_sort a || b; acc_has_names := acc_has_names a; out_rows := out_rows a
|}.
Definition down_lines (a : Acc) (n : Z) : Acc := {|
  gen_line := WrapAdd (gen_line a) n; gen_col := 0; orig_line := orig_line a; orig_col := orig_col a; src_idx := src_idx a;
  name_idx := name_idx a; acc_needs_sort := acc_needs_sort a; acc_has_names := acc_has_names a; out_rows := out_rows a
|}.

(** *** Uniform blocks: segments of four digits and a comma *)
Definition kSeg5 : nat := (N / 5)%nat.
Definition kComma5 : Z := foldr (fun k w => Z.lor w (Z.shiftl 1 (Z.of_nat (4 + 5 * k)))) 0 (seq 0 kSeg5).
Definition kMask5 : Z := MaskBelow (kSeg5 * 5).

(** [n] segments; [sort] and [range] are negative if one of the numbers is. *)
Fixpoint uniform_loop (n : nat) (dp : list Z) (a : Acc) (sort range : Z) : Acc * Z * Z :=
  match n with
  | O => (a, sort, range)
  | S n =>
      let d0 := nth 0 dp 0 in
      let a := with_gen_col a (WrapAdd (gen_col a) d0) in
      let a := with_original a (WrapAdd (src_idx a) (nth 1 dp 0)) (WrapAdd (orig_line a) (nth 2 dp 0)) (WrapAdd (orig_col a) (nth 3 dp 0)) in
      let bad := Z.lor (Z.lor (Z.lor (Z.lor (gen_col a) (src_idx a)) (WrapSub (sources_count - 1) (src_idx a))) (orig_line a)) (orig_col a) in
      uniform_loop n (drop 5 dp) (push_row a) (Z.lor sort d0) (Z.lor range bad)
  end.
(** The block as a whole, if it is uniform: the numbers behind it and the bytes taken, or nothing
    if a number leaves its range, where the source goes to the general loop. *)
Definition uniform (blk : Block) (a : Acc) : option (option (Acc * nat)) :=
  if (Z.land (Z.lor (Z.lor (Z.lor (cont_bits blk) (semi_bits blk)) (invalid_bits blk)) (Z.lxor (delim_bits blk) kComma5)) kMask5 =? 0)
     && (length (out_rows a) + kSeg5 <=? cap)%nat then
    let deltas := map SignMagI8 (take N (sextets blk)) in
    let '(a, sort, range) := uniform_loop kSeg5 deltas a 0 0 in
    Some (if range <? 0 then None else Some (sort_if (sort <? 0) a, (kSeg5 * 5)%nat))
  else None.

(** *** Blocks of four short numbers to a segment *)
Record Columns := { bcol_gc : list Z; bcol_si : list Z; bcol_ol : list Z; bcol_oc : list Z }.
Definition no_columns : Columns := Build_Columns [] [] [] [].
Definition stage (c : Columns) (dv : list Z) : Columns := {|
  bcol_gc := bcol_gc c ++ [nth 0 dv 0];
  bcol_si := bcol_si c ++ [nth 1 dv 0];
  bcol_ol := bcol_ol c ++ [nth 2 dv 0];
  bcol_oc := bcol_oc c ++ [nth 3 dv 0]
|}.
Definition field_count_of (seg_len : nat) (seg_cont : Z) : nat :=
  if seg_cont =? 0 then seg_len else (seg_len - PopCount seg_cont)%nat.
Definition shuffles (seg_cont : Z) : bool :=
  (Z.shiftr seg_cont 8 =? 0) && negb (nth 15 (shuf_entry (Z.land seg_cont 0xFF)) 0 =? kShufBad).

(** The walk over the segments; the second [None] is the way to the general loop. *)
Fixpoint batch_walk (fuel : nat) (sextets : list Z) (dm cm : Z) (bp : nat) (cols : Columns) : option (option (Columns * nat)) :=
  match fuel with
  | O => None
  | S fuel =>
      let sl := Num0BitsBelowLS1Bit_Nonzero64 dm in
      if (sl <? 4)%nat || (10 <? sl)%nat then Some None
      else if Z.land (Z.shiftr cm (Z.of_nat sl - 1)) 1 =? 1 then Some None
      else
        let sc := Z.land cm (Z.shiftl 1 (Z.of_nat sl) - 1) in
        if negb (field_count_of sl sc =? 4)%nat || negb (shuffles sc) then Some None
        else
          let cols := stage cols (ShuffleDecodeI16 (drop bp sextets) (Z.land sc 0xFF)) in
          let adv := (sl + 1)%nat in
          let bp := (bp + adv)%nat in
          let dm := Z.shiftr dm (Z.of_nat adv) in
          let cm := Z.shiftr cm (Z.of_nat adv) in
          if (dm =? 0) || (N <=? bp)%nat then Some (Some (cols, bp)) else batch_walk fuel sextets dm cm bp cols
  end.

Definition kLanesI32 : nat := (N / 4)%nat.
(** A column, with zeros in the lanes behind it, as sums on top of a number. *)
Definition column_sums (col : list Z) (start : Z) : option (list Z) :=
  let col := col ++ replicate (kLanesI32 - length col) 0 in
  p ← PrefixSumI32 col;
  Some (Add p (replicate kLanesI32 start)).
(** Row [i] of the columns. *)
Definition batch_row (a : Acc) (a_gc a_si a_ol a_oc : list Z) (i : nat) : Mapping :=
  row_of (with_original (with_gen_col a (nth i a_gc 0)) (nth i a_si 0) (nth i a_ol 0) (nth i a_oc 0)).
Definition append_rows (a : Acc) (rows : list Mapping) : Acc := {|
  gen_line := gen_line a; gen_col := gen_col a; orig_line := orig_line a; orig_col := orig_col a; src_idx := src_idx a;
  name_idx := name_idx a; acc_needs_sort := acc_needs_sort a; acc_has_names := acc_has_names a; out_rows := out_rows a ++ rows
|}.
Definition batch (blk : Block) (a : Acc) : option (option (Acc * nat)) :=
  if (Z.lor (semi_bits blk) (invalid_bits blk) =? 0) && negb (delim_bits blk =? 0) then
    walked ← batch_walk N (sextets blk) (delim_bits blk) (cont_bits blk) 0 no_columns;
    match walked with
    | None => Some None
    | Some (cols, bp) =>
        let m := length (bcol_gc cols) in
        if (cap <? length (out_rows a) + m)%nat then Some None
        else
          a_gc ← column_sums (bcol_gc cols) (gen_col a);
          a_si ← column_sums (bcol_si cols) (src_idx a);
          a_ol ← column_sums (bcol_ol cols) (orig_line a);
          a_oc ← column_sums (bcol_oc cols) (orig_col a);
          let a_si_hi := map (WrapSub (sources_count - 1)) a_si in
          let bad := zip_with Z.lor (zip_with Z.lor a_gc a_si) (zip_with Z.lor a_si_hi (zip_with Z.lor a_ol a_oc)) in
          if existsb (fun lane => lane <? 0) bad then Some None
          else
            let rows := map (batch_row a a_gc a_si a_ol a_oc) (seq 0 m) in
            let a := sort_if (existsb (fun lane => lane <? 0) (bcol_gc cols)) (append_rows a rows) in
            Some (Some (with_original (with_gen_col a (nth (m - 1) a_gc 0)) (nth (m - 1) a_si 0) (nth (m - 1) a_ol 0) (nth (m - 1) a_oc 0), bp))
    end
  else Some None.

(** *** Segment by segment *)
(** The run of semicolons at [p]; all 64 lanes are a case of its own, as no bit is left. *)
Definition leading_semis (a : Acc) (delim semi cont : Z) (p : nat) : Acc * (Z * Z * Z) * nat :=
  if Z.odd semi then
    let ns := not64 semi in
    if ns =? 0 then (down_lines a (Z.of_nat N), (delim, semi, cont), N)
    else
      let run := Num0BitsBelowLS1Bit_Nonzero64 ns in
      (down_lines a (Z.of_nat run),
       (Z.shiftr delim (Z.of_nat run), Z.shiftr semi (Z.of_nat run), Z.shiftr cont (Z.of_nat run)), (p + run)%nat)
  else (a, (delim, semi, cont), p).

(** The numbers of a segment; the second [None] is a bail. *)
Definition decode_segment (blk : Block) (room : bool) (p seg_len : nat) (seg_cont : Z) (field_count : nat) : option (option Deltas) :=
  if (4 <=? field_count)%nat && shuffles seg_cont then
    if negb room then Some None
    else
      let dv := ShuffleDecodeI16 (drop p (sextets blk)) (Z.land seg_cont 0xFF) in
      Some (Some {| d_gen := nth 0 dv 0; d_src := nth 1 dv 0; d_ol := nth 2 dv 0; d_oc := nth 3 dv 0;
                    d_name := if (field_count =? 5)%nat then nth 4 dv 0 else 0 |})
  else if (4 <=? field_count)%nat then
    if negb room then Some None
    else
      let end_ := (p + seg_len)%nat in
      '(g, q) ← DecodeVlqSextets (sextets blk) (cont_bits blk) p end_;
      '(s, q) ← DecodeVlqSextets (sextets blk) (cont_bits blk) q end_;
      '(l, q) ← DecodeVlqSextets (sextets blk) (cont_bits blk) q end_;
      '(c, q) ← DecodeVlqSextets (sextets blk) (cont_bits blk) q end_;
      if (field_count =? 5)%nat then
        '(n, _) ← DecodeVlqSextets (sextets blk) (cont_bits blk) q end_;
        Some (Some {| d_gen := g; d_src := s; d_ol := l; d_oc := c; d_name := n |})
      else Some (Some {| d_gen := g; d_src := s; d_ol := l; d_oc := c; d_name := 0 |})
  else if (field_count =? 1)%nat then
    if (7 <? seg_len)%nat then Some None
    else
      '(g, _) ← DecodeVlqSextets (sextets blk) (cont_bits blk) p (p + seg_len);
      Some (Some {| d_gen := g; d_src := 0; d_ol := 0; d_oc := 0; d_name := 0 |})
  else Some None.

(** Adding the numbers, unless one leaves its range. *)
Definition commit (field_count : nat) (d : Deltas) (a : Acc) : option Acc :=
  let n_gen_col := WrapAdd (gen_col a) (d_gen d) in
  if n_gen_col <? 0 then None
  else if (field_count =? 1)%nat then Some (with_gen_col (sort_if (d_gen d <? 0) a) n_gen_col)
  else
    let n_src_idx := WrapAdd (src_idx a) (d_src d) in
    let n_orig_line := WrapAdd (orig_line a) (d_ol d) in
    let n_orig_col := WrapAdd (orig_col a) (d_oc d) in
    if Z.lor (Z.lor (Z.lor n_src_idx (WrapSub (sources_count - 1) n_src_idx)) n_orig_line) n_orig_col <? 0 then None
    else
      let a := with_original (with_gen_col (sort_if (d_gen d <? 0) a) n_gen_col) n_src_idx n_orig_line n_orig_col in
      let a := if (field_count =? 5)%nat then with_name a (WrapAdd (name_idx a) (d_name d)) else a in
      Some (push_row a).

(** The loop of the block: whether it bails, the bytes taken, and the numbers there. *)
Fixpoint general_loop (fuel : nat) (blk : Block) (first_invalid : nat) (delim semi cont : Z) (p : nat) (a : Acc) : option (bool * nat * Acc) :=
  match fuel with
  | O => None
  | S fuel =>
      let '(a, (delim, semi, cont), p) := leading_semis a delim semi cont p in
      if (N <=? p)%nat then Some (false, p, a)
      else if Z.odd delim then Some (true, p, a)
      else if delim =? 0 then Some ((p =? 0)%nat, p, a)
      else
        let seg_len := Num0BitsBelowLS1Bit_Nonzero64 delim in
        if (first_invalid <? p + seg_len)%nat then Some (true, p, a)
        else if (Z.land (Z.shiftr cont (Z.of_nat seg_len - 1)) 1 =? 1) || (10 <? seg_len)%nat then Some (true, p, a)
        else
          let seg_cont := Z.land cont (Z.shiftl 1 (Z.of_nat seg_len) - 1) in
          let field_count := field_count_of seg_len seg_cont in
          if (5 <? field_count)%nat then Some (true, p, a)
          else
            decoded ← decode_segment blk (length (out_rows a) <? cap)%nat p seg_len seg_cont field_count;
            match (d ← decoded; commit field_count d a) with
            | None => Some (true, p, a)
            | Some a =>
                let adv := (seg_len + if Z.testbit semi (Z.of_nat seg_len) then 0 else 1)%nat in
                let p := (p + adv)%nat in
                if (N <=? p)%nat then Some (false, p, a)
                else general_loop fuel blk first_invalid (Z.shiftr delim (Z.of_nat adv)) (Z.shiftr semi (Z.of_nat adv))
                       (Z.shiftr cont (Z.of_nat adv)) p a
            end
  end.
Definition general (blk : Block) (a : Acc) : option (bool * nat * Acc) :=
  let first_invalid := if invalid_bits blk =? 0 then N else Num0BitsBelowLS1Bit_Nonzero64 (invalid_bits blk) in
  general_loop (S N) blk first_invalid (delim_bits blk) (semi_bits blk) (cont_bits blk) 0 a.

(** *** The blocks *)
(** One block, by the first of the three ways that takes it: whether the pass ends in it. *)
Definition block_step (bytes : list Z) (pos : nat) (a : Acc) : option (bool * nat * Acc) :=
  let blk := ClassifyBlock (take N (drop pos bytes)) in
  fast ← (match uniform blk a with Some whole => Some whole | None => batch blk a end);
  match fast with
  | Some (a, taken) => Some (false, (pos + taken)%nat, a)
  | None => '(bail, p, a) ← general blk a; Some (bail, (pos + p)%nat, a)
  end.
Fixpoint blocks (fuel : nat) (bytes : list Z) (pos : nat) (a : Acc) : option (nat * Acc) :=
  if (pos + N <=? length bytes)%nat then
    match fuel with
    | O => None
    | S fuel =>
        '(bail, pos, a) ← block_step bytes pos a;
        if (bail : bool) then Some (pos, a) else blocks fuel bytes pos a
    end
  else Some (pos, a).
Definition ParseMappingsImpl (bytes : list Z) (a : Acc) : option KernelOut :=
  '(pos, a) ← blocks (length bytes) bytes 0 a;
  Some {| k_rows := out_rows a; k_resume := pos; k_gen := (gen_line a, gen_col a); k_orig := (orig_line a, orig_col a);
          k_source := src_idx a; k_name := name_idx a; k_needs_sort := acc_needs_sort a; k_has_names := acc_has_names a |}.
End Pass.

(** [parse_mappings] of highway/lib.rs, from the state of all zeros that its caller makes. *)
Definition acc_default : Acc := Build_Acc 0 0 0 0 0 0 false false [].
Definition highway_parse_mappings (N : nat) (bytes : list Z) (names : bool) (cap : nat) (sources_count : Z) : option KernelOut :=
  if bool_decide (bytes = []) || (cap =? 0)%nat then Some (Build_KernelOut [] 0 (0, 0) (0, 0) 0 0 false false)
  else ParseMappingsImpl N names cap sources_count bytes acc_default.

(** ** Words and their bits *)
Lemma bits_nonneg l : 0 <= ToBits l.
Proof. induction l as [|[] l IH]; cbn [ToBits Z.b2z]; lia. Qed.

Lemma bits_odd l : Z.odd (ToBits l) = nth 0 l false.
Proof. destruct l as [|b l]; [done|]. cbn [ToBits nth]. rewrite Z.odd_add_mul_2. by destruct b. Qed.

Lemma bits_half l : Z.shiftr (ToBits l) 1 = ToBits (tail l).
Proof.
  destruct l as [|b l]; [done|]. cbn [ToBits tail]. rewrite Z.shiftr_div_pow2 by done. change (2 ^ 1) with 2.
  rewrite Z.add_comm, Z.mul_comm, Z.div_add_l by lia. by destruct b; cbn; rewrite Z.add_0_r.
Qed.

Lemma bits_shift l k : Z.shiftr (ToBits l) (Z.of_nat k) = ToBits (drop k l).
Proof.
  revert l. induction k as [|k IH]; intros l; [by rewrite Z.shiftr_0_r|].
  replace (Z.of_nat (S k)) with (1 + Z.of_nat k) by lia. rewrite <-Z.shiftr_shiftr, bits_half by lia. rewrite IH. destruct l; cbn [tail drop]; [by destruct k|done].
Qed.

Lemma bits_test l k : Z.testbit (ToBits l) (Z.of_nat k) = nth k l false.
Proof.
  replace (Z.of_nat k) with (0 + Z.of_nat k) by lia. rewrite <-Z.shiftr_spec, bits_shift, Z.bit0_odd, bits_odd by lia.
  by rewrite !nth_lookup, lookup_drop, Nat.add_0_r.
Qed.

Lemma land_low_bit w : 0 <= w -> (Z.land w 1 =? 1) = Z.odd w.
Proof.
  intros ?. change (Z.land w 1) with (Z.land w (Z.ones 1)). rewrite Z.land_ones by lia. change (2 ^ 1) with 2.
  rewrite Zmod_odd. by destruct (Z.odd w).
Qed.

Lemma bits_zero l : ToBits l = 0 <-> Forall (fun b => b = false) l.
Proof.
  split.
  - induction l as [|b l IH]; [constructor|]. cbn [ToBits]. pose proof (bits_nonneg l). intros E.
    destruct b; cbn [Z.b2z] in E; [lia|]. constructor; [done|]. apply IH. lia.
  - induction 1 as [|b l -> _ IH]; [done|]. cbn [ToBits]. by rewrite IH.
Qed.

Lemma bits_take l k : Z.land (ToBits l) (Z.shiftl 1 (Z.of_nat k) - 1) = ToBits (take k l).
Proof.
  apply Z.bits_inj'. intros i Hi. rewrite <-(Z2Nat.id i) by done. set (j := Z.to_nat i). clearbody j. clear i Hi.
  rewrite Z.land_spec, !bits_test, Z.shiftl_1_l, Z.sub_1_r, <-Z.ones_equiv, Z.testbit_ones_nonneg by lia.
  rewrite !nth_lookup. destruct (Z.ltb_spec (Z.of_nat j) (Z.of_nat k)).
  - by rewrite lookup_take_lt, andb_true_r by lia.
  - by rewrite lookup_take_ge, andb_false_r by lia.
Qed.

(** The first bit that is set. *)
Lemma bits_first l : (count_while negb l < length l)%nat -> (length l <= 64)%nat ->
  Num0BitsBelowLS1Bit_Nonzero64 (ToBits l) = count_while negb l.
Proof.
  unfold Num0BitsBelowLS1Bit_Nonzero64. generalize 64%nat as n. intros n. revert l. induction n as [|n IH]; intros l Hl Hn; [lia|].
  cbn [low_zeros]. rewrite bits_odd. destruct l as [|[] l]; [cbn in Hl; lia|done|]. cbn [nth negb count_while length] in *.
  rewrite bits_half. cbn [tail]. by rewrite IH by lia.
Qed.

Definition count_true (l : list bool) : nat := length (List.filter id l).

Lemma bits_count l : (length l <= 64)%nat -> PopCount (ToBits l) = count_true l.
Proof.
  unfold PopCount, count_true. generalize 64%nat as n. intros n. revert l. induction n as [|n IH]; intros l Hn.
  { by destruct l; [|cbn in Hn; lia]. }
  cbn [pop_bits]. rewrite bits_odd, bits_half. destruct l as [|b l].
  - cbn [tail nth]. rewrite (IH []) by (cbn; lia). done.
  - cbn [tail nth List.filter length] in *. rewrite IH by lia. by destruct b.
Qed.

Lemma bits_not l : (length l <= 64)%nat -> not64 (ToBits l) = ToBits (map negb l ++ replicate (64 - length l) true).
Proof.
  assert (H : forall n l, (length l <= n)%nat -> 2 ^ Z.of_nat n - 1 - ToBits l = ToBits (map negb l ++ replicate (n - length l) true)).
  { clear. induction n as [|n IH]; intros l Hl; [by destruct l; [|cbn in Hl; lia]|].
    replace (Z.of_nat (S n)) with (1 + Z.of_nat n) by lia. rewrite Z.pow_add_r by lia. change (2 ^ 1) with 2.
    destruct l as [|b l].
    - cbn [map app length replicate Nat.sub ToBits Z.b2z]. specialize (IH [] ltac:(cbn; lia)). cbn [map app length ToBits] in IH.
      rewrite Nat.sub_0_r in IH. rewrite <-IH. lia.
    - cbn [length] in *. cbn [map app Nat.sub ToBits]. rewrite <-(IH l) by lia. destruct b; cbn [negb Z.b2z]; lia. }
  intros Hl. by rewrite <-H.
Qed.

(** ** Digits and numbers *)
(** A character of a segment and its digit. *)
Definition digit_of_char (c s : Z) : Prop := BASE64_LUT !! Z.to_nat (Z.land c 127) = Some s /\ is_delim c = false.

(** What [ClassifyBlock] says of a byte. *)
Lemma lane_facts b : is_byte b ->
  lane_delim b = is_delim b /\ (lane_delim b = true -> lane_cont b = false) /\
  (lane_invalid b = false -> lane_delim b = false ->
     digit_of_char b (lane_sextet b) /\ 0 <= lane_sextet b < 64 /\ lane_cont b = negb (Z.land (lane_sextet b) 32 =? 0)).
Proof.
  intros Hb. split; [done|].
  assert (H : forallb (fun n => let b := Z.of_nat n in
    (negb (lane_delim b) || negb (lane_cont b)) &&
    (lane_invalid b || lane_delim b ||
       bool_decide (BASE64_LUT !! Z.to_nat (Z.land b 127) = Some (lane_sextet b) /\ is_delim b = false /\
         0 <= lane_sextet b < 64 /\ lane_cont b = negb (Z.land (lane_sextet b) 32 =? 0)))) (seq 0 256) = true) by by vm_compute.
  unfold is_byte in Hb. rewrite forallb_forall in H. specialize (H (Z.to_nat b) ltac:(apply in_seq; lia)).
  cbv zeta in H. rewrite Z2Nat.id in H by lia. apply andb_true_iff in H as [H1 H2]. split.
  - intros E. rewrite E in H1. by apply negb_true_iff in H1.
  - intros E1 E2. rewrite E1, E2 in H2. apply bool_decide_eq_true in H2 as (? & ? & ? & ?). unfold digit_of_char. splits; (done || lia).
Qed.

Definition has_more (s : Z) : bool := negb (Z.land s 32 =? 0).
(** The digits of one number: all but the last go on. *)
Fixpoint is_number (g : list Z) : Prop :=
  match g with
  | [] => False
  | [s] => has_more s = false
  | s :: g => has_more s = true /\ is_number g
  end.
Fixpoint vlq_acc (g : list Z) (shift vlq : Z) : Z :=
  match g with
  | [] => vlq
  | s :: g => vlq_acc g (shift + 5) (Z.lor vlq (wrap32 (Z.shiftl (Z.land s 31) (Z.land shift 31))))
  end.
Definition delta (g : list Z) : Z := SignMag (vlq_acc g 0 0).

Lemma sign_mag v : 0 <= v -> SignMag v = if Z.land v 1 =? 0 then Z.shiftr v 1 else - Z.shiftr v 1.
Proof.
  intros Hv. unfold SignMag. assert (H : Z.land v 1 = 0 \/ Z.land v 1 = 1).
  { change (Z.land v 1) with (Z.land v (Z.ones 1)). rewrite Z.land_ones by lia. pose proof (Z.mod_pos_bound v (2 ^ 1)). cbn in *. lia. }
  destruct H as [-> | ->]; cbn [Z.eqb].
  - by rewrite Z.lxor_0_r, Z.sub_0_r.
  - change (- (1)) with (-1). rewrite Z.lxor_m1_r. unfold Z.lnot. lia.
Qed.

Lemma vlq_acc_nonneg g shift vlq : 0 <= vlq -> 0 <= vlq_acc g shift vlq.
Proof.
  revert shift vlq. induction g as [|s g IH]; intros shift vlq Hv; cbn [vlq_acc]; [done|]. apply IH, Z.lor_nonneg. split; [done|].
  apply Z.mod_pos_bound. lia.
Qed.

(** The scalar decoder reads a number. *)
Lemma decode_loop_number t g rest start_ i shift vlq :
  Forall2 digit_of_char t g -> is_number g -> 0 <= vlq ->
  decode_loop (t ++ rest) start_ i shift vlq = Some {| value := SignMag (vlq_acc g shift vlq); start := start_ + i + length g |}.
Proof.
  intros H. revert i shift vlq. induction H as [|c s t g [Hc _] Ht IH]; intros i shift vlq Hg Hv; [done|].
  cbn [app decode_loop vlq_acc]. rewrite Hc. cbn [mbind option_bind]. set (vlq' := Z.lor vlq _).
  assert (0 <= vlq') by (apply Z.lor_nonneg; split; [done|apply Z.mod_pos_bound; lia]). clearbody vlq'.
  destruct g as [|s' g]; cbn [is_number] in Hg; unfold has_more in Hg.
  - apply negb_false_iff in Hg. rewrite Hg. cbn [vlq_acc length]. by rewrite sign_mag by done.
  - destruct Hg as [Hs Hg]. apply negb_true_iff in Hs. rewrite Hs. rewrite IH by done. cbn [length]. do 2 f_equal. lia.
Qed.

Lemma decode_number t g rest :
  Forall2 digit_of_char t g -> is_number g -> (length g <= 8)%nat ->
  decode (t ++ rest) 0 = Some {| value := delta g; start := length g |}.
Proof.
  intros Ht Hg Hl. pose proof (Forall2_length _ _ _ Ht) as El. unfold decode. rewrite slice_from_Some by lia. cbn [mbind option_bind].
  rewrite drop_0, Nat.sub_0_r, slice_range_Some by (unfold VLQ_MAX_IN_BYTES; lia). cbn [mbind option_bind]. rewrite drop_0, Nat.sub_0_r.
  rewrite take_app_ge by (rewrite length_app; unfold VLQ_MAX_IN_BYTES; lia). by rewrite (decode_loop_number t g).
Qed.

(** [DecodeVlqSextets] reads it as well, from the digits and their bitmap. *)
Lemma decode_vlq_number fuel sx cont p end_ g vlq shift :
  (forall i s, g !! i = Some s -> nth (p + i) sx 0 = s /\ Z.testbit cont (Z.of_nat (p + i)) = has_more s) ->
  is_number g -> (p + length g <= end_)%nat -> (length g <= fuel)%nat ->
  decode_vlq_loop fuel sx cont p end_ vlq shift = Some (SignMag (vlq_acc g shift vlq), (p + length g)%nat).
Proof.
  revert p g vlq shift. induction fuel as [|fuel IH]; intros p g vlq shift Hg Hn Hend Hf; [destruct g; [done|cbn in Hf; lia]|].
  destruct g as [|s g]; [done|]. destruct (Hg 0%nat s eq_refl) as [Hs Hc]. rewrite Nat.add_0_r in Hs, Hc.
  cbn [decode_vlq_loop vlq_acc]. rewrite Hs, Hc. destruct g as [|s' g].
  - cbn [is_number] in Hn. rewrite Hn. cbn [negb orb vlq_acc length]. by rewrite Nat.add_1_r.
  - destruct Hn as [-> Hn]. cbn [negb orb length] in *. rewrite (proj2 (Nat.leb_gt end_ (S p))) by lia.
    rewrite (IH (S p) (s' :: g)); [|intros i x Hx|done|cbn; lia|cbn; lia].
    + do 2 f_equal. cbn [length]. lia.
    + destruct (Hg (S i) x Hx) as [E1 E2]. by rewrite Nat.add_succ_comm.
Qed.

Lemma DecodeVlqSextets_number sx cont p end_ g :
  (forall i s, g !! i = Some s -> nth (p + i) sx 0 = s /\ Z.testbit cont (Z.of_nat (p + i)) = has_more s) ->
  is_number g -> (p + length g <= end_)%nat ->
  DecodeVlqSextets sx cont p end_ = Some (delta g, (p + length g)%nat).
Proof. intros Hg Hn Hend. apply decode_vlq_number; [done..|lia]. Qed.

(** *** The numbers of a segment *)
Fixpoint numbers (sx : list Z) : list (list Z) :=
  match sx with
  | [] => []
  | s :: sx =>
      if has_more s then match numbers sx with [] => [[s]] | g :: gs => (s :: g) :: gs end
      else [s] :: numbers sx
  end.
(** The last number is not cut off. *)
Definition closed (sx : list Z) : Prop := match last sx with Some s => has_more s = false | None => False end.

Lemma closed_last sx : sx <> [] -> nth (length sx - 1) (map has_more sx) false = false -> closed sx.
Proof.
  intros Hne H. unfold closed. rewrite last_lookup. destruct (lookup_lt_is_Some_2 sx (pred (length sx))) as [s Hs]; [by destruct sx; [|cbn; lia]|].
  rewrite Hs. replace (length sx - 1)%nat with (pred (length sx)) in H by lia. by rewrite nth_lookup, list_lookup_fmap, Hs in H.
Qed.

Lemma numbers_concat sx : concat (numbers sx) = sx.
Proof.
  induction sx as [|s sx IH]; [done|]. cbn [numbers]. destruct (has_more s); [|cbn; by rewrite IH].
  destruct (numbers sx); cbn in *; by rewrite <-IH.
Qed.

Lemma closed_cons s sx : closed (s :: sx) -> sx = [] /\ has_more s = false \/ sx <> [] /\ closed sx.
Proof. unfold closed. rewrite last_cons. destruct sx as [|s' sx]; [by left|]. right. split; [done|]. by destruct (last (s' :: sx)) eqn:E; [|apply last_None in E]. Qed.

Lemma numbers_ok sx : closed sx -> Forall is_number (numbers sx) /\ numbers sx <> [].
Proof.
  induction sx as [|s sx IH]; [done|]. intros [[-> Hs]|[Hne Hc]]%closed_cons; cbn [numbers].
  - rewrite Hs. split; [by repeat constructor|done].
  - destruct (IH Hc) as [Hg Hn]. destruct (has_more s) eqn:Hs; [|split; [by constructor|done]].
    destruct (numbers sx) as [|g gs]; [done|]. apply Forall_cons in Hg as [Hg Hgs]. split; [|done]. constructor; [|done]. by destruct g.
Qed.

Lemma numbers_length sx : closed sx -> length (numbers sx) = (length sx - count_true (map has_more sx))%nat /\
  (count_true (map has_more sx) < length sx)%nat.
Proof.
  unfold count_true. induction sx as [|s sx IH]; [done|]. intros [[-> Hs]|[Hne Hc]]%closed_cons; cbn [numbers map List.filter].
  - rewrite Hs. cbn. lia.
  - destruct (IH Hc) as [E Hlt]. destruct (numbers_ok sx Hc) as [_ Hn]. destruct (has_more s); cbn [id].
    + destruct (numbers sx); [done|]. cbn [length] in *. lia.
    + cbn [length]. lia.
Qed.

(** *** The shuffle *)
Lemma decode_i16_one s : 0 <= s < 64 -> has_more s = false -> decode_i16 s 0 = delta [s] /\ SignMagI8 s = delta [s].
Proof.
  intros Hs. assert (H : forallb (fun n => let s := Z.of_nat n in
    has_more s || ((decode_i16 s 0 =? delta [s]) && (SignMagI8 s =? delta [s]))) (seq 0 64) = true) by by vm_compute.
  rewrite forallb_forall in H. specialize (H (Z.to_nat s) ltac:(apply in_seq; lia)). cbv zeta in H. rewrite Z2Nat.id in H by lia.
  intros Hc. rewrite Hc in H. apply andb_true_iff in H. by rewrite !Z.eqb_eq in H.
Qed.

Lemma decode_i16_two s s' : 0 <= s < 64 -> 0 <= s' < 64 -> decode_i16 s s' = delta [s; s'].
Proof.
  intros Hs Hs'. assert (H : forallb (fun n => forallb (fun n' => decode_i16 (Z.of_nat n) (Z.of_nat n') =? delta [Z.of_nat n; Z.of_nat n'])
    (seq 0 64)) (seq 0 64) = true) by by vm_compute.
  rewrite forallb_forall in H. specialize (H (Z.to_nat s) ltac:(apply in_seq; lia)).
  rewrite forallb_forall in H. specialize (H (Z.to_nat s') ltac:(apply in_seq; lia)). by rewrite Z.eqb_eq, !Z2Nat.id in H by lia.
Qed.

Lemma shuf_table w : 0 <= w < 256 ->
  shuf_entry w = MakeShufEntry w /\ (nth 15 (shuf_entry w) 0 =? kShufBad) = negb (Z.land w (Z.shiftr w 1) =? 0).
Proof.
  intros Hw. assert (H : forallb (fun n => let w := Z.of_nat n in bool_decide (shuf_entry w = MakeShufEntry w) &&
    Bool.eqb (nth 15 (shuf_entry w) 0 =? kShufBad) (negb (Z.land w (Z.shiftr w 1) =? 0))) (seq 0 256) = true) by by vm_compute.
  rewrite forallb_forall in H. specialize (H (Z.to_nat w) ltac:(apply in_seq; lia)). cbv zeta in H. rewrite Z2Nat.id in H by lia.
  apply andb_true_iff in H as [H1%bool_decide_eq_true H2%Bool.eqb_prop]. by split.
Qed.

(** The digits of a segment lie at [p] of an array, with their bitmap. *)
Definition lies_at (arr : list Z) (cont : Z) (p : nat) (sx : list Z) : Prop :=
  forall i s, sx !! i = Some s -> nth (p + i) arr 0 = s /\ Z.testbit cont (Z.of_nat (p + i)) = has_more s.

Lemma lies_app arr cont p g sx : lies_at arr cont p (g ++ sx) -> lies_at arr cont p g /\ lies_at arr cont (p + length g) sx.
Proof.
  intros H. split; intros i s Hs.
  - apply H. by apply lookup_app_l_Some.
  - replace (p + length g + i)%nat with (p + (length g + i))%nat by lia. apply H.
    rewrite lookup_app_r by lia. by replace (length g + i - length g)%nat with i by lia.
Qed.

Definition sextet_ok (s : Z) : Prop := 0 <= s < 64.

Lemma gather_numbers v_in cont n pos gs rest :
  0 <= cont -> lies_at v_in cont pos (concat gs) -> Forall is_number gs -> Forall (fun g => (length g <= 2)%nat) gs ->
  Forall sextet_ok (concat gs) -> (length gs <= n)%nat -> (pos + length (concat gs) <= 10)%nat ->
  forall k g, gs !! k = Some g -> nth k (gather v_in (shuf_pairs n cont (Z.of_nat pos) ++ rest)) 0 = delta g.
Proof.
  intros Hc. revert n pos. induction gs as [|g0 gs IH]; intros n pos Hat Hnum Hlen Hsx Hn Hpos k g Hk; [done|].
  destruct n as [|n]; [cbn in Hn; lia|]. apply Forall_cons in Hnum as [Hg0 Hnum]. apply Forall_cons in Hlen as [Hl0 Hlen].
  cbn [concat] in *. apply lies_app in Hat as [Hat0 Hat]. apply Forall_app in Hsx as [Hsx0 Hsx]. rewrite length_app in Hpos.
  assert (Hlow : forall i, (i <= 10)%nat -> lookup_or0 v_in (Z.of_nat i) = nth i v_in 0).
  { intros i Hi. unfold lookup_or0. rewrite (proj2 (Z.leb_gt _ _)) by lia. by rewrite Nat2Z.id. }
  assert (Hbit : (Z.land (Z.shiftr cont (Z.of_nat pos)) 1 =? 1) = Z.testbit cont (Z.of_nat pos)).
  { rewrite land_low_bit by (by apply Z.shiftr_nonneg). by rewrite Z.testbit_odd. }
  cbn [shuf_pairs length] in *. rewrite Hbit.
  destruct g0 as [|s [|s' [|]]]; [done| | |cbn in Hl0; lia]; destruct (Hat0 0%nat s eq_refl) as [E1 E2]; rewrite Nat.add_0_r in E1, E2.
  - cbn [is_number length] in *. rewrite E2, Hg0. replace (Z.of_nat pos + 1) with (Z.of_nat (pos + 1)) by lia.
    destruct k as [|k]; cbn [app gather nth].
    + injection Hk as <-. rewrite Hlow, E1 by lia. change (lookup_or0 v_in 0x80) with 0. exact (proj1 (decode_i16_one s (Forall_inv Hsx0) Hg0)).
    + apply (IH n (pos + 1)%nat); (done || lia).
  - destruct Hg0 as [Hs Hs']. cbn [length] in *. rewrite E2, Hs.
    destruct (Hat0 1%nat s' eq_refl) as [E3 _]. replace (Z.of_nat pos + 2) with (Z.of_nat (pos + 2)) by lia.
    replace (Z.of_nat pos + 1) with (Z.of_nat (pos + 1)) by lia. destruct k as [|k]; cbn [app gather nth].
    + injection Hk as <-. rewrite !Hlow, E1, E3 by lia. exact (decode_i16_two s s' (Forall_inv Hsx0) (Forall_inv (Forall_inv_tail Hsx0))).
    + apply (IH n (pos + 2)%nat); (done || lia).
Qed.

Lemma numbers_short sx : closed sx -> (forall i, nth i (map has_more sx) false && nth (S i) (map has_more sx) false = false) ->
  Forall (fun g => (length g <= 2)%nat) (numbers sx).
Proof.
  induction sx as [|s sx IH]; [done|]. intros [[-> Hs]|[Hne Hc]]%closed_cons Hadj; cbn [numbers].
  - rewrite Hs. repeat constructor.
  - assert (Hadj' : forall i, nth i (map has_more sx) false && nth (S i) (map has_more sx) false = false) by (intros i; apply (Hadj (S i))).
    specialize (IH Hc Hadj'). destruct (has_more s) eqn:Hs; [|by constructor; [cbn; lia|]].
    destruct sx as [|s' sx]; [done|]. specialize (Hadj 0%nat). cbn [map nth] in Hadj. rewrite Hs in Hadj. cbn [andb] in Hadj.
    cbn [numbers] in *. rewrite Hadj in *. apply Forall_cons in IH as [_ IH]. by constructor.
Qed.

(** The shuffle decodes the segments it takes. *)
Lemma shuffle_numbers arr cont p sx w :
  lies_at arr cont p sx -> closed sx -> Forall sextet_ok sx -> (length sx <= 10)%nat -> (length (numbers sx) <= 5)%nat ->
  w = ToBits (map has_more sx) -> shuffles w = true ->
  forall k g, numbers sx !! k = Some g -> nth k (ShuffleDecodeI16 (drop p arr) (Z.land w 0xFF)) 0 = delta g.
Proof.
  intros Hat Hcl Hsx Hlen Hn Ew Hsh k g Hk. unfold shuffles in Hsh. apply andb_true_iff in Hsh as [H8%Z.eqb_eq Hbad].
  pose proof (bits_nonneg (map has_more sx)) as H0. rewrite <-Ew in H0.
  assert (Hw : 0 <= w < 256).
  { split; [done|]. rewrite Z.shiftr_div_pow2 in H8 by lia. change (2 ^ 8) with 256 in H8. pose proof (Z.mod_pos_bound w 256). pose proof (Z.div_mod w 256). lia. }
  assert (Z.land w 0xFF = w) as Eff by (change 0xFF with (Z.ones 8); rewrite Z.land_ones by lia; apply Z.mod_small; cbn; lia).
  rewrite Eff in *. destruct (shuf_table w Hw) as [E Eb]. rewrite Eb, negb_involutive in Hbad. unfold ShuffleDecodeI16. rewrite E.
  unfold MakeShufEntry. rewrite Hbad. cbn [negb].
  assert (Hshort : Forall (fun g => (length g <= 2)%nat) (numbers sx)).
  { apply numbers_short; [done|]. intros i. apply Z.eqb_eq in Hbad. apply (f_equal (fun z => Z.testbit z (Z.of_nat i))) in Hbad.
    rewrite Z.land_spec, Z.shiftr_spec, Z.bits_0 in Hbad by lia. replace (Z.of_nat i + 1) with (Z.of_nat (S i)) in Hbad by lia.
    by rewrite Ew, !bits_test in Hbad. }
  apply (gather_numbers _ w 5 0 (numbers sx)); try done.
  - rewrite numbers_concat. intros i s Hs. rewrite Nat.add_0_l. destruct (Hat i s Hs) as [E1 E2]. apply lookup_lt_Some in Hs as Hi. split.
    + rewrite nth_lookup, lookup_take_lt, lookup_drop by lia. by rewrite nth_lookup in E1.
    + rewrite Ew, bits_test, nth_lookup, list_lookup_fmap, Hs. done.
  - by apply numbers_ok.
  - by rewrite numbers_concat.
  - rewrite numbers_concat. lia.
Qed.

(** ** A segment is a round of the loop *)
Definition deltas_of (gs : list (list Z)) : Deltas := {|
  d_gen := delta (nth 0 gs []); d_src := delta (nth 1 gs []); d_ol := delta (nth 2 gs []); d_oc := delta (nth 3 gs []);
  d_name := delta (nth 4 gs [])
|}.

Section Rounds.
Context (all : bytes) (sources_count : Z) (options : ParseOptions).
Context (Hlen : Z.of_nat (length all) <= 2147483647) (Hsources : 0 <= sources_count <= 2147483647).

Lemma read_delta_number e t g rest :
  Forall2 digit_of_char t g -> is_number g -> (length g <= 8)%nat -> read_delta all e (t ++ rest) = Some (Ok (delta g, rest)).
Proof using Type.
  intros Ht Hg Hl. unfold read_delta. rewrite (decode_number t g) by done. cbn [mbind option_bind start value].
  pose proof (Forall2_length _ _ _ Ht) as El. destruct (Nat.eqb_spec (length g) 0); [by destruct g|].
  rewrite slice_from_Some by (rewrite length_app; lia). cbn [mbind option_bind]. by rewrite <-El, drop_app_length.
Qed.

Lemma read_position_number missing invalid absolute t g rest :
  Forall2 digit_of_char t g -> is_number g -> (length g <= 8)%nat -> 0 <= WrapAdd absolute (delta g) ->
  read_position all missing invalid absolute (t ++ rest) = Some (Ok (WrapAdd absolute (delta g), delta g, rest)).
Proof using Type.
  intros Ht Hg Hl Hv. unfold read_position. rewrite (read_delta_number _ t g) by done. cbn [try mbind option_bind].
  unfold WrapAdd in *. by rewrite (proj2 (Z.ltb_ge _ _)).
Qed.

(** A number starts with a digit. *)
Lemma number_head t g : Forall2 digit_of_char t g -> is_number g -> exists c t', t = c :: t' /\ is_delim c = false.
Proof using Type. intros [|c s t' g' [_ Hc] _] Hg; [done|]. by exists c, t'. Qed.

(** The state of the loop that the pass has. *)
Definition kernel_out (pos : nat) (a : Acc) : KernelOut := {|
  k_rows := out_rows a; k_resume := pos; k_gen := (gen_line a, gen_col a); k_orig := (orig_line a, orig_col a);
  k_source := src_idx a; k_name := name_idx a; k_needs_sort := acc_needs_sort a; k_has_names := acc_has_names a
|}.

(** Behind a comma, or in front of a semicolon. *)
Definition past_comma (c : Z) (rest : bytes) : bytes := if c =? ","%u8 then rest else c :: rest.

Lemma wrap_sub_range s : is_i32 s -> (WrapSub (sources_count - 1) s <? 0) || (s <? 0) = (s <? 0) || (sources_count <=? s).
Proof using Hsources.
  clear Hlen. unfold is_i32, WrapSub. intros Hs. destruct (Z.ltb_spec s 0); [by rewrite orb_true_r|]. rewrite orb_false_r. cbn [orb].
  rewrite wrap_i32_id by (unfold is_i32; lia). destruct (Z.ltb_spec (sources_count - 1 - s) 0), (Z.leb_spec sources_count s); (done || lia).
Qed.

Lemma lor_range s l c : Z.lor (Z.lor (Z.lor s (WrapSub (sources_count - 1) s)) l) c <? 0 = false -> is_i32 s ->
  ((s <? 0) || (sources_count <=? s)) = false /\ 0 <= l /\ 0 <= c.
Proof using Hsources.
  clear Hlen. intros H Hs. apply Z.ltb_ge in H. rewrite <-wrap_sub_range by done.
  apply Z.lor_nonneg in H as [[[? ?]%Z.lor_nonneg ?]%Z.lor_nonneg ?]. split; [|done].
  apply orb_false_iff. rewrite !Z.ltb_ge. done.
Qed.

(** One number: the column moves. *)
Lemma read_segment_one st t g c rest :
  remaining st = t ++ c :: rest -> Forall2 digit_of_char t g -> is_number g -> (length g <= 8)%nat -> is_delim c = true ->
  0 <= WrapAdd (snd (gen_at st)) (delta g) ->
  read_segment all sources_count options st =
    Some (Ok (Build_Parsing (mapping st) (fst (gen_at st), WrapAdd (snd (gen_at st)) (delta g)) (orig_at st) (name_at st) (source_at st)
      (needs_sort st || (delta g <? 0)) (has_names st) (past_comma c rest))).
Proof using Type.
  destruct st as [l gn o n s ns hn rem]. cbn [remaining gen_at mapping orig_at name_at source_at needs_sort has_names].
  intros -> Ht Hg Hl Hc Hv. unfold read_segment. rewrite (read_position_number _ _ _ t g) by done. cbn [try mbind option_bind].
  unfold past_comma. destruct (Z.eqb_spec c ","%u8); [done|]. destruct (Z.eqb_spec c ";"%u8); [done|].
  unfold is_delim in Hc. rewrite orb_true_iff, !Z.eqb_eq in Hc. by destruct Hc.
Qed.

(** The column, and then the rest. *)
Lemma read_segment_more st t g c rest :
  remaining st = t ++ c :: rest -> Forall2 digit_of_char t g -> is_number g -> (length g <= 8)%nat -> is_delim c = false ->
  0 <= WrapAdd (snd (gen_at st)) (delta g) ->
  read_segment all sources_count options st =
    read_original all sources_count options (Build_Parsing (mapping st) (fst (gen_at st), WrapAdd (snd (gen_at st)) (delta g)) (orig_at st)
      (name_at st) (source_at st) (needs_sort st || (delta g <? 0)) (has_names st) (c :: rest)).
Proof using Type.
  destruct st as [l gn o n s ns hn rem]. cbn [remaining gen_at mapping orig_at name_at source_at needs_sort has_names].
  intros -> Ht Hg Hl Hc Hv. unfold read_segment. rewrite (read_position_number _ _ _ t g) by done. cbn [try mbind option_bind].
  unfold is_delim in Hc. apply orb_false_iff in Hc as [-> ->]. done.
Qed.

(** The last number of five, if it is there: the list, the index and whether there are names. *)
Lemma read_name_none st c rest :
  remaining st = c :: rest -> is_delim c = true ->
  read_name all options st = Some (Ok (Build_Parsing (mapping st) (gen_at st) (orig_at st) (name_at st) (source_at st) (needs_sort st) (has_names st)
    (past_comma c rest))).
Proof using Type.
  destruct st as [l gn o n s ns hn rem]. cbn [remaining gen_at mapping orig_at name_at source_at needs_sort has_names].
  intros -> Hc. unfold read_name, past_comma. destruct (Z.eqb_spec c ","%u8); [done|]. destruct (Z.eqb_spec c ";"%u8); [done|].
  unfold is_delim in Hc. rewrite orb_true_iff, !Z.eqb_eq in Hc. by destruct Hc.
Qed.
Lemma read_name_some st t g c rest :
  remaining st = t ++ c :: rest -> Forall2 digit_of_char t g -> is_number g -> (length g <= 8)%nat -> is_delim c = true ->
  read_name all options st = Some (Ok (Build_Parsing
    (if allow_names options then if negb (has_names st) then ensure_with_names (mapping st) else mapping st else mapping st) (gen_at st) (orig_at st)
    (if allow_names options then WrapAdd (name_at st) (delta g) else name_at st) (source_at st) (needs_sort st)
    (if allow_names options then true else has_names st) (past_comma c rest))).
Proof using Type.
  destruct st as [l gn o n s ns hn rem]. cbn [remaining gen_at mapping orig_at name_at source_at needs_sort has_names].
  intros -> Ht Hg Hl Hc. unfold read_name. destruct (number_head t g Ht Hg) as (c' & t' & Et & Hc'). rewrite Et at 1. cbn [app].
  unfold is_delim in Hc'. apply orb_false_iff in Hc' as [-> ->].
  rewrite (read_delta_number _ t g) by done. cbn [try mbind option_bind].
  assert (skip_one_comma (c :: rest) = past_comma c rest) as -> by (unfold skip_one_comma, past_comma; cbn; by destruct (c =? _)).
  by destruct (allow_names options).
Qed.

(** The three numbers in between. *)
Lemma read_original_three st t2 g2 t3 g3 t4 g4 rest :
  let s := WrapAdd (source_at st) (delta g2) in
  let l := WrapAdd (fst (orig_at st)) (delta g3) in
  let c := WrapAdd (snd (orig_at st)) (delta g4) in
  remaining st = t2 ++ t3 ++ t4 ++ rest -> Forall2 digit_of_char t2 g2 -> Forall2 digit_of_char t3 g3 -> Forall2 digit_of_char t4 g4 ->
  Forall is_number [g2; g3; g4] -> Forall (fun g => (length g <= 8)%nat) [g2; g3; g4] ->
  (s <? 0) || (sources_count <=? s) = false -> 0 <= l -> 0 <= c ->
  read_original all sources_count options st =
    try (read_name all options (Build_Parsing (mapping st) (gen_at st) (l, c) (name_at st) s (needs_sort st) (has_names st) rest))
      (fun st => let m := {| generated := gen_at st; original := orig_at st; mapping_source_index := source_at st;
                             name_index := if has_names st then name_at st else -1 |} in
         Some (Ok (Build_Parsing (list_append m (mapping st)) (gen_at st) (orig_at st) (name_at st) (source_at st)
                (needs_sort st) (has_names st) (remaining st)))).
Proof using Type.
  destruct st as [l0 gn o n s0 ns hn rem]. cbn [remaining gen_at mapping orig_at name_at source_at needs_sort has_names]. cbv zeta.
  intros -> H2 H3 H4 Hnum Hl Hs Hline Hcol. rewrite !Forall_cons in Hnum, Hl. destruct Hnum as (N2 & N3 & N4 & _), Hl as (L2 & L3 & L4 & _).
  unfold read_original. rewrite (read_delta_number _ t2 g2) by done. cbn [try mbind option_bind]. unfold WrapAdd in Hs |- *. rewrite Hs.
  rewrite (read_position_number _ _ _ t3 g3) by done. cbn [try mbind option_bind].
  rewrite (read_position_number _ _ _ t4 g4) by done. cbn [try mbind option_bind]. done.
Qed.

Lemma row_appended m l has n :
  (has = true -> named l) -> name_index m = (if (has : bool) then n else -1) -> mappings_of (list_append m l) = mappings_of l ++ [m].
Proof using Type. intros Hn Hm. destruct has; [by apply named_append, Hn|by apply unnamed_append]. Qed.

(** The rows of a pass and the mappings of a list. *)
Definition listed (rows : list Mapping) : list Mapping := if allow_names options then rows else map (to_named ∘ without_name) rows.
Lemma listed_row a :
  listed (out_rows a ++ [row_of (allow_names options) a]) = listed (out_rows a) ++ [row_of (allow_names options) a].
Proof using Type. unfold listed, row_of. destruct (allow_names options); [done|]. rewrite map_app. cbn. done. Qed.

(** A round that starts with a digit is a segment. *)
Lemma round_segment st c rest : remaining st = c :: rest -> is_delim c = false ->
  parse_round all sources_count options st = read_segment all sources_count options st.
Proof using Type.
  destruct st as [l gn o n s ns hn rem]. cbn [remaining]. intros -> Hc. unfold parse_round. cbn [starts_with_byte].
  unfold is_delim in Hc. by apply orb_false_iff in Hc as [_ ->].
Qed.

(** The rest of a segment with an original position; [st1] is the state behind the name. *)
Lemma original_round st a t2 g2 t3 g3 t4 g4 rest st1 :
  let a' := with_original a (WrapAdd (src_idx a) (delta g2)) (WrapAdd (orig_line a) (delta g3)) (WrapAdd (orig_col a) (delta g4)) in
  orig_at st = (orig_line a, orig_col a) -> source_at st = src_idx a ->
  remaining st = t2 ++ t3 ++ t4 ++ rest -> Forall2 digit_of_char t2 g2 -> Forall2 digit_of_char t3 g3 -> Forall2 digit_of_char t4 g4 ->
  Forall is_number [g2; g3; g4] -> Forall (fun g => (length g <= 8)%nat) [g2; g3; g4] ->
  Z.lor (Z.lor (Z.lor (src_idx a') (WrapSub (sources_count - 1) (src_idx a'))) (orig_line a')) (orig_col a') <? 0 = false ->
  read_name all options (Build_Parsing (mapping st) (gen_at st) (orig_line a', orig_col a') (name_at st) (src_idx a') (needs_sort st) (has_names st) rest)
    = Some (Ok st1) ->
  exists st', read_original all sources_count options st = Some (Ok st') /\
    mapping st' = list_append {| generated := gen_at st1; original := orig_at st1; mapping_source_index := source_at st1;
                                 name_index := if has_names st1 then name_at st1 else -1 |} (mapping st1) /\
    gen_at st' = gen_at st1 /\ orig_at st' = orig_at st1 /\ source_at st' = source_at st1 /\ name_at st' = name_at st1 /\
    needs_sort st' = needs_sort st1 /\ has_names st' = has_names st1 /\ remaining st' = remaining st1.
Proof using Hsources.
  cbv zeta. intros Oorig Osrc Hrem H2 H3 H4 Hnum Hshort Hrange Hname.
  cbn [with_original src_idx orig_line orig_col] in *.
  apply lor_range in Hrange as (Hs & Hl & Hc); [|apply wrap_i32_range].
  rewrite (read_original_three st t2 g2 t3 g3 t4 g4 rest); [|rewrite ?Osrc, ?Oorig; done..].
  rewrite Osrc, Oorig. cbn [fst snd]. rewrite Hname. cbn [try mbind option_bind]. eexists. split; [done|]. by repeat split.
Qed.

(** A row of the pass is the mapping that the loop appends. *)
Lemma push_row_listed st a rows :
  mappings_of (mapping st) = listed rows -> out_rows a = rows -> (has_names st = true -> named (mapping st)) ->
  gen_at st = (gen_line a, gen_col a) -> orig_at st = (orig_line a, orig_col a) -> source_at st = src_idx a ->
  (if allow_names options then name_at st = name_idx a /\ has_names st = acc_has_names a else has_names st = false) ->
  mappings_of (list_append {| generated := gen_at st; original := orig_at st; mapping_source_index := source_at st;
                              name_index := if has_names st then name_at st else -1 |} (mapping st)) =
    listed (out_rows (push_row (allow_names options) a)).
Proof using Type.
  intros E1 E2 Hn E3 E4 E5 E6. cbn [push_row out_rows]. rewrite listed_row, E2, <-E1.
  match goal with |- context [list_append ?m _] => rewrite (row_appended m _ _ _ Hn eq_refl) end. do 2 f_equal.
  rewrite E3, E4, E5. unfold row_of. f_equal. destruct (allow_names options); cbn [andb]; [|by rewrite E6]. by destruct E6 as [-> ->].
Qed.

(** The state behind the row [a], appended to a state [st1] of the loop. *)
Lemma finish_segment st' st1 a pos c rest :
  mapping st' = list_append {| generated := gen_at st1; original := orig_at st1; mapping_source_index := source_at st1;
                               name_index := if has_names st1 then name_at st1 else -1 |} (mapping st1) ->
  gen_at st' = gen_at st1 -> orig_at st' = orig_at st1 -> source_at st' = source_at st1 -> name_at st' = name_at st1 ->
  needs_sort st' = needs_sort st1 -> has_names st' = has_names st1 -> remaining st' = remaining st1 ->
  remaining st1 = past_comma c rest -> drop pos all = past_comma c rest ->
  mappings_of (mapping st1) = listed (out_rows a) -> (has_names st1 = true -> named (mapping st1)) ->
  gen_at st1 = (gen_line a, gen_col a) -> orig_at st1 = (orig_line a, orig_col a) -> source_at st1 = src_idx a ->
  needs_sort st1 = acc_needs_sort a ->
  (if allow_names options then name_at st1 = name_idx a /\ has_names st1 = acc_has_names a else has_names st1 = false) ->
  leaves_off all options st' (kernel_out pos (push_row (allow_names options) a)).
Proof using Type.
  intros E1 E2 E3 E4 E5 E6 E7 E8 Hr Hd Hl Hn Hg Ho Hs Hsort Hnames. split; cbn; try congruence.
  - intros Ha. rewrite Ha in Hnames. by rewrite E5, E7.
  - rewrite E1. by apply (push_row_listed st1 a (out_rows a)).
Qed.

(** One segment, as the pass adds it to its numbers, is a round of the loop. *)
Lemma segment_round st pos a a' ts gs c rest :
  leaves_off all options st (kernel_out pos a) -> same options st st ->
  drop pos all = concat ts ++ c :: rest -> Forall2 (Forall2 digit_of_char) ts gs ->
  Forall is_number gs -> Forall (fun g => (length g <= 8)%nat) gs -> is_delim c = true ->
  (length gs = 1 \/ length gs = 4 \/ length gs = 5)%nat ->
  commit (allow_names options) sources_count (length gs) (deltas_of gs) a = Some a' ->
  exists st', parse_round all sources_count options st = Some (Ok st') /\
    leaves_off all options st' (kernel_out (pos + (length (concat ts) + if c =? ","%u8 then 1 else 0)) a').
Proof using Hsources.
  intros Hoff Hsame Htext Hts Hnum Hshort Hc Hcount Hcommit.
  assert (Hrest : drop (pos + (length (concat ts) + if c =? ","%u8 then 1 else 0)) all = past_comma c rest).
  { rewrite <-drop_drop, Htext, drop_app_add. unfold past_comma. by destruct (c =? ","%u8). }
  set (pos' := (pos + _)%nat) in *. clearbody pos'.
  destruct Hoff as [Orem Ogen Oorig Osrc Osort Onames Orows]. cbn [kernel_out k_resume k_gen k_orig k_source k_needs_sort k_name k_has_names k_rows] in *.
  destruct gs as [|g1 gs]; [cbn in Hcount; lia|]. apply Forall2_cons_inv_r in Hts as (t1 & ts1 & Ht1 & Hts & ->).
  apply Forall_cons in Hnum as [Hn1 Hnum]. apply Forall_cons in Hshort as [Hl1 Hshort].
  cbn [concat] in Htext. rewrite <-app_assoc in Htext. rewrite Htext in Orem.
  destruct (number_head t1 g1 Ht1 Hn1) as (c1 & t1' & Et1 & Hc1).
  rewrite (round_segment st c1 (t1' ++ concat ts1 ++ c :: rest)); [|by rewrite Orem, Et1|done].
  unfold commit in Hcommit. cbn [deltas_of d_gen d_src d_ol d_oc d_name nth] in Hcommit.
  destruct (Z.ltb_spec (WrapAdd (gen_col a) (delta g1)) 0) as [|Hcol]; [done|].
  assert (Hcol' : 0 <= WrapAdd (snd (gen_at st)) (delta g1)) by (rewrite Ogen; exact Hcol).
  destruct gs as [|g2 [|g3 [|g4 gs]]]; try (cbn in Hcount; lia).
  { apply Forall2_nil_inv_r in Hts as ->. cbn [length Nat.eqb] in Hcommit. injection Hcommit as <-. cbn [concat app] in Orem.
    rewrite (read_segment_one st t1 g1 c rest) by (congruence || done). eexists. split; [done|].
    split; cbn; [by rewrite Hrest|by rewrite Ogen|done|done|by rewrite Osort|done|done]. }
  apply Forall2_cons_inv_r in Hts as (t2 & ts2 & Ht2 & Hts & ->). apply Forall2_cons_inv_r in Hts as (t3 & ts3 & Ht3 & Hts & ->).
  apply Forall2_cons_inv_r in Hts as (t4 & ts4 & Ht4 & Hts & ->).
  rewrite !Forall_cons in Hnum, Hshort. destruct Hnum as (Hn2 & Hn3 & Hn4 & Hnum), Hshort as (Hl2 & Hl3 & Hl4 & Hshort).
  cbn [concat] in Orem. rewrite <-!app_assoc in Orem. destruct (number_head t2 g2 Ht2 Hn2) as (c2 & t2' & Et2 & Hc2).
  rewrite (read_segment_more st t1 g1 c2 (t2' ++ t3 ++ t4 ++ concat ts4 ++ c :: rest)); [|by rewrite Orem, Et2|done..].
  rewrite app_comm_cons, <-Et2.
  assert (Hone : (length (g1 :: g2 :: g3 :: g4 :: gs) =? 1)%nat = false) by done. rewrite Hone in Hcommit.
  cbn [nth] in Hcommit.
  set (a1 := with_gen_col (sort_if (delta g1 <? 0) a) (WrapAdd (gen_col a) (delta g1))) in *.
  match goal with |- context [read_original _ _ _ ?s] => set (st1 := s) end.
  destruct (Z.lor _ _ <? 0) eqn:Hrange; [done|].
  set (a2 := with_original a1 (WrapAdd (src_idx a) (delta g2)) (WrapAdd (orig_line a) (delta g3)) (WrapAdd (orig_col a) (delta g4))) in *.
  pose proof (original_round st1 a1 t2 g2 t3 g3 t4 g4 (concat ts4 ++ c :: rest)) as Horig. cbv zeta in Horig.
  assert (Hallow : allow_names options = false -> has_names st = false) by (intros Ha; apply (sm_allowed _ _ _ Hsame Ha)).
  assert (Hnamed : has_names st = true -> named (mapping st)) by (intros Hh; by destruct (sm_named _ _ _ Hsame Hh)).
  assert (Hlist : mappings_of (mapping st) = listed (out_rows a)) by exact Orows.
  destruct gs as [|g5 [|]]; [| |cbn in Hcount; lia]; cbn [length Nat.eqb nth] in Hcommit; injection Hcommit as <-.
  - apply Forall2_nil_inv_r in Hts as ->. cbn [concat app] in *.
    edestruct Horig as (st' & -> & E1 & E2 & E3 & E4 & E5 & E6 & E7 & E8); clear Horig; try done.
    { by rewrite !Forall_cons. }
    { by rewrite !Forall_cons. }
    { by apply read_name_none with (c := c) (rest := rest). }
    exists st'. split; [done|]. apply (finish_segment st' _ _ _ c rest E1 E2 E3 E4 E5 E6 E7 E8); try done.
    + cbn. by rewrite Ogen.
    + cbn. by rewrite Osort.
    + cbn. destruct (allow_names options); [by apply Onames|by apply Hallow].
  - apply Forall2_cons_inv_r in Hts as (t5 & ts5 & Ht5 & Hts & ->). apply Forall2_nil_inv_r in Hts as ->.
    apply Forall_inv in Hnum, Hshort. cbn [concat app] in *. rewrite app_nil_r in *.
    edestruct Horig as (st' & -> & E1 & E2 & E3 & E4 & E5 & E6 & E7 & E8); clear Horig; try done.
    { cbn. by rewrite app_nil_r. }
    { by rewrite !Forall_cons. }
    { by rewrite !Forall_cons. }
    { by apply read_name_some with (t := t5) (g := g5) (c := c) (rest := rest). }
    exists st'. split; [done|]. apply (finish_segment st' _ _ _ c rest E1 E2 E3 E4 E5 E6 E7 E8); try done.
    + cbn. destruct (allow_names options); [|done]. destruct (has_names st); cbn; [done|by rewrite mappings_of_named].
    + cbn. destruct (allow_names options); [|done]. destruct (has_names st); cbn; [by intros _; apply Hnamed|intros _; apply named_ensure].
    + cbn. by rewrite Ogen.
    + cbn. by rewrite Osort.
    + cbn. destruct (allow_names options); [|by apply Hallow]. by destruct (Onames eq_refl) as [-> _].
Qed.

(** *** Where the pass is *)
(** At [pos] with the numbers of a state that the loop reaches, and in the room for rows. *)
Record on_track (room pos : nat) (a : Acc) : Prop := {
  ot_state : exists st, reached all sources_count options st /\ leaves_off all options st (kernel_out pos a);
  ot_pos : (pos <= length all)%nat;
  ot_rows : (length (out_rows a) <= room)%nat
}.

Lemma parse_rounds_snoc n st st1 st2 :
  parse_rounds all sources_count options n st = Some (Ok st1) -> remaining st1 <> [] ->
  parse_round all sources_count options st1 = Some (Ok st2) -> parse_rounds all sources_count options (S n) st = Some (Ok st2).
Proof using Type.
  revert st. induction n as [|n IH]; intros st E Hne Er.
  - cbn [parse_rounds] in *. injection E as ->. destruct (remaining st1); [done|]. by rewrite Er.
  - cbn [parse_rounds] in E. change (parse_rounds all sources_count options (S (S n)) st) with
      (match remaining st with [] => None | _ => try (parse_round all sources_count options st) (fun st => parse_rounds all sources_count options (S n) st) end).
    destruct (remaining st); [done|]. unfold try in *. destruct (parse_round _ _ _ st) as [[st'|e]|]; cbn [mbind option_bind] in *; [by apply IH|done|done].
Qed.

Lemma on_track_semicolons room pos a run :
  on_track room pos a -> (0 < run <= count_while is_semicolon (drop pos all))%nat -> on_track room (pos + run) (down_lines a (Z.of_nat run)).
Proof using Hlen.
  intros [(st & (n & st0 & k & E & Hk & ->) & [Orem Ogen Oorig Osrc Osort Onames Orows]) Hpos Hrows] Hrun.
  cbn [kernel_out k_resume k_gen k_orig k_source k_needs_sort k_name k_has_names k_rows past_semicolons remaining gen_at orig_at source_at needs_sort name_at has_names mapping] in *.
  rewrite <-Orem, count_while_drop in Hrun by done.
  pose proof (count_while_le is_semicolon (drop pos all)) as Hle. rewrite <-Orem, count_while_drop, !length_drop in Hle by done.
  destruct (parse_rounds_forward all sources_count options n _ st0 Hlen (parsing_ok_init all sources_count) E) as [[[P1 P2] _ _ _ _] Hrem].
  cbn [parse_init remaining] in Hrem. pose proof (count_while_le is_semicolon (remaining st0)).
  split; [| |done].
  - exists (past_semicolons (k + run) st0). split; [exists n, st0, (k + run)%nat; splits; [done|lia|done]|].
    split; cbn; try done; [by rewrite <-drop_drop, Orem, drop_drop|].
    destruct (Nat.eqb_spec (k + run) 0); [lia|]. unfold WrapAdd. rewrite wrap_i32_id.
    + destruct (Nat.eqb_spec k 0) as [->|]; [rewrite Ogen; cbn; do 2 f_equal; lia|]. injection Ogen as <- _. f_equal. lia.
    + destruct (Nat.eqb_spec k 0) as [->|]; [rewrite Ogen in P1, P2; cbn in P1, P2|injection Ogen as <- _]; unfold is_i32; lia.
  - apply (f_equal length) in Orem. rewrite !length_drop in Orem. lia.
Qed.

Lemma on_track_segment room pos a a' ts gs c rest :
  on_track room pos a -> drop pos all = concat ts ++ c :: rest -> Forall2 (Forall2 digit_of_char) ts gs ->
  Forall is_number gs -> Forall (fun g => (length g <= 8)%nat) gs -> is_delim c = true ->
  (length gs = 1 \/ length gs = 4 \/ length gs = 5)%nat ->
  commit (allow_names options) sources_count (length gs) (deltas_of gs) a = Some a' -> (length (out_rows a') <= room)%nat ->
  on_track room (pos + (length (concat ts) + if c =? ","%u8 then 1 else 0)) a'.
Proof using Hlen Hsources.
  intros [(st & Hreach & Hoff) Hpos Hrows] Htext Hts Hnum Hshort Hc Hcount Hcommit Hroom.
  destruct (reached_loop all sources_count options st Hlen Hreach) as [Hsame _].
  destruct (segment_round st pos a a' ts gs c rest Hoff Hsame Htext Hts Hnum Hshort Hc Hcount Hcommit) as (st' & Er & Hoff').
  destruct Hreach as (n & st0 & k & E & Hk & ->).
  destruct (parse_rounds_forward all sources_count options n _ st0 Hlen (parsing_ok_init all sources_count) E) as [[[P1 P2] _ _ _ _] _].
  pose proof (lo_remaining _ _ _ _ Hoff) as Orem. cbn [kernel_out k_resume past_semicolons remaining] in Orem.
  rewrite <-parse_round_past in Er by (done || lia).
  split; [|apply (f_equal length) in Htext; rewrite length_drop, length_app in Htext; cbn in Htext; destruct (c =? _); lia|done].
  exists st'. split; [|done]. exists (S n), st', 0%nat. splits; [|lia|by destruct st'].
  apply (parse_rounds_snoc n _ st0 st' E); [|done]. intros E0. rewrite E0, drop_nil, Htext in Orem. by destruct (concat ts).
Qed.
End Rounds.

(** ** The segments of a block *)
Lemma delta_none : delta [] = 0.
Proof. reflexivity. Qed.

Lemma numbers_parts sx g : closed sx -> g ∈ numbers sx -> (length g + length (numbers sx) <= length sx + 1)%nat.
Proof.
  intros Hc Hg. destruct (numbers_ok sx Hc) as [Hn _]. rewrite <-(numbers_concat sx) at 2. revert Hg Hn.
  induction (numbers sx) as [|h gs IH]; [by intros ?%not_elem_of_nil|]. intros [->|Hg]%elem_of_cons [Hh Hgs]%Forall_cons; cbn [concat length]; rewrite length_app.
  - assert (length gs <= length (concat gs))%nat; [|lia]. clear -Hgs. induction Hgs as [|g gs Hg _ IH]; [done|]. cbn [concat length]. rewrite length_app.
    destruct g; [done|]. cbn. lia.
  - specialize (IH Hg Hgs). destruct h; [done|]. cbn. lia.
Qed.

Lemma field_count_numbers sx : closed sx -> (length sx <= 64)%nat ->
  field_count_of (length sx) (ToBits (map has_more sx)) = length (numbers sx).
Proof.
  intros Hc Hl. destruct (numbers_length sx Hc) as [-> _]. unfold field_count_of. rewrite bits_count by (by rewrite length_map).
  destruct (Z.eqb_spec (ToBits (map has_more sx)) 0) as [E|]; [|done]. apply bits_zero in E.
  assert (count_true (map has_more sx) = 0%nat) as ->; [|lia]. unfold count_true. induction E as [|b l -> _ IH]; done.
Qed.

(** Decoding a segment gives its numbers, or leaves it to the loop. *)
Lemma decode_segment_spec blk room p sx :
  lies_at (sextets blk) (cont_bits blk) p sx -> closed sx -> Forall sextet_ok sx -> (length sx <= 10)%nat -> (length (numbers sx) <= 5)%nat ->
  exists r, decode_segment blk room p (length sx) (ToBits (map has_more sx)) (length (numbers sx)) = Some r /\
    forall d, r = Some d -> d = deltas_of (numbers sx) /\ (length (numbers sx) = 1 \/ length (numbers sx) = 4 \/ length (numbers sx) = 5)%nat /\
      Forall (fun g => (length g <= 8)%nat) (numbers sx) /\ (length (numbers sx) <> 1%nat -> room = true).
Proof.
  intros Hat Hcl Hsx Hlen Hn. destruct (numbers_ok sx Hcl) as [Hnum Hne].
  assert (Hshort : (2 < length (numbers sx))%nat \/ (length sx <= 7)%nat -> Forall (fun g => (length g <= 8)%nat) (numbers sx)).
  { intros H. apply Forall_forall. intros g Hg. pose proof (numbers_parts sx g Hcl Hg). lia. }
  assert (Hnth : forall k, (k < length (numbers sx))%nat -> numbers sx !! k = Some (nth k (numbers sx) [])).
  { intros k Hk. destruct (lookup_lt_is_Some_2 _ _ Hk) as [g Hg]. by rewrite nth_lookup, Hg. }
  unfold decode_segment. destruct (4 <=? length (numbers sx))%nat eqn:H4; cbn [andb].
  - apply Nat.leb_le in H4. assert (Hfc : (length (numbers sx) = 4 \/ length (numbers sx) = 5)%nat) by lia.
    destruct room; cbn [negb]; [|destruct (shuffles _); eexists; (split; [done|done])].
    destruct (shuffles _) eqn:Hsh.
    + eexists. split; [done|]. intros d [= <-]. splits; [|lia|apply Hshort; lia|done].
      pose proof (shuffle_numbers _ _ _ _ _ Hat Hcl Hsx Hlen Hn eq_refl Hsh) as Hs.
      unfold deltas_of. f_equal; try (eapply Hs, Hnth; lia). destruct (Nat.eqb_spec (length (numbers sx)) 5); [eapply Hs, Hnth; lia|].
      rewrite nth_overflow by lia. done.
    + rewrite <-(numbers_concat sx) in Hat. pose proof (f_equal length (numbers_concat sx)) as Hcat.
      destruct (numbers sx) as [|g1 [|g2 [|g3 [|g4 gs]]]]; try (cbn in Hfc; lia). cbn [concat] in Hat, Hcat. rewrite !length_app in Hcat.
      apply lies_app in Hat as [A1 Hat]. apply lies_app in Hat as [A2 Hat]. apply lies_app in Hat as [A3 Hat]. apply lies_app in Hat as [A4 Hat].
      pose proof Hnum as Hall. rewrite !Forall_cons in Hall. destruct Hall as (N1 & N2 & N3 & N4 & N5).
      rewrite (DecodeVlqSextets_number _ _ _ (p + length sx) g1) by (done || lia). cbn [mbind option_bind].
      rewrite (DecodeVlqSextets_number _ _ _ (p + length sx) g2) by (done || lia). cbn [mbind option_bind].
      rewrite (DecodeVlqSextets_number _ _ _ (p + length sx) g3) by (done || lia). cbn [mbind option_bind].
      rewrite (DecodeVlqSextets_number _ _ _ (p + length sx) g4) by (done || lia). cbn [mbind option_bind].
      destruct gs as [|g5 [|]]; [| |cbn in Hn; lia]; cbn [length Nat.eqb].
      * eexists. split; [done|]. intros d [= <-]. splits; [done|by auto|apply Hshort; cbn; lia|done].
      * cbn [concat] in Hat, Hcat. rewrite app_nil_r in Hat. rewrite length_app in Hcat. apply Forall_inv in N5.
        rewrite (DecodeVlqSextets_number _ _ _ (p + length sx) g5) by (done || lia). cbn [mbind option_bind].
        eexists. split; [done|]. intros d [= <-]. splits; [done|by auto|apply Hshort; cbn; lia|done].
  - apply Nat.leb_gt in H4. destruct (Nat.eqb_spec (length (numbers sx)) 1) as [E1|]; [|by eexists].
    destruct (Nat.ltb_spec 7 (length sx)); [by eexists|]. pose proof (numbers_concat sx) as Hcat.
    destruct (numbers sx) as [|g [|]]; try done. cbn [concat] in Hcat. rewrite app_nil_r in Hcat. subst g. apply Forall_inv in Hnum.
    rewrite (DecodeVlqSextets_number _ _ _ (p + length sx) sx) by (done || lia). cbn [mbind option_bind].
    eexists. split; [done|]. intros d [= <-]. splits; [done|by left|apply Hshort; by right|done].
Qed.

Lemma run_of_semicolons l rest : (count_while id (map lane_semi l) <= count_while is_semicolon (l ++ rest))%nat.
Proof. induction l as [|b l IH]; cbn [map count_while app]; [lia|]. change (is_semicolon b) with (lane_semi b). cbn [id]. destruct (lane_semi b); lia. Qed.

Lemma first_unset l : (length l <= 64)%nat ->
  if not64 (ToBits l) =? 0 then length l = 64%nat /\ count_while id l = 64%nat
  else Num0BitsBelowLS1Bit_Nonzero64 (not64 (ToBits l)) = count_while id l.
Proof.
  intros Hl. rewrite bits_not by done.
  assert (Hc : count_while negb (map negb l ++ replicate (64 - length l) true) = count_while id l).
  { generalize (64 - length l)%nat as k. clear Hl. induction l as [|b l IH]; intros k; cbn [map app count_while]; [by destruct k|].
    destruct b; cbn [negb id]; [by rewrite IH|done]. }
  destruct (Z.eqb_spec (ToBits (map negb l ++ replicate (64 - length l) true)) 0) as [E|E].
  - apply bits_zero in E. apply Forall_app in E as [E1 E2].
    destruct (64 - length l)%nat eqn:Ek; [|by apply Forall_inv in E2]. split; [lia|]. assert (length l = 64)%nat as <- by lia.
    clear -E1. induction l as [|b l IH]; [done|]. cbn [map] in E1. apply Forall_cons in E1 as [Hb E1]. destruct b; [|done]. cbn. by rewrite IH.
  - rewrite bits_first; [done| |rewrite length_app, length_map, length_replicate; lia].
    rewrite Hc. destruct (decide (count_while id l < length (map negb l ++ replicate (64 - length l) true))%nat) as [|Hge]; [done|].
    exfalso. apply E. apply bits_zero. pose proof (count_while_le id l). rewrite length_app, length_map, length_replicate in Hge.
    replace (64 - length l)%nat with 0%nat by lia. cbn [replicate]. rewrite app_nil_r.
    assert (Hall : count_while id l = length l) by lia. clear -Hall. induction l as [|b l IH]; [constructor|]. cbn [count_while length map] in *.
    destruct b; cbn [id] in Hall; [|done]. constructor; [done|]. apply IH. lia.
Qed.

(** ** Sums of a column, proved *)
Definition total (l : list Z) : Z := foldr Z.add 0 l.

Lemma total_app l l' : total (l ++ l') = total l + total l'.
Proof. induction l as [|x l IH]; cbn [app total foldr]; [done|]. unfold total in *. lia. Qed.

Lemma total_step l i : (i < length l)%nat -> total (take (S i) l) = total (take i l) + nth i l 0.
Proof.
  intros Hi. destruct (lookup_lt_is_Some_2 l i Hi) as [x Hx]. rewrite (take_S_r _ _ _ Hx), total_app, nth_lookup, Hx. cbn. lia.
Qed.

Lemma wrap_add_l x y : wrap_i32 (wrap_i32 x + y) = wrap_i32 (x + y).
Proof.
  unfold wrap_i32. f_equal. replace ((x + 2147483648) mod 4294967296 - 2147483648 + y + 2147483648) with ((x + 2147483648) mod 4294967296 + y) by lia.
  rewrite Z.add_mod_idemp_l by lia. f_equal. lia.
Qed.
Lemma wrap_add_r x y : wrap_i32 (x + wrap_i32 y) = wrap_i32 (x + y).
Proof. by rewrite Z.add_comm, wrap_add_l, Z.add_comm. Qed.
Lemma wrap_add_both x y x' y' : wrap_i32 x = wrap_i32 x' -> wrap_i32 y = wrap_i32 y' -> WrapAdd x y = wrap_i32 (x' + y').
Proof. intros Hx Hy. unfold WrapAdd. by rewrite <-wrap_add_l, Hx, wrap_add_l, <-wrap_add_r, Hy, wrap_add_r. Qed.

(** One step: windows of [s] lanes become windows of twice as many. *)
Definition windows (v w : list Z) (s : nat) : Prop :=
  length w = length v /\ forall i, (i < length v)%nat -> wrap_i32 (nth i w 0) = wrap_i32 (total (take (S i) v) - total (take (S i - s) v)).

Lemma slide_step v w s : (0 < s <= length v)%nat -> windows v w s ->
  windows v (Add w (SlideUpLanes w s)) (2 * s) /\ Forall (fun z => wrap_i32 z = z) (Add w (SlideUpLanes w s)).
Proof.
  intros Hs [Hl Hw]. assert (Hsl : length (SlideUpLanes w s) = length v).
  { unfold SlideUpLanes. rewrite length_app, length_replicate, length_take. lia. }
  assert (Hnth : forall i, (i < length v)%nat -> nth i (Add w (SlideUpLanes w s)) 0 = WrapAdd (nth i w 0) (nth i (SlideUpLanes w s) 0)).
  { intros i Hi. destruct (lookup_lt_is_Some_2 w i) as [x Hx]; [lia|]. destruct (lookup_lt_is_Some_2 (SlideUpLanes w s) i) as [y Hy]; [lia|].
    unfold Add. by rewrite !nth_lookup, lookup_zip_with, Hx, Hy. }
  assert (Hla : length (Add w (SlideUpLanes w s)) = length v) by (unfold Add; rewrite length_zip_with; lia).
  assert (Hid : Forall (fun z => wrap_i32 z = z) (Add w (SlideUpLanes w s))).
  { apply Forall_lookup. intros i z Hz. apply lookup_lt_Some in Hz as Hi. rewrite Hla in Hi. specialize (Hnth i Hi). rewrite nth_lookup, Hz in Hnth. cbn in Hnth.
    rewrite Hnth. apply wrap_i32_id, wrap_i32_range. }
  split; [|done]. split; [done|]. intros i Hi. rewrite Hnth by done. unfold WrapAdd at 1. rewrite (wrap_i32_id (wrap_i32 _)) by apply wrap_i32_range.
  unfold SlideUpLanes. rewrite (nth_lookup (_ ++ _)). destruct (decide (i < s)%nat) as [His|His].
  - rewrite lookup_app_l, lookup_replicate_2 by (rewrite ?length_replicate; lia). cbn [default]. rewrite Z.add_0_r, Hw by done.
    by replace (S i - s)%nat with (S i - 2 * s)%nat by lia.
  - rewrite lookup_app_r, length_replicate, lookup_take_lt by (rewrite ?length_replicate; lia). rewrite <-nth_lookup.
    change (wrap_i32 (nth i w 0 + nth (i - s) w 0)) with (WrapAdd (nth i w 0) (nth (i - s) w 0)).
    rewrite (wrap_add_both _ _ _ _ (Hw i Hi) (Hw (i - s)%nat ltac:(lia))). f_equal.
    replace (S (i - s)) with (S i - s)%nat by lia. replace (S i - s - s)%nat with (S i - 2 * s)%nat by lia. lia.
Qed.

Lemma prefix_loop_spec fuel v w s : (0 < s)%nat -> (length v <= s + fuel)%nat -> windows v w s -> Forall (fun z => wrap_i32 z = z) w ->
  exists r, prefix_loop_i32 fuel w s = Some r /\ length r = length v /\ forall i, (i < length v)%nat -> nth i r 0 = wrap_i32 (total (take (S i) v)).
Proof.
  revert w s. induction fuel as [|fuel IH]; intros w s Hs Hf Hw Hid; cbn [prefix_loop_i32]; pose proof Hw as [Hl Hwin]; destruct (Nat.ltb_spec s (length w)); try lia.
  1,3: exists w; splits; [done|done|]; intros i Hi; specialize (Hwin i Hi); replace (S i - s)%nat with 0%nat in Hwin by lia;
    rewrite take_0, Z.sub_0_r in Hwin; rewrite <-Hwin; destruct (lookup_lt_is_Some_2 w i) as [x Hx]; [lia|];
    rewrite nth_lookup, Hx; symmetry; exact (Forall_lookup_1 _ _ _ _ Hid Hx).
  destruct (slide_step v w s ltac:(lia) Hw) as [Hw' Hid']. apply IH; [lia|lia|done|done].
Qed.

Lemma PrefixSumI32_spec v : (0 < length v)%nat ->
  exists r, PrefixSumI32 v = Some r /\ length r = length v /\ forall i, (i < length v)%nat -> nth i r 0 = wrap_i32 (total (take (S i) v)).
Proof.
  intros Hl. destruct (slide_step v v 1 ltac:(lia)) as [Hw Hid].
  { split; [done|]. intros i Hi. rewrite total_step by done. replace (S i - 1)%nat with i by lia. f_equal. lia. }
  apply (prefix_loop_spec (length v) v _ 2); [lia|lia|done|done].
Qed.

Lemma column_sums_spec N col start : (length col <= kLanesI32 N)%nat -> (0 < kLanesI32 N)%nat ->
  exists r, column_sums N col start = Some r /\ length r = kLanesI32 N /\
    forall i, (i < kLanesI32 N)%nat -> nth i r 0 = wrap_i32 (start + total (take (S i) col)).
Proof.
  intros Hl H0. unfold column_sums. set (v := col ++ replicate (kLanesI32 N - length col) 0).
  assert (Hv : length v = kLanesI32 N) by (unfold v; rewrite length_app, length_replicate; lia).
  destruct (PrefixSumI32_spec v ltac:(lia)) as (r & -> & Hr & Hn). cbn [mbind option_bind]. eexists. split; [done|].
  unfold Add. rewrite length_zip_with, length_replicate. split; [lia|]. intros i Hi.
  destruct (lookup_lt_is_Some_2 r i) as [x Hx]; [lia|]. specialize (Hn i ltac:(lia)). rewrite nth_lookup, Hx in Hn. cbn in Hn. subst x.
  rewrite nth_lookup, lookup_zip_with, Hx, lookup_replicate_2 by done. cbn. unfold WrapAdd. rewrite wrap_add_l, Z.add_comm. do 2 f_equal.
  unfold v. rewrite take_app, total_app. assert (forall k n, total (take k (replicate n 0)) = 0) as Hz.
  { clear. intros k n. rewrite take_replicate. generalize (k `min` n)%nat. intros j. induction j as [|j IH]; [done|]. cbn. unfold total in IH. lia. }
  rewrite Hz. lia.
Qed.

(** One row at most is written for a segment. *)
Lemma commit_rows names sources_count n d a a' room :
  commit names sources_count n d a = Some a' -> (length (out_rows a) <= room)%nat -> (n <> 1%nat -> (length (out_rows a) < room)%nat) ->
  (length (out_rows a') <= room)%nat.
Proof.
  unfold commit. intros E H1 Hn. destruct (_ <? 0); [done|]. destruct (Nat.eqb_spec n 1); [by injection E as <-|].
  destruct (_ <? 0); [done|]. injection E as <-. specialize (Hn ltac:(done)). cbn [push_row out_rows]. rewrite length_app. cbn [length].
  destruct (n =? 5)%nat; cbn [with_name with_original with_gen_col sort_if out_rows]; lia.
Qed.

Section InBlock.
Context (N : nat) (HN : (16 <= N <= 64)%nat) (all : bytes) (Hbytes : Forall is_byte all) (sources_count : Z) (options : ParseOptions) (room : nat).
Context (Hlen : Z.of_nat (length all) <= 2147483647) (Hsources : 0 <= sources_count <= 2147483647).
Context (pos : nat) (Hpos : (pos + N <= length all)%nat).

#[local] Abbreviation bl := (take N (drop pos all)).
#[local] Abbreviation blk := (ClassifyBlock (take N (drop pos all))).
#[local] Abbreviation names := (allow_names options).
#[local] Abbreviation track := (on_track all sources_count options room).

Lemma block_length : length bl = N.
Proof using Hpos. clear -Hpos. rewrite length_take, length_drop. lia. Qed.

Lemma block_text p : (p <= N)%nat -> drop (pos + p) all = drop p bl ++ drop (pos + N) all.
Proof using Hpos.
  clear -Hpos. intros Hp. rewrite <-(drop_drop all p pos), <-(take_drop N (drop pos all)) at 1. rewrite drop_app_le by (rewrite block_length; done).
  by rewrite drop_drop.
Qed.

(** The digits of the [sl] lanes from [p] on. *)
Definition digits_at (p sl : nat) : list Z := map lane_sextet (take sl (drop p bl)).

(** A segment from [p] on: [sl] digits and a delimiter. *)
Record segment_at (p sl : nat) (c : Z) : Prop := {
  sg_text : exists rest, drop (pos + p) all = take sl (drop p bl) ++ c :: rest;
  sg_delim : is_delim c = true;
  sg_comma : (if (c =? ","%u8)%Z then 1 else 0)%nat = (if nth (p + sl) (map lane_semi bl) false then 0 else 1)%nat;
  sg_length : length (digits_at p sl) = sl;
  sg_digits : Forall2 digit_of_char (take sl (drop p bl)) (digits_at p sl);
  sg_range : Forall sextet_ok (digits_at p sl);
  sg_conts : take sl (drop p (map lane_cont bl)) = map has_more (digits_at p sl);
  sg_at : lies_at (sextets blk) (cont_bits blk) p (digits_at p sl)
}.

Lemma segment_found p sl :
  (p + sl < N)%nat -> (forall i, (p <= i < p + sl)%nat -> nth i (map lane_delim bl) false = false /\ nth i (map lane_invalid bl) false = false) ->
  nth (p + sl) (map lane_delim bl) false = true -> exists c, segment_at p sl c.
Proof using Hpos Hbytes.
  clear -Hpos Hbytes. intros Hsl Hdig Hend. pose proof block_length as Hbl.
  assert (Hb : Forall is_byte bl) by (by apply Forall_take, Forall_drop).
  destruct (lookup_lt_is_Some_2 bl (p + sl)) as [c Hc]; [lia|].
  assert (Hcb : is_byte c) by (by eapply (Forall_lookup_1 _ _ _ _ Hb)).
  rewrite nth_lookup, list_lookup_fmap, Hc in Hend. cbn in Hend.
  assert (Hlane : Forall (fun b => digit_of_char b (lane_sextet b) /\ sextet_ok (lane_sextet b) /\ lane_cont b = has_more (lane_sextet b)) (take sl (drop p bl))).
  { apply Forall_lookup. intros i b Hi. apply lookup_take_Some in Hi as [Hi Hlt]. rewrite lookup_drop in Hi.
    destruct (Hdig (p + i)%nat ltac:(lia)) as [Hd Hv]. rewrite nth_lookup, list_lookup_fmap, Hi in Hd, Hv. cbn in Hd, Hv.
    destruct (lane_facts b) as (_ & _ & H); [by eapply (Forall_lookup_1 _ _ _ _ Hb)|]. by apply H. }
  assert (Hl : length (take sl (drop p bl)) = sl) by (rewrite length_take, length_drop, Hbl; lia).
  exists c. split.
  - exists (drop (S (p + sl)) bl ++ drop (pos + N) all). rewrite block_text by lia.
    rewrite <-(take_drop sl (drop p bl)) at 1. rewrite drop_drop, (drop_S _ _ _ Hc), <-app_assoc. done.
  - by destruct (lane_facts c Hcb) as [<- _].
  - rewrite nth_lookup, list_lookup_fmap, Hc. cbn. unfold lane_delim, lane_semi in *.
    destruct (c =? ","%u8) eqn:E; [by apply Z.eqb_eq in E; rewrite E|]. cbn in Hend. cbn. by rewrite Hend.
  - unfold digits_at. by rewrite length_map.
  - unfold digits_at. apply Forall2_fmap_r, Forall_Forall2_diag. eapply Forall_impl; [exact Hlane|]. by intros b (? & _).
  - unfold digits_at. apply Forall_fmap. eapply Forall_impl; [exact Hlane|]. by intros b (_ & ? & _).
  - unfold digits_at. rewrite map_map, <-fmap_drop, <-fmap_take. apply Forall_fmap_ext_1. eapply Forall_impl; [exact Hlane|]. by intros b (_ & _ & ?).
  - intros i s Hs. unfold digits_at in Hs. apply list_lookup_fmap_Some in Hs as (b & -> & Hi).
    pose proof (Forall_lookup_1 _ _ _ _ Hlane Hi) as (_ & _ & Hcont). apply lookup_take_Some in Hi as [Hi Hlt]. rewrite lookup_drop in Hi.
    cbn [ClassifyBlock sextets cont_bits]. split.
    + rewrite nth_lookup, lookup_app_l by (rewrite length_map; by eapply lookup_lt_Some). by rewrite list_lookup_fmap, Hi.
    + by rewrite bits_test, nth_lookup, list_lookup_fmap, Hi.
Qed.

(** The text of a segment, number by number. *)
Lemma split_digits t gs : Forall2 digit_of_char t (concat gs) -> exists ts, concat ts = t /\ Forall2 (Forall2 digit_of_char) ts gs.
Proof using Type.
  revert t. induction gs as [|g gs IH]; intros t H; cbn [concat] in H.
  - apply Forall2_nil_inv_r in H as ->. exists []. by split.
  - apply Forall2_app_inv_r in H as (t1 & t2 & H1 & H2 & ->). destruct (IH t2 H2) as (ts & <- & Hts). exists (t1 :: ts). by split; [|constructor].
Qed.

(** Committing a segment keeps the pass on track. *)
Lemma commit_segment p sl c a a' :
  track (pos + p) a -> segment_at p sl c -> closed (digits_at p sl) ->
  let n := length (numbers (digits_at p sl)) in
  (n = 1 \/ n = 4 \/ n = 5)%nat -> Forall (fun g => (length g <= 8)%nat) (numbers (digits_at p sl)) ->
  commit names sources_count n (deltas_of (numbers (digits_at p sl))) a = Some a' -> (length (out_rows a') <= room)%nat ->
  track (pos + (p + (sl + if nth (p + sl) (map lane_semi bl) false then 0 else 1))) a'.
Proof using Hlen Hsources Hpos.
  cbv zeta. intros Ht [[rest Htext] Hdelim Hcomma Hl Hdig Hrange _ _] Hcl Hn Hshort Hcommit Hroom.
  destruct (numbers_ok _ Hcl) as [Hnum _]. rewrite <-(numbers_concat (digits_at p sl)) in Hdig.
  destruct (split_digits _ _ Hdig) as (ts & Ets & Hts). rewrite <-Ets in Htext.
  pose proof (on_track_segment all sources_count options Hlen Hsources room (pos + p) a a' ts _ c rest Ht Htext Hts Hnum Hshort Hdelim Hn Hcommit Hroom) as H.
  rewrite Hcomma, Ets, (Forall2_length _ _ _ Hdig), numbers_concat, Hl in H. by rewrite Nat.add_assoc.
Qed.

(** *** Segment by segment, proved *)
#[local] Abbreviation delims := (map lane_delim bl).
#[local] Abbreviation semis := (map lane_semi bl).
#[local] Abbreviation conts := (map lane_cont bl).
#[local] Abbreviation invalids := (map lane_invalid bl).

Lemma leading_semis_spec p a :
  (p <= N)%nat -> track (pos + p) a ->
  exists a1 d s c p1, leading_semis N a (ToBits (drop p delims)) (ToBits (drop p semis)) (ToBits (drop p conts)) p = (a1, (d, s, c), p1) /\
    (p <= p1 <= N)%nat /\ track (pos + p1) a1 /\
    ((p1 < N)%nat -> d = ToBits (drop p1 delims) /\ s = ToBits (drop p1 semis) /\ c = ToBits (drop p1 conts)).
Proof using HN Hlen Hpos.
  intros Hp Ht. unfold leading_semis. rewrite bits_odd. destruct (nth 0 (drop p semis) false) eqn:E0.
  2: { eexists a, _, _, _, p. splits; [done|lia|lia|done|]. by intros _. }
  pose proof block_length as Hbl. assert (Hsl : length (drop p semis) = (N - p)%nat) by (by rewrite length_drop, length_map, Hbl).
  pose proof (first_unset (drop p semis) ltac:(lia)) as Hrun.
  assert (Hpos1 : (0 < count_while id (drop p semis))%nat).
  { destruct (drop p semis) as [|b l]; [done|]. cbn in E0. subst b. cbn. lia. }
  assert (Hcount : (count_while id (drop p semis) <= count_while is_semicolon (drop (pos + p) all))%nat).
  { rewrite block_text by done. rewrite <-fmap_drop. apply run_of_semicolons. }
  pose proof (count_while_le id (drop p semis)) as Hle.
  assert (Htrack : track (pos + (p + count_while id (drop p semis))) (down_lines a (Z.of_nat (count_while id (drop p semis))))).
  { rewrite Nat.add_assoc. apply on_track_semicolons; [done|done|lia]. }
  destruct (_ =? 0).
  - destruct Hrun as [H1 H2]. rewrite H2 in Htrack. assert (p = 0%nat /\ N = 64%nat) as [-> HN64] by lia.
    eexists _, _, _, _, N. splits; [done|lia|lia| |lia]. rewrite HN64. exact Htrack.
  - rewrite Hrun, !bits_shift, !drop_drop. eexists _, _, _, _, _. splits; [done|lia|lia|done|done].
Qed.

(** The next delimiter, and the segment in front of it. *)
Lemma next_delim p :
  (p < N)%nat -> Z.odd (ToBits (drop p delims)) = false -> ToBits (drop p delims) <> 0 ->
  let sl := Num0BitsBelowLS1Bit_Nonzero64 (ToBits (drop p delims)) in
  (0 < sl)%nat /\ (p + sl < N)%nat /\ nth (p + sl) delims false = true /\ forall i, (p <= i < p + sl)%nat -> nth i delims false = false.
Proof using HN Hpos.
  cbv zeta. intros Hp Hodd Hne. pose proof block_length as Hbl. set (l := drop p delims) in *.
  assert (Hl : length l = (N - p)%nat) by (unfold l; by rewrite length_drop, length_map, Hbl).
  pose proof (count_while_le negb l) as Hle.
  assert (Hlt : (count_while negb l < length l)%nat).
  { destruct (decide (count_while negb l < length l)%nat); [done|]. exfalso. apply Hne, bits_zero.
    pose proof (take_count_while negb l) as H. replace (count_while negb l) with (length l) in H by lia. rewrite firstn_all in H.
    eapply Forall_impl; [exact H|]. by intros []. }
  rewrite bits_first by lia. rewrite bits_odd in Hodd.
  assert (Hnth : forall i, nth i l false = nth (p + i) delims false) by (intros i; unfold l; by rewrite !nth_lookup, lookup_drop).
  splits.
  - destruct l as [|[] l']; [cbn in Hlt; lia|done|cbn; lia].
  - lia.
  - rewrite <-Hnth. destruct (lookup_lt_is_Some_2 l (count_while negb l) Hlt) as [b Hb].
    pose proof (drop_count_while negb l b ltac:(by rewrite (drop_S _ _ _ Hb))) as Hneg. rewrite nth_lookup, Hb. by destruct b.
  - intros i Hi. replace i with (p + (i - p))%nat by lia. rewrite <-Hnth.
    destruct (lookup_lt_is_Some_2 l (i - p)) as [b Hb]; [lia|]. rewrite nth_lookup, Hb.
    assert (Ht : take (count_while negb l) l !! (i - p)%nat = Some b) by (by rewrite lookup_take_lt by lia).
    pose proof (Forall_lookup_1 _ _ _ _ (take_count_while negb l) Ht) as H. by destruct b.
Qed.

(** A segment whose last digit ends a number. *)
Lemma segment_closed p sl c : segment_at p sl c -> (0 < sl)%nat ->
  (Z.land (Z.shiftr (ToBits (drop p conts)) (Z.of_nat sl - 1)) 1 =? 1) = false -> closed (digits_at p sl).
Proof using Type.
  clear HN Hpos Hlen Hsources Hbytes. intros [_ _ _ Hl _ _ Hc _] Hsl H. replace (Z.of_nat sl - 1) with (Z.of_nat (sl - 1)) in H by lia.
  rewrite bits_shift, land_low_bit, bits_odd in H by apply bits_nonneg.
  apply closed_last; [intros E; rewrite E in Hl; cbn in Hl; lia|]. rewrite Hl, <-Hc, nth_lookup.
  rewrite lookup_take_lt by (clear -Hsl; lia).
  by rewrite nth_lookup, lookup_drop, Nat.add_0_r in H.
Qed.

Lemma general_loop_spec first_invalid fuel p a :
  (forall i, (i < first_invalid)%nat -> nth i invalids false = false) ->
  (N - p < fuel)%nat -> (p <= N)%nat -> track (pos + p) a ->
  exists bail p' a', general_loop N names room sources_count fuel blk first_invalid (ToBits (drop p delims)) (ToBits (drop p semis)) (ToBits (drop p conts)) p a
      = Some (bail, p', a') /\ (p <= p' <= N)%nat /\ track (pos + p') a' /\ (bail = false -> (0 < p')%nat).
Proof using HN Hlen Hpos Hsources Hbytes.
  intros Hinv. revert p a. induction fuel as [|fuel IH]; intros p a Hf Hp Ht; [lia|]. cbn [general_loop].
  destruct (leading_semis_spec p a Hp Ht) as (a1 & d & s & c & p1 & -> & Hp1 & Ht1 & Hwords).
  destruct (Nat.leb_spec N p1); [exists false, p1, a1; splits; (done || lia)|]. destruct (Hwords ltac:(done)) as (-> & -> & ->). clear Hwords.
  destruct (Z.odd (ToBits (drop p1 delims))) eqn:Hodd; [exists true, p1, a1; splits; (done || lia)|].
  destruct (Z.eqb_spec (ToBits (drop p1 delims)) 0) as [|Hne].
  { exists (p1 =? 0)%nat, p1, a1. splits; [done|lia|lia|done|]. intros ?%Nat.eqb_neq. lia. }
  destruct (next_delim p1 ltac:(done) Hodd Hne) as (Hsl0 & Hsl & Hend & Hnone).
  set (sl := Num0BitsBelowLS1Bit_Nonzero64 (ToBits (drop p1 delims))) in *. clearbody sl.
  assert (Hbail : exists bail p' a', Some (true, p1, a1) = Some (bail, p', a') /\ (p <= p' <= N)%nat /\ track (pos + p') a' /\ (bail = false -> (0 < p')%nat))
    by (exists true, p1, a1; splits; (done || lia)).
  destruct (Nat.ltb_spec first_invalid (p1 + sl)); [exact Hbail|].
  destruct (segment_found p1 sl Hsl) as [c Hseg]; [|done|].
  { intros i Hi. split; [by apply Hnone|apply Hinv; lia]. }
  destruct (Z.land (Z.shiftr (ToBits (drop p1 conts)) (Z.of_nat sl - 1)) 1 =? 1) eqn:Hlast; [exact Hbail|]. cbn [orb].
  destruct (Nat.ltb_spec 10 sl); [exact Hbail|].
  pose proof (segment_closed p1 sl c Hseg Hsl0 Hlast) as Hcl. pose proof Hseg as [_ _ _ Hl _ Hrange Hconts Hat].
  rewrite bits_take, Hconts.
  pose proof (field_count_numbers _ Hcl ltac:(lia)) as Hfc. rewrite Hl in Hfc. rewrite Hfc.
  destruct (Nat.ltb_spec 5 (length (numbers (digits_at p1 sl)))); [exact Hbail|].
  destruct (decode_segment_spec blk (length (out_rows a1) <? room)%nat p1 _ Hat Hcl Hrange ltac:(lia) ltac:(lia)) as (r & Er & Hr). rewrite Hl in Er.
  rewrite Er. cbn [mbind option_bind]. destruct r as [ds|]; [|exact Hbail]. cbn [mbind option_bind].
  destruct (Hr ds eq_refl) as (-> & Hn & Hshort & Hroom). clear Hr Er.
  destruct (commit _ _ _ _ a1) as [a2|] eqn:Hcommit; [|exact Hbail].
  assert (Hrows : (length (out_rows a2) <= room)%nat) by (eapply commit_rows; [exact Hcommit|apply Ht1|]; intros ?; by apply Nat.ltb_lt, Hroom).
  pose proof (commit_segment p1 sl c a1 a2 Ht1 Hseg Hcl Hn Hshort Hcommit Hrows) as Ht2.
  rewrite bits_test. assert (Hs : nth sl (drop p1 semis) false = nth (p1 + sl) semis false) by (by rewrite !nth_lookup, lookup_drop).
  rewrite Hs. set (adv := (sl + if nth (p1 + sl) semis false then 0 else 1)%nat) in *.
  assert (Hadv : (0 < adv /\ p1 + adv <= N)%nat) by (unfold adv; destruct (nth _ semis false); lia). clearbody adv.
  destruct (Nat.leb_spec N (p1 + adv)); [exists false, (p1 + adv)%nat, a2; splits; (done || lia)|].
  rewrite !bits_shift, !drop_drop.
  destruct (IH (p1 + adv)%nat a2) as (bail & p' & a' & E & Hp' & Ht' & Hpr); [lia|lia|done|]. exists bail, p', a'. splits; (done || lia).
Qed.

Lemma general_spec a : track pos a ->
  exists bail p' a', general N names room sources_count blk a = Some (bail, p', a') /\ (p' <= N)%nat /\ track (pos + p') a' /\ (bail = false -> (0 < p')%nat).
Proof using HN Hlen Hpos Hsources Hbytes.
  intros Ht. unfold general. rewrite <-(Nat.add_0_r pos) in Ht. pose proof block_length as Hbl.
  set (fi := if invalid_bits blk =? 0 then N else _).
  assert (Hfi : forall i, (i < fi)%nat -> nth i invalids false = false).
  { intros i Hi. unfold fi in Hi. cbn [ClassifyBlock invalid_bits] in Hi.
    assert (Hl : length invalids = N) by (by rewrite length_map). destruct (Z.eqb_spec (ToBits invalids) 0) as [E|E].
    - apply bits_zero in E. rewrite nth_lookup. destruct (invalids !! i) as [b|] eqn:Eb; [|done]. by apply (Forall_lookup_1 _ _ _ _ E Eb).
    - destruct (decide (count_while negb invalids < length invalids)%nat) as [Hlt|Hge].
      + rewrite bits_first in Hi by lia. rewrite nth_lookup. destruct (invalids !! i) as [b|] eqn:Eb; [|done].
        assert (Htk : take (count_while negb invalids) invalids !! i = Some b) by (by rewrite lookup_take_lt).
        pose proof (Forall_lookup_1 _ _ _ _ (take_count_while negb invalids) Htk) as H. by destruct b.
      + exfalso. apply E, bits_zero. pose proof (count_while_le negb invalids). pose proof (take_count_while negb invalids) as Hall.
        rewrite take_ge in Hall by lia. eapply Forall_impl; [exact Hall|]. by intros []. }
  clearbody fi. destruct (general_loop_spec fi (S N) 0 a Hfi) as (bail & p' & a' & E & Hp & Ht' & Hb); [lia|lia|done|].
  rewrite !drop_0 in E. exists bail, p', a'. splits; (done || lia).
Qed.

(** *** Uniform blocks, proved *)
Lemma comma5_bit n i : Z.testbit (foldr (fun k w => Z.lor w (Z.shiftl 1 (Z.of_nat (4 + 5 * k)))) 0 (seq 0 n)) (Z.of_nat i) =
  existsb (fun k => (i =? 4 + 5 * k)%nat) (seq 0 n).
Proof using Type.
  clear. induction (seq 0 n) as [|k l IH]; cbn [foldr existsb]; [by rewrite Z.bits_0|].
  rewrite Z.lor_spec, IH, orb_comm, Z.shiftl_1_l, Z.pow2_bits_eqb by lia. f_equal.
  destruct (Nat.eqb_spec i (4 + 5 * k)), (Z.eqb_spec (Z.of_nat (4 + 5 * k)) (Z.of_nat i)); (done || lia).
Qed.

(** What the test of a uniform block says of a lane. *)
Lemma uniform_lane i :
  Z.land (Z.lor (Z.lor (Z.lor (cont_bits blk) (semi_bits blk)) (invalid_bits blk)) (Z.lxor (delim_bits blk) (kComma5 N))) (kMask5 N) = 0 ->
  (i < kSeg5 N * 5)%nat ->
  nth i conts false = false /\ nth i semis false = false /\ nth i invalids false = false /\ nth i delims false = (i mod 5 =? 4)%nat.
Proof using HN.
  clear Hpos Hlen Hsources Hbytes. intros E Hi. apply (f_equal (fun z => Z.testbit z (Z.of_nat i))) in E. cbn [ClassifyBlock cont_bits semi_bits invalid_bits delim_bits] in E.
  unfold kMask5, MaskBelow in E. rewrite Z.bits_0, Z.land_spec in E.
  assert (H5 : (kSeg5 N * 5 <= 64)%nat) by (unfold kSeg5 in *; pose proof (Nat.mul_div_le N 5); lia).
  assert (Hm : Z.testbit (if (64 <=? kSeg5 N * 5)%nat then u64_max else Z.shiftl 1 (Z.of_nat (kSeg5 N * 5)) - 1) (Z.of_nat i) = true).
  { destruct (Nat.leb_spec 64 (kSeg5 N * 5)).
    - change u64_max with (Z.ones 64). apply Z.ones_spec_low. lia.
    - rewrite Z.shiftl_1_l, Z.sub_1_r, <-Z.ones_equiv. apply Z.ones_spec_low. lia. }
  rewrite Hm, andb_true_r, !Z.lor_spec, Z.lxor_spec, !bits_test in E.
  apply orb_false_iff in E as [[[-> ->]%orb_false_iff ->]%orb_false_iff E]. splits; [done..|]. apply xorb_eq in E. rewrite E.
  unfold kComma5. rewrite comma5_bit. pose proof (Nat.div_mod_eq i 5) as Hd. pose proof (Nat.mod_upper_bound i 5 ltac:(lia)) as Hu.
  destruct (Nat.eqb_spec (i mod 5) 4) as [E4|E4].
  - apply existsb_exists. exists (i / 5)%nat. split; [apply in_seq; lia|]. apply Nat.eqb_eq. lia.
  - apply not_true_is_false. intros (k & _ & Hk%Nat.eqb_eq)%existsb_exists. apply E4. rewrite Hk. replace (4 + 5 * k)%nat with (4 + k * 5)%nat by lia. by rewrite Nat.Div0.mod_add.
Qed.

(** Four digits that end numbers, and a delimiter that is not a semicolon. *)
Lemma four_digits p :
  (p + 4 < N)%nat -> (forall i, (i < 4)%nat -> nth (p + i) conts false = false /\ nth (p + i) invalids false = false /\ nth (p + i) delims false = false) ->
  nth (p + 4) delims false = true ->
  exists c, segment_at p 4 c /\ closed (digits_at p 4) /\
    numbers (digits_at p 4) = map (fun s => [s]) (digits_at p 4) /\
    forall k, (k < 4)%nat -> SignMagI8 (nth (p + k) (map lane_sextet bl) 0) = delta (nth k (numbers (digits_at p 4)) []).
Proof using Hpos Hbytes.
  clear HN. intros Hp Hdig Hend. destruct (segment_found p 4 Hp) as [c Hseg]; [|done|].
  { intros i Hi. destruct (Hdig (i - p)%nat ltac:(lia)) as (_ & H1 & H2). by replace (p + (i - p))%nat with i in * by lia. }
  exists c. pose proof Hseg as [_ _ _ Hl _ Hrange Hconts _].
  assert (Hone : Forall (fun s => has_more s = false) (digits_at p 4)).
  { apply Forall_lookup. intros i s Hs. apply lookup_lt_Some in Hs as Hi. rewrite Hl in Hi. destruct (Hdig i Hi) as (Hc & _).
    apply (f_equal (fun l => nth i l false)) in Hconts. rewrite !nth_lookup, list_lookup_fmap, Hs, lookup_take_lt, lookup_drop in Hconts by lia.
    rewrite nth_lookup in Hc. cbn in Hconts. by rewrite <-Hconts. }
  assert (Hnum : numbers (digits_at p 4) = map (fun s => [s]) (digits_at p 4)).
  { clear -Hone. induction Hone as [|s sx Hs _ IH]; [done|]. cbn [numbers map]. by rewrite Hs, IH. }
  splits; [done| |done|].
  - apply closed_last; [intros E; by rewrite E in Hl|]. rewrite nth_lookup, list_lookup_fmap, Hl.
    destruct (digits_at p 4 !! (4 - 1)%nat) as [s|] eqn:Es; [|done]. cbn. by apply (Forall_lookup_1 _ _ _ _ Hone Es).
  - intros k Hk. rewrite Hnum. destruct (lookup_lt_is_Some_2 (digits_at p 4) k) as [s Hs]; [lia|].
    rewrite (nth_lookup (map _ (digits_at p 4))), list_lookup_fmap, Hs. cbn [fmap option_fmap option_map default].
    assert (nth (p + k) (map lane_sextet bl) 0 = s) as ->.
    { unfold digits_at in Hs. rewrite list_lookup_fmap, lookup_take_lt, lookup_drop in Hs by lia. rewrite nth_lookup, list_lookup_fmap.
      by destruct (bl !! (p + k)%nat); cbn in *; [injection Hs|]. }
    apply decode_i16_one; [by apply (Forall_lookup_1 _ _ _ _ Hrange Hs)|by apply (Forall_lookup_1 _ _ _ _ Hone Hs)].
Qed.

(** A segment of four, committed without a check. *)
Definition add_four (d : Deltas) (a : Acc) : Acc :=
  with_original (with_gen_col a (WrapAdd (gen_col a) (d_gen d))) (WrapAdd (src_idx a) (d_src d)) (WrapAdd (orig_line a) (d_ol d)) (WrapAdd (orig_col a) (d_oc d)).
Definition in_range (a : Acc) : Prop :=
  0 <= gen_col a /\ 0 <= src_idx a /\ 0 <= WrapSub (sources_count - 1) (src_idx a) /\ 0 <= orig_line a /\ 0 <= orig_col a.

Lemma commit_four d a : in_range (add_four d a) -> commit names sources_count 4 d a = Some (push_row names (add_four d (sort_if (d_gen d <? 0) a))).
Proof using Type.
  clear. unfold in_range, commit. cbn [add_four gen_col src_idx orig_line orig_col with_original with_gen_col]. intros (H1 & H2 & H3 & H4 & H5).
  rewrite (proj2 (Z.ltb_ge _ _)) by done. cbn [Nat.eqb]. rewrite (proj2 (Z.ltb_ge _ _)); [done|]. by rewrite !Z.lor_nonneg.
Qed.

(** One segment of a uniform or a batched block. *)
Lemma four_step p sl c a : track (pos + p) a -> segment_at p sl c -> closed (digits_at p sl) -> length (numbers (digits_at p sl)) = 4%nat ->
  Forall (fun g => (length g <= 8)%nat) (numbers (digits_at p sl)) -> nth (p + sl) semis false = false ->
  in_range (add_four (deltas_of (numbers (digits_at p sl))) a) -> (length (out_rows a) < room)%nat ->
  track (pos + (p + (sl + 1))) (push_row names (add_four (deltas_of (numbers (digits_at p sl))) (sort_if (d_gen (deltas_of (numbers (digits_at p sl))) <? 0) a))).
Proof using Hlen Hsources Hpos.
  clear HN Hbytes. intros Ht Hseg Hcl Hn Hshort Hsemi Hrange Hroom.
  pose proof (commit_segment p sl c a) as H. cbv zeta in H. rewrite Hn, Hsemi in H. apply H; [done..|by right; left|done|by apply commit_four|].
  cbn. rewrite length_app. cbn. lia.
Qed.

Lemma lor_negative x y : (Z.lor x y <? 0) = (x <? 0) || (y <? 0).
Proof using Type. clear. pose proof (Z.lor_neg x y). destruct (Z.ltb_spec (Z.lor x y) 0), (Z.ltb_spec x 0), (Z.ltb_spec y 0); cbn; (done || lia). Qed.

Lemma uniform_range n dp a sort range a' sort' range' :
  uniform_loop names sources_count n dp a sort range = (a', sort', range') -> 0 <= range' -> 0 <= range.
Proof using Type.
  clear. revert dp a sort range. induction n as [|n IH]; intros dp a sort range E H; cbn [uniform_loop] in E; [by simplify_eq|].
  apply IH in E; [|done]. by apply Z.lor_nonneg in E as [? _].
Qed.

(** The digits' values are those of the lanes. *)
Lemma uniform_deltas p k : nth k (drop p (map SignMagI8 (take N (sextets blk)))) 0 = SignMagI8 (nth (p + k) (map lane_sextet bl) 0).
Proof using Hpos.
  clear HN Hlen Hsources Hbytes. pose proof block_length as Hbl. cbn [ClassifyBlock sextets].
  rewrite take_app_le by (by rewrite length_map, Hbl). rewrite (take_ge (map _ _)) by (by rewrite length_map, Hbl).
  rewrite !nth_lookup, lookup_drop, (list_lookup_fmap SignMagI8). by destruct (map lane_sextet bl !! (p + k)%nat).
Qed.

Lemma uniform_loop_spec n j a sort range a' sort' range' :
  (forall i, (i < kSeg5 N * 5)%nat -> nth i conts false = false /\ nth i semis false = false /\ nth i invalids false = false /\ nth i delims false = (i mod 5 =? 4)%nat) ->
  (j + n = kSeg5 N)%nat -> (length (out_rows a) + n <= room)%nat ->
  uniform_loop names sources_count n (drop (5 * j) (map SignMagI8 (take N (sextets blk)))) a sort range = (a', sort', range') -> 0 <= range' ->
  track (pos + 5 * j) (sort_if (sort <? 0) a) -> track (pos + 5 * (j + n)) (sort_if (sort' <? 0) a').
Proof using HN Hlen Hsources Hpos Hbytes.
  intros Hlane. revert j a sort range. induction n as [|n IH]; intros j a sort range Hj Hroom E Hrange Ht; cbn [uniform_loop] in E.
  { simplify_eq. by rewrite Nat.add_0_r. }
  assert (H5 : (5 * S j <= N)%nat) by (unfold kSeg5 in Hj; pose proof (Nat.mul_div_le N 5); lia).
  assert (Hmod : forall i, (i < 5)%nat -> ((5 * j + i) mod 5 = i)%nat).
  { intros i Hi. replace (5 * j + i)%nat with (i + j * 5)%nat by lia. rewrite Nat.Div0.mod_add. by apply Nat.mod_small. }
  destruct (four_digits (5 * j) ltac:(lia)) as (c & Hseg & Hcl & Hnum & Hd).
  { intros i Hi. destruct (Hlane (5 * j + i)%nat ltac:(lia)) as (-> & _ & -> & ->). rewrite Hmod by lia. splits; [done..|]. apply Nat.eqb_neq. lia. }
  { destruct (Hlane (5 * j + 4)%nat ltac:(lia)) as (_ & _ & _ & ->). by rewrite Hmod by lia. }
  rewrite !uniform_deltas, !Hd in E by lia. rewrite drop_drop in E. replace (5 * j + 5)%nat with (5 * S j)%nat in E by lia.
  set (ds := deltas_of (numbers (digits_at (5 * j) 4))) in *.
  change (delta (nth 0 (numbers (digits_at (5 * j) 4)) [])) with (d_gen ds) in E. change (delta (nth 1 (numbers (digits_at (5 * j) 4)) [])) with (d_src ds) in E.
  change (delta (nth 2 (numbers (digits_at (5 * j) 4)) [])) with (d_ol ds) in E. change (delta (nth 3 (numbers (digits_at (5 * j) 4)) [])) with (d_oc ds) in E.
  pose proof (uniform_range _ _ _ _ _ _ _ _ E Hrange) as H0. apply Z.lor_nonneg in H0 as [_ H0]. rewrite !Z.lor_nonneg in H0.
  pose proof (sg_length _ _ _ Hseg) as Hl.
  pose proof (four_step (5 * j) 4 c _ Ht Hseg Hcl) as Hstep. rewrite Hnum in Hstep at 1 2. rewrite length_map, Hl in Hstep. fold ds in Hstep.
  replace (5 * (j + S n))%nat with (5 * (S j + n))%nat by lia.
  refine (IH (S j) _ _ _ ltac:(lia) _ E Hrange _); [cbn; rewrite length_app; cbn; lia|].
  replace (5 * S j)%nat with (5 * j + (4 + 1))%nat by lia. rewrite lor_negative.
  assert (Hsame : push_row names (add_four ds (sort_if (d_gen ds <? 0) (sort_if (sort <? 0) a))) = sort_if ((sort <? 0) || (d_gen ds <? 0)) (push_row names (add_four ds a))).
  { unfold push_row, sort_if, add_four, with_original, with_gen_col, row_of. cbn. by rewrite orb_assoc. }
  refine (eq_ind _ (track _) (Hstep eq_refl _ _ _ _) _ Hsame); [| | |cbn; lia].
  - apply Forall_map, Forall_forall. intros x _. cbn. lia.
  - by destruct (Hlane (5 * j + 4)%nat ltac:(lia)) as (_ & -> & _).
  - unfold in_range. cbn. by destruct H0 as [[[[? ?] ?] ?] ?].
Qed.

Lemma uniform_spec a a' taken : uniform N names room sources_count blk a = Some (Some (a', taken)) -> track pos a ->
  track (pos + taken) a' /\ (0 < taken <= N)%nat.
Proof using HN Hlen Hsources Hpos Hbytes.
  unfold uniform. intros E Ht. destruct (_ && _) eqn:Hc; [|done]. apply andb_true_iff in Hc as [Hc%Z.eqb_eq Hroom%Nat.leb_le].
  destruct (uniform_loop _ _ _ _ _ _ _) as [[a1 sort] range] eqn:El. destruct (Z.ltb_spec range 0) as [|Hrange]; [done|]. simplify_eq.
  assert (H5 : (0 < kSeg5 N * 5 <= N)%nat) by (unfold kSeg5; pose proof (Nat.mul_div_le N 5); pose proof (Nat.div_le_mono 16 N 5); cbn in *; lia).
  split; [|done]. rewrite Nat.mul_comm. apply (uniform_loop_spec (kSeg5 N) 0 a 0 0 a1 sort range (fun i => uniform_lane i Hc)); [done|done|by rewrite drop_0|done|].
  rewrite Nat.mul_0_r, Nat.add_0_r. assert (sort_if (0 <? 0) a = a) as -> by (destruct a; unfold sort_if; cbn; by rewrite orb_false_r). done.
Qed.

(** *** Batched blocks, proved *)
(** Segments of four numbers one after the other, of these lengths. *)
Fixpoint chain (p : nat) (sls : list nat) (p' : nat) : Prop :=
  match sls with
  | [] => p' = p
  | sl :: sls =>
      (exists c, segment_at p sl c) /\ closed (digits_at p sl) /\ length (numbers (digits_at p sl)) = 4%nat /\
      Forall (fun g => (length g <= 8)%nat) (numbers (digits_at p sl)) /\ nth (p + sl) semis false = false /\ (4 <= sl)%nat /\
      chain (p + (sl + 1)) sls p'
  end.
Fixpoint chain_deltas (p : nat) (sls : list nat) : list Deltas :=
  match sls with [] => [] | sl :: sls => deltas_of (numbers (digits_at p sl)) :: chain_deltas (p + (sl + 1)) sls end.

Lemma chain_length p sls p' : chain p sls p' -> (p + 5 * length sls <= p')%nat /\ length (chain_deltas p sls) = length sls.
Proof using Type.
  clear. revert p. induction sls as [|sl sls IH]; intros p; cbn [chain chain_deltas length]; [lia|].
  intros (_ & _ & _ & _ & _ & H4 & Hc). destruct (IH _ Hc). lia.
Qed.

Lemma batch_walk_spec fuel p cols :
  (forall i, nth i semis false = false /\ nth i invalids false = false) -> (p < N)%nat -> (N - p <= fuel)%nat -> ToBits (drop p delims) <> 0 ->
  exists r, batch_walk N fuel (sextets blk) (ToBits (drop p delims)) (ToBits (drop p conts)) p cols = Some r /\
    forall cols' bp, r = Some (cols', bp) -> (bp <= N)%nat /\ exists sls, sls <> [] /\ chain p sls bp /\
      bcol_gc cols' = bcol_gc cols ++ map d_gen (chain_deltas p sls) /\ bcol_si cols' = bcol_si cols ++ map d_src (chain_deltas p sls) /\
      bcol_ol cols' = bcol_ol cols ++ map d_ol (chain_deltas p sls) /\ bcol_oc cols' = bcol_oc cols ++ map d_oc (chain_deltas p sls).
Proof using HN Hpos Hbytes.
  intros Hclean. revert p cols. induction fuel as [|fuel IH]; intros p cols Hp Hf Hne; [lia|]. cbn [batch_walk].
  destruct (Z.odd (ToBits (drop p delims))) eqn:Hodd.
  { unfold Num0BitsBelowLS1Bit_Nonzero64 at 1. cbn [low_zeros]. rewrite Hodd. by eexists. }
  destruct (next_delim p Hp Hodd Hne) as (Hsl0 & Hsl & Hend & Hnone). set (sl := Num0BitsBelowLS1Bit_Nonzero64 _) in *. clearbody sl.
  destruct (Nat.ltb_spec sl 4); [by eexists|]. destruct (Nat.ltb_spec 10 sl); [by eexists|]. cbn [orb].
  destruct (Z.land (Z.shiftr _ _) 1 =? 1) eqn:Hlast; [by eexists|].
  destruct (segment_found p sl Hsl) as [c Hseg]; [|done|].
  { intros i Hi. split; [by apply Hnone|apply Hclean]. }
  pose proof (segment_closed p sl c Hseg Hsl0 Hlast) as Hcl. pose proof Hseg as [_ _ _ Hl _ Hrange Hconts Hat].
  rewrite bits_take, Hconts. pose proof (field_count_numbers _ Hcl ltac:(lia)) as Hfc. rewrite Hl in Hfc. rewrite Hfc.
  destruct (Nat.eqb_spec (length (numbers (digits_at p sl))) 4) as [Hn|]; [|by eexists]. cbn [negb orb].
  destruct (shuffles _) eqn:Hsh; [|by eexists]. cbn [negb].
  pose proof (shuffle_numbers _ _ _ _ _ Hat Hcl Hrange ltac:(lia) ltac:(lia) eq_refl Hsh) as Hdv.
  set (dv := ShuffleDecodeI16 _ _) in *. clearbody dv.
  assert (Hnth : forall k, (k < 4)%nat -> nth k dv 0 = delta (nth k (numbers (digits_at p sl)) [])).
  { intros k Hk. apply Hdv. destruct (lookup_lt_is_Some_2 (numbers (digits_at p sl)) k) as [g Hg]; [lia|]. by rewrite nth_lookup, Hg. }
  assert (Hshort : Forall (fun g => (length g <= 8)%nat) (numbers (digits_at p sl))).
  { apply Forall_forall. intros g Hg. pose proof (numbers_parts _ g Hcl Hg). lia. }
  assert (Hone : forall sls bp, chain (p + (sl + 1)) sls bp -> chain p (sl :: sls) bp).
  { intros sls bp Hc. cbn [chain]. splits; try done; [by exists c|apply Hclean]. }
  rewrite !bits_shift, !drop_drop. destruct (_ || _) eqn:Hstop.
  - eexists. split; [done|]. intros cols' bp [= <- <-]. split; [lia|]. exists [sl]. splits; [done|by apply Hone|..]; cbn; by rewrite Hnth by lia.
  - apply orb_false_iff in Hstop as [Hne'%Z.eqb_neq Hlt%Nat.leb_gt].
    destruct (IH (p + (sl + 1))%nat (stage cols dv) Hlt ltac:(lia) Hne') as (r & -> & Hr). eexists. split; [done|].
    intros cols' bp E. destruct (Hr cols' bp E) as (Hbp & sls & _ & Hc & E1 & E2 & E3 & E4). split; [done|]. exists (sl :: sls).
    splits; [done|by apply Hone|..]; cbn [chain_deltas map]; rewrite ?E1, ?E2, ?E3, ?E4; cbn [stage bcol_gc bcol_si bcol_ol bcol_oc]; rewrite <-app_assoc, Hnth by lia; done.
Qed.

(** Adding segments one by one. *)
Fixpoint adds (ds : list Deltas) (a : Acc) : Acc :=
  match ds with [] => a | d :: ds => adds ds (push_row names (add_four d (sort_if (d_gen d <? 0) a))) end.
(** The lane of a column behind the [i]th of them. *)
Definition lane (start : Z) (f : Deltas -> Z) (ds : list Deltas) (i : nat) : Z := wrap_i32 (start + total (take (S i) (map f ds))).
(** The numbers behind the [i]th of them, from the lanes. *)
Definition at_lane (ds : list Deltas) (a : Acc) (i : nat) : Acc :=
  with_original (with_gen_col a (lane (gen_col a) d_gen ds i)) (lane (src_idx a) d_src ds i) (lane (orig_line a) d_ol ds i) (lane (orig_col a) d_oc ds i).

Lemma lane_first start f d ds : lane start f (d :: ds) 0 = WrapAdd start (f d).
Proof using Type. clear. unfold lane, WrapAdd. cbn. by rewrite Z.add_0_r. Qed.
Lemma lane_next start f d ds i : lane start f (d :: ds) (S i) = lane (WrapAdd start (f d)) f ds i.
Proof using Type. clear. unfold lane, WrapAdd. rewrite wrap_add_l. f_equal. cbn [map take total foldr]. unfold total. lia. Qed.

Lemma at_lane_next d ds a i :
  row_of names (at_lane (d :: ds) a (S i)) = row_of names (at_lane ds (push_row names (add_four d (sort_if (d_gen d <? 0) a))) i).
Proof using Type. clear. unfold at_lane. rewrite !lane_next. reflexivity. Qed.

(** All at once is one by one. *)
Lemma adds_lanes ds a : ds <> [] ->
  adds ds a = at_lane ds (sort_if (existsb (fun d => d_gen d <? 0) ds) (append_rows a (map (fun i => row_of names (at_lane ds a i)) (seq 0 (length ds))))) (length ds - 1).
Proof using Type.
  clear. revert a. induction ds as [|d ds IH]; intros a Hne; [done|]. cbn [adds]. destruct ds as [|d' ds].
  - cbn [adds length seq map existsb Nat.sub]. unfold at_lane. cbn [sort_if append_rows gen_col src_idx orig_line orig_col with_gen_col with_original].
    rewrite !lane_first, orb_false_r. reflexivity.
  - rewrite IH by done. set (a1 := push_row names _). set (ds' := d' :: ds).
    assert (Hrows : map (fun i => row_of names (at_lane (d :: ds') a i)) (seq 0 (length (d :: ds'))) =
      row_of names (add_four d (sort_if (d_gen d <? 0) a)) :: map (fun i => row_of names (at_lane ds' a1 i)) (seq 0 (length ds'))).
    { cbn [length seq map]. f_equal.
      - unfold at_lane. rewrite !lane_first. reflexivity.
      - rewrite <-seq_shift, map_map. apply map_ext. intros i. apply at_lane_next. }
    rewrite Hrows. clear Hrows. replace (length (d :: ds') - 1)%nat with (S (length ds' - 1)) by (cbn; lia).
    generalize (map (fun i => row_of names (at_lane ds' a1 i)) (seq 0 (length ds'))) as rows. intros rows.
    unfold at_lane. cbn [gen_col src_idx orig_line orig_col append_rows existsb sort_if]. rewrite !lane_next.
    unfold a1, push_row. generalize (row_of names (add_four d (sort_if (d_gen d <? 0) a))) as row. intros row.
    unfold add_four, append_rows, with_original, with_gen_col, sort_if.
    cbn [gen_line gen_col orig_line orig_col src_idx name_idx acc_needs_sort acc_has_names out_rows]. by rewrite <-app_assoc, orb_assoc.
Qed.

(** Every one of them is in range. *)
Fixpoint all_in_range (ds : list Deltas) (a : Acc) : Prop :=
  match ds with [] => True | d :: ds => in_range (add_four d a) /\ all_in_range ds (push_row names (add_four d (sort_if (d_gen d <? 0) a))) end.

Lemma lanes_in_range ds a : (forall i, (i < length ds)%nat -> in_range (at_lane ds a i)) -> all_in_range ds a.
Proof using Type.
  clear. revert a. induction ds as [|d ds IH]; intros a H; cbn [all_in_range]; [done|]. split.
  - specialize (H 0%nat ltac:(cbn; lia)). unfold at_lane in H. by rewrite !lane_first in H.
  - apply IH. intros i Hi. specialize (H (S i) ltac:(cbn; lia)). unfold at_lane in H. by rewrite !lane_next in H.
Qed.

Lemma chain_track p sls p' a :
  chain p sls p' -> track (pos + p) a -> all_in_range (chain_deltas p sls) a -> (length (out_rows a) + length sls <= room)%nat ->
  track (pos + p') (adds (chain_deltas p sls) a).
Proof using Hlen Hsources Hpos.
  clear HN Hbytes. revert p a. induction sls as [|sl sls IH]; intros p a; cbn [chain chain_deltas adds all_in_range length]; [by intros ->|].
  intros ([c Hseg] & Hcl & Hn & Hshort & Hsemi & _ & Hc) Ht [Hr Hrs] Hroom.
  apply IH; [done| |done|cbn; rewrite length_app; cbn; lia]. apply (four_step p sl c); (done || lia).
Qed.

(** The sums of the columns of [ds], in the lanes that are in use. *)
Lemma column_lanes start f ds col : col = map f ds -> (length ds <= kLanesI32 N)%nat ->
  exists r, column_sums N col start = Some r /\ length r = kLanesI32 N /\ forall i, (i < length ds)%nat -> nth i r 0 = lane start f ds i.
Proof using HN.
  clear Hlen Hsources Hpos Hbytes. intros -> Hl. destruct (column_sums_spec N (map f ds) start) as (r & E & Hr & Hn); [by rewrite length_map|unfold kLanesI32; pose proof (Nat.div_le_mono 16 N 4); cbn in *; lia|].
  exists r. splits; [done..|]. intros i Hi. apply Hn. lia.
Qed.

(** No lane is bad, so none of the numbers in it is. *)
Lemma bad_lanes (gc si ol oc : list Z) n i :
  length gc = n -> length si = n -> length ol = n -> length oc = n -> (i < n)%nat ->
  existsb (fun l => l <? 0) (zip_with Z.lor (zip_with Z.lor gc si) (zip_with Z.lor (map (WrapSub (sources_count - 1)) si) (zip_with Z.lor ol oc))) = false ->
  0 <= nth i gc 0 /\ 0 <= nth i si 0 /\ 0 <= WrapSub (sources_count - 1) (nth i si 0) /\ 0 <= nth i ol 0 /\ 0 <= nth i oc 0.
Proof using Type.
  clear. intros H1 H2 H3 H4 Hi Hbad.
  destruct (lookup_lt_is_Some_2 gc i) as [x1 E1]; [lia|]. destruct (lookup_lt_is_Some_2 si i) as [x2 E2]; [lia|].
  destruct (lookup_lt_is_Some_2 ol i) as [x3 E3]; [lia|]. destruct (lookup_lt_is_Some_2 oc i) as [x4 E4]; [lia|].
  rewrite !nth_lookup, E1, E2, E3, E4. cbn [default]. set (bad := zip_with _ _ _) in Hbad.
  assert (Hin : bad !! i = Some (Z.lor (Z.lor x1 x2) (Z.lor (WrapSub (sources_count - 1) x2) (Z.lor x3 x4)))).
  { unfold bad. rewrite !lookup_zip_with, list_lookup_fmap, E1, E2, E3, E4. reflexivity. }
  assert (H : 0 <= Z.lor (Z.lor x1 x2) (Z.lor (WrapSub (sources_count - 1) x2) (Z.lor x3 x4))).
  { apply Z.ltb_ge, not_true_is_false. intros Hneg. apply not_true_iff_false in Hbad. apply Hbad, existsb_exists.
    eexists. split; [|exact Hneg]. apply list_elem_of_In. by eapply list_elem_of_lookup_2. }
  rewrite !Z.lor_nonneg in H. by destruct H as [[? ?] [? [? ?]]].
Qed.

Lemma negative_deltas ds : existsb (fun l => l <? 0) (map d_gen ds) = existsb (fun d => d_gen d <? 0) ds.
Proof using Type. clear. induction ds as [|d ds IH]; cbn; [done|]. by rewrite IH. Qed.

Lemma batch_spec a : track pos a ->
  exists r, batch N names room sources_count blk a = Some r /\ forall a' taken, r = Some (a', taken) -> track (pos + taken) a' /\ (0 < taken <= N)%nat.
Proof using HN Hlen Hsources Hpos Hbytes.
  intros Ht. unfold batch. destruct (_ && _) eqn:Hc; [|by eexists]. apply andb_true_iff in Hc as [Hclean%Z.eqb_eq Hne%negb_true_iff%Z.eqb_neq].
  cbn [ClassifyBlock semi_bits invalid_bits delim_bits cont_bits] in *. apply Z.lor_eq_0_iff in Hclean as [Hs%bits_zero Hi%bits_zero].
  assert (Hclean : forall i, nth i semis false = false /\ nth i invalids false = false).
  { intros i. rewrite !nth_lookup. split; [destruct (semis !! i) eqn:E|destruct (invalids !! i) eqn:E]; try done;
      [by apply (Forall_lookup_1 _ _ _ _ Hs E)|by apply (Forall_lookup_1 _ _ _ _ Hi E)]. }
  destruct (batch_walk_spec N 0 no_columns Hclean ltac:(lia) ltac:(lia) ltac:(by rewrite drop_0)) as (r & E & Hr).
  rewrite !drop_0 in E. rewrite E. clear E. cbn [mbind option_bind].
  destruct r as [[cols bp]|]; [|by eexists]. destruct (Hr cols bp eq_refl) as (Hbp & sls & Hsls & Hch & E1 & E2 & E3 & E4). clear Hr.
  cbn [no_columns bcol_gc bcol_si bcol_ol bcol_oc app] in E1, E2, E3, E4. destruct (chain_length _ _ _ Hch) as [Hcl Hcd].
  set (ds := chain_deltas 0 sls) in *. assert (Hm : length (bcol_gc cols) = length ds) by (by rewrite E1, length_map). rewrite Hm.
  assert (Hk : (length ds <= kLanesI32 N)%nat) by (unfold kLanesI32; apply Nat.div_le_lower_bound; lia).
  assert (Hsl : (0 < length sls)%nat) by (clear -Hsls; destruct sls; [done|cbn; lia]). assert (Hds : (0 < length ds)%nat) by lia.
  destruct (Nat.ltb_spec room (length (out_rows a) + length ds)) as [|Hroom]; [by eexists|].
  destruct (column_lanes (gen_col a) d_gen ds _ E1 Hk) as (gc & -> & L1 & H1). destruct (column_lanes (src_idx a) d_src ds _ E2 Hk) as (si & -> & L2 & H2).
  destruct (column_lanes (orig_line a) d_ol ds _ E3 Hk) as (ol & -> & L3 & H3). destruct (column_lanes (orig_col a) d_oc ds _ E4 Hk) as (oc & -> & L4 & H4).
  cbn [mbind option_bind]. destruct (existsb _ (zip_with _ _ _)) eqn:Hbad; [by eexists|]. eexists. split; [done|]. intros a' taken [= <- <-].
  assert (Hrow : forall i, (i < length ds)%nat -> batch_row names a gc si ol oc i = row_of names (at_lane ds a i)).
  { intros i Hl. unfold batch_row, at_lane. by rewrite H1, H2, H3, H4 by done. }
  assert (Hrange : all_in_range ds a).
  { apply lanes_in_range. intros i Hl. unfold in_range, at_lane. cbn [gen_col src_idx orig_line orig_col with_gen_col with_original].
    rewrite <-H1, <-H2, <-H3, <-H4 by done. apply (bad_lanes gc si ol oc (kLanesI32 N)); (done || lia). }
  split; [|lia].
  pose proof (chain_track 0 sls bp a Hch ltac:(by rewrite Nat.add_0_r) Hrange ltac:(lia)) as Htr. fold ds in Htr.
  rewrite adds_lanes in Htr by (intros E; rewrite E in Hds; cbn in Hds; lia).
  rewrite H1, H2, H3, H4 by lia. rewrite E1, negative_deltas.
  rewrite (map_ext_in _ (fun i => row_of names (at_lane ds a i))); [exact Htr|]. intros i [_ Hl]%in_seq. by apply Hrow.
Qed.
(** *** The blocks, proved *)
Lemma block_step_spec a : track pos a ->
  exists bail pos' a', block_step N names room sources_count all pos a = Some (bail, pos', a') /\
    track pos' a' /\ (pos' <= pos + N)%nat /\ (bail = false -> (pos < pos')%nat).
Proof using HN Hlen Hsources Hpos Hbytes.
  intros Ht. unfold block_step.
  assert (Hfast : exists r, match uniform N names room sources_count blk a with Some whole => Some whole | None => batch N names room sources_count blk a end = Some r /\
    forall a' taken, r = Some (a', taken) -> track (pos + taken) a' /\ (0 < taken <= N)%nat).
  { destruct (uniform _ _ _ _ blk a) as [whole|] eqn:Eu; [|by apply batch_spec]. exists whole. split; [done|]. intros a' taken ->. by apply uniform_spec in Eu. }
  destruct Hfast as (r & -> & Hr). cbn [mbind option_bind]. destruct r as [[a1 taken]|].
  { destruct (Hr a1 taken eq_refl). exists false, (pos + taken)%nat, a1. splits; (done || lia). }
  destruct (general_spec a Ht) as (bail & p & a1 & -> & Hp & Ht1 & Hb). cbn [mbind option_bind].
  exists bail, (pos + p)%nat, a1. splits; [done|done|lia|]. intros E. specialize (Hb E). lia.
Qed.
End InBlock.

Lemma blocks_spec N all sources_count options room fuel pos a :
  (16 <= N <= 64)%nat -> Forall is_byte all -> Z.of_nat (length all) <= 2147483647 -> 0 <= sources_count <= 2147483647 ->
  (length all - pos <= fuel)%nat -> on_track all sources_count options room pos a ->
  exists pos' a', blocks N (allow_names options) room sources_count fuel all pos a = Some (pos', a') /\ on_track all sources_count options room pos' a'.
Proof.
  intros HN Hbytes Hlen Hsources. revert pos a. induction fuel as [|fuel IH]; intros pos a Hf Ht; cbn [blocks];
    (destruct (Nat.leb_spec (pos + N) (length all)) as [Hpos|]; [|by exists pos, a]); [lia|].
  destruct (block_step_spec N HN all Hbytes sources_count options room Hlen Hsources pos Hpos a Ht) as (bail & pos' & a' & -> & Ht' & _ & Hb). cbn [mbind option_bind].
  destruct bail; [by exists pos', a'|]. specialize (Hb eq_refl). apply IH; [lia|done].
Qed.

(** *** The contract, kept *)
Lemma highway_kernel_ok N : (16 <= N <= 64)%nat -> kernel_ok (highway_parse_mappings N).
Proof.
  intros HN all sources_count options room Hbytes Hlen Hsources.
  assert (Hstart : on_track all sources_count options room 0 acc_default).
  { split; [|lia|cbn; lia]. exists (parse_init all). split; [exists 0%nat, (parse_init all), 0%nat; splits; [done|lia|done]|]. split; try done. by destruct (allow_names options). }
  assert (Hout : forall pos a, on_track all sources_count options room pos a ->
    exists out st, Some (kernel_out pos a) = Some out /\ (k_resume out <= length all)%nat /\ (length (k_rows out) <= room)%nat /\
      reached all sources_count options st /\ leaves_off all options st out).
  { intros pos a [(st & Hr & Ho) Hp Hrows]. by exists (kernel_out pos a), st. }
  unfold highway_parse_mappings. destruct (_ || _); [exact (Hout _ _ Hstart)|].
  unfold ParseMappingsImpl. destruct (blocks_spec N all sources_count options room (length all) 0 acc_default HN Hbytes Hlen Hsources ltac:(lia) Hstart)
    as (pos & a & -> & Ht). cbn [mbind option_bind]. exact (Hout _ _ Ht).
Qed.

(** ** What the parser does with the pass *)

(** C13. A blob and the standard list agree.  The text that [append_vlq_to] writes for a blob whose
    mappings are in generated order is parsed, with the vectorised pass at any width and without
    it, into a list of the same mappings, and [List::find] in it gives what [find] in the blob
    gives, for every line and column. *)
Theorem list_find_matches N spare ops sources_count options simd_disabled :
  (16 <= N <= 64)%nat -> (forall ws n, length (spare ws n) = n) -> 0 <= sources_count <= 2147483647 ->
  Z.of_nat (length ops) <= 2 ^ 27 -> Forall printed_ok ops -> StronglySorted pos_le (taken_maps (taken_by ops)) ->
  Forall (fun m => source_index m < sources_count) (taken_maps (taken_by ops)) ->
  exists blob text, generate spare ops = Some blob /\ append_vlq_to blob [] = Some text /\
    (Z.of_nat (length text) <= 2147483647 ->
     exists l, parse text sources_count options (highway_parse_mappings N) simd_disabled = Some (Ok l) /\
       mappings_of l = map to_mapping (taken_maps (taken_by ops)) /\
       forall line column, list_find l line column = find blob line column).
Proof. intros HN Hs. apply read_back_pass; [exact Hs|by apply highway_kernel_ok]. Qed.
Lemma list_find_matches_witness :
  exists blob text, generate stale sample_ops = Some blob /\ append_vlq_to blob [] = Some text /\
    (Z.of_nat (length text) <= 2147483647 ->
     exists l, parse text 2 (Build_ParseOptions true true) (highway_parse_mappings 32) false = Some (Ok l) /\
       mappings_of l = map to_mapping (taken_maps (taken_by sample_ops)) /\
       forall line column, list_find l line column = find blob line column).
Proof.
  apply (list_find_matches 32 stale sample_ops 2 (Build_ParseOptions true true) false);
    [lia|exact stale_length|lia|done|exact sample_ops_ok|repeat constructor; vm_compute; reflexivity|].
  repeat constructor; vm_compute; reflexivity.
Defined.

(** Over the threshold of 128 bytes: names, a run of semicolons and uniform segments.  The rows that
    the pass writes and where it ends depend on the width. *)
Definition sample_mappings : bytes :=
  bstr "AAAA,CAACA;KACC" ++ mjoin (replicate 10 (bstr ",KACC")) ++ bstr ";;;;;CADE" ++ mjoin (replicate 20 (bstr ",KACC")).
Example sample_passes : map (fun N => out ← highway_parse_mappings N sample_mappings true 99 1; Some (length (k_rows out), k_resume out)) [16; 32; 64]%nat =
  [Some (32, 165); Some (29, 150); Some (24, 125)]%nat.
Proof. by vm_compute. Qed.

(** C14. [parse] ends on any bytes, of any encoding, without a panic, whether the vectorised pass runs
    or not: with an error at a place of the string, or with mappings whose coordinates are not
    negative and whose sources exist.  When it was asked to sort, they are in generated order,
    although it only sorts when a column went back, and lookup by binary search is lookup of the
    last mapping before. *)
Theorem parse_ends N all sources_count options simd_disabled :
  (16 <= N <= 64)%nat -> Forall is_byte all -> Z.of_nat (length all) <= 2147483647 -> 0 <= sources_count <= 2147483647 ->
  parsed_well all sources_count options (parse all sources_count options (highway_parse_mappings N) simd_disabled).
Proof. intros HN. by apply parse_pass_well, highway_kernel_ok. Qed.
Lemma parse_ends_witness :
  parsed_well sample_mappings 1 (Build_ParseOptions false true)
    (parse sample_mappings 1 (Build_ParseOptions false true) (highway_parse_mappings 16) false).
Proof. apply parse_ends; [lia|by decide_now|vm_compute; discriminate|lia]. Defined.

(** C31. The vectorised pass changes nothing.  At any width, on any bytes, the pass ends inside the string
    and the room for rows, with the rows and numbers of a state the scalar loop comes to, in front
    of a segment or behind some semicolons; and [parse] with it gives what [parse] without it
    gives: the same error at the same place, or the same mappings. *)
Theorem simd_parse_same N all sources_count options room :
  (16 <= N <= 64)%nat -> Forall is_byte all -> Z.of_nat (length all) <= 2147483647 -> 0 <= sources_count <= 2147483647 ->
  (exists out st, highway_parse_mappings N all (allow_names options) room sources_count = Some out /\
     (k_resume out <= length all)%nat /\ (length (k_rows out) <= room)%nat /\
     reached all sources_count options st /\ leaves_off all options st out) /\
  match parse all sources_count options (highway_parse_mappings N) false, parse all sources_count options (highway_parse_mappings N) true with
  | Some (Ok l), Some (Ok l') => mappings_of l = mappings_of l'
  | Some (Err e), Some (Err e') => e = e'
  | _, _ => False
  end.
Proof.
  intros HN Hbytes Hlen Hsources. pose proof (highway_kernel_ok N HN) as Hk. split; [by apply Hk|].
  pose proof (parse_same all sources_count options _ false Hk Hbytes Hlen Hsources) as H.
  pose proof (parse_pass_well all sources_count options _ true Hk Hbytes Hlen Hsources) as Hw.
  unfold agree, parsed_well in *. destruct (parse _ _ _ _ false) as [[l|e]|], (parse _ _ _ _ true) as [[l'|e']|]; done.
Qed.
Lemma simd_parse_same_witness :
  let all := replicate 127 ";"%u8 ++ bstr "AAAA" in
  k_resume <$> highway_parse_mappings 16 all true 128 1 = Some 127%nat /\
  ((exists out st, highway_parse_mappings 16 all true 128 1 = Some out /\
      (k_resume out <= length all)%nat /\ (length (k_rows out) <= 128)%nat /\
      reached all 1 (Build_ParseOptions true true) st /\ leaves_off all (Build_ParseOptions true true) st out) /\
   match parse all 1 (Build_ParseOptions true true) (highway_parse_mappings 16) false, parse all 1 (Build_ParseOptions true true) (highway_parse_mappings 16) true with
   | Some (Ok l), Some (Ok l') => mappings_of l = mappings_of l'
   | Some (Err e), Some (Err e') => e = e'
   | _, _ => False
   end).
Proof.
  split; [by vm_compute|]. apply (simd_parse_same 16 _ 1 (Build_ParseOptions true true) 128); [lia|by decide_now|vm_compute; discriminate|lia].
Defined.
